(* ===== verification/_CoqProject ===== *)
-Q . S2P
Prelude.v
GoStd.v
Float64.v
MoneyArith.v
MoneyText.v
Ring.v
Breaker.v
BreakerRace.v
Limiter.v
LimiterRace.v
Lru.v
FreqCap.v
RingBuffers.v
Trie.v
Decimal.v
Base62.v
Interval.v
Semaphore.v
Log4go.v
Sampling.v
Fsm.v
Bitset.v
LoadBalance.v
ConsistentHash.v
CountMin.v
Bloom.v
Heap.v
ItemHeap.v
PriorityQueue.v
TopK.v
WTimer.v
Batcher.v
Idempotency.v
WorkerPool.v
Spill.v
Adaptive.v
Latency.v
Pipeline.v
Calendar.v
Logline.v
FileWriter.v
Logger.v
KafkaPayload.v
KafkaWriter.v
IP.v
NetInfo.v
Auction.v
Shutdown.v
RedisLock.v
NetRetry.v
TcpPool.v
UdpRead.v
Fanout.v
HotKey.v
Retry.v
Debounce.v
ShortLink.v
Sets.v
SignalBus.v
Stage.v
FeatureFlag.v
HotReload.v
Health.v
FloatOrder.v
Budget.v
Backoff.v
SlidingWindow.v
GrpcClient.v
Signing.v
Bits.v
Reservoir.v
HyperLogLog.v
Stats.v
KafkaConsumer.v
KafkaProducer.v
Rate.v
DateTime.v
