(* ===== verification/Prelude.v ===== *)
(** * A verification library for kit4go

    kit4go is a Go toolkit of small packages for advertising back ends.  Most
    are independent of one another; what they share is the Go runtime, an
    injected clock, and one algorithm (a per-second ring of counters) that three
    of them carry a copy of.  This library models the packages whose logic
    decides about money, admission and retention, and proves what each of them
    promises to its callers.

    ** Conventions

    A Go function is a Rocq function of the same name (with a final underscore
    where the name is taken); a struct is a record; an error is a value; a panic
    is [None] or a distinguished result, as the definition's comment says.  A
    method that mutates its receiver returns the new receiver.  Integers are [Z];
    where a value can leave its type's range the wrap-around ([i64], [u64], ...
    below) is written at the operation.  A read of the clock is an argument of
    the operation that performs it, in unix nanoseconds.  Code held under one
    mutex is one step; where a package releases its lock, uses atomics or blocks,
    its callers are program counters and the package is a step relation, so that
    theorems range over all interleavings.

    ** Files

    Shared ground:
    - Prelude.v (this file): machine integers, list sums, tactics, hint databases.
    - GoStd.v: the functions of strconv, strings and fmt that the packages call,
      with the print/parse inverse lemmas.  Float64.v: float64 on the standard
      library's executable IEEE binary64.
    - Ring.v: the ring of counters of breaker.go, sliding_window.go and
      rate_alerter.go, once, refined to a log of events ([ring_sum_window]).

    Components (each models the directory of the same name under src/):
    - MoneyArith.v, MoneyText.v: money.go and currency.go.  [Money] is an int64
      and a currency.  Add, Sub, Mul, Div and its four rounding modes are exact or
      report why not; [Allocate] conserves every minor unit and succeeds exactly
      when it can; printing and parsing are inverse; FromMajor is exact; every
      constructor yields a well-formed amount.
    - Breaker.v: breaker.go, options.go.  [Execute] as one call nothing interferes
      with.  The window trips as the log of calls says; the breaker rejects while
      open, reopens on a failing probe and recovers after enough successes.
      BreakerRace.v has the same code one atomic operation at a time ([move]) with
      any number of callers: exclusive lock, exact counters, the four transitions and
      the trip rule under every interleaving, a bound on the operations of a call and
      no deadlock; the bound on probes fails there ([breaker_race_overadmits]).
    - Limiter.v: the [Limiter] interface as a class [LimiterOps] with its laws
      [LimiterLaws], instances for the five algorithms, [NewLimiter] and the
      shared polling loop [Wait], proved against the class.  The sliding window
      refines a log, GCRA conforms to its rate and burst, the fixed window never
      exceeds its cap for sequential callers; LimiterRace.v gives the fixed
      window's atomics one step each and exhibits the schedule that does.
    - Lru.v: lru.go as element heap, list of ids and key map; it refines
      an association list in recency order, callbacks included, for every map
      iteration order, and retains an entry until [maxSize] others are touched.
    - FreqCap.v: freqcap.go with the aliasing of trimmed slices; the cap holds in
      every window, the key map stays bounded.
    - RingBuffers.v: ringbuffer.go (with its condition variable: FIFO under all
      interleavings, no lost wake-up), ringbuf.go and queue.go refine lists.
    - Trie.v: trie.go refines a finite map on segment lists.
    - Decimal.v: decimal.go against rational values.  Base62.v: base62.go, round
      trip.  Interval.v: interval.go, [Merge] is the normal form for any sort.
      Bitset.v: bitset.go refines a finite set of integers.
    - Bloom.v, CountMin.v: bloom.go and countmin.go against the list of elements
      and the log of additions: no false negatives, no under-count.
    - LoadBalance.v: loadbalance.go; the smooth weighted round-robin is fair at
      every moment and exact per cycle, the random strategies select by weight.
      ConsistentHash.v: consistenthash.go, rendezvous hashing moves no key it need
      not move, for every hash function.
    - Semaphore.v: semaphore.go, channel and mutex operations interleaved; tokens
      are conserved and permits bounded.  Fsm.v: fsm.go, phases of [Send]
      interleaved; the log is a sequence of whole transitions.
    - Heap.v, ItemHeap.v: container/heap over a class [HeapInterface] with laws, and
      the representation with back indices; PriorityQueue.v, TopK.v and WTimer.v are
      its clients: a priority queue refines a finite map, the leaderboard is a true
      ranking within its limits, a timer never runs early and no wake-up is lost.
    - Batcher.v, WorkerPool.v, Adaptive.v, Fanout.v, Debounce.v: goroutines and
      channels interleaved.  Batches, jobs and messages are delivered once and in
      order, [Close] leaves what it promises, nothing panics.
    - Idempotency.v: one execution per key at a time.  HotKey.v: heavy hitters;
      Latency.v: the histogram against the samples of its window; Retry.v: attempts
      and backoff; Auction.v: second prices and truthfulness; Shutdown.v: start order
      and roll-back.
    - RedisLock.v: lock.go against a class [Redis] of documented server commands;
      mutual exclusion under lost answers.
    - NetRetry.v, TcpPool.v, UdpRead.v: the three network clients.  Error chains and
      [shouldRetry], the retry loops against one reference loop, the counters around
      any [CircuitBreaker] (Breaker.v is an instance), the connection pool and the
      shared read deadline under all interleavings.
    - IP.v, NetInfo.v: addresses, CIDR blocks, matching, the client's address.
      Calendar.v: civil dates of package time.

    log4go, by file of the package:
    - Log4go.v: rate_alerter.go decides as its log says; kafka_breaker.go makes
      only lawful transitions with minimum dwell times.
    - Logger.v: log.go, a logger, its clones and the delivering goroutine.
      Logline.v: field.go, logfmt.go and the renderings of a record, against readers.
      Sampling.v: sampling.go and sampling_strategy.go.
    - Spill.v: kafka_overflow.go.  Pipeline.v: the channel, daemon and [Stop] that
      file_writer.go and net_writer.go share, over any spill store of the class
      [SpillerOps].  FileWriter.v: rotation and buffering, and its composition with
      Pipeline.v.  KafkaPayload.v: the two codecs of kafka_writer.go and
      kafka_proto.go.  KafkaWriter.v: its daemon, with the breaker and a spill store.

    Further packages:
    - ShortLink.v: shortlink.go, codes that resolve and codes that decode.  Sets.v:
      set.go, bimap.go and multimap.go for every order of iteration.  SignalBus.v:
      signalbus.go, dispatches interleaved.
    - Stage.v: pipeline.go, workers and channels interleaved; items are conserved.
      FeatureFlag.v: featureflag.go, a roll-out only grows with its percentage.
      HotReload.v: hotreload.go, loads do not overlap and readers see them in order.
      Health.v: health.go, the cache under concurrent evaluations.
    - FloatOrder.v: the order of float64 and what rounding keeps of it.  Budget.v:
      budget.go on it; the spending curve and the safety of pacing decisions.
      Backoff.v: backoff.go, delays within their bands.  SlidingWindow.v:
      slidingwindow.go, the last values and their running aggregates.
    - GrpcClient.v: the interceptors of grpcclient on the loop of NetRetry.v.
      Signing.v: signing.go, the canonical string binds what it signs.
      Bits.v: bit.go at every width.
    - Reservoir.v: reservoir.go, every sample of the stream is equally likely.
      HyperLogLog.v: hyperloglog.go, registers, merging and the estimate.
      Stats.v: stats.go, medians, percentiles and modes on float64.
    - KafkaConsumer.v: the consumers of package kafka, both backends; where a group
      resumes.  KafkaProducer.v: its options, producers and metrics, interleaved.
      Rate.v: rate.go, the Redis limiter and its script on float64.
    - DateTime.v: datetime, bounds of days, weeks and months, differences, ranges.
    ** Where a theorem has limits

    Some theorems carry the condition under which the code is right, and an
    [Example] next to them shows what happens outside it.
    - money, numbers: [Div_large_divisor], [Parse_fraction_overflow],
      [Parse_inner_sign], [decimal_inner_sign].
    - limits and counts: [fixed_window_wraps], [fixed_window_race_overadmits],
      [breaker_huge_max_requests], [freqcap_stale_overcount], [hotkey_overcount],
      [empty_key_uncapped], [countmin_width_truncated], [sampler_first_after_burst],
      [latency_short_window], [latency_quantile_zero].
    - containers: [trie_delete_root_count], [bitset_union_hides], [add_keeps_value].
    - goroutines: [semaphore_close_strands] (a theorem about every continuation),
      [batcher_late_add], [stale_leader_deletes], [workerpool_late_submit],
      [adaptive_below_min], [subscribe_after_close], [pending_after_fire],
      [runs_after_close], [wtimer_add_after_close].
    - log4go: [refill_loses], [spill_buffered_lost], [spill_reopened_len],
      [rotate_stale_month], [rotate_stale_day], [no_pattern_no_file],
      [failed_open_is_final], [write_after_stop], [kafka_shutdown_loses],
      [base_beats_with], [verbs_mangled], [double_close_panics],
      [child_register_silent], [stale_second], [stale_layout], [overlap_sticks],
      [short_hex_kept].
    - network: [malformed_mask_matches_all], [fuzzy_unchecked], [refresh_deletes],
      [dial_timeout_not_retried], [drain_max_int], [cancelled_retry_counted],
      [trim_strips_all], [send_receive_never_pools] (a theorem),
      [stale_watcher_times_out].
    - calls: [stop_unstarted], [negative_attempts_succeed], [backoff_wraps],
      [backoff_jumps].
    - others: [zero_retries_is_three], [empty_code_decodes], [get_sees_delete],
      [hook_panic_escapes], [close_gives_up], [late_send_lost],
      [start_time_gates_allowlist], [slow_check_overwrites],
      [nan_weight_fails_open], [nan_total_accepted], [nan_alpha_poisons],
      [nan_factor_negative], [infinite_factor_negative], [sum_drifts],
      [inf_poisons_sum], [nan_min_sticks], [capacity_drops], [late_value_lingers],
      [zero_retries_is_two], [looser_deadline_wins], [negative_age_disables],
      [timestamp_respelled], [left_one_overflows], [next_power_overflows],
      [saturated_estimate], [percentile_nan_panics], [mode_nan_order],
      [median_overflows],
      [nack_lost], [spins_after_close], [fetch_errors_differ],
      [messages_after_close_nil], [batch_max_regresses], [zero_linger_is_ten],
      [linger_off_frequency_zero], [successes_always_on], [retries_cannot_be_off],
      [negative_buffer_passes], [rounding_lifts_limit], [oversized_retry],
      [ttl_overflow_forgets], [range_dates_extra],
      [delta_saturates].

    ** Fuel and bounds

    Recursion that is not structural carries fuel that the theorems show to be
    enough:
    - numbers and text: decimal printing uses the binary length of the number
      (GoStd); Base62 is bounded by its 12-byte buffer and an index outside it would
      be [None]; [Sprintf] takes one more than the length of the format; varints take
      ten rounds, the protobuf reader the length of the message; the JSON and logfmt
      readers return for any fuel above the size of the document; the loops of the
      IPv6 parser and printer see at most eight groups.
    - containers: the trie's prefix scan a budget above the longest key; the shrinking
      loop of the LRU the length of its list; the bit loop of [ToSlice] the 64 bits of
      a word; a heap operation the logarithm of the heap; evictions the size of the
      map, since each round removes a key; binary searches the length of the slice.
    - loops of calls: [Wait] takes the list of clock readings, context states and
      limiter states its polls will see, and its theorem covers every such list; the
      retry loops run at most [RetryMax] + 1 times, [retry.Do] at most its limit; the
      frame decoder of the spill file runs at most once per byte; the search of
      shutdown.go at most one level deeper than there are components.
    Ring counters, lengths and positions are unbounded integers: a wrap would need
    [2^63] events or more elements than memory can address; so are the counts of the
    histogram.

    ** What is not modelled

    Input and output themselves (files, sockets, dialling, TLS, HTTP transport),
    wrappers of third-party clients, and layers over crypto, hashing and randomness
    are outside; so are the constructors that connect to something, the look-ups of
    the public address over HTTP, signals and time-outs of shutdown.go, the time-out of
    the writers' [waitQuit], the caller's file and line in a log record, zones with
    daylight saving time, the UTF-8 validity of logged bytes, and unsynchronised
    set-up calls ([Register], [SetBaseField]) that race with logging.  Metrics sinks
    and hooks are observers, recorded in traces.  The Go memory model is sequentially
    consistent here, as it is for the mutexes, channels and sync/atomic operations
    the packages use.  Of the in-process packages, number, str,
    sliceutil and a few helpers are not
    covered; nor are the constructors of bloom and countmin that size a filter with
    logarithms. *)

From Stdlib Require Import ZArith Lia.
From stdpp Require Import base list gmap strings sorting.

#[local] Open Scope Z_scope.

(** ** Notations and hint databases of the development *)

Declare Scope go_scope.
Delimit Scope go_scope with go.

Create HintDb go_int.
Create HintDb go_list.
Create Rewrite HintDb go_int.
Create Rewrite HintDb go_list.

(** ** Machine integers

    A Go integer of width [w] is a [Z] in the range of the type; every
    arithmetic operation of the source that may leave the range is followed
    by the wrap-around function of its type. *)

Definition max_i64 : Z := 2 ^ 63 - 1.
Definition min_i64 : Z := - 2 ^ 63.
Definition max_i32 : Z := 2 ^ 31 - 1.
Definition min_i32 : Z := - 2 ^ 31.
Definition max_u32 : Z := 2 ^ 32 - 1.
Definition max_u64 : Z := 2 ^ 64 - 1.

Definition i64 (z : Z) : Z := (z + 2 ^ 63) mod 2 ^ 64 - 2 ^ 63.
Definition i32 (z : Z) : Z := (z + 2 ^ 31) mod 2 ^ 32 - 2 ^ 31.
Definition u64 (z : Z) : Z := z mod 2 ^ 64.
Definition u32 (z : Z) : Z := z mod 2 ^ 32.
Definition u8 (z : Z) : Z := z mod 2 ^ 8.

Definition in_i64 (z : Z) : Prop := min_i64 ≤ z ≤ max_i64.
Definition in_i64b (z : Z) : bool := (min_i64 <=? z) && (z <=? max_i64).
Definition in_i32 (z : Z) : Prop := min_i32 ≤ z ≤ max_i32.

#[global] Instance in_i64_dec z : Decision (in_i64 z).
Proof. unfold in_i64. apply _. Defined.

(** Go's [/] and [%] truncate toward zero; the caller tests the divisor. *)
Notation "a ÷t b" := (Z.quot a b) (at level 40, left associativity) : go_scope.
Notation "a %t b" := (Z.rem a b) (at level 40, left associativity) : go_scope.

(** [mint] closes goals about ranges and wraps of the concrete widths. *)
Ltac unfold_int :=
  unfold in_i64b, in_i64, in_i32, max_i64, min_i64, max_i32, min_i32,
    max_u32, max_u64 in *.
Ltac mint := unfold_int; unfold i64, i32, u64, u32, u8 in *; Z.div_mod_to_equations; lia.

(** ** Results: the value-or-error pairs of Go *)

Inductive result (E A : Type) : Type :=
| Ok (a : A)
| Err (e : E).
Arguments Ok {E A} a.
Arguments Err {E A} e.

#[global] Instance result_ret {E} : MRet (result E) := fun A a => Ok a.
#[global] Instance result_bind {E} : MBind (result E) :=
  fun A B f r => match r with Ok a => f a | Err e => Err e end.
#[global] Instance result_fmap {E} : FMap (result E) :=
  fun A B f r => match r with Ok a => Ok (f a) | Err e => Err e end.

#[global] Instance result_eq_dec {E A} `{EqDecision E} `{EqDecision A} :
  EqDecision (result E A).
Proof. solve_decision. Defined.

Definition is_ok {E A} (r : result E A) : bool :=
  match r with Ok _ => true | Err _ => false end.

(** Early return on an error: [if err != nil { return ..., err }]. *)
Notation "x ⇐ c ; k" := (mbind (M := result _) (fun x => k) c)
  (at level 100, c at next level, k at level 200, right associativity) : go_scope.

(** ** Sums of integer slices *)

Fixpoint zsum (l : list Z) : Z :=
  match l with [] => 0 | x :: l => x + zsum l end.

(** ** Lemmas: integers *)

Lemma i64_range z : in_i64 (i64 z).
Proof. mint. Qed.

Lemma i64_id z : in_i64 z → i64 z = z.
Proof. intros. mint. Qed.

Lemma u64_id z : 0 ≤ z ≤ max_u64 → u64 z = z.
Proof. intros. mint. Qed.

Lemma i64_idemp z : i64 (i64 z) = i64 z.
Proof. apply i64_id, i64_range. Qed.

Lemma i64_fixpoint z : i64 z = z ↔ in_i64 z.
Proof. split; [intros <-; apply i64_range | apply i64_id]. Qed.

(** A wrapped value differs from the exact one by a multiple of [2^64]. *)
Lemma i64_spec z : ∃ k, i64 z = z + k * 2 ^ 64.
Proof.
  exists (- ((z + 2 ^ 63) / 2 ^ 64)). unfold i64.
  pose proof (Z.div_mod (z + 2 ^ 63) (2 ^ 64)). lia.
Qed.

Lemma i64_congr a b k : a = b + k * 2 ^ 64 → i64 a = i64 b.
Proof.
  intros ->. unfold i64.
  replace (b + k * 2 ^ 64 + 2 ^ 63) with (b + 2 ^ 63 + k * 2 ^ 64) by lia.
  by rewrite Z.mod_add by lia.
Qed.

Lemma i64_add_l a b : i64 (i64 a + b) = i64 (a + b).
Proof. destruct (i64_spec a) as [k ->]. apply (i64_congr _ _ k). lia. Qed.

Lemma i64_add_r a b : i64 (a + i64 b) = i64 (a + b).
Proof. rewrite Z.add_comm, i64_add_l. f_equal; lia. Qed.

Lemma i64_sub_r a b : i64 (a - i64 b) = i64 (a - b).
Proof. destruct (i64_spec b) as [k ->]. apply (i64_congr _ _ (- k)). lia. Qed.

Lemma i64_sub_l a b : i64 (i64 a - b) = i64 (a - b).
Proof. destruct (i64_spec a) as [k ->]. apply (i64_congr _ _ k). lia. Qed.

Lemma u64_add_l a b : u64 (u64 a + b) = u64 (a + b).
Proof. unfold u64. by rewrite Zplus_mod_idemp_l. Qed.

Lemma u64_add_r a b : u64 (a + u64 b) = u64 (a + b).
Proof. unfold u64. by rewrite Zplus_mod_idemp_r. Qed.

Lemma in_i64b_spec z : in_i64b z = true ↔ in_i64 z.
Proof. mint. Qed.

#[export] Hint Resolve i64_range : go_int.
#[export] Hint Rewrite i64_idemp i64_add_l i64_add_r i64_sub_l i64_sub_r : go_int.

(** ** Lemmas: lists and sums *)

Lemma zsum_app l1 l2 : zsum (l1 ++ l2) = zsum l1 + zsum l2.
Proof. induction l1; simpl; lia. Qed.

Lemma zsum_replicate_0 n : zsum (replicate n 0) = 0.
Proof. induction n; simpl; lia. Qed.

(** Updating one slot of a slice moves its sum by the change of the slot. *)
Lemma zsum_insert l i x y :
  l !! i = Some x → zsum (<[i:=y]> l) = zsum l - x + y.
Proof.
  revert i; induction l as [|a l IH]; intros [|i] H; simplify_eq/=; [lia|].
  rewrite (IH i) by done. lia.
Qed.

Lemma zsum_alter f l i x :
  l !! i = Some x → zsum (alter f i l) = zsum l - x + f x.
Proof.
  revert i; induction l as [|a l IH]; intros [|i] H; simplify_eq/=; [lia|].
  rewrite (IH i) by done. lia.
Qed.

Lemma zsum_fmap_mul c l : zsum ((λ x, c * x) <$> l) = c * zsum l.
Proof. induction l; csimpl; lia. Qed.

Lemma zsum_Forall_nonneg l : Forall (λ x, 0 ≤ x) l → 0 ≤ zsum l.
Proof. induction 1; simpl; lia. Qed.

Lemma zsum_lookup_le l i x :
  Forall (λ x, 0 ≤ x) l → l !! i = Some x → x ≤ zsum l.
Proof.
  intros H. revert i. induction H as [|a l Ha Hl IH]; intros [|i] Hi; simplify_eq/=.
  - pose proof (zsum_Forall_nonneg l Hl). lia.
  - apply IH in Hi. lia.
Qed.

Lemma zsum_pos_exists l :
  0 < zsum l → Forall (λ x, 0 ≤ x) l → ∃ i x, l !! i = Some x ∧ 0 < x.
Proof.
  intros Hs H. induction H as [|x l Hx Hl IH]; simpl in Hs; [lia|].
  destruct (decide (0 < x)); [by exists 0%nat, x|].
  destruct IH as (i & y & ? & ?); [lia|]. by exists (S i), y.
Qed.

Lemma zsum_const_ext (l : list Z) (c : Z) :
  Forall (λ x, x = c) l → zsum l = Z.of_nat (length l) * c.
Proof. induction 1; simpl length; simpl zsum; lia. Qed.

#[export] Hint Rewrite zsum_app zsum_replicate_0 : go_list.

Lemma filter_none {A} (P : A → Prop) `{!∀ x, Decision (P x)} (l : list A) :
  (∀ x, x ∈ l → ¬ P x) → filter P l = [].
Proof.
  induction l as [|x l IH]; intros Hl; [done|]. rewrite filter_cons_False by (apply Hl; left).
  apply IH. intros y Hy. apply Hl. by right.
Qed.

Lemma filter_all {A} (P : A → Prop) `{!∀ x, Decision (P x)} (l : list A) :
  (∀ x, x ∈ l → P x) → filter P l = l.
Proof.
  induction l as [|x l IH]; intros Hl; [done|]. rewrite filter_cons_True by (apply Hl; left). f_equal.
  apply IH. intros y Hy. apply Hl. by right.
Qed.

(** Replacing one element of a list replaces its part of a concatenation. *)
Lemma bind_insert_perm {A B} (f : A → list B) (l : list A) i x y : l !! i = Some x →
  f x ++ (<[i := y]> l ≫= f) ≡ₚ f y ++ (l ≫= f).
Proof.
  revert i. induction l as [|z l IH]; intros [|i] Hi; simplify_eq/=; [apply Permutation_app_swap_app|].
  rewrite Permutation_app_swap_app, (IH i Hi). apply Permutation_app_swap_app.
Qed.

(** Case analysis on the boolean comparisons of the code. *)
Ltac zcases :=
  repeat match goal with
  | |- context [Z.eqb ?a ?b] => destruct (Z.eqb_spec a b)
  | |- context [Z.ltb ?a ?b] => destruct (Z.ltb_spec a b)
  | |- context [Z.leb ?a ?b] => destruct (Z.leb_spec a b)
  | |- context [Z.gtb ?a ?b] => rewrite (Z.gtb_ltb a b)
  | |- context [Z.geb ?a ?b] => rewrite (Z.geb_leb a b)
  end.
Ltac zcases_in H :=
  repeat match type of H with
  | context [Z.eqb ?a ?b] => destruct (Z.eqb_spec a b)
  | context [Z.ltb ?a ?b] => destruct (Z.ltb_spec a b)
  | context [Z.leb ?a ?b] => destruct (Z.leb_spec a b)
  | context [Z.gtb ?a ?b] => rewrite (Z.gtb_ltb a b) in H
  | context [Z.geb ?a ?b] => rewrite (Z.geb_leb a b) in H
  end.
