(* ===== verification/GoStd.v ===== *)
(** * The parts of Go's standard library the modelled packages call

    [strconv.Itoa] and [strconv.ParseInt(s, 10, 64)], [strings.TrimSpace],
    [strings.SplitN(s, sep, 2)] for a one-byte separator, [strings.Repeat] of
    one byte and the [%0*d] verb of [fmt], on byte strings; with the lemmas
    that make printing and parsing of decimal integers inverse; and the 64-bit
    FNV-1 and FNV-1a digests of [hash/fnv], on byte lists. *)

From Stdlib Require Import ZArith Lia Ascii String.
From stdpp Require Import base list strings.
From S2P Require Import Prelude.

#[local] Open Scope Z_scope.

(** ** Bytes *)

Definition byte_of (c : ascii) : Z := Z.of_nat (nat_of_ascii c).
Definition chr (z : Z) : ascii := ascii_of_nat (Z.to_nat z).

Definition is_digit (c : ascii) : bool := (48 <=? byte_of c) && (byte_of c <=? 57).
Definition digit_val (c : ascii) : Z := byte_of c - 48.

Definition str_len (s : string) : Z := Z.of_nat (String.length s).

Fixpoint str_rev_acc (s acc : string) : string :=
  match s with
  | EmptyString => acc
  | String c s => str_rev_acc s (String c acc)
  end.
Definition str_rev (s : string) : string := str_rev_acc s EmptyString.

(** ** strings.Repeat of one byte; n <= 0 gives the empty string *)

Fixpoint repeat_nat (c : ascii) (n : nat) : string :=
  match n with O => EmptyString | S n => String c (repeat_nat c n) end.
Definition Repeat (c : ascii) (n : Z) : string := repeat_nat c (Z.to_nat n).

(** ** strings.TrimSpace

    The runes of [unicode.IsSpace], recognised on their UTF-8 encodings. *)

Definition is_space_ascii (z : Z) : bool :=
  (z =? 32) || ((9 <=? z) && (z <=? 13)).

Definition is_space2 (a b : Z) : bool :=
  (a =? 194) && ((b =? 133) || (b =? 160)).

Definition is_space3 (a b c : Z) : bool :=
  ((a =? 225) && (b =? 154) && (c =? 128))
  || ((a =? 226) && (b =? 128)
      && (((128 <=? c) && (c <=? 138)) || (c =? 168) || (c =? 169) || (c =? 175)))
  || ((a =? 226) && (b =? 129) && (c =? 159))
  || ((a =? 227) && (b =? 128) && (c =? 128)).

(** Strips leading spaces; [back] reads the bytes of a rune backwards, for the
    reversed string. *)
Fixpoint trim_front (back : bool) (fuel : nat) (s : string) : string :=
  match fuel with
  | O => s
  | S f =>
    match s with
    | EmptyString => EmptyString
    | String a r =>
      if is_space_ascii (byte_of a) then trim_front back f r else
      match r with
      | EmptyString => s
      | String b r' =>
        if (if back then is_space2 (byte_of b) (byte_of a)
            else is_space2 (byte_of a) (byte_of b)) then trim_front back f r' else
        match r' with
        | EmptyString => s
        | String c r'' =>
          if (if back then is_space3 (byte_of c) (byte_of b) (byte_of a)
              else is_space3 (byte_of a) (byte_of b) (byte_of c))
          then trim_front back f r'' else s
        end
      end
    end
  end.

Definition TrimSpace (s : string) : string :=
  let s1 := trim_front false (String.length s) s in
  str_rev (trim_front true (String.length s1) (str_rev s1)).

(** ** strings.SplitN(s, sep, 2) for a one-byte separator *)

Fixpoint SplitN2 (sep : ascii) (s : string) : string * option string :=
  match s with
  | EmptyString => (EmptyString, None)
  | String c r =>
    if Ascii.eqb c sep then (EmptyString, Some r)
    else let '(a, b) := SplitN2 sep r in (String c a, b)
  end.

(** ** strconv *)

Fixpoint digits_acc (fuel : nat) (n : Z) (acc : string) : string :=
  match fuel with
  | O => acc
  | S f =>
    let acc' := String (chr (48 + n mod 10)) acc in
    if n <? 10 then acc' else digits_acc f (n / 10) acc'
  end.

(** Decimal digits of a non-negative integer; [log2 n + 1] rounds suffice. *)
Definition utoa (n : Z) : string := digits_acc (S (Z.to_nat (Z.log2 n))) n EmptyString.

Definition Itoa (z : Z) : string :=
  if z <? 0 then String "-" (utoa (- z)) else utoa z.

(** [%0*d] of a non-negative integer. *)
Definition pad0 (width : Z) (n : Z) : string :=
  let s := utoa n in Repeat "0" (width - str_len s) +:+ s.

Fixpoint parse_digits (s : string) (acc : Z) : option Z :=
  match s with
  | EmptyString => Some acc
  | String c r => if is_digit c then parse_digits r (acc * 10 + digit_val c) else None
  end.

(** [strconv.ParseInt(s, 10, 64)]: [None] is a non-nil error (bad syntax or
    out of range). *)
Definition ParseInt (s : string) : option Z :=
  let '(neg, body) :=
    match s with
    | String "-" r => (true, r)
    | String "+" r => (false, r)
    | _ => (false, s)
    end in
  match body with
  | EmptyString => None
  | _ =>
    match parse_digits body 0 with
    | None => None
    | Some n =>
      let v := if neg : bool then - n else n in
      if in_i64b v then Some v else None
    end
  end.

(** ** Lemmas *)

Definition all_digits (s : string) : Prop := ∃ n, parse_digits s 0 = Some n.

Lemma byte_of_range c : 0 ≤ byte_of c < 256.
Proof. unfold byte_of. pose proof (nat_ascii_bounded c). lia. Qed.

Lemma byte_of_chr z : 0 ≤ z < 256 → byte_of (chr z) = z.
Proof. intros. unfold byte_of, chr. rewrite nat_ascii_embedding by lia. lia. Qed.

Lemma chr_byte_of c : chr (byte_of c) = c.
Proof. unfold byte_of, chr. rewrite Nat2Z.id. apply ascii_nat_embedding. Qed.

Lemma is_digit_chr d : 0 ≤ d < 10 → is_digit (chr (48 + d)) = true.
Proof. intros. unfold is_digit. rewrite byte_of_chr by lia. lia. Qed.

Lemma digit_val_chr d : 0 ≤ d < 10 → digit_val (chr (48 + d)) = d.
Proof. intros. unfold digit_val. rewrite byte_of_chr by lia. lia. Qed.

Lemma parse_digits_app s t a :
  parse_digits (s +:+ t) a = parse_digits s a ≫= parse_digits t.
Proof. revert a; induction s as [|c s IH]; intros a; simpl; [done|]. destruct (is_digit c); simpl; auto. Qed.

(** Printing then parsing continues with the printed number accumulated. *)
Lemma parse_digits_acc f n acc :
  0 ≤ n < 10 ^ Z.of_nat f → (0 < f)%nat →
  parse_digits (digits_acc f n acc) 0 = parse_digits acc n.
Proof.
  revert n acc; induction f as [|f IH]; intros n acc Hn Hf; [lia|].
  assert (0 ≤ n mod 10 < 10) by (apply Z.mod_pos_bound; lia).
  simpl digits_acc. destruct (Z.ltb_spec n 10).
  - simpl. rewrite is_digit_chr, digit_val_chr by lia. rewrite Z.mod_small by lia. done.
  - rewrite Nat2Z.inj_succ, Z.pow_succ_r in Hn by lia.
    rewrite IH; [|split; [apply Z.div_pos; lia | apply Z.div_lt_upper_bound; lia]|].
    + simpl. rewrite is_digit_chr, digit_val_chr by lia. f_equal.
      pose proof (Z.div_mod n 10). lia.
    + destruct f; [|lia]. simpl in Hn. lia.
Qed.

Lemma utoa_fuel n : 0 ≤ n → n < 10 ^ Z.of_nat (S (Z.to_nat (Z.log2 n))).
Proof.
  intros Hn. rewrite Nat2Z.inj_succ, Z2Nat.id by apply Z.log2_nonneg.
  apply Z.lt_le_trans with (2 ^ Z.succ (Z.log2 n)).
  - destruct (decide (n = 0)) as [->|]; [done|]. apply Z.log2_spec. lia.
  - apply Z.pow_le_mono_l. lia.
Qed.

Lemma parse_utoa n : 0 ≤ n → parse_digits (utoa n) 0 = Some n.
Proof. intros Hn. unfold utoa. rewrite parse_digits_acc; [done| |lia]. split; [done|by apply utoa_fuel]. Qed.

Lemma parse_zeros k s : parse_digits (repeat_nat "0" k +:+ s) 0 = parse_digits s 0.
Proof. induction k; simpl; done. Qed.

Lemma parse_pad0 w n : 0 ≤ n → parse_digits (pad0 w n) 0 = Some n.
Proof. intros. unfold pad0, Repeat. rewrite parse_zeros. by apply parse_utoa. Qed.

Lemma digits_acc_nonempty f n acc : (0 < f)%nat → digits_acc f n acc ≠ EmptyString.
Proof.
  revert n acc; induction f as [|f IH]; intros n acc Hf; [lia|]. simpl.
  case_match; [done|]. destruct f; [done|]. apply IH. lia.
Qed.

Lemma length_app_str s t : String.length (s +:+ t) = (String.length s + String.length t)%nat.
Proof. induction s; simpl; auto. Qed.

Lemma length_repeat c n : String.length (repeat_nat c n) = n.
Proof. induction n; simpl; auto. Qed.

(** Number of digits printed for a number below [10^k]. *)
Lemma length_digits_acc f n acc k :
  0 ≤ n < 10 ^ Z.of_nat k → (0 < k)%nat →
  (String.length (digits_acc f n acc) ≤ k + String.length acc)%nat.
Proof.
  revert n acc k; induction f as [|f IH]; intros n acc k Hn Hk; simpl; [lia|].
  destruct (Z.ltb_spec n 10); [simpl; lia|].
  destruct k as [|k]; [lia|]. rewrite Nat2Z.inj_succ, Z.pow_succ_r in Hn by lia.
  destruct k as [|k]; [simpl in Hn; lia|].
  etrans; [apply (IH _ _ (S k)); [|lia]|simpl; lia].
  split; [apply Z.div_pos; lia | apply Z.div_lt_upper_bound; lia].
Qed.

Lemma length_pad0 k n :
  0 ≤ n < 10 ^ Z.of_nat k → (0 < k)%nat → String.length (pad0 (Z.of_nat k) n) = k.
Proof.
  intros Hn Hk. unfold pad0, Repeat, str_len. rewrite length_app_str, length_repeat.
  pose proof (length_digits_acc (S (Z.to_nat (Z.log2 n))) n EmptyString k Hn Hk) as L.
  unfold utoa. simpl in L |- *. lia.
Qed.

(** A string of digits starts with a digit, so it carries no sign. *)
Lemma all_digits_head c s : all_digits (String c s) → is_digit c = true.
Proof. intros [n H]. simpl in H. by destruct (is_digit c). Qed.

Lemma parse_digits_shift s a b :
  is_Some (parse_digits s a) → is_Some (parse_digits s b).
Proof.
  revert a b; induction s as [|c s IH]; intros a b; simpl; [by eauto|].
  destruct (is_digit c); [apply IH|by intros [? ?]].
Qed.

Lemma parse_digits_nonneg s a n : 0 ≤ a → parse_digits s a = Some n → 0 ≤ n.
Proof.
  revert a; induction s as [|c s IH]; intros a Ha; simpl; [intros; by simplify_eq|].
  destruct (is_digit c) eqn:E; [|done]. apply IH.
  unfold is_digit in E. unfold digit_val. lia.
Qed.

Lemma all_digits_cons c s : is_digit c = true → all_digits s → all_digits (String c s).
Proof.
  intros Hc [n Hn]. unfold all_digits. simpl. rewrite Hc.
  apply (parse_digits_shift s 0). eauto.
Qed.

Lemma all_digits_tail c s : all_digits (String c s) → all_digits s.
Proof.
  intros [n H]. simpl in H. destruct (is_digit c); [|done].
  destruct (parse_digits_shift s (0 * 10 + digit_val c) 0) as [m Hm]; [by eauto|].
  by exists m.
Qed.

(** [ParseInt] on a non-empty digit string is its value when it fits. *)
Lemma ParseInt_digits s n :
  s ≠ EmptyString → parse_digits s 0 = Some n →
  ParseInt s = if in_i64b n then Some n else None.
Proof.
  intros Hs Hn. destruct s as [|c s]; [done|].
  pose proof (all_digits_head c s (ex_intro _ n Hn)) as Hc.
  unfold ParseInt.
  destruct (Ascii.eqb_spec c "-"); [by subst c|].
  destruct (Ascii.eqb_spec c "+"); [by subst c|].
  assert (match String c s with
    | String "-" r => (true, r) | String "+" r => (false, r) | _ => (false, String c s)
    end = (false, String c s)) as ->
    by (destruct c as [[] [] [] [] [] [] [] []]; done).
  by rewrite Hn.
Qed.

(** A digit is no separator of the texts parsed here. *)
Lemma SplitN2_digits sep s t :
  is_digit sep = false → all_digits s →
  SplitN2 sep (s +:+ String sep t) = (s, Some t).
Proof.
  intros Hsep; induction s as [|c s IH]; intros Hd; simpl.
  - by rewrite Ascii.eqb_refl.
  - pose proof (all_digits_head _ _ Hd). apply all_digits_tail in Hd.
    destruct (Ascii.eqb_spec c sep); [congruence|]. by rewrite IH.
Qed.

Lemma SplitN2_digits_none sep s :
  is_digit sep = false → all_digits s → SplitN2 sep s = (s, None).
Proof.
  intros Hsep; induction s as [|c s IH]; intros Hd; simpl; [done|].
  pose proof (all_digits_head _ _ Hd). apply all_digits_tail in Hd.
  destruct (Ascii.eqb_spec c sep); [congruence|]. by rewrite IH.
Qed.

(** ** Trimming leaves texts without space bytes alone *)

Lemma app_cons_str c s t : String c s +:+ t = String c (s +:+ t).
Proof. done. Qed.

Lemma app_nil_l_str s : EmptyString +:+ s = s.
Proof. done. Qed.

Lemma app_assoc_str s t u : s +:+ (t +:+ u) = (s +:+ t) +:+ u.
Proof. induction s as [|c s IH]; [done|]. by rewrite !app_cons_str, IH. Qed.

Lemma app_nil_r_str s : s +:+ EmptyString = s.
Proof. induction s as [|c s IH]; [done|]. by rewrite app_cons_str, IH. Qed.

Lemma str_rev_acc_app s t : str_rev_acc s t = str_rev s +:+ t.
Proof.
  unfold str_rev. revert t. induction s as [|c s IH]; intros t; simpl; [done|].
  rewrite IH. symmetry. rewrite (IH (String c EmptyString)). symmetry.
  by rewrite <- app_assoc_str.
Qed.

Lemma str_rev_app s t : str_rev (s +:+ t) = str_rev t +:+ str_rev s.
Proof.
  induction s as [|c s IH]; simpl; [by rewrite app_nil_r_str|].
  unfold str_rev at 1 3. simpl. rewrite !str_rev_acc_app, IH.
  by rewrite app_assoc_str.
Qed.

Lemma str_rev_involutive s : str_rev (str_rev s) = s.
Proof.
  induction s as [|c s IH]; [done|].
  unfold str_rev at 2. simpl. rewrite str_rev_acc_app, str_rev_app, IH. done.
Qed.

Definition tight_head (s : string) : Prop :=
  match s with EmptyString => True | String c _ => 33 ≤ byte_of c < 128 end.

Lemma trim_front_tight back f s : tight_head s → trim_front back f s = s.
Proof.
  destruct f, s as [|a s]; simpl; try done. intros Ha.
  assert (is_space_ascii (byte_of a) = false) as -> by (unfold is_space_ascii; lia).
  destruct s as [|b s]; [done|].
  assert ((if back then is_space2 (byte_of b) (byte_of a)
           else is_space2 (byte_of a) (byte_of b)) = false) as ->.
  { destruct back; unfold is_space2; lia. }
  destruct s as [|c s]; [done|].
  assert ((if back then is_space3 (byte_of c) (byte_of b) (byte_of a)
           else is_space3 (byte_of a) (byte_of b) (byte_of c)) = false) as ->.
  { destruct back; unfold is_space3; lia. }
  done.
Qed.

Lemma TrimSpace_tight s : tight_head s → tight_head (str_rev s) → TrimSpace s = s.
Proof.
  intros H1 H2. unfold TrimSpace. rewrite (trim_front_tight false) by done.
  rewrite trim_front_tight by done. apply str_rev_involutive.
Qed.

Lemma digit_tight c : is_digit c = true → 33 ≤ byte_of c < 128.
Proof. unfold is_digit. lia. Qed.

(** The last byte of a text ending in digits is a digit. *)
Lemma str_rev_digits_tight s t :
  all_digits t → t ≠ EmptyString → tight_head (str_rev (s +:+ t)).
Proof.
  intros Hd Ht. rewrite str_rev_app.
  assert (tight_head (str_rev t) ∧ str_rev t ≠ EmptyString) as [H1 H2].
  { clear s. induction t as [|c t IH]; [done|].
    pose proof (all_digits_head _ _ Hd). apply all_digits_tail in Hd.
    unfold str_rev. simpl. rewrite str_rev_acc_app.
    destruct (decide (t = EmptyString)) as [->|Hne].
    - simpl. split; [|done]. by apply digit_tight.
    - destruct (IH Hd Hne). by destruct (str_rev t). }
  by destruct (str_rev t).
Qed.

(** ** Optional signs *)

(** The sign prefix: whether it is negative, and the rest. *)
Definition strip_sign (s : string) : bool * string :=
  match s with
  | String "-" r => (true, r)
  | String "+" r => (false, r)
  | _ => (false, s)
  end.

Definition starts_with_sign (s : string) : bool :=
  match s with
  | String "-" _ | String "+" _ => true
  | _ => false
  end.

Lemma utoa_digits n : 0 ≤ n → all_digits (utoa n).
Proof. intros. exists n. by apply parse_utoa. Qed.

Lemma utoa_nonempty n : utoa n ≠ EmptyString.
Proof. apply digits_acc_nonempty. lia. Qed.

Lemma strip_sign_digits c r :
  is_digit c = true →
  strip_sign (String c r) = (false, String c r) ∧ starts_with_sign (String c r) = false.
Proof. destruct c as [[] [] [] [] [] [] [] []]; done. Qed.

Lemma Itoa_nonneg n : 0 ≤ n → Itoa n = utoa n.
Proof. intros. unfold Itoa. by zcases; [lia|]. Qed.

Definition with_sign (neg : bool) (s : string) : string :=
  (if neg then "-"%string else EmptyString) +:+ s.

(** Reading back an optionally negated text that starts and ends in digits. *)
Lemma strip_sign_with_sign neg s t :
  all_digits s → s ≠ EmptyString →
  strip_sign (with_sign neg (s +:+ t)) = (neg, s +:+ t) ∧
  starts_with_sign (s +:+ t) = false ∧ (str_len (s +:+ t) =? 0) = false ∧
  String.eqb (with_sign neg (s +:+ t)) EmptyString = false ∧
  tight_head (with_sign neg (s +:+ t)).
Proof.
  intros Hd Hn. destruct s as [|c s]; [done|].
  apply all_digits_head in Hd. rewrite app_cons_str.
  destruct (strip_sign_digits c (s +:+ t) Hd) as [H1 H2].
  unfold str_len. destruct neg; simpl; split_and!; auto; try done; try lia.
  all: by apply digit_tight.
Qed.

(** ** hash/fnv: [New64a] and [New64], written once and summed *)

Definition fnv_offset64 : Z := 14695981039346656037.
Definition fnv_prime64 : Z := 1099511628211.

Definition fnv64a (data : list Z) : Z :=
  fold_left (λ h c, u64 (Z.lxor h c * fnv_prime64)) data fnv_offset64.
Definition fnv64 (data : list Z) : Z :=
  fold_left (λ h c, Z.lxor (u64 (h * fnv_prime64)) c) data fnv_offset64.

(** Published test vectors. *)
Example fnv64a_foobar : fnv64a [102; 111; 111; 98; 97; 114] = 0x85944171f73967e8.
Proof. reflexivity. Qed.

Example fnv64_foobar : fnv64 [102; 111; 111; 98; 97; 114] = 0x340d8765a4dda9c2.
Proof. reflexivity. Qed.
