(* ===== verification/Float64.v ===== *)
(** * IEEE 754 binary64, as the modelled packages use it

    Go's [float64] is the standard library's [spec_float] at precision 53 and
    maximal exponent 1024: an executable, axiom-free binary64 with round to
    nearest, ties to even. Only what the modelled code calls is defined. *)

From Stdlib Require Import ZArith Lia Bool SpecFloat.
From stdpp Require Import base tactics numbers.
From S2P Require Import Prelude.

#[local] Open Scope Z_scope.

Abbreviation float64 := spec_float.

Definition f64_of_Z (z : Z) : float64 := binary_normalize 53 1024 z 0 false.
Definition f64_add (x y : float64) : float64 := SFadd 53 1024 x y.
Definition f64_sub (x y : float64) : float64 := SFsub 53 1024 x y.
Definition f64_mul (x y : float64) : float64 := SFmul 53 1024 x y.
Definition f64_div (x y : float64) : float64 := SFdiv 53 1024 x y.

(** Comparisons: every comparison with a NaN is false. *)
Definition f64_lt (x y : float64) : bool := SFltb x y.
Definition f64_le (x y : float64) : bool := SFleb x y.
Definition f64_gt (x y : float64) : bool := SFltb y x.
Definition f64_ge (x y : float64) : bool := SFleb y x.
Definition f64_eq (x y : float64) : bool := SFeqb x y.

Definition f64_abs (x : float64) : float64 := SFabs x.
Definition f64_is_nan (x : float64) : bool :=
  match x with S754_nan => true | _ => false end.
Definition f64_is_inf (x : float64) : bool :=
  match x with S754_infinity _ => true | _ => false end.

(** The ways a finite magnitude [m * 2^e] is rounded to an integer: truncation,
    away from zero, half away from zero, half to even. *)
Inductive rounding_rule := RTrunc | RAway | RHalfAway | RHalfEven.

(** [q + r / d] with [0 <= r < d], rounded by the rule. *)
Definition round_mag (rule : rounding_rule) (q r d : Z) : Z :=
  match rule with
  | RTrunc => q
  | RAway => if r =? 0 then q else q + 1
  | RHalfAway => if d <=? 2 * r then q + 1 else q
  | RHalfEven =>
      if 2 * r =? d then (if Z.even q then q else q + 1)
      else if d <? 2 * r then q + 1 else q
  end.

(** Rounding a float to an integer; NaN and infinities have none. *)
Definition f64_round (rule : rounding_rule) (x : float64) : option Z :=
  match x with
  | S754_zero _ => Some 0
  | S754_infinity _ | S754_nan => None
  | S754_finite s m e =>
      let mag :=
        if 0 <=? e then Z.pos m * 2 ^ e
        else let d := 2 ^ (- e) in round_mag rule (Z.pos m / d) (Z.pos m mod d) d in
      Some (if s then - mag else mag)
  end.

(** The conversion [int64(x)]: truncation. Out of range it is implementation
    defined in Go; this is the value of the amd64 conversion instruction. *)
Definition f64_to_i64 (x : float64) : Z :=
  match f64_round RTrunc x with
  | Some z => if in_i64b z then z else min_i64
  | None => min_i64
  end.

(** ** Lemmas *)

Lemma f64_to_i64_range x : in_i64 (f64_to_i64 x).
Proof.
  unfold f64_to_i64. destruct (f64_round _ _) as [z|]; [ |mint].
  destruct (in_i64b z) eqn:E; [by apply in_i64b_spec in E|mint].
Qed.

(** Every rule lands within one of the truncated quotient. *)
Lemma round_mag_bounds rule q r d : q ≤ round_mag rule q r d ≤ q + 1.
Proof. destruct rule; simpl; repeat case_match; lia. Qed.
