(* ===== verification/MoneyArith.v ===== *)
(** * money: exact arithmetic on minor units

    Models the arithmetic of src/money/money.go: the [Money] value (an int64
    of minor units and a currency), the checked int64 operations, [Add],
    [Sub], [Mul], [Scale], [Div] with its four rounding modes, [Negate],
    [Abs], [Cmp], [Equal] and [Allocate]. Errors are the package's sentinel
    values (what [errors.Is] sees of the wrapped errors). *)

From Stdlib Require Import ZArith Lia Bool.
From stdpp Require Import base list strings.
From S2P Require Import Prelude Float64.

#[local] Open Scope Z_scope.
#[local] Open Scope go_scope.

Record Currency := mkCurrency { Code : string; Numeric : string; Decimals : Z }.

#[global] Instance Currency_eq_dec : EqDecision Currency.
Proof. solve_decision. Defined.

Inductive MoneyErr :=
| ErrCurrencyMismatch
| ErrUnknownCurrency
| ErrOverflow
| ErrInvalidAmount
| ErrDivideByZero
| ErrNoRatios
| ErrNegativeRatio
| ErrZeroRatios.

#[global] Instance MoneyErr_eq_dec : EqDecision MoneyErr.
Proof. solve_decision. Defined.

Inductive Rounding := RoundHalfUp | RoundHalfEven | RoundDown | RoundUp.

Record Money := mkMoney { amount : Z; cur : Currency }.

#[global] Instance Money_eq_dec : EqDecision Money.
Proof. solve_decision. Defined.

Definition Amount (m : Money) : Z := amount m.
Definition IsZero (m : Money) : bool := amount m =? 0.
Definition IsPositive (m : Money) : bool := amount m >? 0.
Definition IsNegative (m : Money) : bool := amount m <? 0.

(** ** Checked arithmetic *)

Definition addChecked (a b : Z) : result MoneyErr Z :=
  let s := i64 (a + b) in
  if negb (Bool.eqb (s >? a) (b >? 0)) then Err ErrOverflow else Ok s.

Definition subChecked (a b : Z) : result MoneyErr Z :=
  let d := i64 (a - b) in
  if Z.land (Z.lxor a b) (Z.lxor a d) <? 0 then Err ErrOverflow else Ok d.

Definition mulChecked (a b : Z) : result MoneyErr Z :=
  if (a =? 0) || (b =? 0) then Ok 0
  else if (a =? min_i64) && (b =? -1) then Err ErrOverflow
  else
    let p := i64 (a * b) in
    if negb (i64 (p ÷t b) =? a) then Err ErrOverflow else Ok p.

Definition absI64 (x : Z) : Z := if x <? 0 then i64 (- x) else x.

(** ** Rounding of an integer division *)

Inductive roundDirection := roundStay | roundAway.

Definition boolRoundDir (b : bool) : roundDirection := if b then roundAway else roundStay.

Definition roundDir (rem divisor : Z) (mode : Rounding) (q : Z) : roundDirection :=
  if rem =? 0 then roundStay
  else
    let absRem := absI64 rem in
    let absDiv := absI64 divisor in
    match mode with
    | RoundDown => roundStay
    | RoundUp => roundAway
    | RoundHalfEven =>
        if negb (i64 (absRem * 2) =? absDiv) then boolRoundDir (i64 (absRem * 2) >? absDiv)
        else if negb (q %t 2 =? 0) then roundAway else roundStay
    | RoundHalfUp => boolRoundDir (i64 (absRem * 2) >=? absDiv)
    end.

Definition shouldRoundUp (rem divisor : Z) (mode : Rounding) : bool :=
  match mode with
  | RoundHalfEven =>
      if rem =? 0 then false
      else if i64 (absI64 rem * 2) =? absI64 divisor then true
      else match roundDir rem divisor mode 0 with roundAway => true | roundStay => false end
  | _ => match roundDir rem divisor mode 0 with roundAway => true | roundStay => false end
  end.

Definition roundFloatToInt64 (f : float64) (mode : Rounding) : result MoneyErr Z :=
  if f64_ge f (f64_of_Z (max_i64 + 1)) || f64_le f (f64_of_Z min_i64) then Err ErrOverflow
  else
    let rule := match mode with
      | RoundDown => RTrunc | RoundUp => RAway
      | RoundHalfEven => RHalfEven | RoundHalfUp => RHalfAway end in
    match f64_round rule f with
    | Some z => Ok z
    | None => Ok min_i64
    end.

(** ** Operations on Money *)

Definition same (m other : Money) : result MoneyErr unit :=
  if decide (cur m = cur other) then Ok tt else Err ErrCurrencyMismatch.

Definition Add (m other : Money) : result MoneyErr Money :=
  _ ⇐ same m other;
  sum ⇐ addChecked (amount m) (amount other);
  Ok (mkMoney sum (cur m)).

Definition Sub (m other : Money) : result MoneyErr Money :=
  _ ⇐ same m other;
  diff ⇐ subChecked (amount m) (amount other);
  Ok (mkMoney diff (cur m)).

Definition Mul (m : Money) (factor : Z) : result MoneyErr Money :=
  p ⇐ mulChecked (amount m) factor;
  Ok (mkMoney p (cur m)).

Definition Scale (m : Money) (ratio : float64) (mode : Rounding) : result MoneyErr Money :=
  if f64_is_nan ratio || f64_is_inf ratio then Err ErrInvalidAmount
  else if f64_ge (f64_abs (f64_of_Z (amount m))) (f64_of_Z (2 ^ 53)) then Err ErrOverflow
  else
    let scaled := f64_mul (f64_of_Z (amount m)) ratio in
    if f64_ge (f64_abs scaled) (f64_of_Z (2 ^ 53)) then Err ErrOverflow
    else
      rounded ⇐ roundFloatToInt64 scaled mode;
      Ok (mkMoney rounded (cur m)).

Definition Div (m : Money) (divisor : Z) (mode : Rounding) : result MoneyErr Money :=
  if divisor =? 0 then Err ErrDivideByZero
  else if (amount m =? min_i64) && (divisor =? -1) then Err ErrOverflow
  else
    let q := i64 (amount m ÷t divisor) in
    let r := amount m %t divisor in
    let negative := negb (Bool.eqb (amount m <? 0) (divisor <? 0)) in
    let q := match roundDir r divisor mode q with
      | roundAway => if negative then i64 (q - 1) else i64 (q + 1)
      | roundStay => q
      end in
    Ok (mkMoney q (cur m)).

Definition Negate (m : Money) : Money := mkMoney (i64 (- amount m)) (cur m).

Definition Abs (m : Money) : Money :=
  if amount m <? 0 then mkMoney (i64 (- amount m)) (cur m) else m.

Definition Cmp (m other : Money) : result MoneyErr Z :=
  _ ⇐ same m other;
  Ok (if amount m <? amount other then -1
      else if amount m >? amount other then 1 else 0).

Definition Equal (m other : Money) : bool :=
  (amount m =? amount other) && bool_decide (cur m = cur other).

(** ** Allocate *)

(** The first loop: the total of the ratios, or the first negative one. *)
Fixpoint ratio_total (ratios : list Z) (total : Z) : result MoneyErr Z :=
  match ratios with
  | [] => Ok total
  | r :: rs => if r <? 0 then Err ErrNegativeRatio else ratio_total rs (i64 (total + r))
  end.

(** The second loop: truncated shares and the amount they allocate. *)
Fixpoint alloc_shares (amt total : Z) (ratios : list Z) (allocated : Z) :
    result MoneyErr (list Z * Z) :=
  match ratios with
  | [] => Ok ([], allocated)
  | r :: rs =>
      product ⇐ mulChecked amt r;
      let share := i64 (product ÷t total) in
      rest ⇐ alloc_shares amt total rs (i64 (allocated + share));
      Ok (share :: fst rest, snd rest)
  end.

Definition frac_of (amt total r share : Z) : float64 :=
  f64_sub (f64_div (f64_mul (f64_of_Z amt) (f64_of_Z r)) (f64_of_Z total)) (f64_of_Z share).

(** The inner search: the first index whose fraction is maximal. *)
Fixpoint best_index (fracs : list float64) (j best : nat) (bestv : float64) : nat :=
  match fracs with
  | [] => best
  | f :: fs =>
      if f64_gt f bestv then best_index fs (S j) j f else best_index fs (S j) best bestv
  end.

Definition best_of (fracs : list float64) : nat :=
  match fracs with [] => O | f :: fs => best_index fs 1 0 f end.

(** The loop that hands out the remainder one unit at a time. *)
Fixpoint distribute (remaining : nat) (step : Z) (out : list Z) (fracs : list float64) :
    list Z :=
  match remaining with
  | O => out
  | S k =>
      let best := best_of fracs in
      distribute k step
        (alter (λ a, i64 (a + step)) best out)
        (alter (λ f, f64_sub f (f64_of_Z step)) best fracs)
  end.

Definition Allocate (m : Money) (ratios : list Z) : result MoneyErr (list Money) :=
  match ratios with
  | [] => Err ErrNoRatios
  | _ =>
      total ⇐ ratio_total ratios 0;
      if total =? 0 then Err ErrZeroRatios
      else
        shares ⇐ alloc_shares (amount m) total ratios 0;
        let remainder := i64 (amount m - snd shares) in
        let out :=
          if negb (remainder =? 0) then
            let fracs := zip_with (frac_of (amount m) total) ratios (fst shares) in
            let step := if remainder <? 0 then -1 else 1 in
            distribute (Z.to_nat (absI64 remainder)) step (fst shares) fracs
          else fst shares in
        Ok ((λ a, mkMoney a (cur m)) <$> out)
  end.

(** ** Well-formed values: the amount is an int64 *)

Definition money_wf (m : Money) : Prop := in_i64 (amount m).

(** The exact result, or the overflow error when it is no int64. *)
Definition fits (z : Z) : result MoneyErr Z := if in_i64b z then Ok z else Err ErrOverflow.

(** ** Lemmas: checked arithmetic is exact *)

Lemma addChecked_exact a b : in_i64 a → in_i64 b → addChecked a b = fits (a + b).
Proof.
  intros Ha Hb. unfold addChecked, fits.
  destruct (in_i64b (a + b)) eqn:E.
  - apply in_i64b_spec in E. rewrite i64_id by done.
    rewrite !Z.gtb_ltb. by destruct (Z.ltb_spec a (a + b)), (Z.ltb_spec 0 b); try lia.
  - assert (¬ in_i64 (a + b)) as H by (rewrite <- in_i64b_spec; congruence).
    rewrite !Z.gtb_ltb.
    destruct (Z.ltb_spec a (i64 (a + b))), (Z.ltb_spec 0 b); simpl; try done; exfalso; mint.
Qed.

Lemma subChecked_exact a b : in_i64 a → in_i64 b → subChecked a b = fits (a - b).
Proof.
  intros Ha Hb. unfold subChecked, fits. set (d := i64 (a - b)).
  pose proof (Z.land_nonneg (Z.lxor a b) (Z.lxor a d)) as Hl.
  pose proof (Z.lxor_nonneg a b) as H1. pose proof (Z.lxor_nonneg a d) as H2.
  destruct (in_i64b (a - b)) eqn:E.
  - apply in_i64b_spec in E. assert (d = a - b) as Hd by by apply i64_id.
    destruct (Z.ltb_spec (Z.land (Z.lxor a b) (Z.lxor a d)) 0) as [Hn|]; [ |by rewrite Hd].
    exfalso. lia.
  - assert (¬ in_i64 (a - b)) as H by (rewrite <- in_i64b_spec; congruence).
    destruct (Z.ltb_spec (Z.land (Z.lxor a b) (Z.lxor a d)) 0) as [Hn|Hn]; [done|].
    exfalso. apply Hl in Hn. subst d. clear Hl E.
    destruct (decide (0 ≤ a)), (decide (0 ≤ b)), (decide (0 ≤ i64 (a - b))); mint || (exfalso; lia).
Qed.

(** The division test recognises exactly the products that wrap. *)
Lemma quot_wrap_exact a b p k :
  b ≠ 0 → - 2 ^ 63 ≤ b < 2 ^ 63 → p = a * b + k * 2 ^ 64 → Z.quot p b = a → k = 0.
Proof.
  intros Hb Hr -> Hq.
  pose proof (Z.quot_rem' (a * b + k * 2 ^ 64) b) as H. rewrite Hq in H.
  pose proof (Z.rem_bound_abs (a * b + k * 2 ^ 64) b Hb).
  nia.
Qed.

Lemma quot_in_i64 p b : in_i64 p → b ≠ 0 → ¬ (p = min_i64 ∧ b = -1) → in_i64 (Z.quot p b).
Proof.
  intros Hp Hb Hn.
  assert (Z.abs (Z.quot p b) ≤ Z.abs p).
  { rewrite <- Z.quot_abs by done. pose proof (Z.quot_le_upper_bound (Z.abs p) (Z.abs b) (Z.abs p)). nia. }
  destruct (decide (p = min_i64)) as [->|].
  - destruct (decide (b = 1)) as [->|]; [rewrite Z.quot_1_r; mint|].
    assert (Z.abs (Z.quot min_i64 b) ≤ 2 ^ 62).
    { rewrite <- Z.quot_abs by done.
      apply Z.quot_le_upper_bound; [lia|]. unfold min_i64. simpl. lia. }
    mint.
  - mint.
Qed.

Lemma mulChecked_exact a b : in_i64 a → in_i64 b → mulChecked a b = fits (a * b).
Proof.
  intros Ha Hb. unfold mulChecked, fits.
  destruct (Z.eqb_spec a 0) as [->|Ha0]; [done|].
  destruct (Z.eqb_spec b 0) as [->|Hb0]; [by rewrite Z.mul_0_r|]. simpl.
  destruct (Z.eqb_spec a min_i64) as [Hm|Hm], (Z.eqb_spec b (-1)) as [Hm'|Hm']; simpl;
    [by subst| | |].
  all: assert (¬ (i64 (a * b) = min_i64 ∧ b = -1)) as Hn
      by (intros [? ->]; try done; destruct Ha; mint || (unfold_int; unfold i64 in *; Z.div_mod_to_equations; lia)).
  all: rewrite (i64_id (Z.quot _ _)) by (apply quot_in_i64; auto using i64_range).
  all: destruct (in_i64b (a * b)) eqn:E.
  all: try (apply in_i64b_spec in E; rewrite i64_id, Z.quot_mul, Z.eqb_refl by done; done).
  all: destruct (Z.eqb_spec (Z.quot (i64 (a * b)) b) a) as [Hq|]; [ |done].
  all: exfalso; destruct (i64_spec (a * b)) as [k Hk].
  all: assert (k = 0) by (eapply quot_wrap_exact; eauto; unfold_int; lia).
  all: assert (in_i64 (a * b)) as Hin by (replace (a * b) with (i64 (a * b)) by lia; apply i64_range).
  all: apply in_i64b_spec in Hin; congruence.
Qed.

(** ** Rounding: the declarative meaning of each mode

    [rounds_to mode a d q] says that [q] is the integer quotient [a / d]
    rounded by [mode]; it determines [q]. *)
Definition rounds_to (mode : Rounding) (a d q : Z) : Prop :=
  match mode with
  | RoundDown => Z.abs (q * d) ≤ Z.abs a ∧ Z.abs (a - q * d) < Z.abs d
  | RoundUp => Z.abs a ≤ Z.abs (q * d) ∧ Z.abs (a - q * d) < Z.abs d
  | RoundHalfUp =>
      2 * Z.abs (a - q * d) ≤ Z.abs d ∧
      (2 * Z.abs (a - q * d) = Z.abs d → Z.abs a ≤ Z.abs (q * d))
  | RoundHalfEven =>
      2 * Z.abs (a - q * d) ≤ Z.abs d ∧
      (2 * Z.abs (a - q * d) = Z.abs d → Z.Even q)
  end.

(** The facts about Go's truncated division that every rounding needs. *)
Lemma quot_rem_facts a d :
  d ≠ 0 →
  (Z.quot a d) * d = a - Z.rem a d ∧ Z.abs (Z.rem a d) < Z.abs d ∧
  Z.abs (Z.rem a d) ≤ Z.abs a ∧
  (0 ≤ a → 0 ≤ Z.rem a d) ∧ (a ≤ 0 → Z.rem a d ≤ 0).
Proof.
  intros Hd. pose proof (Z.quot_rem' a d). pose proof (Z.rem_bound_abs a d Hd).
  assert (0 ≤ a → 0 ≤ Z.rem a d) by (intros; by apply Z.rem_nonneg).
  assert (a ≤ 0 → Z.rem a d ≤ 0) by (intros; by apply Z.rem_nonpos).
  assert (Z.abs (Z.rem a d) ≤ Z.abs a).
  { rewrite <- Z.rem_abs by done. apply Z.rem_le; lia. }
  repeat split; auto; lia.
Qed.

Lemma absI64_abs x : in_i64 x → x ≠ min_i64 → absI64 x = Z.abs x.
Proof. intros. unfold absI64. zcases; [rewrite i64_id by mint|]; lia. Qed.

(** Neighbouring multiples of [d] differ in magnitude by [|d|]. *)
Lemma mul_step_abs q d :
  (0 ≤ q * d ∧ 0 ≤ d) ∨ (q * d ≤ 0 ∧ d ≤ 0) ∨
  (q * d ≤ - d ∧ 0 ≤ d) ∨ (- d ≤ q * d ∧ d ≤ 0).
Proof. destruct (decide (0 ≤ q)), (decide (0 ≤ d)); nia. Qed.

Lemma rounds_to_unique mode a d q1 q2 :
  d ≠ 0 → rounds_to mode a d q1 → rounds_to mode a d q2 → q1 = q2.
Proof.
  intros Hd H1 H2. assert (Z.abs (q1 - q2) * Z.abs d < 2 * Z.abs d).
  { rewrite <- Z.abs_mul.
    replace ((q1 - q2) * d) with ((a - q2 * d) - (a - q1 * d)) by lia.
    destruct mode; simpl in *; lia. }
  assert (q1 = q2 ∨ q1 = q2 + 1 ∨ q2 = q1 + 1) as [| [Hq | Hq]] by nia; [done| |].
  all: exfalso; pose proof (Z.mul_add_distr_r q1 1 d); pose proof (Z.mul_add_distr_r q2 1 d);
    pose proof (mul_step_abs q1 d); pose proof (mul_step_abs q2 d).
  all: rewrite Hq in *; destruct mode; simpl in *; try lia.
  all: destruct H1 as [Ha Hb], H2 as [Hc He]; destruct Hb as [x ?], He as [y ?]; lia.
Qed.

(** Stepping the truncated quotient by [roundDir] gives the rounded one. *)
Lemma roundDir_correct a d mode :
  in_i64 a → d ≠ 0 → - 2 ^ 62 ≤ d ≤ 2 ^ 62 →
  let q := Z.quot a d in
  let step := if negb (Bool.eqb (a <? 0) (d <? 0)) then -1 else 1 in
  rounds_to mode a d
    (match roundDir (Z.rem a d) d mode q with roundAway => q + step | roundStay => q end).
Proof.
  intros Ha Hd Hb. cbv zeta.
  pose proof (quot_rem_facts a d Hd) as (Hq & Hr & Hra & Hp & Hn).
  set (Q := Z.quot a d) in *. set (R := Z.rem a d) in *.
  set (st := if negb _ then -1 else 1).
  assert (R ≠ 0 → Z.abs (a - (Q + st) * d) = Z.abs d - Z.abs R) as Haway.
  { intros. subst st. rewrite Z.mul_add_distr_r, Hq. zcases; simpl; lia. }
  assert (R ≠ 0 → Z.abs a ≤ Z.abs ((Q + st) * d)) as Hup.
  { intros. subst st. rewrite Z.mul_add_distr_r, Hq. zcases; simpl; lia. }
  assert (Z.abs (a - Q * d) = Z.abs R) as Hstay by lia.
  assert (Z.abs (Q * d) ≤ Z.abs a) as Hdn by (rewrite Hq; lia).
  assert (Z.Odd Q → Z.Even (Q + st)) as Hpar.
  { intros [x Hx]. subst st. case_match; [exists x | exists (x + 1)]; lia. }
  unfold roundDir. destruct (Z.eqb_spec R 0) as [HR|HR].
  { rewrite HR in *. destruct mode; simpl; lia. }
  rewrite !absI64_abs by (unfold_int; lia). rewrite !i64_id by (unfold_int; lia).
  specialize (Haway HR). specialize (Hup HR).
  destruct mode; simpl.
  - rewrite Z.geb_leb. destruct (Z.leb_spec (Z.abs d) (Z.abs R * 2)); simpl; lia.
  - destruct (Z.eqb_spec (Z.abs R * 2) (Z.abs d)); simpl.
    + destruct (Z.eqb_spec (Z.rem Q 2) 0) as [He|Ho]; simpl.
      * split; [lia|intros _]. apply Z.rem_divide in He as [x Hx]; [ |lia]. exists x. lia.
      * split; [lia|intros _]. apply Hpar. destruct (Z.Even_or_Odd Q) as [[x Hx]|]; [ |done].
        exfalso. apply Ho. apply Z.rem_divide; [lia|]. exists x. lia.
    + rewrite Z.gtb_ltb. destruct (Z.ltb_spec (Z.abs d) (Z.abs R * 2)); simpl; lia.
  - lia.
  - lia.
Qed.

(** ** Lemmas: the shares of an allocation *)

Lemma ratio_total_ok ratios acc total :
  ratio_total ratios acc = Ok total → 0 ≤ acc →
  acc + zsum ratios ≤ max_i64 →
  total = acc + zsum ratios ∧ Forall (λ r, 0 ≤ r) ratios.
Proof.
  revert acc; induction ratios as [|r rs IH]; intros acc H Ha Hs; simpl in *.
  - simplify_eq. split; [lia|constructor].
  - destruct (Z.ltb_spec r 0); [done|].
    assert (0 ≤ zsum rs).
    { clear -H. revert H. generalize (i64 (acc + r)). induction rs as [|x xs IH]; intros z; simpl; [lia|].
      destruct (Z.ltb_spec x 0); [done|]. intros H'. apply IH in H'. lia. }
    rewrite i64_id in H by (unfold_int; lia).
    apply IH in H as [-> ?]; [|lia|lia]. split; [lia|]. by constructor.
Qed.

(** The exact share of one ratio, truncated toward zero. *)
Definition share_of (amt total r : Z) : Z := Z.quot (amt * r) total.

Lemma share_of_abs amt total r :
  0 < total → 0 ≤ r → share_of amt total r = Z.sgn amt * (Z.abs amt * r / total).
Proof.
  intros Ht Hr. unfold share_of.
  destruct (Z.sgn_spec amt) as [[? ->]|[[<- ->]|[? ->]]].
  - rewrite Z.quot_div_nonneg by nia. rewrite Z.abs_eq by lia. lia.
  - by rewrite !Z.mul_0_l, Z.quot_0_l by lia.
  - rewrite Z.abs_neq by lia. replace (amt * r) with (- (- amt * r)) by lia.
    rewrite Z.quot_opp_l by lia. rewrite Z.quot_div_nonneg by nia. lia.
Qed.

Lemma share_of_in_i64 amt total r :
  in_i64 (amt * r) → 0 < total → in_i64 (share_of amt total r).
Proof. intros. apply quot_in_i64; [done|lia|lia]. Qed.

Lemma alloc_shares_spec amt total ratios acc res :
  in_i64 amt → 0 < total → Forall (λ r, 0 ≤ r ≤ max_i64) ratios →
  alloc_shares amt total ratios acc = Ok res →
  fst res = share_of amt total <$> ratios ∧
  i64 (snd res) = i64 (acc + zsum (share_of amt total <$> ratios)).
Proof.
  intros Ha Ht. revert acc res; induction ratios as [|r rs IH]; intros acc res Hr H; simpl in *.
  - simplify_eq/=. split; [done|]. f_equal; lia.
  - apply Forall_cons in Hr as [Hr Hrs].
    rewrite mulChecked_exact in H by (done || (unfold_int; lia)).
    unfold fits in H. destruct (in_i64b (amt * r)) eqn:E; [ |done].
    apply in_i64b_spec in E. simpl in H.
    fold (share_of amt total r) in H.
    rewrite (i64_id (share_of _ _ _)) in H by by apply share_of_in_i64.
    destruct (alloc_shares amt total rs _) as [[o al]|] eqn:E2; simplify_eq/=.
    apply IH in E2 as [Ho Hal]; [ |done]. simpl in Ho, Hal. rewrite Ho, Hal. split; [done|].
    rewrite i64_add_l. f_equal. csimpl. lia.
Qed.

(** Truncation loses less than one unit per share. *)
Lemma share_sum_bounds amt total ratios :
  0 ≤ amt → 0 < total → Forall (λ r, 0 ≤ r) ratios →
  let shares := (λ r, amt * r / total) <$> ratios in
  total * zsum shares ≤ amt * zsum ratios
    ≤ total * zsum shares + (total - 1) * Z.of_nat (length ratios).
Proof.
  intros Ha Ht. induction 1 as [|r rs Hr Hrs IH]; csimpl; [lia|].
  pose proof (Z.div_mod (amt * r) total). pose proof (Z.mod_pos_bound (amt * r) total).
  simpl in IH. lia.
Qed.

Lemma zsum_share_of amt total ratios :
  0 < total → Forall (λ r, 0 ≤ r) ratios →
  zsum (share_of amt total <$> ratios)
  = Z.sgn amt * zsum ((λ r, Z.abs amt * r / total) <$> ratios).
Proof.
  intros Ht. induction 1 as [|r rs Hr Hrs IH]; csimpl; [lia|].
  rewrite IH, share_of_abs by done. lia.
Qed.

(** The remainder has the sign of the amount and is smaller than the number
    of shares. *)
Lemma alloc_remainder amt ratios (total := zsum ratios) :
  0 < total → Forall (λ r, 0 ≤ r) ratios →
  let rest := amt - zsum (share_of amt total <$> ratios) in
  0 ≤ Z.sgn amt * rest ∧ Z.abs rest < Z.of_nat (length ratios) ∧ Z.abs rest ≤ Z.abs amt ∧
  (total ≤ Z.abs amt → Z.abs rest < Z.abs amt).
Proof.
  intros Ht Hr. cbv zeta. rewrite zsum_share_of by done.
  pose proof (share_sum_bounds (Z.abs amt) total ratios) as H.
  specialize (H ltac:(lia) Ht Hr). cbv zeta in H.
  fold total in H. set (Sh := zsum (_ <$> ratios)) in *.
  assert (0 ≤ Sh).
  { apply zsum_Forall_nonneg, Forall_fmap, (Forall_impl _ _ _ Hr). intros r ?. simpl.
    apply Z.div_pos; nia. }
  assert (Sh ≤ Z.abs amt) by nia.
  assert (ratios ≠ []) by (intros ->; simpl in *; lia).
  assert (0 < Z.of_nat (length ratios)) by (destruct ratios; simpl; [done|lia]).
  assert (Z.abs amt - Sh < Z.of_nat (length ratios)) by nia.
  assert (total ≤ Z.abs amt → 0 < Sh).
  { intros. destruct (zsum_pos_exists ratios) as (i & r & Hi & Hrp); [done..|].
    apply Z.lt_le_trans with (Z.abs amt * r / total).
    - apply Z.div_str_pos. nia.
    - apply zsum_lookup_le with i.
      + apply Forall_fmap, (Forall_impl _ _ _ Hr). intros x ?. simpl. apply Z.div_pos; nia.
      + by rewrite list_lookup_fmap, Hi. }
  destruct (Z.sgn_spec amt) as [[? ->]|[[<- ->]|[? ->]]]; lia.
Qed.

(** ** Lemmas: handing out the remainder *)

Lemma best_index_lt fracs j best bestv :
  (best < j)%nat → (best_index fracs j best bestv < j + length fracs)%nat.
Proof.
  revert j best bestv; induction fracs as [|f fs IH]; intros j best bv H; simpl; [lia|].
  case_match; (eapply Nat.lt_le_trans; [apply IH; lia|lia]).
Qed.

Lemma best_of_lt fracs : fracs ≠ [] → (best_of fracs < length fracs)%nat.
Proof. destruct fracs as [|f fs]; [done|]. intros _. simpl. apply (best_index_lt fs 1 0); lia. Qed.

Lemma length_distribute n step out fracs : length (distribute n step out fracs) = length out.
Proof. revert out fracs; induction n; intros; simpl; [done|]. by rewrite IHn, length_alter. Qed.

Lemma Forall2_trans_le (f : Z → Z) l1 l2 l3 :
  Forall2 (λ x y, f x ≤ f y) l1 l2 → Forall2 (λ x y, f x ≤ f y) l2 l3 →
  Forall2 (λ x y, f x ≤ f y) l1 l3.
Proof.
  intros H. revert l3. induction H; intros l3 H3; inversion H3; subst; constructor; eauto; lia.
Qed.

(** Handing out [n] units of sign [step] adds exactly them, takes nothing from
    any share and never leaves int64. *)
Lemma distribute_spec n step out fracs amt :
  (step = 1 ∨ step = -1) → length fracs = length out → out ≠ [] →
  Forall (λ x, 0 ≤ step * x) out → zsum out + Z.of_nat n * step = amt → in_i64 amt →
  zsum (distribute n step out fracs) = amt ∧
  Forall2 (λ x y, step * x ≤ step * y) out (distribute n step out fracs).
Proof.
  intros Hs. revert out fracs; induction n as [|n IH]; intros out fracs Hl Hne Hpos Hsum Ha.
  - simpl. split; [lia|]. apply Forall2_same_length_lookup_2; [done|].
    intros i x y ??. by simplify_eq.
  - assert (best_of fracs < length out)%nat as Hb.
    { rewrite <- Hl. apply best_of_lt. intros ->. by destruct out. }
    apply lookup_lt_is_Some_2 in Hb as [x Hx].
    assert (0 ≤ step * x) by (rewrite Forall_lookup in Hpos; eauto).
    assert (step * x ≤ step * zsum out).
    { rewrite <- !zsum_fmap_mul. apply zsum_lookup_le with (best_of fracs).
      - by apply Forall_fmap.
      - by rewrite list_lookup_fmap, Hx. }
    assert (i64 (x + step) = x + step) as Hw by (apply i64_id; unfold_int; destruct Hs; subst; lia).
    simpl. destruct (IH (alter (λ a, i64 (a + step)) (best_of fracs) out)
      (alter (λ f, f64_sub f (f64_of_Z step)) (best_of fracs) fracs)) as [H1 H2].
    + by rewrite !length_alter.
    + intros E. apply (f_equal length) in E. rewrite length_alter in E. by destruct out.
    + apply Forall_lookup. intros i y Hy. destruct (decide (i = best_of fracs)) as [->|Hi].
      * rewrite list_lookup_alter_eq, Hx in Hy. simplify_eq/=. rewrite Hw. destruct Hs; subst; lia.
      * rewrite list_lookup_alter_ne in Hy by done. rewrite Forall_lookup in Hpos. eauto.
    + rewrite (zsum_alter _ _ _ _ Hx), Hw. lia.
    + done.
    + split; [done|]. eapply Forall2_trans_le; [ |exact H2].
      apply Forall2_same_length_lookup_2; [by rewrite length_alter|].
      intros i y z Hy Hz. destruct (decide (i = best_of fracs)) as [->|Hi].
      * rewrite list_lookup_alter_eq, Hy in Hz. simplify_eq/=. rewrite Hw. destruct Hs; subst; lia.
      * rewrite list_lookup_alter_ne in Hz by done. simplify_eq. lia.
Qed.

Lemma ratio_total_nonneg ratios acc total :
  ratio_total ratios acc = Ok total → Forall (λ r, 0 ≤ r) ratios.
Proof.
  revert acc; induction ratios as [|r rs IH]; intros acc H; simpl in *; [constructor|].
  destruct (Z.ltb_spec r 0); [done|]. constructor; eauto.
Qed.

Lemma ratio_total_total ratios acc :
  Forall (λ r, 0 ≤ r) ratios → 0 ≤ acc → acc + zsum ratios ≤ max_i64 →
  ratio_total ratios acc = Ok (acc + zsum ratios).
Proof.
  intros H. revert acc; induction H as [|r rs Hr Hrs IH]; intros acc Ha Hs; simpl in *.
  - f_equal; lia.
  - pose proof (zsum_Forall_nonneg rs Hrs). zcases; [lia|].
    rewrite i64_id, IH by (unfold_int; lia). f_equal; lia.
Qed.

Lemma alloc_shares_total amt total ratios acc :
  in_i64 amt → 0 < total → Forall (λ r, 0 ≤ r ≤ max_i64) ratios →
  Forall (λ r, in_i64 (amt * r)) ratios ↔ is_ok (alloc_shares amt total ratios acc) = true.
Proof.
  intros Ha Ht H. revert acc; induction H as [|r rs Hr Hrs IH]; intros acc; simpl; [done|].
  rewrite mulChecked_exact by (done || (unfold_int; lia)). rewrite Forall_cons. unfold fits. destruct (in_i64b (amt * r)) eqn:E; simpl.
  - apply in_i64b_spec in E. rewrite (IH (i64 (acc + i64 (Z.quot (amt * r) total)))).
    by destruct (alloc_shares _ _ _ _); simpl; intuition.
  - split; [ |done]. intros [? _]. by rewrite (proj2 (in_i64b_spec _)) in E.
Qed.

Lemma ratios_bounded ratios :
  Forall (λ r, 0 ≤ r) ratios → zsum ratios ≤ max_i64 → Forall (λ r, 0 ≤ r ≤ max_i64) ratios.
Proof.
  intros H Hs. apply Forall_lookup. intros i x Hx.
  pose proof (zsum_lookup_le ratios i x H Hx). rewrite Forall_lookup in H. pose proof (H i x Hx).
  simpl in *. lia.
Qed.

Lemma Allocate_unfold m ratios :
  ratios ≠ [] →
  Allocate m ratios =
    (total ⇐ ratio_total ratios 0;
     if total =? 0 then Err ErrZeroRatios
     else
       shares ⇐ alloc_shares (amount m) total ratios 0;
       let remainder := i64 (amount m - snd shares) in
       let out :=
         if negb (remainder =? 0) then
           distribute (Z.to_nat (absI64 remainder)) (if remainder <? 0 then -1 else 1)
             (fst shares) (zip_with (frac_of (amount m) total) ratios (fst shares))
         else fst shares in
       Ok ((λ a, mkMoney a (cur m)) <$> out)).
Proof. by destruct ratios. Qed.

(** ** Properties *)

(** Addition, subtraction and integer multiplication of Money are exact:
    the result is the mathematical one in the same currency when it is an
    int64, [ErrOverflow] exactly when it is not, and mixing currencies is
    [ErrCurrencyMismatch]; no wrap-around is ever returned. *)
Theorem money_ops_exact m o k :
  money_wf m → money_wf o → in_i64 k →
  (let ret z := (λ s, mkMoney s (cur m)) <$> fits z in
   Add m o = (if decide (cur m = cur o) then ret (amount m + amount o) else Err ErrCurrencyMismatch) ∧
   Sub m o = (if decide (cur m = cur o) then ret (amount m - amount o) else Err ErrCurrencyMismatch) ∧
   Mul m k = ret (amount m * k)).
Proof.
  unfold money_wf. intros Hm Ho Hk. cbv zeta. unfold Add, Sub, Mul, same.
  rewrite addChecked_exact, subChecked_exact, mulChecked_exact by done.
  by destruct (decide (cur m = cur o)), (fits (amount m + amount o)),
    (fits (amount m - amount o)), (fits (amount m * k)).
Qed.

(** [Div] by a divisor of magnitude at most [2^62] returns the quotient
    correctly rounded in the requested mode (half away from zero, half to
    even, toward zero, away from zero), for every sign combination, without
    overflow except for the rejected [MinInt64 / -1]. *)
Theorem Div_rounds m d mode :
  money_wf m → d ≠ 0 → - 2 ^ 62 ≤ d ≤ 2 ^ 62 → ¬ (amount m = min_i64 ∧ d = -1) →
  ∃ q, Div m d mode = Ok (mkMoney q (cur m)) ∧ rounds_to mode (amount m) d q.
Proof.
  intros Hm Hd Hb Hn. unfold Div.
  destruct (Z.eqb_spec d 0); [done|].
  destruct (Z.eqb_spec (amount m) min_i64), (Z.eqb_spec d (-1)); simpl; try (exfalso; tauto).
  all: rewrite (i64_id (Z.quot _ _)) by (apply quot_in_i64; auto).
  all: eexists; split; [reflexivity|].
  all: pose proof (roundDir_correct (amount m) d mode Hm Hd Hb) as H; cbv zeta in H.
  all: pose proof (quot_rem_facts (amount m) d Hd) as (Hq & Hr & Hra & Hp & Hng).
  all: destruct (roundDir _ _ _ _) eqn:Edir; [done|].
  all: assert (Z.rem (amount m) d ≠ 0) by (intros E; by rewrite E in Edir).
  all: assert (- 2 ^ 62 ≤ Z.quot (amount m) d ≤ 2 ^ 62) by (red in Hm; unfold_int; nia).
  all: destruct (negb _); rewrite i64_id by (unfold_int; lia); done.
Qed.

(** C1: [Allocate] loses no minor unit. When it succeeds on ratios whose
    total is an int, there is one share per ratio, in the currency of the
    amount, the shares sum to the amount exactly, every share has the sign of
    the amount and is at least its truncated proportional part; whatever the
    float fractions pick, fewer units than shares are handed out on top. *)
Theorem Allocate_conserves m ratios out :
  money_wf m → zsum ratios ≤ max_i64 → Allocate m ratios = Ok out →
  zsum (amount <$> out) = amount m ∧
  Forall2 (λ r o, cur o = cur m ∧ 0 ≤ Z.sgn (amount m) * amount o ∧
    Z.abs (share_of (amount m) (zsum ratios) r) ≤ Z.abs (amount o)) ratios out ∧
  Z.abs (amount m - zsum (share_of (amount m) (zsum ratios) <$> ratios))
    < Z.of_nat (length ratios).
Proof.
  intros Hm Hs H. destruct (decide (ratios = [])) as [->|Hne]; [done|].
  rewrite Allocate_unfold in H by done.
  destruct (ratio_total ratios 0) as [total|] eqn:Et; simpl in H; [ |done].
  apply ratio_total_ok in Et as [-> Hr]; [ |lia|lia]. rewrite Z.add_0_l in H.
  pose proof (zsum_Forall_nonneg _ Hr).
  destruct (Z.eqb_spec (zsum ratios) 0); [done|].
  destruct (alloc_shares _ _ _ _) as [sh|] eqn:Ea; simpl in H; [ |done].
  apply alloc_shares_spec in Ea as [Hf Hsnd]; [ |done|lia|by apply ratios_bounded].
  pose proof (alloc_remainder (amount m) ratios ltac:(lia) Hr) as (Hsg & Hlen & Hab & Hlt).
  set (shs := share_of (amount m) (zsum ratios) <$> ratios) in *.
  assert (i64 (amount m - sh.2) = amount m - zsum shs) as Hrem.
  { rewrite <- i64_sub_r, Hsnd, i64_sub_r. rewrite Z.add_0_l. apply i64_id. red in Hm. unfold_int. lia. }
  rewrite Hrem, Hf in H.
  assert (Forall (λ x, 0 ≤ Z.sgn (amount m) * x) shs) as Hshs.
  { apply Forall_fmap, (Forall_impl _ _ _ Hr). intros r ?. simpl. rewrite share_of_abs by lia.
    assert (0 ≤ Z.abs (amount m) * r / zsum ratios) by (apply Z.div_pos; nia). nia. }
  set (fin := if negb _ then _ else _) in H.
  assert (zsum fin = amount m ∧
    Forall2 (λ x y, Z.sgn (amount m) * x ≤ Z.sgn (amount m) * y) shs fin) as [Hsum Hall].
  { subst fin. destruct (Z.eqb_spec (amount m - zsum shs) 0) as [E0|E0]; simpl.
    - split; [lia|]. apply Forall2_same_length_lookup_2; [done|]. intros; simplify_eq; lia.
    - set (step := if _ <? 0 then -1 else 1).
      assert (step = Z.sgn (amount m)) as Hstep by (subst step; zcases; lia).
      rewrite absI64_abs by (red in Hm; unfold_int; lia).
      rewrite <- Hstep in *. apply distribute_spec; try done.
      + subst step; case_match; auto.
      + rewrite length_zip_with. subst shs. rewrite length_fmap. lia.
      + subst shs. by destruct ratios.
      + rewrite Z2Nat.id by lia. subst step. revert Hstep. zcases; lia. }
  simplify_eq. split_and!; [ | |done].
  - rewrite <- list_fmap_compose. etrans; [ |exact Hsum]. f_equal. by apply list_fmap_id.
  - rewrite Forall2_fmap_l in Hall. apply Forall2_fmap_r.
    apply Forall2_same_length_lookup. split; [by apply Forall2_length in Hall|].
    intros i r o Hi Ho. split; [done|]. simpl.
    pose proof (Forall2_lookup_lr _ _ _ _ _ _ Hall Hi Ho) as Hle.
    rewrite Forall_fmap, Forall_lookup in Hshs. pose proof (Hshs i r Hi) as Hp. simpl in *.
    destruct (Z.sgn_spec (amount m)) as [[? E]|[[E' E]|[? E]]]; rewrite E in *; [lia| |lia].
    rewrite <- E'. unfold share_of. rewrite Z.mul_0_l, Z.quot_0_l by lia. lia.
Qed.

(** [Allocate] succeeds exactly on a non-empty list of non-negative
    ratios with a positive total for which no [amount * ratio] overflows. *)
Theorem Allocate_succeeds_iff m ratios :
  money_wf m → zsum ratios ≤ max_i64 →
  is_ok (Allocate m ratios) = true ↔
    ratios ≠ [] ∧ Forall (λ r, 0 ≤ r) ratios ∧ 0 < zsum ratios ∧
    Forall (λ r, in_i64 (amount m * r)) ratios.
Proof.
  intros Hm Hs. destruct (decide (ratios = [])) as [->|Hne]; [naive_solver|].
  rewrite Allocate_unfold by done.
  destruct (ratio_total ratios 0) as [total|] eqn:Et; simpl.
  - pose proof (ratio_total_nonneg _ _ _ Et) as Hr.
    apply ratio_total_ok in Et as [-> _]; [ |lia|lia]. rewrite Z.add_0_l.
    pose proof (zsum_Forall_nonneg _ Hr).
    destruct (Z.eqb_spec (zsum ratios) 0); [split; [done|lia]|].
    rewrite (alloc_shares_total (amount m) (zsum ratios) ratios 0)
      by (done || lia || by apply ratios_bounded).
    destruct (alloc_shares _ _ _ _); simpl; intuition lia.
  - split; [done|]. intros (_ & Hr & _). rewrite ratio_total_total in Et by (done || lia). done.
Qed.


(** ** Witnesses and concrete values *)

Definition USD : Currency := mkCurrency "USD" "840" 2.

Lemma money_ops_exact_witness :
  Add (mkMoney 1250 USD) (mkMoney (-50) USD) = Ok (mkMoney 1200 USD).
Proof.
  destruct (money_ops_exact (mkMoney 1250 USD) (mkMoney (-50) USD) 3) as [H _];
    [unfold money_wf; simpl; mint..|]. rewrite H. reflexivity.
Defined.

Lemma Div_rounds_witness :
  ∃ q, Div (mkMoney (-250) USD) 100 RoundHalfEven = Ok (mkMoney q USD)
    ∧ rounds_to RoundHalfEven (-250) 100 q.
Proof.
  apply (Div_rounds (mkMoney (-250) USD) 100 RoundHalfEven);
    [unfold money_wf; simpl; mint|lia|lia|simpl; lia].
Defined.

Lemma Allocate_conserves_witness :
  zsum (amount <$> [mkMoney 34 USD; mkMoney 33 USD; mkMoney 33 USD]) = 100.
Proof.
  apply (Allocate_conserves (mkMoney 100 USD) [1; 1; 1]
    [mkMoney 34 USD; mkMoney 33 USD; mkMoney 33 USD]);
    [unfold money_wf; simpl; mint|simpl; mint|vm_compute; reflexivity].
Defined.

Lemma Allocate_succeeds_iff_witness :
  is_ok (Allocate (mkMoney 100 USD) [1; 2]) = true.
Proof.
  apply (Allocate_succeeds_iff (mkMoney 100 USD) [1; 2]);
    [unfold money_wf; simpl; mint|simpl; mint|].
  split_and!; [done| | simpl; lia|]; repeat constructor; simpl; mint.
Defined.

(** Beyond a divisor of [2^62] the doubled remainder wraps: the quotient
    [0.98] of these amounts is rounded half-up to 0. *)
Example Div_large_divisor :
  Div (mkMoney 9000000000000000000 USD) max_i64 RoundHalfUp = Ok (mkMoney 0 USD).
Proof. vm_compute. reflexivity. Qed.
