(* ===== verification/MoneyText.v ===== *)
(** * money: the currency registry, constructors, parsing and printing

    Models src/money/currency.go (the registry, a map from upper-case codes
    to currencies, threaded explicitly) and the constructors and text
    functions of src/money/money.go: [FromMinor], [FromMajor], [Parse] and
    [String]. The registered decimals are those of the table or of a
    registration with a non-negative count. *)

From Stdlib Require Import ZArith Lia Ascii String.
From stdpp Require Import base list gmap strings.
From S2P Require Import Prelude GoStd MoneyArith.

#[local] Open Scope Z_scope.
#[local] Open Scope go_scope.

(** ** currency.go *)

Fixpoint upperASCII (s : string) : string :=
  match s with
  | EmptyString => EmptyString
  | String c r =>
      String (if (97 <=? byte_of c) && (byte_of c <=? 122) then chr (byte_of c - 32) else c)
        (upperASCII r)
  end.

Definition Lookup (reg : gmap string Currency) (code : string) : option Currency :=
  reg !! upperASCII code.

Definition RegisterCurrency (reg : gmap string Currency) (c : Currency) : gmap string Currency :=
  if String.eqb (Code c) EmptyString then reg else <[upperASCII (Code c) := c]> reg.

(** The order of a Go map iteration is unspecified; the codes as a set. *)
Definition Currencies (reg : gmap string Currency) : gset string := dom reg.

Definition iso4217 : list Currency :=
  (λ '(c, n, d), mkCurrency c n d) <$>
  [ ("USD", "840", 2); ("EUR", "978", 2); ("GBP", "826", 2); ("JPY", "392", 0);
    ("CHF", "756", 2); ("CAD", "124", 2); ("AUD", "036", 2); ("NZD", "554", 2);
    ("CNY", "156", 2); ("HKD", "344", 2); ("SGD", "702", 2); ("INR", "356", 2);
    ("KRW", "410", 0); ("BRL", "986", 2); ("MXN", "484", 2); ("RUB", "643", 2);
    ("ZAR", "710", 2); ("TRY", "949", 2); ("SEK", "752", 2); ("NOK", "578", 2);
    ("DKK", "208", 2); ("PLN", "985", 2); ("THB", "764", 2); ("IDR", "360", 2);
    ("MYR", "458", 2); ("PHP", "608", 2); ("VND", "704", 0); ("ILS", "376", 2);
    ("AED", "784", 2); ("SAR", "682", 2); ("KWD", "414", 3); ("BHD", "048", 3);
    ("OMR", "512", 3); ("JOD", "400", 3); ("CLP", "152", 0); ("COP", "170", 2);
    ("PEN", "604", 2); ("ARS", "032", 2); ("TWD", "901", 2); ("CZK", "203", 2);
    ("HUF", "348", 2); ("RON", "946", 2); ("NGN", "566", 2); ("PKR", "586", 2);
    ("BDT", "050", 2); ("EGP", "818", 2); ("QAR", "634", 2); ("KZT", "398", 2) ]%string.

Definition init_registry : gmap string Currency :=
  foldl (λ reg c, <[upperASCII (Code c) := c]> reg) ∅ iso4217.

(** ** Constructors *)

Definition FromMinor (reg : gmap string Currency) (minor : Z) (code : string) :
    result MoneyErr Money :=
  match Lookup reg code with
  | None => Err ErrUnknownCurrency
  | Some c =>
      if minor =? min_i64 then Err ErrOverflow else Ok (mkMoney minor c)
  end.

Definition absInt (x : Z) : Z := if x <? 0 then i64 (- x) else x.

(** [for range c.Decimals { minor, err = mulChecked(minor, 10) }] *)
Fixpoint scale10 (n : nat) (minor : Z) : result MoneyErr Z :=
  match n with
  | O => Ok minor
  | S k => minor' ⇐ mulChecked minor 10; scale10 k minor'
  end.

Definition FromMajor (reg : gmap string Currency) (whole frac : Z) (code : string) :
    result MoneyErr Money :=
  match Lookup reg code with
  | None => Err ErrUnknownCurrency
  | Some c =>
      if Decimals c =? 0 then
        if negb (frac =? 0) then Err ErrInvalidAmount
        else if whole =? min_i64 then Err ErrOverflow
        else Ok (mkMoney whole c)
      else if negb (Bool.eqb (whole <? 0) (frac <? 0)) && negb (whole =? 0) && negb (frac =? 0)
      then Err ErrInvalidAmount
      else
        let fracStr := Itoa (absInt frac) in
        if str_len fracStr >? Decimals c then Err ErrInvalidAmount
        else
          let fracStr := Repeat "0" (Decimals c - str_len fracStr) +:+ fracStr in
          match ParseInt fracStr with
          | None => Err ErrInvalidAmount
          | Some scaledFrac =>
              minor ⇐ scale10 (Z.to_nat (Decimals c)) whole;
              let minor :=
                if (whole <? 0) || (frac <? 0) then i64 (minor - scaledFrac)
                else i64 (minor + scaledFrac) in
              if minor =? min_i64 then Err ErrOverflow else Ok (mkMoney minor c)
          end
  end.

(** ** Parse *)

(** The part after the point, padded to the currency's decimals. *)
Definition parse_frac (decimals : Z) (fs : string) : result MoneyErr Z :=
  if str_len fs >? decimals then Err ErrInvalidAmount
  else
    match ParseInt (fs +:+ Repeat "0" (decimals - str_len fs)) with
    | None => Err ErrInvalidAmount
    | Some frac => if frac <? 0 then Err ErrInvalidAmount else Ok frac
    end.

Definition Parse (reg : gmap string Currency) (code amt : string) : result MoneyErr Money :=
  match Lookup reg code with
  | None => Err ErrUnknownCurrency
  | Some c =>
      let s := TrimSpace amt in
      if String.eqb s EmptyString then Err ErrInvalidAmount
      else
        let '(neg, s) := strip_sign s in
        if (str_len s =? 0) || starts_with_sign s then Err ErrInvalidAmount
        else
          let '(p0, p1) := SplitN2 "." s in
          match ParseInt p0 with
          | None => Err ErrInvalidAmount
          | Some whole =>
              if whole <? 0 then Err ErrInvalidAmount
              else
                frac ⇐ match p1 with None => Ok 0 | Some fs => parse_frac (Decimals c) fs end;
                minor ⇐ scale10 (Z.to_nat (Decimals c)) whole;
                let minor := i64 (minor + frac) in
                let minor := if neg : bool then i64 (- minor) else minor in
                if minor =? min_i64 then Err ErrOverflow else Ok (mkMoney minor c)
          end
  end.

(** ** String *)

(** [div := 1; for range Decimals { div *= 10 }], with int64 wrap-around. *)
Fixpoint pow10_wrap (n : nat) (div : Z) : Z :=
  match n with O => div | S k => pow10_wrap k (i64 (div * 10)) end.

(** The rendering without the trailing code; [None] is the division by zero
    Go panics on when the wrapped power is 0 (64 decimals or more). *)
Definition amount_text (m : Money) : option string :=
  let neg := amount m <? 0 in
  let abs := if neg then i64 (- amount m) else amount m in
  let sign := if neg then "-"%string else EmptyString in
  if Decimals (cur m) =? 0 then Some (sign +:+ Itoa abs)
  else
    let div := pow10_wrap (Z.to_nat (Decimals (cur m))) 1 in
    if div =? 0 then None
    else
      let whole := abs ÷t div in
      let frac := abs %t div in
      Some (sign +:+ Itoa whole +:+ "."%string +:+ pad0 (Decimals (cur m)) frac).

Definition String_ (m : Money) : option string :=
  (λ s, s +:+ " "%string +:+ Code (cur m)) <$> amount_text m.

(** ** Lemmas *)

Lemma pow10_wrap_exact n k :
  (n + k ≤ 18)%nat → pow10_wrap n (10 ^ Z.of_nat k) = 10 ^ Z.of_nat (n + k).
Proof.
  revert k; induction n as [|n IH]; intros k Hk; simpl; [done|].
  replace (10 ^ Z.of_nat k * 10) with (10 ^ Z.of_nat (S k))
    by (rewrite Nat2Z.inj_succ, Z.pow_succ_r by lia; lia).
  rewrite i64_id, IH by (try lia; pose proof (Z.pow_le_mono_r 10 (Z.of_nat (S k)) 18);
    pose proof (Z.pow_nonneg 10 (Z.of_nat (S k))); unfold_int; lia).
  f_equal. lia.
Qed.

Lemma scale10_exact n w :
  0 ≤ w → w * 10 ^ Z.of_nat n ≤ max_i64 → scale10 n w = Ok (w * 10 ^ Z.of_nat n).
Proof.
  revert w; induction n as [|n IH]; intros w Hw Hm; [simpl; f_equal; lia|].
  rewrite Nat2Z.inj_succ, Z.pow_succ_r in * by lia.
  pose proof (Z.pow_pos_nonneg 10 (Z.of_nat n)).
  simpl. rewrite mulChecked_exact by (unfold_int; nia). unfold fits.
  rewrite (proj2 (in_i64b_spec _)) by (unfold_int; nia).
  simpl. rewrite IH by nia. f_equal. ring.
Qed.

(** ** A rendering: an optional minus sign, digits, a point and digits *)

Lemma ParseInt_utoa n : 0 ≤ n ≤ max_i64 → ParseInt (utoa n) = Some n.
Proof.
  intros. rewrite (ParseInt_digits _ n) by (apply utoa_nonempty || (apply parse_utoa; lia)).
  by rewrite (proj2 (in_i64b_spec _)) by (unfold_int; lia).
Qed.

Lemma parse_frac_pad0 k n :
  (0 < k ≤ 18)%nat → 0 ≤ n < 10 ^ Z.of_nat k → parse_frac (Z.of_nat k) (pad0 (Z.of_nat k) n) = Ok n.
Proof.
  intros Hk Hn. unfold parse_frac, str_len. rewrite length_pad0 by (done || lia).
  rewrite Z.gtb_ltb, Z.ltb_irrefl, Z.sub_diag. unfold Repeat. simpl (repeat_nat _ _).
  rewrite app_nil_r_str. pose proof (Z.pow_le_mono_r 10 (Z.of_nat k) 18).
  rewrite (ParseInt_digits _ n).
  - rewrite (proj2 (in_i64b_spec _)) by (unfold_int; lia). by zcases; [lia|].
  - intros E. apply (f_equal String.length) in E. rewrite length_pad0 in E by (done || lia).
    simpl in E. lia.
  - apply parse_pad0. lia.
Qed.

(** The rendering of [Itoa] and [%0*d] with the exact power of ten. *)
Lemma amount_text_eq m (k := Z.to_nat (Decimals (cur m))) :
  money_wf m → amount m ≠ min_i64 → 0 ≤ Decimals (cur m) ≤ 18 →
  amount_text m = Some (with_sign (amount m <? 0)
    (let abs := Z.abs (amount m) in
     if Decimals (cur m) =? 0 then utoa abs
     else utoa (abs / 10 ^ Z.of_nat k) +:+
          ("."%string +:+ pad0 (Z.of_nat k) (abs mod 10 ^ Z.of_nat k)))).
Proof.
  unfold money_wf. intros Hm Hn Hd. unfold amount_text, with_sign. cbv zeta.
  assert ((if amount m <? 0 then i64 (- amount m) else amount m) = Z.abs (amount m)) as ->.
  { zcases; [rewrite i64_id by (unfold_int; lia)|]; lia. }
  rewrite (Itoa_nonneg (Z.abs _)) by lia.
  destruct (Z.eqb_spec (Decimals (cur m)) 0) as [E0|E0]; [done|]. fold k.
  pose proof (pow10_wrap_exact k 0 ltac:(lia)) as Hp.
  rewrite Z.pow_0_r, Nat.add_0_r in Hp. rewrite Hp.
  pose proof (Z.pow_pos_nonneg 10 (Z.of_nat k)).
  destruct (Z.eqb_spec (10 ^ Z.of_nat k) 0); [lia|].
  rewrite Z.quot_div_nonneg, Z.rem_mod_nonneg by lia.
  replace (Decimals (cur m)) with (Z.of_nat k) by lia.
  by rewrite Itoa_nonneg by (apply Z.div_pos; lia).
Qed.

Lemma Parse_core reg code c neg s t p1 whole frac :
  Lookup reg code = Some c → all_digits s → s ≠ EmptyString →
  tight_head (str_rev (with_sign neg (s +:+ t))) →
  SplitN2 "." (s +:+ t) = (s, p1) → ParseInt s = Some whole → 0 ≤ whole → 0 ≤ frac →
  match p1 with None => Ok 0 | Some fs => parse_frac (Decimals c) fs end = Ok frac →
  whole * 10 ^ Z.of_nat (Z.to_nat (Decimals c)) + frac ≤ max_i64 →
  Parse reg code (with_sign neg (s +:+ t)) =
    Ok (mkMoney ((if neg then -1 else 1) *
      (whole * 10 ^ Z.of_nat (Z.to_nat (Decimals c)) + frac)) c).
Proof.
  intros Hl Hd Hne Ht Hsp Hw Hw0 Hf0 Hf Hb.
  destruct (strip_sign_with_sign neg s t Hd Hne) as (H1 & H2 & H3 & H4 & H5).
  unfold Parse. rewrite Hl, TrimSpace_tight by done. rewrite H4, H1, H3, H2, Hsp, Hw. simpl.
  destruct (Z.ltb_spec whole 0); [lia|]. rewrite Hf. simpl.
  pose proof (Z.pow_pos_nonneg 10 (Z.of_nat (Z.to_nat (Decimals c)))).
  rewrite scale10_exact by lia. simpl.
  set (v := whole * _ + frac) in *. assert (0 ≤ v) by (subst v; nia).
  rewrite (i64_id v) by (unfold_int; lia).
  destruct neg; [rewrite i64_id by (unfold_int; lia)|]; zcases; try (unfold_int; lia).
  all: f_equal; f_equal; lia.
Qed.

(** ** Properties *)

(** C11: printing and parsing are inverse. For every int64 amount other than
    MinInt64 in a registered currency of at most 18 decimals, the amount text
    of [String] is well defined, [String] appends the currency code to it, and
    [Parse] in that currency reads it back as the same Money. *)
Theorem Parse_String_roundtrip reg code m :
  money_wf m → amount m ≠ min_i64 → 0 ≤ Decimals (cur m) ≤ 18 →
  Lookup reg code = Some (cur m) →
  ∃ s, amount_text m = Some s ∧
    String_ m = Some (s +:+ " "%string +:+ Code (cur m)) ∧
    Parse reg code s = Ok m.
Proof.
  intros Hm Hn Hd Hl. pose proof (amount_text_eq m Hm Hn Hd) as Ht. cbv zeta in Ht.
  eexists; split; [exact Ht|]. unfold String_. rewrite Ht. split; [done|].
  red in Hm. set (A := Z.abs (amount m)) in *. set (k := Z.to_nat (Decimals (cur m))) in *.
  assert (Z.of_nat k = Decimals (cur m)) as Hk by lia.
  assert (amount m = (if amount m <? 0 then -1 else 1) * A) as Ham by (subst A; zcases; lia).
  destruct (Z.eqb_spec (Decimals (cur m)) 0) as [E0|E0].
  - rewrite <- (app_nil_r_str (utoa A)).
    rewrite (Parse_core _ _ _ _ _ _ None A 0 Hl);
      try (done || (subst A; unfold_int; lia) || apply utoa_nonempty || (apply utoa_digits; lia)).
    + fold k. rewrite Hk, E0, Z.pow_0_r, Z.mul_1_r, Z.add_0_r, <- Ham. by destruct m.
    + rewrite app_nil_r_str. unfold with_sign. apply str_rev_digits_tight;
        [apply utoa_digits; lia|apply utoa_nonempty].
    + rewrite app_nil_r_str. apply SplitN2_digits_none; [done|apply utoa_digits; lia].
    + apply ParseInt_utoa. subst A; unfold_int; lia.
    + fold k. rewrite E0 in Hk. rewrite Hk. subst A; unfold_int; lia.
  - pose proof (Z.pow_pos_nonneg 10 (Z.of_nat k)) as Hp.
    pose proof (Z.div_mod A (10 ^ Z.of_nat k)) as Hdm.
    pose proof (Z.mod_pos_bound A (10 ^ Z.of_nat k)) as Hmb.
    assert (0 ≤ A / 10 ^ Z.of_nat k ≤ A) as Hq.
    { split; [apply Z.div_pos; lia|]. apply Z.div_le_upper_bound; [lia|]. nia. }
    assert (all_digits (pad0 (Z.of_nat k) (A mod 10 ^ Z.of_nat k))) as Hpd
      by (eexists; apply parse_pad0; lia).
    rewrite (Parse_core _ _ _ _ _ _ (Some (pad0 (Z.of_nat k) (A mod 10 ^ Z.of_nat k)))
      (A / 10 ^ Z.of_nat k) (A mod 10 ^ Z.of_nat k) Hl);
      try (done || lia || apply utoa_nonempty || (apply utoa_digits; lia)).
    + fold k. rewrite (Z.mul_comm (A / _)), <- Hdm, <- Ham by lia. by destruct m.
    + unfold with_sign. rewrite !app_assoc_str. apply str_rev_digits_tight; [done|].
      intros E. apply (f_equal String.length) in E. rewrite length_pad0 in E by lia. simpl in E. lia.
    + rewrite <- (SplitN2_digits "." (utoa (A / 10 ^ Z.of_nat k))); [done|done|apply utoa_digits; lia].
    + apply ParseInt_utoa. subst A; unfold_int; lia.
    + rewrite <- Hk. apply parse_frac_pad0; lia.
    + fold k. subst A; unfold_int; lia.
Qed.

Lemma Parse_String_roundtrip_witness :
  ∃ s, amount_text (mkMoney (-5) USD) = Some s ∧
    String_ (mkMoney (-5) USD) = Some (s +:+ " USD"%string) ∧
    Parse init_registry "usd" s = Ok (mkMoney (-5) USD).
Proof.
  apply (Parse_String_roundtrip init_registry "usd" (mkMoney (-5) USD));
    [unfold money_wf; simpl; mint|done|simpl; lia|vm_compute; reflexivity].
Defined.

Lemma scale10_exact_neg n w :
  w ≤ 0 → min_i64 ≤ w * 10 ^ Z.of_nat n → scale10 n w = Ok (w * 10 ^ Z.of_nat n).
Proof.
  revert w; induction n as [|n IH]; intros w Hw Hm; [simpl; f_equal; lia|].
  rewrite Nat2Z.inj_succ, Z.pow_succ_r in * by lia.
  pose proof (Z.pow_pos_nonneg 10 (Z.of_nat n)).
  simpl. rewrite mulChecked_exact by (unfold_int; nia). unfold fits.
  rewrite (proj2 (in_i64b_spec _)) by (unfold_int; nia).
  simpl. rewrite IH by nia. f_equal. ring.
Qed.

Lemma str_len_utoa n k : 0 ≤ n < 10 ^ Z.of_nat k → (0 < k)%nat → str_len (utoa n) ≤ Z.of_nat k.
Proof.
  intros. unfold str_len, utoa.
  pose proof (length_digits_acc (S (Z.to_nat (Z.log2 n))) n EmptyString k). simpl in *. lia.
Qed.

(** [FromMajor] is exact on its documented domain: with a currency of 1
    to 18 decimals, a fraction of at most that many digits sharing the sign
    of the whole part, and a total that is an int64 above MinInt64, the
    result is [whole * 10^decimals + frac] minor units. *)
Theorem FromMajor_exact reg code c whole frac :
  Lookup reg code = Some c → 1 ≤ Decimals c ≤ 18 →
  (0 ≤ whole ∧ 0 ≤ frac ∨ whole ≤ 0 ∧ frac ≤ 0) → Z.abs frac < 10 ^ Decimals c →
  min_i64 < whole * 10 ^ Decimals c + frac ≤ max_i64 →
  FromMajor reg whole frac code = Ok (mkMoney (whole * 10 ^ Decimals c + frac) c).
Proof.
  intros Hl Hd Hs Hf Hr. unfold FromMajor. rewrite Hl.
  destruct (Z.eqb_spec (Decimals c) 0); [lia|].
  set (k := Z.to_nat (Decimals c)). assert (Decimals c = Z.of_nat k) as Hk by lia. rewrite Hk in *.
  pose proof (Z.pow_le_mono_r 10 (Z.of_nat k) 18). pose proof (Z.pow_pos_nonneg 10 (Z.of_nat k)).
  assert (absInt frac = Z.abs frac) as -> by (unfold absInt; zcases; [rewrite i64_id by (unfold_int; lia)|]; lia).
  rewrite Itoa_nonneg by lia.
  assert (negb (Bool.eqb (whole <? 0) (frac <? 0)) && negb (whole =? 0) && negb (frac =? 0) = false)
    as -> by (destruct Hs; zcases; simpl; done || lia).
  pose proof (str_len_utoa (Z.abs frac) k ltac:(lia) ltac:(lia)) as Hlen.
  rewrite Z.gtb_ltb. destruct (Z.ltb_spec (Z.of_nat k) (str_len (utoa (Z.abs frac)))); [lia|].
  assert (ParseInt (pad0 (Z.of_nat k) (Z.abs frac)) = Some (Z.abs frac)) as Hp.
  { rewrite (ParseInt_digits _ (Z.abs frac)).
    - by rewrite (proj2 (in_i64b_spec _)) by (unfold_int; lia).
    - intros E. apply (f_equal String.length) in E. rewrite length_pad0 in E by lia. simpl in E. lia.
    - apply parse_pad0. lia. }
  unfold pad0 in Hp. rewrite Hp. unfold_int.
  destruct Hs as [[? ?]|[? ?]];
    [rewrite scale10_exact by (unfold_int; lia)|rewrite scale10_exact_neg by (unfold_int; lia)]; simpl.
  - destruct (Z.ltb_spec whole 0), (Z.ltb_spec frac 0); simpl; try lia; rewrite i64_id by (unfold_int; lia);
      zcases; try lia; do 2 f_equal; lia.
  - destruct (Z.ltb_spec whole 0), (Z.ltb_spec frac 0); simpl; rewrite i64_id by (unfold_int; lia);
      zcases; try lia; do 2 f_equal; lia.
Qed.

Lemma FromMajor_exact_witness :
  FromMajor init_registry (-12) (-34) "USD" = Ok (mkMoney (-1234) USD).
Proof.
  apply (FromMajor_exact init_registry "USD" USD (-12) (-34));
    [vm_compute; reflexivity|simpl; lia|lia|simpl; lia|simpl; unfold_int; lia].
Defined.

(** Every constructor yields a well-formed value: on success the amount
    is an int64 other than MinInt64 and the currency is the one registered
    under the code, whatever text or integers the caller passed. *)
Theorem constructors_wf reg code m minor whole frac text :
  in_i64 minor → in_i64 whole →
  FromMinor reg minor code = Ok m ∨ FromMajor reg whole frac code = Ok m
    ∨ Parse reg code text = Ok m →
  money_wf m ∧ amount m ≠ min_i64 ∧ Lookup reg code = Some (cur m).
Proof.
  intros Hi Hw H. unfold money_wf.
  destruct H as [H|[H|H]].
  - unfold FromMinor in H. destruct (Lookup reg code); [ |done].
    zcases_in H; simplify_eq/=. auto.
  - unfold FromMajor in H. destruct (Lookup reg code) as [c|]; [ |done].
    destruct (Decimals c =? 0).
    { destruct (negb (frac =? 0)); [done|]. destruct (Z.eqb_spec whole min_i64); simplify_eq/=. auto. }
    repeat (case_match; try done); destruct (scale10 _ _); simplify_eq/=.
    all: zcases_in H; simplify_eq/=; auto using i64_range.
  - unfold Parse in H. destruct (Lookup reg code) as [c|]; [ |done].
    case_match; [done|]. destruct (strip_sign _) as [neg s]. case_match; [done|].
    destruct (SplitN2 _ _) as [p0 p1]. destruct (ParseInt p0); [ |done]. case_match; [done|].
    destruct p1 as [fs|]; [destruct (parse_frac _ fs); [ |done]|]; simpl in H.
    all: destruct (scale10 _ _) as [mi|]; [ |done]; simpl in H; set (v := if neg then _ else _) in H.
    all: assert (in_i64 v) by (subst v; destruct neg; apply i64_range).
    all: destruct (Z.eqb_spec v min_i64); simplify_eq/=; auto.
Qed.

Lemma constructors_wf_witness :
  money_wf (mkMoney 1230 USD) ∧ amount (mkMoney 1230 USD) ≠ min_i64
  ∧ Lookup init_registry "usd" = Some (cur (mkMoney 1230 USD)).
Proof.
  apply (constructors_wf init_registry "usd" (mkMoney 1230 USD) 0 0 0 " 12.3 "); [mint|mint|].
  right; right. vm_compute. reflexivity.
Defined.

(** ** Deviations shown by evaluation *)

(** The fraction is added without an overflow check: an amount above the
    int64 range is accepted as a negative one. *)
Example Parse_fraction_overflow :
  Parse init_registry "USD" "92233720368547758.09" = Ok (mkMoney (-9223372036854775807) USD).
Proof. vm_compute. reflexivity. Qed.

(** A sign inside the fraction is accepted. *)
Example Parse_inner_sign : Parse init_registry "USD" "1.+5" = Ok (mkMoney 105 USD).
Proof. vm_compute. reflexivity. Qed.
