(* ===== verification/Ring.v ===== *)
(** * The per-second ring of counters

    The sliding-window algorithm that src/breaker/breaker.go ([advance],
    [recordWindow]), src/limiter/sliding_window.go ([advance], [acquire]) and
    src/log4go/rate_alerter.go ([advance], [Allow]) each carry a copy of: a
    slice with one counter per second, the second [base] of the newest bucket
    and a running sum. It is modelled once, for one ring; the components
    project their state to it.

    The abstract specification is a log of charged events: [ring_refines]
    relates a ring to the log, and its consequence [ring_sum_window] is that
    the running sum is the number of events of the last [n] seconds. Counters
    are unbounded here: a wrap needs [2^63] recorded events. *)

From Stdlib Require Import ZArith Lia.
From stdpp Require Import base list.
From S2P Require Import Prelude.

#[local] Open Scope Z_scope.

Record ring := mkRing { counts : list Z; base : Z; sum : Z }.

(** Index of the bucket of a second, [sec % n]. *)
Definition slot_of (n : nat) (sec : Z) : nat := Z.to_nat (Z.rem sec (Z.of_nat n)).

(** One turn of the roll loop: [base++], drop the bucket it reuses. *)
Definition roll1 (r : ring) : ring :=
  let base' := base r + 1 in
  let i := slot_of (length (counts r)) base' in
  mkRing (<[i := 0]> (counts r)) base' (sum r - nth i (counts r) 0).

Fixpoint roll (k : nat) (r : ring) : ring :=
  match k with O => r | S k => roll k (roll1 r) end.

(** [for i := range counts { sum -= counts[i]; counts[i] = 0 }] *)
Definition clear_all (r : ring) (sec : Z) : ring :=
  mkRing (replicate (length (counts r)) 0) sec (sum r - zsum (counts r)).

Definition advance (r : ring) (sec : Z) : ring :=
  let n := Z.of_nat (length (counts r)) in
  if sec <=? base r then r
  else if n <=? sec - base r then clear_all r sec
  else roll (Z.to_nat (sec - base r)) r.

(** The write that follows [advance] in every client: the second is clamped to
    [base], its bucket and the sum grow by [k]. *)
Definition charge (r : ring) (sec k : Z) : ring :=
  let sec := if sec <? base r then base r else sec in
  let i := slot_of (length (counts r)) sec in
  mkRing (alter (Z.add k) i (counts r)) (base r) (sum r + k).

Definition new_ring (n : nat) (now : Z) : ring := mkRing (replicate n 0) now 0.

(** ** The specification: a log of events *)

Definition event : Type := Z * Z.

(** Total charged at a second. *)
Fixpoint at_sec (log : list event) (s : Z) : Z :=
  match log with
  | [] => 0
  | (t, k) :: log => (if t =? s then k else 0) + at_sec log s
  end.

(** Total charged in the [n] seconds that end at [now]. *)
Fixpoint in_window (n : nat) (now : Z) (log : list event) : Z :=
  match log with
  | [] => 0
  | (t, k) :: log =>
      (if (now - Z.of_nat n <? t) && (t <=? now) then k else 0) + in_window n now log
  end.

(** The second in [(base - n, base]] whose bucket is [i]. *)
Definition slot_time (n : nat) (base : Z) (i : nat) : Z :=
  base - (base - Z.of_nat i) mod Z.of_nat n.

Record ring_refines (n : nat) (r : ring) (log : list event) : Prop := {
  rr_len : length (counts r) = n;
  rr_pos : (0 < n)%nat;
  rr_base : 0 ≤ base r;
  rr_counts : ∀ i, (i < n)%nat → counts r !! i = Some (at_sec log (slot_time n (base r) i));
  rr_sum : sum r = zsum (counts r);
  rr_past : Forall (λ e, 0 ≤ fst e ≤ base r) log }.

(** ** Lemmas *)

Lemma slot_of_lt n s : (0 < n)%nat → 0 ≤ s → (slot_of n s < n)%nat.
Proof. intros. unfold slot_of. pose proof (Z.rem_bound_pos s (Z.of_nat n)). lia. Qed.

Lemma slot_of_mod n s : 0 ≤ s → (0 < n)%nat → Z.of_nat (slot_of n s) = s mod Z.of_nat n.
Proof.
  intros. unfold slot_of. rewrite Z2Nat.id by (apply Z.rem_nonneg; lia).
  apply Z.rem_mod_nonneg; lia.
Qed.

Lemma slot_time_range n b i : (0 < n)%nat → b - Z.of_nat n < slot_time n b i ≤ b.
Proof. intros. unfold slot_time. pose proof (Z.mod_pos_bound (b - Z.of_nat i) (Z.of_nat n)). lia. Qed.

(** A second of the window is the time of its own bucket, and of no other. *)
Lemma slot_time_iff n b i s :
  (0 < n)%nat → (i < n)%nat → 0 ≤ s → b - Z.of_nat n < s ≤ b →
  slot_time n b i = s ↔ i = slot_of n s.
Proof.
  intros Hn Hi Hs Hr. unfold slot_time. pose proof (slot_of_mod n s Hs Hn) as Hm.
  split.
  - intros E. apply Nat2Z.inj. rewrite Hm.
    assert (Z.of_nat i = Z.of_nat i mod Z.of_nat n) as -> by (rewrite Z.mod_small; lia).
    pose proof (Z.div_mod (b - Z.of_nat i) (Z.of_nat n)).
    replace s with (Z.of_nat i + (b - Z.of_nat i) / Z.of_nat n * Z.of_nat n) by lia.
    rewrite Z.mod_add by lia. done.
  - intros ->. rewrite Hm.
    replace (b - s mod Z.of_nat n) with (b - s + s / Z.of_nat n * Z.of_nat n)
      by (pose proof (Z.div_mod s (Z.of_nat n)); lia).
    rewrite Z.mod_add, Z.mod_small by lia. lia.
Qed.

Lemma at_sec_future log b s :
  Forall (λ e, 0 ≤ fst e ≤ b) log → b < s → at_sec log s = 0.
Proof.
  intros H Hs. induction H as [|[t k] log Ht Hl IH]; simpl in *; [done|].
  zcases; lia.
Qed.

Lemma zsum_indicator n j k :
  zsum ((λ i, if Nat.eqb i j then k else 0) <$> seq 0 n) = if Nat.ltb j n then k else 0.
Proof.
  induction n as [|n IH]; [done|].
  rewrite seq_S, fmap_app, zsum_app, IH. simpl.
  destruct (Nat.ltb_spec j n), (Nat.eqb_spec n j), (Nat.ltb_spec j (S n)); lia.
Qed.

Lemma zsum_fmap_add {A} (f g : A → Z) l :
  zsum ((λ x, f x + g x) <$> l) = zsum (f <$> l) + zsum (g <$> l).
Proof. induction l; csimpl; lia. Qed.

(** Summing the buckets of the window counts every event of the window once. *)
Lemma zsum_slots n b log :
  (0 < n)%nat → Forall (λ e, 0 ≤ fst e) log →
  zsum ((λ i, at_sec log (slot_time n b i)) <$> seq 0 n) = in_window n b log.
Proof.
  intros Hn. induction 1 as [|[t k] log Ht Hl IH]; simpl in *.
  { clear. induction (seq 0 n); csimpl; lia. }
  rewrite zsum_fmap_add, IH. f_equal.
  destruct (decide (b - Z.of_nat n < t ≤ b)) as [Hr|Hr].
  - rewrite (proj2 (Z.ltb_lt _ _)), (proj2 (Z.leb_le _ _)) by lia. simpl.
    transitivity (zsum ((λ i, if Nat.eqb i (slot_of n t) then k else 0) <$> seq 0 n)).
    + f_equal. apply list_fmap_ext. intros i j Hi. apply lookup_seq in Hi as [-> Hi]. simpl.
      pose proof (slot_time_iff n b i t Hn ltac:(lia) Ht Hr) as Hiff.
      destruct (Z.eqb_spec t (slot_time n b i)), (Nat.eqb_spec i (slot_of n t)); naive_solver.
    + rewrite zsum_indicator.
      by rewrite (proj2 (Nat.ltb_lt _ _)) by (apply slot_of_lt; lia).
  - transitivity 0.
    + transitivity (zsum ((λ _ : nat, 0) <$> seq 0 n)).
      * f_equal. apply list_fmap_ext. intros i j Hi. simpl.
        pose proof (slot_time_range n b j Hn). zcases; [lia|done].
      * clear. induction (seq 0 n); csimpl; lia.
    + zcases; simpl; lia.
Qed.

Lemma ring_refines_new n now : (0 < n)%nat → 0 ≤ now → ring_refines n (new_ring n now) [].
Proof.
  intros. split; simpl; auto.
  - apply length_replicate.
  - intros. by apply lookup_replicate_2.
  - symmetry. apply zsum_replicate_0.
Qed.

Lemma nth_lookup_Z (l : list Z) i x : l !! i = Some x → nth i l 0 = x.
Proof. rewrite nth_lookup. by intros ->. Qed.

(** The seconds of the other buckets do not change when [base] moves by one. *)
Lemma slot_time_succ n b i :
  (0 < n)%nat → (i < n)%nat → 0 ≤ b → i ≠ slot_of n (b + 1) →
  slot_time n (b + 1) i = slot_time n b i.
Proof.
  intros Hn Hi Hb Hne. unfold slot_time. pose proof (slot_of_mod n (b + 1)) as Hm.
  assert (1 ≤ (b + 1 - Z.of_nat i) mod Z.of_nat n).
  { pose proof (Z.mod_pos_bound (b + 1 - Z.of_nat i) (Z.of_nat n)).
    destruct (decide ((b + 1 - Z.of_nat i) mod Z.of_nat n = 0)) as [E|]; [ |lia].
    exfalso. apply Hne, Nat2Z.inj. rewrite Hm by lia.
    pose proof (Z.div_mod (b + 1 - Z.of_nat i) (Z.of_nat n)).
    replace (b + 1) with (Z.of_nat i + (b + 1 - Z.of_nat i) / Z.of_nat n * Z.of_nat n) by lia.
    rewrite Z.mod_add, Z.mod_small by lia. done. }
  replace (b - Z.of_nat i) with (b + 1 - Z.of_nat i - 1) by lia.
  rewrite (Zminus_mod (b + 1 - Z.of_nat i) 1).
  pose proof (Z.mod_pos_bound (b + 1 - Z.of_nat i) (Z.of_nat n)).
  rewrite (Z.mod_small 1) by lia. rewrite (Z.mod_small (_ - 1)) by lia. lia.
Qed.

Lemma ring_refines_roll1 n r log : ring_refines n r log → ring_refines n (roll1 r) log.
Proof.
  intros [Hl Hn Hb Hc Hs Hp]. unfold roll1. rewrite Hl.
  assert (slot_of n (base r + 1) < n)%nat as Hi by (apply slot_of_lt; lia).
  pose proof (Hc _ Hi) as Hx.
  split; simpl; auto; try lia.
  - by rewrite length_insert.
  - intros i Hin. destruct (decide (i = slot_of n (base r + 1))) as [->|Hne].
    + rewrite list_lookup_insert_eq by lia. f_equal. symmetry.
      apply (at_sec_future _ (base r)); [done|].
      rewrite (proj2 (slot_time_iff n (base r + 1) _ (base r + 1) Hn Hi ltac:(lia) ltac:(lia))); [lia|done].
    + rewrite list_lookup_insert_ne, Hc by done. do 2 f_equal. symmetry. by apply slot_time_succ.
  - rewrite (zsum_insert _ _ _ _ Hx), (nth_lookup_Z _ _ _ Hx). lia.
  - eapply Forall_impl; [exact Hp|]. simpl. lia.
Qed.

Lemma roll_base k r : base (roll k r) = base r + Z.of_nat k.
Proof. revert r; induction k as [|k IH]; intros r; simpl roll; [lia|]. rewrite IH. simpl. lia. Qed.

Lemma ring_refines_roll n k r log : ring_refines n r log → ring_refines n (roll k r) log.
Proof. revert r; induction k; intros r H; simpl; auto using ring_refines_roll1. Qed.

Lemma advance_base n r log sec :
  ring_refines n r log → base (advance r sec) = Z.max (base r) sec.
Proof.
  intros H. unfold advance. zcases; simpl; [lia|lia|]. rewrite roll_base. lia.
Qed.

(** Rolling forward forgets no event of the window and keeps no older one. *)
Lemma ring_refines_advance n r log sec :
  ring_refines n r log → ring_refines n (advance r sec) log.
Proof.
  intros H. pose proof H as [Hl Hn Hb Hc Hs Hp]. unfold advance.
  destruct (Z.leb_spec sec (base r)); [done|].
  destruct (Z.leb_spec (Z.of_nat (length (counts r))) (sec - base r)).
  - rewrite Hl in *. unfold clear_all. rewrite Hl. split; simpl; auto; try lia.
    + apply length_replicate.
    + intros i Hi. rewrite lookup_replicate_2 by done. f_equal. symmetry.
      apply (at_sec_future _ (base r)); [done|]. pose proof (slot_time_range n sec i Hn). lia.
    + rewrite zsum_replicate_0. lia.
    + eapply Forall_impl; [exact Hp|]. simpl. lia.
  - by apply ring_refines_roll.
Qed.

(** Charging after a roll records the event at the clamped second. *)
Lemma ring_refines_charge n r log sec k :
  ring_refines n r log → sec ≤ base r →
  ring_refines n (charge r sec k) ((base r, k) :: log).
Proof.
  intros [Hl Hn Hb Hc Hs Hp] Hsec. unfold charge. rewrite Hl.
  assert ((if sec <? base r then base r else sec) = base r) as -> by (zcases; lia).
  assert (slot_of n (base r) < n)%nat as Hi by (by apply slot_of_lt).
  split; simpl; auto.
  - by rewrite length_alter.
  - intros i Hin. pose proof (slot_time_iff n (base r) i (base r) Hn Hin Hb ltac:(lia)) as Hiff.
    destruct (decide (i = slot_of n (base r))) as [->|Hne].
    + rewrite list_lookup_alter_eq, Hc by done. simpl. rewrite (proj2 Hiff) by done.
      by rewrite Z.eqb_refl.
    + rewrite list_lookup_alter_ne, Hc by done. zcases; [naive_solver|done].
  - rewrite (zsum_alter _ _ _ _ (Hc _ Hi)), Hs. lia.
  - constructor; [simpl; lia|done].
Qed.

(** The refinement: the running sum is the number of events charged in the
    last [n] seconds. *)
Lemma ring_sum_window n r log :
  ring_refines n r log → sum r = in_window n (base r) log.
Proof.
  intros [Hl Hn Hb Hc Hs Hp]. rewrite Hs, <- (zsum_slots n (base r) log Hn).
  - f_equal. apply list_eq. intros i. rewrite list_lookup_fmap.
    destruct (decide (i < n)%nat).
    + rewrite Hc, lookup_seq_lt by done. done.
    + rewrite (lookup_ge_None_2 (counts r)), (lookup_ge_None_2 (seq 0 n)) by (rewrite ?length_seq; lia). done.
  - eapply Forall_impl; [exact Hp|]. simpl. lia.
Qed.

Lemma in_window_nonneg n now log : Forall (λ e, 0 ≤ snd e) log → 0 ≤ in_window n now log.
Proof. induction 1 as [|[t k] log Hk Hl IH]; simpl in *; [lia|]. case_match; lia. Qed.

Lemma in_window_le (P Q : list event) n now :
  Forall2 (λ e f, fst e = fst f ∧ 0 ≤ snd e ≤ snd f) P Q → in_window n now P ≤ in_window n now Q.
Proof.
  induction 1 as [|[t k] [t' k'] P Q [Ht Hk] Hl IH]; simpl in *; [lia|]. subst t'. case_match; lia.
Qed.

#[export] Hint Resolve ring_refines_advance ring_refines_new : go_list.
