(* ===== verification/Breaker.v ===== *)
(** * breaker: the circuit breaker

    Models src/breaker/breaker.go and src/breaker/options.go: the options and
    their defaults, the sliding window of two rings, the three-state machine
    with its half-open epochs, the lifetime counters and the event hook.

    Every read of the injected clock is an argument of the operation that
    performs it (unix nanoseconds, in the order of the reads). The hook is an
    observer: the events it would receive are appended to a trace when one is
    installed. [Execute] is one call that nothing interferes with, with the
    outcome of [fn] as an argument: its atomics and critical sections follow
    one another. BreakerRace.v has the same code one atomic operation at a
    time, with any number of callers interleaved, and shows that a caller
    alone does what [Execute] says here.

    Shown: the closed breaker trips exactly by the rule on the calls of the
    window ([breaker_failure_refines]), recovers after MaxRequests successful
    probes ([breaker_recovers]), rejects while open and reopens on a failed
    probe ([breaker_open_and_reopen]). *)

From Stdlib Require Import ZArith Lia Bool.
From stdpp Require Import base list strings relations.
From S2P Require Import Prelude Float64 Ring.

#[local] Open Scope Z_scope.
#[local] Open Scope go_scope.

(** ** options.go *)

Inductive BreakerState := StateClosed | StateOpen | StateHalfOpen.

#[global] Instance BreakerState_eq_dec : EqDecision BreakerState.
Proof. solve_decision. Defined.

Definition State_String (s : BreakerState) : string :=
  match s with
  | StateClosed => "closed" | StateOpen => "open" | StateHalfOpen => "half_open"
  end.

Definition Second : Z := 1000000000.

Record BreakerOptions := mkOptions {
  Name : string;
  MaxRequests : Z;      (* uint32 *)
  Interval : Z;         (* time.Duration, nanoseconds *)
  OpenDuration : Z;     (* time.Duration, nanoseconds *)
  FailRate : float64;
  MinRequests : Z }.    (* uint32 *)

Definition f64_half : float64 := f64_div (f64_of_Z 1) (f64_of_Z 2).
Definition f64_zero : float64 := f64_of_Z 0.

Definition defaultBreakerOptions : BreakerOptions :=
  mkOptions EmptyString 5 (60 * Second) (30 * Second) f64_half 10.

(** [Duration.Seconds()], a float64: whole seconds plus the fraction. *)
Definition Seconds (d : Z) : float64 :=
  f64_add (f64_of_Z (d ÷t Second)) (f64_div (f64_of_Z (d %t Second)) (f64_of_Z Second)).

Definition withDefaults (o : BreakerOptions) : BreakerOptions :=
  let d := defaultBreakerOptions in
  let maxR := if MaxRequests o =? 0 then MaxRequests d else MaxRequests o in
  let int := if Interval o <=? 0 then Interval d else Interval o in
  let opn := if OpenDuration o <=? 0 then OpenDuration d else OpenDuration o in
  let rate := if f64_eq (FailRate o) f64_zero then FailRate d else FailRate o in
  let minR := if MinRequests o =? 0 then MinRequests d else MinRequests o in
  let maxR := if maxR <? 1 then 1 else maxR in
  let minR := if minR <? 1 then 1 else minR in
  let secs := f64_to_i64 (Seconds int) in
  let int := if secs <? 1 then Second else i64 (secs * Second) in
  let opn := if opn <? 0 then OpenDuration d else opn in
  mkOptions (Name o) maxR int opn rate minR.

Record BreakerEvent := mkEvent { EvName : string; EvState : BreakerState }.

(** ** The breaker's state *)

(** Two rings in lockstep: every call, and the failed ones. *)
Record window := mkWindow {
  wcounts : list Z; wfails : list Z; wbase : Z; sumTotal : Z; sumFail : Z }.

Record half_open := mkHalfOpen {
  halfOpenSuccess : Z; halfOpenCount : Z; halfOpenGen : Z }.   (* int32 *)

Record metrics := mkMetrics {
  total : Z; success : Z; failures : Z; consecFail : Z }.      (* uint64, uint32 *)

Record Breaker := mkBreaker {
  opts : BreakerOptions;
  state : BreakerState;
  expiry : Z;
  win : window;
  ho : half_open;
  met : metrics;
  onEvent : bool;
  trace : list BreakerEvent }.

Definition set_state b s e := mkBreaker (opts b) s e (win b) (ho b) (met b) (onEvent b) (trace b).
Definition set_win b w := mkBreaker (opts b) (state b) (expiry b) w (ho b) (met b) (onEvent b) (trace b).
Definition set_ho b h := mkBreaker (opts b) (state b) (expiry b) (win b) h (met b) (onEvent b) (trace b).
Definition set_met b m := mkBreaker (opts b) (state b) (expiry b) (win b) (ho b) m (onEvent b) (trace b).

Definition SetOnEvent (b : Breaker) (installed : bool) : Breaker :=
  mkBreaker (opts b) (state b) (expiry b) (win b) (ho b) (met b) installed (trace b).

Definition fireEvent (b : Breaker) (name : string) : Breaker :=
  if onEvent b
  then mkBreaker (opts b) (state b) (expiry b) (win b) (ho b) (met b) (onEvent b)
         (trace b ++ [mkEvent name (state b)])
  else b.

(** [time.Time.Unix()] of a reading in nanoseconds. *)
Definition Unix (t : Z) : Z := t / Second.

Definition NewBreaker (o : BreakerOptions) (now : Z) : Breaker :=
  let o := withDefaults o in
  let secs := f64_to_i64 (Seconds (Interval o)) in
  let secs := Z.to_nat (if secs <? 1 then 1 else secs) in
  mkBreaker o StateClosed 0 (mkWindow (replicate secs 0) (replicate secs 0) (Unix now) 0 0)
    (mkHalfOpen 0 0 0) (mkMetrics 0 0 0 0) false [].

Record BreakerMetrics := mkBreakerMetrics {
  MState : BreakerState; MTotal : Z; MSuccess : Z; MFailures : Z; MConsecutiveFail : Z }.

Definition Metrics (b : Breaker) : BreakerMetrics :=
  mkBreakerMetrics (state b) (total (met b)) (success (met b)) (failures (met b))
    (consecFail (met b)).

(** ** The sliding window *)

Definition wroll1 (w : window) : window :=
  let base' := wbase w + 1 in
  let i := slot_of (length (wcounts w)) base' in
  mkWindow (<[i := 0]> (wcounts w)) (<[i := 0]> (wfails w)) base'
    (sumTotal w - nth i (wcounts w) 0) (sumFail w - nth i (wfails w) 0).

Fixpoint wroll (k : nat) (w : window) : window :=
  match k with O => w | S k => wroll k (wroll1 w) end.

Definition wadvance (w : window) (sec : Z) : window :=
  let n := Z.of_nat (length (wcounts w)) in
  if sec <=? wbase w then w
  else if n <=? sec - wbase w then
    mkWindow (replicate (length (wcounts w)) 0) (replicate (length (wcounts w)) 0) sec
      (sumTotal w - zsum (wcounts w)) (sumFail w - zsum (wfails w))
  else wroll (Z.to_nat (sec - wbase w)) w.

Definition recordWindow (b : Breaker) (ok : bool) (t : Z) : Breaker :=
  let sec := Unix t in
  let w := wadvance (win b) sec in
  let sec := if sec <? wbase w then wbase w else sec in
  let idx := slot_of (length (wcounts w)) sec in
  set_win b (mkWindow
    (alter (Z.add 1) idx (wcounts w))
    (if ok then wfails w else alter (Z.add 1) idx (wfails w))
    (wbase w) (sumTotal w + 1) (if ok then sumFail w else sumFail w + 1)).

(** ** Transitions *)

Definition tripLocked (b : Breaker) (t : Z) : Breaker :=
  fireEvent (set_state b StateOpen (i64 (t + OpenDuration (opts b)))) "trip".

(** The trip condition on the live sums. *)
Definition should_trip (o : BreakerOptions) (w : window) : bool :=
  if u32 (sumTotal w) <? MinRequests o then false
  else if f64_le (FailRate o) f64_zero then 0 <? sumFail w
  else f64_ge (f64_div (f64_of_Z (sumFail w)) (f64_of_Z (sumTotal w))) (FailRate o).

Definition maybeTrip (b : Breaker) (t1 t2 : Z) : Breaker :=
  if negb (bool_decide (state b = StateClosed)) then b
  else
    let b := set_win b (wadvance (win b) (Unix t1)) in
    if should_trip (opts b) (win b) then tripLocked b t2 else b.

Definition toOpen (b : Breaker) (t : Z) : Breaker :=
  let b := set_state b StateOpen (i64 (t + OpenDuration (opts b))) in
  fireEvent (set_ho b (mkHalfOpen 0 0 (halfOpenGen (ho b)))) "trip".

Definition toClosed (b : Breaker) (t : Z) : Breaker :=
  if negb (bool_decide (state b = StateHalfOpen)) then b
  else
    let n := length (wcounts (win b)) in
    let b := set_win b (mkWindow (replicate n 0) (replicate n 0) (Unix t) 0 0) in
    let b := set_ho b (mkHalfOpen 0 0 (halfOpenGen (ho b))) in
    fireEvent (set_state b StateClosed (expiry b)) "recover".

(** [toHalfOpenOrReject]; the boolean is "admitted". *)
Definition toHalfOpenOrReject (b : Breaker) (t : Z) : bool * Breaker :=
  if negb (bool_decide (state b = StateOpen)) then
    match state b with
    | StateHalfOpen =>
        if i32 (halfOpenCount (ho b) + 1) <=? i32 (MaxRequests (opts b)) then
          (true, set_ho b (mkHalfOpen (halfOpenSuccess (ho b)) (i32 (halfOpenCount (ho b) + 1))
             (halfOpenGen (ho b))))
        else (false, b)
    | _ => (false, b)
    end
  else if t <? expiry b then (false, b)
  else
    let b := set_state b StateHalfOpen (expiry b) in
    (true, set_ho b (mkHalfOpen 0 1 (i32 (halfOpenGen (ho b) + 1)))).

Definition beforeCall (b : Breaker) (t1 t2 : Z) : bool * Breaker :=
  match state b with
  | StateClosed => (true, b)
  | StateOpen => if t1 <? expiry b then (false, b) else toHalfOpenOrReject b t2
  | StateHalfOpen =>
      if MaxRequests (opts b) <=? u32 (halfOpenCount (ho b)) then (false, b)
      else if i32 (halfOpenCount (ho b) + 1) >? i32 (MaxRequests (opts b)) then (false, b)
      else (true, set_ho b (mkHalfOpen (halfOpenSuccess (ho b)) (i32 (halfOpenCount (ho b) + 1))
              (halfOpenGen (ho b))))
  end.

Definition recordSuccess (b : Breaker) (gen t : Z) : Breaker :=
  let m := met b in
  let b := set_met b (mkMetrics (total m) (u64 (success m + 1)) (failures m) 0) in
  let b :=
    match state b with
    | StateHalfOpen =>
        if halfOpenGen (ho b) =? gen then
          let s := i32 (halfOpenSuccess (ho b) + 1) in
          let b := set_ho b (mkHalfOpen s (halfOpenCount (ho b)) (halfOpenGen (ho b))) in
          if MaxRequests (opts b) <=? u32 s then toClosed b t else b
        else b
    | StateClosed => recordWindow b true t
    | StateOpen => b
    end in
  fireEvent b "success".

Definition recordFailure (b : Breaker) (gen t1 t2 t3 : Z) : Breaker :=
  let m := met b in
  let b := set_met b (mkMetrics (total m) (success m) (u64 (failures m + 1)) (u32 (consecFail m + 1))) in
  let b :=
    match state b with
    | StateHalfOpen => if halfOpenGen (ho b) =? gen then toOpen b t1 else b
    | StateClosed =>
        let b := recordWindow b false t1 in
        if bool_decide (state b = StateClosed) then maybeTrip b t2 t3 else b
    | StateOpen => b
    end in
  fireEvent b "failure".

Definition addTotal (b : Breaker) : Breaker :=
  set_met b (mkMetrics (u64 (total (met b) + 1)) (success (met b)) (failures (met b))
    (consecFail (met b))).

(** ** Execute, one call from admission to record *)

Inductive outcome (T E : Type) := FnOk (v : T) | FnErr (v : T) (e : E) | FnPanic.
Arguments FnOk {T E} v. Arguments FnErr {T E} v e. Arguments FnPanic {T E}.

Inductive exec_result (T E : Type) :=
| RunOk (v : T) | RunErr (v : T) (e : E) | RunPanic
| RunCircuitOpen | RunCancelled (e : E).
Arguments RunOk {T E} v. Arguments RunErr {T E} v e. Arguments RunPanic {T E}.
Arguments RunCircuitOpen {T E}. Arguments RunCancelled {T E} e.

Section execute.
Context {T E : Type}.

(** [ctxErr] is [ctx.Err()] on entry, [fn] the outcome of the wrapped call;
    [a1 a2] are the clock reads of the admission, [r1 r2 r3] of the record. *)
Definition Execute (b : Breaker) (ctxErr : option E) (fn : outcome T E) (a1 a2 r1 r2 r3 : Z) :
    exec_result T E * Breaker :=
  let '(admitted, b) := beforeCall b a1 a2 in
  if negb admitted then (RunCircuitOpen, fireEvent (addTotal b) "reject")
  else
    let probeGen := halfOpenGen (ho b) in
    match ctxErr with
    | Some e => (RunCancelled e, recordFailure (addTotal b) probeGen r1 r2 r3)
    | None =>
        let halfOpenSlot := bool_decide (state b = StateHalfOpen) in
        let b := addTotal b in
        match fn with
        | FnOk v => (RunOk v, recordSuccess b probeGen r1)
        | FnErr v e => (RunErr v e, recordFailure b probeGen r1 r2 r3)
        | FnPanic =>
            (RunPanic, if halfOpenSlot then recordFailure b probeGen r1 r2 r3 else b)
        end
    end.
End execute.

(** ** Lemmas: the window is two rings *)

Definition total_ring (w : window) : ring := mkRing (wcounts w) (wbase w) (sumTotal w).
Definition fail_ring (w : window) : ring := mkRing (wfails w) (wbase w) (sumFail w).
Definition window_ok (w : window) : Prop := length (wfails w) = length (wcounts w).

Lemma wroll1_rings w :
  window_ok w →
  total_ring (wroll1 w) = roll1 (total_ring w) ∧ fail_ring (wroll1 w) = roll1 (fail_ring w)
  ∧ window_ok (wroll1 w).
Proof.
  unfold window_ok. intros H. unfold wroll1, roll1, total_ring, fail_ring. simpl.
  rewrite H, !length_insert. auto.
Qed.

Lemma wroll_rings k w :
  window_ok w →
  total_ring (wroll k w) = roll k (total_ring w) ∧ fail_ring (wroll k w) = roll k (fail_ring w)
  ∧ window_ok (wroll k w).
Proof.
  revert w; induction k as [|k IH]; intros w H; simpl; [done|].
  destruct (wroll1_rings w H) as (<- & <- & ?). by apply IH.
Qed.

(** The breaker's [advance] is [Ring.advance] on both rings. *)
Lemma wadvance_rings w sec :
  window_ok w →
  total_ring (wadvance w sec) = advance (total_ring w) sec ∧
  fail_ring (wadvance w sec) = advance (fail_ring w) sec ∧ window_ok (wadvance w sec).
Proof.
  intros H. unfold wadvance, advance. simpl. red in H. rewrite H.
  destruct (sec <=? wbase w); [done|].
  destruct (_ <=? _).
  - unfold clear_all, total_ring, fail_ring, window_ok. simpl. rewrite H, !length_replicate. auto.
  - by apply wroll_rings.
Qed.

(** The specification of the window: one log for all calls, one for failures,
    with the same seconds; a success is charged 0 in the second. *)
Record window_refines (n : nat) (w : window) (lt lf : list event) : Prop := {
  wr_total : ring_refines n (total_ring w) lt;
  wr_fail : ring_refines n (fail_ring w) lf;
  wr_sub : Forall2 (λ f e, fst f = fst e ∧ 0 ≤ snd f ≤ snd e) lf lt }.

Lemma window_refines_ok n w lt lf : window_refines n w lt lf → window_ok w.
Proof. intros [[H1] [H2] _]. simpl in *. red. congruence. Qed.

Lemma window_refines_advance n w lt lf sec :
  window_refines n w lt lf → window_refines n (wadvance w sec) lt lf.
Proof.
  intros H. destruct (wadvance_rings w sec (window_refines_ok _ _ _ _ H)) as (Ht & Hf & _).
  destruct H. split; [rewrite Ht|rewrite Hf|done]; by apply ring_refines_advance.
Qed.

Lemma wadvance_base n w lt lf sec :
  window_refines n w lt lf → wbase (wadvance w sec) = Z.max (wbase w) sec.
Proof.
  intros H. destruct (wadvance_rings w sec (window_refines_ok _ _ _ _ H)) as (Ht & _ & _).
  pose proof (advance_base n _ _ sec (wr_total _ _ _ _ H)) as E. by rewrite <- Ht in E.
Qed.

Lemma window_refines_new n now : (0 < n)%nat → 0 ≤ now →
  window_refines n (mkWindow (replicate n 0) (replicate n 0) now 0 0) [] [].
Proof. intros. split; [by apply ring_refines_new..|constructor]. Qed.

(** Recording one call charges both rings at the clamped second. *)
Lemma window_refines_record n b lt lf ok t :
  window_refines n (win b) lt lf →
  let now := Z.max (wbase (win b)) (Unix t) in
  window_refines n (win (recordWindow b ok t))
    ((now, 1) :: lt) ((now, if ok then 0 else 1) :: lf)
  ∧ wbase (win (recordWindow b ok t)) = now.
Proof.
  intros H. cbv zeta. pose proof (window_refines_advance _ _ _ _ (Unix t) H) as Ha.
  pose proof (wadvance_base _ _ _ _ (Unix t) H) as Hb.
  unfold recordWindow. cbn [win set_win wbase]. set (w := wadvance (win b) (Unix t)) in *.
  assert (Unix t ≤ wbase w) as Hle by lia.
  pose proof (ring_refines_charge n (total_ring w) lt (Unix t) 1 (wr_total _ _ _ _ Ha) Hle) as Ht.
  pose proof (ring_refines_charge n (fail_ring w) lf (Unix t) (if ok then 0 else 1)
    (wr_fail _ _ _ _ Ha) Hle) as Hf.
  pose proof (window_refines_ok _ _ _ _ Ha) as Hok. red in Hok.
  split; [ |done]. rewrite <- Hb. split.
  - exact Ht.
  - unfold charge in Hf. cbn [fail_ring counts base sum] in Hf. rewrite Hok in Hf.
    unfold fail_ring. cbn [wfails wbase sumFail]. destruct ok; [ |exact Hf].
    replace (alter (Z.add 0) _ (wfails w)) with (wfails w) in Hf; [by rewrite Z.add_0_r in Hf|].
    symmetry. apply list_alter_id. intros. lia.
  - constructor; [simpl; destruct ok; lia|]. apply Ha.
Qed.

Lemma window_sums n w lt lf :
  window_refines n w lt lf →
  sumTotal w = in_window n (wbase w) lt ∧ sumFail w = in_window n (wbase w) lf ∧
  0 ≤ sumFail w ≤ sumTotal w.
Proof.
  intros [Ht Hf Hs]. pose proof (ring_sum_window _ _ _ Ht) as E1.
  pose proof (ring_sum_window _ _ _ Hf) as E2. simpl in *. rewrite E1, E2. split_and!; auto.
  - apply in_window_nonneg. clear -Hs. induction Hs as [|x y l k [? ?]]; constructor; [lia|done].
  - by apply in_window_le.
Qed.

(** ** Lemmas: the hook and the counters touch nothing else *)

Create Rewrite HintDb breaker.

Lemma fire_state b x : state (fireEvent b x) = state b.
Proof. unfold fireEvent. by destruct (onEvent b). Qed.
Lemma fire_opts b x : opts (fireEvent b x) = opts b.
Proof. unfold fireEvent. by destruct (onEvent b). Qed.
Lemma fire_win b x : win (fireEvent b x) = win b.
Proof. unfold fireEvent. by destruct (onEvent b). Qed.
Lemma fire_ho b x : ho (fireEvent b x) = ho b.
Proof. unfold fireEvent. by destruct (onEvent b). Qed.
Lemma fire_met b x : met (fireEvent b x) = met b.
Proof. unfold fireEvent. by destruct (onEvent b). Qed.
Lemma fire_expiry b x : expiry (fireEvent b x) = expiry b.
Proof. unfold fireEvent. by destruct (onEvent b). Qed.

#[export] Hint Rewrite fire_state fire_opts fire_win fire_ho fire_met fire_expiry : breaker.
Ltac bsimp := repeat progress (autorewrite with breaker in *; cbn [opts state expiry win ho met
  onEvent set_state set_win set_ho set_met addTotal halfOpenSuccess halfOpenCount halfOpenGen
  total success failures consecFail] in * ).


(** What [recordSuccess] and [recordFailure] do to each part of the state. *)
Lemma recordSuccess_parts b g t (b' := recordSuccess b g t) :
  opts b' = opts b ∧ halfOpenGen (ho b') = halfOpenGen (ho b) ∧
  met b' = mkMetrics (total (met b)) (u64 (success (met b) + 1)) (failures (met b)) 0.
Proof.
  subst b'. unfold recordSuccess, toClosed, recordWindow. bsimp.
  destruct (state b) eqn:Hs; bsimp; auto.
  destruct (_ =? g); bsimp; auto. destruct (_ <=? _); bsimp; auto.
  rewrite bool_decide_eq_true_2 by done. simpl. bsimp. auto.
Qed.

Lemma recordFailure_parts b g t1 t2 t3 (b' := recordFailure b g t1 t2 t3) :
  opts b' = opts b ∧ halfOpenGen (ho b') = halfOpenGen (ho b) ∧
  met b' = mkMetrics (total (met b)) (success (met b)) (u64 (failures (met b) + 1))
    (u32 (consecFail (met b) + 1)).
Proof.
  subst b'. unfold recordFailure, toOpen, maybeTrip, tripLocked, recordWindow. bsimp.
  destruct (state b) eqn:Hs; bsimp; auto.
  - rewrite !bool_decide_eq_true_2 by done. simpl. destruct (should_trip _ _); bsimp; auto.
  - destruct (_ =? g); bsimp; auto.
Qed.

(** The state machine, transition by transition. *)
Lemma recordSuccess_half b g t :
  state b = StateHalfOpen → 0 ≤ halfOpenSuccess (ho b) < max_i32 →
  let b' := recordSuccess b g t in
  if halfOpenGen (ho b) =? g then
    if MaxRequests (opts b) <=? halfOpenSuccess (ho b) + 1
    then state b' = StateClosed ∧ ho b' = mkHalfOpen 0 0 (halfOpenGen (ho b)) ∧
         win b' = mkWindow (replicate (length (wcounts (win b))) 0)
                    (replicate (length (wcounts (win b))) 0) (Unix t) 0 0
    else state b' = StateHalfOpen ∧ win b' = win b ∧
         ho b' = mkHalfOpen (halfOpenSuccess (ho b) + 1) (halfOpenCount (ho b)) (halfOpenGen (ho b))
  else state b' = StateHalfOpen ∧ win b' = win b ∧ ho b' = ho b.
Proof.
  intros Hs Hr. cbv zeta. unfold recordSuccess, toClosed. bsimp. rewrite Hs.
  destruct (_ =? g); bsimp; [ |by rewrite Hs].
  replace (i32 (halfOpenSuccess (ho b) + 1)) with (halfOpenSuccess (ho b) + 1) by (unfold_int; mint).
  replace (u32 (halfOpenSuccess (ho b) + 1)) with (halfOpenSuccess (ho b) + 1) by (unfold_int; mint).
  destruct (_ <=? _); bsimp; [rewrite bool_decide_eq_true_2 by done; simpl; bsimp|]; auto.
Qed.

Lemma recordSuccess_closed b g t :
  state b = StateClosed →
  let b' := recordSuccess b g t in
  state b' = StateClosed ∧ ho b' = ho b ∧ win b' = win (recordWindow b true t).
Proof. intros Hs. cbv zeta. unfold recordSuccess. bsimp. rewrite Hs. bsimp. auto. Qed.

Lemma recordSuccess_open b g t :
  state b = StateOpen →
  let b' := recordSuccess b g t in state b' = StateOpen ∧ ho b' = ho b ∧ win b' = win b.
Proof. intros Hs. cbv zeta. unfold recordSuccess. bsimp. rewrite Hs. bsimp. auto. Qed.

Lemma recordFailure_half b g t1 t2 t3 :
  state b = StateHalfOpen →
  let b' := recordFailure b g t1 t2 t3 in
  win b' = win b ∧
  if halfOpenGen (ho b) =? g
  then state b' = StateOpen ∧ ho b' = mkHalfOpen 0 0 (halfOpenGen (ho b))
  else state b' = StateHalfOpen ∧ ho b' = ho b.
Proof.
  intros Hs. cbv zeta. unfold recordFailure, toOpen. bsimp. rewrite Hs.
  destruct (_ =? g); bsimp; auto.
Qed.

Lemma recordFailure_open b g t1 t2 t3 :
  state b = StateOpen →
  let b' := recordFailure b g t1 t2 t3 in state b' = StateOpen ∧ ho b' = ho b ∧ win b' = win b.
Proof. intros Hs. cbv zeta. unfold recordFailure. bsimp. rewrite Hs. bsimp. auto. Qed.

Lemma recordFailure_closed b g t1 t2 t3 :
  state b = StateClosed →
  let b' := recordFailure b g t1 t2 t3 in
  let w := wadvance (win (recordWindow b false t1)) (Unix t2) in
  win b' = w ∧ ho b' = ho b ∧
  if should_trip (opts b) w
  then state b' = StateOpen ∧ expiry b' = i64 (t3 + OpenDuration (opts b))
  else state b' = StateClosed ∧ expiry b' = expiry b.
Proof.
  intros Hs. cbv zeta. unfold recordFailure, maybeTrip, tripLocked. bsimp. rewrite Hs.
  unfold recordWindow. bsimp. rewrite Hs, !bool_decide_eq_true_2 by done. simpl.
  destruct (should_trip _ _); bsimp; auto.
Qed.

Lemma beforeCall_reject b b' a1 a2 : beforeCall b a1 a2 = (false, b') → b' = b.
Proof.
  unfold beforeCall, toHalfOpenOrReject. intros H.
  repeat (case_match; simplify_eq/=; try done).
Qed.

Lemma beforeCall_admit b b' a1 a2 :
  beforeCall b a1 a2 = (true, b') →
  0 ≤ halfOpenCount (ho b) < max_i32 → 0 ≤ halfOpenGen (ho b) < max_i32 →
  MaxRequests (opts b) ≤ max_i32 →
  opts b' = opts b ∧ met b' = met b ∧ win b' = win b ∧
  match state b with
  | StateClosed => b' = b
  | StateOpen => state b' = StateHalfOpen ∧ ho b' = mkHalfOpen 0 1 (halfOpenGen (ho b) + 1) ∧
      expiry b ≤ a1
  | StateHalfOpen => state b' = StateHalfOpen ∧ halfOpenCount (ho b) + 1 ≤ MaxRequests (opts b) ∧
      ho b' = mkHalfOpen (halfOpenSuccess (ho b)) (halfOpenCount (ho b) + 1) (halfOpenGen (ho b))
  end.
Proof.
  intros H Hc Hg Hm. unfold beforeCall in H. destruct (state b) eqn:Hs.
  - by simplify_eq.
  - destruct (Z.ltb_spec a1 (expiry b)); [done|].
    unfold toHalfOpenOrReject in H. rewrite Hs in H.
    rewrite bool_decide_eq_true_2 in H by done. simpl in H.
    destruct (a2 <? expiry b); [done|]. injection H as <-. bsimp.
    replace (i32 (halfOpenGen (ho b) + 1)) with (halfOpenGen (ho b) + 1) by (unfold_int; mint).
    split_and!; auto.
  - replace (u32 (halfOpenCount (ho b))) with (halfOpenCount (ho b)) in H by (unfold_int; mint).
    replace (i32 (halfOpenCount (ho b) + 1)) with (halfOpenCount (ho b) + 1) in H by (unfold_int; mint).
    destruct (Z.leb_spec (MaxRequests (opts b)) (halfOpenCount (ho b))); [done|].
    replace (i32 (MaxRequests (opts b))) with (MaxRequests (opts b)) in H by (unfold_int; mint).
    rewrite Z.gtb_ltb in H.
    destruct (Z.ltb_spec (MaxRequests (opts b)) (halfOpenCount (ho b) + 1)); [done|].
    injection H as <-. bsimp. split_and!; auto; lia.
Qed.

(** ** The trip rule, on the number of calls and of failures in the window *)
Definition trip_rule (o : BreakerOptions) (calls failed : Z) : bool :=
  if u32 calls <? MinRequests o then false
  else if f64_le (FailRate o) f64_zero then 0 <? failed
  else f64_ge (f64_div (f64_of_Z failed) (f64_of_Z calls)) (FailRate o).

(** A run of calls whose [fn] returns nil, with their clock readings. *)
Fixpoint execute_oks (b : Breaker) (ts : list (Z * Z * Z)) : list (exec_result unit unit) * Breaker :=
  match ts with
  | [] => ([], b)
  | (a1, a2, r) :: ts =>
      let '(res, b) := Execute (E := unit) b None (FnOk tt) a1 a2 r r r in
      let '(rs, b) := execute_oks b ts in (res :: rs, b)
  end.

(** One successful probe of a half-open breaker with a free slot. *)
Lemma Execute_probe b a1 a2 r :
  state b = StateHalfOpen → MaxRequests (opts b) ≤ max_i32 →
  0 ≤ halfOpenSuccess (ho b) → halfOpenSuccess (ho b) = halfOpenCount (ho b) →
  halfOpenCount (ho b) < MaxRequests (opts b) →
  let '(res, b') := Execute (E := unit) b None (FnOk tt) a1 a2 r r r in
  res = RunOk tt ∧ opts b' = opts b ∧
  if MaxRequests (opts b) <=? halfOpenSuccess (ho b) + 1
  then state b' = StateClosed ∧ halfOpenCount (ho b') = 0 ∧ halfOpenSuccess (ho b') = 0
       ∧ sumTotal (win b') = 0 ∧ sumFail (win b') = 0
  else state b' = StateHalfOpen ∧ halfOpenSuccess (ho b') = halfOpenSuccess (ho b) + 1
       ∧ halfOpenCount (ho b') = halfOpenSuccess (ho b').
Proof.
  intros Hs Hm H0 Heq Hlt. unfold Execute, beforeCall. rewrite Hs.
  replace (u32 (halfOpenCount (ho b))) with (halfOpenCount (ho b)) by (unfold_int; mint).
  replace (i32 (halfOpenCount (ho b) + 1)) with (halfOpenCount (ho b) + 1) by (unfold_int; mint).
  replace (i32 (MaxRequests (opts b))) with (MaxRequests (opts b)) by (unfold_int; mint).
  destruct (Z.leb_spec (MaxRequests (opts b)) (halfOpenCount (ho b))); [lia|].
  rewrite Z.gtb_ltb. destruct (Z.ltb_spec (MaxRequests (opts b)) (halfOpenCount (ho b) + 1)); [lia|].
  cbn -[recordSuccess]. set (b1 := addTotal _).
  destruct (recordSuccess_parts b1 (halfOpenGen (ho b)) r) as (Eo & _).
  pose proof (recordSuccess_half b1 (halfOpenGen (ho b)) r Hs) as Hx.
  subst b1. bsimp. rewrite Z.eqb_refl in Hx. split_and!; auto.
  specialize (Hx ltac:(unfold_int; lia)). cbv zeta in Hx.
  destruct (_ <=? _); destruct Hx as (-> & E1 & E2).
  - rewrite E1, E2. auto.
  - rewrite E2. simpl. split_and!; auto; lia.
Qed.

Lemma execute_oks_recover ts b :
  state b = StateHalfOpen → MaxRequests (opts b) ≤ max_i32 →
  0 ≤ halfOpenSuccess (ho b) → halfOpenSuccess (ho b) = halfOpenCount (ho b) →
  halfOpenCount (ho b) + Z.of_nat (length ts) = MaxRequests (opts b) → ts ≠ [] →
  let '(rs, b') := execute_oks b ts in
  Forall (λ x, x = RunOk tt) rs ∧ state b' = StateClosed ∧
  sumTotal (win b') = 0 ∧ sumFail (win b') = 0 ∧ halfOpenCount (ho b') = 0.
Proof.
  revert b; induction ts as [|[[a1 a2] r] ts IH]; intros b Hs Hm H0 Heq Hlen Hne; [done|].
  simpl length in Hlen.
  pose proof (Execute_probe b a1 a2 r Hs Hm H0 Heq ltac:(lia)) as Hp.
  simpl. destruct (Execute b None (FnOk tt) a1 a2 r r r) as [res b1].
  destruct Hp as (-> & Eo & Hp). destruct ts as [|u ts].
  - simpl. destruct (Z.leb_spec (MaxRequests (opts b)) (halfOpenSuccess (ho b) + 1)); [ |simpl in *; lia].
    destruct Hp as (? & ? & ? & ? & ?). split_and!; auto.
  - destruct (Z.leb_spec (MaxRequests (opts b)) (halfOpenSuccess (ho b) + 1)); [simpl in *; lia|].
    destruct Hp as (Hs1 & Hs2 & Hs3).
    specialize (IH b1 Hs1). rewrite Eo in IH.
    specialize (IH ltac:(lia) ltac:(lia) ltac:(lia) ltac:(lia) ltac:(done)).
    destruct (execute_oks b1 (u :: ts)) as [rs b2]. destruct IH as (? & ? & ? & ? & ?).
    split_and!; auto.
Qed.

(** ** Properties *)

(** The closed breaker implements its specification on the log of calls.
    Whenever the window refines a log, recording a failure extends the log by
    that failure at the current second (clamped against clock regressions),
    and the breaker trips to Open, arming the expiry, exactly when the rule
    (minimum calls, failure rate) holds of the calls and failures of the last
    [n] seconds of the log; otherwise it stays closed. *)
Theorem breaker_failure_refines n b lt lf g t1 t2 t3 :
  state b = StateClosed → window_refines n (win b) lt lf →
  let now := Z.max (wbase (win b)) (Unix t1) in
  let now2 := Z.max now (Unix t2) in
  let lt' := (now, 1) :: lt in
  let lf' := (now, 1) :: lf in
  let b' := recordFailure b g t1 t2 t3 in
  window_refines n (win b') lt' lf' ∧ ho b' = ho b ∧
  if trip_rule (opts b) (in_window n now2 lt') (in_window n now2 lf')
  then state b' = StateOpen ∧ expiry b' = i64 (t3 + OpenDuration (opts b))
  else state b' = StateClosed ∧ expiry b' = expiry b.
Proof.
  intros Hs Hw. cbv zeta.
  destruct (recordFailure_closed b g t1 t2 t3 Hs) as (Ew & Eh & Hx).
  destruct (window_refines_record n b lt lf false t1 Hw) as [Hr Hb].
  pose proof (window_refines_advance _ _ _ _ (Unix t2) Hr) as Ha.
  pose proof (wadvance_base _ _ _ _ (Unix t2) Hr) as Hb2. rewrite Hb in Hb2.
  destruct (window_sums _ _ _ _ Ha) as (E1 & E2 & _). rewrite Hb2 in E1, E2.
  rewrite Ew. split; [exact Ha|]. split; [done|].
  unfold should_trip in Hx. unfold trip_rule. rewrite <- E1, <- E2. exact Hx.
Qed.

(** The breaker recovers. From Open, once the clock readings have passed
    the expiry, MaxRequests successful calls in a row are all admitted and
    run, and leave the breaker Closed with an empty window and no probes. *)
Theorem breaker_recovers b a1 a2 r ts :
  state b = StateOpen → expiry b ≤ a1 → expiry b ≤ a2 →
  1 ≤ MaxRequests (opts b) ≤ max_i32 → 0 ≤ halfOpenGen (ho b) < max_i32 →
  Z.of_nat (S (length ts)) = MaxRequests (opts b) →
  let '(rs, b') := execute_oks b ((a1, a2, r) :: ts) in
  Forall (λ x, x = RunOk tt) rs ∧ state b' = StateClosed ∧
  sumTotal (win b') = 0 ∧ sumFail (win b') = 0 ∧ halfOpenCount (ho b') = 0.
Proof.
  intros Hs Ha1 Ha2 Hm Hg Hlen. simpl. unfold Execute at 1, beforeCall, toHalfOpenOrReject. rewrite Hs.
  destruct (Z.ltb_spec a1 (expiry b)); [lia|]. rewrite bool_decide_eq_true_2 by done. simpl.
  destruct (Z.ltb_spec a2 (expiry b)); [lia|]. cbn -[recordSuccess execute_oks]. set (b1 := addTotal _).
  destruct (recordSuccess_parts b1 (i32 (halfOpenGen (ho b) + 1)) r) as (Eo & _).
  pose proof (recordSuccess_half b1 (i32 (halfOpenGen (ho b) + 1)) r ltac:(done) ltac:(done)) as Hx.
  cbv zeta in Hx. set (b2 := recordSuccess _ _ _) in *. clearbody b2. subst b1. bsimp.
  rewrite Z.eqb_refl in Hx. destruct ts as [|u ts].
  - destruct (Z.leb_spec (MaxRequests (opts b)) (0 + 1)); [ |simpl in *; lia].
    destruct Hx as (? & E1 & E2). simpl. rewrite E1, E2. split_and!; auto.
  - destruct (Z.leb_spec (MaxRequests (opts b)) (0 + 1)); [simpl in *; lia|].
    destruct Hx as (E0 & _ & E2).
    pose proof (execute_oks_recover (u :: ts) b2 E0) as Hr. rewrite Eo, E2 in Hr.
    simpl halfOpenCount in Hr. simpl halfOpenSuccess in Hr. simpl length in Hlen, Hr.
    specialize (Hr ltac:(lia) ltac:(lia) ltac:(lia) ltac:(lia) ltac:(done)).
    destruct (execute_oks b2 (u :: ts)) as [rs b3]. destruct Hr as (? & ? & ? & ? & ?).
    split_and!; auto.
Qed.

(** An open breaker fails fast and a failed probe reopens it. Before the
    expiry every call is rejected without running [fn] and changes only the
    total and the trace; in half-open, a probe that is admitted and then
    fails, panics or finds its context cancelled sends the breaker back to
    Open for OpenDuration with the probe counters cleared. *)
Theorem breaker_open_and_reopen {T E} b (ctx : option E) (fn : outcome T E) a1 a2 r1 r2 r3 :
  MaxRequests (opts b) ≤ max_i32 → 0 ≤ halfOpenCount (ho b) →
  let '(res, b') := Execute b ctx fn a1 a2 r1 r2 r3 in
  match state b with
  | StateOpen => a1 < expiry b → res = RunCircuitOpen ∧ state b' = StateOpen ∧
      expiry b' = expiry b ∧ win b' = win b ∧ ho b' = ho b
  | StateHalfOpen => halfOpenCount (ho b) < MaxRequests (opts b) →
      (ctx ≠ None ∨ ∀ v, fn ≠ FnOk v) →
      res ≠ RunCircuitOpen ∧ state b' = StateOpen ∧
      expiry b' = i64 (r1 + OpenDuration (opts b)) ∧ win b' = win b ∧
      ho b' = mkHalfOpen 0 0 (halfOpenGen (ho b))
  | StateClosed => res ≠ RunCircuitOpen
  end.
Proof.
  intros Hm Hc. unfold Execute, beforeCall. destruct (state b) eqn:Hs.
  - simpl. destruct ctx, fn; done.
  - destruct (Z.ltb_spec a1 (expiry b)).
    + simpl. intros _. bsimp. auto.
    + destruct (toHalfOpenOrReject b a2) as [[] b1]; simpl;
        [destruct ctx, fn|]; intros; lia.
  - destruct (decide (halfOpenCount (ho b) < MaxRequests (opts b))) as [Hlt|];
      [ |repeat case_match; intros; lia].
    replace (u32 (halfOpenCount (ho b))) with (halfOpenCount (ho b)) by (unfold_int; mint).
    replace (i32 (halfOpenCount (ho b) + 1)) with (halfOpenCount (ho b) + 1) by (unfold_int; mint).
    replace (i32 (MaxRequests (opts b))) with (MaxRequests (opts b)) by (unfold_int; mint).
    destruct (Z.leb_spec (MaxRequests (opts b)) (halfOpenCount (ho b))); [lia|].
    rewrite Z.gtb_ltb. destruct (Z.ltb_spec (MaxRequests (opts b)) (halfOpenCount (ho b) + 1)); [lia|].
    simpl. rewrite bool_decide_eq_true_2 by done.
    destruct ctx as [e|]; [|destruct fn]; intros _ Hf;
      try (exfalso; destruct Hf as [?|Hf]; [done|by eapply Hf]).
    all: unfold recordFailure, toOpen; bsimp; rewrite Hs; rewrite Z.eqb_refl; bsimp; auto.
Qed.

(** ** Witnesses: a breaker that tripped and admitted one of two probes *)

Definition ex_opts : BreakerOptions :=
  mkOptions "ssp" 2 (10 * Second) Second (f64_of_Z (-1)) 1.
Definition ex_b0 : Breaker := NewBreaker ex_opts 0.
Definition ex_b2 : Breaker := recordFailure (addTotal ex_b0) 0 Second Second Second.
Definition ex_b3 : Breaker := snd (beforeCall ex_b2 (5 * Second) (5 * Second)).
Lemma breaker_failure_refines_witness :
  state (recordFailure ex_b0 0 Second Second Second) = StateOpen.
Proof.
  destruct (breaker_failure_refines 10 ex_b0 [] [] 0 Second Second Second) as (_ & _ & H).
  - vm_compute; reflexivity.
  - change (win ex_b0) with (mkWindow (replicate 10 0) (replicate 10 0) 0 0 0).
    apply (window_refines_new 10 0); [lia|lia].
  - cbv zeta in H. set (trips := trip_rule _ _ _) in H.
    assert (trips = true) as Et by (vm_compute; reflexivity). rewrite Et in H. exact (proj1 H).
Defined.

Lemma breaker_recovers_witness :
  state (snd (execute_oks ex_b2 [(5 * Second, 5 * Second, 6 * Second); (7 * Second, 7 * Second, 7 * Second)]))
    = StateClosed.
Proof.
  pose proof (breaker_recovers ex_b2 (5 * Second) (5 * Second) (6 * Second)
    [(7 * Second, 7 * Second, 7 * Second)]) as H.
  destruct (execute_oks ex_b2 _) as [rs b']. simpl.
  apply H; try (vm_compute; reflexivity); try (vm_compute; discriminate);
    split; vm_compute; discriminate || reflexivity.
Defined.

Lemma breaker_open_and_reopen_witness :
  state (snd (Execute (addTotal ex_b3) None (FnErr tt tt) 0 0 Second 0 0)) = StateOpen.
Proof.
  pose proof (breaker_open_and_reopen (addTotal ex_b3) None (FnErr tt tt) 0 0 Second 0 0) as H.
  destruct (Execute _ _ _ _ _ _ _ _) as [res b']. simpl snd.
  assert (state (addTotal ex_b3) = StateHalfOpen) as E by (vm_compute; reflexivity). rewrite E in H.
  apply H; [vm_compute; discriminate|vm_compute; discriminate|vm_compute; reflexivity|].
  right. discriminate.
Defined.

(** With MaxRequests above MaxInt32 the probe bound is read as a negative
    int32: after the first probe no other is admitted. *)
Example breaker_huge_max_requests :
  let b := NewBreaker (mkOptions "ssp" 3000000000 0 Second (f64_of_Z (-1)) 1) 0 in
  let b := set_ho (set_state b StateHalfOpen 0) (mkHalfOpen 1 1 1) in
  fst (beforeCall b 0 0) = false.
Proof. vm_compute. reflexivity. Qed.
