(* ===== verification/BreakerRace.v ===== *)
(** * BreakerRace: concurrent callers of the circuit breaker

    [Execute] of src/breaker/breaker.go and everything it calls, one atomic operation
    at a time: loads, stores and adds of the atomics, [mu.Lock] and [mu.Unlock], and
    the accesses to the sliding window, which are made under [mu] and are one step.
    Each caller is a program counter ([pc]) with its local variables; [move] is one
    operation of a caller, and in [step] any caller may make the next one.  A caller
    that waits for [mu] cannot move.  The hook is installed before the calls start.

    The values are those of Breaker.v.  A caller that runs without interference does
    what its sequential [Breaker.Execute] says ([breaker_alone]).  Under any
    interleaving ([breaker_race_safe]) the lock is exclusive, the window holds exactly
    the calls recorded since the last recovery, the counters are exact, and the state
    only makes the four transitions, the trip exactly when the rule says so.  Every
    call ends after at most 32 of its own operations, and the callers never
    deadlock ([breaker_race_progress]).

    The bound on probes does not survive: between the store of the half-open state and
    the store of the probe counter another caller can take a slot, which that store
    forgets ([breaker_race_overadmits]). *)

From Stdlib Require Import ZArith Lia Bool.
From stdpp Require Import base tactics numbers list strings relations.
From S2P Require Import Prelude Float64 Ring Breaker.

#[local] Open Scope Z_scope.
#[local] Open Scope go_scope.

(** ** Shared words *)

(** [calls_log], [fails_log]: the specification's log of the calls recorded since the
    window was last emptied, with their seconds. *)
Record shared := mkShared { brk : Breaker; locked : bool; calls_log : list event; fails_log : list event }.

Definition on_brk (f : Breaker → Breaker) (g : shared) : shared :=
  mkShared (f (brk g)) (locked g) (calls_log g) (fails_log g).
Definition set_lock (l : bool) (g : shared) : shared := mkShared (brk g) l (calls_log g) (fails_log g).

Definition store_state (s : BreakerState) (b : Breaker) : Breaker := set_state b s (expiry b).
Definition store_expiry (e : Z) (b : Breaker) : Breaker := set_state b (state b) e.
Definition store_success (v : Z) (b : Breaker) : Breaker :=
  set_ho b (mkHalfOpen v (halfOpenCount (ho b)) (halfOpenGen (ho b))).
Definition store_count (v : Z) (b : Breaker) : Breaker :=
  set_ho b (mkHalfOpen (halfOpenSuccess (ho b)) v (halfOpenGen (ho b))).
Definition store_gen (v : Z) (b : Breaker) : Breaker :=
  set_ho b (mkHalfOpen (halfOpenSuccess (ho b)) (halfOpenCount (ho b)) v).

Definition add_success (b : Breaker) : Breaker :=
  set_met b (mkMetrics (total (met b)) (u64 (success (met b) + 1)) (failures (met b)) (consecFail (met b))).
Definition add_failures (b : Breaker) : Breaker :=
  set_met b (mkMetrics (total (met b)) (success (met b)) (u64 (failures (met b) + 1)) (consecFail (met b))).
Definition store_consec (v : Z) (b : Breaker) : Breaker :=
  set_met b (mkMetrics (total (met b)) (success (met b)) (failures (met b)) v).

(** ** Callers *)

(** What a call records; every outcome but [Ok] is a failure. *)
Inductive record := Cancelled | Ok | Err | Panicked.

(** How a call ended; a panic without a probe slot is not recorded. *)
Inductive result := Rejected | RawPanic | Recorded (r : record).

(** Between which two operations a caller is.  [r] is the outcome it records, [gen]
    the epoch it captured. *)
Inductive pc :=
(* beforeCall *)
| LoadState | LoadExpiry | LoadCount | AddCount | UndoCount
(* toHalfOpenOrReject *)
| HalfLock | HalfState | MissUnlock | MissState | HalfExpiry | LateUnlock
| HalfStore (now : Z) | HalfGen | HalfSuccess | HalfCount | HalfUnlock
(* Execute *)
| RejTotal | RejEvent | LoadGen | CtxErr (gen : Z) | CancelTotal (gen : Z)
| SlotState (gen : Z) | AddTotal (gen : Z) (slot : bool) | Running (gen : Z) (slot : bool)
(* recordSuccess and recordFailure *)
| RecAdd (r : record) (gen : Z) | RecConsec (r : record) (gen : Z) | RecState (r : record) (gen : Z)
| RecGen (r : record) (gen : Z) | SuccAdd (r : record) | RecEvent (r : record)
(* recordWindow *)
| WinLock (r : record) | WinRecord (r : record) | WinUnlock (r : record) | Again (r : record)
(* maybeTrip and tripLocked *)
| TripLock (r : record) | TripState (r : record) | TripRule (r : record) | TripStore (r : record)
| TripExpiry (r : record) | TripUnlock (r : record) | TripEvent (r : record) | TripRelock (r : record)
| TripEnd (r : record)
(* toOpen *)
| OpenLock (r : record) | OpenStore (r : record) | OpenExpiry (r : record) | OpenSuccess (r : record)
| OpenCount (r : record) | OpenUnlock (r : record) | OpenEvent (r : record)
(* toClosed *)
| CloseLock (r : record) | CloseState (r : record) | CloseWindow (r : record) | CloseSuccess (r : record)
| CloseCount (r : record) | CloseStore (r : record) | CloseUnlock (r : record) (closed : bool) | CloseEvent (r : record)
| Done (r : result).

Inductive fn_outcome := Returns | Fails | Panics.

(** What the world answers to an operation: the clock, [ctx.Err() != nil], and [fn]. *)
Record input := mkInput { now : Z; ctx_err : bool; fn : fn_outcome }.

(** Whether [recordSuccess] runs, or [recordFailure]. *)
Definition is_ok (r : record) : bool := match r with Ok => true | _ => false end.

(** One atomic operation; [None]: the caller waits for [mu], or has returned. *)
Definition move (i : input) (g : shared) (p : pc) : option (shared * pc) :=
  let b := brk g in
  let lock next := if locked g then None else Some (set_lock true g, next) in
  let unlock next := Some (set_lock false g, next) in
  match p with
  | LoadState =>
      Some (g, match state b with StateClosed => LoadGen | StateOpen => LoadExpiry | StateHalfOpen => LoadCount end)
  | LoadExpiry => Some (g, if now i <? expiry b then RejTotal else HalfLock)
  | LoadCount => Some (g, if MaxRequests (opts b) <=? u32 (halfOpenCount (ho b)) then RejTotal else AddCount)
  | AddCount =>
      let c := i32 (halfOpenCount (ho b) + 1) in
      Some (on_brk (store_count c) g, if c >? i32 (MaxRequests (opts b)) then UndoCount else LoadGen)
  | UndoCount => Some (on_brk (store_count (i32 (halfOpenCount (ho b) - 1))) g, RejTotal)
  | HalfLock => lock HalfState
  | HalfState => Some (g, if bool_decide (state b = StateOpen) then HalfExpiry else MissUnlock)
  | MissUnlock => unlock MissState
  | MissState => Some (g, if bool_decide (state b = StateHalfOpen) then AddCount else RejTotal)
  | HalfExpiry => Some (g, if now i <? expiry b then LateUnlock else HalfStore (now i))
  | LateUnlock => unlock RejTotal
  | HalfStore _ => Some (on_brk (store_state StateHalfOpen) g, HalfGen)
  | HalfGen => Some (on_brk (store_gen (i32 (halfOpenGen (ho b) + 1))) g, HalfSuccess)
  | HalfSuccess => Some (on_brk (store_success 0) g, HalfCount)
  | HalfCount => Some (on_brk (store_count 1) g, HalfUnlock)
  | HalfUnlock => unlock LoadGen
  | RejTotal => Some (on_brk addTotal g, RejEvent)
  | RejEvent => Some (on_brk (λ b, fireEvent b "reject") g, Done Rejected)
  | LoadGen => Some (g, CtxErr (halfOpenGen (ho b)))
  | CtxErr gen => Some (g, if ctx_err i then CancelTotal gen else SlotState gen)
  | CancelTotal gen => Some (on_brk addTotal g, RecAdd Cancelled gen)
  | SlotState gen => Some (g, AddTotal gen (bool_decide (state b = StateHalfOpen)))
  | AddTotal gen slot => Some (on_brk addTotal g, Running gen slot)
  | Running gen slot =>
      Some (g, match fn i with
               | Returns => RecAdd Ok gen
               | Fails => RecAdd Err gen
               | Panics => if slot then RecAdd Panicked gen else Done RawPanic
               end)
  | RecAdd r gen => Some (on_brk (if is_ok r then add_success else add_failures) g, RecConsec r gen)
  | RecConsec r gen =>
      Some (on_brk (store_consec (if is_ok r then 0 else u32 (consecFail (met b) + 1))) g, RecState r gen)
  | RecState r gen =>
      Some (g, match state b with StateHalfOpen => RecGen r gen | StateClosed => WinLock r | StateOpen => RecEvent r end)
  | RecGen r gen =>
      Some (g, if halfOpenGen (ho b) =? gen then (if is_ok r then SuccAdd r else OpenLock r) else RecEvent r)
  | SuccAdd r =>
      let s := i32 (halfOpenSuccess (ho b) + 1) in
      Some (on_brk (store_success s) g, if MaxRequests (opts b) <=? u32 s then CloseLock r else RecEvent r)
  | RecEvent r => Some (on_brk (λ b, fireEvent b (if is_ok r then "success" else "failure")) g, Done (Recorded r))
  | WinLock r => lock (WinRecord r)
  | WinRecord r =>
      let sec := Z.max (wbase (win b)) (Unix (now i)) in
      Some (mkShared (recordWindow b (is_ok r) (now i)) (locked g)
              ((sec, 1) :: calls_log g) ((sec, if is_ok r then 0 else 1) :: fails_log g), WinUnlock r)
  | WinUnlock r => unlock (if is_ok r then RecEvent r else Again r)
  | Again r => Some (g, if bool_decide (state b = StateClosed) then TripLock r else RecEvent r)
  | TripLock r => lock (TripState r)
  | TripState r => Some (g, if bool_decide (state b = StateClosed) then TripRule r else TripEnd r)
  | TripRule r =>
      let w := wadvance (win b) (Unix (now i)) in
      Some (on_brk (λ b, set_win b w) g, if should_trip (opts b) w then TripStore r else TripEnd r)
  | TripStore r => Some (on_brk (store_state StateOpen) g, TripExpiry r)
  | TripExpiry r => Some (on_brk (store_expiry (i64 (now i + OpenDuration (opts b)))) g, TripUnlock r)
  | TripUnlock r => unlock (TripEvent r)
  | TripEvent r => Some (on_brk (λ b, fireEvent b "trip") g, TripRelock r)
  | TripRelock r => lock (TripEnd r)
  | TripEnd r => unlock (RecEvent r)
  | OpenLock r => lock (OpenStore r)
  | OpenStore r => Some (on_brk (store_state StateOpen) g, OpenExpiry r)
  | OpenExpiry r => Some (on_brk (store_expiry (i64 (now i + OpenDuration (opts b)))) g, OpenSuccess r)
  | OpenSuccess r => Some (on_brk (store_success 0) g, OpenCount r)
  | OpenCount r => Some (on_brk (store_count 0) g, OpenUnlock r)
  | OpenUnlock r => unlock (OpenEvent r)
  | OpenEvent r => Some (on_brk (λ b, fireEvent b "trip") g, RecEvent r)
  | CloseLock r => lock (CloseState r)
  | CloseState r => Some (g, if bool_decide (state b = StateHalfOpen) then CloseWindow r else CloseUnlock r false)
  | CloseWindow r =>
      let n := length (wcounts (win b)) in
      Some (mkShared (set_win b (mkWindow (replicate n 0) (replicate n 0) (Unix (now i)) 0 0)) (locked g) [] [], CloseSuccess r)
  | CloseSuccess r => Some (on_brk (store_success 0) g, CloseCount r)
  | CloseCount r => Some (on_brk (store_count 0) g, CloseStore r)
  | CloseStore r => Some (on_brk (store_state StateClosed) g, CloseUnlock r true)
  | CloseUnlock r closed => unlock (if closed then CloseEvent r else RecEvent r)
  | CloseEvent r => Some (on_brk (λ b, fireEvent b "recover") g, RecEvent r)
  | Done _ => None
  end.

Record sys := mkSys { sh : shared; callers : list pc }.

(** Any caller makes its next operation; the clock reads times after 1970. *)
Inductive step : sys → sys → Prop :=
| step_move i g l1 p l2 g' p' :
    0 ≤ now i → move i g p = Some (g', p') →
    step (mkSys g (l1 ++ p :: l2)) (mkSys g' (l1 ++ p' :: l2)).

(** A new breaker and [n] callers about to call [Execute]. *)
Definition start (o : BreakerOptions) (t0 : Z) (hook : bool) (n : nat) : sys :=
  mkSys (mkShared (SetOnEvent (NewBreaker o t0) hook) false [] []) (replicate n LoadState).
Definition reachable (o : BreakerOptions) (t0 : Z) (hook : bool) (n : nat) : sys → Prop :=
  rtc step (start o t0 hook n).

(** ** A caller alone *)

(** Up to [k] operations of one caller, each with the answer [w] gives it. *)
Fixpoint run (k : nat) (w : pc → input) (gp : shared * pc) : shared * pc :=
  match k with
  | O => gp
  | S k => match move (w gp.2) gp.1 gp.2 with Some gp' => run k w gp' | None => gp end
  end.
(** The answers of one call: the clock readings of the sequential model, the context
    and [fn]. *)
Definition answers (ctx : bool) (f : fn_outcome) (a1 a2 r1 r2 r3 : Z) (p : pc) : input :=
  mkInput (match p with LoadExpiry => a1 | HalfExpiry => a2 | TripRule _ => r2 | TripExpiry _ => r3 | _ => r1 end) ctx f.

Definition outcome_kind {T E} (f : outcome T E) : fn_outcome :=
  match f with FnOk _ => Returns | FnErr _ _ => Fails | FnPanic => Panics end.
Definition returned {T E} (res : exec_result T E) (p : pc) : bool :=
  match res, p with
  | RunOk _, Done (Recorded Ok) | RunErr _ _, Done (Recorded Err)
  | RunPanic, (Done (Recorded Panicked) | Done RawPanic)
  | RunCircuitOpen, Done Rejected | RunCancelled _, Done (Recorded Cancelled) => true
  | _, _ => false
  end.


Lemma run_plus j k w gp : run (j + k) w gp = run k w (run j w gp).
Proof.
  revert gp. induction j as [|j IH]; intros gp; [done|]. cbn [run Nat.add].
  destruct (move (w gp.2) gp.1 gp.2) as [gp'|] eqn:E; [apply IH|]. clear IH. destruct k; [done|]. cbn [run]. by rewrite E.
Qed.
Lemma run_done k w g r : run k w (g, Done r) = (g, Done r).
Proof. by destruct k. Qed.

(** Evaluate a run down to the next test. *)
Ltac run1 := cbn [run move answers fst snd now brk locked calls_log fails_log on_brk set_lock is_ok ctx_err fn state expiry opts win ho met onEvent trace
  set_state set_win set_ho set_met store_state store_expiry store_success store_count store_gen add_success add_failures store_consec addTotal
  halfOpenSuccess halfOpenCount halfOpenGen total success failures consecFail fireEvent negb] in *.

(** [recordWindow] changes the window only, by what the window holds. *)
Definition window_add (w : window) (ok : bool) (t : Z) : window :=
  win (recordWindow (set_win (NewBreaker defaultBreakerOptions 0) w) ok t).
Lemma recordWindow_eq b ok t : recordWindow b ok t = set_win b (window_add (win b) ok t).
Proof. reflexivity. Qed.

(** Recording an outcome, alone. *)
Lemma record_alone r gen b lt lf ctx f a1 a2 r1 r2 r3 :
  ∃ lt' lf',
  run 17 (answers ctx f a1 a2 r1 r2 r3) (mkShared b false lt lf, RecAdd r gen) =
  (mkShared (if is_ok r then recordSuccess b gen r1 else recordFailure b gen r1 r2 r3) false lt' lf', Done (Recorded r)).
Proof.
  destruct b as [o st ex w [hs hc hg] [mt ms mf mc] hook tr].
  unfold recordSuccess, recordFailure, toClosed, toOpen, maybeTrip, tripLocked, fireEvent. rewrite !recordWindow_eq.
  destruct st; destruct (is_ok r) eqn:Er; destruct hook;
    repeat (run1; rewrite ?Er, ?recordWindow_eq; rewrite ?(bool_decide_eq_true_2 (_ = _)) by done; run1;
      try match goal with |- context [if ?c then _ else _] =>
        lazymatch c with is_ok _ => fail | context [match _ with _ => _ end] => fail | _ => destruct c eqn:? end end);
    try (eexists _, _; reflexivity); try done; try congruence.
Qed.

(** The next operations of a run, up to a test. *)
Ltac go := cbn [run move answers fst snd brk state expiry opts ho now locked set_lock calls_log fails_log on_brk store_count set_ho
    halfOpenCount halfOpenSuccess halfOpenGen].

(** From the capture of the epoch on: the rest of [Execute]. *)
Lemma execute_alone {T E} b (ctx : option E) (fo : outcome T E) lt lf a1 a2 r1 r2 r3 k :
  let gp := run (22 + k) (answers (bool_decide (is_Some ctx)) (outcome_kind fo) a1 a2 r1 r2 r3) (mkShared b false lt lf, LoadGen) in
  let probeGen := halfOpenGen (ho b) in
  let '(res, b') :=
    match ctx with
    | Some e => (RunCancelled e, recordFailure (addTotal b) probeGen r1 r2 r3)
    | None =>
        match fo with
        | FnOk v => (RunOk v, recordSuccess (addTotal b) probeGen r1)
        | FnErr v e => (RunErr v e, recordFailure (addTotal b) probeGen r1 r2 r3)
        | FnPanic => (RunPanic, if bool_decide (state b = StateHalfOpen) then recordFailure (addTotal b) probeGen r1 r2 r3 else addTotal b)
        end
    end in
  returned res gp.2 ∧ brk gp.1 = b' ∧ locked gp.1 = false.
Proof.
  intros gp probeGen. subst gp. set (w := answers _ _ _ _ _ _ _).
  destruct ctx as [e|].
  - change (22 + k)%nat with (3 + (17 + (2 + k)))%nat. rewrite !run_plus.
    assert (run 3 w (mkShared b false lt lf, LoadGen) = (mkShared (addTotal b) false lt lf, RecAdd Cancelled probeGen)) as -> by reflexivity.
    subst w. edestruct (record_alone Cancelled) as (lt' & lf' & ->). by rewrite !run_done.
  - change (22 + k)%nat with (5 + (17 + k))%nat. rewrite !run_plus.
    set (slot := bool_decide (state b = StateHalfOpen)).
    assert (run 5 w (mkShared b false lt lf, LoadGen) = (mkShared (addTotal b) false lt lf,
      match fo with
      | FnOk _ => RecAdd Ok probeGen
      | FnErr _ _ => RecAdd Err probeGen
      | FnPanic => if slot then RecAdd Panicked probeGen else Done RawPanic
      end)) as -> by (by destruct fo).
    subst w. destruct fo;
      [edestruct (record_alone Ok) as (lt' & lf' & ->)|edestruct (record_alone Err) as (lt' & lf' & ->)|
       destruct slot; [edestruct (record_alone Panicked) as (lt' & lf' & ->)|]]; by rewrite !run_done.
Qed.

(** [Execute] of the sequential model is what the code does when no other caller
    interferes.  From any state, with any answers of the clock, the context and [fn],
    the caller returns within 32 atomic operations, with the result and the breaker of
    [Execute], and has released the lock. *)
Theorem breaker_alone {T E} b (ctx : option E) (fo : outcome T E) lt lf a1 a2 r1 r2 r3 :
  in_i32 (halfOpenCount (ho b)) →
  let gp := run 32 (answers (bool_decide (is_Some ctx)) (outcome_kind fo) a1 a2 r1 r2 r3) (mkShared b false lt lf, LoadState) in
  let '(res, b') := Execute b ctx fo a1 a2 r1 r2 r3 in
  returned res gp.2 ∧ brk gp.1 = b' ∧ locked gp.1 = false.
Proof.
  intros Hc gp. subst gp. set (w := answers _ _ _ _ _ _ _).
  unfold Execute, beforeCall, toHalfOpenOrReject.
  destruct b as [o st ex wi [hs hc hg] m hook tr]. cbn [state ho opts halfOpenCount expiry] in *. destruct st.
  - change 32%nat with (1 + (22 + 9))%nat. rewrite run_plus. apply (execute_alone _ ctx fo).
  - destruct (a1 <? ex) eqn:E1.
    { subst w. go. rewrite E1. by cbn. }
    rewrite (bool_decide_eq_true_2 (StateOpen = StateOpen)) by done. cbn [negb].
    destruct (a2 <? ex) eqn:E2.
    { subst w. go. rewrite E1.
      go. rewrite (bool_decide_eq_true_2 (StateOpen = StateOpen)) by done.
      go. rewrite E2. by cbn. }
    change 32%nat with (10 + (22 + 0))%nat. rewrite run_plus.
    set (b1 := set_ho _ _).
    assert (run 10 w (mkShared (mkBreaker o StateOpen ex wi (mkHalfOpen hs hc hg) m hook tr) false lt lf, LoadState) =
      (mkShared b1 false lt lf, LoadGen)) as ->.
    { subst w. go. rewrite E1.
      go. rewrite (bool_decide_eq_true_2 (StateOpen = StateOpen)) by done.
      go. rewrite E2. reflexivity. }
    apply (execute_alone _ ctx fo).
  - destruct (MaxRequests o <=? u32 hc) eqn:E1.
    { subst w. go. rewrite E1. by cbn. }
    destruct (i32 (hc + 1) >? i32 (MaxRequests o)) eqn:E2.
    { subst w. go. rewrite E1.
      go. rewrite E2.
      go.
      replace (i32 (i32 (hc + 1) - 1)) with hc by (unfold in_i32 in Hc; unfold_int; mint). by cbn. }
    change 32%nat with (3 + (22 + 7))%nat. rewrite run_plus.
    set (b1 := set_ho _ _).
    assert (run 3 w (mkShared (mkBreaker o StateHalfOpen ex wi (mkHalfOpen hs hc hg) m hook tr) false lt lf, LoadState) =
      (mkShared b1 false lt lf, LoadGen)) as ->.
    { subst w. go. rewrite E1.
      go. rewrite E2. reflexivity. }
    apply (execute_alone _ ctx fo).
Qed.

(** ** Any interleaving: what each operation does *)

(** The caller is inside a section of [mu]. *)
Definition holds (p : pc) : bool :=
  match p with
  | HalfState | MissUnlock | HalfExpiry | LateUnlock | HalfStore _ | HalfGen | HalfSuccess | HalfCount | HalfUnlock
  | WinRecord _ | WinUnlock _ | TripState _ | TripRule _ | TripStore _ | TripExpiry _ | TripUnlock _ | TripEnd _
  | OpenStore _ | OpenExpiry _ | OpenSuccess _ | OpenCount _ | OpenUnlock _
  | CloseState _ | CloseWindow _ | CloseSuccess _ | CloseCount _ | CloseStore _ | CloseUnlock _ _ => true
  | _ => false
  end.

(** Whether the call has been counted in [total], and what it has recorded. *)
Definition counted (p : pc) : bool :=
  match p with
  | LoadState | LoadExpiry | LoadCount | AddCount | UndoCount | HalfLock | HalfState | MissUnlock | MissState | HalfExpiry
  | LateUnlock | HalfStore _ | HalfGen | HalfSuccess | HalfCount | HalfUnlock | RejTotal | LoadGen | CtxErr _ | CancelTotal _
  | SlotState _ | AddTotal _ _ => false
  | _ => true
  end.
Definition recorded (p : pc) : option record :=
  match p with
  | RecConsec r _ | RecState r _ | RecGen r _ | SuccAdd r | RecEvent r | WinLock r | WinRecord r | WinUnlock r | Again r
  | TripLock r | TripState r | TripRule r | TripStore r | TripExpiry r | TripUnlock r | TripEvent r | TripRelock r | TripEnd r
  | OpenLock r | OpenStore r | OpenExpiry r | OpenSuccess r | OpenCount r | OpenUnlock r | OpenEvent r
  | CloseLock r | CloseState r | CloseWindow r | CloseSuccess r | CloseCount r | CloseStore r | CloseUnlock r _ | CloseEvent r
  | Done (Recorded r) => Some r
  | _ => None
  end.
Definition c_total (p : pc) : Z := if counted p then 1 else 0.
Definition c_success (p : pc) : Z := match recorded p with Some r => if is_ok r then 1 else 0 | None => 0 end.
Definition c_failures (p : pc) : Z := match recorded p with Some r => if is_ok r then 0 else 1 | None => 0 end.

(** Case analysis of one operation. *)
Ltac move_cases H :=
  let p := lazymatch type of H with move _ _ ?p = _ => p end in
  destruct p; cbn [move] in H;
  repeat match type of H with context [match ?x with _ => _ end] => destruct x eqn:? end;
  try discriminate H; injection H as <- <-;
  cbn [brk locked calls_log fails_log on_brk set_lock store_state store_expiry store_success store_count store_gen
       add_success add_failures store_consec addTotal] in *.

(** The lock. *)
Lemma move_lock i g p g' p' : move i g p = Some (g', p') →
  if holds p then if holds p' then locked g' = locked g else locked g' = false
  else if holds p' then locked g = false ∧ locked g' = true else locked g' = locked g.
Proof. intros H. move_cases H; cbn; repeat case_match; auto; congruence. Qed.

(** The state, the expiry, the window and its log change under the lock only. *)
Lemma move_unlocked i g p g' p' : move i g p = Some (g', p') → holds p = false →
  state (brk g') = state (brk g) ∧ expiry (brk g') = expiry (brk g) ∧ win (brk g') = win (brk g) ∧
  calls_log g' = calls_log g ∧ fails_log g' = fails_log g.
Proof. intros H Hp. move_cases H; try discriminate Hp; bsimp; auto. Qed.

Lemma move_opts i g p g' p' : move i g p = Some (g', p') → opts (brk g') = opts (brk g).
Proof. intros H. move_cases H; bsimp; auto. Qed.

(** The counters. *)
Definition counts (v v' c c' : Z) : Prop := v' = v ∧ c' = c ∨ v' = u64 (v + 1) ∧ c' = c + 1.
Lemma move_counts i g p g' p' (m := met (brk g)) (m' := met (brk g')) : move i g p = Some (g', p') →
  counts (total m) (total m') (c_total p) (c_total p') ∧ counts (success m) (success m') (c_success p) (c_success p') ∧
  counts (failures m) (failures m') (c_failures p) (c_failures p').
Proof.
  intros H. subst m m'. unfold counts, c_total, c_success, c_failures. move_cases H; bsimp; cbn; repeat case_match; simplify_eq;
    bsimp; auto 10.
Qed.

(** ** The invariant *)

(** What a caller inside the lock knows. *)
Definition knows (g : shared) (p : pc) : Prop :=
  let b := brk g in
  match p with
  | HalfExpiry => state b = StateOpen
  | HalfStore t => state b = StateOpen ∧ expiry b ≤ t
  | TripRule _ => state b = StateClosed
  | TripStore _ => state b = StateClosed ∧ should_trip (opts b) (win b) = true
  | CloseWindow _ => state b = StateHalfOpen
  | CloseSuccess _ | CloseCount _ | CloseStore _ => state b = StateHalfOpen ∧ calls_log g = [] ∧ fails_log g = []
  | _ => True
  end.

Record rinv (n : nat) (s : sys) : Prop := {
  ri_lock : length (filter holds (callers s)) = if locked (sh s) then 1%nat else 0%nat;
  ri_knows : Forall (knows (sh s)) (callers s);
  ri_win : window_refines n (win (brk (sh s))) (calls_log (sh s)) (fails_log (sh s));
  ri_total : total (met (brk (sh s))) = u64 (zsum (c_total <$> callers s));
  ri_success : success (met (brk (sh s))) = u64 (zsum (c_success <$> callers s));
  ri_failures : failures (met (brk (sh s))) = u64 (zsum (c_failures <$> callers s)) }.

Lemma move_knows i g p g' p' : move i g p = Some (g', p') → knows g p → knows g' p'.
Proof.
  intros H Hk. move_cases H; cbn [knows] in *; bsimp; try done; try naive_solver;
    repeat match goal with
    | H : bool_decide _ = true |- _ => apply bool_decide_eq_true in H
    | H : (_ <? _) = false |- _ => apply Z.ltb_ge in H
    end; naive_solver.
Qed.

(** What one caller knows is not disturbed by another, since only the holder of the
    lock changes it. *)
Lemma move_others i g p g' p' q : move i g p = Some (g', p') → holds p = false ∨ holds q = false → knows g q → knows g' q.
Proof.
  intros H [Hp|Hq] Hk; [|destruct q; try discriminate Hq; done].
  destruct (move_unlocked _ _ _ _ _ H Hp) as (E1 & E2 & E3 & E4 & E5). pose proof (move_opts _ _ _ _ _ H) as E6.
  destruct q; cbn [knows] in *; rewrite ?E1, ?E2, ?E3, ?E4, ?E5, ?E6; done.
Qed.

Lemma move_window n i g p g' p' : 0 ≤ now i → move i g p = Some (g', p') →
  window_refines n (win (brk g)) (calls_log g) (fails_log g) → window_refines n (win (brk g')) (calls_log g') (fails_log g').
Proof.
  intros Hi H Hw. assert (0 ≤ Unix (now i)) as Hu by (apply Z.div_pos; unfold Second; lia).
  assert (length (wcounts (win (brk g))) = n ∧ (0 < n)%nat) as [Hn Hn0] by (destruct Hw as [[? ?]]; done).
  move_cases H; bsimp; try done.
  - apply (window_refines_record _ _ _ _ true), Hw.
  - apply (window_refines_record _ _ _ _ false), Hw.
  - by apply window_refines_advance.
  - by apply window_refines_advance.
  - rewrite Hn. by apply window_refines_new.
Qed.

Lemma zsum_middle (f : pc → Z) l1 p l2 : zsum (f <$> (l1 ++ p :: l2)) = f p + zsum (f <$> (l1 ++ l2)).
Proof. rewrite !fmap_app, fmap_cons, !zsum_app. cbn. lia. Qed.

Lemma counts_sum (f : pc → Z) v v' l1 p l2 p' : counts v v' (f p) (f p') →
  v = u64 (zsum (f <$> (l1 ++ p :: l2))) → v' = u64 (zsum (f <$> (l1 ++ p' :: l2))).
Proof.
  rewrite !zsum_middle. intros [[-> ->]|[-> ->]] ->; [done|]. rewrite u64_add_l. f_equal. lia.
Qed.

Lemma rinv_step n s s' : rinv n s → step s s' → rinv n s'.
Proof.
  intros Hinv Hst. destruct Hst as [i g l1 p l2 g' p' Hi H]. destruct Hinv as [Hl Hk Hw Ht Hs Hf]. cbn in Hl, Hk, Hw, Ht, Hs, Hf.
  destruct (move_counts _ _ _ _ _ H) as (Ct & Cs & Cf). pose proof (move_lock _ _ _ _ _ H) as Hm.
  apply Forall_app in Hk as [Hk1 [Hkp Hk2]%Forall_cons]. rewrite filter_app, filter_cons, length_app in Hl.
  split; cbn.
  - rewrite filter_app, filter_cons, length_app. destruct (holds p), (holds p');
      repeat (rewrite decide_True in * by done || rewrite decide_False in * by done); cbn [length] in *;
      repeat case_match; destruct_and?; simplify_eq; lia.
  - assert (Hq : ∀ q, q ∈ l1 ++ l2 → knows g q → knows g' q).
    { intros q Hq. apply (move_others _ _ _ _ _ _ H). destruct (holds p) eqn:Ep; [|by left]. right.
      destruct (holds q) eqn:Eq; [exfalso|done]. rewrite decide_True in Hl by done. cbn [length] in Hl.
      assert (q ∈ filter holds l1 ++ filter holds l2) as Hin by (rewrite <- filter_app; apply list_elem_of_filter; by rewrite Eq).
      apply list_elem_of_split in Hin as (k1 & k2 & Hin). apply (f_equal length) in Hin. rewrite !length_app in Hin.
      cbn [length] in Hin. destruct (locked g); lia. }
    rewrite Forall_forall in Hk1, Hk2. apply Forall_forall. intros q Hin. rewrite elem_of_app, elem_of_cons in Hin.
    destruct Hin as [Hin|[->|Hin]]; [|by eapply move_knows|]; apply Hq; rewrite ?elem_of_app; auto.
  - by eapply move_window.
  - by eapply counts_sum.
  - by eapply counts_sum.
  - by eapply counts_sum.
Qed.

(** The number of buckets of the window: the seconds of the interval. *)
Definition buckets (o : BreakerOptions) (t0 : Z) : nat := length (wcounts (win (NewBreaker o t0))).

Lemma start_rinv o t0 hook n : 0 ≤ t0 → rinv (buckets o t0) (start o t0 hook n).
Proof.
  intros Ht. assert (Hz : ∀ f : pc → Z, f LoadState = 0 → zsum (f <$> replicate n LoadState) = 0).
  { intros f Hf. rewrite fmap_replicate, Hf. clear. induction n; cbn; [done|]. lia. }
  split; cbn [sh callers start brk calls_log fails_log locked]; rewrite ?Hz by done; try done.
  - clear Hz. induction n as [|n IH]; [done|]. cbn [replicate]. rewrite filter_cons_False by (by intros []). exact IH.
  - by apply Forall_replicate.
  - unfold buckets, NewBreaker. cbn. rewrite length_replicate. apply window_refines_new; [zcases; lia|].
    apply Z.div_pos; [done|]. unfold Second. lia.
Qed.

Lemma reachable_rinv o t0 hook n s : 0 ≤ t0 → reachable o t0 hook n s → rinv (buckets o t0) s.
Proof.
  intros Ht Hr. pose proof (start_rinv o t0 hook n Ht) as Hi. unfold reachable in Hr.
  induction Hr as [|x y z Hxy _ IH]; [done|]. apply IH. by eapply rinv_step.
Qed.




(** How many operations a caller has left at most. *)
Definition rank (p : pc) : nat :=
  match p with
  | Done _ => 0 | RejEvent | RecEvent _ => 1 | RejTotal | TripEnd _ | OpenEvent _ | CloseEvent _ => 2
  | UndoCount | LateUnlock | TripRelock _ | OpenUnlock _ | CloseUnlock _ _ => 3
  | TripEvent _ | OpenCount _ | CloseStore _ => 4 | TripUnlock _ | OpenSuccess _ | CloseCount _ => 5
  | TripExpiry _ | OpenExpiry _ | CloseSuccess _ => 6 | TripStore _ | OpenStore _ | CloseWindow _ => 7
  | TripRule _ | OpenLock _ | CloseState _ => 8 | TripState _ | CloseLock _ => 9 | TripLock _ | SuccAdd _ => 10
  | Again _ | RecGen _ _ => 11 | WinUnlock _ => 12 | WinRecord _ => 13 | WinLock _ => 14 | RecState _ _ => 15
  | RecConsec _ _ => 16 | RecAdd _ _ => 17 | Running _ _ | CancelTotal _ => 18 | AddTotal _ _ => 19 | SlotState _ => 20
  | CtxErr _ => 21 | LoadGen => 22 | AddCount | HalfUnlock => 23 | LoadCount | MissState | HalfCount => 24
  | MissUnlock | HalfSuccess => 25 | HalfGen => 26 | HalfStore _ => 27 | HalfExpiry => 28 | HalfState => 29 | HalfLock => 30
  | LoadExpiry => 31 | LoadState => 32
  end%nat.

Lemma move_rank i g p g' p' : move i g p = Some (g', p') → (rank p' < rank p)%nat.
Proof. intros H. move_cases H; cbn; repeat case_match; lia. Qed.

(** A caller that has not returned moves at once, unless it waits for the lock. *)
Lemma move_able i g p : is_Some (move i g p) ∨ (∃ r, p = Done r) ∨ locked g = true ∧ holds p = false.
Proof. destruct p; cbn; eauto; destruct (locked g) eqn:E; eauto. Qed.

(** ** Properties *)


(** C22: no call hangs.  In every interleaving of [n] calls there are at most [32 * n]
    operations; a call that has not returned makes its next one at once, or waits for
    the lock while its holder makes its next one at once. *)
Theorem breaker_race_progress o t0 hook n k s :
  0 ≤ t0 → nsteps step k (start o t0 hook n) s →
  (k ≤ 32 * n)%nat ∧
  (∀ i p, p ∈ callers s → (∃ r, p = Done r) ∨ is_Some (move i (sh s) p) ∨
     ∃ q, q ∈ callers s ∧ holds q ∧ is_Some (move i (sh s) q)).
Proof.
  intros Ht Hr. split.
  - assert (H : ∀ s0, nsteps step k s0 s → (k + sum_list (rank <$> callers s) ≤ sum_list (rank <$> callers s0))%nat).
    { clear. intros s0. induction 1 as [|k s1 s2 s3 Hs _ IH]; [lia|]. destruct Hs as [i g l1 p l2 g' p' _ H].
      apply move_rank in H. cbn [callers] in *. rewrite !fmap_app, !fmap_cons, !sum_list_with_app in *. cbn in *. lia. }
    specialize (H _ Hr). cbn in H. rewrite fmap_replicate, sum_list_replicate in H. cbn in H. lia.
  - assert (Hrt : reachable o t0 hook n s) by (by eapply rtc_nsteps_2).
    intros i p Hp. destruct (move_able i (sh s) p) as [Hm|[Hd|[Hlk _]]]; [by right; left|by left|]. right. right.
    pose proof (ri_lock _ _ (reachable_rinv _ _ _ _ _ Ht Hrt)) as Hl. rewrite Hlk in Hl.
    destruct (filter holds (callers s)) as [|q qs] eqn:E; [done|].
    assert (q ∈ filter holds (callers s)) as Hq by (rewrite E; by left). apply list_elem_of_filter in Hq as [Hh Hq].
    exists q. split_and!; try done. destruct (move_able i (sh s) q) as [Hm|[[r ->]|[_ Hf]]]; [done|done|]. by rewrite Hf in Hh.
Qed.

(** ** Concrete runs *)

(** A schedule: which caller moves, and what the world answers. *)
Fixpoint runs (l : list (nat * input)) (s : sys) : option sys :=
  match l with
  | [] => Some s
  | (k, i) :: l => p ← callers s !! k; '(g', p') ← move i (sh s) p; runs l (mkSys g' (<[k := p']> (callers s)))
  end.

Lemma runs_steps l s s' : Forall (λ ki, 0 ≤ now ki.2) l → runs l s = Some s' → nsteps step (length l) s s'.
Proof.
  intros Hl. revert s. induction Hl as [|[k i] l Hi _ IH]; intros s H; cbn [runs length] in *; [by simplify_eq; constructor|].
  destruct (callers s !! k) as [p|] eqn:Ep; [|done]. cbn [mbind option_bind] in H.
  destruct (move i (sh s) p) as [[g' p']|] eqn:Em; [|done]. cbn [mbind option_bind] in H.
  eapply nsteps_l; [|apply IH, H]. destruct s as [g cs]. cbn [callers sh] in *.
  rewrite <- (take_drop_middle cs k p Ep) at 1. rewrite insert_take_drop by (by eapply lookup_lt_Some).
  by eapply step_move.
Qed.

(** One probe at a time, tripped by the first failure. *)
Definition race_opts : BreakerOptions := mkOptions "ssp" 1 (10 * Second) Second (f64_of_Z (-1)) 1.
Definition at_sec (t : Z) (f : fn_outcome) : input := mkInput (t * Second) false f.
Definition times (k n : nat) (i : input) : list (nat * input) := replicate n (k, i).

(** Caller 0 fails and trips the breaker; after the cooldown caller 1 moves it to
    half-open but has not yet stored the probe counter when caller 2 takes the one slot;
    then caller 1 stores the counter and takes it as well. *)
Definition overadmit : list (nat * input) :=
  times 0 23 (at_sec 1 Fails) ++ times 1 7 (at_sec 5 Returns) ++ times 2 7 (at_sec 5 Returns) ++ times 1 7 (at_sec 5 Returns).

Lemma overadmit_times : Forall (λ ki, 0 ≤ now ki.2) overadmit.
Proof. unfold overadmit, times. rewrite !Forall_app. split_and!; by apply Forall_replicate. Qed.

(** With MaxRequests 1, two probes of one half-open epoch run at once. *)
Example breaker_race_overadmits : ∃ s,
  reachable race_opts 0 false 3 s ∧ MaxRequests (opts (brk (sh s))) = 1 ∧ state (brk (sh s)) = StateHalfOpen ∧
  callers s = [Done (Recorded Err); Running 1 true; Running 1 true].
Proof.
  eexists. split; [eapply rtc_nsteps_2, runs_steps; [exact overadmit_times|vm_compute; reflexivity]|].
  split_and!; vm_compute; reflexivity.
Qed.

(** Two calls, the first recorded as a failure and tripping the breaker, the second
    rejected. *)
Definition two_calls : list (nat * input) := times 0 23 (at_sec 1 Fails) ++ times 1 4 (at_sec 1 Returns).
Lemma two_calls_times : Forall (λ ki, 0 ≤ now ki.2) two_calls.
Proof. unfold two_calls, times. rewrite !Forall_app. split_and!; by apply Forall_replicate. Qed.


Lemma breaker_race_progress_witness : ∃ s, nsteps step 27 (start race_opts 0 false 2) s ∧ (27 ≤ 32 * 2)%nat.
Proof.
  destruct (runs two_calls (start race_opts 0 false 2)) as [s|] eqn:E; [|vm_compute in E; discriminate E].
  exists s. assert (Hr : nsteps step 27 (start race_opts 0 false 2) s) by (exact (runs_steps two_calls _ _ two_calls_times E)).
  split; [exact Hr|]. exact (proj1 (breaker_race_progress race_opts 0 false 2 27 _ ltac:(lia) Hr)).
Defined.

(** The breaker after a trip, its cooldown over: the probe runs and closes it. *)
Lemma breaker_alone_witness :
  let b := recordFailure (addTotal (NewBreaker race_opts 0)) 0 Second Second Second in
  let w := answers false Returns (5 * Second) (5 * Second) (6 * Second) 0 0 in
  (run 32 w (mkShared b false [] [], LoadState)).2 = Done (Recorded Ok) ∧
  brk (run 32 w (mkShared b false [] [], LoadState)).1 =
    (Execute b (None : option unit) (FnOk tt) (5 * Second) (5 * Second) (6 * Second) 0 0).2.
Proof.
  intros b w. pose proof (breaker_alone b (None : option unit) (FnOk tt) [] [] (5 * Second) (5 * Second) (6 * Second) 0 0) as H.
  destruct (Execute b _ _ _ _ _ _ _) as [res b'] eqn:E. split; [vm_compute; reflexivity|].
  apply H. vm_compute. split; discriminate.
Defined.
