(* ===== verification/Limiter.v ===== *)
(** * limiter: the Limiter interface and its five algorithms

    Models src/limiter: the options and [NewLimiter] dispatch (limiter.go,
    options.go), the fixed window, the sliding window, GCRA, the token bucket
    and the leaky bucket, each as a state record with one function per method,
    and the polling loop of [Wait], which the five implementations share.

    The Go interface [Limiter] is the class [LimiterOps]; [LimiterLaws] is the
    contract its doc comment states, proved for every algorithm, and the
    theorems about [Wait] are proved against the class. Operations take the
    clock reading (unix nanoseconds) as an argument and describe one caller at
    a time: between a load and its compare-and-swap nothing else runs, so the
    first attempt of each retry loop decides. The fixed window's interleaving
    is modelled in LimiterRace.v. *)

From Stdlib Require Import ZArith Lia Bool.
From stdpp Require Import base list strings.
From S2P Require Import Prelude Float64 Ring.

#[local] Open Scope Z_scope.
#[local] Open Scope go_scope.

Definition Second : Z := 1000000000.
Definition Millisecond : Z := 1000000.
Definition Microsecond : Z := 1000.

Record LimiterMetrics := mkLM { Allowed : Z; Denied : Z; Acquired : Z }.

Definition lm0 : LimiterMetrics := mkLM 0 0 0.
Definition lm_allow (m : LimiterMetrics) (n : Z) : LimiterMetrics :=
  mkLM (u64 (Allowed m + 1)) (Denied m) (u64 (Acquired m + u64 n)).
Definition lm_deny (m : LimiterMetrics) : LimiterMetrics :=
  mkLM (Allowed m) (u64 (Denied m + 1)) (Acquired m).

(** ** The interface *)

Class LimiterOps (L : Type) := {
  Allow : L → Z → bool * L;
  TryAcquire : L → Z → Z → bool * L;
  Close : L → L;
  Metrics : L → LimiterMetrics;
  is_closed : L → bool }.

Class LimiterLaws (L : Type) `{LimiterOps L} : Prop := {
  law_allow : ∀ (l : L) t, Allow l t = TryAcquire l 1 t;
  law_nonpos : ∀ (l : L) n t, n ≤ 0 → TryAcquire l n t = (true, l);
  law_closed : ∀ (l : L) n t, 0 < n → is_closed l = true → TryAcquire l n t = (false, l);
  law_metrics : ∀ (l : L) n t r l', 0 < n → is_closed l = false → TryAcquire l n t = (r, l') →
    Metrics l' = (if r then lm_allow (Metrics l) n else lm_deny (Metrics l));
  law_stays : ∀ (l : L) n t r l', TryAcquire l n t = (r, l') → is_closed l' = is_closed l;
  law_close : ∀ l : L, is_closed (Close l) = true ∧ Metrics (Close l) = Metrics l ∧
    Close (Close l) = Close l }.

(** ** fixed_window.go *)

Module FixedWindow.

Record t := mk {
  rate : Z; windowNs : Z; count : Z; windowStart : Z; met : LimiterMetrics; closed : bool }.

Definition newFixedWindow (rate window now : Z) : t :=
  let rate := if rate <? 1 then 1 else rate in
  let window := if window <? Second then Second else window in
  mk rate window 0 now lm0 false.

Definition acquire (fw : t) (n now : Z) : bool * t :=
  let fw :=
    if i64 (windowStart fw + windowNs fw) <=? now
    then mk (rate fw) (windowNs fw) 0 now (met fw) (closed fw) else fw in
  let cur := count fw in
  if i64 (cur + n) >? rate fw then
    (false, mk (rate fw) (windowNs fw) (count fw) (windowStart fw) (lm_deny (met fw)) (closed fw))
  else
    (true, mk (rate fw) (windowNs fw) (i64 (cur + n)) (windowStart fw) (lm_allow (met fw) n) (closed fw)).

Definition AllowFW (fw : t) (now : Z) : bool * t :=
  if closed fw then (false, fw) else acquire fw 1 now.

Definition TryAcquireFW (fw : t) (n now : Z) : bool * t :=
  if n <=? 0 then (true, fw) else if closed fw then (false, fw) else acquire fw n now.

Definition CloseFW (fw : t) : t :=
  mk (rate fw) (windowNs fw) (count fw) (windowStart fw) (met fw) true.

End FixedWindow.

(** ** sliding_window.go *)

Module SlidingWindow.

Record t := mk { rate : float64; ring : ring; met : LimiterMetrics; closed : bool }.

(** [int(window.Seconds())]; the fraction below a second is dropped. *)
Definition window_secs (window : Z) : Z :=
  f64_to_i64 (f64_add (f64_of_Z (window ÷t Second))
    (f64_div (f64_of_Z (window %t Second)) (f64_of_Z Second))).

Definition newSlidingWindow (rate : float64) (window now : Z) : t :=
  let secs := window_secs window in
  let secs := if secs <? 1 then 1 else secs in
  mk rate (new_ring (Z.to_nat secs) (now / Second)) lm0 false.

Definition acquire (sw : t) (n now : Z) : bool * t :=
  let sec := now / Second in
  let r := advance (ring sw) sec in
  if f64_le (f64_add (f64_of_Z (sum r)) (f64_of_Z n)) (rate sw) then
    (true, mk (rate sw) (charge r sec n) (lm_allow (met sw) n) (closed sw))
  else (false, mk (rate sw) r (lm_deny (met sw)) (closed sw)).

Definition AllowSW (sw : t) (now : Z) : bool * t :=
  if closed sw then (false, sw) else acquire sw 1 now.

Definition TryAcquireSW (sw : t) (n now : Z) : bool * t :=
  if n <=? 0 then (true, sw) else if closed sw then (false, sw) else acquire sw n now.

Definition CloseSW (sw : t) : t := mk (rate sw) (ring sw) (met sw) true.

End SlidingWindow.

(** ** gcra.go *)

Module GCRA.

Record t := mk {
  emissionNs : float64; burstOffsetNs : float64; tat : Z; met : LimiterMetrics; closed : bool }.

Definition newGCRA (rate : float64) (burst : Z) : t :=
  let burst := if burst <? 1 then 1 else burst in
  let emission := f64_div (f64_of_Z Second) rate in
  mk emission (f64_mul emission (f64_of_Z burst)) 0 lm0 false.

(** [int64(cost * emissionNs)] and [int64(burstOffsetNs)]. *)
Definition cost_ns (g : t) (n : Z) : Z := f64_to_i64 (f64_mul (f64_of_Z n) (emissionNs g)).
Definition burst_ns (g : t) : Z := f64_to_i64 (burstOffsetNs g).

Definition acquire (g : t) (n now : Z) : bool * t :=
  let tat0 := if tat g <? now then now else tat g in
  let newTAT := i64 (tat0 + cost_ns g n) in
  if i64 (newTAT - now) >? burst_ns g then
    (false, mk (emissionNs g) (burstOffsetNs g) (tat g) (lm_deny (met g)) (closed g))
  else (true, mk (emissionNs g) (burstOffsetNs g) newTAT (lm_allow (met g) n) (closed g)).

Definition AllowG (g : t) (now : Z) : bool * t :=
  if closed g then (false, g) else acquire g 1 now.

Definition TryAcquireG (g : t) (n now : Z) : bool * t :=
  if n <=? 0 then (true, g) else if closed g then (false, g) else acquire g n now.

Definition nextDelay (g : t) (now : Z) : Z :=
  if tat g <=? now then 0
  else
    let deficit := i64 (i64 (tat g - now) - burst_ns g) in
    if deficit <=? 0 then 0
    else
      let d := if deficit <? Microsecond then Microsecond else deficit in
      if d >? Millisecond then Millisecond else d.

Definition CloseG (g : t) : t := mk (emissionNs g) (burstOffsetNs g) (tat g) (met g) true.

End GCRA.

Definition f0 : float64 := f64_of_Z 0.
Definition f1 : float64 := f64_of_Z 1.
Definition f1e9 : float64 := f64_of_Z Second.

(** Clamp a delay estimate to [1us, 1ms]. *)
Definition clamp_delay (secs : float64) : Z :=
  let d := f64_to_i64 (f64_mul secs f1e9) in
  let d := if d <? Microsecond then Microsecond else d in
  if d >? Millisecond then Millisecond else d.

(** ** token_bucket.go *)

Module TokenBucket.

Record t := mk {
  rate : float64; burst : float64; tokens : float64; lastTime : Z;
  met : LimiterMetrics; closed : bool }.

Definition newTokenBucket (rate : float64) (burst now : Z) : t :=
  let burst := if burst <? 1 then 1 else burst in
  mk rate (f64_of_Z burst) (f64_of_Z burst) now lm0 false.

(** Tokens available at [now], after the lazy refill capped at [burst]. *)
Definition available (tb : t) (now : Z) : float64 :=
  let now := if now <? lastTime tb then lastTime tb else now in
  let refill := f64_mul (f64_div (f64_of_Z (i64 (now - lastTime tb))) f1e9) (rate tb) in
  let refill := if f64_lt refill f0 then f0 else refill in
  let avail := f64_add (tokens tb) refill in
  if f64_gt avail (burst tb) then burst tb else avail.

Definition acquire (tb : t) (n now : Z) : bool * t :=
  let avail := available tb now in
  if f64_lt avail (f64_of_Z n) then
    (false, mk (rate tb) (burst tb) (tokens tb) (lastTime tb) (lm_deny (met tb)) (closed tb))
  else
    let now := if now <? lastTime tb then lastTime tb else now in
    (true, mk (rate tb) (burst tb) (f64_sub avail (f64_of_Z n)) now (lm_allow (met tb) n) (closed tb)).

Definition AllowTB (tb : t) (now : Z) : bool * t :=
  if closed tb then (false, tb) else acquire tb 1 now.

Definition TryAcquireTB (tb : t) (n now : Z) : bool * t :=
  if n <=? 0 then (true, tb) else if closed tb then (false, tb) else acquire tb n now.

Definition nextAvailableDelay (tb : t) (now : Z) : Z :=
  let avail := available tb now in
  if f64_ge avail f1 then 0
  else clamp_delay (f64_div (f64_sub f1 avail) (rate tb)).

Definition CloseTB (tb : t) : t :=
  mk (rate tb) (burst tb) (tokens tb) (lastTime tb) (met tb) true.

End TokenBucket.

(** ** leaky_bucket.go *)

Module LeakyBucket.

Record t := mk {
  rate : float64; capacity : float64; water : float64; lastTime : Z;
  met : LimiterMetrics; closed : bool }.

Definition newLeakyBucket (rate : float64) (burst now : Z) : t :=
  let burst := if burst <? 1 then 1 else burst in
  mk rate (f64_of_Z burst) f0 now lm0 false.

(** Water level at [now], after draining. *)
Definition level (lb : t) (now : Z) : float64 :=
  let now := if now <? lastTime lb then lastTime lb else now in
  let drain := f64_mul (f64_div (f64_of_Z (i64 (now - lastTime lb))) f1e9) (rate lb) in
  let drain := if f64_lt drain f0 then f0 else drain in
  let level := f64_sub (water lb) drain in
  if f64_lt level f0 then f0 else level.

Definition acquire (lb : t) (n now : Z) : bool * t :=
  let lvl := level lb now in
  if f64_gt (f64_add lvl (f64_of_Z n)) (capacity lb) then
    (false, mk (rate lb) (capacity lb) (water lb) (lastTime lb) (lm_deny (met lb)) (closed lb))
  else
    let now := if now <? lastTime lb then lastTime lb else now in
    (true, mk (rate lb) (capacity lb) (f64_add lvl (f64_of_Z n)) now (lm_allow (met lb) n) (closed lb)).

Definition AllowLB (lb : t) (now : Z) : bool * t :=
  if closed lb then (false, lb) else acquire lb 1 now.

Definition TryAcquireLB (lb : t) (n now : Z) : bool * t :=
  if n <=? 0 then (true, lb) else if closed lb then (false, lb) else acquire lb n now.

Definition nextDrainDelay (lb : t) (now : Z) : Z :=
  let lvl := level lb now in
  if f64_le (f64_add lvl f1) (capacity lb) then 0
  else clamp_delay (f64_div (f64_sub (f64_add lvl f1) (capacity lb)) (rate lb)).

Definition CloseLB (lb : t) : t :=
  mk (rate lb) (capacity lb) (water lb) (lastTime lb) (met lb) true.

End LeakyBucket.

(** ** options.go and NewLimiter *)

Definition AlgorithmTokenBucket : string := "token_bucket".
Definition AlgorithmSlidingWindow : string := "sliding_window".
Definition AlgorithmFixedWindow : string := "fixed_window".
Definition AlgorithmLeakyBucket : string := "leaky_bucket".
Definition AlgorithmGCRA : string := "gcra".

Record LimiterOptions := mkLimiterOptions {
  Algorithm : string; Rate : float64; Burst : Z; Window : Z }.

Definition defaultLimiterOptions : LimiterOptions :=
  mkLimiterOptions AlgorithmTokenBucket f1 1 Second.

Definition withDefaults (o : LimiterOptions) : LimiterOptions :=
  let d := defaultLimiterOptions in
  mkLimiterOptions
    (if String.eqb (Algorithm o) "" then Algorithm d else Algorithm o)
    (if f64_le (Rate o) f0 then Rate d else Rate o)
    (if Burst o <=? 0 then Burst d else Burst o)
    (if Window o <=? 0 then Window d else Window o).

(** A value of the interface type: one of the implementations. *)
Inductive Limiter :=
| LTokenBucket (l : TokenBucket.t)
| LSlidingWindow (l : SlidingWindow.t)
| LFixedWindow (l : FixedWindow.t)
| LLeakyBucket (l : LeakyBucket.t)
| LGCRA (l : GCRA.t).

Definition NewLimiter (o : LimiterOptions) (now : Z) : option Limiter :=
  if f64_le (Rate o) f0 then None
  else
    let o := withDefaults o in
    let alg a := String.eqb (Algorithm o) a in
    if alg AlgorithmTokenBucket then
      Some (LTokenBucket (TokenBucket.newTokenBucket (Rate o) (Burst o) now))
    else if alg AlgorithmSlidingWindow then
      Some (LSlidingWindow (SlidingWindow.newSlidingWindow (Rate o) (Window o) now))
    else if alg AlgorithmFixedWindow then
      Some (LFixedWindow (FixedWindow.newFixedWindow (f64_to_i64 (Rate o)) (Window o) now))
    else if alg AlgorithmLeakyBucket then
      Some (LLeakyBucket (LeakyBucket.newLeakyBucket (Rate o) (Burst o) now))
    else if alg AlgorithmGCRA then Some (LGCRA (GCRA.newGCRA (Rate o) (Burst o)))
    else None.

(** ** Instances of the interface *)

#[global] Instance fw_ops : LimiterOps FixedWindow.t :=
  {| Allow := FixedWindow.AllowFW; TryAcquire := FixedWindow.TryAcquireFW;
     Close := FixedWindow.CloseFW; Metrics := FixedWindow.met; is_closed := FixedWindow.closed |}.
#[global] Instance sw_ops : LimiterOps SlidingWindow.t :=
  {| Allow := SlidingWindow.AllowSW; TryAcquire := SlidingWindow.TryAcquireSW;
     Close := SlidingWindow.CloseSW; Metrics := SlidingWindow.met; is_closed := SlidingWindow.closed |}.
#[global] Instance g_ops : LimiterOps GCRA.t :=
  {| Allow := GCRA.AllowG; TryAcquire := GCRA.TryAcquireG;
     Close := GCRA.CloseG; Metrics := GCRA.met; is_closed := GCRA.closed |}.
#[global] Instance tb_ops : LimiterOps TokenBucket.t :=
  {| Allow := TokenBucket.AllowTB; TryAcquire := TokenBucket.TryAcquireTB;
     Close := TokenBucket.CloseTB; Metrics := TokenBucket.met; is_closed := TokenBucket.closed |}.
#[global] Instance lb_ops : LimiterOps LeakyBucket.t :=
  {| Allow := LeakyBucket.AllowLB; TryAcquire := LeakyBucket.TryAcquireLB;
     Close := LeakyBucket.CloseLB; Metrics := LeakyBucket.met; is_closed := LeakyBucket.closed |}.

(** Dynamic dispatch through the interface value. *)
Definition on_limiter {A} (inj : ∀ L, LimiterOps L → L → A) (l : Limiter) : A :=
  match l with
  | LTokenBucket x => inj _ _ x | LSlidingWindow x => inj _ _ x | LFixedWindow x => inj _ _ x
  | LLeakyBucket x => inj _ _ x | LGCRA x => inj _ _ x
  end.

Definition upd_limiter {B} (f : ∀ L, LimiterOps L → L → B * L) (l : Limiter) : B * Limiter :=
  match l with
  | LTokenBucket x => let '(b, y) := f _ _ x in (b, LTokenBucket y)
  | LSlidingWindow x => let '(b, y) := f _ _ x in (b, LSlidingWindow y)
  | LFixedWindow x => let '(b, y) := f _ _ x in (b, LFixedWindow y)
  | LLeakyBucket x => let '(b, y) := f _ _ x in (b, LLeakyBucket y)
  | LGCRA x => let '(b, y) := f _ _ x in (b, LGCRA y)
  end.

#[global] Instance limiter_ops : LimiterOps Limiter :=
  {| Allow l t := upd_limiter (λ L o x, @Allow L o x t) l;
     TryAcquire l n t := upd_limiter (λ L o x, @TryAcquire L o x n t) l;
     Close l := snd (upd_limiter (λ L o x, (tt, @Close L o x)) l);
     Metrics l := on_limiter (λ L o x, @Metrics L o x) l;
     is_closed l := on_limiter (λ L o x, @is_closed L o x) l |}.

(** ** Wait *)

Inductive WaitErr := CtxErr | ErrLimiterClosed.

Definition closedWaitResult (ctxDone : bool) : WaitErr :=
  if ctxDone then CtxErr else ErrLimiterClosed.

(** What one turn of the loop observes: whether the limiter was closed by
    someone since, whether the context is done at the first and at the second
    select, and the clock reading of the [Allow] that ends the turn. *)
Record poll := mkPoll { p_close : bool; p_done1 : bool; p_done2 : bool; p_now : Z }.

Section wait.
Context {L : Type} `{LimiterOps L}.

(** The loop over the turns the environment grants; [None]: still waiting. *)
Fixpoint wait_loop (l : L) (ps : list poll) : option (result WaitErr unit) * L :=
  match ps with
  | [] => (None, l)
  | p :: ps =>
      let l := if p_close p then Close l else l in
      if is_closed l then (Some (Err (closedWaitResult (p_done1 p))), l)
      else if p_done1 p then (Some (Err CtxErr), l)
      else if p_done2 p then (Some (Err CtxErr), l)
      else
        let '(ok, l) := Allow l (p_now p) in
        if ok then (Some (Ok tt), l) else wait_loop l ps
  end.

Definition Wait (l : L) (ctxDone : bool) (now : Z) (ps : list poll) :
    option (result WaitErr unit) * L :=
  if is_closed l then (Some (Err (closedWaitResult ctxDone)), l)
  else
    let '(ok, l) := Allow l now in
    if ok then (Some (Ok tt), l) else wait_loop l ps.
End wait.

(** ** Lemmas: every algorithm keeps the contract *)

(** The five implementations have the same guards around [acquire]. *)
Ltac solve_laws allow try acq :=
  split; cbn [Allow TryAcquire Close Metrics is_closed fw_ops sw_ops g_ops tb_ops lb_ops];
  unfold allow, try;
  [ intros l t; done
  | intros l n t Hn; destruct (Z.leb_spec n 0); [done|lia]
  | intros l n t Hn Hc; destruct (Z.leb_spec n 0); [lia|]; by rewrite Hc
  | intros l n t r l' Hn Hc; destruct (Z.leb_spec n 0); [lia|]; rewrite Hc; unfold acq;
    intros Heq; repeat case_match; by simplify_eq/=
  | intros l n t r l'; unfold acq; intros Heq; repeat case_match; by simplify_eq/=
  | intros l; done ].

#[global] Instance fw_laws : LimiterLaws FixedWindow.t.
Proof. solve_laws FixedWindow.AllowFW FixedWindow.TryAcquireFW FixedWindow.acquire. Qed.
#[global] Instance sw_laws : LimiterLaws SlidingWindow.t.
Proof. solve_laws SlidingWindow.AllowSW SlidingWindow.TryAcquireSW SlidingWindow.acquire. Qed.
#[global] Instance g_laws : LimiterLaws GCRA.t.
Proof. solve_laws GCRA.AllowG GCRA.TryAcquireG GCRA.acquire. Qed.
#[global] Instance tb_laws : LimiterLaws TokenBucket.t.
Proof. solve_laws TokenBucket.AllowTB TokenBucket.TryAcquireTB TokenBucket.acquire. Qed.
#[global] Instance lb_laws : LimiterLaws LeakyBucket.t.
Proof. solve_laws LeakyBucket.AllowLB LeakyBucket.TryAcquireLB LeakyBucket.acquire. Qed.

(** The interface value inherits the contract from the implementation in it. *)
#[global] Instance limiter_laws : LimiterLaws Limiter.
Proof.
  split.
  - intros [x|x|x|x|x] t; pose proof (law_allow x t) as E; simpl in *; by rewrite E.
  - intros [x|x|x|x|x] n t Hn; pose proof (law_nonpos x n t Hn) as E; simpl in *; by rewrite E.
  - intros [x|x|x|x|x] n t Hn Hc; simpl in Hc; pose proof (law_closed x n t Hn Hc) as E;
      simpl in *; by rewrite E.
  - intros [x|x|x|x|x] n t r l' Hn Hc HH; simpl in Hc; pose proof (law_metrics x n t) as E;
      simpl in *; destruct (_ x n t) as [b y]; simplify_eq/=; by apply E.
  - intros [x|x|x|x|x] n t r l' HH; pose proof (law_stays x n t) as E;
      simpl in *; destruct (_ x n t) as [b y]; simplify_eq/=; by eapply E.
  - intros [x|x|x|x|x]; done.
Qed.

(** ** Sequences of operations *)

(** A caller's sequence of [TryAcquire(n)] at clock readings. *)
Section runs.
Context {L : Type} `{LimiterOps L}.

Fixpoint run (l : L) (ops : list (Z * Z)) : list bool * L :=
  match ops with
  | [] => ([], l)
  | (n, t) :: ops =>
      let '(ok, l1) := TryAcquire l n t in
      let '(oks, l2) := run l1 ops in (ok :: oks, l2)
  end.
End runs.

(** Tokens granted, calls granted and calls refused in a run, counting only
    requests for a positive number. *)
Fixpoint granted (ops : list (Z * Z)) (oks : list bool) : Z :=
  match ops, oks with
  | (n, _) :: ops, ok :: oks => (if ok && (0 <? n) then n else 0) + granted ops oks
  | _, _ => 0
  end.
Fixpoint granted_calls (ops : list (Z * Z)) (oks : list bool) : Z :=
  match ops, oks with
  | (n, _) :: ops, ok :: oks => (if ok && (0 <? n) then 1 else 0) + granted_calls ops oks
  | _, _ => 0
  end.
Fixpoint refused_calls (ops : list (Z * Z)) (oks : list bool) : Z :=
  match ops, oks with
  | (n, _) :: ops, ok :: oks => (if ok then 0 else 1) + refused_calls ops oks
  | _, _ => 0
  end.

Lemma u64_add_idem a b : u64 (u64 a + b) = u64 (a + b).
Proof. unfold u64. by rewrite Zplus_mod_idemp_l. Qed.
Lemma u64_add_idem_r a b : u64 (a + u64 b) = u64 (a + b).
Proof. unfold u64. by rewrite Zplus_mod_idemp_r. Qed.
Lemma u64_idem a : u64 (u64 a) = u64 a.
Proof. unfold u64. by rewrite Zmod_mod. Qed.

Section laws.
Context {L : Type} `{LimiterLaws L}.

Lemma run_metrics (l : L) ops :
  is_closed l = false →
  let '(oks, l') := run l ops in
  is_closed l' = false ∧
  u64 (Allowed (Metrics l')) = u64 (Allowed (Metrics l) + granted_calls ops oks) ∧
  u64 (Denied (Metrics l')) = u64 (Denied (Metrics l) + refused_calls ops oks) ∧
  u64 (Acquired (Metrics l')) = u64 (Acquired (Metrics l) + granted ops oks).
Proof.
  revert l; induction ops as [|[n t] ops IH]; intros l Hc; simpl.
  { rewrite !Z.add_0_r. auto. }
  destruct (TryAcquire l n t) as [ok l1] eqn:E. pose proof (law_stays _ _ _ _ _ E) as Hst.
  assert (is_closed l1 = false) as Hc1 by congruence. specialize (IH l1 Hc1).
  destruct (run l1 ops) as [oks l2]. destruct IH as (H1 & H2 & H3 & H4). split; [done|].
  rewrite H2, H3, H4. destruct (Z.ltb_spec 0 n).
  - rewrite (law_metrics l n t ok l1) by done.
    destruct ok; simpl; rewrite ?u64_add_idem; split_and!; try (f_equal; lia).
    rewrite (Z.add_comm n), <- Z.add_assoc, (Z.add_comm (u64 n)), !Z.add_assoc.
    apply u64_add_idem_r.
  - rewrite law_nonpos in E by lia. simplify_eq/=. rewrite !Z.add_0_l. auto.
Qed.

(** An environment turn that must end the wait. *)
Definition interrupts (p : poll) : bool := p_close p || p_done1 p || p_done2 p.

Lemma wait_loop_spec (l : L) ps :
  let '(res, l') := wait_loop l ps in
  (match res with
   | Some (Ok _) => Allowed (Metrics l') = u64 (Allowed (Metrics l) + 1) ∧
       Acquired (Metrics l') = u64 (Acquired (Metrics l) + 1)
   | _ => Allowed (Metrics l') = Allowed (Metrics l) ∧ Acquired (Metrics l') = Acquired (Metrics l)
   end) ∧ (existsb interrupts ps = true → res ≠ None).
Proof.
  revert l; induction ps as [|p ps IH]; intros l; simpl; [done|].
  destruct (law_close l) as (Hcl & Hcm & _). unfold interrupts at 1.
  set (l0 := if p_close p then Close l else l).
  assert (Metrics l0 = Metrics l) as Hm by (subst l0; by destruct (p_close p)).
  destruct (is_closed l0) eqn:Hc; [by rewrite Hm|].
  destruct (p_done1 p); [by rewrite Hm|]. destruct (p_done2 p); [by rewrite Hm|].
  assert (p_close p = false) as -> by (subst l0; destruct (p_close p); congruence). simpl.
  rewrite law_allow. destruct (TryAcquire l0 1 (p_now p)) as [ok l1] eqn:E.
  pose proof (law_metrics l0 1 (p_now p) ok l1 ltac:(lia) Hc E) as Hm1. rewrite Hm in Hm1.
  destruct ok; [by rewrite Hm1|].
  specialize (IH l1). rewrite Hm1 in IH. exact IH.
Qed.
End laws.

(** ** Lemmas: fixed window *)

(** A grant of the fixed window: the start of its window, its clock reading
    and the number of tokens. *)
Record grant := mkGrant { g_start : Z; g_now : Z; g_n : Z }.

Fixpoint fw_run (fw : FixedWindow.t) (ops : list (Z * Z)) : list grant * FixedWindow.t :=
  match ops with
  | [] => ([], fw)
  | (n, now) :: ops =>
      let '(ok, fw1) := FixedWindow.acquire fw n now in
      let '(gs, fw2) := fw_run fw1 ops in
      ((if ok then [mkGrant (FixedWindow.windowStart fw1) now n] else []) ++ gs, fw2)
  end.

Definition granted_in (s : Z) (gs : list grant) : Z :=
  zsum (g_n <$> filter (λ g, g_start g = s) gs).

(** Requests and clock readings for which no int64 sum wraps. *)
Definition fw_op_ok (fw : FixedWindow.t) (op : Z * Z) : Prop :=
  0 < fst op ≤ max_i64 - FixedWindow.rate fw ∧ snd op ≤ 2 ^ 62.

Definition fw_inv (fw : FixedWindow.t) : Prop :=
  0 ≤ FixedWindow.count fw ≤ FixedWindow.rate fw ∧ FixedWindow.rate fw ≤ max_i64 ∧
  0 < FixedWindow.windowNs fw < 2 ^ 62 ∧ - 2 ^ 62 ≤ FixedWindow.windowStart fw ≤ 2 ^ 62.

Lemma fw_acquire_spec fw n now :
  fw_inv fw → fw_op_ok fw (n, now) →
  let '(ok, fw1) := FixedWindow.acquire fw n now in
  let expired := FixedWindow.windowStart fw + FixedWindow.windowNs fw <=? now in
  fw_inv fw1 ∧ FixedWindow.rate fw1 = FixedWindow.rate fw ∧
  FixedWindow.windowNs fw1 = FixedWindow.windowNs fw ∧
  FixedWindow.windowStart fw1 = (if expired then now else FixedWindow.windowStart fw) ∧
  FixedWindow.count fw1 =
    (if expired then 0 else FixedWindow.count fw) + (if ok then n else 0) ∧
  now < FixedWindow.windowStart fw1 + FixedWindow.windowNs fw1.
Proof.
  intros (Hc & Hr & Hw & Hst) [Hn Ht]; simpl in *. unfold FixedWindow.acquire, fw_inv.
  rewrite (i64_id (FixedWindow.windowStart fw + FixedWindow.windowNs fw)) by (unfold_int; lia).
  destruct (Z.leb_spec (FixedWindow.windowStart fw + FixedWindow.windowNs fw) now); simpl.
  - rewrite (i64_id (0 + n)) by (unfold_int; lia). rewrite Z.gtb_ltb.
    destruct (Z.ltb_spec (FixedWindow.rate fw) (0 + n)); simpl; lia.
  - rewrite (i64_id (FixedWindow.count fw + n)) by (unfold_int; lia). rewrite Z.gtb_ltb.
    destruct (Z.ltb_spec (FixedWindow.rate fw) (FixedWindow.count fw + n)); simpl; lia.
Qed.

Lemma granted_in_cons s g gs :
  granted_in s (g :: gs) = (if decide (g_start g = s) then g_n g else 0) + granted_in s gs.
Proof. unfold granted_in. rewrite filter_cons. case_decide; csimpl; lia. Qed.

Lemma granted_in_none s gs : Forall (λ g, g_start g ≠ s) gs → granted_in s gs = 0.
Proof.
  induction 1 as [|g gs Hg Hgs IH]; [done|]. by rewrite granted_in_cons, decide_False, IH.
Qed.

(** Window starts only move forward; the tokens granted in the window that is
    open are the growth of the counter, all others fit under the rate. *)
Lemma fw_run_spec fw ops :
  fw_inv fw → Forall (fw_op_ok fw) ops →
  let '(gs, _) := fw_run fw ops in
  Forall (λ g, FixedWindow.windowStart fw ≤ g_start g ∧
    g_now g < g_start g + FixedWindow.windowNs fw) gs ∧
  ∀ s, granted_in s gs ≤
    FixedWindow.rate fw - (if s =? FixedWindow.windowStart fw then FixedWindow.count fw else 0).
Proof.
  revert fw; induction ops as [|[n now] ops IH]; intros fw Hi Hops; simpl.
  { destruct Hi as (? & ? & ?). split_and!; [constructor..|]. intros s. unfold granted_in; simpl. zcases; lia. }
  apply Forall_cons in Hops as [Hop Hops].
  pose proof (fw_acquire_spec fw n now Hi Hop) as Ha.
  destruct (FixedWindow.acquire fw n now) as [ok fw1].
  destruct Ha as (Hi1 & Er & Ew & Es & Ec & Hlt). cbv zeta in *.
  specialize (IH fw1 Hi1).
  destruct (fw_run fw1 ops) as [gs fw2].
  destruct IH as (IH1 & IH2).
  { eapply Forall_impl; [exact Hops|]. unfold fw_op_ok. by rewrite Er. }
  rewrite Er, Ew in *. destruct Hi as (Hc & Hr & Hw & Hst). destruct Hop as [Hn Ht]; simpl in *.
  set (expired := _ <=? now) in *.
  assert (FixedWindow.windowStart fw ≤ FixedWindow.windowStart fw1) as Hmono
    by (rewrite Es; subst expired; zcases; lia).
  split_and!.
  - apply Forall_app. split; [destruct ok; repeat constructor; simpl; lia|].
    eapply Forall_impl; [exact IH1|]. simpl. lia.
  - intros s. specialize (IH2 s).
    assert (granted_in s ((if ok then [mkGrant (FixedWindow.windowStart fw1) now n] else []) ++ gs)
      = (if ok then if decide (FixedWindow.windowStart fw1 = s) then n else 0 else 0) + granted_in s gs) as ->
      by (destruct ok; simpl; [apply granted_in_cons|lia]).
    assert (s = FixedWindow.windowStart fw → expired = true → granted_in s gs = 0) as Hold.
    { intros -> He. apply granted_in_none.
      eapply Forall_impl; [exact IH1|]. intros g [Hg _]. rewrite Es, He in Hg.
      subst expired. apply Z.leb_le in He. simpl. lia. }
    destruct (Z.eqb_spec s (FixedWindow.windowStart fw1)) as [E1|E1];
      destruct (Z.eqb_spec s (FixedWindow.windowStart fw)) as [E2|E2];
      destruct expired eqn:Ex, ok; rewrite ?decide_True, ?decide_False in * by congruence; try lia.
    subst expired. apply Z.leb_le in Ex. lia.
Qed.

(** ** Lemmas: GCRA *)

Fixpoint g_run (g : GCRA.t) (ops : list (Z * Z)) : Z * GCRA.t :=
  match ops with
  | [] => (0, g)
  | (n, now) :: ops =>
      let '(ok, g1) := GCRA.acquire g n now in
      let '(c, g2) := g_run g1 ops in ((if ok then GCRA.cost_ns g n else 0) + c, g2)
  end.

(** Requests at clock readings between [lo] and [hi] whose cost does not
    come near the int64 bound. *)
Definition g_op_ok (g : GCRA.t) (lo hi : Z) (op : Z * Z) : Prop :=
  0 ≤ GCRA.cost_ns g (fst op) ≤ 2 ^ 60 ∧ lo ≤ snd op ≤ hi.

Lemma g_run_spec g lo hi ops :
  0 ≤ lo → hi ≤ 2 ^ 61 → 0 ≤ GCRA.burst_ns g ≤ 2 ^ 60 → GCRA.tat g ≤ 2 ^ 62 →
  Forall (g_op_ok g lo hi) ops →
  let '(c, g2) := g_run g ops in
  0 ≤ c ∧ c + Z.max (GCRA.tat g) lo ≤ Z.max (GCRA.tat g2) lo ∧
  (GCRA.tat g2 = GCRA.tat g ∨ GCRA.tat g2 ≤ hi + GCRA.burst_ns g).
Proof.
  revert g; induction ops as [|[n now] ops IH]; intros g Hlo Hhi Hb Ht Hops; simpl; [lia|].
  apply Forall_cons in Hops as [[Hcost Hnow] Hops]; simpl in *.
  destruct (GCRA.acquire g n now) as [ok g1] eqn:Ea.
  assert (GCRA.burst_ns g1 = GCRA.burst_ns g ∧ (∀ k, GCRA.cost_ns g1 k = GCRA.cost_ns g k) ∧
    (if ok then GCRA.tat g1 = Z.max (GCRA.tat g) now + GCRA.cost_ns g n ∧
                GCRA.tat g1 ≤ now + GCRA.burst_ns g
     else GCRA.tat g1 = GCRA.tat g)) as (Eb & Ec & Hacq).
  { unfold GCRA.acquire in Ea.
    assert ((if GCRA.tat g <? now then now else GCRA.tat g) = Z.max (GCRA.tat g) now) as Emax
      by (zcases; lia). rewrite Emax in Ea.
    rewrite (i64_id (Z.max _ _ + _)), (i64_id (_ - now)) in Ea by (unfold_int; lia).
    rewrite Z.gtb_ltb in Ea.
    destruct (Z.ltb_spec (GCRA.burst_ns g) (Z.max (GCRA.tat g) now + GCRA.cost_ns g n - now));
      simplify_eq/=; split_and!; try done; lia. }
  specialize (IH g1 Hlo Hhi). rewrite Eb in IH.
  specialize (IH Hb ltac:(destruct ok; lia)).
  destruct (g_run g1 ops) as [c g2]. destruct IH as (IH0 & IH1 & IH2).
  { eapply Forall_impl; [exact Hops|]. intros [k t]. unfold g_op_ok. simpl. by rewrite Ec. }
  destruct ok; lia.
Qed.

(** ** Properties *)

(** The interface contract, for a value of every algorithm. Over any
    sequence of [TryAcquire] calls on an open limiter, whatever the clock, the
    counters are exact (modulo 2^64): Allowed counts the granted calls, Denied
    the refused ones, Acquired the tokens of granted calls only, so there is
    no partial acquisition; requests for [n <= 0] succeed and change nothing. *)
Theorem limiter_metrics_exact (l : Limiter) ops :
  is_closed l = false →
  let '(oks, l') := run l ops in
  is_closed l' = false ∧
  u64 (Allowed (Metrics l')) = u64 (Allowed (Metrics l) + granted_calls ops oks) ∧
  u64 (Denied (Metrics l')) = u64 (Denied (Metrics l) + refused_calls ops oks) ∧
  u64 (Acquired (Metrics l')) = u64 (Acquired (Metrics l) + granted ops oks).
Proof. apply run_metrics. Qed.

(** [Wait] honours Close, the context and the token count, for every
    algorithm. On a closed limiter it returns at once, with the context error
    if the context is done and ErrLimiterClosed otherwise, and changes
    nothing; while polling, a turn that observes a Close or a done context
    ends the wait; it returns nil only when exactly one token was acquired,
    and consumes none when it fails or is still waiting. *)
Theorem Wait_contract (l : Limiter) ctxDone now ps :
  let '(res, l') := Wait l ctxDone now ps in
  (is_closed l = true → res = Some (Err (closedWaitResult ctxDone)) ∧ l' = l) ∧
  (match res with
   | Some (Ok _) => Allowed (Metrics l') = u64 (Allowed (Metrics l) + 1) ∧
       Acquired (Metrics l') = u64 (Acquired (Metrics l) + 1)
   | _ => Allowed (Metrics l') = Allowed (Metrics l) ∧ Acquired (Metrics l') = Acquired (Metrics l)
   end) ∧
  (existsb interrupts ps = true → res ≠ None).
Proof.
  unfold Wait. destruct (is_closed l) eqn:Hc; [done|].
  rewrite law_allow. destruct (TryAcquire l 1 now) as [ok l1] eqn:E.
  pose proof (law_metrics l 1 now ok l1 ltac:(lia) Hc E) as Hm.
  destruct ok; [by rewrite Hm|].
  pose proof (wait_loop_spec l1 ps) as Hw. rewrite Hm in Hw.
  destruct (wait_loop l1 ps) as [res l2]. destruct Hw as [Hw1 Hw2]. split_and!; auto. done.
Qed.

(** The fixed window never grants more than its rate in one window. For
    any sequence of requests and any clock readings (regressions included)
    that stay clear of the int64 bound, the tokens granted in each window sum
    to at most the rate, and each grant falls inside its window. *)
Theorem fixed_window_cap rate window now0 ops :
  let fw := FixedWindow.newFixedWindow rate window now0 in
  rate ≤ max_i64 → window < 2 ^ 62 → - 2 ^ 62 ≤ now0 ≤ 2 ^ 62 →
  Forall (fw_op_ok fw) ops →
  let '(gs, _) := fw_run fw ops in
  (∀ s, granted_in s gs ≤ FixedWindow.rate fw) ∧
  Forall (λ g, g_now g < g_start g + FixedWindow.windowNs fw) gs.
Proof.
  cbv zeta. intros Hr Hw Hn Hops.
  assert (fw_inv (FixedWindow.newFixedWindow rate window now0)) as Hi.
  { unfold fw_inv, FixedWindow.newFixedWindow, Second; simpl. zcases; unfold_int; lia. }
  pose proof (fw_run_spec _ ops Hi Hops) as H.
  destruct (fw_run _ ops) as [gs fw2]. destruct H as (H1 & H2). split.
  - intros s. specialize (H2 s). destruct Hi as (? & _). revert H2. zcases; simpl; lia.
  - eapply Forall_impl; [exact H1|]. simpl. tauto.
Qed.

(** C12: the sliding window limiter implements its specification on the log of
    granted events: a request is granted exactly when the events of the last
    [n] seconds plus the request stay within the rate, a grant is added to the
    log at the current second, and a refusal leaves the log unchanged; clock
    regressions never forget events. *)
Theorem sliding_window_refines n sw log k now :
  ring_refines n (SlidingWindow.ring sw) log →
  let sec := Z.max (base (SlidingWindow.ring sw)) (now / Second) in
  let fits := f64_le (f64_add (f64_of_Z (in_window n sec log)) (f64_of_Z k)) (SlidingWindow.rate sw) in
  let '(ok, sw') := SlidingWindow.acquire sw k now in
  ok = fits ∧ ring_refines n (SlidingWindow.ring sw') (if fits then (sec, k) :: log else log).
Proof.
  intros H. cbv zeta. unfold SlidingWindow.acquire.
  pose proof (ring_refines_advance _ _ _ (now / Second) H) as Ha.
  pose proof (advance_base _ _ _ (now / Second) H) as Hb.
  rewrite (ring_sum_window _ _ _ Ha), Hb.
  destruct (f64_le _ _); simpl; [ |done]. split; [done|]. rewrite <- Hb.
  apply ring_refines_charge; [done|]. rewrite Hb. lia.
Qed.

(** GCRA conformance. Over any run of requests (granted or refused) with
    clock readings between [lo] and [hi], the emission time of the granted
    tokens is at most the elapsed time plus the burst allowance. *)
Theorem gcra_conformance g lo hi ops :
  0 ≤ lo ≤ hi → hi ≤ 2 ^ 61 → 0 ≤ GCRA.burst_ns g ≤ 2 ^ 60 → GCRA.tat g ≤ 2 ^ 62 →
  Forall (g_op_ok g lo hi) ops →
  0 ≤ fst (g_run g ops) ≤ hi - lo + GCRA.burst_ns g.
Proof.
  intros Hlo Hhi Hb Ht Hops. pose proof (g_run_spec g lo hi ops ltac:(lia) Hhi Hb Ht Hops) as H.
  destruct (g_run g ops) as [c g2]. simpl. lia.
Qed.

(** ** Witnesses *)

Definition ex_fw : Limiter := LFixedWindow (FixedWindow.newFixedWindow 2 Second 0).

Lemma limiter_metrics_exact_witness :
  u64 (Acquired (Metrics (snd (run ex_fw [(1, 5); (2, 6); (1, 7)])))) = 2.
Proof.
  pose proof (limiter_metrics_exact ex_fw [(1, 5); (2, 6); (1, 7)] eq_refl) as H.
  vm_compute in H |- *. tauto.
Defined.

Lemma fixed_window_cap_witness :
  granted_in 0 (fst (fw_run (FixedWindow.newFixedWindow 2 Second 0) [(1, 5); (2, 6); (1, 7)])) ≤ 2.
Proof.
  pose proof (fixed_window_cap 2 Second 0 [(1, 5); (2, 6); (1, 7)]) as H. cbv zeta in H.
  destruct (fw_run _ _) as [gs fw2]. simpl fst.
  apply H; [mint|unfold Second; lia|lia|].
  repeat constructor; simpl; unfold max_i64; lia.
Defined.

Lemma sliding_window_refines_witness :
  fst (SlidingWindow.acquire (SlidingWindow.newSlidingWindow (f64_of_Z 3) (2 * Second) 0) 1 Second)
  = true.
Proof.
  pose proof (sliding_window_refines 2 (SlidingWindow.newSlidingWindow (f64_of_Z 3) (2 * Second) 0)
    [] 1 Second (ring_refines_new 2 0 ltac:(lia) ltac:(lia))) as H.
  cbv zeta in H. destruct (SlidingWindow.acquire _ _ _) as [ok sw']. simpl fst.
  destruct H as [-> _]. vm_compute. reflexivity.
Defined.

Lemma gcra_conformance_witness :
  0 ≤ fst (g_run (GCRA.newGCRA (f64_of_Z 10) 2) [(1, Second); (1, Second); (1, Second)])
    ≤ Second - Second + 200000000.
Proof.
  apply (gcra_conformance (GCRA.newGCRA (f64_of_Z 10) 2) Second Second);
    [unfold Second; lia|unfold Second; lia| |vm_compute; discriminate|].
  - split; vm_compute; discriminate.
  - repeat constructor; vm_compute; discriminate.
Defined.

(** A request near MaxInt64 after one grant wraps the counter: it is granted
    in full and leaves the counter negative. *)
Example fixed_window_wraps :
  let fw := snd (FixedWindow.acquire (FixedWindow.newFixedWindow 2 Second 0) 1 1) in
  let '(ok, fw') := FixedWindow.acquire fw max_i64 2 in
  ok = true ∧ FixedWindow.count fw' = min_i64.
Proof. vm_compute. auto. Qed.
