(* ===== verification/LimiterRace.v ===== *)
(** * LimiterRace: the fixed window under concurrent callers

    [fixedWindow.acquire] of src/limiter/fixed_window.go is lock-free: it loads
    and compare-and-swaps [windowStart] and [count] separately.  Here each caller
    is a program counter between two atomic operations, and any caller may move.

    For callers that run one after the other, Limiter.v proves that no window
    grants more than [rate].  Concurrently that fails: the caller that advances
    the window stores zero into [count] only afterwards, and erases what another
    caller was granted in the new window in between. *)

From Stdlib Require Import ZArith Lia.
From stdpp Require Import base tactics numbers list relations.
From S2P Require Import Prelude Limiter.

#[local] Open Scope Z_scope.

(** Shared words; [log]: the grants, with the window they were made in. *)
Record shared := mkShared {
  rate : Z; windowNs : Z; count : Z; windowStart : Z; log : list (Z * Z) }.

(** Where a caller of [acquire(n)] with clock reading [now] is; [last] tells the
    second of the two attempts. *)
Inductive pc :=
| LoadStart (last : bool)             (** [start := windowStart.Load()] and its test *)
| CasStart (last : bool) (start : Z)  (** [windowStart.CompareAndSwap(start, now)] *)
| StoreZero (last : bool)             (** [count.Store(0)] *)
| LoadCount (last : bool)             (** [cur := count.Load()] and its test *)
| CasCount (last : bool) (cur : Z)    (** [count.CompareAndSwap(cur, cur+n)] *)
| Returned (ok : bool).

Definition retry (last : bool) : pc := if last then Returned false else LoadStart true.

(** One atomic operation of a caller. *)
Definition move (g : shared) (n now : Z) (p : pc) : shared * pc :=
  match p with
  | LoadStart last =>
      (g, if i64 (windowStart g + windowNs g) <=? now then CasStart last (windowStart g) else LoadCount last)
  | CasStart last start =>
      if windowStart g =? start
      then (mkShared (rate g) (windowNs g) (count g) now (log g), StoreZero last)
      else (g, retry last)
  | StoreZero last => (mkShared (rate g) (windowNs g) 0 (windowStart g) (log g), LoadCount last)
  | LoadCount last =>
      (g, if i64 (count g + n) >? rate g then Returned false else CasCount last (count g))
  | CasCount last cur =>
      if count g =? cur
      then (mkShared (rate g) (windowNs g) (i64 (cur + n)) (windowStart g) ((windowStart g, n) :: log g),
            Returned true)
      else (g, retry last)
  | Returned ok => (g, p)
  end.

Record caller := mkCaller { want : Z; clock : Z; at_ : pc }.
Record sys := mkSys { sh : shared; callers : list caller }.

Inductive step : sys → sys → Prop :=
| step_caller g l1 c l2 :
    step (mkSys g (l1 ++ c :: l2))
      (let '(g', p) := move g (want c) (clock c) (at_ c) in
       mkSys g' (l1 ++ mkCaller (want c) (clock c) p :: l2)).

Definition granted_in (start : Z) (lg : list (Z * Z)) : Z :=
  zsum ((λ e, if e.1 =? start then e.2 else 0) <$> lg).

(** Moving a caller [k] times. *)
Fixpoint moves (k : nat) (n now : Z) (gp : shared * pc) : shared * pc :=
  match k with O => gp | S k => moves k n now (move gp.1 n now gp.2) end.

Lemma moves_steps k l1 c l2 g :
  rtc step (mkSys g (l1 ++ c :: l2))
    (let '(g', p) := moves k (want c) (clock c) (g, at_ c) in
     mkSys g' (l1 ++ mkCaller (want c) (clock c) p :: l2)).
Proof.
  revert g c. induction k as [|k IH]; intros g [n now p]; [done|]. cbn [moves want clock at_ fst snd].
  pose proof (step_caller g l1 (mkCaller n now p) l2) as Hs. cbn [want clock at_] in Hs.
  destruct (move g n now p) as [g' p']. eapply rtc_l; [exact Hs|]. apply (IH g' (mkCaller n now p')).
Qed.

(** A caller that runs alone to its end does what the sequential model of
    [acquire] says. *)
Lemma alone_refines (fw : FixedWindow.t) n now
    (g := mkShared (FixedWindow.rate fw) (FixedWindow.windowNs fw) (FixedWindow.count fw)
            (FixedWindow.windowStart fw) [])
    (r := FixedWindow.acquire fw n now) (out := moves 5 n now (g, LoadStart false)) :
  out.2 = Returned r.1 ∧ count out.1 = FixedWindow.count r.2 ∧
  windowStart out.1 = FixedWindow.windowStart r.2.
Proof.
  subst g r out. unfold FixedWindow.acquire. cbn [moves move fst snd windowStart windowNs].
  destruct (_ <=? now); cbn [moves move fst snd windowStart windowNs count rate
    FixedWindow.count FixedWindow.rate]; rewrite ?Z.eqb_refl;
    cbn [moves move fst snd windowStart windowNs count rate];
    destruct (_ >? _); cbn [moves move fst snd windowStart windowNs count rate]; rewrite ?Z.eqb_refl; done.
Qed.

(** With a rate of one per window and two callers in the same new window, both
    are granted. *)
Example fixed_window_race_overadmits : ∃ s,
  rtc step (mkSys (mkShared 1 Second 0 0 []) [mkCaller 1 Second (LoadStart false);
                                              mkCaller 1 Second (LoadStart false)]) s ∧
  Forall (λ c, at_ c = Returned true) (callers s) ∧
  granted_in (windowStart (sh s)) (log (sh s)) = 2 ∧ rate (sh s) = 1.
Proof.
  set (A := mkCaller 1 Second (LoadStart false)).
  eexists. split.
  - (* A wins the new window but has not reset the count yet *)
    etrans; [apply (moves_steps 2 [] A [A])|]. cbn.
    (* B is granted in the new window *)
    etrans; [apply (moves_steps 3 [_] A [])|]. cbn.
    (* A resets the count and is granted too *)
    apply (moves_steps 3 [] (mkCaller 1 Second (StoreZero false)) [_]).
  - vm_compute. split_and!; [|done|done]. by repeat constructor.
Qed.
