(* ===== verification/Lru.v ===== *)
(** * Lru: the bounded LRU cache with TTL of [lru/lru.go]

    The cache keeps a doubly linked list of elements (front is the most
    recently used) and a map from keys to elements; both point to the same
    heap-allocated entries, which [set] mutates in place.  The model keeps the
    element heap [store], the list of element ids [ll] and the map [items], so
    that the agreement of list and map is a theorem and not built in.

    The specification is an association list in recency order; [lru_refines]
    proves that every operation of the cache implements it, results and
    eviction callbacks included, whatever order the Go runtime chooses for
    ranging over the map. *)

From stdpp Require Import base tactics numbers list gmap relations.
From S2P Require Import Prelude.

#[local] Open Scope Z_scope.

Section lru.
Context {K V : Type} `{Countable K}.

(** ** Data *)

(** [expiresAt]: [None] is the zero time, "no expiry". *)
Record entry := mkEntry { key : K; value : V; expiresAt : option Z }.

Definition expired (now : Z) (e : entry) : bool :=
  match expiresAt e with Some t => t <? now | None => false end.

(** [onEvicted]: whether a callback is installed. *)
Record Cache := mkCache {
  ll : list nat; store : gmap nat entry; items : gmap K nat; fresh : nat;
  maxSize : Z; ttl : Z; onEvicted : bool }.

Definition set_ll (c : Cache) (l : list nat) : Cache :=
  mkCache l (store c) (items c) (fresh c) (maxSize c) (ttl c) (onEvicted c).

Definition New (maxSize ttl : Z) (onEvicted : bool) : Cache :=
  mkCache [] ∅ ∅ 0 maxSize ttl onEvicted.

(** ** Operations *)

(** container/list: unlinking an element. *)
Definition unlink (i : nat) (l : list nat) : list nat := filter (λ j, j ≠ i) l.

Definition MoveToFront (c : Cache) (i : nat) : Cache := set_ll c (i :: unlink i (ll c)).

Definition removeElement (c : Cache) (i : nat) (evicted : list (K * V)) : Cache * list (K * V) :=
  match store c !! i with
  | None => (c, evicted)
  | Some e =>
      (mkCache (unlink i (ll c)) (store c) (delete (key e) (items c)) (fresh c)
         (maxSize c) (ttl c) (onEvicted c),
       if onEvicted c then evicted ++ [(key e, value e)] else evicted)
  end.

Definition evict (c : Cache) (evicted : list (K * V)) : Cache * list (K * V) :=
  match last (ll c) with
  | None => (c, evicted)
  | Some i => removeElement c i evicted
  end.

(** The callbacks fired, in order. *)
Definition fireEvicted (c : Cache) (evicted : list (K * V)) : list (K * V) :=
  if onEvicted c then evicted else [].

Definition set (c : Cache) (k : K) (v : V) (d now : Z) : Cache * list (K * V) :=
  let exp := if 0 <? d then Some (now + d) else None in
  match items c !! k with
  | Some i =>
      let c := MoveToFront c i in
      (mkCache (ll c) (alter (λ e, mkEntry (key e) v exp) i (store c)) (items c) (fresh c)
         (maxSize c) (ttl c) (onEvicted c), fireEvicted c [])
  | None =>
      let i := fresh c in
      let c := mkCache (i :: ll c) (<[i := mkEntry k v exp]> (store c)) (<[k := i]> (items c))
                 (S i) (maxSize c) (ttl c) (onEvicted c) in
      let '(c, evicted) :=
        if (0 <? maxSize c) && (maxSize c <? Z.of_nat (length (ll c))) then evict c [] else (c, []) in
      (c, fireEvicted c evicted)
  end.

Definition Set_ (c : Cache) (k : K) (v : V) (now : Z) : Cache * list (K * V) :=
  set c k v (ttl c) now.

Definition SetWithTTL (c : Cache) (k : K) (v : V) (d now : Z) : Cache * list (K * V) :=
  set c k v d now.

Definition Get (c : Cache) (k : K) (now : Z) : option V * Cache * list (K * V) :=
  match items c !! k ≫= λ i, (i,.) <$> store c !! i with
  | None => (None, c, [])
  | Some (i, e) =>
      if expired now e then
        let '(c, evicted) := removeElement c i [] in (None, c, fireEvicted c evicted)
      else (Some (value e), MoveToFront c i, [])
  end.

Definition Peek (c : Cache) (k : K) (now : Z) : option V * Cache * list (K * V) :=
  match items c !! k ≫= λ i, (i,.) <$> store c !! i with
  | None => (None, c, [])
  | Some (i, e) =>
      if expired now e then
        let '(c, evicted) := removeElement c i [] in (None, c, fireEvicted c evicted)
      else (Some (value e), c, [])
  end.

Definition Contains (c : Cache) (k : K) (now : Z) : bool * Cache * list (K * V) :=
  let '(v, c, evs) := Peek c k now in (bool_decide (is_Some v), c, evs).

Definition Delete (c : Cache) (k : K) : bool * Cache * list (K * V) :=
  match items c !! k with
  | None => (false, c, [])
  | Some i => let '(c, evicted) := removeElement c i [] in (true, c, fireEvicted c evicted)
  end.

(** [for _, el := range c.items { if p(el) { removeElement(el); removed++ } }]:
    [order] is the order in which the runtime visits the keys.  A key that is
    no longer in the map when its turn comes is not produced. *)
Fixpoint sweep (p : entry → bool) (order : list K) (c : Cache) (removed : Z)
    (evicted : list (K * V)) : Cache * Z * list (K * V) :=
  match order with
  | [] => (c, removed, evicted)
  | k :: order =>
      match items c !! k ≫= λ i, (i,.) <$> store c !! i with
      | None => sweep p order c removed evicted
      | Some (i, e) =>
          if p e then
            let '(c, evicted) := removeElement c i evicted in
            sweep p order c (removed + 1) evicted
          else sweep p order c removed evicted
      end
  end.

Definition DeleteExpired (c : Cache) (now : Z) (order : list K) : Z * Cache * list (K * V) :=
  let '(c, removed, evicted) := sweep (expired now) order c 0 [] in
  (removed, c, fireEvicted c evicted).

Definition Purge (c : Cache) (order : list K) : Cache * list (K * V) :=
  let '(c, _, evicted) := sweep (λ _, true) order c 0 [] in (c, fireEvicted c evicted).

Definition Len (c : Cache) : Z := Z.of_nat (length (ll c)).

Definition Keys (c : Cache) : list K := key <$> omap (λ i, store c !! i) (ll c).

(** The loop of [Resize]; one unit of fuel per turn. *)
Fixpoint shrink_loop (fuel : nat) (c : Cache) (count : Z) (evicted : list (K * V)) :
    Cache * Z * list (K * V) :=
  match fuel with
  | O => (c, count, evicted)
  | S fuel =>
      if (0 <? maxSize c) && (maxSize c <? Z.of_nat (length (ll c))) then
        let '(c, evicted) := evict c evicted in shrink_loop fuel c (count + 1) evicted
      else (c, count, evicted)
  end.

Definition Resize (c : Cache) (n : Z) : Z * Cache * list (K * V) :=
  let c := mkCache (ll c) (store c) (items c) (fresh c) n (ttl c) (onEvicted c) in
  if n <=? 0 then (0, c, [])
  else
    let '(c, count, evicted) := shrink_loop (length (ll c)) c 0 [] in
    (count, c, fireEvicted c evicted).

(** ** The interface as one step function *)

Inductive op :=
| OSet (k : K) (v : V) (now : Z)
| OSetWithTTL (k : K) (v : V) (d now : Z)
| OGet (k : K) (now : Z)
| OPeek (k : K) (now : Z)
| OContains (k : K) (now : Z)
| ODelete (k : K)
| ODeleteExpired (now : Z) (order : list K)
| OPurge (order : list K)
| OLen
| OKeys
| OResize (n : Z).

Inductive reply :=
| RNone | RVal (v : option V) | RBool (b : bool) | RInt (n : Z) | RKeys (ks : list K).

Definition step (c : Cache) (o : op) : reply * Cache * list (K * V) :=
  match o with
  | OSet k v now => let '(c, evs) := Set_ c k v now in (RNone, c, evs)
  | OSetWithTTL k v d now => let '(c, evs) := SetWithTTL c k v d now in (RNone, c, evs)
  | OGet k now => let '(r, c, evs) := Get c k now in (RVal r, c, evs)
  | OPeek k now => let '(r, c, evs) := Peek c k now in (RVal r, c, evs)
  | OContains k now => let '(r, c, evs) := Contains c k now in (RBool r, c, evs)
  | ODelete k => let '(r, c, evs) := Delete c k in (RBool r, c, evs)
  | ODeleteExpired now order => let '(r, c, evs) := DeleteExpired c now order in (RInt r, c, evs)
  | OPurge order => let '(c, evs) := Purge c order in (RNone, c, evs)
  | OLen => (RInt (Len c), c, [])
  | OKeys => (RKeys (Keys c), c, [])
  | OResize n => let '(r, c, evs) := Resize c n in (RInt r, c, evs)
  end.

(** Ranging over the map visits every key once, in some order. *)
Definition order_ok (c : Cache) (o : op) : Prop :=
  match o with
  | ODeleteExpired _ order | OPurge order => order ≡ₚ (map_to_list (items c)).*1
  | _ => True
  end.

(** A history: operations with their replies and callbacks. *)
Inductive hist : Cache → list (op * reply * list (K * V)) → Cache → Prop :=
| hist_nil c : hist c [] c
| hist_cons c o r c1 evs tr c2 :
    order_ok c o → step c o = (r, c1, evs) → hist c1 tr c2 → hist c ((o, r, evs) :: tr) c2.

(** Running a list of operations, and the side condition on ranging. *)
Fixpoint run (c : Cache) (ops : list op) : list (op * reply * list (K * V)) * Cache :=
  match ops with
  | [] => ([], c)
  | o :: ops =>
      let '(r, c, evs) := step c o in
      let '(tr, c) := run c ops in ((o, r, evs) :: tr, c)
  end.

Fixpoint orders_ok (c : Cache) (ops : list op) : Prop :=
  match ops with
  | [] => True
  | o :: ops => order_ok c o ∧ orders_ok (step c o).1.2 ops
  end.

Lemma run_hist c ops : orders_ok c ops → hist c (run c ops).1 (run c ops).2.
Proof.
  revert c. induction ops as [|o ops IH]; intros c; cbn; [constructor|]. intros [Ho Hops].
  destruct (step c o) as [[r c1] evs] eqn:Hs. cbn in Hops. specialize (IH c1 Hops).
  destruct (run c1 ops) as [tr c2]. by econstructor.
Qed.

(** ** Specification: an association list in recency order *)

Definition find_key (k : K) (l : list entry) : option entry :=
  snd <$> list_find (λ e, key e = k) l.
Definition drop_key (k : K) (l : list entry) : list entry := filter (λ e, key e ≠ k) l.
Definition kv (e : entry) : K * V := (key e, value e).

(** Keep the [n] most recent entries ([n <= 0]: all); the rest leaves, the
    least recent first. *)
Definition spec_shrink (n : Z) (l : list entry) : list entry * list (K * V) :=
  if 0 <? n then (take (Z.to_nat n) l, kv <$> reverse (drop (Z.to_nat n) l)) else (l, []).

Definition spec_set (n : Z) (l : list entry) (k : K) (v : V) (d now : Z) :
    list entry * list (K * V) :=
  spec_shrink n (mkEntry k v (if 0 <? d then Some (now + d) else None) :: drop_key k l).

(** A lookup; [promote] tells [Get] from [Peek]. *)
Definition spec_get (promote : bool) (l : list entry) (k : K) (now : Z) :
    option V * list entry * list (K * V) :=
  match find_key k l with
  | None => (None, l, [])
  | Some e =>
      if expired now e then (None, drop_key k l, [kv e])
      else (Some (value e), if promote then e :: drop_key k l else l, [])
  end.

Definition spec_delete (l : list entry) (k : K) : bool * list entry * list (K * V) :=
  match find_key k l with
  | None => (false, l, [])
  | Some e => (true, drop_key k l, [kv e])
  end.

Definition spec_sweep (p : entry → bool) (order : list K) (l : list entry) :
    list entry * list (K * V) :=
  (filter (λ e, p e = false) l,
   omap (λ k, e ← find_key k l; if p e then Some (kv e) else None) order).

(** The specification's state: the list and the bound. *)
Definition spec_step (ttl : Z) (s : list entry * Z) (o : op) :
    reply * (list entry * Z) * list (K * V) :=
  let '(l, n) := s in
  match o with
  | OSet k v now => let '(l, evs) := spec_set n l k v ttl now in (RNone, (l, n), evs)
  | OSetWithTTL k v d now => let '(l, evs) := spec_set n l k v d now in (RNone, (l, n), evs)
  | OGet k now => let '(r, l, evs) := spec_get true l k now in (RVal r, (l, n), evs)
  | OPeek k now => let '(r, l, evs) := spec_get false l k now in (RVal r, (l, n), evs)
  | OContains k now =>
      let '(r, l, evs) := spec_get false l k now in (RBool (bool_decide (is_Some r)), (l, n), evs)
  | ODelete k => let '(r, l, evs) := spec_delete l k in (RBool r, (l, n), evs)
  | ODeleteExpired now order =>
      let '(l, evs) := spec_sweep (expired now) order l in
      (RInt (Z.of_nat (length evs)), (l, n), evs)
  | OPurge order => let '(l, evs) := spec_sweep (λ _, true) order l in (RNone, (l, n), evs)
  | OLen => (RInt (Z.of_nat (length l)), (l, n), [])
  | OKeys => (RKeys (key <$> l), (l, n), [])
  | OResize n =>
      let '(l, evs) := spec_shrink n l in (RInt (Z.of_nat (length evs)), (l, n), evs)
  end.

Fixpoint spec_run (ttl : Z) (s : list entry * Z) (ops : list op) :
    list (reply * list (K * V)) * (list entry * Z) :=
  match ops with
  | [] => ([], s)
  | o :: ops =>
      let '(r, s, evs) := spec_step ttl s o in
      let '(rs, s) := spec_run ttl s ops in ((r, evs) :: rs, s)
  end.

(** ** Invariant *)

Record linv (c : Cache) : Prop := {
  inv_nodup : NoDup (ll c);
  inv_list : ∀ i, i ∈ ll c → ∃ e, store c !! i = Some e ∧ items c !! key e = Some i;
  inv_items : ∀ k i, items c !! k = Some i → i ∈ ll c ∧ ∃ e, store c !! i = Some e ∧ key e = k;
  inv_fresh : ∀ i, i ∈ ll c → (i < fresh c)%nat;
}.

Definition bounded (c : Cache) : Prop := 0 < maxSize c → Z.of_nat (length (ll c)) ≤ maxSize c.

Definition abs (c : Cache) : list entry := omap (λ i, store c !! i) (ll c).

(** ** Lemmas on the specification's list *)

Lemma find_key_cons k e l :
  find_key k (e :: l) = if decide (key e = k) then Some e else find_key k l.
Proof.
  unfold find_key. cbn. case_decide; [done|]. by destruct (list_find _ l) as [[? ?]|].
Qed.

Lemma find_key_Some k l e : find_key k l = Some e → e ∈ l ∧ key e = k.
Proof.
  induction l as [|x l IH]; [done|]. rewrite find_key_cons.
  case_decide; intros; simplify_eq; set_solver.
Qed.

Lemma find_key_None k l : find_key k l = None ↔ k ∉ key <$> l.
Proof.
  induction l as [|x l IH]; [set_solver|]. rewrite find_key_cons, fmap_cons, not_elem_of_cons.
  case_decide; [naive_solver|]. rewrite IH. naive_solver.
Qed.

Lemma find_key_unique k l e : NoDup (key <$> l) → e ∈ l → key e = k → find_key k l = Some e.
Proof.
  intros Hnd Hin <-. induction l as [|x l IH]; [set_solver|].
  rewrite find_key_cons. rewrite fmap_cons in Hnd. apply NoDup_cons in Hnd as [Hx Hnd].
  apply elem_of_cons in Hin as [->|Hin]; [by rewrite decide_True|].
  rewrite decide_False; [auto|]. intros Hk. apply Hx. rewrite Hk. by apply list_elem_of_fmap_2.
Qed.

Lemma drop_key_notin k l : k ∉ key <$> l → drop_key k l = l.
Proof.
  induction l as [|x l IH]; [done|]. rewrite fmap_cons, not_elem_of_cons. intros [??].
  unfold drop_key. rewrite filter_cons_True by congruence. f_equal. by apply IH.
Qed.

Lemma drop_key_nodup k l : NoDup (key <$> l) → NoDup (key <$> drop_key k l).
Proof.
  induction l as [|x l IH]; [done|]. rewrite fmap_cons. intros [Hx Hnd]%NoDup_cons.
  unfold drop_key in *. rewrite filter_cons. case_decide; [|by apply IH].
  rewrite fmap_cons. apply NoDup_cons. split; [|by apply IH].
  intros (y & Hy & [_ Hin]%list_elem_of_filter)%list_elem_of_fmap. apply Hx. rewrite Hy.
  by apply list_elem_of_fmap_2.
Qed.

Lemma drop_key_last l e : NoDup (key <$> l ++ [e]) → drop_key (key e) (l ++ [e]) = l.
Proof.
  rewrite fmap_app. intros (_ & Hd & _)%NoDup_app. unfold drop_key.
  rewrite filter_app, filter_cons_False, filter_nil, app_nil_r by auto.
  apply drop_key_notin. intros Hin. apply (Hd _ Hin). set_solver.
Qed.

(** ** Lemmas relating heap, list and map *)

Lemma abs_elem c e : linv c → e ∈ abs c → ∃ i, items c !! key e = Some i ∧ store c !! i = Some e.
Proof.
  intros Hc [i [Hi He]]%list_elem_of_omap.
  destruct (inv_list c Hc i Hi) as (e' & He' & Hk). simplify_eq. eauto.
Qed.

Lemma abs_nodup c : linv c → NoDup (key <$> abs c).
Proof.
  intros Hc. unfold abs.
  cut (∀ l, NoDup l → (∀ i, i ∈ l → i ∈ ll c) → NoDup (key <$> omap (λ i, store c !! i) l)).
  { intros Hl. apply Hl; [apply (inv_nodup c Hc)|done]. }
  induction 1 as [|i l Hi Hnd IH]; intros Hsub; [constructor|]. cbn.
  destruct (inv_list c Hc i) as (e & He & Hk); [set_solver|]. rewrite He. cbn.
  apply NoDup_cons. split; [|apply IH; set_solver].
  intros (e' & Hee & (j & Hj & Hst)%list_elem_of_omap)%list_elem_of_fmap.
  destruct (inv_list c Hc j) as (e2 & He2 & Hk2); [set_solver|]. naive_solver congruence.
Qed.

Lemma abs_find c k : linv c →
  find_key k (abs c) = items c !! k ≫= λ i, store c !! i.
Proof.
  intros Hc. destruct (items c !! k) as [i|] eqn:Hi; cbn.
  - destruct (inv_items c Hc k i Hi) as (Hin & e & He & Hk). rewrite He.
    apply find_key_unique; [by apply abs_nodup| |done].
    apply list_elem_of_omap. eauto.
  - apply find_key_None. intros (e & -> & He)%list_elem_of_fmap.
    apply abs_elem in He as (i & ? & ?); [congruence|done].
Qed.

Lemma abs_length c : linv c → length (abs c) = length (ll c).
Proof.
  intros Hc. unfold abs.
  cut (∀ l, (∀ i, i ∈ l → i ∈ ll c) → length (omap (λ i, store c !! i) l) = length l).
  { intros Hl. by apply Hl. }
  induction l as [|i l IH]; intros Hsub; [done|]. cbn.
  destruct (inv_list c Hc i) as (e & -> & _); [set_solver|]. cbn. rewrite IH; set_solver.
Qed.

Lemma omap_cons_Some {A B} (f : A → option B) x y l :
  f x = Some y → omap f (x :: l) = y :: omap f l.
Proof. cbn. by intros ->. Qed.

Lemma abs_unlink c i e : linv c → store c !! i = Some e → items c !! key e = Some i →
  omap (λ i, store c !! i) (unlink i (ll c)) = drop_key (key e) (abs c).
Proof.
  intros Hc He Hi. unfold abs.
  cut (∀ l, (∀ j, j ∈ l → j ∈ ll c) →
    omap (λ i, store c !! i) (unlink i l) = drop_key (key e) (omap (λ i, store c !! i) l)).
  { intros Hl. by apply Hl. }
  induction l as [|j l IH]; intros Hsub; [done|]. unfold unlink, drop_key in *.
  destruct (inv_list c Hc j) as (e' & He' & Hk); [set_solver|].
  destruct (decide (j = i)) as [->|Hj].
  - rewrite filter_cons_False by naive_solver. rewrite (omap_cons_Some _ i e) by done.
    rewrite filter_cons_False by naive_solver. apply IH. set_solver.
  - rewrite filter_cons_True by done. rewrite !(omap_cons_Some _ j e') by done.
    rewrite filter_cons_True by congruence. f_equal. apply IH. set_solver.
Qed.

Lemma unlink_elem i j l : j ∈ unlink i l ↔ j ∈ l ∧ j ≠ i.
Proof. unfold unlink. rewrite list_elem_of_filter. naive_solver. Qed.

Lemma MoveToFront_inv c i k : linv c → items c !! k = Some i → linv (MoveToFront c i).
Proof.
  intros [Hnd Hl Hi Hf] Hk. destruct (Hi k i Hk) as (Hin & e & He & Hke).
  split; cbn.
  - apply NoDup_cons. split; [rewrite unlink_elem; naive_solver|by apply NoDup_filter].
  - intros j. rewrite elem_of_cons, unlink_elem. naive_solver.
  - intros k' j Hj. rewrite elem_of_cons, unlink_elem. destruct (decide (j = i)); naive_solver.
  - intros j. rewrite elem_of_cons, unlink_elem. naive_solver.
Qed.

Lemma MoveToFront_abs c i e : linv c → store c !! i = Some e → items c !! key e = Some i →
  abs (MoveToFront c i) = e :: drop_key (key e) (abs c).
Proof. intros Hc He Hi. cbn. rewrite He. cbn. f_equal. by apply abs_unlink. Qed.

(** What a removal does to the state, and to the pending callbacks. *)
Lemma removeElement_spec c i e evs (c' := (removeElement c i evs).1) :
  linv c → store c !! i = Some e → items c !! key e = Some i →
  linv c' ∧ abs c' = drop_key (key e) (abs c) ∧ maxSize c' = maxSize c ∧
  ttl c' = ttl c ∧ onEvicted c' = onEvicted c ∧
  items c' = delete (key e) (items c) ∧ store c' = store c ∧ ll c' = unlink i (ll c) ∧
  (removeElement c i evs).2 = if onEvicted c then evs ++ [kv e] else evs.
Proof.
  intros Hc He Hi. pose proof Hc as [Hnd Hl Hit Hf]. subst c'. unfold removeElement. rewrite He. cbn.
  split; [split; cbn|split_and!; try done; by apply abs_unlink].
  - by apply NoDup_filter.
  - intros j [Hj Hji]%unlink_elem. destruct (Hl j Hj) as (e' & He' & Hk').
    exists e'. split; [done|]. rewrite lookup_delete_ne by congruence. done.
  - intros k j [Hk Hj]%lookup_delete_Some. rewrite unlink_elem.
    destruct (Hit k j Hj) as (Hjl & e' & He' & Hke). naive_solver.
  - intros j [? _]%unlink_elem. auto.
Qed.

(** Evicting takes the last entry of the recency list. *)
Lemma evict_spec c l e evs (c' := (evict c evs).1) :
  linv c → abs c = l ++ [e] →
  linv c' ∧ abs c' = l ∧ maxSize c' = maxSize c ∧ ttl c' = ttl c ∧ onEvicted c' = onEvicted c ∧
  S (length (ll c')) = length (ll c) ∧
  (evict c evs).2 = if onEvicted c then evs ++ [kv e] else evs.
Proof.
  intros Hc Habs. subst c'. unfold evict.
  pose proof (abs_length c Hc) as Hlen. pose proof (abs_nodup c Hc) as Hnd.
  destruct (ll c) as [|i0 l0 _] eqn:Hll using rev_ind;
    [rewrite Habs, length_app in Hlen; cbn in Hlen; lia|].
  rewrite last_snoc.
  destruct (inv_list c Hc i0) as (e' & He' & Hk'); [rewrite Hll; set_solver|].
  assert (e' = e) as ->.
  { unfold abs in Habs. rewrite Hll, omap_app in Habs. cbn in Habs. rewrite He' in Habs.
    by apply app_inj_tail in Habs as [_ ?]. }
  destruct (removeElement_spec c i0 e evs Hc He' Hk') as (? & Ha & ? & ? & ? & ? & ? & Hl & ?).
  assert (drop_key (key e) (abs c) = l) as Hd by (rewrite Habs in *; by apply drop_key_last).
  assert (length (ll (removeElement c i0 evs).1) = length l) as Hl'.
  { rewrite <-abs_length by done. by rewrite Ha, Hd. }
  split_and!; try done; [congruence|].
  rewrite Hl', <-Hll, <-abs_length, Habs, length_app by done. cbn. lia.
Qed.

Lemma shrink_loop_spec fuel c count evs :
  linv c → 0 < maxSize c → (length (ll c) ≤ fuel)%nat →
  let l := abs c in let n := Z.to_nat (maxSize c) in
  let '(c', count', evs') := shrink_loop fuel c count evs in
  linv c' ∧ abs c' = take n l ∧ maxSize c' = maxSize c ∧ ttl c' = ttl c ∧
  onEvicted c' = onEvicted c ∧ count' = count + Z.of_nat (length (drop n l)) ∧
  evs' = if onEvicted c then evs ++ (kv <$> reverse (drop n l)) else evs.
Proof.
  revert c count evs. induction fuel as [|fuel IH]; intros c count evs Hc Hn Hf; cbn -[abs].
  { pose proof (abs_length c Hc). assert (abs c = []) as -> by (apply nil_length_inv; lia).
    rewrite take_nil, drop_nil. cbn. rewrite app_nil_r. split_and!; try done; try lia.
    by destruct (onEvicted c). }
  pose proof (abs_length c Hc) as Hlen.
  destruct (Z.ltb_spec (maxSize c) (Z.of_nat (length (ll c)))) as [Hlt|Hge]; cycle 1.
  { rewrite andb_false_r. rewrite take_ge, drop_ge by lia. cbn. rewrite app_nil_r.
    split_and!; try done; try lia. by destruct (onEvicted c). }
  destruct (Z.ltb_spec 0 (maxSize c)); [cbn -[abs]|lia].
  destruct (abs c) as [|e l _] eqn:Habs using rev_ind; [cbn in Hlen; lia|].
  rewrite length_app in Hlen. cbn in Hlen.
  destruct (evict_spec c l e evs Hc Habs) as (Hc' & Ha & Hm & Ht & Ho & Hl' & He).
  destruct (evict c evs) as [c1 evs1]. cbn in *.
  specialize (IH c1 (count + 1) evs1 Hc'). rewrite Hm, Ha in IH.
  specialize (IH Hn ltac:(lia)). destruct (shrink_loop fuel c1 (count + 1) evs1) as [[c2 n2] evs2].
  destruct IH as (? & Ha2 & Hm2 & Ht2 & Ho2 & -> & ->).
  rewrite take_app_le, drop_app_le by lia. rewrite length_app, reverse_snoc. cbn.
  split_and!; try done; try congruence; try lia.
  rewrite Ho. destruct (onEvicted c); rewrite He; [|done]. by rewrite <-app_assoc.
Qed.

(** What an operation must establish: invariant kept, configuration kept, the
    specification's list reached, the specification's callbacks fired. *)
Definition lands (c c' : Cache) (n : Z) (l : list entry) (evs sevs : list (K * V)) : Prop :=
  linv c' ∧ bounded c' ∧ abs c' = l ∧ maxSize c' = n ∧ ttl c' = ttl c ∧
  onEvicted c' = onEvicted c ∧ evs = fireEvicted c sevs.

Lemma fireEvicted_idem (c c' : Cache) evs : onEvicted c' = onEvicted c →
  fireEvicted c' (fireEvicted c evs) = fireEvicted c evs.
Proof. unfold fireEvicted. intros ->. by destruct (onEvicted c). Qed.

Lemma lands_refl c : linv c → bounded c → lands c c (maxSize c) (abs c) [] [].
Proof. unfold lands, fireEvicted. intros. split_and!; try done. by destruct (onEvicted c). Qed.

Lemma bounded_abs c : linv c → (0 < maxSize c → Z.of_nat (length (abs c)) ≤ maxSize c) → bounded c.
Proof. intros Hc Hb Hm. rewrite <-abs_length; auto. Qed.

Lemma length_drop_key k l : (length (drop_key k l) ≤ length l)%nat.
Proof. apply length_filter. Qed.

(** Looking an element up through the map. *)
Lemma element_spec c k : linv c →
  match items c !! k ≫= λ i, (i,.) <$> store c !! i with
  | Some (i, e) => items c !! key e = Some i ∧ store c !! i = Some e ∧ key e = k ∧
                   find_key k (abs c) = Some e
  | None => items c !! k = None ∧ find_key k (abs c) = None
  end.
Proof.
  intros Hc. rewrite abs_find by done. destruct (items c !! k) as [i|] eqn:Hi; cbn; [|done].
  destruct (inv_items c Hc k i Hi) as (Hin & e & He & Hk). rewrite He. cbn. naive_solver.
Qed.

Lemma lands_remove c i e : linv c → bounded c → store c !! i = Some e → items c !! key e = Some i →
  lands c (removeElement c i []).1 (maxSize c) (drop_key (key e) (abs c))
    (fireEvicted (removeElement c i []).1 (removeElement c i []).2) [kv e].
Proof.
  intros Hc Hb He Hi. destruct (removeElement_spec c i e [] Hc He Hi)
    as (Hc' & Ha & Hm & Ht & Ho & _ & _ & _ & Hev).
  unfold lands. split_and!; try done.
  - apply bounded_abs; [done|]. rewrite Ha, Hm. intros Hm0. specialize (Hb Hm0).
    rewrite <-abs_length in Hb by done. pose proof (length_drop_key (key e) (abs c)). lia.
  - unfold fireEvicted. rewrite Ho, Hev. by destruct (onEvicted c).
Qed.

(** The two branches of [set] before eviction. *)
Lemma refresh_spec c i e v exp
    (c' := mkCache (ll (MoveToFront c i)) (alter (λ e, mkEntry (key e) v exp) i (store c))
             (items c) (fresh c) (maxSize c) (ttl c) (onEvicted c)) :
  linv c → store c !! i = Some e → items c !! key e = Some i →
  linv c' ∧ abs c' = mkEntry (key e) v exp :: drop_key (key e) (abs c).
Proof.
  intros Hc He Hi. destruct (MoveToFront_inv c i _ Hc Hi) as [Hnd Hl Hit Hf]. split.
  - split; cbn in *; try done.
    + intros j Hj. destruct (decide (j = i)) as [->|Hji].
      * rewrite lookup_alter_eq, He. cbn. eauto.
      * rewrite lookup_alter_ne by done. auto.
    + intros k' j Hj. destruct (Hit k' j Hj) as (Hjl & e' & He' & Hk'). split; [done|].
      destruct (decide (j = i)) as [->|Hji].
      * rewrite lookup_alter_eq, He. cbn. eexists. split; [done|]. cbn. congruence.
      * rewrite lookup_alter_ne by done. eauto.
  - subst c'. unfold abs at 1. cbn [ll store MoveToFront set_ll].
    rewrite (omap_cons_Some _ _ (mkEntry (key e) v exp)) by (by rewrite lookup_alter_eq, He).
    rewrite <-(abs_unlink c i e Hc He Hi). f_equal.
    apply list_omap_ext, Forall_Forall2_diag, Forall_forall.
    intros j [_ Hj]%unlink_elem. by rewrite lookup_alter_ne.
Qed.

Lemma insert_spec c k v exp (i := fresh c)
    (c' := mkCache (i :: ll c) (<[i := mkEntry k v exp]> (store c)) (<[k := i]> (items c)) (S i)
             (maxSize c) (ttl c) (onEvicted c)) :
  linv c → items c !! k = None → linv c' ∧ abs c' = mkEntry k v exp :: abs c.
Proof.
  intros [Hnd Hl Hit Hfr] Hk. split.
  - split; cbn.
    + apply NoDup_cons. split; [|done]. intros Hin. specialize (Hfr _ Hin). lia.
    + intros j [->|Hj]%elem_of_cons.
      * rewrite lookup_insert_eq. eexists. split; [done|]. cbn. by rewrite lookup_insert_eq.
      * destruct (Hl j Hj) as (e & He & Hke). specialize (Hfr _ Hj).
        rewrite lookup_insert_ne by lia. exists e. split; [done|].
        rewrite lookup_insert_ne; [done|]. congruence.
    + intros k' j [[<- <-]|[Hne Hj]]%lookup_insert_Some.
      * rewrite lookup_insert_eq. split; [set_solver|]. eexists. by split.
      * destruct (Hit k' j Hj) as (Hjl & e & He & Hke). specialize (Hfr _ Hjl).
        rewrite lookup_insert_ne by lia. split; [set_solver|]. eauto.
    + intros j [->|Hj]%elem_of_cons; [lia|]. specialize (Hfr _ Hj). lia.
  - subst c'. unfold abs. cbn [ll store].
    rewrite (omap_cons_Some _ _ (mkEntry k v exp)) by (by rewrite lookup_insert_eq).
    f_equal. apply list_omap_ext, Forall_Forall2_diag, Forall_forall.
    intros j Hj. rewrite lookup_insert_ne; [done|]. specialize (Hfr _ Hj). lia.
Qed.

Lemma length_drop_key_in e l : e ∈ l → (S (length (drop_key (key e) l)) ≤ length l)%nat.
Proof.
  induction l as [|x l IH]; [set_solver|]. intros Hin. unfold drop_key in *.
  destruct (decide (key x = key e)) as [Hk|Hk].
  - rewrite filter_cons_False by auto. cbn. pose proof (length_filter (λ x, key x ≠ key e) l). lia.
  - rewrite filter_cons_True by done. cbn. apply -> Nat.succ_le_mono. apply IH. set_solver.
Qed.

(** ** Every operation lands where the specification says *)

Lemma set_spec c k v d now : linv c → bounded c →
  let '(c', evs) := set c k v d now in
  let '(l, sevs) := spec_set (maxSize c) (abs c) k v d now in
  lands c c' (maxSize c) l evs sevs.
Proof.
  intros Hc Hb. unfold set, spec_set, spec_shrink, lands. set (exp := if 0 <? d then _ else _).
  pose proof (abs_length c Hc) as Hlen. pose proof (element_spec c k Hc) as Hel.
  destruct (items c !! k) as [i|] eqn:Hi; cbn in Hel.
  - destruct (store c !! i) as [e|] eqn:He; cbn in Hel; [|naive_solver].
    destruct Hel as (_ & _ & <- & Hf). apply find_key_Some in Hf as [Hin _].
    destruct (refresh_spec c i e v exp Hc He Hi) as [Hc' Ha].
    apply length_drop_key_in in Hin. unfold bounded in Hb.
    pose proof (bounded_abs _ Hc') as Hb'. rewrite Ha in Hb'. cbn [maxSize length] in Hb'.
    specialize (Hb' ltac:(lia)).
    destruct (Z.ltb_spec 0 (maxSize c)) as [Hm|Hm]; [|by split_and!].
    rewrite take_ge, drop_ge by (cbn; lia). by split_and!.
  - destruct Hel as [_ Hf]. apply find_key_None in Hf. rewrite drop_key_notin by done.
    destruct (insert_spec c k v exp Hc Hi) as [Hc1 Ha]. cbn [maxSize ll length].
    destruct (Z.ltb_spec 0 (maxSize c)) as [Hm|Hm]; cbn [andb];
      [|split_and!; try done; intros ?; cbn in *; lia].
    specialize (Hb Hm). destruct (Z.ltb_spec (maxSize c) (Z.of_nat (S (length (ll c))))) as [Hgt|Hle];
      [|rewrite take_ge, drop_ge by (cbn; lia); split_and!; try done; intros _; cbn; lia].
    destruct (mkEntry k v exp :: abs c) as [|e l _] eqn:Hl using rev_ind; [done|].
    assert (length l = length (abs c)) as Hll.
    { apply (f_equal length) in Hl. rewrite length_app in Hl. cbn in Hl. lia. }
    destruct (evict_spec _ l e [] Hc1 Ha) as (Hc2 & Ha2 & Hm2 & Ht2 & Ho2 & Hl2 & He2).
    cbn [maxSize ttl onEvicted ll length] in *. destruct (evict _ []) as [c2 evs]. cbn in *.
    rewrite take_app_length', drop_app_length' by lia. cbn.
    split_and!; try done; [intros _; lia|].
    rewrite He2. unfold fireEvicted. rewrite Ho2. by destruct (onEvicted c).
Qed.

Lemma Get_spec c k now : linv c → bounded c →
  let '(r, c', evs) := Get c k now in
  let '(r', l, sevs) := spec_get true (abs c) k now in
  r = r' ∧ lands c c' (maxSize c) l evs sevs.
Proof.
  intros Hc Hb. unfold Get, spec_get. pose proof (element_spec c k Hc) as Hel.
  destruct (items c !! k ≫= _) as [[i e]|]; [|by destruct Hel as [_ ->]; split; [|apply lands_refl]].
  destruct Hel as (Hi & He & <- & ->). destruct (expired now e).
  - pose proof (lands_remove c i e Hc Hb He Hi) as HL. by destruct (removeElement c i []).
  - split; [done|]. pose proof (lands_refl c Hc Hb) as (_ & _ & _ & _ & _ & _ & Hev).
    unfold lands. split_and!; try done.
    + by eapply MoveToFront_inv.
    + apply bounded_abs; [by eapply MoveToFront_inv|]. rewrite (MoveToFront_abs c i e) by done.
      intros Hm. specialize (Hb Hm). rewrite <-abs_length in Hb by done. cbn.
      assert (e ∈ abs c) as Hin%length_drop_key_in; [|lia].
      apply list_elem_of_omap. exists i. split; [|done]. by eapply inv_items.
    + by apply MoveToFront_abs.
Qed.

Lemma Peek_spec c k now : linv c → bounded c →
  let '(r, c', evs) := Peek c k now in
  let '(r', l, sevs) := spec_get false (abs c) k now in
  r = r' ∧ lands c c' (maxSize c) l evs sevs.
Proof.
  intros Hc Hb. unfold Peek, spec_get. pose proof (element_spec c k Hc) as Hel.
  destruct (items c !! k ≫= _) as [[i e]|]; [|by destruct Hel as [_ ->]; split; [|apply lands_refl]].
  destruct Hel as (Hi & He & <- & ->). destruct (expired now e).
  - pose proof (lands_remove c i e Hc Hb He Hi) as HL. by destruct (removeElement c i []).
  - split; [done|]. by apply lands_refl.
Qed.

Lemma Delete_spec c k : linv c → bounded c →
  let '(r, c', evs) := Delete c k in
  let '(r', l, sevs) := spec_delete (abs c) k in
  r = r' ∧ lands c c' (maxSize c) l evs sevs.
Proof.
  intros Hc Hb. unfold Delete, spec_delete. pose proof (element_spec c k Hc) as Hel.
  destruct (items c !! k) as [i|] eqn:Hi; cbn in Hel;
    [|by destruct Hel as [_ ->]; split; [|apply lands_refl]].
  destruct (store c !! i) as [e|] eqn:He; cbn in Hel; [|by destruct Hel].
  destruct Hel as (_ & _ & <- & ->).
  pose proof (lands_remove c i e Hc Hb He Hi) as HL. by destruct (removeElement c i []).
Qed.

Lemma filter_ext_in {A} (P Q : A → Prop) `{∀ x, Decision (P x), ∀ x, Decision (Q x)} (l : list A) :
  (∀ x, x ∈ l → P x ↔ Q x) → filter P l = filter Q l.
Proof.
  induction l as [|x l IH]; intros HPQ; [done|].
  assert (filter P l = filter Q l) as Hl by (apply IH; set_solver).
  destruct (decide (P x)) as [Hp|Hp].
  - rewrite !filter_cons_True, Hl by (try apply HPQ; set_solver). done.
  - rewrite !filter_cons_False, Hl; [done| |done]. rewrite <-HPQ by set_solver. done.
Qed.

Lemma find_key_drop_ne k k' l : k' ≠ k → find_key k' (drop_key k l) = find_key k' l.
Proof.
  intros Hk. induction l as [|x l IH]; [done|]. unfold drop_key in *. rewrite find_key_cons.
  destruct (decide (key x = k)) as [Hx|Hx].
  - rewrite filter_cons_False by auto. rewrite decide_False by congruence. done.
  - rewrite filter_cons_True by done. rewrite find_key_cons. by case_decide.
Qed.

(** The callback due to a key the sweep visits. *)
Definition swept (p : entry → bool) (l : list entry) (k : K) : option (K * V) :=
  e ← find_key k l; if p e then Some (kv e) else None.

Lemma omap_swept_drop p l k (order : list K) : k ∉ order →
  omap (swept p (drop_key k l)) order = omap (swept p l) order.
Proof.
  intros Hk. apply list_omap_ext, Forall_Forall2_diag, Forall_forall. intros k' Hk'.
  unfold swept. by rewrite find_key_drop_ne by set_solver.
Qed.

Lemma sweep_spec p order c removed evs : NoDup order → linv c →
  let '(c', removed', evs') := sweep p order c removed evs in
  linv c' ∧ abs c' = filter (λ e, key e ∈ order → p e = false) (abs c) ∧
  maxSize c' = maxSize c ∧ ttl c' = ttl c ∧ onEvicted c' = onEvicted c ∧
  removed' = removed + Z.of_nat (length (omap (swept p (abs c)) order)) ∧
  evs' = if onEvicted c then evs ++ omap (swept p (abs c)) order else evs.
Proof.
  intros Hnd. revert c removed evs. induction Hnd as [|k order Hk Hnd IH]; intros c removed evs Hc;
    cbn -[abs filter].
  { split_and!; try done; try lia; [|rewrite app_nil_r; by destruct (onEvicted c)].
    clear. induction (abs c) as [|x l IH]; [done|]. rewrite filter_cons_True; [by f_equal|set_solver]. }
  pose proof (element_spec c k Hc) as Hel.
  destruct (items c !! k ≫= _) as [[i e]|].
  - destruct Hel as (Hi & He & <- & Hf).
    assert (swept p (abs c) (key e) = if p e then Some (kv e) else None) as Hsw
      by (unfold swept; by rewrite Hf).
    rewrite !Hsw. cbn -[abs filter].
    destruct (p e) eqn:Hp.
    + destruct (removeElement_spec c i e evs Hc He Hi) as (Hc' & Ha & Hm & Ht & Ho & _ & _ & _ & Hev).
      destruct (removeElement c i evs) as [c1 evs1]. cbn -[abs] in *. specialize (IH c1 (removed + 1) evs1 Hc').
      destruct (sweep p order c1 (removed + 1) evs1) as [[c2 r2] evs2].
      destruct IH as (? & Ha2 & ? & ? & Ho2 & -> & ->). rewrite Ha, omap_swept_drop in * by done.
      split_and!; try done; try congruence.
      * rewrite Ha2. unfold drop_key. rewrite list_filter_filter. apply filter_ext_in.
        intros x Hx. rewrite elem_of_cons. split; [naive_solver|]. intros Hx'. split; [by auto|].
        intros Hkx. assert (x = e); [|subst x; rewrite Hp in Hx'; discriminate Hx'; auto].
        apply (find_key_unique (key e)) in Hx; [congruence|by apply abs_nodup|done].
      * cbn. lia.
      * rewrite Ho, Hev. destruct (onEvicted c); [|done]. by rewrite <-app_assoc.
    + specialize (IH c removed evs Hc). destruct (sweep p order c removed evs) as [[c2 r2] evs2].
      destruct IH as (? & Ha2 & ? & ? & Ho2 & -> & ->). split_and!; try done.
      rewrite Ha2. apply filter_ext_in. intros x Hx. rewrite elem_of_cons. split; [|naive_solver].
      intros Hx' [Hkx|]; [|by auto]. apply (find_key_unique (key e)) in Hx; [|by apply abs_nodup|done].
      congruence.
  - destruct Hel as (_ & Hf).
    assert (swept p (abs c) k = None) as Hsw by (unfold swept; by rewrite Hf). rewrite !Hsw.
    specialize (IH c removed evs Hc). destruct (sweep p order c removed evs) as [[c2 r2] evs2].
    destruct IH as (? & Ha2 & ? & ? & Ho2 & -> & ->). split_and!; try done.
    rewrite Ha2. apply filter_ext_in. intros x Hx. rewrite elem_of_cons. split; [|naive_solver].
    intros Hx' [Hkx|]; [|by auto]. apply find_key_None in Hf. destruct Hf. subst k.
    by apply list_elem_of_fmap_2.
Qed.

Lemma items_keys c : linv c → (map_to_list (items c)).*1 ≡ₚ key <$> abs c.
Proof.
  intros Hc. apply NoDup_Permutation; [apply NoDup_fst_map_to_list|by apply abs_nodup|].
  intros k. split.
  - intros ([k' i] & -> & Hk%elem_of_map_to_list)%list_elem_of_fmap. cbn.
    destruct (inv_items c Hc k' i Hk) as (Hin & e & He & <-).
    apply list_elem_of_fmap_2, list_elem_of_omap. eauto.
  - intros (e & -> & He)%list_elem_of_fmap. apply abs_elem in He as (i & Hi & _); [|done].
    apply list_elem_of_fmap. exists (key e, i). split; [done|]. by apply elem_of_map_to_list.
Qed.

Lemma sweep_lands p order c : linv c → bounded c → order ≡ₚ (map_to_list (items c)).*1 →
  let '(c', removed, evs) := sweep p order c 0 [] in
  let '(l, sevs) := spec_sweep p order (abs c) in
  removed = Z.of_nat (length sevs) ∧ lands c c' (maxSize c) l (fireEvicted c' evs) sevs.
Proof.
  intros Hc Hb Hp. rewrite items_keys in Hp by done.
  assert (NoDup order) as Hnd by (rewrite Hp; by apply abs_nodup).
  pose proof (sweep_spec p order c 0 [] Hnd Hc) as Hs.
  destruct (sweep p order c 0 []) as [[c' r] evs].
  destruct Hs as (Hc' & Ha & Hm & Ht & Ho & -> & ->). unfold spec_sweep, lands. fold (swept p (abs c)).
  assert (abs c' = filter (λ e, p e = false) (abs c)) as Ha'.
  { rewrite Ha. apply filter_ext_in. intros x Hx. split; [|done]. intros Hx'. apply Hx'.
    rewrite Hp. by apply list_elem_of_fmap_2. }
  split; [done|]. split_and!; try done.
  - apply bounded_abs; [done|]. rewrite Ha', Hm. intros Hm0. specialize (Hb Hm0).
    rewrite <-abs_length in Hb by done. pose proof (length_filter (λ e, p e = false) (abs c)). lia.
  - unfold fireEvicted. rewrite Ho. by destruct (onEvicted c).
Qed.

Lemma Resize_lands c n : linv c →
  let '(r, c', evs) := Resize c n in
  let '(l, sevs) := spec_shrink n (abs c) in
  r = Z.of_nat (length sevs) ∧ lands c c' n l evs sevs.
Proof.
  intros Hc. unfold Resize, spec_shrink, lands. set (c1 := mkCache _ _ _ _ n _ _).
  assert (linv c1) as Hc1 by (destruct Hc; by split).
  destruct (Z.leb_spec n 0) as [Hn|Hn]; destruct (Z.ltb_spec 0 n); try lia.
  { split_and!; try done; [intros ?; subst c1; cbn in *; lia|].
    unfold fireEvicted. by destruct (onEvicted c). }
  pose proof (shrink_loop_spec (length (ll c1)) c1 0 [] Hc1 ltac:(done) ltac:(done)) as Hs.
  destruct (shrink_loop _ c1 0 []) as [[c2 r] evs]. cbn -[abs] in Hs.
  change (abs c1) with (abs c) in Hs. destruct Hs as (Hc2 & Ha & Hm & Ht & Ho & -> & ->).
  rewrite length_fmap, length_reverse. split; [done|]. split_and!; try done.
  - apply bounded_abs; [done|]. rewrite Ha, Hm, length_take. lia.
  - unfold fireEvicted. rewrite Ho. by destruct (onEvicted c).
Qed.

Lemma step_lands c o : linv c → bounded c → order_ok c o →
  let '(r, c', evs) := step c o in
  let '(r', (l, n), sevs) := spec_step (ttl c) (abs c, maxSize c) o in
  r = r' ∧ lands c c' n l evs sevs.
Proof.
  intros Hc Hb Ho. destruct o as [k v now|k v d now|k now|k now|k now|k|now order|order| | |n]; cbn -[abs spec_sweep] in *.
  - pose proof (set_spec c k v (ttl c) now Hc Hb) as Hs. unfold Set_.
    destruct (set _ _ _ _ _), (spec_set _ _ _ _ _ _). done.
  - pose proof (set_spec c k v d now Hc Hb) as Hs. unfold SetWithTTL.
    destruct (set _ _ _ _ _), (spec_set _ _ _ _ _ _). done.
  - pose proof (Get_spec c k now Hc Hb) as Hs.
    destruct (Get _ _ _) as [[??]?], (spec_get _ _ _ _) as [[??]?]. by destruct Hs as [-> ?].
  - pose proof (Peek_spec c k now Hc Hb) as Hs.
    destruct (Peek _ _ _) as [[??]?], (spec_get _ _ _ _) as [[??]?]. by destruct Hs as [-> ?].
  - pose proof (Peek_spec c k now Hc Hb) as Hs. unfold Contains.
    destruct (Peek _ _ _) as [[??]?], (spec_get _ _ _ _) as [[??]?]. by destruct Hs as [-> ?].
  - pose proof (Delete_spec c k Hc Hb) as Hs.
    destruct (Delete _ _) as [[??]?], (spec_delete _ _) as [[??]?]. by destruct Hs as [-> ?].
  - pose proof (sweep_lands (expired now) order c Hc Hb Ho) as Hs. unfold DeleteExpired.
    destruct (sweep _ _ _ _ _) as [[??]?], (spec_sweep _ _ _). by destruct Hs as [-> ?].
  - pose proof (sweep_lands (λ _, true) order c Hc Hb Ho) as Hs. unfold Purge.
    destruct (sweep _ _ _ _ _) as [[??]?], (spec_sweep _ _ _). by destruct Hs as [_ ?].
  - unfold Len. rewrite abs_length by done. split; [done|]. by apply lands_refl.
  - split; [done|]. by apply lands_refl.
  - pose proof (Resize_lands c n Hc) as Hs.
    destruct (Resize _ _) as [[??]?], (spec_shrink _ _). by destruct Hs as [-> ?].
Qed.

Lemma New_inv n d cb : linv (New n d cb) ∧ bounded (New n d cb) ∧ abs (New n d cb) = [].
Proof. split; [split; cbn; [constructor|set_solver|set_solver|set_solver]|]. split; [|done]. intros ?. cbn in *. lia. Qed.

Definition ops_of (tr : list (op * reply * list (K * V))) : list op := (λ x, x.1.1) <$> tr.
Definition outs_of (tr : list (op * reply * list (K * V))) : list (reply * list (K * V)) :=
  (λ x, (x.1.2, x.2)) <$> tr.
(** Callbacks only reach an installed callback. *)
Definition mute (cb : bool) (outs : list (reply * list (K * V))) : list (reply * list (K * V)) :=
  (λ x, (x.1, if cb then x.2 else [])) <$> outs.

Lemma hist_refines c tr c' : hist c tr c' → linv c → bounded c →
  linv c' ∧ bounded c' ∧ ttl c' = ttl c ∧ onEvicted c' = onEvicted c ∧
  let '(outs, s) := spec_run (ttl c) (abs c, maxSize c) (ops_of tr) in
  outs_of tr = mute (onEvicted c) outs ∧ (abs c', maxSize c') = s.
Proof.
  induction 1 as [c|c o r c1 evs tr c2 Hok Hst _ IH]; intros Hc Hb; [by split_and!|].
  pose proof (step_lands c o Hc Hb Hok) as Hs. rewrite Hst in Hs.
  change (ops_of _) with (o :: ops_of tr). cbn [spec_run].
  destruct (spec_step (ttl c) (abs c, maxSize c) o) as [[r' [l n]] sevs].
  destruct Hs as (-> & Hc1 & Hb1 & <- & <- & Ht & Ho & ->).
  destruct (IH Hc1 Hb1) as (? & ? & ? & ? & Hrun). rewrite Ht in Hrun.
  destruct (spec_run _ _ _) as [outs s] in Hrun |- *. destruct Hrun as [Hout Hs].
  split_and!; try done; try congruence. cbn. f_equal. by rewrite <-Ho.
Qed.

(** ** Conservation: keys only leave through a callback *)

Definition sets_key (o : op) : list K :=
  match o with OSet k _ _ | OSetWithTTL k _ _ _ => [k] | _ => [] end.

Lemma drop_key_keys k l : NoDup (key <$> l) → k ∈ key <$> l →
  k :: (key <$> drop_key k l) ≡ₚ key <$> l.
Proof.
  induction l as [|x l IH]; intros Hnd Hk; [set_solver|]. unfold drop_key in *.
  rewrite fmap_cons in *. apply NoDup_cons in Hnd as [Hx Hnd].
  destruct (decide (key x = k)) as [<-|Hne].
  - rewrite filter_cons_False by auto. fold (drop_key (key x) l). by rewrite drop_key_notin.
  - rewrite filter_cons_True by done. rewrite fmap_cons, Permutation_swap, IH; set_solver.
Qed.

Lemma spec_shrink_keys n l : let '(l', evs) := spec_shrink n l in
  (key <$> l') ++ evs.*1 ≡ₚ key <$> l.
Proof.
  unfold spec_shrink. destruct (0 <? n); [|by rewrite app_nil_r].
  rewrite <-list_fmap_compose. rewrite (reverse_Permutation (drop _ _)).
  change (fst ∘ kv) with key. by rewrite <-fmap_app, take_drop.
Qed.

Lemma find_key_keys k l e : NoDup (key <$> l) → find_key k l = Some e →
  (key <$> drop_key k l) ++ [key e] ≡ₚ key <$> l.
Proof.
  intros Hnd [Hin <-]%find_key_Some. rewrite <-Permutation_cons_append.
  apply drop_key_keys; [done|]. by apply list_elem_of_fmap_2.
Qed.

Lemma spec_get_keys b k l now : NoDup (key <$> l) →
  let '(_, l', evs) := spec_get b l k now in (key <$> l') ++ evs.*1 ≡ₚ key <$> l.
Proof.
  intros Hnd. unfold spec_get. destruct (find_key k l) as [e|] eqn:Hf; [|by rewrite app_nil_r].
  destruct (expired now e); [by apply find_key_keys|]. rewrite app_nil_r. destruct b; [|done].
  rewrite fmap_cons, Permutation_cons_append. by apply find_key_keys.
Qed.

Lemma spec_set_keys n L k v d now l evs : NoDup (key <$> L) → spec_set n L k v d now = (l, evs) →
  (key <$> l) ++ evs.*1 ≡ₚ filter (λ k, k ∉ key <$> L) [k] ++ (key <$> L).
Proof.
  intros Hnd Hs. unfold spec_set in Hs. set (l0 := _ :: drop_key k L) in Hs.
  pose proof (spec_shrink_keys n l0) as Hk. rewrite Hs in Hk. rewrite Hk. subst l0.
  rewrite fmap_cons. cbn [key]. destruct (decide (k ∈ key <$> L)).
  - rewrite filter_cons_False, filter_nil by auto. by apply drop_key_keys.
  - rewrite filter_cons_True, filter_nil, drop_key_notin by auto. done.
Qed.

Lemma spec_sweep_keys p order l : NoDup (key <$> l) → order ≡ₚ key <$> l →
  let '(l', evs) := spec_sweep p order l in (key <$> l') ++ evs.*1 ≡ₚ key <$> l.
Proof.
  intros Hnd Hp. unfold spec_sweep. fold (swept p l). rewrite Hp.
  cut (∀ l', (∀ x, x ∈ l' → find_key (key x) l = Some x) →
    (key <$> filter (λ e, p e = false) l') ++ (omap (swept p l) (key <$> l')).*1 ≡ₚ key <$> l').
  { intros Hl. apply Hl. intros x Hx. by apply find_key_unique. }
  induction l' as [|x l' IH]; intros Hf; [done|]. rewrite fmap_cons.
  assert (swept p l (key x) = if p x then Some (kv x) else None) as Hsw
    by (unfold swept; by rewrite Hf by set_solver).
  specialize (IH ltac:(set_solver)). destruct (p x) eqn:Hpx.
  - rewrite filter_cons_False by congruence. rewrite (omap_cons_Some _ _ _ _ Hsw), fmap_cons.
    cbn. by rewrite <-Permutation_middle, IH.
  - rewrite filter_cons_True by done. cbn. rewrite Hsw. by rewrite IH.
Qed.

Lemma spec_step_keys c o r l n evs : NoDup (key <$> abs c) → linv c → order_ok c o →
  spec_step (ttl c) (abs c, maxSize c) o = (r, (l, n), evs) →
  (key <$> l) ++ evs.*1 ≡ₚ filter (λ k, k ∉ key <$> abs c) (sets_key o) ++ (key <$> abs c).
Proof.
  intros Hnd Hc Hok. set (L := abs c) in *.
  destruct o as [k v now|k v d now|k now|k now|k now|k|now order|order| | |n']; 
    cbn -[spec_sweep filter] in Hok |- *.
  - destruct (spec_set _ _ _ _ _ _) eqn:?; intros; simplify_eq. by eapply spec_set_keys.
  - destruct (spec_set _ _ _ _ _ _) eqn:?; intros; simplify_eq. by eapply spec_set_keys.
  - pose proof (spec_get_keys true k L now Hnd) as Hk.
    destruct (spec_get _ _ _ _) as [[??]?]. intros; simplify_eq. done.
  - pose proof (spec_get_keys false k L now Hnd) as Hk.
    destruct (spec_get _ _ _ _) as [[??]?]. intros; simplify_eq. done.
  - pose proof (spec_get_keys false k L now Hnd) as Hk.
    destruct (spec_get _ _ _ _) as [[??]?]. intros; simplify_eq. done.
  - unfold spec_delete. destruct (find_key k L) eqn:Hf; intros; simplify_eq; cbn;
      rewrite ?app_nil_r; auto using find_key_keys.
  - rewrite items_keys in Hok by done. pose proof (spec_sweep_keys (expired now) order L Hnd Hok) as Hk.
    destruct (spec_sweep _ _ _). intros; simplify_eq. done.
  - rewrite items_keys in Hok by done. pose proof (spec_sweep_keys (λ _, true) order L Hnd Hok) as Hk.
    destruct (spec_sweep _ _ _). intros; simplify_eq. done.
  - intros; simplify_eq. by rewrite app_nil_r.
  - intros; simplify_eq. by rewrite app_nil_r.
  - pose proof (spec_shrink_keys n' L) as Hk. destruct (spec_shrink _ _). intros; simplify_eq. done.
Qed.

(** Following one key through a history: [Some b] after it, [b] telling whether
    an entry for the key is alive; [None] if a callback fired for a key with no
    live entry, or twice for one. *)
Fixpoint track (k : K) (alive : bool) (tr : list (op * reply * list (K * V))) : option bool :=
  match tr with
  | [] => Some alive
  | (o, _, evs) :: tr =>
      let alive := alive || bool_decide (k ∈ sets_key o) in
      match length (filter (λ x, x = k) evs.*1) with
      | 0%nat => track k alive tr
      | 1%nat => if alive then track k false tr else None
      | _ => None
      end
  end.

Lemma NoDup_count (k : K) (l : list K) : NoDup l →
  length (filter (λ x, x = k) l) = if bool_decide (k ∈ l) then 1%nat else 0%nat.
Proof.
  induction 1 as [|x l Hx Hnd IH]; [done|]. destruct (decide (x = k)) as [->|Hne].
  - rewrite filter_cons_True by done. cbn [length]. rewrite IH, bool_decide_eq_false_2 by done.
    by rewrite bool_decide_eq_true_2 by set_solver.
  - rewrite filter_cons_False, IH by done.
    rewrite (bool_decide_ext (k ∈ x :: l) (k ∈ l)); [done|]. set_solver.
Qed.

Lemma step_track c o r l n evs k alive tr :
  linv c → order_ok c o → alive = bool_decide (k ∈ key <$> abs c) →
  spec_step (ttl c) (abs c, maxSize c) o = (r, (l, n), evs) →
  NoDup (key <$> l) →
  track k alive ((o, r, evs) :: tr) = track k (bool_decide (k ∈ key <$> l)) tr.
Proof.
  intros Hc Hok -> Hs Hndl. pose proof (spec_step_keys c o r l n evs (abs_nodup c Hc) Hc Hok Hs) as Hp.
  set (A := filter _ _ ++ _) in Hp.
  assert (∀ x, x ∈ A ↔ x ∈ key <$> abs c ∨ x ∈ sets_key o) as HA.
  { intros x. subst A. rewrite elem_of_app, list_elem_of_filter.
    destruct (decide (x ∈ key <$> abs c)); naive_solver. }
  assert (NoDup A) as HndA.
  { subst A. apply NoDup_app. split_and!; [|by intros x [? _]%list_elem_of_filter|by apply abs_nodup].
    apply NoDup_filter. destruct o; cbn; auto using NoDup_nil_2, NoDup_singleton. }
  assert (bool_decide (k ∈ key <$> abs c) || bool_decide (k ∈ sets_key o) = bool_decide (k ∈ A)) as HkA.
  { rewrite <-bool_decide_or. apply bool_decide_ext. by rewrite HA. }
  cbn [track]. rewrite HkA. rewrite <-Hp in HndA. apply NoDup_app in HndA as (_ & Hdis & Hnde).
  rewrite NoDup_count by done.
  assert (k ∈ A ↔ k ∈ key <$> l ∨ k ∈ evs.*1) as Hiff by (by rewrite <-Hp, elem_of_app).
  destruct (bool_decide_reflect (k ∈ evs.*1)) as [He|He].
  - rewrite bool_decide_eq_true_2 by naive_solver.
    rewrite bool_decide_eq_false_2; [done|]. intros Hk. by apply (Hdis k).
  - f_equal. apply bool_decide_ext. naive_solver.
Qed.

Lemma hist_track c tr c' k : hist c tr c' → linv c → bounded c → onEvicted c = true →
  track k (bool_decide (k ∈ key <$> abs c)) tr = Some (bool_decide (k ∈ key <$> abs c')).
Proof.
  induction 1 as [c|c o r c1 evs tr c2 Hok Hst _ IH]; intros Hc Hb Hcb; [done|].
  pose proof (step_lands c o Hc Hb Hok) as Hs. rewrite Hst in Hs.
  destruct (spec_step (ttl c) (abs c, maxSize c) o) as [[r' [l n]] sevs] eqn:Hsp.
  destruct Hs as (-> & Hc1 & Hb1 & <- & <- & Ht & Ho & ->).
  unfold fireEvicted. rewrite Hcb. rewrite <-IH by (try done; congruence).
  eapply step_track; [exact Hc|exact Hok|by apply bool_decide_ext|exact Hsp|by apply abs_nodup].
Qed.

(** ** Recency: few other keys touched, so the entry is still there *)

(** Reads and writes of single keys, the operations that reorder the list. *)
Definition touches (T : gset K) (o : op) : Prop :=
  match o with
  | OSet k _ _ | OSetWithTTL k _ _ _ | OGet k _ | OPeek k _ | OContains k _ => k ∈ T
  | OLen | OKeys => True
  | _ => False
  end.

(** Only keys of [T] are more recent than the entry [e]. *)
Definition ahead (T : gset K) (e : entry) (l : list entry) : Prop :=
  ∃ l1 l2, l = l1 ++ e :: l2 ∧ ∀ x, x ∈ l1 → key x ∈ T.

Lemma ahead_length (T : gset K) e l1 l2 : NoDup (key <$> l1 ++ e :: l2) → (∀ x, x ∈ l1 → key x ∈ T) →
  (length l1 ≤ size T)%nat.
Proof.
  rewrite fmap_app. intros (Hnd & _ & _)%NoDup_app HT.
  rewrite <-(length_fmap key). rewrite <-(size_list_to_set (C := gset K)) by done.
  apply subseteq_size. intros k. rewrite elem_of_list_to_set.
  intros (x & -> & Hx)%list_elem_of_fmap. auto.
Qed.

Lemma ahead_drop (T : gset K) e k l : ahead T e l → key e ≠ k → ahead T e (drop_key k l).
Proof.
  intros (l1 & l2 & -> & HT) Hk. unfold drop_key. rewrite filter_app, filter_cons_True by done.
  eexists _, _. split; [done|]. intros x [_ ?]%list_elem_of_filter. auto.
Qed.

Lemma ahead_cons (T : gset K) e x l : ahead T e l → key x ∈ T → ahead T e (x :: l).
Proof.
  intros (l1 & l2 & -> & HT) Hx. exists (x :: l1), l2. split; [done|].
  intros y [->|Hy]%elem_of_cons; auto.
Qed.

Lemma ahead_take (T : gset K) e l n : ahead T e l → NoDup (key <$> l) → (size T < n)%nat → ahead T e (take n l).
Proof.
  intros (l1 & l2 & -> & HT) Hnd Hn. pose proof (ahead_length T e l1 l2 Hnd HT) as Hlen.
  exists l1, (take (n - length l1 - 1) l2). split; [|done].
  rewrite take_app_ge by lia. destruct (n - length l1)%nat as [|m] eqn:Hm; [lia|]. cbn.
  by rewrite Nat.sub_0_r.
Qed.

Lemma ahead_set (T : gset K) e l n k v d now : ahead T e l → NoDup (key <$> l) → k ∈ T → key e ∉ T →
  (Z.of_nat (size T) < n) → ahead T e (spec_set n l k v d now).1.
Proof.
  intros Ha Hnd Hk He Hn. unfold spec_set, spec_shrink. destruct (Z.ltb_spec 0 n); [|lia]. cbn [fst].
  apply ahead_take; [|rewrite fmap_cons; cbn [key]|lia].
  - apply ahead_cons; [|done]. apply ahead_drop; [done|]. congruence.
  - apply NoDup_cons. split.
    + intros (x & Hx & [? _]%list_elem_of_filter)%list_elem_of_fmap. congruence.
    + by apply drop_key_nodup.
Qed.

Lemma ahead_get (T : gset K) e l b k now : ahead T e l → k ∈ T → key e ∉ T →
  ahead T e (spec_get b l k now).1.2.
Proof.
  intros Ha Hk He. unfold spec_get. destruct (find_key k l) as [x|] eqn:Hf; [|done].
  apply find_key_Some in Hf as [_ Hx]. destruct (expired now x); cbn.
  - apply ahead_drop; [done|]. congruence.
  - destruct b; [|done]. apply ahead_cons; [|congruence]. apply ahead_drop; [done|]. congruence.
Qed.

Lemma ahead_step (T : gset K) e c o c' r evs : linv c → bounded c → order_ok c o → ahead T e (abs c) →
  touches T o → key e ∉ T → Z.of_nat (size T) < maxSize c → step c o = (r, c', evs) →
  linv c' ∧ bounded c' ∧ ahead T e (abs c') ∧ maxSize c' = maxSize c.
Proof.
  intros Hc Hb Hok Ha Ht He Hn Hst. pose proof (step_lands c o Hc Hb Hok) as Hs. rewrite Hst in Hs.
  pose proof (abs_nodup c Hc) as Hnd.
  destruct o as [k v now|k v d now|k now|k now|k now|k|now order|order| | |n];
    cbn -[abs] in Ht, Hs; try done.
  - pose proof (ahead_set T e (abs c) (maxSize c) k v (ttl c) now Ha Hnd Ht He Hn) as Ha'.
    destruct (spec_set _ _ _ _ _ _). destruct Hs as (_ & ? & ? & -> & -> & _). done.
  - pose proof (ahead_set T e (abs c) (maxSize c) k v d now Ha Hnd Ht He Hn) as Ha'.
    destruct (spec_set _ _ _ _ _ _). destruct Hs as (_ & ? & ? & -> & -> & _). done.
  - pose proof (ahead_get T e (abs c) true k now Ha Ht He) as Ha'.
    destruct (spec_get _ _ _ _) as [[??]?]. destruct Hs as (_ & ? & ? & -> & -> & _). done.
  - pose proof (ahead_get T e (abs c) false k now Ha Ht He) as Ha'.
    destruct (spec_get _ _ _ _) as [[??]?]. destruct Hs as (_ & ? & ? & -> & -> & _). done.
  - pose proof (ahead_get T e (abs c) false k now Ha Ht He) as Ha'.
    destruct (spec_get _ _ _ _) as [[??]?]. destruct Hs as (_ & ? & ? & -> & -> & _). done.
  - destruct Hs as (_ & ? & ? & -> & -> & _). done.
  - destruct Hs as (_ & ? & ? & -> & -> & _). done.
Qed.

Lemma hist_ahead T e c tr c' : hist c tr c' → linv c → bounded c → ahead T e (abs c) →
  Forall (touches T) (ops_of tr) → key e ∉ T → Z.of_nat (size T) < maxSize c →
  linv c' ∧ bounded c' ∧ ahead T e (abs c').
Proof.
  induction 1 as [c|c o r c1 evs tr c2 Hok Hst _ IH]; intros Hc Hb Ha HT He Hn; [done|].
  apply Forall_cons in HT as [Ho HT].
  destruct (ahead_step T e c o c1 r evs) as (Hc1 & Hb1 & Ha1 & Hm); try done.
  apply IH; try done. by rewrite Hm.
Qed.
End lru.

(** ** Theorems *)

(** C3: The linked list, the element heap and the key map together implement an
    association list in recency order: in every history of calls on a fresh
    cache, replies, callbacks and final contents are those of the
    specification, whatever order map ranging takes; keys never repeat, and a
    positive [maxSize] is never exceeded. *)
Theorem lru_refines {K V} `{Countable K} n d cb tr (c : Cache (K := K) (V := V)) :
  hist (New n d cb) tr c →
  outs_of tr = mute cb (spec_run d ([], n) (ops_of tr)).1 ∧
  (abs c, maxSize c) = (spec_run d ([], n) (ops_of tr)).2 ∧
  NoDup (Keys c) ∧ (0 < maxSize c → Len c ≤ maxSize c).
Proof.
  intros Hh. destruct (New_inv (K := K) (V := V) n d cb) as (Hc & Hb & Ha).
  destruct (hist_refines _ _ _ Hh Hc Hb) as (Hc' & Hb' & _ & _ & Hrun). rewrite Ha in Hrun. cbn in Hrun.
  destruct (spec_run _ _ _) as [outs s] in Hrun |- *. destruct Hrun as [-> ->].
  split_and!; try done. by apply abs_nodup.
Qed.

(** The eviction callback fires exactly once for every entry that leaves the
    cache and never otherwise: following any key through any history, a
    callback for it only fires while an entry for it is alive, and at the end an
    entry is alive iff the cache still holds the key. *)
Theorem lru_callbacks_exact {K V} `{Countable K} n d tr (c : Cache (K := K) (V := V)) k :
  hist (New n d true) tr c → track k false tr = Some (bool_decide (k ∈ Keys c)).
Proof.
  intros Hh. destruct (New_inv (K := K) (V := V) n d true) as (Hc & Hb & Ha).
  pose proof (hist_track _ _ _ k Hh Hc Hb eq_refl) as Ht. rewrite Ha in Ht. exact Ht.
Qed.

(** An entry is only evicted when it is really among the least recently
    used: after a [Set] without expiry, as long as fewer than [maxSize] distinct
    other keys are read or written, [Get] still returns the value. *)
Theorem lru_retains {K V} `{Countable K} n d cb tr0 (c0 : Cache (K := K) (V := V))
    k v t0 c1 evs tr c2 (T : gset K) t :
  hist (New n d cb) tr0 c0 → step c0 (OSetWithTTL k v 0 t0) = (RNone, c1, evs) →
  hist c1 tr c2 → Forall (touches T) (ops_of tr) → k ∉ T → Z.of_nat (size T) < maxSize c0 →
  (Get c2 k t).1.1 = Some v.
Proof.
  intros Hh Hs Htr HT Hk Hn. destruct (New_inv (K := K) (V := V) n d cb) as (Hc & Hb & _).
  destruct (hist_refines _ _ _ Hh Hc Hb) as (Hc0 & Hb0 & _).
  pose proof (step_lands c0 (OSetWithTTL k v 0 t0) Hc0 Hb0 I) as HL. rewrite Hs in HL.
  cbn -[abs] in HL. destruct (spec_set _ _ _ _ _ _) as [l sevs] eqn:Hsp.
  destruct HL as (_ & Hc1 & Hb1 & Ha1 & Hm1 & _).
  assert (ahead T (mkEntry k v None) (abs c1)) as Ha.
  { rewrite Ha1. unfold spec_set, spec_shrink in Hsp.
    destruct (Z.ltb_spec 0 (maxSize c0)); [|lia]. simplify_eq.
    destruct (Z.to_nat (maxSize c0)) as [|m] eqn:Hm; [lia|].
    exists [], (take m (drop_key k (abs c0))). split; [done|set_solver]. }
  destruct (hist_ahead T _ _ _ _ Htr Hc1 Hb1 Ha HT Hk ltac:(lia)) as (Hc2 & Hb2 & l1 & l2 & Ha2 & _).
  pose proof (Get_spec c2 k t Hc2 Hb2) as HG. destruct (Get c2 k t) as [[r c3] evs3].
  unfold spec_get in HG. rewrite (find_key_unique k (abs c2) (mkEntry k v None)) in HG;
    [by destruct HG as [-> _]|by apply abs_nodup|rewrite Ha2; set_solver|done].
Qed.

(** ** Witnesses *)

Definition ex_New : Cache (K := Z) (V := Z) := New 2 0 true.
Definition ex_ops : list (op (K := Z) (V := Z)) :=
  [OSet 1 10 0; OSet 2 20 0; OGet 1 1; OSet 3 30 1; OSetWithTTL 4 40 5 2; OPurge [4; 3]].

Lemma ex_orders : orders_ok ex_New ex_ops.
Proof. vm_compute. repeat (split; [exact I|]). split; [|exact I]. first [reflexivity|apply Permutation_swap]. Qed.

Lemma lru_refines_witness :
  outs_of (run ex_New ex_ops).1 =
    [(RNone, []); (RNone, []); (RVal (Some 10), []); (RNone, [(2, 20)]); (RNone, [(1, 10)]);
     (RNone, [(4, 40); (3, 30)])].
Proof.
  destruct (lru_refines 2 0 true _ _ (run_hist ex_New ex_ops ex_orders)) as (-> & _).
  vm_compute. reflexivity.
Defined.

Lemma lru_callbacks_exact_witness :
  track 1 false (run ex_New ex_ops).1 = Some (bool_decide (1 ∈ Keys (run ex_New ex_ops).2)).
Proof. apply (lru_callbacks_exact 2 0), run_hist, ex_orders. Defined.

Definition ex_c1 : Cache (K := Z) (V := Z) := (step ex_New (OSetWithTTL 7 70 0 0)).1.2.
Definition ex_ops2 : list (op (K := Z) (V := Z)) := [OSet 8 80 1; OGet 8 2; OSet 8 81 3].

Lemma lru_retains_witness : (Get (run ex_c1 ex_ops2).2 7 9).1.1 = Some 70.
Proof.
  apply (lru_retains 2 0 true [] ex_New 7 70 0 ex_c1 [] (run ex_c1 ex_ops2).1 _ {[8]} 9).
  - apply hist_nil.
  - reflexivity.
  - apply run_hist. vm_compute. tauto.
  - repeat constructor; cbn; set_solver.
  - set_solver.
  - vm_compute. reflexivity.
Defined.
