(* ===== verification/FreqCap.v ===== *)
(** * FreqCap: the per-entity frequency cap of [freqcap/freqcap.go]

    A [Counter] keeps, per key, a slice of the timestamps of its allowed events.
    [trimBefore] reuses the slice's array: it copies the live suffix down and
    reslices, so a caller that keeps the old slice header (as [evictIdleLocked]
    does for the keys it leaves in the map) sees the shifted suffix followed by
    the old tail.  The model therefore returns both views: the trimmed slice and
    what the old header sees afterwards.  No array is shared by two keys.

    Shown: the cap itself ("at most [maxEvents] per entity in any window") holds
    for every run with a monotone clock, and the key map never outgrows
    [maxKeys]; the count may however exceed the number of events in the window
    after an eviction pass ([freqcap_stale_overcount]). *)

From stdpp Require Import base tactics numbers list gmap strings.
From S2P Require Import Prelude.

#[local] Open Scope Z_scope.

Record Counter := mkCounter {
  window : Z; maxEvents : Z; maxKeys : Z; keys : gmap string (list Z) }.

Definition set_keys (c : Counter) (m : gmap string (list Z)) : Counter :=
  mkCounter (window c) (maxEvents c) (maxKeys c) m.

Definition DefaultMaxKeys : Z := 10000.

(** [None]: the constructor panics.  [opt]: the argument of [WithMaxKeys]. *)
Definition New (window maxEvents : Z) (opt : option Z) : option Counter :=
  if maxEvents <=? 0 then None
  else if window <=? 0 then None
  else
    let n := default DefaultMaxKeys opt in
    Some (mkCounter window maxEvents (if n <? 0 then 0 else n) ∅).

(** Number of leading timestamps before the cutoff. *)
Fixpoint stale_prefix (ts : list Z) (cutoff : Z) : nat :=
  match ts with
  | [] => 0
  | t :: ts => if t <? cutoff then S (stale_prefix ts cutoff) else 0
  end.

(** The returned slice, and the contents seen through the old header. *)
Definition trimBefore (ts : list Z) (cutoff : Z) : list Z * list Z :=
  let i := stale_prefix ts cutoff in
  if (0 <? i)%nat then (drop i ts, drop i ts ++ drop (length ts - i) ts) else (ts, ts).

Definition evictIdleLocked (c : Counter) (now : Z) : Counter :=
  let cutoff := now - window c in
  set_keys c (omap (λ ts, let '(trimmed, ts') := trimBefore ts cutoff in
                          if (length trimmed =? 0)%nat then None else Some ts') (keys c)).

Definition Allow (c : Counter) (key : string) (now : Z) : bool * Counter :=
  let cutoff := now - window c in
  let ok := bool_decide (is_Some (keys c !! key)) in
  let ts := default [] (keys c !! key) in
  let '(trimmed, ts') := trimBefore ts cutoff in
  (* the array is shared with the map's entry *)
  let c := if ok then set_keys c (<[key := ts']> (keys c)) else c in
  if maxEvents c <=? Z.of_nat (length trimmed) then
    (false, set_keys c (<[key := trimmed]> (keys c)))
  else
    let fresh := negb ok || (length trimmed =? 0)%nat in
    let c := if fresh then evictIdleLocked c now else c in
    if fresh && (0 <? maxKeys c) && (maxKeys c <=? Z.of_nat (size (keys c))) then (false, c)
    else (true, set_keys c (<[key := trimmed ++ [now]]> (keys c))).

Definition Count (c : Counter) (key : string) (now : Z) : Z * Counter :=
  let cutoff := now - window c in
  match keys c !! key with
  | None => (0, c)
  | Some ts =>
      let '(trimmed, _) := trimBefore ts cutoff in
      if (length trimmed =? 0)%nat then (0, set_keys c (delete key (keys c)))
      else (Z.of_nat (length trimmed), set_keys c (<[key := trimmed]> (keys c)))
  end.

Definition Reset_ (c : Counter) (key : string) : Counter := set_keys c (delete key (keys c)).

Definition Len (c : Counter) : Z := Z.of_nat (size (keys c)).

(** ** Runs *)

Inductive op := OAllow (key : string) (now : Z) | OCount (key : string) (now : Z) | OReset (key : string).

Definition op_time (o : op) : option Z :=
  match o with OAllow _ t | OCount _ t => Some t | OReset _ => None end.

(** One call; the granted event, if any. *)
Definition step (c : Counter) (o : op) : option (string * Z) * Counter :=
  match o with
  | OAllow k now => let '(ok, c) := Allow c k now in (if ok then Some (k, now) else None, c)
  | OCount k now => (None, (Count c k now).2)
  | OReset k => (None, Reset_ c k)
  end.

(** The events granted by a run. *)
Fixpoint run (c : Counter) (ops : list op) : list (string * Z) * Counter :=
  match ops with
  | [] => ([], c)
  | o :: ops =>
      let '(g, c) := step c o in
      let '(gs, c) := run c ops in (option_list g ++ gs, c)
  end.

(** The clock does not go backwards along the run. *)
Fixpoint monotone (t : Z) (ops : list op) : Prop :=
  match ops with
  | [] => True
  | o :: ops =>
      match op_time o with Some t' => t ≤ t' ∧ monotone t' ops | None => monotone t ops end
  end.

(** ** Specification: counting the log of granted events *)

(** Events of [key] at or after [a] (and at or before [b]). *)
Definition since (gs : list (string * Z)) (key : string) (a : Z) : nat :=
  length (filter (λ g, g.1 = key ∧ a ≤ g.2) gs).
Definition between (gs : list (string * Z)) (key : string) (a b : Z) : nat :=
  length (filter (λ g, g.1 = key ∧ a ≤ g.2 ≤ b) gs).
Definition live (ts : list Z) (a : Z) : nat := length (filter (λ t, a ≤ t) ts).

#[local] Arguments since : simpl never.
#[local] Arguments between : simpl never.
#[local] Arguments live : simpl never.

(** ** Lemmas on trimming *)

Lemma trimBefore_fst ts cutoff : (trimBefore ts cutoff).1 = drop (stale_prefix ts cutoff) ts.
Proof. unfold trimBefore. by destruct (stale_prefix ts cutoff). Qed.

Lemma live_app l1 l2 a : live (l1 ++ l2) a = (live l1 a + live l2 a)%nat.
Proof. unfold live. by rewrite filter_app, length_app. Qed.

Lemma live_drop_stale ts cutoff a : cutoff ≤ a → live (drop (stale_prefix ts cutoff) ts) a = live ts a.
Proof.
  intros Ha. induction ts as [|t ts IH]; [done|]. cbn [stale_prefix].
  destruct (Z.ltb_spec t cutoff); [|done]. cbn [drop]. rewrite IH. unfold live.
  by rewrite filter_cons_False by lia.
Qed.

(** Neither view of the slice loses an event that is still in the window. *)
Lemma trimBefore_live ts cutoff a : cutoff ≤ a →
  live (trimBefore ts cutoff).1 a = live ts a ∧ (live ts a ≤ live (trimBefore ts cutoff).2 a)%nat.
Proof.
  intros Ha. rewrite trimBefore_fst, live_drop_stale by done. split; [done|].
  unfold trimBefore. destruct (0 <? _)%nat; cbn [fst snd]; [|done].
  rewrite live_app, live_drop_stale by done. lia.
Qed.

Lemma live_length ts a : (live ts a ≤ length ts)%nat.
Proof. apply length_filter. Qed.

(** ** Invariant: the map holds every granted event that can still count *)

Definition live_of (c : Counter) (key : string) (a : Z) : nat := live (default [] (keys c !! key)) a.

Lemma evict_live c now k a : now - window c ≤ a →
  (live_of c k a ≤ live_of (evictIdleLocked c now) k a)%nat.
Proof.
  intros Ha. unfold live_of, evictIdleLocked. cbn. rewrite lookup_omap.
  destruct (keys c !! k) as [ts|]; cbn; [|unfold live; cbn; lia].
  pose proof (trimBefore_live ts (now - window c) a Ha) as [H1 H2].
  destruct (trimBefore ts (now - window c)) as [trimmed ts']. cbn in *.
  destruct trimmed; cbn in *; [|done]. rewrite <-H1. unfold live. cbn. lia.
Qed.

Lemma since_app gs1 gs2 k a : since (gs1 ++ gs2) k a = (since gs1 k a + since gs2 k a)%nat.
Proof. unfold since. by rewrite filter_app, length_app. Qed.

Lemma since_one k t k' a : since [(k, t)] k' a = if decide (k = k' ∧ a ≤ t) then 1%nat else 0%nat.
Proof. unfold since. rewrite filter_cons. cbn. by case_decide. Qed.

(** What a grant adds to the map of the counter. *)
Lemma live_of_insert c k ts k' a : live_of (set_keys c (<[k := ts]> (keys c))) k' a =
  if decide (k = k') then live ts a else live_of c k' a.
Proof.
  unfold live_of. cbn. case_decide; subst; [by rewrite lookup_insert_eq|by rewrite lookup_insert_ne].
Qed.

(** [Allow] grants only below the cap, and forgets no event that can count. *)
Lemma Allow_spec c k now (cutoff := now - window c) :
  let '(ok, c') := Allow c k now in
  window c' = window c ∧ maxEvents c' = maxEvents c ∧ maxKeys c' = maxKeys c ∧
  (∀ k' a, cutoff ≤ a →
    (live_of c k' a + (if decide (ok = true ∧ k = k' ∧ (a ≤ now)%Z) then 1 else 0) ≤ live_of c' k' a)%nat) ∧
  (ok = true → Z.of_nat (live_of c k cutoff) < maxEvents c).
Proof.
  unfold Allow. fold cutoff. set (ts := default [] (keys c !! k)).
  pose proof (λ a, trimBefore_live ts cutoff a) as Htr.
  destruct (trimBefore ts cutoff) as [trimmed ts'] eqn:Et. cbn [fst snd] in Htr.
  set (ok := bool_decide (is_Some (keys c !! k))).
  set (c1 := if ok then set_keys c (<[k := ts']> (keys c)) else c).
  assert (window c1 = window c ∧ maxEvents c1 = maxEvents c ∧ maxKeys c1 = maxKeys c) as (Hw & Hme & Hmk)
    by (subst c1; by destruct ok).
  assert (∀ k' a, cutoff ≤ a → (live_of c k' a ≤ live_of c1 k' a)%nat) as Hl1.
  { intros k' a Ha. subst c1. destruct ok; [|done]. rewrite live_of_insert. case_decide; [|done].
    subst k'. by destruct (Htr a Ha). }
  rewrite Hme. destruct (Z.leb_spec (maxEvents c) (Z.of_nat (length trimmed))) as [Hfull|Hroom].
  { split_and!; try done. intros k' a Ha. rewrite decide_False by naive_solver. rewrite live_of_insert.
    case_decide; [|rewrite Nat.add_0_r; auto]. subst k'. destruct (Htr a Ha) as [-> _]. unfold live_of. fold ts. lia. }
  set (fresh := negb ok || _). set (c2 := if fresh then evictIdleLocked c1 now else c1).
  assert (window c2 = window c ∧ maxEvents c2 = maxEvents c ∧ maxKeys c2 = maxKeys c) as (Hw2 & Hme2 & Hmk2)
    by (subst c2; by destruct fresh).
  assert (∀ k' a, cutoff ≤ a → (live_of c k' a ≤ live_of c2 k' a)%nat) as Hl2.
  { intros k' a Ha. etrans; [by apply Hl1|]. subst c2. destruct fresh; [|done].
    apply evict_live. rewrite Hw. done. }
  destruct (fresh && _ && _).
  { split_and!; try done. intros k' a Ha. rewrite decide_False by naive_solver. rewrite Nat.add_0_r. auto. }
  split_and!; try done.
  - intros k' a Ha. rewrite live_of_insert. destruct (decide (k = k')) as [<-|Hne].
    + rewrite live_app. destruct (Htr a Ha) as [-> _]. unfold live_of. fold ts.
      unfold live at 3. rewrite filter_cons. case_decide; case_decide; cbn; lia || naive_solver.
    + rewrite decide_False by naive_solver. rewrite Nat.add_0_r. auto.
  - intros _. unfold live_of. fold ts. destruct (Htr cutoff ltac:(lia)) as [<- _].
    pose proof (live_length trimmed cutoff). lia.
Qed.

Lemma Count_spec c k now k' a : now - window c ≤ a →
  live_of (Count c k now).2 k' a = live_of c k' a.
Proof.
  intros Ha. unfold Count. destruct (keys c !! k) as [ts|] eqn:Hk; [|done].
  destruct (trimBefore_live ts (now - window c) a Ha) as [Ht _].
  destruct (trimBefore ts (now - window c)) as [trimmed ts']. cbn [fst snd] in *.
  destruct (Nat.eqb_spec (length trimmed) 0) as [H0|H0]; cbn [snd].
  - apply nil_length_inv in H0 as ->. unfold live_of. cbn. destruct (decide (k = k')) as [<-|Hne].
    + by rewrite lookup_delete_eq, Hk.
    + by rewrite lookup_delete_ne.
  - rewrite live_of_insert. case_decide; [|done]. subst k'. unfold live_of. by rewrite Hk.
Qed.

Lemma Count_cfg c k now : let c' := (Count c k now).2 in
  window c' = window c ∧ maxEvents c' = maxEvents c ∧ maxKeys c' = maxKeys c.
Proof. unfold Count. destruct (keys c !! k); [|done]. destruct (trimBefore _ _). by destruct (_ =? _)%nat. Qed.

(** ** The cap along a run *)

(** After granting [gs] up to time [t]: every granted event of [k] that can
    still count is in its slice, and no window holds more than the cap. *)
Record capped (k : string) (c : Counter) (gs : list (string * Z)) (t : Z) : Prop := {
  cap_covers : ∀ a, t - window c ≤ a → (since gs k a ≤ live_of c k a)%nat;
  cap_bound : ∀ a, Z.of_nat (between gs k a (a + window c)) ≤ maxEvents c;
}.

Lemma since_anti gs k a b : a ≤ b → (since gs k b ≤ since gs k a)%nat.
Proof.
  intros Hab. unfold since. induction gs as [|[k' t] gs IH]; [done|]. rewrite !filter_cons. cbn.
  repeat case_decide; cbn; try lia; exfalso; naive_solver lia.
Qed.

Lemma between_since gs k a b : (between gs k a b ≤ since gs k a)%nat.
Proof.
  unfold between, since. induction gs as [|[k' t] gs IH]; [done|]. rewrite !filter_cons. cbn.
  repeat case_decide; cbn; try lia; exfalso; naive_solver lia.
Qed.

Lemma between_snoc gs k a b k' t : between (gs ++ [(k', t)]) k a b =
  (between gs k a b + if decide (k' = k ∧ (a ≤ t ≤ b)%Z) then 1 else 0)%nat.
Proof. unfold between. rewrite filter_app, length_app, filter_cons. cbn. by case_decide. Qed.

Lemma capped_grant k c gs t now k' :
  capped k c gs t → t ≤ now →
  let '(ok, c') := Allow c k' now in
  capped k c' (gs ++ if ok then [(k', now)] else []) now.
Proof.
  intros [Hcov Hb] Ht. pose proof (Allow_spec c k' now) as Hs.
  destruct (Allow c k' now) as [ok c']. destruct Hs as (Hw & Hm & _ & Hl & Hroom).
  split; rewrite ?Hw, ?Hm.
  - intros a Ha. rewrite since_app. specialize (Hcov a ltac:(lia)). specialize (Hl k a Ha).
    destruct ok; [|unfold since at 2; cbn in *; lia]. rewrite since_one.
    destruct (decide (k' = k ∧ a ≤ now)); [rewrite decide_True in Hl by naive_solver|]; lia.
  - intros a. destruct ok; [|rewrite app_nil_r; apply Hb]. rewrite between_snoc.
    specialize (Hb a). clear Hl. destruct (decide _) as [[-> Hin]|]; [|lia].
    pose proof (between_since gs k a (a + window c)). pose proof (since_anti gs k (now - window c) a ltac:(lia)).
    specialize (Hcov (now - window c) ltac:(lia)). specialize (Hroom eq_refl). lia.
Qed.

Definition resets (k : string) (o : op) : Prop := match o with OReset k' => k' = k | _ => False end.

Lemma capped_run k ops c gs t : capped k c gs t → monotone t ops → Forall (λ o, ¬ resets k o) ops →
  let '(gs', c') := run c ops in
  window c' = window c ∧ maxEvents c' = maxEvents c ∧ ∃ t', t ≤ t' ∧ capped k c' (gs ++ gs') t'.
Proof.
  revert c gs t. induction ops as [|o ops IH]; intros c gs t Hc Hm Hr; cbn [run].
  { rewrite app_nil_r. split_and!; try done. exists t. by split. }
  apply Forall_cons in Hr as [Ho Hr]. destruct o as [k' now|k' now|k']; cbn in *.
  - destruct Hm as [Ht Hm]. pose proof (capped_grant k c gs t now k' Hc Ht) as Hg.
    pose proof (Allow_spec c k' now) as Hs. destruct (Allow c k' now) as [ok c1].
    destruct Hs as (Hw & Hme & _). specialize (IH c1 _ now Hg Hm Hr).
    destruct (run c1 ops) as [gs' c']. destruct IH as (? & ? & t' & ? & Hcap).
    split_and!; try congruence. exists t'. split; [lia|]. rewrite <-app_assoc in Hcap. by destruct ok.
  - destruct Hm as [Ht Hm]. destruct (Count_cfg c k' now) as (Hw & Hme & _).
    assert (capped k (Count c k' now).2 gs now) as Hg.
    { destruct Hc as [Hcov Hb]. split; rewrite ?Hw, ?Hme; [|done].
      intros a Ha. rewrite Count_spec by done. apply Hcov. lia. }
    specialize (IH _ gs now Hg Hm Hr). destruct (run _ ops) as [gs' c'].
    destruct IH as (? & ? & t' & ? & ?). split_and!; try congruence. exists t'. split; [lia|done].
  - assert (capped k (Reset_ c k') gs t) as Hg.
    { destruct Hc as [Hcov Hb]. split; [|done]. intros a Ha. unfold live_of. cbn.
      rewrite lookup_delete_ne by done. by apply Hcov. }
    specialize (IH _ gs t Hg Hm Hr). destruct (run _ ops) as [gs' c']. exact IH.
Qed.

(** ** The bound on tracked keys *)

Definition key_bound (c : Counter) : Prop := 0 < maxKeys c → Z.of_nat (size (keys c)) ≤ maxKeys c.

Lemma size_evict c now : (size (keys (evictIdleLocked c now)) ≤ size (keys c))%nat.
Proof.
  unfold evictIdleLocked. cbn. rewrite <-!size_dom. apply subseteq_size.
  intros k. rewrite !elem_of_dom, lookup_omap. destruct (keys c !! k); [by eexists|]. by intros [].
Qed.

Lemma evict_key_bound c now : key_bound c → key_bound (evictIdleLocked c now).
Proof. intros Hb Hm. pose proof (size_evict c now). specialize (Hb Hm). cbn in *. lia. Qed.

Lemma present_key_bound c k ts : key_bound c → is_Some (keys c !! k) →
  key_bound (set_keys c (<[k := ts]> (keys c))).
Proof. intros Hb Hk Hm. cbn. rewrite map_size_insert_Some by done. by apply Hb. Qed.

(** The admission test of [Allow]. *)
Lemma admission_key_bound c k ts (fresh : bool) : key_bound c → (fresh = false → is_Some (keys c !! k)) →
  key_bound (if fresh && (0 <? maxKeys c) && (maxKeys c <=? Z.of_nat (size (keys c))) then (false, c)
             else (true, set_keys c (<[k := ts]> (keys c)))).2.
Proof.
  intros Hb Hk. destruct fresh; cbn [andb]; [|by apply present_key_bound; auto].
  destruct (Z.ltb_spec 0 (maxKeys c)); cbn [andb]; [|intros Hm; cbn in *; lia].
  destruct (Z.leb_spec (maxKeys c) (Z.of_nat (size (keys c)))); [done|].
  intros Hm. cbn. rewrite map_size_insert. destruct (keys c !! k); cbn in *; lia.
Qed.

Lemma Allow_key_bound c k now : 0 < maxEvents c → key_bound c → key_bound (Allow c k now).2.
Proof.
  intros Hme Hb. unfold Allow. set (cutoff := now - window c).
  pose proof (trimBefore_fst (default [] (keys c !! k)) cutoff) as Htr.
  destruct (trimBefore _ cutoff) as [trimmed ts']. cbn [fst] in Htr.
  destruct (bool_decide_reflect (is_Some (keys c !! k))) as [Hk|Hk].
  - pose proof (present_key_bound c k ts' Hb Hk) as Hb1. set (c1 := set_keys c _) in *.
    assert (is_Some (keys c1 !! k)) as Hk1 by (subst c1; cbn; rewrite lookup_insert_eq; eauto).
    destruct (_ <=? _); [by apply present_key_bound|].
    cbn [negb orb]. destruct (length trimmed =? 0)%nat; apply admission_key_bound; auto.
    + by apply evict_key_bound.
    + done.
  - apply eq_None_not_Some in Hk. rewrite Hk in Htr. cbn in Htr. subst trimmed.
    destruct (Z.leb_spec (maxEvents c) (Z.of_nat (length (@nil Z)))) as [Hle|_]; [cbn in Hle; lia|].
    cbn [negb orb]. apply admission_key_bound; [by apply evict_key_bound|done].
Qed.

Lemma run_key_bound ops c : 0 < maxEvents c → key_bound c →
  key_bound (run c ops).2 ∧ maxKeys (run c ops).2 = maxKeys c.
Proof.
  revert c. induction ops as [|o ops IH]; intros c Hme Hb; [done|]. cbn [run].
  assert (key_bound (step c o).2 ∧ maxEvents (step c o).2 = maxEvents c ∧ maxKeys (step c o).2 = maxKeys c)
    as (Hb1 & Hme1 & Hmk1).
  { destruct o as [k now|k now|k]; cbn [step snd].
    - pose proof (Allow_key_bound c k now Hme Hb) as Hb1. pose proof (Allow_spec c k now) as Hs.
      destruct (Allow c k now). cbn. naive_solver.
    - destruct (Count_cfg c k now) as (_ & Hme1 & Hmk1). split_and!; try done. intros Hm. rewrite Hmk1 in *.
      specialize (Hb Hm). etrans; [|exact Hb]. unfold Count. destruct (keys c !! k) eqn:Hk; [|done].
      destruct (trimBefore _ _). destruct (_ =? _)%nat; cbn.
      + rewrite map_size_delete, Hk. lia.
      + by rewrite map_size_insert_Some by eauto.
    - split_and!; try done. intros Hm. specialize (Hb Hm). cbn in *. etrans; [|exact Hb].
      rewrite map_size_delete. destruct (keys c !! k); cbn; lia. }
  destruct (step c o) as [g c1]. cbn [snd] in *. specialize (IH c1 ltac:(lia) Hb1).
  destruct (run c1 ops) as [gs c2]. cbn in *. split; [tauto|]. destruct IH as [_ ->]. done.
Qed.

(** ** Theorems *)

(** C7: The cap is a hard invariant: in every run of [Allow], [Count] and
    [Reset] calls on a new counter under a clock that does not go backwards, any
    interval as long as the window contains at most [maxEvents] granted events of
    a key that is never reset - in spite of the in-place trimming of slices that
    stay in the map, and of the eviction of idle keys. *)
Theorem freqcap_cap w n opt c t0 ops k a :
  New w n opt = Some c → monotone t0 ops → Forall (λ o, ¬ resets k o) ops →
  Z.of_nat (between (run c ops).1 k a (a + w)) ≤ n.
Proof.
  unfold New. destruct (Z.leb_spec n 0), (Z.leb_spec w 0); intros [= <-] Hm Hr.
  set (c := mkCounter w n _ ∅).
  assert (capped k c [] t0) as Hc 
    by (split; intros; [apply Nat.le_0_l|change (0 ≤ n); lia]).
  pose proof (capped_run k ops c [] t0 Hc Hm Hr) as Hrun. destruct (run c ops) as [gs c'].
  destruct Hrun as (Hw & Hn & t' & _ & [_ Hb]). rewrite Hw, Hn in Hb. apply Hb.
Qed.

(** The map never tracks more than [maxKeys] keys when that is positive, over
    any run and whatever the clock does. *)
Theorem freqcap_keys_bounded w n opt c ops :
  New w n opt = Some c → 0 < maxKeys c → Len (run c ops).2 ≤ maxKeys c.
Proof.
  unfold New. destruct (Z.leb_spec n 0), (Z.leb_spec w 0); intros [= <-] Hm.
  set (c := mkCounter w n _ ∅) in *.
  destruct (run_key_bound ops c ltac:(done) ltac:(intros _; change (0 ≤ maxKeys c); lia)) as [Hb Hk].
  rewrite <-Hk. apply Hb. by rewrite Hk.
Qed.

(** ** Witnesses and the stale count *)

Definition ex_c : Counter := mkCounter 10 2 10000 ∅.
Definition ex_ops : list op := [OAllow "u" 1; OAllow "u" 5; OAllow "u" 9; OAllow "v" 12; OAllow "u" 12].

Lemma freqcap_cap_witness :
  (run ex_c ex_ops).1 = [("u", 1); ("u", 5); ("v", 12)]%string ∧
  Z.of_nat (between (run ex_c ex_ops).1 "u" 0 (0 + 10)) ≤ 2.
Proof.
  split; [vm_compute; reflexivity|]. apply (freqcap_cap 10 2 None ex_c 0 ex_ops "u" 0); [done| |].
  - cbn. lia.
  - repeat constructor; cbn; tauto.
Defined.

Lemma freqcap_keys_bounded_witness :
  Len (run (mkCounter 10 2 1 ∅) [OAllow "u" 1; OAllow "v" 2]%string).2 ≤ 1.
Proof. apply (freqcap_keys_bounded 10 2 (Some 1)); [done|]. cbn. lia. Defined.

(** The eviction pass that another key's [Allow] triggers trims the slice of "u"
    in place without storing the shorter header: a stale event is counted again,
    and "u", with one event in its window and a cap of two, is denied. *)
Example freqcap_stale_overcount :
  let c := (run ex_c [OAllow "u" 1; OAllow "u" 5; OAllow "v" 12]%string).2 in
  keys c !! "u"%string = Some [5; 5] ∧ (Count c "u" 12).1 = 2 ∧ (Allow c "u" 12).1 = false ∧
  between [("u", 1); ("u", 5)]%string "u" 2 12 = 1%nat.
Proof. vm_compute. by split_and!. Qed.
