(* ===== verification/RingBuffers.v ===== *)
(** * RingBuffers: the circular buffers and the sliding-head queue

    [ringbuffer/ringbuffer.go] (bounded FIFO, blocks when full),
    [ringbuf/ringbuf.go] (bounded FIFO, overwrites the oldest element) and
    [queue/queue.go] (unbounded FIFO on a slice with a moving head).

    All three are shown to implement plain lists.  The first two share the view
    of a circular slice ([view]) and its two lemmas (writing behind the last
    element, taking the first).  For [ringbuffer] the condition variable is
    modelled as well: callers that find the buffer full (empty) sleep, every
    [Broadcast] wakes all sleepers, and woken callers re-check in any order. *)

From Stdlib Require Import ZArith Lia.
From stdpp Require Import base tactics numbers list relations.
From S2P Require Import Prelude.

(** ** Circular slices *)

Section circular.
Context {T : Type} (zero : T).

(** The [n] elements from [head], wrapping around at the end of the slice. *)
Definition view (buf : list T) (head n : nat) : list T :=
  (λ i, nth ((head + i) mod length buf) buf zero) <$> seq 0 n.

Lemma mod_inj c h i j : i < c → j < c → (h + i) mod c = (h + j) mod c → i = j.
Proof.
  intros Hi Hj Heq. pose proof (Nat.div_mod_eq (h + i) c). pose proof (Nat.div_mod_eq (h + j) c).
  destruct (lt_eq_lt_dec ((h + i) / c) ((h + j) / c)) as [[?|?]|?]; nia.
Qed.

Lemma nth_insert (buf : list T) i j x : i < length buf →
  nth j (<[i := x]> buf) zero = if decide (j = i) then x else nth j buf zero.
Proof.
  intros Hi. rewrite !nth_lookup. case_decide as Hj; subst.
  - by rewrite list_lookup_insert_eq.
  - by rewrite list_lookup_insert_ne by done.
Qed.

Lemma length_view buf h n : length (view buf h n) = n.
Proof. unfold view. by rewrite length_fmap, length_seq. Qed.

Lemma view_push buf h n x : n < length buf →
  view (<[(h + n) mod length buf := x]> buf) h (S n) = view buf h n ++ [x].
Proof.
  intros Hn. unfold view. rewrite length_insert, seq_S, fmap_app. f_equal.
  - apply list_fmap_ext. intros k i [-> Hi]%lookup_seq. cbn.
    rewrite nth_insert by (apply Nat.mod_upper_bound; lia).
    rewrite decide_False; [done|]. intros Heq. apply mod_inj in Heq; lia.
  - cbn. rewrite nth_insert by (apply Nat.mod_upper_bound; lia). by rewrite decide_True.
Qed.

Lemma view_pop buf h n z : h < length buf → S n ≤ length buf →
  view buf h (S n) = nth h buf zero :: view (<[h := z]> buf) ((h + 1) mod length buf) n.
Proof.
  intros Hh Hn. unfold view. rewrite length_insert. cbn [seq]. rewrite fmap_cons. f_equal.
  - by rewrite Nat.add_0_r, Nat.mod_small by lia.
  - rewrite <-fmap_S_seq, <-list_fmap_compose. apply list_fmap_ext.
    intros k i [-> Hi]%lookup_seq. cbn. rewrite nth_insert by done.
    rewrite Nat.Div0.add_mod_idemp_l. replace (h + 1 + k) with (h + S k) by lia.
    rewrite decide_False; [done|]. intros Heq.
    assert (S k = 0); [|lia]. apply (mod_inj (length buf) h); [lia|lia|].
    by rewrite Nat.add_0_r, (Nat.mod_small h).
Qed.

(** Overwriting the oldest element of a full slice. *)
Lemma view_rotate buf h x : h < length buf →
  view (<[h := x]> buf) ((h + 1) mod length buf) (length buf) =
  drop 1 (view buf h (length buf)) ++ [x].
Proof.
  intros Hh. destruct (Nat.lt_exists_pred 0 (length buf)) as (n & Hlen & _); [lia|].
  pose proof (view_push (<[h := x]> buf) ((h + 1) mod length buf) n x) as Hpush.
  rewrite length_insert in Hpush. rewrite Hlen at 2 3. rewrite (view_pop buf h n x) by lia.
  rewrite skipn_cons, drop_0, <-Hpush by lia. f_equal.
  replace (((h + 1) mod length buf + n) mod length buf) with h.
  { by rewrite list_insert_insert, decide_True. }
  rewrite Nat.Div0.add_mod_idemp_l. replace (h + 1 + n) with (h + 1 * length buf) by lia.
  rewrite Nat.Div0.mod_add. by rewrite Nat.mod_small.
Qed.
End circular.

(** ** ringbuffer/ringbuffer.go *)

Module RingBuffer.
Section ringbuffer.
Context {T : Type} (zero : T).

Inductive Error := ErrClosed.

Record t := mk {
  buf : list T; head : nat; tail : nat; count : nat; cap : nat; closed : bool }.

Definition New (capacity : Z) : t :=
  let capacity := if (capacity <? 1)%Z then 1%Z else capacity in
  mk (replicate (Z.to_nat capacity) zero) 0 0 0 (Z.to_nat capacity) false.

(** The write and read that [Push]/[TryPush] and [Pop]/[TryPop] share. *)
Definition write (rb : t) (item : T) : t :=
  mk (<[head rb := item]> (buf rb)) ((head rb + 1) mod cap rb) (tail rb) (count rb + 1)
    (cap rb) (closed rb).
Definition read (rb : t) : T * t :=
  (nth (tail rb) (buf rb) zero,
   mk (<[tail rb := zero]> (buf rb)) (head rb) ((tail rb + 1) mod cap rb) (count rb - 1)
     (cap rb) (closed rb)).

(** One pass of the wait loop's test; [None]: [cond.Wait()]. *)
Definition Push (rb : t) (item : T) : option (result Error unit * t) :=
  if (count rb =? cap rb) && negb (closed rb) then None
  else if closed rb then Some (Err ErrClosed, rb)
  else Some (Ok tt, write rb item).

Definition TryPush (rb : t) (item : T) : bool * t :=
  if (count rb =? cap rb) || closed rb then (false, rb) else (true, write rb item).

Definition Pop (rb : t) : option (result Error T * t) :=
  if (count rb =? 0) && negb (closed rb) then None
  else if (count rb =? 0) && closed rb then Some (Err ErrClosed, rb)
  else let '(item, rb) := read rb in Some (Ok item, rb).

Definition TryPop (rb : t) : option T * t :=
  if count rb =? 0 then (None, rb) else let '(item, rb) := read rb in (Some item, rb).

Definition Len (rb : t) : nat := count rb.
Definition Cap (rb : t) : nat := cap rb.
Definition IsFull (rb : t) : bool := count rb =? cap rb.
Definition IsEmpty (rb : t) : bool := count rb =? 0.

(** [for i := range rb.count { out[i] = buf[tail]; buf[tail] = zero; ... }] *)
Fixpoint drain_loop (n : nat) (b : list T) (tl c : nat) : list T * list T * nat :=
  match n with
  | O => ([], b, tl)
  | S n =>
      let x := nth tl b zero in
      let '(out, b, tl) := drain_loop n (<[tl := zero]> b) ((tl + 1) mod c) c in (x :: out, b, tl)
  end.

Definition Drain (rb : t) : list T * t :=
  let '(out, b, tl) := drain_loop (count rb) (buf rb) (tail rb) (cap rb) in
  (out, mk b tl tl 0 (cap rb) (closed rb)).

Definition Close (rb : t) : t := mk (buf rb) (head rb) (tail rb) (count rb) (cap rb) true.

(** *** Callers and the condition variable *)

(** [awake*]: callers about to test the loop's condition (entering, or woken);
    [asleep*]: callers inside [cond.Wait()].  Pushers carry their item.
    [pushed], [popped]: the items accepted and handed out, in order. *)
Record sys := mkSys {
  rb : t; awakePush : list T; awakePop : nat; asleepPush : list T; asleepPop : nat;
  pushed : list T; popped : list T }.

Definition broadcast (s : sys) : sys :=
  mkSys (rb s) (awakePush s ++ asleepPush s) (awakePop s + asleepPop s) [] 0 (pushed s) (popped s).
Definition update (s : sys) (r : t) (ins outs : list T) : sys :=
  mkSys r (awakePush s) (awakePop s) (asleepPush s) (asleepPop s) (pushed s ++ ins) (popped s ++ outs).
Definition set_pushers (s : sys) (aw asl : list T) : sys :=
  mkSys (rb s) aw (awakePop s) asl (asleepPop s) (pushed s) (popped s).
Definition set_poppers (s : sys) (aw asl : nat) : sys :=
  mkSys (rb s) (awakePush s) aw (asleepPush s) asl (pushed s) (popped s).

Inductive step : sys → sys → Prop :=
| st_enter_push s x : step s (set_pushers s (x :: awakePush s) (asleepPush s))
| st_enter_pop s : step s (set_poppers s (S (awakePop s)) (asleepPop s))
| st_push_wait s l1 x l2 : awakePush s = l1 ++ x :: l2 → Push (rb s) x = None →
    step s (set_pushers s (l1 ++ l2) (x :: asleepPush s))
| st_push_closed s l1 x l2 r : awakePush s = l1 ++ x :: l2 →
    Push (rb s) x = Some (Err ErrClosed, r) →
    step s (update (set_pushers s (l1 ++ l2) (asleepPush s)) r [] [])
| st_push_ok s l1 x l2 r : awakePush s = l1 ++ x :: l2 → Push (rb s) x = Some (Ok tt, r) →
    step s (broadcast (update (set_pushers s (l1 ++ l2) (asleepPush s)) r [x] []))
| st_pop_wait s n : awakePop s = S n → Pop (rb s) = None →
    step s (set_poppers s n (S (asleepPop s)))
| st_pop_closed s n r : awakePop s = S n → Pop (rb s) = Some (Err ErrClosed, r) →
    step s (update (set_poppers s n (asleepPop s)) r [] [])
| st_pop_ok s n x r : awakePop s = S n → Pop (rb s) = Some (Ok x, r) →
    step s (broadcast (update (set_poppers s n (asleepPop s)) r [] [x]))
| st_trypush s x r : TryPush (rb s) x = (true, r) → step s (broadcast (update s r [x] []))
| st_trypush_no s x r : TryPush (rb s) x = (false, r) → step s (update s r [] [])
| st_trypop s x r : TryPop (rb s) = (Some x, r) → step s (broadcast (update s r [] [x]))
| st_trypop_no s r : TryPop (rb s) = (None, r) → step s (update s r [] [])
| st_drain s : step s (broadcast (update s (Drain (rb s)).2 [] (Drain (rb s)).1))
| st_close s : step s (broadcast (update s (Close (rb s)) [] [])).

Definition init (capacity : Z) : sys := mkSys (New capacity) [] 0 [] 0 [] [].

(** *** Invariant *)

Record wf (rb : t) : Prop := {
  wf_len : length (buf rb) = cap rb;
  wf_pos : 0 < cap rb;
  wf_count : count rb ≤ cap rb;
  wf_tail : tail rb < cap rb;
  wf_head : head rb = (tail rb + count rb) mod cap rb }.

Definition contents (rb : t) : list T := view zero (buf rb) (tail rb) (count rb).

Lemma New_wf c : wf (New c) ∧ contents (New c) = [].
Proof.
  unfold New. destruct (Z.ltb_spec c 1); (split; [|done]); split; cbn;
    rewrite ?length_replicate; try lia; rewrite Nat.Div0.mod_0_l; done.
Qed.

Lemma write_spec r x : wf r → count r < cap r →
  wf (write r x) ∧ contents (write r x) = contents r ++ [x] ∧ closed (write r x) = closed r.
Proof.
  intros [Hl Hp Hc Ht Hh] Hlt. split; [|split; [|done]].
  - split; cbn; rewrite ?length_insert; try lia.
    rewrite Hh, Nat.Div0.add_mod_idemp_l. f_equal. lia.
  - unfold contents. cbn. rewrite Hh, <-Hl, Nat.add_1_r. apply view_push. lia.
Qed.

Lemma read_spec r : wf r → count r ≠ 0 →
  wf (read r).2 ∧ contents r = (read r).1 :: contents (read r).2 ∧ closed (read r).2 = closed r.
Proof.
  intros [Hl Hp Hc Ht Hh] Hne. split; [|split; [|done]].
  - split; cbn; rewrite ?length_insert; try lia; [apply Nat.mod_upper_bound; lia|].
    rewrite Hh, Nat.Div0.add_mod_idemp_l. f_equal. lia.
  - unfold contents. cbn. destruct (count r) as [|n] eqn:Hn; [done|].
    rewrite (view_pop zero _ _ _ zero) by lia. rewrite Hl. cbn. by rewrite Nat.sub_0_r.
Qed.

Lemma drain_loop_spec n b tl c : length b = c → tl < c → n ≤ c →
  let '(out, b', tl') := drain_loop n b tl c in
  out = view zero b tl n ∧ length b' = c ∧ tl' < c.
Proof.
  revert b tl. induction n as [|n IH]; intros b tl Hb Htl Hn; [done|]. cbn [drain_loop].
  specialize (IH (<[tl := zero]> b) ((tl + 1) mod c)). rewrite length_insert in IH.
  specialize (IH Hb ltac:(apply Nat.mod_upper_bound; lia) ltac:(lia)).
  destruct (drain_loop n _ _ c) as [[out b'] tl']. destruct IH as (-> & ? & ?).
  split; [|done]. rewrite (view_pop zero b tl n zero) by lia. by rewrite Hb.
Qed.

Lemma Drain_spec r : wf r →
  wf (Drain r).2 ∧ (Drain r).1 = contents r ∧ contents (Drain r).2 = [] ∧ closed (Drain r).2 = closed r.
Proof.
  intros [Hl Hp Hc Ht Hh]. unfold Drain.
  pose proof (drain_loop_spec (count r) (buf r) (tail r) (cap r) Hl Ht Hc) as Hd.
  destruct (drain_loop _ _ _ _) as [[out b'] tl']. destruct Hd as (-> & ? & ?).
  split_and!; try done. split; cbn; try lia. rewrite Nat.add_0_r. by rewrite Nat.mod_small.
Qed.

(** Each way a step changes the buffer: nothing, one item in, items out, close. *)
Lemma Push_ok r x r' : Push r x = Some (Ok tt, r') → count r ≠ cap r ∧ closed r = false ∧ r' = write r x.
Proof.
  unfold Push. destruct (Nat.eqb_spec (count r) (cap r)), (closed r); cbn; intros; by simplify_eq.
Qed.
Lemma Push_wait r x : Push r x = None → count r = cap r ∧ closed r = false.
Proof.
  unfold Push. destruct (Nat.eqb_spec (count r) (cap r)), (closed r); cbn; intros; by simplify_eq.
Qed.
Lemma Push_closed r x r' : Push r x = Some (Err ErrClosed, r') → r' = r.
Proof. unfold Push. destruct (_ =? _), (closed r); cbn; intros; by simplify_eq. Qed.

Lemma TryPush_cases r x b r' : TryPush r x = (b, r') →
  if b then count r ≠ cap r ∧ closed r = false ∧ r' = write r x else r' = r.
Proof.
  unfold TryPush. destruct (Nat.eqb_spec (count r) (cap r)), (closed r); cbn; intros; by simplify_eq.
Qed.

Lemma Pop_ok r x r' : Pop r = Some (Ok x, r') → count r ≠ 0 ∧ x = (read r).1 ∧ r' = (read r).2.
Proof.
  unfold Pop. destruct (Nat.eqb_spec (count r) 0), (closed r); cbn; intros; by simplify_eq.
Qed.
Lemma Pop_wait r : Pop r = None → count r = 0 ∧ closed r = false.
Proof.
  unfold Pop. destruct (Nat.eqb_spec (count r) 0), (closed r); cbn; intros; by simplify_eq.
Qed.
Lemma Pop_closed r r' : Pop r = Some (Err ErrClosed, r') → r' = r.
Proof. unfold Pop. destruct (_ =? _), (closed r); cbn; intros; by simplify_eq. Qed.

Lemma TryPop_cases r o r' : TryPop r = (o, r') →
  match o with Some x => count r ≠ 0 ∧ x = (read r).1 ∧ r' = (read r).2 | None => r' = r end.
Proof. unfold TryPop. destruct (Nat.eqb_spec (count r) 0); cbn; intros; by simplify_eq. Qed.

Record sinv (s : sys) : Prop := {
  si_wf : wf (rb s);
  si_fifo : pushed s = popped s ++ contents (rb s);
  si_push : asleepPush s ≠ [] → count (rb s) = cap (rb s) ∧ closed (rb s) = false;
  si_pop : asleepPop s ≠ 0 → count (rb s) = 0 ∧ closed (rb s) = false }.

(** A broadcast leaves nobody asleep, so only the buffer has to be accounted for. *)
Lemma sinv_broadcast s r ins outs : wf r →
  pushed s ++ ins = popped s ++ outs ++ contents r → sinv (broadcast (update s r ins outs)).
Proof. intros Hr Hf. split; cbn; try done. by rewrite <-app_assoc. Qed.

Lemma sinv_quiet s : sinv s → sinv (update s (rb s) [] []).
Proof. intros [? ? ? ?]. split; cbn; rewrite ?app_nil_r; done. Qed.

Lemma sinv_write s x : wf (rb s) → pushed s = popped s ++ contents (rb s) →
  count (rb s) ≠ cap (rb s) → sinv (broadcast (update s (write (rb s) x) [x] [])).
Proof.
  intros Hwf Hf Hne. destruct (write_spec (rb s) x Hwf) as (? & Hc & _); [destruct Hwf; lia|].
  apply sinv_broadcast; [done|]. by rewrite Hc, Hf, <-app_assoc.
Qed.

Lemma sinv_read s : wf (rb s) → pushed s = popped s ++ contents (rb s) →
  count (rb s) ≠ 0 → sinv (broadcast (update s (read (rb s)).2 [] [(read (rb s)).1])).
Proof.
  intros Hwf Hf Hne. destruct (read_spec (rb s) Hwf Hne) as (? & Hc & _).
  apply sinv_broadcast; [done|]. rewrite app_nil_r, Hf. by rewrite Hc at 1.
Qed.

Lemma sinv_step s s' : step s s' → sinv s → sinv s'.
Proof.
  intros Hst Hi. pose proof Hi as [Hwf Hf Hpu Hpo]. destruct Hst as
    [s x|s|s l1 x l2 Ha Hp|s l1 x l2 r Ha Hp|s l1 x l2 r Ha Hp|s n Ha Hp|s n r Ha Hp|s n x r Ha Hp
    |s x r Hp|s x r Hp|s x r Hp|s r Hp|s|s].
  - by split.
  - by split.
  - apply Push_wait in Hp. by split.
  - apply Push_closed in Hp as ->. apply (sinv_quiet (set_pushers s (l1 ++ l2) (asleepPush s))). by split.
  - apply Push_ok in Hp as (? & ? & ->). by apply (sinv_write (set_pushers s (l1 ++ l2) (asleepPush s))).
  - apply Pop_wait in Hp. by split.
  - apply Pop_closed in Hp as ->. apply (sinv_quiet (set_poppers s n (asleepPop s))). by split.
  - apply Pop_ok in Hp as (? & -> & ->). by apply (sinv_read (set_poppers s n (asleepPop s))).
  - apply TryPush_cases in Hp as (? & ? & ->). by apply sinv_write.
  - apply TryPush_cases in Hp as ->. by apply sinv_quiet.
  - apply TryPop_cases in Hp as (? & -> & ->). by apply sinv_read.
  - apply TryPop_cases in Hp as ->. by apply sinv_quiet.
  - destruct (Drain_spec (rb s) Hwf) as (? & -> & Hc & _). apply sinv_broadcast; [done|].
    by rewrite Hc, !app_nil_r.
  - apply sinv_broadcast; [destruct Hwf; by split|]. by rewrite app_nil_r.
Qed.

Lemma reach_sinv c s : rtc step (init c) s → sinv s.
Proof.
  intros Hr. cut (sinv (init c)).
  { induction Hr as [|s1 s2 s3 Hst _ IH]; [done|]. eauto using sinv_step. }
  destruct (New_wf c) as [? Hc]. by split.
Qed.
End ringbuffer.
End RingBuffer.

(** ** ringbuf/ringbuf.go *)

Module RingBuf.
Section ringbuf.
Context {T : Type} (zero : T).

Inductive Error := ErrEmpty.

Record t := mk { buf : list T; head : nat; size : nat; cap : nat }.

(** [None]: the constructor panics. *)
Definition New (capacity : Z) : option t :=
  if (capacity <=? 0)%Z then None
  else Some (mk (replicate (Z.to_nat capacity) zero) 0 0 (Z.to_nat capacity)).

Definition Push (c : t) (v : T) : t :=
  if size c <? cap c then
    mk (<[(head c + size c) mod cap c := v]> (buf c)) (head c) (size c + 1) (cap c)
  else mk (<[head c := v]> (buf c)) ((head c + 1) mod cap c) (size c) (cap c).

Definition Pop (c : t) : result Error T * t :=
  if size c =? 0 then (Err ErrEmpty, c)
  else (Ok (nth (head c) (buf c) zero),
        mk (<[head c := zero]> (buf c)) ((head c + 1) mod cap c) (size c - 1) (cap c)).

Definition At (c : t) (i : Z) : result Error T :=
  if (i <? 0)%Z || (Z.of_nat (size c) <=? i)%Z then Err ErrEmpty
  else Ok (nth ((head c + Z.to_nat i) mod cap c) (buf c) zero).

Definition Latest (c : t) : result Error T := At c (Z.of_nat (size c) - 1).

Definition Clear (c : t) : t := mk (replicate (length (buf c)) zero) 0 0 (cap c).

Definition ToSlice (c : t) : list T :=
  (λ i, nth ((head c + i) mod cap c) (buf c) zero) <$> seq 0 (size c).

Inductive op := OPush (v : T) | OPop | OAt (i : Z) | OLatest | OClear | OToSlice.
Inductive reply := RUnit | RElem (r : result Error T) | RList (l : list T).

Definition step (c : t) (o : op) : reply * t :=
  match o with
  | OPush v => (RUnit, Push c v)
  | OPop => let '(r, c) := Pop c in (RElem r, c)
  | OAt i => (RElem (At c i), c)
  | OLatest => (RElem (Latest c), c)
  | OClear => (RUnit, Clear c)
  | OToSlice => (RList (ToSlice c), c)
  end.

(** The specification: the last [n] values pushed and not popped. *)
Definition elem_of (o : option T) : reply := RElem (match o with Some x => Ok x | None => Err ErrEmpty end).
Definition spec_step (n : nat) (l : list T) (o : op) : reply * list T :=
  match o with
  | OPush v => (RUnit, (if length l <? n then l else drop 1 l) ++ [v])
  | OPop => (elem_of (l !! 0), drop 1 l)
  | OAt i => (elem_of (if (i <? 0)%Z then None else l !! Z.to_nat i), l)
  | OLatest => (elem_of (last l), l)
  | OClear => (RUnit, [])
  | OToSlice => (RList l, l)
  end.

Record wf (c : t) : Prop := {
  wf_len : length (buf c) = cap c; wf_size : size c ≤ cap c; wf_head : head c < cap c }.
Definition contents (c : t) : list T := view zero (buf c) (head c) (size c).

Lemma ToSlice_contents c : wf c → ToSlice c = contents c.
Proof. intros [Hl _ _]. unfold ToSlice, contents, view. by rewrite Hl. Qed.

Lemma Push_spec c v : wf c → wf (Push c v) ∧ cap (Push c v) = cap c ∧
  contents (Push c v) = (if length (contents c) <? cap c then contents c else drop 1 (contents c)) ++ [v].
Proof.
  intros [Hl Hs Hh]. unfold Push, contents. rewrite length_view.
  destruct (Nat.ltb_spec (size c) (cap c)); cbn [buf head size cap].
  - split; [|split; [done|]].
    + split; cbn; rewrite ?length_insert; lia.
    + rewrite Nat.add_1_r, <-Hl. apply view_push. lia.
  - assert (size c = cap c) as -> by lia. split; [|split; [done|]].
    + split; cbn; rewrite ?length_insert; try lia. apply Nat.mod_upper_bound. lia.
    + rewrite <-Hl. apply view_rotate. lia.
Qed.

Lemma Pop_spec c : wf c → wf (Pop c).2 ∧ cap (Pop c).2 = cap c ∧
  contents (Pop c).2 = drop 1 (contents c) ∧
  (Pop c).1 = match contents c !! 0 with Some x => Ok x | None => Err ErrEmpty end.
Proof.
  intros Hc. pose proof Hc as [Hl Hs Hh]. unfold Pop, contents.
  destruct (Nat.eqb_spec (size c) 0) as [Hz|Hz].
  - cbn [fst snd]. rewrite Hz. by split_and!.
  - destruct (size c) as [|n] eqn:Hn; [done|]. cbn [buf head size cap fst snd].
    rewrite (view_pop zero _ _ _ zero) by lia. rewrite Hl. cbn. rewrite Nat.sub_0_r.
    split_and!; try done. split; cbn; rewrite ?length_insert; try lia. apply Nat.mod_upper_bound. lia.
Qed.

Lemma At_spec c i : wf c →
  At c i = match (if (i <? 0)%Z then None else contents c !! Z.to_nat i) with
           | Some x => Ok x | None => Err ErrEmpty end.
Proof.
  intros [Hl Hs Hh]. unfold At, contents, view. destruct (Z.ltb_spec i 0); [done|]. cbn [orb].
  rewrite list_lookup_fmap. destruct (Z.leb_spec (Z.of_nat (size c)) i).
  - by rewrite lookup_seq_ge by lia.
  - rewrite lookup_seq_lt by lia. cbn. by rewrite Hl.
Qed.

Lemma ringbuf_step_refines c o : wf c →
  wf (step c o).2 ∧ cap (step c o).2 = cap c ∧
  spec_step (cap c) (contents c) o = ((step c o).1, contents (step c o).2).
Proof.
  intros Hc. destruct o as [v| |i| | |]; cbn [step spec_step].
  - destruct (Push_spec c v Hc) as (? & ? & Hp). cbn [fst snd]. rewrite Hp. by split_and!.
  - destruct (Pop_spec c Hc) as (? & ? & Hp & Hr). destruct (Pop c) as [r c']. cbn [fst snd] in *.
    split_and!; try done. by rewrite Hp, Hr.
  - split_and!; try done. by rewrite (At_spec c i Hc).
  - split_and!; try done. unfold Latest. rewrite (At_spec c _ Hc). cbn [fst snd]. do 2 f_equal.
    rewrite last_lookup. unfold contents. rewrite length_view.
    destruct (size c) as [|n]; cbn [Z.of_nat]; [done|].
    destruct (Z.ltb_spec (Z.of_nat (S n) - 1) 0); [lia|].
    by replace (Z.to_nat (Z.of_nat (S n) - 1)) with (pred (S n)) by lia.
  - split; [|done]. destruct Hc. split; cbn; rewrite ?length_replicate; lia.
  - split_and!; try done. by rewrite ToSlice_contents.
Qed.

Fixpoint run (c : t) (ops : list op) : list reply * t :=
  match ops with
  | [] => ([], c)
  | o :: ops => let '(r, c) := step c o in let '(rs, c) := run c ops in (r :: rs, c)
  end.
Fixpoint spec_run (n : nat) (l : list T) (ops : list op) : list reply * list T :=
  match ops with
  | [] => ([], l)
  | o :: ops => let '(r, l) := spec_step n l o in let '(rs, l) := spec_run n l ops in (r :: rs, l)
  end.

Lemma ringbuf_run_refines ops c : wf c →
  spec_run (cap c) (contents c) ops = ((run c ops).1, contents (run c ops).2).
Proof.
  revert c. induction ops as [|o ops IH]; intros c Hc; [done|]. cbn [run spec_run].
  destruct (ringbuf_step_refines c o Hc) as (Hc' & Hcap & ->). destruct (step c o) as [r c']. cbn [fst snd] in *.
  rewrite <-Hcap, IH by done. by destruct (run c' ops).
Qed.
End ringbuf.
End RingBuf.

(** ** queue/queue.go *)

Module Queue.
Section queue.
Context {T : Type} (zero : T).

Record t := mk { items : list T; head : nat }.

Definition New (vals : list T) : t := mk vals 0.
Definition Enqueue (q : t) (v : T) : t := mk (items q ++ [v]) (head q).

Definition Dequeue (q : t) : option T * t :=
  if length (items q) <=? head q then (None, q)
  else
    let v := nth (head q) (items q) zero in
    let its := <[head q := zero]> (items q) in
    let h := head q + 1 in
    (* copy the rest to the front, cut the slice there *)
    if length its / 2 <? h then (Some v, mk (drop h its) 0) else (Some v, mk its h).

Definition Front (q : t) : option T :=
  if length (items q) <=? head q then None else Some (nth (head q) (items q) zero).
Definition Back (q : t) : option T :=
  if length (items q) <=? head q then None else Some (nth (length (items q) - 1) (items q) zero).
Definition Len (q : t) : nat := length (items q) - head q.
Definition IsEmpty (q : t) : bool := length (items q) <=? head q.
Definition Clear (q : t) : t := mk [] 0.
Definition ToSlice (q : t) : list T := drop (head q) (items q).

Inductive op := OEnqueue (v : T) | ODequeue | OFront | OBack | OLen | OIsEmpty | OClear | OToSlice.
Inductive reply := RUnit | RElem (o : option T) | RLen (n : nat) | RBool (b : bool) | RList (l : list T).

Definition step (q : t) (o : op) : reply * t :=
  match o with
  | OEnqueue v => (RUnit, Enqueue q v)
  | ODequeue => let '(r, q) := Dequeue q in (RElem r, q)
  | OFront => (RElem (Front q), q)
  | OBack => (RElem (Back q), q)
  | OLen => (RLen (Len q), q)
  | OIsEmpty => (RBool (IsEmpty q), q)
  | OClear => (RUnit, Clear q)
  | OToSlice => (RList (ToSlice q), q)
  end.

Definition spec_step (l : list T) (o : op) : reply * list T :=
  match o with
  | OEnqueue v => (RUnit, l ++ [v])
  | ODequeue => (RElem (l !! 0), drop 1 l)
  | OFront => (RElem (l !! 0), l)
  | OBack => (RElem (last l), l)
  | OLen => (RLen (length l), l)
  | OIsEmpty => (RBool (length l =? 0), l)
  | OClear => (RUnit, [])
  | OToSlice => (RList l, l)
  end.

(** At most half of the slice is dead. *)
Definition compact (q : t) : Prop := head q ≤ length (items q) / 2.

Lemma compact_le q : compact q → head q ≤ length (items q).
Proof. unfold compact. intros ?. pose proof (Nat.Div0.div_le_upper_bound (length (items q)) 2 (length (items q))). lia. Qed.

Lemma front_lookup q : head q < length (items q) → ToSlice q !! 0 = Some (nth (head q) (items q) zero).
Proof.
  intros Hh. unfold ToSlice. rewrite lookup_drop, Nat.add_0_r, nth_lookup.
  by destruct (lookup_lt_is_Some_2 (items q) (head q) Hh) as [x ->].
Qed.

Lemma Dequeue_spec q : compact q →
  compact (Dequeue q).2 ∧ (Dequeue q).1 = ToSlice q !! 0 ∧ ToSlice (Dequeue q).2 = drop 1 (ToSlice q).
Proof.
  intros Hc. unfold Dequeue. destruct (Nat.leb_spec (length (items q)) (head q)) as [Hle|Hlt].
  - unfold ToSlice. cbn [fst snd]. rewrite drop_ge by lia. by split_and!.
  - rewrite front_lookup by done. rewrite length_insert.
    assert (drop (head q + 1) (<[head q := zero]> (items q)) = drop 1 (ToSlice q)) as Hd.
    { unfold ToSlice. rewrite drop_drop, drop_insert_lt by lia. done. }
    destruct (Nat.ltb_spec (length (items q) / 2) (head q + 1)); cbn [fst snd].
    + split_and!; [apply Nat.le_0_l|done|]. rewrite <-Hd. unfold ToSlice. cbn. by rewrite drop_0.
    + split_and!; [|done|exact Hd]. unfold compact. cbn. by rewrite length_insert.
Qed.

Lemma queue_step_refines q o : compact q →
  compact (step q o).2 ∧ spec_step (ToSlice q) o = ((step q o).1, ToSlice (step q o).2).
Proof.
  intros Hc. pose proof (compact_le q Hc) as Hle.
  destruct o as [v| | | | | | |]; cbn [step spec_step fst snd]; unfold Front, Back, IsEmpty, Len.
  - split.
    + unfold compact, Enqueue in *. cbn [items head]. rewrite length_app. etrans; [exact Hc|].
      apply Nat.Div0.div_le_mono. lia.
    + unfold ToSlice. cbn. by rewrite drop_app_le by lia.
  - destruct (Dequeue_spec q Hc) as (? & Hr & Hd). destruct (Dequeue q) as [r q']. cbn [fst snd] in *.
    split; [done|]. by rewrite Hr, Hd.
  - split; [done|]. destruct (Nat.leb_spec (length (items q)) (head q)).
    + unfold ToSlice. by rewrite drop_ge by lia.
    + by rewrite front_lookup.
  - split; [done|]. unfold ToSlice. rewrite last_lookup, length_drop.
    destruct (Nat.leb_spec (length (items q)) (head q)) as [?|Hlt]; [by rewrite drop_ge by lia|].
    rewrite lookup_drop, nth_lookup.
    replace (head q + pred (length (items q) - head q)) with (length (items q) - 1) by lia.
    destruct (lookup_lt_is_Some_2 (items q) (length (items q) - 1)) as [x ->]; [lia|done].
  - split; [done|]. unfold ToSlice. by rewrite length_drop.
  - split; [done|]. unfold ToSlice. rewrite length_drop. do 2 f_equal.
    destruct (Nat.leb_spec (length (items q)) (head q)), (Nat.eqb_spec (length (items q) - head q) 0);
      done || lia.
  - split; [|done]. apply Nat.le_0_l.
  - by split.
Qed.

Fixpoint run (q : t) (ops : list op) : list reply * t :=
  match ops with
  | [] => ([], q)
  | o :: ops => let '(r, q) := step q o in let '(rs, q) := run q ops in (r :: rs, q)
  end.
Fixpoint spec_run (l : list T) (ops : list op) : list reply * list T :=
  match ops with
  | [] => ([], l)
  | o :: ops => let '(r, l) := spec_step l o in let '(rs, l) := spec_run l ops in (r :: rs, l)
  end.

Lemma queue_run_refines ops q : compact q →
  compact (run q ops).2 ∧ spec_run (ToSlice q) ops = ((run q ops).1, ToSlice (run q ops).2).
Proof.
  revert q. induction ops as [|o ops IH]; intros q Hq; [done|]. cbn [run spec_run].
  destruct (queue_step_refines q o Hq) as (Hq' & ->). destruct (step q o) as [r q']. cbn [fst snd] in *.
  destruct (IH q' Hq') as [? ->]. by destruct (run q' ops).
Qed.
End queue.
End Queue.

(** ** Theorems *)

(** C13: In every interleaving of blocking and non-blocking producers and
    consumers, drains and closes, the buffer is a bounded FIFO: the items
    accepted so far are the items handed out so far, in the same order, followed
    by the items it holds, and it never holds more than its capacity. *)
Theorem ringbuffer_fifo {T} (zero : T) capacity s :
  rtc (RingBuffer.step zero) (RingBuffer.init zero capacity) s →
  RingBuffer.pushed s = RingBuffer.popped s ++ RingBuffer.contents zero (RingBuffer.rb s) ∧
  length (RingBuffer.contents zero (RingBuffer.rb s)) ≤ RingBuffer.Cap (RingBuffer.rb s).
Proof.
  intros Hr. destruct (RingBuffer.reach_sinv zero capacity s Hr) as [Hwf Hf _ _].
  split; [done|]. unfold RingBuffer.contents. rewrite length_view. by apply RingBuffer.wf_count.
Qed.

(** No wake-up is lost: whenever a [Push] caller sleeps the buffer is full and
    open, whenever a [Pop] caller sleeps it is empty and open; so producers and
    consumers never sleep at the same time, and after [Close] nobody sleeps. *)
Theorem ringbuffer_no_lost_wakeup {T} (zero : T) capacity s :
  rtc (RingBuffer.step zero) (RingBuffer.init zero capacity) s →
  (RingBuffer.asleepPush s ≠ [] →
     RingBuffer.IsFull (RingBuffer.rb s) = true ∧ RingBuffer.closed (RingBuffer.rb s) = false) ∧
  (RingBuffer.asleepPop s ≠ 0 →
     RingBuffer.IsEmpty (RingBuffer.rb s) = true ∧ RingBuffer.closed (RingBuffer.rb s) = false) ∧
  (RingBuffer.asleepPush s = [] ∨ RingBuffer.asleepPop s = 0).
Proof.
  intros Hr. destruct (RingBuffer.reach_sinv zero capacity s Hr) as [Hwf _ Hpu Hpo].
  unfold RingBuffer.IsFull, RingBuffer.IsEmpty. rewrite !Nat.eqb_eq. split_and!; [done|done|].
  destruct (RingBuffer.asleepPush s); [by left|]. destruct (RingBuffer.asleepPop s); [by right|].
  destruct Hpu as [? _], Hpo as [? _]; [done..|]. destruct Hwf. lia.
Qed.

(** The overwriting ring buffer keeps the last [capacity] values: every
    history of [Push], [Pop], [At], [Latest], [Clear] and [ToSlice] on a new
    buffer gives the answers of the list in which a push on a full buffer drops
    the oldest value. *)
Theorem ringbuf_refines {T} (zero : T) capacity c ops :
  RingBuf.New zero capacity = Some c →
  (RingBuf.run zero c ops).1 = (RingBuf.spec_run (Z.to_nat capacity) [] ops).1.
Proof.
  unfold RingBuf.New. destruct (Z.leb_spec capacity 0); intros [= <-].
  set (c := RingBuf.mk _ _ _ _).
  assert (RingBuf.wf c) as Hc by (split; cbn; rewrite ?length_replicate; lia).
  pose proof (RingBuf.ringbuf_run_refines zero ops c Hc) as Hr.
  change (RingBuf.contents zero c) with (@nil T) in Hr. change (RingBuf.cap c) with (Z.to_nat capacity) in Hr.
  by rewrite Hr.
Qed.

(** The sliding-head queue is a FIFO list: every history of operations gives
    the answers of the list specification, and the compaction keeps the dead
    prefix of the slice to at most half of it. *)
Theorem queue_refines {T} (zero : T) vals ops :
  (Queue.run zero (Queue.New vals) ops).1 = (Queue.spec_run vals ops).1 ∧
  Queue.head (Queue.run zero (Queue.New vals) ops).2
    ≤ length (Queue.items (Queue.run zero (Queue.New vals) ops).2) / 2.
Proof.
  assert (Queue.compact (Queue.New vals)) as Hc by apply Nat.le_0_l.
  destruct (Queue.queue_run_refines zero ops _ Hc) as [Hc' Hr]. split; [|exact Hc'].
  change (Queue.ToSlice (Queue.New vals)) with (drop 0 vals) in Hr. rewrite drop_0 in Hr. by rewrite Hr.
Qed.

(** ** Witnesses *)

Lemma ringbuffer_ex (s1 := RingBuffer.init 0%Z 1)
    (s2 := RingBuffer.broadcast (RingBuffer.update s1 (RingBuffer.write (RingBuffer.rb s1) 7%Z) [7%Z] []))
    (s3 := RingBuffer.set_pushers s2 [8%Z] [])
    (s4 := RingBuffer.set_pushers s3 [] [8%Z]) :
  rtc (RingBuffer.step 0%Z) s1 s4.
Proof.
  apply (rtc_l _ _ s2); [by apply RingBuffer.st_trypush|].
  apply (rtc_l _ _ s3); [apply (RingBuffer.st_enter_push _ s2)|].
  apply rtc_once. by apply (RingBuffer.st_push_wait _ s3 [] 8%Z []).
Qed.

Lemma ringbuffer_fifo_witness : ∃ s, RingBuffer.asleepPush s = [8%Z] ∧
  RingBuffer.pushed s = RingBuffer.popped s ++ RingBuffer.contents 0%Z (RingBuffer.rb s).
Proof. eexists. split; [|apply (ringbuffer_fifo 0%Z 1 _ ringbuffer_ex)]. reflexivity. Defined.

Lemma ringbuffer_no_lost_wakeup_witness : ∃ s, RingBuffer.asleepPush s = [8%Z] ∧
  RingBuffer.IsFull (RingBuffer.rb s) = true ∧ RingBuffer.closed (RingBuffer.rb s) = false.
Proof.
  eexists. split; [|apply (ringbuffer_no_lost_wakeup 0%Z 1 _ ringbuffer_ex)]; [reflexivity|discriminate].
Defined.

Lemma ringbuf_refines_witness :
  (RingBuf.run 0%Z (RingBuf.mk [0; 0]%Z 0 0 2)
     [RingBuf.OPush 1; RingBuf.OPush 2; RingBuf.OPush 3; RingBuf.OToSlice]%Z).1 =
  [RingBuf.RUnit; RingBuf.RUnit; RingBuf.RUnit; RingBuf.RList [2; 3]%Z].
Proof. rewrite (ringbuf_refines 0%Z 2 _ _ eq_refl). reflexivity. Defined.
