(* ===== verification/Trie.v ===== *)
(** * Trie: the segment trie of [trie/trie.go]

    A trie maps "/"-separated keys to values: a node has a map of children by
    segment, a value and a flag.  The specification is a finite map from segment
    lists to values; every operation is shown to implement it, including the
    longest-prefix match, the prefix scan and the pruning of empty nodes.
    Key count and tree agree except after deleting the empty key
    ([trie_delete_root_count]). *)

From Stdlib Require Import Ascii.
From stdpp Require Import base tactics numbers list gmap strings sorting.
From S2P Require Import Prelude GoStd.

#[local] Open Scope Z_scope.

(** ** Keys: strings.Trim(key, "/"), strings.Split(key, "/"), strings.Join *)

Definition slash : ascii := "/"%char.

Fixpoint trim_left (s : string) : string :=
  match s with
  | String c r => if Ascii.eqb c slash then trim_left r else s
  | EmptyString => s
  end.
Definition Trim (s : string) : string := str_rev (trim_left (str_rev (trim_left s))).

Fixpoint Split (s : string) : list string :=
  match s with
  | EmptyString => [EmptyString]
  | String c r =>
      if Ascii.eqb c slash then EmptyString :: Split r
      else match Split r with w :: ws => String c w :: ws | [] => [String c EmptyString] end
  end.

Fixpoint Join (ws : list string) : string :=
  match ws with
  | [] => EmptyString
  | [w] => w
  | w :: ws => w +:+ String slash (Join ws)
  end.

Definition segments (key : string) : list string :=
  let key := Trim key in
  if String.eqb key EmptyString then [] else Split key.

(** The order of sort.Strings. *)
Definition str_le (a b : string) : Prop := String.leb a b = true.
#[global] Instance str_le_dec : RelDecision str_le := λ a b, decide (String.leb a b = true).

Section trie.
Context {V : Type} (zero : V).

(** ** Data *)

Inductive node := Node (children : gmap string node) (value : V) (hasValue : bool).

Definition children (n : node) : gmap string node := let 'Node c _ _ := n in c.
Definition value (n : node) : V := let 'Node _ v _ := n in v.
Definition hasValue (n : node) : bool := let 'Node _ _ h := n in h.

Definition emptyNode : node := Node ∅ zero false.

Record Trie := mkTrie { root : node; count : Z }.

Definition New : Trie := mkTrie emptyNode 0.

(** ** Operations *)

(** The walk of [Insert]; the flag tells whether the key is new. *)
Fixpoint insert_node (cur : node) (segs : list string) (val : V) : bool * node :=
  match segs with
  | [] => (negb (hasValue cur), Node (children cur) val true)
  | s :: segs =>
      let child := default emptyNode (children cur !! s) in
      let '(fresh, child) := insert_node child segs val in
      (fresh, Node (<[s := child]> (children cur)) (value cur) (hasValue cur))
  end.

Definition Insert (t : Trie) (key : string) (val : V) : Trie :=
  let '(fresh, r) := insert_node (root t) (segments key) val in
  mkTrie r (if fresh then count t + 1 else count t).

Fixpoint descend (cur : node) (segs : list string) : option node :=
  match segs with
  | [] => Some cur
  | s :: segs => match children cur !! s with None => None | Some child => descend child segs end
  end.

Definition Get (t : Trie) (key : string) : option V :=
  match descend (root t) (segments key) with
  | Some cur => if hasValue cur then Some (value cur) else None
  | None => None
  end.

Definition Has (t : Trie) (key : string) : bool := bool_decide (is_Some (Get t key)).

(** The walk of [LongestPrefix]: path so far, best match so far. *)
Fixpoint prefix_loop (cur : node) (path segs : list string) (best : option (V * string)) :
    option (V * string) :=
  match segs with
  | [] => best
  | s :: segs =>
      match children cur !! s with
      | None => best
      | Some child =>
          let path := path ++ [s] in
          prefix_loop child path segs (if hasValue child then Some (value child, Join path) else best)
      end
  end.

Definition LongestPrefix (t : Trie) (query : string) : option (V * string) :=
  match prefix_loop (root t) [] (segments query) None with
  | Some r => Some r
  | None => if hasValue (root t) then Some (value (root t), EmptyString) else None
  end.

Definition isEmptyNode (n : node) : bool := bool_decide (children n = ∅) && negb (hasValue n).

(** [Delete] below the root: clears the flag and, on the way back up, drops the
    nodes left without value and children.  [None]: no such key. *)
Fixpoint delete_node (cur : node) (segs : list string) : option node :=
  match segs with
  | [] => if hasValue cur then Some (Node (children cur) (value cur) false) else None
  | s :: segs =>
      match children cur !! s with
      | None => None
      | Some child =>
          match delete_node child segs with
          | None => None
          | Some child =>
              Some (Node (if isEmptyNode child then delete s (children cur)
                          else <[s := child]> (children cur)) (value cur) (hasValue cur))
          end
      end
  end.

Definition Delete (t : Trie) (key : string) : bool * Trie :=
  match segments key with
  | [] => (hasValue (root t), mkTrie (Node (children (root t)) (value (root t)) false) (count t))
  | segs =>
      match delete_node (root t) segs with
      | None => (false, t)
      | Some r => (true, mkTrie r (count t - 1))
      end
  end.

(** The recursive walk of [KeysWithPrefix]; one unit of fuel per level. *)
Definition sorted_keys (m : gmap string node) : list string :=
  merge_sort str_le (map_to_list m).*1.

Fixpoint walk (fuel : nat) (n : node) (path : list string) : list string :=
  match fuel with
  | O => []
  | S fuel =>
      (if hasValue n then [Join path] else []) ++
      mjoin ((λ seg, match children n !! seg with
                     | Some c => walk fuel c (path ++ [seg])
                     | None => []
                     end) <$> sorted_keys (children n))
  end.

Definition KeysWithPrefix (fuel : nat) (t : Trie) (prefix : string) : list string :=
  match descend (root t) (segments prefix) with
  | None => []
  | Some cur => walk fuel cur (segments prefix)
  end.

Definition Len (t : Trie) : Z := count t.

(** ** Specification: a finite map from segment lists *)

Definition lookup_node (n : node) (segs : list string) : option V :=
  n' ← descend n segs; if hasValue n' then Some (value n') else None.

Definition refines (t : Trie) (m : gmap (list string) V) : Prop :=
  ∀ segs, lookup_node (root t) segs = m !! segs.

(** A run of the operations that change the trie; the answers are [Delete]'s. *)
Inductive op := OInsert (key : string) (val : V) | ODelete (key : string).
Definition op_segs (o : op) : list string :=
  match o with OInsert k _ | ODelete k => segments k end.

Fixpoint run (t : Trie) (ops : list op) : list bool * Trie :=
  match ops with
  | [] => ([], t)
  | OInsert k v :: ops => run (Insert t k v) ops
  | ODelete k :: ops =>
      let '(b, t) := Delete t k in let '(bs, t) := run t ops in (b :: bs, t)
  end.

Fixpoint spec_run (m : gmap (list string) V) (ops : list op) : list bool * gmap (list string) V :=
  match ops with
  | [] => ([], m)
  | OInsert k v :: ops => spec_run (<[segments k := v]> m) ops
  | ODelete k :: ops =>
      let '(bs, m') := spec_run (delete (segments k) m) ops in
      (bool_decide (is_Some (m !! segments k)) :: bs, m')
  end.

(** The deletions of the empty key that find a value. *)
Fixpoint root_deletes (m : gmap (list string) V) (ops : list op) : Z :=
  match ops with
  | [] => 0
  | OInsert k v :: ops => root_deletes (<[segments k := v]> m) ops
  | ODelete k :: ops =>
      (if bool_decide (segments k = [] ∧ is_Some (m !! segments k)) then 1 else 0) + root_deletes (delete (segments k) m) ops
  end.

(** ** Lemmas *)

#[local] Arguments lookup_node : simpl never.

Lemma lookup_node_cons n s segs :
  lookup_node n (s :: segs) = children n !! s ≫= λ c, lookup_node c segs.
Proof. unfold lookup_node. cbn. by destruct (children n !! s). Qed.

Lemma lookup_emptyNode segs : lookup_node emptyNode segs = None.
Proof. destruct segs as [|s segs]; [done|]. rewrite lookup_node_cons. cbn. by rewrite lookup_empty. Qed.

Lemma insert_node_fresh n segs v :
  (insert_node n segs v).1 = bool_decide (lookup_node n segs = None).
Proof.
  revert n. induction segs as [|s segs IH]; intros n; [unfold lookup_node; cbn; by destruct (hasValue n)|].
  cbn [insert_node]. specialize (IH (default emptyNode (children n !! s))).
  destruct (insert_node _ segs v) as [fresh child]. cbn [fst] in *. rewrite IH, lookup_node_cons.
  apply bool_decide_ext. destruct (children n !! s); cbn; [done|]. by rewrite lookup_emptyNode.
Qed.

Lemma insert_node_lookup n segs v segs' :
  lookup_node (insert_node n segs v).2 segs' =
    if decide (segs = segs') then Some v else lookup_node n segs'.
Proof.
  revert n segs'. induction segs as [|s segs IH]; intros n segs'.
  - destruct segs' as [|s' segs']; [done|]. cbn [insert_node snd].
    rewrite decide_False by done. by rewrite !lookup_node_cons.
  - cbn [insert_node]. specialize (IH (default emptyNode (children n !! s))).
    destruct (insert_node _ segs v) as [fresh child]. cbn [snd] in *.
    destruct segs' as [|s' segs']; [by rewrite decide_False|].
    rewrite !lookup_node_cons. cbn [children]. destruct (decide (s = s')) as [<-|Hs].
    + rewrite lookup_insert_eq. cbn. rewrite IH. destruct (decide (segs = segs')) as [->|Hne].
      * by rewrite decide_True.
      * rewrite decide_False by congruence. destruct (children n !! s); cbn; [done|].
        apply lookup_emptyNode.
    + rewrite lookup_insert_ne by done. by rewrite decide_False by congruence.
Qed.

Lemma isEmptyNode_lookup n segs : isEmptyNode n = true → lookup_node n segs = None.
Proof.
  unfold isEmptyNode. intros [Hc%bool_decide_eq_true Hh]%andb_true_iff.
  destruct segs as [|s segs]; [unfold lookup_node; cbn; by destruct (hasValue n)|].
  by rewrite lookup_node_cons, Hc, lookup_empty.
Qed.

Lemma delete_node_spec n segs :
  match delete_node n segs with
  | None => lookup_node n segs = None
  | Some n' => is_Some (lookup_node n segs) ∧
      ∀ segs', lookup_node n' segs' = if decide (segs = segs') then None else lookup_node n segs'
  end.
Proof.
  revert n. induction segs as [|s segs IH]; intros n; cbn [delete_node].
  - destruct (hasValue n) eqn:Hh; unfold lookup_node at 1; cbn; rewrite Hh; [|done].
    split; [done|]. intros [|s segs']; [done|]. rewrite decide_False by done. by rewrite !lookup_node_cons.
  - rewrite lookup_node_cons. destruct (children n !! s) as [c|] eqn:Hc; [|done]. cbn [mbind option_bind].
    specialize (IH c). destruct (delete_node c segs) as [c'|]; [|done]. destruct IH as [Hs IH].
    split; [done|]. intros [|s' segs']; [by rewrite decide_False|].
    rewrite !lookup_node_cons. cbn [children]. destruct (decide (s = s')) as [<-|Hne].
    + rewrite Hc. cbn [mbind option_bind]. transitivity (lookup_node c' segs').
      * destruct (isEmptyNode c') eqn:He; [|by rewrite lookup_insert_eq].
        rewrite lookup_delete_eq. cbn. by rewrite isEmptyNode_lookup.
      * rewrite IH. destruct (decide (segs = segs')) as [->|]; [by rewrite decide_True|].
        by rewrite decide_False by congruence.
    + rewrite decide_False by congruence.
      destruct (isEmptyNode c'); [by rewrite lookup_delete_ne|by rewrite lookup_insert_ne].
Qed.

(** ** Pruning: no dead branches *)

Inductive tidy : node → Prop :=
| tidy_node n : (∀ s c, children n !! s = Some c → isEmptyNode c = false ∧ tidy c) → tidy n.

Lemma tidy_empty : tidy emptyNode.
Proof. constructor. intros s c. cbn. by rewrite lookup_empty. Qed.

Lemma insert_node_nonempty n segs v : isEmptyNode (insert_node n segs v).2 = false.
Proof.
  destruct segs as [|s segs]; cbn [insert_node].
  - unfold isEmptyNode. cbn. apply andb_false_r.
  - destruct (insert_node _ segs v) as [b c]. unfold isEmptyNode. cbn.
    rewrite bool_decide_eq_false_2; [done|]. apply insert_non_empty.
Qed.

Lemma insert_node_tidy n segs v : tidy n → tidy (insert_node n segs v).2.
Proof.
  revert n. induction segs as [|s segs IH]; intros n [n' Hn]; cbn [insert_node]; [by constructor|].
  assert (tidy (default emptyNode (children n' !! s))) as Hd.
  { destruct (children n' !! s) as [c|] eqn:Hc; [by eapply Hn|apply tidy_empty]. }
  specialize (IH _ Hd). pose proof (insert_node_nonempty (default emptyNode (children n' !! s)) segs v).
  destruct (insert_node _ segs v) as [b c]. cbn [snd] in *. constructor. cbn.
  intros s' c' [[<- <-]|[_ Hs]]%lookup_insert_Some; [done|]. by eapply Hn.
Qed.

Lemma delete_node_tidy n segs n' : tidy n → delete_node n segs = Some n' → tidy n'.
Proof.
  revert n n'. induction segs as [|s segs IH]; intros n n' Ht; cbn [delete_node].
  - destruct (hasValue n); [|done]. intros [= <-]. destruct Ht as [n Hn]. by constructor.
  - destruct Ht as [n Hn]. destruct (children n !! s) as [c|] eqn:Hc; [|done].
    destruct (delete_node c segs) as [c'|] eqn:Hd; [|done]. intros [= <-].
    destruct (Hn s c Hc) as [_ Htc]. specialize (IH c c' Htc Hd). constructor. cbn.
    intros s' x. destruct (isEmptyNode c') eqn:He.
    + intros [_ Hx]%lookup_delete_Some. by eapply Hn.
    + intros [[<- <-]|[_ Hx]]%lookup_insert_Some; [done|]. by eapply Hn.
Qed.

(** ** Refinement of the operations *)

Lemma Get_lookup t key : Get t key = lookup_node (root t) (segments key).
Proof. unfold Get, lookup_node. by destruct (descend _ _). Qed.

Lemma trie_Insert_spec t m k v : refines t m → tidy (root t) →
  refines (Insert t k v) (<[segments k := v]> m) ∧ tidy (root (Insert t k v)) ∧
  count (Insert t k v) - Z.of_nat (size (<[segments k := v]> m)) = count t - Z.of_nat (size m).
Proof.
  intros Hr Ht. unfold Insert. pose proof (insert_node_lookup (root t) (segments k) v) as Hl.
  pose proof (insert_node_fresh (root t) (segments k) v) as Hf.
  pose proof (insert_node_tidy (root t) (segments k) v Ht) as Ht'.
  destruct (insert_node _ _ _) as [fresh r]. cbn [fst snd root count] in *. split_and!; [|done|].
  - intros segs. cbn [root]. rewrite Hl, lookup_insert. by destruct (decide _); [|apply Hr].
  - rewrite map_size_insert, Hf, Hr. destruct (m !! segments k); cbn; lia.
Qed.

Lemma size_delete_Z (m : gmap (list string) V) segs :
  Z.of_nat (size (delete segs m)) = Z.of_nat (size m) - (if bool_decide (is_Some (m !! segs)) then 1 else 0).
Proof.
  rewrite map_size_delete. destruct (m !! segs) as [v|] eqn:Hv; cbn; [|lia].
  assert (size m ≠ 0%nat) as Hne; [|lia]. intros Hz%map_size_empty_inv. subst m. by rewrite lookup_empty in Hv.
Qed.

Lemma trie_Delete_spec t m k : refines t m → tidy (root t) →
  let '(b, t') := Delete t k in
  b = bool_decide (is_Some (m !! segments k)) ∧ refines t' (delete (segments k) m) ∧ tidy (root t') ∧
  count t' - Z.of_nat (size (delete (segments k) m)) = count t - Z.of_nat (size m) +
    (if bool_decide (segments k = [] ∧ is_Some (m !! segments k)) then 1 else 0).
Proof.
  intros Hr Ht. unfold Delete. destruct (segments k) as [|s segs] eqn:Hk.
  - pose proof (Hr []) as H0. unfold lookup_node in H0. cbn in H0. rewrite <-H0. split_and!.
    + by destruct (hasValue (root t)).
    + intros [|s segs]; cbn [root]; [by rewrite lookup_delete_eq|].
      rewrite lookup_delete_ne by done. by rewrite <-Hr, !lookup_node_cons.
    + destruct Ht as [n Hn]. by constructor.
    + cbn [count]. rewrite size_delete_Z, <-H0. destruct (hasValue (root t)); [rewrite !bool_decide_true by eauto|rewrite !bool_decide_false by naive_solver]; lia.
  - pose proof (delete_node_spec (root t) (s :: segs)) as Hd. rewrite Hr in Hd.
    pose proof (delete_node_tidy (root t) (s :: segs)) as Htd.
    destruct (delete_node (root t) (s :: segs)) as [r|]; cbn [root count].
    + destruct Hd as [[v Hv] Hd]. rewrite Hv. split_and!; [done| |by eapply Htd|].
      * intros segs'. cbn [root]. rewrite Hd, lookup_delete. by destruct (decide _); [|apply Hr].
      * rewrite size_delete_Z, Hv, bool_decide_true, bool_decide_false by naive_solver. lia.
    + rewrite Hd, delete_id by done. split_and!; [done..|]. rewrite bool_decide_false by naive_solver. lia.
Qed.

Lemma trie_run_refines ops t m : refines t m → tidy (root t) →
  let '(bs, t') := run t ops in let '(bs', m') := spec_run m ops in
  bs = bs' ∧ refines t' m' ∧ tidy (root t') ∧
  count t' - Z.of_nat (size m') = count t - Z.of_nat (size m) + root_deletes m ops.
Proof.
  revert t m. induction ops as [|[k v|k] ops IH]; intros t m Hr Ht; cbn [run spec_run root_deletes]; [split_and!; [done..|lia]| |].
  - destruct (trie_Insert_spec t m k v Hr Ht) as (Hr1 & Ht1 & Hc1). specialize (IH _ _ Hr1 Ht1).
    destruct (run _ ops), (spec_run _ ops). destruct IH as (? & ? & ? & Hc). split_and!; try done. lia.
  - pose proof (trie_Delete_spec t m k Hr Ht) as HD. destruct (Delete t k) as [b t1].
    destruct HD as (-> & Hr1 & Ht1 & Hc1). specialize (IH _ _ Hr1 Ht1).
    destruct (run _ ops), (spec_run _ ops). destruct IH as (-> & ? & ? & Hc). split_and!; try done. lia.
Qed.

(** ** Longest prefix *)

(** What the walk finds strictly below a node. *)
Definition longest (n : node) (segs : list string) (r : option (V * nat)) : Prop :=
  match r with
  | Some (v, k) => (1 ≤ k ≤ length segs)%nat ∧ lookup_node n (take k segs) = Some v ∧
      ∀ j, (k < j ≤ length segs)%nat → lookup_node n (take j segs) = None
  | None => ∀ j, (1 ≤ j ≤ length segs)%nat → lookup_node n (take j segs) = None
  end.

Lemma prefix_loop_spec n path segs best : ∃ r, longest n segs r ∧
  prefix_loop n path segs best =
    match r with Some (v, k) => Some (v, Join (path ++ take k segs)) | None => best end.
Proof.
  revert n path best. induction segs as [|s segs IH]; intros n path best.
  { exists None. split; [intros j Hj; cbn in Hj; lia|done]. }
  cbn [prefix_loop]. destruct (children n !! s) as [c|] eqn:Hc; cycle 1.
  { exists None. split; [|done]. intros [|j] Hj; [lia|]. cbn. by rewrite lookup_node_cons, Hc. }
  assert (∀ j, lookup_node n (take (S j) (s :: segs)) = lookup_node c (take j segs)) as Hstep
    by (intros j; cbn; by rewrite lookup_node_cons, Hc).
  destruct (IH c (path ++ [s]) (if hasValue c then Some (value c, Join (path ++ [s])) else best))
    as ([[v k]|] & Hlong & ->).
  - destruct Hlong as (Hk & Hv & Hmax). exists (Some (v, S k)). split; [|cbn; by rewrite <-app_assoc].
    split_and!; [cbn; lia..| |].
    + by rewrite Hstep.
    + intros [|j] Hj; [lia|]. rewrite Hstep. apply Hmax. cbn in Hj. lia.
  - assert (lookup_node c [] = if hasValue c then Some (value c) else None) as H0 by done.
    destruct (hasValue c) eqn:Hh.
    + exists (Some (value c, 1%nat)). cbn [longest]. split; [split_and!; cbn; try lia|done].
      * by rewrite lookup_node_cons, Hc.
      * intros [|j] Hj; [lia|]. rewrite Hstep. apply Hlong. cbn in Hj. lia.
    + exists None. split; [|done]. intros [|j] Hj; [lia|]. rewrite Hstep.
      destruct j; [done|]. apply Hlong. cbn in Hj. lia.
Qed.

(** ** Prefix scan *)

(** Every path from the node is shorter than [k]. *)
Definition shallow (k : nat) (n : node) : Prop :=
  ∀ segs c, descend n segs = Some c → (length segs < k)%nat.

Lemma walk_spec fuel n path x : shallow fuel n →
  x ∈ walk fuel n path ↔ ∃ segs, is_Some (lookup_node n segs) ∧ x = Join (path ++ segs).
Proof.
  revert n path. induction fuel as [|fuel IH]; intros n path Hs.
  { specialize (Hs [] n eq_refl). cbn in Hs. lia. }
  cbn [walk]. rewrite elem_of_app, list_elem_of_join. setoid_rewrite list_elem_of_fmap. split.
  - intros [Hx|(l & Hx & seg & -> & Hseg)].
    + destruct (hasValue n) eqn:Hh; [|set_solver]. exists []. rewrite app_nil_r.
      split; [unfold lookup_node; cbn; rewrite Hh; eauto|set_solver].
    + destruct (children n !! seg) as [c|] eqn:Hc; [|set_solver]. apply IH in Hx as (segs & Hv & ->).
      * exists (seg :: segs). rewrite lookup_node_cons, Hc, <-app_assoc. done.
      * intros segs c' Hd. specialize (Hs (seg :: segs) c'). cbn in Hs. rewrite Hc in Hs. specialize (Hs Hd). lia.
  - intros ([|seg segs] & Hv & ->).
    + left. unfold lookup_node in Hv. cbn in Hv. rewrite app_nil_r.
      destruct (hasValue n); [set_solver|by destruct Hv].
    + right. rewrite lookup_node_cons in Hv. destruct (children n !! seg) as [c|] eqn:Hc; [|by destruct Hv].
      exists (walk fuel c (path ++ [seg])). split.
      * apply IH; [|exists segs; by rewrite <-app_assoc].
        intros segs' c' Hd. specialize (Hs (seg :: segs') c'). cbn in Hs. rewrite Hc in Hs. specialize (Hs Hd). lia.
      * exists seg. rewrite Hc. split; [done|]. unfold sorted_keys. rewrite merge_sort_Permutation.
        apply list_elem_of_fmap. exists (seg, c). split; [done|]. by apply elem_of_map_to_list.
Qed.

Lemma descend_app n segs segs' : descend n (segs ++ segs') = descend n segs ≫= λ c, descend c segs'.
Proof.
  revert n. induction segs as [|s segs IH]; intros n; [done|]. cbn. by destruct (children n !! s).
Qed.

Lemma shallow_insert k n segs v : shallow k n → (length segs < k)%nat → shallow k (insert_node n segs v).2.
Proof.
  revert k n. induction segs as [|s segs IH]; intros k n Hs Hk; cbn [insert_node snd].
  - intros [|s segs] c Hd; [done|]. exact (Hs (s :: segs) c Hd).
  - destruct k as [|k]; [lia|]. specialize (IH k (default emptyNode (children n !! s))).
    destruct (insert_node _ segs v) as [b c1]. cbn [snd] in *. assert (shallow k c1) as Hc1.
    { apply IH; [|cbn in Hk; lia]. intros segs' c Hd. destruct (children n !! s) as [c0|] eqn:Hc.
      - specialize (Hs (s :: segs') c). cbn in Hs. rewrite Hc in Hs. specialize (Hs Hd). lia.
      - destruct segs'; [cbn in *; lia|]. cbn in Hd. by rewrite lookup_empty in Hd. }
    intros [|s' segs'] c Hd; [cbn; lia|]. cbn in Hd. destruct (decide (s = s')) as [<-|Hne].
    + rewrite lookup_insert_eq in Hd. specialize (Hc1 segs' c Hd). cbn. lia.
    + rewrite lookup_insert_ne in Hd by done. exact (Hs (s' :: segs') c Hd).
Qed.

Lemma descend_delete n segs n' segs' c : delete_node n segs = Some n' → descend n' segs' = Some c →
  is_Some (descend n segs').
Proof.
  revert n n' segs' c. induction segs as [|s segs IH]; intros n n' segs' c; cbn [delete_node].
  - destruct (hasValue n); [|done]. intros [= <-]. destruct segs' as [|s' segs']; [done|]. cbn. eauto.
  - destruct (children n !! s) as [c0|] eqn:Hc; [|done].
    destruct (delete_node c0 segs) as [c1|] eqn:Hd; [|done]. intros [= <-].
    destruct segs' as [|s' segs']; [done|]. cbn. destruct (isEmptyNode c1).
    + rewrite lookup_delete. case_decide; [done|]. eauto.
    + rewrite lookup_insert. case_decide as Hs; [subst s'; rewrite Hc; by apply IH|]. eauto.
Qed.

Lemma shallow_run k ops t : shallow k (root t) → Forall (λ o, (length (op_segs o) < k)%nat) ops →
  shallow k (root (run t ops).2).
Proof.
  revert t. induction ops as [|o ops IH]; intros t Hs Hops; [done|]. apply Forall_cons in Hops as [Ho Hops].
  destruct o as [key v|key]; cbn [run op_segs] in *.
  - apply IH; [|done]. unfold Insert. pose proof (shallow_insert k (root t) (segments key) v Hs Ho).
    by destruct (insert_node _ _ _).
  - assert (shallow k (root (Delete t key).2)) as Hs'.
    { unfold Delete. destruct (segments key) as [|s segs] eqn:Hk.
      - intros [|s segs] c Hd; [cbn in *; lia|]. exact (Hs (s :: segs) c Hd).
      - destruct (delete_node (root t) (s :: segs)) as [r|] eqn:Hd; [|done].
        intros segs' c Hc. destruct (descend_delete _ _ _ _ _ Hd Hc) as [c' Hc']. by eapply Hs. }
    destruct (Delete t key) as [b t1]. specialize (IH t1 Hs' Hops). by destruct (run t1 ops).
Qed.
End trie.

(** ** Keys are normal forms: a joined key splits back *)

Lemma Join_Split s : Join (Split s) = s.
Proof.
  induction s as [|c s IH]; [done|]. cbn [Split]. destruct (Ascii.eqb_spec c slash) as [->|Hc].
  - destruct (Split s) as [|w ws] eqn:Hs; [by destruct s|]. cbn [Join] in *. by rewrite <-IH.
  - destruct (Split s) as [|w [|w' ws]] eqn:Hs; cbn [Join] in *; by rewrite <-IH.
Qed.

Definition head_ok (s : string) : Prop := match s with String c _ => c ≠ slash | EmptyString => True end.

Lemma trim_left_ok s : head_ok (trim_left s) ∧ ∃ p, s = p +:+ trim_left s.
Proof.
  induction s as [|c s [IH [p Hp]]]; [split; [done|]; by exists EmptyString|]. cbn.
  destruct (Ascii.eqb_spec c slash) as [->|Hc]; [|split; [done|]; by exists EmptyString].
  split; [done|]. exists (String slash p). by rewrite app_cons_str, <-Hp.
Qed.

Lemma trim_left_id s : head_ok s → trim_left s = s.
Proof. destruct s as [|c s]; [done|]. cbn. by destruct (Ascii.eqb_spec c slash). Qed.

Lemma Trim_idem s : Trim (Trim s) = Trim s.
Proof.
  unfold Trim. set (u := trim_left s). set (w := trim_left (str_rev u)).
  assert (head_ok (str_rev w)) as Hw.
  { destruct (trim_left_ok (str_rev u)) as [_ [p Hp]]. fold w in Hp.
    apply (f_equal str_rev) in Hp. rewrite str_rev_involutive, str_rev_app in Hp.
    assert (head_ok u) as Hu by apply trim_left_ok. rewrite Hp in Hu. by destruct (str_rev w). }
  rewrite (trim_left_id (str_rev w) Hw), str_rev_involutive. f_equal. apply trim_left_id.
  apply trim_left_ok.
Qed.

Lemma segments_Join key : segments (Join (segments key)) = segments key.
Proof.
  unfold segments. destruct (String.eqb_spec (Trim key) EmptyString) as [He|He]; [done|].
  rewrite Join_Split, Trim_idem. by destruct (String.eqb_spec (Trim key) EmptyString).
Qed.

Lemma spec_run_keys {V} (ops : list (op (V := V))) m segs :
  (∀ segs, is_Some (m !! segs) → ∃ key, segs = segments key) →
  is_Some ((spec_run m ops).2 !! segs) → ∃ key, segs = segments key.
Proof.
  revert m. induction ops as [|[k v|k] ops IH]; intros m Hm; cbn [spec_run]; [apply Hm| |].
  - apply IH. intros segs'. rewrite lookup_insert. case_decide; [eauto|apply Hm].
  - specialize (IH (delete (segments k) m)). destruct (spec_run _ ops) as [bs m']. cbn [snd] in *.
    apply IH. intros segs'. rewrite lookup_delete. case_decide; [by intros []|apply Hm].
Qed.

(** ** Theorems *)


(** C40: [LongestPrefix] returns the value of the longest stored key that is a
    prefix of the query by whole segments, with a key that [Get] accepts; it
    fails only if no stored key, the empty one included, is a prefix. *)
Theorem trie_longest_prefix {V} (zero : V) ops query (t := (run zero (New zero) ops).2)
    (m := (spec_run ∅ ops).2) (segs := segments query) :
  match LongestPrefix t query with
  | Some (v, key) => ∃ k, (k ≤ length segs)%nat ∧ key = Join (take k segs) ∧ m !! take k segs = Some v ∧
      (∀ j, (k < j ≤ length segs)%nat → m !! take j segs = None) ∧ Get t key = Some v
  | None => ∀ j, (j ≤ length segs)%nat → m !! take j segs = None
  end.
Proof.
  pose proof (trie_run_refines zero ops (New zero) ∅ (lookup_emptyNode zero) (tidy_empty zero)) as Hr.
  assert (∀ s, is_Some (m !! s) → ∃ key, s = segments key) as Hkeys.
  { intros s. apply spec_run_keys. intros ?. rewrite lookup_empty. by intros []. }
  subst t m. destruct (run zero (New zero) ops) as [bs t], (spec_run ∅ ops) as [bs' m]. cbn [fst snd] in *.
  destruct Hr as (_ & Href & _).
  assert (∀ k v, m !! take k segs = Some v → Get t (Join (take k segs)) = Some v) as Hget.
  { intros k v Hv. destruct (Hkeys (take k segs)) as [key Hkey]; [eauto|].
    rewrite Get_lookup, Href, Hkey, segments_Join, <-Hkey. done. }
  unfold LongestPrefix. fold segs. destruct (prefix_loop_spec (root t) [] segs None) as ([[v k]|] & Hlong & Hp);
    rewrite Hp; cbn [longest] in Hlong; setoid_rewrite Href in Hlong.
  - destruct Hlong as (Hk & Hv & Hmax). exists k. split_and!; try done; [lia|]. by apply Hget.
  - assert (m !! [] = if hasValue (root t) then Some (value (root t)) else None) as H0 by (by rewrite <-Href).
    destruct (hasValue (root t)).
    + exists 0%nat. split_and!; [lia|done|done|intros j Hj; apply Hlong; lia|]. by apply (Hget 0%nat).
    + intros [|j] Hj; [done|]. apply Hlong. lia.
Qed.

(** The prefix scan is exact: for any recursion budget above the longest key
    ever touched, [KeysWithPrefix] lists exactly the stored keys that extend the
    prefix by whole segments. *)
Theorem trie_keys_with_prefix {V} (zero : V) ops prefix fuel x (t := (run zero (New zero) ops).2)
    (m := (spec_run ∅ ops).2) :
  (0 < fuel)%nat → Forall (λ o, (length (op_segs o) < fuel)%nat) ops →
  x ∈ KeysWithPrefix fuel t prefix ↔
    ∃ segs, is_Some (m !! (segments prefix ++ segs)) ∧ x = Join (segments prefix ++ segs).
Proof.
  intros Hf Hops. assert (shallow fuel (root t)) as Hs.
  { apply shallow_run; [|done]. intros [|s segs] c Hd; [done|]. cbn in Hd. by rewrite lookup_empty in Hd. }
  pose proof (trie_run_refines zero ops (New zero) ∅ (lookup_emptyNode zero) (tidy_empty zero)) as Hr.
  subst t m. destruct (run zero (New zero) ops) as [bs t], (spec_run ∅ ops) as [bs' m]. cbn [fst snd] in *.
  destruct Hr as (_ & Href & _). unfold KeysWithPrefix. setoid_rewrite <-Href.
  unfold lookup_node. setoid_rewrite descend_app.
  destruct (descend (root t) (segments prefix)) as [c|] eqn:Hc; cbn; cycle 1.
  { split; [set_solver|]. by intros (? & [] & _). }
  rewrite walk_spec; [done|]. intros segs c' Hd. specialize (Hs (segments prefix ++ segs) c').
  rewrite descend_app, Hc in Hs. specialize (Hs Hd). rewrite length_app in Hs. lia.
Qed.

(** ** Witnesses, and the count after deleting the empty key *)

Definition ex_ops : list (op (V := Z)) :=
  [OInsert "/a/b/" 1; OInsert "a" 2; OInsert "a/b/c" 3; ODelete "a/b/c"]%string.

Lemma trie_keys_with_prefix_witness :
  KeysWithPrefix 5 (run 0 (New 0) ex_ops).2 "a" = ["a"; "a/b"]%string ∧
  ("a/b"%string ∈ KeysWithPrefix 5 (run 0 (New 0) ex_ops).2 "a" ↔
   ∃ segs, is_Some ((spec_run ∅ ex_ops).2 !! (segments "a" ++ segs)) ∧
           "a/b"%string = Join (segments "a" ++ segs)).
Proof.
  split; [vm_compute; reflexivity|]. apply (trie_keys_with_prefix 0 ex_ops "a" 5); [lia|].
  repeat constructor.
Defined.

(** [Delete] of the empty key clears the root's value but not the count. *)
Example trie_delete_root_count :
  let t := (run 0 (New 0) [OInsert "" 7; ODelete "/"]%string).2 in
  Get t "" = None ∧ Len t = 1.
Proof. vm_compute. by split. Qed.
