(* ===== verification/Decimal.v ===== *)
(** * Decimal: the arbitrary-precision decimals of [decimal/decimal.go]

    A [Decimal] is an unscaled big integer ([None] models the nil pointer of the
    zero value) and a scale.  The specification is its rational value
    [value / 10^scale], compared by cross-multiplication ([same_number]): the
    arithmetic is exact, division and narrowing truncate toward zero, and
    printing then parsing gives the same decimal. *)

From Stdlib Require Import ZArith Lia Ascii.
From stdpp Require Import base tactics numbers option strings.
From S2P Require Import Prelude GoStd.

#[local] Open Scope Z_scope.

Inductive DecimalErr := ErrParse | ErrScaleMismatch | ErrNegativeScale | ErrDivideByZero.

Record Decimal := mkDecimal { value : option Z; scale : Z }.

Definition zeroDecimal : Decimal := mkDecimal None 0.

(** [precisionTable] only caches the first twenty powers. *)
Definition pow10 (n : Z) : Z := 10 ^ n.

(** [None]: panics. *)
Definition New (unscaled scale : Z) : option Decimal :=
  if scale <? 0 then None else Some (mkDecimal (Some unscaled) scale).

Definition FromInt (v : Z) : Decimal := mkDecimal (Some v) 0.

(** [new(big.Int).SetString(s, 10)]: an optional sign and at least one digit. *)
Definition SetString (s : string) : option Z :=
  let '(neg, body) := strip_sign s in
  match body with
  | EmptyString => None
  | _ => n ← parse_digits body 0; Some (if neg : bool then - n else n)
  end.

Definition Parse (s : string) (scale : Z) : result DecimalErr Decimal :=
  if scale <? 0 then Err ErrNegativeScale
  else if String.eqb s EmptyString then Err ErrParse
  else
    let '(neg, s) := strip_sign s in
    if (str_len s =? 0) || starts_with_sign s then Err ErrParse
    else
      let '(whole, frac) := SplitN2 "." s in
      let frac := default EmptyString frac in
      if scale <? str_len frac then Err ErrParse
      else
        let frac := frac +:+ Repeat "0" (scale - str_len frac) in
        match SetString (whole +:+ frac) with
        | None => Err ErrParse
        | Some v => Ok (mkDecimal (Some (if neg then - v else v)) scale)
        end.

(** [None]: panics. *)
Definition MustParse (s : string) (scale : Z) : option Decimal :=
  match Parse s scale with Ok d => Some d | Err _ => None end.

(** [for len(str) <= scale { str = "0" + str }] *)
Definition pad_digits (str : string) (scale : Z) : string :=
  Repeat "0" (scale + 1 - str_len str) +:+ str.

(** [str[:n]] and [str[n:]] *)
Fixpoint str_take (n : nat) (s : string) : string :=
  match n, s with S n, String c s => String c (str_take n s) | _, _ => EmptyString end.
Fixpoint str_drop (n : nat) (s : string) : string :=
  match n, s with S n, String _ s => str_drop n s | _, s => s end.

Definition String_ (d : Decimal) : string :=
  match value d with
  | None => "0"
  | Some v =>
      let neg := v <? 0 in
      let str := utoa (Z.abs v) in
      if scale d <=? 0 then (if neg then "-" +:+ str else str)
      else
        let str := pad_digits str (scale d) in
        let n := Z.to_nat (str_len str - scale d) in
        let result := str_take n str +:+ String "." (str_drop n str) in
        if neg then "-" +:+ result else result
  end.

Definition valueOrZero (d : Decimal) : Z := default 0 (value d).
Definition Unscaled (d : Decimal) : Z := valueOrZero d.
Definition Scale (d : Decimal) : Z := scale d.
Definition Sign (d : Decimal) : Z := match value d with None => 0 | Some v => Z.sgn v end.
Definition IsZero (d : Decimal) : bool := Sign d =? 0.

Definition Add (d other : Decimal) : result DecimalErr Decimal :=
  if negb (scale d =? scale other) then Err ErrScaleMismatch
  else Ok (mkDecimal (Some (valueOrZero d + valueOrZero other)) (scale d)).

Definition Sub (d other : Decimal) : result DecimalErr Decimal :=
  if negb (scale d =? scale other) then Err ErrScaleMismatch
  else Ok (mkDecimal (Some (valueOrZero d - valueOrZero other)) (scale d)).

Definition Mul (d : Decimal) (factor : Z) : Decimal :=
  mkDecimal (Some (valueOrZero d * factor)) (scale d).

Definition MulDecimal (d other : Decimal) : Decimal :=
  mkDecimal (Some (valueOrZero d * valueOrZero other)) (scale d + scale other).

Definition Div (d : Decimal) (divisor : Z) : result DecimalErr Decimal :=
  if divisor =? 0 then Err ErrDivideByZero
  else Ok (mkDecimal (Some (Z.quot (valueOrZero d) divisor)) (scale d)).

Definition Cmp (d other : Decimal) : result DecimalErr comparison :=
  if negb (scale d =? scale other) then Err ErrScaleMismatch
  else Ok (Z.compare (valueOrZero d) (valueOrZero other)).

Definition Negate (d : Decimal) : Decimal := mkDecimal (Some (- valueOrZero d)) (scale d).

Definition Abs (d : Decimal) : Decimal :=
  if valueOrZero d <? 0 then mkDecimal (Some (Z.abs (valueOrZero d))) (scale d)
  else match value d with None => mkDecimal (Some 0) (scale d) | Some _ => d end.

Definition Rescale (d : Decimal) (newScale : Z) : Decimal :=
  if (newScale <? 0) || (newScale =? scale d) then d
  else
    let v := valueOrZero d in
    if scale d <? newScale then mkDecimal (Some (v * pow10 (newScale - scale d))) newScale
    else mkDecimal (Some (Z.quot v (pow10 (scale d - newScale)))) newScale.

(** ** Specification: the rational value *)

Definition wf (d : Decimal) : Prop := 0 ≤ scale d.

(** [n / 10^k] is the value of [d]. *)
Definition denotes (d : Decimal) (n k : Z) : Prop := valueOrZero d * 10 ^ k = n * 10 ^ scale d.
Definition same_number (d e : Decimal) : Prop := denotes d (valueOrZero e) (scale e).

(** ** Lemmas *)

Lemma str_take_drop n s : str_take n s +:+ str_drop n s = s.
Proof.
  revert n. induction s as [|c s IH]; intros [|n]; try done.
  cbn [str_take str_drop]. by rewrite app_cons_str, IH.
Qed.

Lemma str_len_app s t : str_len (s +:+ t) = str_len s + str_len t.
Proof. unfold str_len. rewrite length_app_str. lia. Qed.

Lemma length_str_take n s : (n ≤ String.length s)%nat → String.length (str_take n s) = n.
Proof. revert n. induction s as [|c s IH]; intros [|n] Hn; cbn in *; try lia. rewrite IH; lia. Qed.

Lemma pad_digits_parse str k n : parse_digits str 0 = Some n → parse_digits (pad_digits str k) 0 = Some n.
Proof. unfold pad_digits, Repeat. by rewrite parse_zeros. Qed.

Lemma pad_digits_len str k : 0 ≤ k → k < str_len (pad_digits str k).
Proof.
  intros Hk. unfold pad_digits, Repeat. rewrite str_len_app. unfold str_len. rewrite length_repeat. lia.
Qed.

Lemma all_digits_app s t : all_digits (s +:+ t) → all_digits s.
Proof. intros [n Hn]. rewrite parse_digits_app in Hn. unfold all_digits. destruct (parse_digits s 0); by eauto. Qed.

Lemma SetString_digits s n : s ≠ EmptyString → parse_digits s 0 = Some n → SetString s = Some n.
Proof.
  intros Hne Hp. destruct s as [|c s]; [done|]. unfold SetString.
  destruct (strip_sign_digits c s) as [-> _]; [apply (all_digits_head c s); by exists n|]. by rewrite Hp.
Qed.

(** Reading back an optional minus sign, digits, and possibly a point and digits. *)
Lemma Parse_parts neg s t k n : 0 ≤ k → s ≠ EmptyString → parse_digits (s +:+ t) 0 = Some n →
  str_len t = k →
  Parse (with_sign neg (if k =? 0 then s else s +:+ String "." t)) k =
    Ok (mkDecimal (Some (if neg then - n else n)) k).
Proof.
  intros Hk Hs Hp Ht. assert (all_digits s) as Hd by (apply (all_digits_app s t); by exists n).
  unfold Parse. destruct (Z.ltb_spec k 0); [lia|].
  assert (s +:+ t ≠ EmptyString) as Hst by (by destruct s).
  destruct (Z.eqb_spec k 0) as [->|Hk0].
  - assert (t = EmptyString) as -> by (destruct t; [done|]; unfold str_len in Ht; cbn in Ht; lia).
    destruct (strip_sign_with_sign neg s EmptyString Hd Hs) as (H1 & H2 & H3 & H4 & _).
    rewrite app_nil_r_str in *. rewrite H1, H2, H3, H4. cbn [orb].
    rewrite SplitN2_digits_none by done. cbn -[SetString]. rewrite app_nil_r_str.
    by rewrite (SetString_digits s n).
  - destruct (strip_sign_with_sign neg s (String "." t) Hd Hs) as (H1 & H2 & H3 & H4 & _).
    rewrite H1, H2, H3, H4. cbn [orb]. rewrite SplitN2_digits by done.
    change (default EmptyString (Some t)) with t.
    rewrite Ht, Z.ltb_irrefl, Z.sub_diag. unfold Repeat. cbn [repeat_nat Z.to_nat].
    rewrite app_nil_r_str. by rewrite (SetString_digits (s +:+ t) n).
Qed.

Lemma String_parts d v : wf d → value d = Some v → ∃ s t,
  String_ d = with_sign (v <? 0) (if scale d =? 0 then s else s +:+ String "." t) ∧
  s ≠ EmptyString ∧ parse_digits (s +:+ t) 0 = Some (Z.abs v) ∧ str_len t = scale d.
Proof.
  unfold wf, String_. intros Hk ->.
  pose proof (parse_utoa (Z.abs v) (Z.abs_nonneg v)) as Hu. pose proof (utoa_nonempty (Z.abs v)) as Hn.
  destruct (Z.leb_spec (scale d) 0) as [Hle|Hgt].
  - exists (utoa (Z.abs v)), EmptyString. rewrite app_nil_r_str.
    destruct (Z.eqb_spec (scale d) 0) as [->|]; [|lia]. split_and!; try done. by destruct (v <? 0).
  - pose proof (pad_digits_len (utoa (Z.abs v)) (scale d) Hk) as Hlen.
    apply (pad_digits_parse _ (scale d)) in Hu. set (str := pad_digits _ _) in *.
    set (n := Z.to_nat (str_len str - scale d)).
    assert (String.length (str_take n str) = n) as Htk.
    { apply length_str_take. unfold str_len in *. lia. }
    exists (str_take n str), (str_drop n str). rewrite str_take_drop.
    destruct (Z.eqb_spec (scale d) 0); [lia|]. split_and!; try done.
    + by destruct (v <? 0).
    + intros Heq. rewrite Heq in Htk. cbn in Htk. lia.
    + pose proof (f_equal str_len (str_take_drop n str)) as Hs. rewrite str_len_app in Hs.
      unfold str_len in *. lia.
Qed.

(** [q] is [a / b] with the fraction dropped. *)
Definition truncates (a q b : Z) : Prop := ∃ r, a = q * b + r ∧ Z.abs r < Z.abs b ∧ 0 ≤ r * a.

Lemma quot_truncates a b : b ≠ 0 → truncates a (Z.quot a b) b.
Proof.
  intros Hb. exists (Z.rem a b). pose proof (Z.quot_rem a b Hb).
  pose proof (Z.rem_bound_abs a b Hb). pose proof (Z.rem_sign_mul a b Hb). lia.
Qed.

Lemma Rescale_narrow d k : 0 ≤ k → k < scale d →
  scale (Rescale d k) = k ∧ truncates (valueOrZero d) (valueOrZero (Rescale d k)) (10 ^ (scale d - k)).
Proof.
  intros Hk Hlt. unfold Rescale, pow10.
  destruct (Z.ltb_spec k 0), (Z.eqb_spec k (scale d)), (Z.ltb_spec (scale d) k); try lia. cbn.
  split; [done|]. apply quot_truncates. pose proof (Z.pow_pos_nonneg 10 (scale d - k)). lia.
Qed.

Lemma Rescale_widen d k : wf d → 0 ≤ k → scale d ≤ k →
  scale (Rescale d k) = k ∧ same_number (Rescale d k) d ∧
  valueOrZero (Rescale (Rescale d k) (scale d)) = valueOrZero d.
Proof.
  unfold wf. intros Hd Hk Hle. destruct (Z.eqb_spec k (scale d)) as [->|Hne].
  - unfold Rescale. rewrite Z.eqb_refl, orb_true_r. cbn. rewrite Z.eqb_refl, orb_true_r. by split_and!.
  - unfold Rescale at 1 2 4, pow10.
    destruct (Z.ltb_spec k 0), (Z.eqb_spec k (scale d)), (Z.ltb_spec (scale d) k); try lia.
    cbn [orb scale]. split_and!; [done| |].
    + unfold same_number, denotes. cbn. rewrite <-Z.mul_assoc, <-Z.pow_add_r by lia. do 2 f_equal. lia.
    + unfold Rescale, pow10. cbn [scale valueOrZero value default from_option].
      destruct (Z.ltb_spec (scale d) 0), (Z.eqb_spec (scale d) k), (Z.ltb_spec k (scale d)); try lia.
      cbn. apply Z.quot_mul. pose proof (Z.pow_pos_nonneg 10 (k - scale d)). lia.
Qed.

(** ** Theorems *)

(** Printing and parsing at the same scale give the same decimal back. *)
Theorem decimal_String_Parse v k : 0 ≤ k →
  Parse (String_ (mkDecimal (Some v) k)) k = Ok (mkDecimal (Some v) k).
Proof.
  intros Hk. destruct (String_parts (mkDecimal (Some v) k) v) as (s & t & -> & Hs & Hp & Ht); [done..|].
  cbn [scale] in *. rewrite (Parse_parts (v <? 0) s t k (Z.abs v)) by done.
  do 3 f_equal. destruct (Z.ltb_spec v 0); lia.
Qed.

(** Changing the scale keeps the number when it widens (and narrowing back
    restores the decimal); narrowing, like division by an integer, truncates
    toward zero: the error is less than one unit of the result and has the sign
    of the number.  Division fails exactly on a zero divisor. *)
Theorem decimal_truncation d n k : wf d → 0 ≤ k →
  (scale d ≤ k → scale (Rescale d k) = k ∧ same_number (Rescale d k) d ∧
     valueOrZero (Rescale (Rescale d k) (scale d)) = valueOrZero d) ∧
  (k < scale d → scale (Rescale d k) = k ∧
     truncates (valueOrZero d) (valueOrZero (Rescale d k)) (10 ^ (scale d - k))) ∧
  (n = 0 ↔ Div d n = Err ErrDivideByZero) ∧
  (∀ q, Div d n = Ok q → scale q = scale d ∧ truncates (valueOrZero d) (valueOrZero q) n).
Proof.
  intros Hd Hk. split_and!.
  - apply Rescale_widen; done.
  - by apply Rescale_narrow.
  - unfold Div. destruct (Z.eqb_spec n 0); naive_solver.
  - intros q. unfold Div. destruct (Z.eqb_spec n 0); [done|]. intros [= <-]. split; [done|].
    by apply quot_truncates.
Qed.

(** ** Witnesses, and a sign inside the fraction *)

Lemma decimal_String_Parse_witness :
  String_ (mkDecimal (Some (-5)) 2) = "-0.05"%string ∧
  Parse (String_ (mkDecimal (Some (-5)) 2)) 2 = Ok (mkDecimal (Some (-5)) 2).
Proof. split; [vm_compute; reflexivity|]. apply decimal_String_Parse. lia. Defined.

Lemma decimal_truncation_witness :
  Rescale (mkDecimal (Some (-129)) 2) 1 = mkDecimal (Some (-12)) 1 ∧
  truncates (-129) (-12) (10 ^ (2 - 1)).
Proof.
  split; [reflexivity|].
  destruct (decimal_truncation (mkDecimal (Some (-129)) 2) 7 1) as (_ & Hn & _); [unfold wf; cbn; lia|lia|].
  apply Hn. cbn. lia.
Defined.

(** The guard against a second sign looks at the byte after the first one only:
    with an empty whole part the fraction may carry a sign of its own. *)
Example decimal_inner_sign :
  Parse "-.-5" 2 = Ok (mkDecimal (Some 5) 2) ∧ Parse "--5" 2 = Err ErrParse.
Proof. vm_compute. by split. Qed.
