(* ===== verification/Base62.v ===== *)
(** * Base62: the short-code encoding of [base62/base62.go]

    Strings are byte lists.  The decode table is the 256-entry array of the
    source, the encoder writes into its 12-byte buffer from the back ([None]: an
    index out of range), the decoder accumulates in a [uint64].  Shown: encoding
    never leaves the buffer and decoding inverts it, for the package alphabet
    and for every valid custom one. *)

From Stdlib Require Import ZArith Lia Ascii String.
From stdpp Require Import base tactics numbers list sets.
From S2P Require Import Prelude.

#[local] Open Scope Z_scope.

Inductive Error := ErrInvalid | ErrAlphabet.

Definition Alphabet : list ascii :=
  String.list_ascii_of_string "0123456789ABCDEFGHIJKLMNOPQRSTUVWXYZabcdefghijklmnopqrstuvwxyz".

(** ** Decode tables: [256]int8, -1 marks a byte outside the alphabet *)

Definition byte (c : ascii) : nat := nat_of_ascii c.
Definition emptyTable : list Z := replicate 256 (-1).
Definition index (idx : list Z) (c : ascii) : Z := nth (byte c) idx (-1).

(** [for i := range 62 { idx[alphabet[i]] = int8(i) }] *)
Fixpoint fill (idx : list Z) (alphabet : list ascii) (i : Z) : list Z :=
  match alphabet with
  | [] => idx
  | c :: alphabet => fill (<[byte c := i]> idx) alphabet (i + 1)
  end.
Definition buildDecodeTable (alphabet : list ascii) : list Z := fill emptyTable (take 62 alphabet) 0.

(** The same loop with duplicate detection. *)
Fixpoint fillErr (idx : list Z) (alphabet : list ascii) (i : Z) : list Z * bool :=
  match alphabet with
  | [] => (idx, true)
  | c :: alphabet =>
      if negb (index idx c =? -1) then (idx, false)
      else fillErr (<[byte c := i]> idx) alphabet (i + 1)
  end.
Definition buildDecodeTableErr (alphabet : list ascii) : list Z * bool :=
  fillErr emptyTable (take 62 alphabet) 0.

Definition defaultDecodeTable : list Z := buildDecodeTable Alphabet.

(** ** Encode *)

(** [for id > 0 { n--; buf[n] = alphabet[id%62]; id /= 62 }]; [n] bytes of the
    buffer are left, [out] is what has been written. *)
Fixpoint encode_loop (n : nat) (id : Z) (alphabet out : list ascii) : option (list ascii) :=
  if 0 <? id then
    match n, alphabet !! Z.to_nat (id mod 62) with
    | S n, Some c => encode_loop n (id / 62) alphabet (c :: out)
    | _, _ => None
    end
  else Some out.

Definition EncodeWithAlphabet (id : Z) (alphabet : list ascii) : option (list ascii) :=
  if id =? 0 then c ← alphabet !! 0%nat; Some [c] else encode_loop 12 id alphabet [].

Definition Encode (id : Z) : option (list ascii) := EncodeWithAlphabet id Alphabet.

(** ** Decode *)

Fixpoint decode_loop (idx : list Z) (s : list ascii) (val : Z) : result Error Z :=
  match s with
  | [] => Ok val
  | c :: s =>
      let d := index idx c in
      if d <? 0 then Err ErrInvalid else decode_loop idx s (u64 (val * 62 + d))
  end.

Definition decodeWithTable (s : list ascii) (idx : list Z) : result Error Z :=
  match s with [] => Err ErrInvalid | _ => decode_loop idx s 0 end.

Definition Decode (s : list ascii) : result Error Z := decodeWithTable s defaultDecodeTable.

Definition DecodeWithAlphabet (s alphabet : list ascii) : result Error Z :=
  if negb (length alphabet =? 62)%nat then Err ErrAlphabet
  else
    let '(idx, ok) := buildDecodeTableErr alphabet in
    if negb ok then Err ErrAlphabet else decodeWithTable s idx.

#[local] Arguments index : simpl never.

(** ** Lemmas on tables *)

Lemma byte_lt c : (byte c < 256)%nat.
Proof. apply nat_ascii_bounded. Qed.

Lemma byte_inj c d : byte c = byte d → c = d.
Proof. intros H. rewrite <-(ascii_nat_embedding c), <-(ascii_nat_embedding d). unfold byte in H. by rewrite H. Qed.

Lemma index_insert idx c d i : length idx = 256%nat →
  index (<[byte c := i]> idx) d = if decide (c = d) then i else index idx d.
Proof.
  intros Hl. unfold index. rewrite !nth_lookup. case_decide as Hc; [subst d|].
  - rewrite list_lookup_insert_eq; [done|]. rewrite Hl. apply byte_lt.
  - rewrite list_lookup_insert_ne; [done|]. intros Hb. by apply Hc, byte_inj.
Qed.

(** The table of an alphabet: [idx[alphabet[k]] = k]. *)
Definition indexes (idx : list Z) (alphabet : list ascii) (i : Z) : Prop :=
  ∀ k c, alphabet !! k = Some c → index idx c = i + Z.of_nat k.

Lemma fill_spec alphabet idx i : length idx = 256%nat → NoDup alphabet →
  indexes (fill idx alphabet i) alphabet i ∧
  ∀ d, d ∉ alphabet → index (fill idx alphabet i) d = index idx d.
Proof.
  revert idx i. induction alphabet as [|c l IH]; intros idx i Hl Hnd; [by split|].
  apply NoDup_cons in Hnd as [Hc Hnd]. cbn [fill].
  destruct (IH (<[byte c := i]> idx) (i + 1)) as [IH1 IH2]; [by rewrite length_insert|done|]. split.
  - intros [|k] d; cbn; [intros [= <-]|intros Hk].
    + rewrite IH2, index_insert by done. rewrite decide_True by done. lia.
    + rewrite (IH1 k d Hk). lia.
  - intros d [Hd Hdl]%not_elem_of_cons. rewrite IH2, index_insert by done. by rewrite decide_False.
Qed.

(** With duplicate detection: the same table, or the duplicate is reported. *)
Lemma fillErr_spec alphabet idx i : length idx = 256%nat →
  (∀ d, d ∈ alphabet → index idx d = -1) → 0 ≤ i →
  if decide (NoDup alphabet) then fillErr idx alphabet i = (fill idx alphabet i, true)
  else (fillErr idx alphabet i).2 = false.
Proof.
  revert idx i. induction alphabet as [|c l IH]; intros idx i Hl Hfree Hi.
  { rewrite decide_True by constructor. done. }
  cbn [fillErr fill]. rewrite (Hfree c) by set_solver. cbn [Z.eqb Pos.eqb negb].
  destruct (decide (c ∈ l)) as [Hc|Hc].
  - rewrite decide_False by (intros [? _]%NoDup_cons; done). clear IH.
    assert (∃ x, index (<[byte c := i]> idx) x ≠ -1 ∧ x ∈ l) as Hx.
    { exists c. rewrite index_insert, decide_True by done. split; [lia|done]. }
    clear Hfree Hc. assert (length (<[byte c := i]> idx) = 256%nat) as Hl' by (by rewrite length_insert).
    assert (0 ≤ i + 1) as Hi' by lia. revert Hx Hl' Hi'. generalize (<[byte c := i]> idx) (i + 1). clear.
    induction l as [|y l IH]; intros idx i (x & Hx & Hin) Hl Hi; [set_solver|]. cbn [fillErr].
    destruct (Z.eqb_spec (index idx y) (-1)) as [Hy|Hy]; [|done]. cbn [negb].
    apply elem_of_cons in Hin as [->|Hin]; [done|]. apply IH; [|by rewrite length_insert|lia].
    exists x. split; [|done]. rewrite index_insert by done. case_decide; [lia|done].
  - specialize (IH (<[byte c := i]> idx) (i + 1)). rewrite length_insert in IH.
    assert (∀ d, d ∈ l → index (<[byte c := i]> idx) d = -1) as Hfree'.
    { intros d Hd. rewrite index_insert by done. rewrite decide_False by set_solver. apply Hfree. set_solver. }
    specialize (IH Hl Hfree' ltac:(lia)). destruct (decide (NoDup l)) as [Hnd|Hnd].
    + rewrite decide_True by (by apply NoDup_cons). done.
    + rewrite decide_False by (intros [_ ?]%NoDup_cons; done). done.
Qed.

(** ** Lemmas on the loops *)

Lemma encode_decode_loop alphabet idx n id out :
  indexes idx alphabet 0 → length alphabet = 62%nat → 0 ≤ id < 62 ^ Z.of_nat n → id < 2 ^ 64 →
  ∃ s, encode_loop n id alphabet out = Some s ∧ decode_loop idx s 0 = decode_loop idx out id ∧
       (s = [] → out = []) ∧ (0 < id → s ≠ []).
Proof.
  intros Hidx Hlen. revert id out. induction n as [|n IH]; intros id out Hid Hmax.
  { assert (id = 0) as -> by (cbn in Hid; lia). exists out. by split_and!. }
  cbn [encode_loop]. destruct (Z.ltb_spec 0 id) as [Hpos|Hz]; cycle 1.
  { assert (id = 0) as -> by lia. exists out. by split_and!. }
  pose proof (Z.mod_pos_bound id 62 ltac:(lia)) as Hm.
  destruct (lookup_lt_is_Some_2 alphabet (Z.to_nat (id mod 62))) as [c Hc]; [lia|]. rewrite Hc.
  assert (0 ≤ id / 62 < 62 ^ Z.of_nat n) as Hq.
  { split; [apply Z.div_pos; lia|]. apply Z.div_lt_upper_bound; [lia|].
    rewrite <-Z.pow_succ_r, <-Nat2Z.inj_succ by lia. lia. }
  destruct (IH (id / 62) (c :: out) Hq) as (s & -> & Hd & Hne & _).
  { assert (id / 62 ≤ id) by (apply Z.div_le_upper_bound; lia). lia. }
  exists s. split; [done|]. split; [|split; intros; naive_solver].
  rewrite Hd. cbn [decode_loop]. rewrite (Hidx _ _ Hc), Z2Nat.id by lia.
  destruct (Z.ltb_spec (0 + id mod 62) 0); [lia|].
  replace (id / 62 * 62 + (0 + id mod 62)) with id by (pose proof (Z.div_mod id 62); lia).
  by rewrite u64_id by (unfold_int; lia).
Qed.

Lemma encode_loop_length n i alphabet o s :
  encode_loop n i alphabet o = Some s → (length s ≤ n + length o)%nat.
Proof.
  revert i o. induction n as [|n IH]; intros i o; cbn [encode_loop];
    (destruct (0 <? i); [|intros [= <-]; lia]); [done|].
  case_match; [|done]. intros Hs%IH. cbn in Hs. lia.
Qed.

(** Twelve base-62 digits are more than a [uint64] needs. *)
Lemma buf_enough : 2 ^ 64 < 62 ^ Z.of_nat 12.
Proof. vm_compute. reflexivity. Qed.

Lemma encode_decode alphabet idx id :
  indexes idx alphabet 0 → length alphabet = 62%nat → 0 ≤ id < 2 ^ 64 →
  ∃ s, EncodeWithAlphabet id alphabet = Some s ∧ decodeWithTable s idx = Ok id ∧
       (0 < length s ≤ 12)%nat.
Proof.
  intros Hidx Hlen Hid. unfold EncodeWithAlphabet. destruct (Z.eqb_spec id 0) as [->|Hnz].
  - destruct (lookup_lt_is_Some_2 alphabet 0) as [c Hc]; [lia|]. rewrite Hc. cbn. exists [c].
    split_and!; try (cbn; lia); [done|]. cbn. by rewrite (Hidx _ _ Hc).
  - destruct (encode_decode_loop alphabet idx 12 id [] Hidx Hlen) as (s & Hs & Hd & _ & Hne);
      [split; [lia|]; etrans; [apply Hid|apply buf_enough]|lia|].
    exists s. split; [done|]. specialize (Hne ltac:(lia)). split; [|split].
    + destruct s; [done|]. exact Hd.
    + destruct s; [done|cbn; lia].
    + apply encode_loop_length in Hs. rewrite Nat.add_0_r in Hs. exact Hs.
Qed.

(** ** Theorem *)

(** For every [uint64] and every 62-byte alphabet without duplicates,
    encoding stays within its 12-byte buffer and decoding gives the integer
    back, with the package alphabet through its precomputed table and with a
    custom one through the table built per call; an alphabet of the wrong length
    or with a duplicate is refused. *)
Theorem base62_roundtrip id alphabet : 0 ≤ id < 2 ^ 64 →
  (∃ s, Encode id = Some s ∧ (0 < length s ≤ 12)%nat ∧ Decode s = Ok id) ∧
  (length alphabet = 62%nat → NoDup alphabet →
     ∃ s, EncodeWithAlphabet id alphabet = Some s ∧ DecodeWithAlphabet s alphabet = Ok id) ∧
  (∀ s, length alphabet ≠ 62%nat ∨ ¬ NoDup alphabet → DecodeWithAlphabet s alphabet = Err ErrAlphabet).
Proof.
  intros Hid.
  assert (∀ l, length l = 62%nat → NoDup l → indexes (buildDecodeTable l) l 0) as Hbuild.
  { intros l Hl Hnd. unfold buildDecodeTable. rewrite take_ge by lia. by apply fill_spec. }
  assert (∀ d, index emptyTable d = -1) as Hempty.
  { intros d. unfold index, emptyTable. rewrite nth_lookup.
    by rewrite lookup_replicate_2 by apply byte_lt. }
  assert (length alphabet = 62%nat → if decide (NoDup alphabet)
    then buildDecodeTableErr alphabet = (buildDecodeTable alphabet, true)
    else (buildDecodeTableErr alphabet).2 = false) as Herr.
  { intros Hl. unfold buildDecodeTableErr, buildDecodeTable. rewrite take_ge by lia.
    by apply fillErr_spec. }
  split_and!.
  - destruct (encode_decode Alphabet defaultDecodeTable id) as (s & ? & ? & ?); [|done|done|by exists s].
    apply Hbuild; [done|]. apply (bool_decide_unpack (NoDup Alphabet)). vm_compute. exact I.
  - intros Hl Hnd. specialize (Herr Hl). rewrite decide_True in Herr by done.
    destruct (encode_decode alphabet (buildDecodeTable alphabet) id) as (s & ? & Hd & _); [auto..|].
    exists s. split; [done|]. unfold DecodeWithAlphabet. rewrite Hl, Herr. exact Hd.
  - intros s Hbad. unfold DecodeWithAlphabet. destruct (Nat.eqb_spec (length alphabet) 62) as [Hl|]; [|done].
    cbn [negb]. specialize (Herr Hl). destruct (decide (NoDup alphabet)); [naive_solver|].
    by destruct (buildDecodeTableErr alphabet) as [idx ok]; cbn in Herr; subst ok.
Qed.

Lemma base62_roundtrip_witness :
  ∃ s, Encode 18446744073709551615 = Some s ∧ (0 < length s ≤ 12)%nat ∧ Decode s = Ok 18446744073709551615.
Proof. apply (base62_roundtrip 18446744073709551615 []). lia. Defined.
