(* ===== verification/Interval.v ===== *)
(** * Interval: half-open intervals and their merge, [interval/interval.go]

    Over the integers (the instance the package recommends, times being turned
    into [UnixNano]).  [slices.SortFunc] is not stable, so [Merge] takes any
    permutation sorted by start; the theorem covers all of them and shows that
    the choice does not matter. *)

From Stdlib Require Import ZArith Lia.
From stdpp Require Import base tactics numbers list sets sorting.
From S2P Require Import Prelude.

#[local] Open Scope Z_scope.

Inductive Error := ErrInverted.

Record Interval := mkInterval { Start : Z; End_ : Z }.

Definition New (start end_ : Z) : result Error Interval :=
  if end_ <=? start then Err ErrInverted else Ok (mkInterval start end_).

Definition Contains (i : Interval) (v : Z) : bool := (Start i <=? v) && (v <? End_ i).
Definition ContainsInclusive (i : Interval) (v : Z) : bool := (Start i <=? v) && (v <=? End_ i).
Definition Overlaps (i other : Interval) : bool := (Start i <? End_ other) && (Start other <? End_ i).
Definition IsBefore (i other : Interval) : bool := End_ i <=? Start other.
Definition IsAfter (i other : Interval) : bool := End_ other <=? Start i.
Definition touches (i other : Interval) : bool := (End_ i =? Start other) || (End_ other =? Start i).

Definition Union (i other : Interval) : option Interval :=
  if negb (Overlaps i other) && negb (touches i other) then None
  else Some (mkInterval (Z.min (Start i) (Start other)) (Z.max (End_ i) (End_ other))).

Definition Intersect (i other : Interval) : option Interval :=
  let s := Z.max (Start i) (Start other) in
  let e := Z.min (End_ i) (End_ other) in
  if e <=? s then None else Some (mkInterval s e).

(** The loop of [Merge]: [last] is the last merged interval, the result is what
    [merged] holds from there on. *)
Fixpoint merge_loop (last : Interval) (rest : list Interval) : list Interval :=
  match rest with
  | [] => [last]
  | cur :: rest =>
      if Start cur <=? End_ last then
        merge_loop (if End_ last <? End_ cur then mkInterval (Start last) (End_ cur) else last) rest
      else last :: merge_loop cur rest
  end.

(** [sorted]: the sorted copy. *)
Definition Merge (sorted : list Interval) : list Interval :=
  match sorted with [] => [] | i :: rest => merge_loop i rest end.

(** A result [slices.SortFunc] may give. *)
Definition start_le (a b : Interval) : Prop := Start a ≤ Start b.
Definition sorts (l sorted : list Interval) : Prop := sorted ≡ₚ l ∧ StronglySorted start_le sorted.

(** ** Specification: sets of points *)

Definition valid (i : Interval) : Prop := Start i < End_ i.
Definition In_ (v : Z) (i : Interval) : Prop := Start i ≤ v < End_ i.
Definition covered (l : list Interval) (v : Z) : Prop := Exists (In_ v) l.

(** Ascending, with a gap between neighbours: nothing left to merge. *)
Inductive normal : list Interval → Prop :=
| normal_nil : normal []
| normal_cons i l : valid i → (∀ j, j ∈ l → End_ i < Start j) → normal l → normal (i :: l).

(** ** Lemmas *)

Lemma Contains_spec i v : Contains i v = true ↔ In_ v i.
Proof. unfold Contains, In_. lia. Qed.

Lemma covered_cons i l v : covered (i :: l) v ↔ In_ v i ∨ covered l v.
Proof. apply Exists_cons. Qed.

(** Starts only grow along the loop. *)
Lemma merge_loop_starts last rest i : StronglySorted start_le (last :: rest) →
  i ∈ merge_loop last rest → Start last ≤ Start i.
Proof.
  revert last. induction rest as [|cur rest IH]; intros last Hs; cbn [merge_loop].
  { rewrite list_elem_of_singleton. intros ->. done. }
  apply StronglySorted_inv in Hs as [Hs Hle]. apply Forall_cons in Hle as [Hc Hle].
  apply StronglySorted_inv in Hs as [Hs Hcl].
  destruct (Z.leb_spec (Start cur) (End_ last)).
  - set (last' := if _ <? _ then _ else _). assert (Start last' = Start last) as Hst.
    { subst last'. by destruct (_ <? _). }
    intros Hi. rewrite <-Hst. apply IH; [|done]. constructor; [done|].
    eapply Forall_impl; [exact Hle|]. intros x. unfold start_le. rewrite Hst. done.
  - rewrite elem_of_cons. intros [->|Hi]; [done|]. unfold start_le in Hc. etrans; [exact Hc|].
    apply IH; [by constructor|done].
Qed.

Lemma merge_loop_spec last rest : StronglySorted start_le (last :: rest) →
  Forall valid (last :: rest) →
  normal (merge_loop last rest) ∧ ∀ v, covered (merge_loop last rest) v ↔ covered (last :: rest) v.
Proof.
  revert last. induction rest as [|cur rest IH]; intros last Hs Hv; cbn [merge_loop].
  { split; [|done]. apply Forall_cons in Hv as [Hv _]. constructor; [done|set_solver|constructor]. }
  apply Forall_cons in Hv as [Hvl Hvr]. apply Forall_cons in Hvr as [Hvc Hvr].
  apply StronglySorted_inv in Hs as [Hs Hle]. apply Forall_cons in Hle as [Hc Hle].
  destruct (Z.leb_spec (Start cur) (End_ last)) as [Hj|Hj].
  - set (last' := if _ <? _ then _ else _). apply StronglySorted_inv in Hs as [Hs _].
    assert (Start last' = Start last ∧ End_ last' = Z.max (End_ last) (End_ cur)) as [Hst Hen].
    { subst last'. destruct (Z.ltb_spec (End_ last) (End_ cur)); cbn; lia. }
    destruct (IH last') as [Hn Hcov].
    + constructor; [done|]. eapply Forall_impl; [exact Hle|]. intros x. unfold start_le. by rewrite Hst.
    + constructor; [|done]. unfold valid, start_le in *. lia.
    + split; [done|]. intros v. rewrite Hcov, !covered_cons. unfold In_, start_le, valid in *.
      rewrite Hst, Hen. assert (Start last ≤ v < Z.max (End_ last) (End_ cur) ↔
        Start last ≤ v < End_ last ∨ Start cur ≤ v < End_ cur) by lia. tauto.
  - destruct (IH cur Hs) as [Hn Hcov]; [by constructor|]. split.
    + constructor; [done| |done]. intros j Hin. pose proof (merge_loop_starts cur rest j Hs Hin). lia.
    + intros v. by rewrite covered_cons, Hcov, !(covered_cons last).
Qed.

(** A normal form is determined by the points it covers. *)
Lemma normal_unique l1 l2 : normal l1 → normal l2 → (∀ v, covered l1 v ↔ covered l2 v) → l1 = l2.
Proof.
  intros H1. revert l2. induction H1 as [|i l1 Hi Hgap Hn1 IH]; intros l2 H2 Hcov.
  - destruct H2 as [|j l2 Hj _ _]; [done|]. exfalso. specialize (Hcov (Start j)). rewrite covered_cons in Hcov.
    unfold In_, valid in *. assert (covered [] (Start j)) as Hbad by (apply Hcov; left; lia). inversion Hbad.
  - destruct H2 as [|j l2 Hj Hgap2 Hn2].
    { exfalso. specialize (Hcov (Start i)). rewrite covered_cons in Hcov. unfold In_, valid in *.
      assert (covered [] (Start i)) as Hbad by (apply Hcov; left; lia). inversion Hbad. }
    assert (∀ l (a : Interval) v, (∀ x, x ∈ l → End_ a < Start x) → covered l v → End_ a < v) as Hfar.
    { intros l a v Hg (x & Hx & Hv)%Exists_exists. specialize (Hg x Hx). unfold In_ in Hv. lia. }
    unfold valid in *. setoid_rewrite covered_cons in Hcov. unfold In_ in Hcov.
    assert (Start i = Start j) as Hs.
    { pose proof (proj1 (Hcov (Start i)) ltac:(left; lia)) as [?|Hx];
      pose proof (proj2 (Hcov (Start j)) ltac:(left; lia)) as [?|Hy]; try lia.
      all: try (apply (Hfar _ j) in Hx; [|done]); try (apply (Hfar _ i) in Hy; [|done]); lia. }
    assert (End_ i = End_ j) as He.
    { destruct (Z.lt_trichotomy (End_ i) (End_ j)) as [Hlt|[?|Hlt]]; [|done|].
      - pose proof (proj2 (Hcov (End_ i)) ltac:(left; lia)) as [?|Hx]; [lia|].
        apply (Hfar _ i) in Hx; [lia|done].
      - pose proof (proj1 (Hcov (End_ j)) ltac:(left; lia)) as [?|Hx]; [lia|].
        apply (Hfar _ j) in Hx; [lia|done]. }
    f_equal; [destruct i, j; cbn in *; by subst|]. apply IH; [done|]. intros v. split; intros Hv.
    + destruct (proj1 (Hcov v) (or_intror Hv)) as [?|?]; [|done]. apply (Hfar _ i) in Hv; [lia|done].
    + destruct (proj2 (Hcov v) (or_intror Hv)) as [?|?]; [|done]. apply (Hfar _ j) in Hv; [lia|done].
Qed.

Lemma covered_perm l l' v : l ≡ₚ l' → covered l v ↔ covered l' v.
Proof. intros Hp. unfold covered. rewrite !Exists_exists. by setoid_rewrite Hp. Qed.

Lemma Merge_spec l sorted : Forall valid l → sorts l sorted →
  normal (Merge sorted) ∧ ∀ v, covered (Merge sorted) v ↔ covered l v.
Proof.
  intros Hv [Hp Hs]. assert (Forall valid sorted) as Hv' by (by rewrite Hp).
  setoid_rewrite <-(covered_perm _ _ _ Hp). destruct sorted as [|i rest]; [split; [constructor|done]|].
  by apply merge_loop_spec.
Qed.

(** ** Theorems *)

(** [Merge] returns the minimal set of disjoint intervals: ascending, with a
    gap between any two, covering exactly the points the input covers - and the
    same list whatever order the unstable sort gives to equal starts. *)
Theorem interval_merge_normal l sorted : Forall valid l → sorts l sorted →
  normal (Merge sorted) ∧
  (∀ v, (∃ i, i ∈ Merge sorted ∧ Contains i v = true) ↔ (∃ i, i ∈ l ∧ Contains i v = true)) ∧
  ∀ out, normal out → (∀ v, covered out v ↔ covered l v) → out = Merge sorted.
Proof.
  intros Hv Hs. destruct (Merge_spec l sorted Hv Hs) as [Hn Hc]. split_and!; [done| |].
  - intros v. setoid_rewrite Contains_spec. specialize (Hc v). unfold covered in Hc.
    rewrite !Exists_exists in Hc. done.
  - intros out Hout Hcov. apply normal_unique; [done..|]. intros v. by rewrite Hc.
Qed.

(** The binary operations are exact on valid intervals: [Overlaps] iff there
    is a common point, [Intersect] covers exactly the common points and fails iff
    there are none, [Union] covers exactly the points of either and fails iff a
    gap separates them; before/after/overlapping exclude each other and exhaust
    the cases. *)
Theorem interval_ops_exact i j : valid i → valid j →
  (Overlaps i j = true ↔ ∃ v, In_ v i ∧ In_ v j) ∧
  (match Intersect i j with
   | Some r => valid r ∧ ∀ v, In_ v r ↔ In_ v i ∧ In_ v j
   | None => ∀ v, ¬ (In_ v i ∧ In_ v j)
   end) ∧
  (match Union i j with
   | Some r => valid r ∧ ∀ v, In_ v r ↔ In_ v i ∨ In_ v j
   | None => ∃ g, (End_ i ≤ g < Start j ∨ End_ j ≤ g < Start i)
   end) ∧
  (if Overlaps i j then IsBefore i j = false ∧ IsAfter i j = false
   else IsBefore i j = negb (IsAfter i j)).
Proof.
  unfold valid, Intersect, Union, IsBefore, IsAfter, touches, In_, Overlaps. intros Hi Hj.
  split_and!.
  - split; [|intros [v Hv]; lia]. intros Ho. exists (Z.max (Start i) (Start j)). lia.
  - destruct (Z.leb_spec (Z.min (End_ i) (End_ j)) (Z.max (Start i) (Start j))); cbn; [lia|].
    split; [lia|]. intros v. lia.
  - destruct (negb _ && negb _) eqn:E; cbn [Start End_].
    2: { assert (Start i ≤ End_ j ∧ Start j ≤ End_ i) by lia. split; [lia|]. intros v. split; lia. }
    destruct (Z.lt_ge_cases (End_ i) (Start j)); [exists (End_ i)|exists (End_ j)]; lia.
  - destruct (_ && _) eqn:E; lia.
Qed.

(** ** Witnesses *)

Lemma interval_merge_normal_witness :
  Merge [mkInterval 1 3; mkInterval 3 5; mkInterval 7 9] = [mkInterval 1 5; mkInterval 7 9] ∧
  normal (Merge [mkInterval 1 3; mkInterval 3 5; mkInterval 7 9]).
Proof.
  split; [reflexivity|].
  apply (interval_merge_normal [mkInterval 3 5; mkInterval 1 3; mkInterval 7 9]).
  - repeat constructor; unfold valid; cbn; lia.
  - split; [apply Permutation_swap|]. repeat constructor; unfold start_le; cbn; lia.
Defined.

Lemma interval_ops_exact_witness :
  Union (mkInterval 1 3) (mkInterval 3 5) = Some (mkInterval 1 5) ∧
  (Overlaps (mkInterval 1 3) (mkInterval 3 5) = true ↔ ∃ v, In_ v (mkInterval 1 3) ∧ In_ v (mkInterval 3 5)).
Proof.
  split; [reflexivity|]. apply (interval_ops_exact (mkInterval 1 3) (mkInterval 3 5)); reflexivity.
Defined.
