(* ===== verification/Semaphore.v ===== *)
(** * Semaphore: the channel-based weighted semaphore of [semaphore/semaphore.go]

    Permits are tokens in a buffered channel.  Each caller is a thread whose
    program counter stands between two channel or mutex operations, so every
    interleaving the source allows is a sequence of steps: the unit fast path,
    the weighted loop (check the length under [wmu], take the tokens one by one,
    or receive one token, put it back and re-check), [TryAcquire], [Release] and
    [Close].

    Shown: tokens are conserved, so no more than [cap] permits are ever held, a
    correct [Release] never panics and a put-back never blocks; and a weighted
    caller caught between its check and its takes when the semaphore is closed
    is never woken ([semaphore_close_strands]). *)

From Stdlib Require Import ZArith Lia.
From stdpp Require Import base tactics numbers list relations.
From S2P Require Import Prelude.

(** ** State *)

(** Where a caller is. *)
Inductive pc :=
| Idle
| UnitWait                  (** second [select] of [Acquire(ctx, 1)] *)
| Check (n : nat)           (** top of the weighted loop, before [wmu.Lock()] *)
| Select (n : nat)          (** the weighted loop's [select] *)
| PutBack (n : nat)         (** received a token, about to send it back *)
| TryCheck (n : nat)        (** [TryAcquire], before [wmu.Lock()] *)
| Taking (m n : nat)        (** [takeLocked]: [m] of [n] tokens still to take, holds [wmu] *)
| Releasing (r : nat)       (** loop of [Release]: [r] tokens still to send *)
| Panicked.

Record thread := mkThread { at_ : pc; holds : nat }.

(** [dropped]: permits whose [Release] was a no-op because of [Close]. *)
Record shared := mkShared { ch : nat; cap : nat; closed : bool; wmu : bool; dropped : nat }.

Record sys := mkSys { sh : shared; threads : list thread }.

Definition set_ch (g : shared) (n : nat) : shared := mkShared n (cap g) (closed g) (wmu g) (dropped g).
Definition set_wmu (g : shared) (b : bool) : shared := mkShared (ch g) (cap g) (closed g) b (dropped g).

(** [n <= 0] is treated as 1. *)
Definition norm (n : Z) : nat := if (n <=? 0)%Z then 1 else Z.to_nat n.

(** [None]: the constructor panics.  [callers] threads use the semaphore. *)
Definition New (capacity : Z) (callers : nat) : option sys :=
  if (capacity <=? 0)%Z then None
  else Some (mkSys (mkShared (Z.to_nat capacity) (Z.to_nat capacity) false false 0)
               (replicate callers (mkThread Idle 0))).

Definition Available (s : sys) : nat := ch (sh s).
Definition Cap (s : sys) : nat := cap (sh s).

(** ** Steps of one caller *)

(** Acquire(ctx, n); a cancelled context may win any [select] that has it. *)
Inductive Acquire : shared → thread → shared → thread → Prop :=
| acq_exceeds g h n : cap g < norm n → Acquire g (mkThread Idle h) g (mkThread Idle h)
| acq_unit g h n c : norm n = 1 → norm n ≤ cap g → ch g = S c →
    Acquire g (mkThread Idle h) (set_ch g c) (mkThread Idle (h + 1))
| acq_unit_closed g h n : norm n = 1 → norm n ≤ cap g → closed g = true →
    Acquire g (mkThread Idle h) g (mkThread Idle h)
| acq_unit_default g h n : norm n = 1 → norm n ≤ cap g → ch g = 0 → closed g = false →
    Acquire g (mkThread Idle h) g (mkThread UnitWait h)
| acq_wait_take g h c : ch g = S c →
    Acquire g (mkThread UnitWait h) (set_ch g c) (mkThread Idle (h + 1))
| acq_wait_closed g h : closed g = true → Acquire g (mkThread UnitWait h) g (mkThread Idle h)
| acq_wait_ctx g h : Acquire g (mkThread UnitWait h) g (mkThread Idle h)
| acq_weighted g h n : 1 < norm n ≤ cap g →
    Acquire g (mkThread Idle h) g (mkThread (Check (norm n)) h)
| acq_enough g h n : wmu g = false → n ≤ ch g →
    Acquire g (mkThread (Check n) h) (set_wmu g true) (mkThread (Taking n n) h)
| acq_short g h n : wmu g = false → ch g < n →
    Acquire g (mkThread (Check n) h) g (mkThread (Select n) h)
| acq_recv g h n c : ch g = S c →
    Acquire g (mkThread (Select n) h) (set_ch g c) (mkThread (PutBack n) h)
| acq_send g h n : ch g < cap g →
    Acquire g (mkThread (PutBack n) h) (set_ch g (S (ch g))) (mkThread (Check n) h)
| acq_sel_closed g h n : closed g = true → Acquire g (mkThread (Select n) h) g (mkThread Idle h)
| acq_sel_ctx g h n : Acquire g (mkThread (Select n) h) g (mkThread Idle h).

(** takeLocked(n), then [wmu.Unlock()] and the return. *)
Inductive takeLocked : shared → thread → shared → thread → Prop :=
| take_one g h m n c : ch g = S c →
    takeLocked g (mkThread (Taking (S m) n) h) (set_ch g c) (mkThread (Taking m n) h)
| take_done g h n : takeLocked g (mkThread (Taking 0 n) h) (set_wmu g false) (mkThread Idle (h + n)).

Inductive TryAcquire : shared → thread → shared → thread → Prop :=
| try_exceeds g h n : cap g < norm n → TryAcquire g (mkThread Idle h) g (mkThread Idle h)
| try_unit g h n c : norm n = 1 → norm n ≤ cap g → ch g = S c →
    TryAcquire g (mkThread Idle h) (set_ch g c) (mkThread Idle (h + 1))
| try_unit_no g h n : norm n = 1 → norm n ≤ cap g → ch g = 0 →
    TryAcquire g (mkThread Idle h) g (mkThread Idle h)
| try_weighted g h n : 1 < norm n ≤ cap g →
    TryAcquire g (mkThread Idle h) g (mkThread (TryCheck (norm n)) h)
| try_enough g h n : wmu g = false → n ≤ ch g →
    TryAcquire g (mkThread (TryCheck n) h) (set_wmu g true) (mkThread (Taking n n) h)
| try_short g h n : wmu g = false → ch g < n →
    TryAcquire g (mkThread (TryCheck n) h) g (mkThread Idle h).

(** Release(n) of permits the caller holds. *)
Inductive Release : shared → thread → shared → thread → Prop :=
| rel_start g h n : norm n ≤ h → closed g = false →
    Release g (mkThread Idle h) g (mkThread (Releasing (norm n)) (h - norm n))
| rel_closed g h n : norm n ≤ h → closed g = true →
    Release g (mkThread Idle h)
      (mkShared (ch g) (cap g) (closed g) (wmu g) (dropped g + norm n)) (mkThread Idle (h - norm n))
| rel_send g h r : ch g < cap g →
    Release g (mkThread (Releasing (S r)) h) (set_ch g (S (ch g))) (mkThread (Releasing r) h)
| rel_full g h r : ch g = cap g → Release g (mkThread (Releasing (S r)) h) g (mkThread Panicked h)
| rel_done g h : Release g (mkThread (Releasing 0) h) g (mkThread Idle h).

Inductive Close : shared → thread → shared → thread → Prop :=
| close_do g h : Close g (mkThread Idle h)
    (mkShared (ch g) (cap g) true (wmu g) (dropped g)) (mkThread Idle h).

Definition tstep (g : shared) (t : thread) (g' : shared) (t' : thread) : Prop :=
  Acquire g t g' t' ∨ takeLocked g t g' t' ∨ TryAcquire g t g' t' ∨ Release g t g' t' ∨ Close g t g' t'.

(** Any caller may move. *)
Inductive step : sys → sys → Prop :=
| step_thread g g' l1 t t' l2 : tstep g t g' t' →
    step (mkSys g (l1 ++ t :: l2)) (mkSys g' (l1 ++ t' :: l2)).

(** ** Conservation of tokens *)

(** Tokens a caller has taken out of the channel. *)
Definition weight (t : thread) : nat :=
  holds t + match at_ t with
            | PutBack _ => 1
            | Taking m n => n - m
            | Releasing r => r
            | _ => 0
            end.

(** What the program counter promises: [takeLocked] never owes more than it was
    asked for, and nobody has panicked. *)
Definition pc_ok (t : thread) : Prop :=
  match at_ t with Taking m n => m ≤ n | Panicked => False | _ => True end.

Definition total (l : list thread) : nat := sum_list_with weight l.

Record tokens_ok (s : sys) : Prop := {
  tok_sum : ch (sh s) + dropped (sh s) + total (threads s) = cap (sh s);
  tok_pc : Forall pc_ok (threads s) }.

Lemma total_middle l1 t l2 : total (l1 ++ t :: l2) = weight t + total (l1 ++ l2).
Proof. unfold total. rewrite !sum_list_with_app. cbn. lia. Qed.

(** One step keeps the tokens of its caller and of the channel together. *)
Lemma tstep_tokens g t g' t' : tstep g t g' t' → pc_ok t → ch g + dropped g + weight t ≤ cap g →
  ch g' + dropped g' + weight t' = ch g + dropped g + weight t ∧ cap g' = cap g ∧ pc_ok t'.
Proof.
  intros Hst Hok Hle. destruct Hst as [H|[H|[H|[H|H]]]]; destruct H;
    unfold pc_ok, weight in *; cbn in *; lia.
Qed.

Lemma step_tokens s s' : step s s' → tokens_ok s → tokens_ok s'.
Proof.
  intros [g g' l1 t t' l2 Hst] [Hsum Hpc]. cbn in *. rewrite total_middle in Hsum.
  apply Forall_app in Hpc as [Hpc1 Hpc2]. apply Forall_cons in Hpc2 as [Hpt Hpc2].
  destruct (tstep_tokens g t g' t' Hst Hpt ltac:(lia)) as (Hw & Hcap & Hpt').
  split; cbn; [rewrite total_middle; lia|]. apply Forall_app. split; [done|]. by constructor.
Qed.

Lemma New_tokens c k s : New c k = Some s → tokens_ok s.
Proof.
  unfold New. destruct (Z.leb_spec c 0); intros [= <-]. split; cbn -[total].
  - assert (total (replicate k (mkThread Idle 0)) = 0) as ->; [induction k; cbn; auto|]. lia.
  - by apply Forall_replicate.
Qed.

Lemma reach_tokens c k s0 s : New c k = Some s0 → rtc step s0 s → tokens_ok s.
Proof.
  intros H0%New_tokens Hr. induction Hr as [|s1 s2 s3 Hst _ IH]; [done|]. eauto using step_tokens.
Qed.

Lemma total_in t l : t ∈ l → weight t ≤ total l.
Proof. intros (l1 & l2 & ->)%list_elem_of_split. rewrite total_middle. lia. Qed.

Lemma holds_total l : sum_list_with holds l ≤ total l.
Proof. unfold total. induction l as [|t l IH]; cbn; [done|]. unfold weight at 1. lia. Qed.

(** ** A weighted caller stranded by [Close] *)

(** The first caller is inside [takeLocked] with tokens missing, the semaphore is
    closed, and every other caller is without tokens. *)
Definition stranded (s : sys) : Prop :=
  ∃ m n h l, threads s = mkThread (Taking (S m) n) h :: l ∧ ch (sh s) = 0 ∧ closed (sh s) = true ∧
  wmu (sh s) = true ∧ Forall (λ t, weight t = 0 ∧ ∀ m n, at_ t ≠ Taking m n) l.

Lemma stranded_step s s' : step s s' → stranded s → stranded s'.
Proof.
  intros [g g' l1 t t' l2 Hst] (m & n & h & l & Hl & Hch & Hcl & Hw & Hfree). cbn in *.
  destruct l1 as [|t0 l1]; cbn in Hl; simplify_eq.
  - exfalso. destruct Hst as [H|[H|[H|[H|H]]]]; inversion H; simplify_eq; lia.
  - apply Forall_app in Hfree as [Hf1 Hf2]. apply Forall_cons in Hf2 as [[Hwt Hnt] Hf2].
    assert (ch g' = 0 ∧ closed g' = true ∧ wmu g' = true ∧ weight t' = 0 ∧ ∀ m n, at_ t' ≠ Taking m n)
      as (Hch' & Hcl' & Hw' & Hwt' & Hnt').
    { destruct Hst as [H|[H|[H|[H|H]]]]; destruct H; unfold weight in *; cbn in *;
        try congruence; try lia; split_and!; try done; try lia; unfold norm in *;
        try (destruct (_ <=? _)%Z eqn:?; lia); by edestruct Hnt. }
    exists m, n, h, (l1 ++ t' :: l2). split_and!; try done. apply Forall_app. split; [done|]. by constructor.
Qed.

(** ** Theorems *)

(** C10: In every interleaving of unit and weighted acquires, tries, correct
    releases and closes, tokens are conserved: those in the channel, those taken
    by callers and those dropped after [Close] always add up to the capacity.
    Hence the permits held never exceed the capacity, no correct [Release]
    panics, a token that a weighted waiter puts back always finds room, and while
    nothing was dropped a caller waiting inside [takeLocked] on an empty channel
    is never alone: another caller has a token to return. *)
Theorem semaphore_safe capacity callers s0 s :
  New capacity callers = Some s0 → rtc step s0 s →
  ch (sh s) + dropped (sh s) + total (threads s) = Cap s ∧
  sum_list_with holds (threads s) ≤ Cap s ∧
  (∀ t, t ∈ threads s → at_ t ≠ Panicked) ∧
  (∀ t n, t ∈ threads s → at_ t = PutBack n → Available s < Cap s) ∧
  (∀ l1 t l2 m n, threads s = l1 ++ t :: l2 → at_ t = Taking (S m) n → holds t + n ≤ Cap s →
     Available s = 0 → dropped (sh s) = 0 → 0 < total (l1 ++ l2)).
Proof.
  intros H0 Hr. destruct (reach_tokens _ _ _ _ H0 Hr) as [Hsum Hpc].
  unfold Cap, Available. split_and!; [done| | | |].
  - pose proof (holds_total (threads s)). lia.
  - intros t Ht Hp. rewrite Forall_forall in Hpc. specialize (Hpc t Ht). unfold pc_ok in Hpc. by rewrite Hp in Hpc.
  - intros t n Ht Hp. apply total_in in Ht. unfold weight in Ht. rewrite Hp in Ht. lia.
  - intros l1 t l2 m n Hl Hp Hn Hch Hdr. rewrite Hl, total_middle in Hsum. unfold weight in Hsum.
    rewrite Hl in Hpc. apply Forall_app in Hpc as [_ [Hpt _]%Forall_cons]. unfold pc_ok in Hpt.
    rewrite Hp in Hsum, Hpt. lia.
Qed.

(** A weighted [Acquire] can be stranded by [Close]: from a state that is
    reachable with capacity two and two callers - the first between its length
    check and its second take, the second having taken and, after [Close],
    released its permit - the first caller never returns, whatever the callers
    do, although [Close] promises to wake pending callers with [ErrClosed]. *)
Theorem semaphore_close_strands : ∃ s0 s,
  New 2 2 = Some s0 ∧ rtc step s0 s ∧
  ∀ s', rtc step s s' → ∃ m n h l, threads s' = mkThread (Taking (S m) n) h :: l.
Proof.
  set (A m := mkThread (Taking m 2) 0). set (B k := mkThread Idle k).
  set (g c cl w d := mkShared c 2 cl w d).
  exists (mkSys (g 2 false false 0) [B 0; B 0]), (mkSys (g 0 true true 1) [A 1; B 0]).
  split; [done|]. split.
  - assert (∀ g' t t' t2 s', tstep g' t (sh s') t' → threads s' = [t'; t2] →
      step (mkSys g' [t; t2]) s') as Hfst.
    { intros g' t t' t2 [g2 l] Ht Hl. cbn in *. subst l. by apply (step_thread _ _ []). }
    assert (∀ g' t t' t1 s', tstep g' t (sh s') t' → threads s' = [t1; t'] →
      step (mkSys g' [t1; t]) s') as Hsnd.
    { intros g' t t' t1 [g2 l] Ht Hl. cbn in *. subst l. by apply (step_thread _ _ [t1]). }
    eapply (rtc_l _ _ (mkSys (g 2 false false 0) [mkThread (Check 2) 0; B 0])).
    { eapply Hfst; [|done]. left. apply (acq_weighted _ _ 2). cbn. lia. }
    eapply (rtc_l _ _ (mkSys (g 2 false true 0) [A 2; B 0])).
    { eapply Hfst; [|done]. left. by apply acq_enough. }
    eapply (rtc_l _ _ (mkSys (g 1 false true 0) [A 1; B 0])).
    { eapply Hfst; [|done]. right; left. by apply take_one. }
    eapply (rtc_l _ _ (mkSys (g 0 false true 0) [A 1; B 1])).
    { eapply Hsnd; [|done]. left. apply (acq_unit (g 1 false true 0) 0 1 0); cbn; lia. }
    eapply (rtc_l _ _ (mkSys (g 0 true true 0) [A 1; B 1])).
    { eapply Hsnd; [|done]. right; right; right; right. apply (close_do (g 0 false true 0)). }
    apply rtc_once. eapply Hsnd; [|done]. right; right; right; left.
    apply (rel_closed (g 0 true true 0) 1 1); [cbn; lia|done].
  - intros s' Hr. assert (stranded s') as (m & n & h & l & Hl & _); [|by eauto].
    assert (stranded (mkSys (g 0 true true 1) [A 1; B 0])) as H0.
    { exists 0, 2, 0, [B 0]. split_and!; try done. by repeat constructor. }
    clear -Hr H0. induction Hr as [|s1 s2 s3 Hst _ IH]; [done|]. eauto using stranded_step.
Qed.

Lemma semaphore_safe_witness : ∃ s,
  threads s = [mkThread Idle 1; mkThread Idle 0] ∧ sum_list_with holds (threads s) ≤ Cap s.
Proof.
  exists (mkSys (mkShared 1 2 false false 0) [mkThread Idle 1; mkThread Idle 0]). split; [reflexivity|].
  apply (semaphore_safe 2 2 (mkSys (mkShared 2 2 false false 0) [mkThread Idle 0; mkThread Idle 0])
    (mkSys (mkShared 1 2 false false 0) [mkThread Idle 1; mkThread Idle 0])); [reflexivity|].
  apply rtc_once. apply (step_thread _ _ []). left. apply (acq_unit (mkShared 2 2 false false 0) 0 1 1); cbn; lia.
Defined.
