(* ===== verification/Log4go.v ===== *)
(** * Log4go: the alert gate and the inline Kafka breaker of [log4go/]

    [RateAlerter] ([rate_alerter.go]) records an event per call in the shared
    per-second ring and fires when enough events lie in the window and the
    cooldown has passed; it is shown to decide exactly as a specification over
    the log of calls.

    [KafkaBreaker] ([kafka_breaker.go]) is a three-state machine driven by the
    daemon's ticker ([evaluate]) over counters that senders and the asynchronous
    error hook bump in between; its transition hook calls are recorded with their
    times, and the theorem bounds the dwell times and restricts the transitions. *)

From Stdlib Require Import ZArith Lia.
From stdpp Require Import base tactics numbers list.
From S2P Require Import Prelude Float64 Ring Breaker.

#[local] Open Scope Z_scope.

(** ** RateAlerter *)

Module RateAlerter.

(** [lastFire]: [None] is the zero time, further back than any cooldown. *)
Record t := mk {
  window : Z; threshold : Z; cooldown : Z; rng : ring; lastFire : option Z }.

Definition NewRateAlerter (window threshold now : Z) : t :=
  let secs := f64_to_i64 (Seconds window) in
  let secs := if secs <? 1 then 1 else secs in
  let threshold := if threshold <? 1 then 1 else threshold in
  mk (secs * Second) threshold (secs * Second) (new_ring (Z.to_nat secs) (Unix now)) None.

Definition SetCooldown (a : t) (d : Z) : t := mk (window a) (threshold a) d (rng a) (lastFire a).

Definition Count (a : t) (now : Z) : Z * t :=
  let r := advance (rng a) (Unix now) in
  (sum r, mk (window a) (threshold a) (cooldown a) r (lastFire a)).

Definition cooled (cooldown : Z) (last : option Z) (now : Z) : bool :=
  match last with None => true | Some f => cooldown <=? now - f end.

Definition Allow (a : t) (now : Z) : bool * t :=
  let r := charge (advance (rng a) (Unix now)) (Unix now) 1 in
  if (threshold a <=? sum r) && cooled (cooldown a) (lastFire a) now
  then (true, mk (window a) (threshold a) (cooldown a) r (Some now))
  else (false, mk (window a) (threshold a) (cooldown a) r (lastFire a)).

Fixpoint run (a : t) (ts : list Z) : list bool * t :=
  match ts with
  | [] => ([], a)
  | now :: ts => let '(b, a) := Allow a now in let '(bs, a) := run a ts in (b :: bs, a)
  end.

(** The specification keeps the log of calls (with the newest second seen, to
    which a regressed clock is clamped) and the last fire. *)
Fixpoint spec_run (n : nat) (threshold cooldown hi : Z) (log : list event) (last : option Z)
    (ts : list Z) : list bool :=
  match ts with
  | [] => []
  | now :: ts =>
      let sec := Z.max hi (Unix now) in
      let log := (sec, 1) :: log in
      let fire := (threshold <=? in_window n sec log) && cooled cooldown last now in
      fire :: spec_run n threshold cooldown sec log (if fire then Some now else last) ts
  end.

Lemma alerter_run_refines n ts a log : ring_refines n (rng a) log →
  (run a ts).1 = spec_run n (threshold a) (cooldown a) (base (rng a)) log (lastFire a) ts.
Proof.
  revert a log. induction ts as [|now ts IH]; intros a log Hr; [done|]. cbn [run spec_run].
  pose proof (ring_refines_advance _ _ _ (Unix now) Hr) as Ha.
  pose proof (advance_base _ _ _ (Unix now) Hr) as Hb.
  assert (Unix now ≤ base (advance (rng a) (Unix now))) as Hle by lia.
  pose proof (ring_refines_charge n _ log (Unix now) 1 Ha Hle) as Hc.
  assert (base (charge (advance (rng a) (Unix now)) (Unix now) 1) = Z.max (base (rng a)) (Unix now))
    as Hcb by (cbn; done).
  pose proof (ring_sum_window _ _ _ Hc) as Hs. rewrite Hcb, Hb in Hs. rewrite Hb in Hc.
  unfold Allow. set (r := charge _ _ _) in *. rewrite Hs.
  destruct (_ && _); cbn [fst snd].
  - specialize (IH (mk (window a) (threshold a) (cooldown a) r (Some now)) _ Hc). cbn [rng threshold cooldown lastFire] in IH.
    rewrite Hcb in IH. destruct (run _ ts) as [bs a']. cbn in *. by rewrite IH.
  - specialize (IH (mk (window a) (threshold a) (cooldown a) r (lastFire a)) _ Hc). cbn [rng threshold cooldown lastFire] in IH.
    rewrite Hcb in IH. destruct (run _ ts) as [bs a']. cbn in *. by rewrite IH.
Qed.

End RateAlerter.

(** ** KafkaBreaker *)

Module KafkaBreaker.

Inductive bstate := breakerClosed | breakerOpen | breakerHalfOpen.
#[global] Instance bstate_eq_dec : EqDecision bstate.
Proof. solve_decision. Defined.

Record breakerConfig := mkConfig { failRate : float64; minSamples : Z; cwindow : Z; ccooldown : Z }.

(** [hooks]: the calls of [onTransition], newest first, with the time. *)
Record t := mk {
  cfg : breakerConfig; stateVal : bstate; openedAt : Z; winStart : Z; winSent : Z; winErr : Z;
  hooks : list (Z * bstate * bstate) }.

Definition newKafkaBreaker (c : breakerConfig) (now : Z) : t := mk c breakerClosed 0 now 0 0 [].

Definition recordSend (b : t) : t :=
  mk (cfg b) (stateVal b) (openedAt b) (winStart b) (u64 (winSent b + 1)) (winErr b) (hooks b).
Definition recordSendN (b : t) (n : Z) : t :=
  if n =? 0 then b
  else mk (cfg b) (stateVal b) (openedAt b) (winStart b) (u64 (winSent b + n)) (winErr b) (hooks b).
Definition recordError (b : t) : t :=
  mk (cfg b) (stateVal b) (openedAt b) (winStart b) (winSent b) (u64 (winErr b + 1)) (hooks b).

(** The breaker fields of KafkaWriterOptions. *)
Record options := mkOpts {
  BreakerDisabled : bool; BreakerFailRate : float64; BreakerMinSamples : Z;
  BreakerWindow : Z; BreakerCooldown : Z }.

Definition newKafkaBreakerFromOptions (o : options) (now : Z) : option t :=
  if BreakerDisabled o then None
  else
    Some (newKafkaBreaker (mkConfig
      (if f64_le (BreakerFailRate o) f64_zero then f64_half else BreakerFailRate o)
      (if BreakerMinSamples o =? 0 then 20 else BreakerMinSamples o)
      (if BreakerWindow o <=? 0 then 2 * Second else BreakerWindow o)
      (if BreakerCooldown o <=? 0 then 5 * Second else BreakerCooldown o)) now).

Definition isOpen (b : t) : bool := bool_decide (stateVal b = breakerOpen).

Definition reset_window (b : t) (nowNS : Z) : t :=
  mk (cfg b) (stateVal b) (openedAt b) nowNS 0 0 (hooks b).

Definition transition (b : t) (to : bstate) (nowNS : Z) : t :=
  let from := stateVal b in
  if decide (from = to) then b
  else mk (cfg b) to (if decide (to = breakerOpen) then nowNS else openedAt b)
         (winStart b) (winSent b) (winErr b) ((nowNS, from, to) :: hooks b).

Definition decideAndRoll (b : t) (nowNS : Z) : t :=
  let sent := winSent b in
  let err := winErr b in
  let b := reset_window b nowNS in
  if sent <? minSamples (cfg b) then b
  else
    let rate := f64_div (f64_of_Z err) (f64_of_Z sent) in
    let cur := stateVal b in
    if f64_ge rate (failRate (cfg b)) then
      (if decide (cur = breakerOpen) then b else transition b breakerOpen nowNS)
    else if decide (cur = breakerClosed) then b else transition b breakerClosed nowNS.

Definition evaluate (b : t) (nowNS : Z) : t :=
  match stateVal b with
  | breakerClosed => if nowNS - winStart b <? cwindow (cfg b) then b else decideAndRoll b nowNS
  | breakerOpen =>
      if ccooldown (cfg b) <=? nowNS - openedAt b
      then transition (reset_window b nowNS) breakerHalfOpen nowNS else b
  | breakerHalfOpen => if nowNS - winStart b <? cwindow (cfg b) then b else decideAndRoll b nowNS
  end.

Inductive op := OSend (n : Z) | OError | OEvaluate (now : Z).
Definition step (b : t) (o : op) : t :=
  match o with OSend n => recordSendN b n | OError => recordError b | OEvaluate now => evaluate b now end.
Definition run (b : t) (ops : list op) : t := foldl step b ops.

(** *** What the hooks may show *)

(** Each transition starts where the previous one ended, is one of the four of
    the state machine, and leaves [open] after the cooldown and [half-open] after
    the probe window at the earliest. *)
Fixpoint lawful (c : breakerConfig) (hs : list (Z * bstate * bstate)) : Prop :=
  match hs with
  | [] => True
  | (now, from, to) :: hs =>
      lawful c hs ∧
      match from, to with
      | breakerClosed, breakerOpen => match hs with [] => True | (_, _, prev) :: _ => prev = breakerClosed end
      | breakerOpen, breakerHalfOpen =>
          match hs with (t0, _, breakerOpen) :: _ => ccooldown c ≤ now - t0 | _ => False end
      | breakerHalfOpen, breakerOpen | breakerHalfOpen, breakerClosed =>
          match hs with (t0, _, breakerHalfOpen) :: _ => cwindow c ≤ now - t0 | _ => False end
      | _, _ => False
      end
  end.

Record kinv (b : t) : Prop := {
  ki_lawful : lawful (cfg b) (hooks b);
  ki_state : match hooks b with [] => stateVal b = breakerClosed | (_, _, to) :: _ => stateVal b = to end;
  ki_open : stateVal b = breakerOpen → ∃ f hs, hooks b = (openedAt b, f, breakerOpen) :: hs;
  ki_half : stateVal b = breakerHalfOpen →
            ∃ t0 f hs, hooks b = (t0, f, breakerHalfOpen) :: hs ∧ t0 ≤ winStart b }.

Lemma kinv_reset b now : kinv b → winStart b ≤ now → kinv (reset_window b now).
Proof.
  intros [Hl Hs Ho Hh] Hle. split; cbn; try done. intros (t0 & f & hs & ? & ?)%Hh.
  exists t0, f, hs. split; [done|lia].
Qed.

Lemma decide_spec b now : kinv b → stateVal b ≠ breakerOpen → cwindow (cfg b) ≤ now - winStart b →
  0 ≤ cwindow (cfg b) → kinv (decideAndRoll b now).
Proof.
  intros Hk Hne Hw Hpos. unfold decideAndRoll.
  pose proof (kinv_reset b now Hk ltac:(lia)) as Hk'.
  destruct (_ <? _); [done|]. destruct Hk as [Hl Hs _ Hh].
  destruct (f64_ge _ _); cbn [stateVal reset_window].
  - rewrite decide_False by done. unfold transition. cbn [stateVal reset_window].
    rewrite decide_False by done. rewrite decide_True by done. split; cbn; [|done|eauto|done].
    split; [done|]. destruct (stateVal b) eqn:E; [|done|].
    + destruct (hooks b) as [|[[? ?] to] hs]; [done|]. congruence.
    + destruct Hh as (t0 & f & hs & -> & ?); [done|]. lia.
  - destruct (decide (stateVal b = breakerClosed)) as [Hc|Hc]; [done|].
    unfold transition. cbn [stateVal reset_window]. rewrite decide_False by done.
    rewrite decide_False by done. split; cbn; [|done..].
    split; [done|]. destruct (stateVal b) eqn:E; [done|done|].
    destruct Hh as (t0 & f & hs & -> & ?); [done|]. lia.
Qed.

Lemma step_kinv b o : 0 ≤ cwindow (cfg b) → kinv b → kinv (step b o) ∧ cfg (step b o) = cfg b.
Proof.
  intros Hpos Hk. destruct o as [n| |now]; cbn [step].
  - unfold recordSendN. destruct (n =? 0); [done|]. split; [|done]. by destruct Hk.
  - split; [|done]. by destruct Hk.
  - split; cycle 1.
    { unfold evaluate, decideAndRoll, transition. repeat case_match; done. }
    unfold evaluate. destruct (stateVal b) eqn:E.
    + destruct (Z.ltb_spec (now - winStart b) (cwindow (cfg b))); [done|].
      apply decide_spec; [done|congruence|lia|done].
    + destruct (Z.leb_spec (ccooldown (cfg b)) (now - openedAt b)); [|done].
      destruct Hk as [Hl Hs Ho _]. destruct (Ho E) as (f & hs & Hhs).
      unfold transition. cbn [stateVal reset_window]. rewrite E.
      rewrite !decide_False by done. split; cbn; [|done|done|].
      * split; [done|]. rewrite Hhs. done.
      * intros _. exists now, breakerOpen, (hooks b). split; [done|cbn; lia].
    + destruct (Z.ltb_spec (now - winStart b) (cwindow (cfg b))); [done|].
      apply decide_spec; [done|congruence|lia|done].
Qed.

Lemma run_kinv ops b : 0 ≤ cwindow (cfg b) → kinv b → kinv (run b ops) ∧ cfg (run b ops) = cfg b.
Proof.
  revert b. induction ops as [|o ops IH]; intros b Hpos Hk; [done|]. cbn.
  destruct (step_kinv b o Hpos Hk) as [Hk1 Hc1]. destruct (IH (step b o)) as [? ?]; [by rewrite Hc1|done|].
  split; [done|]. unfold run in *. congruence.
Qed.

End KafkaBreaker.

(** ** Theorems *)

(** The alert gate is exact: over any sequence of [Allow] calls, clock
    regressions included, it fires exactly when the calls of the last [n] seconds
    reach the threshold and the cooldown since the previous fire has passed. *)
Theorem rate_alerter_refines window threshold now ts
    (a := RateAlerter.NewRateAlerter window threshold now) :
  0 ≤ now →
  (RateAlerter.run a ts).1 =
  RateAlerter.spec_run (Z.to_nat (Z.max 1 (f64_to_i64 (Seconds window)))) (Z.max 1 threshold)
    (Z.max 1 (f64_to_i64 (Seconds window)) * Second) (Unix now) [] None ts.
Proof.
  intros Hnow. set (secs := Z.max 1 (f64_to_i64 (Seconds window))).
  assert (a = RateAlerter.mk (secs * Second) (Z.max 1 threshold) (secs * Second)
    (new_ring (Z.to_nat secs) (Unix now)) None) as ->.
  { subst a secs. unfold RateAlerter.NewRateAlerter.
    assert (∀ x, (if x <? 1 then 1 else x) = Z.max 1 x) as Hmax by (intros x; zcases; lia).
    by rewrite !Hmax. }
  apply RateAlerter.alerter_run_refines, ring_refines_new; [lia|]. apply Z.div_pos; [done|]. unfold Second. lia.
Qed.

(** Whatever sends, errors and ticks arrive, the breaker of the Kafka writer
    only makes the transitions closed to open, open to half-open, half-open to
    open and half-open to closed, each starting where the previous one ended; it
    stays open for at least the cooldown and probes for at least the window; and
    the state read by the daemon is the one last announced by the hook. *)
Theorem kafka_breaker_lawful o now0 b ops (b' := KafkaBreaker.run b ops) :
  KafkaBreaker.newKafkaBreakerFromOptions o now0 = Some b →
  KafkaBreaker.lawful (KafkaBreaker.cfg b) (KafkaBreaker.hooks b') ∧
  match KafkaBreaker.hooks b' with
  | [] => KafkaBreaker.stateVal b' = KafkaBreaker.breakerClosed
  | (_, _, to) :: _ => KafkaBreaker.stateVal b' = to
  end.
Proof.
  unfold KafkaBreaker.newKafkaBreakerFromOptions. destruct (KafkaBreaker.BreakerDisabled o); [done|].
  intros [= Hb]. assert (KafkaBreaker.kinv b) as Hk by (subst b; by split).
  assert (0 ≤ KafkaBreaker.cwindow (KafkaBreaker.cfg b)) as Hpos.
  { subst b. cbn. unfold Second. zcases; lia. }
  destruct (KafkaBreaker.run_kinv ops b Hpos Hk) as [[Hl Hs _ _] Hc]. rewrite Hc in Hl. done.
Qed.

(** ** Witnesses *)

Lemma rate_alerter_refines_witness :
  (RateAlerter.run (RateAlerter.NewRateAlerter (3 * Second) 2 0) [Second; 2 * Second; 2 * Second; 5 * Second; 5 * Second]).1
  = [false; true; false; false; true].
Proof. rewrite (rate_alerter_refines (3 * Second) 2 0) by lia. vm_compute. reflexivity. Defined.

Definition ex_kb : KafkaBreaker.t :=
  KafkaBreaker.newKafkaBreaker (KafkaBreaker.mkConfig f64_half 1 (2 * Second) (5 * Second)) 0.
Definition ex_kops : list KafkaBreaker.op :=
  [KafkaBreaker.OSend 2; KafkaBreaker.OError; KafkaBreaker.OEvaluate (2 * Second);
   KafkaBreaker.OEvaluate (7 * Second)].

Lemma kafka_breaker_lawful_witness :
  KafkaBreaker.hooks (KafkaBreaker.run ex_kb ex_kops) =
    [(7 * Second, KafkaBreaker.breakerOpen, KafkaBreaker.breakerHalfOpen);
     (2 * Second, KafkaBreaker.breakerClosed, KafkaBreaker.breakerOpen)] ∧
  KafkaBreaker.lawful (KafkaBreaker.cfg ex_kb) (KafkaBreaker.hooks (KafkaBreaker.run ex_kb ex_kops)).
Proof.
  split; [vm_compute; reflexivity|].
  destruct (kafka_breaker_lawful (KafkaBreaker.mkOpts false f64_zero 1 0 0) 0 ex_kb ex_kops) as [Hl _];
    [vm_compute; reflexivity|]. exact Hl.
Defined.
