(* ===== verification/Sampling.v ===== *)
(** * Sampling: which records are logged ([log4go/sampling.go], [sampling_strategy.go], [log.go])

    The per-level sampler of a logger, the strategies that decide from a correlation id
    whether a request is logged, and the sessions that install a strategy for a while.
    The sampler's counters are atomic: concurrent callers are calls in some order.

    Shown: of the calls at one level exactly the first [Initial] and then every
    [Thereafter]-th are let through, whatever happens at the other levels
    ([sampler_exact]); an id that starts with sixteen hexadecimal digits is reduced to
    the number they denote, and the tail strategy keeps exactly [Keep] of [Modulus]
    consecutive numbers ([tail_digit_share]); sessions that do not overlap put the old
    strategy back ([session_restores]).  [overlap_sticks] shows that of two sessions
    that overlap the first one's strategy stays for good; [short_hex_kept] that short
    hexadecimal ids are always sampled; [sampler_first_after_burst] that the documented
    formula is not the one computed. *)

From Stdlib Require Import ZArith Lia Ascii String SpecFloat.
From stdpp Require Import base tactics numbers list strings relations.
From S2P Require Import Prelude GoStd Float64.

#[local] Open Scope string_scope.
#[local] Open Scope list_scope.
#[local] Open Scope Z_scope.

(** ** The sampler *)

Record Sampler := mkSampler { Initial : Z; Thereafter : Z; counts : list Z }.

Definition newSampler (initial thereafter : Z) : Sampler := mkSampler initial thereafter (replicate 9 0).

Definition allow (s : Sampler) (level : Z) : bool * Sampler :=
  if (level <? 0) || (Z.of_nat (length (counts s)) <=? level) then (true, s)
  else
    let c := u64 (nth (Z.to_nat level) (counts s) 0 + 1) in
    let s := mkSampler (Initial s) (Thereafter s) (<[Z.to_nat level := c]> (counts s)) in
    if c <=? u64 (Initial s) then (true, s)
    else (u64 (c - u64 (Initial s)) mod u64 (Thereafter s) =? 0, s).

(** [WithSampling] and [SetSampling]: the sampler they install. *)
Definition sampler_of (initial thereafter : Z) : option Sampler :=
  if (initial <=? 0) && (thereafter <=? 0) then None
  else Some (newSampler (if initial <? 0 then 0 else initial) (if thereafter <=? 0 then 1 else thereafter)).

(** The answers to a sequence of calls. *)
Fixpoint allow_run (s : Sampler) (levels : list Z) : list bool * Sampler :=
  match levels with
  | [] => ([], s)
  | l :: levels => let '(b, s) := allow s l in let '(bs, s) := allow_run s levels in (b :: bs, s)
  end.

(** Whether the [j]-th call at a level, from 1, is let through. *)
Definition let_through (initial thereafter j : Z) : bool := (j <=? initial) || ((j - initial) mod thereafter =? 0).
Fixpoint answers (initial thereafter : Z) (levels before : list Z) : list bool :=
  match levels with
  | [] => []
  | l :: levels =>
      (if (0 <=? l) && (l <? 9) then let_through initial thereafter (Z.of_nat (length (filter (λ k, k = l) before)) + 1) else true)
      :: answers initial thereafter levels (l :: before)
  end.

Definition counted (s : Sampler) (before : list Z) : Prop :=
  length (counts s) = 9%nat ∧
  ∀ l, 0 ≤ l < 9 → nth (Z.to_nat l) (counts s) 0 = Z.of_nat (length (filter (λ k, k = l) before)).

Lemma allow_counted s before l : 0 ≤ Initial s < 2 ^ 63 → 1 ≤ Thereafter s < 2 ^ 63 → counted s before →
  Z.of_nat (length before) < 2 ^ 64 - 1 →
  let '(b, s') := allow s l in counted s' (l :: before) ∧ Initial s' = Initial s ∧ Thereafter s' = Thereafter s ∧
    b = if (0 <=? l) && (l <? 9) then let_through (Initial s) (Thereafter s) (Z.of_nat (length (filter (λ k, k = l) before)) + 1) else true.
Proof.
  intros Hi Ht [Hlen Hc] Hb. unfold allow. rewrite Hlen. change (Z.of_nat 9) with 9.
  destruct ((l <? 0) || (9 <=? l)) eqn:E.
  - assert ((0 <=? l) && (l <? 9) = false) as -> by lia. split_and!; [|done..]. split; [done|].
    intros k Hk. rewrite filter_cons_False by (intros ->; lia). by apply Hc.
  - assert (0 ≤ l < 9) as Hl by lia. assert ((0 <=? l) && (l <? 9) = true) as -> by lia. rewrite (Hc l Hl).
    pose proof (length_filter (λ k, k = l) before) as Hf. set (n := length (filter (λ k, k = l) before)) in *.
    rewrite u64_id by (unfold max_u64; lia). cbn [Initial Thereafter counts].
    assert (Hw : counted (mkSampler (Initial s) (Thereafter s) (<[Z.to_nat l := Z.of_nat n + 1]> (counts s))) (l :: before)).
    { split; [by cbn; rewrite length_insert|]. cbn [counts]. intros k Hk. destruct (decide (k = l)) as [->|Hkl].
      - rewrite filter_cons_True by done. cbn [length]. fold n. rewrite nth_lookup, list_lookup_insert_eq by lia. cbn. lia.
      - rewrite filter_cons_False by done. rewrite nth_lookup, list_lookup_insert_ne by lia. rewrite <- nth_lookup. by apply Hc. }
    assert (u64 (Initial s) = Initial s) as -> by (apply u64_id; unfold max_u64; lia).
    assert (u64 (Thereafter s) = Thereafter s) as -> by (apply u64_id; unfold max_u64; lia).
    unfold let_through. destruct (Z.leb_spec (Z.of_nat n + 1) (Initial s)); cbn [fst]; split_and!; try done.
    by rewrite u64_id by (unfold max_u64; lia).
Qed.

Lemma allow_run_counted levels s before : 0 ≤ Initial s < 2 ^ 63 → 1 ≤ Thereafter s < 2 ^ 63 → counted s before →
  Z.of_nat (length before) + Z.of_nat (length levels) < 2 ^ 64 →
  (allow_run s levels).1 = answers (Initial s) (Thereafter s) levels before.
Proof.
  revert s before. induction levels as [|l levels IH]; intros s before Hi Ht Hc Hb; [done|]. cbn [allow_run answers length] in *.
  pose proof (allow_counted s before l Hi Ht Hc ltac:(lia)) as Ha. destruct (allow s l) as [b s']. destruct Ha as (Hc' & Ei & Et & ->).
  specialize (IH s' (l :: before)). rewrite Ei, Et in IH. destruct (allow_run s' levels) as [bs s'']. cbn [fst] in *.
  f_equal. apply IH; [done..|cbn; lia].
Qed.

(** The calls at one level that were let through, out of the first [n]. *)
Fixpoint passed (initial thereafter : Z) (n : nat) : Z :=
  match n with O => 0 | S n => passed initial thereafter n + (if let_through initial thereafter (Z.of_nat n + 1) then 1 else 0) end.

Lemma passed_formula i t n : 0 ≤ i → 1 ≤ t → passed i t n = Z.min (Z.of_nat n) i + (Z.max 0 (Z.of_nat n - i)) / t.
Proof.
  intros Hi Ht. induction n as [|n IH]; [rewrite Z.max_l, Z.div_0_l by lia; cbn; lia|].
  cbn [passed]. rewrite IH. unfold let_through. rewrite Nat2Z.inj_succ. destruct (Z.leb_spec (Z.of_nat n + 1) i) as [H|H].
  - rewrite !Z.max_l, !Z.min_l by lia. cbn [orb]. lia.
  - rewrite !Z.max_r, !Z.min_r by lia. cbn [orb]. replace (Z.succ (Z.of_nat n) - i) with (Z.of_nat n + 1 - i) by lia.
    destruct (Z.eqb_spec ((Z.of_nat n + 1 - i) mod t) 0); Z.div_mod_to_equations; nia.
Qed.

Lemma length_passed i t n :
  Z.of_nat (length (filter (λ b, b = true) ((λ j, let_through i t (Z.of_nat j + 1)) <$> seq 0 n))) = passed i t n.
Proof.
  induction n as [|n IH]; [done|]. rewrite seq_S, fmap_app, filter_app, length_app, Nat2Z.inj_add, IH. cbn [passed fmap list_fmap].
  f_equal. cbn [plus]. destruct (let_through i t (Z.of_nat n + 1)); [by rewrite filter_cons_True|by rewrite filter_cons_False].
Qed.

(** Answers at level [l]. *)
Definition granted (l : Z) (levels : list Z) (bs : list bool) : list bool :=
  snd <$> filter (λ p, p.1 = l) (zip levels bs).

Lemma answers_granted i t l levels before : 0 ≤ l < 9 →
  granted l levels (answers i t levels before) =
  (λ j, let_through i t (Z.of_nat (length (filter (λ k, k = l) before)) + Z.of_nat j + 1)) <$> seq 0 (length (filter (λ k, k = l) levels)).
Proof.
  intros Hl. unfold granted. revert before. induction levels as [|k levels IH]; intros before; [done|]. cbn [answers zip zip_with].
  destruct (decide (k = l)) as [->|Hk].
  - rewrite !filter_cons_True by done. cbn [length fst]. rewrite fmap_cons, IH, filter_cons_True by done. cbn [snd length].
    assert ((0 <=? l) && (l <? 9) = true) as -> by lia. cbn [seq]. rewrite fmap_cons. f_equal; [f_equal; lia|].
    rewrite <- fmap_S_seq, <- list_fmap_compose. apply list_fmap_ext. intros j x _. cbn. f_equal. lia.
  - rewrite !filter_cons_False by done. rewrite IH, filter_cons_False by done. done.
Qed.

(** The sampler lets through, of the calls at each level, exactly the first
    [Initial] and then every [Thereafter]-th, independently of the calls at other
    levels: the [j]-th call at a level gets the answer the formula says, and of [n]
    calls [min n Initial + (n - Initial) / Thereafter] pass.  For every sampler the
    logger installs and fewer than 2^64 calls in any order. *)
Theorem sampler_exact initial thereafter levels l s : -2 ^ 63 ≤ initial < 2 ^ 63 → -2 ^ 63 ≤ thereafter < 2 ^ 63 →
  sampler_of initial thereafter = Some s → Z.of_nat (length levels) < 2 ^ 64 → 0 ≤ l < 9 →
  let n := length (filter (λ k, k = l) levels) in
  let i := Z.max 0 initial in let t := Z.max 1 thereafter in
  granted l levels (allow_run s levels).1 = (λ j, let_through i t (Z.of_nat j + 1)) <$> seq 0 n ∧
  Z.of_nat (length (filter (λ b, b = true) (granted l levels (allow_run s levels).1))) =
    Z.min (Z.of_nat n) i + Z.max 0 (Z.of_nat n - i) / t.
Proof.
  intros Hi Ht Hs Hn Hl n i t.
  assert (Hst : Initial s = i ∧ Thereafter s = t ∧ counts s = replicate 9 0).
  { unfold sampler_of in Hs. destruct ((initial <=? 0) && (thereafter <=? 0)); [done|]. injection Hs as <-. cbn.
    split_and!; [unfold i; destruct (Z.ltb_spec initial 0); lia|unfold t; destruct (Z.leb_spec thereafter 0); lia|done]. }
  destruct Hst as (Ei & Et & Ec).
  assert (Hc : counted s []).
  { unfold counted. rewrite Ec. split; [done|]. intros k Hk. rewrite nth_lookup. destruct (replicate 9 0 !! Z.to_nat k) as [z|] eqn:E; [|done].
    by apply lookup_replicate in E as [-> _]. }
  assert (Hg : granted l levels (allow_run s levels).1 = (λ j, let_through i t (Z.of_nat j + 1)) <$> seq 0 n).
  { rewrite allow_run_counted with (before := []); [|lia..|done|cbn; lia]. rewrite Ei, Et, answers_granted by done. done. }
  split; [done|]. rewrite Hg, <- (passed_formula i t n) by lia. apply length_passed.
Qed.

Lemma sampler_exact_witness :
  sampler_of 2 3 = Some (newSampler 2 3) ∧
  granted 7 [7; 7; 3; 7; 7; 7] (allow_run (newSampler 2 3) [7; 7; 3; 7; 7; 7]).1 = [true; true; false; false; true] ∧
  Z.of_nat (length (filter (λ b, b = true) (granted 7 [7; 7; 3; 7; 7; 7] (allow_run (newSampler 2 3) [7; 7; 3; 7; 7; 7]).1))) = 2 + 3 / 3.
Proof.
  split; [reflexivity|]. apply (sampler_exact 2 3 [7; 7; 3; 7; 7; 7] 7 (newSampler 2 3)); [lia|lia|reflexivity|cbn; lia|lia].
Defined.

(** The comment of [allow] lets through, after the first [Initial] calls, those with
    [(count - Initial) % Thereafter == 0] for a count from zero: with 2 and 3 the third
    call.  The code lets the fifth through. *)
Example sampler_first_after_burst :
  (allow_run (newSampler 2 3) [6; 6; 6; 6; 6; 6; 6; 6]).1 = [true; true; false; false; true; false; false; true] ∧
  ((λ count, (count <? 2) || ((count - 2) mod 3 =? 0)) <$> [0; 1; 2; 3; 4; 5; 6; 7]) = [true; true; true; false; false; true; false; false].
Proof. split; reflexivity. Qed.

(** ** Strategies *)

Definition is_hex (c : ascii) : bool :=
  let b := byte_of c in ((48 <=? b) && (b <=? 57)) || ((97 <=? b) && (b <=? 102)) || ((65 <=? b) && (b <=? 70)).
(** On the bytes of the string: the runes beyond ASCII are not digits either. *)
Fixpoint all_hex (s : string) : bool := match s with EmptyString => true | String c s => is_hex c && all_hex s end.
Definition isHex (s : string) : bool := all_hex s && (0 <? str_len s).

(** [strconv.ParseUint(s, 16, 64)] of hexadecimal digits: [None] when out of range. *)
Definition nibble (c : ascii) : Z :=
  let b := byte_of c in if b <=? 57 then b - 48 else if b <=? 70 then b - 55 else b - 87.
Fixpoint hex_value (acc : Z) (s : string) : Z := match s with EmptyString => acc | String c s => hex_value (acc * 16 + nibble c) s end.
Definition ParseUint16 (s : string) : option Z := let v := hex_value 0 s in if v <? 2 ^ 64 then Some v else None.

Definition bytes_of (s : string) : list Z := byte_of <$> list_ascii_of_string s.

Definition idUint64 (id : string) : option Z :=
  match id with
  | EmptyString => None
  | _ =>
      let hex := if 16 <? str_len id then substring 0 16 id else id in
      let parsed :=
        if isHex hex && (8 <=? str_len hex) then
          ParseUint16 (if str_len hex <? 16 then Repeat "0" (16 - str_len hex) +:+ hex else hex)
        else None in
      Some (match parsed with Some v => v | None => fnv64a (bytes_of id) end)
  end.

Definition ratio_ShouldLog (Ratio : float64) (id : string) : bool :=
  if f64_ge Ratio (f64_of_Z 1) then true
  else if f64_le Ratio (f64_of_Z 0) then false
  else match idUint64 id with
       | None => true
       | Some v => f64_lt (f64_of_Z v) (f64_mul Ratio (f64_of_Z (2 ^ 64 - 1)))
       end.

Definition tail_ShouldLog (Modulus Keep : Z) (id : string) : bool :=
  if Modulus =? 0 then true
  else match idUint64 id with None => true | Some v => v mod Modulus <? Keep end.

(** The sixteen digits of a number, as in a trace id. *)
Definition hex_digit (n : Z) : ascii := chr (if n <? 10 then 48 + n else 87 + n).
Fixpoint hex_text (k : nat) (v : Z) : string :=
  match k with O => "" | S k => hex_text k (v / 16) +:+ String (hex_digit (v mod 16)) "" end.

Lemma hex_digit_ok n : 0 ≤ n < 16 → is_hex (hex_digit n) = true ∧ nibble (hex_digit n) = n.
Proof.
  intros Hn. unfold is_hex, nibble, hex_digit. destruct (Z.ltb_spec n 10); rewrite byte_of_chr by lia;
    (split; [lia|]); repeat case_match; lia.
Qed.
Lemma hex_value_app s t acc : hex_value acc (s +:+ t) = hex_value (hex_value acc s) t.
Proof. revert acc. induction s as [|c s IH]; intros acc; [done|]. rewrite app_cons_str. cbn. apply IH. Qed.
Lemma all_hex_app s t : all_hex (s +:+ t) = all_hex s && all_hex t.
Proof. induction s as [|c s IH]; [done|]. rewrite app_cons_str. cbn. by rewrite IH, andb_assoc. Qed.

Lemma hex_text_ok k v : 0 ≤ v < 16 ^ Z.of_nat k →
  hex_value 0 (hex_text k v) = v ∧ all_hex (hex_text k v) = true ∧ String.length (hex_text k v) = k.
Proof.
  revert v. induction k as [|k IH]; intros v Hv; [cbn; change (16 ^ Z.of_nat 0) with 1 in Hv; lia|].
  rewrite Nat2Z.inj_succ, Z.pow_succ_r in Hv by lia.
  destruct (IH (v / 16)) as (H1 & H2 & H3); [split; [apply Z.div_pos; lia|apply Z.div_lt_upper_bound; lia]|].
  destruct (hex_digit_ok (v mod 16)) as [H4 H5]; [apply Z.mod_pos_bound; lia|].
  cbn [hex_text]. rewrite hex_value_app, all_hex_app, length_app_str, H1, H2, H3. cbn. rewrite H4, H5.
  split_and!; [Z.div_mod_to_equations; lia|done|lia].
Qed.

Lemma substring_app s t : substring 0 (String.length s) (s +:+ t) = s.
Proof. induction s as [|c s IH]; [by destruct t|]. rewrite app_cons_str. cbn. by rewrite IH. Qed.

(** A trace id is reduced to the number its first sixteen digits denote. *)
Lemma idUint64_hex v rest : 0 ≤ v < 2 ^ 64 → idUint64 (hex_text 16 v +:+ rest) = Some v.
Proof.
  intros Hv. destruct (hex_text_ok 16 v) as (H1 & H2 & H3); [change (16 ^ Z.of_nat 16) with (2 ^ 64); done|].
  assert (Hh : (if 16 <? str_len (hex_text 16 v +:+ rest) then substring 0 16 (hex_text 16 v +:+ rest) else hex_text 16 v +:+ rest) = hex_text 16 v).
  { unfold str_len. rewrite length_app_str, H3. destruct (Z.ltb_spec 16 (Z.of_nat (16 + String.length rest))).
    - rewrite <- H3 at 1. apply substring_app.
    - destruct rest; [by rewrite app_nil_r_str|cbn in *; lia]. }
  unfold idUint64. destruct (hex_text 16 v +:+ rest) as [|c t] eqn:E.
  { apply (f_equal String.length) in E. rewrite length_app_str, H3 in E. discriminate E. }
  rewrite Hh. unfold isHex, str_len. rewrite H2, H3. change (0 <? Z.of_nat 16) with true. change (8 <=? Z.of_nat 16) with true.
  change (Z.of_nat 16 <? 16) with false. cbn [andb]. unfold ParseUint16. rewrite H1. by destruct (Z.ltb_spec v (2 ^ 64)); [|lia].
Qed.

(** How many of [m] consecutive numbers have a residue below [keep]. *)
Definition kept (m keep a : Z) : Z := Z.of_nat (length (filter (λ v, v mod m < keep) (seqZ a m))).

Lemma filter_agree {A} (P Q : A → Prop) `{∀ x, Decision (P x), ∀ x, Decision (Q x)} l :
  Forall (λ x, P x ↔ Q x) l → filter P l = filter Q l.
Proof.
  induction 1 as [|x l Hx _ IH]; [done|]. destruct (decide (P x)) as [HP|HP].
  - rewrite !filter_cons_True by tauto. by rewrite IH.
  - rewrite !filter_cons_False by tauto. done.
Qed.

Lemma kept_shift m keep a : 0 < m → kept m keep (Z.succ a) = kept m keep a.
Proof.
  intros Hm. unfold kept. rewrite (seqZ_cons a m) by lia.
  assert (seqZ (Z.succ a) m = seqZ (Z.succ a) (Z.pred m) ++ [a + m]) as ->.
  { pose proof (seqZ_app (Z.succ a) (Z.pred m) 1 ltac:(lia) ltac:(lia)) as H. replace (Z.pred m + 1) with m in H by lia.
    rewrite H, (seqZ_cons _ 1), (seqZ_nil _ (Z.pred 1)) by lia. do 2 f_equal. lia. }
  rewrite filter_app, length_app. assert (Hp : (a + m) mod m = a mod m) by (rewrite <- (Z.mul_1_l m) at 1; apply Z.mod_add; lia).
  destruct (decide (a mod m < keep)) as [Hk|Hk].
  - rewrite !filter_cons_True by (rewrite ?Hp; done). cbn. lia.
  - rewrite !filter_cons_False by (rewrite ?Hp; done). cbn. lia.
Qed.

Lemma kept_exact m keep a : 0 < m → 0 ≤ keep ≤ m → 0 ≤ a → kept m keep a = keep.
Proof.
  intros Hm Hk Ha. pattern a. apply natlike_ind; [|intros x _ IH; by rewrite kept_shift|done].
  unfold kept. assert (seqZ 0 m = seqZ 0 keep ++ seqZ keep (m - keep)) as ->.
  { pose proof (seqZ_app 0 keep (m - keep) ltac:(lia) ltac:(lia)) as H. by replace (keep + (m - keep)) with m in H by lia. }
  rewrite filter_app, length_app, filter_all, filter_none, length_seqZ; [cbn; lia|intros x Hx%elem_of_seqZ..].
  - rewrite Z.mod_small by lia. lia.
  - rewrite Z.mod_small by lia. lia.
Qed.

(** A request whose id begins with the sixteen hexadecimal digits of [v] is decided
    by [v] alone, so that every service reaches the same verdict, and the tail strategy
    keeps exactly [Keep] of any [Modulus] consecutive numbers. *)
Theorem tail_digit_share Modulus Keep v0 : 0 < Modulus → 0 ≤ Keep ≤ Modulus → 0 ≤ v0 → v0 + Modulus ≤ 2 ^ 64 →
  ∀ rest : Z → string,
  Z.of_nat (length (filter (λ v, tail_ShouldLog Modulus Keep (hex_text 16 v +:+ rest v) = true) (seqZ v0 Modulus))) = Keep.
Proof.
  intros Hm Hk H0 H1 rest. etransitivity; [|by apply (kept_exact Modulus Keep v0)]. unfold kept. do 2 f_equal.
  apply filter_agree, Forall_forall. intros v Hv%elem_of_seqZ. unfold tail_ShouldLog. destruct (Z.eqb_spec Modulus 0); [lia|].
  rewrite idUint64_hex by lia. apply Z.ltb_lt.
Qed.

Lemma tail_digit_share_witness :
  Z.of_nat (length (filter (λ v, tail_ShouldLog 10 3 (hex_text 16 v +:+ "0000000000000000") = true) (seqZ 20 10))) = 3.
Proof. apply (tail_digit_share 10 3 20 ltac:(lia) ltac:(lia) ltac:(lia) ltac:(lia) (λ _, "0000000000000000")). Defined.

(** An id of eight to fifteen hexadecimal digits is padded with zeros on the left, so its
    number is small and a ratio of one thousandth keeps it; the comment of [idUint64]
    promises the hash for it. *)
Example short_hex_kept :
  let ratio := f64_div (f64_of_Z 1) (f64_of_Z 1000) in
  idUint64 "ffffffff" = Some (2 ^ 32 - 1) ∧ ratio_ShouldLog ratio "ffffffff" = true ∧ ratio_ShouldLog ratio "deadbeefcafe" = true ∧
  ratio_ShouldLog ratio "ffffffffffffffff" = false ∧ fnv64a (bytes_of "ffffffff") ≠ 2 ^ 32 - 1.
Proof. vm_compute. split_and!; [reflexivity..|discriminate]. Qed.

(** ** Sessions: [SetSamplingStrategyFor] *)

(** A session: the strategy it found, whether its goroutine is still waiting, whether its
    [stop] has run. *)
Record session (St : Type) := mkSession { prev : option St; waiting : bool; stopped : bool }.
Arguments mkSession {St}.
Arguments prev {St}.
Arguments waiting {St}.
Arguments stopped {St}.
Record sampling (St : Type) := mkSampling { strategy : option St; sessions : list (session St) }.
Arguments mkSampling {St}.
Arguments strategy {St}.
Arguments sessions {St}.

Inductive session_step {St : Type} : sampling St → sampling St → Prop :=
| ss_set s l v : session_step (mkSampling s l) (mkSampling v l)  (** [SetSamplingStrategy] *)
| ss_start s l v : session_step (mkSampling s l) (mkSampling v (l ++ [mkSession s true false]))
| ss_expire s l i p st : l !! i = Some (mkSession p true st) →
    session_step (mkSampling s l) (mkSampling p (<[i := mkSession p false st]> l))
| ss_stop s l i p w : l !! i = Some (mkSession p w false) →
    session_step (mkSampling s l) (mkSampling p (<[i := mkSession p w true]> l))
| ss_done s l i p : l !! i = Some (mkSession p true true) →  (** the goroutine sees [done] *)
    session_step (mkSampling s l) (mkSampling s (<[i := mkSession p false true]> l)).

(** Two sessions, the second begun before the first expired. *)
Example overlap_sticks : ∃ s, rtc session_step (mkSampling None []) s ∧
  strategy s = Some "first" ∧ Forall (λ x, waiting x = false) (sessions s).
Proof.
  eexists. split.
  - eapply rtc_l; [apply (ss_start None [] (Some "first"))|]. eapply rtc_l; [apply (ss_start _ _ (Some "second"))|].
    eapply rtc_l; [apply (ss_expire _ _ 0); reflexivity|]. eapply rtc_l; [apply (ss_expire _ _ 1); reflexivity|]. apply rtc_refl.
  - split; [reflexivity|]. repeat constructor.
Qed.

(** The steps of the [i]-th session. *)
Inductive own_step {St : Type} (i : nat) : sampling St → sampling St → Prop :=
| os_expire s l p st : l !! i = Some (mkSession p true st) → own_step i (mkSampling s l) (mkSampling p (<[i := mkSession p false st]> l))
| os_stop s l p w : l !! i = Some (mkSession p w false) → own_step i (mkSampling s l) (mkSampling p (<[i := mkSession p w true]> l))
| os_done s l p : l !! i = Some (mkSession p true true) → own_step i (mkSampling s l) (mkSampling s (<[i := mkSession p false true]> l)).

(** Alone, a session puts back the strategy it found when its time is up or [stop] is
    called, in whichever order the timer, [stop] and the goroutine come. *)
Lemma session_restores {St : Type} (v : option St) s l s' :
  rtc (own_step (length l)) (mkSampling v (l ++ [mkSession s true false])) s' →
  ∃ w st, sessions s' !! length l = Some (mkSession s w st) ∧ (w = false ∨ st = true → strategy s' = s).
Proof.
  intros Hr. assert (Hinv : ∃ w st, sessions (mkSampling v (l ++ [mkSession s true false])) !! length l = Some (mkSession s w st) ∧
    (w = false ∨ st = true → strategy (mkSampling v (l ++ [mkSession s true false])) = s)).
  { exists true, false. cbn. split; [|by intros [[=]|[=]]]. by rewrite lookup_app_r, Nat.sub_diag by lia. }
  induction Hr as [|s1 s2 s3 Hs _ IH]; [done|]. apply IH. destruct Hinv as (w & st & Hl & Hw).
  destruct Hs; cbn in *; rewrite Hl in H; injection H as ->; subst;
    eexists _, _; (split; [rewrite list_lookup_insert_eq by (by eapply lookup_lt_Some); reflexivity|]); naive_solver.
Qed.
