(* ===== verification/Fsm.v ===== *)
(** * Fsm: the finite state machine of [fsm/fsm.go]

    A machine has immutable rules indexed by (state, event), a current state and
    hooks.  [Send] runs in phases: look the rule up and test the guard under the
    data lock, run the action without it, commit and snapshot the hooks under it,
    fire the hooks; a second lock ([sendMu]) is held throughout.  The phases are
    the definitions; [Send] composes them for one caller, [step] lets any number
    of callers and hook registrations interleave between them.

    Guards and actions are parameters of a rule (a guard reads the context, an
    action succeeds or fails); what runs is recorded in a log. *)

From stdpp Require Import base tactics numbers list gmap strings relations.
From S2P Require Import Prelude.

Section fsm.
Context {Ctx Err : Type}.

Notation State := string (only parsing).

Record Rule := mkRule {
  From_ : State; Event : string; Guard : option (Ctx → bool); Action : option (Ctx → option Err);
  To_ : State }.

Inductive SendErr := ErrNoTransition | ErrGuardRejected | ErrActionFailed (e : Err).

(** Hooks are identified by the order of their registration. *)
Record Machine := mkMachine {
  current : State; rules : gmap (State * string) Rule;
  onEnter : gmap State nat; onExit : gmap State nat; listeners : list nat }.

(** What is run: an action (and its outcome), the commit of a transition, hooks. *)
Inductive entry :=
| EvAction (from : State) (event : string) (ok : bool)
| EvCommit (from : State) (event : string) (to : State)
| EvExit (hook : nat) (from : State)
| EvEnter (hook : nat) (to : State)
| EvListener (hook : nat) (from to : State) (event : string).

(** ** Construction and registration *)

Fixpoint add_rules (m : gmap (State * string) Rule) (rs : list Rule) :
    result (State * string) (gmap (State * string) Rule) :=
  match rs with
  | [] => Ok m
  | r :: rs =>
      match m !! (From_ r, Event r) with
      | Some _ => Prelude.Err (From_ r, Event r)
      | None => add_rules (<[(From_ r, Event r) := r]> m) rs
      end
  end.

(** The error names the duplicated (state, event). *)
Definition New (initial : State) (rs : list Rule) : result (State * string) Machine :=
  match add_rules ∅ rs with
  | Prelude.Err k => Prelude.Err k
  | Ok m => Ok (mkMachine initial m ∅ ∅ [])
  end.

Definition OnEnter (m : Machine) (s : State) (hook : nat) : Machine :=
  mkMachine (current m) (rules m) (<[s := hook]> (onEnter m)) (onExit m) (listeners m).
Definition OnExit (m : Machine) (s : State) (hook : nat) : Machine :=
  mkMachine (current m) (rules m) (onEnter m) (<[s := hook]> (onExit m)) (listeners m).
Definition Listen (m : Machine) (hook : nat) : Machine :=
  mkMachine (current m) (rules m) (onEnter m) (onExit m) (listeners m ++ [hook]).

(** ** Queries *)

Definition Current (m : Machine) : State := current m.
Definition Is (m : Machine) (s : State) : bool := bool_decide (current m = s).
Definition guard_ok (r : Rule) (ctx : Ctx) : bool :=
  match Guard r with Some g => g ctx | None => true end.
Definition Can (m : Machine) (event : string) (ctx : Ctx) : bool :=
  match rules m !! (current m, event) with Some r => guard_ok r ctx | None => false end.
(** In the order of ranging over the rules. *)
Definition AvailableEvents (m : Machine) : list string :=
  snd <$> filter (λ k, k.1 = current m) (map_to_list (rules m)).*1.

(** ** The phases of Send *)

Definition lookup_phase (m : Machine) (event : string) (ctx : Ctx) : result SendErr Rule :=
  match rules m !! (current m, event) with
  | None => Prelude.Err ErrNoTransition
  | Some r => if guard_ok r ctx then Ok r else Prelude.Err ErrGuardRejected
  end.

(** The action's outcome and what it leaves in the log. *)
Definition action_phase (from : State) (event : string) (r : Rule) (ctx : Ctx) :
    result SendErr unit * list entry :=
  match Action r with
  | None => (Ok tt, [])
  | Some a =>
      match a ctx with
      | None => (Ok tt, [EvAction from event true])
      | Some e => (Prelude.Err (ErrActionFailed e), [EvAction from event false])
      end
  end.

(** The hooks snapshotted at the commit, in firing order. *)
Definition snapshot (m : Machine) (from to : State) (event : string) : list entry :=
  option_list ((λ h, EvExit h from) <$> onExit m !! from) ++
  option_list ((λ h, EvEnter h to) <$> onEnter m !! to) ++
  ((λ h, EvListener h from to event) <$> listeners m).

Definition commit (m : Machine) (to : State) : Machine :=
  mkMachine to (rules m) (onEnter m) (onExit m) (listeners m).

Definition Send (m : Machine) (event : string) (ctx : Ctx) : result SendErr unit * Machine * list entry :=
  match lookup_phase m event ctx with
  | Prelude.Err e => (Prelude.Err e, m, [])
  | Ok r =>
      let from := current m in
      let '(res, acted) := action_phase from event r ctx in
      match res with
      | Prelude.Err e => (Prelude.Err e, m, acted)
      | Ok _ => (Ok tt, commit m (To_ r),
                 acted ++ [EvCommit from event (To_ r)] ++ snapshot m from (To_ r) event)
      end
  end.

(** ** Interleaving *)

(** The caller that holds [sendMu]. *)
Inductive phase :=
| Free
| Captured (from : State) (event : string) (r : Rule) (ctx : Ctx)   (** before the action *)
| Acted (from : State) (event : string) (r : Rule)                  (** before the commit *)
| Firing (rest : list entry).                                       (** hooks still to fire *)

Record sys := mkSys { mach : Machine; holder : phase; log : list entry }.

Inductive step : sys → sys → Prop :=
| st_enter m lg event ctx r : lookup_phase m event ctx = Ok r →
    step (mkSys m Free lg) (mkSys m (Captured (current m) event r ctx) lg)
| st_refused m lg event ctx e : lookup_phase m event ctx = Prelude.Err e →
    step (mkSys m Free lg) (mkSys m Free lg)
| st_action m lg from event r ctx evs : action_phase from event r ctx = (Ok tt, evs) →
    step (mkSys m (Captured from event r ctx) lg) (mkSys m (Acted from event r) (lg ++ evs))
| st_action_failed m lg from event r ctx e evs : action_phase from event r ctx = (Prelude.Err e, evs) →
    step (mkSys m (Captured from event r ctx) lg) (mkSys m Free (lg ++ evs))
| st_commit m lg from event r :
    step (mkSys m (Acted from event r) lg)
      (mkSys (commit m (To_ r)) (Firing (snapshot m from (To_ r) event))
         (lg ++ [EvCommit from event (To_ r)]))
| st_fire m lg e rest : step (mkSys m (Firing (e :: rest)) lg) (mkSys m (Firing rest) (lg ++ [e]))
| st_return m lg : step (mkSys m (Firing []) lg) (mkSys m Free lg)
(* registrations only need the data lock *)
| st_on_enter m p lg s h : step (mkSys m p lg) (mkSys (OnEnter m s h) p lg)
| st_on_exit m p lg s h : step (mkSys m p lg) (mkSys (OnExit m s h) p lg)
| st_listen m p lg h : step (mkSys m p lg) (mkSys (Listen m h) p lg).

(** ** Specification: logs of machines that do one transition at a time *)

Definition is_hook (from to : State) (event : string) (e : entry) : Prop :=
  match e with
  | EvExit _ s => s = from
  | EvEnter _ s => s = to
  | EvListener _ a b ev => a = from ∧ b = to ∧ ev = event
  | _ => False
  end.

(** [serial rs s0 log s]: the log consists of whole transitions along the rules,
    from [s0] to [s], and of failed actions in between. *)
Inductive serial (rs : gmap (State * string) Rule) (s0 : State) : list entry → State → Prop :=
| serial_nil : serial rs s0 [] s0
| serial_failed lg s event r : serial rs s0 lg s → rs !! (s, event) = Some r → Action r ≠ None →
    serial rs s0 (lg ++ [EvAction s event false]) s
| serial_transition lg s event r acted hooks :
    serial rs s0 lg s → rs !! (s, event) = Some r →
    acted = match Action r with Some _ => [EvAction s event true] | None => [] end →
    Forall (is_hook s (To_ r) event) hooks →
    serial rs s0 (lg ++ acted ++ [EvCommit s event (To_ r)] ++ hooks) (To_ r).

(** ** Lemmas *)

Lemma lookup_phase_ok m event ctx r : lookup_phase m event ctx = Ok r →
  rules m !! (current m, event) = Some r ∧ guard_ok r ctx = true.
Proof. unfold lookup_phase. intros. repeat case_match; by simplify_eq. Qed.

Lemma snapshot_hooks m from to event : Forall (is_hook from to event) (snapshot m from to event).
Proof.
  unfold snapshot. apply Forall_app. split; [destruct (onExit m !! from); cbn; by repeat constructor|].
  apply Forall_app. split; [destruct (onEnter m !! to); cbn; by repeat constructor|].
  apply Forall_fmap, Forall_forall. intros h _. done.
Qed.

Lemma action_phase_cases from event r ctx res evs : action_phase from event r ctx = (res, evs) →
  match res with
  | Ok _ => evs = match Action r with Some _ => [EvAction from event true] | None => [] end
  | Prelude.Err _ => Action r ≠ None ∧ evs = [EvAction from event false]
  end.
Proof. unfold action_phase. intros. repeat case_match; by simplify_eq. Qed.

(** The log up to the running transition is serial; the phase tells the rest. *)
Definition in_flight (rs : gmap (State * string) Rule) (s0 : State) (s : sys) : Prop :=
  rules (mach s) = rs ∧
  match holder s with
  | Free => serial rs s0 (log s) (current (mach s))
  | Captured from event r _ =>
      from = current (mach s) ∧ rs !! (from, event) = Some r ∧ serial rs s0 (log s) from
  | Acted from event r =>
      from = current (mach s) ∧ rs !! (from, event) = Some r ∧
      ∃ lg, serial rs s0 lg from ∧
        log s = lg ++ match Action r with Some _ => [EvAction from event true] | None => [] end
  | Firing rest => serial rs s0 (log s ++ rest) (current (mach s))
  end.

Lemma step_in_flight rs s0 s s' : step s s' → in_flight rs s0 s → in_flight rs s0 s'.
Proof.
  intros Hst [Hrs Hin]. destruct Hst as
    [m lg event ctx r Hl|m lg event ctx e Hl|m lg from event r ctx evs Ha|m lg from event r ctx e evs Ha
    |m lg from event r|m lg e rest|m lg|m p lg st h|m p lg st h|m p lg h];
    unfold in_flight in *; cbn [mach holder log] in *.
  - apply lookup_phase_ok in Hl as [Hr _]. split_and!; try done. by rewrite <-Hrs.
  - done.
  - destruct Hin as (-> & Hr & Hs). apply action_phase_cases in Ha as ->. split_and!; try done. by exists lg.
  - destruct Hin as (-> & Hr & Hs). apply action_phase_cases in Ha as [Ha ->]. split; [done|].
    by eapply serial_failed.
  - destruct Hin as (-> & Hr & lg0 & Hs & ->). split; [done|]. rewrite <-!app_assoc.
    eapply serial_transition; [done|done|done|apply snapshot_hooks].
  - split; [done|]. rewrite <-app_assoc. done.
  - split; [done|]. by rewrite app_nil_r in Hin.
  - by destruct p.
  - by destruct p.
  - by destruct p.
Qed.

Lemma add_rules_spec rs m m' : add_rules m rs = Ok m' →
  (∀ r, r ∈ rs → m' !! (From_ r, Event r) = Some r) ∧ m ⊆ m'.
Proof.
  revert m. induction rs as [|r rs IH]; intros m; cbn [add_rules]; [intros [= <-]; split; [set_solver|done]|].
  destruct (m !! (From_ r, Event r)) eqn:Hm; [done|]. intros [Hall Hsub]%IH. split.
  - intros r' [->|Hr']%elem_of_cons; [|auto]. eapply lookup_weaken; [|exact Hsub]. apply lookup_insert_eq.
  - etrans; [|exact Hsub]. by apply insert_subseteq.
Qed.

(** One caller alone runs the composition of the phases. *)
Lemma Send_steps m event ctx lg :
  let '(_, m', evs) := Send m event ctx in rtc step (mkSys m Free lg) (mkSys m' Free (lg ++ evs)).
Proof.
  unfold Send. destruct (lookup_phase m event ctx) as [r|e] eqn:Hl; [|by rewrite app_nil_r].
  destruct (action_phase (current m) event r ctx) as [[[]|e] acted] eqn:Ha.
  - eapply rtc_l; [by apply st_enter|]. eapply rtc_l; [by apply st_action|].
    eapply rtc_l; [apply st_commit|]. rewrite !app_assoc.
    generalize (snapshot m (current m) (To_ r) event) as hooks. intros hooks.
    generalize ((lg ++ acted) ++ [EvCommit (current m) event (To_ r)]) as l. clear.
    induction hooks as [|h hooks IH]; intros l.
    + rewrite app_nil_r. apply rtc_once, st_return.
    + eapply rtc_l; [apply st_fire|]. specialize (IH (l ++ [h])). by rewrite <-app_assoc in IH.
  - eapply rtc_l; [by apply st_enter|]. apply rtc_once. by eapply st_action_failed.
Qed.
End fsm.

(** ** Theorems *)

(** C14: Transitions are serialised: however concurrent senders and hook
    registrations interleave, whenever no send is in progress the log of actions,
    commits and hooks is a sequence of whole transitions along the rules from the
    initial state to the current one - each action ran in the state its rule
    leaves, its commit and then the exit, enter and listener hooks of that very
    transition followed before any other action started - and of failed actions
    that changed nothing. *)
Theorem fsm_serialized {Ctx Err} initial (rs : list (Rule (Ctx := Ctx) (Err := Err))) m s :
  New initial rs = Ok m → rtc step (mkSys m Free []) s → holder s = Free →
  serial (rules m) initial (log s) (current (mach s)) ∧
  ∀ r, r ∈ rs → rules m !! (From_ r, Event r) = Some r.
Proof.
  unfold New. destruct (add_rules ∅ rs) as [m0|] eqn:Ha; [|done]. intros [= <-] Hr Hfree.
  apply add_rules_spec in Ha as [Ha _]. cbn [rules]. split; [|done].
  assert (in_flight m0 initial s) as [_ Hin]; [|by rewrite Hfree in Hin].
  assert (in_flight m0 initial (mkSys (mkMachine initial m0 ∅ ∅ []) Free [])) as H0
    by (split; [done|constructor]).
  clear Hfree. induction Hr as [|s1 s2 s3 Hst _ IH]; [done|]. eauto using step_in_flight.
Qed.

(** For one caller, [Send] succeeds exactly when [Can] says so and the action
    does not fail; a failing [Send] leaves the state alone, a successful one moves
    along the rule of the current state; and [Send] is one of the interleavings
    the serialisation result covers. *)
Theorem fsm_send_correct {Ctx Err} (m : Machine (Ctx := Ctx) (Err := Err)) event ctx lg :
  let '(res, m', evs) := Send m event ctx in
  (is_ok res = true ↔ Can m event ctx = true ∧
     ∀ r, rules m !! (current m, event) = Some r → ∀ a, Action r = Some a → a ctx = None) ∧
  (if is_ok res then ∃ r, rules m !! (current m, event) = Some r ∧ m' = commit m (To_ r) else m' = m) ∧
  rtc step (mkSys m Free lg) (mkSys m' Free (lg ++ evs)).
Proof.
  pose proof (Send_steps m event ctx lg) as Hs. destruct (Send m event ctx) as [[res m'] evs] eqn:HS.
  split_and!; [| |done]; clear Hs; unfold Send, Can, lookup_phase, action_phase in *;
    destruct (rules m !! (current m, event)) as [r|]; [|simplify_eq; naive_solver| |by simplify_eq].
  - destruct (guard_ok r ctx); [|simplify_eq; naive_solver].
    destruct (Action r) as [a|] eqn:Ha; [destruct (a ctx) eqn:Hc|]; simplify_eq; naive_solver.
  - destruct (guard_ok r ctx); [|by simplify_eq].
    destruct (Action r) as [a|]; [destruct (a ctx)|]; simplify_eq; cbn; eauto.
Qed.

(** ** Witness *)

Definition ex_rules : list (Rule (Ctx := nat) (Err := nat)) :=
  [mkRule "created" "pay" (Some (λ c, Nat.ltb 0 c)) (Some (λ c, if Nat.eqb c 13 then Some 1%nat else None)) "paid";
   mkRule "paid" "ship" None None "shipped"]%string.

Definition ex_m : Machine (Ctx := nat) (Err := nat) :=
  match New "created" ex_rules with Ok m => m | Prelude.Err _ => mkMachine "created" ∅ ∅ ∅ [] end.
Definition ex_s : sys (Ctx := nat) (Err := nat) :=
  mkSys (commit ex_m "paid") Free
    [EvAction "created" "pay" false; EvAction "created" "pay" true; EvCommit "created" "pay" "paid"]%string.

Lemma ex_steps : rtc step (mkSys ex_m Free []) ex_s.
Proof.
  eapply rtc_l; [apply (st_enter _ _ "pay" 13); reflexivity|].
  eapply rtc_l; [eapply st_action_failed; reflexivity|].
  eapply rtc_l; [apply (st_enter _ _ "pay" 7); reflexivity|].
  eapply rtc_l; [apply st_action; reflexivity|].
  eapply rtc_l; [apply st_commit|]. apply rtc_once. apply st_return.
Qed.

Lemma fsm_serialized_witness : serial (rules ex_m) "created" (log ex_s) "paid".
Proof. apply (fsm_serialized "created" ex_rules ex_m ex_s); [reflexivity|apply ex_steps|reflexivity]. Defined.
