(* ===== verification/Bitset.v ===== *)
(** * Bitset: the growable bit array of [bitset/bitset.go]

    A slice of 64-bit words and the number [n] of bits in use.  The
    specification is a finite set of non-negative integers ([rep]): all
    operations implement it, [ToSlice] lists it in ascending order through the
    lowest-set-bit loop, and [Len] is its size - with one exception: [Union] does
    not raise [n] when the other set fits into the words but not into [n], and
    the members beyond [n] become invisible to [Test] ([bitset_union_hides]). *)

From Stdlib Require Import ZArith Lia.
From stdpp Require Import base tactics numbers list gmap sets sorting.
From S2P Require Import Prelude.

#[local] Open Scope Z_scope.

Record BitSet := mkBitSet { buf : list Z; n : Z }.

(** [None]: [make] panics on a negative length. *)
Definition New (n : Z) : option BitSet :=
  let n := if n <=? 0 then 64 else n in
  let words := Z.quot (i64 (n + 63)) 64 in
  if words <? 0 then None else Some (mkBitSet (replicate (Z.to_nat words) 0) n).

Definition grow (b : BitSet) (i : Z) : BitSet :=
  let wordsNeeded := Z.quot (i64 (i + 64)) 64 in
  if wordsNeeded <=? Z.of_nat (length (buf b)) then
    mkBitSet (buf b) (if n b <=? i then i64 (i + 1) else n b)
  else mkBitSet (buf b ++ replicate (Z.to_nat wordsNeeded - length (buf b)) 0) (i64 (i + 1)).

Definition word (b : BitSet) (i : Z) : Z := nth (Z.to_nat (i / 64)) (buf b) 0.
Definition set_word (b : BitSet) (i w : Z) : BitSet :=
  mkBitSet (<[Z.to_nat (i / 64) := w]> (buf b)) (n b).

(** [None]: the panic on a negative index, or the one of the slice access when
    [i + 64] overflows. *)
Definition Set_ (b : BitSet) (i : Z) : option BitSet :=
  if i <? 0 then None
  else
    let b := grow b i in
    if Z.of_nat (length (buf b)) <=? i / 64 then None
    else Some (set_word b i (Z.lor (word b i) (Z.shiftl 1 (i mod 64)))).

Definition Clear (b : BitSet) (i : Z) : BitSet :=
  if (i <? 0) || (n b <=? i) then b
  else set_word b i (Z.ldiff (word b i) (Z.shiftl 1 (i mod 64))).

Definition Test_ (b : BitSet) (i : Z) : bool :=
  if (i <? 0) || (n b <=? i) then false
  else negb (Z.land (word b i) (Z.shiftl 1 (i mod 64)) =? 0).

(** bits.OnesCount64 and bits.TrailingZeros64 *)
Fixpoint pos_count (p : positive) : Z :=
  match p with xH => 1 | xO p => pos_count p | xI p => 1 + pos_count p end.
Definition OnesCount64 (w : Z) : Z := match w with Zpos p => pos_count p | _ => 0 end.
Fixpoint pos_tz (p : positive) : Z := match p with xO p => 1 + pos_tz p | _ => 0 end.
Definition TrailingZeros64 (w : Z) : Z := match w with Zpos p => pos_tz p | _ => 64 end.

Definition Len (b : BitSet) : Z := zsum (OnesCount64 <$> buf b).
Definition IsEmpty (b : BitSet) : bool := forallb (λ w, w =? 0) (buf b).
Definition ClearAll (b : BitSet) : BitSet := mkBitSet (replicate (length (buf b)) 0) (n b).

(** [for i, w := range other.buf { if i < len(b.buf) { b.buf[i] |= w } }] *)
Fixpoint or_words (ws os : list Z) : list Z :=
  match ws, os with w :: ws, o :: os => Z.lor w o :: or_words ws os | ws, _ => ws end.

(** [None]: a nil argument. *)
Definition Union (b : BitSet) (other : option BitSet) : BitSet :=
  match other with
  | None => b
  | Some o =>
      let b := if (length (buf b) <? length (buf o))%nat then grow b (n o - 1) else b in
      mkBitSet (or_words (buf b) (buf o)) (n b)
  end.

Fixpoint and_words (ws os : list Z) : list Z :=
  match ws, os with
  | w :: ws, o :: os => Z.land w o :: and_words ws os
  | _ :: ws, [] => 0 :: and_words ws []
  | [], _ => []
  end.

Definition Intersect (b : BitSet) (other : option BitSet) : BitSet :=
  match other with
  | None => ClearAll b
  | Some o => mkBitSet (and_words (buf b) (buf o)) (n b)
  end.

(** [for w != 0 { append(TrailingZeros64(w)); w &= w - 1 }]; a word has at most
    64 set bits, one unit of fuel each. *)
Fixpoint bits_loop (fuel : nat) (w : Z) : list Z :=
  match fuel with
  | O => []
  | S fuel =>
      if w =? 0 then [] else TrailingZeros64 w :: bits_loop fuel (Z.land w (w - 1))
  end.

Fixpoint slice_loop (ws : list Z) (wordIdx : Z) : list Z :=
  match ws with
  | [] => []
  | w :: ws => ((λ t, wordIdx * 64 + t) <$> bits_loop 64 w) ++ slice_loop ws (wordIdx + 1)
  end.
Definition ToSlice (b : BitSet) : list Z := slice_loop (buf b) 0.

(** ** Specification *)

Definition bit (b : BitSet) (i : Z) : bool := Z.testbit (word b i) (i mod 64).

Definition max_bits : Z := max_i64 - 63.

Record wf (b : BitSet) : Prop := {
  wf_words : Forall (λ w, 0 ≤ w < 2 ^ 64) (buf b);
  wf_len : Z.of_nat (length (buf b)) = (n b + 63) / 64;
  wf_n : 0 < n b ≤ max_bits }.

Record rep (b : BitSet) (S : gset Z) : Prop := {
  rep_wf : wf b;
  rep_bit : ∀ i, 0 ≤ i → bit b i = bool_decide (i ∈ S);
  rep_range : ∀ i, i ∈ S → 0 ≤ i < n b }.

(** ** Words *)

Lemma land_bit w k : 0 ≤ k → negb (Z.land w (Z.shiftl 1 k) =? 0) = Z.testbit w k.
Proof.
  intros Hk. rewrite Z.shiftl_1_l. destruct (Z.testbit w k) eqn:Hb.
  - destruct (Z.eqb_spec (Z.land w (2 ^ k)) 0) as [H0|]; [|done].
    apply (f_equal (λ z, Z.testbit z k)) in H0.
    by rewrite Z.land_spec, Hb, Z.pow2_bits_true, Z.bits_0 in H0.
  - destruct (Z.eqb_spec (Z.land w (2 ^ k)) 0) as [|H0]; [done|]. destruct H0. apply Z.bits_inj_0.
    intros j. rewrite Z.land_spec. destruct (Z.eq_dec j k) as [->|Hj]; [by rewrite Hb|].
    rewrite Z.pow2_bits_false by lia. apply andb_false_r.
Qed.

(** A word's range, bit by bit. *)
Lemma word_range_bits w :
  0 ≤ w < 2 ^ 64 ↔ 0 ≤ w ∧ ∀ k, 64 ≤ k → Z.testbit w k = false.
Proof.
  split.
  - intros [H0 Hw]. split; [done|]. intros k Hk. destruct (Z.eq_dec w 0) as [->|]; [apply Z.bits_0|].
    apply Z.bits_above_log2; [done|]. apply Z.log2_lt_pow2 in Hw; lia.
  - intros [H0 Hb]. split; [done|]. destruct (Z.eq_dec w 0) as [->|]; [done|].
    apply Z.log2_lt_pow2; [lia|]. destruct (Z.lt_ge_cases (Z.log2 w) 64) as [|H]; [done|].
    apply Hb in H. rewrite Z.bit_log2 in H; [done|lia].
Qed.

Lemma lor_range a b : 0 ≤ a < 2 ^ 64 → 0 ≤ b < 2 ^ 64 → 0 ≤ Z.lor a b < 2 ^ 64.
Proof.
  rewrite !word_range_bits. intros [? Ha] [? Hb]. split; [by apply Z.lor_nonneg|].
  intros k Hk. by rewrite Z.lor_spec, Ha, Hb.
Qed.

Lemma land_range a b : 0 ≤ a < 2 ^ 64 → 0 ≤ b → 0 ≤ Z.land a b < 2 ^ 64.
Proof.
  rewrite !word_range_bits. intros [? Ha] ?. split; [apply Z.land_nonneg; by left|].
  intros k Hk. by rewrite Z.land_spec, Ha.
Qed.

Lemma ldiff_range a b : 0 ≤ a < 2 ^ 64 → 0 ≤ Z.ldiff a b < 2 ^ 64.
Proof.
  rewrite !word_range_bits. intros [? Ha]. split; [apply Z.ldiff_nonneg; by left|].
  intros k Hk. by rewrite Z.ldiff_spec, Ha.
Qed.

Lemma word_range_bit k : 0 ≤ k < 64 → 0 ≤ Z.shiftl 1 k < 2 ^ 64.
Proof. intros. rewrite Z.shiftl_1_l. split; [apply Z.pow_nonneg|apply Z.pow_lt_mono_r]; lia. Qed.

Lemma testbit_shiftl_1 k j : 0 ≤ k → Z.testbit (Z.shiftl 1 k) j = bool_decide (j = k).
Proof.
  intros. rewrite Z.shiftl_1_l. case_bool_decide; [subst; by apply Z.pow2_bits_true|].
  apply Z.pow2_bits_false. lia.
Qed.

Lemma nth_range ws k : Forall (λ w, 0 ≤ w < 2 ^ 64) ws → 0 ≤ nth k ws 0 < 2 ^ 64.
Proof.
  intros Hw. revert k. induction Hw; intros [|k]; simpl; auto; lia.
Qed.

(** ** Words of the slice *)

Lemma nth_insert_ws (ws : list Z) k j w :
  (k < length ws)%nat → nth j (<[k := w]> ws) 0 = if bool_decide (j = k) then w else nth j ws 0.
Proof.
  intros Hk. rewrite !nth_lookup. case_bool_decide.
  - subst. by rewrite list_lookup_insert_eq.
  - by rewrite list_lookup_insert_ne.
Qed.

Lemma nth_grow (ws : list Z) m j : nth j (ws ++ replicate m 0) 0 = nth j ws 0.
Proof.
  destruct (decide (j < length ws)%nat).
  - by rewrite app_nth1.
  - rewrite app_nth2 by lia. rewrite (nth_overflow ws) by lia.
    rewrite nth_lookup. destruct (replicate m 0 !! _) eqn:He; [|done].
    by apply lookup_replicate in He as [-> _].
Qed.

Lemma nth_or_words ws os j :
  (length os ≤ length ws)%nat → nth j (or_words ws os) 0 = Z.lor (nth j ws 0) (nth j os 0).
Proof.
  revert os j. induction ws as [|w ws IH]; intros [|o os] [|j] ?; simpl in *; try done; try lia;
    rewrite ?Z.lor_0_r; auto with lia.
Qed.

Lemma length_or_words ws os : length (or_words ws os) = length ws.
Proof. revert os. induction ws; intros [|? ?]; simpl; auto. Qed.

Lemma nth_and_words ws os j : nth j (and_words ws os) 0 = Z.land (nth j ws 0) (nth j os 0).
Proof.
  revert os j. induction ws as [|w ws IH]; intros [|o os] [|j]; simpl; try done;
    rewrite ?Z.land_0_r, ?IH; try done. by destruct j; rewrite Z.land_0_r.
Qed.

Lemma length_and_words ws os : length (and_words ws os) = length ws.
Proof. revert os. induction ws; intros [|? ?]; simpl; auto. Qed.

Lemma Forall_nth_words (P : Z → Prop) ws :
  (∀ j, (j < length ws)%nat → P (nth j ws 0)) → Forall P ws.
Proof.
  intros H. apply Forall_lookup_2. intros j w Hj.
  specialize (H j (lookup_lt_Some _ _ _ Hj)). by rewrite nth_lookup, Hj in H.
Qed.

Lemma Forall_or_words ws os :
  Forall (λ w, 0 ≤ w < 2 ^ 64) ws → Forall (λ w, 0 ≤ w < 2 ^ 64) os →
  Forall (λ w, 0 ≤ w < 2 ^ 64) (or_words ws os).
Proof.
  intros Hw. revert os. induction Hw; intros os Ho; destruct Ho; simpl; constructor; auto using lor_range.
Qed.

Lemma Forall_and_words ws os :
  Forall (λ w, 0 ≤ w < 2 ^ 64) ws → Forall (λ w, 0 ≤ w < 2 ^ 64) os →
  Forall (λ w, 0 ≤ w < 2 ^ 64) (and_words ws os).
Proof.
  intros Hw Ho. apply Forall_nth_words. intros j _. rewrite nth_and_words.
  apply land_range; [by apply nth_range|]. by apply nth_range.
Qed.

(** ** Growing *)

Lemma words_needed i : 0 ≤ i → i < max_bits → Z.quot (i64 (i + 64)) 64 = (i + 64) / 64.
Proof.
  unfold max_bits, max_i64. intros. rewrite i64_id by (unfold in_i64, min_i64, max_i64; lia).
  apply Z.quot_div_nonneg; lia.
Qed.

Lemma grow_spec b i : wf b → 0 ≤ i < max_bits →
  let b' := grow b i in
  wf b' ∧ n b' = Z.max (n b) (i + 1) ∧ (∀ j, nth j (buf b') 0 = nth j (buf b) 0).
Proof.
  intros [Hw Hl Hn] Hi. unfold grow. rewrite words_needed by lia.
  assert (Hi1 : i64 (i + 1) = i + 1).
  { apply i64_id. unfold max_bits, in_i64, min_i64, max_i64 in *. lia. }
  rewrite Hi1. destruct (Z.leb_spec ((i + 64) / 64) (Z.of_nat (length (buf b)))) as [Hle|Hgt]; simpl.
  - assert (n b ≤ i → (i + 64) / 64 = (n b + 63) / 64).
    { intros. pose proof (Z.div_le_mono (n b + 63) (i + 64) 64). lia. }
    destruct (Z.leb_spec (n b) i); (split; [split; simpl|split]); auto; try lia.
    rewrite Hl, <- H by done. f_equal. lia.
  - assert (n b < i + 1). { destruct (Z.lt_ge_cases (n b) (i + 1)) as [|Hge]; [done|].
      pose proof (Z.div_le_mono (i + 64) (n b + 63) 64). lia. }
    split; [split; simpl|split]; try lia.
    + apply Forall_app; split; [done|]. by apply Forall_replicate.
    + rewrite length_app, length_replicate.
      replace (i + 1 + 63) with (i + 64) by lia. lia.
    + intros j. apply nth_grow.
Qed.

Lemma index_in_range b i : wf b → 0 ≤ i < n b → (Z.to_nat (i / 64) < length (buf b))%nat.
Proof.
  intros [_ Hl _] Hi. pose proof (Z.div_pos i 64).
  assert (i / 64 < (n b + 63) / 64); [|lia].
  apply Z.div_lt_upper_bound; [lia|]. pose proof (Z.mul_succ_div_gt (n b + 63) 64). lia.
Qed.

Lemma bit_set_word b i w j : wf b → 0 ≤ i < n b → 0 ≤ j →
  bit (set_word b i w) j =
  if bool_decide (j / 64 = i / 64) then Z.testbit w (j mod 64) else bit b j.
Proof.
  intros Hb Hi Hj. unfold bit, word, set_word. cbn [buf].
  rewrite nth_insert_ws by (by apply index_in_range).
  pose proof (Z.div_pos i 64). pose proof (Z.div_pos j 64).
  repeat case_bool_decide; try done; lia.
Qed.

Lemma same_word_bit i j : i / 64 = j / 64 → (j mod 64 = i mod 64 ↔ j = i).
Proof. intros. pose proof (Z.div_mod i 64). pose proof (Z.div_mod j 64). lia. Qed.

Lemma wf_set_word b i w : wf b → 0 ≤ w < 2 ^ 64 → wf (set_word b i w).
Proof.
  intros [Hw Hl Hn] ?. split; simpl; [by apply Forall_insert|by rewrite length_insert|done].
Qed.

Lemma mod64 i : 0 ≤ i mod 64 < 64.
Proof. apply Z.mod_pos_bound; lia. Qed.

(** ** The operations refine a set *)

Section ops.
Context (b : BitSet) (S : gset Z) (R : rep b S).

Lemma rep_bit_notin i : 0 ≤ i → n b ≤ i → bit b i = false.
Proof.
  intros. rewrite (rep_bit _ _ R) by done. apply bool_decide_eq_false. intros Hin%(rep_range _ _ R). lia.
Qed.

Lemma Test_refines i : Test_ b i = bool_decide (i ∈ S).
Proof.
  unfold Test_. destruct (Z.ltb_spec i 0) as [|Hi]; simpl.
  { symmetry. apply bool_decide_eq_false. intros Hin%(rep_range _ _ R). lia. }
  destruct (Z.leb_spec (n b) i).
  - symmetry. rewrite <- (rep_bit _ _ R) by done. by apply rep_bit_notin.
  - rewrite land_bit by apply mod64. by apply (rep_bit _ _ R).
Qed.

Lemma Set_refines i : 0 ≤ i < max_bits → ∃ b', Set_ b i = Some b' ∧ rep b' ({[i]} ∪ S).
Proof.
  intros Hi. unfold Set_. destruct (Z.ltb_spec i 0); [lia|].
  destruct (grow_spec b i (rep_wf _ _ R) Hi) as (Hwf & Hn & Hnth). set (g := grow b i) in *.
  assert (Hix : (Z.to_nat (i / 64) < length (buf g))%nat) by (apply index_in_range; [done|lia]).
  pose proof (Z.div_pos i 64). destruct (Z.leb_spec (Z.of_nat (length (buf g))) (i / 64)); [lia|].
  eexists. split; [done|]. split.
  - apply wf_set_word; [done|]. apply lor_range; [apply nth_range, Hwf|apply word_range_bit, mod64].
  - intros j Hj. rewrite bit_set_word by (done || lia).
    assert (Hg : bit g j = bit b j) by (unfold bit, word; by rewrite Hnth).
    case_bool_decide as Hw.
    + rewrite Z.lor_spec, testbit_shiftl_1 by apply mod64.
      replace (Z.testbit (word g i) (j mod 64)) with (bit g j) by (unfold bit, word; by rewrite Hw).
      rewrite Hg, (rep_bit _ _ R) by done. pose proof (same_word_bit i j (eq_sym Hw)).
      repeat case_bool_decide; set_solver.
    + rewrite Hg, (rep_bit _ _ R) by done. apply bool_decide_ext.
      assert (j ≠ i) by (by intros ->). set_solver.
  - intros j [->%elem_of_singleton|Hj%(rep_range _ _ R)]%elem_of_union; unfold set_word; cbn [n]; lia.
Qed.

Lemma Clear_refines i : rep (Clear b i) (S ∖ {[i]}).
Proof.
  unfold Clear. destruct ((i <? 0) || (n b <=? i)) eqn:Hr.
  - replace (S ∖ {[i]}) with S; [done|]. apply leibniz_equiv.
    assert (i ∉ S); [|set_solver]. intros Hin%(rep_range _ _ R). lia.
  - assert (Hi : 0 ≤ i < n b) by lia. split.
    + apply wf_set_word; [apply R|]. apply ldiff_range, nth_range, (rep_wf _ _ R).
    + intros j Hj. rewrite bit_set_word by (done || apply R). case_bool_decide as Hw.
      * rewrite Z.ldiff_spec, testbit_shiftl_1 by apply mod64.
        replace (Z.testbit (word b i) (j mod 64)) with (bit b j) by (unfold bit, word; by rewrite Hw).
        rewrite (rep_bit _ _ R) by done. pose proof (same_word_bit i j (eq_sym Hw)).
        repeat case_bool_decide; set_solver.
      * rewrite (rep_bit _ _ R) by done. apply bool_decide_ext.
        assert (j ≠ i) by (by intros ->). set_solver.
    + intros j Hj. unfold set_word; cbn [n]. apply (rep_range _ _ R). set_solver.
Qed.

Lemma ClearAll_refines : rep (ClearAll b) ∅.
Proof.
  destruct (rep_wf _ _ R) as [Hw Hl Hn]. split; [split; simpl| |set_solver].
  - by apply Forall_replicate.
  - by rewrite length_replicate.
  - done.
  - intros j Hj. rewrite bool_decide_eq_false_2 by set_solver. unfold bit, word, ClearAll. cbn [buf].
    rewrite <- (app_nil_l (replicate _ _)), nth_grow. destruct (Z.to_nat (j / 64)); apply Z.bits_0.
Qed.

Section binary.
Context (o : BitSet) (T : gset Z) (Ro : rep o T).

Lemma Intersect_refines : rep (Intersect b (Some o)) (S ∩ T).
Proof.
  destruct (rep_wf _ _ R) as [Hw Hl Hn]. split; [split; simpl| |].
  - apply Forall_and_words; [done|apply Ro].
  - by rewrite length_and_words.
  - done.
  - intros j Hj. unfold bit, word, Intersect. cbn [buf]. rewrite nth_and_words, Z.land_spec.
    change (bit b j && bit o j = bool_decide (j ∈ S ∩ T)).
    rewrite (rep_bit _ _ R), (rep_bit _ _ Ro) by done. repeat case_bool_decide; set_solver.
  - intros j Hj. cbn [Intersect n]. apply (rep_range _ _ R). set_solver.
Qed.

(** The members of the other set are kept visible when its words make the
    receiver grow, or when they lie below the receiver's [n]. *)
Lemma Union_refines :
  (length (buf b) < length (buf o))%nat ∨ (∀ i, i ∈ T → i < n b) →
  rep (Union b (Some o)) (S ∪ T).
Proof.
  intros Hv. destruct (rep_wf _ _ R) as [Hw Hl Hn].
  destruct (rep_wf _ _ Ro) as [Hwo Hlo Hno].
  unfold Union. set (b1 := if (length (buf b) <? length (buf o))%nat then _ else _).
  assert (H1 : wf b1 ∧ (length (buf o) ≤ length (buf b1))%nat ∧ n b ≤ n b1 ∧
    (∀ i, i ∈ T → i < n b1) ∧ ∀ j, nth j (buf b1) 0 = nth j (buf b) 0).
  { subst b1. destruct (Nat.ltb_spec (length (buf b)) (length (buf o))).
    - destruct (grow_spec b (n o - 1) (rep_wf _ _ R)) as (Hg & Hgn & Hnth); [lia|].
      split; [done|]. repeat split; [|lia| |done].
      + destruct Hg as [_ Hgl _]. rewrite Hgn in Hgl.
        pose proof (Z.div_le_mono (n o + 63) (Z.max (n b) (n o - 1 + 1) + 63) 64). lia.
      + intros i Hi%(rep_range _ _ Ro). lia.
    - destruct Hv as [|Hv]; [lia|]. split; [apply R|]. repeat split; [lia|lia|done]. }
  destruct H1 as ([Hw1 Hl1 Hn1] & Hlen & Hnn & HT & Hnth). split; [split; simpl| |].
  - by apply Forall_or_words.
  - by rewrite length_or_words.
  - done.
  - intros j Hj. unfold bit, word. cbn [buf]. rewrite nth_or_words, Hnth, Z.lor_spec by done.
    change (bit b j || bit o j = bool_decide (j ∈ S ∪ T)).
    rewrite (rep_bit _ _ R), (rep_bit _ _ Ro) by done. repeat case_bool_decide; set_solver.
  - intros j [Hj|Hj]%elem_of_union; cbn [n].
    + apply (rep_range _ _ R) in Hj. lia.
    + pose proof (rep_range _ _ Ro _ Hj). specialize (HT _ Hj). lia.
Qed.
End binary.
End ops.

(** ** Iteration over the set bits *)

(** The positions of the set bits, by the binary structure of the number. *)
Fixpoint pos_bits (p : positive) : list Z :=
  match p with
  | xH => [0]
  | xO p => Z.succ <$> pos_bits p
  | xI p => 0 :: (Z.succ <$> pos_bits p)
  end.
Definition word_bits (w : Z) : list Z := match w with Zpos p => pos_bits p | _ => [] end.

Lemma land_even_odd a c : Z.land (2 * a) (2 * c + 1) = 2 * Z.land a c.
Proof.
  apply Z.bits_inj'. intros k Hk. rewrite Z.land_spec. destruct (Z.eq_dec k 0) as [->|].
  - by rewrite !Z.testbit_even_0.
  - replace k with (Z.succ (Z.pred k)) by lia.
    rewrite !Z.testbit_even_succ, Z.testbit_odd_succ, Z.land_spec by lia. done.
Qed.

Lemma land_odd_pred a : Z.land (2 * a + 1) (2 * a) = 2 * a.
Proof. rewrite Z.land_comm, land_even_odd, Z.land_diag. done. Qed.

Lemma bits_loop_double fuel w :
  0 ≤ w → bits_loop fuel (2 * w) = Z.succ <$> bits_loop fuel w.
Proof.
  revert w. induction fuel as [|fuel IH]; intros w Hw; [done|]. cbn [bits_loop].
  destruct (Z.eqb_spec w 0) as [->|]; [done|]. destruct (Z.eqb_spec (2 * w) 0); [lia|].
  replace (2 * w - 1) with (2 * (w - 1) + 1) by lia. rewrite land_even_odd, IH.
  - rewrite fmap_cons. f_equal. destruct w as [|p|p]; [lia| |lia].
    change (2 * Z.pos p) with (Z.pos p~0). cbn [TrailingZeros64 pos_tz]. lia.
  - apply Z.land_nonneg. by left.
Qed.

Lemma bits_loop_pos p fuel :
  pos_count p ≤ Z.of_nat fuel → bits_loop fuel (Zpos p) = pos_bits p.
Proof.
  revert fuel. induction p as [p IH|p IH|]; intros fuel Hf; cbn [pos_count pos_bits] in *.
  - destruct fuel as [|fuel].
    { assert (0 < pos_count p) by (clear; induction p; simpl; lia). lia. }
    cbn [bits_loop]. replace (Z.pos p~1 =? 0) with false by done. f_equal.
    replace (Z.pos p~1 - 1) with (2 * Z.pos p) by lia.
    rewrite (Pos2Z.inj_xI p), land_odd_pred, bits_loop_double, IH by lia. done.
  - rewrite (Pos2Z.inj_xO p), bits_loop_double, IH by lia. done.
  - destruct fuel as [|[|fuel]]; [lia|done|done].
Qed.

Lemma pos_count_bound p k : Zpos p < 2 ^ Z.of_nat k → pos_count p ≤ Z.of_nat k.
Proof.
  revert k. induction p as [p IH|p IH|]; intros k Hp; (destruct k as [|k]; [change (2 ^ Z.of_nat 0) with 1 in Hp; lia|]);
    rewrite Nat2Z.inj_succ, ?Z.pow_succ_r in * by lia; cbn [pos_count].
  - specialize (IH k). lia.
  - specialize (IH k). lia.
  - lia.
Qed.

Lemma bits_loop_word w : 0 ≤ w < 2 ^ 64 → bits_loop 64 w = word_bits w.
Proof.
  intros Hw. destruct w as [|p|p]; [done| |lia].
  apply bits_loop_pos. apply (pos_count_bound p 64). lia.
Qed.

Lemma elem_of_pos_bits p i : i ∈ pos_bits p ↔ 0 ≤ i ∧ Z.testbit (Zpos p) i = true.
Proof.
  assert (Hs : ∀ (l : list Z) j, Z.succ j ∈ Z.succ <$> l ↔ j ∈ l).
  { intros. rewrite list_elem_of_fmap. split; [intros (x & ? & ?)|eauto]. replace j with x by lia; done. }
  assert (H0 : ∀ q, 0 ∈ Z.succ <$> pos_bits q → False).
  { intros q Hq. apply list_elem_of_fmap in Hq as (j & Hj & Hin).
    assert (0 ≤ j); [|lia]. clear Hj. revert j Hin. induction q; simpl; intros j Hin.
    - apply elem_of_cons in Hin as [->|Hin]; [done|]. apply list_elem_of_fmap in Hin as (? & -> & ?).
      specialize (IHq _ H). lia.
    - apply list_elem_of_fmap in Hin as (? & -> & ?). specialize (IHq _ H). lia.
    - apply list_elem_of_singleton in Hin. lia. }
  revert i. induction p as [p IH|p IH|]; intros i.
  - cbn [pos_bits]. rewrite elem_of_cons, Pos2Z.inj_xI. destruct (Z.eq_dec i 0) as [->|Hi].
    { rewrite Z.testbit_odd_0. naive_solver. }
    replace i with (Z.succ (Z.pred i)) by lia. rewrite Hs, IH.
    split; [intros [?|[? ?]]; [lia|]|intros [? ?]; right];
      (rewrite Z.testbit_odd_succ in * by lia; split; [lia|done]).
  - cbn [pos_bits]. rewrite Pos2Z.inj_xO. destruct (Z.eq_dec i 0) as [->|Hi].
    { rewrite Z.testbit_even_0. naive_solver. }
    replace i with (Z.succ (Z.pred i)) by lia. rewrite Hs, IH.
    split; intros [? ?]; (rewrite Z.testbit_even_succ in * by lia; split; [lia|done]).
  - cbn [pos_bits]. rewrite list_elem_of_singleton. split; [by intros ->|].
    intros [Hi Hb]. destruct (Z.eq_dec i 0); [done|].
    rewrite Z.bits_above_log2 in Hb; simpl; lia || done.
Qed.

Lemma elem_of_word_bits w i :
  0 ≤ w < 2 ^ 64 → i ∈ word_bits w ↔ 0 ≤ i < 64 ∧ Z.testbit w i = true.
Proof.
  intros Hw. pose proof Hw as [_ Hb]%word_range_bits. destruct w as [|p|p]; simpl; [| |lia].
  - rewrite Z.bits_0. split; [by intros ?%elem_of_nil|by intros [_ ?]].
  - rewrite elem_of_pos_bits. split; [|naive_solver]. intros [? Ht]. split; [|done].
    split; [done|]. destruct (Z.lt_ge_cases i 64) as [|Hge]; [done|]. apply Hb in Hge. congruence.
Qed.

Lemma sorted_shift (f : Z → Z) l :
  (∀ x y, x < y → f x < f y) → StronglySorted Z.lt l → StronglySorted Z.lt (f <$> l).
Proof.
  intros Hf. induction 1 as [|x l Hl IH Hx]; [constructor|]. rewrite fmap_cons. constructor; [done|].
  apply Forall_fmap. eapply Forall_impl; [done|]. simpl. auto.
Qed.

Lemma word_bits_sorted w : StronglySorted Z.lt (word_bits w).
Proof.
  destruct w as [|p|]; simpl; try constructor. induction p; simpl.
  - constructor; [apply sorted_shift; auto with zarith|]. apply Forall_forall. intros x Hx.
    apply list_elem_of_fmap in Hx as (y & -> & Hy%elem_of_pos_bits). lia.
  - apply sorted_shift; auto with zarith.
  - repeat constructor.
Qed.

Lemma length_word_bits w : Z.of_nat (length (word_bits w)) = OnesCount64 w.
Proof. destruct w as [|p|]; simpl; auto. induction p; simpl; rewrite ?length_fmap in *; lia. Qed.

Definition words_ok (ws : list Z) : Prop := Forall (λ w, 0 ≤ w < 2 ^ 64) ws.

Lemma elem_of_slice_loop ws k i : words_ok ws → 0 ≤ k →
  i ∈ slice_loop ws k ↔
  k * 64 ≤ i ∧ Z.testbit (nth (Z.to_nat (i / 64 - k)) ws 0) (i mod 64) = true.
Proof.
  intros Hw. revert k. induction Hw as [|w ws Hw0 Hw IH]; intros k Hk; cbn [slice_loop].
  - destruct (Z.to_nat _); simpl; rewrite Z.bits_0; (split; [by intros ?%elem_of_nil|by intros [_ ?]]).
  - rewrite elem_of_app, IH, bits_loop_word, list_elem_of_fmap by (done || lia).
    pose proof (Z.div_mod i 64 ltac:(lia)). pose proof (mod64 i).
    pose proof (λ t, elem_of_word_bits w t Hw0) as HW.
    destruct (Z.lt_total (i / 64) k) as [Hlt|[Heq|Hgt]].
    + split; [|lia]. intros [(t & -> & Ht%HW)|?]; lia.
    + replace (Z.to_nat (i / 64 - k)) with 0%nat by lia. cbn [nth]. split.
      * intros [(t & Hi & [? ?]%HW)|?]; [|lia].
        replace (i mod 64) with t by lia. split; [lia|done].
      * intros [? Hb]. left. exists (i mod 64). split; [lia|]. by apply HW.
    + replace (Z.to_nat (i / 64 - k)) with (Datatypes.S (Z.to_nat (i / 64 - (k + 1)))) by lia.
      cbn [nth]. split.
      * intros [(t & Hi & [? ?]%HW)|[? ?]]; [lia|split; [lia|done]].
      * intros [? ?]. right. split; [lia|done].
Qed.

Lemma sorted_app (l1 l2 : list Z) :
  StronglySorted Z.lt l1 → StronglySorted Z.lt l2 → (∀ x y, x ∈ l1 → y ∈ l2 → x < y) →
  StronglySorted Z.lt (l1 ++ l2).
Proof.
  intros H1 H2 H. induction H1 as [|x l1 H1 IH Hx]; [done|]. simpl. constructor.
  - apply IH. intros. apply H; [by right|done].
  - apply Forall_app. split; [done|]. apply Forall_forall. intros. apply H; [by left|done].
Qed.

Lemma slice_loop_sorted ws k : words_ok ws → 0 ≤ k → StronglySorted Z.lt (slice_loop ws k).
Proof.
  intros Hw. revert k. induction Hw as [|w ws Hw0 Hw IH]; intros k Hk; cbn [slice_loop]; [constructor|].
  rewrite bits_loop_word by done. apply sorted_app.
  - apply sorted_shift; [lia|]. apply word_bits_sorted.
  - apply IH. lia.
  - intros x y (t & -> & Ht)%list_elem_of_fmap Hy.
    apply elem_of_word_bits in Ht; [|done]. apply elem_of_slice_loop in Hy; [lia|done|lia].
Qed.

Lemma length_slice_loop ws k : words_ok ws →
  Z.of_nat (length (slice_loop ws k)) = zsum (OnesCount64 <$> ws).
Proof.
  intros Hw. revert k. induction Hw as [|w ws Hw0 Hw IH]; intros k; [done|]. cbn [slice_loop].
  rewrite length_app, length_fmap, Nat2Z.inj_add, IH, bits_loop_word, length_word_bits by done.
  done.
Qed.

Lemma sorted_NoDup l : StronglySorted Z.lt l → NoDup l.
Proof.
  induction 1 as [|x l Hl IH Hx]; constructor; [|done]. intros Hin.
  rewrite Forall_forall in Hx. specialize (Hx _ Hin). lia.
Qed.

Section read.
Context (b : BitSet) (S : gset Z) (R : rep b S).

Lemma ToSlice_refines : StronglySorted Z.lt (ToSlice b) ∧ ∀ i, i ∈ ToSlice b ↔ i ∈ S.
Proof.
  pose proof (wf_words _ (rep_wf _ _ R)) as Hw. split; [by apply slice_loop_sorted|].
  intros i. unfold ToSlice. rewrite elem_of_slice_loop by done. rewrite Z.sub_0_r. split.
  - intros [Hi Hb]. change (bit b i = true) in Hb. rewrite (rep_bit _ _ R) in Hb by lia.
    by apply bool_decide_eq_true in Hb.
  - intros Hin. pose proof (rep_range _ _ R _ Hin). split; [lia|].
    change (bit b i = true). rewrite (rep_bit _ _ R) by lia. by apply bool_decide_eq_true.
Qed.

Lemma Len_refines : Len b = Z.of_nat (size S).
Proof.
  destruct ToSlice_refines as [Hs Hin]. unfold Len.
  rewrite <- (length_slice_loop (buf b) 0) by apply (rep_wf _ _ R).
  rewrite <- (size_list_to_set (C := gset Z) (slice_loop (buf b) 0)) by (by apply sorted_NoDup).
  f_equal. f_equal. apply leibniz_equiv. intros i. rewrite elem_of_list_to_set. apply Hin.
Qed.

Lemma IsEmpty_refines : IsEmpty b = bool_decide (S = ∅).
Proof.
  symmetry. unfold IsEmpty. destruct (forallb _ _) eqn:Hf.
  - apply bool_decide_eq_true. apply leibniz_equiv. intros i. split; [|set_solver].
    intros Hin. pose proof (rep_range _ _ R _ Hin). assert (Hb : bit b i = true).
    { rewrite (rep_bit _ _ R) by lia. by apply bool_decide_eq_true. }
    exfalso. revert Hb. unfold bit, word. rewrite forallb_forall in Hf.
    destruct (nth_in_or_default (Z.to_nat (i / 64)) (buf b) 0) as [Hn| ->];
      [apply Hf, Z.eqb_eq in Hn; rewrite Hn|]; by rewrite Z.bits_0.
  - apply bool_decide_eq_false. intros He.
    assert (forallb (λ w, w =? 0) (buf b) = true); [|congruence].
    apply forallb_forall. intros w Hw. apply Z.eqb_eq.
    apply list_elem_of_In, list_elem_of_lookup in Hw as [j Hj].
    apply Z.bits_inj_0. intros t. destruct (Z.lt_ge_cases t 0); [by apply Z.testbit_neg_r|].
    pose proof (Forall_lookup_1 _ _ _ _ (wf_words _ (rep_wf _ _ R)) Hj) as [_ Hb]%word_range_bits.
    destruct (Z.lt_ge_cases t 64); [|by apply Hb].
    pose proof (rep_bit _ _ R (Z.of_nat j * 64 + t)) as Hbit. unfold bit, word in Hbit.
    rewrite Z.add_comm, Z.div_add, Z.mod_add, Z.div_small, Z.mod_small in Hbit by lia.
    rewrite Z.add_0_l, Nat2Z.id, nth_lookup, Hj, He in Hbit. simpl in Hbit.
    rewrite Hbit by lia. done.
Qed.
End read.

Lemma New_refines m : m ≤ max_bits → ∃ b, New m = Some b ∧ rep b ∅.
Proof.
  intros Hm. unfold New. set (m' := if m <=? 0 then 64 else m).
  assert (Hm' : 0 < m' ≤ max_bits).
  { unfold max_bits, max_i64 in *. subst m'. destruct (Z.leb_spec m 0); lia. }
  assert (Hq : Z.quot (i64 (m' + 63)) 64 = (m' + 63) / 64).
  { replace (m' + 63) with ((m' - 1) + 64) by lia. apply words_needed; lia. }
  rewrite Hq. pose proof (Z.div_pos (m' + 63) 64). destruct (Z.ltb_spec ((m' + 63) / 64) 0); [lia|].
  eexists. split; [done|]. split; [split; simpl| |set_solver].
  - by apply Forall_replicate.
  - rewrite length_replicate. lia.
  - done.
  - intros j Hj. rewrite bool_decide_eq_false_2 by set_solver. unfold bit, word. cbn [buf].
    rewrite <- (app_nil_l (replicate _ _)), nth_grow. destruct (Z.to_nat (j / 64)); apply Z.bits_0.
Qed.

(** On a bit set that represents a finite set [S] of non-negative integers,
    every operation acts as the set operation: [Test] is membership, [Set]
    inserts (and panics on a negative index only, below the largest allocatable
    one), [Clear] removes, [Intersect] intersects, [Len] counts, [IsEmpty]
    compares with the empty set, [ToSlice] lists the members in strictly
    ascending order, and [Union] joins provided the members of the other set lie
    below [n] or its words make the receiver grow. *)
Theorem bitset_refines b S :
  rep b S →
  (∀ i, Test_ b i = bool_decide (i ∈ S)) ∧
  (∀ i, i < max_bits →
    match Set_ b i with Some b' => 0 ≤ i ∧ rep b' ({[i]} ∪ S) | None => i < 0 end) ∧
  (∀ i, rep (Clear b i) (S ∖ {[i]})) ∧
  rep (ClearAll b) ∅ ∧
  (∀ o T, rep o T → rep (Intersect b (Some o)) (S ∩ T)) ∧
  (∀ o T, rep o T → (length (buf b) < length (buf o))%nat ∨ (∀ i, i ∈ T → i < n b) →
    rep (Union b (Some o)) (S ∪ T)) ∧
  (Len b = Z.of_nat (size S) ∧ IsEmpty b = bool_decide (S = ∅)) ∧
  (StronglySorted Z.lt (ToSlice b) ∧ ∀ i, i ∈ ToSlice b ↔ i ∈ S).
Proof.
  intros R. repeat match goal with |- _ ∧ _ => split end;
    eauto using Test_refines, Clear_refines, ClearAll_refines, Intersect_refines, Union_refines,
      Len_refines, IsEmpty_refines.
  - intros i Hi. destruct (Z.lt_ge_cases i 0) as [Hneg|Hpos].
    + unfold Set_. by destruct (Z.ltb_spec i 0); [|lia].
    + destruct (Set_refines b S R i) as (b' & -> & ?); [lia|]. done.
  - apply (ToSlice_refines b S R).
  - apply (ToSlice_refines b S R).
Qed.

Lemma bitset_refines_witness :
  ∃ b0, New 10 = Some b0 ∧ rep b0 ∅ ∧ Test_ b0 3 = false ∧ Len b0 = 0 ∧
    match Set_ b0 100 with Some b' => rep b' ({[100]} ∪ ∅) | None => False end.
Proof.
  destruct (New_refines 10) as (b0 & Hb & R); [done|]. exists b0.
  destruct (bitset_refines b0 ∅ R) as (Ht & Hs & _ & _ & _ & _ & [Hl _] & _).
  specialize (Hs 100 eq_refl). rewrite (Ht 3), Hl.
  split; [done|]. split; [done|]. split; [done|]. split; [done|].
  destruct (Set_ b0 100); [by destruct Hs|lia].
Defined.

(** A union whose second operand fits into the receiver's words but not below
    its [n]: the member is counted and listed, yet [Test] denies it and [Clear]
    cannot remove it. *)
Example bitset_union_hides :
  ∃ b o, New 1 = Some b ∧ (New 64 ≫= λ o, Set_ o 5) = Some o ∧
    let u := Union b (Some o) in
    Test_ o 5 = true ∧ ToSlice u = [5] ∧ Len u = 1 ∧ Test_ u 5 = false ∧ Clear u 5 = u.
Proof. eexists _, _. repeat split. Qed.
