(* ===== verification/LoadBalance.v ===== *)
(** * LoadBalance: the weighted balancer of [loadbalance/loadbalance.go]

    A list of entries with a weight and, for the smooth weighted round-robin, a
    running counter each.  A value drawn by the random strategies
    ([rand.IntN]) is an argument of [Next].

    Shown, for the smooth round-robin: at every moment an entry's share of the
    picks is less than one pick above its weighted share and bounded below, a
    full cycle picks each entry exactly as often as its weight and restores the
    state ([swrr_fair]).  For the other strategies: the draws that select an
    entry are exactly its weight in number, and round-robin visits the entries
    in order ([balancer_draws]). *)

From Stdlib Require Import ZArith Lia.
From stdpp Require Import base tactics numbers list strings sets.
From S2P Require Import Prelude.

#[local] Open Scope Z_scope.

Section balancer.
Context {T : Type} (id : T → string).

Record Entry := mkEntry { Value : T; Weight : Z }.
Record entry := mk_entry { value : T; weight : Z; currentWeight : Z }.

(** [Strategy]: an [int]; values other than the three below select the smooth
    weighted round-robin. *)
Definition StrategySmoothWeightedRR : Z := 0.
Definition StrategyRoundRobin : Z := 1.
Definition StrategyRandom : Z := 2.
Definition StrategyWeightedRandom : Z := 3.

Record Balancer := mkBalancer {
  entries : list entry; totalWeight : Z; rrIdx : Z; strategy : Z }.

(** The loop of [addLocked] over the entries: the replaced list and the weight
    it had, or [None] when no entry has the id. *)
Fixpoint replace_entry (es : list entry) (v : T) (w : Z) : option (list entry * Z) :=
  match es with
  | [] => None
  | ex :: es =>
      if decide (id (value ex) = id v) then Some (mk_entry (value ex) w 0 :: es, weight ex)
      else match replace_entry es v w with
           | Some (es', old) => Some (ex :: es', old)
           | None => None
           end
  end.

Definition addLocked (b : Balancer) (e : Entry) : Balancer :=
  let w := if Weight e <=? 0 then 1 else Weight e in
  match replace_entry (entries b) (Value e) w with
  | Some (es, old) => mkBalancer es (i64 (i64 (totalWeight b - old) + w)) (rrIdx b) (strategy b)
  | None =>
      mkBalancer (entries b ++ [mk_entry (Value e) w 0]) (i64 (totalWeight b + w)) (rrIdx b) (strategy b)
  end.
Definition Add : Balancer → Entry → Balancer := addLocked.

Definition WithStrategy (s : Z) (b : Balancer) : Balancer :=
  mkBalancer (entries b) (totalWeight b) (rrIdx b) s.

Definition New (es : list Entry) (opts : list (Balancer → Balancer)) : Balancer :=
  fold_left (λ b opt, opt b) opts
    (fold_left addLocked es (mkBalancer [] 0 0 StrategySmoothWeightedRR)).

Fixpoint remove_loop (target : string) (es : list entry) (total : Z) : list entry * Z :=
  match es with
  | [] => ([], total)
  | ex :: es =>
      if decide (id (value ex) = target) then remove_loop target es (i64 (total - weight ex))
      else let '(out, total) := remove_loop target es total in (ex :: out, total)
  end.

Definition Remove (b : Balancer) (v : T) : Balancer :=
  let '(out, total) := remove_loop (id v) (entries b) (totalWeight b) in
  mkBalancer out total (rrIdx b) (strategy b).

Definition Len (b : Balancer) : Z := Z.of_nat (length (entries b)).
Definition All (b : Balancer) : list Entry :=
  (λ e, mkEntry (value e) (weight e)) <$> entries b.

(** The [next] functions: the value and the balancer afterwards; [None]: an
    index out of range or a nil pointer, which panics. *)
Definition nextRoundRobin (b : Balancer) : option (T * Balancer) :=
  let idx := if Len b <=? rrIdx b then 0 else rrIdx b in
  match entries b !! Z.to_nat idx with
  | Some e => Some (value e, mkBalancer (entries b) (totalWeight b) (idx + 1) (strategy b))
  | None => None
  end.

Definition nextRandom (b : Balancer) (r : Z) : option (T * Balancer) :=
  match entries b !! Z.to_nat r with Some e => Some (value e, b) | None => None end.

Fixpoint weighted_loop (es : list entry) (r cum : Z) : option T :=
  match es with
  | [] => None
  | e :: es =>
      let cum := i64 (cum + weight e) in
      if r <? cum then Some (value e) else weighted_loop es r cum
  end.

Definition nextWeightedRandom (b : Balancer) (r : Z) : option (T * Balancer) :=
  match weighted_loop (entries b) r 0 with
  | Some v => Some (v, b)
  | None => match last (entries b) with Some e => Some (value e, b) | None => None end
  end.

Definition add_weight (e : entry) : entry :=
  mk_entry (value e) (weight e) (i64 (currentWeight e + weight e)).

(** [best]: position and counter of the entry [best] points to. *)
Fixpoint swrr_loop (es : list entry) (i : nat) (best : option (nat * Z))
    : list entry * option (nat * Z) :=
  match es with
  | [] => ([], best)
  | e :: es =>
      let e := add_weight e in
      let best :=
        match best with
        | None => Some (i, currentWeight e)
        | Some (_, m) => if m <? currentWeight e then Some (i, currentWeight e) else best
        end in
      let '(es', r) := swrr_loop es (S i) best in (e :: es', r)
  end.

Definition nextSWRR (b : Balancer) : option (T * Balancer) :=
  let '(es, best) := swrr_loop (entries b) 0 None in
  match best with
  | None => None
  | Some (k, _) =>
      match es !! k with
      | None => None
      | Some e =>
          let e' := mk_entry (value e) (weight e) (i64 (currentWeight e - totalWeight b)) in
          Some (value e, mkBalancer (<[k := e']> es) (totalWeight b) (rrIdx b) (strategy b))
      end
  end.

(** The outer option: a panic; the inner one: [ok]. *)
Definition Next (b : Balancer) (r : Z) : option (option T * Balancer) :=
  if Len b =? 0 then Some (None, b)
  else
    let next :=
      if strategy b =? StrategyRoundRobin then nextRoundRobin b
      else if strategy b =? StrategyRandom then nextRandom b r
      else if strategy b =? StrategyWeightedRandom then
        if totalWeight b <=? 0 then None else nextWeightedRandom b r
      else nextSWRR b in
    match next with Some (v, b) => Some (Some v, b) | None => None end.

(** Consecutive calls, with their draws. *)
Fixpoint Nexts (b : Balancer) (draws : list Z) : option (list T * Balancer) :=
  match draws with
  | [] => Some ([], b)
  | r :: draws =>
      match Next b r with
      | Some (Some v, b) =>
          match Nexts b draws with Some (vs, b) => Some (v :: vs, b) | None => None end
      | _ => None
      end
  end.

(** ** Specification *)

Definition sum_weights (es : list entry) : Z := zsum (weight <$> es).
Definition sum_current (es : list entry) : Z := zsum (currentWeight <$> es).

Record wf (b : Balancer) : Prop := {
  wf_ids : NoDup ((λ e, id (value e)) <$> entries b);
  wf_weights : Forall (λ e, 0 < weight e) (entries b);
  wf_total : totalWeight b = i64 (sum_weights (entries b));
  wf_rr : 0 ≤ rrIdx b }.

(** Counters that cannot overflow. *)
Definition small (b : Balancer) : Prop := Len b * sum_weights (entries b) ≤ max_i64.

Definition picks (v : T) (vs : list T) : Z :=
  Z.of_nat (length (filter (λ u, id u = id v) vs)).

(** ** Membership keeps the balancer well formed *)

Lemma replace_entry_spec es v w :
  match replace_entry es v w with
  | Some (es', old) => ∃ l1 ex l2,
      es = l1 ++ ex :: l2 ∧ es' = l1 ++ mk_entry (value ex) w 0 :: l2 ∧
      old = weight ex ∧ id (value ex) = id v
  | None => id v ∉ (λ e, id (value e)) <$> es
  end.
Proof.
  induction es as [|ex es IH]; simpl; [by intros ?%elem_of_nil|]. case_decide as Hid.
  - by exists [], ex, es.
  - destruct (replace_entry es v w) as [[es' old]|].
    + destruct IH as (l1 & e & l2 & -> & -> & ? & ?). by exists (ex :: l1), e, l2.
    + by rewrite elem_of_cons; intros [?|?].
Qed.

Lemma addLocked_wf b e : wf b → wf (addLocked b e).
Proof.
  intros [Hid Hw Ht Hr]. unfold addLocked. set (w := if Weight e <=? 0 then 1 else Weight e).
  assert (0 < w) by (subst w; zcases; lia).
  pose proof (replace_entry_spec (entries b) (Value e) w) as Hs.
  destruct (replace_entry _ _ _) as [[es old]|].
  - destruct Hs as (l1 & ex & l2 & He & -> & -> & _). rewrite He in *.
    split; cbn [entries totalWeight rrIdx]; [| | |done].
    + by rewrite !fmap_app, !fmap_cons in *.
    + rewrite Forall_app, Forall_cons in *. naive_solver.
    + rewrite Ht. unfold sum_weights. rewrite !fmap_app, !fmap_cons, !zsum_app. cbn [zsum weight].
      autorewrite with go_int. f_equal. lia.
  - split; cbn [entries totalWeight rrIdx]; [| | |done].
    + rewrite fmap_app. apply NoDup_app. split; [done|]. split; [|apply NoDup_singleton].
      intros x Hx ->%list_elem_of_singleton. done.
    + rewrite Forall_app, Forall_singleton. done.
    + rewrite Ht. unfold sum_weights. rewrite fmap_app, zsum_app. cbn [fmap list_fmap zsum weight].
      autorewrite with go_int. f_equal. lia.
Qed.

Lemma remove_loop_spec target es total :
  let '(out, total') := remove_loop target es total in
  out = filter (λ e, id (value e) ≠ target) es ∧
  i64 (total' + zsum (weight <$> es)) = i64 (total + zsum (weight <$> out)).
Proof.
  revert total. induction es as [|ex es IH]; intros total; csimpl; [done|].
  rewrite filter_cons. case_decide as Hid.
  - specialize (IH (i64 (total - weight ex))). destruct (remove_loop _ _ _) as [out total'].
    destruct IH as [-> IH]. rewrite decide_False by tauto. split; [done|].
    rewrite i64_add_l in IH. apply (f_equal (λ z, i64 (z + weight ex))) in IH.
    rewrite !i64_add_l in IH. etrans; [|etrans; [exact IH|]]; apply (f_equal i64); lia.
  - specialize (IH total). destruct (remove_loop _ _ _) as [out total']. destruct IH as [-> IH].
    rewrite decide_True by done. split; [done|]. rewrite fmap_cons. cbn [zsum].
    apply (f_equal (λ z, i64 (z + weight ex))) in IH.
    rewrite !i64_add_l in IH. etrans; [|etrans; [exact IH|]]; apply (f_equal i64); lia.
Qed.

Lemma remove_loop_range target es total :
  in_i64 total → in_i64 (remove_loop target es total).2.
Proof.
  revert total. induction es as [|ex es IH]; intros total Ht; simpl; [done|]. case_decide.
  - apply IH, i64_range.
  - specialize (IH total Ht). by destruct (remove_loop _ _ _).
Qed.

Lemma NoDup_fmap_filter {A B} (f : A → B) (P : A → Prop) `{∀ x, Decision (P x)} l :
  NoDup (f <$> l) → NoDup (f <$> filter P l).
Proof.
  induction l as [|a l IH]; [done|]. rewrite fmap_cons, NoDup_cons, filter_cons. intros [Ha Hl].
  case_decide; [|auto]. rewrite fmap_cons. constructor; [|auto].
  intros (x & Hx & [_ ?]%list_elem_of_filter)%list_elem_of_fmap. apply Ha, list_elem_of_fmap. eauto.
Qed.

Lemma Remove_wf b v : wf b → wf (Remove b v).
Proof.
  intros [Hid Hw Ht Hr]. unfold Remove.
  pose proof (remove_loop_spec (id v) (entries b) (totalWeight b)) as Hs.
  destruct (remove_loop _ _ _) as [out total] eqn:He. destruct Hs as [-> Hs].
  assert (Htot : in_i64 total).
  { pose proof (remove_loop_range (id v) (entries b) (totalWeight b)) as H. rewrite He in H.
    apply H. rewrite Ht. apply i64_range. }
  split; cbn [entries totalWeight rrIdx]; [| | |done].
  - by apply NoDup_fmap_filter.
  - apply Forall_forall. intros e [_ He']%list_elem_of_filter. by rewrite Forall_forall in Hw; apply Hw.
  - rewrite Ht, i64_add_l in Hs. fold (sum_weights (entries b)) in Hs.
    fold (sum_weights (filter (λ e, id (value e) ≠ id v) (entries b))) in Hs.
    apply (f_equal (λ z, i64 (z - sum_weights (entries b)))) in Hs.
    autorewrite with go_int in Hs. rewrite <- (i64_id total) by done.
    etrans; [|etrans; [exact Hs|]]; apply (f_equal i64); lia.
Qed.

(** ** The smooth weighted round-robin *)

Lemma swrr_loop_spec es i best :
  let '(es', r) := swrr_loop es i best in
  es' = add_weight <$> es ∧
  match r with
  | None => best = None ∧ es = []
  | Some (k, m) =>
      (∀ e, e ∈ es' → currentWeight e ≤ m) ∧
      (∀ k0 m0, best = Some (k0, m0) → m0 ≤ m) ∧
      (best = Some (k, m) ∨
       ∃ j e, k = (i + j)%nat ∧ es' !! j = Some e ∧ currentWeight e = m)
  end.
Proof.
  revert i best. induction es as [|e es IH]; intros i best; cbn [swrr_loop].
  { split; [done|]. destruct best as [[k m]|]; [|done]. split; [by intros ? ?%elem_of_nil|].
    split; [|by left]. intros. by simplify_eq. }
  set (best' := match best with None => _ | _ => _ end). specialize (IH (S i) best').
  destruct (swrr_loop es (S i) best') as [es' r]. destruct IH as [-> IH]. split; [done|].
  assert (Hb : best' = Some (i, currentWeight (add_weight e)) ∧
      (∀ k0 m0, best = Some (k0, m0) → m0 < currentWeight (add_weight e)) ∨
    ∃ k0 m0, best = Some (k0, m0) ∧ best' = best ∧ currentWeight (add_weight e) ≤ m0).
  { subst best'. destruct best as [[k0 m0]|]; [|naive_solver].
    destruct (Z.ltb_spec m0 (currentWeight (add_weight e))); [left|right; eauto].
    split; [done|]. intros. by simplify_eq. }
  destruct r as [[k m]|]; [|by destruct Hb as [[? ?]|(? & ? & ? & ? & ?)]; destruct IH; congruence].
  destruct IH as (Hmax & Hge & Hin).
  assert (Hem : currentWeight (add_weight e) ≤ m).
  { destruct Hb as [[Hb _]|(k0 & m0 & ? & Hb & ?)]; [by apply (Hge _ _ Hb)|].
    assert (m0 ≤ m); [|lia]. apply (Hge k0). congruence. }
  split; [|split].
  - intros x [->|Hx]%elem_of_cons; auto.
  - intros k0 m0 Hk. destruct Hb as [[? Hlt]|(? & ? & ? & Hb & ?)]; [apply Hlt in Hk; lia|].
    apply (Hge k0). congruence.
  - destruct Hin as [Hin|(j & e' & -> & Hj & ?)].
    + destruct Hb as [[Hb _]|(? & ? & ? & Hb & ?)]; [right|left; congruence].
      exists 0%nat, (add_weight e). split; [rewrite Hb in Hin; simplify_eq; lia|]. split; [done|congruence].
    + right. exists (S j), e'. split; [lia|done].
Qed.

(** What holds between two picks: counters are exact, add up to zero and exceed
    minus the total. [vs] are the picks so far. *)
Record swrr_inv (base es : list entry) (vs : list T) : Prop := {
  inv_shape : (λ e, (value e, weight e)) <$> es = (λ e, (value e, weight e)) <$> base;
  inv_count : ∀ e, e ∈ es →
    currentWeight e = Z.of_nat (length vs) * weight e - sum_weights base * picks (value e) vs;
  inv_low : ∀ e, e ∈ es → - sum_weights base < currentWeight e;
  inv_zero : sum_current es = 0 }.

Lemma zsum_Forall_nonpos l : Forall (λ x, x ≤ 0) l → zsum l ≤ 0.
Proof. induction 1; simpl; lia. Qed.

Lemma zsum_lower (l : list Z) c : (∀ x, x ∈ l → c < x) → l ≠ [] → Z.of_nat (length l) * c < zsum l.
Proof.
  intros H Hne. induction l as [|x l IH]; [done|]. cbn [zsum length].
  assert (c < x) by (apply H; left). destruct l as [|y l]; [simpl; lia|].
  assert (Z.of_nat (length (y :: l)) * c < zsum (y :: l)); [|lia].
  apply IH; [|done]. intros. apply H. by right.
Qed.

Lemma zsum_upper (l : list Z) i x c :
  (∀ y, y ∈ l → - c < y) → 0 ≤ c → zsum l = 0 → l !! i = Some x →
  x ≤ (Z.of_nat (length l) - 1) * c.
Proof.
  intros H Hc Hz Hi. pose proof (delete_Permutation l i x Hi) as Hp.
  assert (Hs : ∀ l1 l2 : list Z, l1 ≡ₚ l2 → zsum l1 = zsum l2).
  { induction 1; simpl; lia. }
  rewrite (Hs _ _ Hp) in Hz. cbn [zsum] in Hz.
  rewrite (Permutation_length Hp). cbn [length].
  destruct (decide (delete i l = [])) as [He|He].
  { rewrite He in *. simpl in *. lia. }
  assert (Z.of_nat (length (delete i l)) * - c < zsum (delete i l)); [|lia].
  apply zsum_lower; [|done]. intros y Hy. apply H. rewrite Hp. by right.
Qed.

Lemma picks_snoc u vs v :
  picks u (vs ++ [v]) = picks u vs + if decide (id v = id u) then 1 else 0.
Proof.
  unfold picks. rewrite filter_app, length_app, filter_cons, filter_nil.
  case_decide; simpl; lia.
Qed.

Section cycle.
Context (base : list entry).
Let W : Z := sum_weights base.
Context (base_ids : NoDup ((λ e, id (value e)) <$> base)).
Context (base_weights : Forall (λ e, 0 < weight e) base).
Context (base_ne : base ≠ []).
Context (base_small : Z.of_nat (length base) * W ≤ max_i64).

Lemma W_pos : 0 < W.
Proof.
  subst W. destruct base as [|e es]; [done|]. apply Forall_cons in base_weights as [He Hes].
  unfold sum_weights. rewrite fmap_cons. cbn [zsum].
  assert (0 ≤ zsum (weight <$> es)); [|lia]. apply zsum_Forall_nonneg, Forall_fmap.
  eapply Forall_impl; [done|]. simpl. lia.
Qed.

Lemma base_len : 1 ≤ Z.of_nat (length base).
Proof using base_ne. clear -base_ne. destruct base; [done|simpl; lia]. Qed.

Section shape.
Context (es : list entry) (vs : list T) (I : swrr_inv base es vs).

Lemma inv_ids : NoDup ((λ e, id (value e)) <$> es).
Proof.
  pose proof (f_equal (fmap (λ p : T * Z, id p.1)) (inv_shape _ _ _ I)) as H.
  rewrite <- !list_fmap_compose in H. unfold compose in H. simpl in H. by rewrite H.
Qed.

Lemma inv_weights : weight <$> es = weight <$> base.
Proof.
  pose proof (f_equal (fmap snd) (inv_shape _ _ _ I)) as H.
  by rewrite <- !list_fmap_compose in H.
Qed.

Lemma inv_length : length es = length base.
Proof. pose proof (f_equal length inv_weights) as H. by rewrite !length_fmap in H. Qed.

Lemma inv_weight_range e : e ∈ es → 0 < weight e ≤ W.
Proof.
  intros He. assert (Hw : weight e ∈ weight <$> base) by (rewrite <- inv_weights; by apply list_elem_of_fmap_2).
  assert (Hall : Forall (λ x, 0 < x) (weight <$> base)) by (by apply Forall_fmap).
  split; [by rewrite Forall_forall in Hall; apply Hall|].
  apply list_elem_of_lookup in Hw as [i Hi]. apply (zsum_lookup_le _ i); [|done].
  eapply Forall_impl; [done|]. simpl. lia.
Qed.

Lemma inv_high e : e ∈ es → currentWeight e ≤ (Z.of_nat (length base) - 1) * W.
Proof.
  intros He. pose proof W_pos. rewrite <- inv_length, <- (length_fmap currentWeight es).
  apply list_elem_of_lookup in He as [i Hi].
  apply (zsum_upper _ i); [|lia|apply I|by rewrite list_lookup_fmap, Hi].
  intros y (e' & -> & He')%list_elem_of_fmap. by apply (inv_low _ _ _ I).
Qed.

Lemma add_weight_exact e : e ∈ es → currentWeight (add_weight e) = currentWeight e + weight e.
Proof.
  intros He. apply i64_id. pose proof (inv_high e He). pose proof (inv_weight_range e He).
  pose proof (inv_low _ _ _ I e He). fold W in H1.
  pose proof base_len.
  assert (W ≤ max_i64) by nia. unfold_int. lia.
Qed.

Lemma sum_add_weight : sum_current (add_weight <$> es) = W.
Proof.
  pose proof (inv_zero _ _ _ I) as Hz. unfold W, sum_weights. rewrite <- inv_weights.
  pose proof add_weight_exact as Hx. clear I. unfold sum_current in *.
  enough (zsum (currentWeight <$> (add_weight <$> es)) = zsum (currentWeight <$> es) + zsum (weight <$> es)) by lia.
  clear Hz. induction es as [|e l IH]; [done|]. rewrite !fmap_cons. cbn [zsum].
  rewrite Hx by left. rewrite IH; [lia|]. intros. apply Hx. by right.
Qed.
End shape.

(** The picked entry [e0] at position [k]. *)
Lemma pick_inv es vs k e0 (m := currentWeight e0 + weight e0) :
  swrr_inv base es vs → es !! k = Some e0 → 0 < m ≤ max_i64 →
  swrr_inv base (<[k := mk_entry (value e0) (weight e0) (i64 (m - W))]> (add_weight <$> es))
    (vs ++ [value e0]).
Proof.
  intros I Hk Hm. pose proof W_pos.
  assert (HmW : i64 (m - W) = m - W).
  { apply i64_id. pose proof base_len.
    assert (W ≤ max_i64) by nia. unfold_int. lia. }
  rewrite HmW.
  set (es' := <[k := _]> _).
  assert (Hcase : ∀ j e', es' !! j = Some e' → ∃ e, es !! j = Some e ∧ value e' = value e ∧
    weight e' = weight e ∧ currentWeight e' = currentWeight e + weight e - (if decide (j = k) then W else 0)).
  { subst es'. intros j e' Hj. apply list_lookup_insert_Some in Hj as [(-> & <- & _)|[Hne Hj]].
    - exists e0. simpl. rewrite decide_True by done. done.
    - rewrite list_lookup_fmap in Hj. destruct (es !! j) as [e|] eqn:He; simplify_eq/=.
      exists e. rewrite decide_False by done. split; [done|]. split; [done|]. split; [done|].
      pose proof (add_weight_exact es vs I e (list_elem_of_lookup_2 _ _ _ He)) as Ha.
      unfold add_weight in Ha. simpl in Ha. rewrite Ha. lia. }
  assert (Hlen : length es' = length es) by (subst es'; by rewrite length_insert, length_fmap).
  split.
  - rewrite <- (inv_shape _ _ _ I). apply list_eq_same_length with (length es); rewrite ?length_fmap; [done..|].
    intros j x y _. rewrite !list_lookup_fmap.
    destruct (es' !! j) as [e'|] eqn:Hj; [|done]. destruct (Hcase j e' Hj) as (e & -> & Hv & Hw & _).
    simpl. congruence.
  - intros e' [j Hj]%list_elem_of_lookup. destruct (Hcase j e' Hj) as (e & He & -> & -> & ->).
    rewrite (inv_count _ _ _ I e) by (by eapply list_elem_of_lookup_2).
    rewrite length_app, picks_snoc. cbn [length]. fold W.
    destruct (decide (j = k)) as [->|Hne].
    + assert (e = e0) as -> by congruence. rewrite decide_True by done. lia.
    + rewrite decide_False; [lia|]. intros Heq. apply Hne.
      eapply (NoDup_lookup _ j k (id (value e)) (inv_ids es vs I)); rewrite list_lookup_fmap, ?He, ?Hk; simpl; congruence.
  - intros e' [j Hj]%list_elem_of_lookup. destruct (Hcase j e' Hj) as (e & He & _ & _ & ->). fold W.
    pose proof (inv_low _ _ _ I e (list_elem_of_lookup_2 _ _ _ He)).
    pose proof (inv_weight_range es vs I e (list_elem_of_lookup_2 _ _ _ He)). fold W in H0.
    case_decide as Hjk; [|lia]. subst j. assert (e = e0) as -> by congruence. subst m. lia.
  - subst es'. unfold sum_current. rewrite list_fmap_insert.
    rewrite (zsum_insert _ k m).
    + pose proof (sum_add_weight es vs I). unfold sum_current in *. simpl. lia.
    + rewrite list_lookup_fmap, list_lookup_fmap, Hk. simpl. f_equal.
      pose proof (add_weight_exact es vs I e0 (list_elem_of_lookup_2 _ _ _ Hk)) as Ha. done.
Qed.

Lemma nextSWRR_inv b vs :
  swrr_inv base (entries b) vs → totalWeight b = W →
  ∃ v es, nextSWRR b = Some (v, mkBalancer es W (rrIdx b) (strategy b)) ∧
    swrr_inv base es (vs ++ [v]).
Proof.
  intros I Ht. unfold nextSWRR. pose proof (swrr_loop_spec (entries b) 0 None) as Hs.
  destruct (swrr_loop (entries b) 0 None) as [es r]. destruct Hs as [-> Hs].
  pose proof W_pos. pose proof (inv_length _ _ I) as Hlen.
  destruct r as [[k m]|].
  2: { destruct Hs as [_ He]. rewrite He in Hlen. destruct base; [done|simpl in Hlen; lia]. }
  destruct Hs as (Hmax & _ & [?|(j & e & -> & Hj & Hm)]); [done|]. rewrite Nat.add_0_l, Hj, Ht.
  rewrite list_lookup_fmap in Hj. destruct (entries b !! j) as [e0|] eqn:He0; [|done].
  injection Hj as <-. pose proof (list_elem_of_lookup_2 _ _ _ He0) as Hin.
  pose proof (add_weight_exact _ _ I e0 Hin) as Ha. rewrite Ha in Hm.
  eexists (value e0), _. split; [done|]. rewrite Ha.
  apply (pick_inv _ _ j e0); [done|done|]. split.
  - destruct (Z.lt_ge_cases 0 (currentWeight e0 + weight e0)) as [|Hle]; [done|].
    pose proof (sum_add_weight _ _ I) as Hsum. unfold sum_current in Hsum.
    assert (zsum (currentWeight <$> (add_weight <$> entries b)) ≤ 0); [|lia].
    apply zsum_Forall_nonpos, Forall_fmap, Forall_forall. intros x Hx. simpl.
    specialize (Hmax x Hx). lia.
  - pose proof (inv_high _ _ I e0 Hin). pose proof (inv_weight_range _ _ I e0 Hin).
    assert (W ≤ Z.of_nat (length base) * W); [|lia].
    pose proof base_len. nia.
Qed.

Definition uses_swrr (b : Balancer) : Prop :=
  strategy b ≠ StrategyRoundRobin ∧ strategy b ≠ StrategyRandom ∧
  strategy b ≠ StrategyWeightedRandom.

Lemma Nexts_inv draws b vs :
  swrr_inv base (entries b) vs → totalWeight b = W → uses_swrr b →
  ∃ out es, Nexts b draws = Some (out, mkBalancer es W (rrIdx b) (strategy b)) ∧
    length out = length draws ∧ swrr_inv base es (vs ++ out).
Proof.
  revert b vs. induction draws as [|r draws IH]; intros b vs I Ht (H1 & H2 & H3).
  { exists [], (entries b). rewrite app_nil_r. simpl. split; [|done]. rewrite <- Ht. by destruct b. }
  cbn [Nexts]. unfold Next, Len. rewrite (inv_length _ _ I).
  pose proof base_len. destruct (Z.eqb_spec (Z.of_nat (length base)) 0); [lia|].
  destruct (Z.eqb_spec (strategy b) StrategyRoundRobin); [done|].
  destruct (Z.eqb_spec (strategy b) StrategyRandom); [done|].
  destruct (Z.eqb_spec (strategy b) StrategyWeightedRandom); [done|].
  destruct (nextSWRR_inv b vs I Ht) as (v & es & -> & I').
  destruct (IH (mkBalancer es W (rrIdx b) (strategy b)) _ I') as (out & es' & -> & Hlen & I''); [done|done|].
  exists (v :: out), es'. cbn [rrIdx strategy]. split; [done|]. split; [simpl; lia|].
  by rewrite <- app_assoc in I''.
Qed.

Lemma multiple_nonneg c d : 0 < c → - c < c * d → 0 ≤ c * d.
Proof. intros. assert (0 ≤ d) by nia. nia. Qed.

(** A whole cycle restores the counters. *)
Lemma cycle_zero es vs :
  swrr_inv base es vs → Z.of_nat (length vs) = W →
  ∀ e, e ∈ es → currentWeight e = 0 ∧ picks (value e) vs = weight e.
Proof.
  intros I Hk. pose proof W_pos as HW.
  assert (Hm : ∀ e, e ∈ es → currentWeight e = W * (weight e - picks (value e) vs)).
  { intros e He. rewrite (inv_count _ _ _ I e He), Hk. fold W. lia. }
  assert (Hnn : Forall (λ x, 0 ≤ x) (currentWeight <$> es)).
  { apply Forall_fmap, Forall_forall. intros e He. simpl.
    pose proof (inv_low _ _ _ I e He) as Hl. fold W in Hl. rewrite (Hm e He) in Hl |- *.
    by apply multiple_nonneg. }
  intros e He. assert (Hz : currentWeight e = 0).
  { pose proof (inv_zero _ _ _ I) as Hz. unfold sum_current in Hz.
    assert (Hin : currentWeight e ∈ currentWeight <$> es) by (by apply list_elem_of_fmap_2).
    rewrite Forall_forall in Hnn. pose proof (Hnn _ Hin). apply list_elem_of_lookup in Hin as [i Hi].
    rewrite <- Forall_forall in Hnn. pose proof (zsum_lookup_le _ i _ Hnn Hi). lia. }
  split; [done|]. rewrite (Hm e He) in Hz. apply Z.mul_eq_0 in Hz. lia.
Qed.
End cycle.

Lemma fresh_inv es : Forall (λ e, currentWeight e = 0) es → 0 < sum_weights es → swrr_inv es es [].
Proof.
  intros Hz HW. rewrite Forall_forall in Hz. split; [done| | |].
  - intros e He. rewrite Hz by done. unfold picks. simpl. lia.
  - intros e He. rewrite Hz by done. lia.
  - unfold sum_current. rewrite (zsum_const_ext _ 0); [lia|].
    apply Forall_fmap, Forall_forall. auto.
Qed.

Lemma same_shape_zero es es' :
  (λ e, (value e, weight e)) <$> es' = (λ e, (value e, weight e)) <$> es →
  (∀ e, e ∈ es' → currentWeight e = 0) → Forall (λ e, currentWeight e = 0) es → es' = es.
Proof.
  revert es. induction es' as [|e' es' IH]; intros [|e es] Hs Hz Hz'; try done.
  rewrite !fmap_cons in Hs. apply Forall_cons in Hz' as [? Hz']. injection Hs as Hv Hw Hs.
  f_equal; [|apply IH; auto; intros; apply Hz; by right].
  assert (currentWeight e' = 0) by (apply Hz; left). destruct e, e'; simpl in *. congruence.
Qed.

(** C39: starting from zero counters (a new balancer), any number [k] of
    picks of the smooth weighted round-robin succeeds without overflow; at every
    such moment each entry has received less than one pick more than its
    weighted share [k * weight / total] and is fewer than [Len] picks behind it;
    after [total] picks every entry has been chosen exactly [weight] times and
    the balancer is back in its initial state. *)
Theorem swrr_fair b draws :
  let k := Z.of_nat (length draws) in
  let W := sum_weights (entries b) in
  wf b → small b → entries b ≠ [] → uses_swrr b →
  Forall (λ e, currentWeight e = 0) (entries b) →
  ∃ vs b', Nexts b draws = Some (vs, b') ∧ length vs = length draws ∧
    (∀ e, e ∈ entries b →
      W * (picks (value e) vs - 1) < k * weight e ≤ W * (picks (value e) vs + Len b - 1)) ∧
    (k = W → b' = b ∧ ∀ e, e ∈ entries b → picks (value e) vs = weight e).
Proof.
  intros k W [Hid Hw Ht Hr] Hsm Hne Hu Hz. set (base := entries b) in *.
  pose proof (base_len base Hne) as Hlen1.
  pose proof (W_pos base Hid Hw Hne Hsm) as HW. fold W in HW.
  assert (HtW : totalWeight b = W).
  { rewrite Ht. apply i64_id. unfold small, Len in Hsm. fold base W in Hsm. unfold_int. nia. }
  pose proof (fresh_inv base Hz HW) as I.
  destruct (Nexts_inv base Hid Hw Hne Hsm draws b [] I HtW Hu) as (vs & es & HN & Hlen & I').
  simpl in I'. exists vs. eexists. split; [exact HN|]. split; [done|].
  assert (Hto : ∀ e, e ∈ base → ∃ e', e' ∈ es ∧ value e' = value e ∧ weight e' = weight e).
  { intros e He. assert (Hin : (value e, weight e) ∈ (λ e, (value e, weight e)) <$> es).
    { rewrite (inv_shape _ _ _ I'). apply list_elem_of_fmap. by exists e. }
    apply list_elem_of_fmap in Hin as (e' & ? & ?). exists e'. by simplify_eq. }
  split.
  - intros e (e' & He' & <- & <-)%Hto. pose proof (inv_count _ _ _ I' e' He') as Hc.
    pose proof (inv_low _ _ _ I' e' He') as Hlo.
    pose proof (inv_high base Hid Hw Hne Hsm es vs I' e' He') as Hhi.
    fold W in Hc, Hlo, Hhi. rewrite Hlen in Hc. fold k in Hc. unfold Len. fold base. lia.
  - intros Hk. assert (Hk' : Z.of_nat (length vs) = sum_weights base) by (rewrite Hlen; done).
    pose proof (cycle_zero base Hid Hw Hne Hsm es vs I' Hk') as Hcz. split.
    + rewrite (same_shape_zero base es (inv_shape _ _ _ I')); [|intros e He; by apply Hcz|done].
      unfold base. fold base W. rewrite <- HtW. by destruct b.
    + intros e (e' & He' & <- & <-)%Hto. by apply Hcz.
Qed.

(** ** Round-robin and the random strategies *)

(** The draw [r] makes [Next] select [v]. *)
Definition chosen (b : Balancer) (v : T) (r : Z) : bool :=
  match Next b r with Some (Some u, _) => bool_decide (id u = id v) | _ => false end.

(** How many of the draws [0 .. n-1] select [v]. *)
Definition draws_for (b : Balancer) (v : T) (n : Z) : Z :=
  Z.of_nat (length (filter (λ r, chosen b v r = true) (seqZ 0 n))).

Lemma weighted_loop_skip l1 l2 r cum :
  Forall (λ e, 0 < weight e) l1 → 0 ≤ cum → cum + sum_weights l1 ≤ max_i64 →
  cum + sum_weights l1 ≤ r → weighted_loop (l1 ++ l2) r cum = weighted_loop l2 r (cum + sum_weights l1).
Proof.
  intros Hw. revert cum. induction Hw as [|e l1 He Hw IH]; intros cum Hc Hs Hr.
  { unfold sum_weights. simpl. by rewrite Z.add_0_r. }
  unfold sum_weights in *. rewrite fmap_cons in *. cbn [zsum] in *. simpl.
  assert (0 ≤ zsum (weight <$> l1)).
  { apply zsum_Forall_nonneg, Forall_fmap. eapply Forall_impl; [done|]. simpl. lia. }
  rewrite i64_id by (unfold_int; lia). destruct (Z.ltb_spec r (cum + weight e)); [lia|].
  rewrite IH by lia. f_equal. lia.
Qed.

Lemma weighted_loop_hit l1 l2 r cum :
  Forall (λ e, 0 < weight e) l1 → 0 ≤ cum → cum + sum_weights l1 ≤ max_i64 →
  cum ≤ r < cum + sum_weights l1 → ∃ e, e ∈ l1 ∧ weighted_loop (l1 ++ l2) r cum = Some (value e).
Proof.
  intros Hw. revert cum. induction Hw as [|e l1 He Hw IH]; intros cum Hc Hs Hr.
  { unfold sum_weights in Hr. simpl in Hr. lia. }
  unfold sum_weights in *. rewrite fmap_cons in *. cbn [zsum] in *. simpl.
  assert (0 ≤ zsum (weight <$> l1)).
  { apply zsum_Forall_nonneg, Forall_fmap. eapply Forall_impl; [done|]. simpl. lia. }
  rewrite i64_id by (unfold_int; lia). destruct (Z.ltb_spec r (cum + weight e)).
  - exists e. split; [left|done].
  - destruct (IH (cum + weight e)) as (e' & ? & ?); [lia..|]. exists e'. split; [by right|done].
Qed.

Lemma holds_filter_id (f : Z → bool) l :
  Forall (λ r, f r = true) l → filter (λ r, f r = true) l = l.
Proof. induction 1 as [|x l Hx Hl IH]; [done|]. by rewrite filter_cons_True, IH. Qed.

Lemma fails_filter_nil (f : Z → bool) l :
  Forall (λ r, f r ≠ true) l → filter (λ r, f r = true) l = [].
Proof. induction 1 as [|x l Hx Hl IH]; [done|]. by rewrite filter_cons_False, IH. Qed.

Lemma count_interval (f : Z → bool) lo len rest :
  0 ≤ lo → 0 ≤ len → 0 ≤ rest →
  (∀ r, 0 ≤ r < lo + len + rest → f r = bool_decide (lo ≤ r < lo + len)) →
  Z.of_nat (length (filter (λ r, f r = true) (seqZ 0 (lo + len + rest)))) = len.
Proof.
  intros Hlo Hlen Hrest Hf.
  rewrite seqZ_app, seqZ_app, !filter_app, !length_app by lia.
  rewrite (fails_filter_nil f (seqZ 0 lo)), (fails_filter_nil f (seqZ (0 + (lo + len)) rest)),
    (holds_filter_id f (seqZ (0 + lo) len)).
  - rewrite length_seqZ. simpl. lia.
  - apply Forall_forall. intros r Hr%elem_of_seqZ. rewrite Hf by lia. apply bool_decide_eq_true. lia.
  - apply Forall_forall. intros r Hr%elem_of_seqZ. rewrite Hf, bool_decide_eq_true by lia. lia.
  - apply Forall_forall. intros r Hr%elem_of_seqZ. rewrite Hf, bool_decide_eq_true by lia. lia.
Qed.

Section choices.
Context (b : Balancer) (Hb : wf b) (Hne : entries b ≠ []) (HW : sum_weights (entries b) ≤ max_i64).

Lemma total_pos : 0 < totalWeight b ∧ totalWeight b = sum_weights (entries b).
Proof.
  destruct Hb as [_ Hw Ht _]. rewrite Ht. clear Ht Hb.
  assert (0 < sum_weights (entries b)).
  { destruct (entries b) as [|e es]; [done|]. apply Forall_cons in Hw as [He Hes].
    unfold sum_weights. rewrite fmap_cons. cbn [zsum]. assert (0 ≤ zsum (weight <$> es)); [|lia].
    apply zsum_Forall_nonneg, Forall_fmap. eapply Forall_impl; [done|]. simpl. lia. }
  rewrite i64_id; [done|]. unfold_int. lia.
Qed.

Lemma Len_pos : (Len b =? 0) = false.
Proof using Hne. clear -Hne. unfold Len. apply Z.eqb_neq. destruct (entries b); [done|simpl; lia]. Qed.

Lemma id_split l1 e l2 e' : entries b = l1 ++ e :: l2 → e' ∈ l1 ++ l2 → id (value e') ≠ id (value e).
Proof.
  intros He Hin. destruct Hb as [Hid _ _ _]. rewrite He, <- Permutation_middle, fmap_cons in Hid.
  apply NoDup_cons in Hid as [Hn _]. intros Heq. apply Hn. apply list_elem_of_fmap. by exists e'.
Qed.

Lemma weighted_chosen l1 e l2 r :
  strategy b = StrategyWeightedRandom → entries b = l1 ++ e :: l2 → 0 ≤ r < totalWeight b →
  chosen b (value e) r = bool_decide (sum_weights l1 ≤ r < sum_weights l1 + weight e).
Proof.
  intros Hs He Hr. destruct total_pos as [Hp Ht]. unfold chosen, Next. rewrite Len_pos, Hs. simpl.
  destruct (Z.leb_spec (totalWeight b) 0); [lia|]. unfold nextWeightedRandom.
  pose proof (wf_weights _ Hb) as Hw. rewrite He in *. rewrite Ht in Hr.
  apply Forall_app in Hw as [Hw1 Hw2]. pose proof Hw2 as [Hwe Hw3]%Forall_cons.
  assert (Hsum : ∀ l l', sum_weights (l ++ l') = sum_weights l + sum_weights l').
  { intros. unfold sum_weights. by rewrite fmap_app, zsum_app. }
  assert (Hone : sum_weights [e] = weight e) by (unfold sum_weights; simpl; lia).
  assert (Hnn : ∀ l, Forall (λ e, 0 < weight e) l → 0 ≤ sum_weights l).
  { intros l Hl. apply zsum_Forall_nonneg, Forall_fmap. eapply Forall_impl; [done|]. simpl. lia. }
  pose proof (Hnn _ Hw1). pose proof (Hnn _ Hw3).
  rewrite (Hsum l1 (e :: l2)) in *. change (e :: l2) with ([e] ++ l2) in *. rewrite (Hsum [e] l2), Hone in *.
  destruct (Z.lt_ge_cases r (sum_weights l1)) as [Hlt|Hge].
  - destruct (weighted_loop_hit l1 ([e] ++ l2) r 0 Hw1) as (e' & Hin & ->); [lia..|].
    rewrite !bool_decide_eq_false_2; [done|lia|]. eapply id_split; [done|set_solver].
  - rewrite weighted_loop_skip by (done || lia). rewrite Z.add_0_l.
    destruct (Z.lt_ge_cases r (sum_weights l1 + weight e)) as [Hlt|Hge2].
    + destruct (weighted_loop_hit [e] l2 r (sum_weights l1)) as (e' & ->%list_elem_of_singleton & ->);
        [by apply Forall_singleton|lia..|]. by rewrite !bool_decide_eq_true_2 by (done || lia).
    + rewrite weighted_loop_skip; [|by apply Forall_singleton|lia..].
      destruct (weighted_loop_hit l2 [] r (sum_weights l1 + sum_weights [e]) Hw3) as (e' & Hin & Hl); [lia..|].
      rewrite app_nil_r in Hl. rewrite Hl.
      rewrite !bool_decide_eq_false_2; [done|lia|]. eapply id_split; [done|set_solver].
Qed.

Lemma random_chosen i e r :
  strategy b = StrategyRandom → entries b !! i = Some e → 0 ≤ r < Len b →
  chosen b (value e) r = bool_decide (Z.of_nat i ≤ r < Z.of_nat i + 1).
Proof.
  intros Hs Hi Hr. unfold chosen, Next. rewrite Len_pos, Hs. simpl. unfold nextRandom, Len in *.
  destruct (entries b !! Z.to_nat r) as [e'|] eqn:He'; [|apply lookup_ge_None in He'; lia].
  apply bool_decide_ext. split.
  - intros Hid. assert (Z.to_nat r = i); [|lia].
    eapply (NoDup_lookup _ _ _ (id (value e)) (wf_ids _ Hb)); rewrite list_lookup_fmap, ?Hi, ?He'; simpl; congruence.
  - intros Hri. replace (Z.to_nat r) with i in He' by lia. congruence.
Qed.

Definition rr_start (b : Balancer) : Z := if Len b <=? rrIdx b then 0 else rrIdx b.
End choices.

Lemma round_robin_order draws b :
  wf b → entries b ≠ [] → strategy b = StrategyRoundRobin →
  ∃ vs b', Nexts b draws = Some (vs, b') ∧ length vs = length draws ∧
    ∀ i, (i < length draws)%nat →
      vs !! i = value <$> entries b !! Z.to_nat ((rr_start b + Z.of_nat i) mod Len b).
Proof.
  revert b. induction draws as [|r draws IH]; intros b Hb Hne Hs; [exists [], b; simpl; split_and!; auto with lia|].
  cbn [Nexts]. unfold Next. rewrite Len_pos, Hs by done. simpl. unfold nextRoundRobin. fold (rr_start b).
  assert (HN : 0 < Len b) by (unfold Len; destruct (entries b); [done|simpl; lia]).
  assert (Hst : 0 ≤ rr_start b < Len b).
  { unfold rr_start. pose proof (wf_rr _ Hb). destruct (Z.leb_spec (Len b) (rrIdx b)); lia. }
  destruct (entries b !! Z.to_nat (rr_start b)) as [e|] eqn:He.
  2: { apply lookup_ge_None in He. unfold Len in *. lia. }
  set (b1 := mkBalancer (entries b) (totalWeight b) (rr_start b + 1) (strategy b)).
  change (mkBalancer _ _ _ _) with b1.
  destruct (IH b1) as (vs & b' & -> & Hlen & Hvs); [|done|done|].
  { destruct Hb as [? ? ? ?]. split; simpl; auto; lia. }
  assert (Hst1 : rr_start b1 = (rr_start b + 1) mod Len b).
  { unfold rr_start at 1. change (Len b1) with (Len b).
    change (rrIdx b1) with (rr_start b + 1).
    destruct (Z.leb_spec (Len b) (rr_start b + 1)).
    - replace (rr_start b + 1) with (Len b) by lia. by rewrite Z.mod_same by lia.
    - by rewrite Z.mod_small by lia. }
  exists (value e :: vs), b'. split; [done|]. split; [simpl; lia|]. intros [|i] Hi.
  - rewrite Z.add_0_r, Z.mod_small by lia. by rewrite He.
  - simpl. rewrite Hvs by (simpl in Hi; lia). change (Len b1) with (Len b). change (entries b1) with (entries b).
    rewrite Hst1, Zplus_mod_idemp_l.
    by replace (rr_start b + 1 + Z.of_nat i) with (rr_start b + Z.of_nat (S i)) by lia.
Qed.

(** The other strategies are fair in their own sense: of the [totalWeight]
    equally likely draws of the weighted random strategy exactly [weight] select
    an entry, of the [Len] draws of the random strategy exactly one does, and
    round-robin returns the entries in order, wrapping around. *)
Theorem balancer_draws b :
  wf b → entries b ≠ [] → sum_weights (entries b) ≤ max_i64 →
  (strategy b = StrategyWeightedRandom → ∀ e, e ∈ entries b →
    draws_for b (value e) (totalWeight b) = weight e) ∧
  (strategy b = StrategyRandom → ∀ e, e ∈ entries b → draws_for b (value e) (Len b) = 1) ∧
  (strategy b = StrategyRoundRobin → ∀ draws, ∃ vs b',
    Nexts b draws = Some (vs, b') ∧ length vs = length draws ∧
    ∀ i, (i < length draws)%nat →
      vs !! i = value <$> entries b !! Z.to_nat ((rr_start b + Z.of_nat i) mod Len b)).
Proof.
  intros Hb Hne HW. split; [|split].
  - intros Hs e (l1 & l2 & He)%list_elem_of_split. destruct (total_pos b Hb Hne HW) as [_ Ht].
    pose proof (wf_weights _ Hb) as Hw. rewrite He in Hw. apply Forall_app in Hw as [Hw1 [Hwe Hw2]%Forall_cons].
    assert (Hnn : ∀ l, Forall (λ e, 0 < weight e) l → 0 ≤ sum_weights l).
    { intros l Hl. apply zsum_Forall_nonneg, Forall_fmap. eapply Forall_impl; [done|]. simpl. lia. }
    assert (Hsum : totalWeight b = sum_weights l1 + weight e + sum_weights l2).
    { rewrite Ht, He. unfold sum_weights. rewrite fmap_app, fmap_cons, zsum_app. cbn [zsum]. lia. }
    unfold draws_for. rewrite Hsum. apply count_interval; auto with lia.
    intros r Hr. by apply (weighted_chosen b Hb Hne HW l1 e l2); [| |rewrite Hsum].
  - intros Hs e [i Hi]%list_elem_of_lookup. unfold draws_for.
    pose proof (lookup_lt_Some _ _ _ Hi). unfold Len.
    replace (Z.of_nat (length (entries b))) with (Z.of_nat i + 1 + (Z.of_nat (length (entries b)) - Z.of_nat i - 1)) by lia.
    apply count_interval; [lia..|]. intros r Hr. apply (random_chosen b Hb Hne); [done|done|].
    unfold Len. lia.
  - intros Hs draws. by apply round_robin_order.
Qed.

(** Every balancer built by [New] and changed by [Add] and [Remove] is well
    formed, and a new one has zero counters. *)
Lemma balancer_New_wf es s :
  wf (New es [WithStrategy s]) ∧ Forall (λ e, currentWeight e = 0) (entries (New es [WithStrategy s])).
Proof.
  unfold New, WithStrategy. cbn [fold_left].
  assert (H : ∀ b0, wf b0 ∧ Forall (λ e, currentWeight e = 0) (entries b0) →
    wf (fold_left addLocked es b0) ∧ Forall (λ e, currentWeight e = 0) (entries (fold_left addLocked es b0))).
  { induction es as [|e es IH]; intros b0 [Hb Hz]; [done|]. apply IH. split; [by apply addLocked_wf|].
    unfold addLocked. pose proof (replace_entry_spec (entries b0) (Value e) (if Weight e <=? 0 then 1 else Weight e)) as Hs.
    destruct (replace_entry _ _ _) as [[es' old]|]; simpl.
    - destruct Hs as (l1 & ex & l2 & He & -> & _). rewrite He in Hz.
      rewrite Forall_app, Forall_cons in *. naive_solver.
    - rewrite Forall_app, Forall_singleton. done. }
  destruct (H (mkBalancer [] 0 0 StrategySmoothWeightedRR)) as [Hb Hz].
  { split; [|constructor]. split; simpl; [constructor|constructor|done|done]. }
  destruct Hb as [H1 H2 H3 H4]. split; [split; simpl; done|done].
Qed.
End balancer.


(** The example of the package's documentation: weights 5, 1, 1. *)
Definition abc (s : Z) : Balancer :=
  New (λ v : string, v) [mkEntry "a" 5; mkEntry "b" 1; mkEntry "c" 1]%string [WithStrategy s].

Lemma swrr_fair_witness :
  Nexts (abc 0) (replicate 7 0) = Some (["a"; "a"; "b"; "a"; "c"; "a"; "a"]%string, abc 0) ∧
  ∃ vs b', Nexts (abc 0) (replicate 7 0) = Some (vs, b') ∧ b' = abc 0.
Proof.
  split; [reflexivity|].
  destruct (balancer_New_wf (λ v : string, v) [mkEntry "a" 5; mkEntry "b" 1; mkEntry "c" 1]%string 0) as [Hb Hz].
  destruct (swrr_fair (λ v : string, v) (abc 0) (replicate 7 0) Hb) as (vs & b' & HN & _ & _ & Hcycle).
  - vm_compute. discriminate.
  - vm_compute. discriminate.
  - repeat split; vm_compute; discriminate.
  - exact Hz.
  - exists vs, b'. split; [exact HN|]. by apply Hcycle.
Defined.

Lemma balancer_draws_witness :
  draws_for (λ v : string, v) (abc 3) "a"%string 7 = 5 ∧ draws_for (λ v : string, v) (abc 2) "c"%string 3 = 1.
Proof.
  destruct (balancer_New_wf (λ v : string, v) [mkEntry "a" 5; mkEntry "b" 1; mkEntry "c" 1]%string 3) as [Hb3 _].
  destruct (balancer_New_wf (λ v : string, v) [mkEntry "a" 5; mkEntry "b" 1; mkEntry "c" 1]%string 2) as [Hb2 _].
  destruct (balancer_draws (λ v : string, v) (abc 3) Hb3) as (H3 & _ & _); [vm_compute; discriminate..|].
  destruct (balancer_draws (λ v : string, v) (abc 2) Hb2) as (_ & H2 & _); [vm_compute; discriminate..|].
  split.
  - apply (H3 eq_refl (mk_entry "a"%string 5 0)). left.
  - apply (H2 eq_refl (mk_entry "c"%string 1 0)). right. right. left.
Defined.

(** [Add] for an id that is present changes the weight and keeps the old value,
    where its doc speaks of replacing the entry. *)
Example add_keeps_value :
  let b := Add fst (New fst [mkEntry ("x"%string, 1) 2] []) (mkEntry ("x"%string, 99) 7) in
  All b = [mkEntry ("x"%string, 1) 7].
Proof. reflexivity. Qed.
