(* ===== verification/ConsistentHash.v ===== *)
(** * ConsistentHash: rendezvous hashing of [consistenthash/consistenthash.go]

    A map is a hash function and a list of nodes; strings are byte lists.  The
    scratch buffer that [Get] and [GetN] borrow from a [sync.Pool] is modelled
    with its old contents, so that the independence of the score from them is a
    theorem ([scoreNode_spec]).

    Shown for every hash function: [Get] selects the first node of maximal
    score, membership changes move no key they need not move
    ([rendezvous_stability]), and [GetN] returns distinct nodes in descending
    score order whose first is [Get]'s and whose second takes over when the first
    is removed ([rendezvous_replicas]). *)

From Stdlib Require Import ZArith Lia.
From stdpp Require Import base tactics numbers list sets sorting.
From S2P Require Import Prelude GoStd.

#[local] Open Scope Z_scope.

(** [DefaultHash] *)
Definition DefaultHash (data : list Z) : Z := fnv64a data.

Section map.
Context {T : Type} (id : T → list Z).

Record Map := mkMap { hash : list Z → Z; nodes : list T }.

Definition containsLocked (m : Map) (nid : list Z) : bool :=
  existsb (λ n, bool_decide (id n = nid)) (nodes m).

Definition append1 (m : Map) (n : T) : Map :=
  if containsLocked m (id n) then m else mkMap (hash m) (nodes m ++ [n]).
Definition appendDedupLocked (m : Map) (ns : list T) : Map := fold_left append1 ns m.

Definition WithHash (h : list Z → Z) (m : Map) : Map := mkMap h (nodes m).
Definition WithNodes (ns : list T) (m : Map) : Map := appendDedupLocked m ns.
Definition New (opts : list (Map → Map)) : Map :=
  fold_left (λ m opt, opt m) opts (mkMap DefaultHash []).

Definition Add (m : Map) (ns : list T) : Map := appendDedupLocked m ns.

Definition Remove (m : Map) (node : T) : Map :=
  mkMap (hash m) (filter (λ n, id n ≠ id node) (nodes m)).

Definition Len (m : Map) : Z := Z.of_nat (length (nodes m)).

(** [copy(dst[off:], src)] into a long enough slice. *)
Definition copy_at (off : nat) (src dst : list Z) : list Z :=
  take off dst ++ src ++ drop (off + length src) dst.

(** [buf]: the bytes of the scratch slice up to its capacity. *)
Definition scoreNode (m : Map) (buf : list Z) (node : T) (key : list Z) : list Z * Z :=
  let nodeID := id node in
  let n := (length nodeID + length key)%nat in
  let buf := if (length buf <? n)%nat then replicate (n * 2) 0 else buf in
  let buf := copy_at 0 nodeID buf in
  let buf := copy_at (length nodeID) key buf in
  (buf, hash m (take n buf)).

(** [v]: what the pool returns. *)
Definition acquireScratch (v : option (list Z)) : list Z :=
  match v with None => replicate 64 0 | Some b => b end.

Fixpoint get_loop (m : Map) (ns : list T) (buf key : list Z) (best : option (T * Z))
    : list Z * option (T * Z) :=
  match ns with
  | [] => (buf, best)
  | n :: ns =>
      let '(buf, score) := scoreNode m buf n key in
      let best :=
        match best with
        | None => Some (n, score)
        | Some (_, bestScore) => if bestScore <? score then Some (n, score) else best
        end in
      get_loop m ns buf key best
  end.

(** The node, and the buffer given back to the pool. *)
Definition Get (m : Map) (v : option (list Z)) (key : list Z) : option T * option (list Z) :=
  match nodes m with
  | [] => (None, v)
  | ns => let '(buf, best) := get_loop m ns (acquireScratch v) key None in (fst <$> best, Some buf)
  end.

Fixpoint score_loop (m : Map) (ns : list T) (buf key : list Z) : list Z * list (T * Z) :=
  match ns with
  | [] => (buf, [])
  | n :: ns =>
      let '(buf, score) := scoreNode m buf n key in
      let '(buf, rest) := score_loop m ns buf key in (buf, (n, score) :: rest)
  end.

(** [max := i; for j := i+1; j < len(scores); j++ ...]: [l] is [scores[j:]]. *)
Fixpoint max_loop (l : list (T * Z)) (j max : nat) (maxScore : Z) : nat :=
  match l with
  | [] => max
  | (_, s) :: l => if maxScore <? s then max_loop l (S j) j s else max_loop l (S j) max maxScore
  end.

Definition swap (i j : nat) (l : list (T * Z)) : list (T * Z) :=
  match l !! i, l !! j with
  | Some a, Some b => <[j := a]> (<[i := b]> l)
  | _, _ => l
  end.

(** [for i := range n]: [k] iterations are left. *)
Fixpoint select_loop (k i : nat) (scores : list (T * Z)) : list (T * Z) :=
  match k with
  | O => scores
  | S k =>
      match scores !! i with
      | None => scores
      | Some (_, s) => select_loop k (S i) (swap i (max_loop (drop (S i) scores) (S i) i s) scores)
      end
  end.

Definition GetN (m : Map) (v : option (list Z)) (key : list Z) (n : Z) : list T * option (list Z) :=
  match nodes m with
  | [] => ([], v)
  | ns =>
      if n <=? 0 then ([], v)
      else
        let '(buf, scores) := score_loop m ns (acquireScratch v) key in
        let n := if Z.of_nat (length scores) <? n then Z.of_nat (length scores) else n in
        (fst <$> take (Z.to_nat n) (select_loop (Z.to_nat n) 0 scores), Some buf)
  end.

(** ** Specification *)

Definition score (m : Map) (key : list Z) (n : T) : Z := hash m (id n ++ key).
Definition ids (m : Map) : list (list Z) := id <$> nodes m.
Definition wf (m : Map) : Prop := NoDup (ids m).

(** The first node of maximal score. *)
Definition first_max (f : T → Z) (ns : list T) (o : T) : Prop :=
  ∃ l1 l2, ns = l1 ++ o :: l2 ∧ Forall (λ x, f x < f o) l1 ∧ Forall (λ x, f x ≤ f o) l2.

(** ** The scratch buffer does not matter *)

Lemma copy_at_length off src dst :
  (off + length src ≤ length dst)%nat → length (copy_at off src dst) = length dst.
Proof. intros. unfold copy_at. rewrite !length_app, length_take, length_drop. lia. Qed.

Lemma scoreNode_spec m buf n key : (scoreNode m buf n key).2 = score m key n.
Proof.
  unfold scoreNode, score. cbv zeta. simpl. 
  set (b0 := if (length buf <? length (id n) + length key)%nat then _ else buf).
  assert (Hb : (length (id n) + length key ≤ length b0)%nat).
  { subst b0. destruct (Nat.ltb_spec (length buf) (length (id n) + length key)); [|done].
    rewrite length_replicate. lia. }
  f_equal. unfold copy_at. rewrite take_0, app_nil_l, Nat.add_0_l.
  rewrite take_app_length, app_assoc. apply take_app_length'. by rewrite length_app.
Qed.

Lemma get_loop_spec m ns buf key best :
  (∀ n s, best = Some (n, s) → s = score m key n) →
  match (get_loop m ns buf key best).2 with
  | None => ns = [] ∧ best = None
  | Some (o, s) => s = score m key o ∧
      match best with
      | None => first_max (score m key) ns o
      | Some (b, _) =>
          (o = b ∧ Forall (λ x, score m key x ≤ score m key b) ns) ∨
          (first_max (score m key) ns o ∧ score m key b < score m key o)
      end
  end.
Proof.
  revert buf best. induction ns as [|n ns IH]; intros buf best Hbest; cbn [get_loop].
  { destruct best as [[b s]|]; [|done]. split; [by apply Hbest|]. left. split; [done|constructor]. }
  pose proof (scoreNode_spec m buf n key) as Hs.
  destruct (scoreNode m buf n key) as [buf' s]. simpl in Hs. subst s.
  destruct best as [[b sb]|].
  - specialize (Hbest b sb eq_refl) as ->.
    destruct (Z.ltb_spec (score m key b) (score m key n)) as [Hlt|Hle].
    + specialize (IH buf' (Some (n, score m key n)) ltac:(naive_solver)).
      destruct (get_loop m ns buf' key _).2 as [[o s]|]; [|by destruct IH].
      destruct IH as (-> & Hor). split; [done|]. right.
      destruct Hor as [(-> & Hall)|[(l1 & l2 & -> & H1 & H2) Hlt2]].
      * split; [|lia]. exists [], ns. by repeat split.
      * split; [|lia]. exists (n :: l1), l2. split; [done|]. split; [constructor; [lia|done]|done].
    + specialize (IH buf' (Some (b, score m key b)) ltac:(naive_solver)).
      destruct (get_loop m ns buf' key _).2 as [[o s]|]; [|by destruct IH].
      destruct IH as (-> & Hor). split; [done|].
      destruct Hor as [(-> & Hall)|[(l1 & l2 & -> & H1 & H2) Hlt2]]; [left|right].
      * split; [done|]. by constructor.
      * split; [|done]. exists (n :: l1), l2. split; [done|]. split; [constructor; [lia|done]|done].
  - specialize (IH buf' (Some (n, score m key n)) ltac:(naive_solver)).
    destruct (get_loop m ns buf' key _).2 as [[o s]|]; [|by destruct IH].
    destruct IH as (-> & Hor). split; [done|].
    destruct Hor as [(-> & Hall)|[(l1 & l2 & -> & H1 & H2) Hlt2]].
    * exists [], ns. by repeat split.
    * exists (n :: l1), l2. split; [done|]. split; [constructor; [lia|done]|done].
Qed.

Lemma Get_argmax m v key :
  match (Get m v key).1 with
  | None => nodes m = []
  | Some o => first_max (score m key) (nodes m) o
  end.
Proof.
  unfold Get. destruct (nodes m) as [|n ns] eqn:Hn; [done|].
  pose proof (get_loop_spec m (n :: ns) (acquireScratch v) key None) as H.
  destruct (get_loop m (n :: ns) _ key None) as [buf best]. simpl in *.
  specialize (H ltac:(done)). destruct best as [[o s]|]; simpl; [by destruct H|by destruct H].
Qed.

(** ** First maxima *)

Lemma first_max_cons f x ns o :
  first_max f (x :: ns) o ↔
  (o = x ∧ Forall (λ y, f y ≤ f x) ns) ∨ (first_max f ns o ∧ f x < f o).
Proof.
  split.
  - intros ([|a l1] & l2 & He & H1 & H2); simplify_eq/=; [by left|right].
    apply Forall_cons in H1 as [? ?]. split; [|done]. by exists l1, l2.
  - intros [(-> & Hall)|[(l1 & l2 & -> & H1 & H2) Hlt]].
    + exists [], ns. by repeat split.
    + exists (x :: l1), l2. split; [done|]. split; [by constructor|done].
Qed.

Lemma first_max_elem f ns o : first_max f ns o → o ∈ ns.
Proof. intros (l1 & l2 & -> & _). set_solver. Qed.

Lemma first_max_ge f ns o x : first_max f ns o → x ∈ ns → f x ≤ f o.
Proof.
  intros (l1 & l2 & -> & H1 & H2) Hx. rewrite Forall_forall in H1. rewrite Forall_forall in H2.
  apply elem_of_app in Hx as [Hx|[->|Hx]%elem_of_cons]; [|lia|auto]. apply H1 in Hx. lia.
Qed.

Lemma first_max_unique f ns a c : first_max f ns a → first_max f ns c → a = c.
Proof.
  revert a c. induction ns as [|x ns IH]; intros a c.
  { intros Ha%first_max_elem. by apply elem_of_nil in Ha. }
  rewrite !first_max_cons. intros [(-> & Ha)|[Ha Hlt]] [(-> & Hc)|[Hc Hlt']]; [done| | |by apply IH].
  - rewrite Forall_forall in Ha. apply first_max_elem, Ha in Hc. lia.
  - rewrite Forall_forall in Hc. apply first_max_elem, Hc in Ha. lia.
Qed.

Lemma first_max_app f ns ys o : first_max f (ns ++ ys) o → first_max f ns o ∨ o ∈ ys.
Proof.
  induction ns as [|x ns IH]; [intros H; right; by eapply first_max_elem|].
  rewrite <- app_comm_cons, !first_max_cons. intros [(-> & H)|[H Hlt]].
  - left. left. apply Forall_app in H as [? _]. done.
  - destruct (IH H); [left; by right|by right].
Qed.

Lemma first_max_filter f (P : T → Prop) `{∀ x, Decision (P x)} ns o :
  first_max f ns o → P o → first_max f (filter P ns) o.
Proof.
  intros (l1 & l2 & -> & H1 & H2) Ho. rewrite filter_app, filter_cons_True by done.
  assert (Hf : ∀ (Q : T → Prop) l, Forall Q l → Forall Q (filter P l)).
  { intros Q l. rewrite !Forall_forall. intros HQ x [_ Hx]%list_elem_of_filter. auto. }
  exists (filter P l1), (filter P l2). auto.
Qed.

Lemma Get_first_max m v key o : first_max (score m key) (nodes m) o → (Get m v key).1 = Some o.
Proof.
  intros Ho. pose proof (Get_argmax m v key) as H. destruct (Get m v key).1 as [o'|].
  - f_equal. by eapply first_max_unique.
  - rewrite H in Ho. apply first_max_elem in Ho. by apply elem_of_nil in Ho.
Qed.

Lemma Get_Some m v key o : (Get m v key).1 = Some o → first_max (score m key) (nodes m) o.
Proof. intros Ho. pose proof (Get_argmax m v key) as H. by rewrite Ho in H. Qed.

(** ** Membership *)

Lemma containsLocked_spec m nid : containsLocked m nid = true ↔ nid ∈ ids m.
Proof.
  unfold containsLocked, ids. rewrite existsb_exists, list_elem_of_fmap. split.
  - intros (n & Hn & ?%bool_decide_eq_true). exists n. by rewrite list_elem_of_In.
  - intros (n & -> & Hn). exists n. rewrite <- list_elem_of_In, bool_decide_eq_true. done.
Qed.

Lemma Add_appends m xs : ∃ ys, nodes (Add m xs) = nodes m ++ ys ∧ hash (Add m xs) = hash m ∧
  (∀ y, y ∈ ys → y ∈ xs ∧ id y ∉ ids m) ∧ (wf m → wf (Add m xs)).
Proof.
  unfold Add, appendDedupLocked. revert m. induction xs as [|x xs IH]; intros m; simpl.
  { exists []. rewrite app_nil_r. split; [done|]. split; [done|]. split; [by intros ? ?%elem_of_nil|done]. }
  destruct (IH (append1 m x)) as (ys & Hn & Hh & Hin & Hwf). unfold append1 in *.
  destruct (containsLocked m (id x)) eqn:Hc.
  { exists ys. split; [done|]. split; [done|]. split; [|done]. intros y Hy. apply Hin in Hy as [? ?].
    split; [by right|done]. }
  assert (Hx : id x ∉ ids m) by (rewrite <- containsLocked_spec, Hc; done).
  exists (x :: ys). rewrite Hn, Hh. simpl. rewrite <- app_assoc. split; [done|]. split; [done|]. split.
  - intros y [->|Hy]%elem_of_cons; [split; [by left|done]|]. apply Hin in Hy as [? Hy]. split; [by right|].
    intros Hm. apply Hy. unfold ids in *. simpl. rewrite fmap_app. by apply elem_of_app; left.
  - intros Hm. apply Hwf. unfold wf, ids in *. simpl. rewrite fmap_app. apply NoDup_app.
    split; [done|]. split; [|apply NoDup_singleton]. by intros y Hy ->%list_elem_of_singleton.
Qed.

(** Whatever the hash function and the contents of the scratch buffers, [Get]
    picks the first node of maximal [hash(id || key)] and nothing else; adding
    nodes moves a key only onto a node that was added; removing a node moves
    only the keys that node owned. *)
Theorem rendezvous_stability m v v' key :
  match (Get m v key).1 with
  | None => nodes m = []
  | Some o => first_max (λ n, hash m (id n ++ key)) (nodes m) o
  end ∧
  (∀ xs o, (Get (Add m xs) v key).1 = Some o →
    (Get m v' key).1 = Some o ∨ (o ∈ xs ∧ id o ∉ ids m)) ∧
  (∀ x o, (Get m v key).1 = Some o → id o ≠ id x → (Get (Remove m x) v' key).1 = Some o) ∧
  (∀ x o, (Get (Remove m x) v key).1 = Some o → id o ≠ id x).
Proof.
  split; [apply Get_argmax|]. split; [|split].
  - intros xs o Ho%Get_Some. destruct (Add_appends m xs) as (ys & Hn & Hh & Hin & _).
    unfold score in Ho. rewrite Hn, Hh in Ho. apply first_max_app in Ho as [Ho|Ho]; [left|right; auto].
    by apply Get_first_max.
  - intros x o Ho%Get_Some Hne. apply Get_first_max. simpl. by apply first_max_filter.
  - intros x o Ho%Get_Some%first_max_elem. simpl in Ho. by apply list_elem_of_filter in Ho as [? _].
Qed.

(** ** Replicas *)

Lemma score_loop_spec m ns buf key :
  (score_loop m ns buf key).2 = (λ n, (n, score m key n)) <$> ns.
Proof.
  revert buf. induction ns as [|n ns IH]; intros buf; cbn [score_loop]; [done|].
  pose proof (scoreNode_spec m buf n key) as Hs. destruct (scoreNode m buf n key) as [buf' s].
  specialize (IH buf'). destruct (score_loop m ns buf' key) as [buf'' rest]. simpl in *. by subst.
Qed.

Lemma max_loop_spec l j mx s :
  (max_loop l j mx s = mx ∧ Forall (λ p, p.2 ≤ s) l) ∨
  (∃ a y c, l = a ++ y :: c ∧ max_loop l j mx s = (j + length a)%nat ∧ s < y.2 ∧
    Forall (λ p, p.2 < y.2) a ∧ Forall (λ p, p.2 ≤ y.2) c).
Proof.
  revert j mx s. induction l as [|[n s'] l IH]; intros j mx s; simpl; [by left|].
  destruct (Z.ltb_spec s s') as [Hlt|Hle].
  - right. destruct (IH (S j) j s') as [[-> Hall]|(a & y & c & -> & -> & Hy & Ha & Hc)].
    + exists [], (n, s'), l. simpl. split; [done|]. split; [lia|]. done.
    + exists ((n, s') :: a), y, c. simpl. split; [done|]. split; [lia|]. split; [lia|].
      split; [constructor; [done|done]|done].
  - destruct (IH (S j) mx s) as [[-> Hall]|(a & y & c & -> & -> & Hy & Ha & Hc)]; [left|right].
    + split; [done|]. by constructor.
    + exists ((n, s') :: a), y, c. simpl. split; [done|]. split; [lia|]. split; [done|].
      split; [constructor; [simpl; lia|done]|done].
Qed.

Lemma swap_same i l : swap i i l = l.
Proof.
  unfold swap. destruct (l !! i) as [a|] eqn:Hi; [|done].
  rewrite list_insert_insert_eq. by apply list_insert_id.
Qed.

Lemma swap_app pre x a y c :
  swap (length pre) (S (length pre) + length a) (pre ++ x :: a ++ y :: c) = pre ++ y :: a ++ x :: c.
Proof.
  unfold swap. rewrite list_lookup_middle by done.
  replace (S (length pre) + length a)%nat with (length pre + S (length a))%nat by lia.
  rewrite lookup_app_r by lia. replace (length pre + S (length a) - length pre)%nat with (S (length a)) by lia.
  simpl. rewrite list_lookup_middle by done.
  rewrite <- (Nat.add_0_r (length pre)) at 2. rewrite !insert_app_r. simpl.
  rewrite <- (Nat.add_0_r (length a)), insert_app_r. done.
Qed.

(** What [k] rounds of the selection do to the part behind position [length pre]. *)
Record selected (k : nat) (rest sel rest' : list (T * Z)) : Prop := {
  sel_len : length sel = k;
  sel_perm : sel ++ rest' ≡ₚ rest;
  sel_sorted : StronglySorted (λ p q, q.2 ≤ p.2) sel;
  sel_above : ∀ p q, p ∈ sel → q ∈ rest' → q.2 ≤ p.2;
  sel_head : (0 < k)%nat → ∃ p a c, head sel = Some p ∧ rest = a ++ p :: c ∧
    Forall (λ q, q.2 < p.2) a ∧ Forall (λ q, q.2 ≤ p.2) c }.

Lemma select_step pre x l :
  ∃ y l', swap (length pre) (max_loop l (S (length pre)) (length pre) x.2) (pre ++ x :: l) = pre ++ y :: l' ∧
    y :: l' ≡ₚ x :: l ∧ Forall (λ q, q.2 ≤ y.2) l' ∧
    ∃ a c, x :: l = a ++ y :: c ∧ Forall (λ q, q.2 < y.2) a ∧ Forall (λ q, q.2 ≤ y.2) c.
Proof.
  destruct (max_loop_spec l (S (length pre)) (length pre) x.2)
    as [[-> Hall]|(a & y & c & -> & -> & Hy & Ha & Hc)].
  - exists x, l. rewrite swap_same. split; [done|]. split; [done|]. split; [done|]. by exists [], l.
  - exists y, (a ++ x :: c). rewrite swap_app. split; [done|]. split; [solve_Permutation|]. split.
    + rewrite Forall_app, Forall_cons. split; [|split; [lia|done]].
      eapply Forall_impl; [done|]. simpl. lia.
    + exists (x :: a), c. split; [done|]. split; [by constructor|done].
Qed.

Lemma select_loop_spec k pre rest :
  (k ≤ length rest)%nat →
  ∃ sel rest', select_loop k (length pre) (pre ++ rest) = pre ++ sel ++ rest' ∧ selected k rest sel rest'.
Proof.
  revert pre rest. induction k as [|k IH]; intros pre rest Hk.
  { exists [], rest. split; [done|]. split; [done|done|constructor|by intros ? ? ?%elem_of_nil|lia]. }
  destruct rest as [|x l]; [simpl in Hk; lia|]. cbn [select_loop].
  rewrite list_lookup_middle by done. destruct x as [n s].
  replace (drop (S (length pre)) (pre ++ (n, s) :: l)) with l.
  2: { rewrite cons_middle, app_assoc, drop_app_length'; [done|]. rewrite length_app. simpl. lia. }
  destruct (select_step pre (n, s) l) as (y & l' & Hsw & Hp & Hmax & a & c & Hac & Ha & Hc).
  cbn [snd] in Hsw. rewrite Hsw. rewrite cons_middle, app_assoc.
  replace (S (length pre)) with (length (pre ++ [y])) by (rewrite length_app; simpl; lia).
  assert (Hlen : length l' = length l) by (apply Permutation_length in Hp; simpl in Hp; lia).
  destruct (IH (pre ++ [y]) l') as (sel & rest' & -> & Hs); [simpl in Hk; lia|].
  destruct Hs as [H1 H2 H3 H4 _].
  assert (Hy : ∀ q, q ∈ sel ++ rest' → q.2 ≤ y.2).
  { intros q Hq. rewrite H2 in Hq. rewrite Forall_forall in Hmax. auto. }
  exists (y :: sel), rest'. split; [by rewrite <- app_assoc|]. split.
  - simpl. lia.
  - rewrite <- Hp. simpl. by rewrite H2.
  - constructor; [done|]. apply Forall_forall. intros q Hq. apply Hy. set_solver.
  - intros p q [->|Hpq]%elem_of_cons Hq; [apply Hy; set_solver|auto].
  - intros _. by exists y, a, c.
Qed.

Definition by_score (m : Map) (key : list Z) (x y : T) : Prop := score m key y ≤ score m key x.

Lemma scored_pairs m key (l : list (T * Z)) ns :
  l ⊆ (λ n, (n, score m key n)) <$> ns → ∀ p, p ∈ l → p.2 = score m key p.1.
Proof. intros Hl p Hp%Hl. by apply list_elem_of_fmap in Hp as (n & -> & _). Qed.

Lemma sorted_nodes m key (l : list (T * Z)) :
  (∀ p, p ∈ l → p.2 = score m key p.1) → StronglySorted (λ p q, q.2 ≤ p.2) l →
  StronglySorted (by_score m key) (fst <$> l).
Proof.
  intros Hl Hs. induction Hs as [|p l Hs IH Hp]; [constructor|]. rewrite fmap_cons. constructor.
  - apply IH. intros. apply Hl. by right.
  - apply Forall_fmap, Forall_forall. intros q Hq. rewrite Forall_forall in Hp. specialize (Hp q Hq).
    unfold by_score, compose. rewrite <- (Hl p), <- (Hl q); [done|by right|by left].
Qed.

Lemma GetN_spec m v key n :
  ∃ rest, (GetN m v key n).1 ++ rest ≡ₚ nodes m ∧
    length (GetN m v key n).1 = Z.to_nat (Z.min n (Len m)) ∧
    StronglySorted (by_score m key) (GetN m v key n).1 ∧
    (∀ x y, x ∈ (GetN m v key n).1 → y ∈ rest → by_score m key x y) ∧
    (0 < n → head (GetN m v key n).1 = (Get m v key).1).
Proof.
  unfold GetN, Len. destruct (nodes m) as [|n0 ns] eqn:Hn.
  { exists []. simpl. split; [done|]. split; [lia|]. split; [constructor|].
    split; [by intros ? ? ?%elem_of_nil|]. unfold Get. by rewrite Hn. }
  destruct (Z.leb_spec n 0).
  { exists (n0 :: ns). cbn [fst]. rewrite app_nil_l. split; [done|]. split; [simpl; lia|].
    split; [constructor|]. split; [by intros ? ? ?%elem_of_nil|lia]. }
  rewrite <- Hn. pose proof (score_loop_spec m (nodes m) (acquireScratch v) key) as Hsc.
  destruct (score_loop m (nodes m) (acquireScratch v) key) as [buf scores]. simpl in Hsc. subst scores.
  set (scores := _ <$> nodes m). 
  set (k := Z.to_nat (if Z.of_nat (length scores) <? n then Z.of_nat (length scores) else n)).
  assert (Hls : length scores = length (nodes m)) by (unfold scores; by rewrite length_fmap).
  assert (Hk : k = Z.to_nat (Z.min n (Z.of_nat (length (nodes m)))) ∧ (0 < k ≤ length scores)%nat).
  { unfold k. rewrite Hls. assert (0 < length (nodes m))%nat by (rewrite Hn; simpl; lia).
    destruct (Z.ltb_spec (Z.of_nat (length (nodes m))) n); lia. }
  destruct Hk as [Hk Hk2].
  destruct (select_loop_spec k [] scores) as (sel & rest & Heq & Hsel); [lia|].
  simpl in Heq. rewrite Heq. destruct Hsel as [H1 H2 H3 H4 H5].
  rewrite (take_app_length' sel rest k) by done. cbn [fst].
  assert (Hsub : ∀ p, p ∈ sel ++ rest → p.2 = score m key p.1).
  { intros p Hp. rewrite H2 in Hp. by apply list_elem_of_fmap in Hp as (x & -> & _). }
  exists (fst <$> rest). split; [|split; [|split; [|split]]].
  - rewrite <- fmap_app, H2. unfold scores. rewrite <- list_fmap_compose.
    unfold compose. simpl. by rewrite list_fmap_id.
  - by rewrite length_fmap, H1.
  - apply sorted_nodes; [|done]. intros. apply Hsub. set_solver.
  - intros x y (p & -> & Hp)%list_elem_of_fmap (q & -> & Hq)%list_elem_of_fmap.
    unfold by_score. rewrite <- !Hsub by set_solver. by apply H4.
  - intros _. destruct H5 as (p & a & c & Hh & Hac & Ha & Hc); [lia|].
    symmetry. transitivity (Some p.1).
    2: { destruct sel; simplify_eq/=. done. }
    apply Get_first_max. unfold scores in Hac.
    apply fmap_app_inv in Hac as (l1 & l2 & Hl1 & Hl2 & ->).
    destruct l2 as [|o l2]; [done|]. rewrite fmap_cons in Hl2. simplify_eq/=.
    exists l1, l2. split; [done|]. rewrite !Forall_fmap in *. done.
Qed.

(** [GetN] returns as many nodes as asked for and available, distinct, in
    descending order of score, none of the others scoring higher; the first is
    the one [Get] returns, and when no two nodes tie, the second is the one [Get]
    returns once the first has been removed. *)
Theorem rendezvous_replicas m v v' key n :
  wf m →
  let out := (GetN m v key n).1 in
  length out = Z.to_nat (Z.min n (Len m)) ∧ NoDup (id <$> out) ∧
  StronglySorted (by_score m key) out ∧
  (∃ rest, out ++ rest ≡ₚ nodes m ∧ ∀ x y, x ∈ out → y ∈ rest → by_score m key x y) ∧
  (0 < n → head out = (Get m v' key).1) ∧
  (∀ a c out', out = a :: c :: out' →
    (∀ x y, x ∈ nodes m → y ∈ nodes m → score m key x = score m key y → x = y) →
    (Get (Remove m a) v' key).1 = Some c).
Proof.
  intros Hm out. destruct (GetN_spec m v key n) as (rest & Hp & Hlen & Hs & Ha & Hh). fold out in Hp, Hlen, Hs, Ha, Hh.
  assert (Hnd : NoDup (id <$> (out ++ rest))) by (by rewrite Hp).
  split; [done|]. split; [rewrite fmap_app in Hnd; by apply NoDup_app in Hnd as [? _]|].
  split; [done|]. split; [by exists rest|]. split.
  - intros Hn. rewrite (Hh Hn). pose proof (Get_argmax m v key) as Hg.
    destruct (Get m v key).1 as [o|]; [by symmetry; apply Get_first_max|]. unfold Get. by rewrite Hg.
  - intros a c out' Hout Hinj. rewrite Hout in *.
    rewrite <- !app_comm_cons in Hp. rewrite <- !app_comm_cons, !fmap_cons, !NoDup_cons in Hnd.
    destruct Hnd as (Hna & Hnc & _).
    assert (Hcin : c ∈ nodes (Remove m a)).
    { simpl. apply list_elem_of_filter. split; [set_solver|]. rewrite <- Hp. set_solver. }
    pose proof (Get_argmax (Remove m a) v' key) as Hg.
    destruct (Get (Remove m a) v' key).1 as [o|]; [|rewrite Hg in Hcin; by apply elem_of_nil in Hcin].
    f_equal. pose proof (first_max_elem _ _ _ Hg) as Ho. pose proof (first_max_ge _ _ _ c Hg Hcin) as Hge.
    simpl in Ho, Hcin. apply list_elem_of_filter in Ho as [Hoa Ho]. apply list_elem_of_filter in Hcin as [_ Hcin].
    change (score m key c ≤ score m key o) in Hge.
    apply Hinj; [done|done|]. assert (score m key o ≤ score m key c); [|lia].
    rewrite <- Hp in Ho. apply elem_of_cons in Ho as [->|Ho]; [done|]. apply elem_of_cons in Ho as [->|Ho]; [done|].
    apply elem_of_app in Ho as [Ho|Ho].
    + apply StronglySorted_inv in Hs as [Hs _]. apply StronglySorted_inv in Hs as [_ Hs].
      rewrite Forall_forall in Hs. by apply Hs.
    + apply Ha; set_solver.
Qed.
End map.

(** Node ids are their own names: four one-byte nodes under the default hash. *)
Definition four : Map := New [WithNodes (λ n : Z, [n]) [97; 98; 99; 100]].

Lemma rendezvous_replicas_witness :
  length (GetN (λ n : Z, [n]) four None [107] 3).1 = 3%nat ∧
  head (GetN (λ n : Z, [n]) four None [107] 3).1 = (Get (λ n : Z, [n]) four (Some [1; 2]) [107]).1.
Proof.
  destruct (rendezvous_replicas (λ n : Z, [n]) four None (Some [1; 2]) [107] 3) as (H1 & _ & _ & _ & H2 & _).
  - apply (bool_decide_unpack _). vm_compute. exact I.
  - split; [exact H1|]. by apply H2.
Defined.
