(* ===== verification/CountMin.v ===== *)
(** * CountMin: the count-min sketch of [countmin/countmin.go]

    [d] rows of [w] counters; [Add] increments one counter per row, [Estimate]
    takes the minimum.  [None] is a panic: an index out of range, or a modulus of
    zero ([New] truncates its arguments to 32 bits).  The specification is the
    log of additions: every counter is the sum of the additions that hash to it,
    so an estimate never falls below the true count nor exceeds the stream. *)

From Stdlib Require Import ZArith Lia.
From stdpp Require Import base tactics numbers list sets.
From S2P Require Import Prelude GoStd.

#[local] Open Scope Z_scope.

Inductive Error := ErrIncompatible.

Record CountMinSketch := mkSketch { w : Z; d : Z; counts : list (list Z); total : Z }.

Definition New (width depth : Z) : CountMinSketch :=
  let width := if width =? 0 then 2048 else width in
  let depth := if depth =? 0 then 5 else depth in
  mkSketch (u32 width) (u32 depth) (replicate (Z.to_nat depth) (replicate (Z.to_nat width) 0)) 0.

Definition splitmix64 (x : Z) : Z :=
  let x := u64 (x + 0x9E3779B97F4A7C15) in
  let x := u64 (Z.lxor x (Z.shiftr x 30) * 0xBF58476D1CE4E5B9) in
  let x := u64 (Z.lxor x (Z.shiftr x 27) * 0x94D049BB133111EB) in
  Z.lxor x (Z.shiftr x 31).

Definition doubleHash (data : list Z) : Z * Z :=
  let h1 := splitmix64 (fnv64a data) in
  let h2 := splitmix64 (fnv64 data) in
  (h1, if h2 =? 0 then 1 else h2).

(** [(h1 + uint64(i)*h2) % uint64(c.w)], for a non-zero [c.w]. *)
Definition index (h1 h2 i w : Z) : Z := u64 (h1 + u64 (i * h2)) mod w.

(** [k] iterations are left, from row [i] on. *)
Fixpoint add_loop (k : nat) (i h1 h2 w count : Z) (rows : list (list Z)) : option (list (list Z)) :=
  match k with
  | O => Some rows
  | S k =>
      if w =? 0 then None
      else
        row ← rows !! Z.to_nat i;
        v ← row !! Z.to_nat (index h1 h2 i w);
        add_loop k (i + 1) h1 h2 w count
          (<[Z.to_nat i := <[Z.to_nat (index h1 h2 i w) := u64 (v + count)]> row]> rows)
  end.

Definition Add (c : CountMinSketch) (data : list Z) (count : Z) : option CountMinSketch :=
  let '(h1, h2) := doubleHash data in
  rows ← add_loop (Z.to_nat (d c)) 0 h1 h2 (w c) count (counts c);
  Some (mkSketch (w c) (d c) rows (u64 (total c + count))).

Fixpoint estimate_loop (k : nat) (i h1 h2 w : Z) (rows : list (list Z)) (min : Z) : option Z :=
  match k with
  | O => Some min
  | S k =>
      if w =? 0 then None
      else
        row ← rows !! Z.to_nat i;
        v ← row !! Z.to_nat (index h1 h2 i w);
        estimate_loop k (i + 1) h1 h2 w rows (if v <? min then v else min)
  end.

Definition Estimate (c : CountMinSketch) (data : list Z) : option Z :=
  let '(h1, h2) := doubleHash data in
  estimate_loop (Z.to_nat (d c)) 0 h1 h2 (w c) (counts c) max_u64.

Definition Reset (c : CountMinSketch) : CountMinSketch :=
  mkSketch (w c) (d c) ((λ row, replicate (length row) 0) <$> counts c) 0.

(** Sketches of equal shape have rows of equal length; a shorter receiver would
    panic. *)
Fixpoint merge_row (row other : list Z) : option (list Z) :=
  match row, other with
  | row, [] => Some row
  | [], _ :: _ => None
  | v :: row, o :: other => row' ← merge_row row other; Some (u64 (v + o) :: row')
  end.
Fixpoint merge_rows (rows other : list (list Z)) : option (list (list Z)) :=
  match rows, other with
  | rows, [] => Some rows
  | [], _ :: _ => None
  | r :: rows, o :: other =>
      r' ← merge_row r o; rows' ← merge_rows rows other; Some (r' :: rows')
  end.

Definition Merge (c other : CountMinSketch) : option (result Error CountMinSketch) :=
  if negb (w c =? w other) || negb (d c =? d other) then Some (Err ErrIncompatible)
  else
    rows ← merge_rows (counts c) (counts other);
    Some (Ok (mkSketch (w c) (d c) rows (u64 (total c + total other)))).

(** ** Specification: the log of additions *)

Definition slot (w i : Z) (data : list Z) : Z :=
  let '(h1, h2) := doubleHash data in index h1 h2 i w.

#[local] Notation log := (list (list Z * Z)).
Definition log_total (l : log) : Z := zsum (snd <$> l).

(** What falls into counter [j] of row [i]. *)
Definition load (w i j : Z) (l : log) : Z :=
  zsum (snd <$> filter (λ e, slot w i e.1 = j) l).

Definition true_count (x : list Z) (l : log) : Z := zsum (snd <$> filter (λ e, e.1 = x) l).

Record rep (c : CountMinSketch) (l : log) : Prop := {
  rep_w : 0 < w c < 2 ^ 32;
  rep_d : 0 < d c < 2 ^ 32;
  rep_rows : length (counts c) = Z.to_nat (d c);
  rep_width : ∀ row, row ∈ counts c → length row = Z.to_nat (w c);
  rep_cell : ∀ i j row v, counts c !! i = Some row → row !! j = Some v →
    v = u64 (load (w c) (Z.of_nat i) (Z.of_nat j) l);
  rep_total : total c = u64 (log_total l);
  rep_log : Forall (λ e, 0 ≤ e.2 ≤ max_u64) l }.

Lemma slot_range w i x : 0 < w → 0 ≤ slot w i x < w.
Proof. intros. unfold slot. destruct (doubleHash x). apply Z.mod_pos_bound. lia. Qed.

Lemma u64_add a b : u64 (u64 a + u64 b) = u64 (a + b).
Proof. by rewrite u64_add_l, u64_add_r. Qed.

Lemma load_cons w i j x n l :
  load w i j ((x, n) :: l) = (if decide (slot w i x = j) then n else 0) + load w i j l.
Proof.
  unfold load. rewrite filter_cons. cbn [fst]. case_decide; [|done]. by rewrite fmap_cons.
Qed.

Lemma load_app w i j l1 l2 : load w i j (l1 ++ l2) = load w i j l1 + load w i j l2.
Proof. unfold load. by rewrite filter_app, fmap_app, zsum_app. Qed.

Lemma u64_load_cons w i j x n l :
  u64 (load w i j ((x, n) :: l)) =
  if decide (slot w i x = j) then u64 (u64 (load w i j l) + n) else u64 (load w i j l).
Proof. rewrite load_cons. case_decide; [rewrite u64_add_l|]; apply (f_equal u64); lia. Qed.

(** ** Addition *)

(** Rows from [i] on get their counter of the key incremented. *)
Lemma countmin_add_loop_spec x n (h := doubleHash x) k i W rows :
  0 < W → 0 ≤ i → length rows = (Z.to_nat i + k)%nat →
  (∀ row, row ∈ rows → length row = Z.to_nat W) →
  ∃ rows', add_loop k i h.1 h.2 W n rows = Some rows' ∧ length rows' = length rows ∧
    (∀ row, row ∈ rows' → length row = Z.to_nat W) ∧
    ∀ a row', rows' !! a = Some row' → ∃ row, rows !! a = Some row ∧
      ∀ j v', row' !! j = Some v' → ∃ v, row !! j = Some v ∧
        v' = if decide (i ≤ Z.of_nat a ∧ slot W (Z.of_nat a) x = Z.of_nat j) then u64 (v + n) else v.
Proof.
  intros HW. revert i rows. induction k as [|k IH]; intros i rows Hi Hlen Hrow; cbn [add_loop].
  { exists rows. split; [done|]. split; [done|]. split; [done|]. intros a row' Ha. exists row'. split; [done|].
    intros j v' Hj. exists v'. split; [done|]. apply lookup_lt_Some in Ha. rewrite decide_False; [done|lia]. }
  destruct (Z.eqb_spec W 0); [lia|].
  assert (Hs : index h.1 h.2 i W = slot W i x) by (unfold slot; fold h; by destruct h).
  rewrite Hs. pose proof (slot_range W i x HW) as Hsr.
  destruct (lookup_lt_is_Some_2 rows (Z.to_nat i)) as [row0 Hr0]; [lia|]. rewrite Hr0. simpl.
  pose proof (Hrow row0 (list_elem_of_lookup_2 _ _ _ Hr0)) as Hl0.
  destruct (lookup_lt_is_Some_2 row0 (Z.to_nat (slot W i x))) as [v0 Hv0]; [lia|]. rewrite Hv0. simpl.
  set (row1 := <[_ := _]> row0). set (rows1 := <[_ := row1]> rows).
  assert (Hl1 : length row1 = length row0) by (unfold row1; by rewrite length_insert).
  destruct (IH (i + 1) rows1) as (rows' & Hadd & Hlen' & Hrow' & Hspec); [lia| | |].
  { unfold rows1. rewrite length_insert. lia. }
  { intros row Hin. apply list_elem_of_lookup in Hin as [a Ha].
    apply list_lookup_insert_Some in Ha as [(_ & <- & _)|[_ Ha]]; [congruence|].
    apply Hrow. by eapply list_elem_of_lookup_2. }
  exists rows'. split; [exact Hadd|]. split; [rewrite Hlen'; apply length_insert|]. split; [done|].
  intros a row' Ha. destruct (Hspec a row' Ha) as (row & Hra & Hcells).
  unfold rows1 in Hra. apply list_lookup_insert_Some in Hra as [(<- & <- & _)|[Hne Hra]].
  - exists row0. split; [done|]. intros j v' Hj. destruct (Hcells j v' Hj) as (v & Hv & ->).
    rewrite (decide_False (P := i + 1 ≤ _ ∧ _)) by lia. unfold row1 in Hv.
    apply list_lookup_insert_Some in Hv as [(<- & <- & _)|[Hnj Hv]].
    + exists v0. split; [done|]. rewrite decide_True; [done|]. rewrite !Z2Nat.id by lia. lia.
    + exists v. split; [done|]. rewrite decide_False; [done|]. rewrite !Z2Nat.id by lia. lia.
  - exists row. split; [done|]. intros j v' Hj. destruct (Hcells j v' Hj) as (v & Hv & ->).
    exists v. split; [done|]. repeat case_decide; try done; lia.
Qed.

Lemma Add_refines c l x n :
  rep c l → 0 ≤ n ≤ max_u64 → ∃ c', Add c x n = Some c' ∧ rep c' ((x, n) :: l).
Proof.
  intros [Hw Hd Hr Hwd Hcell Ht Hl] Hn. unfold Add.
  destruct (countmin_add_loop_spec x n (Z.to_nat (d c)) 0 (w c) (counts c)) as (rows & Hadd & Hlen & Hrow & Hspec);
    [lia|lia|simpl; lia|done|].
  destruct (doubleHash x) as [h1 h2]. simpl in Hadd. rewrite Hadd. simpl. eexists. split; [done|].
  split; simpl; auto; try lia.
  - intros i j row v Hi Hj. destruct (Hspec i row Hi) as (row0 & Hi0 & Hcells).
    destruct (Hcells j v Hj) as (v0 & Hj0 & ->). rewrite u64_load_cons, <- (Hcell i j row0 v0 Hi0 Hj0).
    repeat case_decide; try done; lia.
  - rewrite Ht, u64_add_l. unfold log_total. rewrite fmap_cons. cbn [zsum snd]. apply (f_equal u64). lia.
Qed.

(** ** Estimation *)

Lemma estimate_loop_spec x (h := doubleHash x) c l k i mn :
  rep c l → 0 ≤ i → d c = i + Z.of_nat k →
  ∃ e, estimate_loop k i h.1 h.2 (w c) (counts c) mn = Some e ∧ e ≤ mn ∧
    (∀ r, i ≤ r < d c → e ≤ u64 (load (w c) r (slot (w c) r x) l)) ∧
    (e = mn ∨ ∃ r, i ≤ r < d c ∧ e = u64 (load (w c) r (slot (w c) r x) l)).
Proof.
  intros [Hw Hd Hr Hwd Hcell _ _]. revert i mn. induction k as [|k IH]; intros i mn Hi Hk; cbn [estimate_loop].
  { exists mn. split; [done|]. split; [lia|]. split; [lia|by left]. }
  destruct (Z.eqb_spec (w c) 0); [lia|].
  assert (Hs : index h.1 h.2 i (w c) = slot (w c) i x) by (unfold slot; fold h; by destruct h).
  rewrite Hs. pose proof (slot_range (w c) i x ltac:(lia)) as Hsr.
  destruct (lookup_lt_is_Some_2 (counts c) (Z.to_nat i)) as [row0 Hr0]; [lia|]. rewrite Hr0. cbn [mbind option_bind].
  pose proof (Hwd row0 (list_elem_of_lookup_2 _ _ _ Hr0)) as Hl0.
  destruct (lookup_lt_is_Some_2 row0 (Z.to_nat (slot (w c) i x))) as [v0 Hv0]; [lia|]. rewrite Hv0. cbn [mbind option_bind].
  pose proof (Hcell _ _ _ _ Hr0 Hv0) as Hv. rewrite !Z2Nat.id in Hv by lia.
  destruct (IH (i + 1) (if v0 <? mn then v0 else mn)) as (e & -> & He & Hall & Hex); [lia|lia|].
  exists e. split; [done|].
  assert (e ≤ v0 ∧ e ≤ mn) by (destruct (Z.ltb_spec v0 mn); lia). split; [lia|]. split.
  - intros r Hir. destruct (Z.eq_dec r i) as [->|]; [lia|]. apply Hall. lia.
  - destruct Hex as [->|(r & ? & ?)]; [|right; exists r; split; [lia|done]].
    destruct (Z.ltb_spec v0 mn); [right; exists i; split; [lia|done]|by left].
Qed.

Lemma zsum_filter_le (P Q : list Z * Z → Prop) `{∀ e, Decision (P e)} `{∀ e, Decision (Q e)} (l : log) :
  (∀ e, P e → Q e) → Forall (λ e, 0 ≤ e.2 ≤ max_u64) l →
  0 ≤ zsum (snd <$> filter P l) ≤ zsum (snd <$> filter Q l).
Proof.
  intros HPQ. induction 1 as [|e l He Hl IH]; [done|]. rewrite !filter_cons.
  repeat case_decide; rewrite ?fmap_cons; cbn [zsum]; try lia. naive_solver.
Qed.

Lemma load_bounds W r x l : Forall (λ e, 0 ≤ e.2 ≤ max_u64) l →
  true_count x l ≤ load W r (slot W r x) l ∧ 0 ≤ load W r (slot W r x) l ≤ log_total l.
Proof.
  intros Hl. split.
  - apply zsum_filter_le; [|done]. by intros e ->.
  - pose proof (zsum_filter_le (λ e, slot W r e.1 = slot W r x) (λ _, True) l ltac:(done) Hl) as H.
    unfold load, log_total. replace (filter (λ _, True) l) with l in H; [done|].
    clear. induction l as [|e l IH]; [done|]. rewrite filter_cons_True by done. congruence.
Qed.

(** ** Merging and clearing *)

Lemma merge_row_spec row other : length row = length other →
  ∃ row', merge_row row other = Some row' ∧ length row' = length row ∧
    ∀ j v', row' !! j = Some v' → ∃ v o, row !! j = Some v ∧ other !! j = Some o ∧ v' = u64 (v + o).
Proof.
  revert other. induction row as [|v row IH]; intros [|o other] Hl; try done; simpl in Hl.
  { exists []. by repeat split. }
  destruct (IH other) as (row' & Hm & Hl' & Hs); [lia|]. simpl. rewrite Hm. simpl.
  eexists. split; [done|]. split; [simpl; lia|]. intros [|j] v' Hj; simpl in *; [|by apply Hs].
  simplify_eq. eauto.
Qed.

Lemma merge_rows_spec W rows other : length rows = length other →
  (∀ row, row ∈ rows → length row = W) → (∀ row, row ∈ other → length row = W) →
  ∃ rows', merge_rows rows other = Some rows' ∧ length rows' = length rows ∧
    (∀ row, row ∈ rows' → length row = W) ∧
    ∀ i row', rows' !! i = Some row' → ∃ row orow, rows !! i = Some row ∧ other !! i = Some orow ∧
      ∀ j v', row' !! j = Some v' → ∃ v o, row !! j = Some v ∧ orow !! j = Some o ∧ v' = u64 (v + o).
Proof.
  revert other. induction rows as [|r rows IH]; intros [|o other] Hl Hr Ho; try done; simpl in Hl.
  { exists []. split; [done|]. split; [done|]. split; [done|]. by intros. }
  destruct (merge_row_spec r o) as (r' & Hm & Hlr & Hs); [rewrite Hr, Ho; [done|left|left]|].
  destruct (IH other) as (rows' & Hms & Hl' & Hw & Hss); [lia|intros; apply Hr; by right|intros; apply Ho; by right|].
  simpl. rewrite Hm. simpl. rewrite Hms. simpl. eexists. split; [done|]. split; [simpl; lia|]. split.
  - intros row [->|Hin]%elem_of_cons; [rewrite Hlr; apply Hr; left|auto].
  - intros [|i] row' Hi; simpl in *; [|by apply Hss]. simplify_eq. eauto.
Qed.

Lemma Merge_refines c o l lo : rep c l → rep o lo → w c = w o → d c = d o →
  ∃ c', Merge c o = Some (Ok c') ∧ rep c' (l ++ lo).
Proof.
  intros [Hw Hd Hr Hwd Hcell Ht Hl] [Hw' Hd' Hr' Hwd' Hcell' Ht' Hl'] Ew Ed. unfold Merge.
  rewrite <- Ew, <- Ed in *. rewrite !Z.eqb_refl. simpl.
  destruct (merge_rows_spec (Z.to_nat (w c)) (counts c) (counts o)) as (rows & -> & Hlen & Hrow & Hs); [congruence|done|done|].
  simpl. eexists. split; [done|]. split; simpl; auto; try lia.
  - intros i j row v Hi Hj. destruct (Hs i row Hi) as (row0 & orow & Hi0 & Ho0 & Hcells).
    destruct (Hcells j v Hj) as (v0 & o0 & Hv0 & Hv1 & ->).
    rewrite (Hcell _ _ _ _ Hi0 Hv0), (Hcell' _ _ _ _ Ho0 Hv1), load_app. apply u64_add.
  - rewrite Ht, Ht', u64_add. unfold log_total. by rewrite fmap_app, zsum_app.
  - by apply Forall_app.
Qed.

Lemma zeros_rep c : 0 < w c < 2 ^ 32 → 0 < d c < 2 ^ 32 → length (counts c) = Z.to_nat (d c) →
  (∀ row, row ∈ counts c → length row = Z.to_nat (w c) ∧ ∀ v, v ∈ row → v = 0) → total c = 0 → rep c [].
Proof.
  intros Hw Hd Hr Hrow Ht. split; auto; try done.
  - intros row Hin. by apply Hrow.
  - intros i j row v Hi Hj. destruct (Hrow row (list_elem_of_lookup_2 _ _ _ Hi)) as [_ Hz].
    by apply Hz, (list_elem_of_lookup_2 _ j).
Qed.

Lemma Reset_refines c l : rep c l → rep (Reset c) [].
Proof.
  intros [Hw Hd Hr Hwd _ _ _]. apply zeros_rep; simpl; auto; [by rewrite length_fmap|].
  intros row (r & -> & Hin)%list_elem_of_fmap. rewrite length_replicate. split; [auto|].
  by intros v [-> _]%elem_of_replicate.
Qed.

Lemma countmin_New_rep width depth : 0 ≤ width < 2 ^ 32 → 0 ≤ depth < 2 ^ 32 → rep (New width depth) [].
Proof.
  intros Hw Hd. unfold New. set (w0 := if width =? 0 then 2048 else width).
  set (d0 := if depth =? 0 then 5 else depth).
  assert (0 < w0 < 2 ^ 32) by (subst w0; destruct (Z.eqb_spec width 0); lia).
  assert (0 < d0 < 2 ^ 32) by (subst d0; destruct (Z.eqb_spec depth 0); lia).
  assert (Hu : u32 w0 = w0 ∧ u32 d0 = d0) by (unfold u32; split; apply Z.mod_small; lia).
  destruct Hu as [Hu1 Hu2]. apply zeros_rep; simpl; rewrite ?Hu1, ?Hu2; auto; [by rewrite length_replicate|].
  intros row [-> _]%elem_of_replicate. rewrite length_replicate. split; [done|].
  by intros v [-> _]%elem_of_replicate.
Qed.

(** A sketch that records a log of additions keeps doing so under [Add], [Merge]
    (whose arguments must have the same shape), [Reset] and [New]; it never
    panics; and as long as the stream fits into 64 bits every estimate lies
    between the true count of the key and the length of the stream: it never
    under-counts. *)
Theorem countmin_never_undercounts c l :
  rep c l →
  (∀ x n, 0 ≤ n ≤ max_u64 → ∃ c', Add c x n = Some c' ∧ rep c' ((x, n) :: l)) ∧
  (∀ o lo, rep o lo →
    if decide (w c = w o ∧ d c = d o) then ∃ c', Merge c o = Some (Ok c') ∧ rep c' (l ++ lo)
    else Merge c o = Some (Err ErrIncompatible)) ∧
  rep (Reset c) [] ∧
  (log_total l ≤ max_u64 →
    total c = log_total l ∧
    ∀ x, ∃ e, Estimate c x = Some e ∧ true_count x l ≤ e ≤ log_total l ∧
      ∃ r, 0 ≤ r < d c ∧ e = load (w c) r (slot (w c) r x) l).
Proof.
  intros R. split; [intros x n; by apply Add_refines|]. split; [|split; [by eapply Reset_refines|]].
  - intros o lo Ro. case_decide as Heq; [apply Merge_refines; tauto|]. unfold Merge.
    destruct (Z.eqb_spec (w c) (w o)), (Z.eqb_spec (d c) (d o)); simpl; tauto.
  - intros Hfit. pose proof (rep_log _ _ R) as Hl.
    assert (0 ≤ log_total l) by (apply zsum_Forall_nonneg, Forall_fmap; eapply Forall_impl; [done|]; simpl; lia).
    split; [rewrite (rep_total _ _ R); by apply u64_id|]. intros x. unfold Estimate.
    pose proof (rep_d _ _ R) as Hd.
    destruct (estimate_loop_spec x c l (Z.to_nat (d c)) 0 max_u64 R) as (e & He & Hmn & Hall & Hex); [lia|lia|].
    destruct (doubleHash x) as [h1 h2] eqn:Hh. simpl in He. rewrite He.
    assert (Hex' : ∃ r, 0 ≤ r < d c ∧ e = load (w c) r (slot (w c) r x) l).
    { destruct Hex as [->|(r & Hr & ->)].
      - exists 0. split; [lia|]. specialize (Hall 0 ltac:(lia)).
        pose proof (load_bounds (w c) 0 x l Hl) as [_ ?]. rewrite u64_id in Hall by lia. lia.
      - exists r. split; [done|]. pose proof (load_bounds (w c) r x l Hl) as [_ ?]. apply u64_id. lia. }
    exists e. split; [done|]. split; [|done]. destruct Hex' as (r & _ & ->).
    pose proof (load_bounds (w c) r x l Hl). lia.
Qed.

Lemma countmin_never_undercounts_witness :
  ∃ c e, (Add (New 4 3) [97] 5 ≫= λ c, Add c [98] 2) = Some c ∧ Estimate c [97] = Some e ∧ 5 ≤ e ≤ 7.
Proof.
  assert (R0 : rep (New 4 3) []) by (apply countmin_New_rep; lia).
  destruct (countmin_never_undercounts _ _ R0) as (HA & _).
  destruct (HA [97] 5) as (c1 & E1 & R1); [unfold_int; lia|].
  destruct (countmin_never_undercounts _ _ R1) as (HA1 & _).
  destruct (HA1 [98] 2) as (c2 & E2 & R2); [unfold_int; lia|].
  destruct (countmin_never_undercounts _ _ R2) as (_ & _ & _ & HE).
  destruct (HE ltac:(vm_compute; discriminate)) as [_ Hx]. destruct (Hx [97]) as (e & He & Hb & _).
  exists c2, e. rewrite E1. split; [exact E2|]. split; [exact He|exact Hb].
Defined.

(** [New] keeps only 32 bits of the width: with [2^32] the row is allocated but
    the modulus is zero. *)
Example countmin_width_truncated width :
  width = 2 ^ 32 → w (New width 1) = 0 ∧ Add (New width 1) [97] 1 = None.
Proof.
  intros ->. assert (Hw : w (New (2 ^ 32) 1) = 0) by reflexivity. split; [done|].
  unfold Add. rewrite Hw. change (d (New (2 ^ 32) 1)) with 1. by destruct (doubleHash [97]).
Qed.
