(* ===== verification/Bloom.v ===== *)
(** * Bloom: the Bloom filter of [bloom/bloom.go]

    A packed bit array of [m] bits and [k] indices per element by double
    hashing.  Every slot of the index slice borrowed from the pool is
    overwritten, so [indices] builds it afresh.  [None] is a panic.

    The specification is the list of elements added: a bit is set exactly when it
    is an index of one of them ([rep]).  Hence no false negatives, and a false
    positive only when all indices of an element are covered by others. *)

From Stdlib Require Import ZArith Lia.
From stdpp Require Import base tactics numbers list sets.
From S2P Require Import Prelude GoStd Bitset.

#[local] Open Scope Z_scope.

Inductive Error := ErrIncompatible.

Record Filter := mkFilter { bits : list Z; m : Z; k : Z; n : Z }.

Definition NewFromParams (m k : Z) : option Filter :=
  if m =? 0 then None
  else
    let k := if k =? 0 then 1 else k in
    Some (mkFilter (replicate (Z.to_nat (u64 (m + 63) / 64)) 0) m k 0).

Definition doubleHash (data : list Z) : Z * Z := (fnv64a data, fnv64 data).

Definition indices (f : Filter) (data : list Z) : list Z :=
  let '(h1, h2) := doubleHash data in
  let h2 := if h2 =? 0 then 1 else h2 in
  (λ i, u64 (h1 + u64 (i * h2)) mod m f) <$> seqZ 0 (k f).

Fixpoint test_loop (ws : list Z) (idx : list Z) : option bool :=
  match idx with
  | [] => Some true
  | i :: idx =>
      w ← ws !! Z.to_nat (Z.shiftr i 6);
      if Z.land w (Z.shiftl 1 (Z.land i 63)) =? 0 then Some false else test_loop ws idx
  end.
Definition testLocked (f : Filter) (idx : list Z) : option bool := test_loop (bits f) idx.

Fixpoint add_loop (ws : list Z) (idx : list Z) : option (list Z) :=
  match idx with
  | [] => Some ws
  | i :: idx =>
      w ← ws !! Z.to_nat (Z.shiftr i 6);
      add_loop (<[Z.to_nat (Z.shiftr i 6) := Z.lor w (Z.shiftl 1 (Z.land i 63))]> ws) idx
  end.
Definition addLocked (f : Filter) (idx : list Z) : option Filter :=
  ws ← add_loop (bits f) idx; Some (mkFilter ws (m f) (k f) (u64 (n f + 1))).

Definition Add (f : Filter) (data : list Z) : option Filter := addLocked f (indices f data).
Definition Test_ (f : Filter) (data : list Z) : option bool := testLocked f (indices f data).
Definition TestAndAdd (f : Filter) (data : list Z) : option (bool * Filter) :=
  present ← testLocked f (indices f data);
  f' ← addLocked f (indices f data); Some (present, f').

Fixpoint merge_loop (ws os : list Z) : option (list Z) :=
  match ws, os with
  | [], _ => Some []
  | _ :: _, [] => None
  | w :: ws, o :: os => ws' ← merge_loop ws os; Some (Z.lor w o :: ws')
  end.

(** [same]: [other] is the receiver itself. *)
Definition Merge (f : Filter) (same : bool) (other : Filter) : option (result Error Filter) :=
  if same then Some (Ok f)
  else if negb (m f =? m other) || negb (k f =? k other) then Some (Err ErrIncompatible)
  else
    ws ← merge_loop (bits f) (bits other);
    Some (Ok (mkFilter ws (m f) (k f) (u64 (n f + n other)))).

Definition Reset (f : Filter) : Filter := mkFilter (replicate (length (bits f)) 0) (m f) (k f) 0.

(** ** Specification *)

Definition wbit (ws : list Z) (i : Z) : bool := Z.testbit (nth (Z.to_nat (i / 64)) ws 0) (i mod 64).

Definition covered (f : Filter) (xs : list (list Z)) (i : Z) : Prop :=
  ∃ x, x ∈ xs ∧ i ∈ indices f x.

Record rep (f : Filter) (xs : list (list Z)) : Prop := {
  rep_m : 0 < m f ≤ max_u64 - 63;
  rep_k : 0 < k f;
  rep_words : Z.of_nat (length (bits f)) = (m f + 63) / 64;
  rep_bit : ∀ i, 0 ≤ i < m f → wbit (bits f) i = true ↔ covered f xs i;
  rep_n : n f = u64 (Z.of_nat (length xs)) }.

Lemma shiftr_6 i : Z.shiftr i 6 = i / 64.
Proof. by rewrite Z.shiftr_div_pow2. Qed.

Lemma land_63 i : Z.land i 63 = i mod 64.
Proof. change 63 with (Z.ones 6). by rewrite Z.land_ones. Qed.

Lemma indices_range f x i : 0 < m f → i ∈ indices f x → 0 ≤ i < m f.
Proof.
  intros Hm. unfold indices. destruct (doubleHash x) as [h1 h2].
  intros (j & -> & _)%list_elem_of_fmap. by apply Z.mod_pos_bound.
Qed.

Lemma word_in_range ws M i : Z.of_nat (length ws) = (M + 63) / 64 → 0 ≤ i < M →
  ∃ w, ws !! Z.to_nat (i / 64) = Some w ∧ nth (Z.to_nat (i / 64)) ws 0 = w.
Proof.
  intros Hl Hi. destruct (lookup_lt_is_Some_2 ws (Z.to_nat (i / 64))) as [w Hw].
  - pose proof (Z.div_pos i 64). assert (i / 64 < (M + 63) / 64); [|lia].
    apply Z.div_lt_upper_bound; [lia|]. pose proof (Z.mul_succ_div_gt (M + 63) 64). lia.
  - exists w. split; [done|]. by rewrite nth_lookup, Hw.
Qed.

Lemma test_loop_spec ws M idx :
  Z.of_nat (length ws) = (M + 63) / 64 → (∀ i, i ∈ idx → 0 ≤ i < M) →
  ∃ r, test_loop ws idx = Some r ∧ (r = true ↔ ∀ i, i ∈ idx → wbit ws i = true).
Proof.
  intros Hl. induction idx as [|i idx IH]; intros Hidx; simpl.
  { exists true. split; [done|]. split; [by intros _ ? ?%elem_of_nil|done]. }
  destruct (word_in_range ws M i Hl) as (w & Hw & Hn); [apply Hidx; left|].
  rewrite shiftr_6, land_63, Hw. simpl.
  pose proof (land_bit w (i mod 64) ltac:(apply mod64)) as Hb.
  assert (Hwb : wbit ws i = Z.testbit w (i mod 64)) by (unfold wbit; by rewrite Hn).
  destruct (Z.land w _ =? 0); simpl in Hb.
  - exists false. split; [done|]. split; [done|]. intros Hall. specialize (Hall i ltac:(left)). congruence.
  - destruct IH as (r & -> & Hr); [intros; apply Hidx; by right|]. exists r. split; [done|]. rewrite Hr.
    split; [|intros Hall j Hj; apply Hall; by right].
    intros Hall j [->|Hj]%elem_of_cons; [congruence|auto].
Qed.

Lemma bloom_add_loop_spec ws M idx :
  Z.of_nat (length ws) = (M + 63) / 64 → (∀ i, i ∈ idx → 0 ≤ i < M) →
  ∃ ws', add_loop ws idx = Some ws' ∧ length ws' = length ws ∧
    ∀ j, 0 ≤ j < M → wbit ws' j = true ↔ wbit ws j = true ∨ j ∈ idx.
Proof.
  revert ws. induction idx as [|i idx IH]; intros ws Hl Hidx; simpl.
  { exists ws. split; [done|]. split; [done|]. intros j Hj. split; [by left|].
    by intros [?|?%elem_of_nil]. }
  assert (Hi : 0 ≤ i < M) by (apply Hidx; left).
  destruct (word_in_range ws M i Hl Hi) as (w & Hw & Hn). rewrite shiftr_6, land_63, Hw. simpl.
  destruct (IH (<[Z.to_nat (i / 64) := Z.lor w (Z.shiftl 1 (i mod 64))]> ws)) as (ws' & -> & Hl' & Hs);
    [by rewrite length_insert|intros; apply Hidx; by right|].
  exists ws'. split; [done|]. split; [by rewrite Hl', length_insert|]. intros j Hj. rewrite Hs by done.
  unfold wbit at 1. rewrite nth_insert_ws by (by eapply lookup_lt_Some).
  rewrite elem_of_cons. case_bool_decide as Hij.
  - assert (Hdiv : i / 64 = j / 64).
    { pose proof (Z.div_pos i 64). pose proof (Z.div_pos j 64). lia. }
    assert (Hwb : wbit ws j = Z.testbit w (j mod 64)) by (unfold wbit; by rewrite Hij, Hn).
    rewrite Z.lor_spec, testbit_shiftl_1, orb_true_iff, <- Hwb, bool_decide_eq_true by apply mod64.
    rewrite (same_word_bit i j Hdiv). tauto.
  - assert (j ≠ i) by (by intros ->). fold (wbit ws j). tauto.
Qed.

Lemma bloom_merge_loop_spec ws os : length ws = length os →
  ∃ ws', merge_loop ws os = Some ws' ∧ length ws' = length ws ∧
    ∀ i, wbit ws' i = wbit ws i || wbit os i.
Proof.
  intros Hl. assert (H : ∃ ws', merge_loop ws os = Some ws' ∧ length ws' = length ws ∧
    ∀ j, nth j ws' 0 = Z.lor (nth j ws 0) (nth j os 0)).
  { revert os Hl. induction ws as [|w ws IH]; intros [|o os] Hl; try done.
    - exists []. split; [done|]. split; [done|]. by intros [|j].
    - destruct (IH os) as (ws' & Hm & Hl' & Hn); [simpl in Hl; lia|]. simpl. rewrite Hm. simpl.
      eexists. split; [done|]. split; [simpl; lia|]. intros [|j]; [done|apply Hn]. }
  destruct H as (ws' & ? & ? & Hn). exists ws'. split; [done|]. split; [done|].
  intros i. unfold wbit. by rewrite Hn, Z.lor_spec.
Qed.

(** ** The operations *)

Section ops.
Context (f : Filter) (xs : list (list Z)) (R : rep f xs).

Lemma Test_spec x :
  ∃ r, Test_ f x = Some r ∧ (r = true ↔ ∀ i, i ∈ indices f x → covered f xs i).
Proof.
  destruct R as [Hm Hk Hw Hb _]. unfold Test_, testLocked.
  destruct (test_loop_spec (bits f) (m f) (indices f x) Hw) as (r & -> & Hr).
  { intros i. apply indices_range. lia. }
  exists r. split; [done|]. rewrite Hr. split; intros H i Hi; specialize (H i Hi);
    (apply Hb; [apply (indices_range f x); [lia|done]|done]).
Qed.

Lemma bloom_Add_spec x : ∃ f', Add f x = Some f' ∧ rep f' (x :: xs) ∧ m f' = m f ∧ k f' = k f.
Proof.
  destruct R as [Hm Hk Hw Hb Hn]. unfold Add, addLocked.
  destruct (bloom_add_loop_spec (bits f) (m f) (indices f x) Hw) as (ws & -> & Hl & Hs).
  { intros i. apply indices_range. lia. }
  simpl. eexists. split; [done|]. split; [|done]. split; cbn [m k bits n]; [done|done|by rewrite Hl| |].
  - intros i Hi. rewrite Hs by done. rewrite Hb by done. unfold covered.
    change (indices (mkFilter ws (m f) (k f) (u64 (n f + 1)))) with (indices f). split.
    + intros [(y & ? & ?)|?]; [exists y; split; [by right|done]|exists x; split; [left|done]].
    + intros (y & [->|Hy]%elem_of_cons & ?); [by right|left; eauto].
  - rewrite Hn. cbn [length]. unfold u64. rewrite Zplus_mod_idemp_l. f_equal. lia.
Qed.

Lemma Reset_spec : rep (Reset f) [].
Proof.
  destruct R as [Hm Hk Hw _ _]. split; cbn [Reset m k bits n]; [done|done|by rewrite length_replicate| |done].
  intros i Hi. unfold wbit. rewrite <- (app_nil_l (replicate _ _)), nth_grow. split.
  - destruct (Z.to_nat (i / 64)); simpl; by rewrite Z.bits_0.
  - by intros (x & ?%elem_of_nil & _).
Qed.

Lemma bloom_Merge_spec o ys : rep o ys → m f = m o → k f = k o →
  ∃ f', Merge f false o = Some (Ok f') ∧ rep f' (xs ++ ys).
Proof.
  destruct R as [Hm Hk Hw Hb Hn]. intros [Hm' Hk' Hw' Hb' Hn'] Em Ek. unfold Merge.
  rewrite <- Em, <- Ek, !Z.eqb_refl. simpl.
  destruct (bloom_merge_loop_spec (bits f) (bits o)) as (ws & -> & Hl & Hs); [rewrite <- Em in *; lia|].
  assert (Hio : ∀ y, indices o y = indices f y) by (intros y; unfold indices; by rewrite Em, Ek).
  simpl. eexists. split; [done|]. split; cbn [m k bits n]; [done|done|by rewrite Hl| |].
  - intros i Hi. rewrite Hs, orb_true_iff, Hb, Hb' by lia. unfold covered.
    change (indices (mkFilter ws (m f) (k f) (u64 (n f + n o)))) with (indices f).
    setoid_rewrite elem_of_app. setoid_rewrite Hio. naive_solver.
  - rewrite Hn, Hn', length_app. unfold u64. rewrite <- Zplus_mod. f_equal. lia.
Qed.
End ops.

Lemma NewFromParams_spec M K : 0 < M ≤ max_u64 - 63 → 0 ≤ K →
  ∃ f, NewFromParams M K = Some f ∧ rep f [].
Proof.
  intros HM HK. unfold NewFromParams. destruct (Z.eqb_spec M 0); [lia|].
  eexists. split; [done|]. rewrite (u64_id (M + 63)) by (unfold_int; lia).
  split; cbn [m k bits n]; [done|destruct (Z.eqb_spec K 0); lia| | |done].
  - rewrite length_replicate. pose proof (Z.div_pos (M + 63) 64). lia.
  - intros i Hi. unfold wbit. rewrite <- (app_nil_l (replicate _ _)), nth_grow. split.
    + destruct (Z.to_nat (i / 64)); simpl; by rewrite Z.bits_0.
    + by intros (x & ?%elem_of_nil & _).
Qed.

(** A filter to which the elements [xs] were added never panics, answers true
    for each of them (no false negatives), and answers true for another element
    exactly when every one of its indices belongs to some added element; [Add]
    and [TestAndAdd] add one element (the latter reporting the answer from
    before), [Merge] joins the elements of two filters of the same shape,
    refuses other shapes, and leaves a filter merged with itself alone, and
    after [Reset] nothing is present. *)
Theorem bloom_exact f xs :
  rep f xs →
  (∀ x, ∃ r, Test_ f x = Some r ∧ (x ∈ xs → r = true) ∧
    (r = true ↔ ∀ i, i ∈ indices f x → covered f xs i) ∧
    ∃ f', Add f x = Some f' ∧ TestAndAdd f x = Some (r, f') ∧ rep f' (x :: xs)) ∧
  (∀ o ys, rep o ys →
    if decide (m f = m o ∧ k f = k o) then ∃ f', Merge f false o = Some (Ok f') ∧ rep f' (xs ++ ys)
    else Merge f false o = Some (Err ErrIncompatible)) ∧
  Merge f true f = Some (Ok f) ∧
  (rep (Reset f) [] ∧ ∀ x, Test_ (Reset f) x = Some false).
Proof.
  intros R. split; [|split; [|split; [done|split]]].
  - intros x. destruct (Test_spec f xs R x) as (r & Ht & Hr). exists r. split; [done|].
    split; [intros Hx; apply Hr; intros i Hi; by exists x|]. split; [done|].
    destruct (bloom_Add_spec f xs R x) as (f' & Ha & R' & _). exists f'. split; [done|]. split; [|done].
    unfold TestAndAdd. unfold Test_ in Ht. unfold Add in Ha. rewrite Ht. simpl. by rewrite Ha.
  - intros o ys Ro. case_decide as Heq; [by apply bloom_Merge_spec; tauto|]. unfold Merge.
    destruct (Z.eqb_spec (m f) (m o)), (Z.eqb_spec (k f) (k o)); simpl; tauto.
  - by eapply Reset_spec.
  - intros x. pose proof (Reset_spec f xs R) as R0. destruct (Test_spec _ _ R0 x) as (r & -> & Hr).
    f_equal. destruct r; [|done]. exfalso. pose proof (rep_k _ _ R) as Hk.
    assert (Hi : ∃ i, i ∈ indices (Reset f) x).
    { unfold indices. destruct (doubleHash x) as [h1 h2]. cbn [Reset m k]. eexists.
      apply list_elem_of_fmap. exists 0. split; [done|]. apply elem_of_seqZ. lia. }
    destruct Hi as [i Hi]. destruct (proj1 Hr eq_refl i Hi) as (y & Hy & _). by apply elem_of_nil in Hy.
Qed.

Lemma bloom_exact_witness :
  ∃ f f', NewFromParams 100 3 = Some f ∧ Add f [97] = Some f' ∧ Test_ f' [97] = Some true.
Proof.
  destruct (NewFromParams_spec 100 3) as (f & Hf & R); [unfold_int; lia|lia|].
  destruct (bloom_exact f [] R) as (H & _). destruct (H [97]) as (_ & _ & _ & _ & f' & Ha & _ & R').
  destruct (bloom_exact f' [[97]] R') as (H' & _). destruct (H' [97]) as (r & Ht & Hin & _).
  exists f, f'. split; [done|]. split; [done|]. rewrite Ht. f_equal. apply Hin. left.
Defined.
