(* ===== verification/Heap.v ===== *)
(** * Heap: the binary heap of Go's [container/heap]

    [priorityqueue], [topk] and [wtimer] implement [heap.Interface] and call the
    algorithms of the standard library.  The interface is the class
    [HeapInterface]; [HeapLaws] says what an implementation must satisfy: behind
    its five methods there is a list of entries, each with an integer key, the
    smaller key first.  The algorithms are defined once, over the class, and
    shown correct against the laws; they are bounded by [log2 n] exchanges. *)

From Stdlib Require Import ZArith Lia.
From stdpp Require Import base tactics numbers list sets.
From S2P Require Import Prelude.

#[local] Open Scope Z_scope.

(** ** The interface and the algorithms *)

(** [X]: what [Push] takes and [Pop] returns. *)
Class HeapInterface (S X : Type) := {
  hLen : S → nat;
  hLess : S → nat → nat → bool;
  hSwap : nat → nat → S → S;
  hPush : X → S → S;
  hPop : S → option (X * S) }.

Section algorithms.
Context {S X : Type} `{HeapInterface S X}.

(** [for { i := (j - 1) / 2; if i == j || !h.Less(j, i) { break }; h.Swap(i, j); j = i }];
    Go's [(0 - 1) / 2] is 0, as is Rocq's. *)
Fixpoint up (fuel : nat) (s : S) (j : nat) : S :=
  match fuel with
  | O => s
  | Datatypes.S fuel =>
      let i := ((j - 1) / 2)%nat in
      if (i =? j)%nat || negb (hLess s j i) then s else up fuel (hSwap i j s) i
  end.

(** The new state and the last position of [i]. *)
Fixpoint down (fuel : nat) (s : S) (i n : nat) : S * nat :=
  match fuel with
  | O => (s, i)
  | Datatypes.S fuel =>
      let j1 := (2 * i + 1)%nat in
      if (n <=? j1)%nat then (s, i)
      else
        let j2 := (j1 + 1)%nat in
        let j := if (j2 <? n)%nat && hLess s j2 j1 then j2 else j1 in
        if negb (hLess s j i) then (s, i) else down fuel (hSwap i j s) j n
  end.

(** Iterations granted: the depth of a heap of [n] entries. *)
Definition depth (n : nat) : nat := Datatypes.S (Nat.log2 n).

Definition heap_up (s : S) (j : nat) : S := up (depth (Datatypes.S j)) s j.
Definition heap_down (s : S) (i0 n : nat) : S * bool :=
  let '(s, i) := down (depth n) s i0 n in (s, (i0 <? i)%nat).

(** [heap.Push], [heap.Pop] and [heap.Fix]. *)
Definition Push (s : S) (x : X) : S :=
  let s := hPush x s in heap_up s (hLen s - 1).
Definition Pop (s : S) : option (X * S) :=
  let n := (hLen s - 1)%nat in
  let s := hSwap 0 n s in
  hPop (heap_down s 0 n).1.
Definition Fix (s : S) (i : nat) : S :=
  let '(s, moved) := heap_down s i (hLen s) in
  if moved then s else heap_up s i.
End algorithms.

(** What exchanges preserve, the loops preserve. *)
Section preserves.
Context {S X : Type} `{HeapInterface S X} (Q : S → Prop).
Context (Q_swap : ∀ i j s, Q s → Q (hSwap i j s)).

Lemma up_preserves fuel s j : Q s → Q (up fuel s j).
Proof using Q_swap.
  revert s j. induction fuel as [|fuel IH]; intros s j Hs; cbn [up]; [done|].
  destruct (_ || _); [done|]. by apply IH, Q_swap.
Qed.

Lemma down_preserves fuel s i n : Q s → Q (down fuel s i n).1.
Proof using Q_swap.
  revert s i. induction fuel as [|fuel IH]; intros s i Hs; cbn [down]; [done|].
  destruct (_ <=? _)%nat; [done|]. destruct (negb _); [done|]. by apply IH, Q_swap.
Qed.

Lemma heap_down_preserves s i n : Q s → Q (heap_down s i n).1.
Proof using Q_swap.
  intros Hs. unfold heap_down. pose proof (down_preserves (depth n) s i n Hs). by destruct (down _ _ _ _).
Qed.

Lemma Push_preserves s x : Q (hPush x s) → Q (Push s x).
Proof using Q_swap. intros Hs. by apply up_preserves. Qed.

Lemma Fix_preserves s i : Q s → Q (Fix s i).
Proof using Q_swap.
  intros Hs. unfold Fix. pose proof (heap_down_preserves s i (hLen s) Hs) as Hd.
  destruct (heap_down s i (hLen s)) as [s' []]; [done|]. by apply up_preserves.
Qed.
End preserves.

(** ** Lists of keyed entries, the reference implementation *)

Section lists.
Context {A : Type}.

Definition lswap (i j : nat) (l : list (Z * A)) : list (Z * A) :=
  match l !! i, l !! j with
  | Some a, Some b => <[i := b]> (<[j := a]> l)
  | _, _ => l
  end.

(** The key at a position; positions outside are never read. *)
Definition key (l : list (Z * A)) (i : nat) : Z :=
  match l !! i with Some a => a.1 | None => 0 end.

#[global] Instance list_heap : HeapInterface (list (Z * A)) (Z * A) := {
  hLen := length;
  hLess l i j := key l i <? key l j;
  hSwap := lswap;
  hPush x l := l ++ [x];
  hPop l := match last l with Some x => Some (x, take (length l - 1) l) | None => None end }.

Lemma length_lswap i j l : length (lswap i j l) = length l.
Proof.
  unfold lswap. destruct (l !! i), (l !! j); try done. by rewrite !length_insert.
Qed.

Lemma lswap_perm i j l : lswap i j l ≡ₚ l.
Proof.
  unfold lswap. destruct (l !! i) as [a|] eqn:Hi; [|done]. destruct (l !! j) as [b|] eqn:Hj; [|done].
  apply Permutation_insert_swap; done.
Qed.

Lemma key_lswap i j l k : (i < length l)%nat → (j < length l)%nat →
  key (lswap i j l) k = if decide (k = i) then key l j else if decide (k = j) then key l i else key l k.
Proof.
  intros Hi Hj. apply lookup_lt_is_Some_2 in Hi as [a Ha]. apply lookup_lt_is_Some_2 in Hj as [b Hb].
  unfold lswap, key. rewrite Ha, Hb.
  pose proof (lookup_lt_Some _ _ _ Ha). pose proof (lookup_lt_Some _ _ _ Hb).
  destruct (decide (k = i)) as [->|Hki].
  { rewrite list_lookup_insert_eq; [done|]. by rewrite length_insert. }
  rewrite list_lookup_insert_ne by done.
  destruct (decide (k = j)) as [->|Hkj]; [by rewrite list_lookup_insert_eq|].
  by rewrite list_lookup_insert_ne.
Qed.
End lists.

(** ** Heap order *)

Definition parent (k : nat) : nat := ((k - 1) / 2)%nat.

Lemma parent_spec k : (0 < k)%nat → (k = 2 * parent k + 1 ∨ k = 2 * parent k + 2)%nat.
Proof. intros. unfold parent. pose proof (Nat.div_mod (k - 1) 2). pose proof (Nat.mod_upper_bound (k - 1) 2). lia. Qed.

Lemma parent_child k i : (0 < k)%nat → parent k = i ↔ (k = 2 * i + 1 ∨ k = 2 * i + 2)%nat.
Proof. intros Hk. pose proof (parent_spec k Hk). lia. Qed.

Section order.
Context {A : Type}.
Implicit Types l : list (Z * A).

(** The first [n] entries are in heap order. *)
Definition heap_order (l : list (Z * A)) (n : nat) : Prop :=
  ∀ k, (0 < k < n)%nat → key l (parent k) ≤ key l k.

(** Heap order except around position [i]: [up_ok] exempts the edge above it,
    [down_ok] the edges below it, [fix_ok] both. *)
Definition bridged (l : list (Z * A)) (n i : nat) : Prop :=
  ∀ k, (0 < k < n)%nat → parent k = i → (0 < i)%nat → key l (parent i) ≤ key l k.
Definition up_ok (l : list (Z * A)) (n j : nat) : Prop :=
  (∀ k, (0 < k < n)%nat → k ≠ j → key l (parent k) ≤ key l k) ∧ bridged l n j.
Definition down_ok (l : list (Z * A)) (n i : nat) : Prop :=
  (∀ k, (0 < k < n)%nat → parent k ≠ i → key l (parent k) ≤ key l k) ∧ bridged l n i.
Definition fix_ok (l : list (Z * A)) (n i : nat) : Prop :=
  (∀ k, (0 < k < n)%nat → k ≠ i → parent k ≠ i → key l (parent k) ≤ key l k) ∧ bridged l n i.

Lemma up_swap_ok l n j :
  up_ok l n j → (0 < j < n)%nat → (n ≤ length l)%nat → key l j < key l (parent j) →
  up_ok (lswap (parent j) j l) n (parent j).
Proof.
  intros [Ho Hb] Hj Hn Hlt. pose proof (parent_spec j ltac:(lia)) as Hp. split.
  - intros k Hk Hne. rewrite !key_lswap by lia. pose proof (parent_spec k ltac:(lia)) as Hpk.
    repeat case_decide; subst; try lia.
    + pose proof (Ho k ltac:(lia) ltac:(lia)). replace (parent k) with (parent j) in * by done. lia.
    + apply Hb; [lia|done|lia].
    + by apply Ho.
  - intros k Hk Hpk Hpos. rewrite !key_lswap by lia. pose proof (parent_spec (parent j) ltac:(lia)) as Hpp.
    pose proof (parent_spec k ltac:(lia)) as Hkk.
    assert (key l (parent (parent j)) ≤ key l (parent j)) by (apply Ho; lia).
    repeat case_decide; subst; try lia.
    assert (key l (parent k) ≤ key l k) by (apply Ho; lia). congruence || (rewrite Hpk in *; lia).
Qed.

Lemma up_order fuel l n j :
  up_ok l n j → (j < n ≤ length l)%nat → (Nat.log2 (Datatypes.S j) < fuel)%nat →
  heap_order (up fuel l j) n.
Proof.
  revert l j. induction fuel as [|fuel IH]; intros l j Hok Hj Hf; [lia|]. cbn [up].
  change (((j - 1) / 2)%nat) with (parent j). cbn [hLess hSwap list_heap].
  destruct (Nat.eqb_spec (parent j) j) as [Hpj|Hpj]; cbn [orb].
  { assert (j = 0%nat) by (destruct (decide (0 < j)%nat); [pose proof (parent_spec j ltac:(lia)); lia|lia]).
    intros k Hk. apply (proj1 Hok); lia. }
  assert (Hj0 : (0 < j)%nat) by (destruct j; [by unfold parent in Hpj|lia]).
  pose proof (parent_spec j Hj0) as Hp. destruct (Z.ltb_spec (key l j) (key l (parent j))) as [Hlt|Hge]; cbn [negb].
  - apply IH; [apply up_swap_ok; auto; lia|rewrite length_lswap; lia|].
    assert (Hl : (Nat.log2 (2 * Datatypes.S (parent j)) ≤ Nat.log2 (Datatypes.S j))%nat) by (apply Nat.log2_le_mono; lia).
    rewrite Nat.log2_double in Hl by lia. lia.
  - intros k Hk. destruct (decide (k = j)) as [->|]; [lia|by apply (proj1 Hok)].
Qed.

(** One exchange of the way down makes the edge above [j] and all others right. *)
Lemma down_swap_ok l n i j :
  fix_ok l n i → (i < n ≤ length l)%nat → (0 < j < n)%nat → parent j = i →
  (∀ k, (0 < k < n)%nat → parent k = i → key l j ≤ key l k) → key l j < key l i →
  down_ok (lswap i j l) n j.
Proof.
  intros [Ho Hb] Hi Hj Hpj Hmin Hlt. pose proof (parent_spec j ltac:(lia)) as Hp. split.
  - intros k Hk Hne. rewrite !key_lswap by lia. pose proof (parent_spec k ltac:(lia)) as Hpk.
    destruct (decide (k = i)) as [->|Hki].
    { rewrite (decide_False (P := parent i = i)), (decide_False (P := parent i = j)) by lia.
      apply Hb; [lia|done|lia]. }
    destruct (decide (k = j)) as [->|Hkj]; [rewrite Hpj, decide_True by done; lia|].
    destruct (decide (parent k = i)) as [Hpi|Hpi]; [by apply Hmin|]. rewrite decide_False by done. by apply Ho.
  - intros k Hk Hpk Hpos. rewrite !key_lswap by lia. pose proof (parent_spec k ltac:(lia)) as Hkk.
    rewrite Hpj, (decide_True (P := i = i)) by done.
    rewrite !decide_False by lia. rewrite <- Hpk. apply Ho; lia.
Qed.

Lemma down_fix_ok l n i : down_ok l n i → fix_ok l n i.
Proof. intros [Ho Hb]. split; [|done]. intros. by apply Ho. Qed.

(** What one iteration chooses. *)
Lemma down_child l n i j1 j2 j :
  j1 = (2 * i + 1)%nat → j2 = (j1 + 1)%nat → (j1 < n)%nat →
  j = (if (j2 <? n)%nat && (key l j2 <? key l j1) then j2 else j1) →
  (0 < j < n)%nat ∧ parent j = i ∧ (∀ k, (0 < k < n)%nat → parent k = i → key l j ≤ key l k).
Proof.
  intros -> -> Hn ->. destruct (Nat.ltb_spec (2 * i + 1 + 1) n) as [H2|H2]; cbn [andb].
  - destruct (Z.ltb_spec (key l (2 * i + 1 + 1)) (key l (2 * i + 1))) as [Hl|Hl];
      (split; [lia|]); (split; [apply parent_child; lia|]); intros k Hk [->| ->]%parent_child; try lia;
      replace (2 * i + 2)%nat with (2 * i + 1 + 1)%nat by lia; lia.
  - split; [lia|]. split; [apply parent_child; lia|]. intros k Hk [->| ->]%parent_child; lia.
Qed.

Lemma down_order fuel l n i :
  fix_ok l n i → (i < n ≤ length l)%nat → (Nat.log2 n < fuel + Nat.log2 (Datatypes.S i))%nat →
  let '(l', i') := down fuel l i n in
  if decide (i' = i) then l' = l ∧ ∀ k, (0 < k < n)%nat → parent k = i → key l i ≤ key l k
  else (i < i')%nat ∧ heap_order l' n.
Proof.
  revert l i. induction fuel as [|fuel IH]; intros l i Hok Hi Hf.
  { assert (Nat.log2 (Datatypes.S i) ≤ Nat.log2 n)%nat by (apply Nat.log2_le_mono; lia). lia. }
  cbn [down]. set (j1 := (2 * i + 1)%nat). destruct (Nat.leb_spec n j1) as [Hn|Hn].
  { rewrite decide_True by done. split; [done|]. intros k Hk [->| ->]%parent_child; lia. }
  cbn [hLess hSwap list_heap]. set (j := if _ : bool then (j1 + 1)%nat else j1).
  destruct (down_child l n i j1 (j1 + 1) j) as (Hj & Hpj & Hmin); [done..|].
  pose proof (parent_spec j ltac:(lia)) as Hp. rewrite Hpj in Hp.
  destruct (Z.ltb_spec (key l j) (key l i)) as [Hlt|Hge]; cbn [negb].
  2: { rewrite decide_True by done. split; [done|]. intros k Hk Hpk. specialize (Hmin k Hk Hpk). lia. }
  pose proof (down_swap_ok l n i j Hok Hi Hj Hpj Hmin Hlt) as Hok'.
  specialize (IH (lswap i j l) j). destruct (down fuel (lswap i j l) j n) as [l' i'].
  assert (Hlog : (Nat.log2 (2 * Datatypes.S i) ≤ Nat.log2 (Datatypes.S j))%nat) by (apply Nat.log2_le_mono; lia).
  rewrite Nat.log2_double in Hlog by lia.
  specialize (IH (down_fix_ok _ _ _ Hok') ltac:(rewrite length_lswap; lia) ltac:(lia)).
  destruct (decide (i' = j)) as [->|Hne].
  - destruct IH as [-> Hc]. rewrite decide_False by lia. split; [lia|].
    intros k Hk. destruct (decide (parent k = j)) as [He|He]; [rewrite He; by apply Hc|by apply (proj1 Hok')].
  - destruct IH as [? ?]. rewrite decide_False by lia. split; [lia|done].
Qed.

Lemma length_up fuel l j : length (up fuel l j) = length l.
Proof.
  revert l j. induction fuel as [|fuel IH]; intros l j; cbn [up]; [done|].
  destruct (_ || _); [done|]. rewrite IH. apply length_lswap.
Qed.

Lemma up_perm fuel l j : up fuel l j ≡ₚ l.
Proof.
  revert l j. induction fuel as [|fuel IH]; intros l j; cbn [up]; [done|].
  destruct (_ || _); [done|]. rewrite IH. apply lswap_perm.
Qed.

Lemma down_perm fuel l i n : (down fuel l i n).1 ≡ₚ l.
Proof.
  revert l i. induction fuel as [|fuel IH]; intros l i; cbn [down]; [done|].
  destruct (_ <=? _)%nat; [done|]. destruct (negb _); [done|]. rewrite IH. apply lswap_perm.
Qed.

(** Entries from [n] on do not move. *)
Lemma down_outside fuel l i n k :
  (i < n)%nat → (n ≤ k)%nat → (down fuel l i n).1 !! k = l !! k.
Proof.
  intros Hi Hk. revert l i Hi. induction fuel as [|fuel IH]; intros l i Hi; cbn [down]; [done|].
  destruct (Nat.leb_spec n (2 * i + 1)); [done|]. cbn [hLess hSwap list_heap].
  set (j := if _ : bool then (2 * i + 1 + 1)%nat else (2 * i + 1)%nat).
  assert (Hj : (j < n)%nat) by (unfold j; destruct (Nat.ltb_spec (2 * i + 1 + 1) n); simpl; [case_match|]; lia).
  destruct (negb _); [done|]. rewrite IH by done. unfold lswap.
  destruct (l !! i), (l !! j); try done. rewrite !list_lookup_insert_ne by lia. done.
Qed.

Lemma heap_order_root l n k : heap_order l n → (k < n)%nat → key l 0 ≤ key l k.
Proof.
  intros Ho. induction k as [k IH] using lt_wf_ind. intros Hk.
  destruct k as [|k]; [lia|]. pose proof (parent_spec (Datatypes.S k) ltac:(lia)).
  etrans; [apply (IH (parent (Datatypes.S k))); lia|]. apply Ho. lia.
Qed.
End order.

(** ** The laws of an implementation *)

(** [view]: the entries behind the interface, in slice order; [ok]: the
    representation invariant; [entry]: the entry an argument of [Push] becomes.
    Exchanges and [Pop] may rely on positions being in range. *)
Class HeapLaws (S X A : Type) `{HeapInterface S X} := {
  view : S → list (Z * A);
  ok : S → Prop;
  law_Len s : ok s → hLen s = length (view s);
  law_Less s i j : ok s → (i < length (view s))%nat → (j < length (view s))%nat →
    hLess s i j = (key (view s) i <? key (view s) j);
  law_Swap s i j : ok s → (i < length (view s))%nat → (j < length (view s))%nat →
    ok (hSwap i j s) ∧ view (hSwap i j s) = lswap i j (view s) }.

Section laws.
Context {S X A : Type} `{HeapLaws S X A}.
Implicit Types s : S.

(** The loops act on the view as they do on lists. *)
Lemma up_view fuel s j : ok s → (j < length (view s))%nat →
  ok (up fuel s j) ∧ view (up fuel s j) = up fuel (view s) j.
Proof.
  revert s j. induction fuel as [|fuel IH]; intros s j Hok Hj; cbn [up]; [done|].
  set (i := ((j - 1) / 2)%nat). assert (Hi : (i < length (view s))%nat).
  { pose proof (Nat.Div0.div_le_upper_bound (j - 1) 2 (j - 1)). unfold i. lia. }
  rewrite law_Less by done. cbn [hLess hSwap list_heap].
  destruct (_ || _); [done|]. destruct (law_Swap s i j Hok Hi Hj) as [Hok' Hv].
  destruct (IH (hSwap i j s) i Hok') as [? Hup]; [by rewrite Hv, length_lswap|].
  split; [done|]. by rewrite Hup, Hv.
Qed.

Lemma down_view fuel s i n : ok s → (i < n ≤ length (view s))%nat →
  let '(s', i') := down fuel s i n in
  ok s' ∧ down fuel (view s) i n = (view s', i').
Proof.
  revert s i. induction fuel as [|fuel IH]; intros s i Hok Hi; cbn [down]; [done|].
  destruct (Nat.leb_spec n (2 * i + 1)) as [|Hn]; [done|].
  assert (Hj : (if (2 * i + 1 + 1 <? n)%nat && hLess s (2 * i + 1 + 1) (2 * i + 1) then (2 * i + 1 + 1)%nat else (2 * i + 1)%nat)
    = if (2 * i + 1 + 1 <? n)%nat && hLess (view s) (2 * i + 1 + 1) (2 * i + 1) then (2 * i + 1 + 1)%nat else (2 * i + 1)%nat).
  { destruct (Nat.ltb_spec (2 * i + 1 + 1) n); cbn [andb]; [|done]. by rewrite law_Less by (done || lia). }
  rewrite Hj. set (j := if _ && hLess (view s) _ _ then (2 * i + 1 + 1)%nat else (2 * i + 1)%nat).
  assert (Hjn : (j < n)%nat).
  { unfold j. destruct (Nat.ltb_spec (2 * i + 1 + 1) n); cbn [andb]; [destruct (hLess (view s) _ _)|].
    all: assumption. }
  rewrite law_Less by (done || lia). cbn [hLess hSwap list_heap].
  destruct (negb _); [done|]. destruct (law_Swap s i j Hok ltac:(lia) ltac:(lia)) as [Hok' Hv].
  specialize (IH (hSwap i j s) j Hok' ltac:(rewrite Hv, length_lswap; lia)).
  destruct (down fuel (hSwap i j s) j n) as [s' i']. by rewrite <- Hv.
Qed.

Lemma depth_enough i n : (Nat.log2 n < depth n + Nat.log2 (Datatypes.S i))%nat.
Proof. unfold depth. lia. Qed.

(** [heap_up] restores the order after the last entry was appended, or after the
    key of an entry became smaller. *)
Lemma heap_up_spec s j : ok s → up_ok (view s) (length (view s)) j → (j < length (view s))%nat →
  ok (heap_up s j) ∧ heap_order (view (heap_up s j)) (length (view s)) ∧ view (heap_up s j) ≡ₚ view s.
Proof.
  intros Hok Hup Hj. unfold heap_up. destruct (up_view (depth (Datatypes.S j)) s j Hok Hj) as [? Hv].
  split; [done|]. rewrite Hv. split; [|apply up_perm]. apply up_order; [done|lia|unfold depth; lia].
Qed.

Lemma heap_down_spec s i n : ok s → fix_ok (view s) n i → (i < n ≤ length (view s))%nat →
  let '(s', moved) := heap_down s i n in
  ok s' ∧ view s' ≡ₚ view s ∧ (∀ k, (n ≤ k)%nat → view s' !! k = view s !! k) ∧
  if moved then heap_order (view s') n
  else view s' = view s ∧ ∀ k, (0 < k < n)%nat → parent k = i → key (view s) i ≤ key (view s) k.
Proof.
  intros Hok Hfix Hi. unfold heap_down. pose proof (down_view (depth n) s i n Hok Hi) as Hv.
  destruct (down (depth n) s i n) as [s' i']. destruct Hv as [Hok' Hv].
  pose proof (down_perm (depth n) (view s) i n) as Hp. rewrite Hv in Hp.
  pose proof (λ k, down_outside (depth n) (view s) i n k ltac:(lia)) as Hout. rewrite Hv in Hout.
  pose proof (down_order (depth n) (view s) n i Hfix Hi (depth_enough i n)) as Hd. rewrite Hv in Hd.
  split; [done|]. split; [done|]. split; [done|].
  destruct (decide (i' = i)) as [->|Hne].
  - rewrite Nat.ltb_irrefl. done.
  - destruct Hd as [Hlt Hd]. destruct (Nat.ltb_spec i i'); [done|lia].
Qed.

(** [heap.Fix] restores the order after any change of one key. *)
Lemma Fix_spec s i : ok s → fix_ok (view s) (length (view s)) i → (i < length (view s))%nat →
  ok (Fix s i) ∧ heap_order (view (Fix s i)) (length (view s)) ∧ view (Fix s i) ≡ₚ view s.
Proof.
  intros Hok Hfix Hi. unfold Fix. rewrite law_Len by done.
  pose proof (heap_down_spec s i (length (view s)) Hok Hfix ltac:(lia)) as Hd.
  destruct (heap_down s i (length (view s))) as [s' moved]. destruct Hd as (Hok' & Hp & _ & Hd).
  destruct moved; [done|]. destruct Hd as [Hv Hch]. rewrite <- Hv in Hfix, Hch, Hi |- *.
  apply heap_up_spec; [done| |done]. split; [|apply Hfix]. intros k Hk Hne.
  destruct (decide (parent k = i)) as [He|He]; [rewrite He; by apply Hch|by apply (proj1 Hfix)].
Qed.

(** Changing one key of a heap leaves only that position to repair. *)
Lemma heap_order_fix_ok (l l' : list (Z * A)) n i :
  heap_order l n → (∀ k, k ≠ i → key l' k = key l k) → fix_ok l' n i.
Proof.
  intros Ho Hk. split.
  - intros k Hkn Hne Hpe. rewrite !Hk by done. by apply Ho.
  - intros k Hkn Hp Hi. pose proof (parent_spec k ltac:(lia)). pose proof (parent_spec i Hi).
    rewrite !Hk by lia. etrans; [apply (Ho i); lia|]. rewrite <- Hp. by apply Ho.
Qed.

(** [heap.Push], given what the method [Push] does. *)
Lemma heap_Push_spec s x l a : ok (hPush x s) → view (hPush x s) = l ++ [a] → heap_order l (length l) →
  ok (Push s x) ∧ heap_order (view (Push s x)) (length (view (Push s x))) ∧ view (Push s x) ≡ₚ l ++ [a].
Proof.
  intros Hok' Hv Ho. unfold Push. rewrite law_Len by done.
  assert (Hlen : length (view (hPush x s)) = Datatypes.S (length l)) by (rewrite Hv, length_app; simpl; lia).
  assert (Hkey : ∀ k, (k < length l)%nat → key (l ++ [a]) k = key l k)
    by (intros; unfold key; by rewrite lookup_app_l).
  destruct (heap_up_spec (hPush x s) (length (view (hPush x s)) - 1) Hok') as (Hok2 & Ho2 & Hp); [|lia|].
  - rewrite Hlen, Hv. split.
    + intros k Hk Hne. pose proof (parent_spec k ltac:(lia)). rewrite !Hkey by lia. apply Ho. lia.
    + intros k Hk Hp. pose proof (parent_spec k ltac:(lia)). lia.
  - split; [done|]. split; [by rewrite (Permutation_length Hp)|]. by rewrite Hp, Hv.
Qed.

(** [heap.Pop] up to the method [Pop]: the entry moved to the end was a smallest
    one, and the others are in order. *)
Lemma Pop_prepare s : ok s → heap_order (view s) (length (view s)) → view s ≠ [] →
  let n := (hLen s - 1)%nat in
  let s' := (heap_down (hSwap 0 n s) 0 n).1 in
  ∃ l a, ok s' ∧ view s' = l ++ [a] ∧ heap_order l (length l) ∧ l ++ [a] ≡ₚ view s ∧
    view s !! 0%nat = Some a ∧ ∀ b, b ∈ view s → a.1 ≤ b.1.
Proof.
  intros Hok Ho Hne n s'. assert (Hlen : (0 < length (view s))%nat) by (destruct (view s); [done|simpl; lia]).
  assert (Hn : n = (length (view s) - 1)%nat) by (unfold n; by rewrite law_Len).
  destruct (law_Swap s 0 n Hok) as [Hok1 Hv1]; [lia|lia|].
  destruct (lookup_lt_is_Some_2 (view s) 0) as [a Ha]; [lia|].
  assert (Hroot : ∀ b, b ∈ view s → a.1 ≤ b.1).
  { intros b [k Hk]%list_elem_of_lookup. pose proof (heap_order_root _ _ k Ho (lookup_lt_Some _ _ _ Hk)) as Hr.
    unfold key in Hr. by rewrite Ha, Hk in Hr. }
  assert (Hlast : view (hSwap 0 n s) !! n = Some a).
  { rewrite Hv1. unfold lswap. rewrite Ha. destruct (lookup_lt_is_Some_2 (view s) n) as [b Hb]; [lia|]. rewrite Hb.
    destruct (decide (n = 0%nat)) as [->|]; [rewrite list_lookup_insert_eq; [congruence|by rewrite length_insert]|].
    rewrite list_lookup_insert_ne by done. rewrite list_lookup_insert_eq; [done|lia]. }
  assert (Hmain : ok s' ∧ view s' ≡ₚ view (hSwap 0 n s) ∧ view s' !! n = Some a ∧ heap_order (view s') n).
  { destruct (decide (n = 0%nat)) as [Hz|Hz].
    { unfold s', heap_down. rewrite Hz in *. cbn [down depth].
      split; [done|]. split; [done|]. split; [done|]. intros k Hk. lia. }
    pose proof (heap_down_spec (hSwap 0 n s) 0 n Hok1) as Hd. unfold s'.
    destruct (heap_down (hSwap 0 n s) 0 n) as [s1 moved]. cbn [fst].
    destruct Hd as (Hok2 & Hp & Hout & Hmv).
    - rewrite Hv1. split; [|intros ???; lia]. intros k Hk Hne0 Hp0. pose proof (parent_spec k ltac:(lia)).
      rewrite !key_lswap by lia. rewrite !decide_False by lia. apply Ho. lia.
    - rewrite Hv1, length_lswap. lia.
    - split; [done|]. split; [done|]. split; [by rewrite Hout by lia|].
      destruct moved; [done|]. destruct Hmv as [Hv Hch]. rewrite Hv. intros k Hk.
      destruct (decide (parent k = 0%nat)) as [He|He]; [rewrite He; by apply Hch|].
      pose proof (parent_spec k ltac:(lia)). rewrite Hv1, !key_lswap, !decide_False by lia. apply Ho. lia. }
  destruct Hmain as (Hok2 & Hp & Hn2 & Ho2).
  assert (Hl2 : length (view s') = Datatypes.S n) by (rewrite (Permutation_length Hp), Hv1, length_lswap; lia).
  exists (take n (view s')), a. split; [done|].
  assert (Hsplit : view s' = take n (view s') ++ [a]).
  { rewrite <- (take_drop n (view s')) at 1. f_equal. rewrite (drop_S _ a) by done. f_equal. apply drop_ge. lia. }
  split; [done|]. split; [|split; [|done]].
  - rewrite length_take, Nat.min_l by lia. intros k Hk. pose proof (parent_spec k ltac:(lia)).
    unfold key. rewrite !lookup_take_lt by lia. by apply Ho2.
  - rewrite <- Hsplit, Hp, Hv1. apply lswap_perm.
Qed.
End laws.
