(* ===== verification/ItemHeap.v ===== *)
(** * ItemHeap: heaps of pointers with a back index

    The representation [priorityqueue] and [wtimer] share: a slice of pointers to
    heap-allocated items, each item knowing its position in the slice through an
    [index] field that the methods [Swap], [Push] and [Pop] of [heap.Interface]
    keep up to date (-1 once popped).  [rank] orders the items, smallest first.
    Slice and index fields are shown to agree ([heap_ok]), and the heap operations
    to act on the map of queued items ([contents]). *)

From Stdlib Require Import ZArith Lia.
From stdpp Require Import base tactics numbers list gmap sets.
From S2P Require Import Prelude Heap.

#[local] Open Scope Z_scope.

Section item_heap.
Context {V : Type} (rank : V → Z).

Record Item := mkItem { data : V; index : Z }.

(** [h]: the slice of item pointers; [items]: all items ever allocated; [next]:
    the next fresh pointer. *)
Record IHeap := mkHeap { h : list nat; items : gmap nat Item; next : nat }.

Definition rank_of (q : IHeap) (id : nat) : Z :=
  match items q !! id with Some it => rank (data it) | None => 0 end.

Definition set_index (id : nat) (i : Z) (m : gmap nat Item) : gmap nat Item :=
  alter (λ it, mkItem (data it) i) id m.

Definition Less (q : IHeap) (i j : nat) : bool :=
  match h q !! i, h q !! j with
  | Some a, Some b => rank_of q a <? rank_of q b
  | _, _ => false
  end.

Definition Swap (i j : nat) (q : IHeap) : IHeap :=
  match h q !! i, h q !! j with
  | Some a, Some b =>
      mkHeap (<[i := b]> (<[j := a]> (h q)))
        (set_index a (Z.of_nat j) (set_index b (Z.of_nat i) (items q))) (next q)
  | _, _ => q
  end.

Definition iPush (id : nat) (q : IHeap) : IHeap :=
  mkHeap (h q ++ [id]) (set_index id (Z.of_nat (length (h q))) (items q)) (next q).

Definition iPop (q : IHeap) : option (nat * IHeap) :=
  match last (h q) with
  | Some id => Some (id, mkHeap (take (length (h q) - 1) (h q)) (set_index id (-1) (items q)) (next q))
  | None => None
  end.

#[local] Instance item_heap : HeapInterface IHeap nat := {
  hLen q := length (h q); hLess := Less; hSwap := Swap; hPush := iPush; hPop := iPop }.

(** A new item, not yet queued. *)
Definition alloc (q : IHeap) (v : V) : IHeap :=
  mkHeap (h q) (<[next q := mkItem v 0]> (items q)) (S (next q)).

(** An item's data changes in place. *)
Definition set_data (q : IHeap) (id : nat) (v : V) : IHeap :=
  mkHeap (h q) (alter (λ it, mkItem v (index it)) id (items q)) (next q).

(** ** Specification *)

(** The queued items: those whose index is not negative. *)
Definition contents (q : IHeap) : gmap nat V :=
  omap (λ it, if 0 <=? index it then Some (data it) else None) (items q).

(** Slice and index fields agree. *)
Record heap_ok (q : IHeap) : Prop := {
  ok_index : ∀ i id, h q !! i = Some id →
    ∃ it, items q !! id = Some it ∧ index it = Z.of_nat i;
  ok_out : ∀ id it, items q !! id = Some it → 0 ≤ index it →
    h q !! Z.to_nat (index it) = Some id;
  ok_neg : ∀ id it, items q !! id = Some it → index it < 0 → index it = -1;
  ok_next : ∀ id, is_Some (items q !! id) → (id < next q)%nat }.

Definition heap_view (q : IHeap) : list (Z * nat) := (λ id, (rank_of q id, id)) <$> h q.

Lemma set_index_lookup id i m k :
  set_index id i m !! k =
  if decide (k = id) then (λ it, mkItem (data it) i) <$> m !! k else m !! k.
Proof.
  unfold set_index. case_decide; [subst; by rewrite lookup_alter_eq|by rewrite lookup_alter_ne].
Qed.

Lemma set_index_rank q hs id i nx k :
  rank_of (mkHeap hs (set_index id i (items q)) nx) k = rank_of q k.
Proof.
  unfold rank_of. cbn [items]. rewrite set_index_lookup. case_decide; [|done]. by destruct (items q !! k).
Qed.

Lemma index_inj q i j id : heap_ok q → h q !! i = Some id → h q !! j = Some id → i = j.
Proof.
  intros Hok Hi Hj. destruct (ok_index _ Hok _ _ Hi) as (it & Hit & Hix).
  destruct (ok_index _ Hok _ _ Hj) as (it' & Hit' & Hix'). simplify_eq. lia.
Qed.

Lemma Swap_ok q i j : heap_ok q → heap_ok (Swap i j q).
Proof.
  intros Hok. unfold Swap. destruct (h q !! i) as [a|] eqn:Ha; [|done]. destruct (h q !! j) as [b|] eqn:Hb; [|done].
  pose proof (lookup_lt_Some _ _ _ Ha). pose proof (lookup_lt_Some _ _ _ Hb).
  assert (Hab : a = b ↔ i = j).
  { split; [intros ->; by apply (index_inj q i j b)|intros ->; congruence]. }
  assert (Hit : ∀ k, set_index a (Z.of_nat j) (set_index b (Z.of_nat i) (items q)) !! k =
    (λ it, mkItem (data it)
      (if decide (k = a) then Z.of_nat j else if decide (k = b) then Z.of_nat i else index it)) <$> items q !! k).
  { intros k. rewrite !set_index_lookup. repeat case_decide; destruct (items q !! k) as [[]|]; done. }
  split; cbn [h items next].
  - intros k id Hk. rewrite Hit. destruct (decide (k = i)) as [->|Hki].
    { rewrite list_lookup_insert_eq in Hk by (by rewrite length_insert). simplify_eq.
      destruct (ok_index _ Hok _ _ Hb) as (it & -> & _). simpl. eexists. split; [done|]. simpl.
      repeat case_decide; try done. naive_solver. }
    rewrite list_lookup_insert_ne in Hk by done. destruct (decide (k = j)) as [->|Hkj].
    { rewrite list_lookup_insert_eq in Hk by done. simplify_eq.
      destruct (ok_index _ Hok _ _ Ha) as (it & -> & _). simpl. eexists. split; [done|]. simpl. by rewrite decide_True. }
    rewrite list_lookup_insert_ne in Hk by done.
    destruct (ok_index _ Hok _ _ Hk) as (it & -> & Hix). simpl. eexists. split; [done|]. simpl.
    rewrite !decide_False; [done| |]; intros ->; [apply Hkj|apply Hki]; by apply (index_inj q _ _ _ Hok Hk).
  - intros id it Hid Hix. rewrite Hit in Hid. destruct (items q !! id) as [it0|] eqn:Hit0; simplify_eq/=.
    repeat case_decide; subst.
    + rewrite Nat2Z.id. destruct (decide (i = j)) as [->|Hij]; [|rewrite list_lookup_insert_ne by done].
      * rewrite list_lookup_insert_eq by (by rewrite length_insert). naive_solver.
      * by rewrite list_lookup_insert_eq.
    + rewrite Nat2Z.id, list_lookup_insert_eq; [done|by rewrite length_insert].
    + pose proof (ok_out _ Hok _ _ Hit0 Hix) as Hl. rewrite !list_lookup_insert_ne; [done| |]; intros ->; congruence.
  - intros id it Hid. rewrite Hit in Hid. destruct (items q !! id) as [it0|] eqn:Hit0; simplify_eq/=.
    repeat case_decide; try lia. by apply (ok_neg _ Hok id).
  - intros id [it Hid]. rewrite Hit in Hid. apply (ok_next _ Hok). destruct (items q !! id); [eauto|done].
Qed.

Lemma Swap_rank q i j k : rank_of (Swap i j q) k = rank_of q k.
Proof.
  unfold Swap. destruct (h q !! i) as [a|]; [|done]. destruct (h q !! j) as [b|]; [|done].
  unfold rank_of. cbn [items]. rewrite !set_index_lookup.
  repeat case_decide; by destruct (items q !! k).
Qed.

Lemma view_ext q hs m nx :
  (∀ k, rank_of (mkHeap hs m nx) k = rank_of q k) →
  heap_view (mkHeap hs m nx) = (λ id, (rank_of q id, id)) <$> hs.
Proof. intros Hp. unfold heap_view. cbn [h]. apply list_fmap_ext. intros i id _. by rewrite Hp. Qed.

Lemma Swap_view q i j : (i < length (h q))%nat → (j < length (h q))%nat →
  heap_view (Swap i j q) = lswap i j (heap_view q).
Proof.
  intros Hi Hj. apply lookup_lt_is_Some_2 in Hi as [a Ha]. apply lookup_lt_is_Some_2 in Hj as [b Hb].
  pose proof (Swap_rank q i j) as Hp. unfold lswap, heap_view at 2 3 4. rewrite !list_lookup_fmap, Ha, Hb. simpl.
  unfold Swap in *. rewrite Ha, Hb in *. rewrite (view_ext q) by done. by rewrite !list_fmap_insert.
Qed.

#[local] Instance item_laws : HeapLaws IHeap nat nat.
Proof.
  refine {| view := heap_view; ok := heap_ok |}.
  - intros q _. unfold heap_view. by rewrite length_fmap.
  - intros q i j _ Hi Hj. unfold heap_view in *. rewrite length_fmap in *.
    apply lookup_lt_is_Some_2 in Hi as [a Ha]. apply lookup_lt_is_Some_2 in Hj as [b Hb].
    cbn [hLess item_heap]. unfold Less, key. by rewrite !list_lookup_fmap, Ha, Hb.
  - intros q i j Hok Hi Hj. unfold heap_view in Hi, Hj. rewrite length_fmap in *. split; [by apply Swap_ok|].
    by apply Swap_view.
Defined.

(** ** The operations *)

Definition inv (q : IHeap) : Prop :=
  heap_ok q ∧ heap_order (heap_view q) (length (heap_view q)).

Lemma contents_lookup q id :
  contents q !! id = items q !! id ≫= λ it, if 0 <=? index it then Some (data it) else None.
Proof. unfold contents. by rewrite lookup_omap. Qed.

Lemma contents_queued q id : heap_ok q → id ∈ h q ↔ is_Some (contents q !! id).
Proof.
  intros Hok. rewrite contents_lookup. split.
  - intros [i Hi]%list_elem_of_lookup. destruct (ok_index _ Hok _ _ Hi) as (it & -> & Hix). simpl.
    destruct (Z.leb_spec 0 (index it)); [eauto|lia].
  - intros [vp H']. destruct (items q !! id) as [it|] eqn:Hit; simpl in H'; [|done].
    destruct (Z.leb_spec 0 (index it)); [|done]. eapply list_elem_of_lookup_2, (ok_out _ Hok); eauto.
Qed.

Lemma contents_rank q id v : contents q !! id = Some v → rank_of q id = rank v.
Proof.
  rewrite contents_lookup. unfold rank_of. destruct (items q !! id) as [it|]; simpl; [|done].
  destruct (0 <=? index it); [by intros; simplify_eq|done].
Qed.

(** All items, queued or not. *)
Definition store (q : IHeap) : gmap nat V := data <$> items q.

(** Exchanges move items and nothing else. *)
Definition same_items (c st : gmap nat V) (nx : nat) (q : IHeap) : Prop :=
  heap_ok q ∧ contents q = c ∧ store q = st ∧ next q = nx.

Lemma store_set_index q hs id i nx : store (mkHeap hs (set_index id i (items q)) nx) = store q.
Proof.
  unfold store. cbn [items]. apply map_eq. intros k. rewrite !lookup_fmap, set_index_lookup.
  case_decide; by destruct (items q !! k).
Qed.

Lemma Swap_same_items c st nx i j q : same_items c st nx q → same_items c st nx (Swap i j q).
Proof.
  intros (Hok & <- & <- & <-). split; [by apply Swap_ok|]. unfold Swap.
  destruct (h q !! i) as [a|] eqn:Ha; [|done]. destruct (h q !! j) as [b|] eqn:Hb; [|done]. split; [|split; [|done]].
  - apply map_eq. intros k. rewrite !contents_lookup. cbn [items]. rewrite !set_index_lookup.
    destruct (ok_index _ Hok _ _ Ha) as (ia & Hia & Hxa). destruct (ok_index _ Hok _ _ Hb) as (ib & Hib & Hxb).
    repeat case_decide; subst; rewrite ?Hia, ?Hib; simpl; zcases; done || lia.
  - etrans; [|apply (store_set_index q (h q) b (Z.of_nat i) (next q))].
    apply (store_set_index (mkHeap (h q) (set_index b (Z.of_nat i) (items q)) (next q))).
Qed.

Lemma length_contents q : heap_ok q → length (h q) = size (contents q).
Proof.
  intros Hok. rewrite <- size_dom.
  assert (Hnd : NoDup (h q)) by (apply NoDup_alt; intros i j id; by apply index_inj).
  rewrite <- (size_list_to_set (C := gset nat) (h q)) by done. f_equal. apply leibniz_equiv. intros id.
  rewrite elem_of_list_to_set, elem_of_dom. by apply contents_queued.
Qed.

(** [heap.Push] of an item that is not queued: a fresh one, or one popped before. *)
Section push.
Context (q : IHeap) (id : nat) (v : V) (ix : Z) (nx : nat).
Context (Hok : heap_ok q) (Hid : contents q !! id = None) (Hnx : (id < nx)%nat) (Hnext : (next q ≤ nx)%nat).
Let q0 : IHeap := mkHeap (h q) (<[id := mkItem v ix]> (items q)) nx.
Let q1 : IHeap := iPush id q0.

Lemma queued_ne i id' : h q !! i = Some id' → id' ≠ id.
Proof.
  intros Hi ->. apply list_elem_of_lookup_2, contents_queued in Hi as [w Hw]; [|done]. congruence.
Qed.

Lemma pushed_items k :
  items q1 !! k = if decide (k = id) then Some (mkItem v (Z.of_nat (length (h q)))) else items q !! k.
Proof.
  unfold q1, iPush, q0. cbn [items h]. rewrite set_index_lookup.
  case_decide as Hk; [subst; by rewrite lookup_insert_eq|by rewrite lookup_insert_ne].
Qed.

Lemma pushed_ok : heap_ok q1.
Proof.
  pose proof pushed_items as Hit. split.
  - intros i k. change (h q1) with (h q ++ [id]). rewrite Hit. intros [Hi|[Hi Hk]]%lookup_app_Some.
    + rewrite decide_False by (by eapply queued_ne). by apply (ok_index _ Hok).
    + apply list_lookup_singleton_Some in Hk as [Hz <-]. rewrite decide_True by done.
      eexists. split; [done|]. simpl. lia.
  - intros k it. change (h q1) with (h q ++ [id]). rewrite Hit. case_decide as Hd; intros Hk Hix.
    + simplify_eq/=. by rewrite Nat2Z.id, list_lookup_middle.
    + apply lookup_app_l_Some. by apply (ok_out _ Hok).
  - intros k it. rewrite Hit. case_decide; intros Hk; [simplify_eq/=; lia|by apply (ok_neg _ Hok k)].
  - intros k. rewrite Hit. change (next q1) with nx. case_decide as Hd; [by subst|].
    intros Hs%(ok_next _ Hok). lia.
Qed.

Lemma pushed_view : heap_view q1 = heap_view q ++ [(rank v, id)].
Proof.
  unfold heap_view. change (h q1) with (h q ++ [id]). rewrite fmap_app. f_equal.
  - apply list_fmap_ext. intros i k Hi. unfold rank_of.
    by rewrite pushed_items, decide_False by (by eapply queued_ne).
  - simpl. unfold rank_of. by rewrite pushed_items, decide_True.
Qed.

Lemma pushed_same : same_items (<[id := v]> (contents q)) (<[id := v]> (store q)) nx q1.
Proof.
  split; [apply pushed_ok|]. split; [|split; [|done]].
  - apply map_eq. intros k. rewrite contents_lookup, pushed_items. case_decide as Hk.
    + subst k. rewrite lookup_insert_eq. simpl. by destruct (Z.leb_spec 0 (Z.of_nat (length (h q)))); [|lia].
    + rewrite lookup_insert_ne by done. by rewrite contents_lookup.
  - apply map_eq. intros k. unfold store. rewrite lookup_fmap, pushed_items. case_decide as Hk.
    + subst k. by rewrite lookup_insert_eq.
    + by rewrite lookup_insert_ne, lookup_fmap.
Qed.

Lemma heap_Push_inv : heap_order (heap_view q) (length (heap_view q)) →
  inv (Heap.Push q0 id) ∧
  same_items (<[id := v]> (contents q)) (<[id := v]> (store q)) nx (Heap.Push q0 id).
Proof.
  intros Ho. destruct (@heap_Push_spec IHeap nat nat item_heap item_laws q0 id _ _ pushed_ok pushed_view Ho) as (Hok2 & Ho2 & _).
  split; [by split|]. apply (@Push_preserves IHeap nat item_heap _ (Swap_same_items _ _ _)), pushed_same.
Qed.
End push.

Lemma heap_view_elem q id k : heap_ok q →
  (k, id) ∈ heap_view q ↔ ∃ v, contents q !! id = Some v ∧ k = rank v.
Proof.
  intros Hok. unfold heap_view. rewrite list_elem_of_fmap. split.
  - intros (id' & Heq & Hid). simplify_eq. apply contents_queued in Hid as [v Hc]; [|done].
    exists v. split; [done|]. by rewrite (contents_rank _ _ _ Hc).
  - intros (v & Hc & ->). exists id. rewrite (contents_rank _ _ _ Hc). split; [done|].
    apply contents_queued; [done|]. by eexists.
Qed.

(** The method [Pop] drops the last item. *)
Lemma iPop_spec q l id k c st nx :
  same_items c st nx q → heap_view q = l ++ [(k, id)] →
  ∃ q', iPop q = Some (id, q') ∧ heap_ok q' ∧ heap_view q' = l ∧
    contents q' = delete id c ∧ store q' = st ∧ next q' = nx.
Proof.
  intros (Hok & <- & <- & <-) Hv. unfold heap_view in Hv. apply fmap_app_inv in Hv as (l1 & l2 & -> & Hl2 & Hh).
  destruct l2 as [|id' [|? ?]]; simplify_eq/=. unfold iPop. rewrite Hh, last_snoc. eexists. split; [done|].
  rewrite length_app. simpl. rewrite Nat.add_sub, take_app_length.
  assert (Hlast : h q !! length l1 = Some id') by (by rewrite Hh, list_lookup_middle).
  destruct (ok_index _ Hok _ _ Hlast) as (it & Hit & Hix).
  assert (Hl1 : ∀ i x, l1 !! i = Some x → h q !! i = Some x ∧ x ≠ id').
  { intros i x Hi. assert (Hx : h q !! i = Some x) by (rewrite Hh; by apply lookup_app_l_Some). split; [done|].
    intros ->. apply lookup_lt_Some in Hi. pose proof (index_inj q _ _ _ Hok Hx Hlast). lia. }
  split; [split; cbn [h items next]|split; [|split]].
  - intros i x Hi. destruct (Hl1 i x Hi) as [Hx Hne]. rewrite set_index_lookup, decide_False by done.
    by apply (ok_index _ Hok).
  - intros x ix Hx Hpos. rewrite set_index_lookup in Hx. case_decide as Hd.
    { subst x. rewrite Hit in Hx. simplify_eq/=. lia. }
    pose proof (ok_out _ Hok _ _ Hx Hpos) as Hl. rewrite Hh in Hl. apply lookup_app_Some in Hl as [Hl|[? Hl]]; [done|].
    apply list_lookup_singleton_Some in Hl as [_ ?]. congruence.
  - intros x ix Hx. rewrite set_index_lookup in Hx. case_decide as Hd.
    { subst x. rewrite Hit in Hx. by simplify_eq/=. }
    by apply (ok_neg _ Hok x).
  - intros x [ix Hx]. rewrite set_index_lookup in Hx. apply (ok_next _ Hok).
    case_decide; [|eauto]. destruct (items q !! x); [eauto|done].
  - unfold heap_view. cbn [h]. apply list_fmap_ext. intros i x Hi. by rewrite set_index_rank.
  - apply map_eq. intros x. rewrite contents_lookup. cbn [items]. rewrite set_index_lookup. case_decide as Hd.
    + subst x. by rewrite lookup_delete_eq, Hit.
    + rewrite lookup_delete_ne by done. by rewrite contents_lookup.
  - split; [apply store_set_index|done].
Qed.

Lemma contents_store q id v : contents q !! id = Some v → store q !! id = Some v.
Proof.
  rewrite contents_lookup. unfold store. rewrite lookup_fmap. destruct (items q !! id) as [it|]; simpl; [|done].
  by destruct (0 <=? index it).
Qed.

(** [heap.Pop] removes the first item, which has the smallest rank. *)
Lemma heap_Pop_inv q : inv q → h q ≠ [] →
  ∃ id v q', Heap.Pop q = Some (id, q') ∧ h q !! 0%nat = Some id ∧ contents q !! id = Some v ∧
    (∀ id' v', contents q !! id' = Some v' → rank v ≤ rank v') ∧
    inv q' ∧ contents q' = delete id (contents q) ∧ store q' = store q ∧ next q' = next q.
Proof.
  intros [Hok Ho] Hne.
  destruct (@Pop_prepare IHeap nat nat item_heap item_laws q Hok Ho)
    as (l & [k id] & Hok' & Hv & Hl & _ & Hroot & Hmin).
  { cbn [view item_laws]. unfold heap_view. by destruct (h q). }
  unfold Heap.Pop. set (q' := (heap_down (hSwap 0 (hLen q - 1) q) 0 (hLen q - 1)).1) in *.
  assert (Hsame : same_items (contents q) (store q) (next q) q').
  { apply (@heap_down_preserves IHeap nat item_heap _ (Swap_same_items _ _ _)).
    by apply (Swap_same_items (contents q) (store q) (next q) 0 (hLen q - 1) q). }
  destruct (iPop_spec q' l id k _ _ _ Hsame Hv) as (q2 & Hpop & Hok2 & Hv2 & Hc2 & Hst2 & Hn2).
  cbn [hPop item_heap]. rewrite Hpop. cbn [view item_laws] in Hroot, Hmin.
  destruct (proj1 (heap_view_elem q id k Hok)) as (v & Hc & ->); [by eapply list_elem_of_lookup_2|].
  exists id, v, q2. split; [done|]. split.
  { unfold heap_view in Hroot. rewrite list_lookup_fmap in Hroot. by destruct (h q !! 0%nat) as [id'|]; simplify_eq/=. }
  split; [done|]. split; [|split; [by split; rewrite ?Hv2|done]].
  intros id' v' Hc'. apply (Hmin (rank v', id')), heap_view_elem; [done|]. eauto.
Qed.

(** ** Changing an item's data *)

Section update.
Context (q : IHeap) (id : nat) (it : Item) (v : V) (Hok : heap_ok q) (Hit : items q !! id = Some it).
Let q1 : IHeap := set_data q id v.

Lemma updated_items k :
  items q1 !! k = if decide (k = id) then Some (mkItem v (index it)) else items q !! k.
Proof.
  unfold q1, set_data. cbn [items]. case_decide; [subst; by rewrite lookup_alter_eq, Hit|by rewrite lookup_alter_ne].
Qed.

Lemma updated_ok : heap_ok q1.
Proof.
  pose proof updated_items as Hu. split; cbn [h next].
  - intros i x Hi. destruct (ok_index _ Hok _ _ Hi) as (y & Hx & ?). rewrite Hu. case_decide; [|eauto].
    subst. simplify_eq. eauto.
  - intros x y. rewrite Hu. case_decide; intros; simplify_eq/=; by apply (ok_out _ Hok).
  - intros x y. rewrite Hu. case_decide; intros; simplify_eq/=; by eapply (ok_neg _ Hok).
  - intros x. rewrite Hu. case_decide; [subst; intros _; apply (ok_next _ Hok); eauto|apply (ok_next _ Hok)].
Qed.

Lemma updated_key k : (h q !! k = Some id → rank v = rank (data it)) → key (heap_view q1) k = key (heap_view q) k.
Proof.
  intros Hk. unfold key, heap_view. rewrite !list_lookup_fmap. change (h q1) with (h q).
  destruct (h q !! k) as [x|] eqn:Hx; [|done]. simpl. unfold rank_of. rewrite updated_items.
  case_decide as Hd; [|done]. subst x. rewrite Hit. by apply Hk.
Qed.

Lemma updated_length : length (heap_view q1) = length (heap_view q).
Proof. unfold heap_view. by rewrite !length_fmap. Qed.

Lemma updated_same : same_items (alter (λ _, v) id (contents q)) (<[id := v]> (store q)) (next q) q1.
Proof.
  split; [apply updated_ok|]. split; [|split; [|done]]; apply map_eq; intros k.
  - rewrite contents_lookup, updated_items. case_decide as Hk.
    + subst. rewrite lookup_alter_eq, contents_lookup, Hit. simpl. by destruct (0 <=? index it).
    + rewrite lookup_alter_ne by done. by rewrite contents_lookup.
  - unfold store. rewrite lookup_fmap, updated_items. case_decide as Hk.
    + subst. by rewrite lookup_insert_eq.
    + by rewrite lookup_insert_ne, lookup_fmap.
Qed.

(** The rank may change: [heap.Fix] at the item's index. *)
Lemma heap_Fix_inv : heap_order (heap_view q) (length (heap_view q)) → 0 ≤ index it →
  inv (Heap.Fix q1 (Z.to_nat (index it))) ∧
  same_items (alter (λ _, v) id (contents q)) (<[id := v]> (store q)) (next q) (Heap.Fix q1 (Z.to_nat (index it))).
Proof.
  intros Ho Hix. pose proof (ok_out _ Hok _ _ Hit Hix) as Hh.
  destruct (@Fix_spec IHeap nat nat item_heap item_laws q1 (Z.to_nat (index it)) updated_ok) as (Hok2 & Ho2 & Hp).
  - cbn [view item_laws]. rewrite updated_length. apply (heap_order_fix_ok (heap_view q)); [done|].
    intros k Hk. apply updated_key. intros Hx. exfalso. apply Hk. by apply (index_inj q _ _ _ Hok Hx).
  - cbn [view item_laws]. rewrite updated_length. unfold heap_view. rewrite length_fmap. by eapply lookup_lt_Some.
  - split.
    + split; [exact Hok2|]. cbn [view item_laws] in *. by rewrite (Permutation_length Hp).
    + apply (@Fix_preserves IHeap nat item_heap _ (Swap_same_items _ _ _)), updated_same.
Qed.

(** The rank does not change, or the item is not queued. *)
Lemma set_data_inv : heap_order (heap_view q) (length (heap_view q)) →
  rank v = rank (data it) ∨ contents q !! id = None →
  inv q1 ∧ same_items (alter (λ _, v) id (contents q)) (<[id := v]> (store q)) (next q) q1.
Proof.
  intros Ho Hr. split; [|apply updated_same]. split; [apply updated_ok|]. rewrite updated_length.
  intros k Hk. assert (Hkey : ∀ j, key (heap_view q1) j = key (heap_view q) j); [|rewrite !Hkey; by apply Ho].
  intros j. apply updated_key. intros Hj. destruct Hr as [|Hn]; [done|].
  apply list_elem_of_lookup_2, contents_queued in Hj as [w Hw]; [|done]. congruence.
Qed.
End update.

Lemma empty_inv : inv (mkHeap [] ∅ 0).
Proof.
  split; [split|]; cbn [h items].
  - intros i id Hi. by rewrite lookup_nil in Hi.
  - intros id it Hid. by rewrite lookup_empty in Hid.
  - intros id it Hid. by rewrite lookup_empty in Hid.
  - intros id [it Hid]. by rewrite lookup_empty in Hid.
  - intros k Hk. simpl in Hk. lia.
Qed.
End item_heap.
