(* ===== verification/PriorityQueue.v ===== *)
(** * PriorityQueue: the max-heap of [priorityqueue/priorityqueue.go]

    Items carry a value and a priority and, for [Update], their position
    (ItemHeap.v); higher priorities rank first.  The specification is a finite
    map from items to value and priority. *)

From Stdlib Require Import ZArith Lia.
From stdpp Require Import base tactics numbers list gmap sets.
From S2P Require Import Prelude Heap ItemHeap.

#[local] Open Scope Z_scope.

Section queue.
Context {T : Type}.

(** [Item]: value and priority; the index is the one of ItemHeap.v. *)
Record Payload := mkPayload { Value : T; Priority : Z }.

(** [Less]: higher [Priority] ranks first. *)
Definition rank (x : Payload) : Z := - Priority x.

Definition Queue : Type := @IHeap Payload.

#[local] Notation heap_Push := (@Heap.Push _ _ (item_heap rank)).
#[local] Notation heap_Pop := (@Heap.Pop _ _ (item_heap rank)).
#[local] Notation heap_Fix := (@Heap.Fix _ _ (item_heap rank)).

Definition New : Queue := mkHeap [] ∅ 0.

Definition Len (q : Queue) : Z := Z.of_nat (length (h q)).

Definition Push (q : Queue) (v : T) (p : Z) : nat * Queue :=
  (next q, heap_Push (alloc q (mkPayload v p)) (next q)).

Definition value_of (q : Queue) (id : nat) : option (T * Z) :=
  (λ it, (Value (data it), Priority (data it))) <$> items q !! id.

Definition Pop (q : Queue) : option (T * Z) * Queue :=
  if Len q =? 0 then (None, q)
  else match heap_Pop q with
       | Some (id, q') => (value_of q' id, q')
       | None => (None, q)
       end.

Definition Peek (q : Queue) : option (T * Z) :=
  if Len q =? 0 then None else id ← h q !! 0%nat; value_of q id.

(** [None]: a nil pointer. *)
Definition Update (q : Queue) (item : option nat) (p : Z) : Queue :=
  match item ≫= λ id, (λ it, (id, it)) <$> items q !! id with
  | None => q
  | Some (id, it) =>
      if (index it <? 0) || (Len q <=? index it) then q
      else heap_Fix (set_data q id (mkPayload (Value (data it)) p)) (Z.to_nat (index it))
  end.

(** ** The operations *)

Definition queue_inv (q : Queue) : Prop := inv rank q.

Definition max_of (c : gmap nat Payload) (id : nat) (x : Payload) : Prop :=
  c !! id = Some x ∧ ∀ id' x', c !! id' = Some x' → Priority x' ≤ Priority x.

Lemma value_of_store (q : Queue) id x : store q !! id = Some x → value_of q id = Some (Value x, Priority x).
Proof. unfold store, value_of. rewrite lookup_fmap. destruct (items q !! id); simpl; by intros; simplify_eq. Qed.

Lemma Push_refines q v p (id := (Push q v p).1) (q' := (Push q v p).2) :
  queue_inv q → queue_inv q' ∧ contents q !! id = None ∧ contents q' = <[id := mkPayload v p]> (contents q).
Proof.
  intros [Hok Ho]. assert (Hid : contents q !! next q = None).
  { rewrite contents_lookup. destruct (items q !! next q) eqn:Hn; [|done].
    pose proof (ok_next _ Hok (next q) ltac:(eauto)). lia. }
  destruct (heap_Push_inv rank q (next q) (mkPayload v p) 0 (S (next q)) Hok Hid) as (Hi & _ & Hc & _); [lia|lia|done|].
  done.
Qed.

Lemma Pop_refines q : queue_inv q → (Len q =? 0) = false →
  ∃ id x, max_of (contents q) id x ∧ Peek q = Some (Value x, Priority x) ∧
    (Pop q).1 = Some (Value x, Priority x) ∧ queue_inv (Pop q).2 ∧ contents (Pop q).2 = delete id (contents q).
Proof.
  intros Hinv Hz. unfold Pop, Peek. rewrite Hz.
  destruct (heap_Pop_inv rank q Hinv) as (id & x & q' & HP & H0 & Hc & Hmin & Hinv' & Hc' & Hst & _).
  { intros He. unfold Len in Hz. by rewrite He in Hz. }
  rewrite HP, H0. pose proof (contents_store _ _ _ Hc) as Hs. exists id, x. split.
  { split; [done|]. intros id' x' H'. specialize (Hmin id' x' H'). unfold rank in Hmin. lia. }
  simpl. rewrite !(value_of_store _ id x) by (by rewrite ?Hst). done.
Qed.

Lemma Update_refines q id p : queue_inv q →
  match contents q !! id with
  | Some x => queue_inv (Update q (Some id) p) ∧
      contents (Update q (Some id) p) = <[id := mkPayload (Value x) p]> (contents q)
  | None => Update q (Some id) p = q
  end.
Proof.
  intros [Hok Ho]. unfold Update. cbn [mbind option_bind]. rewrite contents_lookup.
  destruct (items q !! id) as [it|] eqn:Hit; cbn [mbind option_bind fmap option_fmap option_map]; [|done].
  destruct (Z.ltb_spec (index it) 0) as [Hneg|Hpos]; cbn [orb].
  { by destruct (Z.leb_spec 0 (index it)); [lia|]. }
  pose proof (lookup_lt_Some _ _ _ (ok_out _ Hok _ _ Hit Hpos)) as Hlt.
  destruct (Z.leb_spec (Len q) (index it)) as [Hle|_]; [unfold Len in Hle; lia|].
  destruct (heap_Fix_inv rank q id it (mkPayload (Value (data it)) p) Hok Hit Ho Hpos) as (Hi & _ & Hc & _).
  destruct (Z.leb_spec 0 (index it)) as [_|]; [|lia]. split; [done|]. rewrite Hc.
  apply map_eq. intros k. destruct (decide (k = id)) as [->|Hk]; [|by rewrite lookup_alter_ne, lookup_insert_ne].
  rewrite lookup_alter_eq, lookup_insert_eq, contents_lookup, Hit. simpl. by destruct (Z.leb_spec 0 (index it)); [|lia].
Qed.

(** C37: a queue whose index fields agree with its slice and whose slice is in heap
    order keeps both, and implements a finite map from items to value and
    priority: [Push] adds a fresh item, [Peek] returns and [Pop] removes an item of
    maximal priority, [Update] changes the priority of a queued item and ignores
    nil, popped and unknown ones, [Len] is the size. *)
Theorem priorityqueue_refines q :
  queue_inv q →
  Len q = Z.of_nat (size (contents q)) ∧
  (∀ v p, let '(id, q') := Push q v p in
    queue_inv q' ∧ contents q !! id = None ∧ contents q' = <[id := mkPayload v p]> (contents q)) ∧
  (if Len q =? 0 then contents q = ∅ ∧ Peek q = None ∧ Pop q = (None, q)
   else ∃ id x, max_of (contents q) id x ∧ Peek q = Some (Value x, Priority x) ∧
     (Pop q).1 = Some (Value x, Priority x) ∧
     queue_inv (Pop q).2 ∧ contents (Pop q).2 = delete id (contents q)) ∧
  (∀ p, Update q None p = q ∧ ∀ id,
    match contents q !! id with
    | Some x => queue_inv (Update q (Some id) p) ∧
        contents (Update q (Some id) p) = <[id := mkPayload (Value x) p]> (contents q)
    | None => Update q (Some id) p = q
    end).
Proof.
  intros Hinv. assert (HL : Len q = Z.of_nat (size (contents q))).
  { unfold Len. by rewrite (length_contents q) by apply Hinv. }
  split; [done|]. split; [|split].
  - intros v p. pose proof (Push_refines q v p Hinv). by destruct (Push q v p).
  - destruct (Len q =? 0) eqn:Hz; [|by apply Pop_refines]. unfold Peek, Pop. rewrite Hz. split; [|done].
    apply Z.eqb_eq in Hz. apply map_size_empty_inv. lia.
  - intros p. split; [done|]. intros id. by apply Update_refines.
Qed.
End queue.

Lemma priorityqueue_refines_witness :
  let q := (Push (Push (New (T := nat)) 7%nat 1).2 8%nat 5).2 in
  Len (Push (New (T := nat)) 7%nat 1).2 = 1 ∧ (Pop q).1 = Some (8%nat, 5) ∧
  (Pop (Update q (Some 0%nat) 9)).1 = Some (7%nat, 9).
Proof.
  destruct (priorityqueue_refines (New (T := nat)) (empty_inv rank)) as (_ & HP & _).
  pose proof (HP 7%nat 1) as H1. destruct (Push New 7%nat 1) as [id1 q1] eqn:E1. destruct H1 as (I1 & _ & C1).
  destruct (priorityqueue_refines q1 I1) as (L1 & _). rewrite C1 in L1.
  cbv zeta. cbn [snd]. split.
  { rewrite L1. clear L1. injection E1 as <- _. vm_compute. reflexivity. }
  replace q1 with (Push (New (T := nat)) 7%nat 1).2 by (by rewrite E1). split; vm_compute; reflexivity.
Defined.
