(* ===== verification/TopK.v ===== *)
(** * TopK: the streaming leaderboard of [topk/topk.go]

    A min-heap of the [k] leaders and a map with the counts of the leaders and of
    at most [3k] candidates.  The order in which Go ranges over the map is a
    parameter.  The heap is an instance of [HeapInterface].

    Shown: memory stays below [4k] counters, a count never exceeds the true
    number of touches, no candidate exceeds a leader, and as long as the stream
    has at most [4k] distinct keys the counts are exact and [Top] is a true
    ranking of the [k] most frequent keys. *)

From Stdlib Require Import ZArith Lia String.
From stdpp Require Import base tactics numbers list gmap sets strings sorting.
From S2P Require Import Prelude Heap.

#[local] Open Scope Z_scope.

Definition candidateFactor : Z := 4.

Record item := mkItem { ikey : string; count : Z; index : Z }.
Record Tracker := mkTracker { k : Z; cap : Z; counts : gmap string Z; minHeap : list item }.

Definition with_index (it : item) (i : Z) : item := mkItem (ikey it) (count it) i.

Definition hLess_ (h : list item) (i j : nat) : bool :=
  match h !! i, h !! j with Some a, Some b => count a <? count b | _, _ => false end.
Definition hSwap_ (i j : nat) (h : list item) : list item :=
  match h !! i, h !! j with
  | Some a, Some b => <[i := with_index b (Z.of_nat i)]> (<[j := with_index a (Z.of_nat j)]> h)
  | _, _ => h
  end.
Definition hPush_ (it : item) (h : list item) : list item :=
  h ++ [with_index it (Z.of_nat (length h))].
Definition hPop_ (h : list item) : option (item * list item) :=
  match last h with
  | Some it => Some (with_index it (-1), take (length h - 1) h)
  | None => None
  end.

#[global] Instance topk_heap : HeapInterface (list item) item := {
  hLen := length; hLess := hLess_; hSwap := hSwap_; hPush := hPush_; hPop := hPop_ }.

(** [None]: panics. *)
Definition New (k : Z) : option Tracker :=
  if k <=? 0 then None else Some (mkTracker k (i64 (candidateFactor * k)) ∅ []).

Definition get (m : gmap string Z) (x : string) : Z := default 0 (m !! x).
Definition Count (t : Tracker) (x : string) : Z := get (counts t) x.
Definition Len (t : Tracker) : Z := Z.of_nat (length (minHeap t)).

(** [for _, it := range *t.minHeap { if it.key == key ... }] *)
Fixpoint find_key (h : list item) (x : string) (i : nat) : option nat :=
  match h with
  | [] => None
  | it :: h => if decide (ikey it = x) then Some i else find_key h x (S i)
  end.

Section tracker.
(** The order in which the runtime ranges over a map. *)
Context (range : gmap string Z → list (string * Z)).

(** The scan for the smallest candidate: [drop] is [dropKey] and [dropCount]
    once [first] is false. *)
Fixpoint scan (h : list item) (l : list (string * Z)) (drop : option (string * Z)) : option (string * Z) :=
  match l with
  | [] => drop
  | (x, c) :: l =>
      if existsb (λ it, bool_decide (ikey it = x)) h then scan h l drop
      else
        let drop :=
          match drop with
          | None => Some (x, c)
          | Some (dk, dc) => if (c <? dc) || ((c =? dc) && String.ltb x dk) then Some (x, c) else drop
          end in
        scan h l drop
  end.

(** Every iteration deletes a key: as many iterations as there are keys. *)
Fixpoint evict_loop (fuel : nat) (h : list item) (cap : Z) (m : gmap string Z) : gmap string Z :=
  match fuel with
  | O => m
  | S fuel =>
      if Z.of_nat (size m) <=? cap then m
      else match scan h (range m) None with
           | None => m
           | Some (x, _) => evict_loop fuel h cap (delete x m)
           end
  end.
Definition evictCandidates (t : Tracker) : Tracker :=
  mkTracker (k t) (cap t) (evict_loop (size (counts t)) (minHeap t) (cap t) (counts t)) (minHeap t).

Definition TouchN (t : Tracker) (x : string) (n : Z) : Tracker :=
  if n <=? 0 then t
  else
    match find_key (minHeap t) x 0 with
    | Some i =>
        let c := i64 (get (counts t) x + n) in
        let h := alter (λ it, mkItem (ikey it) c (index it)) i (minHeap t) in
        let idx := match h !! i with Some it => index it | None => 0 end in
        mkTracker (k t) (cap t) (<[x := c]> (counts t)) (Fix h (Z.to_nat idx))
    | None =>
        let newCount := i64 (get (counts t) x + n) in
        if Len t <? k t then
          mkTracker (k t) (cap t) (<[x := newCount]> (counts t)) (Push (minHeap t) (mkItem x newCount 0))
        else
          let min := match minHeap t !! 0%nat with Some it => count it | None => 0 end in
          let h :=
            if min <? newCount then
              let h := match Pop (minHeap t) with Some (_, h) => h | None => minHeap t end in
              Push h (mkItem x newCount 0)
            else minHeap t in
          evictCandidates (mkTracker (k t) (cap t) (<[x := newCount]> (counts t)) h)
    end.
Definition Touch (t : Tracker) (x : string) : Tracker := TouchN t x 1.
End tracker.

Definition Reset (t : Tracker) : Tracker := mkTracker (k t) (cap t) ∅ [].

(** [Top]: [slices.SortFunc] is not stable, so any sorted permutation. *)
Definition entries (t : Tracker) : list (string * Z) := (λ it, (ikey it, count it)) <$> minHeap t.
Definition Top (t : Tracker) (out : list (string * Z)) : Prop :=
  out ≡ₚ entries t ∧ StronglySorted (λ a b, b.2 ≤ a.2) out.

(** ** The heap laws *)

Definition items_view (h : list item) : list (Z * string) := (λ it, (count it, ikey it)) <$> h.
Definition items_ok (h : list item) : Prop := ∀ i it, h !! i = Some it → index it = Z.of_nat i.

Lemma items_ok_insert h i it j : items_ok h → index it = Z.of_nat j → i = j → items_ok (<[i := it]> h).
Proof.
  intros Hok Hi ->. intros a b [(-> & <- & _)|[_ Hab]]%list_lookup_insert_Some; [done|by apply Hok].
Qed.

Lemma Swap_items h i j : items_ok h → (i < length (items_view h))%nat → (j < length (items_view h))%nat →
  items_ok (hSwap_ i j h) ∧ items_view (hSwap_ i j h) = lswap i j (items_view h).
Proof.
  unfold items_view. rewrite length_fmap. intros Hok Hi Hj.
  apply lookup_lt_is_Some_2 in Hi as [a Ha]. apply lookup_lt_is_Some_2 in Hj as [b Hb].
  unfold hSwap_, lswap. rewrite !list_lookup_fmap, Ha, Hb. simpl. split.
  - eapply items_ok_insert; [|done|done]. by eapply items_ok_insert.
  - by rewrite !list_fmap_insert.
Qed.

#[global] Instance topk_laws : HeapLaws (list item) item string.
Proof.
  refine {| view := items_view; ok := items_ok |}.
  - intros h _. unfold items_view. by rewrite length_fmap.
  - intros h i j _ Hi Hj. unfold items_view in *. rewrite length_fmap in *.
    apply lookup_lt_is_Some_2 in Hi as [a Ha]. apply lookup_lt_is_Some_2 in Hj as [b Hb].
    cbn [hLess topk_heap]. unfold hLess_, key. by rewrite !list_lookup_fmap, Ha, Hb.
  - exact Swap_items.
Defined.

(** A heap as the tracker keeps it. *)
Definition heap_inv (h : list item) : Prop :=
  items_ok h ∧ heap_order (items_view h) (length (items_view h)).

Lemma Push_heap h it : heap_inv h →
  heap_inv (Push h it) ∧ items_view (Push h it) ≡ₚ items_view h ++ [(count it, ikey it)].
Proof.
  intros [Hok Ho].
  destruct (@heap_Push_spec _ _ _ topk_heap topk_laws h it (items_view h) (count it, ikey it)) as (H1 & H2 & H3); [| |done|done].
  - intros i x [Hi|[Hi Hx]]%lookup_app_Some; [by apply Hok|].
    apply list_lookup_singleton_Some in Hx as [Hz <-]. simpl. lia.
  - cbn [view topk_laws hPush topk_heap]. unfold items_view, hPush_. by rewrite fmap_app.
Qed.

Lemma Pop_heap h : heap_inv h → h ≠ [] → ∃ it h' m, Pop h = Some (it, h') ∧ heap_inv h' ∧ h !! 0%nat = Some m ∧
  items_view h' ++ [(count m, ikey m)] ≡ₚ items_view h ∧ ∀ a, a ∈ items_view h → count m ≤ a.1.
Proof.
  intros [Hok Ho] Hne.
  destruct (@Pop_prepare _ _ _ topk_heap topk_laws h Hok Ho) as (l & a & Hok' & Hv & Hl & Hp & Hr & Hmin).
  { cbn [view topk_laws]. unfold items_view. by destruct h. }
  unfold Pop. set (h' := (heap_down _ 0 _).1) in *. cbn [view ok topk_laws] in *. cbn [hPop topk_heap].
  unfold items_view in Hv. apply fmap_app_inv in Hv as (h1 & h2 & -> & Hh2 & Hh).
  destruct h2 as [|it [|? ?]]; simplify_eq/=. unfold items_view in Hr. rewrite list_lookup_fmap in Hr.
  destruct (h !! 0%nat) as [m|] eqn:Hm; [|done]. injection Hr as Hc Hk.
  unfold hPop_. rewrite Hh, last_snoc, length_app. simpl. rewrite Nat.add_sub, take_app_length.
  exists (with_index it (-1)), h1, m. split; [done|]. split; [split; [|done]|].
  - intros i x Hi. apply Hok'. rewrite Hh. by apply lookup_app_l_Some.
  - split; [done|]. rewrite Hc, Hk. split; [exact Hp|exact Hmin].
Qed.

Lemma view_alter h i it c : h !! i = Some it →
  items_view (alter (λ it, mkItem (ikey it) c (index it)) i h) = <[i := (c, ikey it)]> (items_view h).
Proof.
  intros Hi. unfold items_view. apply list_eq. intros j.
  destruct (decide (j = i)) as [->|Hj].
  - rewrite list_lookup_fmap, list_lookup_alter_eq, Hi, list_lookup_insert_eq; [done|].
    rewrite length_fmap. by eapply lookup_lt_Some.
  - by rewrite list_lookup_insert_ne, !list_lookup_fmap, list_lookup_alter_ne.
Qed.

Lemma Fix_heap h i it c : heap_inv h → h !! i = Some it →
  let h1 := alter (λ it, mkItem (ikey it) c (index it)) i h in
  heap_inv (Fix h1 i) ∧ items_view (Fix h1 i) ≡ₚ <[i := (c, ikey it)]> (items_view h).
Proof.
  intros [Hok Ho] Hi h1. pose proof (view_alter h i it c Hi) as Hv. fold h1 in Hv.
  assert (Hok1 : items_ok h1).
  { intros j x Hj. unfold h1 in Hj. destruct (decide (j = i)) as [->|Hne].
    - rewrite list_lookup_alter_eq, Hi in Hj. simplify_eq/=. by apply Hok.
    - rewrite list_lookup_alter_ne in Hj by done. by apply Hok. }
  assert (Hlt : (i < length (items_view h))%nat) by (unfold items_view; rewrite length_fmap; by eapply lookup_lt_Some).
  destruct (@Fix_spec _ _ _ topk_heap topk_laws h1 i Hok1) as (H1 & H2 & H3); cbn [view topk_laws] in *.
  - rewrite Hv, length_insert. apply (heap_order_fix_ok (items_view h)); [done|].
    intros j Hj. unfold key. by rewrite list_lookup_insert_ne.
  - by rewrite Hv, length_insert.
  - split; [|by rewrite H3, Hv]. split; [done|]. by rewrite (Permutation_length H3).
Qed.

(** ** Specification: the log of touches *)

Definition true_count (x : string) (l : list (string * Z)) : Z :=
  zsum (snd <$> filter (λ e, e.1 = x) l).
Definition distinct (l : list (string * Z)) : gset string := list_to_set l.*1.
Definition log_sum (l : list (string * Z)) : Z := zsum l.*2.

(** The heap's entries: count and key. *)
Definition leaders (t : Tracker) : list (Z * string) := items_view (minHeap t).

(** Everything but the memory bound. *)
Record rep0 (t : Tracker) (l : list (string * Z)) : Prop := {
  rep_k : 0 < k t ∧ cap t = 4 * k t;
  rep_log : Forall (λ e, 0 < e.2) l ∧ log_sum l ≤ max_i64;
  rep_heap : heap_inv (minHeap t);
  rep_keys : NoDup (leaders t).*2;
  rep_len : Z.of_nat (length (leaders t)) ≤ k t;
  rep_leader : ∀ c x, (c, x) ∈ leaders t → counts t !! x = Some c;
  rep_cand : ∀ x c, counts t !! x = Some c → (c, x) ∈ leaders t ∨
    (Z.of_nat (length (leaders t)) = k t ∧ ∀ c' x', (c', x') ∈ leaders t → c ≤ c');
  rep_sound : ∀ x c, counts t !! x = Some c → 0 < c ≤ true_count x l;
  rep_exact : Z.of_nat (size (distinct l)) ≤ cap t → ∀ x, get (counts t) x = true_count x l }.

Definition rep (t : Tracker) (l : list (string * Z)) : Prop :=
  rep0 t l ∧ Z.of_nat (size (counts t)) ≤ cap t.

Lemma true_count_cons x y n l :
  true_count x ((y, n) :: l) = (if decide (y = x) then n else 0) + true_count x l.
Proof. unfold true_count. rewrite filter_cons. cbn [fst]. case_decide; [by rewrite fmap_cons|done]. Qed.

Lemma true_count_bounds x l : Forall (λ e, 0 < e.2) l → 0 ≤ true_count x l ≤ log_sum l.
Proof.
  unfold log_sum. induction 1 as [|[y n] l Hn Hl IH]; [done|]. rewrite true_count_cons, fmap_cons. cbn [zsum].
  simpl in *. case_decide; lia.
Qed.

Lemma true_count_pos x l : 0 < true_count x l → x ∈ distinct l.
Proof.
  unfold distinct. induction l as [|[y n] l IH]; [by unfold true_count; simpl; lia|].
  rewrite true_count_cons, fmap_cons. cbn [list_to_set fst]. case_decide; set_solver by lia.
Qed.

Lemma get_bounds t l x : rep0 t l → 0 ≤ get (counts t) x ≤ true_count x l.
Proof.
  intros R. unfold get. destruct (counts t !! x) as [c|] eqn:Hc; simpl.
  - apply (rep_sound _ _ R) in Hc. lia.
  - pose proof (true_count_bounds x l (proj1 (rep_log _ _ R))). lia.
Qed.

Lemma find_key_spec h x i :
  match find_key h x i with
  | Some j => ∃ it, (i ≤ j)%nat ∧ h !! (j - i)%nat = Some it ∧ ikey it = x
  | None => x ∉ (items_view h).*2
  end.
Proof.
  revert i. induction h as [|it h IH]; intros i; cbn [find_key]; [by intros ?%elem_of_nil|]. case_decide as Hd.
  - exists it. split; [done|]. by rewrite Nat.sub_diag.
  - specialize (IH (S i)). destruct (find_key h x (S i)) as [j|].
    + destruct IH as (it' & ? & Hj & ?). exists it'. split; [lia|]. split; [|done].
      replace (j - i)%nat with (S (j - S i)) by lia. done.
    + unfold items_view. rewrite !fmap_cons, not_elem_of_cons. simpl. split; [congruence|done].
Qed.

Lemma size_counts_distinct t l : rep0 t l → (size (counts t) ≤ size (distinct l))%nat.
Proof.
  intros R. rewrite <- size_dom. apply subseteq_size. intros x [c Hc]%elem_of_dom.
  apply true_count_pos. apply (rep_sound _ _ R) in Hc. lia.
Qed.

Lemma size_leaders t l : rep0 t l →
  (∀ x c, counts t !! x = Some c → (c, x) ∈ leaders t) → (size (counts t) ≤ length (leaders t))%nat.
Proof.
  intros R Hall. rewrite <- size_dom, <- (length_fmap snd (leaders t)).
  rewrite <- (size_list_to_set (C := gset string) (leaders t).*2) by apply (rep_keys _ _ R).
  apply subseteq_size. intros x [c Hc]%elem_of_dom. apply elem_of_list_to_set, list_elem_of_fmap.
  exists (c, x). split; [done|]. by apply Hall.
Qed.

Lemma map_size_insert_le (x : string) (c : Z) (m : gmap string Z) : (size (<[x := c]> m) ≤ S (size m))%nat.
Proof. rewrite map_size_insert. destruct (m !! x); simpl; lia. Qed.

(** ** Eviction *)

Section evict.
Context (range : gmap string Z → list (string * Z)).
Context (range_perm : ∀ m, range m ≡ₚ map_to_list m).

Lemma heap_member h x : existsb (λ it, bool_decide (ikey it = x)) h = true ↔ x ∈ (items_view h).*2.
Proof.
  unfold items_view. rewrite existsb_exists, <- list_fmap_compose, list_elem_of_fmap. unfold compose. simpl.
  setoid_rewrite <- list_elem_of_In. setoid_rewrite bool_decide_eq_true. naive_solver.
Qed.

Lemma min_scan_spec h l drop :
  match scan h l drop with
  | None => drop = None ∧ ∀ x c, (x, c) ∈ l → x ∈ (items_view h).*2
  | Some (x, c) => (drop = Some (x, c)) ∨ ((x, c) ∈ l ∧ x ∉ (items_view h).*2)
  end.
Proof.
  revert drop. induction l as [|[x c] l IH]; intros drop; cbn [scan].
  { destruct drop as [[dk dc]|]; [by left|]. split; [done|]. by intros ? ? ?%elem_of_nil. }
  destruct (existsb _ h) eqn:He.
  - apply heap_member in He. specialize (IH drop). destruct (scan h l drop) as [[y d]|].
    + destruct IH as [?|[? ?]]; [by left|right; split; [by right|done]].
    + destruct IH as [? IH]. split; [done|]. intros y d [?|Hy]%elem_of_cons; [by simplify_eq|eauto].
  - assert (Hx : x ∉ (items_view h).*2) by (rewrite <- heap_member; congruence).
    set (drop' := match drop with None => _ | _ => _ end).
    assert (Hd : drop' = drop ∧ drop ≠ None ∨ drop' = Some (x, c)).
    { subst drop'. destruct drop as [[dk dc]|]; [case_match|]; auto. }
    specialize (IH drop'). destruct (scan h l drop') as [[y d]|].
    + destruct IH as [Hy|[? ?]]; [|right; split; [by right|done]].
      destruct Hd as [[Hd _]|Hd]; rewrite Hd in Hy; [by left|]. simplify_eq. right. split; [by left|done].
    + destruct IH as [Hn _]. destruct Hd as [[Hd ?]|Hd]; congruence.
Qed.

Lemma rep0_drop t l x :
  rep0 t l → x ∉ (leaders t).*2 → cap t < Z.of_nat (size (counts t)) →
  rep0 (mkTracker (k t) (cap t) (delete x (counts t)) (minHeap t)) l.
Proof.
  intros R Hx Hsz. pose proof (size_counts_distinct t l R) as Hd. destruct R as [Hk Hl Hh Hn Hlen Hle Hc Hs He].
  split; cbn [k cap counts minHeap]; auto; change (leaders (mkTracker _ _ _ (minHeap t))) with (leaders t) in *; auto.
  - intros c y Hy. rewrite lookup_delete_ne; [by apply Hle|]. intros ->. apply Hx, list_elem_of_fmap. by exists (c, y).
  - intros y c Hy. apply lookup_delete_Some in Hy as [_ Hy]. by apply Hc.
  - intros y c Hy. apply lookup_delete_Some in Hy as [_ Hy]. by apply Hs.
  - lia.
Qed.

Lemma evict_rep t l : rep0 t l → Z.of_nat (size (counts t)) ≤ cap t + 1 → rep (evictCandidates range t) l.
Proof.
  intros R Hsz. unfold evictCandidates. destruct (size (counts t)) as [|fuel] eqn:Hf; cbn [evict_loop].
  { split; [by destruct t|]. cbn [counts cap]. destruct (rep_k _ _ R). lia. }
  destruct (Z.leb_spec (Z.of_nat (size (counts t))) (cap t)) as [Hle|Hgt].
  { split; [by destruct t|done]. }
  pose proof (min_scan_spec (minHeap t) (range (counts t)) None) as Hs.
  destruct (scan _ _ None) as [[x c]|].
  - destruct Hs as [?|[Hin Hx]]; [done|]. rewrite range_perm in Hin. apply elem_of_map_to_list in Hin.
    pose proof (rep0_drop t l x R Hx Hgt) as R'.
    assert (Hsz' : Z.of_nat (size (delete x (counts t))) = cap t).
    { rewrite map_size_delete_Some by eauto. lia. }
    assert (Hdone : evict_loop range fuel (minHeap t) (cap t) (delete x (counts t)) = delete x (counts t)).
    { destruct fuel; cbn [evict_loop]; [done|]. by destruct (Z.leb_spec (Z.of_nat (size (delete x (counts t)))) (cap t)); [|lia]. }
    rewrite Hdone. split; [done|]. cbn [counts cap]. lia.
  - exfalso. destruct Hs as [_ Hall]. destruct (rep_k _ _ R). pose proof (rep_len _ _ R).
    pose proof (size_leaders t l R) as Hsl. assert (size (counts t) ≤ length (leaders t))%nat; [|lia]. apply Hsl.
    intros x c Hc. assert (Hx : x ∈ (leaders t).*2).
    { apply (Hall x c). rewrite range_perm. by apply elem_of_map_to_list. }
    apply list_elem_of_fmap in Hx as ([c' x'] & -> & Hin). simpl in *.
    pose proof (rep_leader _ _ R _ _ Hin). by simplify_eq.
Qed.

End evict.

(** ** Touching *)

(** The new count of [x], with the heap [h] after it was entered or not. *)
Lemma rep0_touch t l x n h :
  rep0 t l → 0 < n → log_sum l + n ≤ max_i64 → heap_inv h →
  let c := get (counts t) x + n in
  let H := items_view h in
  NoDup H.*2 → Z.of_nat (length H) ≤ k t → (length (leaders t) ≤ length H)%nat →
  (∀ c' y, (c', y) ∈ H → (y = x ∧ c' = c) ∨ (y ≠ x ∧ (c', y) ∈ leaders t)) →
  (∀ c' y, (c', y) ∈ leaders t → y ≠ x → (c', y) ∈ H ∨
     (Z.of_nat (length H) = k t ∧ ∀ c2 y2, (c2, y2) ∈ H → c' ≤ c2)) →
  ((c, x) ∈ H ∨ (Z.of_nat (length H) = k t ∧ ∀ c2 y2, (c2, y2) ∈ H → c ≤ c2)) →
  (Z.of_nat (length (leaders t)) = k t → (c, x) ∈ H → ∃ c0 y0, (c0, y0) ∈ leaders t ∧ c0 ≤ c) →
  rep0 (mkTracker (k t) (cap t) (<[x := c]> (counts t)) h) ((x, n) :: l).
Proof.
  intros R Hn Hsum Hh c H Hnd Hlen Hlen2 Hfrom Hold Hnew Hbeat. pose proof (get_bounds t l x R) as Hb.
  destruct R as [Hk [Hlp Hls] _ _ Hlt Hle Hc Hs He].
  split; cbn [k cap counts minHeap]; change (leaders (mkTracker _ _ _ h)) with H; auto.
  - split; [by constructor|]. unfold log_sum in *. rewrite fmap_cons. simpl. lia.
  - intros c' y Hy. destruct (Hfrom c' y Hy) as [[-> ->]|[Hne Hl]]; [by rewrite lookup_insert_eq|].
    rewrite lookup_insert_ne by done. by apply Hle.
  - intros y c' Hy. apply lookup_insert_Some in Hy as [[<- <-]|[Hne Hy]]; [done|].
    destruct (Hc y c' Hy) as [Hl|[Hf Hmin]]; [by apply Hold|]. right. split; [lia|]. intros c2 y2 Hin.
    destruct (Hfrom c2 y2 Hin) as [[-> ->]|[_ Hl]]; [|by eapply Hmin].
    destruct (Hbeat Hf Hin) as (c0 & y0 & Hin0 & ?). specialize (Hmin c0 y0 Hin0). lia.
  - intros y c' Hy. rewrite true_count_cons. apply lookup_insert_Some in Hy as [[<- <-]|[Hne Hy]].
    + rewrite decide_True by done. subst c. lia.
    + rewrite decide_False by done. apply Hs in Hy. lia.
  - intros Hsz y. rewrite true_count_cons. assert (Hd : Z.of_nat (size (distinct l)) ≤ cap t).
    { unfold distinct in *. rewrite fmap_cons in Hsz. cbn [list_to_set] in Hsz.
      pose proof (subseteq_size (list_to_set (C := gset string) l.*1) ({[x]} ∪ list_to_set l.*1) ltac:(set_solver)).
      simpl in Hsz. lia. }
    rewrite <- (He Hd y). unfold get at 1. destruct (decide (x = y)) as [->|Hne].
    + by rewrite lookup_insert_eq; subst c; simpl; lia.
    + by rewrite lookup_insert_ne.
Qed.

Section touch.
Context (t : Tracker) (l : list (string * Z)) (R : rep t l).
Context (x : string) (n : Z) (Hn : 0 < n) (Hsum : log_sum l + n ≤ max_i64).
Let c : Z := get (counts t) x + n.

Lemma c_bounds : 0 ≤ get (counts t) x ∧ i64 (get (counts t) x + n) = c.
Proof using R Hn Hsum.
  destruct R as [R0 _]. pose proof (get_bounds t l x R0). pose proof (true_count_bounds x l (proj1 (rep_log _ _ R0))).
  split; [lia|]. apply i64_id. unfold_int. lia.
Qed.

Lemma leader_unique c1 c2 y : (c1, y) ∈ leaders t → (c2, y) ∈ leaders t → c1 = c2.
Proof using R. intros H1 H2. destruct R as [R0 _]. apply (rep_leader _ _ R0) in H1, H2. congruence. Qed.

(** A leader is touched. *)
Lemma touch_leader i it :
  minHeap t !! i = Some it → ikey it = x →
  rep (mkTracker (k t) (cap t) (<[x := c]> (counts t)) (Fix (alter (λ it, mkItem (ikey it) c (index it)) i (minHeap t)) i))
    ((x, n) :: l).
Proof using R Hn Hsum.
  intros Hi Hx. destruct R as [R0 Hsz]. pose proof c_bounds as [Hpos _].
  destruct (Fix_heap (minHeap t) i it c (rep_heap _ _ R0) Hi) as [Hh Hp]. rewrite Hx in Hp.
  change (items_view (minHeap t)) with (leaders t) in Hp.
  set (h := Fix _ i) in *.
  assert (Hl : leaders t !! i = Some (count it, x)) by (unfold leaders, items_view; by rewrite list_lookup_fmap, Hi, <- Hx).
  pose proof (rep_leader _ _ R0 _ _ (list_elem_of_lookup_2 _ _ _ Hl)) as Hcx.
  assert (Hcv : get (counts t) x = count it) by (unfold get; by rewrite Hcx).
  assert (Hkeys : (<[i := (c, x)]> (leaders t)).*2 = (leaders t).*2).
  { rewrite list_fmap_insert. apply list_insert_id. by rewrite list_lookup_fmap, Hl. }
  assert (Hlen : length (items_view h) = length (leaders t)) by (rewrite (Permutation_length Hp); apply length_insert).
  assert (Hfrom : ∀ c' y, (c', y) ∈ items_view h → y = x ∧ c' = c ∨ y ≠ x ∧ (c', y) ∈ leaders t).
  { intros c' y Hin. rewrite Hp in Hin. apply list_elem_of_lookup in Hin as [j Hj].
    apply list_lookup_insert_Some in Hj as [(_ & Heq & _)|[Hne Hj]]; [left; by simplify_eq|right].
    split; [|by eapply list_elem_of_lookup_2]. intros ->. apply Hne.
    eapply (NoDup_lookup _ _ _ x (rep_keys _ _ R0)); rewrite list_lookup_fmap; [by rewrite Hl|].
    change (items_view (minHeap t)) with (leaders t) in Hj. by rewrite Hj. }
  split.
  - apply rep0_touch; auto.
    + rewrite Hp. by rewrite Hkeys; apply (rep_keys _ _ R0).
    + rewrite Hlen. apply (rep_len _ _ R0).
    + lia.
    + intros c' y Hin Hne. left. rewrite Hp. apply list_elem_of_lookup in Hin as [j Hj].
      apply (list_elem_of_lookup_2 _ j). rewrite list_lookup_insert_ne; [done|]. intros ->. rewrite Hl in Hj. by simplify_eq.
    + left. rewrite Hp. apply (list_elem_of_lookup_2 _ i), list_lookup_insert_eq.
      change (items_view (minHeap t)) with (leaders t). by eapply lookup_lt_Some.
    + intros _ _. exists (count it), x. split; [by eapply list_elem_of_lookup_2|]. unfold c. lia.
  - cbn [counts cap]. rewrite map_size_insert_Some by eauto. done.
Qed.

Context (Hnot : x ∉ (leaders t).*2).

Lemma push_fresh h H0 :
  heap_inv h → items_view h ≡ₚ H0 → (∀ a, a ∈ H0 → a ∈ leaders t) → NoDup H0.*2 →
  let h' := Push h (mkItem x c 0) in
  heap_inv h' ∧ items_view h' ≡ₚ H0 ++ [(c, x)] ∧ NoDup (items_view h').*2 ∧
  ∀ c' y, (c', y) ∈ items_view h' → y = x ∧ c' = c ∨ y ≠ x ∧ (c', y) ∈ leaders t.
Proof using Hnot.
  intros Hh Hp Hsub Hnd h'. destruct (Push_heap h (mkItem x c 0) Hh) as [Hh' Hp']. fold h' in Hp', Hh'. rewrite Hp in Hp'. simpl in Hp'.
  assert (Hx : x ∉ H0.*2).
  { intros (a & -> & Ha)%list_elem_of_fmap. apply Hnot, list_elem_of_fmap. exists a. auto. }
  split; [done|]. split; [done|]. split.
  - rewrite Hp', fmap_app. apply NoDup_app. split; [done|]. split; [|apply NoDup_singleton].
    intros y Hy ->%list_elem_of_singleton. done.
  - intros c' y Hin. rewrite Hp' in Hin. apply elem_of_app in Hin as [Hin|Hin%list_elem_of_singleton]; [right|by left; simplify_eq].
    split; [|auto]. intros ->. apply Hx, list_elem_of_fmap. by exists (c', x).
Qed.

Lemma touch_room : Len t < k t →
  rep (mkTracker (k t) (cap t) (<[x := c]> (counts t)) (Push (minHeap t) (mkItem x c 0))) ((x, n) :: l).
Proof using R Hn Hsum Hnot.
  intros Hroom. destruct R as [R0 Hsz]. destruct (rep_k _ _ R0) as [Hk Hcap].
  assert (HL : Z.of_nat (length (leaders t)) = Len t) by (unfold leaders, items_view, Len; by rewrite length_fmap).
  destruct (push_fresh (minHeap t) (leaders t) (rep_heap _ _ R0)) as (Hh & Hp & Hnd & Hfrom); [done|done|apply (rep_keys _ _ R0)|].
  assert (Hlen : length (items_view (Push (minHeap t) (mkItem x c 0))) = S (length (leaders t))).
  { rewrite (Permutation_length Hp), length_app. simpl. lia. }
  split.
  - apply rep0_touch; auto; try lia.
    + intros c' y Hin _. left. rewrite Hp. apply elem_of_app. by left.
    + left. rewrite Hp. apply elem_of_app. right. by apply list_elem_of_singleton.
  - cbn [counts cap]. pose proof (size_leaders t l R0) as Hs.
    assert (size (counts t) ≤ length (leaders t))%nat.
    { apply Hs. intros y c' Hy. destruct (rep_cand _ _ R0 y c' Hy) as [?|[? _]]; [done|lia]. }
    pose proof (map_size_insert_le x c (counts t)). lia.
Qed.

(** The set is full: the current minimum gives way, or [x] becomes a candidate. *)
Lemma touch_full : Len t = k t →
  let min := match minHeap t !! 0%nat with Some it => count it | None => 0 end in
  let h := if min <? c then
      Push (match Pop (minHeap t) with Some (_, h) => h | None => minHeap t end) (mkItem x c 0)
    else minHeap t in
  rep0 (mkTracker (k t) (cap t) (<[x := c]> (counts t)) h) ((x, n) :: l).
Proof using R Hn Hsum Hnot.
  intros Hfull min h. destruct R as [R0 Hsz]. destruct (rep_k _ _ R0) as [Hk Hcap].
  assert (HL : Z.of_nat (length (leaders t)) = k t) by (unfold leaders, items_view, Len in *; by rewrite length_fmap).
  destruct (Pop_heap (minHeap t) (rep_heap _ _ R0)) as (it & h1 & m & HP & Hh1 & Hm & Hp & Hmin).
  { intros He. unfold Len in Hfull. rewrite He in Hfull. simpl in Hfull. lia. }
  subst h min. rewrite HP, Hm. change (items_view (minHeap t)) with (leaders t) in *.
  assert (Hmin' : ∀ c' y, (c', y) ∈ leaders t → count m ≤ c') by (intros c' y Hy; by apply (Hmin (c', y))).
  assert (Hm0 : (count m, ikey m) ∈ leaders t) by (rewrite <- Hp; apply elem_of_app; right; by apply list_elem_of_singleton).
  destruct (Z.ltb_spec (count m) c) as [Hlt|Hge].
  - assert (Hnd : NoDup (items_view h1).*2).
    { pose proof (rep_keys _ _ R0) as Hd. rewrite <- Hp, fmap_app in Hd. by apply NoDup_app in Hd as [? _]. }
    destruct (push_fresh h1 (items_view h1) Hh1) as (Hh & Hp2 & Hnd2 & Hfrom); [done| |done|].
    { intros a Ha. rewrite <- Hp. apply elem_of_app. by left. }
    assert (Hlen : length (items_view (Push h1 (mkItem x c 0))) = length (leaders t)).
    { rewrite (Permutation_length Hp2), <- (Permutation_length Hp), !length_app. done. }
    apply rep0_touch; auto; try lia.
    + intros c' y Hy Hne. rewrite <- Hp in Hy. apply elem_of_app in Hy as [Hy|Hy%list_elem_of_singleton].
      * left. rewrite Hp2. apply elem_of_app. by left.
      * right. simplify_eq. split; [lia|]. intros c2 y2 Hin.
        destruct (Hfrom c2 y2 Hin) as [[_ ->]|[_ ?]]; [unfold c in *; lia|by eapply Hmin'].
    + left. rewrite Hp2. apply elem_of_app. right. by apply list_elem_of_singleton.
    + intros _ _. exists (count m), (ikey m). split; [done|]. unfold c in *. lia.
  - apply rep0_touch; auto; change (items_view (minHeap t)) with (leaders t) in *; try lia.
    + apply (rep_heap _ _ R0).
    + apply (rep_keys _ _ R0).
    + intros c' y Hy. right. split; [|done]. intros ->. apply Hnot, list_elem_of_fmap. by exists (c', x).
    + right. split; [done|]. intros c2 y2 Hin. specialize (Hmin' c2 y2 Hin). unfold c in *. lia.
    + intros _ Hin. exfalso. apply Hnot, list_elem_of_fmap. by exists (get (counts t) x + n, x).
Qed.
End touch.

Lemma empty_rep k0 : 0 < k0 → rep (mkTracker k0 (4 * k0) ∅ []) [].
Proof.
  intros Hk. split; [|cbn [counts cap]; rewrite map_size_empty; lia].
  split; cbn [k cap counts minHeap].
  - done.
  - split; [constructor|]. by vm_compute.
  - split; [intros i it Hi; by rewrite lookup_nil in Hi|]. intros j Hj. simpl in Hj. lia.
  - constructor.
  - simpl. lia.
  - by intros c x ?%elem_of_nil.
  - intros x c Hx. by rewrite lookup_empty in Hx.
  - intros x c Hx. by rewrite lookup_empty in Hx.
  - done.
Qed.

Lemma Reset_rep t l : rep t l → rep (Reset t) [].
Proof. intros [[[Hk Hcap] _ _ _ _ _ _ _ _] _]. unfold Reset. rewrite Hcap. by apply empty_rep. Qed.

Lemma distinct_pos x l : Forall (λ e, 0 < e.2) l → x ∈ distinct l → 0 < true_count x l.
Proof.
  unfold distinct. induction 1 as [|[y n] l Hn Hl IH]; [set_solver|]. rewrite fmap_cons, true_count_cons. simpl in *.
  pose proof (true_count_bounds x l Hl). intros [->%elem_of_singleton|Hx]%elem_of_union.
  - rewrite decide_True by done. lia.
  - specialize (IH Hx). case_decide; lia.
Qed.

(** With exact counts the leaders are as many as they can be. *)
Lemma leaders_length t l : rep t l → Z.of_nat (size (distinct l)) ≤ cap t →
  Z.of_nat (length (leaders t)) = Z.min (k t) (Z.of_nat (size (distinct l))).
Proof.
  intros [R Hsz] Hd. pose proof (rep_exact _ _ R Hd) as He. pose proof (rep_len _ _ R) as Hlen.
  assert (Hle : (length (leaders t) ≤ size (distinct l))%nat).
  { rewrite <- (length_fmap snd (leaders t)).
    rewrite <- (size_list_to_set (C := gset string) (leaders t).*2) by apply (rep_keys _ _ R).
    apply subseteq_size. intros x ([c y] & -> & Hin)%elem_of_list_to_set%list_elem_of_fmap. simpl.
    apply true_count_pos. apply (rep_leader _ _ R) in Hin. apply (rep_sound _ _ R) in Hin. lia. }
  destruct (Z.eq_dec (Z.of_nat (length (leaders t))) (k t)) as [|Hne]; [lia|].
  assert (size (distinct l) ≤ length (leaders t))%nat; [|lia].
  etrans; [|apply (size_leaders t l R)].
  - rewrite <- (size_dom (counts t)). apply subseteq_size. intros x Hx. apply elem_of_dom.
    apply distinct_pos in Hx; [|apply (rep_log _ _ R)]. specialize (He x). unfold get in He.
    destruct (counts t !! x); [eauto|simpl in He; lia].
  - intros x c Hc. destruct (rep_cand _ _ R x c Hc) as [?|[? _]]; [done|lia].
Qed.

Section tracker_ops.
Context (range : gmap string Z → list (string * Z)).
Context (range_perm : ∀ m, range m ≡ₚ map_to_list m).

Lemma TouchN_rep t l x n :
  rep t l → log_sum l + n ≤ max_i64 →
  rep (TouchN range t x n) (if n <=? 0 then l else (x, n) :: l).
Proof using range_perm.
  intros R Hsum. unfold TouchN. destruct (Z.leb_spec n 0) as [|Hn]; [done|].
  destruct (c_bounds t l R x n Hn Hsum) as [_ Hc]. rewrite Hc. pose proof R as [R0 Hsz].
  pose proof (find_key_spec (minHeap t) x 0) as Hf. destruct (find_key (minHeap t) x 0) as [i|].
  - destruct Hf as (it & _ & Hi & Hx). rewrite Nat.sub_0_r in Hi.
    rewrite list_lookup_alter_eq, Hi. cbn [fmap option_fmap option_map index].
    rewrite (proj1 (rep_heap _ _ R0) i it Hi), Nat2Z.id. by eapply touch_leader.
  - assert (HL : Len t ≤ k t).
    { pose proof (rep_len _ _ R0) as HL. unfold leaders, items_view in HL. rewrite length_fmap in HL. done. }
    destruct (Z.ltb_spec (Len t) (k t)) as [Hroom|Hfull]; [by apply touch_room|].
    apply (evict_rep range range_perm); [by apply touch_full; [| | | |lia]|].
    cbn [counts cap]. pose proof (map_size_insert_le x (get (counts t) x + n) (counts t)). lia.
Qed.

(** A tracker that has recorded a log of touches (with a total below [2^63]) keeps
    doing so, whatever order the runtime ranges over its map in; it holds at most
    [4k] counters and [k] leaders; a count never exceeds the true one; and if the
    log has at most [4k] distinct keys, [Top] returns the [k] most frequent of them
    (all when there are fewer) with their exact counts in descending order. *)
Theorem topk_leaderboard t l :
  rep t l →
  (∀ x n, log_sum l + n ≤ max_i64 → rep (TouchN range t x n) (if n <=? 0 then l else (x, n) :: l)) ∧
  rep (Reset t) [] ∧
  Z.of_nat (size (counts t)) ≤ 4 * k t ∧ Len t ≤ k t ∧
  (∀ x, 0 ≤ Count t x ≤ true_count x l) ∧
  (∀ out, Top t out → Z.of_nat (size (distinct l)) ≤ 4 * k t →
    Z.of_nat (length out) = Z.min (k t) (Z.of_nat (size (distinct l))) ∧
    StronglySorted (λ a b, b.2 ≤ a.2) out ∧
    ∀ x c, (x, c) ∈ out → c = true_count x l ∧ ∀ y, y ∉ out.*1 → true_count y l ≤ c).
Proof using range_perm.
  intros R. split; [intros; by apply TouchN_rep|]. split; [by eapply Reset_rep|].
  pose proof R as [R0 Hsz]. destruct (rep_k _ _ R0) as [Hk Hcap]. split; [lia|].
  assert (HL : Z.of_nat (length (leaders t)) = Len t) by (unfold leaders, items_view, Len; by rewrite length_fmap).
  split; [pose proof (rep_len _ _ R0); lia|]. split; [intros x; by apply get_bounds|].
  intros out [Hp Hs] Hd. rewrite <- Hcap in Hd. pose proof (rep_exact _ _ R0 Hd) as He.
  assert (Hin : ∀ x c, (x, c) ∈ out ↔ (c, x) ∈ leaders t).
  { intros x c. rewrite Hp. unfold entries, leaders, items_view. rewrite !list_elem_of_fmap.
    split; intros (it & Heq & ?); exists it; by simplify_eq. }
  split; [|split; [done|]].
  - rewrite <- (leaders_length t l (conj R0 Hsz) Hd). rewrite (Permutation_length Hp).
    unfold entries, leaders, items_view. by rewrite !length_fmap.
  - intros x c Hx%Hin. pose proof (rep_leader _ _ R0 _ _ Hx) as Hc. split.
    { rewrite <- He. unfold get. by rewrite Hc. }
    intros y Hy. rewrite <- He. unfold get. destruct (counts t !! y) as [d|] eqn:Hyd; simpl.
    + destruct (rep_cand _ _ R0 y d Hyd) as [Hl|[_ Hm]]; [|by eapply Hm].
      exfalso. apply Hy, list_elem_of_fmap. exists (y, d). split; [done|]. by apply Hin.
    + apply (rep_sound _ _ R0) in Hc. lia.
Qed.
End tracker_ops.

Lemma New_rep k0 : 0 < k0 → 4 * k0 ≤ max_i64 → ∃ t, New k0 = Some t ∧ rep t [] ∧ k t = k0.
Proof.
  intros Hk Hm. unfold New. destruct (Z.leb_spec k0 0); [lia|]. eexists. split; [done|]. split; [|done].
  rewrite i64_id by (unfold candidateFactor; unfold_int; lia).
  by apply empty_rep.
Qed.

Lemma topk_leaderboard_witness :
  ∃ t t2, New 1 = Some t ∧ t2 = TouchN map_to_list (TouchN map_to_list t "a" 2) "b" 5 ∧
    entries t2 = [("b"%string, 5)] ∧ Count t2 "a" ≤ 2.
Proof.
  destruct (New_rep 1) as (t & Ht & R & _); [lia|unfold_int; lia|]. exists t. eexists. split; [done|]. split; [done|].
  destruct (topk_leaderboard map_to_list (λ m, reflexivity _) t [] R) as (HT & _).
  specialize (HT "a"%string 2 ltac:(vm_compute; discriminate)).
  destruct (topk_leaderboard map_to_list (λ m, reflexivity _) _ _ HT) as (HT2 & _).
  specialize (HT2 "b"%string 5 ltac:(vm_compute; discriminate)).
  destruct (topk_leaderboard map_to_list (λ m, reflexivity _) _ _ HT2) as (_ & _ & _ & _ & HC & _).
  split; [|apply (HC "a"%string)]. injection Ht as <-. vm_compute. reflexivity.
Defined.
