(* ===== verification/WTimer.v ===== *)
(** * WTimer: the timer wheel of [wtimer/wtimer.go]

    Timers are items of a pointer heap ordered by their due time (ItemHeap.v).
    One goroutine runs the loop; callers add, cancel and close concurrently.
    The loop's program counter stands between two points where it can be
    interleaved (the mutex is held from [Top] to the next one), callers of [add]
    between the closed test, the clock reading, the push under the lock and the
    call of [wake], and time passes freely: every schedule is a sequence of
    [wstep]s.

    Shown: callbacks never run early, one-shot timers run at most once and
    recurring ones keep their interval, a cancelled timer does not run
    ([wtimer_safe], [wtimer_cancel]); and no wake-up is lost: the loop never
    sleeps past a due timer or a close ([wtimer_no_lost_wakeup]). *)

From Stdlib Require Import ZArith Lia.
From stdpp Require Import base tactics numbers list gmap sets relations.
From S2P Require Import Prelude Heap ItemHeap.

#[local] Open Scope Z_scope.

Record Timer := mkTimer { when : Z; interval : Z; cancelled : bool }.

#[local] Notation Wheel_heap := (@IHeap Timer).

(** [timerHeap.Less] is [when.Before]. *)
#[local] Notation timer_Push := (@Heap.Push _ _ (item_heap when)).
#[local] Notation timer_Pop := (@Heap.Pop _ _ (item_heap when)).

(** Where the loop of [run] is. *)
Inductive pc :=
| Top                     (** about to lock *)
| CheckEmpty              (** unlocked with an empty heap, [w.closed.Load()] is next *)
| WaitEmpty               (** [<-w.wakeup] *)
| CheckSleep (first read : Z)  (** unlocked, the first timer is due at [first], the clock stood at [read] *)
| Sleep (first until : Z)      (** [select] on the wake-up and the timer, which rings at [until] *)
| CheckFire (t : nat)     (** popped and unlocked, [t.cancelled.Load()] is next *)
| Run (t : nat)           (** [w.safeFire(t.fn)] *)
| Again (t : nat)         (** the test for rescheduling *)
| Reschedule (t : nat)    (** [t.when = t.now().Add(t.interval)] *)
| Repush (t : nat)        (** [heap.Push] under the lock *)
| Exited.

(** A caller inside [add]. *)
Inductive adder :=
| Checked (delay itv : Z)   (** passed the closed and nil tests *)
| Ready (due itv : Z).      (** has read the clock *)

(** [wakes]: callers about to call [wake]; [fired]: the callbacks run, latest
    first, with the due time and the time of each. *)
Record sys := mkSys {
  now : Z; heap : Wheel_heap; wakeup : bool; closed : bool; loop : pc;
  adders : list adder; wakes : nat; fired : list (nat * Z * Z); recovered : Z }.

Definition init : sys := mkSys 0 (mkHeap [] ∅ 0) false false Top [] 0 [] 0.

(** [for w.heap.Len() > 0 && w.heap[0].cancelled.Load() { heap.Pop(&w.heap) }]:
    one timer less per iteration. *)
Definition root (q : Wheel_heap) : option (nat * Timer) :=
  id ← h q !! 0%nat; it ← items q !! id; Some (id, data it).

Fixpoint clean (fuel : nat) (q : Wheel_heap) : Wheel_heap :=
  match fuel with
  | O => q
  | S fuel =>
      match root q with
      | Some (_, t) =>
          if cancelled t then match timer_Pop q with Some (_, q') => clean fuel q' | None => q end
          else q
      | None => q
      end
  end.

(** The locked section at the top of the loop. *)
Definition top_step (q : Wheel_heap) (t : Z) : Wheel_heap * pc :=
  let q := clean (length (h q)) q in
  match root q with
  | None => (q, CheckEmpty)
  | Some (_, next) =>
      if t <? when next then (q, CheckSleep (when next) t)
      else match timer_Pop q with Some (id, q') => (q', CheckFire id) | None => (q, CheckEmpty) end
  end.

Definition timer_of (s : sys) (t : nat) : option Timer := store (heap s) !! t.

Definition reschedule (s : sys) (t : nat) (tm : Timer) : Wheel_heap :=
  set_data (heap s) t (mkTimer (now s + interval tm) (interval tm) (cancelled tm)).

Definition push_new (q : Wheel_heap) (due itv : Z) : Wheel_heap :=
  timer_Push (alloc q (mkTimer due itv false)) (next q).

Definition set_cancelled (q : Wheel_heap) (t : nat) (tm : Timer) : Wheel_heap :=
  set_data q t (mkTimer (when tm) (interval tm) true).

(** Updates of the fields a step changes. *)
Definition with_heap (s : sys) (q : Wheel_heap) : sys :=
  mkSys (now s) q (wakeup s) (closed s) (loop s) (adders s) (wakes s) (fired s) (recovered s).
Definition with_loop (s : sys) (p : pc) : sys :=
  mkSys (now s) (heap s) (wakeup s) (closed s) p (adders s) (wakes s) (fired s) (recovered s).
Definition with_callers (s : sys) (a : list adder) (w : nat) : sys :=
  mkSys (now s) (heap s) (wakeup s) (closed s) (loop s) a w (fired s) (recovered s).
Definition with_wakeup (s : sys) (b : bool) : sys :=
  mkSys (now s) (heap s) b (closed s) (loop s) (adders s) (wakes s) (fired s) (recovered s).

(** The send of [wake] into the channel of capacity one. *)
Definition wake (s : sys) (others : nat) : sys := with_wakeup (with_callers s (adders s) others) true.

(** [Close] up to its call of [wake]. *)
Definition Close_ (s : sys) : sys :=
  mkSys (now s) (heap s) (wakeup s) true (loop s) (adders s) (S (wakes s)) (fired s) (recovered s).

(** The loop's steps. *)
Inductive loop_step : sys → sys → Prop :=
| step_top s q p : loop s = Top → top_step (heap s) (now s) = (q, p) →
    loop_step s (with_loop (with_heap s q) p)
| step_check_empty s : loop s = CheckEmpty →
    loop_step s (with_loop s (if closed s then Exited else WaitEmpty))
| step_wait_empty s : loop s = WaitEmpty → wakeup s = true →
    loop_step s (with_loop (with_wakeup s false) Top)
| step_check_sleep s first read : loop s = CheckSleep first read →
    loop_step s (with_loop s (if closed s then Exited else Sleep first (now s + (first - read))))
| step_sleep_woken s first u : loop s = Sleep first u → wakeup s = true →
    loop_step s (with_loop (with_wakeup s false) Top)
| step_sleep_timer s first u : loop s = Sleep first u → u ≤ now s → loop_step s (with_loop s Top)
| step_check_fire s t tm : loop s = CheckFire t → timer_of s t = Some tm →
    loop_step s (with_loop s (if cancelled tm then Again t else Run t))
| step_run s t tm (panics : bool) : loop s = Run t → timer_of s t = Some tm →
    loop_step s (mkSys (now s) (heap s) (wakeup s) (closed s) (Again t) (adders s) (wakes s)
      ((t, when tm, now s) :: fired s) (if panics then u64 (recovered s + 1) else recovered s))
| step_again s t tm : loop s = Again t → timer_of s t = Some tm →
    loop_step s (with_loop s
      (if (0 <? interval tm) && negb (cancelled tm) && negb (closed s) then Reschedule t else Top))
| step_reschedule s t tm : loop s = Reschedule t → timer_of s t = Some tm →
    loop_step s (with_loop (with_heap s (reschedule s t tm)) (Repush t))
| step_repush s t : loop s = Repush t →
    loop_step s (with_loop (with_heap s (timer_Push (heap s) t)) Top).

(** The steps of the clock and of the callers. *)
Inductive caller_step : sys → sys → Prop :=
| step_tick s d : 0 ≤ d →
    caller_step s (mkSys (now s + d) (heap s) (wakeup s) (closed s) (loop s) (adders s) (wakes s) (fired s) (recovered s))
| step_add s d i : closed s = false → caller_step s (with_callers s (Checked d i :: adders s) (wakes s))
| step_add_clock s l1 d i l2 : adders s = l1 ++ Checked d i :: l2 →
    caller_step s (with_callers s (l1 ++ Ready (now s + d) i :: l2) (wakes s))
| step_add_push s l1 d i l2 : adders s = l1 ++ Ready d i :: l2 →
    caller_step s (with_callers (with_heap s (push_new (heap s) d i)) (l1 ++ l2) (S (wakes s)))
| step_wake s w : wakes s = S w → caller_step s (wake s w)
| step_cancel s t tm : timer_of s t = Some tm →
    caller_step s (with_heap s (set_cancelled (heap s) t tm))
| step_close s : closed s = false →
    caller_step s (Close_ s).

Definition wstep (s s' : sys) : Prop := loop_step s s' ∨ caller_step s s'.
Definition reachable (s : sys) : Prop := rtc wstep init s.

(** [Len]: the queued timers that are not cancelled. *)
Definition Len (q : Wheel_heap) : Z :=
  Z.of_nat (length (filter (λ id, cancelled <$> (store q !! id) = Some false) (h q))).

(** ** The heap under the loop's and the callers' steps *)

Lemma root_spec q : inv when q →
  match root q with
  | Some (id, t) => contents q !! id = Some t ∧ h q ≠ [] ∧ h q !! 0%nat = Some id ∧
      ∀ id' t', contents q !! id' = Some t' → when t ≤ when t'
  | None => contents q = ∅
  end.
Proof.
  intros Hinv. destruct (decide (h q = [])) as [Hh|Hh].
  { unfold root. rewrite Hh. simpl. apply map_eq. intros id. rewrite lookup_empty.
    destruct (contents q !! id) eqn:Hc; [|done]. assert (id ∈ h q) as Hin.
    { apply contents_queued; [apply Hinv|by eexists]. }
    rewrite Hh in Hin. by apply not_elem_of_nil in Hin. }
  destruct (heap_Pop_inv when q Hinv Hh) as (id & v & q' & _ & H0 & Hc & Hmin & _).
  unfold root. rewrite H0. simpl. pose proof Hc as Hs. apply contents_store in Hs. unfold store in Hs.
  rewrite lookup_fmap in Hs. destruct (items q !! id) as [it|]; simplify_eq/=. by rewrite Hc.
Qed.

Lemma root_Pop q id t : inv when q → root q = Some (id, t) →
  ∃ q', timer_Pop q = Some (id, q') ∧ inv when q' ∧ contents q !! id = Some t ∧
    contents q' = delete id (contents q) ∧ store q' = store q ∧ next q' = next q.
Proof.
  intros Hinv Hr. pose proof (root_spec q Hinv) as Hs. rewrite Hr in Hs. destruct Hs as (Hc & Hne & H0 & _).
  destruct (heap_Pop_inv when q Hinv Hne) as (id' & v & q' & Hp & H0' & Hc' & _ & Hinv' & Hd & Hst & Hn).
  rewrite H0 in H0'. simplify_eq. by exists q'.
Qed.

(** What a step that takes timers out may drop: cancelled ones. *)
Definition drops_cancelled (q q' : Wheel_heap) : Prop :=
  inv when q' ∧ store q' = store q ∧ next q' = next q ∧ contents q' ⊆ contents q ∧
  ∀ id t, contents q !! id = Some t → cancelled t = false → contents q' !! id = Some t.

Lemma drops_refl q : inv when q → drops_cancelled q q.
Proof. intros. unfold drops_cancelled. auto. Qed.

Lemma clean_spec fuel q : inv when q → (length (h q) ≤ fuel)%nat →
  drops_cancelled q (clean fuel q) ∧ ∀ id t, root (clean fuel q) = Some (id, t) → cancelled t = false.
Proof.
  revert q. induction fuel as [|fuel IH]; intros q Hinv Hlen; cbn [clean].
  { split; [by apply drops_refl|]. intros id t Hr. pose proof (root_spec q Hinv) as Hs. rewrite Hr in Hs.
    destruct Hs as (_ & Hne & _). by destruct (h q); simpl in Hlen; [|lia]. }
  destruct (root q) as [[id t]|] eqn:Hr; [|split; [by apply drops_refl|by rewrite Hr]].
  destruct (cancelled t) eqn:Hct; [|split; [by apply drops_refl|intros; rewrite Hr in *; by simplify_eq]].
  destruct (root_Pop q id t Hinv Hr) as (q' & -> & Hinv' & Hc & Hd & Hst & Hn).
  destruct (IH q' Hinv') as [(Hi & Hs & Hx & Hsub & Hk) Hroot].
  { rewrite (length_contents q') by apply Hinv'. rewrite (length_contents q) in Hlen by apply Hinv.
    rewrite Hd, map_size_delete_Some by (by eexists). lia. }
  split; [|done]. split; [done|]. split; [congruence|]. split; [congruence|]. split.
  - etrans; [done|]. rewrite Hd. apply delete_subseteq.
  - intros id' t' Hc' Hf. apply Hk; [|done]. rewrite Hd, lookup_delete_ne; [done|]. intros ->. congruence.
Qed.

(** The locked section: an empty heap, the earliest timer still ahead, or a due
    timer taken out; nothing else is lost. *)
Lemma top_step_spec q now q' p : inv when q → top_step q now = (q', p) →
  inv when q' ∧ store q' = store q ∧ next q' = next q ∧ contents q' ⊆ contents q ∧
  (∀ id t, contents q !! id = Some t → cancelled t = false → contents q' !! id = Some t ∨ p = CheckFire id) ∧
  match p with
  | CheckEmpty => contents q' = ∅
  | CheckSleep first read => read = now ∧ now < first ∧ ∀ id t, contents q' !! id = Some t → first ≤ when t
  | CheckFire id => ∃ t, contents q !! id = Some t ∧ when t ≤ now ∧ contents q' !! id = None
  | _ => False
  end.
Proof.
  intros Hinv. unfold top_step. destruct (clean_spec (length (h q)) q Hinv (le_n _)) as [(Hi & Hs & Hx & Hsub & Hk) Hroot].
  set (qc := clean (length (h q)) q) in *. pose proof (root_spec qc Hi) as Hr.
  destruct (root qc) as [[id t]|] eqn:Hrt.
  - destruct Hr as (Hc & _ & _ & Hmin). destruct (Z.ltb_spec now (when t)); intros ?; simplify_eq.
    { split_and!; auto. }
    destruct (root_Pop qc id t Hi Hrt) as (q2 & Hp & Hi2 & _ & Hd & Hs2 & Hx2). rewrite Hp in *. simplify_eq.
    split_and!; [done|congruence|congruence| | |].
    + etrans; [|done]. rewrite Hd. apply delete_subseteq.
    + intros id' t' Hc' Hf. destruct (decide (id' = id)) as [->|Hne]; [by right|left].
      rewrite Hd, lookup_delete_ne by done. by apply Hk.
    + exists t. split; [by eapply lookup_weaken|]. split; [lia|]. by rewrite Hd, lookup_delete_eq.
  - intros ?; simplify_eq. split_and!; auto.
Qed.

Lemma contents_None_ne (q : Wheel_heap) id : heap_ok q → next q = id → contents q !! id = None.
Proof.
  intros Hok <-. destruct (contents q !! next q) as [t|] eqn:Hc; [|done]. apply contents_store in Hc.
  unfold store in Hc. rewrite lookup_fmap in Hc. destruct (items q !! next q) eqn:Hi; [|done].
  pose proof (ok_next q Hok (next q)). rewrite Hi in *. apply Nat.lt_irrefl in H; [done|by eexists].
Qed.

Lemma push_new_spec q due itv : inv when q →
  inv when (push_new q due itv) ∧ next (push_new q due itv) = S (next q) ∧
  contents (push_new q due itv) = <[next q := mkTimer due itv false]> (contents q) ∧
  store (push_new q due itv) = <[next q := mkTimer due itv false]> (store q).
Proof.
  intros [Hok Ho]. unfold push_new, alloc.
  destruct (heap_Push_inv when q (next q) (mkTimer due itv false) 0 (S (next q)) Hok) as (Hi & Hok' & Hc & Hs & Hn);
    [by apply contents_None_ne|lia|lia|done|]. done.
Qed.

(** A change in place that keeps the due time, or of a timer that is not queued. *)
Lemma set_data_spec (q : Wheel_heap) t tm tm' : inv when q → store q !! t = Some tm →
  when tm' = when tm ∨ contents q !! t = None →
  inv when (set_data q t tm') ∧ next (set_data q t tm') = next q ∧
  contents (set_data q t tm') = alter (λ _, tm') t (contents q) ∧
  store (set_data q t tm') = <[t := tm']> (store q).
Proof.
  intros [Hok Ho] Hst Hw. unfold store in Hst. rewrite lookup_fmap in Hst.
  destruct (items q !! t) as [it|] eqn:Hit; simplify_eq/=.
  destruct (set_data_inv when q t it tm' Hok Hit Ho Hw) as (Hi & _ & Hc & Hs & Hn). done.
Qed.

Lemma push_again_spec (q : Wheel_heap) t tm : inv when q → store q !! t = Some tm → contents q !! t = None →
  inv when (timer_Push q t) ∧ next (timer_Push q t) = next q ∧
  contents (timer_Push q t) = <[t := tm]> (contents q) ∧ store (timer_Push q t) = store q.
Proof.
  intros [Hok Ho] Hst Hcn. pose proof Hst as Hst'. unfold store in Hst'. rewrite lookup_fmap in Hst'.
  destruct (items q !! t) as [it|] eqn:Hit; simplify_eq/=.
  assert (Hq : mkHeap (h q) (<[t := mkItem (data it) (index it)]> (items q)) (next q) = q).
  { destruct q; simpl in *. f_equal. apply insert_id. rewrite Hit. by destruct it. }
  destruct (heap_Push_inv when q t (data it) (index it) (next q) Hok Hcn) as (Hi & Hok' & Hc & Hs & Hn);
    [apply (ok_next _ Hok); by eexists|lia|done|].
  rewrite Hq in *. split_and!; try done. rewrite Hs. by apply insert_id.
Qed.

(** ** The timers and the callbacks run *)

(** The timer the loop holds outside the heap, and how far it is. *)
Inductive phase := Due | Ran | Resched | Timed.

Definition flight (p : pc) : option (nat * phase) :=
  match p with
  | CheckFire t | Run t => Some (t, Due)
  | Again t => Some (t, Ran)
  | Reschedule t => Some (t, Resched)
  | Repush t => Some (t, Timed)
  | _ => None
  end.

Definition has_run (fired : list (nat * Z * Z)) (t : nat) : Prop := ∃ w f, (t, w, f) ∈ fired.

(** Timers that will run unless they are cancelled. *)
Definition active (c : gmap nat Timer) (fl : option (nat * phase)) (t : nat) : Prop :=
  is_Some (c !! t) ∨ fl = Some (t, Due) ∨ fl = Some (t, Timed).

Record timers_ok (st c : gmap nat Timer) (now : Z) (fl : option (nat * phase))
    (fired : list (nat * Z * Z)) (closed : bool) : Prop := {
  t_sub : c ⊆ st;
  t_flight : ∀ t ph, fl = Some (t, ph) → c !! t = None ∧ ∃ tm, st !! t = Some tm ∧
    (ph = Due → when tm ≤ now) ∧
    (ph ≠ Due → cancelled tm = true ∨ has_run fired t) ∧
    (ph = Resched ∨ ph = Timed → 0 < interval tm);
  t_fired : ∀ t w f, (t, w, f) ∈ fired → w ≤ f ≤ now ∧
    ∃ tm, st !! t = Some tm ∧ (active c fl t → 0 < interval tm ∧ f + interval tm ≤ when tm);
  t_spaced : ∀ l1 l2 t w f w' f', fired = l1 ++ (t, w, f) :: l2 → (t, w', f') ∈ l2 →
    ∃ tm, st !! t = Some tm ∧ 0 < interval tm ∧ f' + interval tm ≤ w;
  t_kept : ∀ t tm, st !! t = Some tm → cancelled tm = false →
    is_Some (c !! t) ∨ (∃ ph, fl = Some (t, ph)) ∨
    (has_run fired t ∧ (interval tm ≤ 0 ∨ closed = true)) }.

Section timers.
Context (st c : gmap nat Timer) (now : Z) (fl : option (nat * phase)) (fired : list (nat * Z * Z)) (closed : bool).
Context (Hok : timers_ok st c now fl fired closed).

Lemma timers_tick d : 0 ≤ d → timers_ok st c (now + d) fl fired closed.
Proof using Hok.
  intros Hd. destruct Hok as [H1 H2 H3 H4 H5]. split; try done.
  - intros t ph Hfl. destruct (H2 t ph Hfl) as (Hc & tm & Hst & Hw & Hr). split; [done|]. exists tm.
    split_and!; [done| |apply Hr..]. intros Hp. specialize (Hw Hp). lia.
  - intros t w f Hf. destruct (H3 t w f Hf) as [? ?]. split; [lia|done].
Qed.

Lemma timers_close : timers_ok st c now fl fired true.
Proof using Hok.
  destruct Hok as [H1 H2 H3 H4 H5]. split; try done. intros t tm Hst Hc. destruct (H5 t tm Hst Hc) as [|[|[]]]; auto.
Qed.

(** The locked section. *)
Lemma timers_top c' fl' : fl = None → c' ⊆ c →
  (∀ id t, c !! id = Some t → cancelled t = false → c' !! id = Some t ∨ fl' = Some (id, Due)) →
  (fl' = None ∨ ∃ id t, fl' = Some (id, Due) ∧ c !! id = Some t ∧ when t ≤ now ∧ c' !! id = None) →
  timers_ok st c' now fl' fired closed.
Proof using Hok.
  intros Hfl Hsub Hkeep Hcase. destruct Hok as [H1 H2 H3 H4 H5]. split; try done.
  - by etrans.
  - intros t ph ->. destruct Hcase as [|(id & tm & ? & Hc & Hw & Hc')]; simplify_eq. split; [done|]. exists tm.
    split; [by eapply lookup_weaken|]. split_and!; [done|done|]. by intros [].
  - intros t w f Hf. destruct (H3 t w f Hf) as (? & tm & Hst & Ha). split; [done|]. exists tm. split; [done|].
    intros Hact. apply Ha. left. destruct Hact as [[? Hc]|[->| ->]].
    + eexists. by eapply lookup_weaken.
    + destruct Hcase as [|(id & tm' & ? & Hc & _)]; simplify_eq. by eexists.
    + by destruct Hcase as [|(id & tm' & ? & Hc & _)].
  - intros t tm Hst Hc. destruct (H5 t tm Hst Hc) as [[tm' Hq]|[[ph Hp]|Hr]]; [|by simplify_eq|by right; right].
    assert (tm' = tm) as ->. { eapply lookup_weaken in Hq; [|done]. congruence. }
    destruct (Hkeep t tm Hq Hc) as [?| ->]; [left; by eexists|right; left; by eexists].
Qed.

Lemma timers_skip t tm : fl = Some (t, Due) → st !! t = Some tm → cancelled tm = true →
  timers_ok st c now (Some (t, Ran)) fired closed.
Proof using Hok.
  intros Hfl Ht Hct. destruct Hok as [H1 H2 H3 H4 H5]. split; try done.
  - intros t' ph [= <- <-]. destruct (H2 t Due Hfl) as (Hc & _). split; [done|]. exists tm.
    split_and!; [done|done|by left|by intros []].
  - intros t' w f Hf. destruct (H3 t' w f Hf) as (? & tm' & Hst & Ha). split; [done|]. exists tm'. split; [done|].
    intros [?|[[=]|[=]]]. apply Ha. by left.
  - intros t' tm' Hst Hc. destruct (H5 t' tm' Hst Hc) as [|[[ph Hp]|]]; [by left| |by right; right].
    right; left. exists Ran. by simplify_eq.
Qed.

Lemma timers_run t tm : fl = Some (t, Due) → st !! t = Some tm →
  timers_ok st c now (Some (t, Ran)) ((t, when tm, now) :: fired) closed.
Proof using Hok.
  intros Hfl Ht. destruct Hok as [H1 H2 H3 H4 H5]. destruct (H2 t Due Hfl) as (Hc & tm0 & Htm0 & Hw & _).
  assert (tm0 = tm) as -> by congruence. specialize (Hw eq_refl). split; try done.
  - intros t' ph [= <- <-]. split; [done|]. exists tm. split_and!; [done|done| |by intros []].
    intros _. right. exists (when tm), now. by left.
  - intros t' w f [?|Hf]%elem_of_cons; simplify_eq.
    + split; [lia|]. exists tm. split; [done|]. intros [[? ?]|[[=]|[=]]]; congruence.
    + destruct (H3 t' w f Hf) as (? & tm' & Hst & Ha). split; [done|]. exists tm'. split; [done|].
      intros [?|[[=]|[=]]]. apply Ha. by left.
  - intros [|e l1] l2 t' w f w' f' Heq Hin; simplify_eq/=.
    + destruct (H3 t' w' f' Hin) as (_ & tm' & Hst & Ha). exists tm'. simplify_eq. split; [done|].
      apply Ha. by right; left.
    + by eapply (H4 l1 l2 t').
  - intros t' tm' Hst Hct. destruct (H5 t' tm' Hst Hct) as [|[[ph Hp]|[(w & f & Hin) ?]]]; [by left| |right; right].
    + right; left. exists Ran. by simplify_eq.
    + split; [|done]. exists w, f. by right.
Qed.

Lemma timers_again t tm : fl = Some (t, Ran) → st !! t = Some tm →
  timers_ok st c now
    (if (0 <? interval tm) && negb (cancelled tm) && negb closed then Some (t, Resched) else None) fired closed.
Proof using Hok.
  intros Hfl Ht. destruct Hok as [H1 H2 H3 H4 H5]. destruct (H2 t Ran Hfl) as (Hc & tm0 & Htm0 & _ & Hr & _).
  assert (tm0 = tm) as -> by congruence. specialize (Hr ltac:(done)).
  destruct ((0 <? interval tm) && negb (cancelled tm) && negb closed) eqn:Hg.
  - apply andb_prop in Hg as [[Hi Hn]%andb_prop Hcl]. apply Z.ltb_lt in Hi. split; try done.
    + intros t' ph [= <- <-]. split; [done|]. exists tm. by split_and!.
    + intros t' w f Hf. destruct (H3 t' w f Hf) as (? & tm' & Hst & Ha). split; [done|]. exists tm'. split; [done|].
      intros [?|[[=]|[=]]]. apply Ha. by left.
    + intros t' tm' Hst Hct. destruct (H5 t' tm' Hst Hct) as [|[[ph Hp]|]]; [by left| |by right; right].
      right; left. exists Resched. by simplify_eq.
  - split; try done.
    + intros t' w f Hf. destruct (H3 t' w f Hf) as (? & tm' & Hst & Ha). split; [done|]. exists tm'. split; [done|].
      intros [?|[[=]|[=]]]. apply Ha. by left.
    + intros t' tm' Hst Hct. destruct (H5 t' tm' Hst Hct) as [|[[ph Hp]|]]; [by left| |by right; right].
      assert (t' = t) as -> by congruence. assert (tm' = tm) as -> by congruence. right; right. destruct Hr as [Hr|Hr]; [congruence|]. split; [done|].
      rewrite Hct in Hg. simpl in Hg. rewrite andb_true_r in Hg. destruct (Z.ltb_spec 0 (interval tm)); [|auto].
      right. by destruct closed.
Qed.

Lemma timers_reschedule t tm : fl = Some (t, Resched) → st !! t = Some tm →
  timers_ok (<[t := mkTimer (now + interval tm) (interval tm) (cancelled tm)]> st) c now (Some (t, Timed)) fired closed.
Proof using Hok.
  intros Hfl Ht. destruct Hok as [H1 H2 H3 H4 H5].
  destruct (H2 t Resched Hfl) as (Hc & tm0 & Htm0 & _ & Hr & Hi).
  assert (tm0 = tm) as -> by congruence.
  specialize (Hr ltac:(done)). specialize (Hi ltac:(auto)).
  assert (Hst' : ∀ t', t' ≠ t → <[t:=mkTimer (now + interval tm) (interval tm) (cancelled tm)]> st !! t' = st !! t').
  { intros. by apply lookup_insert_ne. }
  split.
  - apply map_subseteq_spec. intros t' tm' Hc'. rewrite Hst'; [by eapply lookup_weaken|]. intros ->. congruence.
  - intros t' ph [= <- <-]. split; [done|]. rewrite lookup_insert_eq. eexists. by split_and!.
  - intros t' w f Hf. destruct (H3 t' w f Hf) as (? & tm' & Hst & Ha). split; [done|].
    destruct (decide (t' = t)) as [->|Hne].
    + rewrite lookup_insert_eq. eexists. split; [done|]. intros _. simpl. lia.
    + rewrite Hst' by done. exists tm'. split; [done|]. intros [?|[[=]|[=]]]; [|congruence]. apply Ha. by left.
  - intros l1 l2 t' w f w' f' Heq Hin. destruct (H4 l1 l2 t' w f w' f' Heq Hin) as (tm' & Hst & ?).
    destruct (decide (t' = t)) as [->|Hne]; [rewrite lookup_insert_eq|by rewrite Hst' by done; eexists].
    assert (tm' = tm) as -> by congruence. by eexists.
  - intros t' tm' Hst Hct. destruct (decide (t' = t)) as [->|Hne]; [right; left; by eexists|].
    rewrite Hst' in Hst by done. destruct (H5 t' tm' Hst Hct) as [|[[ph Hp]|]]; [by left|congruence|by right; right].
Qed.

Lemma timers_repush t tm : fl = Some (t, Timed) → st !! t = Some tm →
  timers_ok st (<[t := tm]> c) now None fired closed.
Proof using Hok.
  intros Hfl Ht. destruct Hok as [H1 H2 H3 H4 H5]. split; try done.
  - by apply insert_subseteq_l.
  - intros t' w f Hf. destruct (H3 t' w f Hf) as (? & tm' & Hst & Ha). split; [done|]. exists tm'. split; [done|].
    intros [[tq Hq]|[[=]|[=]]]. apply Ha. apply lookup_insert_Some in Hq as [[<- _]|[_ Hq]]; [by right; right|].
    left. by eexists.
  - intros t' tm' Hst Hct. destruct (decide (t' = t)) as [->|Hne]; [left; rewrite lookup_insert_eq; by eexists|].
    rewrite lookup_insert_ne by done. destruct (H5 t' tm' Hst Hct) as [|[[ph Hp]|]]; [by left|congruence|by right; right].
Qed.

Lemma timers_push_new id tm : st !! id = None →
  timers_ok (<[id := tm]> st) (<[id := tm]> c) now fl fired closed.
Proof using Hok.
  intros Hid. destruct Hok as [H1 H2 H3 H4 H5].
  assert (Hst' : ∀ t' tm', st !! t' = Some tm' → <[id := tm]> st !! t' = Some tm' ∧ t' ≠ id).
  { intros t' tm' Hs. assert (t' ≠ id) by congruence. by rewrite lookup_insert_ne. }
  split.
  - by apply insert_mono.
  - intros t ph Hfl. destruct (H2 t ph Hfl) as (Hc & tm' & Hs & Hr). destruct (Hst' t tm' Hs).
    split; [by rewrite lookup_insert_ne|]. by exists tm'.
  - intros t w f Hf. destruct (H3 t w f Hf) as (? & tm' & Hs & Ha). destruct (Hst' t tm' Hs). split; [done|].
    exists tm'. split; [done|]. intros [[? Hq]|?]; apply Ha; [left|by right]. rewrite lookup_insert_ne in Hq by done. by eexists.
  - intros l1 l2 t w f w' f' Heq Hin. destruct (H4 l1 l2 t w f w' f' Heq Hin) as (tm' & Hs & ?).
    destruct (Hst' t tm' Hs). by exists tm'.
  - intros t tm' Hs Hct. destruct (decide (t = id)) as [->|Hne]; [left; rewrite lookup_insert_eq; by eexists|].
    rewrite lookup_insert_ne in * by done. by apply H5.
Qed.

Lemma timers_cancel t tm : st !! t = Some tm →
  let tm' := mkTimer (when tm) (interval tm) true in
  timers_ok (<[t := tm']> st) (alter (λ _, tm') t c) now fl fired closed.
Proof using Hok.
  intros Ht tm'. destruct Hok as [H1 H2 H3 H4 H5].
  assert (Hst' : ∀ k x, st !! k = Some x → ∃ y, <[t := tm']> st !! k = Some y ∧ when y = when x ∧
      interval y = interval x ∧ (cancelled x = true → cancelled y = true)).
  { intros k x Hk. destruct (decide (k = t)) as [->|Hne]; [rewrite lookup_insert_eq; simplify_eq; by eexists|].
    rewrite lookup_insert_ne by done. by exists x. }
  assert (Hc' : ∀ k, is_Some (alter (λ _, tm') t c !! k) ↔ is_Some (c !! k)).
  { intros k. destruct (decide (k = t)) as [->|Hne]; [rewrite lookup_alter_eq|by rewrite lookup_alter_ne].
    by rewrite fmap_is_Some. }
  assert (Hact : ∀ k, active (alter (λ _, tm') t c) fl k ↔ active c fl k) by (intros k; unfold active; by rewrite Hc').
  split.
  - apply map_subseteq_spec. intros k x Hk. destruct (decide (k = t)) as [->|Hne].
    + rewrite lookup_alter_eq in Hk. rewrite lookup_insert_eq. by destruct (c !! t); simplify_eq/=.
    + rewrite lookup_alter_ne in Hk by done. rewrite lookup_insert_ne by done. by eapply lookup_weaken.
  - intros k ph Hfl. destruct (H2 k ph Hfl) as (Hc & x & Hs & Hd & Hr & Hi). destruct (Hst' k x Hs) as (y & Hy & Hw & Hiv & Hcc).
    split; [apply eq_None_not_Some; rewrite Hc', Hc; apply is_Some_None|]. exists y. rewrite Hw, Hiv.
    split_and!; [done|done| |done]. intros Hp. destruct (Hr Hp); auto.
  - intros k w f Hf. destruct (H3 k w f Hf) as (? & x & Hs & Ha). destruct (Hst' k x Hs) as (y & Hy & Hw & Hiv & _).
    split; [done|]. exists y. split; [done|]. by rewrite Hact, Hw, Hiv.
  - intros l1 l2 k w f w' f' Heq Hin. destruct (H4 l1 l2 k w f w' f' Heq Hin) as (x & Hs & ?).
    destruct (Hst' k x Hs) as (y & Hy & Hw & Hiv & _). exists y. by rewrite Hiv.
  - intros k x Hs Hct. rewrite Hc'. apply lookup_insert_Some in Hs as [[_ <-]|[Hne Hs]]; [done|]. by apply H5.
Qed.
End timers.

(** ** Invariants of the wheel *)

(** A wake-up is stored in the channel or about to be sent. *)
Definition pending (s : sys) : Prop := wakeup s = true ∨ (0 < wakes s)%nat.

Definition none_before (first : Z) (q : Wheel_heap) : Prop :=
  ∀ id t, contents q !! id = Some t → first ≤ when t.

Definition wake_ok (s : sys) : Prop :=
  match loop s with
  | CheckEmpty => pending s ∨ contents (heap s) = ∅
  | WaitEmpty => pending s ∨ (contents (heap s) = ∅ ∧ closed s = false)
  | CheckSleep first read => (pending s ∨ none_before first (heap s)) ∧ read ≤ now s
  | Sleep first until => (pending s ∨ (none_before first (heap s) ∧ closed s = false)) ∧ first ≤ until
  | _ => True
  end.

Record winv (s : sys) : Prop := {
  w_heap : inv when (heap s);
  w_timers : timers_ok (store (heap s)) (contents (heap s)) (now s) (flight (loop s)) (fired s) (closed s);
  w_wake : wake_ok s }.

Lemma loop_step_winv s s' : winv s → loop_step s s' → winv s'.
Proof.
  intros [Hi Ht Hw] Hstep. destruct Hstep as
    [s q p Hl Htop|s Hl|s Hl Hwk|s first read Hl|s first u Hl Hwk|s first u Hl Hu|s t tm Hl Htm|s t tm b Hl Htm|s t tm Hl Htm|s t tm Hl Htm|s t Hl];
    unfold wake_ok, timer_of in *; rewrite Hl in *; cbn [flight] in *.
  - destruct (top_step_spec _ _ _ _ Hi Htop) as (Hi' & Hs & _ & Hsub & Hk & Hp). split; cbn; [done| |].
    + rewrite Hs. eapply (timers_top _ _ _ _ _ _ Ht); [done|done| |].
      * intros id t Hc Hct. destruct (Hk id t Hc Hct) as [?| ->]; [by left|by right].
      * destruct p; try done; cbn [flight]; [by left..|]. destruct Hp as (x & ? & ? & ?). right. by exists t, x.
    + unfold wake_ok. cbn. destruct p; try done; [by right|]. destruct Hp as (-> & ? & ?). split; [by right|lia].
  - destruct (closed s) eqn:Hcl; split; cbn; rewrite ?Hcl; try done. unfold wake_ok, pending in *. cbn. naive_solver.
  - by split.
  - destruct (closed s) eqn:Hcl; split; cbn; rewrite ?Hcl; try done. unfold wake_ok, pending in *. cbn.
    destruct Hw as [Hw Hr]. split; [naive_solver|lia].
  - by split.
  - by split.
  - split; cbn; try done.
    + destruct (cancelled tm) eqn:Hct; [|done]. by eapply (timers_skip _ _ _ _ _ _ Ht).
    + unfold wake_ok. cbn. by destruct (cancelled tm).
  - split; cbn; [done| |done]. by eapply (timers_run _ _ _ _ _ _ Ht).
  - pose proof (timers_again _ _ _ _ _ _ Ht t tm eq_refl Htm) as Hg.
    split; cbn; [done| |]; unfold wake_ok; cbn; by destruct ((0 <? interval tm) && negb (cancelled tm) && negb (closed s)).
  - destruct (t_flight _ _ _ _ _ _ Ht t Resched eq_refl) as (Hc & _).
    destruct (set_data_spec (heap s) t tm (mkTimer (now s + interval tm) (interval tm) (cancelled tm)) Hi Htm (or_intror Hc))
      as (Hi' & _ & Hc' & Hs').
    split; cbn -[reschedule]; unfold reschedule; [done| |done]. rewrite Hc', Hs', alter_id.
    + by eapply (timers_reschedule _ _ _ _ _ _ Ht).
    + intros x Hx. congruence.
  - destruct (t_flight _ _ _ _ _ _ Ht t Timed eq_refl) as (Hc & tm & Htm & _).
    destruct (push_again_spec (heap s) t tm Hi Htm Hc) as (Hi' & _ & Hc' & Hs').
    split; cbn -[Heap.Push]; [done| |done]. rewrite Hc', Hs'. by eapply (timers_repush _ _ _ _ _ _ Ht).
Qed.

(** What the callers' steps do to the loop's waiting conditions. *)
Lemma wake_ok_mono s s' : loop s' = loop s → now s ≤ now s' → (pending s → pending s') →
  (pending s' ∨ (closed s' = closed s ∧
    ∀ id t', contents (heap s') !! id = Some t' → ∃ t, contents (heap s) !! id = Some t ∧ when t' = when t)) →
  wake_ok s → wake_ok s'.
Proof.
  intros Hl Hn Hp Hc. unfold wake_ok. rewrite Hl. destruct (loop s); try done.
  - intros [?|He]; [by left; apply Hp|]. destruct Hc as [?|[_ Hc]]; [by left|right]. apply map_eq. intros k.
    rewrite lookup_empty. destruct (contents (heap s') !! k) as [t'|] eqn:Hk; [|done].
    destruct (Hc k t' Hk) as (t & Ht & _). rewrite He in Ht. by rewrite lookup_empty in Ht.
  - intros [?|[He Hcl]]; [by left; apply Hp|]. destruct Hc as [?|[-> Hc]]; [by left|right]. split; [|done].
    apply map_eq. intros k. rewrite lookup_empty. destruct (contents (heap s') !! k) as [t'|] eqn:Hk; [|done].
    destruct (Hc k t' Hk) as (t & Ht & _). rewrite He in Ht. by rewrite lookup_empty in Ht.
  - intros [[?|Hb] ?]; (split; [|lia]); [by left; apply Hp|]. destruct Hc as [?|[_ Hc]]; [by left|right].
    intros k t' Hk. destruct (Hc k t' Hk) as (t & Ht & ->). by eapply Hb.
  - intros [[?|[Hb ?]] ?]; (split; [|done]); [by left; apply Hp|]. destruct Hc as [?|[-> Hc]]; [by left|right].
    split; [|done]. intros k t' Hk. destruct (Hc k t' Hk) as (t & Ht & ->). by eapply Hb.
Qed.

Lemma store_next_None q : heap_ok q → store q !! next q = None (A := Timer).
Proof.
  intros Hok. unfold store. rewrite lookup_fmap. destruct (items q !! next q) eqn:Hi; [|done].
  pose proof (ok_next q Hok (next q)) as Hlt. rewrite Hi in Hlt. specialize (Hlt ltac:(by eexists)). lia.
Qed.

Lemma caller_step_winv s s' : winv s → caller_step s s' → winv s'.
Proof.
  intros [Hi Ht Hw] Hstep. destruct Hstep as [s d Hd|s d i Hcl|s l1 d i l2 Ha|s l1 d i l2 Ha|s w Hwk|s t tm Htm|s Hcl].
  - split; cbn; [done|by apply timers_tick|]. eapply wake_ok_mono; [..|exact Hw]; cbn; eauto; lia.
  - split; cbn; [done..|]. eapply wake_ok_mono; [..|exact Hw]; cbn; eauto; lia.
  - split; cbn; [done..|]. eapply wake_ok_mono; [..|exact Hw]; cbn; eauto; lia.
  - destruct (push_new_spec (heap s) d i Hi) as (Hi' & _ & Hc & Hs). split; cbn -[push_new]; [done| |].
    + rewrite Hc, Hs. apply timers_push_new; [done|]. apply store_next_None, Hi.
    + assert (pending (with_callers (with_heap s (push_new (heap s) d i)) (l1 ++ l2) (S (wakes s)))) by (right; cbn; lia).
      eapply wake_ok_mono; [..|exact Hw]; cbn; eauto; lia.
  - split; cbn; [done..|]. assert (pending (wake s w)) by (by left).
    eapply wake_ok_mono; [..|exact Hw]; cbn; eauto; lia.
  - destruct (set_data_spec (heap s) t tm (mkTimer (when tm) (interval tm) true) Hi Htm (or_introl eq_refl))
      as (Hi' & _ & Hc & Hs).
    split; cbn -[set_cancelled]; unfold set_cancelled; [done|rewrite Hc, Hs; by eapply timers_cancel|].
    eapply wake_ok_mono; [..|exact Hw]; cbn -[set_data]; [done|lia|done|]. right. split; [done|]. intros k t' Hk.
    rewrite Hc in Hk. apply lookup_alter_Some in Hk as [(-> & x & Hx & ->)|[_ Hk]]; [|eauto].
    exists x. split; [done|]. apply contents_store in Hx. unfold timer_of in Htm. by simplify_eq.
  - split; cbn; [done|by eapply timers_close|].
    assert (pending (Close_ s)) by (right; cbn; lia).
    eapply wake_ok_mono; [..|exact Hw]; cbn; eauto; lia.
Qed.

Lemma init_winv : winv init.
Proof.
  split; cbn; [apply empty_inv| |done].
  split; try done; intros *; cbn; try (intros Hin; by apply not_elem_of_nil in Hin).
  - by destruct l1.
Qed.

Lemma reachable_winv s : reachable s → winv s.
Proof.
  intros Hr. unfold reachable in Hr. remember init as s0 eqn:He.
  assert (Hi : winv s0) by (subst; apply init_winv). clear He. induction Hr as [|s1 s2 s3 [Hs|Hs] _ IH]; [done|..];
    apply IH; [by eapply loop_step_winv|by eapply caller_step_winv].
Qed.

(** ** Cancelling *)

Lemma store_keeps s s' t tm : winv s → wstep s s' → timer_of s t = Some tm →
  ∃ tm', timer_of s' t = Some tm' ∧ (cancelled tm = true → cancelled tm' = true).
Proof.
  intros [Hi Ht _] Hstep Htm. unfold timer_of in *. destruct Hstep as [Hstep|Hstep]; destruct Hstep; cbn [wake Close_ with_heap with_loop with_callers with_wakeup heap];
    try (by exists tm).
  - destruct (top_step_spec _ _ _ _ Hi H0) as (_ & -> & _). by exists tm.
  - unfold reschedule. rewrite H in Ht. cbn in Ht. destruct (t_flight _ _ _ _ _ _ Ht _ _ eq_refl) as (Hc & _).
    edestruct (set_data_spec (heap s) t0 tm0) as (_ & _ & _ & ->); [done|done|by right|].
    destruct (decide (t = t0)) as [->|Hne]; [|rewrite lookup_insert_ne; by eauto].
    rewrite lookup_insert_eq. unfold timer_of in *. simplify_eq. by eexists.
  - rewrite H in Ht. cbn in Ht. destruct (t_flight _ _ _ _ _ _ Ht _ _ eq_refl) as (Hc & x & Hx & _).
    destruct (push_again_spec (heap s) t0 x Hi Hx Hc) as (_ & _ & _ & ->). by exists tm.
  - destruct (push_new_spec (heap s) d i Hi) as (_ & _ & _ & ->). exists tm. rewrite lookup_insert_ne; [done|].
    intros <-. rewrite (store_next_None (heap s)) in Htm by apply Hi. done.
  - unfold set_cancelled. edestruct (set_data_spec (heap s) t0 tm0) as (_ & _ & _ & ->); [done|done|by left|].
    destruct (decide (t = t0)) as [->|Hne]; [|rewrite lookup_insert_ne; by eauto].
    rewrite lookup_insert_eq. by eexists.
Qed.

Definition runs_of (t : nat) (l : list (nat * Z * Z)) : list (nat * Z * Z) := filter (λ e, e.1.1 = t) l.

Lemma cancelled_step s s' t tm : winv s → wstep s s' → timer_of s t = Some tm → cancelled tm = true → loop s ≠ Run t →
  loop s' ≠ Run t ∧ runs_of t (fired s') = runs_of t (fired s).
Proof.
  intros Hinv [Hstep|Hstep] Htm Hct Hl; destruct Hstep; cbn [wake Close_ with_heap with_loop with_callers with_wakeup loop fired]; split; try done.
  - destruct (top_step_spec _ _ _ _ (w_heap _ Hinv) H0) as (_ & _ & _ & _ & _ & Hp). by destruct p.
  - by destruct (closed s).
  - by destruct (closed s).
  - intros Heq. destruct (cancelled tm0) eqn:Hc0; [done|]. congruence.
  - unfold runs_of. rewrite filter_cons. cbn. rewrite decide_False; [done|]. intros ->. congruence.
  - by destruct ((0 <? interval tm0) && negb (cancelled tm0) && negb (closed s)).
Qed.

(** ** Theorems *)

Lemma rtc_eq (s s' : sys) : s = s' → rtc wstep s s'.
Proof. intros ->. apply rtc_refl. Qed.

(** A timer due at 5 is added and runs when the clock shows 7. *)
Definition demo : sys :=
  mkSys 7 (mkHeap [] {[0%nat := mkItem (mkTimer 5 0 false) (-1)]} 1) false false (Again 0) [] 1 [(0%nat, 5, 7)] 0.

Lemma demo_reachable : reachable demo.
Proof.
  eapply rtc_l; [right; by apply (step_add _ 5 0)|].
  eapply rtc_l; [right; by apply (step_add_clock _ [] 5 0 [])|].
  eapply rtc_l; [right; by apply (step_add_push _ [] 5 0 [])|].
  eapply rtc_l; [right; by apply (step_tick _ 7)|].
  eapply rtc_l; [left; by eapply step_top|].
  eapply rtc_l; [left; by eapply (step_check_fire _ 0)|].
  eapply rtc_l; [left; by eapply (step_run _ 0 _ false)|].
  apply rtc_eq. vm_compute. reflexivity.
Qed.

(** C16: however the loop, the callers of Add, AddRecurring, Cancel and Close, and the
    clock are interleaved: a callback never runs before its timer's due time; a timer
    that runs again is recurring, and the later run was due at least one interval
    after the earlier one ran (so a one-shot timer runs at most once); and no timer is
    forgotten: while it is not cancelled it is queued, or in the loop's hands, or has
    run and is one-shot or the wheel is closed. *)
Theorem wtimer_safe s : reachable s →
  (∀ t w f, (t, w, f) ∈ fired s → w ≤ f ≤ now s) ∧
  (∀ l1 l2 t w f w' f', fired s = l1 ++ (t, w, f) :: l2 → (t, w', f') ∈ l2 →
     ∃ tm, timer_of s t = Some tm ∧ 0 < interval tm ∧ f' + interval tm ≤ w) ∧
  (∀ t tm, timer_of s t = Some tm → cancelled tm = false →
     t ∈ h (heap s) ∨ (∃ ph, flight (loop s) = Some (t, ph)) ∨
     (has_run (fired s) t ∧ (interval tm ≤ 0 ∨ closed s = true))).
Proof.
  intros [Hi [H1 H2 H3 H4 H5] _]%reachable_winv. split; [|split; [done|]].
  - intros t w f Hf. by destruct (H3 t w f Hf).
  - intros t tm Ht Hc. rewrite contents_queued by apply Hi. by apply H5.
Qed.

Lemma wtimer_safe_witness : fired demo = [(0%nat, 5, 7)] ∧ 5 ≤ 7 ≤ now demo.
Proof. split; [reflexivity|]. apply (proj1 (wtimer_safe demo demo_reachable) 0%nat). apply list_elem_of_here. Defined.

(** A cancelled timer does not run: from any reachable state in which a timer is
    cancelled and its callback is not being started, no continuation runs it again. *)
Theorem wtimer_cancel s s' t tm : reachable s → timer_of s t = Some tm → cancelled tm = true → loop s ≠ Run t →
  rtc wstep s s' → runs_of t (fired s') = runs_of t (fired s).
Proof.
  intros Hr%reachable_winv Htm Hct Hl Hs. revert tm Hr Htm Hct Hl. induction Hs as [|s s1 s2 Hs _ IH]; [done|].
  intros tm Hinv Htm Hct Hl. destruct (cancelled_step _ _ _ _ Hinv Hs Htm Hct Hl) as [Hl' <-].
  destruct (store_keeps _ _ _ _ Hinv Hs Htm) as (tm' & Htm' & Hct').
  apply (IH tm'); [|done|auto|done]. destruct Hs; [by eapply loop_step_winv|by eapply caller_step_winv].
Qed.

Definition demo_cancelled : sys := with_heap demo (set_cancelled (heap demo) 0 (mkTimer 5 0 false)).

Lemma wtimer_cancel_witness : runs_of 0 (fired (with_loop demo_cancelled Top)) = runs_of 0 (fired demo_cancelled).
Proof.
  apply (wtimer_cancel demo_cancelled (with_loop demo_cancelled Top) 0 (mkTimer 5 0 true)); [|reflexivity|reflexivity|discriminate|].
  - eapply rtc_r; [apply demo_reachable|]. right. by apply step_cancel.
  - apply rtc_once. left. by apply (step_again demo_cancelled 0 (mkTimer 5 0 true)).
Defined.

(** No wake-up is lost: when the loop cannot move and no caller is about to wake it,
    the wheel is not closed, and it is either empty or asleep on a timer that has not
    yet rung, set for no earlier than the first due time, before which nothing queued
    is due. *)
Theorem wtimer_no_lost_wakeup s : reachable s → wakes s = 0%nat → loop s ≠ Exited →
  (∀ s', ¬ loop_step s s') →
  closed s = false ∧
  ((loop s = WaitEmpty ∧ h (heap s) = []) ∨
   ∃ first until, loop s = Sleep first until ∧ first ≤ until ∧ now s < until ∧ none_before first (heap s)).
Proof.
  intros Hr%reachable_winv Hwk Hex Hstuck. destruct Hr as [Hi Ht Hw].
  assert (Hp : wakeup s = false → ¬ pending s) by (unfold pending; intros Hf [?|?]; [congruence|lia]).
  assert (Hfl : ∀ t ph, flight (loop s) = Some (t, ph) → ∃ tm, timer_of s t = Some tm).
  { intros t ph Hf. destruct (t_flight _ _ _ _ _ _ Ht t ph Hf) as (_ & tm & Htm & _). by exists tm. }
  unfold wake_ok in Hw. destruct (loop s) as [| | |first read|first until|t|t|t|t|t|] eqn:Hl; try done.
  - destruct (top_step (heap s) (now s)) as [q p] eqn:Htop. exfalso; by eapply Hstuck, step_top.
  - exfalso; by eapply Hstuck, step_check_empty.
  - destruct (wakeup s) eqn:Hwu; [by exfalso; eapply Hstuck, step_wait_empty|].
    destruct Hw as [?|[Hc Hcl]]; [by exfalso; apply Hp|]. split; [done|left; split; [done|]].
    apply length_zero_iff_nil. by rewrite length_contents, Hc by apply Hi.
  - exfalso; by eapply Hstuck, step_check_sleep.
  - destruct (wakeup s) eqn:Hwu; [by exfalso; eapply Hstuck, step_sleep_woken|].
    destruct Hw as [[?|[Hb Hcl]] Hu]; [by exfalso; apply Hp|]. split; [done|right]. exists first, until.
    split_and!; try done. destruct (Z.lt_ge_cases (now s) until); [done|]. by exfalso; eapply Hstuck, step_sleep_timer.
  - destruct (Hfl _ _ eq_refl) as [tm Htm]. exfalso; by eapply Hstuck, step_check_fire.
  - destruct (Hfl _ _ eq_refl) as [tm Htm]. exfalso; by eapply (Hstuck _), (step_run _ _ _ false).
  - destruct (Hfl _ _ eq_refl) as [tm Htm]. exfalso; by eapply Hstuck, step_again.
  - destruct (Hfl _ _ eq_refl) as [tm Htm]. exfalso; by eapply Hstuck, step_reschedule.
  - exfalso; by eapply Hstuck, step_repush.
Qed.

(** The wheel asleep on an empty heap. *)
Lemma wtimer_no_lost_wakeup_witness : closed (with_loop init WaitEmpty) = false ∧ h (heap (with_loop init WaitEmpty)) = [].
Proof.
  destruct (wtimer_no_lost_wakeup (with_loop init WaitEmpty)) as (? & _); [|done|done| |done].
  - eapply rtc_l; [left; by eapply step_top|]. eapply rtc_l; [left; by eapply step_check_empty|]. by apply rtc_eq.
  - intros s'. remember (with_loop init WaitEmpty) as s0 eqn:E. destruct 1; subst; try done.
Defined.

(** A call of [Add] that tested [closed] before [Close] pushes its timer after the
    loop has ended: it returns no error and the timer never runs. *)
Example wtimer_add_after_close : ∃ s, reachable s ∧ loop s = Exited ∧ adders s = [] ∧ h (heap s) = [0%nat].
Proof.
  eexists. split.
  - eapply rtc_l; [right; by apply (step_add _ 5 0)|]. eapply rtc_l; [right; by apply step_close|].
    eapply rtc_l; [left; by eapply step_top|]. eapply rtc_l; [left; by eapply step_check_empty|].
    eapply rtc_l; [right; by apply (step_add_clock _ [] 5 0 [])|].
    eapply rtc_l; [right; by apply (step_add_push _ [] 5 0 [])|]. apply rtc_refl.
  - by vm_compute.
Qed.
