(* ===== verification/Batcher.v ===== *)
(** * Batcher: the batch coalescer of [batcher/batcher.go]

    One collector goroutine receives items from a bounded channel and hands them
    to the flush callback in batches; producers call [Add], anyone may call
    [Flush] and [Close].  A goroutine is a program counter and every channel or
    lock operation is a step; a step of the collector is one branch of a
    [select] with the call of [addAndMaybeFlush] or [flush] that follows it,
    which touches only the collector's own buffer.

    Shown ([batcher_fifo]): the accepted items are, in the order of acceptance, those
    handed to the callback in non-empty batches of at most [maxSize], then those in a
    buffer, then those in the channel; an acknowledged [Flush] has flushed all that
    was accepted before it was called, and when a [Close] returns nothing accepted so
    far is left.  [batcher_late_add] is the schedule in which an [Add]
    that passed its first test before [Close] is accepted after it. *)

From Stdlib Require Import ZArith Lia.
From stdpp Require Import base tactics numbers list relations.
From S2P Require Import Prelude.

#[local] Open Scope Z_scope.

Record Config := mkConfig { maxSize : nat; bufferCap : nat; ticking : bool }.

(** [WithBufferSize]: a negative value is ignored. *)
Definition WithBufferSize (n : Z) (cap : nat) : nat := if 0 <=? n then Z.to_nat n else cap.

(** [New]; [None] is a panic. *)
Definition New (maxSize interval : Z) (flush_is_nil : bool) (opts : list Z) : option Config :=
  if maxSize <=? 0 then None
  else if flush_is_nil then None
  else Some (mkConfig (Z.to_nat maxSize) (foldl (λ cap n, WithBufferSize n cap) (Z.to_nat maxSize) opts) (0 <? interval)).

Section batcher.
Context {T : Type} (cfg : Config) (panics : list T → bool).

(** The calls of the flush callback, and how many of them panicked. *)
Record calls := mkCalls { batches : list (list T); recovered : Z }.

Definition safeFlush (buf : list T) (c : calls) : calls :=
  mkCalls (batches c ++ [buf]) (if panics buf then u64 (recovered c + 1) else recovered c).

(** [flush] of the collector: the buffer is emptied. *)
Definition flush (buf : list T) (c : calls) : calls :=
  match buf with [] => c | _ => safeFlush buf c end.

Definition addAndMaybeFlush (item : T) (buf : list T) (c : calls) : list T * calls :=
  let buf := buf ++ [item] in
  if (maxSize cfg <=? length buf)%nat then ([], flush buf c) else (buf, c).

(** The collector: its [select], the drain after [done], the drain for a [Flush]
    and its acknowledgement, or ended. *)
Inductive collector :=
| Select (buf : list T)
| DrainDone (buf : list T)
| DrainFlush (buf : list T) (ack : nat)
| Stopped.

Definition cbuf (c : collector) : list T :=
  match c with Select b | DrainDone b | DrainFlush b _ => b | Stopped => [] end.

(** The collector can take an item of its channel in all its loops. *)
Definition with_cbuf (c : collector) (b : list T) : collector :=
  match c with
  | Select _ => Select b
  | DrainDone _ => DrainDone b
  | DrainFlush _ a => DrainFlush b a
  | Stopped => Stopped
  end.

(** A caller of [Flush]: [n] items had been accepted when it was called. *)
Inductive flusher :=
| Requesting (n : nat)
| Awaiting (ack n : nat).

(** [passed]: callers of [Add] between the first test of [done] and [RLock];
    [sending]: those that hold the read lock; [waiting], [locking]: callers of
    [Close] before [<-b.closed] and before [mu.Lock]; [writer]: the buffer of the
    one that holds the write lock. *)
Record sys := mkSys {
  inq : list T; done_ : bool; coll : collector; flushCh : option nat; acks : list nat; next_ack : nat;
  passed : list T; sending : list T; waiting : nat; locking : nat; writer : option (list T);
  flushers : list flusher; accepted : list T; out : calls }.

Definition init : sys :=
  mkSys [] false (Select []) None [] 0 [] [] 0 0 None [] [] (mkCalls [] 0).

(** The collector. *)
Inductive run_step : sys → sys → Prop :=
| run_recv inq d c fc ak na pa se wa lo wr fl ac out x inq' buf' out' :
    c ≠ Stopped → inq = x :: inq' → addAndMaybeFlush x (cbuf c) out = (buf', out') →
    run_step (mkSys inq d c fc ak na pa se wa lo wr fl ac out)
             (mkSys inq' d (with_cbuf c buf') fc ak na pa se wa lo wr fl ac out')
| run_handoff d c fc ak na pa s1 x s2 wa lo wr fl ac out buf' out' :
    bufferCap cfg = 0%nat → c ≠ Stopped → addAndMaybeFlush x (cbuf c) out = (buf', out') →
    run_step (mkSys [] d c fc ak na pa (s1 ++ x :: s2) wa lo wr fl ac out)
             (mkSys [] d (with_cbuf c buf') fc ak na pa (s1 ++ s2) wa lo wr fl (ac ++ [x]) out')
| run_tick inq d buf fc ak na pa se wa lo wr fl ac out : ticking cfg = true →
    run_step (mkSys inq d (Select buf) fc ak na pa se wa lo wr fl ac out)
             (mkSys inq d (Select []) fc ak na pa se wa lo wr fl ac (flush buf out))
| run_flush_req inq d buf a ak na pa se wa lo wr fl ac out :
    run_step (mkSys inq d (Select buf) (Some a) ak na pa se wa lo wr fl ac out)
             (mkSys inq d (DrainFlush buf a) None ak na pa se wa lo wr fl ac out)
| run_flush_end d buf a fc ak na pa se wa lo wr fl ac out :
    run_step (mkSys [] d (DrainFlush buf a) fc ak na pa se wa lo wr fl ac out)
             (mkSys [] d (Select []) fc (a :: ak) na pa se wa lo wr fl ac (flush buf out))
| run_done inq buf fc ak na pa se wa lo wr fl ac out :
    run_step (mkSys inq true (Select buf) fc ak na pa se wa lo wr fl ac out)
             (mkSys inq true (DrainDone buf) fc ak na pa se wa lo wr fl ac out)
| run_exit d buf fc ak na pa se wa lo wr fl ac out :
    run_step (mkSys [] d (DrainDone buf) fc ak na pa se wa lo wr fl ac out)
             (mkSys [] d Stopped fc ak na pa se wa lo wr fl ac (flush buf out)).

(** [Add]: the first test, [RLock] (which waits for writers that hold or await the
    lock), and the [select] between the send and [done]. *)
Inductive add_step : sys → sys → Prop :=
| add_start inq c fc ak na pa se wa lo wr fl ac out x :
    add_step (mkSys inq false c fc ak na pa se wa lo wr fl ac out)
             (mkSys inq false c fc ak na (x :: pa) se wa lo wr fl ac out)
| add_rlock inq d c fc ak na p1 x p2 se wa fl ac out :
    add_step (mkSys inq d c fc ak na (p1 ++ x :: p2) se wa 0 None fl ac out)
             (mkSys inq d c fc ak na (p1 ++ p2) (x :: se) wa 0 None fl ac out)
| add_send inq d c fc ak na pa s1 x s2 wa lo wr fl ac out : (length inq < bufferCap cfg)%nat →
    add_step (mkSys inq d c fc ak na pa (s1 ++ x :: s2) wa lo wr fl ac out)
             (mkSys (inq ++ [x]) d c fc ak na pa (s1 ++ s2) wa lo wr fl (ac ++ [x]) out)
| add_reject inq c fc ak na pa s1 x s2 wa lo wr fl ac out :
    add_step (mkSys inq true c fc ak na pa (s1 ++ x :: s2) wa lo wr fl ac out)
             (mkSys inq true c fc ak na pa (s1 ++ s2) wa lo wr fl ac out).

(** [Flush]: the request, or nothing once closed, and the wait for the answer. *)
Inductive flush_step : sys → sys → Prop :=
| flush_start inq d c fc ak na pa se wa lo wr fl ac out :
    flush_step (mkSys inq d c fc ak na pa se wa lo wr fl ac out)
               (mkSys inq d c fc ak na pa se wa lo wr (Requesting (length ac) :: fl) ac out)
| flush_send inq d c ak na pa se wa lo wr f1 n f2 ac out :
    flush_step (mkSys inq d c None ak na pa se wa lo wr (f1 ++ Requesting n :: f2) ac out)
               (mkSys inq d c (Some na) ak (S na) pa se wa lo wr (f1 ++ Awaiting na n :: f2) ac out)
| flush_closed inq c fc ak na pa se wa lo wr f1 f f2 ac out :
    flush_step (mkSys inq true c fc ak na pa se wa lo wr (f1 ++ f :: f2) ac out)
               (mkSys inq true c fc ak na pa se wa lo wr (f1 ++ f2) ac out)
| flush_return inq d c fc ak na pa se wa lo wr f1 a n f2 ac out : a ∈ ak →
    flush_step (mkSys inq d c fc ak na pa se wa lo wr (f1 ++ Awaiting a n :: f2) ac out)
               (mkSys inq d c fc ak na pa se wa lo wr (f1 ++ f2) ac out).

(** [Close]: [close(b.done)] once, the wait for the collector, the write lock (which
    waits for the readers), the final drain, the return. *)
Inductive close_step : sys → sys → Prop :=
| close_start inq d c fc ak na pa se wa lo wr fl ac out :
    close_step (mkSys inq d c fc ak na pa se wa lo wr fl ac out)
               (mkSys inq true c fc ak na pa se (S wa) lo wr fl ac out)
| close_stopped inq d fc ak na pa se wa lo wr fl ac out :
    close_step (mkSys inq d Stopped fc ak na pa se (S wa) lo wr fl ac out)
               (mkSys inq d Stopped fc ak na pa se wa (S lo) wr fl ac out)
| close_lock inq d c fc ak na pa wa lo fl ac out :
    close_step (mkSys inq d c fc ak na pa [] wa (S lo) None fl ac out)
               (mkSys inq d c fc ak na pa [] wa lo (Some []) fl ac out)
| close_recv x inq d c fc ak na pa se wa lo buf fl ac out :
    close_step (mkSys (x :: inq) d c fc ak na pa se wa lo (Some buf) fl ac out)
               (let '(buf', out') := if (maxSize cfg <=? length (buf ++ [x]))%nat
                  then ([], safeFlush (buf ++ [x]) out) else (buf ++ [x], out) in
                mkSys inq d c fc ak na pa se wa lo (Some buf') fl ac out').

(** The last step of [Close]: the [default] branch and [Unlock]. *)
Inductive close_return : sys → sys → Prop :=
| close_end d c fc ak na pa se wa lo buf fl ac out :
    close_return (mkSys [] d c fc ak na pa se wa lo (Some buf) fl ac out)
                 (mkSys [] d c fc ak na pa se wa lo None fl ac (flush buf out)).

Definition step (s s' : sys) : Prop :=
  run_step s s' ∨ add_step s s' ∨ flush_step s s' ∨ close_step s s' ∨ close_return s s'.
Definition reachable (s : sys) : Prop := rtc step init s.

(** ** Invariant *)

Definition batch_ok (b : list T) : Prop := b ≠ [] ∧ (length b ≤ maxSize cfg)%nat.

Lemma flush_concat buf c : concat (batches (flush buf c)) = concat (batches c) ++ buf.
Proof.
  destruct buf as [|x buf]; simpl; [by rewrite app_nil_r|].
  by rewrite concat_app; simpl; rewrite app_nil_r.
Qed.

Lemma flush_ok buf c : (length buf ≤ maxSize cfg)%nat → Forall batch_ok (batches c) → Forall batch_ok (batches (flush buf c)).
Proof.
  intros Hl Hc. destruct buf as [|x buf]; [done|]. simpl. apply Forall_app. split; [done|]. by repeat constructor.
Qed.

Lemma add_spec x buf c buf' c' : (length buf < maxSize cfg)%nat → Forall batch_ok (batches c) →
  addAndMaybeFlush x buf c = (buf', c') →
  concat (batches c') ++ buf' = concat (batches c) ++ buf ++ [x] ∧
  (length buf' < maxSize cfg)%nat ∧ Forall batch_ok (batches c') ∧
  (length (concat (batches c)) ≤ length (concat (batches c')))%nat.
Proof.
  intros Hl Hc. unfold addAndMaybeFlush. destruct (Nat.leb_spec (maxSize cfg) (length (buf ++ [x]))); intros [= <- <-].
  - rewrite app_nil_r, flush_concat. rewrite length_app in *. simpl in *. split_and!; [done|lia| |lia].
    apply flush_ok; [|done]. rewrite length_app. simpl. lia.
  - by split_and!.
Qed.

(** [Close] flushes its buffer by the same rule. *)
Lemma close_add x buf c :
  (if (maxSize cfg <=? length (buf ++ [x]))%nat then ([], safeFlush (buf ++ [x]) c) else (buf ++ [x], c)) =
  addAndMaybeFlush x buf c.
Proof. unfold addAndMaybeFlush, flush. by destruct buf. Qed.

Definition flusher_ok (s : sys) (f : flusher) : Prop :=
  match f with
  | Requesting n => (n ≤ length (accepted s))%nat
  | Awaiting a n => (n ≤ length (accepted s))%nat ∧ (a < next_ack s)%nat ∧
      (a ∈ acks s → (n ≤ length (concat (batches (out s))))%nat)
  end.

Record binv (s : sys) : Prop := {
  b_fifo : accepted s = concat (batches (out s)) ++ cbuf (coll s) ++ default [] (writer s) ++ inq s;
  b_size : Forall batch_ok (batches (out s));
  b_buf : (length (cbuf (coll s)) < maxSize cfg ∧ length (default [] (writer s)) < maxSize cfg)%nat;
  b_excl : (0 < locking s)%nat ∨ writer s ≠ None → coll s = Stopped;
  b_flush : Forall (flusher_ok s) (flushers s);
  b_acks : Forall (λ a, a < next_ack s)%nat (acks s ++ option_list (flushCh s) ++
    match coll s with DrainFlush _ a => [a] | _ => [] end) }.

Lemma with_cbuf_spec (c : collector) b : c ≠ Stopped →
  cbuf (with_cbuf c b) = b ∧ (with_cbuf c b = Stopped ↔ c = Stopped) ∧
  match with_cbuf c b with DrainFlush _ a => [a] | _ => [] end = match c with DrainFlush _ a => [a] | _ => [] end.
Proof. by destruct c. Qed.

(** What the callers of [Flush] rely on only grows. *)
Lemma flushers_mono s s' : (length (accepted s) ≤ length (accepted s'))%nat → next_ack s = next_ack s' →
  acks s = acks s' → (length (concat (batches (out s))) ≤ length (concat (batches (out s'))))%nat →
  ∀ l, Forall (flusher_ok s) l → Forall (flusher_ok s') l.
Proof.
  intros Ha Hn Hk Hc l Hl. eapply Forall_impl; [exact Hl|]. intros [n|a n]; simpl; [lia|]. rewrite <- Hn, <- Hk. intros (? & ? & H3).
  split_and!; [lia|lia|]. intros ?%H3. lia.
Qed.

Lemma run_binv s s' : binv s → run_step s s' → binv s'.
Proof.
  intros [Hf Hs [Hb Hw] He Hfl Ha] Hstep. destruct Hstep as
    [iq d c fc ak na pa se wa lo wr fl ac o x iq' buf' o' Hc -> Hadd
    |d c fc ak na pa s1 x s2 wa lo wr fl ac o buf' o' Hcap Hc Hadd
    |iq d buf fc ak na pa se wa lo wr fl ac o Ht|iq d buf a ak na pa se wa lo wr fl ac o
    |d buf a fc ak na pa se wa lo wr fl ac o|iq buf fc ak na pa se wa lo wr fl ac o
    |d buf fc ak na pa se wa lo wr fl ac o]; cbn [accepted out coll writer inq locking flushers flushCh acks next_ack cbuf] in *.
  - assert (wr = None) as -> by (destruct wr; [by destruct Hc; apply He; right|done]).
    destruct (add_spec _ _ _ _ _ Hb Hs Hadd) as (Hcc & Hl & Hs' & Hgrow). destruct (with_cbuf_spec c buf' Hc) as (Hcb & Hst & Hda).
    split; cbn [accepted out coll writer inq locking flushers flushCh acks next_ack]; rewrite ?Hcb, ?Hda, ?Hst; try done.
    + rewrite Hf. simpl. rewrite !(assoc_L (++)), Hcc. by rewrite <- !(assoc_L (++)).
    + eapply flushers_mono; [..|exact Hfl]; cbn; done.
  - assert (wr = None) as -> by (destruct wr; [by destruct Hc; apply He; right|done]).
    destruct (add_spec _ _ _ _ _ Hb Hs Hadd) as (Hcc & Hl & Hs' & Hgrow). destruct (with_cbuf_spec c buf' Hc) as (Hcb & Hst & Hda).
    split; cbn [accepted out coll writer inq locking flushers flushCh acks next_ack]; rewrite ?Hcb, ?Hda, ?Hst; try done.
    + rewrite Hf. simpl. rewrite !app_nil_r, Hcc. by rewrite <- !(assoc_L (++)).
    + eapply flushers_mono; [..|exact Hfl]; cbn; try done. rewrite length_app. lia.
  - split; cbn; rewrite ?flush_concat; try done; [by rewrite Hf, <- (assoc_L (++))|apply flush_ok; [lia|done]|lia|intros Hx; discriminate (He Hx)|].
    eapply flushers_mono; [..|exact Hfl]; cbn; rewrite ?flush_concat, ?length_app; done || lia.
  - split; cbn; try done. intros Hx. discriminate (He Hx).
  - split; cbn; rewrite ?flush_concat; try done.
    + rewrite Hf, <- (assoc_L (++)). done.
    + apply flush_ok; [lia|done].
    + lia.
    + intros Hx. discriminate (He Hx).
    + assert (Hall : length ac = length (concat (batches (flush buf o)) ++ default [] wr)).
      { rewrite Hf, flush_concat, !length_app. simpl. lia. }
      assert (wr = None) as -> by (destruct wr; [by discriminate He; right|done]).
      eapply Forall_impl; [exact Hfl|]. intros [n|a' n]; simpl; [done|]. intros (? & ? & H3). split_and!; try done.
      intros _. rewrite app_nil_r in Hall. lia.
    + rewrite !Forall_app in *. destruct Ha as (? & ? & [Ha _]%Forall_cons). apply Forall_cons. split; [exact Ha|].
      apply Forall_app. by rewrite app_nil_r.
  - split; cbn; try done. intros Hx. discriminate (He Hx).
  - split; cbn; rewrite ?flush_concat; try done; [by rewrite Hf, <- (assoc_L (++))|apply flush_ok; [lia|done]|lia|].
    eapply flushers_mono; [..|exact Hfl]; cbn; rewrite ?flush_concat, ?length_app; done || lia.
Qed.

Lemma add_binv s s' : binv s → add_step s s' → binv s'.
Proof.
  intros [Hf Hs Hb He Hfl Ha] Hstep. destruct Hstep; cbn in *; split; cbn; try done.
  - by rewrite Hf, <- !(assoc_L (++)).
  - eapply flushers_mono; [..|exact Hfl]; cbn; rewrite ?length_app; done || lia.
Qed.

Lemma flush_binv s s' : binv s → flush_step s s' → binv s'.
Proof.
  intros [Hf Hs Hb He Hfl Ha] Hstep. destruct Hstep; cbn in *; split; cbn; try done.
  - constructor; [simpl; lia|done].
  - apply Forall_app in Hfl as [H1 [H2 H3]%Forall_cons]. rewrite Forall_app, Forall_cons.
    assert (Hm : ∀ l, Forall (flusher_ok (mkSys inq0 d c None ak na pa se wa lo wr (f1 ++ Requesting n :: f2) ac out0)) l →
      Forall (flusher_ok (mkSys inq0 d c (Some na) ak (S na) pa se wa lo wr (f1 ++ Awaiting na n :: f2) ac out0)) l).
    { intros l Hl. eapply Forall_impl; [exact Hl|]. intros [|a n']; simpl; [done|]. intros (? & ? & ?). split_and!; [done|lia|done]. }
    split_and!; [by apply Hm| |by apply Hm]. simpl in *. split_and!; [done|lia|]. intros Hna. exfalso.
    apply Forall_app in Ha as [Hak _]. eapply Forall_forall in Hak; [|done]. lia.
  - rewrite !Forall_app in *. destruct Ha as (Hak & Hc). rewrite Forall_cons. split_and!.
    + eapply Forall_impl; [exact Hak|]. simpl. lia.
    + lia.
    + eapply Forall_impl; [exact Hc|]. simpl. lia.
  - apply Forall_app in Hfl as [? [? ?]%Forall_cons]. by apply Forall_app.
  - apply Forall_app in Hfl as [? [? ?]%Forall_cons]. by apply Forall_app.
Qed.

Lemma close_binv s s' : binv s → close_step s s' → binv s'.
Proof.
  intros [Hf Hs [Hb Hw] He Hfl Ha] Hstep. destruct Hstep; cbn in *.
  - by split.
  - by split.
  - split; cbn; try done. intros _. apply He. left. lia.
  - rewrite close_add. destruct (addAndMaybeFlush x buf out0) as [buf' out'] eqn:Hadd.
    assert (c = Stopped) as -> by (apply He; by right). simpl in *.
    destruct (add_spec _ _ _ _ _ Hw Hs Hadd) as (Hcc & Hl & Hs' & Hgrow). split; cbn; try done.
    + rewrite Hf, !(assoc_L (++)), Hcc. by rewrite <- !(assoc_L (++)).
    + eapply flushers_mono; [..|exact Hfl]; cbn; done.
Qed.

Lemma return_binv s s' : binv s → close_return s s' → binv s' ∧ accepted s' = concat (batches (out s')).
Proof.
  intros [Hf Hs [Hb Hw] He Hfl Ha] Hstep. destruct Hstep; cbn in *.
  assert (c = Stopped) as -> by (apply He; by right). simpl in *. rewrite app_nil_r in Hf.
  split; [split; cbn; rewrite ?flush_concat; try done|by rewrite flush_concat].
  - by rewrite app_nil_r.
  - apply flush_ok; [lia|done].
  - eapply flushers_mono; [..|exact Hfl]; cbn; rewrite ?flush_concat, ?length_app; done || lia.
Qed.

Context (Hmax : (0 < maxSize cfg)%nat).

Lemma reachable_binv s : reachable s → binv s.
Proof using Hmax.
  intros Hr. unfold reachable in Hr. remember init as s0 eqn:Hs0.
  assert (Hi : binv s0) by (subst; split; cbn; try done; intros [?|?]; [lia|done]). clear Hs0.
  induction Hr as [|s1 s2 s3 Hs _ IH]; [done|]. apply IH.
  destruct Hs as [?|[?|[?|[?|?]]]];
    [by eapply run_binv|by eapply add_binv|by eapply flush_binv|by eapply close_binv|by apply (return_binv s1)].
Qed.
End batcher.

Lemma New_maxSize m itv nilf opts cfg : New m itv nilf opts = Some cfg → (0 < maxSize cfg)%nat.
Proof.
  unfold New. destruct (Z.leb_spec m 0); [done|]. destruct nilf; [done|]. intros [= <-]. simpl. lia.
Qed.

(** C17: however producers, flushers, closers and the collector are interleaved, the
    items whose Add returned true are, in the order of acceptance, the concatenation
    of the batches given to the flush callback, then the buffer of the collector or of
    the closer that drains, then the channel; every batch is non-empty and at most
    maxSize long; once a Flush is acknowledged every item accepted before it was called
    has been given to the callback; and when a Close returns every item accepted so far
    has.  So an item stays in the channel only if it is accepted after the last Close
    has returned ([batcher_late_add]). *)
Theorem batcher_fifo {T} m itv opts cfg (panics : list T → bool) s :
  New m itv false opts = Some cfg → reachable cfg panics s →
  accepted s = concat (batches (out s)) ++ cbuf (coll s) ++ default [] (writer s) ++ inq s ∧
  Forall (λ b, b ≠ [] ∧ Z.of_nat (length b) ≤ m) (batches (out s)) ∧
  (∀ a n, Awaiting a n ∈ flushers s → a ∈ acks s → take n (accepted s) = take n (concat (batches (out s)))) ∧
  (∀ s', close_return panics s s' → accepted s' = concat (batches (out s'))).
Proof.
  intros Hn Hr. pose proof (reachable_binv _ _ (New_maxSize _ _ _ _ _ Hn) _ Hr) as Hinv. split_and!.
  - by apply b_fifo in Hinv.
  - eapply Forall_impl; [apply (b_size _ _ Hinv)|]. intros b [? Hl]. split; [done|]. unfold New in Hn.
    destruct (Z.leb_spec m 0); [done|]. simplify_eq/=. lia.
  - intros a n Hin Ha. pose proof (b_flush _ _ Hinv) as Hfl. rewrite Forall_forall in Hfl.
    destruct (Hfl _ Hin) as (_ & _ & Hle). rewrite (b_fifo _ _ Hinv). by apply take_app_le, Hle.
  - intros s' Hs. by apply (return_binv cfg panics s s').
Qed.

Definition demo_config : Config := mkConfig 2 2 false.

(** Two items, a batch of two, and a third item still in the channel. *)
Definition demo : sys :=
  mkSys [7] false (Select []) None [] 0 [] [] 0 0 None [] [5; 6; 7] (mkCalls [[5; 6]] 1).

Lemma batch_demo_reachable : reachable demo_config (λ _, true) demo.
Proof.
  do 3 (eapply rtc_l; [right; left; apply add_start|]).
  do 3 (eapply rtc_l; [right; left; apply (add_rlock _ _ _ _ _ _ _ [])|]).
  eapply rtc_l; [right; left; apply (add_send _ _ _ _ _ _ _ _ []); simpl; lia|].
  eapply rtc_l; [right; left; apply (add_send _ _ _ _ _ _ _ _ []); simpl; lia|].
  eapply rtc_l; [left; by eapply run_recv|]. simpl.
  eapply rtc_l; [left; by eapply run_recv|]. simpl.
  eapply rtc_l; [right; left; apply (add_send _ _ _ _ _ _ _ _ []); simpl; lia|].
  apply rtc_refl.
Qed.

Definition demo_close : sys :=
  mkSys [] true Stopped None [] 0 [8] [] 0 0 (Some []) [] [] (mkCalls [] 0).

Lemma demo_close_reachable : reachable demo_config (λ _, false) demo_close.
Proof.
  eapply rtc_l; [right; left; apply add_start|].
  eapply rtc_l; [do 3 right; left; apply close_start|].
  eapply rtc_l; [left; apply run_done|]. eapply rtc_l; [left; apply run_exit|].
  eapply rtc_l; [do 3 right; left; apply close_stopped|].
  eapply rtc_l; [do 3 right; left; apply close_lock|]. apply rtc_refl.
Qed.

Lemma batcher_fifo_witness : accepted demo = concat (batches (out demo)) ++ [] ++ [] ++ [7] ∧
  ∀ s', close_return (λ _, false) demo_close s' → accepted s' = concat (batches (out s')).
Proof.
  split; [apply (batcher_fifo 2 0 [] demo_config (λ _, true) demo); [reflexivity|apply batch_demo_reachable]|].
  apply (batcher_fifo 2 0 [] demo_config (λ _, false) demo_close); [reflexivity|apply demo_close_reachable].
Defined.

(** A caller of [Add] that saw [done] open before [Close], and takes the read lock
    after [Close] has returned, finds both branches of its [select] ready: the send can
    be chosen, [Add] returns true, and no goroutine is left to flush the item. *)
Example batcher_late_add : ∃ s, reachable demo_config (λ _, false) s ∧
  coll s = Stopped ∧ waiting s = 0%nat ∧ locking s = 0%nat ∧ writer s = None ∧ passed s = [] ∧ sending s = [] ∧
  accepted s = [8] ∧ batches (out s) = [].
Proof.
  eexists. split.
  - unfold reachable. etrans; [apply demo_close_reachable|]. eapply rtc_l; [do 4 right; apply close_end|].
    eapply rtc_l; [right; left; apply (add_rlock _ _ _ _ _ _ _ [] _ [])|].
    eapply rtc_l; [right; left; apply (add_send _ _ _ _ _ _ _ _ [] _ []); simpl; lia|]. apply rtc_refl.
  - by vm_compute.
Qed.
