(* ===== verification/Idempotency.v ===== *)
(** * Idempotency: the in-process idempotency cache of [idempotency/idempotency.go]

    The map leads from keys to pointers of entries, which outlive their place in
    the map: leaders and followers keep them.  Each section under the mutex is
    one function; callers of [Do] are leaders running their function or
    followers waiting, and [step] interleaves them.  The order in which Go ranges
    over the map is a parameter.

    Shown: while [Forget] and [Clear] are not used, a key has one execution at a
    time and, in an unbounded cache, a success is not repeated before it expires
    ([idempotency_singleflight]); whatever is used, callers receive the outcome of
    an execution for their key and no follower waits for a leader that is gone
    ([idempotency_results]); eviction keeps the bound, never removes an execution
    in flight, and removes the expired and then the oldest
    ([idempotency_evict]).  [stale_leader_deletes] is the schedule in which a
    forgotten leader that fails removes the entry of its successor. *)

From Stdlib Require Import ZArith Lia.
From stdpp Require Import base tactics numbers list gmap strings relations.
From S2P Require Import Prelude.

#[local] Open Scope Z_scope.

Section idempotency.
Context {V E : Type}.

(** [expiresAt]: [None] is the zero time. *)
Record entry := mkEntry { res : V * option E; completed : bool; expiresAt : option Z }.

Definition expired (e : entry) (now : Z) : bool :=
  match expiresAt e with Some t => t <? now | None => false end.

(** [time.Time.Before]: the zero time comes before all others. *)
Definition Before (a b : option Z) : bool :=
  match a, b with
  | Some x, Some y => x <? y
  | None, Some _ => true
  | _, None => false
  end.

Record Config := mkConfig { ttl : Z; maxEntries : Z; cacheErrors : bool }.

Inductive Option_ := WithTTL (d : Z) | WithMaxEntries (n : Z) | WithCacheErrors (on : bool).
Definition apply_option (c : Config) (o : Option_) : Config :=
  match o with
  | WithTTL d => mkConfig d (maxEntries c) (cacheErrors c)
  | WithMaxEntries n => mkConfig (ttl c) n (cacheErrors c)
  | WithCacheErrors on => mkConfig (ttl c) (maxEntries c) on
  end.
(** One minute, in nanoseconds, and 4096 entries by default. *)
Definition New (opts : list Option_) : Config := foldl apply_option (mkConfig (60 * 10 ^ 9) 4096 false) opts.

(** The map, the entries allocated so far, the next pointer. *)
Record Cache := mkCache { entries : gmap string nat; heap : gmap nat entry; next : nat }.

Context (cfg : Config) (range : gmap string nat → list (string * nat)) (zero : V * option E).

Definition is_completed (hp : gmap nat entry) (id : nat) : bool :=
  match hp !! id with Some e => completed e | None => false end.
Definition is_expired (hp : gmap nat entry) (now : Z) (id : nat) : bool :=
  match hp !! id with Some e => expired e now | None => false end.
Definition expiry (hp : gmap nat entry) (id : nat) : option Z := hp !! id ≫= expiresAt.

(** The scan for the oldest completed entry. *)
Fixpoint scan (hp : gmap nat entry) (l : list (string * nat)) (best : option (string * option Z)) : option (string * option Z) :=
  match l with
  | [] => best
  | (k, id) :: l =>
      if negb (is_completed hp id) then scan hp l best
      else
        let best :=
          match best with
          | None => Some (k, expiry hp id)
          | Some (_, t) => if Before (expiry hp id) t then Some (k, expiry hp id) else best
          end in
        scan hp l best
  end.

Fixpoint evict_loop (fuel : nat) (hp : gmap nat entry) (m : gmap string nat) : gmap string nat :=
  match fuel with
  | O => m
  | S fuel =>
      if Z.of_nat (size m) <=? maxEntries cfg then m
      else match scan hp (range m) None with
           | None => m
           | Some (k, _) => evict_loop fuel hp (delete k m)
           end
  end.

Definition evictLocked (now : Z) (c : Cache) : Cache :=
  if (maxEntries cfg <=? 0) || (Z.of_nat (size (entries c)) <=? maxEntries cfg) then c
  else
    let m := filter (λ kv, ¬ (is_completed (heap c) kv.2 && is_expired (heap c) now kv.2)) (entries c) in
    mkCache (evict_loop (size m) (heap c) m) (heap c) (next c).

(** The first locked section of [Do]. *)
Inductive role := Cached (r : V * option E) | Follower (id : nat) | Leader (id : nat).

Definition Do_enter (now : Z) (key : string) (c : Cache) : Cache * role :=
  let lead :=
    (evictLocked now (mkCache (<[key := next c]> (entries c))
       (<[next c := mkEntry zero false None]> (heap c)) (S (next c))), Leader (next c)) in
  match entries c !! key with
  | Some id =>
      match heap c !! id with
      | Some e =>
          if completed e && negb (expired e now) then (c, Cached (res e))
          else if negb (completed e) then (c, Follower id)
          else lead
      | None => lead
      end
  | None => lead
  end.

Definition is_ok_ (r : V * option E) : bool := match r.2 with None => true | Some _ => false end.
Definition keeps (r : V * option E) : bool := is_ok_ r || cacheErrors cfg.

(** [now] is the clock read for the expiry. *)
Definition finishLocked (id : nat) (key : string) (r : V * option E) (now : Z) (c : Cache) : Cache :=
  let keep := keeps r in
  let hp := alter (λ e, mkEntry r true (if keep && (0 <? ttl cfg) then Some (now + ttl cfg) else expiresAt e)) id (heap c) in
  mkCache (if keep then entries c else delete key (entries c)) hp (next c).

Definition Forget (key : string) (c : Cache) : Cache := mkCache (delete key (entries c)) (heap c) (next c).
Definition Clear (c : Cache) : Cache := mkCache ∅ (heap c) (next c).
Definition Len (c : Cache) : Z := Z.of_nat (size (entries c)).

(** [leaders]: executions in flight with their key; [followers]: callers waiting on
    an entry; [origin]: the key of every execution ever started; [returned]: what
    calls for a key have returned. *)
Record sys := mkSys {
  cache : Cache; leaders : gmap nat string; followers : list (nat * string);
  origin : gmap nat string; returned : list (string * (V * option E)); recovered : Z }.

Definition init : sys := mkSys (mkCache ∅ ∅ 0) ∅ [] ∅ [] 0.

(** What the function of a leader did: a return, or a panic turned into an error. *)
Inductive outcome := Returns (r : V * option E) | Panics (err : E).
Definition result_of (o : outcome) : V * option E :=
  match o with Returns r => r | Panics err => (zero.1, Some err) end.

Inductive step : sys → sys → Prop :=
| do_cached s now k c r : Do_enter now k (cache s) = (c, Cached r) →
    step s (mkSys c (leaders s) (followers s) (origin s) ((k, r) :: returned s) (recovered s))
| do_follow s now k c id : Do_enter now k (cache s) = (c, Follower id) →
    step s (mkSys c (leaders s) ((id, k) :: followers s) (origin s) (returned s) (recovered s))
| do_lead s now k c id : Do_enter now k (cache s) = (c, Leader id) →
    step s (mkSys c (<[id := k]> (leaders s)) (followers s) (<[id := k]> (origin s)) (returned s) (recovered s))
| do_finish s id k o now : leaders s !! id = Some k →
    step s (mkSys (finishLocked id k (result_of o) now (cache s)) (delete id (leaders s)) (followers s) (origin s)
      ((k, result_of o) :: returned s)
      (match o with Panics _ => u64 (recovered s + 1) | _ => recovered s end))
| wait_done s l1 id k l2 e : followers s = l1 ++ (id, k) :: l2 → heap (cache s) !! id = Some e → completed e = true →
    step s (mkSys (cache s) (leaders s) (l1 ++ l2) (origin s) ((k, res e) :: returned s) (recovered s))
| wait_cancelled s l1 id k l2 : followers s = l1 ++ (id, k) :: l2 →
    step s (mkSys (cache s) (leaders s) (l1 ++ l2) (origin s) (returned s) (recovered s)).

Inductive drop_step : sys → sys → Prop :=
| do_forget s k : drop_step s (mkSys (Forget k (cache s)) (leaders s) (followers s) (origin s) (returned s) (recovered s))
| do_clear s : drop_step s (mkSys (Clear (cache s)) (leaders s) (followers s) (origin s) (returned s) (recovered s)).

(** ** Eviction *)

Definition range_ok : Prop := ∀ m, range m ≡ₚ map_to_list m.
Context (Hrange : range_ok).

(** The least of the completed entries so far. *)
Definition scan_inv (hp : gmap nat entry) (seen : list (string * nat)) (best : option (string * option Z)) : Prop :=
  match best with
  | None => ∀ k id, (k, id) ∈ seen → is_completed hp id = false
  | Some (k, t) => (∃ id, (k, id) ∈ seen ∧ is_completed hp id = true ∧ expiry hp id = t) ∧
      ∀ k' id', (k', id') ∈ seen → is_completed hp id' = true → Before (expiry hp id') t = false
  end.

Lemma Before_irrefl t : Before t t = false.
Proof. destruct t; simpl; [apply Z.ltb_irrefl|done]. Qed.

Lemma Before_neg_trans a b c : Before a b = true → Before c b = false → Before c a = false.
Proof. destruct a, b, c; simpl; zcases; done || lia. Qed.

Lemma scan_spec hp l seen best : scan_inv hp seen best → scan_inv hp (seen ++ l) (scan hp l best).
Proof using.
  revert seen best. induction l as [|[k id] l IH]; intros seen best Hinv; simpl; [by rewrite app_nil_r|].
  rewrite cons_middle, (assoc_L (++)).
  assert (Hseen : ∀ k' id', (k', id') ∈ seen ++ [(k, id)] ↔ (k', id') ∈ seen ∨ (k' = k ∧ id' = id)).
  { intros. rewrite elem_of_app, list_elem_of_singleton. naive_solver. }
  destruct (is_completed hp id) eqn:Hc; simpl; apply IH.
  - destruct best as [[bk t]|]; simpl in Hinv.
    + destruct Hinv as [(bid & Hin & Hbc & Ht) Hmin]. destruct (Before (expiry hp id) t) eqn:Hb; simpl.
      * split; [exists id; rewrite Hseen; auto|]. intros k' id' [Hk|[-> ->]]%Hseen Hc'; [|apply Before_irrefl].
        eapply Before_neg_trans; [done|]. by eapply Hmin.
      * split; [exists bid; rewrite Hseen; auto|]. intros k' id' [Hk|[-> ->]]%Hseen Hc'; [by eapply Hmin|done].
    + split; [exists id; rewrite Hseen; auto|]. intros k' id' [Hk|[-> ->]]%Hseen Hc'; [|apply Before_irrefl].
      rewrite (Hinv _ _ Hk) in Hc'. done.
  - destruct best as [[bk t]|]; simpl in *.
    + destruct Hinv as [(bid & Hin & Hbc & Ht) Hmin]. split; [exists bid; rewrite Hseen; auto|].
      intros k' id' [Hk|[-> ->]]%Hseen Hc'; [by eapply Hmin|congruence].
    + intros k' id' [Hk|[-> ->]]%Hseen; [by eapply Hinv|done].
Qed.

Lemma scan_range hp m : match scan hp (range m) None with
  | None => ∀ k id, m !! k = Some id → is_completed hp id = false
  | Some (k, t) => (∃ id, m !! k = Some id ∧ is_completed hp id = true ∧ expiry hp id = t) ∧
      ∀ k' id', m !! k' = Some id' → is_completed hp id' = true → Before (expiry hp id') t = false
  end.
Proof using Hrange.
  assert (Hin : ∀ k id, (k, id) ∈ range m ↔ m !! k = Some id).
  { intros. rewrite (Hrange m). apply elem_of_map_to_list. }
  pose proof (scan_spec hp (range m) [] None) as Hs. simpl in Hs.
  destruct (scan hp (range m) None) as [[k t]|]; simpl in Hs.
  - destruct Hs as [(id & ? & ?) Hmin]; [by intros ???%not_elem_of_nil|]. split; [exists id; by rewrite <- Hin|].
    intros k' id' Hk. eapply Hmin. by apply Hin.
  - intros k id Hk. eapply Hs; [by intros ???%not_elem_of_nil|by apply Hin].
Qed.

(** [m'] is [m] without some completed entries, none of them younger than one that
    stays. *)
Record evicts (hp : gmap nat entry) (m m' : gmap string nat) : Prop := {
  ev_sub : m' ⊆ m;
  ev_flight : ∀ k id, m !! k = Some id → is_completed hp id = false → m' !! k = Some id;
  ev_oldest : ∀ k id k' id', m !! k = Some id → m' !! k = None → m' !! k' = Some id' →
    is_completed hp id' = true → Before (expiry hp id') (expiry hp id) = false }.

Lemma evict_loop_spec fuel hp m : (size m ≤ fuel)%nat →
  evicts hp m (evict_loop fuel hp m) ∧
  (Z.of_nat (size (evict_loop fuel hp m)) ≤ maxEntries cfg ∨
   ∀ k id, evict_loop fuel hp m !! k = Some id → is_completed hp id = false).
Proof using Hrange.
  revert m. induction fuel as [|fuel IH]; intros m Hf; simpl.
  { assert (m = ∅) as -> by (apply map_size_empty_inv; lia). split; [|right; intros k id Hk; by rewrite lookup_empty in Hk].
    split; [done|done|]. intros k id k' id' Hk. by rewrite lookup_empty in Hk. }
  assert (Hrefl : evicts hp m m) by (split; [done|done|congruence]).
  destruct (Z.leb_spec (Z.of_nat (size m)) (maxEntries cfg)) as [Hle|Hlt]; [by split; [|left]|].
  pose proof (scan_range hp m) as Hs. destruct (scan hp (range m) None) as [[k t]|]; [|by split; [|right]].
  destruct Hs as [(id & Hk & Hc & Ht) Hmin].
  destruct (IH (delete k m)) as [[H1 H2 H3] Hb].
  { rewrite map_size_delete_Some by (by eexists). lia. }
  split; [|done]. split.
  - etrans; [done|]. apply delete_subseteq.
  - intros k' id' Hk' Hc'. apply H2; [|done]. rewrite lookup_delete_ne; [done|]. intros ->. congruence.
  - intros k1 id1 k2 id2 Hk1 Hn Hk2 Hc2. destruct (decide (k1 = k)) as [->|Hne].
    + rewrite Hk in Hk1. simplify_eq. eapply Hmin; [|done]. eapply lookup_weaken; [done|]. etrans; [done|]. apply delete_subseteq.
    + eapply H3; [by rewrite lookup_delete_ne|done..].
Qed.

Definition dead (hp : gmap nat entry) (now : Z) (id : nat) : bool := is_completed hp id && is_expired hp now id.

Lemma evictLocked_spec now c : 0 < maxEntries cfg →
  let c' := evictLocked now c in
  heap c' = heap c ∧ next c' = next c ∧ entries c' ⊆ entries c ∧
  (∀ k id, entries c !! k = Some id → is_completed (heap c) id = false → entries c' !! k = Some id) ∧
  (Z.of_nat (size (entries c')) ≤ maxEntries cfg ∨
   ∀ k id, entries c' !! k = Some id → is_completed (heap c) id = false) ∧
  (∀ k id, entries c !! k = Some id → entries c' !! k = None → dead (heap c) now id = false →
   ∀ k' id', entries c' !! k' = Some id' → is_completed (heap c) id' = true →
     dead (heap c) now id' = false ∧ Before (expiry (heap c) id') (expiry (heap c) id) = false).
Proof using Hrange.
  intros Hmax c'. unfold c', evictLocked. destruct (Z.leb_spec (maxEntries cfg) 0); [lia|]. simpl.
  destruct (Z.leb_spec (Z.of_nat (size (entries c))) (maxEntries cfg)) as [Hle|Hlt].
  { split_and!; auto. congruence. }
  set (m := filter _ (entries c)). cbn [heap entries next].
  destruct (evict_loop_spec (size m) (heap c) m (le_n _)) as [[H1 H2 H3] Hb].
  assert (Hm : ∀ k id, m !! k = Some id ↔ entries c !! k = Some id ∧ dead (heap c) now id = false).
  { intros k id. unfold m. rewrite map_lookup_filter_Some. simpl. unfold dead. rewrite Is_true_false. done. }
  split_and!; [done|done| | |done|].
  - etrans; [done|]. apply map_filter_subseteq.
  - intros k id Hk Hc. apply H2; [|done]. apply Hm. split; [done|]. unfold dead. by rewrite Hc.
  - intros k id Hk Hn Hd k' id' Hk' Hc'. split; [by eapply Hm, lookup_weaken|]. eapply H3; [|done..]. by apply Hm.
Qed.

(** Whatever the bound: only completed entries leave the map. *)
Lemma evictLocked_keeps now c :
  heap (evictLocked now c) = heap c ∧ next (evictLocked now c) = next c ∧ entries (evictLocked now c) ⊆ entries c ∧
  (∀ k id, entries c !! k = Some id → is_completed (heap c) id = false → entries (evictLocked now c) !! k = Some id) ∧
  (maxEntries cfg ≤ 0 → evictLocked now c = c).
Proof using Hrange.
  destruct (Z.le_gt_cases (maxEntries cfg) 0) as [Hm|Hm].
  - assert (evictLocked now c = c) as ->; [|done]. unfold evictLocked. by destruct (Z.leb_spec (maxEntries cfg) 0); [|lia].
  - destruct (evictLocked_spec now c) as (? & ? & ? & ? & _); [lia|]. split_and!; try done. lia.
Qed.

(** ** Invariants *)

Record cinv (s : sys) : Prop := {
  i_next : ∀ id, is_Some (heap (cache s) !! id) → (id < next (cache s))%nat;
  i_entries : ∀ k id, entries (cache s) !! k = Some id → is_Some (heap (cache s) !! id) ∧ origin s !! id = Some k;
  i_leaders : ∀ id k, leaders s !! id = Some k ↔
    origin s !! id = Some k ∧ ∃ e, heap (cache s) !! id = Some e ∧ completed e = false;
  i_origin : ∀ id, is_Some (origin s !! id) ↔ is_Some (heap (cache s) !! id);
  i_followers : ∀ id k, (id, k) ∈ followers s → origin s !! id = Some k;
  i_returned : ∀ k r, (k, r) ∈ returned s → ∃ id e, origin s !! id = Some k ∧ heap (cache s) !! id = Some e ∧
    completed e = true ∧ res e = r }.

(** No execution of a key is out of the map while it runs. *)
Definition exclusive (s : sys) : Prop := ∀ id k, leaders s !! id = Some k → entries (cache s) !! k = Some id.

(** The last execution of a key is in the map unless it failed and was dropped. *)
Definition last_kept (s : sys) : Prop := ∀ id k, origin s !! id = Some k →
  entries (cache s) !! k = Some id ∨
  (∃ e, heap (cache s) !! id = Some e ∧ completed e = true ∧ keeps (res e) = false) ∨
  ∃ id', (id < id')%nat ∧ origin s !! id' = Some k.

Lemma Do_enter_cases now k c : match Do_enter now k c with
  | (c', Cached r) => c' = c ∧ ∃ id e, entries c !! k = Some id ∧ heap c !! id = Some e ∧ completed e = true ∧
      expired e now = false ∧ res e = r
  | (c', Follower id) => c' = c ∧ ∃ e, entries c !! k = Some id ∧ heap c !! id = Some e ∧ completed e = false
  | (c', Leader id) => id = next c ∧
      c' = evictLocked now (mkCache (<[k := next c]> (entries c)) (<[next c := mkEntry zero false None]> (heap c)) (S (next c))) ∧
      ∀ id' e, entries c !! k = Some id' → heap c !! id' = Some e → completed e = true ∧ expired e now = true
  end.
Proof using.
  unfold Do_enter. destruct (entries c !! k) as [id|] eqn:Hk; [|by split_and!].
  destruct (heap c !! id) as [e|] eqn:He; [|split_and!; [done|done|intros; congruence]].
  destruct (completed e) eqn:Hc; simpl; [|split; [done|by exists e]].
  destruct (expired e now) eqn:Hx; simpl; [|split; [done|by exists id, e]].
  split_and!; [done|done|]. intros. by simplify_eq.
Qed.

Lemma fresh_None s : cinv s → heap (cache s) !! next (cache s) = None ∧ origin s !! next (cache s) = None.
Proof using.
  intros Hi. assert (Hn : heap (cache s) !! next (cache s) = None).
  { apply eq_None_not_Some. intros Hs%(i_next _ Hi). lia. }
  split; [done|]. apply eq_None_not_Some. rewrite (i_origin _ Hi), Hn. apply is_Some_None.
Qed.

Lemma lead_cinv s now k c id : cinv s → Do_enter now k (cache s) = (c, Leader id) →
  cinv (mkSys c (<[id := k]> (leaders s)) (followers s) (<[id := k]> (origin s)) (returned s) (recovered s)).
Proof using Hrange.
  intros Hi Hd. pose proof (Do_enter_cases now k (cache s)) as Hc. rewrite Hd in Hc. destruct Hc as (-> & -> & _).
  destruct (fresh_None s Hi) as [Hh Ho].
  set (c0 := mkCache (<[k := next (cache s)]> (entries (cache s))) (<[next (cache s) := mkEntry zero false None]> (heap (cache s))) (S (next (cache s)))).
  destruct (evictLocked_keeps now c0) as (Hhp & Hnx & Hsub & _). destruct Hi as [H1 H2 H3 H4 H5 H6].
  split; cbn [cache leaders followers origin returned]; rewrite ?Hhp, ?Hnx; unfold c0; cbn [heap next].
  - intros id. rewrite lookup_insert_is_Some'. intros [<-|Hs%H1]; lia.
  - intros k' id Hk. eapply lookup_weaken in Hk; [|done]. unfold c0 in Hk. cbn [entries] in Hk.
    apply lookup_insert_Some in Hk as [[<- <-]|[Hne Hk]]; [rewrite !lookup_insert_eq; by eauto|].
    destruct (H2 _ _ Hk) as [? Hor]. assert (id ≠ next (cache s)) by congruence. by rewrite !lookup_insert_ne by done.
  - intros id k'. destruct (decide (id = next (cache s))) as [->|Hne].
    + rewrite !lookup_insert_eq. naive_solver.
    + by rewrite !lookup_insert_ne by done.
  - intros id. by rewrite !lookup_insert_is_Some', H4.
  - intros id k' Hf%H5. rewrite lookup_insert_ne; [done|]. congruence.
  - intros k' r (id & e & Hor & He & Hr)%H6. exists id, e. rewrite !lookup_insert_ne by congruence. done.
Qed.

Lemma finish_cinv s id k r now rec : cinv s → leaders s !! id = Some k →
  cinv (mkSys (finishLocked id k r now (cache s)) (delete id (leaders s)) (followers s) (origin s) ((k, r) :: returned s) rec).
Proof using.
  intros [H1 H2 H3 H4 H5 H6] Hl. apply H3 in Hl as Hl'. destruct Hl' as (Hor & e & He & Hce).
  assert (Hs : ∀ i, is_Some (heap (finishLocked id k r now (cache s)) !! i) ↔ is_Some (heap (cache s) !! i)).
  { intros i. unfold finishLocked. cbn [heap]. destruct (decide (i = id)) as [->|]; [|by rewrite lookup_alter_ne].
    by rewrite lookup_alter_eq, fmap_is_Some. }
  split; cbn [cache leaders followers origin returned].
  - intros i. rewrite Hs. apply H1.
  - intros k' i Hk. rewrite Hs. apply H2. unfold finishLocked in Hk. cbn [entries] in Hk.
    destruct (keeps r); [done|]. by apply lookup_delete_Some in Hk as [_ Hk].
  - intros i k'. unfold finishLocked. cbn [heap]. destruct (decide (i = id)) as [->|Hne].
    + rewrite lookup_delete_eq, lookup_alter_eq, He. simpl. naive_solver.
    + by rewrite lookup_delete_ne, lookup_alter_ne by done.
  - intros i. by rewrite Hs.
  - done.
  - intros k' r' [Heq|Hin]%elem_of_cons; unfold finishLocked; cbn [heap].
    + simplify_eq. exists id. rewrite lookup_alter_eq, He. by eexists.
    + destruct (H6 _ _ Hin) as (i & e' & ? & He' & Hce' & ?). exists i, e'. rewrite lookup_alter_ne; [done|]. intros ->. congruence.
Qed.

Lemma step_cinv s s' : cinv s → step s s' → cinv s'.
Proof using Hrange.
  intros Hi Hstep. destruct Hstep as [s now k c r Hd|s now k c id Hd|s now k c id Hd|s id k o now Hl|s l1 id k l2 e Hf He Hce|s l1 id k l2 Hf].
  - pose proof (Do_enter_cases now k (cache s)) as Hc. rewrite Hd in Hc. destruct Hc as (-> & id & e & Hk & He & Hce & _ & Hr).
    destruct Hi as [H1 H2 H3 H4 H5 H6]. split; try done. intros k' r' [Heq|Hin]%elem_of_cons; [|by apply H6].
    simplify_eq. exists id, e. cbn. split_and!; try done. by apply H2.
  - pose proof (Do_enter_cases now k (cache s)) as Hc. rewrite Hd in Hc. destruct Hc as (-> & e & Hk & He & Hce).
    destruct Hi as [H1 H2 H3 H4 H5 H6]. split; try done. intros id' k' [Heq|Hin]%elem_of_cons; [|by apply H5].
    simplify_eq. by apply H2.
  - by eapply lead_cinv.
  - by apply finish_cinv.
  - destruct Hi as [H1 H2 H3 H4 H5 H6]. split; try done; cbn.
    + intros id' k' Hin. apply H5. rewrite Hf. rewrite elem_of_app, elem_of_cons in *. tauto.
    + intros k' r' [Heq|Hin]%elem_of_cons; [|by apply H6]. simplify_eq. exists id, e. split_and!; try done.
      apply H5. rewrite Hf, elem_of_app, elem_of_cons. tauto.
  - destruct Hi as [H1 H2 H3 H4 H5 H6]. split; try done; cbn. intros id' k' Hin. apply H5. rewrite Hf.
    rewrite elem_of_app, elem_of_cons in *. tauto.
Qed.

Lemma drop_cinv s s' : cinv s → drop_step s s' → cinv s'.
Proof using.
  intros [H1 H2 H3 H4 H5 H6] Hd. destruct Hd as [s k|s]; split; cbn [cache leaders followers origin returned Forget Clear entries heap next]; try done.
  intros k' id [_ Hk]%lookup_delete_Some. by apply H2.
Qed.

Lemma init_cinv : cinv init.
Proof using.
  split; cbn [cache leaders followers origin returned entries heap next init].
  - intros id. rewrite lookup_empty. by intros ?%is_Some_None.
  - intros k id Hk. by rewrite lookup_empty in Hk.
  - intros id k. rewrite !lookup_empty. naive_solver.
  - intros id. by rewrite !lookup_empty.
  - intros id k Hin. by apply not_elem_of_nil in Hin.
  - intros k r Hin. by apply not_elem_of_nil in Hin.
Qed.

(** Without [Forget] and [Clear]. *)
Record xinv (s : sys) : Prop := {
  x_inv : cinv s;
  x_excl : exclusive s;
  x_last : maxEntries cfg ≤ 0 → last_kept s }.

Lemma step_exclusive s s' : cinv s → exclusive s → step s s' → exclusive s'.
Proof using Hrange.
  intros Hi Hx Hstep. destruct Hstep as [s now k c r Hd|s now k c id Hd|s now k c id Hd|s id k o now Hl|s l1 id k l2 e Hf He Hce|s l1 id k l2 Hf];
    try exact Hx; pose proof (Do_enter_cases now k (cache s)) as Hc; rewrite ?Hd in Hc.
  - destruct Hc as [-> _]. exact Hx.
  - destruct Hc as [-> _]. exact Hx.
  - destruct Hc as (-> & -> & Hold). destruct (fresh_None s Hi) as [Hh Ho]. unfold exclusive. cbn [leaders cache].
    destruct (evictLocked_keeps now (mkCache (<[k := next (cache s)]> (entries (cache s)))
      (<[next (cache s) := mkEntry zero false None]> (heap (cache s))) (S (next (cache s))))) as (_ & _ & _ & Hkeep & _).
    cbn [entries heap] in Hkeep. intros id k' Hl. apply Hkeep; apply lookup_insert_Some in Hl as [[<- <-]|[Hne Hl]].
    + by rewrite lookup_insert_eq.
    + apply Hx in Hl as Hk. rewrite lookup_insert_ne; [done|]. intros <-.
      apply (i_leaders _ Hi) in Hl as (_ & e & He & Hce). destruct (Hold _ _ Hk He) as [? _]. congruence.
    + unfold is_completed. by rewrite lookup_insert_eq.
    + apply (i_leaders _ Hi) in Hl as (_ & e & He & Hce). unfold is_completed. by rewrite lookup_insert_ne, He.
  - clear Hc. intros id' k'. cbn [leaders cache]. intros [Hne Hl']%lookup_delete_Some. apply Hx in Hl' as Hk.
    unfold finishLocked. cbn [entries]. destruct (keeps (result_of o)); [done|]. rewrite lookup_delete_ne; [done|].
    intros <-. apply Hx in Hl. congruence.
Qed.

Lemma step_last s s' : cinv s → exclusive s → maxEntries cfg ≤ 0 → last_kept s → step s s' → last_kept s'.
Proof using Hrange.
  intros Hi Hx Hm Hlast Hstep. destruct Hstep as [s now k c r Hd|s now k c id Hd|s now k c id Hd|s id k o now Hl|s l1 id k l2 e Hf He Hce|s l1 id k l2 Hf];
    try exact Hlast; pose proof (Do_enter_cases now k (cache s)) as Hc; rewrite ?Hd in Hc.
  - destruct Hc as [-> _]. exact Hlast.
  - destruct Hc as [-> _]. exact Hlast.
  - destruct Hc as (-> & -> & Hold). destruct (fresh_None s Hi) as [Hh Ho]. intros id k'. cbn [origin cache].
    destruct (evictLocked_keeps now (mkCache (<[k := next (cache s)]> (entries (cache s)))
      (<[next (cache s) := mkEntry zero false None]> (heap (cache s))) (S (next (cache s))))) as (_ & _ & _ & _ & ->); [|done].
    cbn [entries heap]. intros [[<- <-]|[Hne Hor]]%lookup_insert_Some; [left; by rewrite lookup_insert_eq|].
    assert (Hlt : (id < next (cache s))%nat) by (apply (i_next _ Hi), (i_origin _ Hi); by eexists).
    destruct (decide (k' = k)) as [->|Hk].
    { right; right. exists (next (cache s)). split; [done|]. by rewrite lookup_insert_eq. }
    destruct (Hlast id k' Hor) as [Hin|[(e & He & Hce)|(id' & Hid & Hor')]].
    + left. by rewrite lookup_insert_ne.
    + right; left. exists e. by rewrite lookup_insert_ne.
    + right; right. exists id'. split; [done|]. rewrite lookup_insert_ne; [done|]. congruence.
  - clear Hc. intros id' k'. cbn [origin cache]. intros Hor. unfold finishLocked. cbn [entries heap].
    apply (i_leaders _ Hi) in Hl as Hl'. destruct Hl' as (Horid & e & He & Hce).
    destruct (decide (id' = id)) as [->|Hne].
    { assert (k' = k) as -> by congruence. destruct (keeps (result_of o)) eqn:Hkp; [left; by apply Hx|].
      right; left. rewrite lookup_alter_eq, He. eexists. split; [done|]. by cbn. }
    rewrite lookup_alter_ne by done. destruct (Hlast id' k' Hor) as [Hin|[He'|Hid]]; [left|by right; left|by right; right].
    destruct (keeps (result_of o)); [done|]. rewrite lookup_delete_ne; [done|]. intros <-. apply Hx in Hl. congruence.
Qed.

Lemma reachable_xinv s : rtc step init s → xinv s.
Proof using Hrange.
  intros Hr. remember init as s0 eqn:H0. assert (Hi : xinv s0).
  { subst. split; [apply init_cinv| |]; intros; intros id k Hk; cbn [init leaders origin] in Hk; by rewrite lookup_empty in Hk. }
  clear H0. induction Hr as [|s1 s2 s3 Hs _ IH]; [done|]. apply IH. destruct Hi as [Hi Hx Hl].
  split; [by eapply step_cinv|by eapply step_exclusive|]. intros Hm. eapply step_last; eauto.
Qed.

Definition any_step (s s' : sys) : Prop := step s s' ∨ drop_step s s'.

Lemma reachable_cinv s : rtc any_step init s → cinv s.
Proof using Hrange.
  intros Hr. remember init as s0 eqn:H0. assert (Hi : cinv s0) by (subst; apply init_cinv).
  clear H0. induction Hr as [|s1 s2 s3 [Hs|Hs] _ IH]; [done|..]; apply IH; [by eapply step_cinv|by eapply drop_cinv].
Qed.
End idempotency.

(** ** Theorems *)

(** Finished entries do not change. *)
Lemma completed_stable {V E} cfg range (zero : V * option E) s s' id e : range_ok range → cinv s →
  any_step cfg range zero s s' → heap (cache s) !! id = Some e → completed e = true → heap (cache s') !! id = Some e.
Proof.
  intros Hr Hi [Hs|Hs] He Hc; destruct Hs as [s now k c r Hd|s now k c i Hd|s now k c i Hd|s i k o now Hl|s l1 i k l2 e' Hf He' Hce|s l1 i k l2 Hf] || destruct Hs;
    try done; cbn [cache]; try (pose proof (Do_enter_cases cfg range zero now k (cache s)) as Hk; rewrite Hd in Hk).
  - by destruct Hk as [-> _].
  - by destruct Hk as [-> _].
  - destruct Hk as (-> & -> & _). destruct (evictLocked_keeps cfg range Hr now (mkCache (<[k := next (cache s)]> (entries (cache s)))
      (<[next (cache s) := mkEntry zero false None]> (heap (cache s))) (S (next (cache s))))) as (-> & _). cbn [heap].
    destruct (fresh_None s Hi) as [Hh _]. rewrite lookup_insert_ne; [done|]. intros <-. congruence.
  - unfold finishLocked. cbn [heap]. rewrite lookup_alter_ne; [done|]. intros <-.
    apply (i_leaders _ Hi) in Hl as (_ & e' & He' & ?). congruence.
Qed.

Lemma map_to_list_range : range_ok (λ m, map_to_list m).
Proof. intros m. done. Qed.

(** C18: while Forget and Clear are not called, whatever the interleaving of callers and
    the order of map iteration: a key has at most one execution in flight; a call of Do
    becomes a leader only when its key has none; and in a cache without an entry bound
    the last execution of the key must then have failed without being cached, or have
    expired: a success is never repeated within its lifetime. *)
Theorem idempotency_singleflight {V E} cfg range (zero : V * option E) s :
  range_ok range → rtc (step cfg range zero) init s →
  (∀ a b k, leaders s !! a = Some k → leaders s !! b = Some k → a = b) ∧
  (∀ now k c id, Do_enter cfg range zero now k (cache s) = (c, Leader id) →
     (∀ a, leaders s !! a ≠ Some k) ∧
     (maxEntries cfg ≤ 0 → ∀ a, origin s !! a = Some k → (∀ a', origin s !! a' = Some k → (a' ≤ a)%nat) →
        ∃ e, heap (cache s) !! a = Some e ∧ completed e = true ∧ (keeps cfg (res e) = false ∨ expired e now = true))).
Proof.
  intros Hr Hs. destruct (reachable_xinv cfg range zero Hr s Hs) as [Hi Hx Hl]. split.
  { intros a b k Ha%Hx Hb%Hx. congruence. }
  intros now k c id Hd. pose proof (Do_enter_cases cfg range zero now k (cache s)) as Hc. rewrite Hd in Hc.
  destruct Hc as (_ & _ & Hold). split.
  - intros a Ha. apply Hx in Ha as Hk. apply (i_leaders _ Hi) in Ha as (_ & e & He & Hce).
    destruct (Hold a e Hk He). congruence.
  - intros Hm a Ha Hlast. destruct (Hl Hm a k Ha) as [Hk|[(e & He & Hce & Hkp)|(a' & Hlt & Ha')]].
    + destruct (i_entries _ Hi k a Hk) as [[e He] _]. destruct (Hold a e Hk He). exists e. auto.
    + exists e. auto.
    + specialize (Hlast a' Ha'). lia.
Qed.

#[local] Notation demo_range := (λ m : gmap string nat, map_to_list m).
#[local] Notation unbounded := (mkConfig 60 0 false).

(** One leader in flight and one follower. *)
Definition demo : @sys Z unit :=
  mkSys (mkCache {["k"%string := 0%nat]} {[0%nat := mkEntry (0, None) false None]} 1)
    {[0%nat := "k"%string]} [(0%nat, "k"%string)] {[0%nat := "k"%string]} [] 0.

Lemma idem_demo_reachable : rtc (step unbounded demo_range (0, None)) init demo.
Proof.
  eapply rtc_l; [by eapply (do_lead _ _ _ _ 5 "k")|]. eapply rtc_l; [by eapply (do_follow _ _ _ _ 6 "k")|]. apply rtc_refl.
Qed.

Lemma idempotency_singleflight_witness : leaders demo !! 0%nat = Some "k"%string ∧
  (∀ a b k, leaders demo !! a = Some k → leaders demo !! b = Some k → a = b).
Proof.
  split; [reflexivity|]. apply (idempotency_singleflight unbounded demo_range (0, None) demo); [apply map_to_list_range|apply idem_demo_reachable].
Defined.

(** With any use of Do, Forget and Clear: what a call returns (other than the error
    of its own context) is the outcome of a finished execution for its key; a follower
    never waits for nothing: its leader is still running or has finished; and a
    finished execution's outcome does not change. *)
Theorem idempotency_results {V E} cfg range (zero : V * option E) s :
  range_ok range → rtc (any_step cfg range zero) init s →
  (∀ k r, (k, r) ∈ returned s → ∃ id e, origin s !! id = Some k ∧ heap (cache s) !! id = Some e ∧ completed e = true ∧ res e = r) ∧
  (∀ id k, (id, k) ∈ followers s →
     leaders s !! id = Some k ∨ ∃ e, heap (cache s) !! id = Some e ∧ completed e = true) ∧
  (∀ s' id e, any_step cfg range zero s s' → heap (cache s) !! id = Some e → completed e = true →
     heap (cache s') !! id = Some e).
Proof.
  intros Hr Hs. pose proof (reachable_cinv cfg range zero Hr s Hs) as Hi. split; [apply Hi|split].
  - intros id k Hf. pose proof (i_followers _ Hi _ _ Hf) as Ho. destruct (proj1 (i_origin _ Hi id)) as [e He]; [by eexists|].
    destruct (completed e) eqn:Hc; [right; by exists e|left]. apply (i_leaders _ Hi). split; [done|by exists e].
  - intros s' id e Hst. by apply (completed_stable cfg range zero s).
Qed.

Lemma any_of_steps {V E} cfg range (zero : V * option E) s s' :
  rtc (step cfg range zero) s s' → rtc (any_step cfg range zero) s s'.
Proof. apply rtc_subrel. intros ? ? ?. by left. Qed.

Lemma idempotency_results_witness : leaders demo !! 0%nat = Some "k"%string ∨
  ∃ e, heap (cache demo) !! 0%nat = Some e ∧ completed e = true.
Proof.
  apply (idempotency_results unbounded demo_range (0, None) demo); [apply map_to_list_range| |by left].
  apply any_of_steps, idem_demo_reachable.
Defined.

(** Eviction, for any order of map iteration: the entries stay within the bound
    unless all that remain are in flight; executions in flight are never removed; and
    an unexpired entry is removed only when no expired one remains and every finished
    entry that stays expires no earlier. *)
Theorem idempotency_evict {V E} cfg range now (c : @Cache V E) : range_ok range → 0 < maxEntries cfg →
  let c' := evictLocked cfg range now c in
  entries c' ⊆ entries c ∧ heap c' = heap c ∧
  (Len c' ≤ maxEntries cfg ∨ ∀ k id, entries c' !! k = Some id → is_completed (heap c) id = false) ∧
  (∀ k id, entries c !! k = Some id → is_completed (heap c) id = false → entries c' !! k = Some id) ∧
  (∀ k id, entries c !! k = Some id → entries c' !! k = None → dead (heap c) now id = false →
   ∀ k' id', entries c' !! k' = Some id' → is_completed (heap c) id' = true →
     dead (heap c) now id' = false ∧ Before (expiry (heap c) id') (expiry (heap c) id) = false).
Proof. intros Hr Hm c'. destruct (evictLocked_spec cfg range Hr now c Hm) as (? & ? & ? & ? & ? & ?). done. Qed.

Definition demo_full : @Cache Z unit :=
  mkCache (list_to_map [("a", 0%nat); ("b", 1%nat); ("c", 2%nat)]%string)
    (list_to_map [(0%nat, mkEntry (1, None) true (Some 30)); (1%nat, mkEntry (2, None) true (Some 20));
                  (2%nat, mkEntry (3, None) false None)]) 3.

Lemma idempotency_evict_witness :
  entries (evictLocked (mkConfig 60 2 false) demo_range 10 demo_full) = {["a"%string := 0%nat; "c"%string := 2%nat]} ∧
  entries (evictLocked (mkConfig 60 2 false) demo_range 10 demo_full) ⊆ entries demo_full.
Proof.
  split; [vm_compute; reflexivity|].
  apply (idempotency_evict (mkConfig 60 2 false) demo_range 10 demo_full); [apply map_to_list_range|simpl; lia].
Defined.

(** A leader whose key was forgotten fails after the key has a new leader: its
    [delete] removes the new leader's entry, and a third call runs at the same time as
    the second. *)
Example stale_leader_deletes : ∃ s, rtc (any_step unbounded demo_range (0, @None unit)) init s ∧
  leaders s !! 1%nat = Some "k"%string ∧ leaders s !! 2%nat = Some "k"%string.
Proof.
  eexists. split.
  - eapply rtc_l; [left; by eapply (do_lead _ _ _ _ 5 "k")|]. eapply rtc_l; [right; by apply (do_forget _ "k")|].
    eapply rtc_l; [left; by eapply (do_lead _ _ _ _ 6 "k")|].
    eapply rtc_l; [left; by apply (do_finish _ _ _ _ 0 "k" (Returns (0, Some ())) 7)|].
    eapply rtc_l; [left; by eapply (do_lead _ _ _ _ 8 "k")|]. apply rtc_refl.
  - by vm_compute.
Qed.
