(* ===== verification/WorkerPool.v ===== *)
(** * WorkerPool: the bounded worker pool of [workerpool/workerpool.go]

    [workers] goroutines take jobs from one channel; [Close] makes them drain it
    and end.  Every channel operation is a step; a job runs between two steps,
    so that any number of other steps happen meanwhile.  The queue is never
    closed, so the branch for a closed queue does not occur.

    Shown: jobs start in the order of their acceptance, each one once, at most
    [workers] at a time ([workerpool_jobs]); after [Close] the workers never
    block, the results channel is closed only when they have ended, and every
    job accepted before the shutdown signal has been run by then
    ([workerpool_shutdown]).  [workerpool_late_submit]: a job accepted after the
    signal can be left unrun, as the comment in [worker] says. *)

From Stdlib Require Import ZArith Lia.
From stdpp Require Import base tactics numbers list relations.
From S2P Require Import Prelude.

#[local] Open Scope Z_scope.

Record Config := mkConfig { nworkers : nat; queueCap : nat; collectW : bool; resultsCap : nat }.

Inductive Option_ := WithQueueSize (n : Z) | WithResults (buffer : Z).

Definition apply_option (c : Config) (o : Option_) : Config :=
  match o with
  | WithQueueSize n => if 0 <? n then mkConfig (nworkers c) (Z.to_nat n) (collectW c) (resultsCap c) else c
  | WithResults b => mkConfig (nworkers c) (queueCap c) true (Z.to_nat (if b <? 0 then 0 else b))
  end.

(** [New]; [None] is a panic.  [queueCap] 0 stands for the nil queue before the
    default is put in its place. *)
Definition New (workers : Z) (opts : list Option_) : option Config :=
  if workers <=? 0 then None
  else
    let c := foldl apply_option (mkConfig (Z.to_nat workers) 0 false 0) opts in
    Some (mkConfig (nworkers c) (if (queueCap c =? 0)%nat then Z.to_nat workers else queueCap c) (collectW c) (resultsCap c)).

(** Where a worker is.  [drain] is true inside [drainQueue]; a job is named by its
    position in the order of starts. *)
Inductive wpc :=
| Ready (drain : bool)              (** at the [select] on the queue *)
| Running (drain : bool) (job : nat)
| Sending (drain : bool) (job : nat)  (** at the [select] on the results *)
| Exited.

(** A caller of [Submit] or [TrySubmit] that has seen the pool open. *)
Inductive submitter (J : Type) := Submitting (j : J) | Trying (j : J).
Arguments Submitting {J} j.
Arguments Trying {J} j.

(** A caller of [Close] after its [CompareAndSwap]: before [close(p.done)], in
    [wg.Wait], or past it. *)
Inductive closer := Signalling | Waiting | Closed.

Section pool.
Context {J : Type} (cfg : Config).

(** [before]: how many jobs had been accepted when [done] was closed. *)
Record sys := mkSys {
  queue : list J; done_ : bool; closed : bool; workers : list wpc; submitters : list (submitter J);
  close_ : option closer; results : list nat; results_closed : bool;
  accepted : list J; started : list J; finished : list nat; recovered : Z; before : nat }.

Definition init : sys :=
  mkSys [] false false (replicate (nworkers cfg) (Ready false)) [] None [] false [] [] [] 0 0.

(** [worker], [drainQueue], [runJob], [safeCall]. *)
Inductive worker_step : sys → sys → Prop :=
| w_take j q d c ws su cl rs rc ac st fi re be i dr : ws !! i = Some (Ready dr) →
    worker_step (mkSys (j :: q) d c ws su cl rs rc ac st fi re be)
      (mkSys q d c (<[i := Running dr (length st)]> ws) su cl rs rc ac (st ++ [j]) fi re be)
| w_done q c ws su cl rs rc ac st fi re be i : ws !! i = Some (Ready false) →
    worker_step (mkSys q true c ws su cl rs rc ac st fi re be)
      (mkSys q true c (<[i := Ready true]> ws) su cl rs rc ac st fi re be)
| w_exit d c ws su cl rs rc ac st fi re be i : ws !! i = Some (Ready true) →
    worker_step (mkSys [] d c ws su cl rs rc ac st fi re be)
      (mkSys [] d c (<[i := Exited]> ws) su cl rs rc ac st fi re be)
| w_finish q d c ws su cl rs rc ac st fi re be i dr n (panics : bool) : ws !! i = Some (Running dr n) →
    worker_step (mkSys q d c ws su cl rs rc ac st fi re be)
      (mkSys q d c (<[i := if collectW cfg then Sending dr n else Ready dr]> ws) su cl rs rc ac st (n :: fi)
         (if panics then u64 (re + 1) else re) be)
| w_send q d c ws su cl rs ac st fi re be i dr n : ws !! i = Some (Sending dr n) →
    (length rs < resultsCap cfg)%nat →
    worker_step (mkSys q d c ws su cl rs false ac st fi re be)
      (mkSys q d c (<[i := Ready dr]> ws) su cl (rs ++ [n]) false ac st fi re be)
| w_drop q c ws su cl rs rc ac st fi re be i dr n : ws !! i = Some (Sending dr n) →
    worker_step (mkSys q true c ws su cl rs rc ac st fi re be)
      (mkSys q true c (<[i := Ready dr]> ws) su cl rs rc ac st fi re be).

(** The reader of the results channel: a buffered value, or one handed over. *)
Inductive reader_step : sys → sys → Prop :=
| r_recv q d c ws su cl n rs rc ac st fi re be :
    reader_step (mkSys q d c ws su cl (n :: rs) rc ac st fi re be) (mkSys q d c ws su cl rs rc ac st fi re be)
| r_handoff q d c ws su cl ac st fi re be i dr n : ws !! i = Some (Sending dr n) →
    reader_step (mkSys q d c ws su cl [] false ac st fi re be)
      (mkSys q d c (<[i := Ready dr]> ws) su cl [] false ac st fi re be).

(** [Submit] and [TrySubmit]. *)
Inductive submit_step : sys → sys → Prop :=
| s_start q d ws su cl rs rc ac st fi re be x :
    submit_step (mkSys q d false ws su cl rs rc ac st fi re be) (mkSys q d false ws (x :: su) cl rs rc ac st fi re be)
| s_send q d c ws s1 x j s2 cl rs rc ac st fi re be : (length q < queueCap cfg)%nat → x = Submitting j ∨ x = Trying j →
    submit_step (mkSys q d c ws (s1 ++ x :: s2) cl rs rc ac st fi re be)
      (mkSys (q ++ [j]) d c ws (s1 ++ s2) cl rs rc (ac ++ [j]) st fi re be)
| s_closed q c ws s1 x s2 cl rs rc ac st fi re be :
    submit_step (mkSys q true c ws (s1 ++ x :: s2) cl rs rc ac st fi re be)
      (mkSys q true c ws (s1 ++ s2) cl rs rc ac st fi re be)
| s_cancelled q d c ws s1 j s2 cl rs rc ac st fi re be :
    submit_step (mkSys q d c ws (s1 ++ Submitting j :: s2) cl rs rc ac st fi re be)
      (mkSys q d c ws (s1 ++ s2) cl rs rc ac st fi re be)
| s_full q d c ws s1 j s2 cl rs rc ac st fi re be : (queueCap cfg ≤ length q)%nat →
    submit_step (mkSys q d c ws (s1 ++ Trying j :: s2) cl rs rc ac st fi re be)
      (mkSys q d c ws (s1 ++ s2) cl rs rc ac st fi re be).

Inductive close_step : sys → sys → Prop :=
| c_start q d ws su cl rs rc ac st fi re be :
    close_step (mkSys q d false ws su cl rs rc ac st fi re be)
      (mkSys q d true ws su (Some Signalling) rs rc ac st fi re be)
| c_signal q d c ws su rs rc ac st fi re be :
    close_step (mkSys q d c ws su (Some Signalling) rs rc ac st fi re be)
      (mkSys q true c ws su (Some Waiting) rs rc ac st fi re (length ac))
| c_wait q d c ws su rs rc ac st fi re be : Forall (λ w, w = Exited) ws →
    close_step (mkSys q d c ws su (Some Waiting) rs rc ac st fi re be)
      (mkSys q d c ws su (Some Closed) rs (collectW cfg || rc) ac st fi re be).

Definition step (s s' : sys) : Prop :=
  worker_step s s' ∨ reader_step s s' ∨ submit_step s s' ∨ close_step s s'.
Definition reachable (s : sys) : Prop := rtc step init s.

(** ** Invariant *)

(** The job a worker is running. *)
Definition job_of (w : wpc) : list nat := match w with Running _ n => [n] | _ => [] end.
Definition running (ws : list wpc) : list nat := ws ≫= job_of.

Lemma running_insert ws i w w' : ws !! i = Some w →
  job_of w ++ running (<[i := w']> ws) ≡ₚ job_of w' ++ running ws.
Proof using. apply bind_insert_perm. Qed.

Lemma running_length ws : (length (running ws) ≤ length ws)%nat.
Proof using. induction ws as [|[]]; unfold running in *; csimpl; simpl; lia. Qed.

(** Inside [drainQueue], or past it. *)
Definition draining (w : wpc) : bool :=
  match w with Ready d | Running d _ | Sending d _ => d | Exited => true end.

Lemma elem_of_update (ws : list wpc) i w w' v : ws !! i = Some w → v ∈ <[i := w']> ws → v = w' ∨ v ∈ ws.
Proof using.
  intros Hi [k [(-> & -> & _)|[_ Hk]]%list_lookup_insert_Some]%list_elem_of_lookup; [by left|right].
  by eapply list_elem_of_lookup_2.
Qed.

Record pinv (s : sys) : Prop := {
  p_fifo : accepted s = started s ++ queue s;
  p_once : finished s ++ running (workers s) ≡ₚ seq 0 (length (started s));
  p_workers : length (workers s) = nworkers cfg;
  p_done : done_ s = true ↔ close_ s = Some Waiting ∨ close_ s = Some Closed;
  p_closed : closed s = true ↔ close_ s ≠ None;
  p_exited : ∀ w, w ∈ workers s → draining w = true → done_ s = true;
  p_before : done_ s = true → (before s ≤ length (accepted s))%nat ∧
    (Exited ∈ workers s → (before s ≤ length (started s))%nat);
  p_results : results_closed s = true → Forall (λ w, w = Exited) (workers s) }.

(** A worker moves on without starting or finishing a job. *)
Lemma worker_moves q d c ws su cl rs rc ac st fi re be rs' i w w' :
  pinv (mkSys q d c ws su cl rs rc ac st fi re be) → ws !! i = Some w → w ≠ Exited →
  job_of w = [] → job_of w' = [] → (draining w' = true → draining w = true ∨ d = true) →
  (w' = Exited → q = []) →
  pinv (mkSys q d c (<[i := w']> ws) su cl rs' rc ac st fi re be).
Proof using.
  intros [Hf Ho Hw Hd Hc He Hb Hr] Hi Hne Hj Hj' Hdr Hex. cbn in *.
  assert (Hin : w ∈ ws) by (by eapply list_elem_of_lookup_2).
  split; cbn; try done.
  - pose proof (running_insert ws i w w' Hi) as Hp. rewrite Hj, Hj' in Hp. simpl in Hp. by rewrite Hp.
  - by rewrite length_insert.
  - intros v [->|Hv]%(elem_of_update _ _ _ _ _ Hi) Hdv; [|by eapply He]. destruct (Hdr Hdv); [by eapply He|done].
  - intros Hdt. destruct (Hb Hdt) as [Hl Hs]. split; [done|].
    intros [<-|Hv]%(elem_of_update _ _ _ _ _ Hi); [|by apply Hs]. rewrite (Hex eq_refl), app_nil_r in Hf. by rewrite <- Hf.
  - intros Hrc. specialize (Hr Hrc). rewrite Forall_forall in Hr. destruct Hne. by apply Hr.
Qed.

Lemma worker_pinv s s' : pinv s → worker_step s s' → pinv s'.
Proof using.
  intros Hinv Hstep. destruct Hstep as
    [j q d c ws su cl rs rc ac st fi re be i dr Hi|q c ws su cl rs rc ac st fi re be i Hi|d c ws su cl rs rc ac st fi re be i Hi
    |q d c ws su cl rs rc ac st fi re be i dr n b Hi|q d c ws su cl rs ac st fi re be i dr n Hi Hl|q c ws su cl rs rc ac st fi re be i dr n Hi].
  - destruct Hinv as [Hf Ho Hw Hd Hc He Hb Hr]. cbn in *. assert (Hin : Ready dr ∈ ws) by (by eapply list_elem_of_lookup_2).
    split; cbn; try done.
    + by rewrite Hf, <- (assoc_L (++)).
    + pose proof (running_insert ws i _ (Running dr (length st)) Hi) as Hp. simpl in Hp. rewrite Hp, length_app. simpl.
      rewrite Nat.add_1_r, seq_S, <- Ho. simpl. by rewrite <- Permutation_middle, <- Permutation_cons_append.
    + by rewrite length_insert.
    + intros v [->|Hv]%(elem_of_update _ _ _ _ _ Hi) Hdv; [|by eapply He]. by eapply (He (Ready dr)).
    + intros Hdt. destruct (Hb Hdt) as [Hl Hs]. split; [done|]. rewrite length_app.
      intros [|Hv]%(elem_of_update _ _ _ _ _ Hi); [done|]. specialize (Hs Hv). lia.
    + intros Hrc. specialize (Hr Hrc). rewrite Forall_forall in Hr. by specialize (Hr _ Hin).
  - eapply worker_moves; [done|exact Hi|done..|by right|done].
  - eapply worker_moves; [done|exact Hi|done..|by left|done].
  - assert (Hj : job_of (if collectW cfg then Sending dr n else Ready dr) = []) by (by destruct (collectW cfg)).
    assert (Hdr : draining (if collectW cfg then Sending dr n else Ready dr) = dr) by (by destruct (collectW cfg)).
    set (w' := if collectW cfg then _ else _) in *.
    destruct Hinv as [Hf Ho Hw Hd Hc He Hb Hr]. cbn in *. assert (Hin : Running dr n ∈ ws) by (by eapply list_elem_of_lookup_2).
    split; cbn; try done.
    + pose proof (running_insert ws i _ w' Hi) as Hp. rewrite Hj in Hp. simpl in Hp.
      by rewrite <- Ho, <- Hp, Permutation_middle.
    + by rewrite length_insert.
    + intros v [->|Hv]%(elem_of_update _ _ _ _ _ Hi) Hdv; [|by eapply He]. eapply (He (Running dr n)); [done|].
      simpl. congruence.
    + intros Hdt. destruct (Hb Hdt) as [Hl Hs]. split; [done|].
      intros [Hv|Hv]%(elem_of_update _ _ _ _ _ Hi); [|by apply Hs]. by destruct (collectW cfg).
    + intros Hrc. specialize (Hr Hrc). rewrite Forall_forall in Hr. by specialize (Hr _ Hin).
  - eapply worker_moves; [done|exact Hi|done..|by left|done].
  - eapply worker_moves; [done|exact Hi|done..|by left|done].
Qed.

Lemma reader_pinv s s' : pinv s → reader_step s s' → pinv s'.
Proof using.
  intros Hinv Hstep. destruct Hstep; [by destruct Hinv; split|].
  eapply worker_moves; [done|exact H|done..|by left|done].
Qed.

Lemma submit_pinv s s' : pinv s → submit_step s s' → pinv s'.
Proof using.
  intros [Hf Ho Hw Hd Hc He Hb Hr] Hstep. destruct Hstep; split; cbn in *; try done.
  - by rewrite Hf, (assoc_L (++)).
  - intros Hdt. destruct (Hb Hdt). split; [|done]. rewrite length_app. lia.
Qed.

Lemma close_pinv s s' : pinv s → close_step s s' → pinv s'.
Proof using.
  intros [Hf Ho Hw Hd Hc He Hb Hr] Hstep. destruct Hstep; split; cbn in *; try done.
  - rewrite Hd. assert (cl = None) as -> by (destruct cl; [by destruct Hc as [_ Hc]; discriminate Hc|done]). naive_solver.
  - naive_solver.
  - naive_solver.
  - intros _. split; [done|]. intros Hx. exfalso. specialize (He _ Hx eq_refl). naive_solver.
  - naive_solver.
  - naive_solver.
Qed.

Lemma reachable_pinv s : reachable s → pinv s.
Proof using.
  intros Hr. unfold reachable in Hr. remember init as s0 eqn:H0. assert (Hi : pinv s0).
  { subst. assert (Hall : ∀ w, w ∈ replicate (nworkers cfg) (Ready false) → w = Ready false).
    { intros w Hin. by apply elem_of_replicate in Hin as [-> _]. }
    split; cbn; try done.
    - assert (Hn : ∀ n, running (replicate n (Ready false)) = []) by (intros n; by induction n). by rewrite Hn.
    - apply length_replicate.
    - naive_solver.
    - by intros w ->%Hall. }
  clear H0. induction Hr as [|s1 s2 s3 Hs _ IH]; [done|]. apply IH.
  destruct Hs as [?|[?|[?|?]]]; [by eapply worker_pinv|by eapply reader_pinv|by eapply submit_pinv|by eapply close_pinv].
Qed.
End pool.

(** ** Theorems *)

(** However workers, submitters, the reader of results and Close are interleaved:
    the accepted jobs are those started, in the order of acceptance, followed by those
    queued; every started job is either finished or being run by one worker, and is so
    once; and at most as many jobs run as there are workers. *)
Theorem workerpool_jobs {J} n opts cfg (s : @sys J) : New n opts = Some cfg → reachable cfg s →
  accepted s = started s ++ queue s ∧
  finished s ++ running (workers s) ≡ₚ seq 0 (length (started s)) ∧
  Z.of_nat (length (running (workers s))) ≤ n.
Proof.
  intros Hn Hr. destruct (reachable_pinv cfg s Hr) as [Hf Ho Hw _ _ _ _ _]. split_and!; [done|done|].
  pose proof (running_length (workers s)). rewrite Hw in H. unfold New in Hn.
  destruct (Z.leb_spec n 0); [done|]. injection Hn as <-. cbn in H.
  assert (Hk : ∀ c, nworkers (foldl apply_option c opts) = nworkers c).
  { clear. induction opts as [|o opts IH]; intros c; simpl; [done|]. rewrite IH. destruct o; simpl; [by destruct (0 <? n)|done]. }
  rewrite Hk in H. cbn in H. lia.
Qed.

Definition demo_config : Config := mkConfig 2 2 false 0.

(** Two jobs running, a third one queued, then the pool closed. *)
Definition demo : @sys Z :=
  mkSys [30] true true [Running false 0; Running false 1] [] (Some Waiting) [] false
    [10; 20; 30] [10; 20] [] 0 3.

Lemma pool_demo_reachable : reachable demo_config demo.
Proof.
  eapply rtc_l; [do 2 right; left; apply (s_start _ [] _ _ _ _ _ _ _ _ _ _ _ (Submitting 10))|].
  eapply rtc_l; [do 2 right; left; apply (s_start _ _ _ _ _ _ _ _ _ _ _ _ _ (Submitting 20))|].
  eapply rtc_l; [do 2 right; left; apply (s_start _ _ _ _ _ _ _ _ _ _ _ _ _ (Trying 30))|].
  eapply rtc_l; [do 2 right; left; apply (s_send _ _ _ _ _ [Trying 30; Submitting 20] _ 10 []); [simpl; lia|by left]|].
  eapply rtc_l; [left; by apply (w_take _ _ _ _ _ _ _ _ _ _ _ _ _ _ _ 0 false)|].
  eapply rtc_l; [do 2 right; left; apply (s_send _ _ _ _ _ [Trying 30] _ 20 []); [simpl; lia|by left]|].
  eapply rtc_l; [left; by apply (w_take _ _ _ _ _ _ _ _ _ _ _ _ _ _ _ 1 false)|].
  eapply rtc_l; [do 2 right; left; apply (s_send _ _ _ _ _ [] _ 30 []); [simpl; lia|by right]|].
  eapply rtc_l; [do 3 right; apply c_start|]. eapply rtc_l; [do 3 right; apply c_signal|]. apply rtc_refl.
Qed.

Lemma workerpool_jobs_witness : running (workers demo) = [0; 1]%nat ∧ Z.of_nat (length (running (workers demo))) ≤ 2.
Proof.
  split; [reflexivity|]. apply (workerpool_jobs 2 [] demo_config demo); [reflexivity|apply pool_demo_reachable].
Defined.

(** After the shutdown signal a worker that is not inside a job always has a step to
    take, so Close waits for running jobs only; the results channel is closed only when
    all workers have ended, so none of them sends on a closed channel; and once a
    worker has ended, every job accepted before the signal has been started, so that
    all of them are finished when Close returns. *)
Theorem workerpool_shutdown {J} cfg (s : @sys J) : reachable cfg s → done_ s = true →
  (∀ i w, workers s !! i = Some w → job_of w = [] → w ≠ Exited → ∃ s', worker_step cfg s s') ∧
  (results_closed s = true → Forall (λ w, w = Exited) (workers s)) ∧
  (Exited ∈ workers s → (before s ≤ length (started s))%nat) ∧
  (Forall (λ w, w = Exited) (workers s) → finished s ≡ₚ seq 0 (length (started s))).
Proof.
  intros Hr Hd. destruct (reachable_pinv cfg s Hr) as [Hf Ho Hw _ _ _ Hb Hrs]. split_and!; [|done|by apply Hb|].
  - intros i w Hi Hj Hne. destruct s as [q d c ws su cl rs rc ac st fi re be]. cbn in *. subst d.
    destruct w as [dr|dr n|dr n|]; try done.
    + destruct dr; [|eexists; by eapply w_done]. destruct q as [|j q]; eexists; [by eapply w_exit|by eapply w_take].
    + eexists. by eapply w_drop.
  - intros Hall. rewrite <- Ho.
    assert (Hn : ∀ ws, Forall (λ w, w = Exited) ws → running ws = []) by (intros ws; by induction 1 as [|w ws -> _ IH]).
    by rewrite Hn, app_nil_r.
Qed.

Lemma workerpool_shutdown_witness : results_closed demo = true → Forall (λ w, w = Exited) (workers demo).
Proof. apply (workerpool_shutdown demo_config demo); [apply pool_demo_reachable|reflexivity]. Defined.

(** A [Submit] that saw the pool open before [Close] can put its job in the queue after
    the workers have ended: it returns nil and the job is not run. *)
Example workerpool_late_submit : ∃ s : @sys Z, reachable (mkConfig 1 1 false 0) s ∧
  close_ s = Some Closed ∧ accepted s = [10] ∧ started s = [].
Proof.
  eexists. split.
  - eapply rtc_l; [do 2 right; left; apply (s_start _ _ _ _ _ _ _ _ _ _ _ _ _ (Submitting 10))|].
    eapply rtc_l; [do 3 right; apply c_start|]. eapply rtc_l; [do 3 right; apply c_signal|].
    eapply rtc_l; [left; by apply (w_done _ _ _ _ _ _ _ _ _ _ _ _ _ 0)|].
    eapply rtc_l; [left; by apply (w_exit _ _ _ _ _ _ _ _ _ _ _ _ _ 0)|].
    eapply rtc_l; [do 3 right; apply c_wait; by repeat constructor|].
    eapply rtc_l; [do 2 right; left; apply (s_send _ _ _ _ _ [] (Submitting 10) 10 []); [simpl; lia|by left]|]. apply rtc_refl.
  - by vm_compute.
Qed.
