(* ===== verification/Spill.v ===== *)
(** * Spill: the overflow stores of [log4go/kafka_overflow.go]

    Records that do not fit the send channel go to a ring in memory, to a file of
    length-prefixed frames, or to the ring first and the file after it.  The file
    spiller is modelled with the bytes on disk and the bytes that are still in its
    [bufio.Writer]; the codec and the result of [os.Rename] are parameters, other
    file operations succeed.

    Shown: draining a chain returns exactly the accepted records in the order of
    acceptance, within the bounds of both stores, and leaves it empty
    ([chain_drain_exact]); after a crash the file yields a prefix of its records,
    never a torn or altered one ([spill_crash_prefix]); the ring keeps the newest
    records ([ring_spiller_refines]).  [spill_buffered_lost] shows that records
    are on disk only after 4096 bytes or a flush. *)

From Stdlib Require Import ZArith Lia.
From stdpp Require Import base tactics numbers list strings.
From S2P Require Import Prelude RingBuffers.

#[local] Open Scope Z_scope.

(** ** Policies and statistics *)

Inductive OverflowPolicy := OverflowDrop | OverflowBlock | OverflowSpill.

Definition policy_String (p : OverflowPolicy) : string :=
  match p with OverflowBlock => "block" | OverflowSpill => "spill" | OverflowDrop => "drop" end.

Definition ParseOverflowPolicy (s : string) : OverflowPolicy :=
  if decide (s = "block"%string) then OverflowBlock
  else if decide (s = "spill"%string) then OverflowSpill
  else OverflowDrop.

Record OverflowStats := mkStats { dropped : Z; spilled : Z; dropEvery : Z; spillEvery : Z }.

Definition SetAlertEvery (d s : Z) (st : OverflowStats) : OverflowStats := mkStats (dropped st) (spilled st) d s.

(** [alert]: whether the [n]-th event is reported. *)
Definition alert_fires (n every : Z) : bool := (n =? 1) || ((0 <? every) && (n mod every =? 0)).

Definition IncDropped (st : OverflowStats) : OverflowStats * bool :=
  let n := u64 (dropped st + 1) in
  (mkStats n (spilled st) (dropEvery st) (spillEvery st), alert_fires n (dropEvery st)).
Definition IncSpilled (st : OverflowStats) : OverflowStats * bool :=
  let n := u64 (spilled st + 1) in
  (mkStats (dropped st) n (dropEvery st) (spillEvery st), alert_fires n (spillEvery st)).

(** ** RingSpiller *)

Section ring.
Context {T : Type} (zero : T).

Record RingSpiller := mkRing { buf : list T; head : nat; size : nat; capv : nat }.

Definition NewRingSpiller (capacity : Z) : RingSpiller :=
  let capacity := if capacity <? 1 then 1024 else capacity in
  mkRing (replicate (Z.to_nat capacity) zero) 0 0 (Z.to_nat capacity).

Definition ring_Push (r : RingSpiller) (msg : T) : RingSpiller :=
  mkRing (<[head r := msg]> (buf r)) ((head r + 1) mod capv r)%nat
    (if (size r <? capv r)%nat then S (size r) else size r) (capv r).

Definition PushNoOverwrite (r : RingSpiller) (msg : T) : bool * RingSpiller :=
  if (capv r <=? size r)%nat then (false, r)
  else (true, mkRing (<[head r := msg]> (buf r)) ((head r + 1) mod capv r)%nat (S (size r)) (capv r)).

(** The loop of [Drain]: the rest of the [n] records from [start] on. *)
Fixpoint drain_loop (start i n c : nat) (b : list T) : list T * list T :=
  match n with
  | O => ([], b)
  | S n =>
      let idx := ((start + i) mod c)%nat in
      let '(out, b') := drain_loop start (S i) n c (<[idx := zero]> b) in
      (nth idx b zero :: out, b')
  end.

(** [(r.head - r.size + r.capv) % r.capv], which is not negative. *)
Definition start_of (r : RingSpiller) : nat := ((head r + capv r - size r) mod capv r)%nat.

Definition ring_Drain (r : RingSpiller) : list T * RingSpiller :=
  if (size r =? 0)%nat then ([], r)
  else
    let start := start_of r in
    let '(out, b) := drain_loop start 0 (size r) (capv r) (buf r) in
    (out, mkRing b 0 0 (capv r)).

(** *** Refinement: the ring is the list of its records, oldest first. *)

Definition ring_contents (r : RingSpiller) : list T := view zero (buf r) (start_of r) (size r).

Record ring_wf (r : RingSpiller) : Prop := {
  r_len : length (buf r) = capv r; r_cap : (0 < capv r)%nat;
  r_head : (head r < capv r)%nat; r_size : (size r ≤ capv r)%nat }.

Lemma start_head r : ring_wf r → ((start_of r + size r) mod capv r)%nat = head r.
Proof using.
  intros [Hl Hc Hh Hs]. unfold start_of. rewrite Nat.Div0.add_mod_idemp_l.
  replace (head r + capv r - size r + size r)%nat with (head r + 1 * capv r)%nat by lia.
  by rewrite Nat.Div0.mod_add, Nat.mod_small.
Qed.

Lemma start_of_S b h n c : (0 < c)%nat → (h < c)%nat → (n < c)%nat →
  start_of (mkRing b ((h + 1) mod c) (S n) c) = ((h + c - n) mod c)%nat.
Proof using.
  intros Hc Hh Hn. unfold start_of. cbn. destruct (Nat.eq_dec (h + 1)%nat c) as [<-|Hne].
  - rewrite Nat.Div0.mod_same. replace (h + (h + 1) - n)%nat with (0 + (h + 1) - S n + 1 * (h + 1))%nat by lia.
    by rewrite Nat.Div0.mod_add.
  - rewrite (Nat.mod_small (h + 1)) by lia. f_equal. lia.
Qed.

(** A write to a ring that is not full. *)
Lemma ring_write_spec r x : ring_wf r → (size r < capv r)%nat →
  let r' := mkRing (<[head r := x]> (buf r)) ((head r + 1) mod capv r) (S (size r)) (capv r) in
  ring_wf r' ∧ ring_contents r' = ring_contents r ++ [x].
Proof using.
  intros Hwf Hlt r'. pose proof (start_head r Hwf) as Hsh. destruct Hwf as [Hl Hc Hh Hs]. split.
  - split; cbn; [by rewrite length_insert|done|by apply Nat.mod_upper_bound; lia|lia].
  - unfold ring_contents, r'. rewrite start_of_S by done. cbn [buf size].
    fold (start_of r). rewrite <- (view_push zero (buf r)) by lia. by rewrite Hl, Hsh.
Qed.

Lemma ring_Push_spec r x : ring_wf r →
  ring_wf (ring_Push r x) ∧ capv (ring_Push r x) = capv r ∧
  ring_contents (ring_Push r x) =
    (if (size r <? capv r)%nat then ring_contents r else drop 1 (ring_contents r)) ++ [x].
Proof using.
  intros Hwf. unfold ring_Push. destruct (Nat.ltb_spec (size r) (capv r)) as [Hlt|Hge].
  { destruct (ring_write_spec r x Hwf Hlt). by split_and!. }
  destruct Hwf as [Hl Hc Hh Hs]. assert (Hsz : size r = capv r) by lia. split_and!; [|done|].
  - split; cbn; [by rewrite length_insert|done|by apply Nat.mod_upper_bound; lia|done].
  - unfold ring_contents, start_of. cbn [buf head size capv]. rewrite Hsz.
    rewrite !Nat.add_sub, Nat.Div0.mod_mod, (Nat.mod_small (head r)), <- Hl by done. apply view_rotate. lia.
Qed.

Lemma ring_drain_loop_spec c n start i b : length b = c → (0 < c)%nat → (i + n ≤ c)%nat →
  length (drain_loop start i n c b).2 = c ∧
  (drain_loop start i n c b).1 = view zero b ((start + i) mod c) n.
Proof using.
  revert i b. induction n as [|n IH]; intros i b Hl Hc Hi; [by split|]. cbn [drain_loop].
  assert (Hlt : ((start + i) mod c < c)%nat) by (apply Nat.mod_upper_bound; lia).
  destruct (IH (S i) (<[((start + i) mod c)%nat := zero]> b)) as [IHl IHv]; [by rewrite length_insert|done|lia|].
  destruct (drain_loop start (S i) n c _) as [out b'] eqn:Hd. cbn [fst snd] in *. split; [done|].
  rewrite IHv, (view_pop zero b _ n zero) by lia. rewrite Hl, Nat.Div0.add_mod_idemp_l. do 3 f_equal. lia.
Qed.

Lemma ring_Drain_spec r : ring_wf r →
  (ring_Drain r).1 = ring_contents r ∧ ring_wf (ring_Drain r).2 ∧ capv (ring_Drain r).2 = capv r ∧
  size (ring_Drain r).2 = 0%nat.
Proof using.
  intros Hwf. unfold ring_Drain, ring_contents. destruct (Nat.eqb_spec (size r) 0) as [Hz|Hne]; [by rewrite Hz|].
  destruct Hwf as [Hl Hc Hh Hs].
  destruct (ring_drain_loop_spec (capv r) (size r) (start_of r) 0 (buf r)) as [Hl' Hv]; [done|done|lia|].
  destruct (drain_loop (start_of r) 0 (size r) (capv r) (buf r)) as [out b]. cbn [fst snd size capv buf head] in *. split_and!; try done.
  - rewrite Hv, Nat.add_0_r. unfold start_of. by rewrite Nat.Div0.mod_mod.
  - split; cbn; lia.
Qed.

Lemma ring_contents_nil r : size r = 0%nat → ring_contents r = [].
Proof using. intros H. unfold ring_contents. by rewrite H. Qed.

Lemma length_ring_contents r : length (ring_contents r) = size r.
Proof using. apply length_view. Qed.

Lemma NewRingSpiller_spec c : ring_wf (NewRingSpiller c) ∧ ring_contents (NewRingSpiller c) = [] ∧
  Z.of_nat (capv (NewRingSpiller c)) = if c <? 1 then 1024 else c.
Proof using.
  unfold NewRingSpiller. split_and!; [|done|cbn; zcases; lia].
  split; cbn; [apply length_replicate|zcases; lia..].
Qed.
End ring.

(** ** FileSpiller *)

(** Bytes are integers in [0, 256). *)
Notation bytes := (list Z).

(** [binary.BigEndian.PutUint32] and [Uint32]. *)
Definition PutUint32 (v : Z) : bytes := [v / 2 ^ 24 mod 2 ^ 8; v / 2 ^ 16 mod 2 ^ 8; v / 2 ^ 8 mod 2 ^ 8; v mod 2 ^ 8].
Definition Uint32 (b : bytes) : Z :=
  match b with [b3; b2; b1; b0] => b3 * 2 ^ 24 + b2 * 2 ^ 16 + b1 * 2 ^ 8 + b0 | _ => 0 end.

Lemma Uint32_PutUint32 v : 0 ≤ v < 2 ^ 32 → Uint32 (PutUint32 v) = v.
Proof. intros Hv. unfold Uint32, PutUint32. Z.div_mod_to_equations. lia. Qed.

Section file.
Context {T : Type} (Encode : T → option bytes) (Decode : bytes → option T).

(** The size of the buffer of [bufio.NewWriter]. *)
Definition bufio_size : nat := Z.to_nat 4096.
#[local] Arguments bufio_size : simpl never.

(** [bufio.Writer.Write]: what does not fit fills the buffer, which is written out;
    a large rest goes to the file directly. *)
Fixpoint bufio_Write (fuel : nat) (disk pending p : bytes) : bytes * bytes :=
  match fuel with
  | O => (disk, pending ++ p)
  | S fuel =>
      let avail := (bufio_size - length pending)%nat in
      if (length p <=? avail)%nat then (disk, pending ++ p)
      else match pending with
           | [] => (disk ++ p, [])
           | _ => bufio_Write fuel (disk ++ pending ++ take avail p) [] (drop avail p)
           end
  end.

(** [disk]: the bytes of spill.log; [pending]: the buffer of the writer. *)
Record FileSpiller := mkFile { maxBytes : Z; disk : bytes; pending : bytes; written : Z; count : Z }.

(** [open] on the bytes found on disk. *)
Definition open_ (maxBytes count : Z) (disk : bytes) : FileSpiller :=
  mkFile maxBytes disk [] (Z.of_nat (length disk)) count.

Definition NewFileSpiller (maxBytes : Z) (disk : bytes) : FileSpiller :=
  open_ (if maxBytes <=? 0 then 64 * 2 ^ 20 else maxBytes) 0 disk.

(** Two iterations of the loop of [Write] are enough. *)
Definition fWrite (f : FileSpiller) (p : bytes) : FileSpiller :=
  let '(d, q) := bufio_Write 2 (disk f) (pending f) p in
  mkFile (maxBytes f) d q (written f) (count f).

Definition file_Push (f : FileSpiller) (msg : T) : bool * FileSpiller :=
  match Encode msg with
  | None => (false, f)
  | Some b =>
      let hdr := PutUint32 (u32 (Z.of_nat (length b))) in
      let recLen := 4 + Z.of_nat (length b) in
      if maxBytes f <? written f + recLen then (false, f)
      else
        let f := fWrite (fWrite f hdr) b in
        (true, mkFile (maxBytes f) (disk f) (pending f) (written f + recLen) (count f + 1))
  end.

(** [decodeSpillFile]: a short read ends the loop, a record that does not decode is
    skipped.  Every iteration consumes at least four bytes. *)
Fixpoint decode_loop (fuel : nat) (b : bytes) : list T :=
  match fuel with
  | O => []
  | S fuel =>
      if (length b <? 4)%nat then []
      else
        let l := Z.to_nat (Uint32 (take 4 b)) in
        let b := drop 4 b in
        if (length b <? l)%nat then []
        else
          let rest := decode_loop fuel (drop l b) in
          match Decode (take l b) with Some v => v :: rest | None => rest end
  end.
Definition decodeSpillFile (b : bytes) : list T := decode_loop (length b) b.

Definition Flush (f : FileSpiller) : FileSpiller :=
  mkFile (maxBytes f) (disk f ++ pending f) [] (written f) (count f).

(** [renamed]: whether [os.Rename] succeeded.  The renamed file is decoded and removed;
    [open] finds no file, or the old one when the rename failed. *)
Definition file_Drain (renamed : bool) (f : FileSpiller) : list T * FileSpiller :=
  let f := Flush f in
  if renamed then (decodeSpillFile (disk f), open_ (maxBytes f) 0 [])
  else ([], open_ (maxBytes f) (count f) (disk f)).

Definition file_Len (f : FileSpiller) : Z := count f.

(** [DrainFileRecover] on the bytes left by an earlier process. *)
Definition DrainFileRecover (disk : option bytes) (renamed : bool) : list T :=
  match disk with
  | None => []
  | Some b => if renamed then decodeSpillFile b else []
  end.

(** *** Frames *)

Definition frame (b : bytes) : bytes := PutUint32 (Z.of_nat (length b)) ++ b.

Lemma bufio_Write_all fuel d q p : (bufio_Write fuel d q p).1 ++ (bufio_Write fuel d q p).2 = d ++ q ++ p.
Proof using.
  revert d q p. induction fuel as [|fuel IH]; intros d q p; [done|]. cbn [bufio_Write].
  destruct (length p <=? bufio_size - length q)%nat; [done|]. destruct q as [|x q]; [by cbn; rewrite app_nil_r|].
  rewrite IH, app_nil_l, <- !(assoc_L (++)). by rewrite take_drop.
Qed.

(** Two iterations end within the buffer. *)
Lemma bufio_Write_two d q p : (length q ≤ bufio_size)%nat → (length (bufio_Write 2 d q p).2 ≤ bufio_size)%nat.
Proof using.
  intros Hq. cbn [bufio_Write]. destruct (Nat.leb_spec (length p) (bufio_size - length q)) as [Hp|Hp].
  { cbn. rewrite length_app. lia. }
  destruct q as [|x q]; [cbn; lia|]. set (a := (bufio_size - length (x :: q))%nat). cbn [length] in *.
  rewrite Nat.sub_0_r. destruct (Nat.leb_spec (length (drop a p)) bufio_size); cbn; [done|lia].
Qed.

Definition all_bytes (f : FileSpiller) : bytes := disk f ++ pending f.

Lemma fWrite_bytes f p : all_bytes (fWrite f p) = all_bytes f ++ p.
Proof using.
  unfold all_bytes, fWrite. pose proof (bufio_Write_all 2 (disk f) (pending f) p) as H.
  destruct (bufio_Write 2 (disk f) (pending f) p) as [d q]. cbn in *. by rewrite H, (assoc_L (++)).
Qed.

Definition encodes (l : list T) (bs : list bytes) : Prop :=
  Forall2 (λ m b, Encode m = Some b) l bs ∧ Forall (λ b, Z.of_nat (length b) < 2 ^ 32) bs.

(** The beginning of a frame, or nothing. *)
Definition torn (t : bytes) : Prop :=
  (length t < 4)%nat ∨ (length (drop 4 t) < Z.to_nat (Uint32 (take 4 t)))%nat.

Context (Hcodec : ∀ m b, Encode m = Some b → Decode b = Some m).

Lemma length_frame (b : bytes) : length (frame b) = (4 + length b)%nat.
Proof using. done. Qed.

Lemma take_frame (b t : bytes) : Z.of_nat (length b) < 2 ^ 32 →
  Z.to_nat (Uint32 (take 4 (frame b ++ t))) = length b ∧ drop 4 (frame b ++ t) = b ++ t ∧
  (4 + length b ≤ length (frame b ++ t))%nat.
Proof using.
  intros Hb. unfold frame. rewrite <- (assoc_L (++)). split_and!.
  - rewrite take_app_length' by done. rewrite Uint32_PutUint32 by lia. lia.
  - by rewrite drop_app_length' by done.
  - rewrite !length_app. simpl. lia.
Qed.

Lemma decode_frames fuel l bs t : encodes l bs → torn t → (length (concat (frame <$> bs) ++ t) ≤ fuel)%nat →
  decode_loop fuel (concat (frame <$> bs) ++ t) = l.
Proof using Hcodec.
  intros [Henc Hlen] Ht. revert fuel. induction Henc as [|m b l bs Hm Henc IH]; intros fuel Hf.
  { csimpl. destruct fuel as [|fuel]; [done|]. cbn [decode_loop]. destruct (Nat.ltb_spec (length t) 4); [done|].
    destruct Ht as [?|Ht]; [lia|]. by apply Nat.ltb_lt in Ht as ->. }
  apply Forall_cons in Hlen as [Hb Hlen]. rewrite fmap_cons, concat_cons, <- (assoc_L (++)) in *.
  destruct (take_frame b (concat (frame <$> bs) ++ t) Hb) as (Hu & Hd & Hl).
  destruct fuel as [|fuel]; [lia|]. cbn [decode_loop]. rewrite Hu, Hd.
  destruct (Nat.ltb_spec (length (frame b ++ concat (frame <$> bs) ++ t)) 4); [lia|].
  destruct (Nat.ltb_spec (length (b ++ concat (frame <$> bs) ++ t)) (length b)) as [Hx|_]; [rewrite length_app in Hx; lia|].
  rewrite take_app_length, drop_app_length, (Hcodec m b Hm), (IH Hlen fuel); [done|].
  rewrite !length_app, length_frame in *. lia.
Qed.

Lemma torn_nil : torn [].
Proof using. left. simpl. lia. Qed.

Lemma prefix_app_cases (p l1 l2 : bytes) : p `prefix_of` l1 ++ l2 →
  p `prefix_of` l1 ∨ ∃ p', p = l1 ++ p' ∧ p' `prefix_of` l2.
Proof using.
  intros [q Hq]. apply app_eq_inv in Hq as [(k & -> & Hk)|(k & -> & Hk)].
  - left. by exists k.
  - right. exists k. split; [done|]. by exists q.
Qed.

(** A file cut anywhere is some whole frames and a torn one. *)
Lemma prefix_frames (bs : list bytes) p : Forall (λ b, Z.of_nat (length b) < 2 ^ 32) bs →
  p `prefix_of` concat (frame <$> bs) →
  ∃ k t, p = concat (frame <$> take k bs) ++ t ∧ torn t.
Proof using.
  intros Hlen. revert p. induction Hlen as [|b bs Hb Hlen IH]; intros p Hp.
  { apply prefix_nil_inv in Hp as ->. exists 0%nat, []. split; [done|apply torn_nil]. }
  rewrite fmap_cons, concat_cons in Hp. apply prefix_app_cases in Hp as [Hp|(p' & -> & Hp)].
  - destruct (decide (length p = length (frame b))) as [Hl|Hl].
    { exists 1%nat, []. split; [|apply torn_nil]. change (concat (frame <$> take 1 (b :: bs))) with (frame b ++ []).
      rewrite !app_nil_r. destruct Hp as [q Hq]. assert (q = []) as ->; [|by rewrite app_nil_r in Hq].
      apply length_zero_iff_nil. rewrite Hq, length_app in Hl. lia. }
    exists 0%nat, p. split; [done|]. destruct Hp as [q Hq]. destruct (decide (length p < 4)%nat); [by left|right].
    assert (Htk : take 4 p = PutUint32 (Z.of_nat (length b))).
    { rewrite <- (take_app_le p q 4) by lia. rewrite <- Hq. unfold frame. by rewrite take_app_length'. }
    rewrite Htk, Uint32_PutUint32 by lia. rewrite Nat2Z.id, length_drop.
    apply (f_equal length) in Hq. rewrite length_app, length_frame in Hq. rewrite length_frame in Hl. lia.
  - destruct (IH p' Hp) as (k & t & -> & Ht). exists (S k), t. split; [|done]. cbn [take].
    by rewrite fmap_cons, concat_cons, (assoc_L (++)).
Qed.

(** *** Refinement: the file is the list of its records. *)

Record file_rep (f : FileSpiller) (l : list T) : Prop := {
  f_bytes : ∃ bs, encodes l bs ∧ all_bytes f = concat (frame <$> bs);
  f_written : written f = Z.of_nat (length (all_bytes f));
  f_bound : written f ≤ maxBytes f;
  f_max : maxBytes f < 2 ^ 32;
  f_count : count f = Z.of_nat (length l) }.

Lemma file_Push_spec f l m : file_rep f l → match file_Push f m with
  | (true, f') => file_rep f' (l ++ [m]) ∧ maxBytes f' = maxBytes f
  | (false, f') => f' = f ∧ ∀ b, Encode m = Some b → maxBytes f < written f + 4 + Z.of_nat (length b)
  end.
Proof using.
  intros [(bs & [Henc Hlen] & Hall) Hw Hb Hm Hc]. unfold file_Push. destruct (Encode m) as [b|] eqn:He; [|done].
  destruct (Z.ltb_spec (maxBytes f) (written f + (4 + Z.of_nat (length b)))) as [Hx|Hx].
  { split; [done|]. intros b' [= <-]. lia. }
  set (hdr := PutUint32 (u32 (Z.of_nat (length b)))).
  assert (Hh : hdr ++ b = frame b) by (unfold hdr, frame, u32; rewrite Z.mod_small by lia; done).
  assert (Hall' : all_bytes (fWrite (fWrite f hdr) b) = concat (frame <$> bs ++ [b])).
  { rewrite !fWrite_bytes, Hall, fmap_app, concat_app. change (concat (frame <$> [b])) with (frame b ++ []).
    by rewrite app_nil_r, <- Hh, (assoc_L (++)). }
  assert (Hf : ∀ g p, maxBytes (fWrite g p) = maxBytes g ∧ written (fWrite g p) = written g ∧ count (fWrite g p) = count g).
  { intros g p. unfold fWrite. by destruct (bufio_Write 2 (disk g) (pending g) p). }
  destruct (Hf f hdr) as (Hm1 & Hw1 & Hc1). destruct (Hf (fWrite f hdr) b) as (Hm2 & Hw2 & Hc2).
  split; [|cbn; congruence].
  set (f' := mkFile _ _ _ _ _). assert (Hf' : all_bytes f' = concat (frame <$> bs ++ [b])) by exact Hall'.
  split; rewrite ?Hf'; cbn [maxBytes written count f'].
  - exists (bs ++ [b]). split; [|done]. split; [apply Forall2_app; [done|by repeat constructor]|].
    apply Forall_app. split; [done|]. apply Forall_cons. split; [lia|done].
  - rewrite fmap_app, concat_app, length_app, <- Hall.
    change (concat (frame <$> [b])) with (frame b ++ []). rewrite app_nil_r, length_frame. lia.
  - lia.
  - congruence.
  - rewrite length_app. simpl. lia.
Qed.

Lemma file_Drain_spec renamed f l : file_rep f l →
  maxBytes (file_Drain renamed f).2 = maxBytes f ∧
  (file_Drain renamed f).1 = (if renamed then l else []) ∧
  file_rep (file_Drain renamed f).2 (if renamed then [] else l).
Proof using Hcodec.
  intros [(bs & [Henc Hlen] & Hall) Hw Hb Hm Hc]. unfold file_Drain. destruct renamed; cbn; (split; [done|]).
  - split.
    + fold (all_bytes f). rewrite Hall. unfold decodeSpillFile. rewrite <- (app_nil_r (concat _)).
      apply decode_frames; [by split|apply torn_nil|done].
    + split; cbn; try done; [|lia]. exists []. by repeat split.
  - split; [done|]. split; unfold all_bytes; cbn; rewrite ?app_nil_r; fold (all_bytes f); try done; [|lia].
    exists bs. by repeat split.
Qed.

Lemma NewFileSpiller_rep m : m < 2 ^ 32 → file_rep (NewFileSpiller m []) [].
Proof using.
  intros Hm. unfold NewFileSpiller, open_. split; cbn; try done; [exists []; by repeat split|..]; zcases; lia.
Qed.
End file.

(** ** ChainedSpiller *)

Section chain.
Context {T : Type} (zero : T) (Encode : T → option bytes) (Decode : bytes → option T).

Record ChainedSpiller := mkChain { ring : option (@RingSpiller T); file : option FileSpiller }.

Definition chain_Push (c : ChainedSpiller) (msg : T) : bool * ChainedSpiller :=
  let to_file :=
    match file c with
    | Some f => let '(ok, f') := file_Push Encode f msg in (ok, mkChain (ring c) (Some f'))
    | None => (false, c)
    end in
  match ring c with
  | Some r => let '(ok, r') := PushNoOverwrite r msg in
      if ok then (true, mkChain (Some r') (file c)) else to_file
  | None => to_file
  end.

Definition chain_Drain (renamed : bool) (c : ChainedSpiller) : list T * ChainedSpiller :=
  let '(o1, r') := match ring c with Some r => let '(o, r') := ring_Drain zero r in (o, Some r') | None => ([], None) end in
  let '(o2, f') := match file c with Some f => let '(o, f') := file_Drain Decode renamed f in (o, Some f') | None => ([], None) end in
  (o1 ++ o2, mkChain r' f').

Definition chain_Len (c : ChainedSpiller) : Z :=
  match ring c with Some r => Z.of_nat (size r) | None => 0 end +
  match file c with Some f => file_Len f | None => 0 end.

Definition HasPersistent (c : ChainedSpiller) : bool := match file c with Some _ => true | None => false end.

(** A history of pushes and drains: the records accepted, the records drained. *)
Inductive op := OPush (msg : T) | ODrain (renamed : bool).

Fixpoint run (ops : list op) (acc out : list T) (c : ChainedSpiller) : list T * list T * ChainedSpiller :=
  match ops with
  | [] => (acc, out, c)
  | OPush m :: ops => let '(ok, c') := chain_Push c m in run ops (if ok then acc ++ [m] else acc) out c'
  | ODrain rn :: ops => let '(o, c') := chain_Drain rn c in run ops acc (out ++ o) c'
  end.

Definition ring_list (c : ChainedSpiller) : list T := match ring c with Some r => ring_contents zero r | None => [] end.

(** The chain holds the ring's records and the list [lf] in the file. *)
Record chain_rep (c : ChainedSpiller) (lf : list T) : Prop := {
  ch_ring : ∀ r, ring c = Some r → ring_wf r;
  ch_file : match file c with Some f => file_rep Encode f lf | None => lf = [] end }.

(** The file is used only while the ring is full. *)
Definition ring_first (c : ChainedSpiller) (lf : list T) : Prop :=
  lf = [] ∨ ∀ r, ring c = Some r → (capv r ≤ size r)%nat.

(** Whether a push may still find room in the ring. *)
Lemma chain_Push_spec c lf m : chain_rep c lf →
  match chain_Push c m with
  | (true, c') => ∃ lf', chain_rep c' lf' ∧ ring_list c' ++ lf' ≡ₚ (ring_list c ++ lf) ++ [m] ∧
      (ring_first c lf → ring_first c' lf' ∧ ring_list c' ++ lf' = (ring_list c ++ lf) ++ [m])
  | (false, c') => c' = c
  end.
Proof using.
  intros [Hr Hf].
  assert (Hto : (∀ r, ring c = Some r → (capv r ≤ size r)%nat) → match
    match file c with
    | Some f => let '(ok, f') := file_Push Encode f m in (ok, mkChain (ring c) (Some f'))
    | None => (false, c)
    end with
    | (true, c') => ∃ lf', chain_rep c' lf' ∧ ring_list c' ++ lf' ≡ₚ (ring_list c ++ lf) ++ [m] ∧
        (ring_first c lf → ring_first c' lf' ∧ ring_list c' ++ lf' = (ring_list c ++ lf) ++ [m])
    | (false, c') => c' = c end).
  { intros Hfull. destruct (file c) as [f|] eqn:Hfc; [|done]. pose proof (file_Push_spec Encode f lf m Hf) as Hp.
    destruct (file_Push Encode f m) as [[] f'].
    - destruct Hp as [Hp _]. exists (lf ++ [m]). unfold ring_list. cbn [ring]. rewrite (assoc_L (++)).
      split; [by split|]. split; [done|]. intros _. split; [by right|done].
    - destruct Hp as [-> _]. destruct c. cbn in *. by rewrite Hfc. }
  unfold chain_Push. destruct (ring c) as [r|] eqn:Hrc; [|by apply Hto].
  unfold PushNoOverwrite. destruct (Nat.leb_spec (capv r) (size r)) as [Hfull|Hroom].
  { apply Hto. by intros r' [= <-]. }
  destruct (ring_write_spec zero r m (Hr r eq_refl) Hroom) as [Hwf Hc]. exists lf. unfold ring_list. cbn [ring]. rewrite Hrc, Hc.
  split; [split; cbn; [by intros r' [= <-]|done]|]. split; [by rewrite <- !(assoc_L (++)), (Permutation_app_comm [m])|].
  intros [->|Hx]; [|specialize (Hx r Hrc); lia]. split; [by left|]. by rewrite !app_nil_r.
Qed.

Context (Hcodec : ∀ m b, Encode m = Some b → Decode b = Some m).

Lemma chain_Drain_spec renamed c lf : chain_rep c lf →
  let '(o, c') := chain_Drain renamed c in
  o = ring_list c ++ (if renamed then lf else []) ∧ ring_list c' = [] ∧
  chain_rep c' (if renamed then [] else lf).
Proof using Hcodec.
  intros [Hr Hf]. unfold chain_Drain, ring_list. destruct (ring c) as [r|].
  - destruct (ring_Drain_spec zero r (Hr r eq_refl)) as (Ho & Hwf & _ & Hz). destruct (ring_Drain zero r) as [o1 r'].
    cbn [fst snd] in *. subst o1. destruct (file c) as [f|].
    + destruct (file_Drain_spec Encode Decode Hcodec renamed f lf Hf) as (_ & Ho2 & Hf'). destruct (file_Drain Decode renamed f) as [o2 f'].
      cbn [fst snd] in *. subst o2. split; [done|]. split; [by apply ring_contents_nil|]. split; cbn; [by intros ? [= <-]|done].
    + subst lf. split; [by destruct renamed|]. split; [by apply ring_contents_nil|].
      split; cbn; [by intros ? [= <-]|by destruct renamed].
  - destruct (file c) as [f|].
    + destruct (file_Drain_spec Encode Decode Hcodec renamed f lf Hf) as (_ & Ho2 & Hf'). destruct (file_Drain Decode renamed f) as [o2 f'].
      cbn [fst snd] in *. subst o2. split; [done|]. split; [done|]. by split.
    + subst lf. destruct renamed; (split; [done|split; [done|by split]]).
Qed.

Lemma chain_Len_spec c lf : chain_rep c lf → chain_Len c = Z.of_nat (length (ring_list c ++ lf)).
Proof using.
  intros [Hr Hf]. unfold chain_Len, ring_list, file_Len. rewrite length_app.
  destruct (ring c) as [r|]; rewrite ?length_ring_contents; destruct (file c) as [f|];
    try (rewrite (f_count _ _ _ Hf)); subst; simpl; lia.
Qed.

Lemma run_spec ops acc out c lf : chain_rep c lf → out ++ ring_list c ++ lf ≡ₚ acc →
  let '(acc', out', c') := run ops acc out c in
  ∃ lf', chain_rep c' lf' ∧ out' ++ ring_list c' ++ lf' ≡ₚ acc' ∧
    (ring_first c lf → out ++ ring_list c ++ lf = acc → Forall (λ o, o ≠ ODrain false) ops →
     ring_first c' lf' ∧ out' ++ ring_list c' ++ lf' = acc').
Proof using Hcodec.
  revert acc out c lf. induction ops as [|[m|rn] ops IH]; intros acc out c lf Hrep Hacc; cbn [run].
  { exists lf. auto. }
  - pose proof (chain_Push_spec c lf m Hrep) as Hp. destruct (chain_Push c m) as [[] c1].
    + destruct Hp as (lf1 & Hrep1 & Hperm & Hord). specialize (IH (acc ++ [m]) out c1 lf1 Hrep1).
      destruct (run ops (acc ++ [m]) out c1) as [[acc' out'] c'].
      destruct IH as (lf' & ? & ? & Hfifo); [by rewrite Hperm, (assoc_L (++)), Hacc|]. exists lf'. split; [done|]. split; [done|].
      intros Hfirst <- [_ Hops]%Forall_cons. destruct (Hord Hfirst) as [Hf1 Heq].
      apply Hfifo; [done|by rewrite Heq, !(assoc_L (++))|done].
    + subst c1. specialize (IH acc out c lf Hrep Hacc). destruct (run ops acc out c) as [[acc' out'] c'].
      destruct IH as (lf' & ? & ? & Hfifo). exists lf'. split; [done|]. split; [done|].
      intros ? ? [_ Hops]%Forall_cons. by apply Hfifo.
  - pose proof (chain_Drain_spec rn c lf Hrep) as Hd. destruct (chain_Drain rn c) as [o c1].
    destruct Hd as (-> & Hnil & Hrep1). specialize (IH acc (out ++ ring_list c ++ (if rn then lf else [])) c1 _ Hrep1).
    destruct (run ops acc _ c1) as [[acc' out'] c']. destruct IH as (lf' & ? & ? & Hfifo).
    { rewrite Hnil, <- Hacc. destruct rn; rewrite ?app_nil_r; simpl; by rewrite <- ?(assoc_L (++)). }
    exists lf'. split; [done|]. split; [done|]. intros Hfirst <- [Hrn Hops]%Forall_cons. destruct rn; [|done].
    apply Hfifo; [by left|by rewrite Hnil, app_nil_r|done].
Qed.
End chain.

(** ** Theorems *)

#[local] Notation codec_law Encode Decode := (∀ m b, Encode m = Some b → Decode b = Some m).

(** For any codec that decodes what it encodes, a chain built on an empty directory,
    and any history of pushes and drains: the records drained so far followed by those
    still stored are the accepted ones, none lost, doubled or made up, and exactly in
    the order of acceptance when no rename of the spill file failed; Len counts the
    stored ones, the next Drain returns them, and neither store exceeds its bound. *)
Theorem chain_drain_exact {T} (zero : T) Encode Decode cap m ops acc out c :
  codec_law Encode Decode → m < 2 ^ 32 →
  run zero Encode Decode ops [] [] (mkChain (Some (NewRingSpiller zero cap)) (Some (NewFileSpiller m []))) = (acc, out, c) →
  let rest := (chain_Drain zero Decode true c).1 in
  out ++ rest ≡ₚ acc ∧
  (Forall (λ o, o ≠ ODrain false) ops → out ++ rest = acc) ∧
  chain_Len c = Z.of_nat (length rest) ∧
  (∀ r, ring c = Some r → (size r ≤ capv r)%nat) ∧
  (∀ f, file c = Some f → Z.of_nat (length (disk f ++ pending f)) ≤ maxBytes f).
Proof.
  intros Hcodec Hm Hrun. destruct (NewRingSpiller_spec zero cap) as (Hwf & Hnil & _).
  set (c0 := mkChain _ _) in Hrun. assert (Hrep : chain_rep Encode c0 []).
  { split; cbn; [by intros r [= <-]|]. by apply NewFileSpiller_rep. }
  assert (Hl0 : ring_list zero c0 = []) by exact Hnil.
  pose proof (run_spec zero Encode Decode Hcodec ops [] [] c0 [] Hrep) as Hs. rewrite Hrun, Hl0 in Hs.
  destruct (Hs ltac:(done)) as (lf & Hrep' & Hperm & Hfifo).
  pose proof (chain_Drain_spec zero Encode Decode Hcodec true c lf Hrep') as Hd.
  destruct (chain_Drain zero Decode true c) as [o c'] eqn:Hdr. destruct Hd as (-> & _). cbn [fst].
  pose proof (chain_Len_spec zero Encode c lf Hrep') as Hlen. destruct Hrep' as [Hr Hf].
  split_and!; [done|intros Hops; apply Hfifo; [by left|done|done]|done|intros r Hrc; by apply Hr|].
  intros f Hfc. rewrite Hfc in Hf. fold (all_bytes f). rewrite <- (f_written _ _ _ Hf). apply Hf.
Qed.

(** Records that are their own bytes. *)
Definition plain (b : bytes) : option bytes := Some b.

Lemma chain_drain_exact_witness :
  run [] plain plain [OPush [1]; OPush [2; 2]; OPush [3]; ODrain true; OPush [4]] [] []
    (mkChain (Some (NewRingSpiller [] 1)) (Some (NewFileSpiller 11 []))) =
    ([[1]; [2; 2]; [3]; [4]], [[1]; [2; 2]; [3]],
     mkChain (Some (mkRing [[4]] 0 1 1)) (Some (mkFile 11 [] [] 0 0))) ∧
  [[1]; [2; 2]; [3]] ++ (chain_Drain [] plain true (mkChain (Some (mkRing [[4]] 0 1 1)) (Some (mkFile 11 [] [] 0 0)))).1
    ≡ₚ [[1]; [2; 2]; [3]; [4]].
Proof.
  split; [vm_compute; reflexivity|].
  apply (chain_drain_exact [] plain plain 1 11 [OPush [1]; OPush [2; 2]; OPush [3]; ODrain true; OPush [4]]);
    [by intros m b [= <-]|lia|vm_compute; reflexivity].
Defined.

(** Pushes to a file spiller: the records accepted. *)
Fixpoint pushes {T} (Encode : T → option bytes) (msgs acc : list T) (f : FileSpiller) : list T * FileSpiller :=
  match msgs with
  | [] => (acc, f)
  | m :: msgs => let '(ok, f') := file_Push Encode f m in pushes Encode msgs (if ok then acc ++ [m] else acc) f'
  end.

Lemma pushes_rep {T} (Encode : T → option bytes) msgs acc f : file_rep Encode f acc →
  file_rep Encode (pushes Encode msgs acc f).2 (pushes Encode msgs acc f).1.
Proof.
  revert acc f. induction msgs as [|m msgs IH]; intros acc f Hf; cbn [pushes]; [done|].
  pose proof (file_Push_spec Encode f acc m Hf) as Hp. destruct (file_Push Encode f m) as [[] f'].
  - apply IH, Hp.
  - destruct Hp as [-> _]. by apply IH.
Qed.

(** Whenever a process that spills to a file dies, recovery reads back a prefix of
    the accepted records: a record torn by the crash is dropped, none is altered,
    reordered or invented. *)
Theorem spill_crash_prefix {T} Encode Decode m (msgs : list T) : codec_law Encode Decode → m < 2 ^ 32 →
  let '(acc, f) := pushes Encode msgs [] (NewFileSpiller m []) in
  DrainFileRecover Decode (Some (disk f)) true `prefix_of` acc.
Proof.
  intros Hcodec Hm. pose proof (pushes_rep Encode msgs [] _ (NewFileSpiller_rep Encode m Hm)) as Hrep.
  destruct (pushes Encode msgs [] (NewFileSpiller m [])) as [acc f]. cbn [fst snd] in Hrep.
  destruct Hrep as [(bs & [Henc Hlen] & Hall) _ _ _ _].
  destruct (prefix_frames bs (disk f) Hlen) as (k & t & Hd & Ht); [rewrite <- Hall; by exists (pending f)|].
  unfold DrainFileRecover, decodeSpillFile. rewrite Hd, (decode_frames Encode Decode Hcodec _ (take k acc)); [|split|done|done].
  - apply prefix_take.
  - by apply Forall2_take.
  - by apply Forall_take.
Qed.

Lemma spill_crash_prefix_witness : DrainFileRecover plain (Some (disk (pushes plain [[1]; [2]] [] (NewFileSpiller 64 [])).2)) true
  `prefix_of` [[1]; [2]].
Proof. apply (spill_crash_prefix plain plain 64 [[1]; [2]]); [by intros m b [= <-]|lia]. Defined.

(** [Push] leaves the record in the writer's buffer: the file on disk is still empty,
    and recovery after a crash finds nothing. *)
Example spill_buffered_lost :
  (pushes plain [[1]; [2]] [] (NewFileSpiller 64 [])).1 = [[1]; [2]] ∧
  DrainFileRecover plain (Some (disk (pushes plain [[1]; [2]] [] (NewFileSpiller 64 [])).2)) true = [].
Proof. vm_compute. by split. Qed.

(** A spiller opened on the file of an earlier process holds its records but counts
    none of them. *)
Example spill_reopened_len :
  let f := NewFileSpiller 64 (frame [1]) in file_Len f = 0 ∧ (file_Drain plain true f).1 = [[1]].
Proof. vm_compute. by split. Qed.

(** A ring that is only pushed to and then drained returns the newest records, as
    many as its capacity, oldest first. *)
Theorem ring_spiller_refines {T} (zero : T) cap msgs :
  (ring_Drain zero (foldl ring_Push (NewRingSpiller zero cap) msgs)).1 =
    drop (length msgs - Z.to_nat (if cap <? 1 then 1024 else cap)) msgs.
Proof.
  destruct (NewRingSpiller_spec zero cap) as (Hwf & Hnil & Hcap). rewrite <- Hcap, Nat2Z.id. clear Hcap.
  set (r := NewRingSpiller zero cap) in *.
  assert (Hgen : ∀ l, ring_wf (foldl ring_Push r l) ∧ capv (foldl ring_Push r l) = capv r ∧
    ring_contents zero (foldl ring_Push r l) = drop (length l - capv r) l).
  { induction l as [|x l (Hw & Hc & Hv)] using rev_ind; [done|]. rewrite foldl_app. cbn [foldl].
    destruct (ring_Push_spec zero _ x Hw) as (Hw' & Hc' & ->). split_and!; [done|congruence|].
    pose proof (length_ring_contents zero (foldl ring_Push r l)) as Hlen. rewrite Hv, length_drop in Hlen.
    pose proof (r_size _ Hw). pose proof (r_cap _ Hw). rewrite Hv, Hc in *. rewrite length_app. cbn [length].
    destruct (Nat.ltb_spec (size (foldl ring_Push r l)) (capv r)).
    - rewrite !drop_app_le by lia. f_equal. f_equal. lia.
    - rewrite drop_drop, drop_app_le by lia. f_equal. f_equal. lia. }
  destruct (Hgen msgs) as (Hw & Hc & <-). by apply ring_Drain_spec.
Qed.
