(* ===== verification/Adaptive.v ===== *)
(** * Adaptive: the CPU-aware worker pool of [adaptive/adaptive.go]

    Workers take jobs from a channel; an autoscaler samples the CPU through a
    monitor and adds a worker or tells one to stop; [Close] stops the autoscaler
    and the workers and then drains the queue itself, under a lock that
    submitters hold while they test [closed] and send.  The monitor's answers are
    arbitrary.  Every channel, lock and atomic operation is a step.

    Shown: jobs start in the order of acceptance, once each, and the number of
    live workers never exceeds the maximum ([adaptive_jobs]); once a [Close] has
    returned every accepted job has been run, whatever the submitters did
    meanwhile ([adaptive_close_runs_all]).  [adaptive_below_min]: the autoscaler
    counts workers it has already told to stop, and stops more than it should. *)

From Stdlib Require Import ZArith Lia.
From stdpp Require Import base tactics numbers list relations.
From S2P Require Import Prelude.

#[local] Open Scope Z_scope.

(** The configuration [New] checks; CPU fractions are left to the monitor. *)
Record Config := mkConfig { minWorkers : Z; maxWorkers : Z; queueSize : nat }.

Inductive Error := ErrNilWork | ErrMinWorkers | ErrMaxWorkers | ErrTargetCPU | ErrSampleInterval.

(** [target_ok] is [!(TargetCPU <= 0 || TargetCPU >= 1)]. *)
Definition New (min max : Z) (target_ok : bool) (interval size : Z) (nil_work : bool) : result Error Config :=
  if nil_work then Err ErrNilWork
  else if min <? 1 then Err ErrMinWorkers
  else if max <? min then Err ErrMaxWorkers
  else if negb target_ok then Err ErrTargetCPU
  else if interval <=? 0 then Err ErrSampleInterval
  else Ok (mkConfig min max (Z.to_nat (if size <=? 0 then max else size))).

(** Where a worker is; [drain] is true inside [drainQueue]. *)
Inductive wpc :=
| Ready (drain : bool)
| Running (drain : bool) (job : nat)
| Leaving            (** returned, [p.workers.Add(-1)] is next *)
| Gone.

Record worker := mkWorker { stopped : bool; pc : wpc }.

(** What the monitor reported: the fraction above or below the target, neither, or an
    error. *)
Inductive verdict := Over | Under | Level | Failed.

Inductive spc :=
| Tick                          (** [select] on [done] and the ticker *)
| Sampled (v : verdict)         (** [done] is tested again *)
| Decide (v : verdict) (cur : Z)  (** [p.workers] was [cur] *)
| ScalerGone.

(** A caller of [Submit] or [TrySubmit] that holds the read lock. *)
Record submitter (J : Type) := mkSub { blocking : bool; checked : bool; sjob : J }.
Arguments mkSub {J}.
Arguments blocking {J}.
Arguments checked {J}.
Arguments sjob {J}.

Section pool.
Context {J : Type} (cfg : Config).

(** [waiting], [locking]: callers of [Close] in the two [Wait]s and before [mu.Lock];
    [writer]: the one that holds the lock, with the job it is running. *)
Record sys := mkSys {
  queue : list J; closed : bool; done_ : bool; workers : list worker; stopChs : list nat; count : Z;
  scaler : spc; readers : list (submitter J); waiting : nat; locking : nat; writer : option (option nat);
  returned : bool; accepted : list J; started : list J; finished : list nat; recovered : Z }.

Definition bump (panics : bool) (re : Z) : Z := if panics then u64 (re + 1) else re.

(** [grow(1)]: the new worker's stop channel is the last one. *)
Definition grow (ws : list worker) (chs : list nat) (n : Z) : list worker * list nat * Z :=
  if maxWorkers cfg <=? n then (ws, chs, n)
  else (ws ++ [mkWorker false (Ready false)], chs ++ [length ws], n + 1).

Fixpoint grow_n (k : nat) (ws : list worker) (chs : list nat) (n : Z) : list worker * list nat * Z :=
  match k with
  | O => (ws, chs, n)
  | S k => let '(ws, chs, n') := grow ws chs n in grow_n k ws chs n'
  end.

(** [shrink]: the last stop channel is closed. *)
Definition shrink (ws : list worker) (chs : list nat) : list worker * list nat :=
  match last chs with
  | None => (ws, chs)
  | Some i => (alter (λ w, mkWorker true (pc w)) i ws, take (length chs - 1) chs)
  end.

Definition init : sys :=
  let '(ws, chs, n) := grow_n (Z.to_nat (minWorkers cfg)) [] [] 0 in
  mkSys [] false false ws chs n Tick [] 0 0 None false [] [] [] 0.

Definition set_pc (i : nat) (p : wpc) (ws : list worker) : list worker := alter (λ w, mkWorker (stopped w) p) i ws.

(** [worker], [drainQueue] and [safeWork]. *)
Inductive worker_step : sys → sys → Prop :=
| w_take j q c d ws ch n sc rd wa lo wr rt ac st fi re i b dr : ws !! i = Some (mkWorker b (Ready dr)) →
    worker_step (mkSys (j :: q) c d ws ch n sc rd wa lo wr rt ac st fi re)
      (mkSys q c d (set_pc i (Running dr (length st)) ws) ch n sc rd wa lo wr rt ac (st ++ [j]) fi re)
| w_ran q c d ws ch n sc rd wa lo wr rt ac st fi re i b dr k (panics : bool) : ws !! i = Some (mkWorker b (Running dr k)) →
    worker_step (mkSys q c d ws ch n sc rd wa lo wr rt ac st fi re)
      (mkSys q c d (set_pc i (Ready dr) ws) ch n sc rd wa lo wr rt ac st (k :: fi) (bump panics re))
| w_done q c ws ch n sc rd wa lo wr rt ac st fi re i b : ws !! i = Some (mkWorker b (Ready false)) →
    worker_step (mkSys q c true ws ch n sc rd wa lo wr rt ac st fi re)
      (mkSys q c true (set_pc i (Ready true) ws) ch n sc rd wa lo wr rt ac st fi re)
| w_stop q c d ws ch n sc rd wa lo wr rt ac st fi re i : ws !! i = Some (mkWorker true (Ready false)) →
    worker_step (mkSys q c d ws ch n sc rd wa lo wr rt ac st fi re)
      (mkSys q c d (set_pc i Leaving ws) ch n sc rd wa lo wr rt ac st fi re)
| w_drained c d ws ch n sc rd wa lo wr rt ac st fi re i b : ws !! i = Some (mkWorker b (Ready true)) →
    worker_step (mkSys [] c d ws ch n sc rd wa lo wr rt ac st fi re)
      (mkSys [] c d (set_pc i Leaving ws) ch n sc rd wa lo wr rt ac st fi re)
| w_gone q c d ws ch n sc rd wa lo wr rt ac st fi re i b : ws !! i = Some (mkWorker b Leaving) →
    worker_step (mkSys q c d ws ch n sc rd wa lo wr rt ac st fi re)
      (mkSys q c d (set_pc i Gone ws) ch (n - 1) sc rd wa lo wr rt ac st fi re).

(** [autoscale]. *)
Inductive scaler_step : sys → sys → Prop :=
| sc_exit q c ws ch n sc rd wa lo wr rt ac st fi re : (sc = Tick ∨ ∃ v, sc = Sampled v ∧ v ≠ Failed) →
    scaler_step (mkSys q c true ws ch n sc rd wa lo wr rt ac st fi re)
      (mkSys q c true ws ch n ScalerGone rd wa lo wr rt ac st fi re)
| sc_sample q c d ws ch n rd wa lo wr rt ac st fi re v :
    scaler_step (mkSys q c d ws ch n Tick rd wa lo wr rt ac st fi re)
      (mkSys q c d ws ch n (Sampled v) rd wa lo wr rt ac st fi re)
| sc_failed q c d ws ch n rd wa lo wr rt ac st fi re :
    scaler_step (mkSys q c d ws ch n (Sampled Failed) rd wa lo wr rt ac st fi re)
      (mkSys q c d ws ch n Tick rd wa lo wr rt ac st fi re)
| sc_load q c ws ch n rd wa lo wr rt ac st fi re v : v ≠ Failed →
    scaler_step (mkSys q c false ws ch n (Sampled v) rd wa lo wr rt ac st fi re)
      (mkSys q c false ws ch n (Decide v n) rd wa lo wr rt ac st fi re)
| sc_shrink q c d ws ch n cur rd wa lo wr rt ac st fi re ws' ch' :
    (if minWorkers cfg <? cur then shrink ws ch else (ws, ch)) = (ws', ch') →
    scaler_step (mkSys q c d ws ch n (Decide Over cur) rd wa lo wr rt ac st fi re)
      (mkSys q c d ws' ch' n Tick rd wa lo wr rt ac st fi re)
| sc_grow q c d ws ch n cur rd wa lo wr rt ac st fi re ws' ch' n' :
    (if (cur <? maxWorkers cfg) && negb (bool_decide (q = [])) then grow ws ch n else (ws, ch, n)) = (ws', ch', n') →
    scaler_step (mkSys q c d ws ch n (Decide Under cur) rd wa lo wr rt ac st fi re)
      (mkSys q c d ws' ch' n' Tick rd wa lo wr rt ac st fi re)
| sc_hold q c d ws ch n cur rd wa lo wr rt ac st fi re :
    scaler_step (mkSys q c d ws ch n (Decide Level cur) rd wa lo wr rt ac st fi re)
      (mkSys q c d ws ch n Tick rd wa lo wr rt ac st fi re).

(** [Submit] and [TrySubmit]: [RLock] waits for a writer that holds or awaits the
    lock. *)
Inductive submit_step : sys → sys → Prop :=
| s_rlock q c d ws ch n sc rd wa rt ac st fi re b j :
    submit_step (mkSys q c d ws ch n sc rd wa 0 None rt ac st fi re)
      (mkSys q c d ws ch n sc (mkSub b false j :: rd) wa 0 None rt ac st fi re)
| s_check q c d ws ch n sc r1 b j r2 wa lo wr rt ac st fi re :
    submit_step (mkSys q c d ws ch n sc (r1 ++ mkSub b false j :: r2) wa lo wr rt ac st fi re)
      (mkSys q c d ws ch n sc (if c then r1 ++ r2 else r1 ++ mkSub b true j :: r2) wa lo wr rt ac st fi re)
| s_send q c d ws ch n sc r1 b j r2 wa lo wr rt ac st fi re : (length q < queueSize cfg)%nat →
    submit_step (mkSys q c d ws ch n sc (r1 ++ mkSub b true j :: r2) wa lo wr rt ac st fi re)
      (mkSys (q ++ [j]) c d ws ch n sc (r1 ++ r2) wa lo wr rt (ac ++ [j]) st fi re)
| s_closed q c ws ch n sc r1 b j r2 wa lo wr rt ac st fi re :
    submit_step (mkSys q c true ws ch n sc (r1 ++ mkSub b true j :: r2) wa lo wr rt ac st fi re)
      (mkSys q c true ws ch n sc (r1 ++ r2) wa lo wr rt ac st fi re)
| s_cancelled q c d ws ch n sc r1 j r2 wa lo wr rt ac st fi re :
    submit_step (mkSys q c d ws ch n sc (r1 ++ mkSub true true j :: r2) wa lo wr rt ac st fi re)
      (mkSys q c d ws ch n sc (r1 ++ r2) wa lo wr rt ac st fi re)
| s_full q c d ws ch n sc r1 j r2 wa lo wr rt ac st fi re : (queueSize cfg ≤ length q)%nat →
    submit_step (mkSys q c d ws ch n sc (r1 ++ mkSub false true j :: r2) wa lo wr rt ac st fi re)
      (mkSys q c d ws ch n sc (r1 ++ r2) wa lo wr rt ac st fi re).

(** [Close]: the once, the two waits, the lock, the drain, the return. *)
Inductive close_step : sys → sys → Prop :=
| c_store q d ws ch n sc rd wa lo wr rt ac st fi re :
    close_step (mkSys q false d ws ch n sc rd wa lo wr rt ac st fi re)
      (mkSys q true d ws ch n sc rd wa lo wr rt ac st fi re)
| c_signal q d ws ch n sc rd wa lo wr rt ac st fi re :
    close_step (mkSys q true d ws ch n sc rd wa lo wr rt ac st fi re)
      (mkSys q true true ws ch n sc rd (S wa) lo wr rt ac st fi re)
| c_waited q c d ws ch n rd wa lo wr rt ac st fi re : Forall (λ w, pc w = Gone) ws →
    close_step (mkSys q c d ws ch n ScalerGone rd (S wa) lo wr rt ac st fi re)
      (mkSys q c d ws ch n ScalerGone rd wa (S lo) wr rt ac st fi re)
| c_lock q c d ws ch n sc wa lo rt ac st fi re :
    close_step (mkSys q c d ws ch n sc [] wa (S lo) None rt ac st fi re)
      (mkSys q c d ws ch n sc [] wa lo (Some None) rt ac st fi re)
| c_take j q c d ws ch n sc rd wa lo rt ac st fi re :
    close_step (mkSys (j :: q) c d ws ch n sc rd wa lo (Some None) rt ac st fi re)
      (mkSys q c d ws ch n sc rd wa lo (Some (Some (length st))) rt ac (st ++ [j]) fi re)
| c_ran q c d ws ch n sc rd wa lo k rt ac st fi re (panics : bool) :
    close_step (mkSys q c d ws ch n sc rd wa lo (Some (Some k)) rt ac st fi re)
      (mkSys q c d ws ch n sc rd wa lo (Some None) rt ac st (k :: fi) (bump panics re))
| c_return c d ws ch n sc rd wa lo rt ac st fi re :
    close_step (mkSys [] c d ws ch n sc rd wa lo (Some None) rt ac st fi re)
      (mkSys [] c d ws ch n sc rd wa lo None true ac st fi re).

Definition step (s s' : sys) : Prop :=
  worker_step s s' ∨ scaler_step s s' ∨ submit_step s s' ∨ close_step s s'.
Definition reachable (s : sys) : Prop := rtc step init s.

(** ** Invariant *)

Definition job_of (p : wpc) : list nat := match p with Running _ k => [k] | _ => [] end.
Definition live (p : wpc) : list unit := match p with Gone => [] | _ => [()] end.
Definition wjob (w : option (option nat)) : list nat := match w with Some (Some k) => [k] | _ => [] end.

Definition pcs (ws : list worker) : list wpc := pc <$> ws.
Definition running (ws : list worker) : list nat := pcs ws ≫= job_of.
Definition alive (ws : list worker) : Z := Z.of_nat (length (pcs ws ≫= live)).

Lemma pcs_set_pc i p ws : pcs (set_pc i p ws) = <[i := p]> (pcs ws).
Proof using.
  unfold pcs, set_pc. revert i. induction ws as [|w ws IH]; intros [|i]; csimpl; [done..|]. by rewrite IH.
Qed.

Lemma pcs_shrink ws ch : pcs (shrink ws ch).1 = pcs ws.
Proof using.
  unfold shrink, pcs. destruct (last ch) as [i|]; [|done]. cbn. revert i.
  induction ws as [|w ws IH]; intros [|i]; csimpl; [done..|]. by rewrite IH.
Qed.

(** A worker's program counter moves. *)
Lemma set_pc_spec ws i b p p' : ws !! i = Some (mkWorker b p) →
  job_of p ++ running (set_pc i p' ws) ≡ₚ job_of p' ++ running ws ∧
  Z.of_nat (length (live p)) + alive (set_pc i p' ws) = Z.of_nat (length (live p')) + alive ws.
Proof using.
  intros Hi. assert (Hp : pcs ws !! i = Some p) by (unfold pcs; by rewrite list_lookup_fmap, Hi).
  unfold running, alive. rewrite pcs_set_pc. split; [by apply bind_insert_perm|].
  pose proof (bind_insert_perm live _ i p p' Hp) as Hl. apply Permutation_length in Hl. rewrite !length_app in Hl. lia.
Qed.

Lemma grow_one_spec ws ch n : n = alive ws → n ≤ maxWorkers cfg →
  let '(ws', _, n') := grow ws ch n in
  n' = alive ws' ∧ n' ≤ maxWorkers cfg ∧ running ws' = running ws ∧ Forall (λ w, pc w = Ready false ∨ w ∈ ws) ws'.
Proof using.
  intros -> Hm. unfold grow. destruct (Z.leb_spec (maxWorkers cfg) (alive ws)).
  - split_and!; try done. apply Forall_forall. auto.
  - unfold alive, running, pcs. rewrite fmap_app, !bind_app, !length_app. csimpl. rewrite app_nil_r.
    split_and!; [lia|unfold alive, pcs in *; lia|done|]. apply Forall_app. split; [apply Forall_forall; auto|by repeat constructor; left].
Qed.

Lemma grow_n_spec k ws ch n : n = alive ws → n ≤ maxWorkers cfg → running ws = [] →
  let '(ws', _, n') := grow_n k ws ch n in n' = alive ws' ∧ n' ≤ maxWorkers cfg ∧ running ws' = [].
Proof using.
  revert ws ch n. induction k as [|k IH]; intros ws ch n Hn Hm Hr; [done|]. cbn [grow_n].
  pose proof (grow_one_spec ws ch n Hn Hm) as Hg. destruct (grow ws ch n) as [[ws' ch'] n'].
  destruct Hg as (? & ? & ? & _). apply IH; congruence || done.
Qed.

Record ainv (s : sys) : Prop := {
  a_fifo : accepted s = started s ++ queue s;
  a_once : finished s ++ running (workers s) ++ wjob (writer s) ≡ₚ seq 0 (length (started s));
  a_count : count s = alive (workers s) ∧ count s ≤ maxWorkers cfg;
  a_done : done_ s = true → closed s = true;
  a_exit : (0 < locking s)%nat ∨ writer s ≠ None ∨ returned s = true →
    done_ s = true ∧ scaler s = ScalerGone ∧ Forall (λ w, pc w = Gone) (workers s);
  a_wait : (0 < waiting s)%nat → done_ s = true;
  a_lock : writer s ≠ None → readers s = [];
  a_ret : returned s = true → queue s = [] ∧ Forall (λ r, checked r = false) (readers s) }.

Lemma no_Gone_set ws i b p : ws !! i = Some (mkWorker b p) → p ≠ Gone → ¬ Forall (λ w, pc w = Gone) ws.
Proof using. intros Hi Hp Hall. rewrite Forall_forall in Hall. apply Hp, (Hall _ (list_elem_of_lookup_2 _ _ _ Hi)). Qed.

Lemma worker_ainv s s' : ainv s → worker_step s s' → ainv s'.
Proof using.
  intros [Hf Ho [Hc Hm] Hd He Hw Hl Hr] Hstep. destruct Hstep as
    [j q c d ws ch n sc rd wa lo wr rt ac st fi re i b dr Hi|q c d ws ch n sc rd wa lo wr rt ac st fi re i b dr k pn Hi
    |q c ws ch n sc rd wa lo wr rt ac st fi re i b Hi|q c d ws ch n sc rd wa lo wr rt ac st fi re i Hi
    |c d ws ch n sc rd wa lo wr rt ac st fi re i b Hi|q c d ws ch n sc rd wa lo wr rt ac st fi re i b Hi];
    cbn [accepted started queue finished workers writer count done_ closed locking returned scaler waiting readers] in *;
    match goal with |- context [set_pc i ?p ws] => destruct (set_pc_spec ws i _ _ p Hi) as [Hp Hlv] end;
    (assert (Hng : ¬ ((0 < lo)%nat ∨ wr ≠ None ∨ rt = true)) by
      (intros Hx; destruct (He Hx) as (_ & _ & Hall); by apply (no_Gone_set _ _ _ _ Hi) in Hall));
    assert (Hwr : wr = None) by (destruct wr; [destruct Hng; right; by left|done]);
    assert (Hrt : rt = false) by (destruct rt; [destruct Hng; right; by right|done]); subst wr rt;
    simpl in Hp, Hlv; (split; cbn [accepted started queue finished workers writer count done_ closed locking returned scaler waiting readers wjob] in *;
      try done; try (by intros Hx; destruct Hng); try lia).
  - by rewrite Hf, <- (assoc_L (++)).
  - rewrite Hp, length_app. simpl. rewrite Nat.add_1_r, seq_S, <- Ho. simpl. rewrite app_nil_r.
    by rewrite <- Permutation_middle, <- Permutation_cons_append.
  - rewrite <- Ho, <- Hp. simpl. by rewrite <- Permutation_middle.
  - by rewrite Hp.
  - by rewrite Hp.
  - by rewrite Hp.
  - by rewrite Hp.
Qed.

Lemma scaler_ainv s s' : ainv s → scaler_step s s' → ainv s'.
Proof using.
  intros [Hf Ho [Hc Hm] Hd He Hw Hl Hr] Hstep. destruct Hstep; cbn -[running alive] in *; split; cbn -[running alive]; try done;
    try (by intros Hx; destruct (He Hx) as (_ & ? & _)).
  - intros Hx. destruct (He Hx) as (? & ? & ?). by destruct sc.
  - destruct (minWorkers cfg <? cur); simplify_eq; [|done]. unfold running. pose proof (pcs_shrink ws ch) as Hs.
    rewrite H in Hs. cbn [fst] in Hs. by rewrite Hs.
  - destruct (minWorkers cfg <? cur); simplify_eq; [|done]. unfold alive. pose proof (pcs_shrink ws ch) as Hs.
    rewrite H in Hs. cbn [fst] in Hs. by rewrite Hs.
  - destruct ((cur <? maxWorkers cfg) && negb (bool_decide (q = []))); simplify_eq; [|done].
    pose proof (grow_one_spec ws ch _ eq_refl Hm) as Hg. rewrite H in Hg. by destruct Hg as (_ & _ & -> & _).
  - destruct ((cur <? maxWorkers cfg) && negb (bool_decide (q = []))); simplify_eq; [|done].
    pose proof (grow_one_spec ws ch _ eq_refl Hm) as Hg. rewrite H in Hg. by destruct Hg as (? & ? & _).
Qed.

Lemma submit_ainv s s' : ainv s → submit_step s s' → ainv s'.
Proof using.
  intros [Hf Ho [Hc Hm] Hd He Hw Hl Hr] Hstep. destruct Hstep; cbn -[running alive] in *; split; cbn -[running alive]; try done;
    try (by intros Hx; specialize (Hl Hx); destruct r1);
    try (intros Hx; destruct (Hr Hx) as [Hq Hrd]; apply Forall_app in Hrd as [? [? ?]%Forall_cons]).
  - intros Hx. destruct (Hr Hx). split; [done|]. by constructor.
  - split; [done|]. destruct (He ltac:(by right; right)) as [Hdt _]. rewrite (Hd Hdt). by apply Forall_app.
  - by rewrite Hf, (assoc_L (++)).
  - done.
  - split; [done|]. by apply Forall_app.
  - split; [done|]. by apply Forall_app.
  - split; [done|]. by apply Forall_app.
Qed.

Lemma close_ainv s s' : ainv s → close_step s s' → ainv s'.
Proof using.
  intros [Hf Ho [Hc Hm] Hd He Hw Hl Hr] Hstep. destruct Hstep; cbn -[running alive] in *; split; cbn -[running alive]; try done.
  - intros Hx. by destruct (He Hx).
  - intros _. split_and!; [|done|done]. apply Hw. lia.
  - intros ?. apply Hw. lia.
  - intros _. apply He. left. lia.
  - by rewrite Hf, <- (assoc_L (++)).
  - assert (Hall : Forall (λ w, pc w = Gone) ws) by (apply He; right; by left).
    assert (Hrun : running ws = []) by (unfold running, pcs; clear -Hall; induction Hall as [|[] ws ? _ IH]; csimpl in *; subst; done).
    rewrite Hrun in *. simpl in *. rewrite app_nil_r in Ho. rewrite length_app. simpl. by rewrite Nat.add_1_r, seq_S, <- Ho.
  - intros _. apply He. right. by left.
  - intros _. by apply Hl.
  - intros Hx. by destruct (Hr Hx).
  - rewrite <- Ho. assert (Hall : Forall (λ w, pc w = Gone) ws) by (apply He; right; by left).
    assert (Hrun : running ws = []) by (unfold running, pcs; clear -Hall; induction Hall as [|[] ws ? _ IH]; csimpl in *; subst; done).
    rewrite Hrun. simpl. by rewrite app_nil_r, <- Permutation_cons_append.
  - intros _. apply He. right. by left.
  - intros _. by apply Hl.
  - intros _. apply He. right. by left.
  - intros _. split; [done|]. by rewrite Hl.
Qed.

Context (Hcfg : 0 ≤ maxWorkers cfg).

Lemma reachable_ainv s : reachable s → ainv s.
Proof using Hcfg.
  intros Hr. unfold reachable in Hr. remember init as s0 eqn:H0. assert (Hi : ainv s0).
  { subst. unfold init. pose proof (grow_n_spec (Z.to_nat (minWorkers cfg)) [] [] 0 eq_refl Hcfg eq_refl) as Hg.
    destruct (grow_n _ [] [] 0) as [[ws ch] n]. destruct Hg as (? & ? & Hrun). split; cbn -[running alive]; try done.
    - by rewrite Hrun.
    - intros [?|[?|?]]; [lia|done|done].
    - lia. }
  clear H0. induction Hr as [|s1 s2 s3 Hs _ IH]; [done|]. apply IH.
  destruct Hs as [?|[?|[?|?]]]; [by eapply worker_ainv|by eapply scaler_ainv|by eapply submit_ainv|by eapply close_ainv].
Qed.
End pool.

(** ** Theorems *)

Lemma New_max min max t i size w cfg : New min max t i size w = Ok cfg → maxWorkers cfg = max ∧ 0 ≤ maxWorkers cfg.
Proof.
  unfold New. destruct w; [done|]. destruct (Z.ltb_spec min 1); [done|]. destruct (Z.ltb_spec max min); [done|].
  destruct t; [|done]. destruct (i <=? 0); [done|]. intros [= <-]. simpl. lia.
Qed.

(** C19: however workers, autoscaler, submitters and closers are interleaved, and whatever
    the monitor reports: the accepted jobs are those started, in the order of
    acceptance, followed by those queued; every started job is finished or being run
    once; and the number of live workers is what the counter says and never exceeds
    MaxWorkers. *)
Theorem adaptive_jobs {J} min max t i size cfg (s : @sys J) :
  New min max t i size false = Ok cfg → reachable cfg s →
  accepted s = started s ++ queue s ∧
  finished s ++ running (workers s) ++ wjob (writer s) ≡ₚ seq 0 (length (started s)) ∧
  count s = alive (workers s) ∧ alive (workers s) ≤ max.
Proof.
  intros Hn Hr. destruct (New_max _ _ _ _ _ _ _ Hn) as [<- H0].
  destruct (reachable_ainv cfg H0 s Hr) as [Hf Ho [Hc Hm] _ _ _ _ _]. rewrite <- Hc. by split_and!.
Qed.

Definition demo_config : Config := mkConfig 1 2 2.

(** A job runs on the first worker and one is queued; the autoscaler has added a
    second worker. *)
Definition demo : @sys Z :=
  mkSys [20] false false [mkWorker false (Running false 0); mkWorker false (Ready false)] [0; 1]%nat 2
    Tick [] 0 0 None false [10; 20] [10] [] 0.

Lemma adaptive_demo_reachable : reachable demo_config demo.
Proof.
  eapply rtc_l; [do 2 right; left; apply (s_rlock _ _ _ _ _ _ _ _ _ _ _ _ _ _ _ true 10)|].
  eapply rtc_l; [do 2 right; left; apply (s_check _ _ _ _ _ _ _ _ [])|].
  eapply rtc_l; [do 2 right; left; apply (s_send _ _ _ _ _ _ _ _ []); simpl; lia|].
  eapply rtc_l; [left; by apply w_take with (i := 0%nat) (b := false)|].
  eapply rtc_l; [do 2 right; left; apply (s_rlock _ _ _ _ _ _ _ _ _ _ _ _ _ _ _ true 20)|].
  eapply rtc_l; [do 2 right; left; apply (s_check _ _ _ _ _ _ _ _ [])|].
  eapply rtc_l; [do 2 right; left; apply (s_send _ _ _ _ _ _ _ _ []); simpl; lia|].
  eapply rtc_l; [right; left; apply sc_sample with (v := Under)|].
  eapply rtc_l; [right; left; by apply sc_load|].
  eapply rtc_l; [right; left; by apply sc_grow|]. apply rtc_refl.
Qed.

Lemma adaptive_jobs_witness : count demo = 2 ∧ alive (workers demo) ≤ 2.
Proof. split; [reflexivity|]. apply (adaptive_jobs 1 2 true 5 2 demo_config demo); [reflexivity|apply adaptive_demo_reachable]. Defined.

(** Once a Close has returned, nothing accepted is left behind, now or later: the
    queue is empty, no submitter is between its test of closed and its send, the
    autoscaler and all workers are gone, and every accepted job has been started; when
    no other closer is running one, all are finished. *)
Theorem adaptive_close_runs_all {J} min max t i size cfg (s : @sys J) :
  New min max t i size false = Ok cfg → reachable cfg s → returned s = true →
  queue s = [] ∧ accepted s = started s ∧ Forall (λ r, checked r = false) (readers s) ∧
  scaler s = ScalerGone ∧ Forall (λ w, pc w = Gone) (workers s) ∧
  (wjob (writer s) = [] → finished s ≡ₚ seq 0 (length (accepted s))).
Proof.
  intros Hn Hr Hret. destruct (New_max _ _ _ _ _ _ _ Hn) as [_ H0].
  destruct (reachable_ainv cfg H0 s Hr) as [Hf Ho _ _ He _ _ Hq].
  destruct (Hq Hret) as [Hqe Hrd]. destruct (He ltac:(auto)) as (_ & Hsc & Hall). rewrite Hqe, app_nil_r in Hf.
  split_and!; try done. intros Hw. rewrite Hf, <- Ho, Hw, app_nil_r.
  assert (Hrun : running (workers s) = []) by (unfold running, pcs; clear -Hall; induction Hall as [|[] ws ? _ IH]; csimpl in *; subst; done).
  by rewrite Hrun, app_nil_r.
Qed.

(** The pool of one worker closed while idle, after a job was sent and left to [Close]. *)
Definition demo_closed : @sys Z :=
  mkSys [] true true [mkWorker false Gone] [0]%nat 0 ScalerGone [] 0 0 None true [10] [10] [0%nat] 0.

Lemma adaptive_closed_reachable : reachable (mkConfig 1 2 2) demo_closed.
Proof.
  eapply rtc_l; [do 2 right; left; apply (s_rlock _ _ _ _ _ _ _ _ _ _ _ _ _ _ _ true 10)|].
  eapply rtc_l; [do 2 right; left; apply (s_check _ _ _ _ _ _ _ _ [])|].
  eapply rtc_l; [do 3 right; apply c_store|]. eapply rtc_l; [do 3 right; apply c_signal|].
  eapply rtc_l; [right; left; apply sc_exit; by left|].
  eapply rtc_l; [left; by apply w_done with (i := 0%nat) (b := false)|].
  eapply rtc_l; [left; by apply w_drained with (i := 0%nat) (b := false)|].
  eapply rtc_l; [left; by apply w_gone with (i := 0%nat) (b := false)|].
  eapply rtc_l; [do 2 right; left; apply (s_send _ _ _ _ _ _ _ _ []); simpl; lia|].
  eapply rtc_l; [do 3 right; apply c_waited; by repeat constructor|].
  eapply rtc_l; [do 3 right; apply c_lock|]. eapply rtc_l; [do 3 right; apply c_take|].
  eapply rtc_l; [do 3 right; apply c_ran with (panics := false)|].
  eapply rtc_l; [do 3 right; apply c_return|]. apply rtc_refl.
Qed.

Lemma adaptive_close_runs_all_witness : accepted demo_closed = started demo_closed.
Proof.
  apply (adaptive_close_runs_all 1 2 true 5 2 (mkConfig 1 2 2) demo_closed);
    [reflexivity|apply adaptive_closed_reachable|reflexivity].
Defined.

(** The autoscaler compares the live workers with the minimum, and a worker that was told
    to stop is live until its job ends: two samples over the target during one long job
    stop both workers of an open pool whose minimum is one. *)
Example adaptive_below_min : ∃ s : @sys Z, reachable demo_config s ∧ closed s = false ∧
  count s = 0 ∧ stopChs s = [] ∧ minWorkers demo_config = 1.
Proof.
  eexists. split.
  - unfold reachable. etrans; [apply adaptive_demo_reachable|].
    eapply rtc_l; [left; by apply w_take with (i := 1%nat) (b := false)|].
    do 2 (eapply rtc_l; [right; left; apply sc_sample with (v := Over)|];
          eapply rtc_l; [right; left; by apply sc_load|]; eapply rtc_l; [right; left; by apply sc_shrink|]).
    eapply rtc_l; [left; by apply w_ran with (i := 0%nat) (b := true) (dr := false) (k := 0%nat) (panics := false)|].
    eapply rtc_l; [left; by apply w_ran with (i := 1%nat) (b := true) (dr := false) (k := 1%nat) (panics := false)|].
    eapply rtc_l; [left; by apply w_stop with (i := 0%nat)|].
    eapply rtc_l; [left; by apply w_stop with (i := 1%nat)|].
    eapply rtc_l; [left; by apply w_gone with (i := 0%nat) (b := true)|].
    eapply rtc_l; [left; by apply w_gone with (i := 1%nat) (b := true)|]. apply rtc_refl.
  - by vm_compute.
Qed.
