(* ===== verification/Latency.v ===== *)
(** * Latency: the sliding-window histogram of package [latency]

    buckets.go, histogram.go, options.go and shard.go: a ring of per-second slots,
    each with bucket counts, total, minimum, maximum and sum; readers fold the
    ring and estimate quantiles by interpolation.  The clock is an argument; the
    index of a slot is that of Ring.v.

    Shown: a fold yields exactly the statistics of the samples of the window,
    whatever the clock does ([latency_window_exact]); the bucket from which a
    quantile is interpolated is the bucket of the sample of that rank
    ([latency_quantile_bucket]); the binary search of [bucketIndex] equals a
    linear scan ([bucketIndex_linear]); merging shards equals one histogram that
    saw all samples ([latency_shards_merge]). *)

From Stdlib Require Import ZArith Lia SpecFloat.
From stdpp Require Import base tactics numbers list sorting.
From S2P Require Import Prelude Float64 Ring.

#[local] Open Scope Z_scope.

(** Nanoseconds. *)
Definition Microsecond : Z := 1000.
Definition Millisecond : Z := 1000 * Microsecond.
Definition Second : Z := 1000 * Millisecond.

Definition DefaultBoundaries : list Z :=
  [100 * Microsecond; 500 * Microsecond; Millisecond; 2 * Millisecond; 3 * Millisecond; 5 * Millisecond;
   10 * Millisecond; 15 * Millisecond; 20 * Millisecond; 30 * Millisecond; 50 * Millisecond; 75 * Millisecond;
   100 * Millisecond; 200 * Millisecond; 500 * Millisecond; Second; 10 * Second].

(** [sort.Search]: every iteration shortens [j - i]. *)
Fixpoint search_loop (fuel : nat) (f : nat → bool) (i j : nat) : nat :=
  match fuel with
  | O => i
  | S fuel =>
      if (i <? j)%nat then
        let h := ((i + j) / 2)%nat in
        if f h then search_loop fuel f i h else search_loop fuel f (S h) j
      else i
  end.
Definition sort_Search (n : nat) (f : nat → bool) : nat := search_loop n f 0 n.

Definition bucketIndex (boundaries : list Z) (v : Z) : nat :=
  let idx := sort_Search (length boundaries) (λ i, v <=? nth i boundaries 0) in
  if (length boundaries <=? idx)%nat then (length boundaries - 1)%nat else idx.

Definition lowerBound (boundaries : list Z) (i : nat) : Z :=
  match i with O => 0 | S i => nth i boundaries 0 end.

(** [for i, b := range bs]: [prev] is [bs[i-1]]. *)
Fixpoint valid_loop (prev : option Z) (bs : list Z) : bool :=
  match bs with
  | [] => true
  | b :: bs => if b <=? 0 then false
               else if match prev with Some p => b <=? p | None => false end then false
               else valid_loop (Some b) bs
  end.
Definition validBoundaries (bs : list Z) : bool :=
  match bs with [] => false | _ => valid_loop None bs end.

Record Options := mkOptions { Window : Z; Boundaries : list Z }.
Definition defaultOptions : Options := mkOptions (60 * Second) DefaultBoundaries.
Definition withDefaults (o : Options) : Options :=
  mkOptions (if Window o <? Second then Window defaultOptions else Window o)
    (match Boundaries o with [] => Boundaries defaultOptions | bs => bs end).

Record windowBucket := mkBucket { counts : list Z; total : Z; bmin : Z; bmax : Z; bsum : Z }.
Record Histogram := mkHist { boundaries : list Z; windowSec : nat; buckets : list windowBucket; base : Z }.

Definition zero_bucket (n : nat) : windowBucket := mkBucket (replicate n 0) 0 0 0 0.

(** [now]: the unix second of construction.  [None] is a nil histogram. *)
Definition NewHistogram (opts : Options) (now : Z) : option Histogram :=
  let opts := withDefaults opts in
  if negb (validBoundaries (Boundaries opts)) then None
  else
    let secs := Z.to_nat (Window opts / Second) in
    let n := length (Boundaries opts) in
    Some (mkHist (Boundaries opts) secs (replicate secs (zero_bucket n)) now).

Definition numBuckets (h : Histogram) : nat := length (boundaries h).

Definition zeroBucket (h : Histogram) (i : nat) : Histogram :=
  mkHist (boundaries h) (windowSec h) (<[i := zero_bucket (numBuckets h)]> (buckets h)) (base h).

(** The roll loop: [k] seconds. *)
Fixpoint roll (k : nat) (h : Histogram) : Histogram :=
  match k with
  | O => h
  | S k =>
      let h := mkHist (boundaries h) (windowSec h) (buckets h) (base h + 1) in
      roll k (zeroBucket h (slot_of (windowSec h) (base h)))
  end.

Definition advance (h : Histogram) (sec : Z) : Histogram :=
  let n := Z.of_nat (windowSec h) in
  if sec <=? base h then h
  else if n <=? sec - base h then
    mkHist (boundaries h) (windowSec h) (replicate (length (buckets h)) (zero_bucket (numBuckets h))) sec
  else roll (Z.to_nat (sec - base h)) h.

(** The update of a slot in [Observe]. *)
Definition observe_bucket (bounds : list Z) (d : Z) (b : windowBucket) : windowBucket :=
  mkBucket (alter (Z.add 1) (bucketIndex bounds d) (counts b)) (total b + 1)
    (if total b =? 0 then d else if d <? bmin b then d else bmin b)
    (if total b =? 0 then d else if bmax b <? d then d else bmax b)
    (u64 (bsum b + d)).

Definition Observe (h : Histogram) (d sec : Z) : Histogram :=
  let d := if d <? 0 then 0 else d in
  let h := advance h sec in
  let sec := if sec <? base h then base h else sec in
  mkHist (boundaries h) (windowSec h)
    (alter (observe_bucket (boundaries h) d) (slot_of (windowSec h) sec) (buckets h)) (base h).

(** The variables of [foldLocked]. *)
Record acc := mkAcc { out : list Z; atotal : Z; asum : Z; amin : Z; amax : Z; hasMin : bool }.

Definition fold_bucket (a : acc) (b : windowBucket) : acc :=
  let live := 0 <? total b in
  mkAcc (zip_with Z.add (out a) (counts b)) (atotal a + total b) (u64 (asum a + bsum b))
    (if live && (negb (hasMin a) || (bmin b <? amin a)) then bmin b else amin a)
    (if live && (amax a <? bmax b) then bmax b else amax a)
    (hasMin a || live).

Definition foldLocked (h : Histogram) (sec : Z) (out : list Z) : acc * Histogram :=
  let h := advance h sec in
  (foldl fold_bucket (mkAcc out 0 0 0 0 false) (buckets h), h).

(** The rank of a quantile, between 1 and [total]. *)
Definition f64_ceil_int (x : float64) : Z :=
  match x with
  | S754_finite false _ _ => default min_i64 (f64_round RAway x)
  | _ => f64_to_i64 x
  end.
Definition target_of (total : Z) (q : float64) : Z :=
  let target := f64_ceil_int (f64_mul q (f64_of_Z total)) in
  let target := if target <? 1 then 1 else target in
  if total <? target then total else target.

(** The loop over the merged counts: the bucket, its count, and the rank within it. *)
Fixpoint find_bucket (merged : list Z) (i : nat) (running target : Z) : option (nat * Z * Z) :=
  match merged with
  | [] => None
  | c :: merged =>
      let running := running + c in
      if (0 <? c) && (target <=? running) then Some (i, c, target - (running - c))
      else find_bucket merged (S i) running target
  end.

Definition f64_half : float64 := f64_div (f64_of_Z 1) (f64_of_Z 2).

Definition interpolate (lo hi inBucket c : Z) : Z :=
  let frac := f64_div (f64_sub (f64_of_Z inBucket) f64_half) (f64_of_Z c) in
  lo + f64_to_i64 (f64_mul (f64_of_Z (hi - lo)) frac).

Definition quantileFromMerged (bounds merged : list Z) (total : Z) (q : float64) : Z :=
  if total =? 0 then 0
  else
    match find_bucket merged 0 0 (target_of total q) with
    | Some (i, c, inBucket) => interpolate (lowerBound bounds i) (nth i bounds 0) inBucket c
    | None => nth (length bounds - 1) bounds 0
    end.

Definition clamp_q (q : float64) : float64 :=
  let q := if f64_lt q (f64_of_Z 0) then f64_of_Z 0 else q in
  if f64_gt q (f64_of_Z 1) then f64_of_Z 1 else q.

Definition Quantile (h : Histogram) (q : float64) (sec : Z) : Z * Histogram :=
  let '(a, h) := foldLocked h sec (replicate (numBuckets h) 0) in
  (quantileFromMerged (boundaries h) (out a) (atotal a) (clamp_q q), h).

Record Stats := mkStats { Count : Z; Min : Z; Max : Z; Mean : Z; P50 : Z; P90 : Z; P99 : Z; P999 : Z }.

Definition f64_ratio (a b : Z) : float64 := f64_div (f64_of_Z a) (f64_of_Z b).

Definition stats_of (bounds : list Z) (a : acc) : Stats :=
  if atotal a =? 0 then mkStats 0 0 0 0 0 0 0 0
  else
    let p q := quantileFromMerged bounds (out a) (atotal a) q in
    mkStats (atotal a) (if hasMin a then amin a else 0) (amax a)
      (if 0 <? asum a then asum a / atotal a else 0)
      (p (f64_ratio 1 2)) (p (f64_ratio 9 10)) (p (f64_ratio 99 100)) (p (f64_ratio 999 1000)).

Definition Snapshot (h : Histogram) (sec : Z) : Stats * Histogram :=
  let '(a, h) := foldLocked h sec (replicate (numBuckets h) 0) in (stats_of (boundaries h) a, h).

(** ** Shards *)

Record ShardHistogram := mkShard { shards : list Histogram; rr : Z }.

Definition AutoShardCount (gomaxprocs : Z) : Z := let n := gomaxprocs / 2 in if n <? 2 then 2 else n.

(** [None] is nil; [now i] is the clock when the [i]-th shard is built. *)
Definition NewShardHistogram (n gomaxprocs : Z) (opts : Options) (now : nat → Z) : option ShardHistogram :=
  let n := if n <=? 0 then AutoShardCount gomaxprocs else n in
  match mapM (λ i, NewHistogram opts (now i)) (seq 0 (Z.to_nat n)) with
  | None => None
  | Some hs => Some (mkShard hs 0)
  end.

Definition shard_Observe (s : ShardHistogram) (d sec : Z) : ShardHistogram :=
  let rr := u64 (rr s + 1) in
  mkShard (alter (λ h, Observe h d sec) (Z.to_nat (rr mod Z.of_nat (length (shards s)))) (shards s)) rr.

(** One shard folded into the totals so far. *)
Definition merge_shard (sec : Z) (a : acc) (h : Histogram) : acc :=
  let '(b, _) := foldLocked h sec (out a) in
  mkAcc (out b) (atotal a + atotal b) (u64 (asum a + asum b))
    (if hasMin b && (negb (hasMin a) || (amin b <? amin a)) then amin b else amin a)
    (if amax a <? amax b then amax b else amax a) (hasMin a || hasMin b).

Definition foldAll (s : ShardHistogram) (sec : Z) (merged : list Z) : acc * ShardHistogram :=
  (foldl (merge_shard sec) (mkAcc merged 0 0 0 0 false) (shards s),
   mkShard ((λ h, advance h sec) <$> shards s) (rr s)).

Definition shard_Snapshot (s : ShardHistogram) (sec : Z) : Stats * ShardHistogram :=
  let bounds := match shards s with h :: _ => boundaries h | [] => [] end in
  let '(a, s) := foldAll s sec (replicate (length bounds) 0) in (stats_of bounds a, s).

Definition shard_Quantile (s : ShardHistogram) (q : float64) (sec : Z) : Z * ShardHistogram :=
  let bounds := match shards s with h :: _ => boundaries h | [] => [] end in
  let '(a, s) := foldAll s sec (replicate (length bounds) 0) in
  (quantileFromMerged bounds (out a) (atotal a) (clamp_q q), s).

(** ** The binary search *)

Lemma search_loop_spec fuel f i j : (j - i ≤ fuel)%nat → (i ≤ j)%nat →
  (∀ a b, (a ≤ b)%nat → f a = true → f b = true) →
  (∀ k, (k < i)%nat → f k = false) →
  let r := search_loop fuel f i j in
  (i ≤ r ≤ j)%nat ∧ (∀ k, (k < r)%nat → f k = false) ∧ ((r < j)%nat → f r = true).
Proof.
  revert i j. induction fuel as [|fuel IH]; intros i j Hf Hij Hmono Hlow; cbn [search_loop].
  { assert (i = j) as -> by lia. split_and!; [lia|lia|done|lia]. }
  destruct (Nat.ltb_spec i j) as [Hlt|Hge]; [|split_and!; [lia|lia|done|lia]].
  assert (Hh : (i ≤ (i + j) / 2 < j)%nat) by (split; [apply Nat.div_le_lower_bound|apply Nat.Div0.div_lt_upper_bound]; lia).
  destruct (f ((i + j) / 2)%nat) eqn:Hfh.
  - destruct (IH i ((i + j) / 2)%nat) as ((? & ?) & Hk & Hr); [lia|lia|done|done|]. split_and!; [lia|lia|done|].
    intros _. destruct (decide (search_loop fuel f i ((i + j) / 2) = (i + j) / 2)%nat) as [->|]; [done|]. apply Hr. lia.
  - destruct (IH (S ((i + j) / 2)) j) as ((? & ?) & Hk & Hr); [lia|lia|done| |split_and!; [lia|lia|done|done]].
    intros k Hk. destruct (f k) eqn:Hfk; [|done]. rewrite (Hmono k ((i + j) / 2)%nat) in Hfh; [done|lia|done].
Qed.

Definition increasing (bs : list Z) : Prop := ∀ i j x y, (i < j)%nat → bs !! i = Some x → bs !! j = Some y → x < y.

Lemma valid_loop_spec prev bs : valid_loop prev bs = true → increasing bs ∧
  Forall (λ b, 0 < b ∧ match prev with Some p => p < b | None => True end) bs.
Proof.
  revert prev. induction bs as [|b bs IH]; intros prev Hv; cbn [valid_loop] in Hv.
  { split; [intros ? ? ? ? ? H; by rewrite lookup_nil in H|constructor]. }
  destruct (Z.leb_spec b 0); [done|]. destruct (match prev with Some p => b <=? p | None => false end) eqn:Hp; [done|].
  destruct (IH (Some b) Hv) as [Hinc Hall]. rewrite Forall_forall in Hall. split.
  - intros [|i] [|j] x y Hij Hi Hj; [lia| |lia|]; simplify_eq/=; [|by eapply (Hinc i j); [lia|..]].
    by eapply Hall, list_elem_of_lookup_2.
  - apply Forall_cons. split.
    + split; [lia|]. destruct prev as [p|]; [|done]. apply Z.leb_gt in Hp. lia.
    + apply Forall_forall. intros x Hx. destruct (Hall x Hx). split; [done|]. destruct prev as [p|]; [|done]. apply Z.leb_gt in Hp. lia.
Qed.

Lemma validBoundaries_spec bs : validBoundaries bs = true → bs ≠ [] ∧ increasing bs ∧ Forall (λ b, 0 < b) bs.
Proof.
  unfold validBoundaries. destruct bs as [|b bs]; [done|]. intros [Hi Hf]%valid_loop_spec. split; [done|]. split; [done|].
  eapply Forall_impl; [exact Hf|]. by intros x [? _].
Qed.

(** The first boundary that is not below [v], or the last one. *)
Fixpoint linear_index (bs : list Z) (v : Z) : nat :=
  match bs with
  | [] | [_] => 0
  | b :: bs => if v <=? b then 0%nat else S (linear_index bs v)
  end.

Lemma linear_index_spec bs v i : bs ≠ [] → (i < length bs)%nat → (∀ k, (k < i)%nat → nth k bs 0 < v) →
  (v ≤ nth i bs 0 ∨ i = (length bs - 1)%nat) → linear_index bs v = i.
Proof.
  revert i. induction bs as [|b bs IH]; intros i Hne Hi Hlow Hup; [done|]. destruct bs as [|b' bs].
  { simpl in *. lia. }
  change (linear_index (b :: b' :: bs) v) with (if v <=? b then 0%nat else S (linear_index (b' :: bs) v)).
  destruct i as [|i].
  - destruct Hup as [Hup|Hup]; [|simpl in Hup; lia]. cbn [nth] in Hup. by rewrite (proj2 (Z.leb_le _ _) Hup).
  - pose proof (Hlow 0%nat ltac:(lia)) as Hb. cbn [nth] in Hb. destruct (Z.leb_spec v b); [lia|]. f_equal.
    apply IH; [done|simpl in *; lia| |].
    + intros k Hk. apply (Hlow (S k)). lia.
    + destruct Hup as [Hup|Hup]; [by left|right]. simpl in *. lia.
Qed.

Lemma increasing_nth bs i j : increasing bs → (i < j < length bs)%nat → nth i bs 0 < nth j bs 0.
Proof.
  intros Hinc [Hij Hj]. destruct (lookup_lt_is_Some_2 bs j Hj) as [y Hy].
  destruct (lookup_lt_is_Some_2 bs i ltac:(lia)) as [x Hx]. rewrite !nth_lookup, Hx, Hy. simpl. by eapply (Hinc i j).
Qed.

Lemma bucketIndex_bounds bs v : bs ≠ [] → increasing bs →
  (bucketIndex bs v < length bs)%nat ∧ (∀ k, (k < bucketIndex bs v)%nat → nth k bs 0 < v) ∧
  (v ≤ nth (bucketIndex bs v) bs 0 ∨ bucketIndex bs v = (length bs - 1)%nat).
Proof.
  intros Hne Hinc. assert (Hlen : (0 < length bs)%nat) by (by destruct bs; simpl; [|lia]).
  unfold bucketIndex, sort_Search. set (f := λ i, v <=? nth i bs 0).
  (* beyond the slice the search never looks; extend the predicate *)
  set (g := λ i, (length bs <=? i)%nat || f i).
  assert (Hfg : ∀ fuel i j, (j ≤ length bs)%nat → search_loop fuel f i j = search_loop fuel g i j).
  { induction fuel as [|fuel IH]; intros i j Hj; [done|]. cbn [search_loop]. destruct (Nat.ltb_spec i j) as [Hij|]; [|done].
    assert ((i + j) / 2 < j)%nat by (apply Nat.Div0.div_lt_upper_bound; lia).
    assert (g ((i + j) / 2)%nat = f ((i + j) / 2)%nat) as ->.
    { unfold g. by destruct (Nat.leb_spec (length bs) ((i + j) / 2)); [lia|]. }
    destruct (f ((i + j) / 2)%nat); apply IH; lia. }
  rewrite Hfg by done. destruct (search_loop_spec (length bs) g 0 (length bs)) as ((_ & Hr) & Hlow & Hup); [lia|lia| |lia|].
  { intros a b Hab. unfold g. destruct (Nat.leb_spec (length bs) b); [done|]. destruct (Nat.leb_spec (length bs) a); [lia|].
    unfold f. simpl. intros Ha%Z.leb_le. apply Z.leb_le. destruct (decide (a = b)) as [->|]; [done|].
    pose proof (increasing_nth bs a b Hinc ltac:(lia)). lia. }
  set (r := search_loop (length bs) g 0 (length bs)) in *.
  assert (Hlow' : ∀ k, (k < r)%nat → nth k bs 0 < v).
  { intros k Hk. specialize (Hlow k Hk). unfold g in Hlow. apply orb_false_iff in Hlow as [_ Hlow]. unfold f in Hlow. lia. }
  destruct (Nat.leb_spec (length bs) r) as [Hge|Hlt].
  - split_and!; [lia| |by right]. intros k Hk. apply Hlow'. lia.
  - split_and!; [lia|done|left]. specialize (Hup Hlt). unfold g in Hup.
    destruct (Nat.leb_spec (length bs) r); [lia|]. by apply Z.leb_le in Hup.
Qed.

Lemma bucketIndex_mono bs v w : bs ≠ [] → increasing bs → v ≤ w → (bucketIndex bs v ≤ bucketIndex bs w)%nat.
Proof.
  intros Hne Hinc Hvw. destruct (bucketIndex_bounds bs v Hne Hinc) as (Hv & Hlv & _).
  destruct (bucketIndex_bounds bs w Hne Hinc) as (Hw & _ & Huw).
  destruct (Nat.le_gt_cases (bucketIndex bs v) (bucketIndex bs w)) as [|Hgt]; [done|].
  specialize (Hlv _ Hgt). destruct Huw; lia.
Qed.

(** ** Specification: the statistics of a list of samples *)

Section stats.
Context (bs : list Z) (Hne : bs ≠ []) (Hinc : increasing bs).

Definition cnt (l : list Z) (j : nat) : Z := Z.of_nat (length (filter (λ d, bucketIndex bs d = j) l)).
Definition counts_of (l : list Z) : list Z := cnt l <$> seq 0 (length bs).

(** What a fold reports of the samples [l], starting from the counts [out0]. *)
Record summary (out0 : list Z) (l : list Z) (a : acc) : Prop := {
  s_out : out a = zip_with Z.add out0 (counts_of l);
  s_total : atotal a = Z.of_nat (length l);
  s_sum : asum a = u64 (zsum l);
  s_has : hasMin a = negb (bool_decide (l = []));
  s_min : (l = [] ∧ amin a = 0) ∨ (amin a ∈ l ∧ Forall (λ x, amin a ≤ x) l);
  s_max : (l = [] ∧ amax a = 0) ∨ (amax a ∈ l ∧ Forall (λ x, x ≤ amax a) l) }.

(** The slot that has observed [l], latest first. *)
Definition bucket_of (l : list Z) : windowBucket := foldr (observe_bucket bs) (zero_bucket (length bs)) l.

Lemma cnt_cons d l j : cnt (d :: l) j = (if decide (bucketIndex bs d = j) then 1 else 0) + cnt l j.
Proof using. unfold cnt. rewrite filter_cons. case_decide; simpl; lia. Qed.

Lemma counts_of_cons d l : alter (Z.add 1) (bucketIndex bs d) (counts_of l) = counts_of (d :: l).
Proof using Hne Hinc.
  destruct (bucketIndex_bounds bs d Hne Hinc) as (Hlt & _). apply list_eq. intros j. unfold counts_of.
  destruct (decide (bucketIndex bs d = j)) as [<-|Hj].
  - rewrite list_lookup_alter_eq, !list_lookup_fmap, !lookup_seq_lt by done. simpl. by rewrite cnt_cons, decide_True.
  - rewrite list_lookup_alter_ne, !list_lookup_fmap by done. destruct (seq 0 (length bs) !! j) as [j'|] eqn:E; [|done].
    apply lookup_seq in E as [-> _]. simpl. by rewrite cnt_cons, decide_False.
Qed.

Record bucket_summary (l : list Z) (b : windowBucket) : Prop := {
  b_counts : counts b = counts_of l;
  b_total : total b = Z.of_nat (length l);
  b_sum : bsum b = u64 (zsum l);
  b_min : l = [] ∨ (bmin b ∈ l ∧ Forall (λ x, bmin b ≤ x) l);
  b_max : l = [] ∨ (bmax b ∈ l ∧ Forall (λ x, x ≤ bmax b) l) }.

Lemma bucket_of_spec l : bucket_summary l (bucket_of l).
Proof using Hne Hinc.
  induction l as [|d l [Hc Ht Hs Hmn Hmx]].
  { split; [|done|done|by left|by left]. simpl. unfold counts_of. apply list_eq. intros j. rewrite list_lookup_fmap.
    destruct (decide (j < length bs)%nat).
    - by rewrite lookup_replicate_2, lookup_seq_lt.
    - rewrite !lookup_ge_None_2; [done|..]; rewrite ?length_seq, ?length_replicate; lia. }
  unfold bucket_of in *. cbn [foldr]. set (b := foldr _ _ l) in *. unfold observe_bucket. split; cbn [counts total bsum bmin bmax].
  - by rewrite Hc, counts_of_cons.
  - rewrite Ht. simpl. lia.
  - rewrite Hs, u64_add_l. simpl. by rewrite Z.add_comm.
  - right. destruct (Z.eqb_spec (total b) 0) as [Hz|Hz].
    { destruct l; [|rewrite Ht in Hz; simpl in Hz; lia]. split; [by left|by repeat constructor]. }
    destruct Hmn as [->|[Hin Hall]]; [by rewrite Ht in Hz|]. destruct (Z.ltb_spec d (bmin b)).
    + split; [by left|]. constructor; [lia|]. eapply Forall_impl; [exact Hall|]. simpl. lia.
    + split; [by right|]. by constructor.
  - right. destruct (Z.eqb_spec (total b) 0) as [Hz|Hz].
    { destruct l; [|rewrite Ht in Hz; simpl in Hz; lia]. split; [by left|by repeat constructor]. }
    destruct Hmx as [->|[Hin Hall]]; [by rewrite Ht in Hz|]. destruct (Z.ltb_spec (bmax b) d).
    + split; [by left|]. constructor; [lia|]. eapply Forall_impl; [exact Hall|]. simpl. lia.
    + split; [by right|]. by constructor.
Qed.

Lemma counts_of_app l1 l2 : counts_of (l1 ++ l2) = zip_with Z.add (counts_of l1) (counts_of l2).
Proof using.
  unfold counts_of. rewrite zip_with_fmap_l, zip_with_fmap_r, zip_with_diag. apply list_fmap_ext. intros i j _.
  unfold cnt. rewrite filter_app, length_app. simpl. lia.
Qed.

Lemma zip_add_assoc (a b c : list Z) : zip_with Z.add (zip_with Z.add a b) c = zip_with Z.add a (zip_with Z.add b c).
Proof using.
  revert b c. induction a as [|x a IH]; intros [|y b] [|z c]; simpl; try done. f_equal; [lia|apply IH].
Qed.

(** Folding in one more slot. *)
Lemma summary_bucket out0 l1 l2 a b : summary out0 l1 a → bucket_summary l2 b → Forall (λ d, 0 ≤ d) (l1 ++ l2) →
  summary out0 (l1 ++ l2) (fold_bucket a b).
Proof using.
  intros [Ho Ht Hs Hh Hmn Hmx] [Bc Bt Bs Bmn Bmx] [Hp1 Hp2]%Forall_app.
  unfold fold_bucket. rewrite Ho, Ht, Hs, Hh, Bc, Bt, Bs. rewrite Forall_forall in Hp1, Hp2.
  split; cbn [out atotal asum hasMin amin amax].
  - by rewrite counts_of_app, zip_add_assoc.
  - rewrite length_app. lia.
  - by rewrite u64_add_l, u64_add_r, zsum_app.
  - destruct l1, l2; reflexivity.
  - destruct l2 as [|d l2]; [cbn; rewrite app_nil_r; exact Hmn|].
    destruct (Z.ltb_spec 0 (Z.of_nat (length (d :: l2)))) as [_|]; [|simpl in *; lia]. cbn [andb].
    destruct Bmn as [|[Hin2 Hall2]]; [done|]. destruct Hmn as [[-> Hm]|[Hin1 Hall1]]; [by cbn; right|].
    assert (l1 ≠ []) by (intros ->; by apply not_elem_of_nil in Hin1). rewrite bool_decide_false by done. cbn [negb orb].
    right. rewrite Forall_app, elem_of_app. rewrite !Forall_forall in *. destruct (Z.ltb_spec (bmin b) (amin a)).
    + split; [by right|]. split; [|done]. intros x Hx. specialize (Hall1 x Hx). lia.
    + split; [by left|]. split; [done|]. intros x Hx. specialize (Hall2 x Hx). lia.
  - destruct l2 as [|d l2]; [cbn; rewrite app_nil_r; exact Hmx|].
    destruct (Z.ltb_spec 0 (Z.of_nat (length (d :: l2)))) as [_|]; [|simpl in *; lia]. cbn [andb].
    destruct Bmx as [|[Hin2 Hall2]]; [done|]. pose proof (Hp2 _ Hin2) as Hpos.
    right. rewrite Forall_app, elem_of_app. rewrite !Forall_forall in *.
    destruct Hmx as [[-> Hm]|[Hin1 Hall1]]; rewrite ?Forall_forall in *.
    + destruct (Z.ltb_spec (amax a) (bmax b)); [split; [by right|]; split; [by intros x Hx%not_elem_of_nil|done]|].
      assert (amax a = bmax b) as -> by lia. split; [by right|]. split; [by intros x Hx%not_elem_of_nil|done].
    + destruct (Z.ltb_spec (amax a) (bmax b)).
      * split; [by right|]. split; [|done]. intros x Hx. specialize (Hall1 x Hx). lia.
      * split; [by left|]. split; [done|]. intros x Hx. specialize (Hall2 x Hx). lia.
Qed.

Lemma summary_perm out0 l l' a : l ≡ₚ l' → summary out0 l a → summary out0 l' a.
Proof using.
  intros Hp [Ho Ht Hs Hh Hmn Hmx]. assert (Hnil : l = [] ↔ l' = []).
  { split; intros ->; [by apply Permutation_nil in Hp|by apply Permutation_nil_r in Hp]. }
  split.
  - rewrite Ho. f_equal. unfold counts_of. apply list_fmap_ext. intros i j _. unfold cnt. by rewrite Hp.
  - by rewrite <- Hp.
  - rewrite Hs. f_equal. clear -Hp. induction Hp; simpl; lia.
  - rewrite Hh. f_equal. by apply bool_decide_ext.
  - destruct Hmn as [[? ?]|[? ?]]; [left; split; [by apply Hnil|done]|right]. by rewrite <- Hp.
  - destruct Hmx as [[? ?]|[? ?]]; [left; split; [by apply Hnil|done]|right]. by rewrite <- Hp.
Qed.

Lemma summary_fold out0 a l0 ls : summary out0 l0 a → Forall (λ d, 0 ≤ d) (l0 ++ concat ls) →
  summary out0 (l0 ++ concat ls) (foldl fold_bucket a (bucket_of <$> ls)).
Proof using Hne Hinc.
  revert a l0. induction ls as [|l ls IH]; intros a l0 Ha Hp; csimpl; [by rewrite app_nil_r|].
  csimpl in Hp. rewrite (assoc_L (++)) in *. apply IH; [|done]. apply summary_bucket; [done|apply bucket_of_spec|].
  by apply Forall_app in Hp as [? _].
Qed.

(** ** The ring *)

(** A log of samples with the second each was recorded at, latest first. *)
Notation log := (list (Z * Z)).
Definition at_second (lg : log) (sec : Z) : list Z := snd <$> filter (λ e, e.1 = sec) lg.
Definition in_window (n : nat) (b : Z) (lg : log) : list Z := snd <$> filter (λ e, b - Z.of_nat n < e.1 ≤ b) lg.

Record hist_rep (n : nat) (h : Histogram) (lg : log) : Prop := {
  h_bounds : boundaries h = bs;
  h_win : windowSec h = n;
  h_pos : (0 < n)%nat;
  h_len : length (buckets h) = n;
  h_base : 0 ≤ base h;
  h_slots : ∀ i, (i < n)%nat → buckets h !! i = Some (bucket_of (at_second lg (slot_time n (base h) i)));
  h_past : Forall (λ e, 0 ≤ e.1 ≤ base h ∧ 0 ≤ e.2) lg }.

Lemma at_second_future lg b sec : Forall (λ e, 0 ≤ e.1 ≤ b ∧ 0 ≤ e.2) lg → b < sec → at_second lg sec = [].
Proof using.
  intros Hl Hs. unfold at_second. rewrite filter_none; [done|]. intros e He. rewrite Forall_forall in Hl.
  specialize (Hl e He). simpl in *. lia.
Qed.

Lemma past_mono lg b b' : b ≤ b' → Forall (λ e : Z * Z, 0 ≤ e.1 ≤ b ∧ 0 ≤ e.2) lg → Forall (λ e, 0 ≤ e.1 ≤ b' ∧ 0 ≤ e.2) lg.
Proof using. intros Hb Hl. eapply Forall_impl; [exact Hl|]. simpl. lia. Qed.

Lemma roll1_rep n h lg : hist_rep n h lg →
  hist_rep n (zeroBucket (mkHist (boundaries h) (windowSec h) (buckets h) (base h + 1)) (slot_of (windowSec h) (base h + 1))) lg.
Proof using.
  intros [Hb Hw Hn Hl Hba Hs Hp]. assert (Hi : (slot_of n (base h + 1) < n)%nat) by (apply slot_of_lt; lia).
  unfold zeroBucket, numBuckets. cbn [boundaries windowSec buckets base]. rewrite Hw, Hb.
  split; cbn [boundaries windowSec buckets base]; try done; [by rewrite length_insert|lia| |by eapply past_mono; [|exact Hp]; lia].
  intros i Hin. destruct (decide (i = slot_of n (base h + 1))) as [->|Hne'].
  - rewrite list_lookup_insert_eq by lia.
    rewrite (proj2 (slot_time_iff n (base h + 1) _ (base h + 1) Hn Hi ltac:(lia) ltac:(lia))) by done.
    by rewrite (at_second_future lg (base h)) by (done || lia).
  - rewrite list_lookup_insert_ne, Hs by done. by rewrite slot_time_succ.
Qed.

Lemma roll_rep n k h lg : hist_rep n h lg → hist_rep n (roll k h) lg ∧ base (roll k h) = base h + Z.of_nat k.
Proof using.
  revert h. induction k as [|k IH]; intros h Hh; cbn [roll]; [split; [done|lia]|].
  destruct (IH _ (roll1_rep n h lg Hh)) as [H1 H2]. split; [exact H1|]. etrans; [exact H2|]. cbn. lia.
Qed.

Lemma advance_rep n h lg sec : hist_rep n h lg → hist_rep n (advance h sec) lg ∧ base (advance h sec) = Z.max (base h) sec.
Proof using.
  intros Hh. pose proof Hh as [Hb Hw Hn Hl Hba Hs Hp]. unfold advance. destruct (Z.leb_spec sec (base h)); [split; [done|lia]|].
  destruct (Z.leb_spec (Z.of_nat (windowSec h)) (sec - base h)).
  - unfold numBuckets. rewrite Hl, Hb, Hw in *. split; [|cbn; lia]. split; cbn [boundaries windowSec buckets base]; try done;
      [apply length_replicate|lia| |by eapply past_mono; [|exact Hp]; lia].
    intros i Hi. rewrite lookup_replicate_2 by done. pose proof (slot_time_range n sec i Hn).
    by rewrite (at_second_future lg (base h)) by (done || lia).
  - destruct (roll_rep n (Z.to_nat (sec - base h)) h lg Hh) as [? ->]. split; [done|lia].
Qed.

(** A sample is recorded at the second the ring stands at. *)
Lemma Observe_rep n h lg d sec : hist_rep n h lg →
  hist_rep n (Observe h d sec) ((Z.max (base h) sec, Z.max 0 d) :: lg) ∧ base (Observe h d sec) = Z.max (base h) sec.
Proof using.
  intros Hh. destruct (advance_rep n h lg sec Hh) as [[Hb Hw Hn Hl Hba Hs Hp] Hbase].
  unfold Observe. rewrite <- Hbase. set (h' := advance h sec) in *.
  replace (if d <? 0 then 0 else d) with (Z.max 0 d) by (destruct (Z.ltb_spec d 0); lia).
  replace (if sec <? base h' then base h' else sec) with (base h') by (destruct (Z.ltb_spec sec (base h')); lia).
  split; [|done]. split; cbn [boundaries windowSec buckets base]; try done; [by rewrite length_alter| |constructor; [simpl; lia|done]].
  intros i Hi. rewrite Hw, Hb. pose proof (slot_time_iff n (base h') i (base h') Hn Hi Hba ltac:(lia)) as Hiff.
  unfold at_second. rewrite filter_cons. cbn [fst]. destruct (decide (i = slot_of n (base h'))) as [->|Hne'].
  - rewrite list_lookup_alter_eq, Hs by done. rewrite decide_True by (symmetry; by apply Hiff). done.
  - rewrite list_lookup_alter_ne, Hs by done. rewrite decide_False; [done|]. intros Heq. by apply Hne', Hiff.
Qed.

(** The slots hold every sample of the window once. *)
Lemma slots_window n b lg : (0 < n)%nat → Forall (λ e : Z * Z, 0 ≤ e.1) lg →
  concat ((λ i, at_second lg (slot_time n b i)) <$> seq 0 n) ≡ₚ in_window n b lg.
Proof using.
  intros Hn. induction 1 as [|[t d] lg Ht Hl IH].
  { unfold at_second, in_window. cbn. clear. induction (seq 0 n); [done|]. by csimpl. }
  simpl in Ht. assert (Hcons : ∀ s, at_second ((t, d) :: lg) s = (if decide (t = s) then [d] else []) ++ at_second lg s).
  { intros s. unfold at_second. rewrite filter_cons. cbn [fst]. by case_decide. }
  assert (Hsplit : ∀ l, concat ((λ i, at_second ((t, d) :: lg) (slot_time n b i)) <$> l) ≡ₚ
    concat ((λ i, if decide (t = slot_time n b i) then [d] else []) <$> l) ++ concat ((λ i, at_second lg (slot_time n b i)) <$> l)).
  { induction l as [|i l IHl]; [done|]. csimpl. rewrite Hcons, IHl. rewrite <- !(assoc_L (++)). f_equiv. apply Permutation_app_swap_app. }
  rewrite Hsplit, IH. unfold in_window. rewrite filter_cons. cbn [fst]. clear Hsplit Hcons IH.
  destruct (decide (b - Z.of_nat n < t ≤ b)) as [Hr|Hr]; cbn [fmap list_fmap snd].
  - assert (Hone : concat ((λ i, if decide (t = slot_time n b i) then [d] else []) <$> seq 0 n) = [d]); [|by rewrite Hone].
    pose proof (slot_of_lt n t Hn Ht) as Hk. set (k := slot_of n t) in *.
    assert (Hseq : seq 0 n = seq 0 k ++ k :: seq (S k) (n - S k)).
    { pose proof (seq_app k (S (n - S k)) 0) as Hs. by replace (k + S (n - S k))%nat with n in Hs by lia. }
    rewrite Hseq, fmap_app, concat_app, fmap_cons, concat_cons.
    rewrite decide_True by (symmetry; by apply slot_time_iff).
    assert (Hz : ∀ l, Forall (λ i, (i < n)%nat ∧ i ≠ k) l → concat ((λ i, if decide (t = slot_time n b i) then [d] else []) <$> l) = []).
    { induction 1 as [|i l [Hi Hik] _ IH]; [done|]. csimpl. rewrite decide_False; [exact IH|]. intros Heq. symmetry in Heq.
      apply slot_time_iff in Heq; done. }
    rewrite !Hz; [done|..]; apply Forall_forall; intros i Hi; apply elem_of_seq in Hi; lia.
  - assert (Hz : ∀ l, concat ((λ i, if decide (t = slot_time n b i) then [d] else []) <$> l) = []); [|by rewrite Hz].
    induction l as [|i l IH]; [done|]. csimpl. rewrite decide_False; [exact IH|]. pose proof (slot_time_range n b i Hn). lia.
Qed.

Lemma summary_nil out0 : length out0 = length bs → summary out0 [] (mkAcc out0 0 0 0 0 false).
Proof using.
  intros Hl. split; try done; [|by left|by left]. cbn. unfold counts_of, cnt. cbn.
  replace ((λ _ : nat, 0) <$> seq 0 (length bs)) with (replicate (length bs) 0); [|by rewrite <- Hl; clear; induction (length out0) as [|m IH] in |- *; [done|rewrite seq_S, fmap_app, replicate_S_end, IH]].
  rewrite <- Hl. clear. induction out0 as [|x l IH]; [done|]. simpl. f_equal; [lia|done].
Qed.

Lemma window_nonneg n b lg (c : Z) : Forall (λ e : Z * Z, 0 ≤ e.1 ≤ c ∧ 0 ≤ e.2) lg → Forall (λ d, 0 ≤ d) (in_window n b lg).
Proof using.
  intros Hl. unfold in_window. apply Forall_fmap, Forall_forall. intros e [_ He]%list_elem_of_filter.
  rewrite Forall_forall in Hl. specialize (Hl e He). simpl in *. lia.
Qed.

Lemma foldLocked_spec n h lg sec out0 : hist_rep n h lg → length out0 = length bs →
  let '(a, h') := foldLocked h sec out0 in
  summary out0 (in_window n (Z.max (base h) sec) lg) a ∧ hist_rep n h' lg ∧ base h' = Z.max (base h) sec.
Proof using Hne Hinc.
  intros Hh Hl. unfold foldLocked. destruct (advance_rep n h lg sec Hh) as [Hh' Hb]. split; [|done].
  set (h' := advance h sec) in *. pose proof Hh' as [_ _ Hn Hlen Hba Hs Hp]. rewrite <- Hb.
  assert (Hnn : Forall (λ e : Z * Z, 0 ≤ e.1) lg) by (eapply Forall_impl; [exact Hp|]; simpl; lia).
  pose proof (slots_window n (base h') lg Hn Hnn) as Hw.
  assert (Hbk : buckets h' = bucket_of <$> ((λ i, at_second lg (slot_time n (base h') i)) <$> seq 0 n)).
  { apply list_eq. intros i. rewrite !list_lookup_fmap. destruct (decide (i < n)%nat) as [Hi|Hi].
    - by rewrite Hs, lookup_seq_lt.
    - rewrite !lookup_ge_None_2; [done|..]; rewrite ?length_seq; lia. }
  rewrite Hbk. eapply summary_perm; [exact Hw|].
  apply (summary_fold out0 _ [] ((λ i, at_second lg (slot_time n (base h') i)) <$> seq 0 n)); [by apply summary_nil|].
  cbn [app]. rewrite Hw. by eapply window_nonneg.
Qed.

(** The summary determines what is reported. *)
Lemma summary_unique out0 l a a' : summary out0 l a → summary out0 l a' → a = a'.
Proof using.
  intros [Ho Ht Hs Hh Hmn Hmx] [Ho' Ht' Hs' Hh' Hmn' Hmx']. destruct a, a'. cbn in *. rewrite !Forall_forall in *.
  f_equal; try congruence.
  - destruct Hmn as [[-> ->]|[Hin Hall]]; destruct Hmn' as [[? ->]|[Hin' Hall']]; subst; try done.
    + by apply not_elem_of_nil in Hin'.
    + by apply not_elem_of_nil in Hin.
    + apply Z.le_antisymm; [by apply Hall|by apply Hall'].
  - destruct Hmx as [[-> ->]|[Hin Hall]]; destruct Hmx' as [[? ->]|[Hin' Hall']]; subst; try done.
    + by apply not_elem_of_nil in Hin'.
    + by apply not_elem_of_nil in Hin.
    + apply Z.le_antisymm; [by apply Hall'|by apply Hall].
Qed.

(** Folding a shard into the totals so far. *)
Lemma merge_shard_spec n out0 l a h lg sec : summary out0 l a → length out0 = length bs → hist_rep n h lg →
  Forall (λ d, 0 ≤ d) l →
  summary out0 (l ++ in_window n (Z.max (base h) sec) lg) (merge_shard sec a h).
Proof using Hne Hinc.
  intros Ha Hl Hh Hpl. unfold merge_shard.
  assert (Hlo : length (out a) = length bs).
  { rewrite (s_out _ _ _ Ha), length_zip_with. unfold counts_of. rewrite length_fmap, length_seq. lia. }
  pose proof (foldLocked_spec n h lg sec (out a) Hh Hlo) as Hf. destruct (foldLocked h sec (out a)) as [b h'].
  destruct Hf as (Hb & _ & _). pose proof (window_nonneg n (Z.max (base h) sec) lg (base h) (h_past _ _ _ Hh)) as Hpw.
  set (w := in_window n (Z.max (base h) sec) lg) in *.
  destruct Ha as [Ho Ht Hs Hhm Hmn Hmx], Hb as [Bo Bt Bs Bh Bmn Bmx]. rewrite Forall_forall in Hpl, Hpw.
  split; cbn [out atotal asum hasMin amin amax].
  - by rewrite Bo, Ho, counts_of_app, zip_add_assoc.
  - rewrite Ht, Bt, length_app. lia.
  - by rewrite Hs, Bs, u64_add_l, u64_add_r, zsum_app.
  - rewrite Hhm, Bh. by destruct l, w.
  - rewrite Hhm, Bh. destruct Bmn as [[-> Hb0]|[Hin2 Hall2]]; [rewrite app_nil_r; exact Hmn|].
    assert (Hw : w ≠ []) by (intros Hw; rewrite Hw in Hin2; by apply not_elem_of_nil in Hin2).
    rewrite (bool_decide_false (w = [])) by done. cbn [negb andb].
    destruct Hmn as [[-> Hm]|[Hin1 Hall1]]; [by cbn; right|].
    assert (l ≠ []) by (intros ->; by apply not_elem_of_nil in Hin1). rewrite bool_decide_false by done. cbn [negb orb].
    right. rewrite Forall_app, elem_of_app. rewrite !Forall_forall in *. destruct (Z.ltb_spec (amin b) (amin a)).
    + split; [by right|]. split; [|done]. intros x Hx. specialize (Hall1 x Hx). lia.
    + split; [by left|]. split; [done|]. intros x Hx. specialize (Hall2 x Hx). lia.
  - destruct Bmx as [[Hw Hb0]|[Hin2 Hall2]].
    + rewrite Hw, app_nil_r, Hb0. destruct (Z.ltb_spec (amax a) 0) as [Hneg|]; [|exact Hmx]. exfalso.
      destruct Hmx as [[_ ?]|[Hin _]]; [lia|]. specialize (Hpl _ Hin). lia.
    + specialize (Hpw _ Hin2). right. rewrite Forall_app, elem_of_app.
      destruct Hmx as [[-> Hm]|[Hin1 Hall1]]; rewrite !Forall_forall in *.
      * destruct (Z.ltb_spec (amax a) (amax b)); [split; [by right|]; split; [by intros x Hx%not_elem_of_nil|done]|].
        assert (amax a = amax b) as -> by lia. split; [by right|]. split; [by intros x Hx%not_elem_of_nil|done].
      * destruct (Z.ltb_spec (amax a) (amax b)).
        -- split; [by right|]. split; [|done]. intros x Hx. specialize (Hall1 x Hx). lia.
        -- split; [by left|]. split; [done|]. intros x Hx. specialize (Hall2 x Hx). lia.
Qed.

(** ** Quantiles *)

(** The bucket that holds rank [target] in the concatenation of the buckets. *)
Lemma find_bucket_spec merged i running target total : Forall (λ c, 0 ≤ c) merged → running < target ≤ total →
  running + zsum merged = total →
  ∃ j c, merged !! j = Some c ∧ find_bucket merged i running target = Some ((i + j)%nat, c, target - (running + zsum (take j merged))) ∧
    running + zsum (take j merged) < target ≤ running + zsum (take j merged) + c.
Proof using.
  revert i running. induction merged as [|c merged IH]; intros i running Hall Ht Hz; cbn [zsum] in Hz; [lia|].
  apply Forall_cons in Hall as [Hc Hall]. cbn [find_bucket].
  destruct ((0 <? c) && (target <=? running + c)) eqn:Hg.
  - apply andb_prop in Hg as [Hg1%Z.ltb_lt Hg2%Z.leb_le]. exists 0%nat, c. cbn [take zsum].
    split; [done|]. split; [|lia]. rewrite Nat.add_0_r. f_equal. f_equal. lia.
  - assert (Hn : running + c < target).
    { destruct (Z.ltb_spec 0 c), (Z.leb_spec target (running + c)); simpl in Hg; done || lia. }
    destruct (IH (S i) (running + c) Hall ltac:(lia) ltac:(lia)) as (j & c' & Hj & Hf & Hr). exists (S j), c'.
    cbn [take zsum]. split; [done|]. split; [|lia]. rewrite Hf. rewrite Nat.add_succ_r. f_equal. f_equal. lia.
Qed.

(** In a sorted list the first [zsum (take j counts)] samples are those of the
    buckets before [j]. *)
Lemma below_count (l : list Z) j : (j ≤ length bs)%nat →
  zsum (take j (counts_of l)) = Z.of_nat (length (filter (λ d, (bucketIndex bs d < j)%nat) l)).
Proof using.
  intros Hj. unfold counts_of. rewrite <- fmap_take, take_seq, Nat.min_l by lia. clear Hj.
  induction j as [|j IH].
  { assert (Hz : filter (λ d, (bucketIndex bs d < 0)%nat) l = []); [|by rewrite Hz].
    apply filter_none. intros x _. lia. }
  rewrite seq_S, fmap_app, zsum_app, IH. cbn [fmap list_fmap zsum]. rewrite Z.add_0_r. unfold cnt.
  rewrite <- Nat2Z.inj_add. f_equal. clear. cbn [Nat.add]. induction l as [|d l IHl]; [done|]. rewrite !filter_cons.
  repeat case_decide; simpl; lia.
Qed.

Lemma sorted_rank (l : list Z) (i j : nat) v : StronglySorted Z.le l → l !! i = Some v →
  (i < length (filter (λ d, (bucketIndex bs d < j)%nat) l))%nat ↔ (bucketIndex bs v < j)%nat.
Proof using Hne Hinc.
  intros Hs. revert i. induction Hs as [|d l Hs IH Hall]; intros i Hi; [by rewrite lookup_nil in Hi|].
  rewrite Forall_forall in Hall. rewrite filter_cons. destruct i as [|i]; simplify_eq/=.
  - case_decide as Hd; simpl; [lia|].
    assert (Hz : filter (λ d, (bucketIndex bs d < j)%nat) l = []).
    { apply filter_none. intros x Hx. pose proof (bucketIndex_mono bs v x Hne Hinc (Hall x Hx)). lia. }
    rewrite Hz. simpl. lia.
  - case_decide as Hd; simpl; [rewrite <- (IH i Hi); lia|].
    pose proof (bucketIndex_mono bs d v Hne Hinc (Hall v (list_elem_of_lookup_2 _ _ _ Hi))).
    assert (Hz : filter (λ d, (bucketIndex bs d < j)%nat) l = []).
    { apply filter_none. intros x Hx. pose proof (bucketIndex_mono bs d x Hne Hinc (Hall x Hx)). lia. }
    rewrite Hz. simpl. lia.
Qed.

Lemma target_of_range total q : 0 < total → 1 ≤ target_of total q ≤ total.
Proof using. intros Ht. unfold target_of. zcases; lia. Qed.

Lemma quantile_bucket (l : list Z) q : l ≠ [] → StronglySorted Z.le l →
  ∃ i c k v, find_bucket (counts_of l) 0 0 (target_of (Z.of_nat (length l)) q) = Some (i, c, k) ∧
    1 ≤ k ≤ c ∧ l !! Z.to_nat (target_of (Z.of_nat (length l)) q - 1) = Some v ∧ bucketIndex bs v = i.
Proof using Hne Hinc.
  intros Hl Hs. assert (Hlen : 0 < Z.of_nat (length l)) by (destruct l; simpl; [done|lia]).
  set (t := target_of (Z.of_nat (length l)) q). pose proof (target_of_range (Z.of_nat (length l)) q Hlen) as Ht. fold t in Ht.
  assert (Hsum : zsum (counts_of l) = Z.of_nat (length l)).
  { rewrite <- (take_ge (counts_of l) (length bs)) by (unfold counts_of; by rewrite length_fmap, length_seq).
    rewrite below_count by done. do 2 f_equal. apply filter_all. intros x _.
    by destruct (bucketIndex_bounds bs x Hne Hinc). }
  destruct (find_bucket_spec (counts_of l) 0 0 t (Z.of_nat (length l))) as (j & c & Hj & Hf & Hr); [|lia|by rewrite Hsum|].
  { unfold counts_of. apply Forall_fmap, Forall_forall. intros x _. unfold cnt. simpl. lia. }
  assert (Hjl : (j < length bs)%nat).
  { apply lookup_lt_Some in Hj. unfold counts_of in Hj. by rewrite length_fmap, length_seq in Hj. }
  destruct (lookup_lt_is_Some_2 l (Z.to_nat (t - 1))) as [v Hv]; [lia|].
  exists j, c, (t - (0 + zsum (take j (counts_of l)))), v. split; [done|]. split; [lia|]. split; [done|].
  pose proof (sorted_rank l _ j v Hs Hv) as Hlo. pose proof (sorted_rank l _ (S j) v Hs Hv) as Hhi.
  rewrite (below_count l j) in Hr by lia.
  assert (Hnext : zsum (take (S j) (counts_of l)) = zsum (take j (counts_of l)) + c).
  { rewrite (take_S_r _ _ _ Hj), zsum_app. simpl. lia. }
  rewrite !below_count in Hnext by lia. lia.
Qed.
End stats.

(** ** Histories *)

(** The seconds samples are recorded at: the ring never goes back. *)
Fixpoint recorded (b : Z) (lg : list (Z * Z)) (samples : list (Z * Z)) : Z * list (Z * Z) :=
  match samples with
  | [] => (b, lg)
  | (d, sec) :: samples => recorded (Z.max b sec) ((Z.max b sec, Z.max 0 d) :: lg) samples
  end.

Definition observe_all (h : Histogram) (samples : list (Z * Z)) : Histogram :=
  foldl (λ h e, Observe h e.1 e.2) h samples.

Lemma NewHistogram_rep opts now h : NewHistogram opts now = Some h → 0 ≤ now →
  boundaries h ≠ [] ∧ increasing (boundaries h) ∧ hist_rep (boundaries h) (windowSec h) h [] ∧ base h = now.
Proof.
  unfold NewHistogram. assert (Hw : Second ≤ Window (withDefaults opts)).
  { unfold withDefaults. cbn [Window]. by destruct (Z.ltb_spec (Window opts) Second). }
  set (o := withDefaults opts) in *. clearbody o. destruct (validBoundaries (Boundaries o)) eqn:Hv; [|done]. cbn [negb].
  intros [= <-] Hnow. cbn [boundaries windowSec base]. destruct (validBoundaries_spec _ Hv) as (Hne & Hinc & _).
  assert (Hsecs : 1 ≤ Window o / Second) by (apply Z.div_le_lower_bound; [done|lia]).
  set (secs := Window o / Second) in *. clearbody secs.
  split_and!; try done. split; cbn [boundaries windowSec base buckets]; try done; [lia|apply length_replicate|].
  intros i Hi. by rewrite lookup_replicate_2.
Qed.

Lemma observe_all_rep bs n samples h lg : hist_rep bs n h lg →
  hist_rep bs n (observe_all h samples) (recorded (base h) lg samples).2 ∧
  base (observe_all h samples) = (recorded (base h) lg samples).1.
Proof.
  revert h lg. induction samples as [|[d sec] samples IH]; intros h lg Hh; [done|].
  unfold observe_all. cbn [foldl recorded fst snd]. destruct (Observe_rep bs n h lg d sec Hh) as [Hh' Hb].
  rewrite <- Hb in Hh' |- *. by apply IH.
Qed.

(** The samples of the window that ends at [sec]. *)
Definition window_of (h : Histogram) (samples : list (Z * Z)) (sec : Z) : list Z :=
  let '(b, lg) := recorded (base h) [] samples in in_window (windowSec h) (Z.max b sec) lg.

Lemma fold_window opts now h samples sec : NewHistogram opts now = Some h → 0 ≤ now →
  summary (boundaries h) (replicate (length (boundaries h)) 0) (window_of h samples sec)
    (foldLocked (observe_all h samples) sec (replicate (numBuckets (observe_all h samples)) 0)).1 ∧
  boundaries (observe_all h samples) = boundaries h ∧
  boundaries (foldLocked (observe_all h samples) sec (replicate (numBuckets (observe_all h samples)) 0)).2 = boundaries h.
Proof.
  intros Hn Hnow. destruct (NewHistogram_rep _ _ _ Hn Hnow) as (Hne & Hinc & Hrep & Hb).
  destruct (observe_all_rep _ _ samples h [] Hrep) as [Hh Hbase]. unfold window_of, numBuckets.
  rewrite (h_bounds _ _ _ _ Hh). destruct (recorded (base h) [] samples) as [b lg]. cbn [fst snd] in *.
  pose proof (foldLocked_spec (boundaries h) Hne Hinc (windowSec h) _ lg sec (replicate (length (boundaries h)) 0) Hh (length_replicate _ _)) as Hf.
  destruct (foldLocked _ _ _) as [a h']. cbn [fst snd]. rewrite Hbase in Hf. destruct Hf as (Hs & Hh' & _).
  split; [exact Hs|]. split; [done|]. apply Hh'.
Qed.

Lemma counts_of_zeros bs l : zip_with Z.add (replicate (length bs) 0) (counts_of bs l) = counts_of bs l.
Proof.
  assert (Hl : length (counts_of bs l) = length bs) by (unfold counts_of; by rewrite length_fmap, length_seq).
  rewrite <- Hl. clear. induction (counts_of bs l) as [|x m IH]; simpl; [done|]. by f_equal.
Qed.

(** C36: a snapshot reports exactly the samples of its window, whatever the clock did:
    the count is their number, minimum and maximum are theirs, and the mean is their
    sum divided by their number when the sum fits 64 bits. *)
Theorem latency_window_exact opts now h samples sec :
  NewHistogram opts now = Some h → 0 ≤ now →
  let w := window_of h samples sec in
  let st := (Snapshot (observe_all h samples) sec).1 in
  Count st = Z.of_nat (length w) ∧
  (w ≠ [] → Min st ∈ w ∧ Forall (λ x, Min st ≤ x) w ∧ Max st ∈ w ∧ Forall (λ x, x ≤ Max st) w) ∧
  (w ≠ [] → 0 ≤ zsum w < 2 ^ 64 → Mean st = zsum w / Z.of_nat (length w)).
Proof.
  intros Hn Hnow w st. destruct (fold_window opts now h samples sec Hn Hnow) as ([Ho Ht Hs Hh Hmn Hmx] & _ & _).
  fold w in Ht, Hs, Hh, Hmn, Hmx. subst st. unfold Snapshot. destruct (foldLocked _ _ _) as [a h']. cbn [fst] in *.
  unfold stats_of. destruct (Z.eqb_spec (atotal a) 0) as [Hz|Hz].
  { assert (w = []) as ->; [|done]. apply length_zero_iff_nil. lia. }
  assert (Hw : w ≠ []) by (intros Hw; rewrite Hw in Ht; done). rewrite bool_decide_false in Hh by done.
  cbn [Count Min Max Mean]. rewrite Hh, Ht, Hs. cbn [negb]. split; [done|]. split.
  - intros _. destruct Hmn as [[? _]|[? ?]]; [done|]. destruct Hmx as [[? _]|[? ?]]; [done|]. done.
  - intros _ Hr. rewrite u64_id by (unfold max_u64; lia). destruct (Z.ltb_spec 0 (zsum w)); [done|].
    assert (zsum w = 0) as -> by lia. by rewrite Z.div_0_l by (destruct w; [done|simpl; lia]).
Qed.

Definition demo_opts : Options := mkOptions (2 * Second) [10; 20; 40].
Definition demo_hist : Histogram :=
  mkHist [10; 20; 40] 2 [zero_bucket 3; zero_bucket 3] 100.

Lemma latency_window_exact_witness :
  window_of demo_hist [(15, 100); (5, 101); (12, 101); (33, 102)] 102 = [33; 12; 5] ∧
  Count (Snapshot (observe_all demo_hist [(15, 100); (5, 101); (12, 101); (33, 102)]) 102).1 = 3.
Proof.
  split; [vm_compute; reflexivity|].
  apply (latency_window_exact demo_opts 100 demo_hist [(15, 100); (5, 101); (12, 101); (33, 102)] 102); [reflexivity|lia].
Defined.

(** A quantile is interpolated in the right bucket: with the samples of the window
    in ascending order, the sample of rank ceil(q * count), kept between 1 and the
    count, lies in the bucket whose bounds are interpolated, at the position it has
    among that bucket's samples. *)
Theorem latency_quantile_bucket opts now h samples sec q l :
  NewHistogram opts now = Some h → 0 ≤ now →
  l ≡ₚ window_of h samples sec → l ≠ [] → StronglySorted Z.le l →
  let rank := target_of (Z.of_nat (length l)) (clamp_q q) in
  ∃ i c k v, (Quantile (observe_all h samples) q sec).1 = interpolate (lowerBound (boundaries h) i) (nth i (boundaries h) 0) k c ∧
    1 ≤ k ≤ c ∧ 1 ≤ rank ≤ Z.of_nat (length l) ∧ l !! Z.to_nat (rank - 1) = Some v ∧
    bucketIndex (boundaries h) v = i.
Proof.
  intros Hn Hnow Hp Hl Hs rank. destruct (NewHistogram_rep _ _ _ Hn Hnow) as (Hne & Hinc & _).
  destruct (fold_window opts now h samples sec Hn Hnow) as (Hsum & _ & Hb2).
  apply (summary_perm _ _ _ _ _ (symmetry Hp)) in Hsum. destruct Hsum as [Ho Ht _ _ _ _].
  rewrite counts_of_zeros in Ho. destruct (quantile_bucket (boundaries h) Hne Hinc l (clamp_q q) Hl Hs) as (i & c & k & v & Hf & Hk & Hv & Hi).
  exists i, c, k, v. split.
  - unfold Quantile. destruct (foldLocked _ _ _) as [a h']. cbn [fst snd] in *. unfold quantileFromMerged.
    rewrite Ht, Ho, Hb2. destruct (Z.eqb_spec (Z.of_nat (length l)) 0); [destruct l; [done|simpl in *; lia]|]. by rewrite Hf.
  - split_and!; [lia..| | |done|done]; apply target_of_range; destruct l; simpl; done || lia.
Qed.

Lemma latency_quantile_bucket_witness :
  ∃ i c k v, (Quantile (observe_all demo_hist [(15, 100); (5, 101); (12, 101)]) (f64_ratio 1 2) 101).1 =
      interpolate (lowerBound [10; 20; 40] i) (nth i [10; 20; 40] 0) k c ∧
    1 ≤ k ≤ c ∧ 1 ≤ target_of 3 (clamp_q (f64_ratio 1 2)) ≤ 3 ∧
    [5; 12; 15] !! Z.to_nat (target_of 3 (clamp_q (f64_ratio 1 2)) - 1) = Some v ∧ bucketIndex [10; 20; 40] v = i.
Proof.
  apply (latency_quantile_bucket demo_opts 100 demo_hist [(15, 100); (5, 101); (12, 101)] 101 (f64_ratio 1 2) [5; 12; 15]).
  - reflexivity.
  - lia.
  - change (window_of demo_hist [(15, 100); (5, 101); (12, 101)] 101) with [12; 5; 15]. apply perm_swap.
  - discriminate.
  - repeat constructor; lia.
Defined.

(** The binary search for a sample's bucket finds what a linear scan finds: the first
    boundary that is not below the sample, the last bucket for larger ones. *)
Theorem bucketIndex_linear bs v : validBoundaries bs = true → bucketIndex bs v = linear_index bs v.
Proof.
  intros (Hne & Hinc & _)%validBoundaries_spec. destruct (bucketIndex_bounds bs v Hne Hinc) as (Hi & Hlow & Hup).
  symmetry. by apply linear_index_spec.
Qed.

Lemma bucketIndex_linear_witness : bucketIndex DefaultBoundaries (7 * Millisecond) = linear_index DefaultBoundaries (7 * Millisecond) ∧
  linear_index DefaultBoundaries (7 * Millisecond) = 6%nat.
Proof. split; [apply (bucketIndex_linear DefaultBoundaries); vm_compute; reflexivity|reflexivity]. Defined.

(** A window below one second is replaced by the default of a minute. *)
Example latency_short_window : Window (withDefaults (mkOptions (Second - 1) [])) = 60 * Second.
Proof. reflexivity. Qed.

(** [Quantile] at 0 is the middle of the first bucket in use, not the minimum. *)
Example latency_quantile_zero : (Quantile (observe_all demo_hist [(19, 100)]) (f64_of_Z 0) 100).1 = 15.
Proof. vm_compute. reflexivity. Qed.

(** ** Merging shards *)

Definition shard_observe_all (s : ShardHistogram) (samples : list (Z * Z)) : ShardHistogram :=
  foldl (λ s e, shard_Observe s e.1 e.2) s samples.

Lemma length_shard_observe_all s samples : length (shards (shard_observe_all s samples)) = length (shards s).
Proof.
  revert s. unfold shard_observe_all. induction samples as [|e samples IH]; intros s; [done|]. cbn [foldl]. rewrite IH.
  unfold shard_Observe. cbn [shards]. apply length_alter.
Qed.

(** The clock does not go back, from [b] to [sec]. *)
Fixpoint times_ok (b : Z) (samples : list (Z * Z)) (sec : Z) : Prop :=
  match samples with [] => b ≤ sec | (_, t) :: samples => b ≤ t ∧ times_ok t samples sec end.

Definition log_of (samples : list (Z * Z)) : list (Z * Z) := (λ e, (e.2, Z.max 0 e.1)) <$> samples.

Lemma recorded_monotone b lg samples sec : times_ok b samples sec →
  (recorded b lg samples).1 ≤ sec ∧ (recorded b lg samples).2 ≡ₚ log_of samples ++ lg.
Proof.
  revert b lg. induction samples as [|[d t] samples IH]; intros b lg Ht; cbn in *; [done|].
  destruct Ht as [Hb Ht]. rewrite Z.max_r by done. destruct (IH t ((t, Z.max 0 d) :: lg) Ht) as [? ->]. split; [done|].
  unfold log_of. csimpl. by rewrite Permutation_middle.
Qed.

Section shards.
Context (bs : list Z) (Hne : bs ≠ []) (Hinc : increasing bs) (n : nat).

(** Shards, their logs, and a second none of them has passed. *)
Definition shards_rep (hs : list Histogram) (lgs : list (list (Z * Z))) (b : Z) : Prop :=
  Forall2 (hist_rep bs n) hs lgs ∧ Forall (λ h, base h ≤ b) hs.

Lemma shards_insert hs lgs b i d sec : shards_rep hs lgs b → b ≤ sec → (i < length hs)%nat →
  ∃ lgs', shards_rep (alter (λ h, Observe h d sec) i hs) lgs' sec ∧ concat lgs' ≡ₚ (sec, Z.max 0 d) :: concat lgs.
Proof using.
  intros [Hf Hb] Hbs. revert i. induction Hf as [|h lg hs lgs Hh Hf IH]; intros i Hi; [simpl in Hi; lia|].
  apply Forall_cons in Hb as [Hbh Hb]. assert (Hmono : Forall (λ h, base h ≤ sec) hs) by (eapply Forall_impl; [exact Hb|]; simpl; lia).
  destruct i as [|i].
  - destruct (Observe_rep bs n h lg d sec Hh) as [Hh' Hbase]. rewrite Z.max_r in Hh', Hbase by lia.
    exists (((sec, Z.max 0 d) :: lg) :: lgs). split; [|done]. split; constructor; try done. by rewrite Hbase.
  - destruct (IH Hb i) as (lgs' & [Hf' Hb'] & Hp); [simpl in Hi; lia|]. exists (lg :: lgs'). split.
    + split; constructor; try done. lia.
    + csimpl. rewrite Hp. by rewrite Permutation_middle.
Qed.

Lemma shards_observe_rep s lgs b samples sec : shards_rep (shards s) lgs b → shards s ≠ [] → times_ok b samples sec →
  ∃ lgs', shards_rep (shards (shard_observe_all s samples)) lgs' sec ∧ concat lgs' ≡ₚ log_of samples ++ concat lgs.
Proof using.
  revert s lgs b. induction samples as [|[d t] samples IH]; intros s lgs b Hs Hnil Ht; cbn in Ht.
  { exists lgs. split; [|done]. destruct Hs as [? Hb]. split; [done|]. eapply Forall_impl; [exact Hb|]. simpl. lia. }
  destruct Ht as [Hb Ht]. unfold shard_observe_all. cbn [foldl fst snd]. set (s1 := shard_Observe s d t).
  assert (Hlen : (0 < length (shards s))%nat) by (destruct (shards s); [done|simpl; lia]).
  destruct (shards_insert (shards s) lgs b (Z.to_nat (u64 (rr s + 1) mod Z.of_nat (length (shards s)))) d t Hs Hb) as (lgs1 & Hs1 & Hp1).
  { pose proof (Z.mod_pos_bound (u64 (rr s + 1)) (Z.of_nat (length (shards s)))). lia. }
  destruct (IH s1 lgs1 t Hs1) as (lgs' & Hs' & Hp'); [|done|].
  { intros Hs1nil. apply (f_equal length) in Hs1nil. unfold s1, shard_Observe in Hs1nil. cbn in Hs1nil. rewrite length_alter in Hs1nil. lia. }
  exists lgs'. split; [done|]. rewrite Hp', Hp1. unfold log_of. csimpl. by rewrite Permutation_middle.
Qed.

Lemma in_window_app b lg1 lg2 : in_window n b (lg1 ++ lg2) = in_window n b lg1 ++ in_window n b lg2.
Proof using. unfold in_window. by rewrite filter_app, fmap_app. Qed.

Lemma fold_shards_spec hs lgs sec out0 l a : shards_rep hs lgs sec → summary bs out0 l a → length out0 = length bs →
  Forall (λ d, 0 ≤ d) l → summary bs out0 (l ++ in_window n sec (concat lgs)) (foldl (merge_shard sec) a hs).
Proof using Hne Hinc.
  intros [Hf Hb] Ha Hl. revert l a Ha. induction Hf as [|h lg hs lgs Hh Hf IH]; intros l a Ha Hp; cbn [foldl concat].
  { by rewrite app_nil_r. }
  apply Forall_cons in Hb as [Hbh Hb]. rewrite in_window_app, (assoc_L (++)).
  pose proof (merge_shard_spec bs Hne Hinc n out0 l a h lg sec Ha Hl Hh Hp) as Hm. rewrite Z.max_r in Hm by lia.
  apply (IH Hb); [done|]. apply Forall_app. split; [done|]. eapply window_nonneg, (h_past _ _ _ _ Hh).
Qed.
End shards.

Lemma in_window_perm n b lg lg' : lg ≡ₚ lg' → in_window n b lg ≡ₚ in_window n b lg'.
Proof. intros Hp. unfold in_window. by rewrite Hp. Qed.

(** With a clock that does not go back, a sharded histogram reports what a single
    histogram reports that has seen all samples, whichever shards the round-robin
    counter chose. *)
Theorem latency_shards_merge k procs opts now s h samples sec :
  NewShardHistogram k procs opts (λ _, now) = Some s → NewHistogram opts now = Some h → 0 ≤ now →
  times_ok now samples sec →
  (shard_Snapshot (shard_observe_all s samples) sec).1 = (Snapshot (observe_all h samples) sec).1.
Proof.
  intros Hs Hh Hnow Ht. destruct (NewHistogram_rep _ _ _ Hh Hnow) as (Hne & Hinc & Hrep & Hb).
  set (bs := boundaries h) in *. set (n := windowSec h) in *. unfold NewShardHistogram in Hs.
  set (m := Z.to_nat (if k <=? 0 then AutoShardCount procs else k)) in Hs.
  assert (Hm : (0 < m)%nat) by (unfold m, AutoShardCount; zcases; lia).
  assert (Hmap : mapM (λ _, NewHistogram opts now) (seq 0 m) = Some (replicate m h)).
  { apply mapM_Some. clear -Hh. generalize 0%nat. induction m as [|m IH]; intros i; simpl; by constructor. }
  rewrite Hmap in Hs. injection Hs as <-.
  destruct (shards_observe_rep bs n (mkShard (replicate m h) 0) (replicate m []) now samples sec) as (lgs & Hsr & Hp); [|by destruct m; [lia|]|done|].
  { split; cbn [shards]; [apply Forall2_replicate; exact Hrep|]. apply Forall_replicate. lia. }
  assert (Hconcat : concat (replicate m ([] : list (Z * Z))) = []) by (clear; by induction m). rewrite Hconcat, app_nil_r in Hp.
  destruct (recorded_monotone now [] samples sec Ht) as [Hrb Hrl]. rewrite app_nil_r in Hrl.
  destruct (fold_window opts now h samples sec Hh Hnow) as (Hsum & _ & Hbf). unfold Snapshot.
  destruct (foldLocked _ _ _) as [a h'] eqn:Hfold. cbn [fst snd] in Hsum, Hbf |- *. rewrite Hbf.
  assert (Hw : window_of h samples sec ≡ₚ in_window n sec (concat lgs)).
  { unfold window_of. rewrite Hb. destruct (recorded now [] samples) as [b lg]. cbn [fst snd] in *.
    rewrite Z.max_r by done. apply in_window_perm. by rewrite Hrl, Hp. }
  apply (summary_perm _ _ _ _ _ Hw) in Hsum. unfold shard_Snapshot, foldAll.
  set (hs := shards (shard_observe_all (mkShard (replicate m h) 0) samples)) in *.
  assert (Hbs : match hs with h :: _ => boundaries h | [] => [] end = bs).
  { assert (Hl : length hs = m) by (unfold hs; rewrite length_shard_observe_all; apply length_replicate).
    destruct Hsr as [Hf _]. destruct Hf as [|h1 lg1 hs1 lgs1 Hh1 _]; [simpl in Hl; lia|apply Hh1]. }
  rewrite Hbs. cbn [fst]. f_equal. eapply summary_unique; [|exact Hsum].
  apply (fold_shards_spec bs Hne Hinc n hs lgs sec _ [] _ Hsr); [|apply length_replicate|done].
  apply summary_nil, length_replicate.
Qed.

Lemma latency_shards_merge_witness :
  (shard_Snapshot (shard_observe_all (mkShard [demo_hist; demo_hist; demo_hist] 0) [(15, 100); (5, 101); (33, 102)]) 102).1 =
  (Snapshot (observe_all demo_hist [(15, 100); (5, 101); (33, 102)]) 102).1.
Proof.
  apply (latency_shards_merge 3 8 demo_opts 100); [reflexivity|reflexivity|lia|simpl; lia].
Defined.
