(* ===== verification/Pipeline.v ===== *)
(** * Pipeline: the asynchronous delivery path of the [log4go] writers

    [FileWriter] and [NetWriter] share one design: callers put records on a bounded
    channel under an overflow policy, one daemon takes them off and writes them, and
    a spill store holds what did not fit until the daemon's ticker puts it back.
    [Stop] raises [closing], closes [stop] and waits for the daemon, which writes what
    is left; the channel itself is never closed.

    The callers of [send] (for the net writer, of the same code in [Write]), the
    daemon and the caller of [Stop] are program counters interleaved over one state.
    The spill store is any implementation of the interface [SpillerOps] that satisfies
    [SpillerSpec]; the three stores of Spill.v do.  [writeOne] and [flushSync] are the
    writer's own ([sink]); the hooks only observe.  [waitQuit]'s time-out is left out.

    Shown: whatever the interleaving no record is duplicated or made up, and every loss
    is in the drop counter, without a store, or with one that does not overwrite as
    long as refills fit into the channel ([pipeline_conserves]); without a spill
    store records are written in the order in which the channel accepted them
    ([pipeline_fifo]); after [Stop] the daemon ends within a number of steps bounded by
    what is left and by the callers past their test of [closing]
    ([shutdown_terminates]), and leaves nothing behind once those are through
    ([shutdown_complete]).  [refill_loses] shows what [drainSpill] does when
    the channel fills up again: the records after the first that does not fit are
    neither written, nor kept, nor counted. *)

From Stdlib Require Import ZArith Lia.
From stdpp Require Import base tactics numbers list relations.
From AAC_tactics Require Import AAC.
From AAC_tactics Require Instances.
From S2P Require Import Prelude Spill.
Import Instances.Lists.

#[local] Open Scope Z_scope.

(** Permutations of concatenations, modulo associativity and commutativity. *)
#[local] Instance perm_lift {A} : AAC_lift (@Permutation A) (@Permutation A).
Proof. constructor; [apply Permutation_Equivalence|intros ?? H ?? H'; by rewrite H, H']. Qed.

Ltac split_cons :=
  repeat match goal with
  | |- context [?x :: ?l] => lazymatch l with [] => fail | _ => change (x :: l) with ([x] ++ l) end
  end.
Ltac perm := split_cons; aac_reflexivity.

(** ** The interface [Spiller[T]] *)

(** The flag of [sp_drain] is the outcome of [os.Rename]; a ring ignores it. *)
Class SpillerOps (S T : Type) := {
  sp_push : S → T → bool * S;
  sp_drain : bool → S → list T * S;
  sp_len : S → Z }.

(** What the writers rely on.  A push that succeeds may displace older records unless
    the store is [lossless]; a drain returns what it removes. *)
Class SpillerSpec (S T : Type) `{SpillerOps S T} (lossless : bool) := {
  sp_rep : S → list T → Prop;
  push_ok s l m : sp_rep s l →
    match sp_push s m with
    | (true, s') => ∃ gone l', sp_rep s' l' ∧ gone ++ l' ≡ₚ l ++ [m] ∧ (lossless = true → gone = [])
    | (false, s') => sp_rep s' l
    end;
  drain_ok b s l : sp_rep s l →
    let '(o, s') := sp_drain b s in ∃ l', sp_rep s' l' ∧ o ++ l' ≡ₚ l ∧ (b = true → l' = []);
  len_ok s l : sp_rep s l → sp_len s = Z.of_nat (length l) }.

Section instances.
Context {T : Type} (zero : T) (Encode : T → option bytes) (Decode : bytes → option T).

Definition ring_ops : SpillerOps (@RingSpiller T) T :=
  {| sp_push r m := (true, ring_Push r m); sp_drain _ r := ring_Drain zero r; sp_len r := Z.of_nat (size r) |}.
Definition file_ops : SpillerOps FileSpiller T :=
  {| sp_push f m := file_Push Encode f m; sp_drain := file_Drain Decode; sp_len := file_Len |}.
Definition chain_ops : SpillerOps (@ChainedSpiller T) T :=
  {| sp_push c m := chain_Push Encode c m; sp_drain := chain_Drain zero Decode; sp_len := chain_Len |}.

#[local] Existing Instances ring_ops file_ops chain_ops.

#[refine] Definition ring_spec : SpillerSpec (@RingSpiller T) T false :=
  {| sp_rep r l := ring_wf r ∧ ring_contents zero r = l |}.
Proof using.
  - intros r l m [Hwf <-]. cbn. destruct (ring_Push_spec zero r m Hwf) as (Hwf' & _ & Hc).
    destruct (size r <? capv r)%nat.
    + exists [], (ring_contents zero r ++ [m]). by split_and!.
    + exists (take 1 (ring_contents zero r)), (drop 1 (ring_contents zero r) ++ [m]).
      split_and!; [done..| |done]. by rewrite (assoc_L (++)), take_drop.
  - intros b r l [Hwf <-]. cbn. destruct (ring_Drain_spec zero r Hwf) as (Ho & Hwf' & _ & Hz).
    destruct (ring_Drain zero r) as [o r']. cbn [fst snd] in *. exists []. rewrite app_nil_r, Ho.
    split_and!; [done|by apply ring_contents_nil|done|done].
  - intros r l [Hwf <-]. cbn. by rewrite length_ring_contents.
Defined.

Context (Hcodec : ∀ m b, Encode m = Some b → Decode b = Some m).

#[refine] Definition file_spec : SpillerSpec FileSpiller T true := {| sp_rep f l := file_rep Encode f l |}.
Proof using Hcodec.
  - intros f l m Hf. cbn. pose proof (file_Push_spec Encode f l m Hf) as Hp. destruct (file_Push Encode f m) as [[] f'].
    + destruct Hp as [Hp _]. by exists [], (l ++ [m]).
    + by destruct Hp as [-> _].
  - intros b f l Hf. cbn. destruct (file_Drain_spec Encode Decode Hcodec b f l Hf) as (_ & Ho & Hr).
    destruct (file_Drain Decode b f) as [o f']. cbn [fst snd] in *. eexists. split; [exact Hr|].
    destruct b; rewrite Ho; [by rewrite app_nil_r|done].
  - intros f l Hf. apply (f_count _ _ _ Hf).
Defined.

#[refine] Definition chain_spec : SpillerSpec (@ChainedSpiller T) T true :=
  {| sp_rep c l := ∃ lf, chain_rep Encode c lf ∧ ring_list zero c ++ lf = l |}.
Proof using Hcodec.
  - intros c l m (lf & Hc & <-). cbn. pose proof (chain_Push_spec zero Encode c lf m Hc) as Hp.
    destruct (chain_Push Encode c m) as [[] c'].
    + destruct Hp as (lf' & Hc' & Hp & _). exists [], (ring_list zero c' ++ lf'). split; [by exists lf'|]. by rewrite Hp.
    + subst c'. by exists lf.
  - intros b c l (lf & Hc & <-). cbn. pose proof (chain_Drain_spec zero Encode Decode Hcodec b c lf Hc) as Hd.
    destruct (chain_Drain zero Decode b c) as [o c']. destruct Hd as (-> & Hz & Hc').
    eexists. split; [by eexists|]. rewrite Hz. destruct b; rewrite ?app_nil_r; [done|]. split; done.
  - intros c l (lf & Hc & <-). by apply (chain_Len_spec zero Encode).
Defined.
End instances.

(** ** The pipeline *)

(** A caller of [send]: before its test of [closing], at its [select], and in the
    [default] branch of it. *)
Inductive ppc := Entered | Selecting | Overflowing.

Inductive dpc (T : Type) :=
| Idle                      (** at its [select] *)
| Writing (m : T)           (** [writeOne] *)
| Ticked                    (** flushed; [drainSpill] is next *)
| Opened                    (** [drainSpill] saw [closing] down *)
| Refilling (l : list T)    (** the loop of [drainSpill] *)
| Shutting                  (** [stop] is closed: the loop over the channel *)
| ShutWriting (m : T)
| SpillWriting (l : list T) (** [drainSpillAll] *)
| Quitting                  (** all written; [quit <- struct{}{}] *)
| Ended.
Arguments Idle {T}.
Arguments Writing {T}.
Arguments Ticked {T}.
Arguments Opened {T}.
Arguments Refilling {T}.
Arguments Shutting {T}.
Arguments ShutWriting {T}.
Arguments SpillWriting {T}.
Arguments Quitting {T}.
Arguments Ended {T}.

(** The log of a run: the records that entered [send] or were recovered at the start,
    those the channel accepted, in order, those given to [writeOne], in order, those
    counted as dropped, and those [drainSpill] gave up. *)
Record ghost (T : Type) := mkGhost {
  offered : list T; accepted : list T; handed : list T; dropped_ : list T; abandoned : list T }.
Arguments mkGhost {T}.
Arguments offered {T}.
Arguments accepted {T}.
Arguments handed {T}.
Arguments dropped_ {T}.
Arguments abandoned {T}.

Section ghost.
Context {T : Type} (m : T) (g : ghost T).
Definition g_offer : ghost T := mkGhost (offered g ++ [m]) (accepted g) (handed g) (dropped_ g) (abandoned g).
Definition g_accept : ghost T := mkGhost (offered g) (accepted g ++ [m]) (handed g) (dropped_ g) (abandoned g).
Definition g_hand : ghost T := mkGhost (offered g) (accepted g) (handed g ++ [m]) (dropped_ g) (abandoned g).
Definition g_drop : ghost T := mkGhost (offered g) (accepted g) (handed g) (dropped_ g ++ [m]) (abandoned g).
Definition g_abandon (l : list T) : ghost T := mkGhost (offered g) (accepted g) (handed g) (dropped_ g) (abandoned g ++ l).
End ghost.

Section pipeline.
Context {S T W : Type} `{Ops : SpillerOps S T} (policy : OverflowPolicy) (cap : nat).
Context (writeOne : W → T → W → Prop) (flushSync : W → W → Prop).
(** Whether [os.Rename] of a file store may fail. *)
Context (rename_fails : bool).

Record sys := mkSys {
  messages : list T; spiller : option S; stats : OverflowStats; closing : bool; stop : bool;
  producers : list (ppc * T); daemon : dpc T; sink : W; log : ghost T }.

(** The [default] branch: a store exists only under the spill policy. *)
Definition overflow (sp : option S) (st : OverflowStats) (g : ghost T) (m : T) : option S * OverflowStats * ghost T :=
  match policy, sp with
  | OverflowSpill, Some s =>
      let '(ok, s') := sp_push s m in
      if ok then (Some s', (IncSpilled st).1, g) else (Some s', (IncDropped st).1, g_drop m g)
  | _, _ => (sp, (IncDropped st).1, g_drop m g)
  end.

(** Start-up: what the store held goes to the channel, and back when it is full. *)
Fixpoint resume (l : list T) (q : list T) (sp : S) (st : OverflowStats) (g : ghost T) : list T * S * OverflowStats * ghost T :=
  match l with
  | [] => (q, sp, st, g)
  | m :: l =>
      let g := g_offer m g in
      if (length q <? cap)%nat then resume l (q ++ [m]) sp st (g_accept m g)
      else
        let '(ok, sp') := sp_push sp m in
        if ok then resume l q sp' st g else resume l q sp' (IncDropped st).1 (g_drop m g)
  end.

(** The pipeline as the daemon starts. *)
Definition start (found : option (list T * S)) (st : OverflowStats) (w : W) : sys :=
  let g0 := mkGhost [] [] [] [] [] in
  match found with
  | None => mkSys [] None st false false [] Idle w g0
  | Some (l, sp) => let '(q, sp', st', g) := resume l [] sp st g0 in mkSys q (Some sp') st' false false [] Idle w g
  end.

Inductive producer_step : sys → sys → Prop :=
| p_enter q sp st c x ps d w g m :
    producer_step (mkSys q sp st c x ps d w g) (mkSys q sp st c x (ps ++ [(Entered, m)]) d w (g_offer m g))
| p_closing q sp st x p1 p2 m d w g :
    producer_step (mkSys q sp st true x (p1 ++ (Entered, m) :: p2) d w g)
      (mkSys q sp (IncDropped st).1 true x (p1 ++ p2) d w (g_drop m g))
| p_open q sp st x p1 p2 m d w g :
    producer_step (mkSys q sp st false x (p1 ++ (Entered, m) :: p2) d w g)
      (mkSys q sp st false x (p1 ++ (Selecting, m) :: p2) d w g)
| p_send q sp st c x p1 p2 m d w g : (length q < cap)%nat →
    producer_step (mkSys q sp st c x (p1 ++ (Selecting, m) :: p2) d w g)
      (mkSys (q ++ [m]) sp st c x (p1 ++ p2) d w (g_accept m g))
| p_stopped q sp st c p1 p2 m d w g :
    producer_step (mkSys q sp st c true (p1 ++ (Selecting, m) :: p2) d w g)
      (mkSys q sp (IncDropped st).1 c true (p1 ++ p2) d w (g_drop m g))
| p_default q sp st c p1 p2 m d w g : policy ≠ OverflowBlock → (cap ≤ length q)%nat →
    producer_step (mkSys q sp st c false (p1 ++ (Selecting, m) :: p2) d w g)
      (mkSys q sp st c false (p1 ++ (Overflowing, m) :: p2) d w g)
| p_overflow q sp st c x p1 p2 m d w g sp' st' g' : overflow sp st g m = (sp', st', g') →
    producer_step (mkSys q sp st c x (p1 ++ (Overflowing, m) :: p2) d w g)
      (mkSys q sp' st' c x (p1 ++ p2) d w g').

Inductive daemon_step : sys → sys → Prop :=
| d_take m q sp st c x ps w g :
    daemon_step (mkSys (m :: q) sp st c x ps Idle w g) (mkSys q sp st c x ps (Writing m) w g)
| d_write q sp st c x ps m w w' g : writeOne w m w' →
    daemon_step (mkSys q sp st c x ps (Writing m) w g) (mkSys q sp st c x ps Idle w' (g_hand m g))
| d_tick q sp st c x ps w w' g : flushSync w w' →
    daemon_step (mkSys q sp st c x ps Idle w g) (mkSys q sp st c x ps Ticked w' g)
| d_closing q sp st c x ps w g :
    daemon_step (mkSys q sp st c x ps Ticked w g) (mkSys q sp st c x ps (if c then Idle else Opened) w g)
| d_nothing q sp st c x ps w g : match sp with None => True | Some s => sp_len s = 0 end →
    daemon_step (mkSys q sp st c x ps Opened w g) (mkSys q sp st c x ps Idle w g)
| d_drain q s st c x ps w g b l s' : sp_len s ≠ 0 → b || rename_fails = true → sp_drain b s = (l, s') →
    daemon_step (mkSys q (Some s) st c x ps Opened w g) (mkSys q (Some s') st c x ps (Refilling l) w g)
| d_refilled q sp st c x ps w g :
    daemon_step (mkSys q sp st c x ps (Refilling []) w g) (mkSys q sp st c x ps Idle w g)
| d_refill q sp st c x ps m l w g : (length q < cap)%nat →
    daemon_step (mkSys q sp st c x ps (Refilling (m :: l)) w g) (mkSys (q ++ [m]) sp st c x ps (Refilling l) w (g_accept m g))
| d_full q s st c x ps m l w g (ok : bool) s' : (cap ≤ length q)%nat → sp_push s m = (ok, s') →
    daemon_step (mkSys q (Some s) st c x ps (Refilling (m :: l)) w g)
      (mkSys q (Some s') st c x ps Idle w (g_abandon g (if ok then l else m :: l)))
| d_stop q sp st c ps w g :
    daemon_step (mkSys q sp st c true ps Idle w g) (mkSys q sp st c true ps Shutting w g)
| d_left m q sp st c x ps w g :
    daemon_step (mkSys (m :: q) sp st c x ps Shutting w g) (mkSys q sp st c x ps (ShutWriting m) w g)
| d_left_write q sp st c x ps m w w' g : writeOne w m w' →
    daemon_step (mkSys q sp st c x ps (ShutWriting m) w g) (mkSys q sp st c x ps Shutting w' (g_hand m g))
| d_no_store st c x ps w g :
    daemon_step (mkSys [] None st c x ps Shutting w g) (mkSys [] None st c x ps (SpillWriting []) w g)
| d_store s st c x ps w g b l s' : b || rename_fails = true → sp_drain b s = (l, s') →
    daemon_step (mkSys [] (Some s) st c x ps Shutting w g) (mkSys [] (Some s') st c x ps (SpillWriting l) w g)
| d_store_write q sp st c x ps m l w w' g : writeOne w m w' →
    daemon_step (mkSys q sp st c x ps (SpillWriting (m :: l)) w g) (mkSys q sp st c x ps (SpillWriting l) w' (g_hand m g))
| d_flushed q sp st c x ps w w' g : flushSync w w' →
    daemon_step (mkSys q sp st c x ps (SpillWriting []) w g) (mkSys q sp st c x ps Quitting w' g).

(** [Stop]: the compare-and-swap, [close(stop)], the reception from [quit]. *)
Inductive stop_step : sys → sys → Prop :=
| s_claim q sp st ps d w g x :
    stop_step (mkSys q sp st false x ps d w g) (mkSys q sp st true x ps d w g)
| s_close q sp st ps d w g :
    stop_step (mkSys q sp st true false ps d w g) (mkSys q sp st true true ps d w g)
| s_quit q sp st ps w g :
    stop_step (mkSys q sp st true true ps Quitting w g) (mkSys q sp st true true ps Ended w g).

Definition step (s s' : sys) : Prop := producer_step s s' ∨ daemon_step s s' ∨ stop_step s s'.

(** A refill that the full channel ends with records in hand, but for one the store takes
    back. *)
Definition cut_short (s s' : sys) : Prop := ∃ m l, daemon s = Refilling (m :: l) ∧ daemon s' = Idle ∧
  (l ≠ [] ∨ ∃ sp, spiller s = Some sp ∧ (sp_push sp m).1 = false).
Definition fit_step (s s' : sys) : Prop := step s s' ∧ ¬ cut_short s s'.

(** ** Accounting *)

Definition in_hand (d : dpc T) : list T :=
  match d with
  | Writing m | ShutWriting m => [m]
  | Refilling l | SpillWriting l => l
  | _ => []
  end.

Context {lossless : bool} `{Spec : !SpillerSpec S T lossless}.

(** [l] is in the store and [over] was displaced from it. *)
Definition holds (sp : option S) (l over : list T) : Prop :=
  match sp with None => l = [] ∧ over = [] | Some s => sp_rep s l ∧ (lossless = true → over = []) end.

Definition account (q : list T) (l over : list T) (ps : list (ppc * T)) (d : dpc T) (g : ghost T) : Prop :=
  offered g ≡ₚ (ps.*2 ++ q ++ in_hand d ++ handed g ++ dropped_ g ++ abandoned g) ++ l ++ over.

Record conserved (s : sys) : Prop := {
  c_account : ∃ l over, holds (spiller s) l over ∧ account (messages s) l over (producers s) (daemon s) (log s);
  c_dropped : dropped (stats s) = u64 (Z.of_nat (length (dropped_ (log s))));
  c_fifo : spiller s = None →
    accepted (log s) = handed (log s) ++ in_hand (daemon s) ++ messages s ∧ abandoned (log s) = [] }.

Lemma push_holds s l over m : holds (Some s) l over →
  match sp_push s m with
  | (true, s') => ∃ l' over', holds (Some s') l' over' ∧ l' ++ over' ≡ₚ (l ++ [m]) ++ over
  | (false, s') => holds (Some s') l over
  end.
Proof using.
  intros [Hr Hl]. pose proof (push_ok s l m Hr) as Hp. destruct (sp_push s m) as [[] s']; [|done].
  destruct Hp as (gone & l' & Hr' & Hp & Hg). exists l', (gone ++ over). split.
  - split; [done|]. intros E. by rewrite (Hg E), (Hl E).
  - rewrite <- Hp. perm.
Qed.

Lemma drop_count st (g : ghost T) m : dropped st = u64 (Z.of_nat (length (dropped_ g))) →
  dropped (IncDropped st).1 = u64 (Z.of_nat (length (dropped_ (g_drop m g)))).
Proof using.
  intros H. cbn. rewrite H, length_app, u64_add_l. f_equal. simpl. lia.
Qed.
Lemma producers_move (p1 p2 : list (ppc * T)) pc m : (p1 ++ (pc, m) :: p2).*2 ≡ₚ (p1 ++ p2).*2 ++ [m].
Proof using. rewrite !fmap_app, fmap_cons. cbn [snd]. perm. Qed.

Ltac acct l over := exists l, over; split; [done|unfold account; cbn].

Lemma producer_conserved s s' : producer_step s s' → conserved s → conserved s'.
Proof using.
  intros Hs [(l & over & Hh & Ha) Hd Hf]. unfold account in *.
  destruct Hs; cbn [messages spiller stats closing stop producers daemon sink log] in *.
  - split; [|done|done]. acct l over. rewrite Ha, fmap_app. cbn. perm.
  - split; [|by apply drop_count|done]. acct l over. rewrite Ha, producers_move. perm.
  - split; [|done|done]. acct l over. rewrite Ha, !producers_move. done.
  - split; [|done|].
    + acct l over. rewrite Ha, producers_move. perm.
    + intros E. destruct (Hf E) as [E1 E2]. split; [|done]. cbn. by rewrite E1, <- !(assoc_L (++)).
  - split; [|by apply drop_count|done]. acct l over. rewrite Ha, producers_move. perm.
  - split; [|done|done]. acct l over. rewrite Ha, !producers_move. done.
  - unfold overflow in H. destruct sp as [s|].
    + assert (Hdrop : ∀ sp'', holds (Some sp'') l over → conserved (mkSys q (Some sp'') (IncDropped st).1 c x (p1 ++ p2) d w (g_drop m g))).
      { intros sp'' Hh'. split; [|by apply drop_count|done]. acct l over. rewrite Ha, producers_move. perm. }
      pose proof (push_holds s l over m Hh) as Hp. destruct policy; simplify_eq; [by apply Hdrop..|].
      destruct (sp_push s m) as [[] s0]; simplify_eq; [|by apply Hdrop].
      destruct Hp as (l' & over' & Hh' & Hp). split; [|done|done]. acct l' over'.
      rewrite Ha, producers_move. rewrite Hp. perm.
    + destruct policy; simplify_eq; (split; [|by apply drop_count|done]);
        acct l over; rewrite Ha, producers_move; perm.
Qed.

(** A record leaves the daemon's hand for the sink. *)
Lemma hand_conserved s m d d' w : daemon s = d → in_hand d = m :: in_hand d' → conserved s →
  conserved (mkSys (messages s) (spiller s) (stats s) (closing s) (stop s) (producers s) d' w (g_hand m (log s))).
Proof using.
  intros <- Hd [(l & over & Hh & Ha) Hdr Hf]. unfold account in Ha. rewrite Hd in Ha, Hf. split; [|done|].
  - acct l over. rewrite Ha. perm.
  - intros E. destruct (Hf E) as [E1 E2]. split; [|done]. cbn. by rewrite E1, <- !(assoc_L (++)).
Qed.

(** Only the daemon's place and its sink change. *)
Lemma move_conserved s d d' x w : daemon s = d → in_hand d = in_hand d' → conserved s →
  conserved (mkSys (messages s) (spiller s) (stats s) (closing s) x (producers s) d' w (log s)).
Proof using.
  intros <- Hd [(l & over & Hh & Ha) Hdr Hf]. unfold account in Ha. rewrite Hd in Ha, Hf. split; [|done|done]. acct l over. by rewrite Ha.
Qed.

(** The next record of the channel goes to the daemon. *)
Lemma take_conserved m q sp st c x ps d d' w g : in_hand d = [] → in_hand d' = [m] →
  conserved (mkSys (m :: q) sp st c x ps d w g) → conserved (mkSys q sp st c x ps d' w g).
Proof using.
  intros Hd Hd' [(l & over & Hh & Ha) Hdr Hf]. unfold account in Ha. cbn in *. rewrite Hd in Ha, Hf. split; [|done|].
  - acct l over. rewrite Ha, Hd'. perm.
  - intros E. destruct (Hf E) as [E1 E2]. split; [|done]. cbn. by rewrite Hd', E1.
Qed.

Lemma drain_conserved q s st c x ps d d' w g b o s' : in_hand d = [] → in_hand d' = o → sp_drain b s = (o, s') →
  conserved (mkSys q (Some s) st c x ps d w g) → conserved (mkSys q (Some s') st c x ps d' w g).
Proof using.
  intros Hd Hd' Ho [(l & over & [Hr Hl] & Ha) Hdr Hf]. unfold account in Ha. cbn in *. rewrite Hd in Ha. split; [|done|done].
  pose proof (drain_ok b s l Hr) as Hk. rewrite Ho in Hk. destruct Hk as (l' & Hr' & Hp & _).
  acct l' over. rewrite Ha, Hd', <- Hp. perm.
Qed.

(** Only a store's records are put back. *)
Definition refill_ok (s : sys) : Prop := match daemon s with Refilling _ => spiller s ≠ None | _ => True end.

Lemma step_refill_ok s s' : step s s' → refill_ok s → refill_ok s'.
Proof using.
  unfold refill_ok. intros [Hs|[Hs|Hs]]; destruct Hs; cbn; try done; [|by destruct c].
  destruct d; try done. intros Hsp. unfold overflow in H. destruct sp as [s|]; [|done].
  destruct policy; simplify_eq; [done..|]. destruct (sp_push s m) as [[] ?]; by simplify_eq.
Qed.

Lemma daemon_conserved s s' : daemon_step s s' → refill_ok s → conserved s → conserved s'.
Proof using.
  intros Hs Hr Hc. destruct Hs.
  - by eapply take_conserved in Hc.
  - by eapply hand_conserved in Hc.
  - by eapply move_conserved in Hc.
  - eapply move_conserved in Hc; [exact Hc|done|by destruct c].
  - by eapply move_conserved in Hc.
  - eapply drain_conserved in Hc; [exact Hc|done..].
  - by eapply move_conserved in Hc.
  - destruct Hc as [(l0 & over & Hh & Ha) Hdr Hf]. unfold account in Ha. cbn in *. split; [|done|].
    + acct l0 over. rewrite Ha. perm.
    + by intros E.
  - destruct Hc as [(l0 & over & Hh & Ha) Hdr Hf]. unfold account in Ha. cbn in *.
    pose proof (push_holds s l0 over m Hh) as Hp. rewrite H0 in Hp. destruct ok.
    + destruct Hp as (l' & over' & Hh' & Hp). split; [|done|done]. acct l' over'. rewrite Ha. rewrite Hp. perm.
    + split; [|done|done]. acct l0 over. rewrite Ha. perm.
  - by eapply move_conserved in Hc.
  - by eapply take_conserved in Hc.
  - by eapply hand_conserved in Hc.
  - by eapply move_conserved in Hc.
  - eapply drain_conserved in Hc; [exact Hc|done..].
  - by eapply hand_conserved in Hc.
  - by eapply move_conserved in Hc.
Qed.

Lemma step_conserved s s' : step s s' → refill_ok s → conserved s → conserved s'.
Proof using.
  intros [Hs|[Hs|Hs]] Hr Hc; [by eapply producer_conserved|by eapply daemon_conserved|].
  destruct Hs; destruct Hc as [Ha Hd Hf]; by split.
Qed.

Lemma resume_spec l q sp st g l0 over : holds (Some sp) l0 over → account q l0 over [] Idle g →
  dropped st = u64 (Z.of_nat (length (dropped_ g))) →
  let '(q', sp', st', g') := resume l q sp st g in
  ∃ l' over', holds (Some sp') l' over' ∧ account q' l' over' [] Idle g' ∧
    dropped st' = u64 (Z.of_nat (length (dropped_ g'))) ∧
    offered g' = offered g ++ l.
Proof using.
  revert q sp st g l0 over. induction l as [|m l IH]; intros q sp st g l0 over Hh Ha Hd; cbn [resume].
  { exists l0, over. by rewrite app_nil_r. }
  assert (Happ : ∀ g', offered g' = offered g ++ [m] → offered g' ++ l = offered g ++ m :: l).
  { intros g' ->. by rewrite <- (assoc_L (++)). }
  destruct (length q <? cap)%nat.
  - rewrite <- (Happ (g_accept m (g_offer m g))) by done. eapply IH; [done| |done].
    unfold account in *. cbn in *. rewrite Ha. perm.
  - pose proof (push_holds sp l0 over m Hh) as Hp. destruct (sp_push sp m) as [[] sp'].
    + destruct Hp as (l' & over' & Hh' & Hp). rewrite <- (Happ (g_offer m g)) by done. eapply IH; [done| |done].
      unfold account in *. cbn in *. rewrite Ha, Hp. perm.
    + rewrite <- (Happ (g_drop m (g_offer m g))) by done. eapply IH; [done| |by apply drop_count].
      unfold account in *. cbn in *. rewrite Ha. perm.
Qed.

(** [found]: what a fresh store held, drained, and the store after it. *)
Definition fresh (found : option (list T * S)) (st : OverflowStats) : Prop :=
  dropped st = 0 ∧ match found with None => True | Some (_, sp) => sp_rep sp [] end.

Lemma start_conserved found st w : fresh found st →
  conserved (start found st w) ∧ refill_ok (start found st w).
Proof using.
  intros [Hst Hf]. destruct found as [[l sp]|]; cbn [start].
  - pose proof (resume_spec l [] sp st (mkGhost [] [] [] [] []) [] []) as Hr.
    destruct (resume l [] sp st _) as [[[q sp'] st'] g]. destruct Hr as (l' & over & Hh & Ha & Hd & _); [by split|apply Permutation_refl|by rewrite Hst|].
    split; [|done]. split; [|done|done]. by exists l', over.
  - split; [|done]. split; [exists [], []; by split; [|apply Permutation_refl]|by cbn; rewrite Hst|done].
Qed.

Lemma run_conserved found st w s : fresh found st → rtc step (start found st w) s → conserved s ∧ refill_ok s.
Proof using.
  intros Hf Hs. pose proof (start_conserved found st w Hf) as Hc. induction Hs as [|s1 s2 s3 Hs _ IH]; [done|].
  apply IH. destruct Hc as [Hc Hr]. split; [by eapply step_conserved|by eapply step_refill_ok].
Qed.
Lemma no_store_run st w s : rtc step (start None st w) s → spiller s = None.
Proof using.
  intros Hs. remember (start None st w) as s0 eqn:E. assert (H0 : spiller s0 = None) by by subst. clear E.
  induction Hs as [|s1 s2 s3 Hs _ IH]; [done|]. apply IH. destruct Hs as [Hs|[Hs|Hs]]; destruct Hs; cbn in *; subst; try done.
  unfold overflow in H. by destruct policy; simplify_eq.
Qed.

(** What the store holds. *)
Definition in_store (sp : option S) (l : list T) : Prop := match sp with None => l = [] | Some s => sp_rep s l end.

Lemma resume_abandoned l : ∀ q sp st g, abandoned (resume l q sp st g).2 = abandoned g.
Proof using.
  induction l as [|m l IH]; intros q sp st g; cbn [resume]; [done|].
  destruct (length q <? cap)%nat; [by rewrite IH|]. destruct (sp_push sp m) as [[] sp']; by rewrite IH.
Qed.
Lemma overflow_abandoned sp st g m sp' st' g' : overflow sp st g m = (sp', st', g') → abandoned g' = abandoned g.
Proof using.
  unfold overflow. intros H. destruct policy; simplify_eq; try done. destruct sp as [s|]; simplify_eq; [|done].
  destruct (sp_push s m) as [[] ?]; by simplify_eq.
Qed.

(** Without a store, or with one that does not overwrite and refills that fit, every loss is
    counted. *)
Lemma fit_run_abandoned found st w s : rtc fit_step (start found st w) s → abandoned (log s) = [].
Proof using.
  intros Hs. assert (H0 : abandoned (log (start found st w)) = []).
  { destruct found as [[l sp]|]; [|done]. cbn [start]. pose proof (resume_abandoned l [] sp st (mkGhost [] [] [] [] [])) as Hr.
    by destruct (resume l [] sp st _) as [[[q sp'] st'] g]. }
  induction Hs as [|s1 s2 s3 [Hs Hfit] _ IH]; [done|]. apply IH. clear IH. destruct Hs as [Hs|[Hs|Hs]]; destruct Hs; cbn in *; try done.
  - by erewrite overflow_abandoned.
  - rewrite H0. cbn. destruct ok, l as [|m' l]; try done; destruct Hfit; exists m; eexists; cbn; (split; [done|split; [done|]]); try (by left).
    right. exists s. by rewrite H1.
Qed.
Lemma fit_run found st w s : rtc fit_step (start found st w) s → rtc step (start found st w) s.
Proof using. apply rtc_subrel. by intros ?? []. Qed.

(** The records lost without a count: [silent]. *)
Definition counts_all (found : option (list T * S)) (st : OverflowStats) (w : W) (s : sys) : Prop :=
  found = None ∨ lossless = true ∧ rtc fit_step (start found st w) s.

Lemma run_silent found st w s : fresh found st → rtc step (start found st w) s →
  ∃ stored counted silent, in_store (spiller s) stored ∧
    offered (log s) ≡ₚ (producers s).*2 ++ messages s ++ in_hand (daemon s) ++ stored ++ handed (log s) ++ counted ++ silent ∧
    dropped (stats s) = u64 (Z.of_nat (length counted)) ∧ (counts_all found st w s → silent = []).
Proof using.
  intros Hf Hs. destruct (run_conserved _ _ _ _ Hf Hs) as [[(l & over & Hh & Ha) Hd Hn] _].
  exists l, (dropped_ (log s)), (abandoned (log s) ++ over). split_and!; [|unfold account in Ha; rewrite Ha; perm|done|].
  - destruct (spiller s); apply Hh.
  - intros [->|[Hl Hfit]].
    + pose proof (no_store_run _ _ _ Hs) as Hsp. destruct (Hn Hsp) as [_ ->]. rewrite Hsp in Hh. by destruct Hh as [_ ->].
    + rewrite (fit_run_abandoned _ _ _ _ Hfit). destruct (spiller s); destruct Hh as [_ Hh]; [by apply Hh|done].
Qed.

(** The sink has seen exactly the records given to [writeOne], in order. *)
Lemma run_sink (I : W → list T → Prop) found st w s :
  I w [] → (∀ w h m w', I w h → writeOne w m w' → I w' (h ++ [m])) → (∀ w h w', I w h → flushSync w w' → I w' h) →
  rtc step (start found st w) s → I (sink s) (handed (log s)).
Proof using.
  intros H0 Hw Hf Hs. assert (Hstart : I (sink (start found st w)) (handed (log (start found st w)))).
  { destruct found as [[l sp]|]; [|done]. cbn [start]. assert (Hh : ∀ l q sp st g q' sp' st' g', resume l q sp st g = (q', sp', st', g') → handed g' = handed g).
    { clear. induction l as [|m l IH]; intros q sp st g q' sp' st' g'; cbn [resume]; [by intros [= <- <- <- <-]|].
      destruct (length q <? cap)%nat; [intros H; by rewrite (IH _ _ _ _ _ _ _ _ H)|].
      destruct (sp_push sp m) as [[] sp1]; intros H; by rewrite (IH _ _ _ _ _ _ _ _ H). }
    destruct (resume l [] sp st _) as [[[q sp'] st'] g] eqn:Hr. cbn. by rewrite (Hh _ _ _ _ _ _ _ _ _ Hr). }
  induction Hs as [|s1 s2 s3 Hs _ IH]; [done|]. apply IH. destruct Hs as [Hs|[Hs|Hs]]; destruct Hs; cbn in *; eauto.
  unfold overflow in H. destruct policy; simplify_eq; try done. destruct sp as [sp|]; simplify_eq; try done.
  destruct (sp_push sp m) as [[] ?]; by simplify_eq.
Qed.

(** ** Shutdown *)

(** The steps left to a daemon that has seen [stop], with [n] records in the store. *)
Definition work (s : sys) (n : nat) : nat :=
  match daemon s with
  | Shutting => 2 * length (messages s) + n + 2
  | ShutWriting _ => 2 * length (messages s) + n + 3
  | SpillWriting l => length l + 1
  | _ => 0
  end.

Definition shutting (d : dpc T) : Prop :=
  match d with Shutting | ShutWriting _ | SpillWriting _ | Quitting | Ended => True | _ => False end.

(** The callers past their test of [closing]. *)
Definition past_test (p : ppc * T) : nat := match p.1 with Entered => 0 | _ => 1 end.
Definition past (s : sys) : nat := sum_list (past_test <$> producers s).
Lemma sum_past_app (l1 l2 : list (ppc * T)) : sum_list (past_test <$> l1 ++ l2) = (sum_list (past_test <$> l1) + sum_list (past_test <$> l2))%nat.
Proof using. induction l1 as [|p l1 IH]; cbn in *; lia. Qed.

(** [stop] is closed after [closing] is raised, and the daemon ends after [stop]. *)
Definition stop_ok (s : sys) : Prop := (stop s = true → closing s = true) ∧ (shutting (daemon s) → stop s = true).
Lemma step_stop_ok s s' : step s s' → stop_ok s → stop_ok s'.
Proof using. unfold stop_ok. intros [Hs|[Hs|Hs]]; destruct Hs; cbn; try naive_solver. destruct c; naive_solver. Qed.
Lemma run_stop_ok found st w s : rtc step (start found st w) s → stop_ok s.
Proof using.
  intros Hs. assert (H0 : stop_ok (start found st w)).
  { destruct found as [[l sp]|]; cbn [start]; [destruct (resume l [] sp st _) as [[[q sp'] st'] g]|]; by split. }
  induction Hs as [|s1 s2 s3 Hs _ IH]; [done|]. apply IH. by eapply step_stop_ok.
Qed.

(** An interleaved run with [n] steps of the daemon. *)
Inductive daemon_steps : nat → sys → sys → Prop :=
| ds_refl s : daemon_steps 0 s s
| ds_daemon n s1 s2 s3 : daemon_step s1 s2 → daemon_steps n s2 s3 → daemon_steps (Datatypes.S n) s1 s3
| ds_other n s1 s2 s3 : producer_step s1 s2 ∨ stop_step s1 s2 → daemon_steps n s2 s3 → daemon_steps n s1 s3.

Lemma shutdown_daemon s s' l over : daemon_step s s' → shutting (daemon s) → holds (spiller s) l over →
  shutting (daemon s') ∧ ∃ l', holds (spiller s') l' over ∧ (work s' (length l') + 2 * past s' < work s (length l) + 2 * past s)%nat.
Proof using.
  intros Hs Hd Hh. destruct Hs; try done; cbn in *; (split; [done|]);
    try (exists l; split; [done|]; unfold work, past; cbn; lia).
  destruct Hh as [Hr Ho]. pose proof (drain_ok b s l Hr) as Hk. rewrite H0 in Hk. destruct Hk as (l' & Hr' & Hp & _).
  exists l'. split; [done|]. apply Permutation_length in Hp. rewrite length_app in Hp. unfold work, past. cbn. lia.
Qed.

Lemma work_mono s n n' : (n' ≤ n + 1)%nat → (work s n' ≤ work s n + 1)%nat.
Proof using. unfold work. destruct (daemon s); lia. Qed.

(** A caller adds at most one record, and only while it is past its test. *)
Lemma shutdown_caller s s' l over : producer_step s s' → stop_ok s → shutting (daemon s) → holds (spiller s) l over →
  shutting (daemon s') ∧ ∃ l' over', holds (spiller s') l' over' ∧ (work s' (length l') + 2 * past s' ≤ work s (length l) + 2 * past s)%nat.
Proof using.
  intros Hs [Hcl Hst] Hd Hh. specialize (Hst Hd). specialize (Hcl Hst).
  assert (Hsame : ∀ s' : sys, daemon s' = daemon s → (length (messages s') ≤ length (messages s))%nat → (past s' ≤ past s)%nat → spiller s' = spiller s →
    shutting (daemon s') ∧ ∃ l' over', holds (spiller s') l' over' ∧ (work s' (length l') + 2 * past s' ≤ work s (length l) + 2 * past s)%nat).
  { intros t Ed Em Ep Es. rewrite Ed, Es. split; [done|]. exists l, over. split; [done|]. unfold work. rewrite Ed. destruct (daemon s); lia. }
  destruct Hs; cbn in Hcl, Hst; try done; try (apply Hsame; cbn; [done|lia| |done]; unfold past; cbn; rewrite ?sum_past_app; cbn; lia).
  - split; [done|]. exists l, over. split; [done|]. unfold past, work. cbn. rewrite !sum_past_app. cbn. rewrite length_app. cbn. destruct d; lia.
  - cbn in Hh, Hd. assert (Hpast : (past (mkSys q sp' st' c x (p1 ++ p2) d w g') + 1 = past (mkSys q sp st c x (p1 ++ (Overflowing, m) :: p2) d w g))%nat).
    { unfold past. cbn. rewrite !sum_past_app. cbn. lia. }
    assert (∃ l' over', holds sp' l' over' ∧ (length l' ≤ length l + 1)%nat) as (l' & over' & Hh' & Hlen).
    { unfold overflow in H. destruct sp as [sp|]; [|destruct policy; simplify_eq; exists l, over; (split; [done|lia])].
      pose proof (push_holds sp l over m Hh) as Hp. destruct Hh as [Hr Hl]. pose proof (push_ok sp l m Hr) as Hp'.
      destruct policy; simplify_eq; try (exists l, over; split; [done|lia]).
      destruct (sp_push sp m) as [[] s1]; simplify_eq; [|exists l, over; split; [done|lia]].
      destruct Hp' as (gone & l' & Hr' & Hperm & Hg). exists l', (gone ++ over). split; [split; [done|]; intros E; by rewrite (Hg E), (Hl E)|].
      apply Permutation_length in Hperm. rewrite !length_app in Hperm. cbn in Hperm. lia. }
    split; [done|]. exists l', over'. split; [done|]. pose proof (work_mono (mkSys q sp st c x (p1 ++ (Overflowing, m) :: p2) d w g) (length l) (length l') Hlen) as Hw.
    unfold work in *. cbn in *. lia.
Qed.

Lemma shutdown_stop s s' : stop_step s s' → shutting (daemon s) → shutting (daemon s') ∧ spiller s' = spiller s ∧ past s' = past s ∧ ∀ n, (work s' n ≤ work s n)%nat.
Proof using. intros Hs. destruct Hs; unfold work, past; cbn; intros Hd; (split; [done|]); (split; [done|]); (split; [done|]); intros n; destruct d || idtac; lia. Qed.

Lemma shutdown_run n s s' l over : daemon_steps n s s' → stop_ok s → shutting (daemon s) → holds (spiller s) l over →
  shutting (daemon s') ∧ (n ≤ work s (length l) + 2 * past s)%nat.
Proof using.
  intros Hs. revert l over. induction Hs as [|n s1 s2 s3 Hs _ IH|n s1 s2 s3 Hs _ IH]; intros l over Hok Hd Hh; [split; [done|lia]|..].
  - destruct (shutdown_daemon _ _ _ _ Hs Hd Hh) as (Hd2 & l' & Hh' & Hw).
    destruct (IH l' over) as [? ?]; [eapply step_stop_ok; [right; left; exact Hs|done]|done..|]. split; [done|lia].
  - destruct Hs as [Hs|Hs].
    + destruct (shutdown_caller _ _ _ _ Hs Hok Hd Hh) as (Hd2 & l' & over' & Hh' & Hw).
      destruct (IH l' over') as [? ?]; [eapply step_stop_ok; [left; exact Hs|done]|done..|]. split; [done|lia].
    + destruct (shutdown_stop _ _ Hs Hd) as (Hd2 & Es & Ep & Hw). specialize (Hw (length l)).
      destruct (IH l over) as [? ?]; [eapply step_stop_ok; [right; right; exact Hs|done]|done|by rewrite Es|]. split; [done|lia].
Qed.

Lemma shutdown_progress s : (∀ w m, ∃ w', writeOne w m w') → (∀ w, ∃ w', flushSync w w') →
  shutting (daemon s) → daemon s = Quitting ∨ daemon s = Ended ∨ ∃ s', daemon_step s s'.
Proof using.
  intros Hw Hfl Hd. destruct s as [q sp st c x ps d w g]. destruct d; try done; cbn in *; [right; right..|by left|by right; left].
  - destruct q as [|m q]; [|eexists; apply d_left]. destruct sp as [s|]; [|eexists; apply d_no_store].
    destruct (sp_drain true s) as [o s'] eqn:Ho. eexists. apply (d_store s st c x ps w g true); done.
  - destruct (Hw w m). eexists. by apply d_left_write.
  - destruct l as [|m l]; [destruct (Hfl w)|destruct (Hw w m)]; eexists; [by apply d_flushed|by apply d_store_write].
Qed.

(** [closing] is up and every caller that is inside [send] has yet to test it. *)
Definition quiet (s : sys) : Prop := closing s = true ∧ Forall (λ p, p.1 = Entered) (producers s).

(** Past the loop over the channel nothing comes back. *)
Definition emptied (s : sys) : Prop :=
  match daemon s with
  | SpillWriting _ | Quitting | Ended => messages s = [] ∧ (rename_fails = false → ∃ over, holds (spiller s) [] over)
  | _ => True
  end.

Lemma quiet_step s s' : step s s' → conserved s → quiet s → emptied s → quiet s' ∧ emptied s'.
Proof using.
  intros Hs Hc [Hcl Hps] He. destruct Hs as [Hs|[Hs|Hs]].
  - destruct Hs; cbn in Hcl, Hps; try (apply Forall_app in Hps as [? [? ?]%Forall_cons]; done); [|].
    + split; [|done]. split; [done|]. apply Forall_app. split; [done|]. by repeat constructor.
    + apply Forall_app in Hps as [Hp1 [_ Hp2]%Forall_cons]. split; [|done]. split; [done|]. by apply Forall_app.
  - split; [by destruct Hs|]. destruct Hs; try done; cbn in *; try (by destruct c); subst.
    + split; [done|]. intros _. by exists [].
    + split; [done|]. intros E. destruct Hc as [(l0 & over & [Hr Ho] & _) _ _]. exists over.
      pose proof (drain_ok b s l0 Hr) as Hk. rewrite H0 in Hk. destruct Hk as (l' & Hr' & _ & Hb).
      rewrite E, orb_false_r in H. split; [|done]. by rewrite <- (Hb H).
  - destruct Hs; by split.
Qed.

Lemma quiet_run s s' : rtc step s s' → conserved s → refill_ok s → quiet s → emptied s →
  conserved s' ∧ quiet s' ∧ emptied s'.
Proof using.
  induction 1 as [|s1 s2 s3 Hs _ IH]; intros Hc Hr Hq He; [done|].
  destruct (quiet_step _ _ Hs Hc Hq He). apply IH; try done; [by eapply step_conserved|by eapply step_refill_ok].
Qed.

Lemma holds_nil sp l over over' : holds sp l over → holds sp [] over' → l = [].
Proof using.
  destruct sp as [s|]; [|by intros [-> _]]. intros [Hr _] [Hr' _]. apply length_zero_iff_nil.
  pose proof (len_ok s l Hr). pose proof (len_ok s [] Hr'). simpl in *. lia.
Qed.
Lemma in_store_nil sp l over : in_store sp l → holds sp [] over → l = [].
Proof using.
  intros Hl Hh. apply (holds_nil sp l [] over); [|done]. destruct sp as [s|]; [|by split]. split; [exact Hl|done].
Qed.
End pipeline.

(** ** Theorems *)

Section theorems.
Context {S T W : Type} `{Ops : SpillerOps S T} {lossless : bool} `{Spec : !SpillerSpec S T lossless}.
Context (policy : OverflowPolicy) (cap : nat) (writeOne : W → T → W → Prop) (flushSync : W → W → Prop) (rename_fails : bool).

#[local] Notation step := (step policy cap writeOne flushSync rename_fails).
#[local] Notation daemon_step := (daemon_step cap writeOne flushSync rename_fails).
#[local] Notation fit_step := (fit_step policy cap writeOne flushSync rename_fails).
#[local] Notation daemon_steps := (daemon_steps policy cap writeOne flushSync rename_fails).

(** C5: however callers, daemon and [Stop] are interleaved, every record that entered [send]
    or was recovered at the start is with its caller, in the channel, in the daemon's
    hand, in the store, given to [writeOne], or lost, each in one of these only, and
    nothing else is in any of them.  The drop counter counts the lost records but for
    the silent ones; without a store there are no silent ones, nor with a store that
    does not overwrite as long as no refill is cut short by a full channel
    ([refill_loses] is one that is). *)
Theorem pipeline_conserves found st w s : fresh found st → rtc step (start cap found st w) s →
  ∃ stored counted silent, in_store (spiller s) stored ∧
    offered (log s) ≡ₚ (producers s).*2 ++ messages s ++ in_hand (daemon s) ++ stored ++ handed (log s) ++ counted ++ silent ∧
    dropped (stats s) = u64 (Z.of_nat (length counted)) ∧
    (found = None ∨ (lossless = true ∧ rtc fit_step (start cap found st w) s) → silent = []).
Proof using. apply run_silent. Qed.

(** Without a spill store, records reach [writeOne] in exactly the order in which the
    channel accepted them, none is lost on the way, and every other record that
    entered is still with its caller or is counted as dropped. *)
Theorem pipeline_fifo st w s : dropped st = 0 → rtc step (start cap None st w) s →
  accepted (log s) = handed (log s) ++ in_hand (daemon s) ++ messages s ∧
  offered (log s) ≡ₚ (producers s).*2 ++ accepted (log s) ++ dropped_ (log s).
Proof using Spec.
  intros Hst Hs. destruct (run_conserved _ _ _ _ _ None st w s (conj Hst I) Hs) as [[(l & over & Hh & Ha) _ Hf] _].
  pose proof (no_store_run _ _ _ _ _ _ _ _ Hs) as Hsp.
  destruct (Hf Hsp) as [Hacc Hab]. rewrite Hsp in Hh. destruct Hh as [-> ->]. split; [done|].
  unfold account in Ha. rewrite Ha, Hacc, Hab. perm.
Qed.

(** C33: once the daemon has seen [stop] closed it ends, whatever callers do meanwhile: in
    every interleaved run it makes at most as many steps as twice the records in the
    channel and the callers past their test of [closing], plus what it holds, plus the
    records in the store, plus three; and if [writeOne] and [flushSync] return it is
    never stuck before it signals [quit]. *)
Theorem shutdown_terminates found st w s n s' : fresh found st → rtc step (start cap found st w) s →
  shutting (daemon s) → daemon_steps n s s' →
  Z.of_nat n ≤ 2 * (Z.of_nat (length (messages s)) + Z.of_nat (past s)) + Z.of_nat (length (in_hand (daemon s))) +
    match spiller s with None => 0 | Some sp => sp_len sp end + 3 ∧
  ((∀ w m, ∃ w', writeOne w m w') → (∀ w, ∃ w', flushSync w w') →
   daemon s' = Quitting ∨ daemon s' = Ended ∨ ∃ s'', daemon_step s' s'').
Proof using Spec.
  intros Hf Hs Hd Hn. destruct (run_conserved _ _ _ _ _ _ _ _ _ Hf Hs) as [[(l & over & Hh & _) _ _] _].
  pose proof (run_stop_ok _ _ _ _ _ _ _ _ _ Hs) as Hok.
  destruct (shutdown_run _ _ _ _ _ _ _ _ _ _ Hn Hok Hd Hh) as [Hd' Hle]. split; [|by intros; eapply shutdown_progress].
  assert (Hl : match spiller s with None => 0 | Some sp => sp_len sp end = Z.of_nat (length l)).
  { destruct (spiller s) as [sp|]; destruct Hh as [Hh _]; [by apply len_ok|by subst]. }
  rewrite Hl. unfold work in Hle. destruct (daemon s); cbn [in_hand] in *; simpl length; lia.
Qed.

(** C34: where renames succeed, from any state in which [closing] is up, no caller is past
    its test of it and the daemon has not yet left its loop over the channel: when the daemon has
    ended, channel and store are empty and every record that entered, but for those of
    callers that are still to find [closing] up, was given to [writeOne] or lost; and every
    loss is in the drop counter if there is no store, or one that does not overwrite and
    no refill was cut short. *)
Theorem shutdown_complete found st w s s' : fresh found st → rtc step (start cap found st w) s →
  quiet s → match daemon s with SpillWriting _ | Quitting | Ended => False | _ => True end →
  rename_fails = false → rtc step s s' → daemon s' = Ended →
  messages s' = [] ∧ in_store (spiller s') [] ∧ Forall (λ p, p.1 = Entered) (producers s') ∧
  ∃ counted silent, offered (log s') ≡ₚ (producers s').*2 ++ handed (log s') ++ counted ++ silent ∧
    dropped (stats s') = u64 (Z.of_nat (length counted)) ∧
    (found = None ∨ (lossless = true ∧ rtc fit_step (start cap found st w) s') → silent = []).
Proof using.
  intros Hf Hs Hq Hd Hrn Hs' He. destruct (run_conserved _ _ _ _ _ _ _ _ _ Hf Hs) as [Hc Hr].
  destruct (quiet_run _ _ _ _ _ _ _ Hs' Hc Hr Hq) as (_ & [_ Hps] & Hem).
  { unfold emptied. by destruct (daemon s). }
  unfold emptied in Hem. rewrite He in Hem. destruct Hem as [Hm Hsp]. destruct (Hsp Hrn) as [over Hh].
  assert (rtc step (start cap found st w) s') as Hall by (by etrans).
  destruct (run_silent _ _ _ _ _ _ _ _ _ Hf Hall) as (l & counted & silent & Hl & Ho & Hdr & Hsil).
  assert (l = []) as -> by (by eapply in_store_nil). split_and!; [done|done|done|]. exists counted, silent. split_and!; [|done|done].
  rewrite Ho, Hm, He. done.
Qed.
End theorems.

(** ** A writer that collects records, with a ring of four behind a channel of one *)

#[local] Existing Instance ring_ops.
#[local] Existing Instance ring_spec.

Definition demo_write (w : list Z) (m : Z) (w' : list Z) : Prop := w' = w ++ [m].
Definition demo_stats : OverflowStats := mkStats 0 0 1000 1000.
Definition demo_ring : @RingSpiller Z := NewRingSpiller 0 4.

#[local] Instance zring : SpillerOps (@RingSpiller Z) Z := ring_ops 0.
#[local] Instance zring_spec : SpillerSpec (@RingSpiller Z) Z false := ring_spec 0.

#[local] Notation demo_step := (step OverflowSpill 1 demo_write (@eq (list Z)) false).
#[local] Notation demo_start := (start 1 (Some ([] : list Z, demo_ring)) demo_stats ([] : list Z)).

(** The only caller inside [send] moves; the daemon moves. *)
Tactic Notation "by_caller" uconstr(r) := eapply rtc_l; [left; eapply r with (p1 := []) (p2 := []); try (simpl; lia); try done; try reflexivity|cbn].
Ltac enters v := eapply rtc_l; [left; apply p_enter with (m := v)|cbn].
Tactic Notation "by_daemon" uconstr(r) := eapply rtc_l; [right; left; eapply r; try (simpl; lia); try done; try reflexivity|cbn].
Tactic Notation "by_drain" uconstr(r) := eapply rtc_l; [right; left; eapply r with (b := true); try (simpl; lia); try done; try reflexivity|cbn].
Tactic Notation "by_stop" uconstr(r) := eapply rtc_l; [right; right; apply r|cbn].

(** One caller sends, three overflow into the ring; the channel is emptied, and
    [drainSpill] finds room for one record only. *)
Example refill_loses : ∃ s, rtc demo_step demo_start s ∧
  daemon s = Idle ∧ producers s = [] ∧ offered (log s) = [1; 2; 3; 4] ∧ sink s = [1] ∧ messages s = [2] ∧
  ring_contents 0 <$> spiller s = Some [3] ∧ dropped (stats s) = 0.
Proof.
  eexists. split.
  - cbn. enters 1. by_caller p_open. by_caller p_send.
    enters 2. by_caller p_open. by_caller p_default. by_caller p_overflow.
    enters 3. by_caller p_open. by_caller p_default. by_caller p_overflow.
    enters 4. by_caller p_open. by_caller p_default. by_caller p_overflow.
    by_daemon d_take. by_daemon d_write. by_daemon d_tick. by_daemon d_closing. by_drain d_drain.
    by_daemon d_refill. by_daemon d_full. apply rtc_refl.
  - vm_compute. by split_and!.
Qed.

Lemma demo_fresh : fresh (Some ([] : list Z, demo_ring)) demo_stats.
Proof. split; [done|]. split; [apply NewRingSpiller_spec|reflexivity]. Qed.

(** A record in the channel and two in the ring when [stop] is closed. *)
Definition demo_loaded : sys :=
  mkSys (W := list Z) [1] (Some (ring_Push (ring_Push demo_ring 2) 3)) (mkStats 0 2 1000 1000) true true [] Shutting []
    (mkGhost [1; 2; 3] [1] [] [] []).

Lemma demo_loaded_reachable : rtc demo_step demo_start demo_loaded.
Proof.
  cbn. enters 1. by_caller p_open. by_caller p_send.
  enters 2. by_caller p_open. by_caller p_default. by_caller p_overflow.
  enters 3. by_caller p_open. by_caller p_default. by_caller p_overflow.
  by_stop s_claim. by_stop s_close. by_daemon d_stop. apply rtc_refl.
Qed.

(** A blocking writer with a channel of two. *)
Definition demo_block : sys :=
  mkSys (S := @RingSpiller Z) [2] None demo_stats false false [] (Writing 1) ([] : list Z) (mkGhost [1; 2] [1; 2] [] [] []).

Lemma demo_block_reachable :
  rtc (step OverflowBlock 2 demo_write (@eq (list Z)) false) (start (S := @RingSpiller Z) 2 None demo_stats []) demo_block.
Proof.
  cbn. enters 1. by_caller p_open. by_caller p_send. enters 2. by_caller p_open. by_caller p_send. by_daemon d_take. apply rtc_refl.
Qed.

Lemma pipeline_conserves_witness : ∃ stored counted, in_store (S := @RingSpiller Z) (spiller demo_block) stored ∧
  [1; 2] ≡ₚ [] ++ [2] ++ [1] ++ stored ++ [] ++ counted ++ [] ∧ 0 = u64 (Z.of_nat (length counted)).
Proof.
  destruct (pipeline_conserves OverflowBlock 2 demo_write (@eq (list Z)) false None demo_stats [] demo_block)
    as (stored & counted & silent & Hh & Ha & Hd & Hs); [split; [reflexivity|exact I]|apply demo_block_reachable|].
  rewrite (Hs (or_introl eq_refl)) in Ha. exists stored, counted. split; [exact Hh|]. split; [exact Ha|exact Hd].
Defined.

Lemma pipeline_fifo_witness : accepted (log demo_block) = [] ++ [1] ++ [2] ∧
  [1; 2] ≡ₚ [] ++ accepted (log demo_block) ++ [].
Proof.
  destruct (pipeline_fifo OverflowBlock 2 demo_write (@eq (list Z)) false demo_stats [] demo_block)
    as [Ha Ho]; [reflexivity|apply demo_block_reachable|]. split; [exact Ha|exact Ho].
Defined.

(** What the loaded pipeline ends in. *)
Definition demo_ended : sys :=
  mkSys (W := list Z) [] (Some (ring_Drain 0 (ring_Push (ring_Push demo_ring 2) 3)).2) (mkStats 0 2 1000 1000) true true [] Ended [1; 2; 3]
    (mkGhost [1; 2; 3] [1] [1; 2; 3] [] []).

Lemma demo_ends : rtc demo_step demo_loaded demo_ended.
Proof.
  unfold demo_loaded. by_daemon d_left. by_daemon d_left_write. by_drain d_store.
  by_daemon d_store_write. by_daemon d_store_write. by_daemon d_flushed. by_stop s_quit. apply rtc_refl.
Qed.

Definition demo_writing : sys :=
  mkSys (W := list Z) [] (Some (ring_Push (ring_Push demo_ring 2) 3)) (mkStats 0 2 1000 1000) true true [] Shutting [1]
    (mkGhost [1; 2; 3] [1] [1] [] []).

Lemma demo_two_steps : daemon_steps OverflowSpill 1 demo_write (@eq (list Z)) false 2 demo_loaded demo_writing.
Proof. eapply ds_daemon; [apply d_left|]. eapply ds_daemon; [by apply d_left_write|]. apply ds_refl. Qed.

Lemma shutdown_terminates_witness : Z.of_nat 2 ≤ 7 ∧
  (daemon demo_writing = Quitting ∨ daemon demo_writing = Ended ∨ ∃ s', daemon_step 1 demo_write (@eq (list Z)) false demo_writing s').
Proof.
  destruct (shutdown_terminates OverflowSpill 1 demo_write (@eq (list Z)) false (Some ([], demo_ring)) demo_stats [] demo_loaded 2 demo_writing)
    as [Hle Hp]; [apply demo_fresh|apply demo_loaded_reachable|exact I|apply demo_two_steps|].
  split; [exact Hle|]. apply Hp; [intros w m; by exists (w ++ [m])|intros w; by exists w].
Defined.

Lemma shutdown_complete_witness : messages demo_ended = [] ∧ in_store (spiller demo_ended) [] ∧
  ∃ counted silent, [1; 2; 3] ≡ₚ [] ++ [1; 2; 3] ++ counted ++ silent ∧ dropped (stats demo_ended) = u64 (Z.of_nat (length counted)).
Proof.
  destruct (shutdown_complete OverflowSpill 1 demo_write (@eq (list Z)) false (Some ([], demo_ring)) demo_stats [] demo_loaded demo_ended)
    as (Hm & Hh & _ & counted & silent & Ha & Hd & _);
    [apply demo_fresh|apply demo_loaded_reachable|by split|exact I|reflexivity|apply demo_ends|reflexivity|].
  split; [exact Hm|]. split; [exact Hh|]. exists counted, silent. split; [exact Ha|exact Hd].
Defined.
