(* ===== verification/Calendar.v ===== *)
(** * Calendar: civil dates and clock times as package [time] gives them

    The proleptic Gregorian calendar over days since 1970-01-01, and the fields of an
    instant in a zone of fixed offset.  Months and days are in
    range, leap days included, and [days_from_civil] inverts [civil_from_days].  Used by the time stamps of Logline.v and the rotation
    of FileWriter.v. *)

From Stdlib Require Import ZArith Lia List.
From stdpp Require Import base tactics numbers list.
From S2P Require Import Prelude.

#[local] Open Scope Z_scope.

Record civil := mkCivil { Year : Z; Month : Z; Day : Z }.

(** The day of the era, as the year of the era (from March) and the day of that year. *)
Definition year_of_era (doe : Z) : Z := (doe - doe / 1460 + doe / 36524 - doe / 146096) / 365.
Definition day_of_year (doe : Z) : Z := let yoe := year_of_era doe in doe - (365 * yoe + yoe / 4 - yoe / 100).

Definition civil_from_days (days : Z) : civil :=
  let z := days + 719468 in
  let era := z / 146097 in
  let doe := z mod 146097 in
  let doy := day_of_year doe in
  let mp := (5 * doy + 2) / 153 in
  let d := doy - (153 * mp + 2) / 5 + 1 in
  let m := if mp <? 10 then mp + 3 else mp - 9 in
  mkCivil (year_of_era doe + era * 400 + (if m <=? 2 then 1 else 0)) m d.

Definition days_from_civil (c : civil) : Z :=
  let y := if Month c <=? 2 then Year c - 1 else Year c in
  let era := y / 400 in
  let yoe := y mod 400 in
  let mp := if 2 <? Month c then Month c - 3 else Month c + 9 in
  let doy := (153 * mp + 2) / 5 + Day c - 1 in
  era * 146097 + (yoe * 365 + yoe / 4 - yoe / 100 + doy) - 719468.

(** The last day of a month. *)
Definition is_leap (y : Z) : bool := (y mod 4 =? 0) && (negb (y mod 100 =? 0) || (y mod 400 =? 0)).
Definition month_length (y m : Z) : Z :=
  if m =? 2 then (if is_leap y then 29 else 28) else if (m =? 4) || (m =? 6) || (m =? 9) || (m =? 11) then 30 else 31.

(** ** The days of an era *)

Lemma year_of_era_range doe : 0 ≤ doe < 146097 → 0 ≤ year_of_era doe < 400.
Proof. intros. unfold year_of_era. Z.div_mod_to_equations. lia. Qed.

Lemma day_of_year_range doe : 0 ≤ doe < 146097 → 0 ≤ day_of_year doe < 366.
Proof. intros. unfold day_of_year, year_of_era. Z.div_mod_to_equations. lia. Qed.

(** The 366th day from March on is the leap day of the next year. *)
Lemma leap_day doe : 0 ≤ doe < 146097 → day_of_year doe = 365 →
  (year_of_era doe + 1) mod 4 = 0 ∧ ((year_of_era doe + 1) mod 100 ≠ 0 ∨ (year_of_era doe + 1) mod 400 = 0).
Proof. intros. unfold day_of_year, year_of_era in *. Z.div_mod_to_equations. lia. Qed.

Lemma month_day doy : 0 ≤ doy < 366 →
  let mp := (5 * doy + 2) / 153 in let d := doy - (153 * mp + 2) / 5 + 1 in
  0 ≤ mp ≤ 11 ∧ 1 ≤ d ≤ 31 ∧ (mp = 1 ∨ mp = 3 ∨ mp = 6 ∨ mp = 8 → d ≤ 30) ∧
  (mp = 11 → d ≤ 29 ∧ (d = 29 → doy = 365)).
Proof.
  intros H mp d. assert (Hm : 153 * mp ≤ 5 * doy + 2 < 153 * mp + 153) by (unfold mp; Z.div_mod_to_equations; lia).
  assert (Hd : 5 * (doy + 1 - d) ≤ 153 * mp + 2 < 5 * (doy + 1 - d) + 5) by (unfold d; clearbody mp; Z.div_mod_to_equations; lia).
  clearbody mp d. lia.
Qed.

Lemma is_leap_era y e : is_leap (y + e * 400) = is_leap y.
Proof.
  unfold is_leap. replace (y + e * 400) with (y + (e * 100) * 4) at 1 by lia. rewrite Z.mod_add by lia.
  replace (y + e * 400) with (y + (e * 4) * 100) at 1 by lia. rewrite Z.mod_add by lia. by rewrite Z.mod_add by lia.
Qed.

Lemma civil_from_days_ok days :
  let c := civil_from_days days in 1 ≤ Month c ≤ 12 ∧ 1 ≤ Day c ≤ month_length (Year c) (Month c) ∧ Day c ≤ 31.
Proof.
  unfold civil_from_days. cbv zeta. set (z := days + 719468). set (doe := z mod 146097).
  assert (Hd : 0 ≤ doe < 146097) by (apply Z.mod_pos_bound; lia).
  pose proof (day_of_year_range doe Hd) as Hdoy. pose proof (leap_day doe Hd) as Hl.
  set (doy := day_of_year doe) in *. set (yoe := year_of_era doe) in *.
  pose proof (month_day doy Hdoy) as (Hmp & H1 & H30 & H29). cbv zeta in *.
  set (mp := (5 * doy + 2) / 153) in *. set (d := doy - (153 * mp + 2) / 5 + 1) in *.
  cbn [Year Month Day]. set (m := if mp <? 10 then mp + 3 else mp - 9).
  assert (Hm : (mp < 10 ∧ m = mp + 3) ∨ (10 ≤ mp ∧ m = mp - 9)) by (unfold m; zcases; lia). clearbody m d mp.
  assert (Hleap : doy = 365 → is_leap (yoe + 1) = true).
  { intros E. destruct (Hl E) as [H4 H100]. unfold is_leap. rewrite H4. zcases; lia || done. }
  split; [lia|]. split; [|lia]. unfold month_length.
  destruct (Z.eqb_spec m 2) as [->|Hn].
  - replace (yoe + z / 146097 * 400 + (if 2 <=? 2 then 1 else 0)) with (yoe + 1 + z / 146097 * 400) by (simpl; lia).
    rewrite is_leap_era. destruct (H29 ltac:(lia)) as [Hle Heq].
    destruct (Z.eq_dec d 29) as [E|]; [by rewrite (Hleap (Heq E)); lia|]. destruct (is_leap _); lia.
  - assert (E30 : (m =? 4) || (m =? 6) || (m =? 9) || (m =? 11) = true → d ≤ 30).
    { intros E. apply H30. rewrite !orb_true_iff, !Z.eqb_eq in E. lia. }
    destruct (_ || (m =? 11)); [specialize (E30 eq_refl)|]; lia.
Qed.

Theorem days_from_civil_from_days days : days_from_civil (civil_from_days days) = days.
Proof.
  unfold civil_from_days. cbv zeta. set (z := days + 719468). set (doe := z mod 146097).
  assert (Hd : 0 ≤ doe < 146097) by (apply Z.mod_pos_bound; lia).
  pose proof (year_of_era_range doe Hd) as H1. pose proof (day_of_year_range doe Hd) as H3.
  set (yoe := year_of_era doe) in *. assert (Hdoy : day_of_year doe = doe - (365 * yoe + yoe / 4 - yoe / 100)) by done.
  set (doy := day_of_year doe) in *. set (mp := (5 * doy + 2) / 153).
  assert (Hmp : 0 ≤ mp ≤ 11) by (unfold mp; Z.div_mod_to_equations; lia).
  assert (Hz : z = z / 146097 * 146097 + doe) by (pose proof (Z.div_mod z 146097); unfold doe; lia).
  set (era := z / 146097) in *. unfold days_from_civil. cbn [Year Month Day].
  assert (Hy : ∀ k, (if (if mp <? 10 then mp + 3 else mp - 9) <=? 2 then yoe + era * 400 + (if (if mp <? 10 then mp + 3 else mp - 9) <=? 2 then 1 else 0) - 1
    else yoe + era * 400 + (if (if mp <? 10 then mp + 3 else mp - 9) <=? 2 then 1 else 0)) = k → k = yoe + era * 400).
  { intros k <-. destruct (Z.ltb_spec mp 10); zcases; lia. }
  rewrite (Hy _ eq_refl), Z.div_add, Z.mod_add, (Z.div_small yoe), (Z.mod_small yoe) by lia.
  assert (Hm : (if 2 <? (if mp <? 10 then mp + 3 else mp - 9) then (if mp <? 10 then mp + 3 else mp - 9) - 3
    else (if mp <? 10 then mp + 3 else mp - 9) + 9) = mp) by (destruct (Z.ltb_spec mp 10); zcases; lia).
  rewrite Hm. lia.
Qed.

(** ** Instants *)

(** [time.Time] as nanoseconds since the epoch, in a zone [zone] seconds east of UTC. *)
Record Time := mkTime { nanos : Z; zone : Z }.

Definition local_seconds (t : Time) : Z := nanos t / 10 ^ 9 + zone t.
Definition Date (t : Time) : civil := civil_from_days (local_seconds t / 86400).
Definition Hour (t : Time) : Z := local_seconds t mod 86400 / 3600.
Definition Minute (t : Time) : Z := local_seconds t mod 3600 / 60.
Definition Second (t : Time) : Z := local_seconds t mod 60.
Definition Nanosecond (t : Time) : Z := nanos t mod 10 ^ 9.

Definition Add (t : Time) (d : Z) : Time := mkTime (nanos t + d) (zone t).
(** [AddDate(0, 0, days)]: in a fixed zone a day has 86400 seconds. *)
Definition AddDays (t : Time) (days : Z) : Time := mkTime (nanos t + days * 86400 * 10 ^ 9) (zone t).
Definition Sub (t u : Time) : Z := nanos t - nanos u.

(** [time.Unix(sec, nsec).UTC()]: nanoseconds outside a second are carried over. *)
Definition Unix_UTC (sec nsec : Z) : Time :=
  let '(sec, nsec) :=
    if (nsec <? 0) || (10 ^ 9 <=? nsec) then
      let n := Z.quot nsec (10 ^ 9) in
      let sec := sec + n in let nsec := nsec - n * 10 ^ 9 in
      if nsec <? 0 then (sec - 1, nsec + 10 ^ 9) else (sec, nsec)
    else (sec, nsec) in
  mkTime (sec * 10 ^ 9 + nsec) 0.

Lemma clock_ranges t : 0 ≤ Hour t < 24 ∧ 0 ≤ Minute t < 60 ∧ 0 ≤ Second t < 60 ∧ 0 ≤ Nanosecond t < 10 ^ 9.
Proof. unfold Hour, Minute, Second, Nanosecond. Z.div_mod_to_equations. lia. Qed.

(** The fields of an instant determine its second. *)
Lemma local_seconds_fields t :
  local_seconds t = days_from_civil (Date t) * 86400 + Hour t * 3600 + Minute t * 60 + Second t.
Proof.
  unfold Date. rewrite days_from_civil_from_days. unfold Hour, Minute, Second. generalize (local_seconds t). intros s.
  Z.div_mod_to_equations. lia.
Qed.

Lemma Unix_UTC_nanos n : nanos (Unix_UTC (Z.quot n (10 ^ 9)) (Z.rem n (10 ^ 9))) = n ∧
  zone (Unix_UTC (Z.quot n (10 ^ 9)) (Z.rem n (10 ^ 9))) = 0.
Proof.
  unfold Unix_UTC. pose proof (Z.quot_rem' n (10 ^ 9)) as Hq. pose proof (Z.rem_bound_abs n (10 ^ 9) ltac:(lia)) as Hb.
  set (q := Z.quot n (10 ^ 9)) in *. set (r := Z.rem n (10 ^ 9)) in *.
  assert (Hz : Z.quot r (10 ^ 9) = 0) by (apply Z.quot_small_iff; lia). rewrite Hz.
  destruct ((r <? 0) || (10 ^ 9 <=? r)); [|cbn; lia]. destruct (r - 0 * 10 ^ 9 <? 0); cbn; lia.
Qed.
