(* ===== verification/Logline.v ===== *)
(** * Logline: the text of a log record ([log4go/field.go], [log.go], [logfmt.go])

    Typed fields, the time stamp, and the three renderings of a record: text, JSON and
    logfmt.  A Go string is a string of bytes; [append] to the buffer is concatenation.
    What the code obtains elsewhere is a parameter: the text [strconv.AppendFloat] gives
    for a finite float, the error text of an error value, and the JSON codec's text for
    other values ([None]: an error or a recovered panic).

    Shown against two reference readers, of JSON and of logfmt, that are defined here:
    a JSON line is one object whose members are exactly the record's, so no message,
    key or value can break the document or forge a member ([record_json_roundtrip]);
    likewise for logfmt ([record_logfmt_roundtrip]); a time stamp reads back as its
    instant to the microsecond ([iso_time_roundtrip]).  The reader of JSON has the full
    grammar, with exponents and white space; it works on bytes and does not check that
    bytes above 127 are valid UTF-8, which the code copies. *)

From Stdlib Require Import ZArith Lia Ascii String.
From stdpp Require Import base tactics numbers list strings.
From S2P Require Import Prelude GoStd Calendar.

#[local] Open Scope string_scope.
#[local] Open Scope Z_scope.

Definition dquote : ascii := "034".
Definition backslash : ascii := "092".
Definition newline : ascii := "010".

(** ** Time stamps *)

(** [byte('0' + v)]. *)
Definition digit_byte (v : Z) : ascii := chr (u8 (48 + v)).

Definition append4d (buf : string) (v : Z) : string :=
  buf +:+ String (digit_byte (Z.quot v 1000)) (String (digit_byte (Z.rem (Z.quot v 100) 10))
    (String (digit_byte (Z.rem (Z.quot v 10) 10)) (String (digit_byte (Z.rem v 10)) ""))).
Definition append2d (buf : string) (v : Z) : string :=
  buf +:+ String (digit_byte (Z.quot v 10)) (String (digit_byte (Z.rem v 10)) "").
Definition append6d (buf : string) (v : Z) : string :=
  buf +:+ String (digit_byte (Z.rem (Z.quot v 100000) 10)) (String (digit_byte (Z.rem (Z.quot v 10000) 10))
    (String (digit_byte (Z.rem (Z.quot v 1000) 10)) (String (digit_byte (Z.rem (Z.quot v 100) 10))
    (String (digit_byte (Z.rem (Z.quot v 10) 10)) (String (digit_byte (Z.rem v 10)) ""))))).

Definition appendISOTimeUTC (buf : string) (unixNano : Z) : string :=
  let t := Unix_UTC (Z.quot unixNano (10 ^ 9)) (Z.rem unixNano (10 ^ 9)) in
  let d := Date t in
  let micros := Z.quot (Nanosecond t) 1000 in
  let buf := append4d buf (Year d) in
  let buf := append2d (buf +:+ "-") (Month d) in
  let buf := append2d (buf +:+ "-") (Day d) in
  let buf := append2d (buf +:+ "T") (Hour t) in
  let buf := append2d (buf +:+ ":") (Minute t) in
  let buf := append2d (buf +:+ ":") (Second t) in
  let buf := append6d (buf +:+ ".") micros in
  buf +:+ "Z".

(** *** The reference reader of a time stamp: microseconds since the epoch *)

Fixpoint read_digits (k : nat) (acc : Z) (s : string) : option (Z * string) :=
  match k with
  | O => Some (acc, s)
  | S k => match s with
           | String c s => if is_digit c then read_digits k (acc * 10 + digit_val c) s else None
           | EmptyString => None
           end
  end.

Definition expect (c : ascii) (s : string) : option string :=
  match s with String c' s => if ascii_dec c c' then Some s else None | EmptyString => None end.

Definition read_iso (s : string) : option Z :=
  '(y, s) ← read_digits 4 0 s; s ← expect "-" s;
  '(mo, s) ← read_digits 2 0 s; s ← expect "-" s;
  '(d, s) ← read_digits 2 0 s; s ← expect "T" s;
  '(h, s) ← read_digits 2 0 s; s ← expect ":" s;
  '(mi, s) ← read_digits 2 0 s; s ← expect ":" s;
  '(sec, s) ← read_digits 2 0 s; s ← expect "." s;
  '(us, s) ← read_digits 6 0 s; s ← expect "Z" s;
  match s with
  | EmptyString => Some ((days_from_civil (mkCivil y mo d) * 86400 + h * 3600 + mi * 60 + sec) * 10 ^ 6 + us)
  | _ => None
  end.

Lemma digit_byte_ok v : 0 ≤ v < 10 → is_digit (digit_byte v) = true ∧ digit_val (digit_byte v) = v.
Proof.
  intros Hv. unfold digit_byte, u8. rewrite Z.mod_small by lia. split; [by apply is_digit_chr|by apply digit_val_chr].
Qed.

Lemma read_digit k acc v s : 0 ≤ v < 10 → read_digits (S k) acc (String (digit_byte v) s) = read_digits k (acc * 10 + v) s.
Proof. intros Hv. destruct (digit_byte_ok v Hv) as [H1 H2]. cbn [read_digits]. by rewrite H1, H2. Qed.

(** Concatenations to the right, literal parts spelled out. *)
Ltac strnorm := repeat first [rewrite <- app_assoc_str | rewrite app_cons_str | rewrite app_nil_l_str].

Ltac digits :=
  strnorm; rewrite ?Z.rem_mod_nonneg, ?Z.quot_div_nonneg by (try apply Z.div_pos; try apply Z.quot_pos; lia);
  rewrite !read_digit by (Z.div_mod_to_equations; lia); cbn [read_digits]; do 2 f_equal; Z.div_mod_to_equations; lia.

Lemma read_4d v s : 0 ≤ v < 10000 → read_digits 4 0 (append4d "" v +:+ s) = Some (v, s).
Proof. intros Hv. unfold append4d. digits. Qed.
Lemma read_2d v s : 0 ≤ v < 100 → read_digits 2 0 (append2d "" v +:+ s) = Some (v, s).
Proof. intros Hv. unfold append2d. digits. Qed.
Lemma read_6d v s : 0 ≤ v < 1000000 → read_digits 6 0 (append6d "" v +:+ s) = Some (v, s).
Proof. intros Hv. unfold append6d. digits. Qed.

Lemma expect_app c s : expect c (String c "" +:+ s) = Some s.
Proof. strnorm. cbn. by destruct (ascii_dec c c). Qed.

Lemma appendISOTimeUTC_app buf n : appendISOTimeUTC buf n = buf +:+ appendISOTimeUTC "" n.
Proof. unfold appendISOTimeUTC, append4d, append2d, append6d. by strnorm. Qed.

Lemma appendISOTimeUTC_parts n : let t := Unix_UTC (Z.quot n (10 ^ 9)) (Z.rem n (10 ^ 9)) in
  appendISOTimeUTC "" n = append4d "" (Year (Date t)) +:+ "-" +:+ append2d "" (Month (Date t)) +:+ "-" +:+ append2d "" (Day (Date t)) +:+
    "T" +:+ append2d "" (Hour t) +:+ ":" +:+ append2d "" (Minute t) +:+ ":" +:+ append2d "" (Second t) +:+
    "." +:+ append6d "" (Z.quot (Nanosecond t) 1000) +:+ "Z" +:+ "".
Proof. unfold appendISOTimeUTC, append4d, append2d, append6d. by strnorm. Qed.

(** The year of an instant that fits 64 bits of nanoseconds has four digits. *)
Lemma days_year_bound c : 1 ≤ Month c ≤ 12 → 1 ≤ Day c ≤ 31 → -110000 ≤ days_from_civil c ≤ 110000 → 1000 ≤ Year c < 3000.
Proof.
  unfold days_from_civil. intros Hm Hd. set (mp := if 2 <? Month c then _ else _).
  assert (Hmp : 0 ≤ mp ≤ 11) by (unfold mp; zcases; lia). clearbody mp. destruct (Z.leb_spec (Month c) 2); cbv zeta;
    Z.div_mod_to_equations; lia.
Qed.

Lemma iso_fields n : in_i64 n → let t := Unix_UTC (Z.quot n (10 ^ 9)) (Z.rem n (10 ^ 9)) in
  local_seconds t = n / 10 ^ 9 ∧ Nanosecond t = n mod 10 ^ 9 ∧
  1000 ≤ Year (Date t) < 3000 ∧ 1 ≤ Month (Date t) ≤ 12 ∧ 1 ≤ Day (Date t) ≤ 31 ∧
  0 ≤ Hour t < 24 ∧ 0 ≤ Minute t < 60 ∧ 0 ≤ Second t < 60 ∧ 0 ≤ Z.quot (Nanosecond t) 1000 < 1000000.
Proof.
  intros Hn t. destruct (Unix_UTC_nanos n) as [Ht Hz]. fold t in Ht, Hz.
  assert (Hs : local_seconds t = n / 10 ^ 9) by (unfold local_seconds; rewrite Ht, Hz; lia).
  destruct (clock_ranges t) as (Hh & Hmi & Hse & Hns).
  pose proof (civil_from_days_ok (local_seconds t / 86400)) as (Hmo & Hda & Hda2). fold (Date t) in *.
  split; [done|]. split; [unfold Nanosecond; by rewrite Ht|].
  split; [|rewrite Z.quot_div_nonneg by lia; split_and!; try lia; Z.div_mod_to_equations; lia].
  apply days_year_bound; [done|lia|]. unfold Date. rewrite days_from_civil_from_days, Hs. mint.
Qed.

(** The time stamp of a record reads back as its instant in microseconds, for every
    64-bit number of nanoseconds, before the epoch as well. *)
Theorem iso_time_roundtrip n : in_i64 n → read_iso (appendISOTimeUTC "" n) = Some (n / 1000).
Proof.
  intros Hn. rewrite appendISOTimeUTC_parts. cbv zeta.
  destruct (iso_fields n Hn) as (Hs & Hns & Hy & Hmo & Hda & Hh & Hmi & Hse & Hus). set (t := Unix_UTC _ _) in *.
  pose proof (local_seconds_fields t) as Hf. unfold read_iso.
  rewrite read_4d by lia. cbn [mbind option_bind]. rewrite expect_app. cbn [mbind option_bind].
  repeat (rewrite read_2d by lia; cbn [mbind option_bind]; rewrite expect_app; cbn [mbind option_bind]).
  rewrite read_6d by lia. cbn [mbind option_bind]. rewrite expect_app. cbn [mbind option_bind].
  destruct (Date t) as [y mo d] eqn:Hdt. cbn [Year Month Day] in *.
  rewrite Z.quot_div_nonneg by (rewrite ?Hns; Z.div_mod_to_equations; lia).
  f_equal. rewrite <- Hf, Hs, Hns. Z.div_mod_to_equations. lia.
Qed.

Lemma iso_time_roundtrip_witness : read_iso (appendISOTimeUTC "" (-1)) = Some (-1) ∧
  appendISOTimeUTC "" (-1) = "1969-12-31T23:59:59.999999Z".
Proof. split; [apply (iso_time_roundtrip (-1)); unfold in_i64, min_i64, max_i64; lia|vm_compute; reflexivity]. Defined.

(** ** JSON strings *)

Definition hexDigit (n : Z) : ascii := chr (if n <? 10 then 48 + n else 87 + n).

(** A byte that is copied as it is. *)
Definition clean_byte (c : ascii) : bool :=
  (32 <=? byte_of c) && negb (byte_of c =? 34) && negb (byte_of c =? 92).

Definition escape_byte (c : ascii) : string :=
  let b := byte_of c in
  if (b =? 34) || (b =? 92) then String backslash (String c "")
  else if b =? 10 then String backslash "n"
  else if b =? 13 then String backslash "r"
  else if b =? 9 then String backslash "t"
  else if b =? 8 then String backslash "b"
  else if b =? 12 then String backslash "f"
  else String backslash (String "u" (String "0" (String "0"
         (String (hexDigit (Z.shiftr b 4)) (String (hexDigit (Z.land b 15)) ""))))).

(** The loop of [appendJSONStringContent]; [run] is the clean run [s[start:i]]. *)
Fixpoint content_loop (buf run s : string) : string :=
  match s with
  | EmptyString => match run with EmptyString => buf | _ => buf +:+ run end
  | String c s =>
      if clean_byte c then content_loop buf (run +:+ String c "") s
      else
        let buf := match run with EmptyString => buf | _ => buf +:+ run end in
        content_loop (buf +:+ escape_byte c) "" s
  end.
Definition appendJSONStringContent (buf s : string) : string := content_loop buf "" s.

Definition appendJSONQuoted (buf s : string) : string :=
  let buf := buf +:+ String dquote "" in
  let buf := appendJSONStringContent buf s in
  buf +:+ String dquote "".

(** ** Fields and records *)

Inductive fieldKind :=
| kindString | kindInt | kindInt64 | kindUint | kindFloat64 | kindBool | kindDuration | kindTime
| kindError | kindBytes | kindAny.

Definition floatExpMask : Z := 0x7FF0000000000000.

Definition LevelFlags : list string :=
  ["EMERGENCY"; "ALERT"; "CRITICAL"; "ERROR"; "WARNING"; "NOTICE"; "INFO"; "DEBUG"; "TRACE"].
Definition levelFlag (level : Z) : string := nth (Z.to_nat level) LevelFlags "".
(** Other levels are an index out of range. *)
Definition level_ok (level : Z) : Prop := 0 ≤ level < 9.

Section values.
Context {A : Type}.
(** [strconv.AppendFloat(_, v, 'f', -1, 64)] on the bits of a finite float; the text of
    an error value; the codec's text of a value. *)
Context (float_text : Z → string) (error_text : A → option string) (marshal : A → option string).

Record field := mkField { key : string; kind : fieldKind; i : Z; str : string; any : A }.

Definition appendFieldJSON (buf : string) (f : field) : string :=
  let buf := buf +:+ String dquote "" in
  let buf := appendJSONStringContent buf (key f) in
  let buf := buf +:+ String dquote ":" in
  match kind f with
  | kindString | kindBytes => appendJSONQuoted buf (str f)
  | kindInt | kindInt64 | kindDuration => buf +:+ Itoa (i f)
  | kindUint => buf +:+ utoa (u64 (i f))
  | kindBool => buf +:+ (if i f =? 1 then "true" else "false")
  | kindFloat64 =>
      if Z.land (u64 (i f)) floatExpMask =? floatExpMask then buf +:+ "null" else buf +:+ float_text (u64 (i f))
  | kindTime => appendISOTimeUTC (buf +:+ String dquote "") (i f) +:+ String dquote ""
  | kindError => match error_text (any f) with Some s => appendJSONQuoted buf s | None => buf +:+ "null" end
  | kindAny => match marshal (any f) with Some t => buf +:+ t | None => buf +:+ "null" end
  end.

(** The loop of [appendFieldsJSONObject]; [first] is [i == 0]. *)
Fixpoint fields_loop (first : bool) (buf : string) (fs : list field) : string :=
  match fs with
  | [] => buf
  | f :: fs => fields_loop false (appendFieldJSON (if first then buf else buf +:+ ",") f) fs
  end.
Definition appendFieldsJSONObject (buf : string) (fs : list field) : string :=
  fields_loop true (buf +:+ "{") fs +:+ "}".

Record LogRecord := mkRecord {
  level : Z; time : string; file : string; msg : string; unixNano : Z; seq : Z; fields : list field }.

Definition FieldsJSON (r : LogRecord) : string :=
  match fields r with [] => "" | fs => appendFieldsJSONObject "" fs end.

(** A literal [,"name":]. *)
Definition member (name : string) : string := "," +:+ String dquote name +:+ String dquote ":".

Definition JSON (r : LogRecord) : string :=
  let buf := "{" +:+ String dquote "unix_nano" +:+ String dquote ":" in
  let buf := buf +:+ Itoa (unixNano r) in
  let buf := buf +:+ member "seq" +:+ utoa (seq r) in
  let buf := appendISOTimeUTC (buf +:+ member "time" +:+ String dquote "") (unixNano r) +:+ String dquote "" in
  let buf := appendJSONQuoted (buf +:+ member "level") (levelFlag (level r)) in
  let buf := appendJSONQuoted (buf +:+ member "msg") (msg r) in
  let buf := match file r with EmptyString => buf | f => appendJSONQuoted (buf +:+ member "file") f end in
  let buf := match fields r with [] => buf | fs => appendFieldsJSONObject (buf +:+ member "fields") fs end in
  buf +:+ "}" +:+ String newline "".

Definition String_ (r : LogRecord) : string :=
  let b := "#" +:+ utoa (seq r) +:+ " " +:+ time r +:+ " [" +:+ levelFlag (level r) +:+ "] <" +:+ file r +:+ "> " +:+ msg r in
  let b := match FieldsJSON r with EmptyString => b | fj => b +:+ " " +:+ fj end in
  b +:+ String newline "".
End values.

(** ** The reference reader of JSON *)

Inductive json :=
| JNull | JBool (b : bool) | JNum (t : string) | JStr (s : string) | JArr (l : list json) | JObj (l : list (string * json)).

Definition hex_val (c : ascii) : option Z :=
  let b := byte_of c in
  if (48 <=? b) && (b <=? 57) then Some (b - 48)
  else if (97 <=? b) && (b <=? 102) then Some (b - 87)
  else if (65 <=? b) && (b <=? 70) then Some (b - 55) else None.

(** UTF-8 of a code point below 2^16. *)
Definition utf8 (z : Z) : string :=
  if z <? 128 then String (chr z) ""
  else if z <? 2048 then String (chr (192 + z / 64)) (String (chr (128 + z mod 64)) "")
  else String (chr (224 + z / 4096)) (String (chr (128 + z / 64 mod 64)) (String (chr (128 + z mod 64)) "")).

(** A string's contents up to its closing quote. *)
Fixpoint read_chars (s : string) : option (string * string) :=
  match s with
  | EmptyString => None
  | String c s =>
      if byte_of c =? 34 then Some ("", s)
      else if byte_of c =? 92 then
        match s with
        | EmptyString => None
        | String e s =>
            let esc t s := match read_chars s with Some (r, s) => Some (t +:+ r, s) | None => None end in
            if (byte_of e =? 34) || (byte_of e =? 92) || (byte_of e =? 47) then esc (String e "") s
            else if byte_of e =? 110 then esc (String "010" "") s
            else if byte_of e =? 114 then esc (String "013" "") s
            else if byte_of e =? 116 then esc (String "009" "") s
            else if byte_of e =? 98 then esc (String "008" "") s
            else if byte_of e =? 102 then esc (String "012" "") s
            else if byte_of e =? 117 then
              match s with
              | String a (String b (String c (String d s))) =>
                  match hex_val a, hex_val b, hex_val c, hex_val d with
                  | Some a, Some b, Some c, Some d => esc (utf8 (a * 4096 + b * 256 + c * 16 + d)) s
                  | _, _, _, _ => None
                  end
              | _ => None
              end
            else None
        end
      else if byte_of c <? 32 then None
      else match read_chars s with Some (r, s) => Some (String c r, s) | None => None end
  end.

Definition read_string (s : string) : option (string * string) :=
  match s with String c s => if byte_of c =? 34 then read_chars s else None | EmptyString => None end.

(** The digits at the front. *)
Fixpoint span_digits (s : string) : string * string :=
  match s with
  | String c r => if is_digit c then let '(d, r) := span_digits r in (String c d, r) else ("", s)
  | EmptyString => ("", "")
  end.

(** [digits] after an optional sign. *)
Definition read_sign (plus : bool) (s : string) : string * string :=
  match s with String c r => if (byte_of c =? 45) || (plus && (byte_of c =? 43)) then (String c "", r) else ("", s) | EmptyString => ("", s) end.

(** [(.digits)?]. *)
Definition read_frac (s : string) : option (string * string) :=
  match s with
  | String c r =>
      if byte_of c =? 46 then let '(d, r) := span_digits r in match d with EmptyString => None | _ => Some (String c d, r) end
      else Some ("", s)
  | EmptyString => Some ("", s)
  end.
(** [([eE][+-]?digits)?]. *)
Definition read_exp (s : string) : option (string * string) :=
  match s with
  | String c r =>
      if (byte_of c =? 101) || (byte_of c =? 69) then
        let '(sign, r) := read_sign true r in let '(d, r) := span_digits r in
        match d with EmptyString => None | _ => Some (String c (sign +:+ d), r) end
      else Some ("", s)
  | EmptyString => Some ("", s)
  end.
Definition read_number (s : string) : option (string * string) :=
  let '(sign, s) := read_sign false s in
  let '(int, s) := span_digits s in
  match int with
  | EmptyString => None
  | _ => '(frac, s) ← read_frac s; '(e, s) ← read_exp s; Some (sign +:+ int +:+ frac +:+ e, s)
  end.

Fixpoint strip (p s : string) : option string :=
  match p, s with
  | EmptyString, _ => Some s
  | String a p, String b s => if ascii_dec a b then strip p s else None
  | String _ _, EmptyString => None
  end.

(** White space: space, tab, newline, carriage return. *)
Definition is_space (c : ascii) : bool := let b := byte_of c in (b =? 32) || (b =? 9) || (b =? 10) || (b =? 13).
Fixpoint skip (s : string) : string :=
  match s with String c r => if is_space c then skip r else s | EmptyString => "" end.

Fixpoint read_value (fuel : nat) (s : string) : option (json * string) :=
  match fuel with
  | O => None
  | S n =>
      match skip s with
      | EmptyString => None
      | String c r =>
          if byte_of c =? 123 then
            match strip "}" (skip r) with
            | Some r => Some (JObj [], r)
            | None => '(ms, r) ← read_members n r; Some (JObj ms, r)
            end
          else if byte_of c =? 91 then
            match strip "]" (skip r) with
            | Some r => Some (JArr [], r)
            | None => '(vs, r) ← read_elements n r; Some (JArr vs, r)
            end
          else if byte_of c =? 34 then '(t, r) ← read_chars r; Some (JStr t, r)
          else if byte_of c =? 110 then r ← strip "null" (String c r); Some (JNull, r)
          else if byte_of c =? 116 then r ← strip "true" (String c r); Some (JBool true, r)
          else if byte_of c =? 102 then r ← strip "false" (String c r); Some (JBool false, r)
          else '(t, r) ← read_number (String c r); Some (JNum t, r)
      end
  end
with read_members (fuel : nat) (s : string) : option (list (string * json) * string) :=
  match fuel with
  | O => None
  | S n =>
      '(k, s) ← read_string (skip s); s ← strip ":" (skip s); '(v, s) ← read_value n s;
      match strip "," (skip s) with
      | Some s => '(ms, s) ← read_members n s; Some ((k, v) :: ms, s)
      | None => s ← strip "}" (skip s); Some ([(k, v)], s)
      end
  end
with read_elements (fuel : nat) (s : string) : option (list json * string) :=
  match fuel with
  | O => None
  | S n =>
      '(v, s) ← read_value n s;
      match strip "," (skip s) with
      | Some s => '(vs, s) ← read_elements n s; Some (v :: vs, s)
      | None => s ← strip "]" (skip s); Some ([v], s)
      end
  end.

Lemma skip_text c r : is_space c = false → skip (String c r) = String c r.
Proof. intros Hc. cbn [skip]. by rewrite Hc. Qed.

(** ** Strings read back *)

(** Byte by byte, which is what the runs amount to. *)
Fixpoint escape (s : string) : string :=
  match s with
  | EmptyString => ""
  | String c s => (if clean_byte c then String c "" else escape_byte c) +:+ escape s
  end.

Lemma content_loop_escape buf run s : content_loop buf run s = buf +:+ run +:+ escape s.
Proof.
  assert (Hrun : ∀ buf run, match run with EmptyString => buf | String _ _ => buf +:+ run end = buf +:+ run).
  { intros b [|]; [by rewrite app_nil_r_str|done]. }
  revert buf run. induction s as [|c s IH]; intros buf run; cbn [content_loop escape]; rewrite ?Hrun.
  { by rewrite app_nil_r_str. }
  destruct (clean_byte c); rewrite IH, <- ?app_assoc_str; [done|]. by rewrite app_nil_l_str.
Qed.

Lemma appendJSONQuoted_text buf s : appendJSONQuoted buf s = buf +:+ String dquote "" +:+ escape s +:+ String dquote "".
Proof. unfold appendJSONQuoted, appendJSONStringContent. rewrite content_loop_escape, app_nil_l_str. by rewrite <- !app_assoc_str. Qed.

Lemma escape_app s t : escape (s +:+ t) = escape s +:+ escape t.
Proof. induction s as [|c s IH]; [done|]. rewrite app_cons_str. cbn [escape]. by rewrite IH, app_assoc_str. Qed.

Lemma read_clean c t : clean_byte c = true →
  read_chars (String c t) = match read_chars t with Some (r, s) => Some (String c r, s) | None => None end.
Proof.
  unfold clean_byte. rewrite !andb_true_iff, !negb_true_iff. intros [[Hc H34] H92]. cbn [read_chars]. rewrite H34, H92.
  assert (byte_of c <? 32 = false) as -> by lia. done.
Qed.

Lemma read_escaped c t : clean_byte c = false →
  read_chars (escape_byte c +:+ t) = match read_chars t with Some (r, s) => Some (String c r, s) | None => None end.
Proof. intros Hc. destruct c as [[] [] [] [] [] [] [] []]; try discriminate Hc; reflexivity. Qed.

Lemma read_escape s rest : read_chars (escape s +:+ String dquote rest) = Some (s, rest).
Proof.
  induction s as [|c s IH]; [done|]. cbn [escape]. rewrite <- app_assoc_str. destruct (clean_byte c) eqn:Hc.
  - rewrite app_cons_str, app_nil_l_str, read_clean, IH by done. done.
  - by rewrite read_escaped, IH.
Qed.

(** ** Values read back *)

(** What may follow a number. *)
Definition ends (rest : string) : Prop :=
  match rest with EmptyString => True | String c _ => is_digit c = false ∧ byte_of c ≠ 46 ∧ byte_of c ≠ 101 ∧ byte_of c ≠ 69 end.

(** The reader takes exactly [t] and finds [v]. *)
Definition reads (t : string) (v : json) : Prop :=
  ∃ n, ∀ m rest, (n ≤ m)%nat → ends rest → read_value m (t +:+ rest) = Some (v, rest).

Lemma reads_string s : reads (String dquote "" +:+ escape s +:+ String dquote "") (JStr s).
Proof.
  exists 1%nat. intros [|m] rest Hm _; [lia|]. strnorm. cbn [read_value]. rewrite skip_text by done. change (byte_of dquote) with 34. cbn [Z.eqb Pos.eqb].
  by rewrite read_escape.
Qed.

Lemma reads_literal t v : t = "null" ∧ v = JNull ∨ t = "true" ∧ v = JBool true ∨ t = "false" ∧ v = JBool false → reads t v.
Proof. intros Ht. exists 1%nat. intros [|m] rest Hm _; [lia|]. destruct Ht as [[-> ->]|[[-> ->]|[-> ->]]]; reflexivity. Qed.

Lemma span_digits_app s rest : all_digits s → ends rest → span_digits (s +:+ rest) = (s, rest).
Proof.
  induction s as [|c s IH]; intros Hs Hr.
  - rewrite app_nil_l_str. destruct rest as [|c r]; [done|]. destruct Hr as [Hc _]. cbn. by rewrite Hc.
  - rewrite app_cons_str. cbn [span_digits]. rewrite (all_digits_head _ _ Hs), IH; [done|by eapply all_digits_tail|done].
Qed.

Lemma read_sign_digits sign s rest : sign = "" ∨ sign = "-" → all_digits s → s ≠ "" → read_sign false (sign +:+ s +:+ rest) = (sign, s +:+ rest).
Proof.
  intros Hsign Hs Hne. destruct Hsign as [-> | ->]; [|reflexivity]. rewrite app_nil_l_str. destruct s as [|c s]; [done|]. rewrite app_cons_str.
  pose proof (all_digits_head _ _ Hs) as Hd. unfold is_digit in Hd. apply andb_prop in Hd as [? ?]. unfold read_sign.
  assert (byte_of c =? 45 = false) as -> by lia. done.
Qed.

Lemma read_number_digits sign s rest : sign = "" ∨ sign = "-" → all_digits s → s ≠ "" → ends rest →
  read_number (sign +:+ s +:+ rest) = Some (sign +:+ s, rest).
Proof.
  intros Hsign Hs Hne Hr. unfold read_number. rewrite read_sign_digits, span_digits_app by done. destruct s as [|c s]; [done|].
  assert (read_frac rest = Some ("", rest) ∧ read_exp rest = Some ("", rest)) as [-> Hexp].
  { destruct rest as [|d r]; [done|]. destruct Hr as (_ & Hd & He & HE). unfold read_frac, read_exp. apply Z.eqb_neq in Hd as ->, He as ->, HE as ->. done. }
  cbn [mbind option_bind]. rewrite Hexp. cbn [mbind option_bind]. by rewrite !app_nil_r_str.
Qed.

Lemma reads_number sign s : sign = "" ∨ sign = "-" → all_digits s → s ≠ "" → reads (sign +:+ s) (JNum (sign +:+ s)).
Proof.
  intros Hsign Hs Hne. exists 1%nat. intros [|m] rest Hm Hr; [lia|]. rewrite <- app_assoc_str.
  pose proof (read_number_digits sign s rest Hsign Hs Hne Hr) as Hn.
  assert (Hc : ∃ c r, sign +:+ s +:+ rest = String c r ∧ (byte_of c = 45 ∨ 48 ≤ byte_of c ≤ 57)).
  { destruct Hsign as [-> | ->]; [|eexists _, _; split; [reflexivity|by left]]. rewrite app_nil_l_str. destruct s as [|c s]; [done|].
    eexists _, _. split; [reflexivity|]. right. pose proof (all_digits_head _ _ Hs) as Hd. unfold is_digit in Hd. lia. }
  destruct Hc as (c & r & Hc & Hb). rewrite Hc in Hn |- *. cbn [read_value]. rewrite skip_text by (unfold is_space; lia).
  repeat match goal with |- context [byte_of c =? ?k] => assert (byte_of c =? k = false) as -> by lia end. by rewrite Hn.
Qed.

Lemma reads_utoa n : 0 ≤ n → reads (utoa n) (JNum (utoa n)).
Proof.
  intros Hn. change (utoa n) with ("" +:+ utoa n). apply reads_number; [by left|by apply utoa_digits|apply utoa_nonempty].
Qed.

Lemma reads_Itoa z : reads (Itoa z) (JNum (Itoa z)).
Proof.
  unfold Itoa. destruct (Z.ltb_spec z 0); [|by apply reads_utoa].
  change (String "-" (utoa (- z))) with ("-" +:+ utoa (- z)).
  apply reads_number; [by right|apply utoa_digits; lia|apply utoa_nonempty].
Qed.

(** ** Objects read back *)

Definition mem_text (kt : string * string) : string :=
  String dquote "" +:+ escape kt.1 +:+ String dquote ":" +:+ kt.2.
(** The members after the first. *)
Fixpoint more (ms : list (string * string)) : string :=
  match ms with [] => "" | kt :: ms => "," +:+ mem_text kt +:+ more ms end.
Definition join (ms : list (string * string)) : string :=
  match ms with [] => "" | kt :: ms => mem_text kt +:+ more ms end.

Lemma more_app l k : more (l ++ k) = more l +:+ more k.
Proof. induction l as [|x l IH]; [done|]. cbn [more app]. by rewrite IH, !app_assoc_str. Qed.

Lemma ends_more ms rest : ends (more ms +:+ "}" +:+ rest).
Proof. destruct ms; cbn [more]; strnorm; done. Qed.

Definition member_reads (kt : string * string) (kv : string * json) : Prop := kt.1 = kv.1 ∧ reads kt.2 kv.2.

(** One member, then the rest of the object. *)
Lemma read_member k t v : reads t v → ∃ n, ∀ m tl, (n ≤ m)%nat → ends tl →
  read_members (S m) (mem_text (k, t) +:+ tl) =
    match strip "," (skip tl) with
    | Some s => '(ms, s) ← read_members m s; Some ((k, v) :: ms, s)
    | None => s ← strip "}" (skip tl); Some ([(k, v)], s)
    end.
Proof.
  intros [n Hv]. exists n. intros m tl Hm Htl. unfold mem_text. cbn [fst snd]. strnorm. cbn [read_members]. rewrite skip_text by done. cbn [read_string].
  change (byte_of dquote) with 34. cbn [Z.eqb Pos.eqb]. rewrite read_escape. cbn [mbind option_bind]. rewrite skip_text by done. cbn [strip].
  destruct (ascii_dec ":" ":"); [|done]. cbn [mbind option_bind]. by rewrite Hv.
Qed.

Lemma read_members_join kt ms kv vs : member_reads kt kv → Forall2 member_reads ms vs →
  ∃ n, ∀ m rest, (n ≤ m)%nat → read_members m (join (kt :: ms) +:+ "}" +:+ rest) = Some (kv :: vs, rest).
Proof.
  revert kt kv vs. induction ms as [|kt' ms IH]; intros [k t] [k' v] vs [Hk Hv] Hms; cbn [fst snd] in *; subst k';
    destruct (read_member k t v Hv) as [n Hfirst].
  - inversion Hms; subst. exists (S n). intros [|m] rest Hm; [lia|]. cbn [join more]. rewrite <- app_assoc_str, app_nil_l_str.
    rewrite Hfirst; [|lia|done]. strnorm. reflexivity.
  - inversion Hms as [|? kv' ? vs' Hh Ht]; subst. destruct (IH kt' kv' vs' Hh Ht) as [n2 H2].
    exists (S (Nat.max n n2)). intros [|m] rest Hm; [lia|]. cbn [join]. rewrite <- app_assoc_str.
    rewrite Hfirst; [|lia|apply ends_more]. cbn [more]. rewrite <- !app_assoc_str, app_cons_str, app_nil_l_str, skip_text by done. cbn [strip].
    destruct (ascii_dec "," ","); [|done]. pose proof (H2 m rest ltac:(lia)) as H3. cbn [join] in H3.
    rewrite <- app_assoc_str in H3. by rewrite H3.
Qed.

Lemma reads_object kt ms kv vs : member_reads kt kv → Forall2 member_reads ms vs →
  reads ("{" +:+ join (kt :: ms) +:+ "}") (JObj (kv :: vs)).
Proof.
  intros H1 H2. destruct (read_members_join kt ms kv vs H1 H2) as [n Hn]. exists (S n). intros [|m] rest Hm Hr; [lia|].
  rewrite <- !app_assoc_str, app_cons_str, app_nil_l_str. cbn [read_value]. rewrite skip_text by done.
  change (byte_of "{" =? 123) with true. cbv iota.
  rewrite Hn by lia. destruct (strip "}" (skip (join (kt :: ms) +:+ "}" +:+ rest))) eqn:E; [|done].
  exfalso. unfold join, mem_text in E. destruct kt. revert E. strnorm. rewrite skip_text by done. done.
Qed.

(** ** Records *)

Section records.
Context {A : Type} (float_text : Z → string) (error_text : A → option string) (marshal : A → option string).
(** The value the codec's text stands for. *)
Context (any_json : A → json).

Definition finite (bits : Z) : Prop := Z.land bits floatExpMask ≠ floatExpMask.

(** The documented behaviour of the two formatters: a finite float in format ['f'] is a
    decimal number, and a successful [Marshal] gives a JSON text. *)
Context (Hfloat : ∀ bits, finite bits → reads (float_text bits) (JNum (float_text bits))).
Context (Hmarshal : ∀ a t, marshal a = Some t → reads t (any_json a)).

Definition value_text (f : @field A) : string :=
  match kind f with
  | kindString | kindBytes => appendJSONQuoted "" (str f)
  | kindInt | kindInt64 | kindDuration => Itoa (i f)
  | kindUint => utoa (u64 (i f))
  | kindBool => if i f =? 1 then "true" else "false"
  | kindFloat64 => if Z.land (u64 (i f)) floatExpMask =? floatExpMask then "null" else float_text (u64 (i f))
  | kindTime => String dquote "" +:+ appendISOTimeUTC "" (i f) +:+ String dquote ""
  | kindError => match error_text (any f) with Some s => appendJSONQuoted "" s | None => "null" end
  | kindAny => match marshal (any f) with Some t => t | None => "null" end
  end.

(** What a field means. *)
Definition field_json (f : @field A) : json :=
  match kind f with
  | kindString | kindBytes => JStr (str f)
  | kindInt | kindInt64 | kindDuration => JNum (Itoa (i f))
  | kindUint => JNum (utoa (u64 (i f)))
  | kindBool => JBool (i f =? 1)
  | kindFloat64 => if Z.land (u64 (i f)) floatExpMask =? floatExpMask then JNull else JNum (float_text (u64 (i f)))
  | kindTime => JStr (appendISOTimeUTC "" (i f))
  | kindError => match error_text (any f) with Some s => JStr s | None => JNull end
  | kindAny => match marshal (any f) with Some _ => any_json (any f) | None => JNull end
  end.

Definition field_ok (f : @field A) : Prop := in_i64 (i f).

Lemma digit_byte_clean v : 0 ≤ v < 10 → clean_byte (digit_byte v) = true.
Proof using. intros Hv. unfold clean_byte, digit_byte, u8. rewrite Z.mod_small, byte_of_chr by lia. lia. Qed.

Lemma escape_cons c s : clean_byte c = true → escape (String c s) = String c (escape s).
Proof using. intros Hc. cbn [escape]. rewrite Hc. by strnorm. Qed.

Ltac clean_digits :=
  strnorm; rewrite ?Z.rem_mod_nonneg, ?Z.quot_div_nonneg by (try apply Z.div_pos; try apply Z.quot_pos; lia);
  rewrite !escape_cons by (apply digit_byte_clean; Z.div_mod_to_equations; lia); done.

Lemma escape_4d v : 0 ≤ v < 10000 → escape (append4d "" v) = append4d "" v.
Proof using. intros Hv. unfold append4d. clean_digits. Qed.
Lemma escape_2d v : 0 ≤ v < 100 → escape (append2d "" v) = append2d "" v.
Proof using. intros Hv. unfold append2d. clean_digits. Qed.
Lemma escape_6d v : 0 ≤ v < 1000000 → escape (append6d "" v) = append6d "" v.
Proof using. intros Hv. unfold append6d. clean_digits. Qed.

Lemma escape_iso n : in_i64 n → escape (appendISOTimeUTC "" n) = appendISOTimeUTC "" n.
Proof using.
  intros Hn. rewrite appendISOTimeUTC_parts. cbv zeta.
  destruct (iso_fields n Hn) as (_ & _ & Hy & Hmo & Hda & Hh & Hmi & Hse & Hus).
  rewrite !escape_app, escape_4d, !escape_2d, escape_6d by lia. done.
Qed.

Lemma reads_iso n : in_i64 n → reads (String dquote "" +:+ appendISOTimeUTC "" n +:+ String dquote "") (JStr (appendISOTimeUTC "" n)).
Proof using. intros Hn. pose proof (reads_string (appendISOTimeUTC "" n)) as H. by rewrite escape_iso in H. Qed.

Lemma reads_quoted s : reads (appendJSONQuoted "" s) (JStr s).
Proof using. rewrite appendJSONQuoted_text, app_nil_l_str. apply reads_string. Qed.

Lemma reads_value f : field_ok f → reads (value_text f) (field_json f).
Proof using Hfloat Hmarshal.
  intros Hf. unfold value_text, field_json. destruct (kind f);
    try apply reads_quoted; try apply reads_Itoa; try (apply reads_utoa; unfold u64; apply Z.mod_pos_bound; lia).
  - destruct (Z.eqb_spec (Z.land (u64 (i f)) floatExpMask) floatExpMask); [apply reads_literal; auto|by apply Hfloat].
  - apply reads_literal. destruct (i f =? 1); auto.
  - by apply reads_iso.
  - destruct (error_text (any f)); [apply reads_quoted|apply reads_literal; auto].
  - destruct (marshal (any f)) eqn:E; [by apply Hmarshal|apply reads_literal; auto].
Qed.
Lemma appendFieldJSON_text buf f : appendFieldJSON float_text error_text marshal buf f = buf +:+ mem_text (key f, value_text f).
Proof using.
  unfold appendFieldJSON, appendJSONStringContent, value_text, mem_text. rewrite content_loop_escape, app_nil_l_str. cbn [fst snd].
  destruct (kind f); rewrite ?(appendJSONQuoted_text (_ +:+ _)), ?(appendJSONQuoted_text ""), ?app_nil_l_str;
    try (by rewrite <- !app_assoc_str).
  - destruct (_ =? floatExpMask); by rewrite <- !app_assoc_str.
  - rewrite appendISOTimeUTC_app. by rewrite <- !app_assoc_str.
  - destruct (error_text (any f)); rewrite ?(appendJSONQuoted_text (_ +:+ _)), ?(appendJSONQuoted_text ""), ?app_nil_l_str;
      by rewrite <- !app_assoc_str.
  - destruct (marshal (any f)); by rewrite <- !app_assoc_str.
Qed.

Definition field_member (f : @field A) : string * string := (key f, value_text f).
Definition field_pair (f : @field A) : string * json := (key f, field_json f).

Lemma fields_loop_text buf fs : fields_loop float_text error_text marshal false buf fs = buf +:+ more (field_member <$> fs).
Proof using.
  revert buf. induction fs as [|f fs IH]; intros buf; cbn [fields_loop].
  { by rewrite app_nil_r_str. }
  rewrite IH, appendFieldJSON_text. rewrite fmap_cons. cbn [more]. by rewrite <- !app_assoc_str.
Qed.

Lemma fields_object_text buf f fs : appendFieldsJSONObject float_text error_text marshal buf (f :: fs) =
  buf +:+ "{" +:+ join (field_member <$> f :: fs) +:+ "}".
Proof using.
  unfold appendFieldsJSONObject. cbn [fields_loop]. rewrite fields_loop_text, appendFieldJSON_text.
  rewrite fmap_cons. cbn [join]. by rewrite <- !app_assoc_str.
Qed.

Lemma fields_read f fs : Forall field_ok (f :: fs) → reads ("{" +:+ join (field_member <$> f :: fs) +:+ "}") (JObj (field_pair <$> f :: fs)).
Proof using Hfloat Hmarshal.
  intros [Hf Hfs]%Forall_cons. rewrite !fmap_cons. apply reads_object; [split; [done|by apply reads_value]|].
  apply Forall2_fmap, Forall_Forall2_diag. eapply Forall_impl; [exact Hfs|]. intros g Hg. split; [done|by apply reads_value].
Qed.

(** What a record means. *)
Definition record_pairs (r : @LogRecord A) : list (string * json) :=
  [("unix_nano", JNum (Itoa (unixNano r))); ("seq", JNum (utoa (seq r)));
   ("time", JStr (appendISOTimeUTC "" (unixNano r))); ("level", JStr (levelFlag (level r))); ("msg", JStr (msg r))] ++
  match file r with EmptyString => [] | f => [("file", JStr f)] end ++
  match fields r with [] => [] | fs => [("fields", JObj (field_pair <$> fs))] end.

Definition record_members (r : @LogRecord A) : list (string * string) :=
  [("unix_nano", Itoa (unixNano r)); ("seq", utoa (seq r));
   ("time", String dquote "" +:+ appendISOTimeUTC "" (unixNano r) +:+ String dquote ""); ("level", appendJSONQuoted "" (levelFlag (level r)));
   ("msg", appendJSONQuoted "" (msg r))] ++
  match file r with EmptyString => [] | f => [("file", appendJSONQuoted "" f)] end ++
  match fields r with [] => [] | fs => [("fields", "{" +:+ join (field_member <$> fs) +:+ "}")] end.

Record record_ok (r : @LogRecord A) : Prop := {
  r_level : level_ok (level r); r_nano : in_i64 (unixNano r); r_seq : 0 ≤ seq r; r_fields : Forall field_ok (fields r) }.

Lemma JSON_text r : JSON float_text error_text marshal r = "{" +:+ join (record_members r) +:+ "}" +:+ String newline "".
Proof using.
  unfold JSON, record_members. cbn [join app more]. rewrite more_app.
  rewrite (appendISOTimeUTC_app (_ +:+ _)). generalize (appendISOTimeUTC "" (unixNano r)). intros iso.
  assert (Hq : ∀ buf s, appendJSONQuoted buf s = buf +:+ appendJSONQuoted "" s) by (intros; by rewrite !appendJSONQuoted_text).
  destruct (file r) as [|c f], (fields r) as [|g fs]; rewrite ?fields_object_text;
  repeat match goal with |- context [appendJSONQuoted (?b +:+ ?x) ?s] => rewrite (Hq (b +:+ x) s) end;
  unfold member, mem_text; cbn [fst snd more]; unfold mem_text; cbn [fst snd]; rewrite <- !app_assoc_str; reflexivity.
Qed.
Lemma record_members_read r : record_ok r → Forall2 member_reads (record_members r) (record_pairs r).
Proof using Hfloat Hmarshal.
  intros [_ Hn Hs Hf]. unfold record_members, record_pairs. apply Forall2_app.
  - repeat constructor; cbn [snd]; [apply reads_Itoa|by apply reads_utoa|by apply reads_iso|apply reads_quoted|apply reads_quoted].
  - apply Forall2_app.
    + destruct (file r); [constructor|]. constructor; [|constructor]. split; [done|]. apply reads_quoted.
    + destruct (fields r); [constructor|]. constructor; [|constructor]. split; [done|]. by apply fields_read.
Qed.
End records.

(** C23: a JSON line is one document that says exactly what the record says: the reader
    finds one object whose members are, in order, the record's sequence keys, time,
    level, message, file and fields with their values, and the newline after it.  So
    no byte of a message, key or value can end a string early or add a member. *)
Theorem record_json_roundtrip {A} float_text (error_text : A → option string) marshal any_json r :
  (∀ bits, finite bits → reads (float_text bits) (JNum (float_text bits))) →
  (∀ a t, marshal a = Some t → reads t (any_json a)) →
  record_ok r →
  ∃ n, ∀ fuel, (n ≤ fuel)%nat → read_value fuel (JSON float_text error_text marshal r) =
    Some (JObj (record_pairs float_text error_text marshal any_json r), String newline "").
Proof.
  intros Hfl Hma Hr. pose proof (record_members_read float_text error_text marshal any_json Hfl Hma r Hr) as Hm.
  destruct (record_members float_text error_text marshal r) as [|kt ms] eqn:E; [discriminate E|].
  apply Forall2_cons_inv_l in Hm as (kv & vs & Hh & Ht & ->). destruct (reads_object kt ms kv vs Hh Ht) as [n Hn].
  exists n. intros fuel Hle. rewrite JSON_text, E. rewrite (app_assoc_str (join _)), (app_assoc_str "{").
  apply Hn; [done|]. by vm_compute.
Qed.

(** A record with an awkward message and fields of most kinds, and a codec that fails on
    negative values and gives an array, with an exponent, for the others. *)
Definition demo_float (bits : Z) : string := utoa 15.
Definition demo_marshal (a : Z) : option string := if a <? 0 then None else Some ("[1e+30," +:+ utoa a +:+ "]").
Definition demo_json (a : Z) : json := JArr [JNum "1e+30"; JNum (utoa a)].
Definition demo_record : LogRecord (A := Z) :=
  mkRecord 3 "now" "svc.go:42" (String dquote "a" +:+ String backslash "b" +:+ String newline "c") 1782399845000001999 7
    [mkField "user" kindInt64 (-42) "" 0; mkField (String dquote "k") kindString 0 "v" 0; mkField "ok" kindBool 1 "" 0;
     mkField "r" kindFloat64 (Z.shiftl 1023 52) "" 0; mkField "e" kindError 0 "" 0; mkField "x" kindAny 0 "" 44; mkField "y" kindAny 0 "" (-1)].

Lemma demo_marshal_reads a t : demo_marshal a = Some t → reads t (demo_json a).
Proof.
  unfold demo_marshal. destruct (Z.ltb_spec a 0); [done|]. intros [= <-]. destruct (reads_utoa a ltac:(lia)) as [n Hn].
  exists (S (S (S (S n)))). intros [|[|[|[|m]]]] rest Hm Hr; [lia..|]. strnorm.
  assert (Hfirst : ∀ k tl, read_value (S k) ("1e+30" +:+ "," +:+ tl) = Some (JNum "1e+30", "," +:+ tl)) by (intros; reflexivity).
  cbn [read_value]. rewrite skip_text by done. change (byte_of "[") with 91. cbn [Z.eqb Pos.eqb]. rewrite skip_text by done. cbn [strip]. destruct (ascii_dec "]" "1"); [done|].
  cbn [read_elements]. pose proof (Hfirst (S m) (utoa a +:+ "]" +:+ rest)) as Hf. revert Hf. strnorm. intros ->. cbn [mbind option_bind]. rewrite skip_text by done. cbn [strip].
  destruct (ascii_dec "," ","); [|done]. pose proof (Hn (S m) ("]" +:+ rest) ltac:(lia) ltac:(done)) as Hs. revert Hs. strnorm. intros ->. cbn [mbind option_bind].
  rewrite skip_text by done. cbn [strip]. by destruct (ascii_dec "," "]"), (ascii_dec "]" "]").
Qed.

Lemma record_json_roundtrip_witness : ∃ n, ∀ fuel, (n ≤ fuel)%nat →
  read_value fuel (JSON demo_float (λ _, Some "boom") demo_marshal demo_record) =
    Some (JObj (record_pairs demo_float (λ _, Some "boom") demo_marshal demo_json demo_record), String newline "").
Proof.
  apply (record_json_roundtrip demo_float (λ _, Some "boom") demo_marshal demo_json demo_record).
  - intros bits _. apply reads_utoa. lia.
  - exact demo_marshal_reads.
  - split; cbn; [unfold level_ok; lia|vm_compute; split; discriminate|lia|].
    repeat (constructor; [vm_compute; split; discriminate|]). constructor.
Defined.

Example demo_record_read : read_value 99 (JSON demo_float (λ _, Some "boom") demo_marshal demo_record) =
  Some (JObj (record_pairs demo_float (λ _, Some "boom") demo_marshal demo_json demo_record), String newline "").
Proof. vm_compute. reflexivity. Qed.

(** ** Logfmt *)

Definition bare_byte (c : ascii) : bool :=
  (32 <? byte_of c) && negb (byte_of c =? 61) && negb (byte_of c =? 34) && negb (byte_of c =? 92) && (byte_of c <=? 126).

Fixpoint all_bare (s : string) : bool := match s with EmptyString => true | String c s => bare_byte c && all_bare s end.

Definition logfmt_byte (c : ascii) : string :=
  let b := byte_of c in
  if (b =? 34) || (b =? 92) then String backslash (String c "")
  else if b =? 10 then String backslash "n"
  else if b =? 13 then String backslash "r"
  else if b =? 9 then String backslash "t"
  else if b <? 32 then String backslash (String "x" (String (hexDigit (Z.shiftr b 4)) (String (hexDigit (Z.land b 15)) "")))
  else String c "".

Fixpoint logfmt_loop (buf s : string) : string :=
  match s with EmptyString => buf | String c s => logfmt_loop (buf +:+ logfmt_byte c) s end.

Definition appendLogfmtValue (buf s : string) : string :=
  let needsQuote := match s with EmptyString => true | _ => negb (all_bare s) end in
  if needsQuote then logfmt_loop (buf +:+ String dquote "") s +:+ String dquote "" else buf +:+ s.

Section logfmt.
Context {A : Type} (float_text : Z → string) (error_text : A → option string) (marshal : A → option string).

Definition appendFieldLogfmt (buf : string) (f : @field A) : string :=
  let buf := buf +:+ " " in
  let buf := appendLogfmtValue buf (key f) in
  let buf := buf +:+ "=" in
  match kind f with
  | kindString | kindBytes => appendLogfmtValue buf (str f)
  | kindInt | kindInt64 | kindDuration => buf +:+ Itoa (i f)
  | kindUint => buf +:+ utoa (u64 (i f))
  | kindBool => buf +:+ (if i f =? 1 then "true" else "false")
  | kindFloat64 =>
      if Z.land (u64 (i f)) floatExpMask =? floatExpMask then buf +:+ "-" else buf +:+ float_text (u64 (i f))
  | kindTime => appendISOTimeUTC buf (i f)
  | kindError => match error_text (any f) with Some s => appendLogfmtValue buf s | None => buf +:+ "-" end
  | kindAny => match marshal (any f) with Some t => appendLogfmtValue buf t | None => buf +:+ "-" end
  end.

Definition Logfmt (r : @LogRecord A) : string :=
  let buf := appendISOTimeUTC "time=" (unixNano r) in
  let buf := appendLogfmtValue (buf +:+ " level=") (levelFlag (level r)) in
  let buf := appendLogfmtValue (buf +:+ " msg=") (msg r) in
  let buf := match file r with EmptyString => buf | f => appendLogfmtValue (buf +:+ " file=") f end in
  foldl appendFieldLogfmt buf (fields r) +:+ String newline "".

(** What a record means in logfmt: keys and values are strings. *)
Definition logfmt_value (f : @field A) : string :=
  match kind f with
  | kindString | kindBytes => str f
  | kindInt | kindInt64 | kindDuration => Itoa (i f)
  | kindUint => utoa (u64 (i f))
  | kindBool => if i f =? 1 then "true" else "false"
  | kindFloat64 => if Z.land (u64 (i f)) floatExpMask =? floatExpMask then "-" else float_text (u64 (i f))
  | kindTime => appendISOTimeUTC "" (i f)
  | kindError => match error_text (any f) with Some s => s | None => "-" end
  | kindAny => match marshal (any f) with Some t => t | None => "-" end
  end.

Definition logfmt_pairs (r : @LogRecord A) : list (string * string) :=
  [("time", appendISOTimeUTC "" (unixNano r)); ("level", levelFlag (level r)); ("msg", msg r)] ++
  match file r with EmptyString => [] | f => [("file", f)] end ++
  ((λ f, (key f, logfmt_value f)) <$> fields r).
End logfmt.

(** *** The reference reader of logfmt *)

Fixpoint read_quoted (s : string) : option (string * string) :=
  match s with
  | EmptyString => None
  | String c s =>
      if byte_of c =? 34 then Some ("", s)
      else if byte_of c =? 92 then
        match s with
        | EmptyString => None
        | String e s =>
            let esc c s := match read_quoted s with Some (r, s) => Some (String c r, s) | None => None end in
            if (byte_of e =? 34) || (byte_of e =? 92) then esc e s
            else if byte_of e =? 110 then esc "010"%char s
            else if byte_of e =? 114 then esc "013"%char s
            else if byte_of e =? 116 then esc "009"%char s
            else if byte_of e =? 120 then
              match s with
              | String a (String b s) =>
                  match hex_val a, hex_val b with Some a, Some b => esc (chr (a * 16 + b)) s | _, _ => None end
              | _ => None
              end
            else None
        end
      else match read_quoted s with Some (r, s) => Some (String c r, s) | None => None end
  end.

Fixpoint read_bare (s : string) : string * string :=
  match s with
  | String c r => if bare_byte c then let '(t, r) := read_bare r in (String c t, r) else ("", s)
  | EmptyString => ("", "")
  end.

Definition read_token (s : string) : option (string * string) :=
  match s with
  | String c r => if byte_of c =? 34 then read_quoted r else Some (read_bare s)
  | EmptyString => Some ("", "")
  end.

(** A line: pairs separated by spaces, then a newline. *)
Fixpoint read_logfmt (fuel : nat) (s : string) : option (list (string * string)) :=
  match fuel with
  | O => None
  | S n =>
      '(k, s) ← read_token s; s ← strip "=" s; '(v, s) ← read_token s;
      match strip " " s with
      | Some s => ps ← read_logfmt n s; Some ((k, v) :: ps)
      | None => s ← strip (String newline "") s; match s with EmptyString => Some [(k, v)] | _ => None end
      end
  end.

(** *** Tokens read back *)

Definition token (s : string) : string := appendLogfmtValue "" s.

Fixpoint logfmt_escape (s : string) : string :=
  match s with EmptyString => "" | String c s => logfmt_byte c +:+ logfmt_escape s end.

Lemma logfmt_loop_escape buf s : logfmt_loop buf s = buf +:+ logfmt_escape s.
Proof.
  revert buf. induction s as [|c s IH]; intros buf; cbn [logfmt_loop logfmt_escape]; [by rewrite app_nil_r_str|].
  by rewrite IH, <- app_assoc_str.
Qed.

Lemma appendLogfmtValue_token buf s : appendLogfmtValue buf s = buf +:+ token s.
Proof.
  unfold token, appendLogfmtValue. destruct (match s with EmptyString => true | String _ _ => negb (all_bare s) end); [|done].
  rewrite !logfmt_loop_escape. by rewrite <- !app_assoc_str, app_nil_l_str.
Qed.

Lemma token_bare s : all_bare s = true → s ≠ "" → token s = s.
Proof. intros Hb Hne. unfold token, appendLogfmtValue. destruct s; [done|]. by rewrite Hb. Qed.

(** What follows a token. *)
Definition closed (rest : string) : Prop := match rest with EmptyString => True | String c _ => bare_byte c = false end.

Lemma read_logfmt_byte c t :
  read_quoted (logfmt_byte c +:+ t) = match read_quoted t with Some (r, s) => Some (String c r, s) | None => None end.
Proof. destruct c as [[] [] [] [] [] [] [] []]; reflexivity. Qed.

Lemma read_quoted_escape s rest : read_quoted (logfmt_escape s +:+ String dquote rest) = Some (s, rest).
Proof. induction s as [|c s IH]; [done|]. cbn [logfmt_escape]. by rewrite <- app_assoc_str, read_logfmt_byte, IH. Qed.

Lemma read_bare_app s rest : all_bare s = true → closed rest → read_bare (s +:+ rest) = (s, rest).
Proof.
  intros Hb Hc. induction s as [|c s IH]; [rewrite app_nil_l_str; destruct rest; cbn; [done|by rewrite Hc]|].
  cbn [all_bare] in Hb. apply andb_prop in Hb as [Hc1 Hs]. rewrite app_cons_str. cbn [read_bare]. by rewrite Hc1, IH.
Qed.

Lemma read_token_token s rest : closed rest → read_token (token s +:+ rest) = Some (s, rest).
Proof.
  intros Hc. unfold token, appendLogfmtValue. rewrite logfmt_loop_escape, app_nil_l_str.
  destruct (match s with EmptyString => true | String _ _ => negb (all_bare s) end) eqn:Hq.
  - strnorm. cbn [read_token]. change (byte_of dquote =? 34) with true. cbv iota. apply read_quoted_escape.
  - destruct s as [|c s]; [done|]. apply negb_false_iff in Hq. rewrite app_nil_l_str.
    assert (Hb : byte_of c =? 34 = false) by (cbn [all_bare] in Hq; unfold bare_byte in Hq; lia).
    rewrite <- (read_bare_app (String c s) rest) by done. rewrite app_cons_str. cbn [read_token]. by rewrite Hb.
Qed.

(** *** Lines read back *)

Definition pair_text (kv : string * string) : string := token kv.1 +:+ "=" +:+ token kv.2.
Fixpoint more_pairs (ps : list (string * string)) : string :=
  match ps with [] => "" | p :: ps => " " +:+ pair_text p +:+ more_pairs ps end.

Lemma more_pairs_app l k : more_pairs (l ++ k) = more_pairs l +:+ more_pairs k.
Proof. induction l as [|x l IH]; [done|]. cbn [more_pairs app]. by rewrite IH, !app_assoc_str. Qed.

Lemma read_logfmt_line p ps fuel : (length ps < fuel)%nat →
  read_logfmt fuel (pair_text p +:+ more_pairs ps +:+ String newline "") = Some (p :: ps).
Proof.
  revert p fuel. induction ps as [|p' ps IH]; intros [k v] [|n] Hf; simpl in Hf; try lia; unfold pair_text; cbn [fst snd];
    rewrite <- !app_assoc_str; cbn [read_logfmt].
  all: rewrite read_token_token by (rewrite app_cons_str; reflexivity).
  all: cbn [mbind option_bind]; rewrite app_cons_str, app_nil_l_str; cbn [strip].
  all: destruct (ascii_dec "=" "="); [|done]; cbn [mbind option_bind].
  - cbn [more_pairs]. rewrite app_nil_l_str, read_token_token by done. reflexivity.
  - cbn [more_pairs]. rewrite <- !app_assoc_str. rewrite read_token_token by (rewrite app_cons_str; reflexivity).
    cbn [mbind option_bind]. rewrite app_cons_str, app_nil_l_str. cbn [strip]. destruct (ascii_dec " " " "); [|done].
    rewrite IH by lia. reflexivity.
Qed.

Lemma all_bare_app s t : all_bare (s +:+ t) = all_bare s && all_bare t.
Proof. induction s as [|c s IH]; [done|]. rewrite app_cons_str. cbn [all_bare]. by rewrite IH, andb_assoc. Qed.

Lemma digits_bare s : all_digits s → all_bare s = true.
Proof.
  induction s as [|c s IH]; intros Hs; [done|]. cbn [all_bare]. rewrite IH by by eapply all_digits_tail.
  pose proof (all_digits_head _ _ Hs) as Hd. unfold is_digit in Hd. unfold bare_byte. lia.
Qed.

Lemma utoa_token n : 0 ≤ n → token (utoa n) = utoa n.
Proof. intros Hn. apply token_bare; [by apply digits_bare, utoa_digits|apply utoa_nonempty]. Qed.

Lemma Itoa_token z : token (Itoa z) = Itoa z.
Proof.
  unfold Itoa. destruct (Z.ltb_spec z 0); [|by apply utoa_token]. apply token_bare; [|done].
  cbn [all_bare]. rewrite digits_bare by (apply utoa_digits; lia). done.
Qed.

Lemma digit_byte_bare v : 0 ≤ v < 10 → bare_byte (digit_byte v) = true.
Proof. intros Hv. unfold bare_byte, digit_byte, u8. rewrite Z.mod_small, byte_of_chr by lia. lia. Qed.

Ltac bare_digits :=
  rewrite ?app_nil_l_str, ?Z.rem_mod_nonneg, ?Z.quot_div_nonneg by (try apply Z.div_pos; try apply Z.quot_pos; lia);
  cbn [all_bare]; rewrite !digit_byte_bare by (Z.div_mod_to_equations; lia); done.

Lemma iso_token n : in_i64 n → token (appendISOTimeUTC "" n) = appendISOTimeUTC "" n.
Proof.
  intros Hn. apply token_bare.
  - rewrite appendISOTimeUTC_parts. cbv zeta. destruct (iso_fields n Hn) as (_ & _ & Hy & Hmo & Hda & Hh & Hmi & Hse & Hus).
    set (t := Unix_UTC _ _) in *.
    assert (H4 : ∀ v, 0 ≤ v < 10000 → all_bare (append4d "" v) = true) by (intros v Hv; unfold append4d; bare_digits).
    assert (H2 : ∀ v, 0 ≤ v < 100 → all_bare (append2d "" v) = true) by (intros v Hv; unfold append2d; bare_digits).
    assert (H6 : ∀ v, 0 ≤ v < 1000000 → all_bare (append6d "" v) = true) by (intros v Hv; unfold append6d; bare_digits).
    rewrite !all_bare_app, H4, !H2, H6 by lia. done.
  - rewrite appendISOTimeUTC_parts. cbv zeta. unfold append4d. strnorm. done.
Qed.

Section logfmt_records.
Context {A : Type} (float_text : Z → string) (error_text : A → option string) (marshal : A → option string).
(** A finite float in format ['f'] has only digits, a sign and a point. *)
Context (Hfloat : ∀ bits, finite bits → all_bare (float_text bits) = true ∧ float_text bits ≠ "").

Lemma appendFieldLogfmt_text buf f : field_ok f →
  appendFieldLogfmt float_text error_text marshal buf f = buf +:+ " " +:+ pair_text (key f, logfmt_value float_text error_text marshal f).
Proof using Hfloat.
  intros Hf. unfold appendFieldLogfmt, pair_text, logfmt_value. cbn [fst snd]. rewrite (appendLogfmtValue_token (buf +:+ " ")).
  assert (Hb : ∀ b, token (if b : bool then "true" else "false") = if b then "true" else "false") by by intros [].
  assert (Hd : token "-" = "-") by done. destruct (kind f).
  1, 10: by rewrite (appendLogfmtValue_token (_ +:+ _)), <- !app_assoc_str.
  - by rewrite Itoa_token, <- !app_assoc_str.
  - by rewrite Itoa_token, <- !app_assoc_str.
  - rewrite utoa_token by (unfold u64; apply Z.mod_pos_bound; lia). by rewrite <- !app_assoc_str.
  - destruct (Z.eqb_spec (Z.land (u64 (i f)) floatExpMask) floatExpMask) as [|Hfin]; [by rewrite Hd, <- !app_assoc_str|].
    destruct (Hfloat _ Hfin). rewrite (token_bare (float_text _)) by done. by rewrite <- !app_assoc_str.
  - by rewrite Hb, <- !app_assoc_str.
  - by rewrite Itoa_token, <- !app_assoc_str.
  - rewrite (appendISOTimeUTC_app (_ +:+ _)), iso_token by done. by rewrite <- !app_assoc_str.
  - destruct (error_text (any f)); [rewrite (appendLogfmtValue_token (_ +:+ _))|rewrite Hd]; by rewrite <- !app_assoc_str.
  - destruct (marshal (any f)); [rewrite (appendLogfmtValue_token (_ +:+ _))|rewrite Hd]; by rewrite <- !app_assoc_str.
Qed.

Lemma logfmt_fields_text buf fs : Forall field_ok fs →
  foldl (appendFieldLogfmt float_text error_text marshal) buf fs =
  buf +:+ more_pairs ((λ f, (key f, logfmt_value float_text error_text marshal f)) <$> fs).
Proof using Hfloat.
  intros Hfs. revert buf. induction Hfs as [|f fs Hf _ IH]; intros buf; [by rewrite app_nil_r_str|].
  cbn [foldl]. rewrite IH, appendFieldLogfmt_text by done. rewrite fmap_cons. cbn [more_pairs]. by rewrite <- !app_assoc_str.
Qed.

Lemma Logfmt_text r : record_ok r → Logfmt float_text error_text marshal r =
  pair_text ("time", appendISOTimeUTC "" (unixNano r)) +:+
  more_pairs (drop 1 (logfmt_pairs float_text error_text marshal r)) +:+ String newline "".
Proof using Hfloat.
  intros [_ Hn _ Hf]. unfold Logfmt, logfmt_pairs. rewrite logfmt_fields_text by done. cbn [drop app more_pairs].
  rewrite more_pairs_app, (appendISOTimeUTC_app "time="). unfold pair_text at 1. cbn [fst snd]. rewrite iso_token by done.
  change (token "time") with "time". generalize (appendISOTimeUTC "" (unixNano r)). intros iso.
  rewrite !(appendLogfmtValue_token (_ +:+ _)). unfold pair_text. cbn [fst snd].
  change (token "level") with "level". change (token "msg") with "msg".
  destruct (file r) as [|c fl]; [|rewrite (appendLogfmtValue_token (_ +:+ _) (String c fl)); cbn [more_pairs]; unfold pair_text; cbn [fst snd];
    change (token "file") with "file"]; rewrite <- !app_assoc_str; reflexivity.
Qed.
End logfmt_records.

(** A logfmt line reads back as the record's keys and values, in order and nothing
    else: spaces, equal signs, quotes and newlines of a message, key or value never
    start another pair or another line. *)
Theorem record_logfmt_roundtrip {A} float_text (error_text : A → option string) marshal r fuel :
  (∀ bits, finite bits → all_bare (float_text bits) = true ∧ float_text bits ≠ "") →
  record_ok r → (length (logfmt_pairs float_text error_text marshal r) ≤ fuel)%nat →
  read_logfmt fuel (Logfmt float_text error_text marshal r) = Some (logfmt_pairs float_text error_text marshal r).
Proof.
  intros Hfl Hr Hle. rewrite (Logfmt_text _ _ _ Hfl r Hr). rewrite read_logfmt_line; [reflexivity|].
  revert Hle. rewrite length_drop. unfold logfmt_pairs. rewrite !length_app. simpl. lia.
Qed.

Lemma record_logfmt_roundtrip_witness :
  read_logfmt 20 (Logfmt demo_float (λ _, Some "boom") (λ _, None) demo_record) =
  Some (logfmt_pairs demo_float (λ _, Some "boom") (λ _, None) demo_record).
Proof.
  apply (record_logfmt_roundtrip demo_float (λ _, Some "boom") (λ _, None) demo_record 20).
  - intros bits _. split; vm_compute; [reflexivity|discriminate].
  - split; cbn; [unfold level_ok; lia|vm_compute; split; discriminate|lia|].
    repeat (constructor; [vm_compute; split; discriminate|]). constructor.
  - simpl. lia.
Defined.
