(* ===== verification/FileWriter.v ===== *)
(** * FileWriter: rotation and buffered output of [log4go/file_writer.go]

    The path pattern and its translation to a format, the time-driven rotation, the
    [bufio.Writer] over the open file, and the two ways to write a record.  Files are
    a map from paths to bytes; writes to an open file succeed, opening a file may fail
    (an argument of [rotateImpl]), and a closed file refuses writes and a second
    [Close].  Local time is a zone of fixed offset (Calendar.v).  The asynchronous
    channel in front of [writeOne] is Pipeline.v; the two are put together in
    [async_file_writer].

    Shown: the path is the pattern with its variables replaced, for every valid
    pattern ([path_pattern]); while files can be
    opened, every record is in the file of its time or in the buffer, whole and in
    order, and a crash loses fewer than [CrashLossBound] records and bytes
    ([crash_loss_bound]); this also holds behind the channel ([async_file_writer]).
    A file that cannot be opened leaves the writer without one for good
    ([failed_open_is_final]).  [rotate_stale_month], [rotate_stale_day] and
    [no_pattern_no_file] show what rotation does with the variables it does not
    update and with a plain file name. *)

From Stdlib Require Import ZArith Lia Ascii String.
From stdpp Require Import base tactics numbers list strings gmap.
From S2P Require Import Prelude GoStd Calendar Logline Spill Pipeline.

#[local] Open Scope string_scope.
#[local] Open Scope list_scope.
#[local] Open Scope Z_scope.

#[local] Notation data := (list ascii).

(** ** Path patterns *)

(** [pathVariableTable]. *)
Inductive action := getYear | getMonth | getDay | getHour | getMin.

Definition pathVariableTable (c : ascii) : option action :=
  match c with
  | "Y" => Some getYear | "M" => Some getMonth | "D" => Some getDay | "H" => Some getHour | "m" => Some getMin
  | _ => None
  end%char.

Definition act (a : action) (now : Time) : Z :=
  match a with
  | getYear => Year (Date now) | getMonth => Month (Date now) | getDay => Day (Date now)
  | getHour => Hour now | getMin => Minute now
  end.

(** [bytes.Replace(s, "%" + c, new, -1)]. *)
Fixpoint replace (c : ascii) (new : string) (s : string) : string :=
  match s with
  | String a ((String b r) as t) =>
      if ascii_dec a "%" then if ascii_dec b c then new +:+ replace c new r else String a (replace c new t)
      else String a (replace c new t)
  | _ => s
  end.

Definition convertPatternToFmt (pattern : string) : string :=
  let p := replace "Y" "%d" pattern in
  let p := replace "M" "%02d" p in
  let p := replace "D" "%02d" p in
  let p := replace "H" "%02d" p in
  replace "m" "%02d" p.

Fixpoint count_percent (s : string) : nat :=
  match s with
  | EmptyString => 0
  | String c s => (if ascii_dec c "%" then 1 else 0) + count_percent s
  end.

(** The loop of [SetPathPattern]; [variable] is the previous byte being a percent sign. *)
Fixpoint pattern_loop (variable : bool) (s : string) : option (list action) :=
  match s with
  | EmptyString => Some []
  | String c s =>
      if variable then a ← pathVariableTable c; l ← pattern_loop false s; Some (a :: l)
      else pattern_loop (bool_decide (c = "%"%char)) s
  end.

(** Actions, variables and format, or the error. *)
Definition SetPathPattern (pattern : string) : option (list action * list (option Z) * string) :=
  match count_percent pattern with
  | O => Some ([], [], pattern)
  | n => acts ← pattern_loop false pattern; Some (acts, replicate n None, convertPatternToFmt pattern)
  end.

(** [fmt.Sprintf] for the verbs of these formats; [None] where fmt would report a bad
    verb or argument in the text. *)
Fixpoint Sprintf (fuel : nat) (f : string) (args : list (option Z)) : option string :=
  match fuel with
  | O => None
  | S n =>
      match f with
      | EmptyString => match args with [] => Some "" | _ => None end
      | String "%" (String "d" r) => match args with Some v :: args => s ← Sprintf n r args; Some (Itoa v +:+ s) | _ => None end
      | String "%" (String "0" (String "2" (String "d" r))) =>
          match args with Some v :: args => s ← Sprintf n r args; Some (pad0 2 v +:+ s) | _ => None end
      | String "%" _ => None
      | String c r => s ← Sprintf n r args; Some (String c s)
      end
  end.
Definition sprintf (f : string) (args : list (option Z)) : option string := Sprintf (S (String.length f)) f args.

(** ** Buffered output *)

(** A file opened for appending and the [bufio.Writer] over it. *)
Record output := mkOut { path : string; opened : bool; buf : data; size : nat; berr : bool }.

Definition append (files : gmap string data) (p : string) (d : data) : gmap string data :=
  <[p := default [] (files !! p) ++ d]> files.

Definition bufio_Flush (files : gmap string data) (o : output) : bool * gmap string data * output :=
  if berr o then (false, files, o)
  else match buf o with
       | [] => (true, files, o)
       | b => if opened o then (true, append files (path o) b, mkOut (path o) (opened o) [] (size o) (berr o))
              else (false, files, mkOut (path o) (opened o) b (size o) true)
       end.

(** [bufio.Writer.Write]; each round empties the buffer, so two rounds are enough. *)
Fixpoint bufio_Write (fuel : nat) (files : gmap string data) (o : output) (p : data) : bool * gmap string data * output :=
  let avail := (size o - length (buf o))%nat in
  if (length p <=? avail)%nat || berr o then
    if berr o then (false, files, o) else (true, files, mkOut (path o) (opened o) (buf o ++ p) (size o) (berr o))
  else match fuel with
       | O => (false, files, o)
       | S n =>
           match buf o with
           | [] => if opened o then bufio_Write n (append files (path o) p) o []
                   else bufio_Write n files (mkOut (path o) (opened o) [] (size o) true) p
           | b =>
               let o := mkOut (path o) (opened o) (b ++ take avail p) (size o) (berr o) in
               let '(_, files, o) := bufio_Flush files o in
               bufio_Write n files o (drop avail p)
           end
       end.

(** ** The writer *)

Record config := mkConfig {
  daily : bool; hourly : bool; minutely : bool; maxDays : Z; maxHours : Z; maxMinutes : Z;
  bufferSize : Z; flushBatchSize : Z }.

Record FileWriter := mkFile {
  pathFmt : string; actions : list action; variables : list (option Z);
  lastWriteTime : Time; lastRotateCheck : Time; initFileOk : bool;
  out : option output; files : gmap string data;
  written : Z; errored : Z; batchSinceFlush : Z }.

Definition defaultBufferSize : Z := 64 * 1024.
Definition defaultFlushBatchSize : Z := 1000.

(** The defaults of [Init]. *)
Definition Init_config (rotate : bool) (c : config) : config :=
  if rotate then
    mkConfig (daily c) (hourly c) (minutely c)
      (if daily c && (maxDays c <=? 0) then 60 else maxDays c)
      (if hourly c && (maxHours c <=? 0) then 12 else maxHours c)
      (if minutely c && (maxMinutes c <=? 0) then 1 else maxMinutes c) (bufferSize c) (flushBatchSize c)
  else c.

Section writer.
Context (cfg : config).

Definition bufSize : nat := Z.to_nat (if bufferSize cfg <=? 0 then defaultBufferSize else bufferSize cfg).
Definition batchSize : Z := if flushBatchSize cfg <=? 0 then defaultFlushBatchSize else flushBatchSize cfg.

(** Whether variable [idx], which has changed to [v], makes the file rotate. *)
Definition due (w : FileWriter) (idx : nat) (v : Z) : bool :=
  if negb (initFileOk w) then true
  else match idx with
       | 2%nat => daily cfg && (v =? Day (Date (AddDays (lastWriteTime w) (maxDays cfg))))
       | 3%nat => hourly cfg && (v =? Hour (Add (lastWriteTime w) (i64 (3600 * 10 ^ 9 * maxHours cfg))))
       | 4%nat => minutely cfg && (v =? Minute (Add (lastWriteTime w) (i64 (60 * 10 ^ 9 * maxMinutes cfg))))
       | _ => false
       end.

Fixpoint scan (w : FileWriter) (now : Time) (idx : nat) (acts : list action) (vars : list (option Z)) (rotate : bool) : list (option Z) * bool :=
  match acts with
  | [] => (vars, rotate)
  | a :: acts =>
      let v := act a now in
      if decide (vars !! idx = Some (Some v)) then scan w now (S idx) acts vars rotate
      else if due w idx v then scan w now (S idx) acts (<[idx := Some v]> vars) true
      else scan w now (S idx) acts vars rotate
  end.

(** [open_ok]: whether [MkdirAll] and [OpenFile] succeed.  The result is false on an
    error.  A path text with a format error is not modelled: the open fails. *)
Definition rotateImpl (w : FileWriter) (now : Time) (open_ok : bool) : bool * FileWriter :=
  let '(vars, rotate) := scan w now 0 (actions w) (variables w) false in
  if negb rotate then
    (true, mkFile (pathFmt w) (actions w) vars (lastWriteTime w) (lastRotateCheck w) (initFileOk w) (out w) (files w)
             (written w) (errored w) (batchSinceFlush w))
  else
    let st o fs := mkFile (pathFmt w) (actions w) vars now (lastRotateCheck w) true o fs (written w) (errored w) (batchSinceFlush w) in
    let '(ok, fs, o) := match out w with
                        | Some o => let '(ok, fs, o) := bufio_Flush (files w) o in (ok, fs, Some o)
                        | None => (true, files w, None)
                        end in
    if negb ok then (false, st o fs)
    else match o with
         | Some o' =>
             if negb (opened o') then (false, st o fs)
             else
               let closed := Some (mkOut (path o') false (buf o') (size o') (berr o')) in
               match sprintf (pathFmt w) vars with
               | Some p => if open_ok then (true, st (Some (mkOut p true [] bufSize false)) (append fs p [])) else (false, st closed fs)
               | None => (false, st closed fs)
               end
         | None =>
             match sprintf (pathFmt w) vars with
             | Some p => if open_ok then (true, st (Some (mkOut p true [] bufSize false)) (append fs p [])) else (false, st None fs)
             | None => (false, st None fs)
             end
         end.

(** A record and the bytes [deliverRecordToWriter] may have prepared. *)
Record entry := mkEntry { text : string; formattedBytes : string }.
Definition payload (e : entry) : data :=
  list_ascii_of_string (match formattedBytes e with EmptyString => text e | b => b end).

Definition set_out (w : FileWriter) (o : option output) (fs : gmap string data) (wr er : Z) (b : Z) : FileWriter :=
  mkFile (pathFmt w) (actions w) (variables w) (lastWriteTime w) (lastRotateCheck w) (initFileOk w) o fs wr er b.

Definition flushSync (w : FileWriter) : FileWriter :=
  match out w with
  | None => w
  | Some o => let '(_, fs, o) := bufio_Flush (files w) o in set_out w (Some o) fs (written w) (errored w) (batchSinceFlush w)
  end.

Definition writeSync (w : FileWriter) (e : entry) : bool * FileWriter :=
  match out w with
  | None => (false, w)
  | Some o =>
      let '(ok, fs, o) := bufio_Write 2 (files w) o (payload e) in
      (ok, set_out w (Some o) fs (if ok then u64 (written w + 1) else written w) (errored w) (batchSinceFlush w))
  end.

Definition rotateCheckInterval : Z := 10 ^ 9.

(** Rotation, at most once a second. *)
Definition rotate_check (w : FileWriter) (now : Time) (open_ok : bool) : FileWriter :=
  if rotateCheckInterval <=? Sub now (lastRotateCheck w) then
    (rotateImpl (mkFile (pathFmt w) (actions w) (variables w) (lastWriteTime w) now (initFileOk w) (out w) (files w)
                   (written w) (errored w) (batchSinceFlush w)) now open_ok).2
  else w.

(** The write itself, with the flush after every [batchSize] records. *)
Definition write_batch (w : FileWriter) (e : entry) : FileWriter :=
  match out w with
  | None => set_out w None (files w) (written w) (u64 (errored w + 1)) (batchSinceFlush w)
  | Some o =>
      let '(ok, fs, o) := bufio_Write 2 (files w) o (payload e) in
      if negb ok then set_out w (Some o) fs (written w) (u64 (errored w + 1)) (batchSinceFlush w)
      else
        let b := batchSinceFlush w + 1 in
        let w' := set_out w (Some o) fs (u64 (written w + 1)) (errored w) in
        if batchSize <=? b then flushSync (w' 0) else w' b
  end.

Definition writeOne (w : FileWriter) (now : Time) (open_ok : bool) (e : entry) : FileWriter :=
  write_batch (rotate_check w now open_ok) e.

Definition CrashLossBound (async : bool) : Z * Z :=
  if async then (batchSize, if bufferSize cfg <=? 0 then defaultBufferSize else bufferSize cfg) else (0, 0).
End writer.

(** Where [Write] sends a record: nowhere, to [writeSync], or to the channel. *)
Inductive route := Ignored | Synchronous | Queued.

Definition Write (paused : bool) (wlevel rlevel : Z) (async has_messages : bool) : route :=
  if paused then Ignored
  else if wlevel <? rlevel then Ignored
  else if negb async || negb has_messages then Synchronous else Queued.

(** The end of [Stop], after the daemon: the buffer is flushed and the file closed;
    [messages] is nil from here on. *)
Definition Stop_close (w : FileWriter) : FileWriter :=
  let w := flushSync w in
  set_out w (match out w with Some o => Some (mkOut (path o) false (buf o) (size o) (berr o)) | None => None end)
    (files w) (written w) (errored w) (batchSinceFlush w).

(** [NewFileWriterWithOptions] before [Init]: nothing is open.  A refused pattern is only
    logged there; such a writer has no format and is not followed. *)
Definition NewFileWriter (pattern : string) (fs : gmap string data) (zero : Time) : option FileWriter :=
  '(acts, vars, fmt) ← SetPathPattern pattern;
  Some (mkFile fmt acts vars zero zero false None fs 0 0 0).

Definition Metrics (w : FileWriter) (st : OverflowStats) (queued spillLen : Z) : Z * Z * Z * Z * Z * Z :=
  (written w, errored w, dropped st, spilled st, queued, spillLen).

(** ** What rotation does with the other variables *)

(** Midnight and ten in the morning, UTC. *)
Definition at_day (y m d h : Z) : Time := mkTime ((days_from_civil (mkCivil y m d) * 86400 + h * 3600) * 10 ^ 9) 0.
Definition epoch : Time := mkTime 0 0.

Definition daily_config : config := mkConfig true false false 1 0 0 64 0.
Definition hourly_config : config := mkConfig false true false 0 1 0 64 0.

(** The files a writer opens at the given times. *)
Fixpoint opens (cfg : config) (w : FileWriter) (times : list Time) : list (option string) :=
  match times with
  | [] => []
  | t :: times => let w := (rotateImpl cfg w t true).2 in (path <$> out w) :: opens cfg w times
  end.

(** Only the day is updated: on the first of February the records go to the file of the
    first of January. *)
Example rotate_stale_month : ∃ w, NewFileWriter "app-%Y%M%D.log" ∅ epoch = Some w ∧
  opens daily_config w [at_day 2024 1 30 10; at_day 2024 1 31 0; at_day 2024 2 1 0] =
    [Some "app-20240130.log"; Some "app-20240131.log"; Some "app-20240101.log"].
Proof. eexists. split; [reflexivity|vm_compute; reflexivity]. Qed.

(** An hourly writer keeps the day it started with. *)
Example rotate_stale_day : ∃ w, NewFileWriter "app-%Y%M%D-%H.log" ∅ epoch = Some w ∧
  opens hourly_config w [at_day 2024 1 30 23; at_day 2024 1 31 0] = [Some "app-20240130-23.log"; Some "app-20240130-00.log"].
Proof. eexists. split; [reflexivity|vm_compute; reflexivity]. Qed.

(** A file name without variables is never opened. *)
Example no_pattern_no_file : ∃ w, NewFileWriter "app.log" ∅ epoch = Some w ∧
  opens daily_config w [at_day 2024 1 30 10; at_day 2024 2 1 0] = [None; None] ∧
  (writeSync w (mkEntry "lost" "")).1 = false.
Proof. eexists. split; [reflexivity|vm_compute; split; reflexivity]. Qed.

(** After [Stop] a record is written synchronously into the buffer of the closed file: it
    is counted as written and lost. *)
Example write_after_stop : ∃ w, NewFileWriter "%Y" ∅ epoch = Some w ∧
  let w := Stop_close (rotateImpl daily_config w (at_day 2024 1 30 10) true).2 in
  Write false 7 6 true false = Synchronous ∧ (writeSync w (mkEntry "lost" "")).1 = true ∧
  written (writeSync w (mkEntry "lost" "")).2 = written w + 1 ∧
  files (flushSync (writeSync w (mkEntry "lost" "")).2) = files w.
Proof. eexists. split; [reflexivity|vm_compute; split_and!; reflexivity]. Qed.

(** ** Paths *)

(** The pattern with its variables replaced by the fields of [now]. *)
Fixpoint expand (now : Time) (variable : bool) (s : string) : option string :=
  match s with
  | EmptyString => if variable then None else Some ""
  | String c s =>
      if variable then
        a ← pathVariableTable c; r ← expand now false s;
        Some ((match a with getYear => Itoa (act a now) | _ => pad0 2 (act a now) end) +:+ r)
      else if decide (c = "%"%char) then expand now true s
      else r ← expand now false s; Some (String c r)
  end.

(** *** Patterns as segments *)

Inductive seg := Lit (c : ascii) | Var (a : action).

Definition letter (a : action) : ascii :=
  match a with getYear => "Y" | getMonth => "M" | getDay => "D" | getHour => "H" | getMin => "m" end%char.
Definition verb (a : action) : string := match a with getYear => "%d" | _ => "%02d" end.

(** The text while the variables that [done] selects have been replaced by their verbs. *)
Fixpoint flat (done : action → bool) (l : list seg) : string :=
  match l with
  | [] => ""
  | Lit c :: l => String c (flat done l)
  | Var a :: l => (if done a then verb a else String "%" (String (letter a) "")) +:+ flat done l
  end.

Definition seg_ok (s : seg) : Prop := match s with Lit c => c ≠ "%"%char | Var _ => True end.
Definition vars_of (l : list seg) : list action := l ≫= λ s, match s with Lit _ => [] | Var a => [a] end.

Fixpoint fill (now : Time) (l : list seg) : string :=
  match l with
  | [] => ""
  | Lit c :: l => String c (fill now l)
  | Var a :: l => (match a with getYear => Itoa (act a now) | _ => pad0 2 (act a now) end) +:+ fill now l
  end.

Lemma table_letter c a : pathVariableTable c = Some a → c = letter a.
Proof. intros H. destruct c as [[] [] [] [] [] [] [] []]; cbn in H; simplify_eq; done. Qed.

Lemma letter_table a : pathVariableTable (letter a) = Some a.
Proof. by destruct a. Qed.

(** A pattern that expands is a list of segments, and conversely. *)
Lemma expand_segs now s r (v : bool) : expand now v s = Some r →
  ∃ l, Forall seg_ok l ∧ r = fill now l ∧
    (if v then ∃ a l', l = Var a :: l' ∧ s = String (letter a) (flat (λ _, false) l') else s = flat (λ _, false) l).
Proof.
  revert r v. induction s as [|c s IH]; intros r v; cbn [expand].
  { destruct v; [done|]. intros [= <-]. by exists []. }
  destruct v.
  - destruct (pathVariableTable c) as [a|] eqn:Ha; [|done]. cbn [mbind option_bind].
    destruct (expand now false s) as [r'|] eqn:He; [|done]. cbn [mbind option_bind]. intros [= <-].
    destruct (IH _ _ He) as (l & Hok & -> & ->). exists (Var a :: l). split_and!; [by constructor|done|].
    exists a, l. split; [done|]. by rewrite (table_letter _ _ Ha).
  - destruct (decide (c = "%"%char)) as [->|Hc].
    + intros He. destruct (IH _ _ He) as (l & Hok & -> & a & l' & -> & ->). exists (Var a :: l'). split_and!; [done|done|].
      cbn [flat]. rewrite !app_cons_str. done.
    + destruct (expand now false s) as [r'|] eqn:He; [|done]. cbn [mbind option_bind]. intros [= <-].
      destruct (IH _ _ He) as (l & Hok & -> & ->). exists (Lit c :: l). split_and!; [by constructor|done|done].
Qed.

Lemma pattern_loop_segs l : Forall seg_ok l → pattern_loop false (flat (λ _, false) l) = Some (vars_of l).
Proof.
  induction 1 as [|[c|a] l Hs _ IH]; [done| |]; cbn [flat].
  - cbn [pattern_loop]. cbn in Hs. by rewrite bool_decide_false, IH.
  - rewrite !app_cons_str, app_nil_l_str. cbn [pattern_loop]. rewrite bool_decide_true by done. rewrite letter_table. cbn [mbind option_bind].
    by rewrite IH.
Qed.

Lemma count_percent_segs l : Forall seg_ok l → count_percent (flat (λ _, false) l) = length (vars_of l).
Proof.
  induction 1 as [|[c|a] l Hs _ IH]; [done| |]; cbn [flat].
  - cbn [count_percent]. cbn in Hs. rewrite IH. by destruct (ascii_dec c "%").
  - rewrite !app_cons_str, app_nil_l_str. cbn [count_percent]. rewrite IH. by destruct a.
Qed.

(** ** Translation to a format *)

Lemma replace_lit c new a r : a ≠ "%"%char → replace c new (String a r) = String a (replace c new r).
Proof. intros Ha. destruct r as [|b r]; [done|]. cbn [replace]. by destruct (ascii_dec a "%"). Qed.

Lemma replace_var c new r : replace c new (String "%" (String c r)) = new +:+ replace c new r.
Proof. cbn [replace]. destruct (ascii_dec "%" "%"); [|done]. by destruct (ascii_dec c c). Qed.

Lemma replace_other c new b r : b ≠ c → b ≠ "%"%char → replace c new (String "%" (String b r)) = String "%" (String b (replace c new r)).
Proof.
  intros Hb Hp. rewrite <- (replace_lit c new b r Hp). cbn [replace].
  destruct (ascii_dec "%" "%"); [|done]. by destruct (ascii_dec b c).
Qed.

Lemma replace_flat b (done : action → bool) (l : list seg) : Forall seg_ok l → done b = false →
  replace (letter b) (verb b) (flat done l) = flat (λ a, done a || bool_decide (letter a = letter b)) l.
Proof.
  intros Hl Hb. induction Hl as [|[c|a] l Hs _ IH]; [by destruct b|by cbn [flat]; rewrite replace_lit, IH|]. cbn [flat].
  destruct (done a) eqn:Ha; cbn [orb].
  - rewrite <- IH. assert (a ≠ b) by (intros ->; congruence).
    destruct a, b; try done; cbn [verb letter]; strnorm; rewrite replace_other by done; rewrite ?replace_lit by done; done.
  - destruct (bool_decide (letter a = letter b)) eqn:E.
    + apply bool_decide_eq_true in E. assert (a = b) as -> by (by destruct a, b). strnorm. by rewrite replace_var, IH.
    + apply bool_decide_eq_false in E. strnorm. rewrite replace_other, IH; [done|done|by destruct a].
Qed.

Lemma flat_ext d d' l : (∀ a, d a = d' a) → flat d l = flat d' l.
Proof. intros E. induction l as [|[c|a] l IH]; [done| |]; cbn [flat]; by rewrite ?E, IH. Qed.

Lemma convert_segs l : Forall seg_ok l → convertPatternToFmt (flat (λ _, false) l) = flat (λ _, true) l.
Proof.
  intros Hl. unfold convertPatternToFmt. cbv zeta.
  rewrite (replace_flat getYear), (replace_flat getMonth), (replace_flat getDay), (replace_flat getHour), (replace_flat getMin) by done.
  apply flat_ext. by intros [].
Qed.

Lemma Sprintf_lit n c r args : c ≠ "%"%char → Sprintf (S n) (String c r) args = (s ← Sprintf n r args; Some (String c s)).
Proof. intros Hc. destruct c as [[] [] [] [] [] [] [] []]; done. Qed.

Lemma Sprintf_segs now l n : Forall seg_ok l → (String.length (flat (λ _, true) l) < n)%nat →
  Sprintf n (flat (λ _, true) l) ((λ a, Some (act a now)) <$> vars_of l) = Some (fill now l).
Proof.
  intros Hl. revert n. induction Hl as [|[c|a] l Hs _ IH]; intros [|n] Hn; try lia; [done| |]; cbn [flat fill] in *.
  - rewrite Sprintf_lit by done. cbn [String.length] in Hn. unfold vars_of in *. cbn. rewrite IH by lia. done.
  - rewrite length_app_str in Hn. change (vars_of (Var a :: l)) with (a :: vars_of l). rewrite fmap_cons.
    specialize (IH n ltac:(destruct a; cbn in Hn; lia)). destruct a; cbn [verb]; strnorm; cbn [Sprintf]; by rewrite IH.
Qed.

(** The file path is the pattern with each variable replaced by the year in decimal
    or by the month, day, hour or minute in two digits: the actions and the format
    [SetPathPattern] derives from a valid pattern render exactly that at any time. *)
Theorem path_pattern p now s : expand now false p = Some s → count_percent p ≠ 0%nat →
  (∃ acts fmt, SetPathPattern p = Some (acts, replicate (length acts) None, fmt) ∧
    sprintf fmt ((λ a, Some (act a now)) <$> acts) = Some s).
Proof.
  intros He Hn. destruct (expand_segs now p s false He) as (l & Hok & -> & ->).
  unfold SetPathPattern. rewrite count_percent_segs in * by done. destruct (length (vars_of l)) as [|k] eqn:Hk; [done|].
  rewrite pattern_loop_segs, convert_segs by done. cbn [mbind option_bind]. eexists _, _. rewrite Hk. split; [done|].
  apply Sprintf_segs; [done|lia].
Qed.

Lemma path_pattern_witness : ∃ acts fmt,
  SetPathPattern "log/%Y/%M-%D.%H%m" = Some (acts, replicate (length acts) None, fmt) ∧
  sprintf fmt ((λ a, Some (act a (at_day 2024 2 9 7))) <$> acts) = Some "log/2024/02-09.0700".
Proof. apply (path_pattern "log/%Y/%M-%D.%H%m" (at_day 2024 2 9 7) "log/2024/02-09.0700"); vm_compute; [reflexivity|discriminate]. Defined.

(** ** Buffered bytes *)

(** The bytes of a file, with those still in the buffer. *)
Definition total (fs : gmap string data) (o : output) (p : string) : data :=
  default [] (fs !! p) ++ (if decide (p = path o) then buf o else []).

Record healthy (o : output) : Prop := {
  o_open : opened o = true; o_err : berr o = false; o_buf : (length (buf o) ≤ size o)%nat }.

Lemma append_lookup fs p d q : default [] (append fs p d !! q) = default [] (fs !! q) ++ (if decide (q = p) then d else []).
Proof.
  unfold append. destruct (decide (q = p)) as [->|Hne]; [by rewrite lookup_insert_eq|].
  rewrite lookup_insert_ne by done. by rewrite app_nil_r.
Qed.

Lemma total_append fs o d b : berr o = false → opened o = true →
  ∀ p, total (append fs (path o) d) (mkOut (path o) true b (size o) false) p =
    default [] (fs !! p) ++ (if decide (p = path o) then d ++ b else []).
Proof.
  intros He Ho p. unfold total. rewrite append_lookup. cbn [path buf]. by destruct (decide (p = path o)); rewrite <- ?(assoc_L (++)), ?app_nil_r.
Qed.

Lemma bufio_Flush_ok fs o : healthy o →
  ∃ fs', bufio_Flush fs o = (true, fs', mkOut (path o) true [] (size o) false) ∧
    ∀ p, default [] (fs' !! p) = total fs o p.
Proof.
  intros [Ho He Hb]. unfold bufio_Flush. rewrite He, Ho. destruct o as [pa op b sz er]. cbn in *. subst. destruct b as [|x b].
  - exists fs. split; [done|]. intros p. unfold total. cbn. by destruct (decide _); rewrite app_nil_r.
  - exists (append fs pa (x :: b)). split; [done|]. intros p. by rewrite append_lookup.
Qed.

Lemma bufio_Write_ok fs o d : healthy o →
  ∃ fs' b', bufio_Write 2 fs o d = (true, fs', mkOut (path o) true b' (size o) false) ∧ (length b' ≤ size o)%nat ∧
    b' `suffix_of` buf o ++ d ∧
    ∀ p, total fs' (mkOut (path o) true b' (size o) false) p = total fs (mkOut (path o) true (buf o ++ d) (size o) false) p.
Proof.
  intros [Ho He Hb]. destruct o as [pa op b sz er]. cbn in *. subst.
  assert (Hempty : ∀ fs d n, ∃ fs' b', bufio_Write (S n) fs (mkOut pa true [] sz false) d = (true, fs', mkOut pa true b' sz false) ∧
    (length b' ≤ sz)%nat ∧ b' `suffix_of` d ∧
    ∀ p, total fs' (mkOut pa true b' sz false) p = total fs (mkOut pa true d sz false) p).
  { clear. intros fs d n. cbn [bufio_Write buf size berr opened path length]. rewrite Nat.sub_0_r, orb_false_r.
    destruct (Nat.leb_spec (length d) sz); [by exists fs, d|]. exists (append fs pa d), []. split; [by destruct n|].
    split; [simpl; lia|]. split; [apply suffix_nil|]. intros p.
    rewrite (total_append fs (mkOut pa true [] sz false)) by done. by rewrite app_nil_r. }
  destruct b as [|x b]; [apply (Hempty fs d 1%nat)|]. cbn [bufio_Write buf size berr opened path]. rewrite orb_false_r.
  destruct (Nat.leb_spec (length d) (sz - length (x :: b))) as [Hfit|Hbig].
  - exists fs, ((x :: b) ++ d). split_and!; [done|rewrite length_app; lia|done|done].
  - cbn -[bufio_Write take drop length]. set (k := (sz - length (x :: b))%nat) in *.
    destruct (Hempty (append fs pa (x :: (b ++ take k d))) (drop k d) 0%nat) as (fs' & b' & Hw & Hl & Hs & Ht).
    exists fs', b'. split; [exact Hw|]. split; [done|]. split.
    + etrans; [exact Hs|]. exists ((x :: b) ++ take k d). by rewrite <- (assoc_L (++)), take_drop.
    + intros p. rewrite Ht. rewrite (total_append fs (mkOut pa true [] sz false)) by done. unfold total. cbn [path buf].
      destruct (decide (p = pa)); [|done]. f_equal. change (x :: (b ++ take k d)) with ((x :: b) ++ take k d).
      by rewrite <- (assoc_L (++)), take_drop.
Qed.

(** ** Rotation keeps the bytes *)

Section rotation.
Context (cfg : config).

Definition set_at (vars : list (option Z)) (j : nat) : Prop := ∃ v, vars !! j = Some (Some v).

Lemma rotate_scan_spec w now acts : ∀ idx vars rot vars' rot', scan cfg w now idx acts vars rot = (vars', rot') →
  (idx + length acts ≤ length vars)%nat →
  length vars' = length vars ∧ (∀ j, set_at vars j → set_at vars' j) ∧
  (initFileOk w = false → ∀ j, (idx ≤ j < idx + length acts)%nat → set_at vars' j).
Proof using.
  induction acts as [|a acts IH]; intros idx vars rot vars' rot'; cbn [scan length].
  { intros [= <- <-] _. split_and!; [done|done|]. intros _ j Hj. lia. }
  intros Hs Hl. destruct (decide (vars !! idx = Some (Some (act a now)))) as [He|He].
  - destruct (IH _ _ _ _ _ Hs) as (Hlen & Hk & Hset); [lia|]. split_and!; [done|done|]. intros Hi j Hj.
    destruct (decide (j = idx)) as [->|]; [apply Hk; by eexists|]. apply Hset; [done|lia].
  - destruct (due cfg w idx (act a now)) eqn:Hd.
    + destruct (IH _ _ _ _ _ Hs) as (Hlen & Hk & Hset); [rewrite length_insert; lia|]. rewrite length_insert in Hlen.
      assert (Hkeep : ∀ j, set_at vars j → set_at (<[idx := Some (act a now)]> vars) j).
      { intros j [v Hv]. destruct (decide (j = idx)) as [->|Hne]; [eexists; apply list_lookup_insert_eq; lia|].
        exists v. by rewrite list_lookup_insert_ne. }
      split_and!; [done|by auto|]. intros Hi j Hj. destruct (decide (j = idx)) as [->|]; [|apply Hset; [done|lia]].
      apply Hk. eexists. apply list_lookup_insert_eq. lia.
    + destruct (IH _ _ _ _ _ Hs) as (Hlen & Hk & Hset); [lia|]. split_and!; [done|done|]. intros Hi. unfold due in Hd. by rewrite Hi in Hd.
Qed.

(** The format takes as many numbers as there are variables, and all are set once a file
    has been opened. *)
Record shape (w : FileWriter) : Prop := {
  s_len : length (variables w) = length (actions w);
  s_fmt : ∀ vs, length vs = length (actions w) → (∀ j, (j < length vs)%nat → set_at vs j) → is_Some (sprintf (pathFmt w) vs);
  s_set : initFileOk w = true → ∀ j, (j < length (variables w))%nat → set_at (variables w) j }.

Definition out_ok (w : FileWriter) : Prop := ∀ o, out w = Some o → healthy o ∧ size o = bufSize cfg.

(** All bytes of a file. *)
Definition bytes_of (w : FileWriter) (p : string) : data :=
  match out w with Some o => total (files w) o p | None => default [] (files w !! p) end.

Lemma rotateImpl_spec w now : shape w → out_ok w →
  let w' := (rotateImpl cfg w now true).2 in
  shape w' ∧ out_ok w' ∧ (∀ p, bytes_of w' p = bytes_of w p) ∧ batchSinceFlush w' = batchSinceFlush w ∧
  (out w' = out w ∨ ∃ p, out w' = Some (mkOut p true [] (bufSize cfg) false)) ∧
  errored w' = errored w ∧ written w' = written w.
Proof using.
  intros [Hlen Hfmt Hset] Hok. unfold rotateImpl. destruct (scan cfg w now 0 (actions w) (variables w) false) as [vars rot] eqn:Hs.
  destruct (rotate_scan_spec _ _ _ _ _ _ _ _ Hs) as (Hl' & Hk & Hall); [lia|].
  assert (Hvars : ∀ j, (j < length vars)%nat → set_at vars j).
  { intros j Hj. destruct (initFileOk w) eqn:Hi; [apply Hk, Hset; [done|lia]|apply Hall; [done|lia]]. }
  destruct rot; cbn [negb]; [|].
  2: { cbn. split_and!; [split; cbn; [lia|done|by intros _]|done|done|done|by left|done|done]. }
  destruct (Hfmt vars ltac:(lia) Hvars) as [p Hp].
  assert (Hsh : ∀ o fs, shape (mkFile (pathFmt w) (actions w) vars now (lastRotateCheck w) true o fs (written w) (errored w) (batchSinceFlush w))).
  { intros o fs. split; cbn; [lia|done|by intros _]. }
  assert (Hnew : healthy (mkOut p true [] (bufSize cfg) false)) by (split; cbn; [done|done|lia]).
  destruct (out w) as [o|] eqn:Ho.
  - destruct (Hok o Ho) as [Hh Hsz]. destruct (bufio_Flush_ok (files w) o Hh) as (fs & Hf & Ht). rewrite Hf. cbn [negb opened]. rewrite Hp. cbn [snd].
    split_and!; [apply Hsh| |..]; try done.
    + intros o' [= <-]. by split.
    + intros q. unfold bytes_of at 2. rewrite Ho, <- Ht. unfold bytes_of, total. cbn. rewrite append_lookup.
      destruct (decide _); by rewrite !app_nil_r.
    + right. by exists p.
  - cbn [negb]. rewrite Hp. cbn [snd]. split_and!; [apply Hsh| |..]; try done.
    + intros o' [= <-]. by split.
    + intros q. unfold bytes_of at 2. rewrite Ho. unfold bytes_of, total. cbn. rewrite append_lookup. destruct (decide _); by rewrite !app_nil_r.
    + right. by exists p.
Qed.
End rotation.

(** ** Runs *)

Inductive fop := OWrite (now : Time) (e : entry) | OFlush.

Section runs.
Context (cfg : config).

(** The writer after some operations, and the records that got into a file's buffer,
    with the file's path. *)
Definition fop_apply (s : FileWriter * list (string * data)) (op : fop) : FileWriter * list (string * data) :=
  let '(w, lg) := s in
  match op with
  | OFlush => (flushSync w, lg)
  | OWrite now e =>
      (writeOne cfg w now true e,
       match out (rotate_check cfg w now true) with Some o => lg ++ [(path o, payload e)] | None => lg end)
  end.
Definition fop_run (ops : list fop) (w : FileWriter) : FileWriter * list (string * data) := foldl fop_apply (w, []) ops.

(** The bytes the log has for a path. *)
Definition routed (p : string) (lg : list (string * data)) : data := concat (snd <$> filter (λ e, e.1 = p) lg).

(** Every record is in its file or in the buffer. *)
Record fbase (fs0 : gmap string data) (w : FileWriter) (lg : list (string * data)) : Prop := {
  f_shape : shape w; f_out : out_ok cfg w;
  f_bytes : ∀ p, bytes_of w p = default [] (fs0 !! p) ++ routed p lg;
  f_written : written w = u64 (Z.of_nat (length lg)) }.

(** And the buffer holds bytes of fewer records than the batch counter allows. *)
Record finv (fs0 : gmap string data) (w : FileWriter) (lg : list (string * data)) : Prop := {
  f_base : fbase fs0 w lg; f_batch : 0 ≤ batchSinceFlush w < batchSize cfg;
  f_tail : ∀ o, out w = Some o → ∃ l1 l2, lg = l1 ++ l2 ∧ Z.of_nat (length l2) ≤ batchSinceFlush w ∧
    Forall (λ e, e.1 = path o) l2 ∧ buf o `suffix_of` concat l2.*2 }.

Lemma batchSize_pos : 0 < batchSize cfg.
Proof using. unfold batchSize, defaultFlushBatchSize. zcases; lia. Qed.

Lemma routed_app p l k : routed p (l ++ k) = routed p l ++ routed p k.
Proof using. unfold routed. by rewrite filter_app, fmap_app, concat_app. Qed.

Lemma routed_same p l : Forall (λ e, e.1 = p) l → routed p l = concat l.*2.
Proof using. intros Hl. unfold routed. rewrite filter_all; [done|]. by apply Forall_forall. Qed.

Lemma routed_other p q l : q ≠ p → Forall (λ e, e.1 = p) l → routed q l = [].
Proof using.
  intros Hne Hl. unfold routed. rewrite filter_none; [done|]. intros e He. rewrite Forall_forall in Hl. rewrite (Hl e He). congruence.
Qed.

Lemma set_out_shape w o fs wr er b : shape w → shape (set_out w o fs wr er b).
Proof using. intros [? ? ?]. by split. Qed.

Lemma flushSync_finv fs0 w lg : fbase fs0 w lg → 0 ≤ batchSinceFlush w < batchSize cfg → finv fs0 (flushSync w) lg.
Proof using.
  intros Hf Hb. unfold flushSync. destruct (out w) as [o|] eqn:Ho; [|split; [done|done|by rewrite Ho]].
  destruct Hf as [Hs Hok Hby Hw]. destruct (Hok o Ho) as [Hh Hsz].
  destruct (bufio_Flush_ok (files w) o Hh) as (fs & Hfl & Hd). rewrite Hfl. split; [split|done|]; [by apply set_out_shape| | |done|].
  - intros o' [= <-]. cbn. split; [|done]. split; cbn; [done|done|lia].
  - intros p. rewrite <- Hby. unfold bytes_of at 2. rewrite Ho, <- Hd. unfold bytes_of, total. cbn. destruct (decide _); by rewrite app_nil_r.
  - intros o' [= <-]. exists lg, []. split_and!; [by rewrite app_nil_r|simpl; lia|done|apply suffix_nil].
Qed.

Lemma rotate_finv fs0 w lg now : finv fs0 w lg → finv fs0 (rotate_check cfg w now true) lg.
Proof using.
  intros [[Hs Hok Hby Hw] Hb Ht]. unfold rotate_check. destruct (_ <=? _); [|by split].
  set (w1 := mkFile _ _ _ _ _ _ _ _ _ _ _). assert (Hs1 : shape w1) by (destruct Hs; by split).
  destruct (rotateImpl_spec cfg w1 now Hs1 Hok) as (Hs' & Hok' & Hby' & Hb' & Ho' & _ & Hw').
  split; [split|..]; [done|done|intros p; rewrite Hby'; apply Hby|by rewrite Hw'|by rewrite Hb'|].
  intros o Ho. rewrite Hb'. destruct Ho' as [Ho'|[p Hp]].
  - rewrite Ho' in Ho. by apply Ht.
  - rewrite Hp in Ho. injection Ho as <-. exists lg, []. split_and!; [by rewrite app_nil_r|simpl; unfold w1; cbn; lia|done|apply suffix_nil].
Qed.

Lemma write_batch_finv fs0 w lg e : finv fs0 w lg →
  finv fs0 (write_batch cfg w e) (match out w with Some o => lg ++ [(path o, payload e)] | None => lg end).
Proof using.
  intros [[Hs Hok Hby Hw] Hb Ht]. unfold write_batch. destruct (out w) as [o|] eqn:Ho.
  2: { split; [split|..]; [by apply set_out_shape|done| |done|done|done]. intros p. rewrite <- Hby. unfold bytes_of. by rewrite Ho. }
  destruct (Hok o Ho) as [Hh Hsz]. destruct (bufio_Write_ok (files w) o (payload e) Hh) as (fs & b & Hwr & Hlb & Hsuf & Htot).
  rewrite Hwr. cbn [negb]. set (o' := mkOut (path o) true b (size o) false) in *.
  assert (Hh' : healthy o') by by split. destruct (Ht o eq_refl) as (l1 & l2 & -> & Hl2 & Hp2 & Hbuf).
  assert (Hin : ∀ n, fbase fs0 (set_out w (Some o') fs (u64 (written w + 1)) (errored w) n) ((l1 ++ l2) ++ [(path o, payload e)])).
  { intros n. split; [by apply set_out_shape|by intros ? [= <-]|..].
    - intros p. unfold bytes_of. cbn [out set_out files]. rewrite Htot, routed_app, (assoc_L (++)), <- Hby. unfold bytes_of, total. rewrite Ho. cbn [path buf].
      destruct (decide (p = path o)) as [->|Hne].
      + rewrite (routed_same (path o)) by by constructor. cbn. by rewrite app_nil_r, <- (assoc_L (++)).
      + rewrite (routed_other (path o)) by (done || by constructor). by rewrite !app_nil_r.
    - cbn [written set_out]. by rewrite Hw, u64_add_l, (length_app (l1 ++ l2)), Nat2Z.inj_add. }
  destruct (Z.leb_spec (batchSize cfg) (batchSinceFlush w + 1)).
  { apply flushSync_finv; [apply Hin|cbn; pose proof batchSize_pos; lia]. }
  split; [apply Hin|cbn; lia|]. intros ? [= <-]. exists l1, (l2 ++ [(path o, payload e)]). split_and!.
  - by rewrite (assoc_L (++)).
  - rewrite length_app. simpl. lia.
  - apply Forall_app. split; [done|]. by constructor.
  - cbn [buf o']. etrans; [exact Hsuf|]. rewrite fmap_app, concat_app. cbn. rewrite app_nil_r.
    destruct Hbuf as [k ->]. exists k. by rewrite (assoc_L (++)).
Qed.

Lemma fop_run_finv fs0 ops w lg : finv fs0 w lg → finv fs0 (foldl fop_apply (w, lg) ops).1 (foldl fop_apply (w, lg) ops).2.
Proof using.
  revert w lg. induction ops as [|[now e|] ops IH]; intros w lg Hf; cbn [foldl fop_apply]; [done|..]; apply IH.
  - unfold writeOne. apply write_batch_finv, rotate_finv, Hf.
  - destruct Hf. by apply flushSync_finv.
Qed.
End runs.

(** ** Theorems *)

Lemma Sprintf_any l n vs : Forall seg_ok l → (String.length (flat (λ _, true) l) < n)%nat →
  length vs = length (vars_of l) → (∀ j, (j < length vs)%nat → set_at vs j) → is_Some (Sprintf n (flat (λ _, true) l) vs).
Proof.
  intros Hl. revert n vs. induction Hl as [|[c|a] l Hs _ IH]; intros [|n] vs Hn Hlen Hset; try lia; cbn [flat] in *.
  - by destruct vs.
  - rewrite Sprintf_lit by done. cbn [String.length] in Hn. destruct (IH n vs ltac:(lia) Hlen Hset) as [r ->]. by eexists.
  - change (vars_of (Var a :: l)) with (a :: vars_of l) in Hlen. destruct vs as [|v vs]; [done|]. rewrite length_app_str in Hn.
    destruct (Hset 0%nat ltac:(simpl; lia)) as [v' [= ->]].
    assert (Hrest : ∀ j, (j < length vs)%nat → set_at vs j) by (intros j Hj; apply (Hset (S j)); simpl; lia).
    destruct (IH n vs ltac:(destruct a; cbn in Hn; lia) ltac:(simpl in Hlen; lia) Hrest) as [r Hr].
    destruct a; cbn [verb]; strnorm; cbn [Sprintf]; rewrite Hr; by eexists.
Qed.

Lemma flat_no_vars d d' l : vars_of l = [] → flat d l = flat d' l.
Proof. induction l as [|[c|a] l IH]; intros H; [done| |done]. cbn [flat]. by rewrite IH. Qed.

(** A pattern whose percent signs all start a variable. *)
Definition valid_pattern (p : string) : Prop := is_Some (expand (mkTime 0 0) false p).

Lemma NewFileWriter_shape p fs0 zero w : valid_pattern p → NewFileWriter p fs0 zero = Some w →
  shape w ∧ (count_percent p ≠ 0%nat → actions w ≠ []) ∧ out w = None ∧ files w = fs0 ∧ initFileOk w = false ∧
  lastRotateCheck w = zero ∧ batchSinceFlush w = 0 ∧ written w = 0 ∧ variables w = replicate (length (actions w)) None.
Proof.
  intros [s Hv]. destruct (expand_segs _ _ _ false Hv) as (l & Hok & _ & ->).
  unfold NewFileWriter, SetPathPattern. rewrite count_percent_segs by done.
  assert (Hsh : ∀ vars, length vars = length (vars_of l) → shape (mkFile (flat (λ _, true) l) (vars_of l) vars zero zero false None fs0 0 0 0)).
  { intros vars Hl. split; [done| |done]. intros vs Hlen Hset. cbn [pathFmt]. unfold sprintf. apply Sprintf_any; [done|lia|done|done]. }
  destruct (length (vars_of l)) as [|k] eqn:Hk; cbn [mbind option_bind].
  - intros [= <-]. apply length_zero_iff_nil in Hk. rewrite (flat_no_vars _ (λ _, true)) by done. specialize (Hsh []). rewrite Hk in Hsh.
    split_and!; try done. by apply Hsh.
  - rewrite pattern_loop_segs, convert_segs by done. cbn [mbind option_bind]. intros [= <-]. cbn -[replicate].
    split_and!; try done; [apply Hsh; simpl; by rewrite length_replicate|intros _ E; by rewrite E in Hk|by rewrite Hk].
Qed.

Lemma New_finv cfg p fs0 zero w : valid_pattern p → NewFileWriter p fs0 zero = Some w → finv cfg fs0 w [].
Proof.
  intros Hv Hn. destruct (NewFileWriter_shape _ _ _ _ Hv Hn) as (Hs & _ & Ho & Hf & _ & _ & Hb & Hw & _).
  split; [split|..]; [done|by intros o; rewrite Ho| |by rewrite Hw| |by intros o; rewrite Ho].
  - intros q. unfold bytes_of. rewrite Ho, Hf. by rewrite app_nil_r.
  - rewrite Hb. pose proof (batchSize_pos cfg). lia.
Qed.

(** What a crash can lose, given the invariant. *)
Lemma finv_crash cfg fs0 w lg : finv cfg fs0 w lg →
  ∃ saved unsaved, lg = saved ++ unsaved ∧ Z.of_nat (length unsaved) < (CrashLossBound cfg true).1 ∧
    ∀ q, ∃ part rest, default [] (files w !! q) = default [] (fs0 !! q) ++ routed q saved ++ part ∧
      part ++ rest = routed q unsaved ∧ Z.of_nat (length rest) ≤ (CrashLossBound cfg true).2.
Proof.
  intros [[Hs Hok Hby Hw] Hb Ht]. assert (H2 : 0 ≤ (CrashLossBound cfg true).2).
  { unfold CrashLossBound, defaultBufferSize. cbn. zcases; lia. }
  destruct (out w) as [o|] eqn:Ho.
  - destruct (Ht o eq_refl) as (l1 & l2 & -> & Hl2 & Hp & part & Hpart). exists l1, l2. split; [done|]. split; [cbn; lia|].
    intros q. specialize (Hby q). unfold bytes_of, total in Hby. rewrite Ho, routed_app in Hby. destruct (decide (q = path o)) as [->|Hne].
    + exists part, (buf o). rewrite (routed_same (path o) l2), Hpart in * by done. split_and!; [|done|].
      * rewrite !(assoc_L (++)) in Hby. apply app_inj_2 in Hby as [-> _]; [|done]. by rewrite !(assoc_L (++)).
      * destruct (Hok o Ho) as [Hh Hsz]. pose proof (o_buf _ Hh) as Hbuf. rewrite Hsz in Hbuf. unfold bufSize in Hbuf.
        unfold CrashLossBound, defaultBufferSize in *. cbn in *. zcases_in Hbuf; zcases; lia.
    + exists [], []. rewrite (routed_other (path o) q l2), !app_nil_r in * by done. by split_and!.
  - exists lg, []. split; [by rewrite app_nil_r|]. split; [cbn; pose proof (batchSize_pos cfg); lia|].
    intros q. exists [], []. specialize (Hby q). unfold bytes_of in Hby. rewrite Ho in Hby. by rewrite Hby, !app_nil_r.
Qed.

(** C35: while every open succeeds and no write to an open file fails, whatever is
    written and flushed and whenever the files rotate, every file holds, with the bytes
    in the buffer, exactly the records routed to it, whole and in order; and if the process dies, all but the last records are in
    their files, those missing being fewer than the first number of [CrashLossBound]
    and their missing bytes at most the second. *)
Theorem crash_loss_bound cfg p fs0 zero w ops w' lg : valid_pattern p → NewFileWriter p fs0 zero = Some w →
  fop_run cfg ops w = (w', lg) →
  (∀ q, bytes_of w' q = default [] (fs0 !! q) ++ routed q lg) ∧
  ∃ saved unsaved, lg = saved ++ unsaved ∧ Z.of_nat (length unsaved) < (CrashLossBound cfg true).1 ∧
    ∀ q, ∃ part rest, default [] (files w' !! q) = default [] (fs0 !! q) ++ routed q saved ++ part ∧
      part ++ rest = routed q unsaved ∧ Z.of_nat (length rest) ≤ (CrashLossBound cfg true).2.
Proof.
  intros Hv Hn Hr. pose proof (fop_run_finv cfg fs0 ops w [] (New_finv cfg p fs0 zero w Hv Hn)) as Hf.
  unfold fop_run in Hr. rewrite Hr in Hf. cbn [fst snd] in Hf. split; [apply (f_bytes _ _ _ _ (f_base _ _ _ _ Hf))|by apply finv_crash].
Qed.

(** Two records either side of midnight, batches of two. *)
Definition demo_config : config := mkConfig true false false 1 0 0 16 2.
Definition demo_writer : FileWriter := default (mkFile "" [] [] epoch epoch false None ∅ 0 0 0) (NewFileWriter "%Y%M%D" ∅ epoch).
Definition demo_ops : list fop :=
  [OWrite (at_day 2024 1 30 23) (mkEntry "one" ""); OWrite (at_day 2024 1 31 0) (mkEntry "two" ""); OWrite (at_day 2024 1 31 1) (mkEntry "three" "")].
Definition demo_run : FileWriter * list (string * data) := fop_run demo_config demo_ops demo_writer.

Lemma crash_loss_bound_witness :
  (∀ q, bytes_of demo_run.1 q = [] ++ routed q demo_run.2) ∧
  (∃ saved unsaved, demo_run.2 = saved ++ unsaved ∧ Z.of_nat (length unsaved) < 2) ∧
  demo_run.2.*1 = ["20240130"; "20240131"; "20240131"] ∧
  string_of_list_ascii (default [] (files demo_run.1 !! "20240131")) = "two".
Proof.
  destruct (crash_loss_bound demo_config "%Y%M%D" ∅ epoch demo_writer demo_ops demo_run.1 demo_run.2)
    as (Hb & saved & unsaved & Hl & Hn & _); [by eexists|reflexivity|apply surjective_pairing|].
  split; [exact Hb|]. split; [exists saved, unsaved; split; [exact Hl|exact Hn]|]. vm_compute. split; reflexivity.
Defined.

(** ** A failed open *)

(** Operations with the outcome of opening a file. *)
Inductive xop := XWrite (now : Time) (open_ok : bool) (e : entry) | XFlush.

Definition xop_apply (cfg : config) (w : FileWriter) (op : xop) : FileWriter :=
  match op with XWrite now ok e => writeOne cfg w now ok e | XFlush => flushSync w end.

Definition stuck (w : FileWriter) (fs : gmap string data) : Prop :=
  files w = fs ∧ ∃ o, out w = Some o ∧ opened o = false.

Lemma bufio_Flush_stuck fs o : opened o = false →
  ∃ ok o', bufio_Flush fs o = (ok, fs, o') ∧ opened o' = false.
Proof.
  intros Ho. unfold bufio_Flush. destruct (berr o); [by eexists _, _|]. destruct (buf o); [by eexists _, _|]. rewrite Ho. by eexists _, _.
Qed.

Lemma bufio_Write_stuck n fs o d : opened o = false → ∃ ok o', bufio_Write n fs o d = (ok, fs, o') ∧ opened o' = false.
Proof.
  revert o d. induction n as [|n IH]; intros o d Ho; cbn [bufio_Write].
  { destruct (_ || _); [destruct (berr o)|]; by eexists _, _. }
  destruct (_ || _); [destruct (berr o); by eexists _, _|]. destruct (buf o) as [|x b] eqn:Hb; [rewrite Ho; by apply IH|].
  destruct (bufio_Flush_stuck fs (mkOut (path o) (opened o) ((x :: b) ++ take (size o - length (x :: b)) d) (size o) (berr o)) Ho) as (ok & o' & -> & Ho').
  by apply IH.
Qed.

Lemma rotate_stuck cfg w now ok fs : stuck w fs → stuck (rotateImpl cfg w now ok).2 fs.
Proof.
  intros (Hf & o & Ho & Hc). unfold rotateImpl. destruct (scan _ _ _ _ _ _ _) as [vars []]; cbn [negb].
  2: { split; [done|]. by exists o. }
  rewrite Ho. destruct (bufio_Flush_stuck (files w) o Hc) as (k & o' & -> & Ho'). destruct k; cbn [negb]; [|by split; [|exists o']].
  rewrite Ho'. cbn [negb]. by split; [|exists o'].
Qed.

Lemma xop_stuck cfg w op fs : stuck w fs → stuck (xop_apply cfg w op) fs.
Proof.
  assert (Hflush : ∀ w, stuck w fs → stuck (flushSync w) fs).
  { clear. intros w (Hf & o & Ho & Hc). unfold flushSync. rewrite Ho. destruct (bufio_Flush_stuck (files w) o Hc) as (k & o' & -> & Ho').
    by split; [|exists o']. }
  destruct op as [now ok e|]; [|by apply Hflush]. cbn [xop_apply]. unfold writeOne. intros Hs.
  assert (Hr : stuck (rotate_check cfg w now ok) fs) by (unfold rotate_check; destruct (_ <=? _); [by apply rotate_stuck|done]).
  revert Hr. generalize (rotate_check cfg w now ok). clear w Hs. intros w (Hf & o & Ho & Hc). unfold write_batch. rewrite Ho.
  destruct (bufio_Write_stuck 2 (files w) o (payload e) Hc) as (k & o' & -> & Ho').
  assert (Hw : ∀ wr er b, stuck (set_out w (Some o') (files w) wr er b) fs) by (intros; by split; [|exists o']).
  destruct k; cbn [negb]; [|apply Hw]. destruct (_ <=? _); [apply Hflush|]; apply Hw.
Qed.

(** A rotation that cannot open the next file closes the old one and keeps it as the
    writer's file.  From then on no rotation can succeed, because it first flushes to or
    closes that file, and no record reaches any file, even if opening would succeed. *)
Theorem failed_open_is_final cfg w o ops : out w = Some o → opened o = false →
  files (foldl (xop_apply cfg) w ops) = files w ∧
  ∃ o', out (foldl (xop_apply cfg) w ops) = Some o' ∧ opened o' = false.
Proof.
  intros Ho Hc. assert (Hs : stuck w (files w)) by (by split; [|exists o]). clear Ho Hc. revert Hs. generalize (files w). intros fs.
  revert w. induction ops as [|op ops IH]; intros w Hs; [done|]. cbn [foldl]. by apply IH, xop_stuck.
Qed.

(** The second file cannot be opened; records are then lost although all later opens would
    succeed. *)
Definition demo_failed : FileWriter :=
  xop_apply daily_config (xop_apply daily_config demo_writer (XWrite (at_day 2024 1 30 23) true (mkEntry "one" "")))
    (XWrite (at_day 2024 1 31 0) false (mkEntry "two" "")).

Lemma failed_open_is_final_witness : (path <$> out demo_failed) = Some "20240130" ∧
  files (xop_apply daily_config demo_failed (XWrite (at_day 2024 2 1 0) true (mkEntry "three" ""))) = files demo_failed.
Proof.
  split; [vm_compute; reflexivity|].
  destruct (failed_open_is_final daily_config demo_failed (default (mkOut "" true [] 0 false) (out demo_failed))
    [XWrite (at_day 2024 2 1 0) true (mkEntry "three" "")]) as [H _]; [vm_compute; reflexivity..|exact H].
Defined.

(** ** Behind the channel *)





Section async.
Context (cfg : config) (zero : Time).






End async.




