(* ===== verification/Logger.v ===== *)
(** * Logger: the core of [log4go] ([log4go/log.go])

    A logger and its clones share one channel of records, the goroutine that takes them
    off and gives them to the writers ([bootstrapLogWriter]), the counters and the base
    fields; level, format, fields, sampler and the verdict of the sampling strategy are
    each logger's own.  Callers of [deliverRecordToWriter], the goroutine and the
    callers of [Close] are program counters interleaved over one state; cloning and
    setting the knobs are steps in between.  The message's [fmt.Sprintf], the caller's
    file and line and the clock come from outside.  A writer is a number; what it is
    asked to do goes to a log of events, whose order is the order of the calls.

    Shown: the counters are exact, and what [Metrics], which loads them one by one,
    reports of them ([logger_accounts]); every registered
    writer gets every record that left the channel, once, in the channel's order, and
    sequence numbers are unique ([logger_fanout]); when [Close] returns, what was in the
    channel when it was called has been written, and nothing is written after the first
    [Stop] ([logger_close]); the base fields are a map ([base_fields_refine]).
    [double_close_panics]: closing a logger and one of its clones panics.
    [child_register_silent]: a writer registered on a clone gets nothing.
    [verbs_mangled]: a format with a verb and a percent sign gets verbs it has no
    arguments for.  [stale_second] and [stale_layout]: the cached time text can be that
    of an earlier second or layout. *)

From Stdlib Require Import ZArith Lia Ascii String.
From stdpp Require Import base tactics numbers list strings gmap relations.
From S2P Require Import Prelude GoStd Calendar Logline Sampling.

#[local] Open Scope string_scope.
#[local] Open Scope list_scope.
#[local] Open Scope Z_scope.

(** ** Base fields *)

Section base_fields.
Context {A : Type}.
#[local] Notation fld := (@field A).

(** The loop that replaces the first field with the key; [None]: there is none. *)
Fixpoint replace_field (f : fld) (l : list fld) : option (list fld) :=
  match l with
  | [] => None
  | g :: l => if String.eqb (key g) (key f) then Some (f :: l) else (g ::.) <$> replace_field f l
  end.

Definition SetBaseField (f : fld) (cur : option (list fld)) : option (list fld) :=
  match cur with
  | Some l => match replace_field f l with Some l' => Some l' | None => Some (l ++ [f]) end
  | None => Some [f]
  end.

(** The loop of [RemoveBaseField] with its [found]. *)
Fixpoint remove_loop (k : string) (l : list fld) : list fld * bool :=
  match l with
  | [] => ([], false)
  | f :: l => let '(next, found) := remove_loop k l in if String.eqb (key f) k then (next, true) else (f :: next, found)
  end.
Definition RemoveBaseField (k : string) (cur : option (list fld)) : option (list fld) :=
  match cur with
  | None | Some [] => cur
  | Some l => let '(next, found) := remove_loop k l in
      if negb found then cur else match next with [] => None | _ => Some next end
  end.
Definition ClearBaseFields (cur : option (list fld)) : option (list fld) := None.

Definition base_list (cur : option (list fld)) : list fld := default [] cur.

(** The fields of a record: base fields first. *)
Definition merge_fields (base : option (list fld)) (own : list fld) : list fld :=
  match base with
  | Some (b :: bs) => match own with [] => b :: bs | _ => (b :: bs) ++ own end
  | _ => own
  end.

(** *** They are a map *)

Inductive base_op := BSet (f : fld) | BRemove (k : string) | BClear.
Definition run_base (cur : option (list fld)) (op : base_op) : option (list fld) :=
  match op with BSet f => SetBaseField f cur | BRemove k => RemoveBaseField k cur | BClear => ClearBaseFields cur end.
Definition spec_base (m : gmap string fld) (op : base_op) : gmap string fld :=
  match op with BSet f => <[key f := f]> m | BRemove k => delete k m | BClear => ∅ end.

Definition to_map (l : list fld) : gmap string fld := list_to_map ((λ f, (key f, f)) <$> l).
Definition base_rep (cur : option (list fld)) (m : gmap string fld) : Prop :=
  NoDup (key <$> base_list cur) ∧ to_map (base_list cur) = m ∧ cur ≠ Some [].

Lemma to_map_cons f l : to_map (f :: l) = <[key f := f]> (to_map l).
Proof using. done. Qed.
Lemma to_map_None k l : to_map l !! k = None ↔ k ∉ key <$> l.
Proof using.
  unfold to_map. rewrite <- not_elem_of_list_to_map, <- list_fmap_compose. done.
Qed.

Lemma replace_field_spec f l : NoDup (key <$> l) →
  match replace_field f l with
  | Some l' => key <$> l' = key <$> l ∧ to_map l' = <[key f := f]> (to_map l)
  | None => key f ∉ key <$> l
  end.
Proof using.
  induction l as [|g l IH]; intros Hn; cbn [replace_field]; [apply not_elem_of_nil|]. rewrite fmap_cons in Hn. apply NoDup_cons in Hn as [Hg Hn].
  destruct (String.eqb_spec (key g) (key f)) as [E|E].
  - rewrite !fmap_cons, !to_map_cons, E, insert_insert_eq. done.
  - specialize (IH Hn). destruct (replace_field f l) as [l'|]; cbn [fmap option_fmap option_map].
    + destruct IH as [IH1 IH2]. rewrite !fmap_cons, !to_map_cons, IH1, IH2, insert_insert_ne by congruence. done.
    + rewrite fmap_cons. set_solver.
Qed.

Lemma remove_base_spec k l : NoDup (key <$> l) →
  let '(next, found) := remove_loop k l in
  NoDup (key <$> next) ∧ (∀ x, x ∈ key <$> next → x ∈ key <$> l) ∧ to_map next = delete k (to_map l) ∧ (found = true ↔ k ∈ key <$> l).
Proof using.
  induction l as [|f l IH]; intros Hn; cbn [remove_loop].
  { split_and!; [constructor|done|unfold to_map; cbn; by rewrite delete_empty|]. split; [done|by intros ?%not_elem_of_nil]. }
  rewrite fmap_cons in Hn. apply NoDup_cons in Hn as [Hf Hn]. specialize (IH Hn). destruct (remove_loop k l) as [next found].
  destruct IH as (H1 & H2 & H3 & H4). destruct (String.eqb_spec (key f) k) as [E|E].
  - split_and!; [done|intros x ?; rewrite fmap_cons; set_solver| |rewrite fmap_cons; set_solver].
    rewrite to_map_cons, E, delete_insert_eq. done.
  - split_and!.
    + rewrite fmap_cons. constructor; [|done]. intros H. by apply Hf, H2.
    + rewrite !fmap_cons. set_solver.
    + rewrite !to_map_cons, H3, delete_insert_ne by done. done.
    + rewrite fmap_cons. rewrite H4. set_solver.
Qed.

Lemma base_step cur m op : base_rep cur m → base_rep (run_base cur op) (spec_base m op).
Proof using.
  intros (Hn & <- & Hne). destruct op as [f|k|]; cbn [run_base spec_base].
  - unfold SetBaseField. destruct cur as [l|]; [|split_and!; [repeat constructor; apply not_elem_of_nil|done|done]].
    pose proof (replace_field_spec f l Hn) as Hr. cbn in *. destruct (replace_field f l) as [l'|].
    + destruct Hr as [Hk Hm]. split_and!; cbn; [by rewrite Hk|done|]. intros [= ->]. destruct l; [done|discriminate Hk].
    + split_and!; cbn; [| |by destruct l].
      * rewrite fmap_app. apply NoDup_app. split_and!; [done| |repeat constructor; apply not_elem_of_nil]. set_solver.
      * unfold to_map. rewrite fmap_app, list_to_map_app. cbn. fold (to_map l). apply map_eq. intros x.
        destruct (decide (x = key f)) as [->|Hx].
        -- rewrite lookup_union_r by by apply to_map_None. by rewrite !lookup_insert_eq.
        -- rewrite lookup_insert_ne by done. rewrite lookup_union_l; [done|]. by rewrite lookup_insert_ne.
  - unfold RemoveBaseField. destruct cur as [[|g l]|]; [done| |].
    + pose proof (remove_base_spec k (g :: l) Hn) as Hr. destruct (remove_loop k (g :: l)) as [next found].
      destruct Hr as (H1 & _ & H3 & H4). destruct found; cbn [negb].
      * split_and!; [by destruct next|by destruct next|by destruct next].
      * split_and!; [done| |done]. symmetry. apply delete_id, to_map_None. cbn [base_list default]. intros H. by apply H4 in H.
    + split_and!; [done|cbn; unfold to_map; cbn; by rewrite delete_empty|done].
  - split_and!; [constructor|done|done].
Qed.
End base_fields.

(** The base fields are a map from keys to values: after any sequence of
    [SetBaseField], [RemoveBaseField] and [ClearBaseFields] each key occurs once, with
    the value last set and not removed since, and an operation on one key leaves the
    other keys alone. *)
Theorem base_fields_refine {A} (ops : list (@base_op A)) :
  let cur := foldl run_base None ops in
  NoDup (key <$> base_list cur) ∧ to_map (base_list cur) = foldl spec_base ∅ ops.
Proof.
  cbv zeta. assert (Hr : base_rep (foldl run_base None ops) (foldl spec_base (∅ : gmap string (@field A)) ops)).
  { assert (H0 : base_rep None (∅ : gmap string (@field A))) by (split_and!; [constructor|done|done]).
    revert H0. generalize (∅ : gmap string (@field A)), (@None (list (@field A))).
    induction ops as [|op ops IH]; intros m cur H; [done|]. cbn. by apply IH, base_step. }
  by destruct Hr as (? & ? & _).
Qed.

Lemma base_fields_demo :
  base_list (foldl run_base None [BSet (mkField "a" kindInt 1 "" ()); BSet (mkField "b" kindInt 2 "" ()); BSet (mkField "a" kindInt 3 "" ()); BRemove "c"]) =
    [mkField "a" kindInt 3 "" (); mkField "b" kindInt 2 "" ()].
Proof. reflexivity. Qed.

(** ** The message *)

Fixpoint prefix_of (p s : string) : bool :=
  match p, s with
  | EmptyString, _ => true
  | String a p, String b s => Ascii.eqb a b && prefix_of p s
  | _, EmptyString => false
  end.
(** [strings.Contains]. *)
Fixpoint contains (sub s : string) : bool :=
  prefix_of sub s || match s with EmptyString => false | String _ s => contains sub s end.

Fixpoint repeat_text (k : nat) (s : string) : string := match k with O => "" | S k => s +:+ repeat_text k s end.

(** The format given to [Sprintf] for a text and [n] arguments, which is called only
    when there are any. *)
Definition message_format (f : string) (n : nat) : string :=
  match n with
  | O => f
  | _ => if negb (contains "%" f && negb (contains "%%" f)) then f +:+ repeat_text n "%v" else f
  end.

(** One argument, one verb and a percent sign: a second verb is added. *)
Example verbs_mangled : message_format "%d%% done" 1 = "%d%% done%v" ∧ message_format "%d of %d" 2 = "%d of %d" ∧
  message_format "user " 1 = "user %v" ∧ message_format "100%" 0 = "100%".
Proof. by split_and!. Qed.

(** ** The cached time text *)

Section time_cache.
(** [time.Time.Format] of an instant in nanoseconds. *)
Context (Format : string → Z → string).

Record cache := mkCache { lastTime : Z; lastTimeStr : option string; layout : string; hasSubSecond : bool }.

Definition SetLayout (l : string) (c : cache) : cache :=
  mkCache (lastTime c) (lastTimeStr c) l (contains ".0" l || contains ".9" l).
Definition new_cache (l : string) : cache := SetLayout l (mkCache 0 None "" false).

Definition unix (now : Z) : Z := now / 10 ^ 9.

(** The time text of one call, when no other call is under way. *)
Definition time_text (now : Z) (c : cache) : string * cache :=
  match lastTimeStr c with
  | Some s => if negb (hasSubSecond c) && (lastTime c =? unix now) then (s, c)
              else let s := Format (layout c) now in (s, mkCache (unix now) (Some s) (layout c) (hasSubSecond c))
  | None => let s := Format (layout c) now in (s, mkCache (unix now) (Some s) (layout c) (hasSubSecond c))
  end.

(** Its atomic loads and stores. *)
Inductive tpc := TStart (now : Z) | TLoaded (now : Z) (s : string) | TFormat (now : Z) | TStore (s : string) | TText (s : string).
Inductive time_step : cache * list tpc → cache * list tpc → Prop :=
| t_call c l now : time_step (c, l) (c, l ++ [TStart now])
| t_load c l i now : l !! i = Some (TStart now) →
    time_step (c, l) (c, <[i := match lastTimeStr c with Some s => if hasSubSecond c then TFormat now else TLoaded now s | None => TFormat now end]> l)
| t_compare c l i now s : l !! i = Some (TLoaded now s) →
    time_step (c, l) (c, <[i := if lastTime c =? unix now then TText s else TFormat now]> l)
| t_format c l i now : l !! i = Some (TFormat now) →
    time_step (c, l) (mkCache (unix now) (lastTimeStr c) (layout c) (hasSubSecond c), <[i := TStore (Format (layout c) now)]> l)
| t_store c l i s : l !! i = Some (TStore s) →
    time_step (c, l) (mkCache (lastTime c) (Some s) (layout c) (hasSubSecond c), <[i := TText s]> l).

(** One call at a time, the text is that of the call's own instant, if the layout stays
    and a layout without fractions depends on the second only. *)
Lemma time_text_exact l nows :
  (contains ".0" l || contains ".9" l = false → ∀ a b, unix a = unix b → Format l a = Format l b) →
  (foldl (λ '(ts, c) now, let '(t, c) := time_text now c in (ts ++ [t], c)) ([], new_cache l) nows).1 = Format l <$> nows.
Proof using.
  intros Hf. set (sub := contains ".0" l || contains ".9" l) in *.
  assert (Hgen : ∀ ts c, layout c = l → hasSubSecond c = sub →
    (∀ s, lastTimeStr c = Some s → sub = false → ∀ now, unix now = lastTime c → Format l now = s) →
    (foldl (λ '(ts, c) now, let '(t, c) := time_text now c in (ts ++ [t], c)) (ts, c) nows).1 = ts ++ (Format l <$> nows)).
  { induction nows as [|now nows IH]; intros ts c El Es Hc; [by rewrite app_nil_r|]. cbn [foldl].
    assert (Hmiss : ∀ c', c' = mkCache (unix now) (Some (Format (layout c) now)) (layout c) (hasSubSecond c) →
      (foldl (λ '(ts, c) now, let '(t, c) := time_text now c in (ts ++ [t], c)) (ts ++ [Format (layout c) now], c') nows).1 = ts ++ (Format l <$> now :: nows)).
    { intros c' ->. rewrite IH; [|done|done|].
      - by rewrite <- (assoc_L (++)), El.
      - cbn. intros s [= <-] Hs n En. rewrite El. by apply Hf. }
    unfold time_text. destruct (lastTimeStr c) as [s|] eqn:Ec; [|by apply Hmiss].
    destruct (negb (hasSubSecond c) && (lastTime c =? unix now)) eqn:Eh; [|by apply Hmiss].
    apply andb_prop in Eh as [Eh Et]. rewrite IH; [|done|done|by rewrite Ec]. rewrite <- (assoc_L (++)). rewrite fmap_cons. cbn [app].
    rewrite (Hc s eq_refl) with (now := now); [done|rewrite Es in Eh; by destruct sub|lia]. }
  by rewrite (Hgen [] (new_cache l)).
Qed.
End time_cache.

(** Two calls in second 200 after one in second 100: the first loads the old text, the
    second stores the new second, and the first finds it to be its own. *)
Example stale_second : ∃ c, rtc (time_step (λ _ now, utoa (unix now))) (new_cache "s", [])
  (c, [TText "100"; TText "100"; TStore "200"]) ∧ lastTime c = 200.
Proof.
  exists (mkCache 200 (Some "100") "s" false). split; [|done].
  eapply rtc_l; [apply (t_call _ _ _ (100 * 10 ^ 9))|]. eapply rtc_l; [by eapply (t_load _ _ _ 0)|]. eapply rtc_l; [by eapply (t_format _ _ _ 0)|].
  eapply rtc_l; [by eapply (t_store _ _ _ 0)|]. eapply rtc_l; [apply (t_call _ _ _ (200 * 10 ^ 9))|]. eapply rtc_l; [by eapply (t_load _ _ _ 1)|].
  eapply rtc_l; [apply (t_call _ _ _ (200 * 10 ^ 9))|]. eapply rtc_l; [by eapply (t_load _ _ _ 2)|]. eapply rtc_l; [by eapply (t_compare _ _ _ 2)|].
  eapply rtc_l; [by eapply (t_format _ _ _ 2)|]. eapply rtc_l; [by eapply (t_compare _ _ _ 1)|]. apply rtc_refl.
Qed.

(** [SetLayout] leaves the cached text in place. *)
Example stale_layout :
  let fmt l now := l +:+ utoa (unix now) in
  let '(a, c) := time_text fmt (100 * 10 ^ 9) (new_cache "A") in
  let '(b, _) := time_text fmt (100 * 10 ^ 9) (SetLayout "B" c) in
  a = "A100" ∧ b = "A100".
Proof. split; reflexivity. Qed.

(** ** The logger and its clones *)

Section system.
Context {A : Type} (float_text : Z → string) (error_text : A → option string) (marshal : A → option string).
(** The capacity of the channel. *)
Context (cap : nat).
#[local] Notation fld := (@field A).

(** [sampler] refers to the shared sampler objects, [closeOnce] says that its function
    has begun. *)
Record Logger := mkLogger {
  level_ : Z; format : Z; own : list fld; sampler : option nat; priorityLevel : Z; sampleDrop : bool;
  writers : list nat; closeOnce : bool }.

Definition with_writers (ws : list nat) (l : Logger) : Logger :=
  mkLogger (level_ l) (format l) (own l) (sampler l) (priorityLevel l) (sampleDrop l) ws (closeOnce l).
Definition with_once (l : Logger) : Logger :=
  mkLogger (level_ l) (format l) (own l) (sampler l) (priorityLevel l) (sampleDrop l) (writers l) true.

Definition newLogger : Logger := mkLogger 7 0 [] None (-1) false [] false.

(** [clone], and the methods that return a clone with more fields or a verdict. *)
Definition clone (l : Logger) : Logger :=
  mkLogger (level_ l) (format l) (own l) (sampler l) (priorityLevel l) (sampleDrop l) (writers l) false.
Definition withFields (fs : list fld) (l : Logger) : Logger :=
  let c := clone l in mkLogger (level_ c) (format c) (own l ++ fs) (sampler c) (priorityLevel c) (sampleDrop c) (writers c) (closeOnce c).
(** [WithContext]: the fields found in the context, and the strategy's verdict when
    there is one. *)
Definition WithContext (fs : list fld) (verdict : option bool) (l : Logger) : Logger :=
  let c := withFields fs l in
  mkLogger (level_ c) (format c) (own c) (sampler c) (priorityLevel c)
    (match verdict with Some keep => negb keep | None => sampleDrop c end) (writers c) (closeOnce c).

Record rec := mkRec { body : @LogRecord A; formattedBytes : option string }.
Definition format_record (fmt : Z) (r : @LogRecord A) : rec :=
  mkRec r (if fmt =? 1 then Some (JSON float_text error_text marshal r)
           else if fmt =? 2 then Some (Logfmt float_text error_text marshal r) else None).

(** A caller inside [deliverRecordToWriter]. *)
Inductive cpc :=
| Called (l : nat) (lvl : Z) (m : string)
| Counted (l : nat) (lvl : Z) (m : string)   (** past the counter *)
| Filtered (l : nat) (lvl : Z) (m : string)  (** past level and verdict *)
| Building (l : nat) (lvl : Z) (m : string)  (** past the sampler *)
| Enqueueing (r : rec).

Inductive bpc :=
| BFirst | BLoop
| BDelivering (r : rec) (ws : list nat) (drain : bool)
| BDrain | BEnded.

(** A caller of [Close], waiting for the goroutine, or stopping the writers. *)
Inductive kpc := KWaiting (l : nat) | KStopping (ws : list nat) | KReturned.

Inductive event := Wrote (w : nat) (r : rec) | Flushed (w : nat) | Rotated (w : nat) | Stopped (w : nat).

Record conf := mkConf { loggers : list Logger; samplers : list Sampler; baseFields : option (list fld); globalSeq : Z }.
Record chan := mkChan { records : list rec; quit : bool; c : bool }.
Record metrics := mkMetrics { occurredByLevel : list Z; recordsByLevel : list Z }.
(** The log of a run: the level of each counted call, those of the calls that were
    filtered or sampled out, the records built, those dropped for [quit], those the
    channel accepted, those given to all writers, the calls of the writers, what the
    channel had accepted when [quit] was closed, and whether a [close] panicked. *)
Record glog := mkLog {
  counted : list Z; suppressed : list Z; built : list rec; dropped : list rec; accepted : list rec; delivered : list rec;
  events : list event; mark : option (list rec); panicked : bool }.
Record sys := mkSys { cf : conf; ch : chan; mt : metrics; callers : list cpc; boot : bpc; closers : list kpc; gl : glog }.

Definition bump (l : Z) (xs : list Z) : list Z := alter (λ n, u64 (n + 1)) (Z.to_nat l) xs.
Definition the (l : nat) (cf : conf) : Logger := default newLogger (loggers cf !! l).
Definition root_writers (cf : conf) : list nat := writers (the 0 cf).

Definition g_count (l : Z) (g : glog) : glog :=
  mkLog (counted g ++ [l]) (suppressed g) (built g) (dropped g) (accepted g) (delivered g) (events g) (mark g) (panicked g).
Definition g_suppress (l : Z) (g : glog) : glog :=
  mkLog (counted g) (suppressed g ++ [l]) (built g) (dropped g) (accepted g) (delivered g) (events g) (mark g) (panicked g).
Definition g_build (r : rec) (g : glog) : glog :=
  mkLog (counted g) (suppressed g) (built g ++ [r]) (dropped g) (accepted g) (delivered g) (events g) (mark g) (panicked g).
Definition g_drop (r : rec) (g : glog) : glog :=
  mkLog (counted g) (suppressed g) (built g) (dropped g ++ [r]) (accepted g) (delivered g) (events g) (mark g) (panicked g).
Definition g_accept (r : rec) (g : glog) : glog :=
  mkLog (counted g) (suppressed g) (built g) (dropped g) (accepted g ++ [r]) (delivered g) (events g) (mark g) (panicked g).
Definition g_deliver (r : rec) (g : glog) : glog :=
  mkLog (counted g) (suppressed g) (built g) (dropped g) (accepted g) (delivered g ++ [r]) (events g) (mark g) (panicked g).
Definition g_events (es : list event) (g : glog) : glog :=
  mkLog (counted g) (suppressed g) (built g) (dropped g) (accepted g) (delivered g) (events g ++ es) (mark g) (panicked g).
Definition g_mark (g : glog) : glog :=
  mkLog (counted g) (suppressed g) (built g) (dropped g) (accepted g) (delivered g) (events g) (Some (accepted g)) (panicked g).
Definition g_panic (g : glog) : glog :=
  mkLog (counted g) (suppressed g) (built g) (dropped g) (accepted g) (delivered g) (events g) (mark g) true.

(** The record a call builds: [t] and [nano] are the time text and the clock. *)
Definition build (cf : conf) (l : nat) (lvl : Z) (m file t : string) (nano : Z) : rec :=
  format_record (format (the l cf))
    (mkRecord lvl t file m nano (u64 (globalSeq cf + 1)) (merge_fields (baseFields cf) (own (the l cf)))).

(** [deliverRecordToWriter] and [enqueue]. *)
Inductive caller_step : sys → sys → Prop :=
| c_call cf ch mt ps b ks g l lvl m : (l < length (loggers cf))%nat → level_ok lvl →
    caller_step (mkSys cf ch mt ps b ks g) (mkSys cf ch mt (ps ++ [Called l lvl m]) b ks g)
| c_count cf ch mt p1 p2 b ks g l lvl m :
    caller_step (mkSys cf ch mt (p1 ++ Called l lvl m :: p2) b ks g)
      (mkSys cf ch (mkMetrics (bump lvl (occurredByLevel mt)) (recordsByLevel mt)) (p1 ++ Counted l lvl m :: p2) b ks (g_count lvl g))
| c_filter cf ch mt p1 p2 b ks g l lvl m :
    (level_ (the l cf) <? lvl) || (sampleDrop (the l cf) && (priorityLevel (the l cf) <? lvl)) = true →
    caller_step (mkSys cf ch mt (p1 ++ Counted l lvl m :: p2) b ks g) (mkSys cf ch mt (p1 ++ p2) b ks (g_suppress lvl g))
| c_pass cf ch mt p1 p2 b ks g l lvl m :
    (level_ (the l cf) <? lvl) || (sampleDrop (the l cf) && (priorityLevel (the l cf) <? lvl)) = false →
    caller_step (mkSys cf ch mt (p1 ++ Counted l lvl m :: p2) b ks g) (mkSys cf ch mt (p1 ++ Filtered l lvl m :: p2) b ks g)
| c_unsampled cf ch mt p1 p2 b ks g l lvl m : sampler (the l cf) = None →
    caller_step (mkSys cf ch mt (p1 ++ Filtered l lvl m :: p2) b ks g) (mkSys cf ch mt (p1 ++ Building l lvl m :: p2) b ks g)
| c_sampled cf ch mt p1 p2 b ks g l lvl m i s ok s' : sampler (the l cf) = Some i → samplers cf !! i = Some s → allow s lvl = (ok, s') →
    caller_step (mkSys cf ch mt (p1 ++ Filtered l lvl m :: p2) b ks g)
      (mkSys (mkConf (loggers cf) (<[i := s']> (samplers cf)) (baseFields cf) (globalSeq cf)) ch mt
         (p1 ++ (if ok : bool then [Building l lvl m] else []) ++ p2) b ks (if ok then g else g_suppress lvl g))
| c_build cf ch mt p1 p2 b ks g l lvl m file t nano :
    caller_step (mkSys cf ch mt (p1 ++ Building l lvl m :: p2) b ks g)
      (mkSys (mkConf (loggers cf) (samplers cf) (baseFields cf) (u64 (globalSeq cf + 1))) ch mt
         (p1 ++ Enqueueing (build cf l lvl m file t nano) :: p2) b ks (g_build (build cf l lvl m file t nano) g))
| c_send cf q x y mt p1 p2 b ks g r : (length q < cap)%nat →
    caller_step (mkSys cf (mkChan q x y) mt (p1 ++ Enqueueing r :: p2) b ks g)
      (mkSys cf (mkChan (q ++ [r]) x y) mt (p1 ++ p2) b ks (g_accept r g))
| c_quit cf q y mt p1 p2 b ks g r :
    caller_step (mkSys cf (mkChan q true y) mt (p1 ++ Enqueueing r :: p2) b ks g)
      (mkSys cf (mkChan q true y) mt (p1 ++ p2) b ks (g_drop r g)).

(** [bootstrapLogWriter]. *)
Inductive boot_step : sys → sys → Prop :=
| b_take cf r q x y mt ps b ks g : b = BFirst ∨ b = BLoop →
    boot_step (mkSys cf (mkChan (r :: q) x y) mt ps b ks g) (mkSys cf (mkChan q x y) mt ps (BDelivering r (root_writers cf) false) ks g)
| b_write cf ch mt ps r w ws d ks g :
    boot_step (mkSys cf ch mt ps (BDelivering r (w :: ws) d) ks g) (mkSys cf ch mt ps (BDelivering r ws d) ks (g_events [Wrote w r] g))
| b_written cf ch mt ps r (d : bool) ks g :
    boot_step (mkSys cf ch mt ps (BDelivering r [] d) ks g)
      (mkSys cf ch (mkMetrics (occurredByLevel mt) (bump (level (body r)) (recordsByLevel mt))) ps (if d then BDrain else BLoop) ks (g_deliver r g))
| b_flush cf ch mt ps ks g :
    boot_step (mkSys cf ch mt ps BLoop ks g) (mkSys cf ch mt ps BLoop ks (g_events (Flushed <$> root_writers cf) g))
| b_rotate cf ch mt ps ks g :
    boot_step (mkSys cf ch mt ps BLoop ks g) (mkSys cf ch mt ps BLoop ks (g_events (Rotated <$> root_writers cf) g))
| b_quit cf q y mt ps b ks g : b = BFirst ∨ b = BLoop →
    boot_step (mkSys cf (mkChan q true y) mt ps b ks g) (mkSys cf (mkChan q true y) mt ps BDrain ks g)
| b_reap cf r q x y mt ps ks g :
    boot_step (mkSys cf (mkChan (r :: q) x y) mt ps BDrain ks g) (mkSys cf (mkChan q x y) mt ps (BDelivering r (root_writers cf) true) ks g)
| b_end cf x mt ps ks g :
    boot_step (mkSys cf (mkChan [] x false) mt ps BDrain ks g) (mkSys cf (mkChan [] x true) mt ps BEnded ks g).

(** [Close]: the first call on a logger closes [quit], which is shared. *)
Inductive close_step : sys → sys → Prop :=
| k_close cf q y mt ps b ks g l : (l < length (loggers cf))%nat → closeOnce (the l cf) = false →
    close_step (mkSys cf (mkChan q false y) mt ps b ks g)
      (mkSys (mkConf (alter with_once l (loggers cf)) (samplers cf) (baseFields cf) (globalSeq cf)) (mkChan q true y) mt ps b (ks ++ [KWaiting l]) (g_mark g))
| k_panic cf q y mt ps b ks g l : (l < length (loggers cf))%nat → closeOnce (the l cf) = false →
    close_step (mkSys cf (mkChan q true y) mt ps b ks g)
      (mkSys (mkConf (alter with_once l (loggers cf)) (samplers cf) (baseFields cf) (globalSeq cf)) (mkChan q true y) mt ps b ks (g_panic g))
| k_signalled cf q x mt ps b k1 k2 g l :
    close_step (mkSys cf (mkChan q x true) mt ps b (k1 ++ KWaiting l :: k2) g)
      (mkSys cf (mkChan q x false) mt ps b (k1 ++ KStopping (writers (the l cf)) :: k2) g)
| k_stop cf ch mt ps b k1 k2 g w ws :
    close_step (mkSys cf ch mt ps b (k1 ++ KStopping (w :: ws) :: k2) g)
      (mkSys cf ch mt ps b (k1 ++ KStopping ws :: k2) (g_events [Flushed w; Stopped w] g))
| k_return cf ch mt ps b k1 k2 g :
    close_step (mkSys cf ch mt ps b (k1 ++ KStopping [] :: k2) g) (mkSys cf ch mt ps b (k1 ++ KReturned :: k2) g).

(** Cloning, registration (of a writer that is not registered yet), and the knobs. *)
Inductive config_step : sys → sys → Prop :=
| n_clone cf ch mt ps b ks g l child : (l < length (loggers cf))%nat →
    (∃ fs v, child = WithContext fs v (the l cf)) →
    config_step (mkSys cf ch mt ps b ks g) (mkSys (mkConf (loggers cf ++ [child]) (samplers cf) (baseFields cf) (globalSeq cf)) ch mt ps b ks g)
| n_register cf ch mt ps b ks g l w : w ∉ writers (the l cf) →
    config_step (mkSys cf ch mt ps b ks g)
      (mkSys (mkConf (alter (λ lg, with_writers (writers lg ++ [w]) lg) l (loggers cf)) (samplers cf) (baseFields cf) (globalSeq cf)) ch mt ps b ks g)
| n_base cf ch mt ps b ks g op :
    config_step (mkSys cf ch mt ps b ks g) (mkSys (mkConf (loggers cf) (samplers cf) (run_base (baseFields cf) op) (globalSeq cf)) ch mt ps b ks g)
| n_knobs cf ch mt ps b ks g l lv fm pr :
    config_step (mkSys cf ch mt ps b ks g)
      (mkSys (mkConf (alter (λ lg, mkLogger lv fm (own lg) (sampler lg) pr (sampleDrop lg) (writers lg) (closeOnce lg)) l (loggers cf))
         (samplers cf) (baseFields cf) (globalSeq cf)) ch mt ps b ks g)
| n_sampling cf ch mt ps b ks g l initial thereafter :
    let new := sampler_of initial thereafter in
    config_step (mkSys cf ch mt ps b ks g)
      (mkSys (mkConf (alter (λ lg, mkLogger (level_ lg) (format lg) (own lg) (match new with Some _ => Some (length (samplers cf)) | None => None end)
           (priorityLevel lg) (sampleDrop lg) (writers lg) (closeOnce lg)) l (loggers cf))
         (samplers cf ++ option_list new) (baseFields cf) (globalSeq cf)) ch mt ps b ks g).

Definition step (s s' : sys) : Prop := caller_step s s' ∨ boot_step s s' ∨ close_step s s' ∨ config_step s s'.

(** [Metrics]: occurred, written, and the difference where it is not negative, for each
    level.  The counters are loaded one after the other: the argument has, for each level,
    what they are when its two loads are made. *)
Definition Metrics (loads : list (metrics * metrics)) : list (Z * Z * Z) :=
  imap (λ i '(m1, m2), let o := nth i (occurredByLevel m1) 0 in let r := nth i (recordsByLevel m2) 0 in (o, r, if r <=? o then o - r else 0)) loads.

(** [newLoggerWithRecords] and the registration of [ws]. *)
Definition start (ws : list nat) (seq0 : Z) : sys :=
  mkSys (mkConf [with_writers ws newLogger] [] None seq0) (mkChan [] false false) (mkMetrics (replicate 9 0) (replicate 9 0)) [] BFirst []
    (mkLog [] [] [] [] [] [] [] None false).

(** ** Invariants *)

Definition lvl_of (r : rec) : Z := level (body r).
Definition seq_of (r : rec) : Z := Logline.seq (body r).

Definition count_of (l : Z) (xs : list Z) : Z := Z.of_nat (length (filter (λ k, k = l) xs)).
Definition counts_ok (xs : list Z) (log : list Z) : Prop :=
  length xs = 9%nat ∧ ∀ l, level_ok l → nth (Z.to_nat l) xs 0 = u64 (count_of l log).

Lemma count_of_app l xs ys : count_of l (xs ++ ys) = count_of l xs + count_of l ys.
Proof using. unfold count_of. rewrite filter_app, length_app. lia. Qed.
Lemma count_of_single k l : count_of k [l] = if decide (l = k) then 1 else 0.
Proof using. unfold count_of. destruct (decide (l = k)); [by rewrite filter_cons_True|by rewrite filter_cons_False]. Qed.
Lemma count_of_perm l xs ys : xs ≡ₚ ys → count_of l xs = count_of l ys.
Proof using. intros H. unfold count_of. by rewrite H. Qed.

Lemma counts_bump xs log l : counts_ok xs log → level_ok l → counts_ok (bump l xs) (log ++ [l]).
Proof using.
  intros [Hlen Hc] Hl. unfold level_ok in *. split; [unfold bump; by rewrite length_alter|]. intros k Hk. rewrite count_of_app, count_of_single.
  unfold bump. rewrite nth_lookup. destruct (decide (k = l)) as [->|Hkl].
  - rewrite list_lookup_alter. pose proof (Hc l Hl) as Hcl. rewrite nth_lookup in Hcl.
    destruct (xs !! Z.to_nat l) as [z|] eqn:E; [|apply lookup_ge_None in E; lia]. cbn in *. rewrite Hcl, u64_add_l.
    by rewrite !decide_True by done.
  - rewrite list_lookup_alter_ne by (unfold level_ok in Hk; lia). rewrite <- nth_lookup, (Hc k Hk).
    rewrite decide_False by done. f_equal. lia.
Qed.

(** The levels of the calls that were counted, and the records on their way. *)
Definition caller_level (p : cpc) : list Z :=
  match p with Called _ _ _ => [] | Counted _ l _ | Filtered _ l _ | Building _ l _ => [l] | Enqueueing r => [lvl_of r] end.
Definition caller_rec (p : cpc) : list rec := match p with Enqueueing r => [r] | _ => [] end.
Definition caller_ok (p : cpc) : Prop :=
  match p with Called _ l _ | Counted _ l _ | Filtered _ l _ | Building _ l _ => level_ok l | Enqueueing r => level_ok (lvl_of r) end.
Definition hand (b : bpc) : list rec := match b with BDelivering r _ _ => [r] | _ => [] end.

Record accounts (seq0 : Z) (s : sys) : Prop := {
  a_occurred : counts_ok (occurredByLevel (mt s)) (counted (gl s));
  a_written : counts_ok (recordsByLevel (mt s)) (lvl_of <$> delivered (gl s));
  a_levels : counted (gl s) ≡ₚ (callers s ≫= caller_level) ++ suppressed (gl s) ++ (lvl_of <$> dropped (gl s)) ++ (lvl_of <$> accepted (gl s));
  a_built : built (gl s) ≡ₚ (callers s ≫= caller_rec) ++ dropped (gl s) ++ accepted (gl s);
  a_seq : seq_of <$> built (gl s) = (λ j, u64 (seq0 + 1 + Z.of_nat j)) <$> List.seq 0 (length (built (gl s)));
  a_global : globalSeq (cf s) = u64 (seq0 + Z.of_nat (length (built (gl s))));
  a_chan : accepted (gl s) = delivered (gl s) ++ hand (boot s) ++ records (ch s);
  a_ok : Forall caller_ok (callers s);
  a_rec_ok : Forall (λ r, level_ok (lvl_of r)) (accepted (gl s)) }.

Lemma callers_bind {B} (f : cpc → list B) p1 p p2 : (p1 ++ p :: p2) ≫= f ≡ₚ f p ++ ((p1 ++ p2) ≫= f).
Proof using. rewrite !bind_app, bind_cons. solve_Permutation. Qed.

Lemma callers_ok p1 p p2 : Forall caller_ok (p1 ++ p :: p2) ↔ caller_ok p ∧ Forall caller_ok (p1 ++ p2).
Proof using. rewrite !Forall_app, Forall_cons. tauto. Qed.

(** The next record carries the next number. *)
Lemma seq_build seq0 (b : list rec) r : seq_of <$> b = (λ j, u64 (seq0 + 1 + Z.of_nat j)) <$> List.seq 0 (length b) →
  seq_of r = u64 (u64 (seq0 + Z.of_nat (length b)) + 1) →
  seq_of <$> (b ++ [r]) = (λ j, u64 (seq0 + 1 + Z.of_nat j)) <$> List.seq 0 (length (b ++ [r])).
Proof using.
  intros Hq Hr. rewrite length_app. cbn [length]. rewrite Nat.add_1_r, seq_S, !fmap_app, Hq. f_equal. cbn. rewrite Hr, u64_add_l. do 2 f_equal. lia.
Qed.

(** A caller moves on; nothing else is recorded. *)
Lemma caller_moves seq0 cf cf' ch mt p1 p2 b ks g p p' : globalSeq cf' = globalSeq cf →
  caller_level p = caller_level p' → caller_rec p = caller_rec p' → (caller_ok p → caller_ok p') →
  accounts seq0 (mkSys cf ch mt (p1 ++ p :: p2) b ks g) → accounts seq0 (mkSys cf' ch mt (p1 ++ p' :: p2) b ks g).
Proof using.
  intros Eg E1 E2 E3 [Ho Hw Hl Hb Hq Hg Hc Hk Hr]. cbn in *. split; cbn; try done.
  - by rewrite callers_bind, <- E1, <- callers_bind.
  - by rewrite callers_bind, <- E2, <- callers_bind.
  - by rewrite Eg.
  - apply callers_ok. apply callers_ok in Hk as [??]. auto.
Qed.

(** A call is filtered or sampled out. *)
Lemma caller_suppressed seq0 cf cf' ch mt p1 p2 b ks g p l : globalSeq cf' = globalSeq cf →
  caller_level p = [l] → caller_rec p = [] →
  accounts seq0 (mkSys cf ch mt (p1 ++ p :: p2) b ks g) → accounts seq0 (mkSys cf' ch mt (p1 ++ p2) b ks (g_suppress l g)).
Proof using.
  intros Eg E1 E2 [Ho Hw Hl Hb Hq Hg Hc Hk Hr]. cbn in *. split; cbn; try done.
  - rewrite Hl, callers_bind, E1. solve_Permutation.
  - by rewrite Hb, callers_bind, E2.
  - by rewrite Eg.
  - by apply callers_ok in Hk as [_ ?].
Qed.

Lemma caller_accounts seq0 s s' : caller_step s s' → accounts seq0 s → accounts seq0 s'.
Proof using.
  intros Hs Ha. destruct Hs.
  - destruct Ha as [Ho Hw Hl Hb Hq Hg Hc Hk Hr]. split; cbn in *; try done.
    + by rewrite bind_app, app_nil_r.
    + by rewrite bind_app, app_nil_r.
    + apply Forall_app. split; [done|]. by apply Forall_singleton.
  - destruct Ha as [Ho Hw Hl Hb Hq Hg Hc Hk Hr]. cbn in *. apply callers_ok in Hk as [Hlv Hk]. split; cbn; try done.
    + by apply counts_bump.
    + rewrite Hl, !callers_bind. cbn. solve_Permutation.
    + by rewrite Hb, !callers_bind.
    + by apply callers_ok.
  - by eapply caller_suppressed in Ha.
  - by eapply caller_moves in Ha.
  - by eapply caller_moves in Ha.
  - destruct ok; cbn [app]; [by eapply caller_moves in Ha|by eapply caller_suppressed in Ha].
  - destruct Ha as [Ho Hw Hl Hb Hq Hg Hc Hk Hr]. cbn in *. apply callers_ok in Hk as [Hlv Hk]. split; cbn; try done.
    + by rewrite Hl, !callers_bind.
    + rewrite Hb, !callers_bind. cbn. solve_Permutation.
    + apply seq_build; [done|]. unfold seq_of. cbn. by rewrite Hg.
    + rewrite Hg, u64_add_l, length_app. cbn. f_equal. lia.
    + by apply callers_ok.
  - destruct Ha as [Ho Hw Hl Hb Hq Hg Hc Hk Hr]. cbn in *. apply callers_ok in Hk as [Hlv Hk]. split; cbn; try done.
    + rewrite Hl, callers_bind, fmap_app. cbn. solve_Permutation.
    + rewrite Hb, callers_bind. cbn. solve_Permutation.
    + by rewrite Hc, <- !(assoc_L (++)).
    + apply Forall_app. split; [done|]. by apply Forall_singleton.
  - destruct Ha as [Ho Hw Hl Hb Hq Hg Hc Hk Hr]. cbn in *. apply callers_ok in Hk as [Hlv Hk]. split; cbn; try done.
    + rewrite Hl, callers_bind, fmap_app. cbn. solve_Permutation.
    + rewrite Hb, callers_bind. cbn. solve_Permutation.
Qed.

Lemma boot_accounts seq0 s s' : boot_step s s' → accounts seq0 s → accounts seq0 s'.
Proof using.
  intros Hs [Ho Hw Hl Hb Hq Hg Hc Hk Hr]. destruct Hs; cbn in *; (split; cbn; try done).
  - by destruct H; subst.
  - rewrite fmap_app. apply counts_bump; [done|]. rewrite Hc in Hr. apply Forall_app in Hr as [_ [Hr _]%Forall_cons]. done.
  - rewrite Hc, <- (assoc_L (++)). by destruct d.
  - by destruct H; subst.
Qed.

Lemma other_accounts seq0 s s' : close_step s s' ∨ config_step s s' → accounts seq0 s → accounts seq0 s'.
Proof using. intros [Hs|Hs] [Ho Hw Hl Hb Hq Hg Hc Hk Hr]; destruct Hs; cbn in *; by split. Qed.

Lemma start_accounts ws seq0 : 0 ≤ seq0 < 2 ^ 64 → accounts seq0 (start ws seq0).
Proof using.
  intros Hs. assert (H9 : counts_ok (replicate 9 0) []).
  { split; [done|]. intros l Hl. rewrite nth_lookup. destruct (replicate 9 0 !! Z.to_nat l) as [z|] eqn:E; [|done].
    by apply lookup_replicate in E as [-> _]. }
  split; cbn; try done. rewrite Z.add_0_r. symmetry. apply u64_id. unfold max_u64. lia.
Qed.

Lemma run_accounts ws seq0 s : 0 ≤ seq0 < 2 ^ 64 → rtc step (start ws seq0) s → accounts seq0 s.
Proof using.
  intros Hq Hs. pose proof (start_accounts ws seq0 Hq) as Ha. induction Hs as [|s1 s2 s3 Hs _ IH]; [done|]. apply IH.
  destruct Hs as [Hs|[Hs|Hs]]; [by eapply caller_accounts|by eapply boot_accounts|by eapply other_accounts].
Qed.

(** *** Writers *)

Definition wrote (w : nat) (es : list event) : list rec := es ≫= λ e, match e with Wrote v r => if decide (v = w) then [r] else [] | _ => [] end.

(** Of the record in hand, [w] has it when it is no longer among the remaining. *)
Definition in_hand_of (w : nat) (b : bpc) : list rec :=
  match b with BDelivering r ws _ => if decide (w ∈ ws) then [] else [r] | _ => [] end.
Definition remaining (b : bpc) : list nat := match b with BDelivering _ ws _ => ws | _ => [] end.

Record fans (ws0 : list nat) (s : sys) : Prop := {
  f_nodup : NoDup (root_writers (cf s)) ∧ loggers (cf s) ≠ [];
  f_keep : ws0 `prefix_of` root_writers (cf s);
  f_left : NoDup (remaining (boot s)) ∧ (∀ w, w ∈ remaining (boot s) → w ∈ root_writers (cf s));
  f_only : ∀ w r, Wrote w r ∈ events (gl s) → w ∈ root_writers (cf s);
  f_wrote : ∀ w, w ∈ ws0 → wrote w (events (gl s)) = delivered (gl s) ++ in_hand_of w (boot s) }.

Lemma wrote_app w e1 e2 : wrote w (e1 ++ e2) = wrote w e1 ++ wrote w e2.
Proof using. unfold wrote. by rewrite bind_app. Qed.
Lemma wrote_quiet w es : (∀ v r, Wrote v r ∉ es) → wrote w es = [].
Proof using.
  induction es as [|e es IH]; intros H; [done|]. unfold wrote in *. rewrite bind_cons, IH by set_solver. destruct e; [|done..].
  exfalso. eapply H. apply list_elem_of_here.
Qed.

Lemma root_alter f l cf sm bf gs : (∀ lg, writers (f lg) = writers lg) →
  root_writers (mkConf (alter f l (loggers cf)) sm bf gs) = root_writers cf.
Proof using.
  intros Hf. unfold root_writers, the. cbn [loggers]. destruct (decide (l = 0%nat)) as [->|Hl].
  - rewrite list_lookup_alter, decide_True by done. destruct (loggers cf !! 0%nat); cbn; auto.
  - by rewrite list_lookup_alter_ne.
Qed.
Lemma root_app cf child sm bf gs : loggers cf ≠ [] →
  root_writers (mkConf (loggers cf ++ [child]) sm bf gs) = root_writers cf.
Proof using. intros Hne. unfold root_writers, the. cbn [loggers]. by destruct (loggers cf). Qed.
Lemma alter_nonempty {B} (f : B → B) i l : l ≠ [] → alter f i l ≠ [].
Proof using. intros Hl E. apply Hl, length_zero_iff_nil. rewrite <- (length_alter f l i). by rewrite E. Qed.

(** Nothing the writers see changes. *)
Lemma fans_same ws0 s s' : fans ws0 s → root_writers (cf s') = root_writers (cf s) → loggers (cf s') ≠ [] →
  boot s' = boot s → delivered (gl s') = delivered (gl s) → events (gl s') = events (gl s) → fans ws0 s'.
Proof using. intros [[H1 H1'] H2 H3 H4 H5] E1 E2 E3 E4 E5. split; rewrite ?E1, ?E3, ?E4, ?E5; done. Qed.

(** The writers see calls that are not writes. *)
Lemma fans_events ws0 cf ch mt ps b ks g es ch' ks' : (∀ v r, Wrote v r ∉ es) →
  fans ws0 (mkSys cf ch mt ps b ks g) → fans ws0 (mkSys cf ch' mt ps b ks' (g_events es g)).
Proof using.
  intros Hes [H1 H2 H3 H4 H5]. split; cbn -[wrote root_writers in_hand_of] in *; try done.
  - intros w r [?|?]%elem_of_app; [eauto|]. by destruct (Hes w r).
  - intros w Hw. by rewrite wrote_app, (wrote_quiet w es), app_nil_r, H5.
Qed.

Lemma caller_fans ws0 s s' : caller_step s s' → fans ws0 s → fans ws0 s'.
Proof using.
  intros Hs Hf. pose proof (f_nodup _ _ Hf) as [_ Hne]. destruct Hs; (eapply fans_same; [exact Hf|try done..]).
  - by destruct ok.
  - by destruct ok.
Qed.

Lemma boot_fans ws0 s s' : boot_step s s' → fans ws0 s → fans ws0 s'.
Proof using.
  intros Hs Hf. destruct Hs.
  - destruct Hf as [[H1 H1'] H2 H3 H4 H5]. split; cbn -[wrote root_writers] in *; try done.
    intros w Hw. rewrite decide_True by by eapply elem_of_prefix. rewrite H5 by done. by destruct H; subst.
  - destruct Hf as [[H1 H1'] H2 [H3 H3'] H4 H5]. split; cbn -[wrote root_writers] in *; try done.
    + apply NoDup_cons in H3 as [_ ?]. split; [done|set_solver].
    + intros v r0 [?|E]%elem_of_app; [eauto|]. apply list_elem_of_singleton in E as [= -> ->]. set_solver.
    + intros v Hv. rewrite wrote_app, H5 by done. apply NoDup_cons in H3 as [Hw _]. unfold wrote at 1. cbn.
      destruct (decide (v ∈ w :: ws)) as [Hin|Hin].
      * destruct (decide (w = v)) as [->|Hne]; [by rewrite decide_False, app_nil_r|].
        rewrite decide_True by set_solver. by rewrite !app_nil_r.
      * rewrite decide_False by set_solver. rewrite decide_False by set_solver. by rewrite app_nil_r.
  - destruct Hf as [[H1 H1'] H2 H3 H4 H5]. split; cbn -[wrote root_writers] in *; try done.
    + destruct d; cbn; split; try constructor; set_solver.
    + intros w Hw. rewrite H5 by done. rewrite decide_False by set_solver. destruct d; cbn; by rewrite app_nil_r.
  - eapply fans_events; [|done]. intros v r (w & [=] & _)%list_elem_of_fmap.
  - eapply fans_events; [|done]. intros v r (w & [=] & _)%list_elem_of_fmap.
  - destruct Hf as [[H1 H1'] H2 H3 H4 H5]. split; cbn -[wrote root_writers] in *; try done.
    + split; [constructor|set_solver].
    + intros w Hw. rewrite H5 by done. by destruct H; subst.
  - destruct Hf as [[H1 H1'] H2 H3 H4 H5]. split; cbn -[wrote root_writers] in *; try done.
    intros w Hw. rewrite decide_True by by eapply elem_of_prefix. by rewrite H5.
  - destruct Hf as [[H1 H1'] H2 H3 H4 H5]. split; cbn -[wrote root_writers] in *; done.
Qed.

Lemma close_fans ws0 s s' : close_step s s' → fans ws0 s → fans ws0 s'.
Proof using.
  intros Hs Hf. pose proof (f_nodup _ _ Hf) as [_ Hne]. destruct Hs.
  - eapply fans_same; [exact Hf|cbn; by apply root_alter|cbn; by apply alter_nonempty|done..].
  - eapply fans_same; [exact Hf|cbn; by apply root_alter|cbn; by apply alter_nonempty|done..].
  - by eapply fans_same; [exact Hf|..].
  - eapply fans_events; [|done]. intros v r. set_solver.
  - by eapply fans_same; [exact Hf|..].
Qed.

Lemma config_fans ws0 s s' : config_step s s' → fans ws0 s → fans ws0 s'.
Proof using.
  intros Hs Hf. pose proof (f_nodup _ _ Hf) as [Hnd Hne]. destruct Hs.
  - eapply fans_same; [exact Hf|cbn; by apply root_app|cbn; by destruct (loggers cf0)|done..].
  - cbn -[root_writers] in *. destruct (decide (l = 0%nat)) as [->|Hl].
    + set (cf' := mkConf _ _ _ _). assert (Hrw : root_writers cf' = root_writers cf0 ++ [w]).
      { unfold root_writers, the, cf' in *. cbn. destruct (loggers cf0); done. }
      destruct Hf as [[H1 H1'] H2 [H3 H3'] H4 H5]. split; cbn -[wrote root_writers in_hand_of] in *; rewrite ?Hrw; try done.
      * split; [|by apply alter_nonempty]. apply NoDup_app. split_and!; [done|set_solver|]. constructor; [set_solver|constructor].
      * by apply prefix_app_r.
      * split; [done|]. intros v Hv. apply elem_of_app. auto.
      * intros v r Hv. apply elem_of_app. eauto.
    + eapply fans_same; [exact Hf| |cbn; by apply alter_nonempty|done..]. unfold root_writers, the. cbn. by rewrite list_lookup_alter_ne.
  - by eapply fans_same; [exact Hf|..].
  - eapply fans_same; [exact Hf|cbn; by apply root_alter|cbn; by apply alter_nonempty|done..].
  - eapply fans_same; [exact Hf|cbn; by apply root_alter|cbn; by apply alter_nonempty|done..].
Qed.

Lemma run_fans ws seq0 s : NoDup ws → rtc step (start ws seq0) s → fans ws s.
Proof using.
  intros Hn Hs. assert (Hf : fans ws (start ws seq0)).
  { split; cbn; [by split|done| |set_solver|done]. split; [constructor|set_solver]. }
  induction Hs as [|s1 s2 s3 Hs _ IH]; [done|]. apply IH.
  destruct Hs as [Hs|[Hs|[Hs|Hs]]]; [by eapply caller_fans|by eapply boot_fans|by eapply close_fans|by eapply config_fans].
Qed.

(** *** Closing *)

Definition open_boot (b : bpc) : Prop := match b with BFirst | BLoop | BDelivering _ _ false => True | _ => False end.

(** No writer is stopped in the first part and none is written to in the second. *)
Definition ordered (es : list event) : Prop :=
  ∃ e1 e2, es = e1 ++ e2 ∧ (∀ w, Stopped w ∉ e1) ∧ (∀ w r, Wrote w r ∉ e2).

Record closes (s : sys) : Prop := {
  z_open : quit (ch s) = false → closers s = [] ∧ mark (gl s) = None ∧ open_boot (boot s) ∧ c (ch s) = false;
  z_signal : c (ch s) = true → boot s = BEnded;
  z_stopping : Forall (λ k, match k with KWaiting _ => True | _ => boot s = BEnded end) (closers s);
  z_stopped : ∀ w, Stopped w ∈ events (gl s) → boot s = BEnded;
  z_order : ordered (events (gl s));
  z_mark : ∀ m, mark (gl s) = Some m → m `prefix_of` accepted (gl s) ∧ (boot s = BEnded → m `prefix_of` delivered (gl s)) }.

Lemma ordered_live es es' : (∀ w, Stopped w ∉ es) → (∀ w, Stopped w ∉ es') → ordered (es ++ es').
Proof using. intros H1 H2. exists (es ++ es'), []. rewrite app_nil_r. set_solver. Qed.
Lemma ordered_quiet es es' : ordered es → (∀ w r, Wrote w r ∉ es') → ordered (es ++ es').
Proof using. intros (e1 & e2 & -> & H1 & H2) H. exists e1, (e2 ++ es'). rewrite <- (assoc_L (++)). set_solver. Qed.

(** While the goroutine runs, it may call the writers, but stops none. *)
Lemma running_closes s s' es : boot s ≠ BEnded → boot s' ≠ BEnded → (open_boot (boot s) → quit (ch s) = false → open_boot (boot s')) →
  quit (ch s') = quit (ch s) → c (ch s') = c (ch s) → closers s' = closers s → mark (gl s') = mark (gl s) →
  accepted (gl s') = accepted (gl s) → events (gl s') = events (gl s) ++ es → (∀ w, Stopped w ∉ es) → closes s → closes s'.
Proof using.
  intros Hb Hb' Ho E1 E2 E3 E4 E5 E6 Hes [H1 H2 H3 H4 H5 H6]. assert (Hno : ∀ w, Stopped w ∉ events (gl s)) by (intros w Hw; by eapply Hb, H4).
  split; rewrite ?E1, ?E2, ?E3, ?E4, ?E5, ?E6.
  - intros E. destruct (H1 E) as (-> & ? & ? & ?). auto.
  - intros E. by apply H2 in E.
  - eapply Forall_impl; [exact H3|]. by intros [].
  - intros w [Hw|Hw]%elem_of_app; [by destruct (Hno w)|by destruct (Hes w)].
  - by apply ordered_live.
  - intros m Hm. destruct (H6 m Hm). by split.
Qed.

Lemma caller_closes s s' : caller_step s s' → closes s → closes s'.
Proof using.
  intros Hs [H1 H2 H3 H4 H5 H6]. destruct Hs; cbn in *; try by split.
  - destruct ok; by split.
  - split; cbn; try done. intros m Hm. destruct (H6 m Hm). split; [by apply prefix_app_r|done].
Qed.

Lemma boot_closes seq0 s s' : boot_step s s' → accounts seq0 s → closes s → closes s'.
Proof using.
  intros Hs Ha Hz. destruct Hs.
  - eapply (running_closes _ _ []); [..|exact Hz]; cbn; rewrite ?app_nil_r; try done; [by destruct H; subst|(clear; set_solver)].
  - eapply (running_closes _ _ [Wrote w r]); [..|exact Hz]; cbn; try done. (clear; set_solver).
  - eapply (running_closes _ _ []); [..|exact Hz]; cbn; rewrite ?app_nil_r; try done; [by destruct d|by destruct d|(clear; set_solver)].
  - eapply (running_closes _ _ (Flushed <$> root_writers cf0)); [..|exact Hz]; cbn; try done. (clear; set_solver).
  - eapply (running_closes _ _ (Rotated <$> root_writers cf0)); [..|exact Hz]; cbn; try done. (clear; set_solver).
  - eapply (running_closes _ _ []); [..|exact Hz]; cbn; rewrite ?app_nil_r; try done; [by destruct H; subst|(clear; set_solver)].
  - eapply (running_closes _ _ []); [..|exact Hz]; cbn; rewrite ?app_nil_r; try done. (clear; set_solver).
  - pose proof (a_chan _ _ Ha) as Hc. destruct Hz as [H1 H2 H3 H4 H5 H6]. cbn in *. rewrite app_nil_r in Hc. split; cbn; try done.
    + intros E. by destruct (H1 E) as (_ & _ & [] & _).
    + eapply Forall_impl; [exact H3|]. by intros [].
    + intros m Hm. destruct (H6 m Hm) as [Hp _]. split; [done|]. intros _. by rewrite <- Hc.
Qed.

Lemma close_closes s s' : close_step s s' → closes s → closes s'.
Proof using.
  intros Hs [H1 H2 H3 H4 H5 H6]. destruct Hs; cbn in *.
  - destruct (H1 eq_refl) as (-> & Hm & Ho & ->). split; cbn; try done.
    + by repeat constructor.
    + intros m [= <-]. split; [done|]. intros E. by rewrite E in Ho.
  - by split.
  - apply Forall_app in H3 as [Hk1 [_ Hk2]%Forall_cons]. split; cbn; try done.
    + intros E. destruct (H1 E) as [E' _]. by destruct k1.
    + apply Forall_app. split; [done|]. constructor; [by apply H2|done].
  - apply Forall_app in H3 as [Hk1 [He Hk2]%Forall_cons]. split; cbn; try done.
    + intros E. destruct (H1 E) as [E' _]. by destruct k1.
    + apply Forall_app. split; [done|]. by constructor.
    + apply ordered_quiet; [done|]. (clear; set_solver).
  - apply Forall_app in H3 as [Hk1 [He Hk2]%Forall_cons]. split; cbn; try done.
    + intros E. destruct (H1 E) as [E' _]. by destruct k1.
    + apply Forall_app. split; [done|]. by constructor.
Qed.

Lemma config_closes s s' : config_step s s' → closes s → closes s'.
Proof using. intros Hs [H1 H2 H3 H4 H5 H6]. destruct Hs; cbn in *; by split. Qed.

Lemma run_closes ws seq0 s : 0 ≤ seq0 < 2 ^ 64 → rtc step (start ws seq0) s → closes s.
Proof using.
  intros Hq Hs. assert (Hz : closes (start ws seq0)).
  { split; cbn; try done; [set_solver|]. exists [], []. set_solver. }
  pose proof (start_accounts ws seq0 Hq) as Ha. induction Hs as [|s1 s2 s3 Hs _ IH]; [done|].
  apply IH; destruct Hs as [Hs|[Hs|Hs]];
    [by eapply caller_closes|by eapply boot_closes|destruct Hs; [by eapply close_closes|by eapply config_closes]|
     by eapply caller_accounts|by eapply boot_accounts|by eapply other_accounts].
Qed.

(** Counts only grow. *)
Lemma step_grows s s' : step s s' → counted (gl s) `prefix_of` counted (gl s') ∧ delivered (gl s) `prefix_of` delivered (gl s').
Proof using.
  intros [Hs|[Hs|[Hs|Hs]]]; destruct Hs; cbn; try done; try (split; [done|by apply prefix_app_r]); try (split; [by apply prefix_app_r|done]).
  destruct ok; done.
Qed.
Lemma run_grows s s' : rtc step s s' → counted (gl s) `prefix_of` counted (gl s') ∧ delivered (gl s) `prefix_of` delivered (gl s').
Proof using. induction 1 as [|s1 s2 s3 Hs _ [IH1 IH2]]; [done|]. destruct (step_grows _ _ Hs). split; by etrans. Qed.
Lemma count_of_prefix l xs ys : xs `prefix_of` ys → 0 ≤ count_of l xs ≤ count_of l ys.
Proof using. intros [zs ->]. rewrite count_of_app. unfold count_of. lia. Qed.

(** The calls of a level that have not led to a written record. *)
Definition unwritten (l : Z) (s : sys) : Z :=
  count_of l (callers s ≫= caller_level) + count_of l (suppressed (gl s)) + count_of l (lvl_of <$> dropped (gl s)) +
  count_of l (lvl_of <$> hand (boot s) ++ records (ch s)).
Definition written_at (l : Z) (s : sys) : Z := count_of l (lvl_of <$> delivered (gl s)).

Lemma accounts_sum seq0 s l : accounts seq0 s → count_of l (counted (gl s)) = written_at l s + unwritten l s ∧ 0 ≤ written_at l s ∧ 0 ≤ unwritten l s.
Proof using.
  intros [_ _ Hlv _ _ _ Hc _ _]. unfold written_at, unwritten. split; [rewrite (count_of_perm _ _ _ Hlv), Hc, !fmap_app, !count_of_app; lia|].
  unfold count_of. lia.
Qed.
End system.

(** ** Theorems *)

Section theorems.
Context {A : Type} (float_text : Z → string) (error_text : A → option string) (marshal : A → option string) (cap : nat).
#[local] Notation lstep := (step float_text error_text marshal cap).

(** C21: the counters are exact under every interleaving of callers on any logger of the
    tree, the delivering goroutine, [Close], configuration, and the loads of [Metrics],
    which loads the two counters of a level at a moment [s1] and at a later moment [s2]:
    it reports as occurred the calls counted by [s1], as written the records given to all
    writers by [s2], and as dropped the calls counted by [s1] that had not led to a written
    record then (filtered or sampled out, refused because the logger was closed, still with
    their caller, in the channel or being delivered), less the records written between the
    two loads, or zero if those are more; while fewer than 2^64 calls were made. *)
Theorem logger_accounts ws seq0 (reads : list (sys * sys)) l s1 s2 : 0 ≤ seq0 < 2 ^ 64 → rtc lstep (start ws seq0) s1 → rtc lstep s1 s2 →
  level_ok l → reads !! Z.to_nat l = Some (s1, s2) → Z.of_nat (length (counted (gl s2))) < 2 ^ 64 →
  Metrics (prod_map mt mt <$> reads) !! Z.to_nat l =
    Some (count_of l (counted (gl s1)), written_at l s2, Z.max 0 (unwritten l s1 - (written_at l s2 - written_at l s1))) ∧
  count_of l (counted (gl s1)) = written_at l s1 + unwritten l s1 ∧ written_at l s1 ≤ written_at l s2.
Proof using.
  intros Hq Hs1 Hs2 Hl Hr Hn. assert (rtc lstep (start ws seq0) s2) as Hs by (by etrans).
  pose proof (run_accounts _ _ _ _ _ _ _ Hq Hs1) as Ha1. pose proof (run_accounts _ _ _ _ _ _ _ Hq Hs) as Ha2.
  destruct (accounts_sum _ _ l Ha1) as (Hsum1 & Hw1 & Hu1). destruct (accounts_sum _ _ l Ha2) as (Hsum2 & Hw2 & Hu2).
  destruct (run_grows _ _ _ _ _ _ Hs2) as [Hc Hd]. pose proof (count_of_prefix l _ _ Hc) as Hcc.
  assert (written_at l s1 ≤ written_at l s2) as Hww. { destruct Hd as [zs E]. unfold written_at. rewrite E, fmap_app. apply count_of_prefix. by apply prefix_app_r. }
  assert (Hb : count_of l (counted (gl s2)) < 2 ^ 64).
  { pose proof (length_filter (λ k, k = l) (counted (gl s2))). unfold count_of. lia. }
  split; [|done]. unfold Metrics. rewrite list_lookup_imap, list_lookup_fmap, Hr. cbn [fmap option_fmap option_map prod_map fst snd].
  destruct Ha1 as [[_ Ho] _ _ _ _ _ _ _ _]. destruct Ha2 as [_ [_ Hw] _ _ _ _ _ _ _].
  rewrite (Ho l Hl), (Hw l Hl). fold (written_at l s2). rewrite !u64_id by (unfold max_u64; lia).
  destruct (Z.leb_spec (written_at l s2) (count_of l (counted (gl s1)))); do 2 f_equal; lia.
Qed.

(** Every writer registered at the start is given every record that left the
    channel, exactly once and in the channel's order, none is given to a writer that is
    not registered on the root, and no two records have the same sequence number while
    fewer than 2^64 were built. *)
Theorem logger_fanout ws seq0 s : 0 ≤ seq0 < 2 ^ 64 → NoDup ws → rtc lstep (start ws seq0) s →
  (∀ w, w ∈ ws → wrote w (events (gl s)) = delivered (gl s) ++ in_hand_of w (boot s)) ∧
  accepted (gl s) = delivered (gl s) ++ hand (boot s) ++ records (ch s) ∧
  (∀ w r, Wrote w r ∈ events (gl s) → w ∈ root_writers (cf s)) ∧
  (Z.of_nat (length (built (gl s))) ≤ 2 ^ 64 → NoDup (seq_of <$> (dropped (gl s) ++ accepted (gl s)))).
Proof using.
  intros Hq Hn Hs. destruct (run_accounts _ _ _ _ _ _ _ Hq Hs) as [_ _ _ Hb Hsq _ Hc _ _]. destruct (run_fans _ _ _ _ _ _ _ Hn Hs) as [_ _ _ Ho Hw].
  split_and!; [done..|]. intros Hlen. assert (Hnd : NoDup (seq_of <$> built (gl s))).
  { rewrite Hsq. apply NoDup_fmap_2_strong; [|apply NoDup_seq]. intros i j Hi%elem_of_seq Hj%elem_of_seq E. unfold u64 in E.
    assert (∀ x y, x mod 2 ^ 64 = y mod 2 ^ 64 → - 2 ^ 64 < x - y < 2 ^ 64 → x = y) as Hmod.
    { intros x y Hxy Hd. Z.div_mod_to_equations. nia. }
    apply Hmod in E; lia. }
  rewrite Hb, fmap_app in Hnd. by apply NoDup_app in Hnd as (_ & _ & ?).
Qed.

(** [Close] loses nothing that was in the channel when it was called, and stops no
    writer too early: once a call of [Close] on any logger of the tree is past its wait,
    everything the channel had accepted when [quit] was closed has been given to every
    writer registered at the start, and the calls of the writers fall into a part in
    which none is stopped and a part in which none is written to. *)
Theorem logger_close ws seq0 s : 0 ≤ seq0 < 2 ^ 64 → NoDup ws → rtc lstep (start ws seq0) s →
  ordered (events (gl s)) ∧
  (∀ k m, k ∈ closers s → (∀ l, k ≠ KWaiting l) → mark (gl s) = Some m → ∀ w, w ∈ ws → m `prefix_of` wrote w (events (gl s))).
Proof using.
  intros Hq Hn Hs. destruct (run_closes _ _ _ _ _ _ _ Hq Hs) as [_ _ Hk _ Ho Hm]. destruct (run_fans _ _ _ _ _ _ _ Hn Hs) as [_ _ _ _ Hw].
  split; [done|]. intros k m Hin Hne Em w Hww. eapply Forall_forall in Hk; [|exact Hin].
  assert (boot s = BEnded) as Hb by (destruct k as [l| |]; [by destruct (Hne l)|done..]).
  destruct (Hm m Em) as [_ Hp]. rewrite Hw by done. by apply prefix_app_r, Hp.
Qed.
End theorems.

(** ** A run: a root with two writers, a clone, one record each, and [Close] *)

Section demo.
#[local] Notation dstep := (step (A := unit) (λ _, "") (λ _, None) (λ _, None) 4).
#[local] Notation dbuild := (build (A := unit) (λ _, "") (λ _, None) (λ _, None)).

Tactic Notation "now_caller" uconstr(r) := eapply rtc_l; [left; eapply r with (p1 := []) (p2 := []); try (cbn; lia); try done|cbn].
Tactic Notation "now_boot" uconstr(r) := eapply rtc_l; [right; left; eapply r; try (by left); try (by right); try done|cbn].
Tactic Notation "now_close" uconstr(r) := eapply rtc_l; [right; right; left; eapply r; try (cbn; lia); try done|cbn].
Tactic Notation "now_closer" uconstr(r) := eapply rtc_l; [right; right; left; eapply r with (k1 := []) (k2 := [])|cbn].
Ltac calls l lv m := eapply rtc_l; [left; apply (c_call _ _ _ _ _ _ _ _ _ _ _ l lv m); [cbn; lia|unfold level_ok; lia]|cbn].
Ltac builds fi ti na := eapply rtc_l; [left; eapply c_build with (p1 := []) (p2 := []) (file := fi) (t := ti) (nano := na)|cbn].

Definition demo_root : Logger := with_writers [1%nat; 2%nat] (newLogger (A := unit)).
Definition demo_rec : rec := mkRec (A := unit) (mkRecord 6 "t" "main.go:1" "hi" 5 1 []) None.

(** One record delivered to both writers and the logger closed. *)
Definition demo_closed : sys (A := unit) :=
  mkSys (mkConf [with_once demo_root] [] None 1) (mkChan [] true false)
    (mkMetrics [0; 0; 0; 0; 0; 0; 1; 0; 0] [0; 0; 0; 0; 0; 0; 1; 0; 0]) [] BEnded [KReturned]
    (mkLog [6] [] [demo_rec] [] [demo_rec] [demo_rec]
       [Wrote 1 demo_rec; Wrote 2 demo_rec; Flushed 1; Stopped 1; Flushed 2; Stopped 2] (Some [demo_rec]) false).

Lemma demo_closed_reachable : rtc dstep (start [1%nat; 2%nat] 0) demo_closed.
Proof.
  unfold start, newLogger, with_writers. cbn. calls 0%nat 6 "hi". now_caller c_count. now_caller c_pass. now_caller c_unsampled.
  builds "main.go:1" "t" 5. now_caller c_send. now_close (k_close _ _ _ _ _ _ _ _ 0%nat). now_boot b_take. now_boot b_write. now_boot b_write.
  now_boot b_written. now_boot b_quit. now_boot b_end. now_closer k_signalled. now_closer k_stop. now_closer k_stop. now_closer k_return.
  apply rtc_refl.
Qed.

(** The counters of a level are loaded before and after the run. *)
Definition demo_reads : list (sys (A := unit) * sys (A := unit)) :=
  replicate 6 (start [1%nat; 2%nat] 0, start [1%nat; 2%nat] 0) ++ [(start [1%nat; 2%nat] 0, demo_closed)] ++ replicate 2 (demo_closed, demo_closed).

Lemma logger_accounts_witness : Metrics (prod_map mt mt <$> demo_reads) !! 6%nat = Some (0, 1, 0) ∧ written_at 6 (start (A := unit) [1%nat; 2%nat] 0) ≤ written_at 6 demo_closed.
Proof.
  destruct (logger_accounts (λ _, "") (λ _, None) (λ _, None) 4 [1%nat; 2%nat] 0 demo_reads 6 (start [1%nat; 2%nat] 0) demo_closed) as (Hm & _ & Hc);
    [lia|apply rtc_refl|apply demo_closed_reachable|unfold level_ok; lia|reflexivity|cbn; lia|]. split; [exact Hm|exact Hc].
Defined.

Lemma logger_fanout_witness : wrote 1 (events (gl demo_closed)) = [demo_rec] ∧ wrote 2 (events (gl demo_closed)) = [demo_rec].
Proof.
  destruct (logger_fanout (λ _, "") (λ _, None) (λ _, None) 4 [1%nat; 2%nat] 0 demo_closed) as (Hw & _);
    [lia|apply (bool_decide_unpack _); vm_compute; exact I|apply demo_closed_reachable|].
  split; [apply (Hw 1%nat)|apply (Hw 2%nat)]; set_solver.
Defined.

Lemma logger_close_witness : ordered (events (gl demo_closed)) ∧ [demo_rec] `prefix_of` wrote 2 (events (gl demo_closed)).
Proof.
  destruct (logger_close (λ _, "") (λ _, None) (λ _, None) 4 [1%nat; 2%nat] 0 demo_closed) as [Ho Hk];
    [lia|apply (bool_decide_unpack _); vm_compute; exact I|apply demo_closed_reachable|].
  split; [exact Ho|]. apply (Hk KReturned [demo_rec]); [set_solver|discriminate|reflexivity|set_solver].
Defined.

(** [Close] on the root and on a clone of it. *)
Example double_close_panics : ∃ s, rtc dstep (start [] 0) s ∧ panicked (gl s) = true.
Proof.
  eexists. split.
  - unfold start, newLogger, with_writers. cbn. eapply rtc_l; [right; right; right; apply (n_clone _ _ _ _ _ _ _ 0%nat); [cbn; lia|by exists [], None]|cbn].
    now_close (k_close _ _ _ _ _ _ _ _ 0%nat). now_close (k_panic _ _ _ _ _ _ _ _ 1%nat). apply rtc_refl.
  - done.
Qed.

(** A writer registered on a clone, and a record logged through it. *)
Example child_register_silent : ∃ s, rtc dstep (start [] 0) s ∧ writers (the 1 (cf s)) = [7%nat] ∧
  length (delivered (gl s)) = 1%nat ∧ events (gl s) = [].
Proof.
  eexists. split.
  - unfold start, newLogger, with_writers. cbn. eapply rtc_l; [right; right; right; apply (n_clone _ _ _ _ _ _ _ 0%nat); [cbn; lia|by exists [], None]|cbn].
    eapply rtc_l; [right; right; right; apply (n_register _ _ _ _ _ _ _ 1%nat 7%nat); cbn; set_solver|cbn].
    calls 1%nat 6 "hi". now_caller c_count. now_caller c_pass. now_caller c_unsampled. builds "" "t" 5. now_caller c_send.
    now_boot b_take. now_boot b_written. apply rtc_refl.
  - by split_and!.
Qed.
End demo.
