(* ===== verification/KafkaPayload.v ===== *)
(** * KafkaPayload: what the Kafka writer sends ([log4go/kafka_writer.go], [kafka_proto.go])

    [buildPayload] gathers a record and the writer's own fields, and one of two codecs
    renders them: a JSON object or a protobuf message.  As in Logline.v the texts of
    floats, errors and other values come from parameters.

    Shown: the JSON payload is one object with each framework member exactly once,
    whatever the user's fields are called, and the routing members at most once
    ([payload_json_roundtrip]); the protobuf payload decodes, by a reader of the wire
    format defined here, to the members of the schema, with the time stamp of the JSON
    form ([timestampISO_matches]), and the values of the scalar fields are what the
    schema promises ([payload_proto_roundtrip]); those of byte slices, durations, times
    and other values are not ([proto_bytes_not_json]).  [base_beats_with] shows that of two fields with the same
    key the older one decides where the record goes. *)

From Stdlib Require Import ZArith Lia Ascii String.
From stdpp Require Import base tactics numbers list strings sets.
From S2P Require Import Prelude GoStd Calendar Logline.

#[local] Open Scope string_scope.
#[local] Open Scope list_scope.
#[local] Open Scope Z_scope.

Section payload.
Context {A : Type}.
Context (float_text : Z → string) (error_text : A → option string) (marshal : A → option string).

Record kafkaPayload := mkPayload {
  UnixNano : Z; Seq : Z; Level : string; File : string; Message : string; ServerIP : string; Now : Z;
  ESIndex : string; userFields : list (@field A) }.

Definition kafkaReservedKey (k : string) : bool :=
  bool_decide (k ∈ ["unix_nano"; "seq"; "level"; "file"; "message"; "timestamp"; "now"]).

Fixpoint appendRoutingField (buf : string) (k : string) (fs : list (@field A)) (fallback : string) : string :=
  match fs with
  | f :: fs => if String.eqb (key f) k then appendFieldJSON float_text error_text marshal (buf +:+ ",") f else appendRoutingField buf k fs fallback
  | [] => match fallback with
          | EmptyString => buf
          | _ => appendJSONQuoted (buf +:+ member k) fallback
          end
  end.

(** The loop over the remaining user fields. *)
Definition skipped (f : @field A) : bool :=
  kafkaReservedKey (key f) || String.eqb (key f) "server_ip" || String.eqb (key f) "es_index".
Fixpoint user_loop (buf : string) (fs : list (@field A)) : string :=
  match fs with
  | [] => buf
  | f :: fs => user_loop (if skipped f then buf else appendFieldJSON float_text error_text marshal (buf +:+ ",") f) fs
  end.

Definition MarshalJSON (p : kafkaPayload) : string :=
  let buf := "{" +:+ String dquote "unix_nano" +:+ String dquote ":" in
  let buf := buf +:+ Itoa (UnixNano p) in
  let buf := buf +:+ member "seq" +:+ utoa (Seq p) in
  let buf := appendJSONQuoted (buf +:+ member "level") (Level p) in
  let buf := match File p with EmptyString => buf | f => appendJSONQuoted (buf +:+ member "file") f end in
  let buf := appendJSONQuoted (buf +:+ member "message") (Message p) in
  let buf := appendISOTimeUTC (buf +:+ member "timestamp" +:+ String dquote "") (UnixNano p) +:+ String dquote "" in
  let buf := buf +:+ member "now" +:+ Itoa (Now p) in
  let buf := appendRoutingField buf "server_ip" (userFields p) (ServerIP p) in
  let buf := appendRoutingField buf "es_index" (userFields p) (ESIndex p) in
  user_loop buf (userFields p) +:+ "}".

(** ** Building the payload *)

(** [MSG]; [ExtraFields] are the fields made from the map in the order of its
    iteration. *)
Record KafkaMSGFields := mkMSG { msg_ServerIP : string; msg_ESIndex : string; ExtraFields : list (@field A) }.

(** The two loops that keep the first field of each key. *)
Fixpoint dedup (seen : list string) (fs : list (@field A)) : list (@field A) :=
  match fs with
  | [] => []
  | f :: fs => if bool_decide (key f ∈ seen) then dedup seen fs else f :: dedup (key f :: seen) fs
  end.

Definition user_fields (rf ef : list (@field A)) : list (@field A) :=
  match rf, ef with
  | _ :: _, [] => rf
  | [], _ :: _ => ef
  | _ :: _, _ => dedup [] (rf ++ ef)
  | [], [] => []
  end.

Definition buildPayload (o : KafkaMSGFields) (r : @LogRecord A) : kafkaPayload :=
  mkPayload (unixNano r) (seq r) (levelFlag (level r)) (file r) (msg r) (msg_ServerIP o) (Z.quot (unixNano r) (10 ^ 9))
    (msg_ESIndex o) (user_fields (fields r) (ExtraFields o)).

(** ** The JSON form reads back *)

Context (any_json : A → json).
Context (Hfloat : ∀ bits, finite bits → reads (float_text bits) (JNum (float_text bits))).
Context (Hmarshal : ∀ a t, marshal a = Some t → reads t (any_json a)).

#[local] Notation fmember := (field_member float_text error_text marshal).
#[local] Notation fpair := (field_pair float_text error_text marshal any_json).

Definition first_of (k : string) (fs : list (@field A)) : option (@field A) := list_find (λ f, key f = k) fs ≫= λ p, Some p.2.

Definition routing_pairs (k : string) (fs : list (@field A)) (fallback : string) : list (string * json) :=
  match first_of k fs with
  | Some f => [fpair f]
  | None => match fallback with EmptyString => [] | _ => [(k, JStr fallback)] end
  end.
Definition routing_members (k : string) (fs : list (@field A)) (fallback : string) : list (string * string) :=
  match first_of k fs with
  | Some f => [fmember f]
  | None => match fallback with EmptyString => [] | _ => [(k, appendJSONQuoted "" fallback)] end
  end.

(** What a payload means. *)
Definition payload_pairs (p : kafkaPayload) : list (string * json) :=
  [("unix_nano", JNum (Itoa (UnixNano p))); ("seq", JNum (utoa (Seq p))); ("level", JStr (Level p))] ++
  match File p with EmptyString => [] | f => [("file", JStr f)] end ++
  [("message", JStr (Message p)); ("timestamp", JStr (appendISOTimeUTC "" (UnixNano p))); ("now", JNum (Itoa (Now p)))] ++
  routing_pairs "server_ip" (userFields p) (ServerIP p) ++ routing_pairs "es_index" (userFields p) (ESIndex p) ++
  (fpair <$> filter (λ f, skipped f = false) (userFields p)).
Definition payload_members (p : kafkaPayload) : list (string * string) :=
  [("unix_nano", Itoa (UnixNano p)); ("seq", utoa (Seq p)); ("level", appendJSONQuoted "" (Level p))] ++
  match File p with EmptyString => [] | f => [("file", appendJSONQuoted "" f)] end ++
  [("message", appendJSONQuoted "" (Message p)); ("timestamp", String dquote "" +:+ appendISOTimeUTC "" (UnixNano p) +:+ String dquote "");
   ("now", Itoa (Now p))] ++
  routing_members "server_ip" (userFields p) (ServerIP p) ++ routing_members "es_index" (userFields p) (ESIndex p) ++
  (fmember <$> filter (λ f, skipped f = false) (userFields p)).

Record payload_ok (p : kafkaPayload) : Prop := {
  p_nano : in_i64 (UnixNano p); p_seq : 0 ≤ Seq p; p_fields : Forall field_ok (userFields p) }.

Lemma user_loop_text buf fs : user_loop buf fs = buf +:+ more (fmember <$> filter (λ f, skipped f = false) fs).
Proof using.
  revert buf. induction fs as [|f fs IH]; intros buf; cbn [user_loop]; [by rewrite app_nil_r_str|]. rewrite IH.
  destruct (skipped f) eqn:E.
  - rewrite filter_cons_False by congruence. done.
  - rewrite filter_cons_True by done. rewrite appendFieldJSON_text, fmap_cons. cbn [more]. by rewrite <- !app_assoc_str.
Qed.

Lemma escape_routing k : k = "server_ip" ∨ k = "es_index" → escape k = k.
Proof using. by intros [-> | ->]. Qed.

Lemma appendQuoted_app buf s : appendJSONQuoted buf s = buf +:+ appendJSONQuoted "" s.
Proof using. by rewrite !appendJSONQuoted_text. Qed.

Lemma appendRoutingField_text buf k fs fallback : k = "server_ip" ∨ k = "es_index" →
  appendRoutingField buf k fs fallback = buf +:+ more (routing_members k fs fallback).
Proof using.
  intros Hk. unfold routing_members, first_of. induction fs as [|f fs IH]; cbn [appendRoutingField list_find].
  - destruct fallback as [|c s]; cbn [mbind option_bind more]; [by rewrite app_nil_r_str|].
    rewrite (appendQuoted_app (_ +:+ _)). unfold member, mem_text. cbn [fst snd]. rewrite escape_routing by done.
    rewrite (app_nil_r_str (_ +:+ _)). by strnorm.
  - destruct (String.eqb_spec (key f) k) as [E|E].
    + rewrite decide_True by done. cbn [mbind option_bind fst snd more]. rewrite appendFieldJSON_text. by rewrite <- !app_assoc_str, app_nil_r_str.
    + rewrite decide_False by done. rewrite IH. by destruct (list_find _ fs) as [[??]|].
Qed.

Lemma MarshalJSON_text p : MarshalJSON p = "{" +:+ join (payload_members p) +:+ "}".
Proof using.
  unfold MarshalJSON, payload_members. cbn [join app more]. rewrite user_loop_text, !appendRoutingField_text by auto.
  rewrite !more_app. rewrite (appendISOTimeUTC_app (_ +:+ _)). generalize (appendISOTimeUTC "" (UnixNano p)). intros iso.
  destruct (File p) as [|c f];
  repeat match goal with |- context [appendJSONQuoted (?b +:+ ?x) ?s] => rewrite (appendQuoted_app (b +:+ x) s) end;
  unfold member, mem_text; cbn [fst snd more app]; rewrite ?more_app; unfold mem_text; cbn [fst snd]; rewrite <- !app_assoc_str; reflexivity.
Qed.

Lemma first_of_spec k fs f : first_of k fs = Some f → f ∈ fs ∧ key f = k.
Proof using.
  unfold first_of. destruct (list_find _ fs) as [[j g]|] eqn:E; [|done]. intros [= <-].
  apply list_find_Some in E as (Hj & Hk & _). split; [by eapply list_elem_of_lookup_2|done].
Qed.

Lemma routing_read k fs fallback : Forall field_ok fs →
  Forall2 member_reads (routing_members k fs fallback) (routing_pairs k fs fallback).
Proof using Hfloat Hmarshal.
  intros Hfs. unfold routing_members, routing_pairs. destruct (first_of k fs) as [f|] eqn:E.
  - apply first_of_spec in E as [Hf _]. constructor; [|constructor]. split; [done|].
    apply reads_value; [done..|]. by eapply Forall_forall in Hfs.
  - destruct fallback; constructor; [|constructor]. split; [done|]. apply reads_quoted.
Qed.

Lemma payload_read p : payload_ok p → Forall2 member_reads (payload_members p) (payload_pairs p).
Proof using Hfloat Hmarshal.
  intros [Hn Hs Hf]. unfold payload_members, payload_pairs.
  apply Forall2_app; [repeat constructor; [apply reads_Itoa|by apply reads_utoa|apply reads_quoted]|].
  apply Forall2_app; [destruct (File p); repeat constructor; apply reads_quoted|].
  apply Forall2_app; [repeat constructor; [apply reads_quoted|by apply reads_iso|apply reads_Itoa]|].
  apply Forall2_app; [by apply routing_read|]. apply Forall2_app; [by apply routing_read|].
  apply Forall2_fmap, Forall_Forall2_diag. apply Forall_forall. intros f [_ Hin]%list_elem_of_filter. split; [done|].
  apply reads_value; [done..|]. by eapply Forall_forall in Hf.
Qed.

(** How often a key occurs. *)
Definition times (k : string) (l : list (string * json)) : nat := length (filter (λ kv, kv.1 = k) l).

Lemma times_app k l l' : times k (l ++ l') = (times k l + times k l')%nat.
Proof using. unfold times. by rewrite filter_app, length_app. Qed.
Lemma times_none k l : Forall (λ kv, kv.1 ≠ k) l → times k l = 0%nat.
Proof using.
  unfold times. induction 1 as [|kv l Hk _ IH]; [done|]. by rewrite filter_cons_False.
Qed.

Lemma times_routing k k' fs fallback : times k (routing_pairs k' fs fallback) = 0%nat ∨
  k = k' ∧ (times k (routing_pairs k' fs fallback) ≤ 1)%nat.
Proof using.
  destruct (decide (k = k')) as [->|Hk]; [right; split; [done|]|left; apply times_none]; unfold routing_pairs;
    destruct (first_of k' fs) as [f|] eqn:E; try (apply first_of_spec in E as [_ <-]); try (destruct fallback);
    unfold times; cbn; try lia; try (repeat constructor; cbn; congruence); case_decide; cbn; lia.
Qed.

Lemma times_user k fs : kafkaReservedKey k = true ∨ k = "server_ip" ∨ k = "es_index" →
  times k (fpair <$> filter (λ f, skipped f = false) fs) = 0%nat.
Proof using.
  intros Hk. apply times_none, Forall_fmap, Forall_forall. intros f [Hs _]%list_elem_of_filter. cbn. intros <-.
  unfold skipped in Hs. rewrite !orb_false_iff, !String.eqb_neq in Hs. naive_solver congruence.
Qed.
End payload.

(** The JSON payload is one object that says what the record says, whatever the
    fields contain or are called: its members are, in order, the framework members
    from the record, the routing members and the other fields; a framework member
    occurs exactly once ("file": when there is one), a routing member at most once. *)
Theorem payload_json_roundtrip {A} float_text (error_text : A → option string) marshal any_json p :
  (∀ bits, finite bits → reads (float_text bits) (JNum (float_text bits))) →
  (∀ a t, marshal a = Some t → reads t (any_json a)) →
  payload_ok p →
  let pairs := payload_pairs float_text error_text marshal any_json p in
  (∃ n, ∀ fuel, (n ≤ fuel)%nat → read_value fuel (MarshalJSON float_text error_text marshal p) = Some (JObj pairs, "")) ∧
  (∀ k, kafkaReservedKey k = true → times k pairs = if String.eqb k "file" && String.eqb (File p) "" then 0%nat else 1%nat) ∧
  (times "server_ip" pairs ≤ 1 ∧ times "es_index" pairs ≤ 1)%nat.
Proof.
  intros Hfl Hma Hp pairs. split_and!.
  - pose proof (payload_read float_text error_text marshal any_json Hfl Hma p Hp) as Hm.
    destruct (payload_members float_text error_text marshal p) as [|kt ms] eqn:E; [discriminate E|].
    apply Forall2_cons_inv_l in Hm as (kv & vs & Hh & Ht & Hpairs). fold pairs in Hpairs. rewrite Hpairs.
    destruct (reads_object kt ms kv vs Hh Ht) as [n Hn].
    exists n. intros fuel Hle. rewrite MarshalJSON_text, E, <- (app_nil_r_str ("{" +:+ _)). by apply Hn.
  - intros k Hk. unfold pairs, payload_pairs. rewrite !times_app, times_user by auto.

    destruct (times_routing float_text error_text marshal any_json k "server_ip" (userFields p) (ServerIP p)) as [->|[-> _]]; [|by vm_compute in Hk].
    destruct (times_routing float_text error_text marshal any_json k "es_index" (userFields p) (ESIndex p)) as [->|[-> _]]; [|by vm_compute in Hk].
    unfold kafkaReservedKey in Hk. apply bool_decide_eq_true in Hk. repeat (apply elem_of_cons in Hk as [->|Hk]); [..|by apply not_elem_of_nil in Hk]; by destruct (File p).
  - unfold pairs, payload_pairs. rewrite !times_app, !times_user by auto.
    pose proof (times_routing float_text error_text marshal any_json "server_ip" "server_ip" (userFields p) (ServerIP p)).
    pose proof (times_routing float_text error_text marshal any_json "server_ip" "es_index" (userFields p) (ESIndex p)) as [?|[? _]]; [|done].
    repeat match goal with H : context [times ?k ?l] |- _ => generalize dependent (times k l); intros end.
    destruct (File p); rewrite !times_none by (repeat (constructor; try done)); lia.
  - unfold pairs, payload_pairs. rewrite !times_app, !times_user by auto.
    pose proof (times_routing float_text error_text marshal any_json "es_index" "es_index" (userFields p) (ESIndex p)).
    pose proof (times_routing float_text error_text marshal any_json "es_index" "server_ip" (userFields p) (ServerIP p)) as [?|[? _]]; [|done].
    repeat match goal with H : context [times ?k ?l] |- _ => generalize dependent (times k l); intros end.
    destruct (File p); rewrite !times_none by (repeat (constructor; try done)); lia.
Qed.

(** ** Protobuf *)

(** The loop of [appendVarint]: ten rounds are enough for 64 bits. *)
Fixpoint varint_loop (fuel : nat) (buf : string) (v : Z) : string :=
  match fuel with
  | O => buf
  | S fuel => if 128 <=? v then varint_loop fuel (buf +:+ String (chr (Z.lor (u8 v) 128)) "") (Z.shiftr v 7)
              else buf +:+ String (chr (u8 v)) ""
  end.
Definition appendVarint (buf : string) (v : Z) : string := varint_loop 10 buf v.
Definition appendTag (buf : string) (fieldno wireType : Z) : string :=
  appendVarint buf (Z.lor (u64 (Z.shiftl fieldno 3)) wireType).
Definition appendString (buf : string) (fieldno : Z) (s : string) : string :=
  appendVarint (appendTag buf fieldno 2) (u64 (str_len s)) +:+ s.
Definition appendBytesField (buf : string) (fieldno : Z) (b : string) : string :=
  appendVarint (appendTag buf fieldno 2) (u64 (str_len b)) +:+ b.
Definition appendInt64Field (buf : string) (fieldno v : Z) : string := appendVarint (appendTag buf fieldno 0) (u64 v).
Definition appendUint64Field (buf : string) (fieldno v : Z) : string := appendVarint (appendTag buf fieldno 0) v.

(** [time.Format] with the layout [2006-01-02T15:04:05.000000Z07:00] in UTC. *)
Definition timestampISOFromUnixNano (unixNano : Z) : string :=
  let t := Unix_UTC 0 unixNano in
  pad0 4 (Year (Date t)) +:+ "-" +:+ pad0 2 (Month (Date t)) +:+ "-" +:+ pad0 2 (Day (Date t)) +:+ "T" +:+ pad0 2 (Hour t) +:+ ":" +:+
  pad0 2 (Minute t) +:+ ":" +:+ pad0 2 (Second t) +:+ "." +:+ pad0 6 (Z.quot (Nanosecond t) 1000) +:+ "Z".

(** The dynamic type of a value, as far as the code tells types apart. *)
Inductive dyn := DString (s : string) | DInt (z : Z) | DUint (z : Z) | DFloat (bits : Z) | DBool (b : bool) | DNil | DOther (text : string).

Fixpoint spaced (s : string) : string :=
  match s with
  | EmptyString => ""
  | String c EmptyString => utoa (byte_of c)
  | String c s => utoa (byte_of c) +:+ " " +:+ spaced s
  end.

Section proto.
Context {A : Type}.
(** [strconv.FormatFloat(_, 'f', -1, 64)]; base64; the texts that [%v] gives for a
    duration and a time; the type of another value, with its [%v] text. *)
Context (format_float : Z → string) (b64_decode : string → option string) (dur_text time_text : Z → string) (dynamic : A → dyn).

Definition value (f : @field A) : dyn :=
  match kind f with
  | kindString => DString (str f)
  | kindInt | kindInt64 => DInt (i f)
  | kindUint => DUint (u64 (i f))
  | kindBool => DBool (i f =? 1)
  | kindFloat64 => DFloat (u64 (i f))
  | kindDuration => DOther (dur_text (i f))
  | kindTime => DOther (time_text (i f))
  | kindBytes => match b64_decode (str f) with Some b => DOther ("[" +:+ spaced b +:+ "]") | None => DNil end
  | kindError | kindAny => dynamic (any f)
  end.

Definition scalarToJSON (v : dyn) : string :=
  match v with
  | DInt z => Itoa z
  | DUint z => utoa z
  | DFloat b => format_float b
  | DBool b => if b then "true" else "false"
  | DNil => "null"
  | DString s | DOther s => s
  end.

Definition proto_value (f : @field A) : string := match value f with DString s => s | v => scalarToJSON v end.

Definition appendFieldProto (buf : string) (f : @field A) : string :=
  let sub := appendString "" 1 (key f) in
  let sub := appendString sub 2 (proto_value f) in
  appendBytesField buf 10 sub.

(** [if s != ""]. *)
Definition appendNonEmpty (buf : string) (fieldno : Z) (s : string) : string :=
  match s with EmptyString => buf | _ => appendString buf fieldno s end.

Definition Encode (p : @kafkaPayload A) : string :=
  let buf := appendInt64Field "" 1 (UnixNano p) in
  let buf := appendUint64Field buf 2 (Seq p) in
  let buf := appendNonEmpty buf 3 (Level p) in
  let buf := appendNonEmpty buf 4 (File p) in
  let buf := appendNonEmpty buf 5 (Message p) in
  let buf := appendString buf 6 (timestampISOFromUnixNano (UnixNano p)) in
  let buf := appendInt64Field buf 7 (Now p) in
  let buf := appendNonEmpty buf 8 (ServerIP p) in
  let buf := appendNonEmpty buf 9 (ESIndex p) in
  foldl appendFieldProto buf (userFields p).
End proto.

(** *** A reader of the wire format and of the schema [proto/log_record.proto] *)

Inductive wire := WVarint (v : Z) | WLen (s : string).

Fixpoint read_varint (s : string) : option (Z * string) :=
  match s with
  | EmptyString => None
  | String c r =>
      if byte_of c <? 128 then Some (byte_of c, r)
      else '(v, r) ← read_varint r; Some (byte_of c - 128 + 128 * v, r)
  end.
Fixpoint take_bytes (n : nat) (s : string) : option (string * string) :=
  match n, s with
  | O, _ => Some ("", s)
  | S n, String c r => '(a, r) ← take_bytes n r; Some (String c a, r)
  | S n, EmptyString => None
  end.
Definition read_field (s : string) : option (Z * wire * string) :=
  '(tag, r) ← read_varint s;
  if tag mod 8 =? 0 then '(v, r) ← read_varint r; Some (tag / 8, WVarint v, r)
  else if tag mod 8 =? 2 then '(n, r) ← read_varint r; '(b, r) ← take_bytes (Z.to_nat n) r; Some (tag / 8, WLen b, r)
  else None.
(** Every field takes at least one byte. *)
Fixpoint read_message (fuel : nat) (s : string) : option (list (Z * wire)) :=
  match s, fuel with
  | EmptyString, _ => Some []
  | _, O => None
  | _, S fuel => '(n, w, r) ← read_field s; l ← read_message fuel r; Some ((n, w) :: l)
  end.

Record LogRecordProto := mkProto {
  x_unix_nano : Z; x_seq : Z; x_level : string; x_file : string; x_message : string; x_timestamp : string; x_now : Z;
  x_server_ip : string; x_es_index : string; x_fields : list (string * string) }.

Definition set_entry (kv : string * string) (e : Z * wire) : option (string * string) :=
  match e with
  | (1, WLen s) => Some (s, kv.2)
  | (2, WLen s) => Some (kv.1, s)
  | _ => None
  end.
Definition read_entry (s : string) : option (string * string) :=
  l ← read_message (String.length s) s; foldl (λ kv e, kv ← kv; set_entry kv e) (Some ("", "")) l.

Definition set_member (x : LogRecordProto) (e : Z * wire) : option LogRecordProto :=
  let '(mkProto u q l f m t n si ei fs) := x in
  match e with
  | (1, WVarint v) => Some (mkProto (i64 v) q l f m t n si ei fs)
  | (2, WVarint v) => Some (mkProto u v l f m t n si ei fs)
  | (3, WLen s) => Some (mkProto u q s f m t n si ei fs)
  | (4, WLen s) => Some (mkProto u q l s m t n si ei fs)
  | (5, WLen s) => Some (mkProto u q l f s t n si ei fs)
  | (6, WLen s) => Some (mkProto u q l f m s n si ei fs)
  | (7, WVarint v) => Some (mkProto u q l f m t (i64 v) si ei fs)
  | (8, WLen s) => Some (mkProto u q l f m t n s ei fs)
  | (9, WLen s) => Some (mkProto u q l f m t n si s fs)
  | (10, WLen s) => kv ← read_entry s; Some (mkProto u q l f m t n si ei (fs ++ [kv]))
  | _ => None
  end.
Definition read_record (s : string) : option LogRecordProto :=
  l ← read_message (String.length s) s;
  foldl (λ x e, x ← x; set_member x e) (Some (mkProto 0 0 "" "" "" "" 0 "" "" [])) l.

Definition demo_dyn (_ : unit) : dyn := DOther "<nil>".
Definition demo_payload : @kafkaPayload unit :=
  mkPayload (-5) 300 "INFO" "" "m" "10.0.0.1" (-1) "" [mkField "k" kindInt (-42) "" (); mkField "b" kindBool 1 "" ()].

Example demo_payload_read : read_record (Encode (λ _, "") (λ _, None) (λ _, "") (λ _, "") demo_dyn demo_payload) =
  Some (mkProto (-5) 300 "INFO" "" "m" "1969-12-31T23:59:59.999999Z" (-1) "10.0.0.1" "" [("k", "-42"); ("b", "true")]).
Proof. vm_compute. reflexivity. Qed.

(** *** Proofs *)

Lemma varint_loop_app fuel buf v : varint_loop fuel buf v = buf +:+ varint_loop fuel "" v.
Proof.
  revert buf v. induction fuel as [|fuel IH]; intros buf v; cbn [varint_loop]; [by rewrite app_nil_r_str|].
  destruct (128 <=? v); [|by rewrite app_nil_l_str]. rewrite IH, (IH (_ +:+ String _ _) _). by strnorm.
Qed.

Lemma lor_high a : 0 ≤ a < 128 → Z.lor a 128 = a + 128.
Proof.
  intros Ha. pose proof (Z.add_lor_land a 128) as H. assert (Z.land a 128 = 0); [|lia].
  apply Z.bits_inj'. intros n Hn. rewrite Z.land_spec, Z.bits_0. change 128 with (2 ^ 7). rewrite Z.pow2_bits_eqb by lia.
  destruct (Z.eqb_spec 7 n) as [<-|]; [|apply andb_false_r]. rewrite andb_true_r. apply (Z.bounded_iff_bits_nonneg 7 a); lia.
Qed.
Lemma byte_high v : Z.lor (v mod 2 ^ 8) 128 = v mod 128 + 128.
Proof.
  assert (0 ≤ v mod 128 < 128) by (apply Z.mod_pos_bound; lia). rewrite <- (lor_high (v mod 128)) by done.
  destruct (decide ((v / 128) mod 2 = 0)).
  - f_equal. change (2 ^ 8) with 256. Z.div_mod_to_equations. lia.
  - assert (v mod 2 ^ 8 = Z.lor (v mod 128) 128) as ->; [|by rewrite <- Z.lor_assoc, Z.lor_diag].
    rewrite lor_high by done. change (2 ^ 8) with 256. Z.div_mod_to_equations. lia.
Qed.

Lemma read_varint_loop fuel v rest : 0 ≤ v < 2 ^ (7 * Z.of_nat fuel) → (0 < fuel)%nat →
  read_varint (varint_loop fuel "" v +:+ rest) = Some (v, rest).
Proof.
  revert v. induction fuel as [|fuel IH]; intros v Hv Hf; [lia|]. cbn [varint_loop]. unfold u8.
  destruct (Z.leb_spec 128 v) as [H1|H1].
  - rewrite varint_loop_app, <- app_assoc_str. strnorm. cbn [read_varint].
    rewrite byte_high, byte_of_chr by (Z.div_mod_to_equations; lia).
    destruct (Z.ltb_spec (v mod 128 + 128) 128); [Z.div_mod_to_equations; lia|].
    rewrite Z.shiftr_div_pow2 by lia. rewrite IH.
    + cbn [mbind option_bind]. do 2 f_equal. Z.div_mod_to_equations. lia.
    + rewrite Nat2Z.inj_succ, Z.mul_succ_r, Z.pow_add_r in Hv by lia. change (2 ^ 7) with 128 in *.
      split; [apply Z.div_pos; lia|]. apply Z.div_lt_upper_bound; lia.
    + destruct fuel; [|lia]. change (2 ^ (7 * Z.of_nat 1)) with 128 in Hv. lia.
  - rewrite Z.mod_small, app_nil_l_str by lia. strnorm. cbn [read_varint]. rewrite byte_of_chr by lia.
    by destruct (Z.ltb_spec v 128); [|lia].
Qed.

Lemma appendVarint_app buf v : appendVarint buf v = buf +:+ appendVarint "" v.
Proof. apply varint_loop_app. Qed.
Lemma read_appendVarint v rest : 0 ≤ v < 2 ^ 64 → read_varint (appendVarint "" v +:+ rest) = Some (v, rest).
Proof. intros Hv. apply read_varint_loop; [|lia]. change (2 ^ (7 * Z.of_nat 10)) with (2 ^ 70). lia. Qed.

Lemma take_bytes_app s rest : take_bytes (String.length s) (s +:+ rest) = Some (s, rest).
Proof. induction s as [|c s IH]; [by rewrite app_nil_l_str|]. rewrite app_cons_str. cbn [String.length take_bytes]. by rewrite IH. Qed.

(** The text of one field. *)
Definition tag (n t : Z) : string := appendVarint "" (Z.lor (u64 (Z.shiftl n 3)) t).
Definition wire_text (e : Z * wire) : string :=
  match e.2 with
  | WVarint v => tag e.1 0 +:+ appendVarint "" v
  | WLen s => tag e.1 2 +:+ appendVarint "" (u64 (str_len s)) +:+ s
  end.
Fixpoint texts (l : list (Z * wire)) : string := match l with [] => "" | e :: l => wire_text e +:+ texts l end.

Definition wire_ok (e : Z * wire) : Prop :=
  1 ≤ e.1 ≤ 15 ∧ match e.2 with WVarint v => 0 ≤ v < 2 ^ 64 | WLen s => str_len s < 2 ^ 64 end.

Lemma texts_app l k : texts (l ++ k) = texts l +:+ texts k.
Proof. induction l as [|e l IH]; [by rewrite app_nil_l_str|]. cbn [texts app]. by rewrite IH, app_assoc_str. Qed.

Lemma tag_value n t : 1 ≤ n ≤ 15 → t = 0 ∨ t = 2 → Z.lor (u64 (Z.shiftl n 3)) t = 8 * n + t.
Proof.
  intros Hn Ht. assert (n = 1 ∨ n = 2 ∨ n = 3 ∨ n = 4 ∨ n = 5 ∨ n = 6 ∨ n = 7 ∨ n = 8 ∨ n = 9 ∨ n = 10 ∨ n = 11 ∨ n = 12 ∨ n = 13 ∨ n = 14 ∨ n = 15) as Hc by lia.
  destruct Ht as [-> | ->]; repeat (destruct Hc as [->|Hc]; [reflexivity|]); by subst.
Qed.

Lemma read_wire e rest : wire_ok e → read_field (wire_text e +:+ rest) = Some (e, rest).
Proof.
  destruct e as [n w]. intros [Hn Hw]. unfold wire_text, read_field, tag. cbn [fst snd] in *.
  destruct w as [v|s]; rewrite tag_value, <- !app_assoc_str by auto; (rewrite read_appendVarint by lia); cbn [mbind option_bind].
  - assert ((8 * n + 0) mod 8 = 0) as -> by (Z.div_mod_to_equations; lia). cbn [Z.eqb]. rewrite read_appendVarint by done.
    cbn [mbind option_bind]. do 3 f_equal. Z.div_mod_to_equations. lia.
  - assert ((8 * n + 2) mod 8 = 2) as -> by (Z.div_mod_to_equations; lia). cbn [Z.eqb Pos.eqb]. unfold u64, str_len in *.
    rewrite Z.mod_small by lia. rewrite read_appendVarint by lia. cbn [mbind option_bind]. rewrite Nat2Z.id, take_bytes_app.
    cbn [mbind option_bind]. do 3 f_equal. Z.div_mod_to_equations. lia.
Qed.

Lemma wire_text_nonempty e : wire_ok e → wire_text e ≠ "".
Proof. intros He E. pose proof (read_wire e "" He) as H. rewrite E in H. discriminate H. Qed.

Lemma read_texts l fuel : Forall wire_ok l → (String.length (texts l) ≤ fuel)%nat → read_message fuel (texts l) = Some l.
Proof.
  intros Hl. revert fuel. induction Hl as [|e l He _ IH]; intros fuel Hf; cbn [texts]; [by destruct fuel|].
  cbn [texts] in Hf. rewrite length_app_str in Hf. pose proof (wire_text_nonempty e He) as Hne.
  pose proof (read_wire e (texts l) He) as Hr. destruct (wire_text e) as [|c t] eqn:E; [done|]. cbn [String.length] in Hf.
  destruct fuel as [|fuel]; [lia|]. rewrite app_cons_str in *. cbn [read_message]. rewrite Hr. cbn [mbind option_bind].
  destruct e as [n w]. rewrite IH by lia. done.
Qed.

Lemma appendString_text buf n s : appendString buf n s = buf +:+ wire_text (n, WLen s).
Proof.
  unfold appendString, appendTag, wire_text, tag. cbn [fst snd]. rewrite appendVarint_app, (appendVarint_app buf). by rewrite <- !app_assoc_str.
Qed.
Lemma appendInt64Field_text buf n v : appendInt64Field buf n v = buf +:+ wire_text (n, WVarint (u64 v)).
Proof. unfold appendInt64Field, appendTag, wire_text, tag. cbn [fst snd]. rewrite appendVarint_app, (appendVarint_app buf). by rewrite <- !app_assoc_str. Qed.
Lemma appendUint64Field_text buf n v : appendUint64Field buf n v = buf +:+ wire_text (n, WVarint v).
Proof. unfold appendUint64Field, appendTag, wire_text, tag. cbn [fst snd]. rewrite appendVarint_app, (appendVarint_app buf). by rewrite <- !app_assoc_str. Qed.

(** The number of the digits and their value determine a decimal text. *)
Lemma digits_unique s t a b n : String.length s = String.length t → parse_digits s a = Some n → parse_digits t b = Some n → a = b ∧ s = t.
Proof.
  revert t a b n. induction s as [|c s IH]; intros [|d t] a b n Hl Hs Ht; try done; cbn [parse_digits String.length] in *; [naive_solver|].
  destruct (is_digit c) eqn:Hc; [|done]. destruct (is_digit d) eqn:Hd; [|done]. destruct (IH t _ _ n ltac:(lia) Hs Ht) as [E ->].
  unfold digit_val, is_digit in *. assert (byte_of c = byte_of d) as Hcd by lia. split; [lia|].
  by rewrite <- (chr_byte_of c), Hcd, chr_byte_of.
Qed.

Lemma parse_digit v s acc : 0 ≤ v < 10 → parse_digits (String (digit_byte v) s) acc = parse_digits s (acc * 10 + v).
Proof. intros Hv. destruct (digit_byte_ok v Hv) as [H1 H2]. cbn [parse_digits]. by rewrite H1, H2. Qed.

Ltac parse_text :=
  strnorm; rewrite ?Z.rem_mod_nonneg, ?Z.quot_div_nonneg by (try apply Z.div_pos; try apply Z.quot_pos; lia);
  rewrite !parse_digit by (Z.div_mod_to_equations; lia); cbn [parse_digits]; f_equal; Z.div_mod_to_equations; lia.

Lemma pad0_digits k v s : 0 ≤ v < 10 ^ Z.of_nat k → (0 < k)%nat → String.length s = k → parse_digits s 0 = Some v → pad0 (Z.of_nat k) v = s.
Proof.
  intros Hv Hk Hl Hs. apply (digits_unique _ _ 0 0 v); [by rewrite length_pad0|apply parse_pad0; lia|done].
Qed.
Lemma pad0_4 v : 0 ≤ v < 10000 → pad0 4 v = append4d "" v.
Proof. intros Hv. apply (pad0_digits 4); [done|lia|done|]. unfold append4d. parse_text. Qed.
Lemma pad0_2 v : 0 ≤ v < 100 → pad0 2 v = append2d "" v.
Proof. intros Hv. apply (pad0_digits 2); [done|lia|done|]. unfold append2d. parse_text. Qed.
Lemma pad0_6 v : 0 ≤ v < 1000000 → pad0 6 v = append6d "" v.
Proof. intros Hv. apply (pad0_digits 6); [done|lia|done|]. unfold append6d. parse_text. Qed.

Lemma Unix_UTC_sum s n : Unix_UTC s n = mkTime (s * 10 ^ 9 + n) 0.
Proof.
  unfold Unix_UTC. destruct ((n <? 0) || (10 ^ 9 <=? n)); [|done].
  destruct (n - Z.quot n (10 ^ 9) * 10 ^ 9 <? 0); f_equal; lia.
Qed.
Lemma Unix_UTC_0 n : Unix_UTC 0 n = Unix_UTC (Z.quot n (10 ^ 9)) (Z.rem n (10 ^ 9)).
Proof. rewrite !Unix_UTC_sum. f_equal. pose proof (Z.quot_rem' n (10 ^ 9)). lia. Qed.

(** The two codecs give the same time stamp. *)
Lemma timestampISO_matches n : in_i64 n → timestampISOFromUnixNano n = appendISOTimeUTC "" n.
Proof.
  intros Hn. unfold timestampISOFromUnixNano. rewrite Unix_UTC_0, appendISOTimeUTC_parts. cbv zeta.
  destruct (iso_fields n Hn) as (_ & _ & Hy & Hmo & Hda & Hh & Hmi & Hse & Hus). set (t := Unix_UTC _ _) in *.
  rewrite pad0_4, !pad0_2, pad0_6 by lia. done.
Qed.

Lemma i64_u64 z : in_i64 z → i64 (u64 z) = z.
Proof.
  intros Hz. rewrite <- (i64_id z) at 2 by done. apply (i64_congr _ _ (- (z / 2 ^ 64))). unfold u64. Z.div_mod_to_equations. lia.
Qed.

Section proto_proofs.
Context {A : Type} (format_float : Z → string) (b64_decode : string → option string) (dur_text time_text : Z → string) (dynamic : A → dyn).
#[local] Notation encode := (Encode format_float b64_decode dur_text time_text dynamic).
#[local] Notation pvalue := (proto_value format_float b64_decode dur_text time_text dynamic).

Definition optional (n : Z) (s : string) : list (Z * wire) := match s with EmptyString => [] | _ => [(n, WLen s)] end.
Definition entry (f : @field A) : list (Z * wire) := [(1, WLen (key f)); (2, WLen (pvalue f))].
Definition payload_wire (p : @kafkaPayload A) : list (Z * wire) :=
  [(1, WVarint (u64 (UnixNano p))); (2, WVarint (Seq p))] ++ optional 3 (Level p) ++ optional 4 (File p) ++ optional 5 (Message p) ++
  [(6, WLen (timestampISOFromUnixNano (UnixNano p))); (7, WVarint (u64 (Now p)))] ++ optional 8 (ServerIP p) ++ optional 9 (ESIndex p) ++
  ((λ f, (10, WLen (texts (entry f)))) <$> userFields p).

Lemma appendNonEmpty_text buf n s : appendNonEmpty buf n s = buf +:+ texts (optional n s).
Proof using. destruct s; cbn [appendNonEmpty optional texts]; [by rewrite app_nil_r_str|]. rewrite appendString_text. by rewrite app_nil_r_str. Qed.

Lemma fields_proto_text buf fs : foldl (appendFieldProto format_float b64_decode dur_text time_text dynamic) buf fs =
  buf +:+ texts ((λ f, (10, WLen (texts (entry f)))) <$> fs).
Proof using.
  revert buf. induction fs as [|f fs IH]; intros buf; cbn [foldl]; [by rewrite app_nil_r_str|]. rewrite IH, fmap_cons. cbn [texts].
  unfold appendFieldProto. change appendBytesField with appendString. rewrite !appendString_text. unfold entry. cbn [texts].
  by rewrite app_nil_l_str, app_nil_r_str, <- app_assoc_str.
Qed.

Lemma Encode_text p : encode p = texts (payload_wire p).
Proof using.
  unfold Encode, payload_wire. rewrite fields_proto_text, !appendNonEmpty_text, !appendInt64Field_text, appendString_text, appendUint64Field_text.
  rewrite !texts_app. cbn [texts]. rewrite app_nil_l_str, !app_nil_r_str. by rewrite <- !app_assoc_str.
Qed.

Lemma texts_fit l e s : e ∈ l → e.2 = WLen s → str_len s ≤ str_len (texts l).
Proof using.
  intros Hin Es. induction Hin as [l|e' l e Hin IH]; cbn [texts]; unfold str_len in *; rewrite length_app_str; [|specialize (IH Es); lia].
  unfold wire_text. rewrite Es, !length_app_str. lia.
Qed.

Lemma payload_wire_ok p : payload_ok p → Seq p < 2 ^ 64 → str_len (encode p) < 2 ^ 63 →
  Forall wire_ok (payload_wire p) ∧ Forall (λ f, Forall wire_ok (entry f)) (userFields p).
Proof using.
  intros [_ Hs _] Hs' Hl. rewrite Encode_text in Hl.
  assert (Hlen : ∀ e s, e ∈ payload_wire p → e.2 = WLen s → str_len s < 2 ^ 63).
  { intros e s He Es. pose proof (texts_fit _ _ _ He Es). lia. }
  assert (Hu : ∀ z, 0 ≤ u64 z < 2 ^ 64) by (intros; apply Z.mod_pos_bound; lia). split.
  - apply Forall_forall. intros e He. pose proof (Hlen e) as Hle. split.
    + unfold payload_wire, optional in He. clear -He. repeat case_match; set_solver by lia.
    + destruct e as [n [v|s]]; cbn; [|specialize (Hle s He eq_refl); lia].
      unfold payload_wire, optional in He. clear -He Hu Hs Hs'. repeat case_match; set_unfold; naive_solver.
  - apply Forall_forall. intros f Hf. assert (He : (10, WLen (texts (entry f))) ∈ payload_wire p).
    { unfold payload_wire. rewrite !elem_of_app. do 7 right. apply list_elem_of_fmap. by exists f. }
    pose proof (Hlen _ _ He eq_refl) as Hle. apply Forall_forall. intros e Hin. split.
    + unfold entry in Hin. set_solver by lia.
    + destruct e as [n [v|s]]; [unfold entry in Hin; set_solver|]. pose proof (texts_fit _ _ _ Hin eq_refl). cbn. lia.
Qed.

Lemma read_entry_ok f : Forall wire_ok (entry f) → read_entry (texts (entry f)) = Some (key f, pvalue f).
Proof using. intros H. unfold read_entry. rewrite read_texts by done. reflexivity. Qed.

(** What a reader makes of a payload. *)
Definition proto_view (p : @kafkaPayload A) : LogRecordProto :=
  mkProto (UnixNano p) (Seq p) (Level p) (File p) (Message p) (appendISOTimeUTC "" (UnixNano p)) (Now p) (ServerIP p) (ESIndex p)
    ((λ f, (key f, pvalue f)) <$> userFields p).

#[local] Notation reads_members := (foldl (λ x e, x ← x; set_member x e)).

Lemma read_optional n s x x' : (s = "" → x = x') → (s ≠ "" → set_member x (n, WLen s) = Some x') →
  reads_members (Some x) (optional n s) = Some x'.
Proof using. intros H1 H2. destruct s; cbn [optional foldl mbind option_bind]; [by rewrite H1|by rewrite H2]. Qed.

Lemma read_entries fs x : Forall (λ f, Forall wire_ok (entry f)) fs →
  reads_members (Some x) ((λ f, (10, WLen (texts (entry f)))) <$> fs) =
  Some (mkProto (x_unix_nano x) (x_seq x) (x_level x) (x_file x) (x_message x) (x_timestamp x) (x_now x) (x_server_ip x) (x_es_index x)
    (x_fields x ++ ((λ f, (key f, pvalue f)) <$> fs))).
Proof using.
  intros Hfs. revert x. induction Hfs as [|f fs Hf _ IH]; intros x.
  { destruct x. cbn. by rewrite app_nil_r. }
  rewrite fmap_cons. cbn [foldl mbind option_bind]. destruct x. cbn [set_member]. rewrite read_entry_ok by done. cbn [mbind option_bind].
  rewrite IH. cbn. by rewrite <- (assoc_L (++)).
Qed.

End proto_proofs.

(** [set_member] of the next optional field gives the state after it. *)
Ltac step_optional := erewrite read_optional; cycle 2; [intros _; reflexivity| |let E := fresh in intros E; by rewrite E].

(** What the schema promises of the value of a field: a string as it is, another scalar
    as a JSON text of its value.  The schema promises JSON for the remaining kinds too;
    of those the encoder writes the [%v] text ([proto_bytes_not_json]), and nothing is
    claimed here. *)
Definition schema_value {A} (format_float : Z → string) (f : @field A) (t : string) : Prop :=
  match kind f with
  | kindString => t = str f
  | kindInt | kindInt64 => reads t (JNum (Itoa (i f)))
  | kindUint => reads t (JNum (utoa (u64 (i f))))
  | kindBool => reads t (JBool (i f =? 1))
  | kindFloat64 => finite (u64 (i f)) → reads t (JNum (format_float (u64 (i f))))
  | kindBytes | kindDuration | kindTime | kindError | kindAny => True
  end.

(** The members 1 to 9 of the schema. *)
Definition framework_members {A} (p : @kafkaPayload A) (x : LogRecordProto) : Prop :=
  x_unix_nano x = UnixNano p ∧ x_seq x = Seq p ∧ x_level x = Level p ∧ x_file x = File p ∧ x_message x = Message p ∧
  x_timestamp x = appendISOTimeUTC "" (UnixNano p) ∧ x_now x = Now p ∧ x_server_ip x = ServerIP p ∧ x_es_index x = ESIndex p.

Lemma proto_value_schema {A} format_float b64_decode dur_text time_text (dynamic : A → dyn) f :
  (∀ bits, finite bits → reads (format_float bits) (JNum (format_float bits))) →
  schema_value format_float f (proto_value format_float b64_decode dur_text time_text dynamic f).
Proof.
  intros Hf. unfold schema_value, proto_value, value. destruct (kind f); cbn [scalarToJSON]; auto using reads_Itoa.
  - apply reads_utoa. unfold u64. apply Z.mod_pos_bound. lia.
  - apply reads_literal. destruct (i f =? 1); auto.
Qed.

Lemma read_record_Encode {A} format_float b64_decode dur_text time_text (dynamic : A → dyn) p :
  payload_ok p → Seq p < 2 ^ 64 → in_i64 (Now p) → str_len (Encode format_float b64_decode dur_text time_text dynamic p) < 2 ^ 63 →
  read_record (Encode format_float b64_decode dur_text time_text dynamic p) =
    Some (proto_view format_float b64_decode dur_text time_text dynamic p).
Proof.
  intros Hp Hs Hnow Hl. destruct (payload_wire_ok _ _ _ _ _ p Hp Hs Hl) as [Hw Hf]. destruct Hp as [Hn _ _].
  unfold read_record. rewrite Encode_text, read_texts by done. cbn [mbind option_bind]. unfold payload_wire. rewrite !foldl_app.
  cbn [foldl mbind option_bind set_member]. rewrite !i64_u64 by done.
  step_optional. step_optional. step_optional.
  cbn [foldl mbind option_bind set_member]. rewrite i64_u64, timestampISO_matches by done.
  step_optional. step_optional.
  by rewrite read_entries.
Qed.

(** C24: a consumer that decodes the protobuf payload under the schema gets the members 1
    to 9 of the payload, signs and time stamp included, and one entry per user field, in
    order, with its key; the value of a string field is the string, and the value of an
    integer, boolean or finite float field JSON-parses to that value.  For every message
    below 2^63 bytes, and a float formatter whose texts are JSON numbers. *)
Theorem payload_proto_roundtrip {A} format_float b64_decode dur_text time_text (dynamic : A → dyn) p :
  (∀ bits, finite bits → reads (format_float bits) (JNum (format_float bits))) →
  payload_ok p → Seq p < 2 ^ 64 → in_i64 (Now p) → str_len (Encode format_float b64_decode dur_text time_text dynamic p) < 2 ^ 63 →
  ∃ x, read_record (Encode format_float b64_decode dur_text time_text dynamic p) = Some x ∧ framework_members p x ∧
    Forall2 (λ f kv, kv.1 = key f ∧ schema_value format_float f kv.2) (userFields p) (x_fields x).
Proof.
  intros Hf Hp Hs Hnow Hl. eexists. split; [by apply read_record_Encode|]. split; [done|]. cbn [x_fields proto_view].
  apply Forall2_fmap_r, Forall_Forall2_diag, Forall_forall. intros f _. split; [done|]. by apply proto_value_schema.
Qed.

Definition mixed_payload : @kafkaPayload unit :=
  mkPayload (-5) 300 "INFO" "" "m" "10.0.0.1" (-1) ""
    [mkField "k" kindInt (-42) "" (); mkField "b" kindBool 1 "" (); mkField "s" kindString 0 "x=1" (); mkField "f" kindFloat64 0 "" ()].

Lemma payload_proto_roundtrip_witness :
  ∃ x, read_record (Encode demo_float (λ _, None) (λ _, "") (λ _, "") demo_dyn mixed_payload) = Some x ∧ framework_members mixed_payload x ∧
    Forall2 (λ f kv, kv.1 = key f ∧ schema_value demo_float f kv.2) (userFields mixed_payload) (x_fields x).
Proof.
  apply (payload_proto_roundtrip demo_float (λ _, None) (λ _, "") (λ _, "") demo_dyn mixed_payload);
    [|split; [vm_compute; split; discriminate|vm_compute; discriminate|repeat (constructor; [vm_compute; split; discriminate|]); constructor]
     |reflexivity|vm_compute; split; discriminate|vm_compute; reflexivity].
  intros bits _. apply reads_utoa. lia.
Defined.

(** The schema calls every value that is not a string JSON; that of a byte slice is its
    [%v] text, here of the two bytes of "hi", which is not JSON. *)
Example proto_bytes_not_json :
  let v := proto_value demo_float (λ _, Some "hi") (λ _, "") (λ _, "") demo_dyn (mkField "raw" kindBytes 0 "aGk=" ()) in
  v = "[104 105]" ∧ read_value 99 v = None.
Proof. vm_compute. split; reflexivity. Qed.

(** A field called "seq" and two called "es_index". *)
Definition awkward_payload : @kafkaPayload unit :=
  mkPayload 1782399845000001999 7 "INFO" "svc.go:42" "hi" "10.0.0.1" 1782399845 "fallback"
    [mkField "seq" kindInt 0 "" (); mkField "es_index" kindString 0 "a" (); mkField "es_index" kindString 0 "b" (); mkField "u" kindInt 5 "" ()].

Lemma payload_json_roundtrip_witness :
  (∃ n, ∀ fuel, (n ≤ fuel)%nat → read_value fuel (MarshalJSON demo_float (λ _, None) (λ _, None) awkward_payload) =
     Some (JObj (payload_pairs demo_float (λ _, None) (λ _, None) (λ _, JNull) awkward_payload), "")) ∧
  times "seq" (payload_pairs demo_float (λ _, None) (λ _, None) (λ _, JNull) awkward_payload) = 1%nat.
Proof.
  destruct (payload_json_roundtrip demo_float (λ _, None) (λ _, None) (λ _, JNull) awkward_payload) as (Hr & Hk & _).
  - intros bits _. apply reads_utoa. lia.
  - intros a t [=].
  - split; [vm_compute; split; discriminate|vm_compute; discriminate|repeat (constructor; [vm_compute; split; discriminate|]); constructor].
  - split; [exact Hr|apply (Hk "seq"); reflexivity].
Defined.

(** A base field and a field of the logger with the same key, in the order in which
    [deliverRecordToWriter] puts them: the base field's value is the one sent as the
    routing member, and the only one sent when the writer has fields of its own. *)
Example base_beats_with :
  let base := mkField "es_index" kindString 0 "base" () in
  let own := mkField "es_index" kindString 0 "with" () in
  let extra := mkField "dc" kindString 0 "eu" () in
  let p := buildPayload (mkMSG "" "" [extra]) (mkRecord 6 "" "" "hi" 0 1 [base; own]) in
  userFields p = [base; extra] ∧
  payload_pairs demo_float (λ _, None) (λ _, None) (λ _, JNull) (buildPayload (mkMSG "" "" []) (mkRecord 6 "" "" "hi" 0 1 [base; own])) =
    [("unix_nano", JNum "0"); ("seq", JNum "1"); ("level", JStr "INFO"); ("message", JStr "hi");
     ("timestamp", JStr "1970-01-01T00:00:00.000000Z"); ("now", JNum "0"); ("es_index", JStr "base")].
Proof. split; reflexivity. Qed.

(** With fields on both sides, each key is sent once, and the record's field wins. *)
Lemma dedup_spec {A} seen (fs : list (@field A)) :
  NoDup (key <$> dedup seen fs) ∧ Forall (λ f, key f ∉ seen) (dedup seen fs) ∧
  (∀ k, k ∉ seen → first_of k (dedup seen fs) = first_of k fs).
Proof.
  revert seen. induction fs as [|f fs IH]; intros seen; cbn [dedup]; [by repeat constructor|].
  case_bool_decide as Hk.
  - destruct (IH seen) as (Hn & Hf & Hl). split_and!; [done..|]. intros k Hks. rewrite Hl by done. unfold first_of. cbn [list_find].
    rewrite decide_False by congruence. by destruct (list_find _ fs) as [[??]|].
  - destruct (IH (key f :: seen)) as (Hn & Hf & Hl). split_and!.
    + rewrite fmap_cons. constructor; [|done]. intros (g & Hg & Hin)%list_elem_of_fmap.
      eapply Forall_forall in Hf; [|exact Hin]. rewrite <- Hg in Hf. set_solver.
    + constructor; [done|]. eapply Forall_impl; [exact Hf|]. set_solver.
    + intros k Hks. unfold first_of in *. cbn [list_find]. destruct (decide (key f = k)); [done|].
      specialize (Hl k ltac:(set_solver)). destruct (list_find _ (dedup _ fs)) as [[??]|], (list_find _ fs) as [[??]|]; cbn in *; congruence.
Qed.
