(* ===== verification/KafkaWriter.v ===== *)
(** * KafkaWriter: the Kafka writer of [log4go/kafka_writer.go]

    Callers put messages on a bounded channel under the overflow policy, as in
    Pipeline.v; the daemon sends them one by one or in batches, diverts them to the
    spill store while the circuit breaker (Log4go.v) is open or when a send fails, and
    puts stored messages back on a ticker.  The producer is a parameter of every step:
    a [Send] or [SendBatch] either returns nil or an error, and may report errors later
    through its event hook.

    Shown: which losses the drop counter shows, under all interleavings
    ([kafka_conserves]); in batch mode, after [Stop] nothing is left in the channel, the
    batch or the store, and every message was accepted by the producer or lost
    ([kafka_batch_shutdown]).  [kafka_shutdown_loses] shows that in
    the default mode, which sends one by one, the shutdown collects what is left in the
    channel into a batch that is never sent. *)

From Stdlib Require Import ZArith Lia.
From stdpp Require Import base tactics numbers list relations.
From AAC_tactics Require Import AAC.
From AAC_tactics Require Instances.
From S2P Require Import Prelude Spill Pipeline Log4go.
Import Instances.Lists.

#[local] Open Scope Z_scope.

#[local] Existing Instance perm_lift.

Record options := mkOptions {
  policy : OverflowPolicy; BufferSize : Z; batchMode : bool; BatchSize : Z }.

Definition DefaultKafkaBatchSize : Z := 1024.
(** The capacity of the channel and the size of a batch, with their defaults. *)
Definition chan_size (o : options) : nat := Z.to_nat (if BufferSize o <=? 1 then 1024 else BufferSize o).
Definition batchSize (o : options) : nat := Z.to_nat (if BatchSize o <=? 0 then DefaultKafkaBatchSize else BatchSize o).

(** Where the daemon is.  [after] says what a flush returns to. *)
Inductive after := ToIdle | ToDrain | ToSpill.

Inductive kpc (M : Type) :=
| KIdle
| KSending (m : M)                  (** [sendOne] *)
| KFailing (l : list M) (a : after) (** [failover] of the messages of a batch *)
| KFlushing (a : after)             (** [flush] *)
| KTicked                           (** [drainSpill] is next *)
| KOpened                           (** [drainSpill] saw [closing] down *)
| KRefilling (l : list M)
| KEvaluate                         (** [breaker.evaluate] is next *)
| KDraining                         (** the loop of [drainOnShutdown] *)
| KSpillStart                       (** [drainSpillToProducer] *)
| KSpilling (l : list M)
| KQuitting
| KEnded.
Arguments KIdle {M}.
Arguments KSending {M}.
Arguments KFailing {M}.
Arguments KFlushing {M}.
Arguments KTicked {M}.
Arguments KOpened {M}.
Arguments KRefilling {M}.
Arguments KEvaluate {M}.
Arguments KDraining {M}.
Arguments KSpillStart {M}.
Arguments KSpilling {M}.
Arguments KQuitting {M}.
Arguments KEnded {M}.

(** [sent], [errored], [failovered], [batches], [batchMax]. *)
Record counters := mkCounters { sent : Z; errored : Z; failovered : Z; batches : Z; batchMax : Z }.

Section kafka.
Context {S M : Type} `{Ops : SpillerOps S M} (opts : options).
(** Whether [os.Rename] of a file store may fail. *)
Context (rename_fails : bool).

(** [batch] is the daemon's slice; [failed] are the messages whose send failed without a
    store to divert them to; in the log, [handed] are those the producer accepted. *)
Record sys := mkSys {
  messages : list M; spiller : option S; stats : OverflowStats; cnt : counters; breaker : option KafkaBreaker.t;
  closing : bool; stop : bool; producers : list (ppc * M); daemon : kpc M; batch : list M; failed : list M; log : ghost M }.

Definition with_breaker (f : KafkaBreaker.t → KafkaBreaker.t) (b : option KafkaBreaker.t) : option KafkaBreaker.t := f <$> b.

(** [breaker != nil && breaker.isOpen() && spiller != nil]. *)
Definition divert (b : option KafkaBreaker.t) (sp : option S) : bool :=
  match b, sp with Some b, Some _ => KafkaBreaker.isOpen b | _, _ => false end.

Definition add_failovered (c : counters) : counters := mkCounters (sent c) (errored c) (u64 (failovered c + 1)) (batches c) (batchMax c).
Definition add_sent (n : Z) (c : counters) : counters := mkCounters (u64 (sent c + n)) (errored c) (failovered c) (batches c) (batchMax c).
Definition add_errored (n : Z) (c : counters) : counters := mkCounters (sent c) (u64 (errored c + n)) (failovered c) (batches c) (batchMax c).
Definition add_batch (n : Z) (c : counters) : counters :=
  mkCounters (sent c) (errored c) (failovered c) (u64 (batches c + 1)) (if batchMax c <? n then n else batchMax c).

Definition failover (sp : option S) (st : OverflowStats) (c : counters) (g : ghost M) (m : M) : option S * OverflowStats * counters * ghost M :=
  let c := add_failovered c in
  match sp with
  | Some s => let '(ok, s') := sp_push s m in
      if ok then (Some s', (IncSpilled st).1, c, g) else (Some s', (IncDropped st).1, c, g_drop m g)
  | None => (None, (IncDropped st).1, c, g_drop m g)
  end.

(** Where the daemon goes after a flush. *)
Definition resume_at (a : after) : kpc M := match a with ToIdle => KIdle | ToDrain => KDraining | ToSpill => KSpillStart end.

(** The callers: [send], as in the other writers. *)
Inductive producer_step : sys → sys → Prop :=
| p_enter q sp st ct b c x ps d ba fa g m :
    producer_step (mkSys q sp st ct b c x ps d ba fa g) (mkSys q sp st ct b c x (ps ++ [(Entered, m)]) d ba fa (g_offer m g))
| p_closing q sp st ct b x p1 p2 m d ba fa g :
    producer_step (mkSys q sp st ct b true x (p1 ++ (Entered, m) :: p2) d ba fa g)
      (mkSys q sp (IncDropped st).1 ct b true x (p1 ++ p2) d ba fa (g_drop m g))
| p_open q sp st ct b x p1 p2 m d ba fa g :
    producer_step (mkSys q sp st ct b false x (p1 ++ (Entered, m) :: p2) d ba fa g)
      (mkSys q sp st ct b false x (p1 ++ (Selecting, m) :: p2) d ba fa g)
| p_send q sp st ct b c x p1 p2 m d ba fa g : (length q < chan_size opts)%nat →
    producer_step (mkSys q sp st ct b c x (p1 ++ (Selecting, m) :: p2) d ba fa g)
      (mkSys (q ++ [m]) sp st ct b c x (p1 ++ p2) d ba fa (g_accept m g))
| p_stopped q sp st ct b c p1 p2 m d ba fa g :
    producer_step (mkSys q sp st ct b c true (p1 ++ (Selecting, m) :: p2) d ba fa g)
      (mkSys q sp (IncDropped st).1 ct b c true (p1 ++ p2) d ba fa (g_drop m g))
| p_default q sp st ct b c p1 p2 m d ba fa g : policy opts ≠ OverflowBlock → (chan_size opts ≤ length q)%nat →
    producer_step (mkSys q sp st ct b c false (p1 ++ (Selecting, m) :: p2) d ba fa g)
      (mkSys q sp st ct b c false (p1 ++ (Overflowing, m) :: p2) d ba fa g)
| p_overflow q sp st ct b c x p1 p2 m d ba fa g sp' st' g' : overflow (policy opts) sp st g m = (sp', st', g') →
    producer_step (mkSys q sp st ct b c x (p1 ++ (Overflowing, m) :: p2) d ba fa g)
      (mkSys q sp' st' ct b c x (p1 ++ p2) d ba fa g').

(** [sendOne]. *)
Inductive send_step : sys → sys → Prop :=
| k_take m q sp st ct b c x ps ba fa g : batchMode opts = false →
    send_step (mkSys (m :: q) sp st ct b c x ps KIdle ba fa g) (mkSys q sp st ct b c x ps (KSending m) ba fa g)
| k_divert q sp st ct b c x ps m ba fa g sp' st' ct' g' : divert b sp = true → failover sp st ct g m = (sp', st', ct', g') →
    send_step (mkSys q sp st ct b c x ps (KSending m) ba fa g) (mkSys q sp' st' ct' b c x ps KIdle ba fa g')
| k_sent q sp st ct b c x ps m ba fa g : divert b sp = false →
    send_step (mkSys q sp st ct b c x ps (KSending m) ba fa g)
      (mkSys q sp st (add_sent 1 ct) (with_breaker KafkaBreaker.recordSend b) c x ps KIdle ba fa (g_hand m g))
| k_send_err q sp st ct b c x ps m ba fa g sp' st' ct' g' fa' : divert b sp = false →
    match sp with
    | Some _ => failover sp st ct g m = (sp', st', ct', g') ∧ fa' = fa
    | None => sp' = sp ∧ st' = st ∧ ct' = add_errored 1 ct ∧ g' = g ∧ fa' = fa ++ [m]
    end →
    send_step (mkSys q sp st ct b c x ps (KSending m) ba fa g)
      (mkSys q sp' st' ct' (with_breaker (KafkaBreaker.recordError ∘ KafkaBreaker.recordSend) b) c x ps KIdle ba fa' g').

(** Batches and [flush]. *)
Inductive batch_step : sys → sys → Prop :=
| k_collect m q sp st ct b c x ps ba fa g : batchMode opts = true →
    batch_step (mkSys (m :: q) sp st ct b c x ps KIdle ba fa g)
      (mkSys q sp st ct b c x ps (if (batchSize opts <=? length (ba ++ [m]))%nat then KFlushing ToIdle else KIdle) (ba ++ [m]) fa g)
| k_flush_tick q sp st ct b c x ps ba fa g : batchMode opts = true →
    batch_step (mkSys q sp st ct b c x ps KIdle ba fa g) (mkSys q sp st ct b c x ps (KFlushing ToIdle) ba fa g)
| k_flush_noop q sp st ct b c x ps a ba fa g : batchMode opts = false ∨ ba = [] →
    batch_step (mkSys q sp st ct b c x ps (KFlushing a) ba fa g) (mkSys q sp st ct b c x ps (resume_at a) ba fa g)
| k_flush_divert q sp st ct b c x ps a ba fa g : batchMode opts = true → ba ≠ [] → divert b sp = true →
    batch_step (mkSys q sp st ct b c x ps (KFlushing a) ba fa g) (mkSys q sp st ct b c x ps (KFailing ba a) [] fa g)
| k_flush_sent q sp st ct b c x ps a ba fa g : batchMode opts = true → ba ≠ [] → divert b sp = false →
    batch_step (mkSys q sp st ct b c x ps (KFlushing a) ba fa g)
      (mkSys q sp st (add_batch (Z.of_nat (length ba)) (add_sent (Z.of_nat (length ba)) ct))
         (with_breaker (λ b, KafkaBreaker.recordSendN b (Z.of_nat (length ba))) b) c x ps (resume_at a) [] fa (foldl (λ g m, g_hand m g) g ba))
| k_flush_err_store q s st ct b c x ps a ba fa g : batchMode opts = true → ba ≠ [] → divert b (Some s) = false →
    batch_step (mkSys q (Some s) st ct b c x ps (KFlushing a) ba fa g) (mkSys q (Some s) st ct b c x ps (KFailing ba a) [] fa g)
| k_flush_err q st ct b c x ps a ba fa g : batchMode opts = true → ba ≠ [] →
    batch_step (mkSys q None st ct b c x ps (KFlushing a) ba fa g)
      (mkSys q None st (add_errored (Z.of_nat (length ba)) (add_sent (Z.of_nat (length ba)) ct))
         (with_breaker (λ b, KafkaBreaker.recordSendN b (Z.of_nat (length ba))) b) c x ps (resume_at a) [] (fa ++ ba) g)
| k_failover q sp st ct b c x ps m l a ba fa g sp' st' ct' g' : failover sp st ct g m = (sp', st', ct', g') →
    batch_step (mkSys q sp st ct b c x ps (KFailing (m :: l) a) ba fa g) (mkSys q sp' st' ct' b c x ps (KFailing l a) ba fa g')
| k_failed_over q sp st ct b c x ps a ba fa g :
    batch_step (mkSys q sp st ct b c x ps (KFailing [] a) ba fa g) (mkSys q sp st ct b c x ps (resume_at a) ba fa g).

(** The ticker: [drainSpill], then the breaker. *)
Inductive tick_step : sys → sys → Prop :=
| k_tick q sp st ct b c x ps ba fa g :
    tick_step (mkSys q sp st ct b c x ps KIdle ba fa g) (mkSys q sp st ct b c x ps KTicked ba fa g)
| k_closing q sp st ct b c x ps ba fa g :
    tick_step (mkSys q sp st ct b c x ps KTicked ba fa g) (mkSys q sp st ct b c x ps (if c then KEvaluate else KOpened) ba fa g)
| k_nothing q sp st ct b c x ps ba fa g : match sp with None => True | Some s => sp_len s = 0 end →
    tick_step (mkSys q sp st ct b c x ps KOpened ba fa g) (mkSys q sp st ct b c x ps KEvaluate ba fa g)
| k_drain q s st ct b c x ps ba fa g r l s' : sp_len s ≠ 0 → r || rename_fails = true → sp_drain r s = (l, s') →
    tick_step (mkSys q (Some s) st ct b c x ps KOpened ba fa g) (mkSys q (Some s') st ct b c x ps (KRefilling l) ba fa g)
| k_refilled q sp st ct b c x ps ba fa g :
    tick_step (mkSys q sp st ct b c x ps (KRefilling []) ba fa g) (mkSys q sp st ct b c x ps KEvaluate ba fa g)
| k_refill q sp st ct b c x ps m l ba fa g : (length q < chan_size opts)%nat →
    tick_step (mkSys q sp st ct b c x ps (KRefilling (m :: l)) ba fa g)
      (mkSys (q ++ [m]) sp st ct b c x ps (KRefilling l) ba fa (g_accept m g))
| k_full q s st ct b c x ps m l ba fa g (ok : bool) s' : (chan_size opts ≤ length q)%nat → sp_push s m = (ok, s') →
    tick_step (mkSys q (Some s) st ct b c x ps (KRefilling (m :: l)) ba fa g)
      (mkSys q (Some s') st ct b c x ps KEvaluate ba fa (g_abandon g (if ok then l else m :: l)))
| k_evaluate q sp st ct b c x ps ba fa g now :
    tick_step (mkSys q sp st ct b c x ps KEvaluate ba fa g)
      (mkSys q sp st ct (with_breaker (λ b, KafkaBreaker.evaluate b now) b) c x ps KIdle ba fa g)
| k_event q sp st ct b c x ps d ba fa g :  (** the producer's error event *)
    tick_step (mkSys q sp st ct b c x ps d ba fa g)
      (mkSys q sp st (add_errored 1 ct) (with_breaker KafkaBreaker.recordError b) c x ps d ba fa g).

(** [drainOnShutdown] and [drainSpillToProducer]. *)
Inductive shutdown_step : sys → sys → Prop :=
| k_stop q sp st ct b c ps ba fa g :
    shutdown_step (mkSys q sp st ct b c true ps KIdle ba fa g) (mkSys q sp st ct b c true ps KDraining ba fa g)
| k_left m q sp st ct b c x ps ba fa g :
    shutdown_step (mkSys (m :: q) sp st ct b c x ps KDraining ba fa g)
      (mkSys q sp st ct b c x ps (if (batchSize opts <=? length (ba ++ [m]))%nat then KFlushing ToDrain else KDraining) (ba ++ [m]) fa g)
| k_drained sp st ct b c x ps ba fa g :
    shutdown_step (mkSys [] sp st ct b c x ps KDraining ba fa g) (mkSys [] sp st ct b c x ps (KFlushing ToSpill) ba fa g)
| k_spill q s st ct b c x ps ba fa g r l s' : r || rename_fails = true → sp_drain r s = (l, s') →
    shutdown_step (mkSys q (Some s) st ct b c x ps KSpillStart ba fa g) (mkSys q (Some s') st ct b c x ps (KSpilling l) ba fa g)
| k_spill_none q st ct b c x ps ba fa g :
    shutdown_step (mkSys q None st ct b c x ps KSpillStart ba fa g) (mkSys q None st ct b c x ps (KSpilling []) ba fa g)
| k_spill_sent q sp st ct b c x ps m l ba fa g :
    shutdown_step (mkSys q sp st ct b c x ps (KSpilling (m :: l)) ba fa g) (mkSys q sp st ct b c x ps (KSpilling l) ba fa (g_hand m g))
| k_spill_err q sp st ct b c x ps m l ba fa g :
    shutdown_step (mkSys q sp st ct b c x ps (KSpilling (m :: l)) ba fa g) (mkSys q sp st ct b c x ps (KSpilling l) ba fa (g_abandon g [m]))
| k_spilled q sp st ct b c x ps ba fa g :
    shutdown_step (mkSys q sp st ct b c x ps (KSpilling []) ba fa g) (mkSys q sp st ct b c x ps KQuitting ba fa g)
| k_claim q sp st ct b x ps d ba fa g :
    shutdown_step (mkSys q sp st ct b false x ps d ba fa g) (mkSys q sp st ct b true x ps d ba fa g)
| k_close q sp st ct b ps d ba fa g :
    shutdown_step (mkSys q sp st ct b true false ps d ba fa g) (mkSys q sp st ct b true true ps d ba fa g)
| k_quit q sp st ct b ps ba fa g :
    shutdown_step (mkSys q sp st ct b true true ps KQuitting ba fa g) (mkSys q sp st ct b true true ps KEnded ba fa g).

Definition step (s s' : sys) : Prop :=
  producer_step s s' ∨ send_step s s' ∨ batch_step s s' ∨ tick_step s s' ∨ shutdown_step s s'.
Definition start (st : OverflowStats) (found : option (list M * S)) (b : option KafkaBreaker.t) : sys :=
  let c0 := mkCounters 0 0 0 0 0 in
  let g0 := mkGhost [] [] [] [] [] in
  match found with
  | None => mkSys [] None st c0 b false false [] KIdle [] [] g0
  | Some (l, sp) =>
      let '(q, sp', st', g) := resume (chan_size opts) l [] sp st g0 in
      mkSys q (Some sp') st' c0 b false false [] KIdle [] [] g
  end.

(** ** Accounting *)

Definition in_hand (d : kpc M) : list M :=
  match d with KSending m => [m] | KFailing l _ | KRefilling l | KSpilling l => l | _ => [] end.

Context {lossless : bool} `{Spec : !SpillerSpec S M lossless}.

Definition account (s : sys) (l over : list M) : Prop :=
  offered (log s) ≡ₚ ((producers s).*2 ++ messages s ++ in_hand (daemon s) ++ batch s ++ failed s ++
    handed (log s) ++ dropped_ (log s) ++ abandoned (log s)) ++ l ++ over.

Record conserved (s : sys) : Prop := {
  c_account : ∃ l over, holds (lossless := lossless) (spiller s) l over ∧ account s l over;
  c_dropped : dropped (stats s) = u64 (Z.of_nat (length (dropped_ (log s)))) }.

(** A message [m] goes to the store, or is dropped and counted. *)
Definition stored_or_dropped (sp : option S) (st : OverflowStats) (g : ghost M) (m : M) (sp' : option S) (st' : OverflowStats) (g' : ghost M) : Prop :=
  ∀ l over, holds (lossless := lossless) sp l over → dropped st = u64 (Z.of_nat (length (dropped_ g))) →
  ∃ l' over' gone, holds (lossless := lossless) sp' l' over' ∧
    g' = mkGhost (offered g) (accepted g) (handed g) (dropped_ g ++ gone) (abandoned g) ∧
    gone ++ l' ++ over' ≡ₚ [m] ++ l ++ over ∧ dropped st' = u64 (Z.of_nat (length (dropped_ g'))).

Lemma just_dropped sp st g m : stored_or_dropped sp st g m sp (IncDropped st).1 (g_drop m g).
Proof using. intros l over Hh Hd. exists l, over, [m]. split_and!; [done..|]. by apply drop_count. Qed.

Lemma just_pushed s st g m : let '(ok, s') := sp_push s m in
  stored_or_dropped (Some s) st g m (Some s') (if ok then (IncSpilled st).1 else (IncDropped st).1) (if ok then g else g_drop m g).
Proof using.
  destruct (sp_push s m) as [ok s'] eqn:E. intros l over Hh Hd. pose proof (push_holds s l over m Hh) as Hp. rewrite E in Hp.
  destruct ok.
  - destruct Hp as (l' & over' & Hh' & Hp). exists l', over', []. rewrite app_nil_r.
    split_and!; [done|by destruct g| |done]. rewrite Hp. perm.
  - exists l, over, [m]. split_and!; [done..|]. by apply drop_count.
Qed.

Lemma overflow_stores pol sp st (g : ghost M) m sp' st' g' : overflow pol sp st g m = (sp', st', g') →
  stored_or_dropped sp st g m sp' st' g'.
Proof using.
  unfold overflow. intros Ho. destruct pol; simplify_eq; [by apply just_dropped..|].
  destruct sp as [s|]; simplify_eq; [|by apply just_dropped]. pose proof (just_pushed s st g m) as Hp.
  destruct (sp_push s m) as [[] s0]; by simplify_eq.
Qed.

Lemma failover_stores sp st ct (g : ghost M) m sp' st' ct' g' : failover sp st ct g m = (sp', st', ct', g') →
  stored_or_dropped sp st g m sp' st' g'.
Proof using.
  unfold failover. intros Ho. destruct sp as [s|]; simplify_eq; [|by apply just_dropped]. pose proof (just_pushed s st g m) as Hp.
  destruct (sp_push s m) as [[] s0]; by simplify_eq.
Qed.

(** [m], in the producers' or the daemon's hands before, is stored or dropped. *)
Lemma store_conserved s s' m : conserved s →
  stored_or_dropped (spiller s) (stats s) (log s) m (spiller s') (stats s') (log s') →
  (producers s).*2 ++ messages s ++ in_hand (daemon s) ++ batch s ++ failed s ≡ₚ
    m :: (producers s').*2 ++ messages s' ++ in_hand (daemon s') ++ batch s' ++ failed s' → conserved s'.
Proof using.
  intros [(l & over & Hh & Ha) Hd] Hst Hp. destruct (Hst l over Hh Hd) as (l' & over' & gone & Hh' & Eg & Hp' & Hd').
  split; [|done]. exists l', over'. split; [done|]. unfold account in *. rewrite Eg. cbn [offered handed dropped_ abandoned].
  rewrite Ha. transitivity (((producers s).*2 ++ messages s ++ in_hand (daemon s) ++ batch s ++ failed s) ++
    handed (log s) ++ dropped_ (log s) ++ abandoned (log s) ++ l ++ over); [perm|]. rewrite Hp.
  transitivity (((producers s').*2 ++ messages s' ++ in_hand (daemon s') ++ batch s' ++ failed s') ++
    handed (log s) ++ dropped_ (log s) ++ abandoned (log s) ++ gone ++ l' ++ over'); [rewrite Hp'; perm|perm].
Qed.

(** Messages change places; the store and the drop counter stay. *)
Lemma shift_conserved s s' new : conserved s → spiller s' = spiller s → dropped (stats s') = dropped (stats s) →
  dropped_ (log s') = dropped_ (log s) → offered (log s') = offered (log s) ++ new →
  new ++ (producers s).*2 ++ messages s ++ in_hand (daemon s) ++ batch s ++ failed s ++ handed (log s) ++ abandoned (log s) ≡ₚ
    (producers s').*2 ++ messages s' ++ in_hand (daemon s') ++ batch s' ++ failed s' ++ handed (log s') ++ abandoned (log s') →
  conserved s'.
Proof using.
  intros [(l & over & Hh & Ha) Hd] Es Est Edr Eo Hp. split; [|by rewrite Est, Edr]. rewrite Es. exists l, over. split; [done|].
  unfold account in *. rewrite Eo, Edr, Ha. transitivity ((new ++ (producers s).*2 ++ messages s ++ in_hand (daemon s) ++ batch s ++
    failed s ++ handed (log s) ++ abandoned (log s)) ++ dropped_ (log s) ++ l ++ over); [perm|]. rewrite Hp. perm.
Qed.

(** A drain moves the messages of the store to the daemon. *)
Lemma drained_conserved q s st ct b c x ps d d' ba fa g r o s' : in_hand d = [] → in_hand d' = o → sp_drain r s = (o, s') →
  conserved (mkSys q (Some s) st ct b c x ps d ba fa g) → conserved (mkSys q (Some s') st ct b c x ps d' ba fa g).
Proof using.
  intros Hd Hd' Ho [(l & over & [Hr Hl] & Ha) Hdr]. unfold account in Ha. cbn in *. rewrite Hd in Ha. split; [|done].
  pose proof (drain_ok r s l Hr) as Hk. rewrite Ho in Hk. destruct Hk as (l' & Hr' & Hp & _).
  exists l', over. split; [done|]. unfold account. cbn. rewrite Ha, Hd', <- Hp. perm.
Qed.

Ltac shifts n := eapply (shift_conserved _ _ n); [eassumption|try done; try (by rewrite app_nil_r)..]; cbn;
  rewrite ?producers_move, ?fmap_app; cbn; try perm.

Lemma producer_keeps s s' : producer_step s s' → conserved s → conserved s'.
Proof using.
  intros Hs Hc. destruct Hs.
  - shifts [m].
  - eapply store_conserved; [done|apply just_dropped|cbn]. rewrite producers_move. perm.
  - shifts (@nil M).
  - shifts (@nil M).
  - eapply store_conserved; [done|apply just_dropped|cbn]. rewrite producers_move. perm.
  - shifts (@nil M).
  - eapply store_conserved; [done|by eapply overflow_stores|cbn]. rewrite producers_move. perm.
Qed.

Lemma send_keeps s s' : send_step s s' → conserved s → conserved s'.
Proof using.
  intros Hs Hc. destruct Hs.
  - shifts (@nil M).
  - eapply store_conserved; [done|by eapply failover_stores|cbn]. perm.
  - shifts (@nil M).
  - destruct sp as [s|].
    + destruct H0 as [H0 ->]. eapply store_conserved; [done|by eapply failover_stores|cbn]. perm.
    + destruct H0 as (-> & -> & -> & -> & ->). shifts (@nil M).
Qed.

Lemma hand_all l (g : ghost M) : foldl (λ g m, g_hand m g) g l =
  mkGhost (offered g) (accepted g) (handed g ++ l) (dropped_ g) (abandoned g).
Proof using.
  revert g. induction l as [|m l IH]; intros g; cbn; [by destruct g; cbn; rewrite app_nil_r|].
  rewrite IH. cbn. by rewrite <- (assoc_L (++)).
Qed.

Lemma in_hand_resume a : in_hand (resume_at a) = [].
Proof using. by destruct a. Qed.
Lemma in_hand_if (b : bool) d d' : in_hand d = in_hand d' → in_hand (if b then d else d') = in_hand d'.
Proof using. by destruct b. Qed.

Lemma batch_keeps s s' : batch_step s s' → conserved s → conserved s'.
Proof using.
  intros Hs Hc. destruct Hs.
  - shifts (@nil M). rewrite in_hand_if by done. cbn. perm.
  - shifts (@nil M).
  - shifts (@nil M). by rewrite in_hand_resume.
  - shifts (@nil M).
  - eapply (shift_conserved _ _ []); [eassumption|rewrite ?hand_all; cbn; rewrite ?app_nil_r; try done..].
    rewrite in_hand_resume. cbn. perm.
  - shifts (@nil M).
  - shifts (@nil M). rewrite in_hand_resume. perm.
  - eapply store_conserved; [done|by eapply failover_stores|cbn]. perm.
  - shifts (@nil M). by rewrite in_hand_resume.
Qed.

Lemma tick_keeps s s' : tick_step s s' → conserved s → conserved s'.
Proof using.
  intros Hs Hc. destruct Hs.
  - shifts (@nil M).
  - shifts (@nil M). by destruct c.
  - shifts (@nil M).
  - eapply drained_conserved in Hc; [exact Hc|done..].
  - shifts (@nil M).
  - shifts (@nil M).
  - destruct Hc as [(l0 & over & Hh & Ha) Hd]. unfold account in Ha. cbn in *.
    pose proof (push_holds s l0 over m Hh) as Hp. rewrite H0 in Hp. destruct ok.
    + destruct Hp as (l' & over' & Hh' & Hp). split; [|done]. exists l', over'. split; [done|]. unfold account. cbn. rewrite Ha, Hp. perm.
    + split; [|done]. exists l0, over. split; [done|]. unfold account. cbn. rewrite Ha. perm.
  - shifts (@nil M).
  - shifts (@nil M).
Qed.

Lemma shutdown_keeps s s' : shutdown_step s s' → conserved s → conserved s'.
Proof using.
  intros Hs Hc. destruct Hs; [| | |eapply drained_conserved in Hc; [exact Hc|done..]|..]; shifts (@nil M).
  rewrite in_hand_if by done. cbn. perm.
Qed.

Lemma kafka_step_keeps s s' : step s s' → conserved s → conserved s'.
Proof using.
  intros [Hs|[Hs|[Hs|[Hs|Hs]]]]; [by apply producer_keeps|by apply send_keeps|by apply batch_keeps|by apply tick_keeps|by apply shutdown_keeps].
Qed.

Lemma kafka_start_keeps st found b : fresh found st → conserved (start st found b).
Proof using.
  intros [Hst Hf]. destruct found as [[l sp]|]; cbn [start].
  - pose proof (resume_spec (chan_size opts) l [] sp st (mkGhost [] [] [] [] []) [] []) as Hr.
    destruct (resume (chan_size opts) l [] sp st _) as [[[q sp'] st'] g].
    destruct Hr as (l' & over & Hh & Ha & Hd & _); [by split|apply Permutation_refl|by rewrite Hst|].
    split; [|done]. exists l', over. split; [done|]. unfold account, Pipeline.account in *. cbn in *. by rewrite Ha.
  - split; [exists [], []; by split; [|apply Permutation_refl]|by cbn; rewrite Hst].
Qed.

Lemma kafka_run_keeps st found b s : fresh found st → rtc step (start st found b) s → conserved s.
Proof using.
  intros Hf Hs. pose proof (kafka_start_keeps st found b Hf) as Hc.
  induction Hs as [|s1 s2 s3 Hs _ IH]; [done|]. apply IH. by eapply kafka_step_keeps.
Qed.

(** ** Losses that no counter of dropped messages shows *)

(** A refill cut short by the full channel with messages in hand, but for one that the
    store takes back; a failed [Send] of [drainSpillToProducer]; a failed send without a
    store. *)
Definition loses (s s' : sys) : Prop :=
  (∃ m l, daemon s = KRefilling (m :: l) ∧ daemon s' = KEvaluate ∧ (l ≠ [] ∨ ∃ sp, spiller s = Some sp ∧ (sp_push sp m).1 = false)) ∨
  (∃ m l, daemon s = KSpilling (m :: l) ∧ daemon s' = KSpilling l ∧ handed (log s') = handed (log s)) ∨
  (spiller s = None ∧ (length (in_hand (daemon s') ++ batch s') < length (in_hand (daemon s) ++ batch s))%nat ∧ handed (log s') = handed (log s)).
Definition keep_step (s s' : sys) : Prop := step s s' ∧ ¬ loses s s'.

Lemma failover_abandoned sp st c g m sp' st' c' g' : failover sp st c g m = (sp', st', c', g') → abandoned g' = abandoned g.
Proof using. unfold failover. intros H. destruct sp as [s|]; simplify_eq; [|done]. destruct (sp_push s m) as [[] ?]; by simplify_eq. Qed.

Lemma keep_step_ok s s' : keep_step s s' → failed s = [] → abandoned (log s) = [] → failed s' = [] ∧ abandoned (log s') = [].
Proof using.
  intros [Hs Hk] Hfa Hab. destruct Hs as [Hs|[Hs|[Hs|[Hs|Hs]]]]; destruct Hs; cbn in *; try done.
  - by erewrite overflow_abandoned.
  - by erewrite failover_abandoned.
  - destruct sp as [s|]; [destruct H0 as [H0 ->]; by erewrite failover_abandoned|]. destruct H0 as (-> & -> & -> & -> & ->).
    destruct Hk. right. right. cbn. split_and!; [done|lia|done].
  - by rewrite hand_all.
  - destruct Hk. right. right. cbn. split_and!; [done| |done]. rewrite in_hand_resume. by destruct ba; cbn; [|lia].
  - by erewrite failover_abandoned.
  - split; [done|]. rewrite Hab. cbn. destruct ok, l as [|m' l]; try done; destruct Hk; left; exists m; eexists; cbn; (split; [done|split; [done|]]); try (by left).
    right. exists s. by rewrite H0.
  - destruct Hk. right. left. exists m, l. by cbn.
Qed.
Lemma keep_run st found b s : rtc keep_step (start st found b) s → failed s = [] ∧ abandoned (log s) = [].
Proof using.
  intros Hs. assert (H0 : failed (start st found b) = [] ∧ abandoned (log (start st found b)) = []).
  { destruct found as [[l sp]|]; [|done]. cbn [start]. pose proof (resume_abandoned (chan_size opts) l [] sp st (mkGhost [] [] [] [] [])) as Hr.
    by destruct (resume (chan_size opts) l [] sp st _) as [[[q sp'] st'] g]. }
  induction Hs as [|s1 s2 s3 Hs _ IH]; [done|]. destruct H0. by apply IH, (keep_step_ok s1).
Qed.

Lemma kafka_no_store st b s : rtc step (start st None b) s → spiller s = None.
Proof using.
  intros Hs. remember (start st None b) as s0 eqn:E. assert (H0 : spiller s0 = None) by by subst. clear E.
  induction Hs as [|s1 s2 s3 Hs _ IH]; [done|]. apply IH. destruct Hs as [Hs|[Hs|[Hs|[Hs|Hs]]]]; destruct Hs; cbn in *; subst; try done; cbn in *; simplify_eq; try done.
  - unfold overflow in *. by destruct (policy opts); simplify_eq.
  - naive_solver.
Qed.

(** ** Shutdown *)

(** [closing] is up and every caller that is inside [send] has yet to test it. *)
Definition quiet (s : sys) : Prop := closing s = true ∧ Forall (λ p, p.1 = Entered) (producers s).

(** Past the loop over the channel nothing comes back, and the last flush has sent or
    diverted the batch. *)
Definition emptied (s : sys) : Prop :=
  match daemon s with
  | KFlushing ToSpill => messages s = []
  | KFailing _ ToSpill | KSpillStart => messages s = [] ∧ batch s = []
  | KSpilling _ | KQuitting | KEnded =>
      messages s = [] ∧ batch s = [] ∧ (rename_fails = false → ∃ over, holds (lossless := lossless) (spiller s) [] over)
  | _ => True
  end.

Lemma quiet_callers s s' : producer_step s s' → quiet s → quiet s' ∧ (emptied s → emptied s').
Proof using.
  intros Hs [Hcl Hps]. destruct Hs; cbn in Hcl, Hps; try (apply Forall_app in Hps as [? [? ?]%Forall_cons]; done).
  - split; [|done]. split; [done|]. apply Forall_app. split; [done|]. by repeat constructor.
  - apply Forall_app in Hps as [Hp1 [_ Hp2]%Forall_cons]. split; [|done]. split; [done|]. by apply Forall_app.
Qed.

Lemma quiet_daemon s s' : send_step s s' ∨ batch_step s s' ∨ tick_step s s' ∨ shutdown_step s s' → quiet s → quiet s'.
Proof using. unfold quiet. intros [Hs|[Hs|[Hs|Hs]]]; destruct Hs; cbn; by intros [??]. Qed.

Lemma emptied_daemon s s' : batchMode opts = true → send_step s s' ∨ batch_step s s' ∨ tick_step s s' ∨ shutdown_step s s' →
  conserved s → emptied s → emptied s'.
Proof using.
  unfold emptied. intros Hb [Hs|[Hs|[Hs|Hs]]] Hc He; destruct Hs; cbn in *; try done; try congruence; try (by destruct a); try (by destruct c);
    try (by destruct (batchSize opts <=? _)%nat).
  - destruct a; [done..|]. split; [done|]. destruct H; [congruence|done].
  - destruct He as [Hq Hba]. split_and!; [done..|]. intros E. destruct Hc as [(l0 & over & [Hr Ho] & _) _]. exists over.
    pose proof (drain_ok r s l0 Hr) as Hk. rewrite H0 in Hk. destruct Hk as (l' & Hr' & _ & Hdr).
    rewrite E, orb_false_r in H. split; [|done]. by rewrite <- (Hdr H).
  - destruct He as [Hq Hba]. split_and!; [done..|]. intros _. by exists [].
Qed.

Lemma kafka_quiet_run s s' : batchMode opts = true → rtc step s s' → conserved s → quiet s → emptied s →
  conserved s' ∧ quiet s' ∧ emptied s'.
Proof using.
  intros Hb. induction 1 as [|s1 s2 s3 Hs _ IH]; intros Hc Hq He; [done|].
  apply IH; [by eapply kafka_step_keeps|..]; destruct Hs as [Hs|Hs].
  - by apply (quiet_callers _ _ Hs Hq).
  - by eapply quiet_daemon.
  - apply (quiet_callers _ _ Hs Hq), He.
  - by eapply emptied_daemon.
Qed.
End kafka.

(** ** Theorems *)

Section theorems.
Context {S M : Type} `{Ops : SpillerOps S M} {lossless : bool} `{Spec : !SpillerSpec S M lossless}.
Context (opts : options) (rename_fails : bool).

(** However callers, daemon, breaker, producer events and [Stop] are interleaved, every
    message that entered [send] or was recovered at the start is with its caller, in the
    channel, in the daemon's hand or batch, in the store, accepted by the producer, or
    lost, each in one of these only.  The drop counter counts the lost messages but for
    the silent ones; there are none of these while no step loses a message, if there is
    no store or one that does not overwrite. *)
Theorem kafka_conserves st found b s : fresh found st → rtc (step opts rename_fails) (start opts st found b) s →
  ∃ stored counted silent, in_store (spiller s) stored ∧
    offered (log s) ≡ₚ (producers s).*2 ++ messages s ++ in_hand (daemon s) ++ batch s ++ stored ++ handed (log s) ++ counted ++ silent ∧
    dropped (stats s) = u64 (Z.of_nat (length counted)) ∧
    (found = None ∨ lossless = true → rtc (keep_step opts rename_fails) (start opts st found b) s → silent = []).
Proof using.
  intros Hf Hs. destruct (kafka_run_keeps _ _ _ _ _ _ Hf Hs) as [(l & over & Hh & Ha) Hd].
  exists l, (dropped_ (log s)), (failed s ++ abandoned (log s) ++ over). split_and!; [|unfold account in Ha; rewrite Ha; perm|done|].
  - destruct (spiller s); apply Hh.
  - intros Hl Hk. destruct (keep_run _ _ _ _ _ _ Hk) as [-> ->]. cbn. destruct Hl as [->|Hl]; [|destruct (spiller s); destruct Hh as [_ Hh]; [by apply Hh|done]].
    rewrite (kafka_no_store _ _ _ _ _ Hs) in Hh. by destruct Hh.
Qed.

(** C20: in batch mode, where renames succeed, from any state in which [closing] is up, no caller
    is past its test of it and the daemon has not yet left its loop over the channel: when the
    daemon has ended, channel, batch and store are empty, and every message that entered,
    but for those of callers still to find [closing] up, was accepted by the producer or is
    lost; and every loss is in the drop counter if there is no store or one that does not
    overwrite, and no refill was cut short, no send failed without a store, and no send of
    the last drain failed. *)
Theorem kafka_batch_shutdown st found b s s' : fresh found st → rtc (step opts rename_fails) (start opts st found b) s →
  batchMode opts = true → rename_fails = false →
  quiet s → match daemon s with KIdle | KTicked | KOpened | KRefilling _ | KEvaluate | KDraining => True | _ => False end →
  rtc (step opts rename_fails) s s' → daemon s' = KEnded →
  messages s' = [] ∧ batch s' = [] ∧ in_store (spiller s') [] ∧ Forall (λ p, p.1 = Entered) (producers s') ∧
  ∃ counted silent, offered (log s') ≡ₚ (producers s').*2 ++ handed (log s') ++ counted ++ silent ∧
    dropped (stats s') = u64 (Z.of_nat (length counted)) ∧
    (found = None ∨ lossless = true → rtc (keep_step opts rename_fails) (start opts st found b) s' → silent = []).
Proof using.
  intros Hf Hs Hb Hrn Hq Hd Hs' He. pose proof (kafka_run_keeps _ _ _ _ _ _ Hf Hs) as Hc.
  destruct (kafka_quiet_run _ _ _ _ Hb Hs' Hc Hq) as (_ & [_ Hps] & Hem).
  { unfold emptied. by destruct (daemon s). }
  unfold emptied in Hem. rewrite He in Hem. destruct Hem as (Hm & Hba & Hsp). destruct (Hsp Hrn) as [over' Hh'].
  assert (rtc (step opts rename_fails) (start opts st found b) s') as Hall by (by etrans).
  destruct (kafka_conserves _ _ _ _ Hf Hall) as (l & counted & silent & Hl & Ho & Hdr & Hsil).
  assert (l = []) as -> by (by eapply in_store_nil). split_and!; [done..|]. exists counted, silent. split_and!; [|done|done].
  by rewrite Ho, Hm, Hba, He.
Qed.
End theorems.

(** ** Two writers without a store *)

#[local] Instance zring : SpillerOps (@RingSpiller Z) Z := ring_ops 0.
#[local] Instance zring_spec : SpillerSpec (@RingSpiller Z) Z false := ring_spec 0.

Definition one_by_one : options := mkOptions OverflowDrop 8 false 0.
Definition in_batches : options := mkOptions OverflowDrop 8 true 0.
Definition no_stats : OverflowStats := mkStats 0 0 1000 1000.

Notation kdemo_start o := (start (S := @RingSpiller Z) (M := Z) o no_stats None None).
Notation kdemo_step o := (step (S := @RingSpiller Z) (M := Z) o false).

Tactic Notation "by_sender" uconstr(r) := eapply rtc_l; [left; eapply r with (p1 := []) (p2 := []); try (vm_compute; lia); try done; try reflexivity|cbn].
Tactic Notation "by_flush" uconstr(r) := eapply rtc_l; [right; right; left; eapply r; try (by left); try done; try reflexivity|cbn].
Tactic Notation "by_shutdown" uconstr(r) := eapply rtc_l; [right; right; right; right; eapply r|cbn].

(** A message in the channel when [Stop] is called: [drainOnShutdown] takes it into the
    batch, [flush] does nothing, and the daemon ends.  The message was never given to
    the producer and no counter shows it. *)
Example kafka_shutdown_loses : ∃ s, rtc (kdemo_step one_by_one) (kdemo_start one_by_one) s ∧
  daemon s = KEnded ∧ offered (log s) = [7] ∧ handed (log s) = [] ∧ failed s = [] ∧ messages s = [] ∧ batch s = [7] ∧
  dropped (stats s) = 0 ∧ cnt s = mkCounters 0 0 0 0 0.
Proof.
  eexists. split.
  - cbn. eapply rtc_l; [left; apply p_enter with (m := 7)|cbn]. by_sender p_open. by_sender p_send.
    by_shutdown k_claim. by_shutdown k_close. by_shutdown k_stop. by_shutdown k_left. by_shutdown k_drained.
    by_flush k_flush_noop. by_shutdown k_spill_none. by_shutdown k_spilled. by_shutdown k_quit. apply rtc_refl.
  - by split_and!.
Qed.

Definition kdemo_stopped : sys := mkSys (S := @RingSpiller Z) [7] None no_stats (mkCounters 0 0 0 0 0) None true true [] KDraining [] []
  (mkGhost [7] [7] [] [] []).
Definition kdemo_ended : sys := mkSys (S := @RingSpiller Z) [] None no_stats (mkCounters 1 0 0 1 1) None true true [] KEnded [] []
  (mkGhost [7] [7] [7] [] []).

Lemma kdemo_stopped_reachable : rtc (kdemo_step in_batches) (kdemo_start in_batches) kdemo_stopped.
Proof.
  cbn. eapply rtc_l; [left; apply p_enter with (m := 7)|cbn]. by_sender p_open. by_sender p_send.
  by_shutdown k_claim. by_shutdown k_close. by_shutdown k_stop. apply rtc_refl.
Qed.

Lemma kdemo_ends : rtc (kdemo_step in_batches) kdemo_stopped kdemo_ended.
Proof.
  unfold kdemo_stopped. by_shutdown k_left. by_shutdown k_drained. by_flush k_flush_sent.
  by_shutdown k_spill_none. by_shutdown k_spilled. by_shutdown k_quit. apply rtc_refl.
Qed.

Lemma kafka_batch_shutdown_witness : messages kdemo_ended = [] ∧ batch kdemo_ended = [] ∧
  ∃ counted silent, [7] ≡ₚ [] ++ [7] ++ counted ++ silent ∧ 0 = u64 (Z.of_nat (length counted)).
Proof.
  destruct (kafka_batch_shutdown (lossless := false) in_batches false no_stats None None kdemo_stopped kdemo_ended)
    as (Hm & Hb & _ & _ & counted & silent & Ha & Hd & _);
    [split; [reflexivity|exact I]|apply kdemo_stopped_reachable|reflexivity|reflexivity|by split|exact I|apply kdemo_ends|reflexivity|].
  split; [exact Hm|]. split; [exact Hb|]. exists counted, silent. split; [exact Ha|exact Hd].
Defined.
