(* ===== verification/IP.v ===== *)
(** * IP: addresses, CIDR blocks and matching ([ip/ip.go], [base_and_util.go], [cidr.go], [match.go])

    An address is a slice of bytes, as [net.IP] is: 4 or 16 of them when valid.  What
    the package uses of [net] is written out here: [ParseIP], [To4], [To16], [Mask],
    [CIDRMask], [IP.Equal], [IPNet.Contains].

    Shown: the package's own printers give texts that [ParseIP] reads back as the same
    address ([ip_text_roundtrip]); numbers and addresses convert back and forth
    ([ip_number_roundtrip]); a CIDR block contains exactly the addresses whose number
    has the same leading bits ([cidr_contains_numeric]), and the scans over mixed addresses
    and blocks agree ([scans_agree]); ranges compare numbers ([in_range_numeric]); masks print
    and read back ([mask_text_roundtrip]); what is parsed is an address ([ParseIP_valid]).
    [malformed_mask_matches_all] shows that an unreadable mask becomes a prefix of
    length zero, [fuzzy_unchecked] that the parts after the first star are not checked. *)

From Stdlib Require Import ZArith Lia Ascii String.
From stdpp Require Import base tactics numbers list strings.
From S2P Require Import Prelude GoStd.

#[local] Open Scope string_scope.
#[local] Open Scope list_scope.
#[local] Open Scope Z_scope.

(** ** What is used of package net *)

Definition v4InV6Prefix : list Z := [0; 0; 0; 0; 0; 0; 0; 0; 0; 0; 255; 255].

(** A nil address is the empty list. *)
Definition To4 (ip : list Z) : list Z :=
  if (length ip =? 4)%nat then ip
  else if (length ip =? 16)%nat && bool_decide (take 12 ip = v4InV6Prefix) then drop 12 ip else [].
Definition To16 (ip : list Z) : list Z :=
  if (length ip =? 4)%nat then v4InV6Prefix ++ ip else if (length ip =? 16)%nat then ip else [].

Definition IP_Equal (ip x : list Z) : bool :=
  if (length ip =? length x)%nat then bool_decide (ip = x)
  else if (length ip =? 4)%nat && (length x =? 16)%nat then bool_decide (take 12 x = v4InV6Prefix) && bool_decide (ip = drop 12 x)
  else if (length ip =? 16)%nat && (length x =? 4)%nat then bool_decide (take 12 ip = v4InV6Prefix) && bool_decide (drop 12 ip = x)
  else false.

(** The loop of [net.CIDRMask] with [n] bits to go. *)
Fixpoint mask_bytes (l : nat) (n : Z) : list Z :=
  match l with
  | O => []
  | S l => if 8 <=? n then 255 :: mask_bytes l (n - 8) else (255 - Z.shiftr 255 n) :: mask_bytes l 0
  end.
Definition CIDRMask (ones bits : Z) : list Z :=
  if negb ((bits =? 32) || (bits =? 128)) then []
  else if (ones <? 0) || (bits <? ones) then []
  else mask_bytes (Z.to_nat (bits / 8)) ones.

Definition and_bytes (a b : list Z) : list Z := zip_with Z.land a b.

Definition Mask (ip mask : list Z) : list Z :=
  let mask := if (length mask =? 16)%nat && (length ip =? 4)%nat && bool_decide (take 12 mask = replicate 12 255) then drop 12 mask else mask in
  let ip := if (length mask =? 4)%nat && (length ip =? 16)%nat && bool_decide (take 12 ip = v4InV6Prefix) then drop 12 ip else ip in
  if (length ip =? length mask)%nat then and_bytes ip mask else [].

(** A network: [net.IPNet]; [Contains] with [networkNumberAndMask]. *)
Record IPNet := mkNet { net_IP : list Z; net_Mask : list Z }.
Definition networkNumberAndMask (n : IPNet) : list Z * list Z :=
  let ip := match To4 (net_IP n) with [] => net_IP n | ip => ip end in
  if negb ((length ip =? 4)%nat || (length ip =? 16)%nat) then ([], [])
  else
    let m := net_Mask n in
    if (length m =? 4)%nat then (if (length ip =? 4)%nat then (ip, m) else ([], []))
    else if (length m =? 16)%nat then (ip, if (length ip =? 4)%nat then drop 12 m else m)
    else ([], []).
Fixpoint same_masked (nn m ip : list Z) : bool :=
  match nn, m, ip with
  | a :: nn, k :: m, b :: ip => (Z.land a k =? Z.land b k) && same_masked nn m ip
  | _, _, _ => true
  end.
Definition Contains (n : IPNet) (ip : list Z) : bool :=
  let '(nn, m) := networkNumberAndMask n in
  let ip := match To4 ip with [] => ip | x => x end in
  (length ip =? length nn)%nat && same_masked nn m ip.

(** *** [net.ParseIP] *)

Definition dec_digit (c : ascii) : option Z := if is_digit c then Some (digit_val c) else None.

(** [parseIPv4Fields]: [fields] read so far, the current value with its digits, and
    whether the previous byte was a dot (or there was none). *)
Fixpoint v4_loop (s : string) (fields : list Z) (val : Z) (digLen : nat) : option (list Z) :=
  match s with
  | EmptyString => if (digLen =? 0)%nat then None else if (length fields =? 3)%nat then Some (fields ++ [val]) else None
  | String c r =>
      if is_digit c then
        if (digLen =? 1)%nat && (val =? 0) then None
        else let val := val * 10 + digit_val c in if 255 <? val then None else v4_loop r fields val (S digLen)
      else if Ascii.eqb c "." then
        if (digLen =? 0)%nat then None
        else if (length fields =? 3)%nat then None
        else v4_loop r (fields ++ [val]) 0 0
      else None
  end.
Definition parseIPv4Fields (s : string) : option (list Z) := v4_loop s [] 0 0.

Definition hex_nibble (c : ascii) : option Z :=
  let b := byte_of c in
  if (48 <=? b) && (b <=? 57) then Some (b - 48)
  else if (97 <=? b) && (b <=? 102) then Some (b - 87)
  else if (65 <=? b) && (b <=? 70) then Some (b - 55)
  else None.
(** The digits of one group: at most four; its value, and the rest. *)
Fixpoint hex_digits (s : string) (off : nat) (acc : Z) : option (Z * nat * string) :=
  match s with
  | EmptyString => Some (acc, off, "")
  | String c r =>
      match hex_nibble c with
      | Some d => if (3 <? off)%nat then None else if 65535 <? acc * 16 + d then None else hex_digits r (S off) (acc * 16 + d)
      | None => Some (acc, off, s)
      end
  end.

(** The loop over the groups, with the bytes so far and the place of the ellipsis; a
    group takes a round and there are at most eight. *)
Fixpoint group_loop (fuel : nat) (s : string) (ip : list Z) (ellipsis : option nat) : option (list Z * option nat) :=
  if (16 <=? length ip)%nat then match s with EmptyString => Some (ip, ellipsis) | _ => None end
  else match fuel with
  | O => None
  | S fuel =>
      '(acc, off, r) ← hex_digits s 0 0;
      if (off =? 0)%nat then None
      else match r with
      | EmptyString => Some (ip ++ [acc / 256; acc mod 256], ellipsis)
      | String c r =>
          if Ascii.eqb c "." then
            if (match ellipsis with None => negb (length ip =? 12)%nat | Some _ => false end) || (16 <? length ip + 4)%nat then None
            else v4 ← parseIPv4Fields s; Some (ip ++ v4, ellipsis)
          else if negb (Ascii.eqb c ":") then None
          else
            let ip := ip ++ [acc / 256; acc mod 256] in
            match r with
            | EmptyString => None
            | String c r' =>
                if Ascii.eqb c ":" then
                  match ellipsis with
                  | Some _ => None
                  | None => match r' with EmptyString => Some (ip, Some (length ip)) | _ => group_loop fuel r' ip (Some (length ip)) end
                  end
                else group_loop fuel r ip ellipsis
            end
      end
  end.
(** After two colons at the start, or [None] for a text that has something else there. *)
Definition after_colons (s : string) : option string :=
  match s with String c (String d r) => if Ascii.eqb c ":" && Ascii.eqb d ":" then Some r else None | _ => None end.
Definition parseIPv6 (s : string) : option (list Z) :=
  '(ip, ellipsis) ←
    match after_colons s with
    | Some EmptyString => Some ([], Some 0%nat)
    | Some r => group_loop 9 r [] (Some 0%nat)
    | None => group_loop 9 s [] None
    end;
  if (length ip <? 16)%nat then e ← ellipsis; Some (take e ip ++ replicate (16 - length ip) 0 ++ drop e ip)
  else match ellipsis with Some _ => None | None => Some ip end.

(** The first dot or colon decides; a percent sign, which starts a zone, makes the
    address one that [ParseIP] refuses. *)
Fixpoint version_of (s : string) : option bool :=
  match s with
  | EmptyString => None
  | String c r => if Ascii.eqb c "." then Some false else if Ascii.eqb c ":" then Some true else if Ascii.eqb c "%" then None else version_of r
  end.
Fixpoint has_byte (b : ascii) (s : string) : bool := match s with EmptyString => false | String c r => Ascii.eqb c b || has_byte b r end.
(** [netip.ParseAddr] without a zone: whether the text is an IPv6 one, and the bytes. *)
Definition ParseAddr (s : string) : option (bool * list Z) :=
  v6 ← version_of s;
  if (v6 : bool) then (if has_byte "%" s then None else ip ← parseIPv6 s; Some (true, ip))
  else ip ← parseIPv4Fields s; Some (false, ip).
Definition ParseIP (s : string) : list Z := match ParseAddr s with Some (_, ip) => To16 ip | None => [] end.

Example ParseIP_texts :
  ParseIP "1.2.3.4" = v4InV6Prefix ++ [1; 2; 3; 4] ∧ ParseIP "::ffff:1.2.3.4" = v4InV6Prefix ++ [1; 2; 3; 4] ∧
  ParseIP "1:2:3:4:5:6:7::" = [0; 1; 0; 2; 0; 3; 0; 4; 0; 5; 0; 6; 0; 7; 0; 0] ∧
  ParseIP <$> ["1.2.3"; "01.2.3.4"; "1::2::3"; "12345::"; "fe80::1%eth0"; "1:2:3:4:5:6:7:8:"; "1.2.3.256"; ""] = replicate 8 [].
Proof. vm_compute. by split_and!. Qed.

(** ** Printing ([base_and_util.go]) *)

(** Big-endian, in 32 bits. *)
Definition bytesToUint32 (b : list Z) : Z := foldl (λ r x, u32 (u32 (Z.shiftl r 8) + x)) 0 b.

Definition copyByteFromRight (src : list Z) (size : nat) : list Z :=
  if (size <=? length src)%nat then drop (length src - size) src else replicate (size - length src) 0 ++ src.

(** The text that [ubtoa] writes. *)
Definition ubtoa (v : Z) : string :=
  if v <? 10 then String (chr (v + 48)) ""
  else if v <? 100 then String (chr (v / 10 + 48)) (String (chr (v mod 10 + 48)) "")
  else String (chr (v / 100 + 48)) (String (chr ((v / 10) mod 10 + 48)) (String (chr (v mod 10 + 48)) "")).

Definition hexDigit (n : Z) : ascii := chr (if n <? 10 then 48 + n else 87 + n).
Fixpoint hexString (b : list Z) : string :=
  match b with [] => "" | tn :: b => String (hexDigit (Z.shiftr tn 4)) (String (hexDigit (Z.land tn 15)) (hexString b)) end.

(** The loop over [j] from 7 down. *)
Fixpoint hex_loop (k : nat) (dst : string) (i : Z) : string :=
  match k with
  | O => dst
  | S j => let v := Z.shiftr i (4 * Z.of_nat j) in hex_loop j (if 0 <? v then dst +:+ String (hexDigit (Z.land v 15)) "" else dst) i
  end.
Definition appendHex (dst : string) (i : Z) : string := if i =? 0 then dst +:+ "0" else hex_loop 8 dst i.

Definition toIPv4String (p : list Z) : string :=
  match To4 p with
  | [a; b; c; d] => ubtoa a +:+ "." +:+ ubtoa b +:+ "." +:+ ubtoa c +:+ "." +:+ ubtoa d
  | _ => ""
  end.

Definition byte_at (p : list Z) (i : Z) : Z := nth (Z.to_nat i) p 0.
(** The inner loop: the end of the run of zeros at [j]; at most eight rounds. *)
Fixpoint run_end (fuel : nat) (p : list Z) (j : Z) : Z :=
  match fuel with
  | O => j
  | S fuel => if (j <? 16) && (byte_at p j =? 0) && (byte_at p (j + 1) =? 0) then run_end fuel p (j + 2) else j
  end.
(** The outer loop: the longest run. *)
Fixpoint zero_run (fuel : nat) (p : list Z) (i e0 e1 : Z) : Z * Z :=
  match fuel with
  | O => (e0, e1)
  | S fuel =>
      if i <? 16 then
        let j := run_end 8 p i in
        if (i <? j) && (e1 - e0 <? j - i) then zero_run fuel p (j + 2) i j else zero_run fuel p (i + 2) e0 e1
      else (e0, e1)
  end.
(** The loop that prints, from [i] on. *)
Fixpoint print_loop (fuel : nat) (p : list Z) (e0 e1 i : Z) (b : string) : string :=
  match fuel with
  | O => b
  | S fuel =>
      if i <? 16 then
        let group b i := print_loop fuel p e0 e1 (i + 2) (appendHex b (Z.lor (Z.shiftl (byte_at p i) 8) (byte_at p (i + 1)))) in
        if i =? e0 then let b := b +:+ "::" in if 16 <=? e1 then b else group b e1
        else group (if 0 <? i then b +:+ ":" else b) i
      else b
  end.
Definition toIPv6String (p : list Z) : string :=
  if negb (length p =? 16)%nat then ""
  else
    let '(e0, e1) := zero_run 8 p 0 (-1) (-1) in
    let '(e0, e1) := if e1 - e0 <=? 2 then (-1, -1) else (e0, e1) in
    print_loop 8 p e0 e1 0 "".

(** [Flag]: the version asked for. *)
Definition FlagVInValid : Z := 0.
Definition FlagVAll : Z := 1.
Definition FlagV4 : Z := 4.
Definition FlagV6 : Z := 6.
Definition Flag_String (f : Z) : string :=
  if f =? FlagVAll then "ipv4_v6" else if f =? FlagV4 then "ipv4" else if f =? FlagV6 then "ipv6" else if f =? FlagVInValid then "invalid" else "".
Definition Valid (f : Z) : bool := (f =? FlagV4) || (f =? FlagV6).

Definition toIPString (ip : list Z) (flag : Z) : string :=
  match ip with
  | [] => ""
  | _ =>
      if flag =? FlagV4 then toIPv4String ip
      else if flag =? FlagV6 then toIPv6String ip
      else match toIPv4String ip with
           | EmptyString => if negb (length ip =? 16)%nat then "?" +:+ hexString ip else toIPv6String ip
           | s => s
           end
  end.

Example toIPString_texts :
  (λ s, toIPString (ParseIP s) 0) <$> ["1.2.3.4"; "::1"; "1::"; "1:0:0:4:0:0:0:8"; "1:0:3:4:5:6:7:8"; "::ffff:1.2.3.4"; "::"; "0:0:3:4:5:6:0:0"] =
    ["1.2.3.4"; "::1"; "1::"; "1:0:0:4::8"; "1:0:3:4:5:6:7:8"; "1.2.3.4"; "::"; "::3:4:5:6:0:0"].
Proof. vm_compute. reflexivity. Qed.

(** ** Conversions ([ip.go]) *)

(** [big.Int.SetBytes] and [Bytes]. *)
Definition SetBytes (b : list Z) : Z := foldl (λ r x, r * 256 + x) 0 b.
Fixpoint bytes_be (k : nat) (n : Z) (acc : list Z) : list Z :=
  match k with O => acc | S k => if n =? 0 then acc else bytes_be k (n / 256) (n mod 256 :: acc) end.
Definition Bytes (n : Z) : list Z := bytes_be (S (Z.to_nat (Z.log2 n))) n [].

Definition BytesIPToIPv4Number (ip : list Z) : Z :=
  if negb ((length ip =? 4)%nat || (length ip =? 16)%nat) then 0
  else SetBytes (if (length ip =? 16)%nat then drop 12 ip else ip).
Definition BytesIPToNumber (ip : list Z) : Z :=
  if negb ((length ip =? 4)%nat || (length ip =? 16)%nat) then 0 else SetBytes ip.
Definition VersionFlagByBytes (ip : list Z) : Z :=
  if (length (To4 ip) =? 4)%nat then FlagV4 else if (length (To16 ip) =? 16)%nat then FlagV6 else FlagVInValid.
Definition VersionFlag (ip : string) : Z := VersionFlagByBytes (ParseIP ip).
Definition IsV4 (ip : string) : bool := FlagV4 =? VersionFlag ip.
Definition IsV6 (ip : string) : bool := FlagV6 =? VersionFlag ip.
Definition VersionFlagByContains (ip : string) : Z :=
  match ParseIP ip with
  | [] => FlagVInValid
  | _ => if has_byte "." ip then FlagV4 else if has_byte ":" ip then FlagV6 else FlagVInValid
  end.
Definition NumberIPv4ToStr (ip : Z) : string :=
  toIPString [u8 (Z.shiftr ip 24); u8 (Z.shiftr ip 16); u8 (Z.shiftr ip 8); u8 ip] 0.

(** A nil [*big.Int] is [None]. *)
Definition NumberToIP (ip : option Z) (flag : Z) : list Z :=
  match ip with
  | None => []
  | Some n =>
      if n <? 0 then []
      else
        let ib := Bytes n in
        if (16 <? length ib)%nat then []
        else if flag =? FlagV4 then (if (4 <? length ib)%nat then [] else copyByteFromRight ib 4)
        else if flag =? FlagV6 then copyByteFromRight ib 16
        else if (length ib <=? 4)%nat then copyByteFromRight ib 4 else copyByteFromRight ib 16
  end.

Definition ToIP (ip : string) : list Z := ParseIP ip.
Definition ToIPReal (ip : string) : list Z :=
  let ib := ParseIP ip in if (length (To4 ib) =? 4)%nat then To4 ib else To16 ib.
Definition ToNumber (ip : string) : Z := match ToIPReal ip with [] => 0 | ib => SetBytes ib end.
Definition ToIPv4Number (ip : string) : Z :=
  match ToIPReal ip with [] => 0 | ib => if (length ib =? 4)%nat then bytesToUint32 ib else 0 end.
Definition ToNumberIPv4 (ip : string) : Z :=
  match ToIPReal ip with [] => 0 | ib => if (length ib =? 4)%nat then bytesToUint32 ib else bytesToUint32 (drop 12 ib) end.
Definition ToStrIP (ip : string) (flag : Z) : string := toIPString (ParseIP ip) flag.
Definition BytesIPToStr (ip : list Z) (flag : Z) : string := toIPString ip flag.
Definition IsV4ByBytesIP (ip : list Z) : bool := FlagV4 =? VersionFlagByBytes ip.
Definition IsV6ByBytesIP (ip : list Z) : bool := FlagV6 =? VersionFlagByBytes ip.

(** *** Numbers in text *)

(** [math/big]'s digits: [0-9], [a-z], then [A-Z] for the bases above 36, below which
    the two cases of a letter are the same digit. *)
Definition base_digit (d : Z) : ascii := chr (if d <? 10 then 48 + d else if d <? 36 then 87 + d else 29 + d).
Definition base_value (base : Z) (c : ascii) : option Z :=
  let b := byte_of c in
  d ← (if (48 <=? b) && (b <=? 57) then Some (b - 48)
       else if (97 <=? b) && (b <=? 122) then Some (b - 87)
       else if (65 <=? b) && (b <=? 90) then Some (if base <=? 36 then b - 55 else b - 29)
       else None);
  if d <? base then Some d else None.
Fixpoint text_acc (fuel : nat) (base n : Z) (acc : string) : string :=
  match fuel with
  | O => acc
  | S fuel => let acc := String (base_digit (n mod base)) acc in if n <? base then acc else text_acc fuel base (n / base) acc
  end.
(** [big.Int.Text] of a non-negative number. *)
Definition Text (base n : Z) : string := text_acc (S (Z.to_nat (Z.log2 n))) base n "".
Fixpoint scan_digits (base : Z) (s : string) (acc : Z) : option Z :=
  match s with EmptyString => Some acc | String c r => d ← base_value base c; scan_digits base r (acc * base + d) end.
(** [big.Int.SetString] for a given base: the whole text, with an optional sign. *)
Definition SetString (s : string) (base : Z) : option Z :=
  let '(neg, body) := match s with String "-" r => (true, r) | String "+" r => (false, r) | _ => (false, s) end in
  match body with EmptyString => None | _ => n ← scan_digits base body 0; Some (if neg : bool then - n else n) end.

Definition MaxBase : Z := 62.
(** [net.IP.String]: the text [toIPString] writes, but for a nil address. *)
Definition IP_String (ip : list Z) : string := match ip with [] => "<nil>" | _ => toIPString ip 0 end.
Definition TextNumberToIPStr (num : string) (base : Z) : string :=
  if (base <? 2) || (MaxBase <? base) then ""
  else match SetString num base with Some n => IP_String (NumberToIP (Some n) 0) | None => "" end.
Definition ToTextIPv4Number (ip : string) (base : Z) : string :=
  if (base <? 2) || (MaxBase <? base) then ""
  else match ToIP ip with [] => "" | ib => Text base (SetBytes (drop 12 ib)) end.
Definition ToTextNumber (ip : string) (base : Z) : string :=
  if (base <? 2) || (MaxBase <? base) then ""
  else match ToIPReal ip with [] => "" | ib => Text base (SetBytes ib) end.

(** *** Fuzzy addresses *)

(** [strings.Split] by a byte. *)
Fixpoint split_byte (sep : ascii) (s : string) : list string :=
  match s with
  | EmptyString => [""]
  | String c r =>
      if Ascii.eqb c sep then "" :: split_byte sep r
      else match split_byte sep r with w :: ws => String c w :: ws | [] => [String c ""] end
  end.
(** [strconv.ParseUint] in base 10 for 32 bits: digits only, no sign. *)
Definition ParseUint32 (s : string) : option Z :=
  match s with EmptyString => None | _ => n ← parse_digits s 0; if n <? 2 ^ 32 then Some n else None end.
Fixpoint replace_byte (a b : ascii) (s : string) : string :=
  match s with EmptyString => "" | String c r => String (if Ascii.eqb c a then b else c) (replace_byte a b r) end.
Fixpoint dot_zeros (k : nat) : string := match k with O => "" | S k => ".0" +:+ dot_zeros k end.

(** The check of the parts from [index] on: the prefix length and where the first star
    is, or nothing for a part that is not a byte. *)
Fixpoint fuzzy_loop (parts : list string) (index ones : Z) : option (Z * Z) :=
  match parts with
  | [] => Some (ones, -1)
  | p :: parts =>
      if String.eqb p "*" then Some (ones, index)
      else match ParseUint32 p with
           | Some v => if 255 <? v then None else fuzzy_loop parts (index + 1) ((index + 1) * 8)
           | None => None
           end
  end.
Definition ToCIDRStr (fuzzyIPV4 : string) : string :=
  if String.eqb fuzzyIPV4 "" then ""
  else
    let n := length (split_byte "." fuzzyIPV4) in
    if (n <=? 1)%nat || (4 <? n)%nat then ""
    else
      let fuzzyIPV4 := fuzzyIPV4 +:+ dot_zeros (4 - n) in
      match fuzzy_loop (split_byte "." fuzzyIPV4) 0 32 with
      | None => ""
      | Some (ones, pos) =>
          let '(fuzzyIPV4, ones) := if 0 <=? pos then (replace_byte "*" "0" fuzzyIPV4, 8 * pos) else (fuzzyIPV4, ones) in
          fuzzyIPV4 +:+ "/" +:+ Itoa ones
      end.

Example ToCIDRStr_documented :
  ToCIDRStr <$> ["192.168.1.1"; "192.168.1.*"; "192.168.*.*"; "192.*.*.*"; "192.*.*"; "192.*"; "*.*"; "*.*.*"; "*.*.*.*"] =
    ["192.168.1.1/32"; "192.168.1.0/24"; "192.168.0.0/16"; "192.0.0.0/8"; "192.0.0.0/8"; "192.0.0.0/8"; "0.0.0.0/0"; "0.0.0.0/0"; "0.0.0.0/0"].
Proof. vm_compute. reflexivity. Qed.

(** ** CIDR texts ([cidr.go]) *)

(** [net.dtoi] on the whole text: digits, below [0xFFFFFF]. *)
Fixpoint dtoi_loop (s : string) (n : Z) : option Z :=
  match s with
  | EmptyString => Some n
  | String c r => if is_digit c then let n := n * 10 + digit_val c in if 16777215 <=? n then None else dtoi_loop r n else None
  end.
Definition dtoi (s : string) : option Z := match s with EmptyString => None | _ => dtoi_loop s 0 end.
(** [net.ParseCIDR]: the address in 16 bytes and the network. *)
Definition net_ParseCIDR (s : string) : option (list Z * IPNet) :=
  match SplitN2 "/" s with
  | (_, None) => None
  | (addr, Some mask) =>
      '(v6, ip) ← ParseAddr addr;
      n ← dtoi mask;
      let bits := if (v6 : bool) then 128 else 32 in
      if bits <? n then None
      else let m := CIDRMask n bits in let a := To16 ip in Some (a, mkNet (Mask a m) m)
  end.

(** A nil network is [None]. *)
Definition ParseCIDR (cidr : string) : Z * string * option IPNet :=
  match net_ParseCIDR cidr with
  | None => (FlagVInValid, "", None)
  | Some (ip, n) => (VersionFlagByBytes ip, IP_String ip, Some n)
  end.
Definition MaskByte (cidr : string) : list Z :=
  match ParseCIDR cidr with (_, _, Some n) => net_Mask n | _ => [] end.
(** [net.IPMask.String]. *)
Definition IPMask_String (m : list Z) : string := match m with [] => "<nil>" | _ => hexString m end.
Definition MaskString (cidr : string) : string :=
  match ParseCIDR cidr with (_, _, Some n) => IPMask_String (net_Mask n) | _ => "" end.
Definition CIDRToIPMask (cidr : string) : string :=
  match ParseCIDR cidr with
  | (flag, ip, Some n) =>
      if String.eqb ip "" then ""
      else if (flag =? FlagV4) && (length (net_Mask n) =? 16)%nat then ip +:+ "/" +:+ IPMask_String (drop 12 (net_Mask n))
      else ip +:+ "/" +:+ IPMask_String (net_Mask n)
  | _ => ""
  end.

(** [hex.DecodeString]: the bytes before the first error; the error is not used. *)
Fixpoint DecodeString (s : string) : list Z :=
  match s with
  | String a (String b r) =>
      match hex_nibble a, hex_nibble b with Some x, Some y => (x * 16 + y) :: DecodeString r | _, _ => [] end
  | _ => []
  end.
(** The loop clears the lowest bit set: at most eight rounds for a byte. *)
Fixpoint weight_loop (fuel : nat) (num ones : Z) : Z :=
  match fuel with O => ones | S fuel => if 0 <? num then weight_loop fuel (Z.land num (num - 1)) (u8 (ones + 1)) else ones end.
Definition hammingWeight (num : Z) : Z := weight_loop 8 num 0.
Definition MaskIPToCIDR (ipMask : string) : string :=
  match split_byte "/" ipMask with
  | [ip; mask] =>
      let bits := String.length mask in
      if negb (bits =? 8)%nat && negb (bits =? 32)%nat then ""
      else
        let decodeS := DecodeString mask in
        let ones := foldl (λ ones b, u8 (ones + hammingWeight b)) 0 decodeS in
        let bitLen := u8 (Z.of_nat (length decodeS) * 8) in
        if negb (bool_decide (CIDRMask ones bitLen = decodeS)) then ""
        else ip +:+ "/" +:+ utoa ones
  | _ => ""
  end.

(** ** Matching ([match.go]) *)

(** [bytes.Compare], as a comparison. *)
Fixpoint bytes_Compare (a b : list Z) : comparison :=
  match a, b with
  | [], [] => Eq
  | [], _ => Lt
  | _, [] => Gt
  | x :: a, y :: b => match x ?= y with Eq => bytes_Compare a b | c => c end
  end.
Definition InRangeIP (start end' ip : list Z) : bool :=
  match ip with
  | [] => false
  | _ => match bytes_Compare ip start with Lt => false | _ => match bytes_Compare ip end' with Gt => false | _ => true end end
  end.
Definition InRange (start end' ip : string) : bool := InRangeIP (ToIP start) (ToIP end') (ToIP ip).
Definition InRangeIPv6 (start end' ip : list Z) : bool :=
  match ip with
  | [] => false
  | _ => match bytes_Compare (To16 ip) (To16 start) with
         | Lt => false
         | _ => match bytes_Compare (To16 ip) (To16 end') with Gt => false | _ => true end
         end
  end.
Definition InRangeCIDRIP (cidr : string) (ip : list Z) : bool :=
  match ip, cidr with
  | [], _ | _, EmptyString => false
  | _, _ => match ParseCIDR cidr with (valid, _, Some n) => Valid valid && Contains n ip | _ => false end
  end.
Definition InRangeCIDRStr (cidr ip : string) : bool :=
  match ip, cidr with
  | EmptyString, _ | _, EmptyString => false
  | _, _ => match ParseCIDR cidr with (valid, _, Some n) => Valid valid && Contains n (ToIP ip) | _ => false end
  end.
Definition InRangeIPNet (subNet : option IPNet) (ip : list Z) : bool :=
  match ip, subNet with _ :: _, Some n => Contains n ip | _, _ => false end.

(** The first index with the property, from [i] on; [(-1, false)] when none has it. *)
Fixpoint first_index {A} (f : A → bool) (l : list A) (i : Z) : Z * bool :=
  match l with [] => (-1, false) | x :: l => if f x then (i, true) else first_index f l (i + 1) end.

Definition cidr_or_ip_matches (ip : list Z) (cidrOrIP : string) : bool :=
  if has_byte "/" cidrOrIP then
    match ParseCIDR cidrOrIP with (valid, _, Some n) => Valid valid && Contains n ip | _ => false end
  else match ToIP cidrOrIP with [] => false | sp => IP_Equal sp ip end.
Definition InCIDRsOrIPs (cidrOrIPs : list string) (ip : list Z) : Z * bool := first_index (cidr_or_ip_matches ip) cidrOrIPs 0.

(** One entry of the fast scan, for an address of 4 or 16 bytes. *)
Definition fast_entry (ip entry : list Z) : bool :=
  if (length entry =? length ip)%nat then bool_decide (entry = ip)
  else match entry with
  | bits :: nn =>
      if (length nn =? length ip)%nat then
        let ipBits := 8 * Z.of_nat (length ip) in
        if ipBits <? bits then false else same_masked nn (CIDRMask bits ipBits) ip
      else false
  | [] => false
  end.
Definition FastInRangeMixedIPsOrCIDRs (mixed : list (list Z)) (ip : list Z) : Z * bool :=
  if negb (length ip =? 4)%nat && negb (length ip =? 16)%nat then (-1, false)
  else first_index (fast_entry ip) mixed 0.

Definition CIDRContains (ones : Z) (ipNet ip : list Z) (formatIPToV4 : bool) : bool :=
  let maskBytesLen := Z.of_nat (length ipNet) in
  if (8 * maskBytesLen <? ones) || (ones <? 0) then false
  else if negb (length ip =? 4)%nat && negb (length ip =? 16)%nat then false
  else if negb (length ipNet =? 4)%nat && negb (length ipNet =? 16)%nat then false
  else
    let ip := if formatIPToV4 && (length (To4 ip) =? 4)%nat then To4 ip else ip in
    let ipNet := if (length (To4 ipNet) =? 4)%nat then To4 ipNet else ipNet in
    if (ones =? 8 * maskBytesLen) && (length ip =? length ipNet)%nat then IP_Equal ipNet ip
    else
      let m := CIDRMask ones (8 * maskBytesLen) in
      let m := if (maskBytesLen =? 16) && (length ipNet =? 4)%nat then drop 12 m else m in
      let nn := Mask ipNet m in
      if negb (length ip =? length nn)%nat then false else same_masked nn m ip.

Definition mixed_entry (ip entry : list Z) : bool :=
  match entry with
  | bits :: nn =>
      if (length entry =? 5)%nat || (length entry =? 17)%nat then CIDRContains bits nn ip false
      else CIDRContains (8 * Z.of_nat (length entry)) entry ip false
  | [] => CIDRContains 0 [] ip false
  end.
Definition InRangeMixedIPsOrCIDRs (mixed : list (list Z)) (ip : list Z) : Z * bool :=
  if negb (length ip =? 4)%nat && negb (length ip =? 16)%nat then (-1, false)
  else
    let ip := if (length (To4 ip) =? 4)%nat then To4 ip else ip in
    first_index (mixed_entry ip) mixed 0.

Example fuzzy_unchecked : ToCIDRStr "10.*.x.300" = "10.0.x.300/8".
Proof. vm_compute. reflexivity. Qed.
Example malformed_mask_matches_all : MaskIPToCIDR "10.0.0.1/zzzzzzzz" = "10.0.0.1/0" ∧ MaskIPToCIDR "10.0.0.1/ffffff01" = "".
Proof. vm_compute. by split. Qed.
Example CIDR_texts :
  ParseCIDR "192.0.2.1/24" = (FlagV4, "192.0.2.1", Some (mkNet [192; 0; 2; 0] [255; 255; 255; 0])) ∧
  CIDRToIPMask "2001:db8::1/32" = "2001:db8::1/ffffffff000000000000000000000000" ∧
  ParseCIDR "192.0.2.1/33" = (FlagVInValid, "", None) ∧
  InCIDRsOrIPs ["10.0.0.0/8"; "1.2.3.4"] (ParseIP "1.2.3.4") = (1, true) ∧
  TextNumberToIPStr "-1" 10 = "<nil>" ∧ TextNumberToIPStr (ToTextNumber "::1" 10) 10 = "0.0.0.1".
Proof. vm_compute. by split_and!. Qed.

(** ** Reading back what is printed *)

Definition is_byte (b : Z) : Prop := 0 ≤ b < 256.
Definition bytes_ok (ip : list Z) : Prop := Forall is_byte ip.

Lemma has_byte_app b s t : has_byte b (s +:+ t) = has_byte b s || has_byte b t.
Proof. induction s as [|c s IH]; cbn; [done|]. rewrite app_cons_str. cbn. by rewrite IH, orb_assoc. Qed.

(** *** Four bytes *)

Lemma v4_loop_ubtoa a r fields : is_byte a →
  v4_loop (ubtoa a +:+ r) fields 0 0 = v4_loop r fields a (String.length (ubtoa a)).
Proof.
  intros Ha. unfold is_byte in Ha. unfold ubtoa. rewrite !(Z.add_comm _ 48).
  destruct (Z.ltb_spec a 10); [|destruct (Z.ltb_spec a 100)]; rewrite !app_cons_str, !app_nil_l_str; cbn [v4_loop String.length];
    rewrite ?is_digit_chr, ?digit_val_chr by (Z.div_mod_to_equations; lia); cbn [Nat.eqb andb];
    repeat (rewrite (proj2 (Z.ltb_ge 255 _)) by (Z.div_mod_to_equations; lia));
    repeat (rewrite (proj2 (Z.eqb_neq (0 * 10 + _) 0)) by (Z.div_mod_to_equations; lia)); f_equal; Z.div_mod_to_equations; lia.
Qed.

(** *** Groups of sixteen bits *)

Definition group (a b : Z) : Z := Z.lor (Z.shiftl a 8) b.
Definition hex_text (g : Z) : string := appendHex "" g.

Lemma hex_loop_app k dst i : hex_loop k dst i = dst +:+ hex_loop k "" i.
Proof.
  revert dst. induction k as [|k IH]; intros dst; cbn; [by rewrite app_nil_r_str|].
  rewrite IH. symmetry. rewrite IH. case_match; [|done]. by rewrite app_assoc_str.
Qed.
Lemma appendHex_app dst i : appendHex dst i = dst +:+ hex_text i.
Proof. unfold hex_text, appendHex. case_match; [done|apply hex_loop_app]. Qed.

(** The text as the digits without leading zeros. *)
Fixpoint nibble_text (d : list Z) : string := match d with [] => "" | x :: d => String (hexDigit x) (nibble_text d) end.
Lemma hex_loop_skip j dst g : 0 ≤ g < 16 ^ Z.of_nat j → hex_loop (S j) dst g = hex_loop j dst g.
Proof.
  intros H. cbn [hex_loop]. rewrite Z.shiftr_div_pow2, Z.pow_mul_r, Z.div_small by (change (2 ^ 4) with 16; lia). done.
Qed.
Lemma hex_loop_take j dst g : 16 ^ Z.of_nat j ≤ g →
  hex_loop (S j) dst g = hex_loop j (dst +:+ String (hexDigit ((g / 16 ^ Z.of_nat j) mod 16)) "") g.
Proof.
  intros H. cbn [hex_loop]. rewrite Z.shiftr_div_pow2, Z.pow_mul_r by lia. change (2 ^ 4) with 16.
  change 15 with (Z.ones 4). rewrite Z.land_ones by lia. assert (0 < 16 ^ Z.of_nat j) by lia.
  rewrite (proj2 (Z.ltb_lt 0 _)); [done|]. apply Z.div_str_pos. lia.
Qed.
Lemma hex_text_nibbles g : 0 ≤ g < 65536 →
  hex_text g = nibble_text (if g <? 16 then [g] else if g <? 256 then [g / 16; g mod 16]
    else if g <? 4096 then [g / 256; (g / 16) mod 16; g mod 16] else [g / 4096; (g / 256) mod 16; (g / 16) mod 16; g mod 16]).
Proof.
  intros Hg. unfold hex_text, appendHex. destruct (Z.eqb_spec g 0) as [->|Hn]; [done|].
  do 4 rewrite hex_loop_skip by (cbn; lia).
  destruct (Z.ltb_spec g 16); [|destruct (Z.ltb_spec g 256); [|destruct (Z.ltb_spec g 4096)]];
    repeat (first [rewrite hex_loop_skip by (cbn; lia) | rewrite hex_loop_take by (cbn; lia)]); cbn [hex_loop nibble_text];
    repeat first [rewrite app_cons_str | rewrite app_nil_l_str];
    repeat match goal with |- String (hexDigit _) _ = String (hexDigit _) _ => apply (f_equal2 String); [f_equal; cbn; Z.div_mod_to_equations; lia|] end; done.
Qed.

Lemma hex_nibble_digit d : 0 ≤ d < 16 → hex_nibble (hexDigit d) = Some d.
Proof.
  intros H. destruct d as [|d|d]; [done| |lia].
  do 4 (destruct d as [d|d|]; try lia; try reflexivity).
Qed.
(** The digits are read back, most significant first. *)
Lemma hex_digits_nibbles d off acc : Forall (λ x, 0 ≤ x < 16) d → (off + length d ≤ 4)%nat → 0 ≤ acc < 16 ^ Z.of_nat off →
  hex_digits (nibble_text d) off acc = Some (foldl (λ a x, a * 16 + x) acc d, (off + length d)%nat, "").
Proof.
  intros Hd. revert off acc. induction Hd as [|x d Hx Hd IH]; intros off acc Hl Ha; cbn -[Nat.ltb Z.ltb]; [by rewrite Nat.add_0_r|].
  cbn in Hl. rewrite hex_nibble_digit by done. rewrite (proj2 (Nat.ltb_ge _ _)) by lia.
  assert (acc * 16 + x < 16 ^ Z.of_nat (S off)) by (rewrite Nat2Z.inj_succ, Z.pow_succ_r; lia).
  assert (16 ^ Z.of_nat (S off) ≤ 16 ^ 4) by (apply Z.pow_le_mono_r; lia).
  rewrite (proj2 (Z.ltb_ge _ _)) by (change (16 ^ 4) with 65536 in *; lia). rewrite IH by lia. by rewrite Nat.add_succ_r.
Qed.
Lemma nibble_text_has b d : hex_nibble b = None → Forall (λ x, 0 ≤ x < 16) d → has_byte b (nibble_text d) = false.
Proof.
  intros Hb. induction 1 as [|x d Hx _ IH]; cbn; [done|]. rewrite IH, orb_false_r. apply Ascii.eqb_neq. intros <-. by rewrite hex_nibble_digit in Hb.
Qed.
Lemma version_of_none s : has_byte "." s = false → has_byte ":" s = false → version_of s = None.
Proof. induction s as [|c s IH]; cbn; [done|]. intros [-> ?]%orb_false_iff [-> ?]%orb_false_iff. case_match; auto. Qed.

(** What a text that is only hexadecimal digits does in front of another. *)
Lemma hex_digits_app s t off acc v n :
  hex_digits s off acc = Some (v, n, "") → match t with EmptyString => True | String c _ => hex_nibble c = None end →
  hex_digits (s +:+ t) off acc = Some (v, n, t).
Proof.
  intros H Ht. revert off acc H. induction s as [|c s IH]; intros off acc H.
  - cbn in H. simplify_eq. rewrite app_nil_l_str. destruct t; [done|]. cbn. by rewrite Ht.
  - rewrite app_cons_str. cbn in *. repeat case_match; simplify_eq; auto.
Qed.
Lemma version_of_app s t : version_of s = None → has_byte "%" s = false → version_of (s +:+ t) = version_of t.
Proof. induction s as [|c s IH]; intros H Hp; [done|]. rewrite app_cons_str. cbn in *. repeat case_match; simplify_eq; auto. Qed.

Record readable (a b : Z) : Prop := mkReadable {
  readable_no c : hex_nibble c = None → has_byte c (hex_text (group a b)) = false;
  readable_version : version_of (hex_text (group a b)) = None;
  readable_digits : ∃ acc k, hex_digits (hex_text (group a b)) 0 0 = Some (acc, S k, "") ∧ acc / 256 = a ∧ acc mod 256 = b }.
Lemma group_sum a b : is_byte a → is_byte b → group a b = a * 256 + b.
Proof.
  intros Ha Hb. unfold group, is_byte in *. pose proof (Z.add_lor_land (Z.shiftl a 8) b) as H.
  rewrite (Z.shiftl_mul_pow2 a 8) in * by lia. change (2 ^ 8) with 256 in *. assert (Z.land (a * 256) b = 0); [|lia].
  change 256 with (2 ^ 8). rewrite <- Z.shiftl_mul_pow2 by lia. apply Z.bits_inj'. intros n Hn. rewrite Z.land_spec, Z.bits_0.
  destruct (decide (n < 8)); [by rewrite Z.shiftl_spec_low|]. rewrite andb_false_iff. right. apply (Z.bounded_iff_bits_nonneg 8 b); lia.
Qed.
Lemma is_readable a b : is_byte a → is_byte b → readable a b.
Proof.
  intros Ha Hb. pose proof (group_sum a b Ha Hb) as Hg. unfold is_byte in *. set (g := group a b) in *.
  assert (∃ d, hex_text g = nibble_text d ∧ Forall (λ x, 0 ≤ x < 16) d ∧ (0 < length d ≤ 4)%nat ∧ foldl (λ a x, a * 16 + x) 0 d = g) as (d & Ht & Hd & Hl & Hv).
  { eexists. split; [by apply hex_text_nibbles; lia|].
    repeat case_match; (split_and!; [repeat constructor; Z.div_mod_to_equations; lia|cbn; lia..|cbn; Z.div_mod_to_equations; lia]). }
  split; fold g; rewrite Ht; [intros c Hc; by apply nibble_text_has|by apply version_of_none; apply nibble_text_has|].
  rewrite hex_digits_nibbles by (done || cbn; lia). rewrite Hv. destruct (length d) as [|k]; [lia|].
  exists g, k. split_and!; [done|Z.div_mod_to_equations; lia..].
Qed.

(** The groups of a sequence of bytes, joined by colons. *)
Fixpoint join_groups (ip : list Z) : string :=
  match ip with
  | a :: b :: [] => hex_text (group a b)
  | a :: b :: ip => hex_text (group a b) +:+ ":" +:+ join_groups ip
  | _ => ""
  end.
Fixpoint paired (ip : list Z) : Prop :=
  match ip with [] => True | a :: b :: ip => is_byte a ∧ is_byte b ∧ paired ip | _ => False end.

Lemma paired_ind' (P : list Z → Prop) :
  P [] → (∀ a b ip, is_byte a → is_byte b → paired ip → P ip → P (a :: b :: ip)) → ∀ ip, paired ip → P ip.
Proof.
  intros H0 HS. fix IH 1. intros [|a [|b ip]] H; [done|by destruct H|]. destruct H as (Ha & Hb & H). by apply HS; auto.
Qed.
Lemma hex_text_cons a b : is_byte a → is_byte b → ∃ c r, hex_text (group a b) = String c r ∧ hex_nibble c <> None.
Proof.
  intros Ha Hb. destruct (is_readable a b Ha Hb) as [_ _ (acc & k & H & _)].
  destruct (hex_text _) as [|c r]; [done|]. exists c, r. split; [done|]. cbn in H. by case_match.
Qed.

(** A group with the byte after it, which is no digit; the round takes the group. *)
Lemma group_round a b t (pre : list Z) : is_byte a → is_byte b → (length pre < 16)%nat →
  match t with EmptyString => True | String c _ => hex_nibble c = None end →
  ∃ acc k, acc / 256 = a ∧ acc mod 256 = b ∧ hex_digits (hex_text (group a b) +:+ t) 0 0 = Some (acc, S k, t) ∧ (16 <=? length pre)%nat = false.
Proof.
  intros Ha Hb Hp Ht. destruct (is_readable a b Ha Hb) as [_ _ (acc & k & Hd & ? & ?)].
  exists acc, k. split_and!; [done..|by apply hex_digits_app|by apply Nat.leb_gt].
Qed.
Lemma join_groups_head a b ip : is_byte a → is_byte b → ∃ c r, join_groups (a :: b :: ip) = String c r ∧ Ascii.eqb c ":" = false.
Proof.
  intros Ha Hb. destruct (hex_text_cons a b Ha Hb) as (c & r & Hc & Hn).
  cbn. rewrite Hc. assert (Ascii.eqb c ":" = false) by (apply Ascii.eqb_neq; intros ->; by apply Hn).
  destruct ip as [|? [|]]; rewrite ?app_cons_str; eauto.
Qed.

(** The last groups, and groups in front of an ellipsis. *)
Lemma group_loop_end ip : paired ip → ∀ fuel pre e, ip ≠ [] → (length ip ≤ 2 * fuel)%nat → (length pre + length ip ≤ 16)%nat →
  group_loop fuel (join_groups ip) pre e = Some (pre ++ ip, e).
Proof.
  intros H. induction H as [|a b ip Ha Hb H IH] using paired_ind'; intros fuel pre e Hn Hf Hl; [done|].
  cbn [length] in *. destruct fuel as [|fuel]; [lia|]. unfold group_loop; fold group_loop.
  destruct ip as [|x [|y ip]]; [|by destruct H|].
  - destruct (group_round a b "" pre) as (acc & k & <- & <- & Hd & ->); [done..|lia|done|].
    rewrite app_nil_r_str in Hd. cbn [join_groups]. by rewrite Hd.
  - destruct H as (Hx & Hy & H). destruct (join_groups_head x y ip Hx Hy) as (c & r & Hc & Hcn).
    change (join_groups (?a :: ?b :: x :: y :: ip)) with (hex_text (group a b) +:+ ":" +:+ join_groups (x :: y :: ip)).
    destruct (group_round a b (":" +:+ join_groups (x :: y :: ip)) pre) as (acc & k & <- & <- & Hd & ->); [done..|lia|done|].
    rewrite Hd. cbn [mbind option_bind Nat.eqb]. rewrite app_cons_str, app_nil_l_str.
    specialize (IH fuel (pre ++ [acc / 256; acc mod 256]) e). rewrite Hc in *.
    cbn -[group_loop Z.div Z.modulo]. rewrite Hcn, IH, <- app_assoc; [done..|cbn in *; lia|rewrite length_app; cbn in *; lia].
Qed.
Lemma group_loop_ellipsis ip : paired ip → ∀ fuel pre t, ip ≠ [] → (length ip ≤ 2 * fuel)%nat → (length pre + length ip < 16)%nat →
  group_loop fuel (join_groups ip +:+ "::" +:+ t) pre None =
    match t with EmptyString => Some (pre ++ ip, Some (length (pre ++ ip))) | _ => group_loop (fuel - length ip / 2) t (pre ++ ip) (Some (length (pre ++ ip))) end.
Proof.
  intros H. induction H as [|a b ip Ha Hb H IH] using paired_ind'; intros fuel pre t Hn Hf Hl; [done|].
  cbn [length] in *. destruct fuel as [|fuel]; [lia|]. unfold group_loop at 1; fold group_loop.
  destruct ip as [|x [|y ip]]; [|by destruct H|].
  - destruct (group_round a b ("::" +:+ t) pre) as (acc & k & <- & <- & Hd & ->); [done..|lia|done|].
    cbn [join_groups]. rewrite Hd. cbn -[Z.div Z.modulo group_loop]. rewrite Nat.sub_0_r. by destruct t.
  - destruct H as (Hx & Hy & H). destruct (join_groups_head x y ip Hx Hy) as (c & r & Hc & Hcn).
    change (join_groups (?a :: ?b :: x :: y :: ip)) with (hex_text (group a b) +:+ ":" +:+ join_groups (x :: y :: ip)).
    rewrite <- !app_assoc_str.
    destruct (group_round a b (":" +:+ join_groups (x :: y :: ip) +:+ "::" +:+ t) pre) as (acc & k & <- & <- & Hd & ->); [done..|lia|done|].
    rewrite Hd. cbn [mbind option_bind Nat.eqb]. rewrite app_cons_str, app_nil_l_str.
    specialize (IH fuel (pre ++ [acc / 256; acc mod 256]) t). rewrite Hc in *. rewrite !app_cons_str in *.
    cbn -[group_loop Z.div Z.modulo Nat.div Nat.sub length] in *. rewrite Hcn, IH; [|done|cbn in *; lia|rewrite length_app; cbn in *; lia].
    rewrite <- app_assoc. cbn [app]. destruct t; [done|]. f_equal. cbn [length]. 
    change (S (S (S (S (length ip))))) with (1 * 2 + S (S (length ip)))%nat. rewrite Nat.div_add_l by done. lia.
Qed.

Lemma parse_plain ip : paired ip → length ip = 16%nat → parseIPv6 (join_groups ip) = Some ip.
Proof.
  intros H Hl. unfold parseIPv6.
  assert (after_colons (join_groups ip) = None) as ->.
  { destruct ip as [|a [|b ip]]; [done..|]. destruct H as (Ha & Hb & _). destruct (join_groups_head a b ip Ha Hb) as (c & r & -> & Hc).
    destruct r; [done|]. cbn. by rewrite Hc. }
  rewrite group_loop_end; [|done|by destruct ip|cbn; lia|cbn; lia]. cbn [mbind option_bind app]. by rewrite Hl.
Qed.
Lemma parse_squeezed l r : paired l → paired r → (length l + length r < 16)%nat →
  parseIPv6 (join_groups l +:+ "::" +:+ join_groups r) = Some (l ++ replicate (16 - (length l + length r)) 0 ++ r).
Proof.
  intros Hl Hr Hlen. unfold parseIPv6.
  assert (match after_colons (join_groups l +:+ "::" +:+ join_groups r) with
          | Some EmptyString => Some ([], Some 0%nat) | Some r => group_loop 9 r [] (Some 0%nat)
          | None => group_loop 9 (join_groups l +:+ "::" +:+ join_groups r) [] None end = Some (l ++ r, Some (length l))) as ->.
  { assert (Hlast : ∀ k pre, (length r ≤ 2 * k)%nat → (length pre + length r ≤ 16)%nat →
      match join_groups r with EmptyString => Some (pre, Some (length pre)) | _ => group_loop k (join_groups r) pre (Some (length pre)) end = Some (pre ++ r, Some (length pre))).
    { intros k pre Hk Hp. destruct r as [|a [|b r]]; [by rewrite app_nil_r|by destruct Hr|].
      rewrite <- group_loop_end with (fuel := k) by done. destruct Hr as (Ha & Hb & _). by destruct (join_groups_head a b r Ha Hb) as (c & r' & -> & _). }
    destruct l as [|a [|b l]]; [|by destruct Hl|].
    - cbn [join_groups]. rewrite !app_nil_l_str, !app_cons_str, app_nil_l_str. cbn [after_colons]. cbn in Hlen. apply (Hlast 9%nat []); cbn; lia.
    - rewrite group_loop_ellipsis by (done || cbn in *; lia).
      destruct Hl as (Ha & Hb & _). destruct (join_groups_head a b l Ha Hb) as (c & r' & Hc & Hn).
      assert (after_colons (join_groups (a :: b :: l) +:+ "::" +:+ join_groups r) = None) as ->.
      { rewrite Hc, app_cons_str. destruct (r' +:+ _) eqn:E; [done|]. cbn. by rewrite Hn. }
      rewrite app_nil_l. apply Hlast; [|cbn in *; lia].
      pose proof (Nat.div_mod_eq (length (a :: b :: l)) 2). pose proof (Nat.mod_upper_bound (length (a :: b :: l)) 2). lia. }
  cbn [mbind option_bind]. rewrite length_app. rewrite (proj2 (Nat.ltb_lt _ _)) by done.
  by rewrite take_app_length, drop_app_length.
Qed.

(** *** The longest run *)

Definition zeros_between (p : list Z) (i j : Z) : Prop := ∀ k, i ≤ k < j → byte_at p k = 0.
Lemma run_end_ok fuel p i j : (∃ k, j = 2 * k) → i ≤ j ≤ 16 → zeros_between p i j →
  let j' := run_end fuel p j in (∃ k, j' = 2 * k) ∧ j ≤ j' ≤ 16 ∧ zeros_between p i j'.
Proof.
  revert j. induction fuel as [|fuel IH]; intros j He Hj Hz; cbn; [split_and!; [done|lia..|done]|].
  case_match eqn:E; [|split_and!; [done|lia..|done]].
  rewrite !andb_true_iff, Z.ltb_lt, !Z.eqb_eq in E. destruct E as [[? Hb1] Hb2], He as [k ->].
  destruct (IH (2 * k + 2)) as (? & ? & ?); [exists (k + 1); lia|lia| |by split_and!; [|lia..|]].
  intros x Hx. destruct (decide (x < 2 * k)); [apply Hz; lia|]. by assert (x = 2 * k ∨ x = 2 * k + 1) as [-> | ->] by lia.
Qed.
Definition run_ok (p : list Z) (e : Z * Z) : Prop :=
  e = (-1, -1) ∨ (∃ a b, e = (2 * a, 2 * b)) ∧ 0 ≤ e.1 < e.2 ∧ e.2 ≤ 16 ∧ zeros_between p e.1 e.2.
Lemma zero_run_ok fuel p i e0 e1 : (∃ k, i = 2 * k) → 0 ≤ i → run_ok p (e0, e1) → run_ok p (zero_run fuel p i e0 e1).
Proof.
  revert i e0 e1. induction fuel as [|fuel IH]; intros i e0 e1 [k ->] Hi Hr; cbn [zero_run]; [done|].
  case_match eqn:E; [|done]. apply Z.ltb_lt in E.
  destruct (run_end_ok 8 p (2 * k) (2 * k)) as ([m Hm] & ? & Hz); [eauto|lia|intros ? ?; lia|].
  set (j := run_end 8 p (2 * k)) in *. case_match eqn:E2.
  - rewrite andb_true_iff, !Z.ltb_lt in E2. apply IH; [exists (m + 1); lia|lia|]. right. cbn [fst snd]. split_and!; [exists k, m; by f_equal|lia..|done].
  - apply IH; [exists (k + 1); lia|lia|done].
Qed.

(** The places where the ellipsis can be. *)
#[local] Opaque hex_text.
Definition ellipses : list (nat * nat) :=
  (x ← [0; 2; 4; 6; 8; 10; 12]%nat; y ← [4; 6; 8; 10; 12; 14; 16]%nat; if (x + 4 <=? y)%nat then [(x, y)] else [])%list.
(** Both sides as a right-nested concatenation of the same groups. *)
Ltac print_text :=
  cbv -[appendHex hex_text String.append Z.lor Z.shiftl]; rewrite ?appendHex_app, <- ?app_assoc_str;
  rewrite ?app_cons_str, ?app_nil_l_str; reflexivity.
Lemma print_squeezed p x y : length p = 16%nat → (x, y) ∈ ellipses →
  print_loop 8 p (Z.of_nat x) (Z.of_nat y) 0 "" = join_groups (take x p) +:+ "::" +:+ join_groups (drop y p).
Proof.
  intros Hl He. do 16 (destruct p as [|? p]; [done|]). destruct p; [|done]. clear Hl. cbn in He.
  repeat (apply elem_of_cons in He as [[= -> ->]|He]; [print_text|]). by apply elem_of_nil in He.
Qed.
Lemma print_plain p : length p = 16%nat → print_loop 8 p (-1) (-1) 0 "" = join_groups p.
Proof. intros Hl. do 16 (destruct p as [|? p]; [done|]). destruct p; [|done]. print_text. Qed.

(** *** Whole texts *)

Lemma bytes_paired ip : bytes_ok ip → Nat.Even (length ip) → paired ip.
Proof.
  unfold bytes_ok. intros H [k Hk]. revert ip Hk H. induction k as [|k IH]; intros ip Hk H; [by destruct ip|].
  destruct ip as [|a [|b ip]]; [done|cbn in Hk; lia|]. rewrite !Forall_cons in H. destruct H as (Ha & Hb & H).
  split_and!; [done..|]. apply IH; [cbn in Hk; lia|done].
Qed.
(** A byte that is in no address. *)
Definition alien (b : ascii) : Prop := hex_nibble b = None ∧ b ≠ ":"%char ∧ b ≠ "."%char.
Lemma join_groups_has b ip : alien b → paired ip → has_byte b (join_groups ip) = false.
Proof.
  intros (Hb & Hcol & _) H. induction H as [|x y ip Hx Hy H IH] using paired_ind'; [done|].
  assert (has_byte b (hex_text (group x y)) = false) as Hh by (by apply is_readable).
  cbn [join_groups]. destruct ip as [|z [|w ip]]; [done|done|]. rewrite !has_byte_app, Hh, IH. cbn [has_byte]. rewrite (proj2 (Ascii.eqb_neq ":" b)); [done|congruence].
Qed.
Lemma colons_alien b : alien b → (false || (has_byte b "::" || false)) = false.
Proof. intros (_ & H & _). cbn [has_byte]. rewrite (proj2 (Ascii.eqb_neq ":" b)); [done|congruence]. Qed.
Lemma version_join ip t : paired ip → ip ≠ [] → version_of (join_groups ip +:+ ":" +:+ t) = Some true.
Proof.
  intros H Hn. destruct ip as [|a [|b ip]]; [done|by destruct H|]. destruct H as (Ha & Hb & H), (is_readable a b Ha Hb) as [Hno ? _]. specialize (Hno "%"%char eq_refl).
  cbn [join_groups]. destruct ip; rewrite <- ?app_assoc_str; by rewrite version_of_app.
Qed.

(** A run long enough: where the ellipsis goes, and what it stands for. *)
Lemma run_split p e0 e1 : length p = 16%nat → run_ok p (e0, e1) → 2 < e1 - e0 →
  ∃ x y, e0 = Z.of_nat x ∧ e1 = Z.of_nat y ∧ (x, y) ∈ ellipses ∧ Nat.Even x ∧ Nat.Even y ∧ (x < y ≤ 16)%nat ∧
    p = take x p ++ replicate (y - x) 0 ++ drop y p.
Proof.
  intros Hl [[= -> ->]|([a [b [= -> ->]]] & Hab & Hb16 & Hz)] Hlong; [lia|]. cbn [fst snd] in *.
  exists (Z.to_nat (2 * a)), (Z.to_nat (2 * b)). split_and!; [lia|lia| |exists (Z.to_nat a); lia|exists (Z.to_nat b); lia|lia|lia|].
  - assert (a = 0 ∨ a = 1 ∨ a = 2 ∨ a = 3 ∨ a = 4 ∨ a = 5 ∨ a = 6) as Ha by lia.
    assert (b = 2 ∨ b = 3 ∨ b = 4 ∨ b = 5 ∨ b = 6 ∨ b = 7 ∨ b = 8) as Hb by lia.
    destruct_or! Ha; destruct_or! Hb; subst; (lia || by apply (bool_decide_unpack _)).
  - rewrite <- (take_drop (Z.to_nat (2 * a)) p) at 1. f_equal.
    rewrite <- (take_drop (Z.to_nat (2 * b) - Z.to_nat (2 * a)) (drop (Z.to_nat (2 * a)) p)) at 1. rewrite drop_drop. f_equal; [|f_equal; lia].
    apply list_eq_same_length with (n := (Z.to_nat (2 * b) - Z.to_nat (2 * a))%nat); [by rewrite length_replicate|rewrite length_take, length_drop; lia|].
    intros i u v Hi Hu Hv. rewrite lookup_take_lt, lookup_drop in Hu by done. apply lookup_replicate in Hv as [-> _].
    specialize (Hz (2 * a + Z.of_nat i)). unfold byte_at in Hz. rewrite <- Hz by lia. symmetry. apply nth_lookup_Some.
    by replace (Z.to_nat (2 * a + Z.of_nat i)) with (Z.to_nat (2 * a) + i)%nat by lia.
Qed.

(** What the IPv6 printer writes is read as those sixteen bytes. *)
Lemma toIPv6String_parses p : bytes_ok p → length p = 16%nat →
  ParseAddr (toIPv6String p) = Some (true, p) ∧ ∀ b, alien b → has_byte b (toIPv6String p) = false.
Proof.
  intros Hb Hl. assert (paired p) as Hp by (apply bytes_paired; [done|by exists 8%nat]).
  unfold toIPv6String. rewrite Hl. cbn [Nat.eqb negb].
  destruct (zero_run 8 p 0 (-1) (-1)) as [e0 e1] eqn:Ez.
  assert (run_ok p (e0, e1)) as Hr by (rewrite <- Ez; apply zero_run_ok; [by exists 0|done|by left]).
  destruct (Z.leb_spec (e1 - e0) 2) as [_|Hlong].
  - rewrite print_plain by done. split; [|intros; by apply join_groups_has]. unfold ParseAddr.
    assert (version_of (join_groups p) = Some true) as ->.
    { destruct p as [|a [|b [|c [|d p]]]]; try done. apply (version_join [a; b] (join_groups (c :: d :: p))); [|done]. by destruct Hp as (? & ? & _). }
    cbn [mbind option_bind]. rewrite join_groups_has, parse_plain by done. done.
  - destruct (run_split p e0 e1) as (x & y & -> & -> & He & Hx & Hy & Hxy & Hsplit); [done..|lia|].
    assert (paired (take x p) ∧ paired (drop y p)) as [Hl1 Hr1].
    { destruct Hx as [u ->], Hy as [v ->]. split; apply bytes_paired; try (by apply Forall_take || by apply Forall_drop);
        [exists u; rewrite length_take; lia|exists (8 - v)%nat; rewrite length_drop; lia]. }
    rewrite print_squeezed by done. split; [|intros z Hz; rewrite !has_byte_app, !join_groups_has by done; by apply colons_alien].
    unfold ParseAddr. rewrite !has_byte_app, !join_groups_has by done.
    assert (version_of (join_groups (take x p) +:+ "::" +:+ join_groups (drop y p)) = Some true) as ->.
    { destruct (take x p) as [|u l] eqn:E; [done|]. by apply (version_join (u :: l) (":" +:+ _)). }
    cbn [mbind option_bind has_byte orb Ascii.eqb]. rewrite parse_squeezed by (done || rewrite length_take, length_drop; lia).
    rewrite length_take, length_drop. replace (16 - (x `min` length p + (length p - y)))%nat with (y - x)%nat by lia. by rewrite <- Hsplit.
Qed.
Lemma ubtoa_plain a b : is_byte a → is_digit b = false → has_byte b (ubtoa a) = false.
Proof.
  intros Ha Hb. unfold is_byte in Ha. unfold ubtoa. rewrite !(Z.add_comm _ 48).
  assert (∀ d, 0 ≤ d < 10 → Ascii.eqb (chr (48 + d)) b = false) as Hd.
  { intros d Hd. apply Ascii.eqb_neq. intros <-. by rewrite is_digit_chr in Hb. }
  repeat case_match; cbn [has_byte]; rewrite ?Hd by (rewrite ?Z.ltb_lt, ?Z.ltb_ge in *; Z.div_mod_to_equations; lia); done.
Qed.
Lemma ubtoa_some a : (String.length (ubtoa a) =? 0)%nat = false.
Proof. unfold ubtoa. by repeat case_match. Qed.
(** What the IPv4 printer writes is read as those four bytes. *)
Lemma toIPv4String_parses p : bytes_ok (To4 p) → length (To4 p) = 4%nat →
  ParseAddr (toIPv4String p) = Some (false, To4 p) ∧ (∀ b, alien b → has_byte b (toIPv4String p) = false) ∧ toIPv4String p ≠ "".
Proof.
  unfold toIPv4String, bytes_ok. intros Hb Hl. destruct (To4 p) as [|a [|b [|c [|d [|]]]]]; try done.
  rewrite !Forall_cons in Hb. destruct Hb as (Ha & Hb & Hc & Hd & _). split_and!.
  - unfold ParseAddr. rewrite version_of_app by (apply version_of_none || idtac; by apply ubtoa_plain).
    cbn -[parseIPv4Fields ubtoa]. unfold parseIPv4Fields.
    do 3 (rewrite v4_loop_ubtoa by done; rewrite app_cons_str, app_nil_l_str; cbn [v4_loop is_digit]; rewrite ubtoa_some; cbn -[ubtoa v4_loop]).
    rewrite <- (app_nil_r_str (ubtoa d)), v4_loop_ubtoa by done. cbn -[ubtoa]. by rewrite ubtoa_some.
  - intros z (Hz & _ & Hdot). assert (is_digit z = false) by (unfold hex_nibble, is_digit in *; by repeat case_match).
    rewrite !has_byte_app, !ubtoa_plain by done. cbn [has_byte]. rewrite (proj2 (Ascii.eqb_neq "." z)); [done|congruence].
  - pose proof (ubtoa_some a). by destruct (ubtoa a).
Qed.

Lemma To4_short p : length p = 4%nat → To4 p = p.
Proof. intros H. unfold To4. by rewrite H. Qed.
Lemma To4_cases p : length p = 4%nat ∨ length p = 16%nat → length (To4 p) = 4%nat ∧ To16 p = v4InV6Prefix ++ To4 p ∨ To4 p = [] ∧ To16 p = p ∧ length p = 16%nat.
Proof.
  unfold To4, To16. intros [H|H]; rewrite !H; cbn [Nat.eqb andb]; [by left|]. case_bool_decide as E; [|by right]. left.
  rewrite length_drop, H. split; [done|]. rewrite <- E. by rewrite take_drop.
Qed.
Lemma To4_bytes p : bytes_ok p → bytes_ok (To4 p).
Proof. unfold bytes_ok, To4. intros H. repeat case_match; [done|by apply Forall_drop|constructor]. Qed.
Lemma To16_short p : length p = 4%nat → To16 p = v4InV6Prefix ++ p.
Proof. intros H. unfold To16. by rewrite H. Qed.
Lemma To16_long p : length p = 16%nat → To16 p = p.
Proof. intros H. unfold To16. by rewrite H. Qed.

(** C25: every text that the package prints for an address is read back as that address: for 4 or 16
    bytes and any flag that fits the address (flag 4 needs an IPv4 address, plain or mapped; flag 6
    needs 16 bytes), parsing the text gives the 16-byte form.  For IPv6 the text squeezes the longest
    run of zeros. *)
Theorem ip_text_roundtrip ip flag : bytes_ok ip → length ip = 4%nat ∨ length ip = 16%nat →
  (flag = FlagV4 → length (To4 ip) = 4%nat) → (flag = FlagV6 → length ip = 16%nat) →
  ParseIP (toIPString ip flag) = To16 ip.
Proof.
  intros Hb Hl H4 H6.
  assert (length (To4 ip) = 4%nat → ParseIP (toIPv4String ip) = To16 ip) as Hv4.
  { intros Ht. destruct (toIPv4String_parses ip (To4_bytes _ Hb) Ht) as (Hp & _). unfold ParseIP. rewrite Hp, To16_short by done.
    destruct (To4_cases ip Hl) as [[_ ->]|[E _]]; [done|by rewrite E in Ht]. }
  assert (length ip = 16%nat → ParseIP (toIPv6String ip) = To16 ip) as Hv6.
  { intros Ht. destruct (toIPv6String_parses ip Hb Ht) as (Hp & _). unfold ParseIP. by rewrite Hp. }
  unfold toIPString. destruct ip as [|x ip']; [by destruct Hl|]. set (ip := x :: ip') in *.
  destruct (Z.eqb_spec flag FlagV4); [auto|]. destruct (Z.eqb_spec flag FlagV6); [auto|].
  destruct (To4_cases ip Hl) as [[Ht _]|(Ht & _ & Hl')].
  - destruct (toIPv4String_parses ip (To4_bytes _ Hb) Ht) as (_ & _ & Hn). specialize (Hv4 Ht). by destruct (toIPv4String ip).
  - unfold toIPv4String at 1. rewrite Ht, Hl'. auto.
Qed.
Example ip_text_roundtrip_witness :
  ParseIP (toIPString [32; 1; 13; 184; 0; 0; 0; 0; 0; 0; 0; 0; 0; 0; 0; 1] FlagVAll) = [32; 1; 13; 184; 0; 0; 0; 0; 0; 0; 0; 0; 0; 0; 0; 1] ∧
  toIPString [32; 1; 13; 184; 0; 0; 0; 0; 0; 0; 0; 0; 0; 0; 0; 1] FlagVAll = "2001:db8::1".
Proof.
  split; [|vm_compute; reflexivity].
  refine (ip_text_roundtrip [32; 1; 13; 184; 0; 0; 0; 0; 0; 0; 0; 0; 0; 0; 0; 1] FlagVAll _ _ _ _); [|by right|done|done].
  repeat (constructor; [unfold is_byte; lia|]). constructor.
Defined.

(** ** Addresses as numbers *)

(** Exactly [k] bytes of [n], most significant first. *)
Fixpoint be_bytes (k : nat) (n : Z) : list Z := match k with O => [] | S k => be_bytes k (n / 256) ++ [n mod 256] end.

Lemma SetBytes_snoc l x : SetBytes (l ++ [x]) = SetBytes l * 256 + x.
Proof. unfold SetBytes. by rewrite foldl_app. Qed.
Lemma length_be_bytes k n : length (be_bytes k n) = k.
Proof. revert n. induction k as [|k IH]; intros n; cbn; [done|]. rewrite length_app, IH. cbn. lia. Qed.
Lemma be_bytes_ok k n : bytes_ok (be_bytes k n).
Proof.
  revert n. induction k as [|k IH]; intros n; cbn; [constructor|]. apply Forall_app. split; [apply IH|]. repeat constructor; mint.
Qed.
Lemma SetBytes_be k n : 0 ≤ n < 256 ^ Z.of_nat k → SetBytes (be_bytes k n) = n.
Proof.
  revert n. induction k as [|k IH]; intros n Hn; cbn [be_bytes]; [cbn in *; lia|].
  rewrite Nat2Z.inj_succ, Z.pow_succ_r in Hn by lia. rewrite SetBytes_snoc, IH; Z.div_mod_to_equations; lia.
Qed.
Lemma be_SetBytes ip : bytes_ok ip → be_bytes (length ip) (SetBytes ip) = ip.
Proof.
  induction ip as [|x ip IH] using rev_ind; intros H; [done|]. apply Forall_app in H as [H Hx].
  inversion_clear Hx as [|? ? Hb _]. unfold is_byte in Hb. rewrite length_app, Nat.add_comm. cbn [Nat.add length be_bytes].
  rewrite SetBytes_snoc. replace ((SetBytes ip * 256 + x) / 256) with (SetBytes ip) by (Z.div_mod_to_equations; lia).
  rewrite IH by done. do 2 f_equal. Z.div_mod_to_equations; lia.
Qed.
Lemma SetBytes_range ip : bytes_ok ip → 0 ≤ SetBytes ip < 256 ^ Z.of_nat (length ip).
Proof.
  induction ip as [|x ip IH] using rev_ind; intros H; [done|]. apply Forall_app in H as [H Hx].
  inversion_clear Hx as [|? ? Hb _]. unfold is_byte in Hb. specialize (IH H).
  rewrite length_app, SetBytes_snoc, Nat.add_comm. cbn [Nat.add length]. rewrite Nat2Z.inj_succ, Z.pow_succ_r by lia. lia.
Qed.
Lemma SetBytes_inj a b : bytes_ok a → bytes_ok b → length a = length b → SetBytes a = SetBytes b → a = b.
Proof. intros Ha Hb Hl He. rewrite <- (be_SetBytes a), <- (be_SetBytes b) by done. by rewrite Hl, He. Qed.

Lemma be_zero k : be_bytes k 0 = replicate k 0.
Proof. induction k as [|k IH]; [done|]. cbn [be_bytes]. change (0 / 256) with 0. rewrite IH. by rewrite <- replicate_cons_app. Qed.

(** [Bytes] leaves the leading zeros out. *)
Definition minimal_bytes (n : Z) (bs : list Z) : Prop :=
  ∀ k, (n < 256 ^ Z.of_nat k ↔ (length bs ≤ k)%nat) ∧ ((length bs ≤ k)%nat → replicate (k - length bs) 0 ++ bs = be_bytes k n).
Lemma minimal_zero : minimal_bytes 0 [].
Proof. intros k. rewrite be_zero, app_nil_r. cbn. rewrite Nat.sub_0_r. split; [|done]. split; lia. Qed.
Lemma bytes_be_spec f n acc : 0 ≤ n < 256 ^ Z.of_nat f → ∃ bs, bytes_be f n acc = bs ++ acc ∧ minimal_bytes n bs.
Proof.
  revert n acc. induction f as [|f IH]; intros n acc Hn; cbn [bytes_be].
  { assert (n = 0) as -> by (cbn in *; lia). exists []. split; [done|apply minimal_zero]. }
  destruct (Z.eqb_spec n 0) as [->|Hn0]; [exists []; split; [done|apply minimal_zero]|].
  rewrite Nat2Z.inj_succ, Z.pow_succ_r in Hn by lia.
  destruct (IH (n / 256) (n mod 256 :: acc)) as (bs & -> & Hbs); [Z.div_mod_to_equations; lia|].
  exists (bs ++ [n mod 256]). split; [by rewrite <- app_assoc|]. intros k. rewrite length_app. cbn [length].
  destruct k as [|k]; [cbn; split; [split; lia|lia]|]. destruct (Hbs k) as [H1 H2].
  rewrite Nat2Z.inj_succ, Z.pow_succ_r by lia. split.
  - assert (n < 256 * 256 ^ Z.of_nat k ↔ n / 256 < 256 ^ Z.of_nat k) as -> by (Z.div_mod_to_equations; lia). rewrite H1. lia.
  - intros Hl. cbn [be_bytes]. rewrite <- H2 by lia. rewrite <- app_assoc. do 2 f_equal. lia.
Qed.
Lemma Bytes_spec n : 0 ≤ n → minimal_bytes n (Bytes n).
Proof.
  intros Hn. unfold Bytes. destruct (bytes_be_spec (S (Z.to_nat (Z.log2 n))) n []) as (bs & -> & H); [|by rewrite app_nil_r].
  split; [done|]. destruct (decide (n = 0)) as [->|]; [done|]. pose proof (Z.log2_spec n) as Hlog. pose proof (Z.log2_nonneg n).
  rewrite Nat2Z.inj_succ, Z2Nat.id by done.
  assert (2 ^ Z.succ (Z.log2 n) ≤ 256 ^ Z.succ (Z.log2 n)) by (apply Z.pow_le_mono_l; lia). lia.
Qed.
Lemma copyByteFromRight_be n k : 0 ≤ n < 256 ^ Z.of_nat k → copyByteFromRight (Bytes n) k = be_bytes k n.
Proof.
  intros Hn. destruct (Bytes_spec n (proj1 Hn) k) as [H1 H2]. assert (length (Bytes n) ≤ k)%nat as Hl by (apply H1; lia).
  rewrite <- H2 by done. unfold copyByteFromRight. destruct (Nat.leb_spec k (length (Bytes n))); [|done].
  assert (length (Bytes n) = k) as -> by lia. by rewrite Nat.sub_diag.
Qed.
Lemma Bytes_fits n k : 0 ≤ n → (k <? length (Bytes n))%nat = (256 ^ Z.of_nat k <=? n).
Proof.
  intros Hn. destruct (Bytes_spec n Hn k) as [H1 _]. destruct (Nat.ltb_spec k (length (Bytes n))), (Z.leb_spec (256 ^ Z.of_nat k) n); try done; lia.
Qed.

(** The number of an address in its own width. *)
Lemma NumberToIP_flags n flag : NumberToIP (Some n) flag =
  if (n <? 0) || (2 ^ 128 <=? n) then []
  else if flag =? FlagV4 then (if 2 ^ 32 <=? n then [] else be_bytes 4 n)
  else if flag =? FlagV6 then be_bytes 16 n
  else if n <? 2 ^ 32 then be_bytes 4 n else be_bytes 16 n.
Proof.
  unfold NumberToIP. destruct (Z.ltb_spec n 0) as [|Hn]; [done|]. cbn [orb]. rewrite !Bytes_fits by done.
  change (256 ^ Z.of_nat 16) with (2 ^ 128). change (256 ^ Z.of_nat 4) with (2 ^ 32).
  destruct (Z.leb_spec (2 ^ 128) n); [done|].
  assert ((length (Bytes n) <=? 4)%nat = (n <? 2 ^ 32)) as ->.
  { rewrite Nat.leb_antisym, Bytes_fits, Z.leb_antisym by done. change (256 ^ Z.of_nat 4) with (2 ^ 32). by rewrite negb_involutive. }
  assert (copyByteFromRight (Bytes n) 16 = be_bytes 16 n) as -> by (apply copyByteFromRight_be; change (256 ^ Z.of_nat 16) with (2 ^ 128); lia).
  destruct (Z.leb_spec (2 ^ 32) n); [rewrite (proj2 (Z.ltb_ge n (2 ^ 32))) by lia; done|].
  by rewrite copyByteFromRight_be by (change (256 ^ Z.of_nat 4) with (2 ^ 32); lia).
Qed.

(** Addresses and numbers convert into each other without loss.  An address of 4 or 16 bytes comes
    back from its number when the flag names its version; a number in the range of the version asked for
    comes back from its address, and one out of range is refused, whatever the flag. *)
Theorem ip_number_roundtrip :
  (∀ ip, bytes_ok ip → length ip = 4%nat ∨ length ip = 16%nat →
    NumberToIP (Some (BytesIPToNumber ip)) (if (length ip =? 4)%nat then FlagV4 else FlagV6) = ip) ∧
  (∀ n flag, BytesIPToNumber (NumberToIP (Some n) flag) =
    if (0 <=? n) && (n <? 2 ^ (if flag =? FlagV4 then 32 else 128)) then n else 0).
Proof.
  split.
  - intros ip Hb Hl. pose proof (SetBytes_range ip Hb) as Hr. rewrite NumberToIP_flags. unfold BytesIPToNumber.
    destruct Hl as [Hl|Hl]; rewrite Hl in *; cbn [Nat.eqb negb orb Z.eqb FlagV4 FlagV6].
    + change (256 ^ Z.of_nat 4) with (2 ^ 32) in Hr. rewrite (proj2 (Z.ltb_ge _ _)), !(proj2 (Z.leb_gt _ _)) by lia. cbn -[be_bytes].
      by rewrite <- Hl, be_SetBytes.
    + change (256 ^ Z.of_nat 16) with (2 ^ 128) in Hr. rewrite (proj2 (Z.ltb_ge _ _)), !(proj2 (Z.leb_gt _ _)) by lia. cbn -[be_bytes].
      by rewrite <- Hl, be_SetBytes.
  - intros n flag. rewrite NumberToIP_flags. unfold BytesIPToNumber.
    rewrite (Z.leb_antisym n 0), (Z.leb_antisym n (2 ^ 128)), (Z.leb_antisym n (2 ^ 32)).
    destruct (Z.ltb_spec n 0); [done|]. cbn [negb orb andb].
    destruct (flag =? FlagV4); [|destruct (flag =? FlagV6)]; destruct (Z.ltb_spec n (2 ^ 128)), (Z.ltb_spec n (2 ^ 32)); cbn [negb];
      try lia; try done; rewrite length_be_bytes; cbn [Nat.eqb negb orb]; apply SetBytes_be; cbn -[Z.pow]; lia.
Qed.

(** *** Ranges *)

Lemma SetBytes_cons x l : SetBytes (x :: l) = x * 256 ^ Z.of_nat (length l) + SetBytes l.
Proof.
  induction l as [|y l IH] using rev_ind; [cbn; lia|]. rewrite app_comm_cons, !SetBytes_snoc, IH, length_app, Nat.add_comm.
  cbn [length Nat.add]. rewrite Nat2Z.inj_succ, Z.pow_succ_r by lia. lia.
Qed.
Lemma bytes_Compare_numeric a b : bytes_ok a → bytes_ok b → length a = length b → bytes_Compare a b = (SetBytes a ?= SetBytes b).
Proof.
  intros Ha Hb. revert b Hb. induction Ha as [|x a Hx Ha IH]; intros [|y b] Hb Hl; try done.
  inversion_clear Hb as [|? ? Hy Hb']. injection Hl as Hl. cbn [bytes_Compare]. rewrite !SetBytes_cons, Hl.
  pose proof (SetBytes_range a Ha) as Ra. pose proof (SetBytes_range b Hb') as Rb. rewrite Hl in Ra.
  destruct (Z.compare_spec x y) as [->|Hlt|Hgt]; [rewrite IH by done|symmetry; apply Z.compare_lt_iff; nia|symmetry; apply Z.compare_gt_iff; nia].
  symmetry. apply Z.add_compare_mono_l.
Qed.
Lemma To16_valid ip : bytes_ok ip → length ip = 4%nat ∨ length ip = 16%nat → bytes_ok (To16 ip) ∧ length (To16 ip) = 16%nat.
Proof.
  intros Hb [Hl|Hl]; [rewrite To16_short by done|by rewrite To16_long]. split; [|rewrite length_app, Hl; done].
  apply Forall_app. split; [|done]. repeat (constructor; [unfold is_byte; lia|]). constructor.
Qed.

(** The range check compares numbers: for valid addresses of either width, an address is in the range
    exactly when the number of its 16-byte form lies between those of the two ends. *)
Theorem in_range_numeric start end' ip : bytes_ok start → bytes_ok end' → bytes_ok ip →
  length start = 4%nat ∨ length start = 16%nat → length end' = 4%nat ∨ length end' = 16%nat → length ip = 4%nat ∨ length ip = 16%nat →
  InRangeIPv6 start end' ip = true ↔ BytesIPToNumber (To16 start) ≤ BytesIPToNumber (To16 ip) ≤ BytesIPToNumber (To16 end').
Proof.
  intros Hs He Hi Ls Le Li. destruct (To16_valid start Hs Ls) as [Bs Es], (To16_valid end' He Le) as [Be Ee], (To16_valid ip Hi Li) as [Bi Ei].
  unfold BytesIPToNumber. rewrite Es, Ee, Ei. cbn [Nat.eqb negb orb]. unfold InRangeIPv6.
  rewrite !bytes_Compare_numeric by congruence.
  destruct ip as [|x ip]; [by destruct Li|]. rewrite <- (Z.compare_ge_iff (SetBytes (To16 (x :: ip)))), <- Z.compare_le_iff.
  unfold Z.ge, Z.le. repeat case_match; naive_solver.
Qed.
Example in_range_numeric_witness :
  InRangeIPv6 [10; 0; 0; 1] [10; 0; 0; 9] (v4InV6Prefix ++ [10; 0; 0; 5]) = true ↔
    BytesIPToNumber (To16 [10; 0; 0; 1]) ≤ BytesIPToNumber (To16 (v4InV6Prefix ++ [10; 0; 0; 5])) ≤ BytesIPToNumber (To16 [10; 0; 0; 9]).
Proof.
  refine (in_range_numeric [10; 0; 0; 1] [10; 0; 0; 9] (v4InV6Prefix ++ [10; 0; 0; 5]) _ _ _ _ _ _);
    solve [repeat (constructor; [unfold is_byte; lia|]); constructor | by left | by right].
Defined.

(** *** Masks *)

Lemma land_byte_full a : is_byte a → Z.land a 255 = a.
Proof. intros Ha. unfold is_byte in Ha. change 255 with (Z.ones 8). rewrite Z.land_ones by lia. apply Z.mod_small. cbn. lia. Qed.
Lemma land_byte_part a n : is_byte a → 0 ≤ n < 8 → Z.land a (255 - Z.shiftr 255 n) = a / 2 ^ (8 - n) * 2 ^ (8 - n).
Proof.
  intros Ha Hn. rewrite <- Z.shiftr_div_pow2, <- Z.shiftl_mul_pow2 by lia.
  assert (255 - Z.shiftr 255 n = Z.shiftl (Z.ones n) (8 - n)) as ->.
  { assert (n = 0 ∨ n = 1 ∨ n = 2 ∨ n = 3 ∨ n = 4 ∨ n = 5 ∨ n = 6 ∨ n = 7) as Hc by lia. by destruct_or! Hc; subst. }
  apply Z.bits_inj'. intros i Hi. rewrite Z.land_spec.
  destruct (decide (i < 8 - n)); [by rewrite !Z.shiftl_spec_low, andb_false_r|].
  rewrite !Z.shiftl_spec, Z.shiftr_spec by lia. replace (i - (8 - n) + (8 - n)) with i by lia.
  destruct (decide (i < 8)); [rewrite Z.ones_spec_low by lia; apply andb_true_r|].
  unfold is_byte in Ha. assert (Z.testbit a i = false) as -> by (apply (Z.bounded_iff_bits_nonneg 8 a); lia). done.
Qed.
Lemma mask_bytes_0 l : mask_bytes l 0 = replicate l 0.
Proof. induction l as [|l IH]; [done|]. cbn. by rewrite IH. Qed.
Lemma length_mask_bytes l n : length (mask_bytes l n) = l.
Proof. revert n. induction l as [|l IH]; intros n; cbn [mask_bytes]; [done|]. case_match; cbn; by rewrite IH. Qed.
Lemma same_masked_0 a b l : same_masked a (replicate l 0) b = true.
Proof. revert a b. induction l as [|l IH]; intros [|x a] [|y b]; try done. cbn. by rewrite !Z.land_0_r, IH. Qed.

(** Two numbers agree above [h] bits exactly when the leading digit and the rest do. *)
Lemma div_cons x A l h : 0 ≤ h ≤ 8 * l → (x * 256 ^ l + A) / 2 ^ h = x * 2 ^ (8 * l - h) + A / 2 ^ h.
Proof.
  intros Hh. change 256 with (2 ^ 8). rewrite <- Z.pow_mul_r by lia. replace (2 ^ (8 * l)) with (2 ^ (8 * l - h) * 2 ^ h) by (rewrite <- Z.pow_add_r by lia; f_equal; lia).
  rewrite Z.mul_assoc, Z.div_add_l by lia. done.
Qed.
Lemma digits_agree x y A B l h : 0 ≤ h ≤ 8 * l → 0 ≤ A < 256 ^ l → 0 ≤ B < 256 ^ l →
  (x * 256 ^ l + A) / 2 ^ h = (y * 256 ^ l + B) / 2 ^ h ↔ x = y ∧ A / 2 ^ h = B / 2 ^ h.
Proof.
  intros Hh HA HB. rewrite !div_cons by done. split; [|by intros [-> ->]]. intros H.
  assert (∀ Q, 0 ≤ Q < 256 ^ l → 0 ≤ Q / 2 ^ h < 2 ^ (8 * l - h)) as Hq.
  { intros Q HQ. split; [apply Z.div_pos; lia|]. apply Z.div_lt_upper_bound; [lia|]. rewrite <- Z.pow_add_r by lia.
    replace (h + (8 * l - h)) with (8 * l) by lia. rewrite Z.pow_mul_r by lia. change (2 ^ 8) with 256. lia. }
  pose proof (Hq A HA). pose proof (Hq B HB). apply (Z.div_mod_unique (2 ^ (8 * l - h))); lia.
Qed.
(** The bytes under a mask of [k] leading bits are the same exactly when the numbers agree above the rest. *)
Lemma masked_numeric a b k : bytes_ok a → bytes_ok b → length a = length b → 0 ≤ k ≤ 8 * Z.of_nat (length a) →
  same_masked a (mask_bytes (length a) k) b =
    (SetBytes a / 2 ^ (8 * Z.of_nat (length a) - k) =? SetBytes b / 2 ^ (8 * Z.of_nat (length a) - k)).
Proof.
  intros Ha. revert b k. induction Ha as [|x a Hx Ha IH]; intros [|y b] k Hb Hl Hk; try done.
  inversion_clear Hb as [|? ? Hy Hb']. injection Hl as Hl. cbn [length] in *. rewrite !SetBytes_cons, <- Hl. rewrite Nat2Z.inj_succ in *.
  set (l := Z.of_nat (length a)) in *. pose proof (SetBytes_range a Ha) as Ra. pose proof (SetBytes_range b Hb') as Rb. rewrite <- Hl in Rb. fold l in Ra, Rb.
  apply eq_true_iff_eq. cbn [mask_bytes]. destruct (Z.leb_spec 8 k); cbn [same_masked]; rewrite andb_true_iff, !Z.eqb_eq.
  - rewrite !land_byte_full, IH by (done || lia). fold l. rewrite Z.eqb_eq.
    replace (8 * Z.succ l - k) with (8 * l - (k - 8)) by lia. by rewrite digits_agree by lia.
  - rewrite !land_byte_part, mask_bytes_0, same_masked_0 by (done || lia).
    assert (∀ z Q, 0 ≤ Q < 256 ^ l → (z * 256 ^ l + Q) / 2 ^ (8 * Z.succ l - k) = z / 2 ^ (8 - k)) as Hd.
    { intros z Q HQ. replace (8 * Z.succ l - k) with (8 * l + (8 - k)) by lia. rewrite Z.pow_add_r, Z.pow_mul_r, <- Z.div_div by lia.
      change (2 ^ 8) with 256. rewrite Z.div_add_l, (Z.div_small Q) by lia. f_equal. lia. }
    rewrite !Hd by done. assert (2 ^ (8 - k) ≠ 0) by (apply Z.pow_nonzero; lia). split; [intros [? _]; nia|intros ->; done].
Qed.

(** *** Blocks *)

(** An address in the width of its version. *)
Definition canon (ip : list Z) : list Z := if (length (To4 ip) =? 4)%nat then To4 ip else ip.
(** What a block is: the addresses of the same version that agree with the network above the
    host bits. *)
Definition in_block (ones : Z) (net ip : list Z) : bool :=
  let host := 8 * Z.of_nat (length net) - ones in
  (0 <=? ones) && (0 <=? host) && (length (canon net) =? length (canon ip))%nat &&
  (SetBytes (canon net) / 2 ^ host =? SetBytes (canon ip) / 2 ^ host).

Definition valid_ip (ip : list Z) : Prop := bytes_ok ip ∧ (length ip = 4%nat ∨ length ip = 16%nat).

Lemma same_masked_and a m b : same_masked (and_bytes a m) m b = same_masked a m b.
Proof.
  unfold and_bytes. revert m b. induction a as [|x a IH]; intros [|k m] [|y b]; try done. cbn. rewrite IH. f_equal. f_equal.
  by rewrite <- Z.land_assoc, Z.land_diag.
Qed.
Lemma drop_mask j l n : 0 ≤ n → drop j (mask_bytes (j + l) n) = mask_bytes l (Z.max 0 (n - 8 * Z.of_nat j)).
Proof.
  revert n. induction j as [|j IH]; intros n Hn.
  { rewrite drop_0. cbn [Nat.add]. f_equal. lia. }
  cbn [Nat.add mask_bytes]. destruct (Z.leb_spec 8 n); rewrite skipn_cons, IH by lia; f_equal; lia.
Qed.
Lemma Mask_same a m : length a = length m → Mask a m = and_bytes a m.
Proof.
  intros H. unfold Mask. assert (∀ b, (length m =? 16)%nat && (length a =? 4)%nat && b = false) as Hf.
  { intros b. destruct (Nat.eqb_spec (length m) 16), (Nat.eqb_spec (length a) 4); try done; lia. }
  rewrite Hf. assert (∀ b, (length m =? 4)%nat && (length a =? 16)%nat && b = false) as Hg.
  { intros b. destruct (Nat.eqb_spec (length m) 4), (Nat.eqb_spec (length a) 16); try done; lia. }
  rewrite Hg, H. by rewrite Nat.eqb_refl.
Qed.
Lemma length_and_bytes a m : length a = length m → length (and_bytes a m) = length a.
Proof. intros H. unfold and_bytes. rewrite length_zip_with. lia. Qed.

Lemma canon_valid ip : valid_ip ip → valid_ip (canon ip).
Proof. intros [Hb Hl]. unfold canon. destruct (Nat.eqb_spec (length (To4 ip)) 4); [|done]. split; [by apply To4_bytes|by left]. Qed.
Lemma canon_cases ip : valid_ip ip → canon ip = ip ∨ length ip = 16%nat ∧ length (canon ip) = 4%nat ∧ To4 ip = canon ip ∧ take 12 ip = v4InV6Prefix.
Proof.
  intros [Hb Hl]. unfold canon, To4. destruct Hl as [->| ->]; cbn [Nat.eqb]; [by left; case_match|]. cbn [andb].
  case_bool_decide as E; [|by left]. case_match eqn:F; [|by left]. apply Nat.eqb_eq in F. by right.
Qed.
(** The host bits that are left in the width of the version. *)
Lemma div_clip A l h k : 0 ≤ A < 256 ^ l → 0 ≤ l → 0 ≤ h → k = Z.max 0 (8 * l - h) → A / 2 ^ (8 * l - k) = A / 2 ^ h.
Proof.
  intros HA Hl Hh ->. destruct (decide (h ≤ 8 * l)); [f_equal; f_equal; lia|].
  rewrite Z.max_l, Z.sub_0_r, Z.pow_mul_r by lia. change (2 ^ 8) with 256. rewrite !Z.div_small; [done| |lia].
  split; [lia|]. assert (2 ^ (8 * l) < 2 ^ h) by (apply Z.pow_lt_mono_r; lia). rewrite Z.pow_mul_r in * by lia. change (2 ^ 8) with 256 in *. lia.
Qed.
(** The comparison under the mask, in the width of the version. *)
Lemma masked_block h (a b : list Z) k : bytes_ok a → bytes_ok b → length a = length b → 0 ≤ h → k = Z.max 0 (8 * Z.of_nat (length a) - h) →
  same_masked a (mask_bytes (length a) k) b = (SetBytes a / 2 ^ h =? SetBytes b / 2 ^ h).
Proof.
  intros Ha Hb Hl Hh Hk. rewrite masked_numeric by (done || lia).
  rewrite !(div_clip _ (Z.of_nat (length a)) h k); [done|..]; try lia; [rewrite Hl; by apply SetBytes_range|by apply SetBytes_range].
Qed.
Lemma IP_Equal_block a b : bytes_ok a → bytes_ok b → length a = length b → IP_Equal a b = (SetBytes a / 2 ^ 0 =? SetBytes b / 2 ^ 0).
Proof.
  intros Ha Hb Hl. unfold IP_Equal. rewrite Hl, Nat.eqb_refl, !Z.div_1_r. apply eq_true_iff_eq. rewrite bool_decide_eq_true, Z.eqb_eq.
  split; [by intros ->|]. by apply SetBytes_inj.
Qed.
Lemma CIDRMask_bytes ones l : 0 ≤ ones ≤ 8 * Z.of_nat l → l = 4%nat ∨ l = 16%nat → CIDRMask ones (8 * Z.of_nat l) = mask_bytes l ones.
Proof.
  intros Ho Hl. unfold CIDRMask. rewrite (proj2 (Z.ltb_ge _ _)), (proj2 (Z.ltb_ge (8 * _) _)) by lia.
  destruct Hl as [-> | ->]; done.
Qed.
(** The mask, cut to the width of the version. *)
Lemma block_mask ones net : valid_ip net → 0 ≤ ones ≤ 8 * Z.of_nat (length net) →
  (if (Z.of_nat (length net) =? 16) && (length (canon net) =? 4)%nat then drop 12 (CIDRMask ones (8 * Z.of_nat (length net)))
   else CIDRMask ones (8 * Z.of_nat (length net))) =
  mask_bytes (length (canon net)) (Z.max 0 (8 * Z.of_nat (length (canon net)) - (8 * Z.of_nat (length net) - ones))).
Proof.
  intros Hv Ho. rewrite CIDRMask_bytes by (done || apply Hv). destruct (canon_cases net Hv) as [->|(Hl & Hc & _)].
  - assert ((Z.of_nat (length net) =? 16) && (length net =? 4)%nat = false) as -> by (destruct Hv as [_ [-> | ->]]; done). f_equal. lia.
  - rewrite Hl, Hc in *. cbn [andb Z.eqb Nat.eqb Pos.eqb Z.of_nat Pos.of_succ_nat Pos.succ]. rewrite (drop_mask 12 4) by lia. f_equal. lia.
Qed.
Lemma CIDRContains_block ones net ip f : valid_ip net → valid_ip ip → (f = false → canon ip = ip) →
  CIDRContains ones net ip f = in_block ones net ip.
Proof.
  intros Hn Hi Hf. unfold CIDRContains, in_block.
  destruct (Z.ltb_spec (8 * Z.of_nat (length net)) ones); [rewrite (proj2 (Z.leb_gt _ (_ - _))) by lia; by rewrite andb_false_r|].
  destruct (Z.ltb_spec ones 0); [by rewrite (proj2 (Z.leb_gt _ ones)) by lia|].
  rewrite (proj2 (Z.leb_le 0 ones)), (proj2 (Z.leb_le 0 (_ - _))) by lia. cbn [orb andb].
  assert (∀ x, valid_ip x → negb (length x =? 4)%nat && negb (length x =? 16)%nat = false) as Hg by (intros x [_ [-> | ->]]; done).
  rewrite !Hg by done.
  assert ((if f && (length (To4 ip) =? 4)%nat then To4 ip else ip) = canon ip) as -> by (destruct f; [done|by rewrite Hf]).
  fold (canon net). rewrite block_mask by (done || lia). set (h := 8 * Z.of_nat (length net) - ones).
  destruct (canon_valid net Hn) as [Bn Ln], (canon_valid ip Hi) as [Bi Li].
  rewrite Mask_same, length_and_bytes by (by rewrite length_mask_bytes). rewrite (Nat.eqb_sym (length (canon ip))).
  destruct (Nat.eqb_spec (length (canon net)) (length (canon ip))) as [Hl|]; cbn [andb negb]; [|by rewrite andb_false_r].
  rewrite andb_true_r, same_masked_and. destruct (Z.eqb_spec ones (8 * Z.of_nat (length net))).
  - assert (h = 0) as -> by lia. by apply IP_Equal_block.
  - apply masked_block; done || lia.
Qed.

(** A block contains exactly the addresses of its version whose number agrees with the network's above
    the host bits, for every prefix length, with IPv4 addresses in either form, and for a network given
    with host bits set; a prefix length out of range contains nothing. *)
Theorem cidr_contains_numeric ones net ip : valid_ip net → valid_ip ip →
  CIDRContains ones net ip true = in_block ones net ip.
Proof. intros Hn Hi. by apply CIDRContains_block. Qed.
Ltac ip_bytes := repeat (constructor; [unfold is_byte; lia|]); constructor.
Example cidr_contains_numeric_witness :
  CIDRContains 112 (v4InV6Prefix ++ [10; 1; 2; 3]) [10; 1; 9; 9] true = in_block 112 (v4InV6Prefix ++ [10; 1; 2; 3]) [10; 1; 9; 9] ∧
  in_block 112 (v4InV6Prefix ++ [10; 1; 2; 3]) [10; 1; 9; 9] = true.
Proof.
  split; [|vm_compute; reflexivity].
  refine (cidr_contains_numeric 112 (v4InV6Prefix ++ [10; 1; 2; 3]) [10; 1; 9; 9] _ _); split; solve [ip_bytes | by left | by right].
Defined.

(** ** The three scans *)

(** An entry of a list in the bytes form: an address, or a block with its prefix length in
    front, each in the width of its version. *)
Inductive entry_ok : list Z → Prop :=
| entry_address ip : valid_ip ip → canon ip = ip → entry_ok ip
| entry_block ones net : valid_ip net → canon net = net → 0 ≤ ones ≤ 8 * Z.of_nat (length net) → entry_ok (ones :: net).
Definition has_prefix (e : list Z) : bool := (length e =? 5)%nat || (length e =? 17)%nat.
Definition entry_matches (ip e : list Z) : bool :=
  if has_prefix e then match e with ones :: net => in_block ones net ip | [] => false end else in_block (8 * Z.of_nat (length e)) e ip.
Definition entry_text (e : list Z) : string :=
  if has_prefix e then match e with ones :: net => toIPString net 0 +:+ "/" +:+ utoa ones | [] => "" end else toIPString e 0.

Lemma valid_no_prefix ip : valid_ip ip → has_prefix ip = false.
Proof. unfold has_prefix. by intros [_ [-> | ->]]. Qed.
Lemma valid_has_prefix ones net : valid_ip net → has_prefix (ones :: net) = true.
Proof. unfold has_prefix. cbn [length]. by intros [_ [-> | ->]]. Qed.
Lemma first_index_ext {A} (f g : A → bool) l i : Forall (λ x, f x = g x) l → first_index f l i = first_index g l i.
Proof. intros H. revert i. induction H as [|x l Hx _ IH]; intros i; cbn; [done|]. by rewrite Hx, IH. Qed.
Lemma first_index_fmap {A B} (h : A → B) (f : B → bool) l i : first_index f (h <$> l) i = first_index (λ x, f (h x)) l i.
Proof. revert i. induction l as [|x l IH]; intros i; cbn; [done|]. by rewrite <- IH. Qed.

Lemma mixed_entry_matches ip e : valid_ip ip → canon ip = ip → entry_ok e → mixed_entry ip e = entry_matches ip e.
Proof.
  intros Hi Hc He. unfold mixed_entry, entry_matches. fold (has_prefix e). destruct He as [e Hv Hp|ones net Hv Hp Ho].
  - rewrite valid_no_prefix by done. destruct e; [by destruct Hv as [_ [|]]|]. by apply CIDRContains_block.
  - rewrite valid_has_prefix by done. by apply CIDRContains_block.
Qed.
Lemma in_block_pure ones net ip : canon net = net → canon ip = ip → 0 ≤ ones ≤ 8 * Z.of_nat (length net) →
  in_block ones net ip = (length net =? length ip)%nat && (SetBytes net / 2 ^ (8 * Z.of_nat (length net) - ones) =? SetBytes ip / 2 ^ (8 * Z.of_nat (length net) - ones)).
Proof. intros Hn Hi Ho. unfold in_block. rewrite Hn, Hi, (proj2 (Z.leb_le 0 ones)), (proj2 (Z.leb_le 0 (_ - _))) by lia. done. Qed.
Lemma in_block_single e ip : bytes_ok e → bytes_ok ip → canon e = e → canon ip = ip → in_block (8 * Z.of_nat (length e)) e ip = bool_decide (e = ip).
Proof.
  intros He Hi Hc Hp. rewrite in_block_pure by (done || lia). rewrite Z.sub_diag, !Z.div_1_r. apply eq_true_iff_eq.
  rewrite andb_true_iff, Nat.eqb_eq, Z.eqb_eq, bool_decide_eq_true. split; [intros [? ?]; by apply SetBytes_inj|by intros ->].
Qed.
Lemma fast_entry_matches ip e : valid_ip ip → canon ip = ip → entry_ok e → fast_entry ip e = entry_matches ip e.
Proof.
  intros Hi Hc He. unfold fast_entry, entry_matches. destruct He as [e Hv Hp|ones net Hv Hp Ho].
  - rewrite valid_no_prefix, in_block_single by (done || apply Hi || apply Hv). destruct (Nat.eqb_spec (length e) (length ip)) as [|Hl]; [done|].
    rewrite bool_decide_false by (by intros ->). destruct e as [|x e]; [done|]. cbn [length] in *.
    destruct (Nat.eqb_spec (length e) (length ip)); [|done]. destruct Hv as [_ Hv], Hi as [_ Hi]. cbn in Hv. lia.
  - rewrite valid_has_prefix by done. destruct Hv as [Bv Lv], Hi as [Bi Li]. cbn [length].
    rewrite (proj2 (Nat.eqb_neq (S _) _)) by lia. rewrite in_block_pure by done.
    destruct (Nat.eqb_spec (length net) (length ip)) as [Hl|]; [|done]. cbn [andb]. rewrite (proj2 (Z.ltb_ge _ _)) by lia. rewrite <- Hl, CIDRMask_bytes by done.
    by apply masked_numeric.
Qed.

(** *** Texts of entries *)

Lemma text_parses ip : valid_ip ip → ParseAddr (toIPString ip 0) = Some ((length (canon ip) =? 16)%nat, canon ip) ∧ ∀ b, alien b → has_byte b (toIPString ip 0) = false.
Proof.
  intros [Hb Hl]. unfold toIPString, canon. destruct ip as [|x ip']; [by destruct Hl|]. set (ip := x :: ip') in *. cbn [Z.eqb FlagV4 FlagV6].
  destruct (To4_cases ip Hl) as [[Ht _]|(Ht & _ & Hl')].
  - destruct (toIPv4String_parses ip (To4_bytes _ Hb) Ht) as (H1 & H2 & Hn). rewrite !Ht. cbn [Nat.eqb]. rewrite Ht. by destruct (toIPv4String ip).
  - destruct (toIPv6String_parses ip Hb Hl') as [H1 H2]. unfold toIPv4String. rewrite Ht, Hl'. cbn [length Nat.eqb negb]. by rewrite Hl'.
Qed.
Lemma SplitN2_slash s t : has_byte "/" s = false → SplitN2 "/" (s +:+ String "/" t) = (s, Some t).
Proof. induction s as [|c s IH]; intros H; [done|]. rewrite app_cons_str. cbn in *. apply orb_false_iff in H as [-> H]. by rewrite IH. Qed.
Lemma digit_val_nonneg c : is_digit c = true → 0 ≤ digit_val c.
Proof. unfold is_digit, digit_val. lia. Qed.
Lemma parse_digits_grows s a n : 0 ≤ a → parse_digits s a = Some n → a ≤ n.
Proof.
  revert a. induction s as [|c s IH]; intros a Ha H; cbn in *; [by simplify_eq|]. destruct (is_digit c) eqn:Ed; [|done].
  pose proof (digit_val_nonneg c Ed). apply IH in H; lia.
Qed.
Lemma dtoi_loop_digits s a n : 0 ≤ a → parse_digits s a = Some n → n < 16777215 → dtoi_loop s a = Some n.
Proof.
  revert a. induction s as [|c s IH]; intros a Ha H Hn; cbn in *; [done|]. destruct (is_digit c) eqn:Ed; [|done].
  pose proof (digit_val_nonneg c Ed). pose proof (parse_digits_grows s (a * 10 + digit_val c) n ltac:(lia) H).
  rewrite (proj2 (Z.leb_gt _ _)) by lia. apply IH; [lia|done..].
Qed.
Lemma dtoi_utoa n : 0 ≤ n < 16777215 → dtoi (utoa n) = Some n.
Proof.
  intros Hn. unfold dtoi. pose proof (utoa_nonempty n). destruct (utoa n) eqn:E; [done|]. rewrite <- E. apply dtoi_loop_digits; [done| |lia]. apply parse_utoa. lia.
Qed.

Lemma take_full_mask j l n : 8 * Z.of_nat j ≤ n → take j (mask_bytes (j + l) n) = replicate j 255.
Proof.
  revert n. induction j as [|j IH]; intros n Hn; [done|]. cbn [Nat.add mask_bytes replicate].
  rewrite (proj2 (Z.leb_le 8 n)), firstn_cons, IH by lia. done.
Qed.
Lemma and_full_mask a : bytes_ok a → and_bytes a (replicate (length a) 255) = a.
Proof. intros H. unfold and_bytes. induction H as [|x a Hx _ IH]; cbn; [done|]. by rewrite land_byte_full, IH. Qed.
(** Under a mask an IPv6 address does not turn into a mapped one. *)
Lemma masked_pure net ones : bytes_ok net → length net = 16%nat → 0 ≤ ones ≤ 128 → take 12 net ≠ v4InV6Prefix →
  take 12 (and_bytes net (mask_bytes 16 ones)) ≠ v4InV6Prefix.
Proof.
  intros Hb Hl Ho Hp He. destruct (decide (96 ≤ ones)).
  - apply Hp. rewrite <- He. unfold and_bytes. rewrite zip_with_take, (take_full_mask 12 4) by lia.
    assert (length (take 12 net) = 12%nat) as Ht by (rewrite length_take; lia). rewrite <- Ht at 3. symmetry. apply and_full_mask. by apply Forall_take.
  - assert (and_bytes net (mask_bytes 16 ones) !! 11%nat = Some 255) as H11.
    { rewrite <- (lookup_take_lt _ 12) by lia. by rewrite He. }
    unfold and_bytes in H11. apply lookup_zip_with_Some in H11 as (x & k & Hx & Hn & Hk).
    assert (drop 11 (mask_bytes 16 ones) !! 0%nat = Some k) as Hd by (by rewrite lookup_drop).
    rewrite (drop_mask 11 5) in Hd by lia. cbn [mask_bytes] in Hd. set (j := Z.max 0 (ones - 8 * Z.of_nat 11)) in *.
    rewrite (proj2 (Z.leb_gt 8 j)) in Hd by lia. injection Hd as <-.
    rewrite land_byte_part in Hx by (lia || by eapply Forall_lookup_1).
    replace (8 - j) with (Z.succ (7 - j)) in Hx by lia. rewrite Z.pow_succ_r in Hx by lia. lia.
Qed.
Lemma canon_match ip : valid_ip ip → (match To4 ip with [] => ip | x => x end) = canon ip.
Proof. intros [_ Hl]. unfold canon. destruct (To4_cases ip Hl) as [[Ht _]|(Ht & _)]; [rewrite Ht; by destruct (To4 ip)|by rewrite Ht]. Qed.
Lemma canon_pure ip : valid_ip ip → canon ip = ip ↔ length ip = 4%nat ∨ take 12 ip ≠ v4InV6Prefix.
Proof.
  intros [_ Hl]. unfold canon, To4. destruct Hl as [Hl|Hl]; rewrite !Hl; cbn [Nat.eqb andb].
  - rewrite Hl. by split; [left|].
  - case_bool_decide as E; [|by cbn; split; [right|]]. rewrite length_drop, Hl. cbn. split; [|by intros [|]].
    intros H. apply (f_equal length) in H. rewrite length_drop, Hl in H. done.
Qed.
Lemma Mask_mapped net m : length net = 4%nat → length m = 4%nat → Mask (v4InV6Prefix ++ net) m = and_bytes net m.
Proof. intros Hn Hm. unfold Mask. rewrite length_app, Hn, Hm. cbn [length v4InV6Prefix Nat.add Nat.eqb andb]. rewrite bool_decide_true by done.  rewrite Hm. change (drop 12 (v4InV6Prefix ++ net)) with net. cbn [Nat.eqb andb]. by rewrite Hn. Qed.
(** The network that the text of a block is read as. *)
Lemma block_text_parses ones net : valid_ip net → canon net = net → 0 ≤ ones ≤ 8 * Z.of_nat (length net) →
  ParseCIDR (toIPString net 0 +:+ "/" +:+ utoa ones) =
    (VersionFlagByBytes (To16 net), IP_String (To16 net), Some (mkNet (and_bytes net (mask_bytes (length net) ones)) (mask_bytes (length net) ones))).
Proof.
  intros Hv Hc Ho. destruct (text_parses net Hv) as [Ht Hs]. rewrite Hc in Ht. unfold ParseCIDR, net_ParseCIDR.
  rewrite app_cons_str, app_nil_l_str, SplitN2_slash by (by apply Hs). rewrite Ht. cbn [mbind option_bind].
  rewrite dtoi_utoa by (destruct Hv as [_ [?|?]]; lia). cbn [mbind option_bind].
  assert ((if (length net =? 16)%nat then 128 else 32) = 8 * Z.of_nat (length net)) as -> by (by destruct Hv as [_ [-> | ->]]).
  rewrite (proj2 (Z.ltb_ge _ _)), CIDRMask_bytes by (lia || apply Hv). do 3 f_equal.
  destruct Hv as [_ [Hl|Hl]]; [rewrite To16_short by done; apply Mask_mapped|rewrite To16_long by done; apply Mask_same]; rewrite ?length_mask_bytes; done.
Qed.
Lemma Contains_block ones net ip : valid_ip net → canon net = net → valid_ip ip → canon ip = ip → 0 ≤ ones ≤ 8 * Z.of_nat (length net) →
  Contains (mkNet (and_bytes net (mask_bytes (length net) ones)) (mask_bytes (length net) ones)) ip = in_block ones net ip.
Proof.
  intros Hn Hnc Hi Hic Ho. unfold Contains. set (m := mask_bytes (length net) ones).
  assert (length m = length net) as Hm by apply length_mask_bytes.
  assert (length (and_bytes net m) = length net) as Hl by (by apply length_and_bytes).
  assert (networkNumberAndMask (mkNet (and_bytes net m) m) = (and_bytes net m, m)) as ->.
  { unfold networkNumberAndMask. cbn [net_IP net_Mask]. destruct Hn as [Bn Ln].
    assert (match To4 (and_bytes net m) with [] => and_bytes net m | ip => ip end = and_bytes net m) as ->.
    { unfold To4. rewrite Hl. destruct Ln as [Ln|Ln]; rewrite Ln; cbn [Nat.eqb andb]; [by case_match|].
      rewrite bool_decide_false; [done|]. subst m. rewrite Ln in *. apply masked_pure; [done..|lia|].
      destruct (proj1 (canon_pure net (conj Bn (or_intror Ln))) Hnc); [lia|done]. }
    rewrite Hl, Hm. destruct Ln as [-> | ->]; done. }
  rewrite canon_match, Hic, in_block_pure, Hl, (Nat.eqb_sym (length ip)) by done. destruct (Nat.eqb_spec (length net) (length ip)) as [He|]; [|done]. cbn [andb].
  rewrite same_masked_and. apply masked_numeric; [apply Hn|apply Hi|done|lia].
Qed.
Lemma VersionFlag_valid net : valid_ip net → Valid (VersionFlagByBytes (To16 net)) = true.
Proof.
  intros [Hb Hl]. destruct (To16_valid net Hb Hl) as [_ H]. unfold VersionFlagByBytes. rewrite (To16_long (To16 net)) by done. rewrite H. by case_match.
Qed.
Lemma has_byte_slash s t : has_byte "/" (s +:+ "/" +:+ t) = true.
Proof. rewrite has_byte_app. cbn. by rewrite orb_true_r. Qed.
Lemma text_entry_matches ip e : valid_ip ip → canon ip = ip → entry_ok e → cidr_or_ip_matches ip (entry_text e) = entry_matches ip e.
Proof.
  intros Hi Hic He. unfold entry_text, entry_matches, cidr_or_ip_matches. destruct He as [e Hv Hp|ones net Hv Hp Ho].
  - rewrite valid_no_prefix by done. destruct (text_parses e Hv) as [Ht Hs]. rewrite Hs by done. unfold ToIP, ParseIP. rewrite Ht, Hp.
    rewrite in_block_single by (done || apply Hi || apply Hv). destruct (To16_valid e (proj1 Hv) (proj2 Hv)) as [_ H16].
    destruct (To16 e) eqn:E; [done|]. rewrite <- E in *. clear E. unfold IP_Equal. rewrite H16.
    pose proof (proj1 (canon_pure _ Hi) Hic) as Pi. pose proof (proj1 (canon_pure _ Hv) Hp) as Pe.
    destruct Hv as [_ [Lv|Lv]]; [rewrite To16_short by done|rewrite To16_long by done]; destruct Hi as [_ [Li|Li]]; rewrite Li; cbn [Nat.eqb andb].
    + done.
    + rewrite !bool_decide_false; [done|intros <-; lia|intros <-]. by destruct Pi; [|].
    + destruct Pe; [lia|]. rewrite (bool_decide_false (take 12 e = _)) by done. cbn [andb]. rewrite bool_decide_false by (intros <-; lia). done.
    + done.
  - rewrite valid_has_prefix by done. rewrite has_byte_slash, block_text_parses, VersionFlag_valid by done. by apply Contains_block.
Qed.

(** The three scans over a list of addresses and blocks give the same answer, the first entry that
    matches, in the sense of numbers: the scan over texts, the scan over bytes, and the fast scan without
    normalisation, for entries and an address each in the width of its version.  A scan answers the index
    and true, or minus one and false when no entry matches. *)
Theorem scans_agree l ip : valid_ip ip → canon ip = ip → Forall entry_ok l →
  InCIDRsOrIPs (entry_text <$> l) ip = first_index (entry_matches ip) l 0 ∧
  InRangeMixedIPsOrCIDRs l ip = first_index (entry_matches ip) l 0 ∧
  FastInRangeMixedIPsOrCIDRs l ip = first_index (entry_matches ip) l 0.
Proof.
  intros Hi Hc Hl. unfold InCIDRsOrIPs, InRangeMixedIPsOrCIDRs, FastInRangeMixedIPsOrCIDRs. fold (canon ip). rewrite Hc, first_index_fmap.
  assert (negb (length ip =? 4)%nat && negb (length ip =? 16)%nat = false) as -> by (by destruct Hi as [_ [-> | ->]]).
  split_and!; apply first_index_ext; eapply Forall_impl; try exact Hl; intros e He;
    [by apply text_entry_matches|by apply mixed_entry_matches|by apply fast_entry_matches].
Qed.
Example scans_agree_witness :
  let l := [[8; 10; 0; 0; 0]; [1; 2; 3; 4]] in
  InCIDRsOrIPs (entry_text <$> l) [1; 2; 3; 4] = (1, true) ∧ InRangeMixedIPsOrCIDRs l [1; 2; 3; 4] = (1, true) ∧
  FastInRangeMixedIPsOrCIDRs l [1; 2; 3; 4] = (1, true).
Proof.
  refine (scans_agree [[8; 10; 0; 0; 0]; [1; 2; 3; 4]] [1; 2; 3; 4] _ _ _).
  - split; [ip_bytes|by left].
  - reflexivity.
  - constructor; [apply (entry_block 8 [10; 0; 0; 0]); [split; [ip_bytes|by left]|reflexivity|cbn; lia]|].
    constructor; [apply entry_address; [split; [ip_bytes|by left]|reflexivity]|constructor].
Defined.

(** ** Masks in text *)

Lemma DecodeString_hex m : bytes_ok m → DecodeString (hexString m) = m.
Proof.
  induction 1 as [|x m Hx _ IH]; cbn [hexString DecodeString]; [done|]. unfold is_byte in Hx.
  rewrite Z.shiftr_div_pow2 by lia. change 15 with (Z.ones 4). rewrite Z.land_ones by lia. change (2 ^ 4) with 16.
  rewrite !hex_nibble_digit by (Z.div_mod_to_equations; lia). rewrite IH. f_equal. Z.div_mod_to_equations. lia.
Qed.
Lemma hexString_slash m : bytes_ok m → has_byte "/" (hexString m) = false.
Proof.
  induction 1 as [|x m Hx _ IH]; cbn [hexString has_byte]; [done|]. unfold is_byte in Hx. rewrite IH, orb_false_r.
  rewrite Z.shiftr_div_pow2 by lia. change 15 with (Z.ones 4). rewrite Z.land_ones by lia.
  rewrite !(proj2 (Ascii.eqb_neq _ _)); [done|..]; intros E; apply (f_equal hex_nibble) in E; rewrite hex_nibble_digit in E;
    try done; Z.div_mod_to_equations; lia.
Qed.
Lemma length_hexString m : String.length (hexString m) = (2 * length m)%nat.
Proof. induction m as [|x m IH]; cbn [hexString String.length length]; [done|]. rewrite IH. lia. Qed.
Lemma split_byte_none sep s : has_byte sep s = false → split_byte sep s = [s].
Proof. induction s as [|c s IH]; cbn; [done|]. intros [-> H]%orb_false_iff. by rewrite IH. Qed.
Lemma split_byte_two sep s t : has_byte sep s = false → has_byte sep t = false → split_byte sep (s +:+ String sep t) = [s; t].
Proof.
  intros Hs Ht. induction s as [|c s IH]; [rewrite app_nil_l_str; cbn; by rewrite Ascii.eqb_refl, split_byte_none|].
  rewrite app_cons_str. cbn in *. apply orb_false_iff in Hs as [-> Hs]. by rewrite IH.
Qed.
Lemma mask_bytes_ok l n : 0 ≤ n → bytes_ok (mask_bytes l n).
Proof.
  revert n. induction l as [|l IH]; intros n Hn; [constructor|]. cbn [mask_bytes].
  case_match eqn:E; rewrite ?Z.leb_le, ?Z.leb_gt in E; (constructor; [|apply IH; lia]); unfold is_byte; [lia|].
  rewrite Z.shiftr_div_pow2 by lia. assert (0 < 2 ^ n) by lia. Z.div_mod_to_equations. nia.
Qed.
(** The weight of a mask is its prefix length. *)
Definition mask_weight (m : list Z) : Z := foldl (λ ones b, u8 (ones + hammingWeight b)) 0 m.
Lemma mask_weight_prefix l ones : l = 4%nat ∨ l = 16%nat → 0 ≤ ones ≤ 8 * Z.of_nat l → mask_weight (mask_bytes l ones) = ones.
Proof.
  intros Hl Ho. assert (Forall (λ o, mask_weight (mask_bytes l o) = o) (seqZ 0 (8 * Z.of_nat l + 1))) as H.
  { apply (bool_decide_unpack _). by destruct Hl as [-> | ->]; vm_compute. }
  rewrite Forall_forall in H. apply H, elem_of_seqZ. lia.
Qed.
Lemma toIPString_To16 net : valid_ip net → IP_String (To16 net) = toIPString net 0.
Proof.
  intros [Hb Hl]. destruct (To16_valid net Hb Hl) as [_ H16]. unfold IP_String. destruct (To16 net) eqn:E; [done|]. rewrite <- E.
  destruct Hl as [Hl|Hl]; [|by rewrite To16_long]. rewrite To16_short by done.
  assert (To4 (v4InV6Prefix ++ net) = To4 net) as H4 by (destruct net as [|a [|b [|c [|d [|]]]]]; done).
  destruct (toIPv4String_parses net) as (_ & _ & Hn); [by apply To4_bytes|by rewrite To4_short|].
  assert (toIPv4String (v4InV6Prefix ++ net) = toIPv4String net) as Ht by (unfold toIPv4String; by rewrite H4).
  unfold toIPString. rewrite Ht. destruct net; [done|]. by destruct (toIPv4String _).
Qed.
Lemma long_is_v6 net : valid_ip net → canon net = net → (VersionFlagByBytes (To16 net) =? FlagV4) && (length net =? 16)%nat = false.
Proof.
  intros Hv Hc. destruct (Nat.eqb_spec (length net) 16) as [Hl|]; [|apply andb_false_r]. rewrite To16_long, andb_true_r by done.
  unfold VersionFlagByBytes. unfold canon in Hc. case_match eqn:E; [|by case_match]. apply Nat.eqb_eq in E. rewrite Hc in E. lia.
Qed.

(** A block in prefix form, turned into address and mask and back, is the text it was: for every
    address in the width of its version and every prefix length. *)
Theorem mask_text_roundtrip ones net : valid_ip net → canon net = net → 0 ≤ ones ≤ 8 * Z.of_nat (length net) →
  MaskIPToCIDR (CIDRToIPMask (toIPString net 0 +:+ "/" +:+ utoa ones)) = toIPString net 0 +:+ "/" +:+ utoa ones.
Proof.
  intros Hv Hc Ho. unfold CIDRToIPMask. rewrite block_text_parses, toIPString_To16 by done. cbn [net_Mask].
  rewrite length_mask_bytes. destruct (text_parses net Hv) as [Ht Hs].
  assert (String.eqb (toIPString net 0) "" = false) as -> by (apply String.eqb_neq; intros E; by rewrite E in Ht).
  rewrite long_is_v6 by done.
  set (m := mask_bytes (length net) ones). assert (bytes_ok m) as Hm by (apply mask_bytes_ok; lia).
  assert (length m = length net) as Hml by apply length_mask_bytes.
  assert (IPMask_String m = hexString m) as -> by (destruct m; [destruct Hv as [_ [|]]; by rewrite <- Hml in *|done]).
  unfold MaskIPToCIDR. rewrite app_cons_str, app_nil_l_str, split_byte_two by (by apply Hs || by apply hexString_slash).
  rewrite length_hexString, DecodeString_hex, Hml by done. fold (mask_weight m). assert (mask_weight m = ones) as -> by (apply mask_weight_prefix; done || apply Hv).
  assert (u8 (Z.of_nat (length net) * 8) = 8 * Z.of_nat (length net)) as -> by (destruct Hv as [_ [-> | ->]]; done).
  rewrite CIDRMask_bytes, bool_decide_true by (done || apply Hv). destruct Hv as [_ [-> | ->]]; done.
Qed.
Example mask_text_roundtrip_witness : MaskIPToCIDR (CIDRToIPMask "192.0.2.0/24") = "192.0.2.0/24" ∧ CIDRToIPMask "192.0.2.0/24" = "192.0.2.0/ffffff00".
Proof.
  split; [|vm_compute; reflexivity]. refine (mask_text_roundtrip 24 [192; 0; 2; 0] _ _ _); [split; [ip_bytes|by left]|reflexivity|cbn; lia].
Defined.

(** ** What the parser returns *)

Lemma v4_loop_valid s fields val k ip : bytes_ok fields → (length fields ≤ 3)%nat → 0 ≤ val ≤ 255 →
  v4_loop s fields val k = Some ip → bytes_ok ip ∧ length ip = 4%nat.
Proof.
  revert fields val k. induction s as [|c s IH]; intros fields val k Hf Hl Hv H; cbn -[Nat.eqb Z.ltb] in H.
  - repeat case_match; simplify_eq. apply Nat.eqb_eq in H1. split; [|rewrite length_app, H1; done].
    apply Forall_app. split; [done|]. repeat constructor; lia.
  - destruct (is_digit c) eqn:Ed.
    + pose proof (digit_val_nonneg c Ed). repeat case_match; try done. eapply IH; [..|exact H]; [done..|]. rewrite Z.ltb_ge in *. lia.
    + repeat case_match; try done. rewrite Nat.eqb_neq in *. eapply IH; [..|exact H]; [|rewrite length_app; cbn; lia|lia].
      apply Forall_app. split; [done|]. repeat constructor; lia.
Qed.
Lemma hex_nibble_range c d : hex_nibble c = Some d → 0 ≤ d < 16.
Proof. unfold hex_nibble. intros H. repeat case_match; simplify_eq; rewrite andb_true_iff, !Z.leb_le in *; lia. Qed.
Lemma hex_digits_range s off acc v n r : 0 ≤ acc ≤ 65535 → hex_digits s off acc = Some (v, n, r) → 0 ≤ v ≤ 65535.
Proof.
  revert off acc. induction s as [|c s IH]; intros off acc Ha H; cbn -[Nat.ltb Z.ltb] in H; [by simplify_eq|].
  repeat case_match; simplify_eq; [|done]. eapply IH; [|exact H]. pose proof (hex_nibble_range _ _ H0). rewrite Z.ltb_ge in *. lia.
Qed.
(** The bytes so far, with the place of the ellipsis among them. *)
Definition groups_ok (r : list Z * option nat) : Prop :=
  bytes_ok r.1 ∧ (length r.1 ≤ 16)%nat ∧ match r.2 with Some e => (e ≤ length r.1)%nat | None => True end.
Lemma groups_ok_snoc ip e acc : groups_ok (ip, e) → Nat.Even (length ip) → (length ip < 16)%nat → 0 ≤ acc ≤ 65535 →
  groups_ok (ip ++ [acc / 256; acc mod 256], e) ∧ Nat.Even (length (ip ++ [acc / 256; acc mod 256])).
Proof.
  intros (Hb & Hl & He) [k Hk] Hlt Ha. unfold groups_ok. cbn [fst snd] in *. rewrite length_app. cbn [length]. split_and!.
  - apply Forall_app. split; [done|]. repeat constructor; Z.div_mod_to_equations; lia.
  - lia.
  - destruct e; [lia|done].
  - exists (S k). lia.
Qed.
Lemma group_loop_valid fuel s ip e r : groups_ok (ip, e) → Nat.Even (length ip) → group_loop fuel s ip e = Some r → groups_ok r.
Proof.
  revert s ip e. induction fuel as [|fuel IH]; intros s ip e Hok Hev H; cbn -[Nat.leb Nat.ltb Nat.eqb Z.div Z.modulo hex_digits] in H; [by repeat case_match; simplify_eq|].
  destruct (Nat.leb_spec 16 (length ip)) as [|Hlt]; [by repeat case_match; simplify_eq|].
  destruct (hex_digits s 0 0) as [[[acc off] r']|] eqn:Eh; [|done]. cbn -[Nat.leb Nat.ltb Nat.eqb Z.div Z.modulo] in H.
  apply hex_digits_range in Eh; [|lia]. destruct (groups_ok_snoc ip e acc Hok Hev Hlt Eh) as [Hok2 Hev2].
  destruct (off =? 0)%nat; [done|]. destruct r' as [|c r']; [by simplify_eq|].
  destruct (Ascii.eqb c "."%char).
  - case_match eqn:Eg; [done|]. apply orb_false_iff in Eg as [_ Eg]. apply Nat.ltb_ge in Eg.
    destruct (parseIPv4Fields s) as [v4|] eqn:E4; [|done]. cbn in H. simplify_eq. apply v4_loop_valid in E4 as [B4 L4]; [|constructor|cbn; lia|lia].
    destruct Hok as (Hb & _ & He). unfold groups_ok. cbn [fst snd] in *. rewrite length_app. split_and!; [by apply Forall_app|lia|]. destruct e; [lia|done].
  - destruct (negb _); [done|]. destruct r' as [|c2 r'']; [done|]. destruct (Ascii.eqb c2 ":"%char); [|by eapply IH].
    destruct e; [done|]. assert (groups_ok (ip ++ [acc / 256; acc mod 256], Some (length (ip ++ [acc / 256; acc mod 256])))) as Hok3.
    { destruct Hok2 as (? & ? & _). split_and!; cbn [fst snd] in *; done || lia. }
    destruct r''; [by simplify_eq|by eapply IH].
Qed.
Lemma parseIPv6_valid s ip : parseIPv6 s = Some ip → bytes_ok ip ∧ length ip = 16%nat.
Proof.
  unfold parseIPv6. intros H. apply bind_Some in H as ([bs e] & Hg & H).
  assert (groups_ok (bs, e)) as (Hb & Hl & He).
  { assert (groups_ok ([], None) ∧ groups_ok ([], Some 0%nat)) as [H1 H2] by (split; split_and!; try constructor; cbn; lia).
    destruct (after_colons s) as [[|c r]|]; [by simplify_eq|..]; (eapply group_loop_valid; [..|exact Hg]; [done|by exists 0%nat]). }
  cbn [fst snd] in *. destruct (Nat.ltb_spec (length bs) 16).
  - destruct e as [e|]; [|done]. cbn in H. simplify_eq. split.
    + repeat apply Forall_app_2; [by apply Forall_take| |by apply Forall_drop]. apply Forall_replicate. unfold is_byte. lia.
    + rewrite !length_app, length_take, length_replicate, length_drop. lia.
  - destruct e; simplify_eq. split; [done|lia].
Qed.
Lemma ParseIP_type s : ParseIP s = [] ∨ bytes_ok (ParseIP s) ∧ length (ParseIP s) = 16%nat.
Proof.
  unfold ParseIP, ParseAddr. destruct (version_of s) as [[|]|]; [| |by left]; cbn.
  - destruct (has_byte "%" s); [by left|]. destruct (parseIPv6 s) as [ip|] eqn:E; [|by left]. cbn. right.
    apply parseIPv6_valid in E as [? ?]. by rewrite To16_long.
  - destruct (parseIPv4Fields s) as [ip|] eqn:E; [|by left]. cbn. right.
    apply v4_loop_valid in E as [? ?]; [|constructor|cbn; lia|lia]. apply To16_valid; auto.
Qed.
(** What the parser accepts is an address: sixteen bytes, each in range; it returns nothing else than
    that or the nil address. *)
Theorem ParseIP_valid s : ParseIP s = [] ∨ bytes_ok (ParseIP s) ∧ length (ParseIP s) = 16%nat.
Proof. apply ParseIP_type. Qed.
