(* ===== verification/NetInfo.v ===== *)
(** * NetInfo: the host's own addresses and a client's address ([ip/net_info.go])

    The interfaces of the host are a parameter, what [DefaultAddrLookup] answers: [None]
    for an error, or a list in which an address that is not an [*net.IPNet] is [None].
    The predicates of [net] on addresses are written out.  The cached local address is a
    state with the time of the call; a request is what the code reads of it, two headers
    and the remote address.

    Shown: an address is public exactly when it is in none of thirteen blocks
    ([is_public_blocks]); the client's address is the first candidate that is one
    ([client_public_first]); an address joined with a port, as servers write it, gives
    back the address ([client_ip_remote]); the cache serves an address no older than its
    time to live unless the lookup fails ([local_ip_fresh]).
    The lookups over HTTP ([PublicIP] and what it calls) are not modelled. *)

From Stdlib Require Import ZArith Lia Ascii String Btauto.
From stdpp Require Import base tactics numbers list strings.
From S2P Require Import Prelude GoStd IP.

#[local] Open Scope string_scope.
#[local] Open Scope list_scope.
#[local] Open Scope Z_scope.

(** ** What is used of package net *)

Definition IPv4zero : list Z := v4InV6Prefix ++ [0; 0; 0; 0].
Definition IPv4bcast : list Z := v4InV6Prefix ++ [255; 255; 255; 255].
Definition IPv6unspecified : list Z := replicate 16 0.
Definition IPv6loopback : list Z := replicate 15 0 ++ [1].

Definition at_ (ip : list Z) (i : nat) : Z := nth i ip 0.
Definition is16 (ip : list Z) : bool := (length ip =? 16)%nat.
Definition IsUnspecified (ip : list Z) : bool := IP_Equal ip IPv4zero || IP_Equal ip IPv6unspecified.
Definition IsLoopback (ip : list Z) : bool :=
  match To4 ip with a :: _ => a =? 127 | [] => IP_Equal ip IPv6loopback end.
Definition IsPrivate (ip : list Z) : bool :=
  match To4 ip with
  | [] => is16 ip && (Z.land (at_ ip 0) 254 =? 252)
  | ip4 => (at_ ip4 0 =? 10) || (at_ ip4 0 =? 172) && (Z.land (at_ ip4 1) 240 =? 16) || (at_ ip4 0 =? 192) && (at_ ip4 1 =? 168)
  end.
Definition IsMulticast (ip : list Z) : bool :=
  match To4 ip with [] => is16 ip && (at_ ip 0 =? 255) | ip4 => Z.land (at_ ip4 0) 240 =? 224 end.
Definition IsInterfaceLocalMulticast (ip : list Z) : bool := is16 ip && (at_ ip 0 =? 255) && (Z.land (at_ ip 1) 15 =? 1).
Definition IsLinkLocalMulticast (ip : list Z) : bool :=
  match To4 ip with
  | [] => is16 ip && (at_ ip 0 =? 255) && (Z.land (at_ ip 1) 15 =? 2)
  | ip4 => (at_ ip4 0 =? 224) && (at_ ip4 1 =? 0) && (at_ ip4 2 =? 0)
  end.
Definition IsLinkLocalUnicast (ip : list Z) : bool :=
  match To4 ip with
  | [] => is16 ip && (at_ ip 0 =? 254) && (Z.land (at_ ip 1) 192 =? 128)
  | ip4 => (at_ ip4 0 =? 169) && (at_ ip4 1 =? 254)
  end.
Definition IsGlobalUnicast (ip : list Z) : bool :=
  ((length ip =? 4)%nat || is16 ip) && negb (IP_Equal ip IPv4bcast) && negb (IsUnspecified ip) && negb (IsLoopback ip) &&
  negb (IsMulticast ip) && negb (IsLinkLocalUnicast ip).

(** ** The addresses of the host *)

Definition TypeFlagIsUnspecified : Z := 1.
Definition TypeFlagIPIsLoopback : Z := 2.
Definition TypeFlagIsPrivate : Z := 4.
Definition TypeFlagIsMulticast : Z := 8.
Definition TypeFlagIsInterfaceLocalMulticast : Z := 16.
Definition TypeFlagIsLinkLocalMulticast : Z := 32.
Definition TypeFlagIsLinkLocalUnicast : Z := 64.
Definition TypeFlagIsGlobalUnicast : Z := 128.
Definition TypeFlagLoopbackANdLinkLocalUnicast : Z := Z.lor TypeFlagIPIsLoopback TypeFlagIsLinkLocalUnicast.

Definition interfaces : Type := option (list (option (list Z))).
Definition addrs (ifa : interfaces) : list (list Z) := match ifa with Some l => omap id l | None => [] end.

Definition flag_set (mask flag : Z) : bool := Z.land mask flag =? flag.
Definition ignored (ignoreTypeFlag : Z) (ip : list Z) : bool :=
  IsUnspecified ip && flag_set ignoreTypeFlag TypeFlagIsUnspecified ||
  IsLoopback ip && flag_set ignoreTypeFlag TypeFlagIPIsLoopback ||
  IsPrivate ip && flag_set ignoreTypeFlag TypeFlagIsPrivate ||
  IsMulticast ip && flag_set ignoreTypeFlag TypeFlagIsMulticast ||
  IsInterfaceLocalMulticast ip && flag_set ignoreTypeFlag TypeFlagIsInterfaceLocalMulticast ||
  IsLinkLocalMulticast ip && flag_set ignoreTypeFlag TypeFlagIsLinkLocalMulticast ||
  IsLinkLocalUnicast ip && flag_set ignoreTypeFlag TypeFlagIsLinkLocalUnicast ||
  IsGlobalUnicast ip && flag_set ignoreTypeFlag TypeFlagIsGlobalUnicast.
Definition is_v4 (ip : list Z) : bool := match To4 ip with [] => false | _ => true end.
Fixpoint GetIPAll_loop (flag ignoreTypeFlag : Z) (l : list (list Z)) (ips : list string) : list string :=
  match l with
  | [] => ips
  | ip :: l =>
      if ignored ignoreTypeFlag ip then GetIPAll_loop flag ignoreTypeFlag l ips
      else if flag =? FlagV4 then GetIPAll_loop flag ignoreTypeFlag l (if is_v4 ip then ips ++ [IP_String ip] else ips)
      else if flag =? FlagV6 then GetIPAll_loop flag ignoreTypeFlag l (if is_v4 ip then ips else ips ++ [IP_String ip])
      else GetIPAll_loop flag ignoreTypeFlag l (ips ++ [IP_String ip])
  end.
Definition GetIPAll (ifa : interfaces) (flag ignoreTypeFlag : Z) : list string := GetIPAll_loop flag ignoreTypeFlag (addrs ifa) [].
Definition GetIPSet (ifa : interfaces) : list string := GetIPAll ifa FlagVAll TypeFlagLoopbackANdLinkLocalUnicast.
Definition GetIPSetWithLinkLocalUnicast (ifa : interfaces) : list string := GetIPAll ifa FlagVAll TypeFlagIPIsLoopback.
Definition GetIPv4Set (ifa : interfaces) : list string := GetIPAll ifa FlagV4 TypeFlagLoopbackANdLinkLocalUnicast.
Definition GetIPv6Set (ifa : interfaces) : list string := GetIPAll ifa FlagV6 TypeFlagLoopbackANdLinkLocalUnicast.

(** The loop stops at the first IPv4 address; when there is none the last value of
    [To4], which is nil, is returned. *)
Fixpoint local_loop (l : list (list Z)) : list Z :=
  match l with
  | [] => []
  | ip :: l => if negb (IsLoopback ip) && negb (IsLinkLocalUnicast ip) && is_v4 ip then To4 ip else local_loop l
  end.
Definition getLocalIPBytes (ifa : interfaces) : list Z := local_loop (addrs ifa).
Definition LocalIPRealTime (ifa : interfaces) : string := match getLocalIPBytes ifa with [] => "" | ip => IP_String ip end.
Fixpoint private_loop (l : list (list Z)) : list string :=
  match l with
  | [] => []
  | ip :: l => if negb (IsLoopback ip) && IsPrivate ip && is_v4 ip then IP_String (To4 ip) :: private_loop l else private_loop l
  end.
Definition PrivateIPAll (ifa : interfaces) : list string := private_loop (addrs ifa).
(** [PrivateIP] breaks at the first. *)
Fixpoint private_first (l : list (list Z)) : string :=
  match l with
  | [] => ""
  | ip :: l => if negb (IsLoopback ip) && IsPrivate ip && is_v4 ip then IP_String (To4 ip) else private_first l
  end.
Definition PrivateIP (ifa : interfaces) : string := private_first (addrs ifa).
(** The texts of the hardware addresses, empty for an interface that has none. *)
Definition MacAddress (netInterfaces : option (list string)) : list string :=
  filter (λ m, m ≠ "") (default [] netInterfaces).

(** ** The cached local address *)

Record localIP := mkLocal { lip_IP : list Z; lip_LatestTime : Z; lip_TTL : Z }.
Definition Minute : Z := 60 * 10 ^ 9.

(** The time is the one [updateCacheLocalIP] stores. *)
Definition updateCacheLocalIP (cache : option localIP) (ifa : interfaces) (now : Z) : option localIP * string :=
  match getLocalIPBytes ifa with
  | [] => (cache, "")
  | ip => (Some (mkLocal ip now Minute), IP_String ip)
  end.
Definition snapshot_stale (snapshot : option localIP) (now : Z) : bool :=
  match snapshot with
  | None => true
  | Some s => match lip_IP s with [] => true | _ => lip_LatestTime s + lip_TTL s <? now end
  end.
Definition snapshot_text (snapshot : option localIP) : string :=
  match snapshot with Some s => match lip_IP s with [] => "" | ip => IP_String ip end | None => "" end.
Definition localIPFromSnapshot (snapshot cache : option localIP) (ifa : interfaces) (now now' : Z) : option localIP * string :=
  if snapshot_stale snapshot now then
    let '(cache, refreshed) := updateCacheLocalIP cache ifa now' in
    if negb (String.eqb refreshed "") then (cache, refreshed) else (cache, snapshot_text snapshot)
  else (cache, snapshot_text snapshot).
Definition LocalIP (cache : option localIP) (ifa : interfaces) (now now' : Z) : option localIP * string :=
  localIPFromSnapshot cache cache ifa now now'.

(** ** Requests *)

Definition IsPublic (ip : list Z) : bool :=
  if IsUnspecified ip || IsPrivate ip || IsLoopback ip || IsLinkLocalUnicast ip || IsLinkLocalMulticast ip || IsMulticast ip || IP_Equal ip IPv4bcast
  then false else true.

Record request := mkRequest { X_Forwarded_For : string; X_Real_Ip : string; RemoteAddr : string }.

Fixpoint IndexByte (c : ascii) (s : string) : option nat :=
  match s with EmptyString => None | String d r => if Ascii.eqb d c then Some O else S <$> IndexByte c r end.
Fixpoint LastIndexByte (c : ascii) (s : string) : option nat :=
  match s with
  | EmptyString => None
  | String d r => match LastIndexByte c r with Some i => Some (S i) | None => if Ascii.eqb d c then Some O else None end
  end.
Fixpoint str_take (n : nat) (s : string) : string :=
  match n, s with S n, String c r => String c (str_take n r) | _, _ => "" end.
Fixpoint str_drop (n : nat) (s : string) : string := match n, s with S n, String _ r => str_drop n r | _, _ => s end.

(** [net.SplitHostPort]: [None] is an error. *)
Definition SplitHostPort (hostport : string) : option (string * string) :=
  i ← LastIndexByte ":" hostport;
  '(host, j, k) ←
    match hostport with
    | String c r =>
        if Ascii.eqb c "[" then
          e ← IndexByte "]" hostport;
          if (e + 1 =? String.length hostport)%nat then None
          else if (e + 1 =? i)%nat then Some (str_take (e - 1) r, 1%nat, (e + 1)%nat)
          else None
        else let host := str_take i hostport in if has_byte ":" host then None else Some (host, 0%nat, 0%nat)
    | EmptyString => None
    end;
  if has_byte "[" (str_drop j hostport) || has_byte "]" (str_drop k hostport) then None
  else Some (host, str_drop (i + 1) hostport).

(** The text of a candidate, when it is an address that passes. *)
Definition accepted (pass : list Z → bool) (s : string) : option string :=
  match ParseIP s with [] => None | ip => if pass ip then Some (IP_String ip) else None end.
Definition remote_candidate (pass : list Z → bool) (r : request) : string :=
  match SplitHostPort (TrimSpace (RemoteAddr r)) with
  | Some (host, _) => default "" (accepted pass host)
  | None => ""
  end.
Definition ClientIP (r : option request) : string :=
  match r with
  | None => ""
  | Some r =>
      match accepted (λ _, true) (TrimSpace (hd "" (split_byte "," (X_Forwarded_For r)))) with
      | Some t => t
      | None =>
          match accepted (λ _, true) (TrimSpace (X_Real_Ip r)) with
          | Some t => t
          | None => remote_candidate (λ _, true) r
          end
      end
  end.
Fixpoint forwarded_loop (l : list string) : option string :=
  match l with
  | [] => None
  | clientIP :: l => match accepted IsPublic (TrimSpace clientIP) with Some t => Some t | None => forwarded_loop l end
  end.
Definition ClientPublicIP (r : option request) : string :=
  match r with
  | None => ""
  | Some r =>
      match forwarded_loop (split_byte "," (X_Forwarded_For r)) with
      | Some t => t
      | None =>
          match accepted IsPublic (TrimSpace (X_Real_Ip r)) with
          | Some t => t
          | None => remote_candidate IsPublic r
          end
      end
  end.

Example requests :
  ClientIP (Some (mkRequest "203.0.113.7, 10.0.0.1" "" "10.0.0.2:80")) = "203.0.113.7" ∧
  ClientIP (Some (mkRequest "bogus" "" "[2001:db8::1]:443")) = "2001:db8::1" ∧
  ClientPublicIP (Some (mkRequest "10.0.0.1, 8.8.8.8" "" "")) = "8.8.8.8" ∧
  SplitHostPort <$> ["1.2.3.4"; "::1:80"; "[::1]"; "[::1]80:"; "a:b:c"; ":80"] = [None; None; None; None; None; Some ("", "80")].
Proof. vm_compute. by split_and!. Qed.

(** ** Public addresses *)

(** The blocks that are not public, with their prefix lengths. *)
Definition private_blocks : list (Z * list Z) :=
  [(32, [0; 0; 0; 0]); (8, [10; 0; 0; 0]); (12, [172; 16; 0; 0]); (16, [192; 168; 0; 0]); (8, [127; 0; 0; 0]);
   (16, [169; 254; 0; 0]); (4, [224; 0; 0; 0]); (32, [255; 255; 255; 255]);
   (128, IPv6unspecified); (128, IPv6loopback); (7, 252 :: replicate 15 0); (10, 254 :: 128 :: replicate 14 0); (8, 255 :: replicate 15 0)].
Definition public_spec (ip : list Z) : bool := negb (existsb (λ b, in_block b.1 b.2 ip) private_blocks).

(** [net]'s equality is equality in the width of the version. *)
Lemma mapped_split ip : length ip = 16%nat → take 12 ip = v4InV6Prefix → ip = v4InV6Prefix ++ drop 12 ip.
Proof. intros _ <-. by rewrite take_drop. Qed.
Lemma canon_value ip : valid_ip ip → canon ip = if (length ip =? 16)%nat && bool_decide (take 12 ip = v4InV6Prefix) then drop 12 ip else ip.
Proof.
  intros Hv. destruct (canon_cases ip Hv) as [Hc|(Hl & H4 & Ht & Hp)].
  - rewrite Hc. destruct (Nat.eqb_spec (length ip) 16) as [Hl|]; [|done]. case_bool_decide as E; [|done].
    apply (canon_pure ip Hv) in Hc as [|]; [lia|done].
  - rewrite <- Ht. unfold To4. rewrite Hl. cbn [Nat.eqb andb]. by rewrite bool_decide_true.
Qed.
Lemma IP_Equal_canon a b : valid_ip a → valid_ip b → IP_Equal a b = bool_decide (canon a = canon b).
Proof.
  intros Ha Hb. rewrite !canon_value by done. unfold IP_Equal. destruct Ha as [_ La], Hb as [_ Lb].
  assert (∀ x : list Z, length x = 16%nat → length (drop 12 x) = 4%nat) as Hd by (intros x Hx; rewrite length_drop; lia).
  destruct La as [La|La], Lb as [Lb|Lb]; rewrite La, Lb; cbn [Nat.eqb andb]; [done|..].
  - case_bool_decide; [done|]. cbn [andb]. rewrite bool_decide_false; [done|]. intros ->. lia.
  - case_bool_decide; [done|]. cbn [andb]. rewrite bool_decide_false; [done|]. intros ->. lia.
  - apply bool_decide_ext. destruct (bool_decide_reflect (take 12 a = v4InV6Prefix)) as [Ea|], (bool_decide_reflect (take 12 b = v4InV6Prefix)) as [Eb|]; [|..|done].
    + rewrite (mapped_split a), (mapped_split b) by done. split; [by intros [= ->]|]. intros H. rewrite !drop_app_length' in H by done. by rewrite H.
    + split; [by intros ->|]. intros Heq. specialize (Hd a La). rewrite Heq in Hd. lia.
    + split; [by intros ->|]. intros Heq. specialize (Hd b Lb). rewrite <- Heq in Hd. lia.
Qed.

Lemma To4_canon ip : valid_ip ip → To4 ip = if (length (canon ip) =? 4)%nat then canon ip else [].
Proof.
  intros [Hb Hl]. unfold canon. destruct (To4_cases ip Hl) as [[Ht _]|(Ht & _ & Hl')]; rewrite Ht; cbn [Nat.eqb length]; [by rewrite Ht|by rewrite Hl'].
Qed.
(** A block under its mask. *)
Lemma in_block_masked ones net ip : valid_ip net → canon net = net → valid_ip ip → 0 ≤ ones ≤ 8 * Z.of_nat (length net) →
  in_block ones net ip = (length net =? length (canon ip))%nat && same_masked net (mask_bytes (length net) ones) (canon ip).
Proof.
  intros Hn Hc Hi Ho. unfold in_block. rewrite Hc, (proj2 (Z.leb_le 0 ones)), (proj2 (Z.leb_le 0 (_ - _))) by lia. cbn [andb].
  destruct (Nat.eqb_spec (length net) (length (canon ip))) as [Hl|]; [|done]. cbn [andb]. symmetry. apply masked_numeric; [apply Hn| |done..].
  apply (canon_valid ip Hi).
Qed.

Ltac const_ip := split; [ip_bytes|first [by left | by right]].
Lemma consts_valid : valid_ip IPv4zero ∧ valid_ip IPv4bcast ∧ valid_ip IPv6unspecified ∧ valid_ip IPv6loopback.
Proof. split_and!; const_ip. Qed.
Lemma existsb_ext_Forall {A} (f g : A → bool) l : Forall (λ x, f x = g x) l → existsb f l = existsb g l.
Proof. induction 1 as [|x l Hx _ IH]; cbn; [done|]. by rewrite Hx, IH. Qed.
(** The blocks with their masks. *)
Definition private_masks : list (list Z * list Z) := (λ b, (b.2, mask_bytes (length b.2) b.1)) <$> private_blocks.
Lemma public_masked ip : valid_ip ip → public_spec ip =
  negb (existsb (λ b, (length b.1 =? length (canon ip))%nat && same_masked b.1 b.2 (canon ip)) private_masks).
Proof.
  intros Hi. unfold public_spec. f_equal.
  transitivity (existsb (λ b, (length b.2 =? length (canon ip))%nat && same_masked b.2 (mask_bytes (length b.2) b.1) (canon ip)) private_blocks).
  - apply existsb_ext_Forall. repeat (constructor; [apply in_block_masked; [const_ip|reflexivity|done|cbn; lia]|]). constructor.
  - unfold private_masks. induction private_blocks as [|b l IH]; cbn; [done|]. by rewrite IH.
Qed.
(** Both sides as boolean combinations of tests of bytes. *)
Ltac byte_tests Hc :=
  rewrite public_masked by done;
  unfold IsPublic, IsUnspecified, IsLoopback, IsPrivate, IsMulticast, IsLinkLocalUnicast, IsLinkLocalMulticast;
  rewrite !IP_Equal_canon by (done || apply consts_valid); rewrite To4_canon, Hc by done;
  let l := eval vm_compute in private_masks in change private_masks with l;
  cbn -[Z.land Z.eqb bool_decide];
  repeat match goal with |- context [Z.land ?x ?y] => let v := eval vm_compute in (Z.land x y) in match v with Zpos _ => change (Z.land x y) with v | Z0 => change (Z.land x y) with v end end;
  rewrite ?Z.land_0_r, ?Z.eqb_refl, ?land_byte_full by done; cbn [andb orb negb].
(** Equality as a test under the full mask, and a difference in length. *)
Lemma eq_masked a b : bytes_ok a → bytes_ok b → bool_decide (a = b) = (length a =? length b)%nat && same_masked b (replicate (length b) 255) a.
Proof.
  intros Ha Hb. revert a Ha. induction Hb as [|y b Hy Hb IH]; intros [|x a] Ha; try done. inversion_clear Ha as [|? ? Hx Ha'].
  cbn [length replicate same_masked Nat.eqb]. rewrite !land_byte_full by done.
  transitivity ((y =? x) && bool_decide (a = b)); [|rewrite IH by done; btauto].
  apply eq_true_iff_eq. rewrite andb_true_iff, Z.eqb_eq, !bool_decide_eq_true. naive_solver.
Qed.
Ltac tests_tac :=
  repeat match goal with
  | |- context [bool_decide (?x = canon ?y)] => let v := eval vm_compute in (canon y) in change (canon y) with v
  end;
  rewrite !eq_masked by (done || ip_bytes); cbn -[Z.land Z.eqb bool_decide];
  repeat match goal with |- context [Z.land ?x ?y] => let v := eval vm_compute in (Z.land x y) in match v with Zpos _ => change (Z.land x y) with v | Z0 => change (Z.land x y) with v end end;
  rewrite ?land_byte_full by done.
Lemma is_public_v4 ip a b c d : valid_ip ip → canon ip = [a; b; c; d] → IsPublic ip = public_spec ip.
Proof.
  intros Hi Hc. destruct (canon_valid ip Hi) as [Hb _]. rewrite Hc in Hb. pose proof Hb as Hb'. unfold bytes_ok in Hb'. rewrite !Forall_cons in Hb'. destruct Hb' as (Ba & Bb & Bc & Bd & _).
  byte_tests Hc. tests_tac. rewrite !(Z.eqb_sym _ a), !(Z.eqb_sym _ b), !(Z.eqb_sym _ c), !(Z.eqb_sym _ d), !(Z.eqb_sym _ (Z.land _ _)).
  destruct (Z.eqb_spec a 224) as [->|]; cbn -[Z.eqb Z.land]; [|btauto].
  change (Z.land 224 240 =? 224) with true. rewrite ?orb_true_r, ?andb_true_r, ?orb_true_l. done.
Qed.
Lemma is_public_v6 ip : valid_ip ip → length (canon ip) = 16%nat → IsPublic ip = public_spec ip.
Proof.
  intros Hi Hl. destruct (canon_valid ip Hi) as [Hb _].
  assert (ip = canon ip) as Hpure by (destruct (canon_cases ip Hi) as [->|(_ & ? & _)]; [done|lia]).
  destruct (canon ip) as [|a [|b [|c [|d [|e [|f [|g [|h [|i [|j [|k [|l [|m [|n [|o [|p [|]]]]]]]]]]]]]]]]] eqn:Hc; try done. clear Hl.
  pose proof Hb as Hb'. unfold bytes_ok in Hb'. rewrite !Forall_cons in Hb'. destruct_and! Hb'.
  byte_tests Hc. tests_tac. rewrite Hpure.
  do 2 match goal with |- context [(0 =? a) && ?r] => generalize ((0 =? a) && r); intros ? end.
  cbn -[Z.eqb Z.land]. rewrite !(Z.eqb_sym _ a), !(Z.eqb_sym _ (Z.land _ _)). btauto.
Qed.

Lemma is_public_spec ip : valid_ip ip → IsPublic ip = public_spec ip.
Proof.
  intros Hi. destruct (canon_valid ip Hi) as [_ [Hl|Hl]]; [|by apply is_public_v6].
  destruct (canon ip) as [|a [|b [|c [|d [|]]]]] eqn:Hc; try done. by apply (is_public_v4 ip a b c d).
Qed.

(** An address is public exactly when it is in none of thirteen blocks: the unspecified, loopback,
    private, link-local, multicast and broadcast blocks of IPv4, in plain or mapped form, and the
    unspecified, loopback, unique-local, link-local and multicast blocks of IPv6. *)
Theorem is_public_blocks ip : valid_ip ip → IsPublic ip = negb (existsb (λ b, in_block b.1 b.2 ip) private_blocks).
Proof. apply is_public_spec. Qed.
Example is_public_blocks_witness : IsPublic [172; 31; 0; 9] = negb (existsb (λ b, in_block b.1 b.2 [172; 31; 0; 9]) private_blocks) ∧
  IsPublic [172; 31; 0; 9] = false ∧ IsPublic [172; 32; 0; 9] = true.
Proof. split_and!; [refine (is_public_blocks [172; 31; 0; 9] _); const_ip|vm_compute; reflexivity..]. Defined.

(** ** The client's address *)

(** The texts tried, in order. *)
Definition candidates (r : request) : list string :=
  (TrimSpace <$> split_byte "," (X_Forwarded_For r)) ++ [TrimSpace (X_Real_Ip r)] ++
  match SplitHostPort (TrimSpace (RemoteAddr r)) with Some (host, _) => [host] | None => [] end.

Lemma IP_String_parses ip : bytes_ok ip → length ip = 16%nat → ParseIP (IP_String ip) = ip ∧ IP_String ip ≠ "".
Proof.
  intros Hb Hl. assert (valid_ip ip) as Hv by (by split; [|right]). destruct (text_parses ip Hv) as [Ht _].
  unfold IP_String. destruct ip as [|x l]; [done|]. set (ip := x :: l) in *.
  split; [|intros E; by rewrite E in Ht]. unfold ParseIP. rewrite Ht.
  destruct (canon_cases ip Hv) as [->|(_ & H4 & _ & Hp)]; [by rewrite To16_long|]. rewrite To16_short by done.
  rewrite canon_value by done. rewrite Hl. cbn [Nat.eqb andb]. rewrite bool_decide_true by done. by rewrite <- Hp, take_drop.
Qed.
(** What an accepted candidate's text is read as. *)
Lemma accepted_spec pass s t : accepted pass s = Some t → ParseIP s ≠ [] ∧ pass (ParseIP s) = true ∧ ParseIP t = ParseIP s ∧ t ≠ "".
Proof.
  unfold accepted. destruct (ParseIP_type s) as [->|[Hb Hl]]; [done|]. destruct (IP_String_parses _ Hb Hl) as [H1 H2].
  destruct (ParseIP s); [done|]. case_match; [|done]. intros [= <-]. done.
Qed.
Lemma accepted_none pass s : accepted pass s = None → ParseIP s = [] ∨ pass (ParseIP s) = false.
Proof. unfold accepted. destruct (ParseIP s); [by left|]. case_match; [done|by right]. Qed.
Fixpoint first_accepted (pass : list Z → bool) (l : list string) : option string :=
  match l with [] => None | s :: l => match accepted pass s with Some t => Some t | None => first_accepted pass l end end.
Lemma first_accepted_app pass l1 l2 :
  first_accepted pass (l1 ++ l2) = match first_accepted pass l1 with Some t => Some t | None => first_accepted pass l2 end.
Proof. induction l1 as [|s l1 IH]; cbn; [done|]. by destruct (accepted pass s). Qed.
Lemma forwarded_loop_first l : forwarded_loop l = first_accepted IsPublic (TrimSpace <$> l).
Proof. induction l as [|s l IH]; cbn; [done|]. by rewrite IH. Qed.
Lemma ClientPublicIP_first r : ClientPublicIP (Some r) = default "" (first_accepted IsPublic (candidates r)).
Proof.
  unfold candidates. rewrite !first_accepted_app. cbn. rewrite forwarded_loop_first. unfold remote_candidate.
  destruct (first_accepted _ _); [done|]. destruct (accepted _ (TrimSpace (X_Real_Ip r))); [done|].
  destruct (SplitHostPort _) as [[host port]|]; [|done]. cbn. by destruct (accepted _ host).
Qed.
Lemma first_accepted_spec pass l :
  (first_accepted pass l = None ∧ Forall (λ s, ParseIP s = [] ∨ pass (ParseIP s) = false) l) ∨
  ∃ l1 s l2 t, l = l1 ++ s :: l2 ∧ Forall (λ s, ParseIP s = [] ∨ pass (ParseIP s) = false) l1 ∧
    first_accepted pass l = Some t ∧ ParseIP s ≠ [] ∧ pass (ParseIP s) = true ∧ ParseIP t = ParseIP s.
Proof.
  induction l as [|s l IH]; cbn; [by left|]. destruct (accepted pass s) as [t|] eqn:E.
  - right. apply accepted_spec in E as (? & ? & ? & _). by exists [], s, l, t.
  - apply accepted_none in E. destruct IH as [[H1 H2]|(l1 & s' & l2 & t & -> & H1 & H2 & H3)].
    + left. split; [done|by constructor].
    + right. exists (s :: l1), s', l2, t. split_and!; [done|by constructor|done|apply H3..].
Qed.

(** The client's public address is the first candidate that is one.  The candidates are the parts of
    X-Forwarded-For in order, then X-Real-Ip, then the host of the remote address.  The answer is a text
    that is read as the address of the first candidate that parses and is in none of the private blocks,
    and the empty text when there is no such candidate. *)
Theorem client_public_first r :
  let public s := ParseIP s ≠ [] ∧ public_spec (ParseIP s) = true in
  (ClientPublicIP (Some r) = "" ∧ Forall (λ s, ¬ public s) (candidates r)) ∨
  ∃ before s after, candidates r = before ++ s :: after ∧ Forall (λ s, ¬ public s) before ∧ public s ∧
    ParseIP (ClientPublicIP (Some r)) = ParseIP s.
Proof.
  intros public. assert (∀ s, ParseIP s ≠ [] → IsPublic (ParseIP s) = public_spec (ParseIP s)) as Hp.
  { intros s Hs. destruct (ParseIP_type s) as [|[Hb Hl]]; [done|]. apply is_public_spec. by split; [|right]. }
  assert (∀ l, Forall (λ s, ParseIP s = [] ∨ IsPublic (ParseIP s) = false) l → Forall (λ s, ¬ public s) l) as Hn.
  { intros l Hl. eapply Forall_impl; [exact Hl|]. cbn. intros s H [H1 H2]. rewrite <- Hp in H2 by done. destruct H; congruence. }
  rewrite ClientPublicIP_first. destruct (first_accepted_spec IsPublic (candidates r)) as [[-> H]|(l1 & s & l2 & t & -> & H1 & Ht & H2 & H3 & H4)].
  - left. auto.
  - right. exists l1, s, l2. rewrite Ht. cbn. split_and!; auto. split; [done|]. by rewrite <- Hp.
Qed.

(** *** Addresses with a port *)

(** An address as servers write it: [net.JoinHostPort]. *)
Definition JoinHostPort (host port : string) : string :=
  if has_byte ":" host then "[" +:+ host +:+ "]:" +:+ port else host +:+ ":" +:+ port.

Lemma LastIndexByte_none c s : has_byte c s = false → LastIndexByte c s = None.
Proof. induction s as [|d s IH]; cbn; [done|]. intros [-> H]%orb_false_iff. by rewrite IH. Qed.
Lemma LastIndexByte_last c s t : has_byte c t = false → LastIndexByte c (s +:+ String c t) = Some (String.length s).
Proof.
  intros Ht. induction s as [|d s IH].
  - rewrite app_nil_l_str. cbn. by rewrite LastIndexByte_none, Ascii.eqb_refl.
  - rewrite app_cons_str. cbn. by rewrite IH.
Qed.
Lemma IndexByte_first c s t : has_byte c s = false → IndexByte c (s +:+ String c t) = Some (String.length s).
Proof.
  induction s as [|d s IH]; intros H; [rewrite app_nil_l_str; cbn; by rewrite Ascii.eqb_refl|].
  rewrite app_cons_str. cbn in *. apply orb_false_iff in H as [-> H]. by rewrite IH.
Qed.
Lemma str_take_app s t : str_take (String.length s) (s +:+ t) = s.
Proof. induction s as [|c s IH]; [by destruct t|]. rewrite app_cons_str. cbn. by rewrite IH. Qed.
Lemma str_drop_app n s t : str_drop (String.length s + n) (s +:+ t) = str_drop n t.
Proof. induction s as [|c s IH]; [done|]. rewrite app_cons_str. cbn. by rewrite IH. Qed.
(** A host without brackets and a port without colons or brackets are split apart again. *)
Definition no_bytes (bs : list ascii) (s : string) : Prop := Forall (λ b, has_byte b s = false) bs.
Lemma SplitHostPort_join host port : no_bytes ["["%char; "]"%char] host → no_bytes ["["%char; "]"%char; ":"%char] port →
  SplitHostPort (JoinHostPort host port) = Some (host, port).
Proof.
  unfold no_bytes. rewrite !Forall_cons. intros (H1 & H2 & _) (P1 & P2 & P3 & _). unfold JoinHostPort, SplitHostPort.
  destruct (has_byte ":" host) eqn:Eh.
  - assert ("[" +:+ host +:+ "]:" +:+ port = String "[" (host +:+ String "]" (String ":" port))) as -> by done.
    assert (LastIndexByte ":" (String "[" (host +:+ String "]" (String ":" port))) = Some (S (S (String.length host)))) as ->.
    { pose proof (LastIndexByte_last ":" (String "[" (host +:+ "]")) port P3) as H. rewrite app_cons_str, <- app_assoc_str in H.
      rewrite app_cons_str, app_nil_l_str in H. rewrite H. cbn [String.length]. rewrite length_app_str. cbn. do 2 f_equal. lia. }
    cbn -[str_take str_drop IndexByte has_byte Nat.eqb String.length Nat.add Nat.sub Ascii.eqb].
    assert (IndexByte "]" (String "[" (host +:+ String "]" (String ":" port))) = Some (S (String.length host))) as ->.
    { cbn. by rewrite IndexByte_first. }
    cbn -[str_take str_drop has_byte Nat.eqb String.length]. rewrite Nat.add_comm. cbn [Nat.add Nat.sub]. rewrite Nat.eqb_refl, Nat.sub_0_r.
    rewrite (proj2 (Nat.eqb_neq _ _)) by (cbn [String.length]; rewrite length_app_str; cbn; lia).
    rewrite str_take_app. cbn [mbind option_bind]. change (str_drop 1 (String "[" ?x)) with x.
    cbn [str_drop]. pose proof (str_drop_app 1 host (String "]" (String ":" port))) as D1. pose proof (str_drop_app 2 host (String "]" (String ":" port))) as D2.
    rewrite Nat.add_comm in D1, D2. cbn [Nat.add str_drop] in D1, D2. rewrite D1, D2. rewrite has_byte_app, H1. cbn. by rewrite P1, P2.
  - rewrite app_cons_str, app_nil_l_str. rewrite LastIndexByte_last by done. cbn [mbind option_bind]. rewrite str_take_app, Eh.
    assert (∀ x, match host +:+ String ":" port with "" => None | String c r => if Ascii.eqb c "[" then x r else Some (host, 0%nat, 0%nat) end = Some (host, 0%nat, 0%nat)) as Hm.
    { intros x. destruct host as [|c r]; [done|]. rewrite app_cons_str. cbn in H1. by apply orb_false_iff in H1 as [-> _]. }
    rewrite Hm. cbn [mbind option_bind str_drop]. rewrite !has_byte_app, H1, H2. cbn [has_byte Ascii.eqb Bool.eqb orb]. rewrite P1, P2. cbn.
    by rewrite str_drop_app.
Qed.

Lemma digits_has b s : is_digit b = false → all_digits s → has_byte b s = false.
Proof.
  intros Hb. induction s as [|c s IH]; intros Hd; [done|]. pose proof (all_digits_head _ _ Hd). cbn.
  rewrite IH, orb_false_r by (by eapply all_digits_tail). apply Ascii.eqb_neq. intros ->. congruence.
Qed.
Lemma no_alien_tight s : (∀ b, alien b → has_byte b s = false) → tight_head s.
Proof.
  destruct s as [|c s]; [done|]. intros H. cbn. specialize (H c). cbn in H. rewrite Ascii.eqb_refl in H.
  destruct (decide (33 ≤ byte_of c < 128)) as [|Hn]; [done|]. exfalso. discriminate H. split_and!.
  - unfold hex_nibble. repeat case_match; try done; rewrite andb_true_iff, !Z.leb_le in *; lia.
  - intros ->. apply Hn. by vm_compute.
  - intros ->. apply Hn. by vm_compute.
Qed.
Lemma JoinHostPort_tight host port : (∀ b, alien b → has_byte b host = false) → all_digits port → port ≠ "" → TrimSpace (JoinHostPort host port) = JoinHostPort host port.
Proof.
  intros Hh Hd Hn. apply TrimSpace_tight.
  - unfold JoinHostPort. case_match; [by vm_compute|]. destruct host as [|c h]; [by vm_compute|]. apply (no_alien_tight (String c h)). done.
  - unfold JoinHostPort. case_match; rewrite !app_assoc_str; by apply str_rev_digits_tight.
Qed.
Lemma accepted_text ip : valid_ip ip → accepted (λ _, true) (toIPString ip 0) = Some (toIPString ip 0).
Proof.
  intros Hv. destruct (text_parses ip Hv) as [Ht _]. unfold accepted, ParseIP. rewrite Ht. destruct (canon_valid ip Hv) as [Hb Hl].
  destruct (To16_valid _ Hb Hl) as [_ H16]. destruct (To16 (canon ip)) eqn:E; [done|]. rewrite <- E.
  rewrite toIPString_To16 by (by apply canon_valid). f_equal. rewrite <- toIPString_To16, <- toIPString_To16 by (done || by apply canon_valid).
  f_equal. destruct (canon_cases ip Hv) as [->|(L & H4 & _ & Hp)]; [done|]. rewrite To16_short, To16_long by done.
  rewrite canon_value, L by done. cbn [Nat.eqb andb]. rewrite bool_decide_true by done. by rewrite <- Hp, take_drop.
Qed.

(** Without forwarding headers the client's address is the one of the connection: when the remote
    address is an address of either version joined with a port, as servers write it (in brackets for
    IPv6), the answer is the text of that address. *)
Theorem client_ip_remote ip port : valid_ip ip → 0 ≤ port →
  ClientIP (Some (mkRequest "" "" (JoinHostPort (toIPString ip 0) (utoa port)))) = toIPString ip 0.
Proof.
  intros Hv Hp. destruct (text_parses ip Hv) as [_ Hno]. pose proof (utoa_digits port Hp) as Hd. unfold ClientIP. cbn [X_Forwarded_For X_Real_Ip].
  change (accepted _ (TrimSpace (hd "" (split_byte "," "")))) with (@None string). change (accepted _ (TrimSpace "")) with (@None string). cbn.
  unfold remote_candidate. cbn [RemoteAddr]. rewrite JoinHostPort_tight by (done || apply utoa_nonempty).
  rewrite SplitHostPort_join by (repeat constructor; by apply Hno || by apply digits_has). by rewrite accepted_text.
Qed.
Example client_ip_remote_witness :
  ClientIP (Some (mkRequest "" "" (JoinHostPort (toIPString [32; 1; 13; 184; 0; 0; 0; 0; 0; 0; 0; 0; 0; 0; 0; 1] 0) (utoa 443)))) =
    toIPString [32; 1; 13; 184; 0; 0; 0; 0; 0; 0; 0; 0; 0; 0; 0; 1] 0.
Proof. refine (client_ip_remote [32; 1; 13; 184; 0; 0; 0; 0; 0; 0; 0; 0; 0; 0; 0; 1] 443 _ _); [const_ip|lia]. Defined.

(** ** The cache *)

(** Calls one after the other, each with its times and what the interfaces are. *)
Fixpoint local_run (cache : option localIP) (calls : list (Z * interfaces)) : option localIP :=
  match calls with [] => cache | (now, ifa) :: calls => local_run (LocalIP cache ifa now now).1 calls end.
(** What the cache holds was found by a call, at that time. *)
Definition found_by (calls : list (Z * interfaces)) (s : localIP) : Prop :=
  lip_TTL s = Minute ∧ ∃ ifa, (lip_LatestTime s, ifa) ∈ calls ∧ getLocalIPBytes ifa = lip_IP s ∧ lip_IP s ≠ [].
Lemma To4_width ip : To4 ip = [] ∨ length (To4 ip) = 4%nat.
Proof.
  unfold To4. destruct (Nat.eqb_spec (length ip) 4); [by right|]. destruct (Nat.eqb_spec (length ip) 16); cbn [andb]; [|by left].
  case_bool_decide; [right; rewrite length_drop; lia|by left].
Qed.
Lemma local_loop_width l : local_loop l = [] ∨ length (local_loop l) = 4%nat.
Proof. induction l as [|ip l IH]; cbn; [by left|]. case_match; [apply To4_width|done]. Qed.
Lemma local_text ifa : getLocalIPBytes ifa ≠ [] → IP_String (getLocalIPBytes ifa) = LocalIPRealTime ifa ∧ LocalIPRealTime ifa ≠ "".
Proof.
  intros H. unfold LocalIPRealTime. destruct (local_loop_width (addrs ifa)) as [|Hl]; [done|]. fold (getLocalIPBytes ifa) in Hl.
  destruct (getLocalIPBytes ifa) as [|a [|b [|c [|d [|]]]]]; try done. split; [done|]. unfold IP_String, toIPString. cbn [Z.eqb FlagV4 FlagV6].
  unfold toIPv4String. cbn [To4 length Nat.eqb]. pose proof (ubtoa_some a). by destruct (ubtoa a).
Qed.
(** The snapshot is the empty one of the start as long as no call has found an address; then it is the
    one of a call. *)
Definition cache_ok (calls : list (Z * interfaces)) (cache : option localIP) : Prop :=
  ∃ s, cache = Some s ∧ ((lip_IP s = [] ∧ Forall (λ c, getLocalIPBytes c.2 = []) calls) ∨ found_by calls s).
(** One call, on every branch. *)
Lemma LocalIP_step calls cache now ifa : cache_ok calls cache →
  let '(cache', text) := LocalIP cache ifa now now in
  cache_ok (calls ++ [(now, ifa)]) cache' ∧
  ((getLocalIPBytes ifa ≠ [] ∧ text = LocalIPRealTime ifa) ∨
   (∃ t ifa', (t, ifa') ∈ calls ∧ getLocalIPBytes ifa' ≠ [] ∧ text = LocalIPRealTime ifa' ∧ (now ≤ t + Minute ∨ getLocalIPBytes ifa = [])) ∨
   (text = "" ∧ Forall (λ c, getLocalIPBytes c.2 = []) (calls ++ [(now, ifa)]))).
Proof.
  intros (s & -> & Hs). unfold LocalIP, localIPFromSnapshot.
  assert (snapshot_stale (Some s) now = true → getLocalIPBytes ifa ≠ [] →
    cache_ok (calls ++ [(now, ifa)]) (Some (mkLocal (getLocalIPBytes ifa) now Minute))) as Hnew.
  { intros _ Hn. eexists. split; [done|]. right. split; [done|]. exists ifa. cbn. split_and!; [|done..]. apply elem_of_app. right. by apply list_elem_of_singleton. }
  assert (∀ P, found_by calls s ∧ snapshot_text (Some s) = P → found_by (calls ++ [(now, ifa)]) s ∧
     ∃ t ifa', (t, ifa') ∈ calls ∧ getLocalIPBytes ifa' ≠ [] ∧ P = LocalIPRealTime ifa' ∧ t = lip_LatestTime s) as Hold.
  { intros P [(Ht & ifa' & Hin & Hip & Hne) <-]. split.
    - split; [done|]. exists ifa'. split_and!; [by apply elem_of_app; left|done..].
    - exists (lip_LatestTime s), ifa'. unfold snapshot_text. rewrite Hip in *. split_and!; [done..| |done]. rewrite <- Hip in *.
      destruct (local_text ifa' Hne) as [<- _]. by destruct (getLocalIPBytes ifa'). }
  destruct (snapshot_stale (Some s) now) eqn:Est.
  - unfold updateCacheLocalIP. destruct (decide (getLocalIPBytes ifa = [])) as [He|Hne].
    + rewrite He. cbn [String.eqb negb]. destruct Hs as [[Hs1 Hs2]|Hs].
      * unfold snapshot_text. rewrite Hs1. assert (Forall (λ c, getLocalIPBytes c.2 = []) (calls ++ [(now, ifa)])) by (apply Forall_app; split; [done|by repeat constructor]).
        split; [exists s; auto|auto].
      * destruct (Hold _ (conj Hs eq_refl)) as [Hf (t & ifa' & ? & ? & ? & ?)]. split; [exists s; auto|]. right. left. by exists t, ifa'; auto.
    + destruct (local_text ifa Hne) as [H1 H2]. specialize (Hnew eq_refl Hne). destruct (getLocalIPBytes ifa) eqn:E; [done|]. rewrite H1.
      rewrite (proj2 (String.eqb_neq _ _)) by done. cbn [negb]. split; [done|]. by left.
  - destruct Hs as [[Hs1 _]|Hs]; [cbn in Est; by rewrite Hs1 in Est|]. destruct (Hold _ (conj Hs eq_refl)) as [Hf (t & ifa' & ? & ? & ? & ->)].
    split; [exists s; auto|]. right. left. exists (lip_LatestTime s), ifa'. split_and!; [done..|]. left. cbn in Est.
    destruct Hs as (Httl & _ & _ & _ & Hne). rewrite Httl in Est. destruct (lip_IP s); [done|]. by apply Z.ltb_ge in Est.
Qed.
Lemma local_run_ok calls1 calls2 cache : cache_ok calls1 cache → cache_ok (calls1 ++ calls2) (local_run cache calls2).
Proof.
  revert calls1 cache. induction calls2 as [|[now ifa] calls2 IH]; intros calls1 cache H; [by rewrite app_nil_r|].
  cbn [local_run]. pose proof (LocalIP_step calls1 cache now ifa H) as Hs. destruct (LocalIP cache ifa now now) as [cache' text]. destruct Hs as [Hs _].
  rewrite (cons_middle (now, ifa)), app_assoc. by apply IH.
Qed.

(** The cached local address is never older than its time to live while the lookup works.  After any
    calls since the start of the program, a call answers the address the interfaces have now, or the one
    an earlier call found, at most a minute ago or with a lookup that fails now; the empty text only when
    no call, this one included, has found an address. *)
Theorem local_ip_fresh t0 calls now ifa :
  let text := (LocalIP (local_run (Some (mkLocal [] t0 Minute)) calls) ifa now now).2 in
  (getLocalIPBytes ifa ≠ [] ∧ text = LocalIPRealTime ifa) ∨
  (∃ t ifa', (t, ifa') ∈ calls ∧ getLocalIPBytes ifa' ≠ [] ∧ text = LocalIPRealTime ifa' ∧ (now ≤ t + Minute ∨ getLocalIPBytes ifa = [])) ∨
  (text = "" ∧ Forall (λ c, getLocalIPBytes c.2 = []) (calls ++ [(now, ifa)])).
Proof.
  assert (cache_ok calls (local_run (Some (mkLocal [] t0 Minute)) calls)) as H.
  { apply (local_run_ok []). eexists. split; [done|]. by left. }
  pose proof (LocalIP_step _ _ now ifa H) as Hs. destruct (LocalIP _ ifa now now) as [cache' text]. apply Hs.
Qed.

(** The list of addresses is a filter of the interfaces' addresses, in their order. *)
Definition wanted (flag ignoreTypeFlag : Z) (ip : list Z) : bool :=
  negb (ignored ignoreTypeFlag ip) && (if flag =? FlagV4 then is_v4 ip else if flag =? FlagV6 then negb (is_v4 ip) else true).
Lemma GetIPAll_filter ifa flag mask : GetIPAll ifa flag mask = IP_String <$> filter (λ ip, wanted flag mask ip = true) (addrs ifa).
Proof.
  unfold GetIPAll. enough (∀ l acc, GetIPAll_loop flag mask l acc = acc ++ (IP_String <$> filter (λ ip, wanted flag mask ip = true) l)) as H by apply H.
  induction l as [|ip l IH]; intros acc; cbn [GetIPAll_loop]; [by rewrite app_nil_r|]. rewrite filter_cons.
  destruct (decide (wanted flag mask ip = true)) as [H|H]; unfold wanted in H;
    destruct (ignored mask ip); cbn [negb andb] in H; try done; destruct (flag =? FlagV4); try (destruct (flag =? FlagV6)); destruct (is_v4 ip); try done;
    rewrite IH; cbn; by rewrite <- ?app_assoc.
Qed.
Lemma PrivateIP_first ifa : PrivateIP ifa = hd "" (PrivateIPAll ifa).
Proof. unfold PrivateIP, PrivateIPAll. induction (addrs ifa) as [|ip l IH]; cbn; [done|]. by case_match. Qed.
