(* ===== verification/Auction.v ===== *)
(** * Auction: second-price resolution ([auction/auction.go])

    [sort.SliceStable] is insertion from the left, stable and descending by price; a
    stable sort has one result, so any other algorithm gives the same list
    ([stable_sort_unique]).  Prices are compared and never added: no width matters.

    Shown: who wins and what is paid, for one slot and for several
    ([auction_second_price], [multislot_prices]), and the reason for the mechanism:
    bidding one's value is never worse than bidding anything else ([auction_truthful]). *)

From Stdlib Require Import ZArith Lia Permutation Sorted.
From stdpp Require Import base tactics numbers list sorting strings.
From S2P Require Import Prelude.

#[local] Open Scope Z_scope.

Section Auction.
Context {Payload : Type}.

Record Bid := mkBid { Bidder : string; Price : Z; payload : Payload }.
(** [None] is a nil winner. *)
Record Result := mkResult { Winner : option Bid; ClearingPrice : Z; BidCount : Z; ValidCount : Z }.
Inductive auction_error := ErrNoValidBids.

(** The floor loop. *)
Fixpoint above_floor (floor : Z) (bids : list Bid) : list Bid :=
  match bids with [] => [] | b :: bids => if floor <=? Price b then b :: above_floor floor bids else above_floor floor bids end.

(** After every bid of the same or a higher price: equal prices keep their order. *)
Fixpoint insert_bid (b : Bid) (l : list Bid) : list Bid :=
  match l with [] => [b] | x :: l => if Price b <? Price x then x :: insert_bid b l else b :: x :: l end.
Definition SliceStable (l : list Bid) : list Bid := foldr insert_bid [] l.

Definition clearing_at (floor : Z) (valid : list Bid) (i : nat) : Z :=
  match valid !! S i with Some b => if floor <? Price b then Price b else floor | None => floor end.

Definition Resolve (bids : list Bid) (floor : Z) : Result * option auction_error :=
  match SliceStable (above_floor floor bids) with
  | [] => (mkResult None 0 (Z.of_nat (length bids)) 0, Some ErrNoValidBids)
  | (winner :: _) as valid =>
      (mkResult (Some winner) (clearing_at floor valid 0) (Z.of_nat (length bids)) (Z.of_nat (length valid)), None)
  end.

Definition slot_result (bids : list Bid) (floor : Z) (valid : list Bid) (i : nat) : Result :=
  mkResult (valid !! i) (clearing_at floor valid i) (Z.of_nat (length bids)) (Z.of_nat (length valid)).
(** The loop over the slots from [i], [k] of them to go. *)
Fixpoint slots_loop (bids : list Bid) (floor : Z) (valid : list Bid) (i k : nat) : list Result :=
  match k with O => [] | S k => slot_result bids floor valid i :: slots_loop bids floor valid (S i) k end.
Definition ResolveMultiSlot (bids : list Bid) (floor slots : Z) : list Result * option auction_error :=
  if slots <=? 0 then ([], None)
  else match SliceStable (above_floor floor bids) with
  | [] => ([], Some ErrNoValidBids)
  | valid => (slots_loop bids floor valid 0 (Z.to_nat (Z.min slots (Z.of_nat (length valid)))), None)
  end.

(** ** Sorting *)

(** Descending by price. *)
Definition dearer (a b : Bid) : Prop := Price b ≤ Price a.
Definition at_price (p : Z) (l : list Bid) : list Bid := filter (λ b, Price b = p) l.

Lemma insert_bid_perm b l : insert_bid b l ≡ₚ b :: l.
Proof. induction l as [|x l IH]; cbn; [done|]. case_match; [|done]. rewrite IH. by rewrite Permutation_swap. Qed.
Lemma SliceStable_perm l : SliceStable l ≡ₚ l.
Proof. induction l as [|b l IH]; cbn; [done|]. by rewrite insert_bid_perm, IH. Qed.
Lemma insert_bid_sorted b l : StronglySorted dearer l → StronglySorted dearer (insert_bid b l).
Proof.
  induction 1 as [|x l Hs IH Hx]; cbn; [repeat constructor|]. destruct (Z.ltb_spec (Price b) (Price x)).
  - constructor; [done|]. rewrite insert_bid_perm. constructor; [unfold dearer; lia|done].
  - constructor; [by constructor|]. constructor; [unfold dearer; lia|]. eapply Forall_impl; [exact Hx|]. unfold dearer. cbn. lia.
Qed.
Lemma SliceStable_sorted l : StronglySorted dearer (SliceStable l).
Proof. induction l as [|b l IH]; cbn; [constructor|by apply insert_bid_sorted]. Qed.
Lemma insert_bid_stable p b l : StronglySorted dearer l → at_price p (insert_bid b l) = at_price p (b :: l).
Proof.
  unfold at_price. induction 1 as [|x l Hs IH Hx]; cbn [insert_bid]; [done|]. destruct (Z.ltb_spec (Price b) (Price x)); [|done].
  rewrite filter_cons, IH, !filter_cons. repeat case_decide; (done || lia).
Qed.
Lemma SliceStable_stable p l : at_price p (SliceStable l) = at_price p l.
Proof.
  induction l as [|b l IH]; [done|]. change (SliceStable (b :: l)) with (insert_bid b (SliceStable l)).
  rewrite insert_bid_stable by apply SliceStable_sorted. unfold at_price in *. rewrite !filter_cons. by rewrite IH.
Qed.

(** Two descending lists with the same bids in the same order at each price are equal. *)
Lemma stable_sort_unique l1 l2 : StronglySorted dearer l1 → StronglySorted dearer l2 → (∀ p, at_price p l1 = at_price p l2) → l1 = l2.
Proof.
  intros H1. revert l2. induction H1 as [|x l1 Hs IH Hx]; intros l2 H2 Heq.
  - destruct l2 as [|y l2]; [done|]. specialize (Heq (Price y)). unfold at_price in Heq. by rewrite filter_cons_True in Heq.
  - destruct l2 as [|y l2]; [specialize (Heq (Price x)); unfold at_price in Heq; by rewrite filter_cons_True in Heq|].
    inversion_clear H2 as [|? ? Hs2 Hy].
    assert (Price x = Price y) as Hp.
    { assert (∀ a m b n, Forall (dearer b) n → at_price (Price a) (a :: m) = at_price (Price a) (b :: n) → Price a ≤ Price b) as Hle.
      { intros a m b n Hb H. unfold at_price in H. rewrite filter_cons_True in H by done.
        assert (a ∈ filter (λ b0, Price b0 = Price a) (b :: n)) as Hin by (rewrite <- H; left).
        apply list_elem_of_filter in Hin as [_ [->|Hin]%elem_of_cons]; [done|]. rewrite Forall_forall in Hb. by apply Hb. }
      pose proof (Hle x l1 y l2 Hy (Heq _)). pose proof (Hle y l2 x l1 Hx (eq_sym (Heq _))). lia. }
    pose proof (Heq (Price x)) as Hx0. unfold at_price in Hx0. rewrite !filter_cons_True in Hx0 by done. injection Hx0 as -> _.
    f_equal. apply IH; [done|]. intros p. specialize (Heq p). unfold at_price in *. rewrite !filter_cons in Heq. case_decide; [by simplify_eq|done].
Qed.

(** ** The highest price and the next *)

(** The highest of the floor and the prices. *)
Definition highest (floor : Z) (l : list Bid) : Z := foldr Z.max floor (Price <$> l).
Lemma highest_perm floor l1 l2 : l1 ≡ₚ l2 → highest floor l1 = highest floor l2.
Proof. unfold highest. induction 1; cbn in *; lia. Qed.
Lemma highest_floor floor l : highest floor (above_floor floor l) = highest floor l ∧ floor ≤ highest floor l.
Proof.
  unfold highest. induction l as [|b l [IH1 IH2]]; cbn; [done|]. split; [|lia]. destruct (Z.leb_spec floor (Price b)); cbn; lia.
Qed.
Lemma highest_le floor l p : floor ≤ p → Forall (λ b, Price b ≤ p) l ↔ highest floor l ≤ p.
Proof.
  intros Hf. unfold highest. induction l as [|b l IH]; cbn; [by split|]. rewrite Forall_cons, IH. lia.
Qed.
Lemma clearing_highest floor x rest : StronglySorted dearer (x :: rest) → clearing_at floor (x :: rest) 0 = highest floor rest.
Proof.
  inversion_clear 1 as [|? ? Hs _]. unfold clearing_at. cbn. destruct rest as [|y rest]; [done|]. cbn. inversion_clear Hs as [|? ? _ Hy].
  assert (highest floor rest ≤ Z.max floor (Price y)) by (apply highest_le; [lia|]; eapply Forall_impl; [exact Hy|]; unfold dearer; cbn; lia).
  unfold highest in *. pose proof (proj2 (highest_floor floor rest)) as Hf. unfold highest in Hf. cbn. destruct (Z.ltb_spec floor (Price y)); lia.
Qed.
Lemma above_floor_app floor l1 l2 : above_floor floor (l1 ++ l2) = above_floor floor l1 ++ above_floor floor l2.
Proof. induction l1 as [|b l1 IH]; cbn; [done|]. case_match; cbn; by rewrite IH. Qed.
Lemma above_floor_at floor p l : floor ≤ p → at_price p (above_floor floor l) = at_price p l.
Proof.
  intros Hp. unfold at_price. induction l as [|b l IH]; cbn [above_floor]; [done|]. destruct (Z.leb_spec floor (Price b)); rewrite !filter_cons; [by rewrite IH|].
  rewrite IH. by rewrite decide_False by lia.
Qed.
Lemma above_floor_all floor l : Forall (λ b, floor ≤ Price b) (above_floor floor l).
Proof. induction l as [|b l IH]; cbn; [constructor|]. destruct (Z.leb_spec floor (Price b)); [by constructor|done]. Qed.
Lemma filter_cons_split (P : Bid → Prop) `{!∀ x, Decision (P x)} l x r : filter P l = x :: r → ∃ l1 l2, l = l1 ++ x :: l2 ∧ Forall (λ b, ¬ P b) l1 ∧ P x.
Proof.
  induction l as [|b l IH]; [done|]. rewrite filter_cons. case_decide as Hd; [intros [= -> _]; by exists [], l|].
  intros Hf. destruct (IH Hf) as (l1 & l2 & -> & Hl & Hx). exists (b :: l1), l2. split_and!; [done|by constructor|done].
Qed.

(** The winner among the bids: it meets the floor, is dearer than every bid before it, and no
    bid after it is dearer. *)
Definition wins (floor : Z) (before : list Bid) (w : Bid) (after : list Bid) : Prop :=
  floor ≤ Price w ∧ Forall (λ b, Price b < Price w) before ∧ Forall (λ b, Price b ≤ Price w) after.

Lemma sorted_head floor bids w rest : SliceStable (above_floor floor bids) = w :: rest →
  ∃ before after, bids = before ++ w :: after ∧ wins floor before w after ∧ highest floor rest = highest floor (before ++ after) ∧ rest ≡ₚ above_floor floor (before ++ after).
Proof.
  intros E. pose proof (SliceStable_sorted (above_floor floor bids)) as Hs. pose proof (SliceStable_perm (above_floor floor bids)) as Hp. rewrite E in Hs, Hp.
  assert (floor ≤ Price w) as Hf.
  { pose proof (above_floor_all floor bids) as Ha. rewrite <- Hp in Ha. by inversion_clear Ha. }
  pose proof (SliceStable_stable (Price w) (above_floor floor bids)) as Hst. rewrite E, above_floor_at in Hst by done. unfold at_price in Hst.
  rewrite filter_cons_True in Hst by done. symmetry in Hst. apply filter_cons_split in Hst as (before & after & -> & Hb & _).
  rewrite above_floor_app in Hp. cbn in Hp. rewrite (proj2 (Z.leb_le _ _)) in Hp by done. rewrite <- Permutation_middle in Hp. apply Permutation_cons_inv in Hp.
  rewrite <- above_floor_app in Hp. inversion_clear Hs as [|? ? _ Hx].
  assert (highest floor rest = highest floor (before ++ after)) as Hh by (rewrite (highest_perm _ _ _ Hp); apply highest_floor).
  assert (Forall (λ b, Price b ≤ Price w) (before ++ after)) as Hall by (apply (highest_le floor); [done|]; rewrite <- Hh; apply (highest_le floor); done).
  apply Forall_app in Hall as [H1 H2]. exists before, after. split_and!; [done| |done..]. split_and!; [done| |done].
  rewrite Forall_forall in *. intros b Hin. specialize (Hb b Hin). specialize (H1 b Hin). cbn in *. lia.
Qed.
Lemma no_valid floor bids : SliceStable (above_floor floor bids) = [] ↔ Forall (λ b, Price b < floor) bids.
Proof.
  pose proof (SliceStable_perm (above_floor floor bids)) as Hp. split.
  - intros E. rewrite E in Hp. apply Permutation_nil_l in Hp. induction bids as [|b bids IH]; [constructor|]. cbn in *.
    destruct (Z.leb_spec floor (Price b)); [done|]. constructor; [lia|]. apply IH; done.
  - clear Hp. intros H. assert (above_floor floor bids = []) as ->; [|done]. induction H as [|b bids Hb _ IH]; cbn; [done|]. by rewrite (proj2 (Z.leb_gt _ _) Hb), IH.
Qed.
Lemma Resolve_spec bids floor :
  (Forall (λ b, Price b < floor) bids ∧ Resolve bids floor = (mkResult None 0 (Z.of_nat (length bids)) 0, Some ErrNoValidBids)) ∨
  ∃ before w after, bids = before ++ w :: after ∧ wins floor before w after ∧
    Resolve bids floor = (mkResult (Some w) (highest floor (before ++ after)) (Z.of_nat (length bids)) (Z.of_nat (length (above_floor floor bids))), None).
Proof.
  unfold Resolve. destruct (SliceStable (above_floor floor bids)) as [|w rest] eqn:E; [left; by apply no_valid in E|]. right.
  destruct (sorted_head floor bids w rest E) as (before & after & Hb & Hw & Hh & Hp). exists before, w, after. split_and!; [done..|].
  pose proof (SliceStable_sorted (above_floor floor bids)) as Hs. rewrite E in Hs.
  rewrite (clearing_highest _ _ _ Hs), Hh. pose proof (SliceStable_perm (above_floor floor bids)) as Hp2. rewrite E in Hp2. by rewrite Hp2.
Qed.

(** One slot goes to the first of the dearest bids and costs the second price.  Either no bid meets
    the floor and the result is an error with no winner; or the winner is dearer than every bid before it,
    no bid after it is dearer, and the price is the highest of the floor and of all the other bids, so it
    lies between the floor and the winner's bid. *)
Theorem auction_second_price bids floor :
  (Forall (λ b, Price b < floor) bids ∧ Resolve bids floor = (mkResult None 0 (Z.of_nat (length bids)) 0, Some ErrNoValidBids)) ∨
  ∃ before w after r, bids = before ++ w :: after ∧ wins floor before w after ∧ Resolve bids floor = (r, None) ∧
    Winner r = Some w ∧ ClearingPrice r = highest floor (before ++ after) ∧ floor ≤ ClearingPrice r ≤ Price w ∧
    BidCount r = Z.of_nat (length bids) ∧ ValidCount r = Z.of_nat (length (above_floor floor bids)).
Proof.
  destruct (Resolve_spec bids floor) as [H|(before & w & after & Hb & Hw & Hr)]; [by left|]. right.
  pose proof Hw as (Hf & H1 & H2). eexists before, w, after, _. split_and!; [done|done|exact Hr|done|done| | |done|done]; cbn [ClearingPrice].
  - apply highest_floor.
  - apply highest_le; [done|]. apply Forall_app. split; [|done]. eapply Forall_impl; [exact H1|]. cbn. lia.
Qed.

(** ** Truthfulness *)

(** What the bidder [me] gains when the slot is worth [value] to it. *)
Definition gain (me : string) (value : Z) (bids : list Bid) (floor : Z) : Z :=
  let '(r, _) := Resolve bids floor in
  match Winner r with Some w => if String.eqb (Bidder w) me then value - ClearingPrice r else 0 | None => 0 end.

(** Either the bid wins, at the price of the others, or it gains nothing; it can only win from that price on. *)
Lemma gain_cases me value before after b pl floor (M := highest floor (before ++ after)) :
  Forall (λ x, Bidder x ≠ me) (before ++ after) →
  let g := gain me value (before ++ mkBid me b pl :: after) floor in (g = value - M ∧ M ≤ b) ∨ (g = 0 ∧ b ≤ M).
Proof.
  intros Hne g. unfold g, gain. set (x := mkBid me b pl).
  pose proof (proj2 (highest_floor floor (before ++ after))) as HfM. fold M in HfM.
  destruct (Resolve_spec (before ++ x :: after) floor) as [[Hlow ->]|(before' & w & after' & Hb & (Hf & H1 & H2) & ->)]; cbn [Winner ClearingPrice].
  - right. split; [done|]. rewrite Forall_app, Forall_cons in Hlow. destruct Hlow as (_ & Hx & _). cbn in Hx. lia.
  - assert (Forall (λ y, Price y ≤ Price w) (before' ++ after')) as Hall.
    { apply Forall_app. split; [|done]. eapply Forall_impl; [exact H1|]. cbn. lia. }
    assert (x :: (before ++ after) ≡ₚ w :: (before' ++ after')) as Hp by (rewrite !Permutation_middle; by rewrite Hb).
    destruct (String.eqb_spec (Bidder w) me) as [Hw|Hw].
    + assert (w = x) as ->.
      { assert (w ∈ x :: (before ++ after)) as Hin by (rewrite Hp; left). apply elem_of_cons in Hin as [->|Hin]; [done|].
        rewrite Forall_forall in Hne. by destruct (Hne w Hin). }
      apply Permutation_cons_inv in Hp. left. rewrite <- (highest_perm floor _ _ Hp). split; [done|].
      unfold M. rewrite (highest_perm floor _ _ Hp). by apply (highest_le floor _ b).
    + right. split; [done|].
      assert (w ∈ before ++ after) as Hin.
      { assert (w ∈ x :: (before ++ after)) as Hin by (rewrite Hp; left). by apply elem_of_cons in Hin as [->|Hin]. }
      assert (x ∈ before' ++ after') as Hxin.
      { assert (x ∈ w :: (before' ++ after')) as Hx by (rewrite <- Hp; left). apply elem_of_cons in Hx as [<-|Hx]; [by destruct Hw|done]. }
      rewrite Forall_forall in Hall. specialize (Hall x Hxin). cbn in Hall.
      pose proof (proj2 (highest_le floor (before ++ after) M HfM) (Z.le_refl M)) as HM. rewrite Forall_forall in HM. specialize (HM w Hin). cbn in HM. lia.
Qed.

(** C32: the mechanism is truthful: whatever the others bid, in whatever order, a bidder gains at least as
    much by bidding what the slot is worth to it as by bidding anything else. *)
Theorem auction_truthful me value b before after pl floor : Forall (λ x, Bidder x ≠ me) (before ++ after) →
  gain me value (before ++ mkBid me b pl :: after) floor ≤ gain me value (before ++ mkBid me value pl :: after) floor.
Proof.
  intros Hne. destruct (gain_cases me value before after b pl floor Hne) as [[-> H1]|[-> H1]],
    (gain_cases me value before after value pl floor Hne) as [[-> H2]|[-> H2]]; lia.
Qed.

(** ** Several slots *)

Lemma slots_loop_lookup bids floor valid i k j : slots_loop bids floor valid i k !! j = if (j <? k)%nat then Some (slot_result bids floor valid (i + j)) else None.
Proof.
  revert i j. induction k as [|k IH]; intros i j; cbn [slots_loop]; [by destruct j|]. destruct j as [|j]; cbn -[Nat.ltb]; [by rewrite Nat.add_0_r|].
  rewrite IH. by rewrite Nat.add_succ_r.
Qed.
Lemma sorted_next l i (a b : Bid) : StronglySorted dearer l → l !! i = Some a → l !! S i = Some b → Price b ≤ Price a.
Proof.
  intros H. revert i. induction H as [|x l _ IH Hx]; intros [|i] Ha Hb; cbn in *; [done..| |by eapply IH].
  simplify_eq. by apply (Forall_lookup_1 _ _ _ _ Hx) in Hb.
Qed.
Lemma clearing_at_next floor valid i : Forall (λ b, floor ≤ Price b) valid → floor ≤ clearing_at floor valid i ∧
  clearing_at floor valid i = match valid !! S i with Some b => Price b | None => floor end.
Proof.
  intros Hf. unfold clearing_at. destruct (valid !! S i) as [b|] eqn:E; [|done]. apply (Forall_lookup_1 _ _ _ _ Hf) in E.
  destruct (Z.ltb_spec floor (Price b)); lia.
Qed.

(** Several slots go to the dearest bids in descending order, the earlier of equal ones first, and each
    costs what the next bid offers: the price of a slot is the next winner's bid when the next slot is
    sold, and lies between the floor and the slot's own bid; the first slot is the one-slot auction. *)
Theorem multislot_prices bids floor slots results : 0 < slots → ResolveMultiSlot bids floor slots = (results, None) →
  let sorted := SliceStable (above_floor floor bids) in
  length results = Z.to_nat (Z.min slots (Z.of_nat (length sorted))) ∧
  results !! 0%nat = Some (Resolve bids floor).1 ∧
  ∀ i r, results !! i = Some r → ∃ w, Winner r = Some w ∧ sorted !! i = Some w ∧ floor ≤ ClearingPrice r ≤ Price w ∧
    ∀ r', results !! S i = Some r' → ∃ w', Winner r' = Some w' ∧ ClearingPrice r = Price w'.
Proof.
  intros Hs H sorted. unfold ResolveMultiSlot in H. rewrite (proj2 (Z.leb_gt _ _)) in H by done.
  assert (StronglySorted dearer sorted) as Hso by apply SliceStable_sorted.
  assert (Forall (λ b, floor ≤ Price b) sorted) as Hfl by (unfold sorted; rewrite SliceStable_perm; apply above_floor_all).
  assert (SliceStable (above_floor floor bids) = sorted) as Hdef by done. clearbody sorted. rewrite Hdef in H.
  destruct sorted as [|w0 rest] eqn:Es; [done|]. rewrite <- Es in *. injection H as <-. set (k := Z.to_nat _).
  assert (∀ j, (j < k)%nat → (j < length sorted)%nat) as Hk by (unfold k; lia).
  split_and!.
  - clear -k. generalize 0%nat. induction k as [|k IH]; intros i; cbn; [done|]. by rewrite IH.
  - rewrite slots_loop_lookup. assert (0 < k)%nat by (unfold k; rewrite Es; cbn; lia). rewrite (proj2 (Nat.ltb_lt _ _)) by done.
    unfold Resolve. rewrite Hdef, Es. cbn [fst]. done.
  - intros i r Hi. rewrite slots_loop_lookup in Hi. destruct (Nat.ltb_spec i k); [|done]. injection Hi as <-. cbn [Nat.add].
    destruct (lookup_lt_is_Some_2 sorted i) as [w Hw]; [auto|]. exists w. cbn [slot_result Winner ClearingPrice].
    destruct (clearing_at_next floor sorted i Hfl) as [Hf Hc]. split_and!; [done..| |].
    + rewrite Hc. destruct (sorted !! S i) as [b|] eqn:Eb; [|by apply (Forall_lookup_1 _ _ _ _ Hfl) in Hw].
      by apply (sorted_next sorted i).
    + intros r' Hr'. rewrite slots_loop_lookup in Hr'. destruct (Nat.ltb_spec (S i) k); [|done]. injection Hr' as <-. cbn [slot_result Winner Nat.add].
      destruct (lookup_lt_is_Some_2 sorted (S i)) as [w' Hw']; [auto|]. exists w'. by rewrite Hc, Hw'.
Qed.
End Auction.

(** ** Instances *)

#[local] Open Scope string_scope.
#[local] Open Scope list_scope.
#[local] Open Scope Z_scope.
Definition demo_bid (who : string) (p : Z) : Bid := mkBid who p tt.
Definition demo_bids : list Bid := [demo_bid "a" 300; demo_bid "b" 500; demo_bid "c" 500; demo_bid "d" 90].
Example auction_truthful_witness :
  gain "b" 480 ([demo_bid "a" 300] ++ mkBid "b" 900 tt :: [demo_bid "c" 500]) 100 ≤
  gain "b" 480 ([demo_bid "a" 300] ++ mkBid "b" 480 tt :: [demo_bid "c" 500]) 100 ∧
  gain "b" 480 ([demo_bid "a" 300] ++ mkBid "b" 900 tt :: [demo_bid "c" 500]) 100 = -20.
Proof.
  split; [|vm_compute; reflexivity].
  refine (auction_truthful "b" 480 900 [demo_bid "a" 300] [demo_bid "c" 500] tt 100 _). repeat (constructor; [done|]). constructor.
Defined.
Example multislot_prices_witness :
  ∃ results, ResolveMultiSlot demo_bids 100 2 = (results, None) ∧ length results = 2%nat ∧ results !! 0%nat = Some (Resolve demo_bids 100).1.
Proof.
  exists (ResolveMultiSlot demo_bids 100 2).1. split; [vm_compute; reflexivity|].
  destruct (multislot_prices demo_bids 100 2 (ResolveMultiSlot demo_bids 100 2).1) as (H1 & H2 & _); [lia|vm_compute; reflexivity|].
  split; [exact H1|exact H2].
Defined.
