(* ===== verification/Shutdown.v ===== *)
(** * Shutdown: starting and stopping components ([shutdown/shutdown.go])

    A component has optional hooks and the names it depends on.  What a hook does when it is
    called, return, fail or panic, is a parameter, as is whether the context is done after a
    start; the calls of hooks are recorded in a trace.  The depth-first search recurses through
    [byName]; it is bounded by one more than the number of components, which is enough because
    every nested call is on a name that is not on the stack ([visit_spec]).

    Shown: an order is found exactly when every dependency is registered and no component
    depends on itself, directly or not, and then every component comes after what it depends on
    ([resolve_sound_complete]); a failed start stops what was started, in reverse
    ([start_rolls_back]); stopping calls every hook once, dependents first, whatever fails
    ([stop_reverse_all]).  [stop_unstarted]: [Stop] also stops what was never started. *)

From Stdlib Require Import ZArith Lia.
From stdpp Require Import base tactics numbers list strings gmap sets relations.
From S2P Require Import Prelude.

#[local] Open Scope string_scope.
#[local] Open Scope list_scope.

(** ** Components *)

(** What a hook does. *)
Inductive outcome := Returned | Failed (e : string) | Panicked (v : string).
(** [safeStart] and [safeStop]: a panic becomes an error. *)
Definition safe (prefix : string) (o : outcome) : option string :=
  match o with Returned => None | Failed e => Some e | Panicked v => Some (prefix +:+ v) end.
Definition safeStart : outcome → option string := safe "shutdown: start panic recovered: ".
Definition safeStop : outcome → option string := safe "shutdown: stop panic recovered: ".

(** Whether the hooks are set. *)
Record component := mkComponent { name : string; has_start : bool; has_stop : bool; deps : list string }.
(** [order]: [None] until resolved. *)
Record Manager := mkManager { components : list component; byName : gmap string component; order : option (list string) }.
Definition New : Manager := mkManager [] ∅ None.

Inductive shutdown_error := ErrDuplicate (n : string) | ErrMissingDep (c d : string) | ErrCycle (n : string)
  | StartError (n e : string) | CtxError | ErrShutdown (errs : list (string * string)).

Definition Add (m : Manager) (c : component) : Manager * option shutdown_error :=
  match byName m !! name c with
  | Some _ => (m, Some (ErrDuplicate (name c)))
  | None => (mkManager (components m ++ [c]) (<[name c := c]> (byName m)) None, None)
  end.

(** ** Resolving *)

(** The first unknown dependency. *)
Fixpoint missing_dep (known : gmap string component) (c : component) (ds : list string) : option shutdown_error :=
  match ds with
  | [] => None
  | d :: ds => match known !! d with None => Some (ErrMissingDep (name c) d) | Some _ => missing_dep known c ds end
  end.
Fixpoint validate (known : gmap string component) (cs : list component) : option shutdown_error :=
  match cs with [] => None | c :: cs => match missing_dep known c (deps c) with Some e => Some e | None => validate known cs end end.

(** The state of the search: 1 on the stack, 2 done; and the order so far. *)
Definition search : Type := gmap string nat * list string.
Inductive visited := VDone (st : search) | VCycle (n : string) | VFuel.
Definition then_visit (r : visited) (f : search → visited) : visited := match r with VDone st => f st | r => r end.

Definition deps_of (known : gmap string component) (n : string) : list string :=
  match known !! n with Some c => deps c | None => [] end.

Fixpoint visit_all (visit : string → search → visited) (ns : list string) (st : search) : visited :=
  match ns with [] => VDone st | n :: ns => then_visit (visit n st) (visit_all visit ns) end.
Fixpoint visit (fuel : nat) (known : gmap string component) (n : string) (st : search) : visited :=
  match fuel with
  | O => VFuel
  | S fuel =>
      match st.1 !! n with
      | Some 1 => VCycle n
      | Some 2 => VDone st
      | _ => then_visit (visit_all (visit fuel known) (deps_of known n) (<[n := 1]> st.1, st.2))
               (λ st, VDone (<[n := 2]> st.1, st.2 ++ [n]))
      end
  end.

Inductive resolved := ROrder (l : list string) | RError (e : shutdown_error) | RFuel.
Definition resolve (m : Manager) : resolved :=
  match validate (byName m) (components m) with
  | Some e => RError e
  | None =>
      match visit_all (visit (S (length (components m))) (byName m)) (name <$> components m) (∅, []) with
      | VDone st => ROrder st.2
      | VCycle n => RError (ErrCycle n)
      | VFuel => RFuel
      end
  end.
(** [resolveLocked] keeps the order. *)
Definition resolveLocked (m : Manager) : Manager * option shutdown_error :=
  match resolve m with
  | ROrder l => (mkManager (components m) (byName m) (Some l), None)
  | RError e => (m, Some e)
  | RFuel => (m, None)
  end.
Definition ensure_order (m : Manager) : Manager * option shutdown_error :=
  match order m with Some _ => (m, None) | None => resolveLocked m end.
Definition Components (m : Manager) : Manager * list string * option shutdown_error :=
  let '(m, e) := ensure_order m in
  match e with Some e => (m, [], Some e) | None => (m, default [] (order m), None) end.

(** ** Starting and stopping *)

Inductive event := EStart (n : string) | EStop (n : string).

Section Hooks.
(** What the hooks do, and whether the context is done after a component is started. *)
Context (run_start run_stop : string → outcome) (ctx_done : string → bool).

Fixpoint stop_loop (known : gmap string component) (ns : list string) : list event * list (string * string) :=
  match ns with
  | [] => ([], [])
  | n :: ns =>
      let '(tr, errs) := stop_loop known ns in
      match known !! n with
      | Some c => if has_stop c then (EStop n :: tr, match safeStop (run_stop n) with Some e => (n, e) :: errs | None => errs end) else (tr, errs)
      | None => (tr, errs)
      end
  end.
Definition stopReverse (m : Manager) (ns : list string) : list event * option shutdown_error :=
  let '(tr, errs) := stop_loop (byName m) ns in (tr, match errs with [] => None | _ => Some (ErrShutdown errs) end).

(** The loop over the items, with what has been started. *)
Fixpoint start_loop (m : Manager) (items started : list string) : list event * option shutdown_error :=
  match items with
  | [] => ([], None)
  | n :: items =>
      match byName m !! n with
      | Some c =>
          if has_start c then
            match safeStart (run_start n) with
            | Some e => (EStart n :: (stopReverse m (reverse started)).1, Some (StartError n e))
            | None =>
                let started := started ++ [n] in
                if ctx_done n then (EStart n :: (stopReverse m (reverse started)).1, Some CtxError)
                else let '(tr, e) := start_loop m items started in (EStart n :: tr, e)
            end
          else start_loop m items (started ++ [n])
      | None => start_loop m items (started ++ [n])
      end
  end.
Definition Start (m : Manager) : Manager * list event * option shutdown_error :=
  let '(m, e) := resolveLocked m in
  match e with
  | Some e => (m, [], Some e)
  | None => let '(tr, e) := start_loop m (default [] (order m)) [] in (m, tr, e)
  end.
Definition Stop (m : Manager) : Manager * list event * option shutdown_error :=
  let '(m, e) := ensure_order m in
  match e with
  | Some e => (m, [], Some e)
  | None => let '(tr, e) := stopReverse m (reverse (default [] (order m))) in (m, tr, e)
  end.
(** [Run] after the context is done. *)
Definition Run (m : Manager) : Manager * list event * option shutdown_error :=
  let '(m, tr, e) := Start m in
  match e with Some _ => (m, tr, e) | None => let '(m, tr2, e) := Stop m in (m, tr ++ tr2, e) end.
End Hooks.

(** ** Managers *)

(** The map holds the components by their names, which are distinct; the kept order is the
    one that resolving finds. *)
Record manager_ok (m : Manager) : Prop := mkOk {
  names_distinct : NoDup (name <$> components m);
  known_components n c : byName m !! n = Some c ↔ c ∈ components m ∧ name c = n;
  order_fresh l : order m = Some l → resolve m = ROrder l }.

Lemma New_ok : manager_ok New.
Proof. split; [constructor| |done]. intros n c. cbn. rewrite lookup_empty. split; [done|]. intros [H _]. by apply elem_of_nil in H. Qed.
Lemma known_name m n : manager_ok m → is_Some (byName m !! n) ↔ n ∈ name <$> components m.
Proof.
  intros [_ Hk _]. rewrite list_elem_of_fmap. split.
  - intros [c Hc]. apply Hk in Hc as [? <-]. eauto.
  - intros (c & -> & Hc). exists c. by apply Hk.
Qed.
Lemma Add_ok m c : manager_ok m → manager_ok (Add m c).1.
Proof.
  intros Hok. unfold Add. destruct (byName m !! name c) eqn:E; [done|]. destruct Hok as [Hnd Hk Hord]. split; [| |done]; cbn.
  - rewrite fmap_app. apply NoDup_app. split_and!; [done| |apply NoDup_singleton]. intros n Hn Hx. apply list_elem_of_singleton in Hx as ->.
    assert (is_Some (byName m !! name c)) as [? ?] by (apply known_name; [by split|done]). congruence.
  - intros n c'. rewrite elem_of_app, list_elem_of_singleton. destruct (decide (name c = n)) as [<-|Hne].
    + rewrite lookup_insert_eq. split; [intros [= ->]; auto|]. intros [[Hin | ->] Hn]; [|done]. assert (byName m !! name c = Some c') by (by apply Hk). congruence.
    + rewrite lookup_insert_ne by done. rewrite Hk. naive_solver.
Qed.
Lemma resolveLocked_ok m : manager_ok m → manager_ok (resolveLocked m).1.
Proof.
  intros Hok. unfold resolveLocked. destruct (resolve m) eqn:E; [|done..]. destruct Hok as [Hnd Hk _]. split; [done..|].
  cbn. intros l' [= <-]. exact E.
Qed.

(** ** The search *)

Section Search.
Context (m : Manager) (Hm : manager_ok m).
Let known := byName m.
#[local] Notation regd n := (is_Some (known !! n)).
Context (Hdeps : ∀ n d, d ∈ deps_of known n → regd d).

Definition depends (a b : string) : Prop := b ∈ deps_of (byName m) a.

(** Each name comes after what it depends on. *)
Inductive topo : list string → Prop :=
| topo_nil : topo []
| topo_snoc l n : topo l → n ∉ l → Forall (.∈ l) (deps_of (byName m) n) → topo (l ++ [n]).

Record search_ok (st : search) : Prop := mkSearch {
  so_topo : topo st.2;
  so_done n : st.1 !! n = Some 2 ↔ n ∈ st.2;
  so_values n v : st.1 !! n = Some v → (v = 1 ∨ v = 2) ∧ regd n }.
Definition white (st : search) : nat := size (dom known ∖ dom st.1).

(** What a visit leaves: the stack as it was, more names done, fewer untouched ones. *)
Record grown (st st' : search) : Prop := mkGrown {
  gr_ok : search_ok st';
  gr_grey n : st'.1 !! n = Some 1 ↔ st.1 !! n = Some 1;
  gr_done n : st.1 !! n = Some 2 → st'.1 !! n = Some 2;
  gr_dom : dom st.1 ⊆ dom st'.1 }.
Lemma grown_refl st : search_ok st → grown st st.
Proof. intros H. by split. Qed.
Lemma grown_trans st1 st2 st3 : grown st1 st2 → grown st2 st3 → grown st1 st3.
Proof. intros [? H1 H2 H3] [? G1 G2 G3]. split; [done|intros n; by rewrite G1, H1|auto|by trans (dom st2.1)]. Qed.
Lemma grown_white st st' : grown st st' → (white st' ≤ white st)%nat.
Proof. intros [_ _ _ H]. unfold white. apply subseteq_size. by apply difference_mono_l. Qed.

Definition reaches_all (st : search) (n : string) : Prop := ∀ g, st.1 !! g = Some 1 → tc depends g n.
Definition visit_post (st : search) (ns : list string) (r : visited) : Prop :=
  match r with
  | VDone st' => grown st st' ∧ Forall (λ n, st'.1 !! n = Some 2) ns
  | VCycle n => tc depends n n
  | VFuel => False
  end.

Lemma visit_all_spec (v : string → search → visited) st0 ns :
  (∀ n st, n ∈ ns → grown st0 st → visit_post st [n] (v n st)) → ∀ st, grown st0 st → visit_post st ns (visit_all v ns st).
Proof.
  induction ns as [|n ns IH]; intros Hv st Hg; cbn; [split; [apply grown_refl, Hg|constructor]|].
  pose proof (Hv n st ltac:(left) Hg) as H1. destruct (v n st) as [st1| |]; cbn in *; [|done..].
  destruct H1 as [Hg1 Hd]. inversion_clear Hd as [|? ? Hn _].
  assert (visit_post st1 ns (visit_all v ns st1)) as H2.
  { apply IH; [|by eapply grown_trans]. intros x st2 Hx Hg2. apply Hv; [by right|done]. }
  destruct (visit_all v ns st1) as [st2| |]; cbn in *; [|done..]. destruct H2 as [Hg2 Hall]. split; [by eapply grown_trans|].
  constructor; [by apply (gr_done _ _ Hg2)|done].
Qed.

(** Putting a fresh name on the stack, and taking it off when its dependencies are done. *)
Lemma push_ok st n : search_ok st → regd n → st.1 !! n = None → search_ok (<[n := 1]> st.1, st.2).
Proof.
  intros [Ht Hd Hv] Hr Hn. split; cbn; [done| |].
  - intros x. destruct (decide (n = x)) as [<-|]; [|by rewrite lookup_insert_ne]. rewrite lookup_insert_eq. split; [done|]. intros Hx. apply Hd in Hx. congruence.
  - intros x v. destruct (decide (n = x)) as [<-|]; [rewrite lookup_insert_eq; intros [= <-]; auto|]. rewrite lookup_insert_ne by done. apply Hv.
Qed.
Lemma pop_grown st st' n : search_ok st → regd n → st.1 !! n = None → grown (<[n := 1]> st.1, st.2) st' →
  Forall (λ d, st'.1 !! d = Some 2) (deps_of known n) → grown st (<[n := 2]> st'.1, st'.2 ++ [n]).
Proof.
  intros Hok Hr Hn [[Ht Hd Hv] Hg Hdn Hdom] Hall. cbn in *.
  assert (st'.1 !! n = Some 1) as Hn1 by (apply Hg; by rewrite lookup_insert_eq).
  assert (n ∉ st'.2) as Hnot by (intros Hx; apply Hd in Hx; congruence).
  split; cbn.
  - split; cbn.
    + apply topo_snoc; [done..|]. eapply Forall_impl; [exact Hall|]. cbn. intros x. apply Hd.
    + intros x. rewrite elem_of_app, list_elem_of_singleton. destruct (decide (n = x)) as [<-|]; [rewrite lookup_insert_eq; naive_solver|].
      rewrite lookup_insert_ne by done. rewrite Hd. naive_solver.
    + intros x v. destruct (decide (n = x)) as [<-|]; [rewrite lookup_insert_eq; intros [= <-]; auto|]. rewrite lookup_insert_ne by done. apply Hv.
  - intros x. destruct (decide (n = x)) as [<-|]; [rewrite lookup_insert_eq, Hn; split; done|]. rewrite lookup_insert_ne by done. rewrite Hg. by rewrite lookup_insert_ne.
  - intros x Hx. destruct (decide (n = x)) as [<-|]; [congruence|]. rewrite lookup_insert_ne by done. apply Hdn. by rewrite lookup_insert_ne.
  - rewrite dom_insert_L in *. intros x Hx. apply elem_of_union. right. apply Hdom. apply elem_of_union. by right.
Qed.
Lemma push_white st n : regd n → st.1 !! n = None → (white (<[n := 1]> st.1, st.2) < white st)%nat.
Proof.
  intros Hr Hn. unfold white. cbn. rewrite dom_insert_L. apply subset_size. split.
  - intros x. rewrite !elem_of_difference, elem_of_union. tauto.
  - intros H. specialize (H n). rewrite !elem_of_difference, elem_of_union, elem_of_singleton in H. destruct H as [_ H]; [split; [by apply elem_of_dom|by apply not_elem_of_dom]|tauto].
Qed.

Lemma visit_spec fuel : ∀ n st, search_ok st → regd n → reaches_all st n → (white st < fuel)%nat → visit_post st [n] (visit fuel known n st).
Proof using Hdeps.
  induction fuel as [|fuel IH]; intros n st Hok Hr Hre Hf; [lia|]. cbn [visit].
  destruct (st.1 !! n) as [v|] eqn:E.
  { pose proof (so_values _ Hok n v E) as [[-> | ->] _]; cbn; [by apply Hre|]. split; [by apply grown_refl|by repeat constructor]. }
  pose proof (push_ok st n Hok Hr E) as Hok1. pose proof (push_white st n Hr E) as Hw.
  assert (visit_post (<[n := 1]> st.1, st.2) (deps_of known n) (visit_all (visit fuel known) (deps_of known n) (<[n := 1]> st.1, st.2))) as H.
  { apply visit_all_spec with (st0 := (<[n := 1]> st.1, st.2)); [|by apply grown_refl]. intros d st1 Hd Hg1. apply IH; [apply Hg1|by eapply Hdeps| |].
    - intros g Hgr. apply (gr_grey _ _ Hg1) in Hgr. cbn in Hgr. destruct (decide (n = g)) as [<-|]; [by apply tc_once|].
      rewrite lookup_insert_ne in Hgr by done. eapply tc_r; [by apply Hre|done].
    - apply grown_white in Hg1. lia. }
  destruct (visit_all _ _ _) as [st1| |]; cbn in *; [|done..]. destruct H as [Hg Hall]. split; [by apply pop_grown|].
  constructor; [|constructor]. cbn. by rewrite lookup_insert_eq.
Qed.
End Search.

(** ** Orders *)

Definition in_order (m : Manager) (l : list string) : Prop :=
  l ≡ₚ name <$> components m ∧ ∀ i n, l !! i = Some n → Forall (.∈ take i l) (deps_of (byName m) n).

Lemma topo_NoDup m l : topo m l → NoDup l.
Proof. induction 1 as [|l n _ IH Hn _]; [constructor|]. apply NoDup_app. split_and!; [done| |apply NoDup_singleton]. intros x Hx Hx'. apply list_elem_of_singleton in Hx'. by subst. Qed.
Lemma topo_lookup m l : topo m l → ∀ i n, l !! i = Some n → Forall (.∈ take i l) (deps_of (byName m) n).
Proof.
  induction 1 as [|l n Ht IH Hn Hd]; intros i x Hi; [done|]. apply lookup_app_Some in Hi as [Hi|[Hle Hi]].
  - pose proof (lookup_lt_Some _ _ _ Hi). rewrite take_app_le by lia. by apply IH.
  - apply list_lookup_singleton_Some in Hi as [Hi <-]. replace i with (length l) by lia. by rewrite take_app_length.
Qed.
Lemma in_order_path m l : in_order m l → ∀ a b, tc (depends m) a b → ∀ i, l !! i = Some a → ∃ j, (j < i)%nat ∧ l !! j = Some b.
Proof.
  intros [_ Ho]. assert (∀ a b i, depends m a b → l !! i = Some a → ∃ j, (j < i)%nat ∧ l !! j = Some b) as Hone.
  { intros a b i Hd Hi. specialize (Ho i a Hi). rewrite Forall_forall in Ho. apply Ho, list_elem_of_lookup in Hd as [j Hj].
    apply lookup_take_Some in Hj as [? ?]. eauto. }
  induction 1 as [a b Hd|a b c Hd _ IH]; intros i Hi; [eauto|]. destruct (Hone a b i Hd Hi) as (j & Hj & Hb). destruct (IH j Hb) as (k & ? & ?). exists k. split; [lia|done].
Qed.
Lemma in_order_acyclic m l : manager_ok m → in_order m l → ∀ n, ¬ tc (depends m) n n.
Proof.
  intros Hm Ho n Hc. assert (is_Some (byName m !! n)) as Hr.
  { assert (∃ b, depends m n b) as [b Hb] by (inversion Hc; eauto). unfold depends, deps_of in Hb. destruct (byName m !! n); [done|by apply elem_of_nil in Hb]. }
  apply known_name in Hr; [|done]. destruct Ho as [Hp Ho']. rewrite <- Hp in Hr. apply list_elem_of_lookup in Hr as [i Hi].
  destruct (in_order_path m l (conj Hp Ho') n n Hc i Hi) as (j & Hj & Hj').
  assert (NoDup l) as Hnd by (rewrite Hp; apply Hm). pose proof (NoDup_lookup _ _ _ _ Hnd Hi Hj'). lia.
Qed.

Lemma missing_dep_spec known c ds : match missing_dep known c ds with
  | None => Forall (λ d, is_Some (known !! d)) ds
  | Some (ErrMissingDep c' d) => c' = name c ∧ d ∈ ds ∧ known !! d = None
  | _ => False end.
Proof.
  induction ds as [|d ds IH]; cbn; [constructor|]. destruct (known !! d) eqn:E; [|by split_and!; [|left|]].
  destruct (missing_dep known c ds) as [[]|]; try done; [|constructor; eauto]. destruct IH as (? & ? & ?). split_and!; [done|by right|done].
Qed.
Lemma validate_spec known cs : match validate known cs with
  | None => Forall (λ c, Forall (λ d, is_Some (known !! d)) (deps c)) cs
  | Some (ErrMissingDep n d) => ∃ c, c ∈ cs ∧ name c = n ∧ d ∈ deps c ∧ known !! d = None
  | _ => False end.
Proof.
  induction cs as [|c cs IH]; cbn; [constructor|]. pose proof (missing_dep_spec known c (deps c)) as H.
  destruct (missing_dep known c (deps c)) as [[]|]; try done.
  - destruct H as (-> & ? & ?). exists c. split_and!; [left|done..].
  - destruct (validate known cs) as [[]|]; try done; [|by constructor]. destruct IH as (c' & ? & ?). exists c'. split; [by right|done].
Qed.
Lemma white_start m : manager_ok m → white m (∅, []) = length (components m).
Proof.
  intros Hm. unfold white. cbn. rewrite dom_empty_L, difference_empty_L.
  assert (dom (byName m) = list_to_set (name <$> components m)) as ->.
  { apply set_eq. intros n. rewrite elem_of_dom, elem_of_list_to_set. by apply known_name. }
  rewrite size_list_to_set by apply Hm. apply length_fmap.
Qed.

(** Every dependency of a registered component is registered. *)
Definition closed (m : Manager) : Prop := ∀ n d, depends m n d → is_Some (byName m !! d).
Lemma resolve_cases m : manager_ok m →
  match resolve m with
  | ROrder l => in_order m l ∧ closed m
  | RError (ErrMissingDep n d) => depends m n d ∧ byName m !! d = None
  | RError (ErrCycle n) => closed m ∧ tc (depends m) n n
  | _ => False
  end.
Proof.
  intros Hm. unfold resolve. pose proof (validate_spec (byName m) (components m)) as Hv.
  assert (∀ c, c ∈ components m → deps_of (byName m) (name c) = deps c) as Hdeps.
  { intros c Hc. unfold deps_of. assert (byName m !! name c = Some c) as -> by (by apply (known_components m Hm)). done. }
  destruct (validate (byName m) (components m)) as [[]|]; try done.
  { destruct Hv as (comp & Hc & <- & Hd & Hnone). split; [|done]. unfold depends. by rewrite Hdeps. }
  assert (closed m) as Hcl.
  { intros n d Hd. unfold depends, deps_of in Hd. destruct (byName m !! n) as [c|] eqn:E; [|by apply elem_of_nil in Hd].
    apply (known_components m Hm) in E as [Hc _]. rewrite Forall_forall in Hv. specialize (Hv c Hc). rewrite Forall_forall in Hv. by apply Hv. }
  set (v := visit (S (length (components m))) (byName m)).
  assert (search_ok m (∅, [])) as H0 by (split; [constructor|cbn; intros n; rewrite lookup_empty, elem_of_nil; done|done]).
  assert (visit_post m (∅, []) (name <$> components m) (visit_all v (name <$> components m) (∅, []))) as Hp.
  { apply visit_all_spec with (st0 := (∅, [])); [|by apply grown_refl]. intros n st Hn Hg. apply visit_spec; [done|apply Hg|by apply known_name| |].
    - intros g Hg1. apply (gr_grey _ _ _ Hg) in Hg1. cbn in Hg1. by rewrite lookup_empty in Hg1.
    - apply grown_white in Hg. rewrite white_start in Hg by done. lia. }
  destruct (visit_all v _ _) as [st|n|]; cbn in Hp; [|done..]. destruct Hp as [[[Ht Hd Hval] _ _ _] Hall]. split; [|done]. split; [|by apply topo_lookup].
  apply NoDup_Permutation; [by eapply topo_NoDup|apply Hm|]. intros n. rewrite <- Hd. split.
  - intros H2. apply known_name; [done|]. by apply (Hval n 2).
  - intros Hn. rewrite Forall_forall in Hall. by apply Hall.
Qed.

(** C27: the order of starting.  An order is found exactly when every dependency is registered and no
    component depends on itself, directly or through others; it is then a permutation of the registered
    names in which each comes after everything it depends on.  Otherwise the error names a component
    and a dependency of it that is missing, or a component that depends on itself, which has registered
    dependencies only; the search never runs out of its bound. *)
Theorem resolve_sound_complete m : manager_ok m →
  ((∃ l, resolve m = ROrder l) ↔ closed m ∧ ∀ n, ¬ tc (depends m) n n) ∧
  (∀ l, resolve m = ROrder l → in_order m l) ∧
  (∀ n d, resolve m = RError (ErrMissingDep n d) → depends m n d ∧ byName m !! d = None) ∧
  (∀ n, resolve m = RError (ErrCycle n) → closed m ∧ tc (depends m) n n) ∧ resolve m ≠ RFuel.
Proof.
  intros Hm. pose proof (resolve_cases m Hm) as H. split_and!.
  - split; [intros [l E]; rewrite E in H; destruct H as [Ho Hc]; split; [done|by eapply in_order_acyclic]|].
    intros [Hc Hno]. destruct (resolve m) as [l|[]|]; try done; [by exists l|..].
    + destruct H as [Hd Hn]. destruct (Hc _ _ Hd) as [? ?]. congruence.
    + destruct H as [_ Hx]. by destruct (Hno n).
  - intros l E. rewrite E in H. apply H.
  - intros n d E. by rewrite E in H.
  - intros n E. rewrite E in H. apply H.
  - intros E. by rewrite E in H.
Qed.

(** ** Traces *)

Definition starts (m : Manager) (n : string) : bool := match byName m !! n with Some c => has_start c | None => false end.
Definition stops (m : Manager) (n : string) : bool := match byName m !! n with Some c => has_stop c | None => false end.
Definition start_calls (m : Manager) (l : list string) : list event := EStart <$> filter (λ n, starts m n = true) l.
Definition stop_calls (m : Manager) (l : list string) : list event := EStop <$> filter (λ n, stops m n = true) l.

Section Traces.
Context (run_start run_stop : string → outcome) (ctx_done : string → bool).

(** The failures of stopping, in the order of the calls. *)
Definition stop_errors (m : Manager) (l : list string) : list (string * string) :=
  omap (λ n, e ← safeStop (run_stop n); Some (n, e)) (filter (λ n, stops m n = true) l).

Lemma stop_loop_spec m ns : stop_loop run_stop (byName m) ns = (stop_calls m ns, stop_errors m ns).
Proof.
  unfold stop_calls, stop_errors. induction ns as [|n ns IH]; cbn [stop_loop]; [done|]. rewrite IH, !filter_cons.
  destruct (decide (stops m n = true)) as [E|E]; unfold stops in E.
  - destruct (byName m !! n) as [c|]; [|done]. rewrite E. cbn. by destruct (safeStop (run_stop n)).
  - destruct (byName m !! n) as [c|]; [|done]. by destruct (has_stop c).
Qed.
Lemma stopReverse_spec m ns : stopReverse run_stop m ns = (stop_calls m ns, match stop_errors m ns with [] => None | errs => Some (ErrShutdown errs) end).
Proof. unfold stopReverse. rewrite stop_loop_spec. by destruct (stop_errors m ns). Qed.

Lemma start_calls_app m l1 l2 : start_calls m (l1 ++ l2) = start_calls m l1 ++ start_calls m l2.
Proof. unfold start_calls. by rewrite filter_app, fmap_app. Qed.

(** What starting the items after [started] does: all are started; or one fails, or the context is done
    after one, and what was started is stopped in reverse. *)
Definition start_post (m : Manager) (started items : list string) (r : list event * option shutdown_error) : Prop :=
  match r.2 with
  | None => r.1 = start_calls m items
  | Some e => ∃ l1 n l2, items = l1 ++ n :: l2 ∧ starts m n = true ∧
      ((∃ err, e = StartError n err ∧ safeStart (run_start n) = Some err ∧ r.1 = start_calls m (l1 ++ [n]) ++ stop_calls m (reverse (started ++ l1))) ∨
       (e = CtxError ∧ safeStart (run_start n) = None ∧ ctx_done n = true ∧ r.1 = start_calls m (l1 ++ [n]) ++ stop_calls m (reverse (started ++ l1 ++ [n]))))
  end.
Lemma start_post_step m started n items tr e :
  start_post m (started ++ [n]) items (tr, e) → start_post m started (n :: items) (start_calls m [n] ++ tr, e).
Proof.
  unfold start_post. cbn [fst snd]. destruct e as [e|]; [|intros ->; by rewrite <- start_calls_app].
  intros (l1 & n0 & l2 & -> & Hs & Hc). exists (n :: l1), n0, l2. split_and!; [done..|].
  change ((n :: l1) ++ [n0]) with ([n] ++ (l1 ++ [n0])). rewrite start_calls_app, <- !app_assoc.
  destruct Hc as [(err & ? & ? & ->)|(? & ? & ? & ->)]; [left; exists err|right]; rewrite <- !app_assoc; by split_and!.
Qed.
Lemma start_loop_spec m items started : start_post m started items (start_loop run_start run_stop ctx_done m items started).
Proof.
  revert started. induction items as [|n items IH]; intros started; cbn [start_loop]; [done|].
  assert (start_calls m [n] = if starts m n then [EStart n] else []) as Hone.
  { unfold start_calls. rewrite filter_cons. by destruct (starts m n). }
  pose proof (IH (started ++ [n])) as Hn. destruct (start_loop _ _ _ m items (started ++ [n])) as [tr e]. apply start_post_step in Hn. rewrite Hone in Hn.
  assert (starts m n = match byName m !! n with Some c => has_start c | None => false end) as Hst by done.
  destruct (byName m !! n) as [c|]; [|by rewrite Hst in Hn]. destruct (has_start c); [|by rewrite Hst in Hn]. rewrite Hst in Hn, Hone.
  destruct (safeStart (run_start n)) as [err|] eqn:Es.
  { exists [], n, items. split_and!; [done..|]. left. exists err. rewrite stopReverse_spec. cbn [fst app]. rewrite Hone, app_nil_r. by split_and!. }
  destruct (ctx_done n) eqn:Ec; [|done].
  exists [], n, items. split_and!; [done..|]. right. rewrite stopReverse_spec. cbn [fst app]. rewrite Hone. by split_and!.
Qed.

(** Starting is all or nothing.  When it succeeds every start hook was called, dependencies first.
    When a hook fails or panics, or the context is done after one, the hooks before it were called in
    order, and then the stop hooks of exactly what was started, in reverse; nothing else is called. *)
Theorem start_rolls_back m l : manager_ok m → resolve m = ROrder l →
  let '(m', tr, e) := Start run_start run_stop ctx_done m in
  in_order m l ∧ order m' = Some l ∧ start_post m [] l (tr, e).
Proof.
  intros Hm Hl. pose proof (resolve_cases m Hm) as Hc. rewrite Hl in Hc. unfold Start, resolveLocked. rewrite Hl. cbn [order]. change (default [] (Some l)) with l.
  pose proof (start_loop_spec (mkManager (components m) (byName m) (Some l)) l []) as H.
  destruct (start_loop _ _ _ _ l []) as [tr e]. split; [apply Hc|]. split; [done|exact H].
Qed.

(** [a] comes somewhere before [b]. *)
Definition precedes {A} (l : list A) (a b : A) : Prop := ∃ l1 l2 l3, l = l1 ++ a :: l2 ++ b :: l3.
Lemma precedes_reverse {A} (l : list A) a b : precedes l a b → precedes (reverse l) b a.
Proof.
  intros (l1 & l2 & l3 & ->). exists (reverse l3), (reverse l2), (reverse l1).
  rewrite reverse_app, reverse_cons, reverse_app, reverse_cons. by rewrite <- !app_assoc.
Qed.
Lemma precedes_filter (P : string → Prop) `{!∀ x, Decision (P x)} l a b : precedes l a b → P a → P b → precedes (filter P l) a b.
Proof.
  intros (l1 & l2 & l3 & ->) Ha Hb. exists (filter P l1), (filter P l2), (filter P l3). rewrite filter_app, filter_cons_True, filter_app, filter_cons_True by done. done.
Qed.
Lemma precedes_fmap {A B} (f : A → B) l a b : precedes l a b → precedes (f <$> l) (f a) (f b).
Proof. intros (l1 & l2 & l3 & ->). exists (f <$> l1), (f <$> l2), (f <$> l3). by rewrite fmap_app, fmap_cons, fmap_app, fmap_cons. Qed.
Lemma in_order_precedes m l a b : manager_ok m → in_order m l → tc (depends m) a b → precedes l b a.
Proof.
  intros Hm Ho Hd. assert (a ∈ l) as Ha.
  { destruct Ho as [-> _]. apply known_name; [done|]. assert (∃ x, depends m a x) as [x Hx] by (inversion Hd; eauto).
    unfold depends, deps_of in Hx. destruct (byName m !! a); [done|by apply elem_of_nil in Hx]. }
  apply list_elem_of_lookup in Ha as [i Hi]. destruct (in_order_path m l Ho a b Hd i Hi) as (j & Hj & Hb).
  exists (take j l), (take (i - S j) (drop (S j) l)), (drop (S i) l).
  rewrite <- (take_drop_middle l j b Hb) at 1. f_equal. f_equal.
  assert (drop (S j) l !! (i - S j)%nat = Some a) as Ha by (rewrite lookup_drop; by replace (S j + (i - S j))%nat with i by lia).
  rewrite <- (take_drop_middle _ _ _ Ha) at 1. rewrite drop_drop. do 3 f_equal. lia.
Qed.

(** Stopping calls the stop hook of every registered component that has one, exactly once, whatever
    the hooks do; a component is stopped before everything it depends on, directly or through others;
    and the result lists the failures, panics included, in the order of the calls, or is nil when there
    are none. *)
Theorem stop_reverse_all m l : manager_ok m → resolve m = ROrder l →
  let '(m', tr, e) := Stop run_stop m in
  tr ≡ₚ stop_calls m (name <$> components m) ∧
  (∀ a b, tc (depends m) a b → stops m a = true → stops m b = true → precedes tr (EStop a) (EStop b)) ∧
  e = match stop_errors m (reverse l) with [] => None | errs => Some (ErrShutdown errs) end.
Proof.
  intros Hm Hl. pose proof (resolve_cases m Hm) as Hc. rewrite Hl in Hc. destruct Hc as [Ho _]. unfold Stop.
  assert (ensure_order m = (mkManager (components m) (byName m) (Some l), None)) as ->.
  { unfold ensure_order, resolveLocked. rewrite Hl. destruct (order m) as [l'|] eqn:E; [|done]. pose proof (order_fresh m Hm l' E) as Hf.
    assert (l' = l) as -> by congruence. destruct m; cbn in *. by subst. }
  cbn [order]. change (default [] (Some l)) with l. rewrite stopReverse_spec. change (stop_calls (mkManager (components m) (byName m) (Some l))) with (stop_calls m). change (stop_errors (mkManager (components m) (byName m) (Some l))) with (stop_errors m).
  split_and!; [| |done].
  - unfold stop_calls. destruct Ho as [Hp _]. by rewrite reverse_Permutation, Hp.
  - intros a b Hd Ha Hb. apply precedes_fmap, precedes_filter; [|done..]. apply precedes_reverse. by apply (in_order_precedes m).
Qed.
End Traces.

(** ** Instances *)

Definition demo_manager : Manager :=
  (Add (Add (Add New (mkComponent "server" true true ["db"; "cache"])).1 (mkComponent "db" true true [])).1 (mkComponent "cache" true true ["db"])).1.
Lemma demo_ok : manager_ok demo_manager.
Proof. repeat apply Add_ok. apply New_ok. Qed.
Lemma demo_order : resolve demo_manager = ROrder ["db"; "cache"; "server"].
Proof. vm_compute. reflexivity. Qed.
Example resolve_sound_complete_witness :
  manager_ok demo_manager ∧ (∃ l, resolve demo_manager = ROrder l) ∧ ∀ n, ¬ tc (depends demo_manager) n n.
Proof.
  split; [exact demo_ok|]. destruct (resolve_sound_complete demo_manager demo_ok) as [H _].
  assert (∃ l, resolve demo_manager = ROrder l) as Hl by (eexists; exact demo_order). split; [exact Hl|exact (proj2 (proj1 H Hl))].
Defined.
(** The cache fails to start: the database is stopped again. *)
Example start_rolls_back_witness :
  let '(m', tr, e) := Start (λ n, if String.eqb n "cache" then Failed "refused" else Returned) (λ _, Returned) (λ _, false) demo_manager in
  tr = [EStart "db"; EStart "cache"; EStop "db"] ∧ e = Some (StartError "cache" "refused") ∧ order m' = Some ["db"; "cache"; "server"].
Proof.
  pose proof (start_rolls_back (λ n, if String.eqb n "cache" then Failed "refused" else Returned) (λ _, Returned) (λ _, false) demo_manager _ demo_ok demo_order) as H.
  vm_compute in H |- *. destruct H as (_ & H & _). split; [reflexivity|]. split; [reflexivity|exact H].
Defined.
Example stop_reverse_all_witness :
  let '(m', tr, e) := Stop (λ n, if String.eqb n "cache" then Panicked "boom" else Returned) demo_manager in
  tr ≡ₚ [EStop "server"; EStop "db"; EStop "cache"] ∧ e = Some (ErrShutdown [("cache", "shutdown: stop panic recovered: boom")]).
Proof.
  pose proof (stop_reverse_all (λ n, if String.eqb n "cache" then Panicked "boom" else Returned) demo_manager _ demo_ok demo_order) as H.
  destruct (Stop _ demo_manager) as [[m' tr] e] eqn:E. destruct H as (H1 & _ & H3). split; [exact H1|]. rewrite H3. vm_compute. reflexivity.
Defined.
(** After the failed start above, [Stop] calls the hooks of the two components that never ran, and that
    of the database a second time. *)
Example stop_unstarted :
  (Stop (λ _, Returned) (Start (λ n, if String.eqb n "cache" then Failed "refused" else Returned) (λ _, Returned) (λ _, false) demo_manager).1.1).1.2 =
    [EStop "server"; EStop "cache"; EStop "db"].
Proof. vm_compute. reflexivity. Qed.
