(* ===== verification/RedisLock.v ===== *)
(** * RedisLock: a lock on a Redis server ([redislock/lock.go])

    The server is a parameter, an instance of [Redis]: what [SET NX PX], [GET], [DEL] and
    [PEXPIRE] are documented to do to the entry of a key, a value with an optional deadline in
    milliseconds of the server's clock.  A script runs without interruption, so each of the two
    scripts is one operation, translated from its text.  A client's call that reaches the server
    is one step at one time; calls that fail on the way change nothing or take effect without an
    answer, and both are steps.

    Shown: two holders of the same key with different tokens are never both within the time that
    their last successful call gave them, under any interleaving, lost answers included
    ([lock_mutual_exclusion]); a release or refresh never touches somebody else's entry and
    reports exactly whether the lock was still owned ([release_exact], [refresh_exact]);
    the blocking [Lock] gives up at its deadline ([lock_deadline]); a loss is reported at most once and not
    for a release ([loss_reported_once]).  [refresh_deletes]: with a time to live below a
    millisecond a refresh deletes the lock it reports as extended. *)

From Stdlib Require Import ZArith Lia.
From stdpp Require Import base tactics numbers list strings gmap relations.
From S2P Require Import Prelude.

#[local] Open Scope string_scope.
#[local] Open Scope list_scope.
#[local] Open Scope Z_scope.

(** ** The server *)

(** A value and its deadline; no deadline for a key that does not expire. *)
Definition entry : Type := string * option Z.
Definition live (t : Z) (e : option entry) : option entry :=
  match e with Some (v, Some d) => if t <? d then e else None | _ => e end.

(** The commands at a time, and what is documented of them. *)
Class Redis (Server : Type) := {
  stored : Server → string → option entry;
  SETNX : Server → Z → string → string → option Z → bool * Server;
  DEL : Server → Z → string → Z * Server;
  PEXPIRE : Server → Z → string → Z → Z * Server;
  SETNX_spec s t k v px : let '(ok, s') := SETNX s t k v px in
    (ok = true ↔ live t (stored s k) = None) ∧
    (ok = true → stored s' k = Some (v, (Z.add t) <$> px)) ∧ (ok = false → stored s' k = stored s k) ∧ ∀ k', k' ≠ k → stored s' k' = stored s k';
  DEL_spec s t k : let '(n, s') := DEL s t k in
    (n = 1 ↔ live t (stored s k) ≠ None) ∧ (n = 0 ∨ n = 1) ∧ stored s' k = None ∧ ∀ k', k' ≠ k → stored s' k' = stored s k';
  PEXPIRE_spec s t k ms : let '(n, s') := PEXPIRE s t k ms in
    (n = 1 ↔ live t (stored s k) ≠ None) ∧ (n = 0 ∨ n = 1) ∧
    stored s' k = match live t (stored s k) with Some (v, _) => if ms <=? 0 then None else Some (v, Some (t + ms)) | None => None end ∧
    ∀ k', k' ≠ k → stored s' k' = stored s k' }.

(** [GET]. *)
Definition GET `{Redis Server} (s : Server) (t : Z) (k : string) : option string := fst <$> live t (stored s k).

(** ** The locker *)

Definition Millisecond : Z := 10 ^ 6.
Definition Second : Z := 10 ^ 9.
Record options := mkOptions { ttl : Z; retryInterval : Z; waitTimeout : Z; opt_token : string; autoRenew : bool; renewInterval : Z }.
Definition default_options : options := mkOptions (10 * Second) (50 * Millisecond) 0 "" false 0.
Record Lock := mkLock { lk_key : string; lk_token : string; lk_ttl : Z }.

Inductive lock_error := ErrLockNotAcquired | CtxErr | ClientErr.

(** How the client sends a duration: none for zero, at least a millisecond. *)
Definition px (d : Z) : option Z := if d =? 0 then None else Some (if d <? Millisecond then 1 else d / Millisecond).
(** [Duration.Milliseconds]. *)
Definition Milliseconds (d : Z) : Z := Z.quot d Millisecond.

Section Locker.
Context {Server : Type} `{Redis Server}.

(** [tryLock] with the token drawn, or the one given. *)
Definition tryLock (o : options) (s : Server) (t : Z) (key drawn : string) : Server * (Lock + lock_error) :=
  let token := if String.eqb (opt_token o) "" then drawn else opt_token o in
  let '(ok, s) := SETNX s t key token (px (ttl o)) in
  (s, if ok then inl (mkLock key token (ttl o)) else inr ErrLockNotAcquired).

(** The two scripts. *)
Definition releaseScript (s : Server) (t : Z) (key token : string) : Z * Server :=
  if bool_decide (GET s t key = Some token) then DEL s t key else (0, s).
Definition refreshScript (s : Server) (t : Z) (key token : string) (ms : Z) : Z * Server :=
  if bool_decide (GET s t key = Some token) then PEXPIRE s t key ms else (0, s).

Definition Release (l : Lock) (s : Server) (t : Z) : Server * option lock_error :=
  let '(n, s) := releaseScript s t (lk_key l) (lk_token l) in (s, if n =? 0 then Some ErrLockNotAcquired else None).
Definition Refresh (l : Lock) (s : Server) (t : Z) : Server * option lock_error :=
  let '(n, s) := refreshScript s t (lk_key l) (lk_token l) (Milliseconds (lk_ttl l)) in (s, if n =? 0 then Some ErrLockNotAcquired else None).

(** ** Ownership *)

Definition owned (s : Server) (t : Z) (l : Lock) : Prop := GET s t (lk_key l) = Some (lk_token l).

Lemma GET_live s t k v : GET s t k = Some v ↔ ∃ d, live t (stored s k) = Some (v, d).
Proof.
  unfold GET. rewrite fmap_Some. split; [intros ([v' d] & E & ->); eauto|]. intros [d E]. by exists (v, d).
Qed.
Lemma live_value t e x : live t e = Some x → e = Some x.
Proof. unfold live. repeat case_match; naive_solver. Qed.

Lemma releaseScript_spec s t k v : let '(n, s') := releaseScript s t k v in
  (n = 0 ∨ n = 1) ∧ (n = 1 ↔ GET s t k = Some v) ∧ (n = 1 → stored s' k = None) ∧ (n = 0 → s' = s) ∧ ∀ k', k' ≠ k → stored s' k' = stored s k'.
Proof.
  unfold releaseScript. case_bool_decide as E; [|split_and!; auto; naive_solver].
  pose proof (DEL_spec s t k) as H1. destruct (DEL s t k) as [n s']. destruct H1 as (Hn & H01 & Hd & Ho).
  apply GET_live in E as [d E]. assert (n = 1) as -> by (apply Hn; by rewrite E). split_and!; auto; [|lia]. split; [|done]. intros _. apply GET_live. eauto.
Qed.
Lemma refreshScript_spec s t k v ms : let '(n, s') := refreshScript s t k v ms in
  (n = 0 ∨ n = 1) ∧ (n = 1 ↔ GET s t k = Some v) ∧ (n = 1 → stored s' k = if ms <=? 0 then None else Some (v, Some (t + ms))) ∧ (n = 0 → s' = s) ∧
  ∀ k', k' ≠ k → stored s' k' = stored s k'.
Proof.
  unfold refreshScript. case_bool_decide as E; [|split_and!; auto; naive_solver].
  pose proof (PEXPIRE_spec s t k ms) as H1. destruct (PEXPIRE s t k ms) as [n s']. destruct H1 as (Hn & H01 & Hd & Ho).
  apply GET_live in E as [d E]. assert (n = 1) as -> by (apply Hn; by rewrite E). rewrite E in Hd. split_and!; auto; [|lia]. split; [|done]. intros _. apply GET_live. eauto.
Qed.

Lemma Release_spec l s t :
  let '(s', e) := Release l s t in
  (owned s t l ∧ e = None ∧ stored s' (lk_key l) = None ∨ ¬ owned s t l ∧ e = Some ErrLockNotAcquired ∧ s' = s) ∧
  ∀ k, k ≠ lk_key l → stored s' k = stored s k.
Proof.
  unfold Release, owned. pose proof (releaseScript_spec s t (lk_key l) (lk_token l)) as H1. destruct (releaseScript _ _ _ _) as [n s'].
  destruct H1 as ([-> | ->] & Hn & Hyes & Hno & Ho); cbn; (split; [|done]); [right|left]; naive_solver.
Qed.
(** A release gives up exactly what is owned: it succeeds when the entry holds the holder's token and
    then the key is free; otherwise it reports that and nothing on the server changes; other keys never do. *)
Theorem release_exact l s t :
  let '(s', e) := Release l s t in
  (owned s t l ∧ e = None ∧ stored s' (lk_key l) = None ∨ ¬ owned s t l ∧ e = Some ErrLockNotAcquired ∧ s' = s) ∧
  ∀ k, k ≠ lk_key l → stored s' k = stored s k.
Proof. apply Release_spec. Qed.
Lemma Refresh_spec l s t : Millisecond ≤ lk_ttl l →
  let '(s', e) := Refresh l s t in
  (owned s t l ∧ e = None ∧ stored s' (lk_key l) = Some (lk_token l, Some (t + lk_ttl l / Millisecond)) ∨
   ¬ owned s t l ∧ e = Some ErrLockNotAcquired ∧ s' = s) ∧
  ∀ k, k ≠ lk_key l → stored s' k = stored s k.
Proof.
  intros Ht. unfold Refresh, owned, Milliseconds. pose proof (refreshScript_spec s t (lk_key l) (lk_token l) (Z.quot (lk_ttl l) Millisecond)) as H1.
  destruct (refreshScript _ _ _ _ _) as [n s']. rewrite Z.quot_div_nonneg in * by (unfold Millisecond in *; lia).
  assert (1 ≤ lk_ttl l / Millisecond) by (apply Z.div_le_lower_bound; unfold Millisecond in *; lia).
  rewrite (proj2 (Z.leb_gt _ _)) in H1 by lia.
  destruct H1 as ([-> | ->] & Hn & Hyes & Hno & Ho); cbn; (split; [|done]); [right|left]; naive_solver.
Qed.
(** A refresh extends exactly what is owned, to its time to live from now in whole milliseconds;
    otherwise it reports that and nothing changes.  The time to live has to be at least a millisecond. *)
Theorem refresh_exact l s t : Millisecond ≤ lk_ttl l →
  let '(s', e) := Refresh l s t in
  (owned s t l ∧ e = None ∧ stored s' (lk_key l) = Some (lk_token l, Some (t + lk_ttl l / Millisecond)) ∨
   ¬ owned s t l ∧ e = Some ErrLockNotAcquired ∧ s' = s) ∧
  ∀ k, k ≠ lk_key l → stored s' k = stored s k.
Proof. apply Refresh_spec. Qed.

(** ** Clients *)

(** A lock that a client was given, the time until which its last answered call gave it, and whether it
    has not begun to release it. *)
Record holder := mkHolder { h_lock : Lock; h_until : Z; h_on : bool }.
Record system := mkSystem { srv : Server; now : Z; holders : list holder; used : list string }.
Definition granted (t d : Z) : Z := t + d / Millisecond.

(** The steps: time passes; a client acquires a key with a token of its own, refreshes, releases; the
    answer of a call can be lost after it took effect, a release can fail to reach the server. *)
Inductive step (o : options) : system → system → Prop :=
| step_time s t hs us t' : t ≤ t' → step o (mkSystem s t hs us) (mkSystem s t' hs us)
| step_acquire s t hs us key token s' l (answered : bool) : token ∉ us → token ≠ "" → opt_token o = "" ∨ opt_token o = token →
    tryLock o s t key token = (s', inl l) →
    step o (mkSystem s t hs us) (mkSystem s' t (if answered then hs ++ [mkHolder l (granted t (ttl o)) true] else hs) (token :: us))
| step_refused s t hs us key token s' e : token ∉ us → token ≠ "" → opt_token o = "" ∨ opt_token o = token →
    tryLock o s t key token = (s', inr e) → step o (mkSystem s t hs us) (mkSystem s' t hs (token :: us))
| step_refresh s t hs us i h s' e (answered : bool) : hs !! i = Some h → Refresh (h_lock h) s t = (s', e) →
    step o (mkSystem s t hs us)
      (mkSystem s' t (if answered && bool_decide (e = None) then <[i := mkHolder (h_lock h) (granted t (lk_ttl (h_lock h))) (h_on h)]> hs else hs) us)
| step_release s t hs us i h s' e (reached : bool) : hs !! i = Some h → Release (h_lock h) s t = (s', e) →
    step o (mkSystem s t hs us) (mkSystem (if reached then s' else s) t (<[i := mkHolder (h_lock h) (h_until h) false]> hs) us).

Section Exclusion.
Context (o : options) (Httl : Millisecond ≤ ttl o).

(** Within its time a lock is what the server holds for its key, for at least that long. *)
Definition held_ok (s : Server) (t : Z) (h : holder) : Prop :=
  lk_ttl (h_lock h) = ttl o ∧ h_until h ≤ granted t (ttl o) ∧
  (h_on h = true → t < h_until h → ∃ d, stored s (lk_key (h_lock h)) = Some (lk_token (h_lock h), Some d) ∧ h_until h ≤ d).
Record system_ok (y : system) : Prop := mkSysOk {
  tokens_distinct : NoDup ((λ h, lk_token (h_lock h)) <$> holders y);
  tokens_used : ∀ h, h ∈ holders y → lk_token (h_lock h) ∈ used y;
  all_held : ∀ h, h ∈ holders y → held_ok (srv y) (now y) h }.

Lemma granted_mono t t' d : t ≤ t' → granted t d ≤ granted t' d.
Proof. unfold granted. lia. Qed.
(** A lock within its time is live on the server. *)
Lemma held_live s t h : held_ok s t h → h_on h = true → t < h_until h → GET s t (lk_key (h_lock h)) = Some (lk_token (h_lock h)).
Proof.
  intros (_ & _ & Hs) Hon Ht. destruct (Hs Hon Ht) as (d & E & Hd). unfold GET. rewrite E. cbn. by rewrite (proj2 (Z.ltb_lt _ _)) by lia.
Qed.
(** A change of the server that leaves a holder's entry alone leaves it held. *)
Lemma held_same s s' t h : held_ok s t h → (h_on h = true → t < h_until h → stored s' (lk_key (h_lock h)) = stored s (lk_key (h_lock h))) → held_ok s' t h.
Proof. intros (H1 & H2 & H3) Hs. split_and!; [done..|]. intros Hon Ht. rewrite Hs by done. auto. Qed.
Lemma tryLock_spec s t key drawn (token := if String.eqb (opt_token o) "" then drawn else opt_token o) :
  let '(s', r) := tryLock o s t key drawn in
  match r with
  | inl l => l = mkLock key token (ttl o) ∧ live t (stored s key) = None ∧ stored s' key = Some (token, Some (granted t (ttl o)))
  | inr e => e = ErrLockNotAcquired ∧ stored s' key = stored s key
  end ∧ ∀ k, k ≠ key → stored s' k = stored s k.
Proof.
  unfold tryLock. fold token. pose proof (SETNX_spec s t key token (px (ttl o))) as Hs. destruct (SETNX _ _ _ _ _) as [ok s'].
  destruct Hs as (Hok & Hyes & Hno & Ho). destruct ok; (split; [|done]); [|auto]. split_and!; [done|by apply Hok|]. rewrite Hyes by done.
  unfold px, granted, Millisecond in *. rewrite (proj2 (Z.eqb_neq _ _)), (proj2 (Z.ltb_ge _ _)) by lia. done.
Qed.

Lemma same_token (hs : list holder) (i j : nat) h h' : NoDup ((λ h, lk_token (h_lock h)) <$> hs) → hs !! i = Some h → hs !! j = Some h' →
  lk_token (h_lock h) = lk_token (h_lock h') → i = j.
Proof. intros Hnd Hi Hj He. eapply (NoDup_lookup _ i j); [exact Hnd|by rewrite list_lookup_fmap, Hi|by rewrite list_lookup_fmap, Hj, He]. Qed.
(** A change of the server that touches at most the entry of a lock that is owned leaves the others held. *)
Lemma others_held s s' t (hs : list holder) (i : nat) h : NoDup ((λ h, lk_token (h_lock h)) <$> hs) → (∀ h, h ∈ hs → held_ok s t h) → hs !! i = Some h →
  (owned s t (h_lock h) ∨ s' = s) → (∀ k, k ≠ lk_key (h_lock h) → stored s' k = stored s k) → ∀ j h', hs !! j = Some h' → j ≠ i → held_ok s' t h'.
Proof.
  intros Hnd Hall Hi Hown Hoth j h' Hj Hne. assert (held_ok s t h') as Hh by (apply Hall; by eapply list_elem_of_lookup_2).
  destruct Hown as [Hown| ->]; [|done]. apply (held_same s); [done|]. intros Hon Ht.
  destruct (decide (lk_key (h_lock h') = lk_key (h_lock h))) as [Hk|]; [|by apply Hoth]. exfalso. apply Hne.
  pose proof (held_live _ _ _ Hh Hon Ht) as Hg. rewrite Hk in Hg. unfold owned in Hown. eapply same_token; [done..|congruence].
Qed.
Lemma insert_held (P : holder → Prop) (hs : list holder) (i : nat) h : (∀ j h', hs !! j = Some h' → j ≠ i → P h') → P h → ∀ h', h' ∈ <[i := h]> hs → P h'.
Proof.
  intros Ho Hh h' Hin. apply list_elem_of_lookup in Hin as [j Hj]. apply list_lookup_insert_Some in Hj as [(-> & -> & _)|[? Hj]]; [done|]. by eapply Ho.
Qed.
Lemma insert_tokens (hs : list holder) (i : nat) h h' : hs !! i = Some h → lk_token (h_lock h') = lk_token (h_lock h) →
  (λ h, lk_token (h_lock h)) <$> <[i := h']> hs = (λ h, lk_token (h_lock h)) <$> hs.
Proof. intros Hi He. rewrite list_fmap_insert. apply list_insert_id. by rewrite list_lookup_fmap, Hi, He. Qed.

Lemma step_ok y y' : system_ok y → step o y y' → system_ok y'.
Proof.
  intros [Hnd Hus Hall] Hs. destruct Hs as [s t hs us t' Ht|s t hs us key token s' l answered Hfresh Hne Htok E|s t hs us key token s' e Hfresh Hne Htok E
    |s t hs us i h s' e answered Hi E|s t hs us i h s' e reached Hi E]; cbn in *.
  - split; cbn; [done..|]. intros h Hin. destruct (Hall h Hin) as (H1 & H2 & H3). split_and!; [done| |].
    + pose proof (granted_mono t t' (ttl o) Ht). lia.
    + intros Hon Hlt. apply H3; [done|lia].
  - pose proof (tryLock_spec s t key token) as Hl. rewrite E in Hl. destruct Hl as ((-> & Hlive & Hst) & Hoth).
    assert ((if String.eqb (opt_token o) "" then token else opt_token o) = token) as Et by (destruct Htok as [-> | ->]; [done|by destruct (String.eqb token "")]). rewrite Et in *.
    assert (∀ h, h ∈ hs → held_ok s' t h) as Hold.
    { intros h Hin. apply (held_same s); [by apply Hall|]. intros Hon Hlt. destruct (decide (lk_key (h_lock h) = key)) as [Hk|]; [|by apply Hoth].
      exfalso. pose proof (held_live _ _ _ (Hall h Hin) Hon Hlt) as Hg. unfold GET in Hg. by rewrite Hk, Hlive in Hg. }
    destruct answered; split; cbn; auto.
    + rewrite fmap_app. apply NoDup_app. split_and!; [done| |apply NoDup_singleton]. intros x Hx Hx'. apply list_elem_of_singleton in Hx'. cbn in Hx'.
      apply list_elem_of_fmap in Hx as (h & Ex & Hin). apply Hfresh. rewrite <- Hx', Ex. by apply Hus.
    + intros h [Hin|Hin]%elem_of_app; [right; auto|]. apply list_elem_of_singleton in Hin as ->. left.
    + intros h [Hin|Hin]%elem_of_app; [auto|]. apply list_elem_of_singleton in Hin as ->. split_and!; [done|cbn; lia|]. cbn. intros _ _. eexists. split; [done|lia].
    + intros h Hin. right. auto.
  - pose proof (tryLock_spec s t key token) as Hl. rewrite E in Hl. destruct Hl as ((_ & Hst) & Hoth). split; cbn; [done|intros h Hin; right; auto|].
    intros h Hin. apply (held_same s); [by apply Hall|]. intros _ _. destruct (decide (lk_key (h_lock h) = key)) as [->|]; [done|by apply Hoth].
  - assert (Hh : held_ok s t h) by (apply Hall; by eapply list_elem_of_lookup_2). destruct Hh as (Hh1 & Hh2 & Hh3).
    pose proof (Refresh_spec (h_lock h) s t ltac:(lia)) as Hr. rewrite E in Hr. destruct Hr as [Hcase Hoth].
    assert (∀ j h', hs !! j = Some h' → j ≠ i → held_ok s' t h') as Hrest by (apply (others_held s s' t hs i h); [done..|naive_solver|done]).
    rewrite Hh1 in *.
    assert (held_ok s' t h ∧ (e = None → held_ok s' t (mkHolder (h_lock h) (granted t (ttl o)) (h_on h)))) as [Hself Hnew].
    { destruct Hcase as [(Hown & -> & Hst)|(Hown & -> & ->)]; [|by split].
      split; [|intros _]; (split_and!; cbn; [done|lia|]); intros _ _; rewrite Hst; (eexists; split; [done|unfold granted in *; lia]). }
    case_match eqn:Ea; split; cbn; auto.
    + rewrite (insert_tokens _ _ h) by done. done.
    + apply (insert_held (λ h, lk_token (h_lock h) ∈ us)); [intros j h' Hj _|cbn]; apply Hus; by eapply list_elem_of_lookup_2.
    + apply insert_held; [done|]. apply Hnew. apply andb_true_iff in Ea as [_ Ea]. by apply bool_decide_eq_true in Ea.
    + intros h' Hin. apply list_elem_of_lookup in Hin as [j Hj]. destruct (decide (j = i)) as [->|]; [by simplify_eq|by eapply Hrest].
  - assert (Hh : held_ok s t h) by (apply Hall; by eapply list_elem_of_lookup_2). destruct Hh as (Hh1 & Hh2 & Hh3).
    pose proof (Release_spec (h_lock h) s t) as Hr. rewrite E in Hr. destruct Hr as [Hcase Hoth].
    split; cbn.
    + rewrite (insert_tokens _ _ h) by done. done.
    + apply (insert_held (λ h, lk_token (h_lock h) ∈ us)); [intros j h' Hj _|cbn]; apply Hus; by eapply list_elem_of_lookup_2.
    + apply insert_held; [|by split_and!]. destruct reached; [apply (others_held s s' t hs i h); [done..|naive_solver|done]|].
      intros j h' Hj _. apply Hall. by eapply list_elem_of_lookup_2.
Qed.
Lemma run_ok y y' : system_ok y → rtc (step o) y y' → system_ok y'.
Proof using Httl. intros Hy Hr. induction Hr as [|y y1 y2 H1 _ IH]; [done|]. apply IH. by eapply step_ok. Qed.

(** C4: mutual exclusion.  From any server and no holders, after any steps of any number of clients, two
    holders of the same key that have not begun to release it are never both within the time that their
    last answered call gave them. *)
Theorem lock_mutual_exclusion s0 t0 us y (i j : nat) hi hj : rtc (step o) (mkSystem s0 t0 [] us) y →
  holders y !! i = Some hi → holders y !! j = Some hj → lk_key (h_lock hi) = lk_key (h_lock hj) → h_on hi = true → h_on hj = true →
  now y < h_until hi → now y < h_until hj → i = j.
Proof using Httl.
  intros Hr Hi Hj Hk Hoi Hoj Hti Htj. assert (system_ok y) as [Hnd _ Hall].
  { eapply run_ok; [|exact Hr]. split; cbn; [constructor|intros h Hh; by apply elem_of_nil in Hh..]. }
  assert (held_ok (srv y) (now y) hi ∧ held_ok (srv y) (now y) hj) as [H1 H2] by (split; apply Hall; by eapply list_elem_of_lookup_2).
  pose proof (held_live _ _ _ H1 Hoi Hti) as G1. pose proof (held_live _ _ _ H2 Hoj Htj) as G2. rewrite Hk in G1.
  eapply same_token; [exact Hnd|done..|congruence].
Qed.
End Exclusion.
End Locker.

(** ** Waiting for the lock *)

(** One round of the loop in [Lock]: what the select sees, what the attempt returns, and the two readings
    of the clock after it. *)
Record round := mkRound { rd_done : bool; rd_try : Lock + lock_error; rd_now : Z; rd_until : Z }.
Definition is_not_acquired (e : lock_error) : bool := match e with ErrLockNotAcquired => true | _ => false end.
Definition retry_interval (o : options) : Z := if retryInterval o <=? 0 then 50 * Millisecond else retryInterval o.
(** The timer for the next attempt. *)
Definition next_wait (o : options) (deadline : option Z) (now : Z) : Z :=
  match deadline with Some d => if d - now <? retry_interval o then d - now else retry_interval o | None => retry_interval o end.
(** The result, and the timers that were set, or no result while the rounds last. *)
Fixpoint lock_loop (o : options) (deadline : option Z) (rounds : list round) : list Z * option (Lock + lock_error) :=
  match rounds with
  | [] => ([], None)
  | r :: rounds =>
      if rd_done r then ([], Some (inr CtxErr))
      else match rd_try r with
      | inl l => ([], Some (inl l))
      | inr e =>
          if negb (is_not_acquired e) then ([], Some (inr e))
          else if (match deadline with Some d => negb (rd_now r <? d) | None => false end) then ([], Some (inr ErrLockNotAcquired))
          else let '(ws, res) := lock_loop o deadline rounds in (next_wait o deadline (rd_until r) :: ws, res)
      end
  end.
Definition lock_deadline_of (o : options) (now : Z) : option Z := if 0 <? waitTimeout o then Some (now + waitTimeout o) else None.
Definition Lock_ (o : options) (now : Z) (rounds : list round) : list Z * option (Lock + lock_error) := lock_loop o (lock_deadline_of o now) rounds.

(** The clock of each round is not before the end of the wait that precedes it. *)
Fixpoint rounds_timed (o : options) (deadline : option Z) (from : Z) (rounds : list round) : Prop :=
  match rounds with
  | [] => True
  | r :: rounds => from ≤ rd_now r ≤ rd_until r ∧ rounds_timed o deadline (rd_until r + next_wait o deadline (rd_until r)) rounds
  end.
Lemma lock_loop_spec o d rounds from : rounds_timed o (Some d) from rounds →
  let '(ws, res) := lock_loop o (Some d) rounds in
  (∀ l, res = Some (inl l) → ∃ r, r ∈ rounds ∧ rd_done r = false ∧ rd_try r = inl l) ∧
  Forall (λ w, w ≤ retry_interval o) ws ∧
  (∀ i r, rounds !! i = Some r → d ≤ rd_now r → (i < length ws)%nat → False).
Proof.
  revert from. induction rounds as [|r rounds IH]; intros from Ht; cbn [lock_loop].
  { split_and!; [done|constructor|]. intros i r Hi. done. }
  destruct Ht as [Ht1 Ht2]. assert (next_wait o (Some d) (rd_until r) ≤ retry_interval o) as Hw by (unfold next_wait; destruct (Z.ltb_spec (d - rd_until r) (retry_interval o)); lia).
  destruct (rd_done r) eqn:Ed; [split_and!; [done|constructor|cbn; lia]|].
  destruct (rd_try r) as [l|e] eqn:Er; [split_and!; [intros l' [= <-]; exists r; split_and!; [left|done..]|constructor|cbn; lia]|].
  destruct (is_not_acquired e); cbn [negb]; [|split_and!; [done|constructor|cbn; lia]].
  destruct (Z.ltb_spec (rd_now r) d); cbn [negb]; [|split_and!; [done|constructor|cbn; lia]].
  specialize (IH _ Ht2). destruct (lock_loop o (Some d) rounds) as [ws res]. destruct IH as (I1 & I2 & I3). split_and!.
  - intros l Hl. destruct (I1 l Hl) as (r' & ? & ?). exists r'. split; [by right|done].
  - by constructor.
  - intros [|i] r' Hi Hd; cbn in *; [by simplify_eq; lia|]. intros Hlt. eapply (I3 i r'); [done..|lia].
Qed.
(** The blocking call keeps to its deadline.  With a time-out it never sets a timer after an attempt
    that ends at or past the deadline, so the first such attempt decides; no wait is longer than the retry
    interval; and it returns a lock only when an attempt acquired it. *)
Theorem lock_deadline o now rounds : 0 < waitTimeout o → rounds_timed o (Some (now + waitTimeout o)) now rounds →
  let '(ws, res) := Lock_ o now rounds in
  (∀ l, res = Some (inl l) → ∃ r, r ∈ rounds ∧ rd_done r = false ∧ rd_try r = inl l) ∧
  Forall (λ w, w ≤ retry_interval o) ws ∧
  (∀ i r, rounds !! i = Some r → now + waitTimeout o ≤ rd_now r → (length ws ≤ i)%nat).
Proof.
  intros Hw Ht. unfold Lock_, lock_deadline_of. rewrite (proj2 (Z.ltb_lt _ _)) by done.
  pose proof (lock_loop_spec o (now + waitTimeout o) rounds now Ht) as H. destruct (lock_loop _ _ _) as [ws res]. destruct H as (H1 & H2 & H3).
  split_and!; [done..|]. intros i r Hi Hd. destruct (decide (i < length ws)%nat) as [Hlt|]; [by destruct (H3 i r Hi Hd Hlt)|lia].
Qed.

(** ** The renewer *)

(** Where the goroutine is: in its select; with an error to report, before and after it has looked at
    [stop]; after the callback; gone. *)
Inductive renewer_pc := Renewing | Checking | Calling | Closing | Gone.
(** The two channels with how often each was closed and the [sync.Once] that guards it, and the calls of
    [onLost]. *)
Record renewer := mkRenewer { r_pc : renewer_pc; r_stop : nat; r_stop_once : bool; r_lost : nat; r_lost_once : bool; r_calls : nat }.
Definition renewer_start : renewer := mkRenewer Renewing 0 false 0 false 0.

(** [renewed]: whether [Refresh] succeeds at a tick.  [Release] runs at any time, any number of times.  A
    callback that panics is recovered, so the call always comes back. *)
Inductive renewer_step (has_hook : bool) : renewer → renewer → Prop :=
| rn_stop st so l lo c : (0 < st)%nat → renewer_step has_hook (mkRenewer Renewing st so l lo c) (mkRenewer Gone st so l lo c)
| rn_ctx st so l lo c : renewer_step has_hook (mkRenewer Renewing st so l lo c) (mkRenewer Checking st so l lo c)
| rn_tick st so l lo c (renewed : bool) :
    renewer_step has_hook (mkRenewer Renewing st so l lo c) (mkRenewer (if renewed then Renewing else Checking) st so l lo c)
| rn_check st so l lo c :
    renewer_step has_hook (mkRenewer Checking st so l lo c) (mkRenewer (if (0 <? st)%nat then Gone else Calling) st so l lo c)
| rn_call st so l lo c : renewer_step has_hook (mkRenewer Calling st so l lo c) (mkRenewer Closing st so l lo (if has_hook then S c else c))
| rn_close st so l lo c : renewer_step has_hook (mkRenewer Closing st so l lo c) (mkRenewer Gone st so (if lo then l else S l) true c)
| rn_release pc st so l lo c : renewer_step has_hook (mkRenewer pc st so l lo c) (mkRenewer pc (if so then st else S st) true l lo c).

(** The interval between renewals; [time.NewTicker] panics unless it is positive. *)
Definition renew_every (o : options) : Z :=
  let interval := renewInterval o in
  let interval := if interval <=? 0 then Z.quot (ttl o) 2 else interval in
  if interval <=? 0 then Second else interval.
Lemma renew_every_pos o : 0 < renew_every o ∧ (renewInterval o ≤ 0 → 2 ≤ ttl o → 2 * renew_every o ≤ ttl o).
Proof.
  unfold renew_every, Second. destruct (Z.leb_spec (renewInterval o) 0); [|destruct (Z.leb_spec (renewInterval o) 0); lia].
  destruct (Z.leb_spec (Z.quot (ttl o) 2) 0) as [Hq|Hq]; split; try lia; intros _ H2; rewrite Z.quot_div_nonneg in * by lia.
  - assert (1 ≤ ttl o / 2) by (apply Z.div_le_lower_bound; lia). lia.
  - by apply Z.mul_div_le.
Qed.

(** How far the report has got. *)
Definition renewer_ok (has_hook : bool) (r : renewer) : Prop :=
  r_stop r = (if r_stop_once r then 1 else 0)%nat ∧
  match r_pc r with
  | Renewing | Checking | Calling => r_lost r = 0%nat ∧ r_lost_once r = false ∧ r_calls r = 0%nat
  | Closing => r_lost r = 0%nat ∧ r_lost_once r = false ∧ r_calls r = (if has_hook then 1 else 0)%nat
  | Gone => r_lost r = (if r_lost_once r then 1 else 0)%nat ∧ r_calls r = (if r_lost_once r && has_hook then 1 else 0)%nat
  end.
(** Released before the renewer looked: nothing is reported. *)
Definition quiet (r : renewer) : Prop :=
  (0 < r_stop r)%nat ∧ (r_pc r = Renewing ∨ r_pc r = Checking ∨ r_pc r = Gone) ∧ r_lost r = 0%nat ∧ r_calls r = 0%nat.
Lemma renewer_step_ok has_hook r r' : renewer_ok has_hook r → renewer_step has_hook r r' → renewer_ok has_hook r'.
Proof.
  intros H Hs. destruct Hs; unfold renewer_ok in *; cbn in *.
  - destruct H as (? & -> & -> & ->). by destruct has_hook.
  - done.
  - by destruct renewed.
  - destruct H as (? & -> & -> & ->). by destruct st, has_hook.
  - destruct H as (? & ? & ? & ->). by destruct has_hook.
  - destruct H as (? & -> & -> & ->). by destruct has_hook.
  - destruct H as [-> H]. split; [by destruct so|]. by destruct pc.
Qed.
Lemma quiet_renewer_step has_hook r r' : quiet r → renewer_step has_hook r r' → quiet r'.
Proof.
  intros (Hst & Hpc & Hl & Hc) Hs. destruct Hs; unfold quiet in *; cbn in *; simplify_eq; try (destruct_or! Hpc; done); try (split_and!; auto; done).
  - destruct renewed; auto.
  - destruct st; [lia|]. auto 10.
  - destruct so; auto with lia.
Qed.

(** A loss is reported at most once.  In every reachable state each channel was closed at most once,
    so that neither close panics; [Lost] is closed only after the callback, which is called at most once,
    has run; and once a release has begun before the renewer looked at it, nothing is reported any more. *)
Theorem loss_reported_once has_hook r r' : rtc (renewer_step has_hook) renewer_start r → rtc (renewer_step has_hook) r r' →
  (r_stop r ≤ 1 ∧ r_lost r ≤ 1 ∧ r_calls r ≤ 1)%nat ∧ (r_lost r = 1 → has_hook = true → r_calls r = 1)%nat ∧
  (r_pc r = Renewing ∨ r_pc r = Checking → (0 < r_stop r)%nat → r_lost r' = 0%nat ∧ r_calls r' = 0%nat).
Proof.
  intros Hr Hr'. assert (renewer_ok has_hook r) as Hok.
  { clear Hr'. assert (renewer_ok has_hook renewer_start) as H0 by done. revert H0. induction Hr as [|x y z Hs _ IH]; [done|]. intros H0. apply IH. by eapply renewer_step_ok. }
  destruct Hok as [Hst Hpc]. split_and!.
  - rewrite Hst. destruct (r_stop_once r); lia.
  - destruct (r_pc r); destruct Hpc as [-> ?]; try lia. destruct (r_lost_once r); lia.
  - destruct (r_pc r); destruct_and! Hpc; try lia; [destruct has_hook; lia|]. repeat case_match; lia.
  - intros Hl ->. destruct (r_pc r); destruct_and! Hpc; try lia. destruct (r_lost_once r); [done|lia].
  - intros Hp Hs. assert (quiet r) as Hq by (destruct Hp as [Hp|Hp]; rewrite Hp in Hpc; destruct Hpc as (? & _ & ?); split_and!; auto).
    clear -Hr' Hq. induction Hr' as [|x y z Hs _ IH]; [apply Hq|]. apply IH. by eapply quiet_renewer_step.
Qed.

(** ** A server *)

Definition Store : Type := gmap string entry.
Definition store_SETNX (s : Store) (t : Z) (k v : string) (p : option Z) : bool * Store :=
  match live t (s !! k) with None => (true, <[k := (v, (Z.add t) <$> p)]> s) | Some _ => (false, s) end.
Definition store_DEL (s : Store) (t : Z) (k : string) : Z * Store := (match live t (s !! k) with Some _ => 1 | None => 0 end, delete k s).
Definition store_PEXPIRE (s : Store) (t : Z) (k : string) (ms : Z) : Z * Store :=
  match live t (s !! k) with
  | Some (v, _) => (1, if ms <=? 0 then delete k s else <[k := (v, Some (t + ms))]> s)
  | None => (0, delete k s)
  end.
#[refine] Instance store_redis : Redis Store := {
  stored s k := s !! k; SETNX := store_SETNX; DEL := store_DEL; PEXPIRE := store_PEXPIRE }.
Proof.
  - intros s t k v p. unfold store_SETNX. destruct (live t (s !! k)) eqn:E; split_and!; try done.
    + intros _. apply lookup_insert_eq.
    + intros k' Hk. by apply lookup_insert_ne.
  - intros s t k. unfold store_DEL. split_and!; [by case_match|case_match; auto|apply lookup_delete_eq|]. intros k' Hk. by apply lookup_delete_ne.
  - intros s t k ms. unfold store_PEXPIRE. destruct (live t (s !! k)) as [[v d]|] eqn:E; split_and!; try done; auto.
    + case_match; [apply lookup_delete_eq|apply lookup_insert_eq].
    + intros k' Hk. case_match; [by apply lookup_delete_ne|by apply lookup_insert_ne].
    + apply lookup_delete_eq.
    + intros k' Hk. by apply lookup_delete_ne.
Defined.

Definition demo_lock : Lock := mkLock "budget" "t1" (10 * Second).
Definition demo_store : Store := (tryLock default_options (∅ : Store) 0 "budget" "t1").1.
Example refresh_exact_witness :
  stored (Refresh demo_lock demo_store 4000).1 "budget" = Some ("t1", Some 14000) ∧ (Refresh demo_lock demo_store 4000).2 = None.
Proof.
  pose proof (refresh_exact demo_lock demo_store 4000 ltac:(vm_compute; discriminate)) as H.
  destruct (Refresh demo_lock demo_store 4000) as [s' e] eqn:E. destruct H as [[(_ & -> & H)|(Hn & _ & _)] _]; [split; [exact H|reflexivity]|].
  exfalso. apply Hn. vm_compute. reflexivity.
Defined.
(** The first lock expires and a second client takes the key. *)
Definition demo_sys0 : system := mkSystem (∅ : Store) 0 [] [].
Definition demo_sys1 : system := mkSystem demo_store 0 [mkHolder demo_lock 10000 true] ["t1"].
Definition demo_sys2 : system := mkSystem demo_store 10000 [mkHolder demo_lock 10000 true] ["t1"].
Definition demo_store2 : Store := (tryLock default_options demo_store 10000 "budget" "t2").1.
Definition demo_sys3 : system :=
  mkSystem demo_store2 10000 [mkHolder demo_lock 10000 true; mkHolder (mkLock "budget" "t2" (10 * Second)) 20000 true] ["t2"; "t1"].
Lemma lock_demo_reachable : rtc (step default_options) demo_sys0 demo_sys3.
Proof.
  eapply rtc_l; [apply (step_acquire default_options ∅ 0 [] [] "budget" "t1" demo_store demo_lock true)|].
  1: by apply not_elem_of_nil.
  1: done.
  1: by left.
  1: vm_compute; reflexivity.
  eapply rtc_l; [apply (step_time _ _ 0 _ _ 10000); lia|].
  eapply rtc_l; [|apply rtc_refl].
  apply (step_acquire default_options demo_store 10000 [mkHolder demo_lock 10000 true] ["t1"] "budget" "t2" demo_store2 (mkLock "budget" "t2" (10 * Second)) true).
  - intros Hin. apply list_elem_of_singleton in Hin. discriminate.
  - done.
  - by left.
  - vm_compute. reflexivity.
Qed.
(** At time 10000 only the second holder is within its time. *)
Example lock_mutual_exclusion_witness :
  rtc (step default_options) demo_sys0 demo_sys3 ∧
  ∀ i j hi hj, holders demo_sys3 !! i = Some hi → holders demo_sys3 !! j = Some hj → h_on hi = true → h_on hj = true →
    10000 < h_until hi → 10000 < h_until hj → lk_key (h_lock hi) = lk_key (h_lock hj) → i = j.
Proof.
  split; [exact lock_demo_reachable|]. intros i j hi hj Hi Hj Hoi Hoj Hti Htj Hk.
  exact (lock_mutual_exclusion default_options ltac:(vm_compute; discriminate) ∅ 0 [] demo_sys3 i j hi hj lock_demo_reachable Hi Hj Hk Hoi Hoj Hti Htj).
Defined.

(** Two refused attempts within a wait of 60 ms, the second at the deadline. *)
Definition demo_wait : options := mkOptions (10 * Second) (50 * Millisecond) (60 * Millisecond) "" false 0.
Definition demo_rounds : list round :=
  [mkRound false (inr ErrLockNotAcquired) 0 0; mkRound false (inr ErrLockNotAcquired) (50 * Millisecond) (50 * Millisecond);
   mkRound false (inr ErrLockNotAcquired) (60 * Millisecond) (60 * Millisecond); mkRound false (inl demo_lock) (70 * Millisecond) (70 * Millisecond)].
Example lock_deadline_witness :
  Lock_ demo_wait 0 demo_rounds = ([50 * Millisecond; 10 * Millisecond], Some (inr ErrLockNotAcquired)) ∧
  Forall (λ w, w ≤ retry_interval demo_wait) (Lock_ demo_wait 0 demo_rounds).1.
Proof.
  split; [vm_compute; reflexivity|].
  pose proof (lock_deadline demo_wait 0 demo_rounds ltac:(vm_compute; reflexivity) ltac:(vm_compute; intuition discriminate)) as H.
  destruct (Lock_ demo_wait 0 demo_rounds) as [ws res]. exact (proj1 (proj2 H)).
Defined.

(** Released while a failed refresh is on its way: nothing is reported. *)
Definition demo_renewer : renewer := mkRenewer Checking 1 true 0 false 0.
Lemma demo_renewer_reachable : rtc (renewer_step true) renewer_start demo_renewer.
Proof. eapply rtc_l; [apply (rn_tick true _ _ _ _ _ false)|]. eapply rtc_l; [apply rn_release|]. apply rtc_refl. Qed.
Lemma demo_renewer_goes : rtc (renewer_step true) demo_renewer (mkRenewer Gone 1 true 0 false 0).
Proof. eapply rtc_l; [apply rn_check|]. apply rtc_refl. Qed.
Example loss_reported_once_witness :
  rtc (renewer_step true) renewer_start demo_renewer ∧ r_calls (mkRenewer Gone 1 true 0 false 0) = 0%nat.
Proof.
  split; [exact demo_renewer_reachable|].
  exact (proj2 (proj2 (proj2 (loss_reported_once true _ _ demo_renewer_reachable demo_renewer_goes)) (or_intror eq_refl) (Nat.lt_0_succ 0))).
Defined.

(** With a time to live of zero the lock does not expire, and a refresh deletes it and reports success;
    below a millisecond likewise. *)
Definition short_options (d : Z) : options := mkOptions d (50 * Millisecond) 0 "" true 0.
Definition after_refresh (d : Z) : option entry * option lock_error * option entry :=
  let s := (tryLock (short_options d) (∅ : Store) 0 "budget" "t1").1 in
  let '(s', e) := Refresh (mkLock "budget" "t1" d) s 0 in (stored s "budget", e, stored s' "budget").
Example refresh_deletes :
  after_refresh 0 = (Some ("t1", None), None, None) ∧ after_refresh 999999 = (Some ("t1", Some 1), None, None) ∧
  after_refresh Second = (Some ("t1", Some 1000), None, Some ("t1", Some 1000)).
Proof. vm_compute. auto. Qed.
