(* ===== verification/NetRetry.v ===== *)
(** * NetRetry: attempts and retries of the network clients
      ([tcpclient], [udpclient], [httpclient])

    Errors are chains as the standard library builds them, so that [errors.Is] and [errors.As] are
    the library's searches and each package's [shouldRetry] is translated test by test.  The three
    retry loops run over any sequence of outcomes; a transport, a socket or a server is that sequence.
    A circuit breaker is any instance of [CircuitBreaker], and the breaker of this repository is one.

    Shown: the tests for time-outs and operation errors in [shouldRetry] decide nothing, the comments'
    unreachable branches included ([should_retry_exact]); the delay doubles up to its cap without
    overflow ([retry_delay_exact]); all three loops are one reference loop, which stops at the first outcome
    that is not to be retried, at the limit, or when the caller gives up ([retry_loops_agree],
    [retry_bounded]); an HTTP request that is not idempotent is never sent again after the server
    answered or cut the answer off ([http_no_duplicate]) and every attempt sends the whole body
    ([http_body_whole]); a body is returned whole or not at all ([drain_exact]); every call is counted
    once, as a success or a failure, whatever the breaker does ([calls_accounted]).
    [dial_timeout_not_retried], [drain_max_int] and [cancelled_retry_counted] show where the code departs from its comments. *)

From Stdlib Require Import ZArith Lia.
From stdpp Require Import base tactics numbers list strings sets.
From S2P Require Import Prelude Float64 Breaker.

#[local] Open Scope string_scope.
#[local] Open Scope list_scope.
#[local] Open Scope Z_scope.

(** ** Errors *)

Inductive sentinel := Canceled | DeadlineExceeded | EOF | ErrUnexpectedEOF | ErrNetClosed | errClosed | ErrCircuit | ErrText (s : string).
#[export] Instance sentinel_eq_dec : EqDecision sentinel.
Proof. solve_decision. Defined.

(** [errTimeout], [errCanceled] and [os.ErrDeadlineExceeded] of package net, [*net.OpError] and
    [*url.Error] with what they wrap, and [fmt.Errorf] with [%w]. *)
Inductive error :=
| Sentinel (s : sentinel) | NetTimeout | NetCanceled | OsDeadline
| OpError (inner : error) | UrlError (inner : error) | Wrapped (text : string) (inner : error).

Definition Unwrap (e : error) : option error :=
  match e with OpError i | UrlError i | Wrapped _ i => Some i | _ => None end.
(** Whether an error is the target itself or says so in its [Is] method. *)
Definition is_one (e : error) (target : sentinel) : bool :=
  match e with
  | Sentinel s => bool_decide (s = target)
  | NetTimeout => bool_decide (target = DeadlineExceeded)
  | NetCanceled => bool_decide (target = Canceled)
  | _ => false
  end.
Fixpoint Is (e : error) (target : sentinel) : bool :=
  is_one e target || match e with OpError i | UrlError i | Wrapped _ i => Is i target | _ => false end.

(** The [Timeout] method, where there is one. *)
Fixpoint timeout_method (e : error) : option bool :=
  match e with
  | Sentinel DeadlineExceeded | NetTimeout | OsDeadline => Some true
  | OpError i | UrlError i => Some (default false (timeout_method i))
  | _ => None
  end.
(** [errors.As] to [net.Error] and to [*net.OpError]: the first in the chain that is one. *)
Fixpoint as_net (e : error) : option error :=
  match timeout_method e with
  | Some _ => Some e
  | None => match e with OpError i | UrlError i | Wrapped _ i => as_net i | _ => None end
  end.
Fixpoint as_op (e : error) : option error :=
  match e with OpError _ => Some e | UrlError i | Wrapped _ i => as_op i | _ => None end.
Definition Timeout (e : error) : bool := default false (timeout_method e).

Definition is_context (e : error) : bool := Is e Canceled || Is e DeadlineExceeded.

(** ** What is retried *)

Definition tcp_shouldRetry (err : option error) : bool :=
  match err with
  | None => false
  | Some e =>
      if is_context e then false
      else if Is e EOF || Is e ErrUnexpectedEOF then true
      else match as_net e with
      | Some n => if Timeout n then negb (is_context n)
                  else match as_op e with Some op => negb (is_context op) | None => true end
      | None => match as_op e with Some op => negb (is_context op) | None => true end
      end
  end.

Definition udp_shouldRetry (err : option error) : bool :=
  match err with
  | None => false
  | Some e =>
      if Is e errClosed then false
      else if is_context e then false
      else match as_net e with
      | Some n => if Timeout n then true else match as_op e with Some _ => true | None => true end
      | None => match as_op e with Some _ => true | None => true end
      end
  end.

Record http_response := mkResponse { StatusCode : Z; Body : option (list Z * option error) }.
Definition retryableStatusCodes : list Z := [500; 502; 503; 504].
Definition http_shouldRetry (resp : option http_response) (err : option error) : bool :=
  match err with
  | Some e =>
      if is_context e then false
      else if Is e EOF || Is e ErrUnexpectedEOF then true
      else match as_net e with
      | Some n => if Timeout n then negb (is_context n)
                  else match as_op e with Some op => negb (is_context op) | None => true end
      | None => match as_op e with Some op => negb (is_context op) | None => true end
      end
  | None => match resp with Some r => bool_decide (StatusCode r ∈ retryableStatusCodes) | None => false end
  end.

Definition idempotentMethods : list string := ["GET"; "HEAD"; "OPTIONS"; "PUT"; "DELETE"; "TRACE"].
Definition isIdempotent (method : string) : bool := bool_decide (method ∈ idempotentMethods).
Definition sentButNoResponse (err : option error) : bool :=
  match err with Some e => Is e EOF || Is e ErrUnexpectedEOF | None => false end.

(** What [errors.As] finds is in the chain, so [errors.Is] of it implies [errors.Is] of the whole. *)
Lemma as_net_is e n t : as_net e = Some n → Is n t = true → Is e t = true.
Proof.
  induction e as [s| | | |i IH|i IH|m i IH]; cbn [as_net timeout_method]; intros Hn Ht.
  1: by destruct s; simplify_eq/=.
  all: try by simplify_eq. cbn. by apply IH.
Qed.
Lemma as_op_is e n t : as_op e = Some n → Is n t = true → Is e t = true.
Proof.
  induction e as [s| | | |i IH|i IH|m i IH]; cbn [as_op]; try done; try (by intros [= <-]); intros Hn Ht; cbn; by apply IH.
Qed.
Lemma found_context e n : as_net e = Some n ∨ as_op e = Some n → is_context e = false → is_context n = false.
Proof.
  unfold is_context. intros Hf [H1 H2]%orb_false_iff.
  apply orb_false_iff. split; apply not_true_is_false; intros Ht.
  - destruct Hf as [Hf|Hf]; [eapply as_net_is in Hf|eapply as_op_is in Hf]; [|done| |done]; congruence.
  - destruct Hf as [Hf|Hf]; [eapply as_net_is in Hf|eapply as_op_is in Hf]; [|done| |done]; congruence.
Qed.
Lemma tcp_shouldRetry_spec e : tcp_shouldRetry (Some e) = negb (is_context e).
Proof.
  unfold tcp_shouldRetry. destruct (is_context e) eqn:Ec; [done|]. cbn [negb]. case_match; [done|].
  assert (match as_op e with Some op => negb (is_context op) | None => true end = true) as Hop.
  { destruct (as_op e) eqn:E; [|done]. by rewrite (found_context e) by auto. }
  destruct (as_net e) eqn:En; [|done]. rewrite (found_context e e0) by auto. by destruct (Timeout e0).
Qed.

(** The errors that are retried.  For every chain of errors the packages retry exactly those that are
    not the caller's context errors (nor the UDP client's own closed error), and HTTP in addition the four
    status codes: no outcome of the tests for EOF, time-outs and operation errors changes the answer, and the
    branches the comments call unreachable are. *)
Theorem should_retry_exact e resp :
  tcp_shouldRetry None = false ∧ tcp_shouldRetry (Some e) = negb (is_context e) ∧
  udp_shouldRetry (Some e) = negb (Is e errClosed || is_context e) ∧
  http_shouldRetry resp (Some e) = negb (is_context e) ∧
  (http_shouldRetry resp None = true ↔ ∃ r, resp = Some r ∧ StatusCode r ∈ retryableStatusCodes).
Proof.
  split_and!; [done|apply tcp_shouldRetry_spec| |apply (tcp_shouldRetry_spec e)|].
  - unfold udp_shouldRetry. destruct (Is e errClosed), (is_context e); try done. repeat case_match; done.
  - destruct resp as [r|]; cbn; [rewrite bool_decide_eq_true|]; naive_solver.
Qed.

(** The time-out of a dial is [errTimeout], which [errors.Is] takes for the deadline of a context: it is
    not retried, although the comments count dial time-outs as retryable.  Time-outs of reads and writes are. *)
Example dial_timeout_not_retried :
  tcp_shouldRetry (Some (OpError NetTimeout)) = false ∧ http_shouldRetry None (Some (UrlError (OpError NetTimeout))) = false ∧
  tcp_shouldRetry (Some (OpError OsDeadline)) = true ∧ udp_shouldRetry (Some (OpError OsDeadline)) = true.
Proof. vm_compute. auto. Qed.

(** ** The delay between attempts *)

(** The loop that doubles, for the iterations that are left. *)
Fixpoint double_loop (iters : nat) (maxWait backoff : Z) : Z :=
  match iters with
  | O => backoff
  | S iters =>
      if backoff <? maxWait
      then let next := i64 (Z.shiftl backoff 1) in
           if next <=? backoff then maxWait else double_loop iters maxWait next
      else backoff
  end.
Definition retry_backoff (attempt minWait maxWait : Z) : Z :=
  let backoff := double_loop (Z.to_nat attempt) maxWait minWait in
  if maxWait <? backoff then maxWait else backoff.
Definition half : float64 := f64_div (f64_of_Z 1) (f64_of_Z 2).
(** [random] is what [Float64] returned. *)
Definition retryDelay (attempt minWait maxWait : Z) (random : float64) : Z :=
  if (minWait <=? 0) || (maxWait <=? 0) then 0
  else f64_to_i64 (f64_mul (f64_of_Z (retry_backoff attempt minWait maxWait)) (f64_add half (f64_mul random half))).

Lemma double_loop_spec n maxWait b : 0 < b ≤ max_i64 → maxWait ≤ max_i64 →
  Z.min maxWait (double_loop n maxWait b) = Z.min maxWait (b * 2 ^ Z.of_nat n) ∧ 0 < double_loop n maxWait b ∨ maxWait ≤ 0.
Proof.
  intros Hb Hm. destruct (Z.le_gt_cases maxWait 0); [by right|]. left. revert b Hb. induction n as [|n IH]; intros b Hb; cbn [double_loop].
  { rewrite Z.pow_0_r, Z.mul_1_r. lia. }
  assert (1 ≤ 2 ^ Z.of_nat n) by (pose proof (Z.pow_pos_nonneg 2 (Z.of_nat n)); lia).
  rewrite Nat2Z.inj_succ, Z.pow_succ_r by lia. destruct (Z.ltb_spec b maxWait); [|split; [nia|lia]].
  rewrite Z.shiftl_mul_pow2, Z.pow_1_r by lia. destruct (Z.le_gt_cases (b * 2) max_i64) as [Hle|Hgt].
  - replace (i64 (b * 2)) with (b * 2) by (unfold_int; mint). destruct (Z.leb_spec (b * 2) b); [lia|].
    destruct (IH (b * 2) ltac:(lia)) as [-> ?]. split; [|done]. f_equal. lia.
  - destruct (Z.leb_spec (i64 (b * 2)) b) as [|Hn]; [split; [nia|lia]|].
    exfalso. assert (i64 (b * 2) < 0) by (unfold_int; mint). lia.
Qed.
(** The delay grows as the comments say.  For every attempt the delay before jitter is the smaller of the
    cap and the first wait doubled once per attempt, computed in 64 bits without wrapping around, for attempts
    whose power of two does not fit as well. *)
Theorem retry_delay_exact attempt minWait maxWait : 0 ≤ attempt → 0 < minWait ≤ max_i64 → 0 < maxWait ≤ max_i64 →
  retry_backoff attempt minWait maxWait = Z.min maxWait (minWait * 2 ^ attempt) ∧ 0 < retry_backoff attempt minWait maxWait ≤ maxWait.
Proof.
  intros Ha Hmin Hmax. destruct (double_loop_spec (Z.to_nat attempt) maxWait minWait Hmin ltac:(lia)) as [[He Hp]|]; [|lia].
  rewrite Z2Nat.id in He by done. unfold retry_backoff. destruct (Z.ltb_spec maxWait (double_loop (Z.to_nat attempt) maxWait minWait)); lia.
Qed.
Example retry_delay_exact_witness : retry_backoff 70 100000000 2000000000 = 2000000000 ∧ retry_backoff 3 100000000 2000000000 = 800000000.
Proof.
  split; [rewrite (proj1 (retry_delay_exact 70 100000000 2000000000 ltac:(lia) ltac:(unfold_int; lia) ltac:(unfold_int; lia))); reflexivity|vm_compute; reflexivity].
Defined.

(** ** The retry loops *)

(** What a client reports: the event's name, its number of bytes or status, and the attempt. *)
Record event := mkEvent { ev_name : string; ev_info : Z; ev_attempt : Z }.

(** *** [tcpclient] *)

Section TcpLoop.
(** The outcome of each attempt, the value it leaves behind and the events it fires, and whether the context ends
    during the wait after it; [ctxErr] is what its [Err] then returns. *)
Context {V : Type} (fn : Z → list event * V * option error) (cancelled : Z → bool) (ctxErr : error) (RetryMax : Z).
(** [iters]: the iterations left of the loop over [attempt <= RetryMax]. *)
Fixpoint tcp_loop (iters : nat) (attempt : Z) (val : V) (err : option error) : V * option error * list event :=
  match iters with
  | O => (val, err, [])
  | S iters =>
      let '(evs, val, err) := fn attempt in
      if negb (tcp_shouldRetry err) then (val, err, evs)
      else if attempt =? RetryMax then (val, err, evs)
      else
        let evs := evs ++ [mkEvent "retry" 0 (attempt + 1)] in
        if cancelled attempt then (val, match err with None => Some ctxErr | Some e => Some e end, evs)
        else let '(r, more) := tcp_loop iters (attempt + 1) val err in (r, evs ++ more)
  end.
Definition tcp_DoWithRetry (zero : V) : V * option error * list event := tcp_loop (Z.to_nat (RetryMax + 1)) 0 zero None.
End TcpLoop.

(** *** [udpclient] *)

(** What one attempt meets: whether the client is closed, the error of [SetWriteDeadline], the write, and
    for a reply the datagram or error of the read and [ctx.Err()] after it. *)
Record udp_attempt := mkAttempt {
  ua_closed : bool; ua_deadline : option error; ua_write : Z * option error; ua_read : list Z * option error; ua_ctx : option error }.

Section UdpLoop.
Context (world : Z → udp_attempt) (cancelled : Z → bool) (RetryMax BufferSize : Z).
Fixpoint sendWithRetry_loop (iters : nat) (attempt : Z) (err : option error) : option error * list event :=
  match iters with
  | O => (err, [])
  | S iters =>
      let w := world attempt in
      if ua_closed w then (Some (Sentinel errClosed), [])
      else match ua_deadline w with
      | Some werr => (Some werr, [])
      | None =>
          let '(n, werr) := ua_write w in
          let evs := [mkEvent "send" n attempt] in
          if bool_decide (werr = None) then (None, evs)
          else if negb (udp_shouldRetry werr) || (attempt =? RetryMax) then (werr, evs)
          else
            let evs := evs ++ [mkEvent "retry" n (attempt + 1)] in
            if cancelled attempt then (werr, evs)
            else let '(r, more) := sendWithRetry_loop iters (attempt + 1) werr in (r, evs ++ more)
      end
  end.
Definition sendWithRetry : option error * list event := sendWithRetry_loop (Z.to_nat (RetryMax + 1)) 0 None.

Definition udp_reply : Type := list Z + option error.
Fixpoint sendReceive_loop (iters : nat) (attempt : Z) (err : option error) : udp_reply * list event :=
  match iters with
  | O => (inr err, [])
  | S iters =>
      let w := world attempt in
      if ua_closed w then (inr (Some (Sentinel errClosed)), [])
      else match ua_deadline w with
      | Some werr => (inr (Some werr), [])
      | None =>
          let '(wn, werr) := ua_write w in
          let evs := [mkEvent "send" wn attempt] in
          if negb (bool_decide (werr = None)) then
            if negb (udp_shouldRetry werr) || (attempt =? RetryMax) then (inr werr, evs)
            else
              let evs := evs ++ [mkEvent "retry" wn (attempt + 1)] in
              if cancelled attempt then (inr werr, evs)
              else let '(r, more) := sendReceive_loop iters (attempt + 1) werr in (r, evs ++ more)
          else
            let '(datagram, rerr) := ua_read w in
            let buf := take (Z.to_nat BufferSize) datagram in
            let rn := Z.of_nat (length buf) in
            let evs := evs ++ [mkEvent "receive" rn attempt] in
            if bool_decide (rerr = None) then (inl buf, evs)
            else if negb (bool_decide (ua_ctx w = None)) then (inr (ua_ctx w), evs)
            else if negb (udp_shouldRetry rerr) || (attempt =? RetryMax) then (inr rerr, evs)
            else
              let evs := evs ++ [mkEvent "retry" rn (attempt + 1)] in
              if cancelled attempt then (inr rerr, evs)
              else let '(r, more) := sendReceive_loop iters (attempt + 1) rerr in (r, evs ++ more)
      end
  end.
Definition sendReceiveWithRetry : udp_reply * list event := sendReceive_loop (Z.to_nat (RetryMax + 1)) 0 None.
End UdpLoop.

(** *** [httpclient] *)

(** What an HTTP client does, in order: the body that an attempt offers to the transport, an event, the
    body of an attempt's response drained and closed. *)
Inductive http_act := HSent (body : option (list Z)) | HEvent (e : event) | HClosed (attempt : Z).
(** A request's body as far as it is unread, and [GetBody]. *)
Record request := mkRequest { Method : string; req_Body : option (list Z); GetBody : option (list Z) }.
Definition buildRequest (method : string) (body : option (list Z)) : request := mkRequest method body body.
(** The body is read from its beginning on every attempt, where that is possible. *)
Definition reset_body (req : request) : option (list Z) :=
  match req_Body req, GetBody req with Some _, Some b => Some b | b, _ => b end.
Definition status_of (resp : option http_response) : Z := match resp with Some r => StatusCode r | None => 0 end.
Definition has_body (resp : option http_response) : bool := match resp with Some (mkResponse _ (Some _)) => true | _ => false end.

Section HttpLoop.
(** The transport's answer to each attempt, with how much of the body it read. *)
Context (transport : Z → nat * option http_response * option error) (cancelled : Z → bool) (ctxErr : error) (RetryMax : Z).
Definition http_result : Type := option http_response * option error.
(** The answer is final: not to be retried, or not safe to be. *)
Definition http_final (method : string) (resp : option http_response) (err : option error) : bool :=
  negb (http_shouldRetry resp err) ||
  (bool_decide (is_Some resp) && negb (isIdempotent method)) ||
  (bool_decide (resp = None) && negb (isIdempotent method) && sentButNoResponse err).
Fixpoint http_loop (iters : nat) (attempt : Z) (req : request) (last : http_result) : http_result * list http_act :=
  match iters with
  | O => (last, [])
  | S iters =>
      let body := reset_body req in
      let '(readn, resp, err) := transport attempt in
      let req := mkRequest (Method req) (drop readn <$> body) (GetBody req) in
      let acts := [HSent body; HEvent (mkEvent "request" (status_of resp) attempt)] in
      if http_final (Method req) resp err then ((resp, err), acts)
      else if attempt =? RetryMax then ((resp, err), acts)
      else
        let acts := acts ++ (if has_body resp then [HClosed attempt] else []) ++ [HEvent (mkEvent "retry" (status_of resp) (attempt + 1))] in
        if cancelled attempt then ((resp, match err with None => Some ctxErr | Some e => Some e end), acts)
        else let '(r, more) := http_loop iters (attempt + 1) req (resp, err) in (r, acts ++ more)
  end.
Definition http_DoWithRetry (req : request) : http_result * list http_act := http_loop (Z.to_nat (RetryMax + 1)) 0 req (None, None).
End HttpLoop.

(** *** The reference *)

(** An attempt ends the call, or asks for another with what is done before it. *)
Inductive verdict (R E : Type) := Final (r : R) | Retry (r : R) (before : list E).
Arguments Final {R E} r. Arguments Retry {R E} r before.

Section Reference.
Context {R E : Type} (attempt : Z → list E * verdict R E) (cancelled : Z → bool) (caller_ends : R → R).
Fixpoint retry_ref (budget : nat) (i : Z) : R * list E :=
  let '(evs, v) := attempt i in
  match v with
  | Final r => (r, evs)
  | Retry r before =>
      match budget with
      | O => (r, evs)
      | S budget =>
          if cancelled i then (caller_ends r, evs ++ before)
          else let '(r, more) := retry_ref budget (i + 1) in (r, evs ++ before ++ more)
      end
  end.

(** What the attempts from [i] to [i + n - 1] do when each is retried. *)
Fixpoint retried_acts (n : nat) (i : Z) : list E :=
  match n with
  | O => []
  | S n => let '(evs, v) := attempt i in evs ++ match v with Retry _ before => before | Final _ => [] end ++ retried_acts n (i + 1)
  end.
(** The loop with [budget] retries from attempt [i] ended after [k] retries that were made. *)
Definition retry_ends (budget : nat) (i : Z) (k : nat) (r : R) (acts : list E) : Prop :=
  (k ≤ budget)%nat ∧ (∀ j, (j < k)%nat → cancelled (i + Z.of_nat j) = false ∧ ∃ r' b, (attempt (i + Z.of_nat j)).2 = Retry r' b) ∧
  let '(evs, v) := attempt (i + Z.of_nat k) in
  match v with
  | Final r' => r = r' ∧ acts = retried_acts k i ++ evs
  | Retry r' before =>
      k = budget ∧ r = r' ∧ acts = retried_acts k i ++ evs ∨
      (k < budget)%nat ∧ cancelled (i + Z.of_nat k) = true ∧ r = caller_ends r' ∧ acts = retried_acts k i ++ evs ++ before
  end.
Lemma retry_ref_spec budget i : ∃ k, retry_ends budget i k (retry_ref budget i).1 (retry_ref budget i).2.
Proof.
  revert i. induction budget as [|budget IH]; intros i; cbn [retry_ref]; destruct (attempt i) as [evs v] eqn:Ea.
  { exists 0%nat. unfold retry_ends. rewrite Z.add_0_r, Ea. split_and!; [lia|lia|]. destruct v; cbn; auto. }
  destruct v as [r|r before].
  { exists 0%nat. unfold retry_ends. rewrite Z.add_0_r, Ea. split_and!; [lia|lia|done..]. }
  destruct (cancelled i) eqn:Ec.
  { exists 0%nat. unfold retry_ends. rewrite Z.add_0_r, Ea. split_and!; [lia|lia|]. right. split_and!; [lia|done..]. }
  destruct (IH (i + 1)) as (k & Hk & Hj & Hend). destruct (retry_ref budget (i + 1)) as [r' more]. exists (S k). unfold retry_ends in *.
  replace (i + Z.of_nat (S k)) with (i + 1 + Z.of_nat k) by lia. split_and!; [lia| |].
  - intros [|j] Hlt; [rewrite Z.add_0_r, Ea; eauto|]. replace (i + Z.of_nat (S j)) with (i + 1 + Z.of_nat j) by lia. apply Hj. lia.
  - cbn [retried_acts fst snd] in *. rewrite Ea. destruct (attempt (i + 1 + Z.of_nat k)) as [evs' [r''|r'' b]].
    + destruct Hend as [-> ->]. by rewrite <- !app_assoc.
    + destruct Hend as [(-> & -> & ->)|(? & ? & -> & ->)]; [left|right; split_and!; [lia|done..|]]; by rewrite <- !app_assoc.
Qed.
End Reference.

(** What one attempt of each loop is in the reference. *)
Definition tcp_attempt {V} (fn : Z → list event * V * option error) (i : Z) : list event * verdict (V * option error) event :=
  let '(evs, val, err) := fn i in (evs, if tcp_shouldRetry err then Retry (val, err) [mkEvent "retry" 0 (i + 1)] else Final (val, err)).
Definition udp_failed {R} (inj : option error → R) (n i : Z) (err : option error) : verdict R event :=
  if udp_shouldRetry err then Retry (inj err) [mkEvent "retry" n (i + 1)] else Final (inj err).
Definition udp_send_attempt (world : Z → udp_attempt) (i : Z) : list event * verdict (option error) event :=
  let w := world i in
  if ua_closed w then ([], Final (Some (Sentinel errClosed)))
  else match ua_deadline w with
  | Some e => ([], Final (Some e))
  | None => ([mkEvent "send" (ua_write w).1 i], udp_failed id (ua_write w).1 i (ua_write w).2)
  end.
Definition udp_receive_attempt (world : Z → udp_attempt) (BufferSize i : Z) : list event * verdict udp_reply event :=
  let w := world i in
  if ua_closed w then ([], Final (inr (Some (Sentinel errClosed))))
  else match ua_deadline w with
  | Some e => ([], Final (inr (Some e)))
  | None =>
      let sent := mkEvent "send" (ua_write w).1 i in
      let buf := take (Z.to_nat BufferSize) (ua_read w).1 in
      match (ua_write w).2 with
      | Some e => ([sent], udp_failed inr (ua_write w).1 i (Some e))
      | None =>
          ([sent; mkEvent "receive" (Z.of_nat (length buf)) i],
           match (ua_read w).2 with
           | None => Final (inl buf)
           | Some e => match ua_ctx w with Some c => Final (inr (Some c)) | None => udp_failed inr (Z.of_nat (length buf)) i (Some e) end
           end)
      end
  end.
Definition http_attempt (method : string) (body : option (list Z)) (transport : Z → nat * option http_response * option error) (i : Z)
    : list http_act * verdict http_result http_act :=
  let '(_, resp, err) := transport i in
  ([HSent body; HEvent (mkEvent "request" (status_of resp) i)],
   if http_final method resp err then Final (resp, err)
   else Retry (resp, err) ((if has_body resp then [HClosed i] else []) ++ [HEvent (mkEvent "retry" (status_of resp) (i + 1))])).
Definition or_ctx (ctxErr : error) (r : http_result) : http_result := (r.1, match r.2 with None => Some ctxErr | Some e => Some e end).

Lemma tcp_loop_ref {V} (fn : Z → list event * V * option error) cancelled ctxErr RetryMax n i val err : i + Z.of_nat n = RetryMax →
  tcp_loop fn cancelled ctxErr RetryMax (S n) i val err = retry_ref (tcp_attempt fn) cancelled id n i.
Proof.
  revert i val err. induction n as [|n IH]; intros i val err Hn.
  - cbn. unfold tcp_attempt. destruct (fn i) as [[evs v] e]. destruct (tcp_shouldRetry e); [|done]. cbn. by rewrite (proj2 (Z.eqb_eq i RetryMax)) by lia.
  - remember (S n) as m. cbn [tcp_loop]. rewrite Heqm in *. cbn [retry_ref]. unfold tcp_attempt at 1. destruct (fn i) as [[evs v] e].
    destruct (tcp_shouldRetry e) eqn:Er; [|done]. cbn [negb]. rewrite (proj2 (Z.eqb_neq i RetryMax)) by lia.
    destruct (cancelled i); [by destruct e|]. rewrite IH by lia. by destruct (retry_ref _ _ _ n (i + 1)); rewrite <- app_assoc.
Qed.
Lemma send_loop_ref world cancelled RetryMax n i err : i + Z.of_nat n = RetryMax →
  sendWithRetry_loop world cancelled RetryMax (S n) i err = retry_ref (udp_send_attempt world) cancelled id n i.
Proof.
  revert i err. induction n as [|n IH]; intros i err Hn; [|remember (S n) as m]; cbn [sendWithRetry_loop]; [|rewrite Heqm in *]; cbn [retry_ref].
  all: unfold udp_send_attempt at 1, udp_failed; destruct (world i) as [cl [d|] [wn [e|]] rd cx]; cbn [ua_closed ua_deadline ua_write fst snd];
    destruct cl; try done; change (bool_decide (Some e = None)) with false || idtac; try done.
  - rewrite (proj2 (Z.eqb_eq i RetryMax)), orb_true_r by lia. by destruct (udp_shouldRetry (Some e)).
  - rewrite (proj2 (Z.eqb_neq i RetryMax)), orb_false_r by lia. destruct (udp_shouldRetry (Some e)); [|done]. cbn [negb]. destruct (cancelled i); [done|].
    rewrite IH by lia. by destruct (retry_ref _ _ _ n (i + 1)).
Qed.
Lemma receive_loop_ref world cancelled RetryMax B n i err : i + Z.of_nat n = RetryMax →
  sendReceive_loop world cancelled RetryMax B (S n) i err = retry_ref (udp_receive_attempt world B) cancelled id n i.
Proof.
  revert i err. induction n as [|n IH]; intros i err Hn; [|remember (S n) as m]; cbn [sendReceive_loop]; [|rewrite Heqm in *]; cbn [retry_ref].
  all: unfold udp_receive_attempt at 1, udp_failed; destruct (world i) as [cl [d|] [wn [e|]] [dg [re|]] [cx|]]; cbn [ua_closed ua_deadline ua_write ua_read ua_ctx fst snd];
    destruct cl; try done; repeat match goal with |- context [bool_decide (?x = None)] => first [change (bool_decide (x = None)) with false|change (bool_decide (x = None)) with true] end; cbn [negb]; try done.
  all: rewrite ?(proj2 (Z.eqb_eq i RetryMax)), ?orb_true_r by lia.
  all: rewrite ?(proj2 (Z.eqb_neq i RetryMax)), ?orb_false_r by lia.
  all: match goal with |- context [udp_shouldRetry ?e] => destruct (udp_shouldRetry e) end; try done; cbn [negb]; destruct (cancelled i); try done.
  all: rewrite IH by lia; by destruct (retry_ref _ _ _ n (i + 1)).
Qed.
Lemma http_loop_ref transport cancelled ctxErr RetryMax method body left n i last : i + Z.of_nat n = RetryMax → (body = None → left = None) → (is_Some body → is_Some left) →
  http_loop transport cancelled ctxErr RetryMax (S n) i (mkRequest method left body) last =
  retry_ref (http_attempt method body transport) cancelled (or_ctx ctxErr) n i.
Proof.
  intros Hn Hnone Hsome. revert i left last Hn Hnone Hsome. induction n as [|n IH]; intros i left last Hn Hnone Hsome; [|remember (S n) as m]; cbn [http_loop]; [|rewrite Heqm in *]; cbn [retry_ref].
  all: unfold http_attempt at 1; cbn [GetBody Method];
    replace (reset_body (mkRequest method left body)) with body by (unfold reset_body; destruct body, left; naive_solver);
    destruct (transport i) as [[c resp] err]; destruct (http_final method resp err) eqn:Ef; try done.
  - by rewrite (proj2 (Z.eqb_eq i RetryMax)) by lia.
  - rewrite (proj2 (Z.eqb_neq i RetryMax)) by lia. destruct (cancelled i); [done|]. rewrite IH; [|lia|by intros ->|by intros [? ->]].
    by destruct (retry_ref _ _ _ n (i + 1)); rewrite <- !app_assoc.
Qed.

(** C29: the four retry loops are the reference loop.  Whatever the attempts meet, each of them returns and
    reports what the reference does over its own attempts: the TCP and UDP loops with the last outcome, the HTTP
    loop with the context's error when the caller gives up after an answer. *)
Theorem retry_loops_agree {V} (fn : Z → list event * V * option error) zero world transport cancelled ctxErr B method body RetryMax : 0 ≤ RetryMax →
  let n := Z.to_nat RetryMax in
  tcp_DoWithRetry fn cancelled ctxErr RetryMax zero = retry_ref (tcp_attempt fn) cancelled id n 0 ∧
  sendWithRetry world cancelled RetryMax = retry_ref (udp_send_attempt world) cancelled id n 0 ∧
  sendReceiveWithRetry world cancelled RetryMax B = retry_ref (udp_receive_attempt world B) cancelled id n 0 ∧
  http_DoWithRetry transport cancelled ctxErr RetryMax (buildRequest method body) = retry_ref (http_attempt method body transport) cancelled (or_ctx ctxErr) n 0.
Proof.
  intros H0 n. unfold tcp_DoWithRetry, sendWithRetry, sendReceiveWithRetry, http_DoWithRetry.
  replace (Z.to_nat (RetryMax + 1)) with (S n) by lia.
  split_and!; [apply tcp_loop_ref|apply send_loop_ref|apply receive_loop_ref|apply http_loop_ref]; lia || naive_solver.
Qed.
(** The loops are bounded and stop where they should.  Each makes at most [RetryMax] retries, every
    one after an outcome that is to be retried and a wait that was not cut short, and returns the outcome of its
    last attempt: a final one, the last allowed one, or the one the caller gave up after. *)
Theorem retry_bounded {V} (fn : Z → list event * V * option error) zero world transport cancelled ctxErr B method body RetryMax : 0 ≤ RetryMax →
  let n := Z.to_nat RetryMax in
  (∃ k, let '(r, acts) := tcp_DoWithRetry fn cancelled ctxErr RetryMax zero in retry_ends (tcp_attempt fn) cancelled id n 0 k r acts) ∧
  (∃ k, let '(r, acts) := sendWithRetry world cancelled RetryMax in retry_ends (udp_send_attempt world) cancelled id n 0 k r acts) ∧
  (∃ k, let '(r, acts) := sendReceiveWithRetry world cancelled RetryMax B in retry_ends (udp_receive_attempt world B) cancelled id n 0 k r acts) ∧
  (∃ k, let '(r, acts) := http_DoWithRetry transport cancelled ctxErr RetryMax (buildRequest method body) in
        retry_ends (http_attempt method body transport) cancelled (or_ctx ctxErr) n 0 k r acts).
Proof.
  intros H0 n. unfold tcp_DoWithRetry, sendWithRetry, sendReceiveWithRetry, http_DoWithRetry. replace (Z.to_nat (RetryMax + 1)) with (S n) by lia.
  rewrite (tcp_loop_ref _ _ _ _ n), (send_loop_ref _ _ _ n), (receive_loop_ref _ _ _ _ n) by lia.
  unfold buildRequest. rewrite (http_loop_ref _ _ _ _ _ _ _ n) by (lia || naive_solver).
  split_and!; match goal with |- ∃ k, let '(_, _) := retry_ref ?a ?c ?g n 0 in _ =>
    destruct (retry_ref_spec a c g n 0) as [k Hk]; exists k; destruct (retry_ref a c g n 0); exact Hk end.
Qed.

(** *** HTTP requests that must not be sent twice *)

Definition is_sent (a : http_act) : bool := match a with HSent _ => true | _ => false end.
Definition sends (acts : list http_act) : nat := length (filter (λ a, is_sent a = true) acts).
Lemma sends_app l1 l2 : sends (l1 ++ l2) = (sends l1 + sends l2)%nat.
Proof. unfold sends. by rewrite filter_app, length_app. Qed.
Lemma http_attempt_sends method body transport i :
  let '(evs, v) := http_attempt method body transport i in sends evs = 1%nat ∧ match v with Retry _ b => sends b = 0%nat | Final _ => True end.
Proof. unfold http_attempt. destruct (transport i) as [[c resp] err]. split; [done|]. destruct (http_final method resp err); [done|]. by destruct (has_body resp). Qed.
Lemma retried_sends method body transport k i :
  (∀ j, (j < k)%nat → ∃ r b, (http_attempt method body transport (i + Z.of_nat j)).2 = Retry r b) → sends (retried_acts (http_attempt method body transport) k i) = k.
Proof.
  revert i. induction k as [|k IH]; intros i Hj; cbn [retried_acts]; [done|].
  pose proof (http_attempt_sends method body transport i) as Hs. destruct (Hj 0%nat ltac:(lia)) as (r & b & Hv). rewrite Z.add_0_r in Hv.
  destruct (http_attempt method body transport i) as [evs v]. cbn in Hv. subst v. destruct Hs as [H1 H2]. rewrite !sends_app, H1, H2, IH; [lia|].
  intros j Hlt. replace (i + 1 + Z.of_nat j) with (i + Z.of_nat (S j)) by lia. apply Hj. lia.
Qed.
(** The attempts of a call: as many as it sent, all but the last retried. *)
Lemma http_attempts transport cancelled ctxErr method body RetryMax : 0 ≤ RetryMax →
  let '(r, acts) := http_DoWithRetry transport cancelled ctxErr RetryMax (buildRequest method body) in
  (1 ≤ sends acts ≤ S (Z.to_nat RetryMax))%nat ∧
  ∀ j, (S j < sends acts)%nat → ∃ r b, (http_attempt method body transport (Z.of_nat j)).2 = Retry r b.
Proof.
  intros H0. unfold http_DoWithRetry, buildRequest. replace (Z.to_nat (RetryMax + 1)) with (S (Z.to_nat RetryMax)) by lia.
  rewrite (http_loop_ref _ _ _ _ _ _ _ (Z.to_nat RetryMax)) by (lia || naive_solver).
  destruct (retry_ref_spec (http_attempt method body transport) cancelled (or_ctx ctxErr) (Z.to_nat RetryMax) 0) as (k & Hk & Hj & Hend).
  destruct (retry_ref _ _ _ _ _) as [r acts]. cbn [fst snd] in *.
  pose proof (http_attempt_sends method body transport (0 + Z.of_nat k)) as Hs.
  pose proof (retried_sends method body transport k 0 (λ j Hlt, proj2 (Hj j Hlt))) as Hr.
  assert (sends acts = S k) as ->.
  { destruct (http_attempt method body transport (0 + Z.of_nat k)) as [evs [r'|r' b]]; destruct Hs as [H1 H2].
    - destruct Hend as [_ ->]. rewrite sends_app. lia.
    - destruct Hend as [(_ & _ & ->)|(_ & _ & _ & ->)]; rewrite !sends_app; lia. }
  split; [lia|]. intros j Hlt. apply (Hj j). lia.
Qed.
(** C30: a request that is not idempotent is not repeated behind the server's back.  Whenever such a request is
    sent again, every earlier attempt ended without an answer, with an error that is neither the caller's context
    nor an answer that was cut off. *)
Theorem http_no_duplicate transport cancelled ctxErr method body RetryMax : 0 ≤ RetryMax → isIdempotent method = false →
  let '(r, acts) := http_DoWithRetry transport cancelled ctxErr RetryMax (buildRequest method body) in
  ∀ j, (S j < sends acts)%nat → ∃ e, (transport (Z.of_nat j)).1.2 = None ∧ (transport (Z.of_nat j)).2 = Some e ∧
    is_context e = false ∧ Is e EOF = false ∧ Is e ErrUnexpectedEOF = false.
Proof.
  intros H0 Hm. pose proof (http_attempts transport cancelled ctxErr method body RetryMax H0) as Ha.
  destruct (http_DoWithRetry _ _ _ _ _) as [r acts]. intros j Hj. destruct Ha as [_ Ha]. destruct (Ha j Hj) as (r' & b & Hv). unfold http_attempt in Hv.
  destruct (transport (Z.of_nat j)) as [[c resp] err]. cbn [fst snd] in *. destruct (http_final method resp err) eqn:Ef; [done|].
  unfold http_final in Ef. rewrite Hm in Ef. apply orb_false_iff in Ef as [[Er Es]%orb_false_iff En]. destruct resp as [rs|]; [done|].
  destruct err as [e|]; [|by cbn in Er]. exists e. cbn [negb andb] in En. apply orb_false_iff in En as [-> ->].
  apply negb_false_iff in Er. change (tcp_shouldRetry (Some e) = true) in Er. rewrite tcp_shouldRetry_spec in Er. apply negb_true_iff in Er. auto.
Qed.
(** Every attempt offers the transport the whole body, however much of it an earlier attempt read. *)
Theorem http_body_whole transport cancelled ctxErr method body RetryMax b : 0 ≤ RetryMax →
  HSent b ∈ (http_DoWithRetry transport cancelled ctxErr RetryMax (buildRequest method body)).2 → b = body.
Proof.
  intros H0. unfold http_DoWithRetry, buildRequest. replace (Z.to_nat (RetryMax + 1)) with (S (Z.to_nat RetryMax)) by lia.
  rewrite (http_loop_ref _ _ _ _ _ _ _ (Z.to_nat RetryMax)) by (lia || naive_solver). generalize (Z.to_nat RetryMax), 0. clear.
  assert (∀ i, (HSent b ∈ (http_attempt method body transport i).1 → b = body) ∧
    ∀ r before, (http_attempt method body transport i).2 = Retry r before → HSent b ∉ before) as Hatt.
  { intros i. unfold http_attempt. destruct (transport i) as [[c resp] err]. cbn [fst snd]. split; [set_solver|].
    destruct (http_final method resp err); [done|]. intros r before [= <- <-]. destruct (has_body resp); set_solver. }
  intros n. induction n as [|n IH]; intros i; cbn [retry_ref]; destruct (Hatt i) as [H1 H2];
    destruct (http_attempt method body transport i) as [evs [r|r before]]; try exact H1.
  specialize (H2 r before eq_refl). destruct (cancelled i); cbn [snd]; [set_solver|]. specialize (IH (i + 1)). destruct (retry_ref _ _ _ _ _). set_solver.
Qed.

(** ** Reading a response *)

Inductive drain_error := ReadFailed (e : error) | ErrResponseTooLarge.
(** What [io.LimitReader] lets through of a stream and the error at its end. *)
Definition LimitReader (stream : list Z * option error) (n : Z) : list Z * option error :=
  let '(bs, e) := stream in
  if n <=? 0 then ([], None) else if Z.of_nat (length bs) <? n then (bs, e) else (take (Z.to_nat n) bs, None).
Definition drainBody (resp : option http_response) (max : Z) : option (list Z) + drain_error :=
  match resp with
  | None | Some (mkResponse _ None) => inl None
  | Some (mkResponse _ (Some stream)) =>
      let body := if 0 <? max then LimitReader stream (i64 (max + 1)) else stream in
      let '(buf, err) := body in
      match err with
      | Some e => inr (ReadFailed e)
      | None =>
          if (0 <? max) && (max <? Z.of_nat (length buf)) then inr ErrResponseTooLarge
          else if (length buf =? 0)%nat then inl None else inl (Some buf)
      end
  end.
(** A response is returned whole or not at all.  Below the largest integer as limit, a body within it is
    returned byte for byte, a failure of the stream within it is reported, and a longer body is refused,
    having read one byte more than the limit; without a limit everything is read. *)
Theorem drain_exact status bs e max : max < max_i64 →
  drainBody (Some (mkResponse status (Some (bs, e)))) max =
    if (0 <? max) && (max <? Z.of_nat (length bs)) then inr ErrResponseTooLarge
    else match e with Some e => inr (ReadFailed e) | None => inl (if (length bs =? 0)%nat then None else Some bs) end.
Proof.
  intros Hm. unfold drainBody, LimitReader. destruct (Z.ltb_spec 0 max) as [Hp|]; cbn [andb]; [|destruct e; [done|]; by case_match].
  rewrite i64_id by (unfold in_i64; unfold_int; lia). destruct (Z.leb_spec (max + 1) 0); [lia|].
  destruct (Z.ltb_spec max (Z.of_nat (length bs))) as [Hlt|Hge].
  - destruct (Z.ltb_spec (Z.of_nat (length bs)) (max + 1)); [lia|]. rewrite length_take, (proj2 (Z.ltb_lt _ _)) by lia. done.
  - destruct (Z.ltb_spec (Z.of_nat (length bs)) (max + 1)); [|lia]. destruct e; [done|]. rewrite (proj2 (Z.ltb_ge _ _)) by lia. by case_match.
Qed.
Example drain_exact_witness : drainBody (Some (mkResponse 200 (Some ([1; 2; 3], None)))) 2 = inr ErrResponseTooLarge.
Proof. exact (drain_exact 200 [1; 2; 3] None 2 ltac:(vm_compute; reflexivity)). Defined.
(** With the largest integer as limit, [max + 1] wraps around and every body reads as empty, without an error. *)
Example drain_max_int : drainBody (Some (mkResponse 200 (Some ([1; 2; 3], None)))) max_i64 = inl None.
Proof. vm_compute. reflexivity. Qed.

(** ** Calls and their counters *)

(** What a client asks of a circuit breaker: it runs the call once and returns its error, or refuses
    without running it. *)
Class CircuitBreaker (B : Type) := {
  brk_execute : ∀ {S : Type}, B → (S → S * option error) → S → B * S * option error;
  brk_once : ∀ (S : Type) (b : B) (f : S → S * option error) (s : S),
    (∃ b' e, brk_execute b f s = (b', s, Some e)) ∨ (∃ b', brk_execute b f s = (b', (f s).1, (f s).2)) }.

(** The breaker of this repository behind the adapter the interface asks for: at a time, under a context. *)
Record breaker_at := mkAt { at_breaker : Breaker.Breaker; at_time : Z; at_ctx : option error }.
Definition adapter {S : Type} (b : breaker_at) (f : S → S * option error) (s : S) : breaker_at * S * option error :=
  let '(s', r) := f s in
  let t := at_time b in
  let '(res, b') := Breaker.Execute (at_breaker b) (at_ctx b) (match r with None => FnOk tt | Some e => FnErr tt e end) t t t t t in
  let b' := mkAt b' t (at_ctx b) in
  match res with
  | RunCircuitOpen => (b', s, Some (Sentinel ErrCircuit))
  | RunCancelled e => (b', s, Some e)
  | RunOk _ | RunErr _ _ | RunPanic => (b', s', r)
  end.
#[refine] Instance breaker_at_breaker : CircuitBreaker breaker_at := { brk_execute := @adapter }.
Proof.
  intros S b f s. unfold adapter. destruct (f s) as [s' r]. destruct (Breaker.Execute _ _ _ _ _ _ _ _) as [res b'].
  destruct res; [right; eauto..|left; eauto|left; eauto].
Defined.

Record counters := mkCounters { n_total : Z; n_success : Z; n_failed : Z; n_retried : Z }.
Definition add1 (x : Z) : Z := u64 (x + 1).
Definition add_total (c : counters) : counters := mkCounters (add1 (n_total c)) (n_success c) (n_failed c) (n_retried c).
Definition add_success (c : counters) : counters := mkCounters (n_total c) (add1 (n_success c)) (n_failed c) (n_retried c).
Definition add_failed (c : counters) : counters := mkCounters (n_total c) (n_success c) (add1 (n_failed c)) (n_retried c).
(** One addition per retry event, which are fired together. *)
Definition add_retried (k : nat) (c : counters) : counters := mkCounters (n_total c) (n_success c) (n_failed c) (Nat.iter k add1 (n_retried c)).
Definition retries (evs : list event) : nat := length (filter (λ e, ev_name e = "retry") evs).

Section Calls.
Context {B : Type} `{CircuitBreaker B}.

(** [Breaker.Execute] when there is a breaker. *)
Definition under {S : Type} (brk : option B) (f : S → S * option error) (s : S) : option B * S * option error :=
  match brk with
  | Some b => let '(b', s', r) := brk_execute b f s in (Some b', s', r)
  | None => let '(s', r) := f s in (None, s', r)
  end.
Lemma under_once {S : Type} brk (f : S → S * option error) s :
  (∃ brk' e, under brk f s = (brk', s, Some e)) ∨ (∃ brk', under brk f s = (brk', (f s).1, (f s).2)).
Proof.
  unfold under. destruct brk as [b|]; [|right; destruct (f s); eauto].
  destruct (brk_once S b f s) as [(b' & e & ->)|(b' & ->)]; eauto.
Qed.

(** *** [tcpclient]: [Send], [SendReceive], [SendReceiveLine] *)

Section TcpCalls.
Context {V : Type} (zero : V) (fn : Z → list event * V * option error) (cancelled : Z → bool) (ctxErr : error) (RetryMax : Z).
Definition tcp_do (s : counters * list event * V) : counters * list event * V * option error :=
  let '(c, tr, _) := s in
  let '(v, err, evs) := tcp_DoWithRetry fn cancelled ctxErr RetryMax zero in
  (add_retried (retries evs) c, tr ++ evs, v, err).
Definition tcp_call (size : V → Z) (brk : option B) (c : counters) : option B * counters * list event * V * option error :=
  let '(brk, (c, tr, v), err) := under brk tcp_do (add_total c, [], zero) in
  match err with
  | Some e => (brk, add_failed c, tr ++ [mkEvent "failed" 0 0], v, Some e)
  | None => (brk, add_success c, tr ++ [mkEvent "success" (size v) 0], v, None)
  end.
End TcpCalls.
Definition tcp_Send (data : list Z) (writeOnce : Z → list event * unit * option error) cancelled ctxErr RetryMax (brk : option B) (c : counters) :=
  tcp_call tt writeOnce cancelled ctxErr RetryMax (λ _, Z.of_nat (length data)) brk c.
Definition tcp_SendReceive (writeReadAll : Z → list event * list Z * option error) cancelled ctxErr RetryMax (brk : option B) (c : counters) :=
  let '(brk, c, tr, resp, err) := tcp_call [] writeReadAll cancelled ctxErr RetryMax (λ v, Z.of_nat (length v)) brk c in
  (brk, c, tr, match err with Some _ => [] | None => resp end, err).
Definition tcp_SendReceiveLine (writeReadLine : Z → list event * list Z * option error) cancelled ctxErr RetryMax (brk : option B) (c : counters) :=
  tcp_call [] writeReadLine cancelled ctxErr RetryMax (λ v, Z.of_nat (length v)) brk c.

(** *** [udpclient]: [Send], [SendReceive] *)

(** [closed]: what the first test of the call finds. *)
Definition udp_Send (closed : bool) (data : list Z) (world : Z → udp_attempt) cancelled RetryMax (brk : option B) (c : counters)
    : option B * counters * list event * option error :=
  if closed then (brk, c, [], Some (Sentinel errClosed))
  else
    let doFn '(c, tr) := let '(err, evs) := sendWithRetry world cancelled RetryMax in (add_retried (retries evs) c, tr ++ evs, err) in
    let '(brk, (c, tr), err) := under brk doFn (add_total c, []) in
    match err with
    | Some e => (brk, add_failed c, tr ++ [mkEvent "failed" 0 0], Some e)
    | None => (brk, add_success c, tr ++ [mkEvent "success" (Z.of_nat (length data)) 0], None)
    end.
Definition udp_SendReceive (closed : bool) (world : Z → udp_attempt) cancelled RetryMax BufferSize (brk : option B) (c : counters)
    : option B * counters * list event * list Z * option error :=
  if closed then (brk, c, [], [], Some (Sentinel errClosed))
  else
    let doFn '(c, tr, _) :=
      let '(r, evs) := sendReceiveWithRetry world cancelled RetryMax BufferSize in
      (add_retried (retries evs) c, tr ++ evs, match r with inl reply => reply | inr _ => [] end, match r with inl _ => None | inr e => e end) in
    let '(brk, (c, tr, reply), err) := under brk doFn (add_total c, [], []) in
    match err with
    | Some e => (brk, add_failed c, tr ++ [mkEvent "failed" 0 0], [], Some e)
    | None => (brk, add_success c, tr ++ [mkEvent "success" (Z.of_nat (length reply)) 0], reply, None)
    end.

(** *** [httpclient]: [Do] *)

Definition http_retries (acts : list http_act) : nat := retries (omap (λ a, match a with HEvent e => Some e | _ => None end) acts).
Definition is_2xx (status : Z) : bool := (200 <=? status) && (status <? 300).
Inductive http_error := BuildFailed (e : error) | CallFailed (e : error) | BodyFailed (e : drain_error).
(** [buildErr]: the error of [http.NewRequestWithContext]. *)
Definition http_Do (buildErr : option error) (method : string) (body : option (list Z)) transport cancelled ctxErr RetryMax max (brk : option B) (c : counters)
    : option B * counters * list http_act * ((Z * option (list Z)) + http_error) :=
  let c := add_total c in
  match buildErr with
  | Some e => (brk, add_failed c, [HEvent (mkEvent "failed" 0 0)], inr (BuildFailed e))
  | None =>
      let doFn '(c, tr, _) :=
        let '(raw, err, acts) := http_DoWithRetry transport cancelled ctxErr RetryMax (buildRequest method body) in
        (add_retried (http_retries acts) c, tr ++ acts, raw, err) in
      let '(brk, (c, tr, raw), err) := under brk doFn (c, [], None) in
      match err with
      | Some e => (brk, add_failed c, tr ++ [HEvent (mkEvent "failed" 0 0)], inr (CallFailed e))
      | None =>
          let status := status_of raw in
          match drainBody raw max with
          | inr e => (brk, add_failed c, tr ++ [HEvent (mkEvent "failed" status 0)], inr (BodyFailed e))
          | inl respBody =>
              if is_2xx status then (brk, add_success c, tr ++ [HEvent (mkEvent "success" status 0)], inl (status, respBody))
              else (brk, add_failed c, tr ++ [HEvent (mkEvent "failed" status 0)], inl (status, respBody))
          end
      end
  end.

(** One call more, a success or a failure, with [k] retries. *)
Definition counted (ok : bool) (k : nat) (c c' : counters) : Prop :=
  n_total c' = add1 (n_total c) ∧ n_success c' = (if ok then add1 (n_success c) else n_success c) ∧
  n_failed c' = (if ok then n_failed c else add1 (n_failed c)) ∧ n_retried c' = Nat.iter k add1 (n_retried c).
Definition succeeded {A} (r : option A) : bool := match r with None => true | Some _ => false end.

Lemma retries_app e1 e2 : retries (e1 ++ e2) = (retries e1 + retries e2)%nat.
Proof. unfold retries. by rewrite filter_app, length_app. Qed.
Lemma http_retries_app a1 a2 : http_retries (a1 ++ a2) = (http_retries a1 + http_retries a2)%nat.
Proof. unfold http_retries. by rewrite omap_app, retries_app. Qed.

(** Every call of a client that is not closed is counted once: the total, either the successes or the
    failures according to what the caller gets, and one retry for each retry event, whether the breaker runs the call
    or refuses it; HTTP counts as a success exactly an answer with a 2xx status that was read in full. *)
Theorem calls_accounted {V} (zero : V) fn size data world transport cancelled ctxErr RetryMax BufferSize buildErr method body max brk c :
  (let '(_, c', tr, _, err) := tcp_call zero fn cancelled ctxErr RetryMax size brk c in counted (succeeded err) (retries tr) c c') ∧
  (let '(_, c', tr, err) := udp_Send false data world cancelled RetryMax brk c in counted (succeeded err) (retries tr) c c') ∧
  (let '(_, c', tr, _, err) := udp_SendReceive false world cancelled RetryMax BufferSize brk c in counted (succeeded err) (retries tr) c c') ∧
  (let '(_, c', tr, r) := http_Do buildErr method body transport cancelled ctxErr RetryMax max brk c in
   counted (match r with inl (status, _) => is_2xx status | inr _ => false end) (http_retries tr) c c').
Proof.
  split_and!.
  - unfold tcp_call. destruct (under_once brk (tcp_do zero fn cancelled ctxErr RetryMax) (add_total c, [], zero)) as [(brk' & e & ->)|(brk' & ->)]; [done|].
    unfold tcp_do. destruct (tcp_DoWithRetry _ _ _ _ _) as [[v err] evs]. cbn [fst snd]. destruct err; rewrite app_nil_l, retries_app, Nat.add_0_r; done.
  - unfold udp_Send. match goal with |- context [under brk ?f ?s] => destruct (under_once brk f s) as [(brk' & e & ->)|(brk' & ->)]; [done|] end.
    destruct (sendWithRetry _ _ _) as [err evs]. cbn [fst snd]. destruct err; rewrite app_nil_l, retries_app, Nat.add_0_r; done.
  - unfold udp_SendReceive. match goal with |- context [under brk ?f ?s] => destruct (under_once brk f s) as [(brk' & e & ->)|(brk' & ->)]; [done|] end.
    destruct (sendReceiveWithRetry _ _ _ _) as [r evs]. cbn [fst snd]. destruct r as [reply|[e|]]; cbn [succeeded]; rewrite app_nil_l, retries_app, Nat.add_0_r; done.
  - unfold http_Do. destruct buildErr as [e|]; [done|]. match goal with |- context [under brk ?f ?s] => destruct (under_once brk f s) as [(brk' & e & ->)|(brk' & ->)]; [done|] end.
    destruct (http_DoWithRetry _ _ _ _ _) as [[raw err] acts]. cbn [fst snd].
    repeat case_match; simplify_eq/=; rewrite http_retries_app, Nat.add_0_r; unfold counted; try done.
    all: match goal with H0 : is_2xx _ = _ |- _ => by rewrite H0 end.
Qed.
End Calls.

(** ** Options *)

Definition Millisecond : Z := 10 ^ 6.
Definition Second : Z := 10 ^ 9.
(** A value or its default. *)
Definition positive_or (v d : Z) : Z := if v <=? 0 then d else v.

Module Tcp.
Record ClientOptions := mkOptions {
  Network : string; Address : string; ConnectTimeout : Z; ReadTimeout : Z; WriteTimeout : Z; PoolSize : Z; IdleTimeout : Z;
  RetryMax : Z; RetryWaitMin : Z; RetryWaitMax : Z }.
Definition defaultClientOptions : ClientOptions :=
  mkOptions "tcp" "" (5 * Second) (10 * Second) (5 * Second) 10 (90 * Second) 2 (100 * Millisecond) Second.
Definition withDefaults (o : ClientOptions) : ClientOptions :=
  let d := defaultClientOptions in
  mkOptions (if String.eqb (Network o) "" then Network d else Network o) (Address o)
    (positive_or (ConnectTimeout o) (ConnectTimeout d)) (positive_or (ReadTimeout o) (ReadTimeout d)) (positive_or (WriteTimeout o) (WriteTimeout d))
    (positive_or (PoolSize o) (PoolSize d)) (positive_or (IdleTimeout o) (IdleTimeout d)) (if RetryMax o <? 0 then RetryMax d else RetryMax o)
    (positive_or (RetryWaitMin o) (RetryWaitMin d)) (positive_or (RetryWaitMax o) (RetryWaitMax d)).
End Tcp.

Module Udp.
Record ClientOptions := mkOptions {
  Address : string; LocalAddress : string; ReadTimeout : Z; WriteTimeout : Z; BufferSize : Z; RetryMax : Z; RetryWaitMin : Z; RetryWaitMax : Z }.
Definition defaultClientOptions : ClientOptions := mkOptions "" "" (5 * Second) (2 * Second) 4096 2 (100 * Millisecond) Second.
Definition withDefaults (o : ClientOptions) : ClientOptions :=
  let d := defaultClientOptions in
  mkOptions (Address o) (LocalAddress o) (positive_or (ReadTimeout o) (ReadTimeout d)) (positive_or (WriteTimeout o) (WriteTimeout d))
    (positive_or (BufferSize o) (BufferSize d)) (if RetryMax o <? 0 then RetryMax d else RetryMax o)
    (positive_or (RetryWaitMin o) (RetryWaitMin d)) (positive_or (RetryWaitMax o) (RetryWaitMax d)).
End Udp.

Module Http.
Record ClientOptions := mkOptions {
  ConnectTimeout : Z; RequestTimeout : Z; MaxIdleConns : Z; IdleConnTimeout : Z; MaxIdlePerHost : Z; RetryMax : Z; RetryWaitMin : Z; RetryWaitMax : Z;
  FollowRedirect : bool; FollowRedirectSet : bool; EnableHTTP2 : bool; MaxResponseBodyBytes : Z; MaxResponseBodyBytesSet : bool }.
Definition defaultMaxResponseBodyBytes : Z := Z.shiftl 10 20.
Definition defaultClientOptions : ClientOptions :=
  mkOptions (5 * Second) (30 * Second) 100 (90 * Second) 10 3 (100 * Millisecond) (2 * Second) true false false defaultMaxResponseBodyBytes false.
Definition withDefaults (o : ClientOptions) : ClientOptions :=
  let d := defaultClientOptions in
  mkOptions (positive_or (ConnectTimeout o) (ConnectTimeout d)) (positive_or (RequestTimeout o) (RequestTimeout d))
    (positive_or (MaxIdleConns o) (MaxIdleConns d)) (positive_or (IdleConnTimeout o) (IdleConnTimeout d))
    (positive_or (MaxIdlePerHost o) (MaxIdlePerHost d)) (positive_or (RetryMax o) (RetryMax d))
    (positive_or (RetryWaitMin o) (RetryWaitMin d)) (positive_or (RetryWaitMax o) (RetryWaitMax d))
    (if FollowRedirectSet o then FollowRedirect o else FollowRedirect d) (FollowRedirectSet o) (EnableHTTP2 o)
    (if MaxResponseBodyBytesSet o then MaxResponseBodyBytes o else MaxResponseBodyBytes d) (MaxResponseBodyBytesSet o).
Definition set_redirect (b : bool) (o : ClientOptions) : ClientOptions :=
  mkOptions (ConnectTimeout o) (RequestTimeout o) (MaxIdleConns o) (IdleConnTimeout o) (MaxIdlePerHost o) (RetryMax o) (RetryWaitMin o) (RetryWaitMax o)
    b true (EnableHTTP2 o) (MaxResponseBodyBytes o) (MaxResponseBodyBytesSet o).
Definition WithRedirect : ClientOptions → ClientOptions := set_redirect true.
Definition WithNoRedirect : ClientOptions → ClientOptions := set_redirect false.
Definition WithMaxResponseBodyBytes (o : ClientOptions) (maxBytes : Z) : ClientOptions :=
  mkOptions (ConnectTimeout o) (RequestTimeout o) (MaxIdleConns o) (IdleConnTimeout o) (MaxIdlePerHost o) (RetryMax o) (RetryWaitMin o) (RetryWaitMax o)
    (FollowRedirect o) (FollowRedirectSet o) (EnableHTTP2 o) maxBytes true.
End Http.

Lemma positive_or_spec v d : 0 < d → 0 < positive_or v d ∧ (0 < v → positive_or v d = v).
Proof. unfold positive_or. destruct (Z.leb_spec v 0); lia. Qed.
Lemma positive_or_idemp v d : 0 < d → positive_or (positive_or v d) d = positive_or v d.
Proof. intros Hd. destruct (positive_or_spec v d Hd). by apply positive_or_spec. Qed.
(** The options a client runs with are in range and fixed points of the defaults: time-outs, waits, pool and
    buffer sizes are positive and the number of retries is not negative, so every loop above makes at least one
    attempt; an option that was set is kept, zero retries and no body limit included. *)
Theorem options_in_range t u h :
  (let o := Tcp.withDefaults t in Tcp.withDefaults o = o ∧ 0 ≤ Tcp.RetryMax o ∧ 0 < Tcp.PoolSize o ∧ 0 < Tcp.IdleTimeout o ∧ 0 < Tcp.WriteTimeout o ∧
    0 < Tcp.ReadTimeout o ∧ 0 < Tcp.RetryWaitMin o ∧ 0 < Tcp.RetryWaitMax o ∧ (Tcp.RetryMax t = 0 → Tcp.RetryMax o = 0)) ∧
  (let o := Udp.withDefaults u in Udp.withDefaults o = o ∧ 0 ≤ Udp.RetryMax o ∧ 0 < Udp.BufferSize o ∧ 0 < Udp.WriteTimeout o ∧ 0 < Udp.ReadTimeout o ∧
    0 < Udp.RetryWaitMin o ∧ 0 < Udp.RetryWaitMax o ∧ (Udp.RetryMax u = 0 → Udp.RetryMax o = 0)) ∧
  (let o := Http.withDefaults h in Http.withDefaults o = o ∧ 0 < Http.RetryMax o ∧ 0 < Http.RequestTimeout o ∧ 0 < Http.RetryWaitMin o ∧ 0 < Http.RetryWaitMax o ∧
    (∀ n, Http.MaxResponseBodyBytes (Http.withDefaults (Http.WithMaxResponseBodyBytes h n)) = n) ∧
    Http.FollowRedirect (Http.withDefaults (Http.WithNoRedirect h)) = false ∧ Http.FollowRedirect (Http.withDefaults (Http.WithRedirect h)) = true).
Proof.
  assert (0 < Second ∧ 0 < Millisecond) as [HS HM] by (unfold Second, Millisecond; lia).
  cbv zeta. split_and!; try (apply positive_or_spec; cbn; lia); try done; cbn.
  - unfold Tcp.withDefaults. cbn. rewrite !positive_or_idemp by lia. destruct (String.eqb (Tcp.Network t) "") eqn:E; cbn; rewrite ?E; f_equal.
    all: destruct (Z.ltb_spec (Tcp.RetryMax t) 0); [done|]; by rewrite (proj2 (Z.ltb_ge _ _)) by lia.
  - destruct (Z.ltb_spec (Tcp.RetryMax t) 0); lia.
  - by intros ->.
  - unfold Udp.withDefaults. cbn. rewrite !positive_or_idemp by lia. f_equal.
    destruct (Z.ltb_spec (Udp.RetryMax u) 0); [done|]. by rewrite (proj2 (Z.ltb_ge _ _)) by lia.
  - destruct (Z.ltb_spec (Udp.RetryMax u) 0); lia.
  - by intros ->.
  - unfold Http.withDefaults. cbn. rewrite !positive_or_idemp by lia. f_equal; by case_match.
Qed.

(** ** Concrete calls *)

(** Two refused connections, then an answer. *)
Definition demo_transport (i : Z) : nat * option http_response * option error :=
  if i <? 2 then (3%nat, None, Some (UrlError (OpError (Sentinel (ErrText "connection refused")))))
  else (5%nat, Some (mkResponse 200 (Some ([111; 107], None))), None).
Definition never (i : Z) : bool := false.
Definition demo_call := http_DoWithRetry demo_transport never (Sentinel Canceled) 3 (buildRequest "POST" (Some [1; 2; 3; 4; 5])).
Example retry_loops_agree_witness :
  demo_call = retry_ref (http_attempt "POST" (Some [1; 2; 3; 4; 5]) demo_transport) never (or_ctx (Sentinel Canceled)) 3 0.
Proof.
  exact (proj2 (proj2 (proj2 (retry_loops_agree (λ _, ([], tt, None)) tt (λ _, mkAttempt false None (0, None) ([], None) None) demo_transport never (Sentinel Canceled) 0 "POST"
    (Some [1; 2; 3; 4; 5]) 3 ltac:(lia))))).
Defined.
Example retry_bounded_witness :
  ∃ k, retry_ends (http_attempt "POST" (Some [1; 2; 3; 4; 5]) demo_transport) never (or_ctx (Sentinel Canceled)) 3 0 k demo_call.1 demo_call.2.
Proof.
  exact (proj2 (proj2 (proj2 (retry_bounded (λ _, ([], tt, None)) tt (λ _, mkAttempt false None (0, None) ([], None) None) demo_transport never (Sentinel Canceled) 0 "POST"
    (Some [1; 2; 3; 4; 5]) 3 ltac:(lia))))).
Defined.
Example http_no_duplicate_witness : sends demo_call.2 = 3%nat ∧ ∃ e, (demo_transport 1).2 = Some e ∧ Is e EOF = false.
Proof.
  split; [vm_compute; reflexivity|].
  pose proof (http_no_duplicate demo_transport never (Sentinel Canceled) "POST" (Some [1; 2; 3; 4; 5]) 3 ltac:(lia) ltac:(vm_compute; reflexivity)) as H.
  destruct (H 1%nat ltac:(vm_compute; lia)) as (e & _ & He & _ & Heof & _). exists e. exact (conj He Heof).
Defined.
Example http_body_whole_witness : HSent (Some [1; 2; 3; 4; 5]) ∈ demo_call.2 ∧ ∀ b, HSent b ∈ demo_call.2 → b = Some [1; 2; 3; 4; 5].
Proof.
  split; [left|]. intros b Hb. exact (http_body_whole demo_transport never (Sentinel Canceled) "POST" (Some [1; 2; 3; 4; 5]) 3 b ltac:(lia) Hb).
Defined.
(** A wait that the caller cuts short counts as a retry that is never made. *)
Example cancelled_retry_counted :
  tcp_DoWithRetry (λ i, ([mkEvent "send" 0 0], tt, Some (OpError OsDeadline))) (λ _, true) (Sentinel Canceled) 2 tt =
    (tt, Some (OpError OsDeadline), [mkEvent "send" 0 0; mkEvent "retry" 0 1]).
Proof. vm_compute. reflexivity. Qed.
(** The repository's own breaker, open: the call is refused, counted and not attempted. *)
Example breaker_refuses :
  let b := mkAt (Breaker.toOpen (Breaker.NewBreaker Breaker.defaultBreakerOptions 0) 0) 1 None in
  let '(_, c, tr, _, err) := tcp_SendReceive (λ i, ([mkEvent "send" 1 0], [], None)) never (Sentinel Canceled) 2 (Some b) (mkCounters 0 0 0 0) in
  (c, tr, err) = (mkCounters 1 0 1 0, [mkEvent "failed" 0 0], Some (Sentinel ErrCircuit)).
Proof. vm_compute. reflexivity. Qed.
