(* ===== verification/TcpPool.v ===== *)
(** * TcpPool: the connections of [tcpclient] ([tcpclient/pool.go], [withConn] and the three exchanges)

    A connection is a number, in the order of dialling.  Calls, their context watchers, the clock and
    [Close] are interleaved step by step; what holds the pool's mutex is one step, the receives of
    [get] and [close], which do not hold it, are steps of their own.  What a call does with its connection
    is any result, and the three exchanges are given separately over any answers of the socket.

    Shown: under every interleaving a connection is idle or used by one call, never both or twice,
    an idle one and one just handed out has not been closed, at most [PoolSize] are idle, none is
    lost ([tcp_pool_safe]); after [Close] and the end of the calls all are closed ([tcp_close_releases]);
    a line that goes back to the pool left no byte behind ([line_exact]).  [send_receive_never_pools]:
    [SendReceive] never returns its connection, whatever the peer does; [trim_strips_all]: more than
    one line ending is stripped. *)

From Stdlib Require Import ZArith Lia.
From stdpp Require Import base tactics numbers list strings relations.
From S2P Require Import Prelude NetRetry.

#[local] Open Scope string_scope.
#[local] Open Scope list_scope.
#[local] Open Scope Z_scope.

(** ** The exchanges *)

(** What the socket answers: the error of [SetWriteDeadline], the write, the error of [SetReadDeadline],
    and the reads in order, each with the bytes it returned. *)
Record socket := mkSocket { so_wd : option error; so_write : Z * option error; so_rd : option error; so_reads : list (list Z * option error) }.
(** The error of a call on a connection and whether the connection can be used again. *)
Definition outcome : Type := option error * bool.
Definition short_write : error := Sentinel (ErrText "tcpclient: short write").

(** The part the three exchanges share; [next] goes on after a complete write. *)
Definition write_then {A} (WriteTimeout : Z) (data : list Z) (s : socket) (zero : A) (next : list event → list event * A * outcome) : list event * A * outcome :=
  let write :=
    let '(n, err) := so_write s in
    let evs := [mkEvent "send" n 0] in
    match err with
    | Some e => (evs, zero, (Some e, true))
    | None => if n <? Z.of_nat (length data) then (evs, zero, (Some short_write, true)) else next evs
    end in
  if 0 <? WriteTimeout then match so_wd s with Some e => ([], zero, (Some e, true)) | None => write end else write.

Definition writeOnce (WriteTimeout : Z) (data : list Z) (s : socket) : list event * unit * outcome :=
  write_then WriteTimeout data s tt (λ evs, (evs, tt, (None, true))).

(** The loop of [readAllUntilEOF]; none while the socket has not answered. *)
Fixpoint readAllUntilEOF (reads : list (list Z * option error)) (out : list Z) : option (list Z * bool * option error) :=
  match reads with
  | [] => None
  | (buf, err) :: reads =>
      let out := out ++ buf in
      match err with
      | Some e => if Is e EOF then Some (out, true, None) else Some (out, false, Some e)
      | None => readAllUntilEOF reads out
      end
  end.
(** A read that is never answered ends with the time-out of the deadline or the context. *)
Definition unanswered : error := OpError OsDeadline.
Definition writeReadAll (WriteTimeout ReadTimeout : Z) (data : list Z) (s : socket) : list event * list Z * outcome :=
  write_then WriteTimeout data s [] (λ evs,
    let read :=
      let '(buf, eof, rErr) := default ([], false, Some unanswered) (readAllUntilEOF (so_reads s) []) in
      let evs := evs ++ [mkEvent "receive" (Z.of_nat (length buf)) 0] in
      match rErr with Some e => (evs, [], (Some e, true)) | None => (evs, buf, (None, negb eof)) end in
    if 0 <? ReadTimeout then match so_rd s with Some e => (evs, [], (Some e, true)) | None => read end else read).

(** [bufio.Reader.ReadString]: the bytes up to the newline, how many remain buffered, the error. *)
Fixpoint split_newline (bs : list Z) : option (list Z * list Z) :=
  match bs with
  | [] => None
  | b :: bs => if b =? 10 then Some ([b], bs) else match split_newline bs with Some (l, r) => Some (b :: l, r) | None => None end
  end.
Fixpoint ReadString (reads : list (list Z * option error)) (acc : list Z) : option (list Z * nat * option error) :=
  match reads with
  | [] => None
  | (buf, err) :: reads =>
      match split_newline buf with
      | Some (l, r) => Some (acc ++ l, length r, None)
      | None => match err with Some e => Some (acc ++ buf, 0%nat, Some e) | None => ReadString reads (acc ++ buf) end
      end
  end.
(** The loop that strips the last byte while it ends a line, on the bytes from the end. *)
Fixpoint trim_rev (rs : list Z) : list Z :=
  match rs with b :: rs' => if (b =? 10) || (b =? 13) then trim_rev rs' else rs | [] => [] end.
Definition trimNewline (s : list Z) : list Z := rev (trim_rev (rev s)).
Definition writeReadLine (WriteTimeout ReadTimeout : Z) (data : list Z) (s : socket) : list event * list Z * outcome :=
  write_then WriteTimeout data s [] (λ evs,
    let read :=
      let '(str, buffered, rErr) := default ([], 0%nat, Some unanswered) (ReadString (so_reads s) []) in
      let evs := evs ++ [mkEvent "receive" (Z.of_nat (length str)) 0] in
      let line := trimNewline str in
      match rErr with
      | Some e => (evs, line, (Some e, negb (Is e EOF)))
      | None => (evs, line, (None, negb (0 <? buffered)%nat))
      end in
    if 0 <? ReadTimeout then match so_rd s with Some e => (evs, [], (Some e, true)) | None => read end else read).

Lemma readAll_eof reads out buf eof : readAllUntilEOF reads out = Some (buf, eof, None) → eof = true.
Proof. revert out. induction reads as [|[b [e|]] reads IH]; intros out; cbn; [done| |apply IH]. destruct (Is e EOF); naive_solver. Qed.

(** [SendReceive] does not reuse connections.  A call of it that succeeds ended at the peer's end of stream,
    so its connection is closed: whatever the peer does, the exchange never leaves a connection for the pool. *)
Theorem send_receive_never_pools wt rt data s :
  let '(_, _, (err, poolable)) := writeReadAll wt rt data s in err = None → poolable = false.
Proof.
  unfold writeReadAll, write_then. destruct (so_write s) as [n [ew|]], (so_wd s), (so_rd s), (0 <? wt), (0 <? rt), (n <? Z.of_nat (length data)); try done.
  all: destruct (readAllUntilEOF (so_reads s) []) as [[[buf eof] [er|]]|] eqn:E; cbn; try done; by rewrite (readAll_eof _ _ _ _ E).
Qed.

(** ** Lines *)

Lemma split_newline_spec bs l r : split_newline bs = Some (l, r) → bs = l ++ r ∧ ∃ t, l = t ++ [10] ∧ 10 ∉ t.
Proof.
  revert l r. induction bs as [|b bs IH]; intros l r; cbn; [done|]. destruct (Z.eqb_spec b 10) as [->|Hb].
  { intros [= <- <-]. split; [done|]. exists []. split; [done|apply not_elem_of_nil]. }
  destruct (split_newline bs) as [[l' r']|]; [|done]. intros [= <- <-]. destruct (IH l' r' eq_refl) as (-> & t & -> & Ht).
  split; [done|]. exists (b :: t). split; [done|]. by apply not_elem_of_cons.
Qed.
Lemma split_newline_none bs : split_newline bs = None → 10 ∉ bs.
Proof.
  induction bs as [|b bs IH]; cbn; [intros _; apply not_elem_of_nil|]. destruct (Z.eqb_spec b 10); [done|].
  destruct (split_newline bs) as [[l r]|]; [done|]. intros _. apply not_elem_of_cons. auto.
Qed.
(** The bytes of the first [n] reads. *)
Definition taken (n : nat) (reads : list (list Z * option error)) : list Z := mjoin (fst <$> take n reads).
Lemma ReadString_spec reads acc str buffered : 10 ∉ acc → ReadString reads acc = Some (str, buffered, None) →
  ∃ n t rest, acc ++ taken n reads = str ++ rest ∧ length rest = buffered ∧ str = t ++ [10] ∧ 10 ∉ t.
Proof.
  revert acc. induction reads as [|[buf err] reads IH]; intros acc Hacc; cbn; [done|]. destruct (split_newline buf) as [[l r]|] eqn:E.
  - intros [= <- <-]. apply split_newline_spec in E as (-> & t & -> & Ht). exists 1%nat, (acc ++ t), r. cbn. rewrite take_0. cbn. rewrite app_nil_r, !app_assoc.
    split_and!; [done|done|done|]. rewrite elem_of_app. naive_solver.
  - apply split_newline_none in E. destruct err; [done|]. intros Hs. destruct (IH (acc ++ buf) ltac:(rewrite elem_of_app; naive_solver) Hs) as (n & t & rest & He & Hr & -> & Ht).
    exists (S n), t, rest. rewrite <- app_assoc in He. change (taken (S n) ((buf, None) :: reads)) with (buf ++ taken n reads). auto.
Qed.
(** A line that succeeds and leaves its connection reusable took exactly its bytes from the socket: what the
    reads returned is the line and its newline, nothing after it, and the caller gets it without its line ending. *)
Theorem line_exact wt rt data s evs line :
  writeReadLine wt rt data s = (evs, line, (None, true)) →
  ∃ n t, taken n (so_reads s) = t ++ [10] ∧ 10 ∉ t ∧ line = trimNewline t.
Proof.
  unfold writeReadLine, write_then. destruct (so_write s) as [n [ew|]], (so_wd s), (so_rd s), (0 <? wt), (0 <? rt), (n <? Z.of_nat (length data)); try done.
  all: destruct (ReadString (so_reads s) []) as [[[str buffered] [er|]]|] eqn:E; cbn; try done; intros [= _ <- Hb].
  all: apply ReadString_spec in E as (k & t & rest & He & Hr & -> & Ht); [|by apply not_elem_of_nil].
  all: exists k, t; cbn in He; destruct buffered; [|done]; apply nil_length_inv in Hr as ->; rewrite app_nil_r in He.
  all: split_and!; [done..|]; unfold trimNewline; by rewrite rev_unit.
Qed.
(** The line [ok] in two reads, on a connection that can be reused. *)
Definition demo_socket : socket := mkSocket None (4, None) None [([111], None); ([107; 13; 10], None)].
Example line_exact_witness :
  (writeReadLine 1 1 [1; 2; 3; 4] demo_socket).1.2 = [111; 107] ∧ ∃ n t, taken n (so_reads demo_socket) = t ++ [10].
Proof.
  split; [vm_compute; reflexivity|].
  destruct (line_exact 1 1 [1; 2; 3; 4] demo_socket [mkEvent "send" 4 0; mkEvent "receive" 4 0] [111; 107] ltac:(vm_compute; reflexivity)) as (n & t & H & _ & _).
  exists n, t. exact H.
Defined.
(** The comment strips one newline and one carriage return before it. *)
Example trim_strips_all : trimNewline [97; 13; 13; 10] = [97] ∧ trimNewline [97; 13] = [97].
Proof. vm_compute. auto. Qed.

(** ** The pool and its callers *)

Definition expired (idleTimeout now lastUsed : Z) : bool := if idleTimeout <=? 0 then false else idleTimeout <? now - lastUsed.

(** The error [withConn] returns for the one its call ended with. *)
Definition withConn_error (ctxErr : option error) (fnErr : error) : error :=
  match ctxErr with Some c => if Is fnErr ErrNetClosed then c else fnErr | None => fnErr end.

(** The watcher of a call: waiting, or past its select. *)
Inductive watcher := Watching | WStopped.
(** Where a call is: in the loop of [get]; dialling; in its exchange; waiting for its watcher with the result;
    at [put]; returned. *)
Inductive pc := CGet | CDial | CRun (c : nat) (w : watcher) | CJoin (c : nat) (w : watcher) (r : outcome) | CPut (c : nat) | CReturned (e : option error).
(** A call and [ctx.Err()] of its context. *)
Record call := mkCall { c_pc : pc; c_ctx : option error }.
Inductive closer := NotClosed | Draining | Drained.
(** [idle]: the channel, with the time of each [put]; [shut]: the connections that were closed, in order. *)
Record state := mkState { idle : list (nat * Z); p_closed : bool; dialled : nat; shut : list nat; active : Z; calls : list call; now : Z; closing : closer }.

Section Pool.
Context (PoolSize : nat) (idleTimeout : Z).

(** The put of a connection: under the mutex, so one step. *)
Definition put (y : state) (c : nat) : list (nat * Z) * list nat :=
  if p_closed y then (idle y, c :: shut y)
  else if (length (idle y) <? PoolSize)%nat then (idle y ++ [(c, now y)], shut y) else (idle y, c :: shut y).

Inductive step : state → state → Prop :=
| step_time i p d s a cs t cl t' : t ≤ t' → step (mkState i p d s a cs t cl) (mkState i p d s a cs t' cl)
| step_call i p d s a cs t cl ctx : step (mkState i p d s a cs t cl) (mkState i p d s a (cs ++ [mkCall CGet ctx]) t cl)
| step_cancel i p d s a cs1 pc cs2 t cl e :
    step (mkState i p d s a (cs1 ++ mkCall pc None :: cs2) t cl) (mkState i p d s a (cs1 ++ mkCall pc (Some e) :: cs2) t cl)
| step_evict c u i p d s a cs1 ctx cs2 t cl : expired idleTimeout t u = true →
    step (mkState ((c, u) :: i) p d s a (cs1 ++ mkCall CGet ctx :: cs2) t cl) (mkState i p d (c :: s) a (cs1 ++ mkCall CGet ctx :: cs2) t cl)
| step_reuse c u i p d s a cs1 ctx cs2 t cl : expired idleTimeout t u = false →
    step (mkState ((c, u) :: i) p d s a (cs1 ++ mkCall CGet ctx :: cs2) t cl) (mkState i p d s (a + 1) (cs1 ++ mkCall (CRun c Watching) ctx :: cs2) t cl)
| step_empty p d s a cs1 ctx cs2 t cl :
    step (mkState [] p d s a (cs1 ++ mkCall CGet ctx :: cs2) t cl) (mkState [] p d s a (cs1 ++ mkCall CDial ctx :: cs2) t cl)
| step_dial i p d s a cs1 ctx cs2 t cl :
    step (mkState i p d s a (cs1 ++ mkCall CDial ctx :: cs2) t cl) (mkState i p (S d) s (a + 1) (cs1 ++ mkCall (CRun d Watching) ctx :: cs2) t cl)
| step_dial_fails i p d s a cs1 ctx cs2 t cl e :
    step (mkState i p d s a (cs1 ++ mkCall CDial ctx :: cs2) t cl) (mkState i p d s a (cs1 ++ mkCall (CReturned (Some e)) ctx :: cs2) t cl)
| step_watch_run c i p d s a cs1 e cs2 t cl :
    step (mkState i p d s a (cs1 ++ mkCall (CRun c Watching) (Some e) :: cs2) t cl) (mkState i p d (c :: s) a (cs1 ++ mkCall (CRun c WStopped) (Some e) :: cs2) t cl)
| step_watch_join c r i p d s a cs1 e cs2 t cl :
    step (mkState i p d s a (cs1 ++ mkCall (CJoin c Watching r) (Some e) :: cs2) t cl) (mkState i p d (c :: s) a (cs1 ++ mkCall (CJoin c WStopped r) (Some e) :: cs2) t cl)
| step_watch_done c r i p d s a cs1 ctx cs2 t cl :
    step (mkState i p d s a (cs1 ++ mkCall (CJoin c Watching r) ctx :: cs2) t cl) (mkState i p d s a (cs1 ++ mkCall (CJoin c WStopped r) ctx :: cs2) t cl)
| step_fn c w r i p d s a cs1 ctx cs2 t cl :
    step (mkState i p d s a (cs1 ++ mkCall (CRun c w) ctx :: cs2) t cl) (mkState i p d s a (cs1 ++ mkCall (CJoin c w r) ctx :: cs2) t cl)
| step_failed c e b i p d s a cs1 ctx cs2 t cl :
    step (mkState i p d s a (cs1 ++ mkCall (CJoin c WStopped (Some e, b)) ctx :: cs2) t cl)
      (mkState i p d (c :: s) (a - 1) (cs1 ++ mkCall (CReturned (Some (withConn_error ctx e))) ctx :: cs2) t cl)
| step_one_shot c i p d s a cs1 ctx cs2 t cl :
    step (mkState i p d s a (cs1 ++ mkCall (CJoin c WStopped (None, false)) ctx :: cs2) t cl)
      (mkState i p d (c :: s) (a - 1) (cs1 ++ mkCall (CReturned None) ctx :: cs2) t cl)
| step_ctx_fired c e i p d s a cs1 cs2 t cl :
    step (mkState i p d s a (cs1 ++ mkCall (CJoin c WStopped (None, true)) (Some e) :: cs2) t cl)
      (mkState i p d (c :: s) (a - 1) (cs1 ++ mkCall (CReturned None) (Some e) :: cs2) t cl)
| step_ctx_fine c i p d s a cs1 cs2 t cl :
    step (mkState i p d s a (cs1 ++ mkCall (CJoin c WStopped (None, true)) None :: cs2) t cl) (mkState i p d s a (cs1 ++ mkCall (CPut c) None :: cs2) t cl)
| step_put c i p d s a cs1 ctx cs2 t cl i' s' : put (mkState i p d s a (cs1 ++ mkCall (CPut c) ctx :: cs2) t cl) c = (i', s') →
    step (mkState i p d s a (cs1 ++ mkCall (CPut c) ctx :: cs2) t cl) (mkState i' p d s' (a - 1) (cs1 ++ mkCall (CReturned None) ctx :: cs2) t cl)
| step_close i p d s a cs t : step (mkState i p d s a cs t NotClosed) (mkState i true d s a cs t Draining)
| step_drain c u i p d s a cs t : step (mkState ((c, u) :: i) p d s a cs t Draining) (mkState i p d (c :: s) a cs t Draining)
| step_drained p d s a cs t : step (mkState [] p d s a cs t Draining) (mkState [] p d s a cs t Drained).

Definition pool_start (t : Z) : state := mkState [] false 0 [] 0 [] t NotClosed.

(** ** Who has which connection *)

Definition uses (x : call) : option nat := match c_pc x with CRun c _ | CJoin c _ _ | CPut c => Some c | _ => None end.
Definition owned (y : state) : list nat := (fst <$> idle y) ++ omap uses (calls y).
(** A call whose watcher has not seen its context end has an open connection. *)
Definition call_open (shut : list nat) (x : call) : Prop :=
  match c_pc x with
  | CRun c w | CJoin c w _ => w = Watching ∨ c_ctx x = None → c ∉ shut
  | CPut c => c ∉ shut
  | _ => True
  end.
Record pool_ok (y : state) : Prop := mkPoolOk {
  owned_once : NoDup (owned y);
  owned_dialled : ∀ c, c ∈ owned y → (c < dialled y)%nat;
  none_lost : ∀ c, (c < dialled y)%nat → c ∈ owned y ∨ c ∈ shut y;
  shut_dialled : ∀ c, c ∈ shut y → (c < dialled y)%nat;
  idle_open : ∀ c u, (c, u) ∈ idle y → c ∉ shut y;
  calls_open : Forall (call_open (shut y)) (calls y);
  idle_bound : (length (idle y) ≤ PoolSize)%nat;
  active_exact : active y = Z.of_nat (length (omap uses (calls y)));
  close_flag : closing y ≠ NotClosed → p_closed y = true;
  close_empty : closing y = Drained → idle y = [] }.

Lemma call_open_shut c sh cs : Forall (call_open sh) cs → c ∉ omap uses cs → Forall (call_open (c :: sh)) cs.
Proof using.
  induction 1 as [|x cs Hx _ IH]; intros Hc; constructor.
  - destruct x as [[| |c' w|c' w r|c'|e] ctx]; cbn in *; try done; rewrite ?not_elem_of_cons in *; naive_solver.
  - apply IH. destruct x as [[| |c' w|c' w r|c'|e] ctx]; cbn in Hc; rewrite ?not_elem_of_cons in Hc; naive_solver.
Qed.
Lemma uses_app cs1 x cs2 : omap uses (cs1 ++ x :: cs2) = omap uses cs1 ++ option_list (uses x) ++ omap uses cs2.
Proof using. rewrite omap_app. cbn. by destruct (uses x). Qed.
Lemma owned_middle i cs1 c cs2 : i ++ omap uses cs1 ++ option_list (Some c) ++ omap uses cs2 ≡ₚ c :: (i ++ omap uses cs1 ++ omap uses cs2).
Proof using. rewrite (app_assoc i), (app_assoc i (omap uses cs1) (omap uses cs2)). symmetry. apply Permutation_middle. Qed.

Ltac pcbn := cbn [idle p_closed dialled shut active calls now closing] in *.
(** Only the call's place changes; its connection stays. *)
Lemma ok_same i p d s a cs1 x x' cs2 t cl : uses x' = uses x → (call_open s x → call_open s x') →
  pool_ok (mkState i p d s a (cs1 ++ x :: cs2) t cl) → pool_ok (mkState i p d s a (cs1 ++ x' :: cs2) t cl).
Proof using.
  intros Hu Hx [H1 H2 H3 H4 H5 H6 H7 H8 H9 H10]. unfold owned in *. pcbn. rewrite uses_app in *.
  split; unfold owned; pcbn; rewrite ?uses_app, ?Hu; try done. rewrite Forall_app, Forall_cons in *. naive_solver.
Qed.
(** The watcher closes the connection of its call. *)
Lemma ok_watch i p d s a cs1 x x' c cs2 t cl : uses x = Some c → uses x' = Some c → (∀ sh, call_open sh x') →
  pool_ok (mkState i p d s a (cs1 ++ x :: cs2) t cl) → pool_ok (mkState i p d (c :: s) a (cs1 ++ x' :: cs2) t cl).
Proof using.
  intros Hu Hu' Hx [H1 H2 H3 H4 H5 H6 H7 H8 H9 H10]. unfold owned in *. pcbn. rewrite uses_app, ?Hu in *.
  pose proof H1 as Hnd. rewrite owned_middle, NoDup_cons in Hnd. destruct Hnd as [Hc _]. rewrite !not_elem_of_app in Hc.
  split; unfold owned; pcbn; rewrite ?uses_app, ?Hu'; try done.
  - intros c' Hc'. destruct (H3 c' Hc'); [by left|]. right. by right.
  - intros c' [->|Hc']%elem_of_cons; [|by apply H4]. apply H2. rewrite owned_middle. left.
  - intros c' u Hin. rewrite not_elem_of_cons. split; [|by eapply H5]. intros ->. destruct Hc as [Hc _]. apply Hc. apply list_elem_of_fmap. by exists (c, u).
  - rewrite Forall_app, Forall_cons in *. destruct H6 as (Ha & _ & Hb). split_and!; [|apply Hx|]; apply call_open_shut; naive_solver.
Qed.
(** A call closes its connection and ends. *)
Lemma ok_drop i p d s a cs1 x x' c cs2 t cl : uses x = Some c → uses x' = None → (∀ sh, call_open sh x') →
  pool_ok (mkState i p d s a (cs1 ++ x :: cs2) t cl) → pool_ok (mkState i p d (c :: s) (a - 1) (cs1 ++ x' :: cs2) t cl).
Proof using.
  intros Hu Hu' Hx [H1 H2 H3 H4 H5 H6 H7 H8 H9 H10]. unfold owned in *. pcbn. rewrite uses_app, ?Hu in *.
  rewrite owned_middle, NoDup_cons in H1. destruct H1 as [Hc Hnd]. setoid_rewrite owned_middle in H2. setoid_rewrite owned_middle in H3.
  pose proof Hc as Hc'. rewrite !not_elem_of_app in Hc'.
  split; unfold owned; pcbn; rewrite ?uses_app, ?Hu'; try done.
  - intros c' Hin. apply H2. by right.
  - intros c' Hlt. destruct (H3 c' Hlt) as [[->|Hin]%elem_of_cons|Hin]; [right; left|by left|right; by right].
  - intros c' [->|Hin]%elem_of_cons; [apply H2; left|by apply H4].
  - intros c' u Hin. rewrite not_elem_of_cons. split; [|by eapply H5]. intros ->. destruct Hc' as [Hc' _]. apply Hc'. apply list_elem_of_fmap. by exists (c, u).
  - rewrite Forall_app, Forall_cons in *. destruct H6 as (Ha & _ & Hb). split_and!; [|apply Hx|]; apply call_open_shut; naive_solver.
  - rewrite !length_app in *. cbn in *. lia.
Qed.
(** A connection leaves the channel and is closed. *)
Lemma ok_evict c u i p d s a cs t cl : pool_ok (mkState ((c, u) :: i) p d s a cs t cl) → pool_ok (mkState i p d (c :: s) a cs t cl).
Proof using.
  intros [H1 H2 H3 H4 H5 H6 H7 H8 H9 H10]. unfold owned in *. pcbn. rewrite fmap_cons in *. cbn [fst app] in *. apply NoDup_cons in H1 as [Hc Hnd].
  pose proof Hc as Hc'. rewrite not_elem_of_app in Hc'. split; unfold owned; pcbn; try done.
  - intros c' Hin. apply H2. by right.
  - intros c' Hlt. destruct (H3 c' Hlt) as [[->|Hin]%elem_of_cons|Hin]; [right; left|by left|right; by right].
  - intros c' [->|Hin]%elem_of_cons; [apply H2; left|by apply H4].
  - intros c' u' Hin. rewrite not_elem_of_cons. split; [|eapply H5; by right]. intros ->. destruct Hc' as [Hc' _]. apply Hc'. apply list_elem_of_fmap. by exists (c, u').
  - apply call_open_shut; naive_solver.
  - cbn in H7. lia.
  - intros Hcl. by apply H10 in Hcl.
Qed.
(** A connection from the channel goes to a call. *)
Lemma ok_reuse c u i p d s a cs1 ctx cs2 t cl : pool_ok (mkState ((c, u) :: i) p d s a (cs1 ++ mkCall CGet ctx :: cs2) t cl) →
  pool_ok (mkState i p d s (a + 1) (cs1 ++ mkCall (CRun c Watching) ctx :: cs2) t cl).
Proof using.
  intros [H1 H2 H3 H4 H5 H6 H7 H8 H9 H10]. unfold owned in *. pcbn. rewrite uses_app, fmap_cons in *.
  assert ((i.*1 ++ omap uses (cs1 ++ mkCall (CRun c Watching) ctx :: cs2)) ≡ₚ (c, u).1 :: i.*1 ++ omap uses cs1 ++ option_list (uses (mkCall CGet ctx)) ++ omap uses cs2) as Hp.
  { rewrite uses_app. apply owned_middle. }
  split; unfold owned; pcbn; try done; try (by setoid_rewrite Hp).
  - intros c' u' Hin. eapply H5. by right.
  - rewrite Forall_app, Forall_cons in *. destruct H6 as (Ha & _ & Hb). split_and!; [done| |done]. intros _. eapply H5. left.
  - cbn in H7. lia.
  - rewrite uses_app, !length_app in *. cbn in *. lia.
  - intros Hcl. by apply H10 in Hcl.
Qed.
(** A new connection. *)
Lemma ok_dial i p d s a cs1 ctx cs2 t cl : pool_ok (mkState i p d s a (cs1 ++ mkCall CDial ctx :: cs2) t cl) →
  pool_ok (mkState i p (S d) s (a + 1) (cs1 ++ mkCall (CRun d Watching) ctx :: cs2) t cl).
Proof using.
  intros [H1 H2 H3 H4 H5 H6 H7 H8 H9 H10]. unfold owned in *. pcbn. rewrite uses_app in *.
  assert ((i.*1 ++ omap uses (cs1 ++ mkCall (CRun d Watching) ctx :: cs2)) ≡ₚ d :: i.*1 ++ omap uses cs1 ++ option_list (uses (mkCall CDial ctx)) ++ omap uses cs2) as Hp.
  { rewrite uses_app. apply owned_middle. }
  assert (d ∉ s) as Hd by (intros Hin; apply H4 in Hin; lia).
  split; unfold owned; pcbn; try done; try setoid_rewrite Hp.
  - apply NoDup_cons. split; [|done]. intros Hin. apply H2 in Hin. lia.
  - intros c [->|Hin]%elem_of_cons; [lia|]. apply H2 in Hin. lia.
  - intros c Hlt. destruct (decide (c = d)) as [->|]; [left; left|]. destruct (H3 c ltac:(lia)); [left; by right|by right].
  - intros c Hin. apply H4 in Hin. lia.
  - rewrite Forall_app, Forall_cons in *. destruct H6 as (Ha & _ & Hb). split_and!; [done|by intros _|done].
  - rewrite uses_app, !length_app in *. cbn in *. lia.
Qed.
(** A connection goes back to the channel. *)
Lemma ok_pooled i d s a cs1 c ctx cs2 t : (length i < PoolSize)%nat → pool_ok (mkState i false d s a (cs1 ++ mkCall (CPut c) ctx :: cs2) t NotClosed) →
  pool_ok (mkState (i ++ [(c, t)]) false d s (a - 1) (cs1 ++ mkCall (CReturned None) ctx :: cs2) t NotClosed).
Proof using.
  intros Hlt [H1 H2 H3 H4 H5 H6 H7 H8 H9 H10]. unfold owned in *. pcbn. rewrite uses_app in *.
  assert ((i ++ [(c, t)]).*1 ++ omap uses (cs1 ++ mkCall (CReturned None) ctx :: cs2) ≡ₚ i.*1 ++ omap uses cs1 ++ option_list (uses (mkCall (CPut c) ctx)) ++ omap uses cs2) as Hp.
  { rewrite uses_app. cbn [uses c_pc]. rewrite owned_middle, fmap_app. cbn. rewrite <- app_assoc. cbn. by rewrite <- Permutation_middle. }
  rewrite Forall_app, Forall_cons in H6. destruct H6 as (Ha & Hc & Hb).
  split; unfold owned; pcbn; try done; try (by setoid_rewrite Hp).
  - intros c' u' [Hin|Hin]%elem_of_app; [by eapply H5|]. apply list_elem_of_singleton in Hin as [= -> ->]. exact Hc.
  - rewrite Forall_app, Forall_cons. by split_and!.
  - rewrite length_app. cbn. lia.
  - rewrite uses_app, !length_app in *. cbn in *. lia.
Qed.

Lemma step_pool_ok y y' : pool_ok y → step y y' → pool_ok y'.
Proof using.
  intros Hok Hs. destruct Hs; try (by eapply ok_same; [| |exact Hok]; cbn; naive_solver); try (by eapply ok_watch; [| | |exact Hok]; cbn; naive_solver);
    try (by eapply ok_drop; [| | |exact Hok]); try (by eapply ok_evict); try (by eapply ok_reuse); try (by eapply ok_dial).
  - by destruct Hok.
  - destruct Hok as [H1 H2 H3 H4 H5 H6 H7 H8 H9 H10]. unfold owned in *. pcbn.
    split; unfold owned; pcbn; try done; rewrite ?omap_app; cbn; rewrite ?app_nil_r; try done. apply Forall_app. by repeat constructor.
  - eapply ok_same; [| |exact Hok]; [done|]. destruct pc0; cbn; naive_solver.
  - rename select (put _ _ = _) into Hput. unfold put in Hput. pcbn. destruct p; [simplify_eq; by eapply ok_drop; [| | |exact Hok]|].
    assert (cl = NotClosed) as -> by (destruct Hok as [_ _ _ _ _ _ _ _ H9 _]; cbn in H9; destruct cl; [done|by discriminate H9..]).
    destruct (Nat.ltb_spec (length i) PoolSize); simplify_eq; [by apply ok_pooled|by eapply ok_drop; [| | |exact Hok]].
  - destruct Hok as [H1 H2 H3 H4 H5 H6 H7 H8 H9 H10]. by split; unfold owned in *; pcbn.
  - destruct Hok as [H1 H2 H3 H4 H5 H6 H7 H8 H9 H10]. split; unfold owned in *; pcbn; try done. intros _. by apply H9.
Qed.
Lemma run_pool_ok t y : rtc step (pool_start t) y → pool_ok y.
Proof using.
  intros Hr. assert (pool_ok (pool_start t)) as H0.
  { split; unfold owned; cbn; try done; try lia; try constructor; intros c; intros; rename select (_ ∈ []) into Hin; by apply elem_of_nil in Hin. }
  revert H0. induction Hr as [|y1 y2 y3 Hs _ IH]; [done|]. intros H0. apply IH. by eapply step_pool_ok.
Qed.

(** C6: the pool under every interleaving of calls, their cancellations, the clock and [Close].  A connection is
    idle or used by one call, never both and never by two; an idle connection, and one a call just got, has not been
    closed, also when contexts end at any moment; at most [PoolSize] are idle; every connection that was
    dialled is idle, in use or closed; and the gauge counts the calls that use one. *)
Theorem tcp_pool_safe t y : rtc step (pool_start t) y →
  NoDup (owned y) ∧ (length (idle y) ≤ PoolSize)%nat ∧
  (∀ c u, (c, u) ∈ idle y → c ∉ shut y) ∧
  (∀ c ctx, mkCall (CRun c Watching) ctx ∈ calls y → c ∉ shut y) ∧
  (∀ c, (c < dialled y)%nat ↔ c ∈ owned y ∨ c ∈ shut y) ∧
  active y = Z.of_nat (length (omap uses (calls y))).
Proof using.
  intros Hr. destruct (run_pool_ok t y Hr) as [H1 H2 H3 H4 H5 H6 H7 H8 H9 H10]. split_and!; try done.
  - intros c ctx Hin. rewrite Forall_forall in H6. apply (H6 _ Hin). by left.
  - intros c. split; [apply H3|]. intros [Hc|Hc]; auto.
Qed.
(** [Close] leaves no connection behind.  Once its drain has ended nothing is idle, at any later time, and when
    the calls have returned every connection that was ever dialled has been closed. *)
Theorem tcp_close_releases t y : rtc step (pool_start t) y → closing y = Drained →
  idle y = [] ∧ (Forall (λ x, ∃ e, c_pc x = CReturned e) (calls y) → ∀ c, (c < dialled y)%nat → c ∈ shut y).
Proof using.
  intros Hr Hd. destruct (run_pool_ok t y Hr) as [H1 H2 H3 H4 H5 H6 H7 H8 H9 H10]. specialize (H10 Hd). split; [done|]. intros Hret c Hc.
  destruct (H3 c Hc) as [Hin|]; [|done]. unfold owned in Hin. rewrite H10 in Hin. cbn in Hin. exfalso.
  apply list_elem_of_omap in Hin as (x & Hx & Hu). rewrite Forall_forall in Hret. destruct (Hret x Hx) as [e He]. unfold uses in Hu. by rewrite He in Hu.
Qed.
End Pool.

(** One call that dials, exchanges a line and leaves its connection; then [Close]. *)
Definition demo_pooled : state := mkState [(0%nat, 5)] false 1 [] 0 [mkCall (CReturned None) None] 5 NotClosed.
Definition demo_drained : state := mkState [] true 1 [0%nat] 0 [mkCall (CReturned None) None] 5 Drained.
Lemma demo_pooled_reachable : rtc (step 1 90) (pool_start 5) demo_pooled.
Proof.
  eapply rtc_l; [apply (step_call 1 90 [] false 0 [] 0 [] 5 NotClosed None)|].
  eapply rtc_l; [apply (step_empty 1 90 false 0 [] 0 [] None [])|].
  eapply rtc_l; [apply (step_dial 1 90 [] false 0 [] 0 [] None [])|].
  eapply rtc_l; [apply (step_fn 1 90 0 Watching (None, true) [] false 1 [] 1 [] None [])|].
  eapply rtc_l; [apply (step_watch_done 1 90 0 (None, true) [] false 1 [] 1 [] None [])|].
  eapply rtc_l; [apply (step_ctx_fine 1 90 0 [] false 1 [] 1 [] [])|].
  eapply rtc_l; [apply (step_put 1 90 0 [] false 1 [] 1 [] None [] 5 NotClosed [(0%nat, 5)] []); reflexivity|].
  apply rtc_refl.
Qed.
Lemma demo_drained_reachable : rtc (step 1 90) (pool_start 5) demo_drained.
Proof.
  etrans; [exact demo_pooled_reachable|]. eapply rtc_l; [apply step_close|]. eapply rtc_l; [apply step_drain|].
  eapply rtc_l; [apply step_drained|]. apply rtc_refl.
Qed.
Example tcp_pool_safe_witness : owned demo_pooled = [0%nat] ∧ NoDup (owned demo_pooled) ∧ (length (idle demo_pooled) ≤ 1)%nat.
Proof.
  pose proof (tcp_pool_safe 1 90 5 demo_pooled demo_pooled_reachable) as H.
  split; [reflexivity|]. exact (conj (proj1 H) (proj1 (proj2 H))).
Defined.
Example tcp_close_releases_witness : 0%nat ∈ shut demo_drained.
Proof.
  refine (proj2 (tcp_close_releases 1 90 5 demo_drained demo_drained_reachable eq_refl) _ 0%nat (Nat.lt_0_succ 0)). repeat constructor. exists None. reflexivity.
Defined.
