(* ===== verification/UdpRead.v ===== *)
(** * UdpRead: the shared read deadline of [udpclient] ([readCtx], [ctxWatcher])

    All calls of a UDP client read from one socket, whose read deadline each call sets before it reads; a
    goroutine per read moves the deadline to the present when the call's context ends.  Calls, watchers,
    replies and the clock are interleaved.

    Shown: as long as no context ends, a read times out only after its full time-out, whatever other
    calls do ([udp_read_timely]).  [stale_watcher_times_out]: a watcher whose read has returned can
    still move the deadline, and then times out the read of another call, which has time left and a
    live context. *)

From Stdlib Require Import ZArith Lia.
From stdpp Require Import base tactics numbers list relations.
From S2P Require Import Prelude.

#[local] Open Scope list_scope.
#[local] Open Scope Z_scope.

(** Before the read; reading since a time; returned, with a time-out or a reply, having read from and until. *)
Inductive read_pc := RStart | RReading (from : Z) | RReturned (timed_out : bool) (from until : Z).
Inductive watching := NoWatcher | Waiting | Stopped.
(** A call, its watcher, and whether its context has ended. *)
Record reader := mkReader { r_pc : read_pc; r_watcher : watching; r_done : bool }.
(** The deadline of the socket, the calls, the clock. *)
Record socket := mkSocket { deadline : Z; readers : list reader; clock : Z }.

Section Readers.
Context (ReadTimeout : Z).

Inductive read_step : socket → socket → Prop :=
| rs_time d rs t t' : t ≤ t' → read_step (mkSocket d rs t) (mkSocket d rs t')
| rs_call d rs t : read_step (mkSocket d rs t) (mkSocket d (rs ++ [mkReader RStart NoWatcher false]) t)
| rs_cancel d rs1 p w b rs2 t : read_step (mkSocket d (rs1 ++ mkReader p w b :: rs2) t) (mkSocket d (rs1 ++ mkReader p w true :: rs2) t)
| rs_begin d rs1 b rs2 t :
    read_step (mkSocket d (rs1 ++ mkReader RStart NoWatcher b :: rs2) t) (mkSocket (t + ReadTimeout) (rs1 ++ mkReader (RReading t) Waiting b :: rs2) t)
| rs_reply d rs1 f w b rs2 t :
    read_step (mkSocket d (rs1 ++ mkReader (RReading f) w b :: rs2) t) (mkSocket d (rs1 ++ mkReader (RReturned false f t) w b :: rs2) t)
| rs_timeout d rs1 f w b rs2 t : d ≤ t →
    read_step (mkSocket d (rs1 ++ mkReader (RReading f) w b :: rs2) t) (mkSocket d (rs1 ++ mkReader (RReturned true f t) w b :: rs2) t)
| rs_fire d rs1 p rs2 t : read_step (mkSocket d (rs1 ++ mkReader p Waiting true :: rs2) t) (mkSocket t (rs1 ++ mkReader p Stopped true :: rs2) t)
| rs_done d rs1 o f u b rs2 t :
    read_step (mkSocket d (rs1 ++ mkReader (RReturned o f u) Waiting b :: rs2) t) (mkSocket d (rs1 ++ mkReader (RReturned o f u) Stopped b :: rs2) t).

(** Nothing has timed out early, and every read has its time ahead of it. *)
Definition timely (d : Z) (x : reader) : Prop :=
  match r_pc x with RStart => True | RReading f => f + ReadTimeout ≤ d | RReturned o f u => o = true → f + ReadTimeout ≤ u end.
(** A read began in the past. *)
Definition begun (t : Z) (x : reader) : Prop := match r_pc x with RReading f => f ≤ t | _ => True end.
Definition live (y : socket) : Prop := Forall (λ x, r_done x = false) (readers y).
Definition socket_ok (y : socket) : Prop :=
  Forall (begun (clock y)) (readers y) ∧ (live y → Forall (timely (deadline y)) (readers y)).

Lemma timely_later d d' x : d ≤ d' → timely d x → timely d' x.
Proof using. unfold timely. destruct (r_pc x); intros; auto with lia. Qed.
Lemma begun_later t t' x : t ≤ t' → begun t x → begun t' x.
Proof using. unfold begun. destruct (r_pc x); intros; auto with lia. Qed.
Lemma begun_timely t x : begun t x → timely (t + ReadTimeout) x ∨ ∃ o f u, r_pc x = RReturned o f u.
Proof using. unfold begun, timely. destruct (r_pc x); [by left|left; lia|right; eauto]. Qed.

Lemma read_step_ok y y' : socket_ok y → read_step y y' → socket_ok y'.
Proof using.
  intros [Hb Ht] Hs. unfold socket_ok, live in *. destruct Hs; cbn [readers clock deadline] in *; rewrite ?Forall_app, ?Forall_cons in *; cbn [r_done] in *.
  - split; [|done]. eapply Forall_impl; [exact Hb|]. intros x. by apply begun_later.
  - split; [by split_and!|]. intros (Hl & _ & _). split_and!; [by apply Ht|done|done].
  - split; [done|]. intros (_ & Hd & _). done.
  - destruct Hb as (Hb1 & _ & Hb2). split; [split_and!; [done|unfold begun; cbn; lia|done]|]. intros (Hl1 & Hl & Hl2). destruct (Ht ltac:(auto)) as (Ht1 & _ & Ht2).
    assert (∀ x, begun t x → timely d x → timely (t + ReadTimeout) x) as Hmove.
    { intros x Hx Hx'. destruct (begun_timely t x Hx) as [|(o & f & u & E)]; [done|]. unfold timely in *. by rewrite E in *. }
    split_and!; [|unfold timely; cbn; lia|]; rewrite Forall_forall in *; intros x Hx; apply Hmove; auto.
  - destruct Hb as (Hb1 & _ & Hb2). split; [by split_and!|]. intros Hl. destruct (Ht Hl) as (Ht1 & _ & Ht2). by split_and!.
  - destruct Hb as (Hb1 & _ & Hb2). split; [by split_and!|]. intros Hl. destruct (Ht Hl) as (Ht1 & Ht0 & Ht2). split_and!; [done| |done].
    unfold timely in *. cbn in *. lia.
  - split; [|by intros (_ & ? & _)]. destruct Hb as (? & ? & ?). by split_and!.
  - destruct Hb as (Hb1 & ? & Hb2). split; [by split_and!|]. intros Hl. destruct (Ht Hl) as (Ht1 & Ht0 & Ht2). by split_and!.
Qed.

(** While no context has ended, a read that timed out has waited its full time-out, and a read that still waits
    has the rest of its time: concurrent calls, which move the common deadline, never cut a read short. *)
Theorem udp_read_timely d t y : rtc read_step (mkSocket d [] t) y → Forall (λ x, r_done x = false) (readers y) →
  (∀ x f u, x ∈ readers y → r_pc x = RReturned true f u → f + ReadTimeout ≤ u) ∧
  (∀ x f, x ∈ readers y → r_pc x = RReading f → f + ReadTimeout ≤ deadline y).
Proof using.
  intros Hr Hl. assert (socket_ok y) as [_ Ht].
  { assert (socket_ok (mkSocket d [] t)) as H0 by (split; [constructor|intros _; constructor]). revert H0. clear Hl.
    induction Hr as [|y1 y2 y3 Hs _ IH]; [done|]. intros H0. apply IH. by eapply read_step_ok. }
  specialize (Ht Hl). rewrite Forall_forall in Ht. split; [intros x f u Hx E|intros x f Hx E]; specialize (Ht x Hx); unfold timely in Ht; rewrite E in Ht; auto.
Qed.
End Readers.

(** A reply to the first of two reads; the second waits. *)
Definition demo_reading : socket := mkSocket 6 [mkReader (RReturned false 0 1) Waiting false; mkReader (RReading 1) Waiting false] 1.
Lemma demo_reading_reachable : rtc (read_step 5) (mkSocket 0 [] 0) demo_reading.
Proof.
  eapply rtc_l; [apply rs_call|]. eapply rtc_l; [apply (rs_begin 5 0 [] false [])|]. eapply rtc_l; [apply (rs_time 5 _ _ 0 1); lia|].
  eapply rtc_l; [apply (rs_reply 5 _ [] 0 Waiting false [])|]. eapply rtc_l; [apply rs_call|].
  eapply rtc_l; [apply (rs_begin 5 _ [_] false [])|]. apply rtc_refl.
Qed.
Example udp_read_timely_witness : 1 + 5 ≤ deadline demo_reading.
Proof.
  refine (proj2 (udp_read_timely 5 0 0 demo_reading demo_reading_reachable _) (mkReader (RReading 1) Waiting false) 1 _ eq_refl).
  - repeat constructor.
  - right. left.
Defined.
(** The first call's context ends after its read has returned; its watcher, which has not stopped yet, moves the
    deadline; the second read times out at once, with its own context alive. *)
Example stale_watcher_times_out :
  rtc (read_step 5) demo_reading (mkSocket 1 [mkReader (RReturned false 0 1) Stopped true; mkReader (RReturned true 1 1) Waiting false] 1).
Proof.
  eapply rtc_l; [apply (rs_cancel 5 _ [] _ _ false)|]. eapply rtc_l; [apply (rs_fire 5 _ [])|].
  eapply rtc_l; [apply (rs_timeout 5 1 [_] 1 Waiting false []); lia|]. apply rtc_refl.
Qed.
