(* ===== verification/Fanout.v ===== *)
(** * Fanout: broadcasting to subscribers ([fanout/fanout.go])

    Publishers, subscribers, [Unsubscribe] and [Close] are interleaved.  A subscription's channel is a
    bounded queue; a publisher holds the read lock from its first look at [closed] to its return and
    sends channel by channel in any order of the map; what runs under the write lock is one step,
    possible when no publisher holds the read lock.  Channels are closed after the lock is released, each
    in a step of its own, and a send to or a close of a closed channel is the [panicked] state.  A
    message is the number of its publication.

    Shown: no interleaving panics ([fanout_no_panic]); every subscriber receives in order what was put into its
    channel, each publication at most once, and a publisher's result is the number of channels that got its
    message ([fanout_delivers]); once [Close] has begun, publishers cannot keep it from the lock
    ([fanout_close_progress], for contexts that never end too), and what it leaves is closed ([fanout_closes_all]).
    [subscribe_after_close]: a subscription made after [Close] is never closed. *)

From Stdlib Require Import ZArith Lia.
From stdpp Require Import base tactics numbers list relations.
From S2P Require Import Prelude.

#[local] Open Scope list_scope.
#[local] Open Scope nat_scope.

(** A channel: what is buffered, whether it is closed; what the subscriber took, and what was sent, in order. *)
Record chan := mkChan { buf : list nat; chan_closed : bool; taken : list nat; sent : list nat }.
Definition new_chan : chan := mkChan [] false [] [].
Definition push (p : nat) (c : chan) : chan := mkChan (buf c ++ [p]) (chan_closed c) (taken c) (sent c ++ [p]).
Definition close_chan (c : chan) : chan := mkChan (buf c) true (taken c) (sent c).
Definition take_one (x : nat) (rest : list nat) (c : chan) : chan := mkChan rest (chan_closed c) (taken c ++ [x]) (sent c).

(** Where a call is.  A publisher that holds the read lock: its publication, whether it blocks, the channels
    still to serve, how many it has served.  [Unsubscribe] and [Close]: before the lock, and closing channels. *)
Inductive pc :=
| PStart (blocking : bool) | PSending (p : nat) (blocking : bool) (todo : list nat) (delivered : nat)
| PReturned (p : option nat) (delivered : nat) (complete : bool)
| UStart (id : nat) | UClosing (id : nat) | UReturned
| CStart | CSignal | CLocking | CClosing (todo : list nat) | CReturned.

(** Every channel ever made, the subscriptions in the map, [closed], [done], the two counters, the calls. *)
Record state := mkState {
  chans : list chan; subs : list nat; closed : bool; done_closed : bool; published : nat; dropped : nat; calls : list pc; panicked : bool }.

Definition sending (x : pc) : bool := match x with PSending _ _ _ _ => true | _ => false end.
Definition unlocked (cs : list pc) : Prop := Forall (λ x, sending x = false) cs.

Section Fanout.
(** [ctx_ends p]: the context of the blocking publication [p] may end. *)
Context (bufferSize : nat) (ctx_ends : nat → Prop).

Inductive step : state → state → Prop :=
| st_call cs ss cl dn pu dr ts pk x : (∃ b, x = PStart b) ∨ (∃ id, x = UStart id) ∨ x = CStart →
    step (mkState cs ss cl dn pu dr ts pk) (mkState cs ss cl dn pu dr (ts ++ [x]) pk)
| st_subscribe cs ss cl dn pu dr ts pk : unlocked ts →
    step (mkState cs ss cl dn pu dr ts pk) (mkState (cs ++ [new_chan]) (ss ++ [length cs]) cl dn pu dr ts pk)
| st_receive cs ss cl dn pu dr ts pk i c x rest : cs !! i = Some c → buf c = x :: rest →
    step (mkState cs ss cl dn pu dr ts pk) (mkState (<[i := take_one x rest c]> cs) ss cl dn pu dr ts pk)
| st_publish_closed cs ss dn pu dr ts1 b ts2 pk :
    step (mkState cs ss true dn pu dr (ts1 ++ PStart b :: ts2) pk) (mkState cs ss true dn pu dr (ts1 ++ PReturned None 0 (negb b) :: ts2) pk)
| st_publish cs ss dn pu dr ts1 b ts2 pk todo : todo ≡ₚ ss →
    step (mkState cs ss false dn pu dr (ts1 ++ PStart b :: ts2) pk) (mkState cs ss false dn (S pu) dr (ts1 ++ PSending pu b todo 0 :: ts2) pk)
| st_send cs ss cl dn pu dr ts1 p b i todo d ts2 pk c : cs !! i = Some c → chan_closed c = false → length (buf c) < bufferSize →
    step (mkState cs ss cl dn pu dr (ts1 ++ PSending p b (i :: todo) d :: ts2) pk)
      (mkState (<[i := push p c]> cs) ss cl dn pu dr (ts1 ++ PSending p b todo (S d) :: ts2) pk)
| st_send_panics cs ss cl dn pu dr ts1 p b i todo d ts2 pk c : cs !! i = Some c → chan_closed c = true →
    step (mkState cs ss cl dn pu dr (ts1 ++ PSending p b (i :: todo) d :: ts2) pk)
      (mkState cs ss cl dn pu dr (ts1 ++ PSending p b (i :: todo) d :: ts2) true)
| st_drop cs ss cl dn pu dr ts1 p i todo d ts2 pk c : cs !! i = Some c → chan_closed c = false → bufferSize ≤ length (buf c) →
    step (mkState cs ss cl dn pu dr (ts1 ++ PSending p false (i :: todo) d :: ts2) pk)
      (mkState cs ss cl dn pu (S dr) (ts1 ++ PSending p false todo d :: ts2) pk)
| st_ctx_done cs ss cl dn pu dr ts1 p i todo d ts2 pk : ctx_ends p →
    step (mkState cs ss cl dn pu dr (ts1 ++ PSending p true (i :: todo) d :: ts2) pk) (mkState cs ss cl dn pu dr (ts1 ++ PReturned (Some p) d false :: ts2) pk)
| st_abort cs ss cl pu dr ts1 p i todo d ts2 pk :
    step (mkState cs ss cl true pu dr (ts1 ++ PSending p true (i :: todo) d :: ts2) pk) (mkState cs ss cl true pu dr (ts1 ++ PReturned (Some p) d false :: ts2) pk)
| st_served cs ss cl dn pu dr ts1 p b d ts2 pk :
    step (mkState cs ss cl dn pu dr (ts1 ++ PSending p b [] d :: ts2) pk) (mkState cs ss cl dn pu dr (ts1 ++ PReturned (Some p) d true :: ts2) pk)
| st_unsubscribe cs ss1 id ss2 cl dn pu dr ts1 ts2 pk : unlocked (ts1 ++ ts2) →
    step (mkState cs (ss1 ++ id :: ss2) cl dn pu dr (ts1 ++ UStart id :: ts2) pk) (mkState cs (ss1 ++ ss2) cl dn pu dr (ts1 ++ UClosing id :: ts2) pk)
| st_unsubscribe_absent cs ss id cl dn pu dr ts1 ts2 pk : unlocked (ts1 ++ ts2) → id ∉ ss →
    step (mkState cs ss cl dn pu dr (ts1 ++ UStart id :: ts2) pk) (mkState cs ss cl dn pu dr (ts1 ++ UReturned :: ts2) pk)
| st_unsubscribe_close cs ss id cl dn pu dr ts1 ts2 pk c : cs !! id = Some c →
    step (mkState cs ss cl dn pu dr (ts1 ++ UClosing id :: ts2) pk)
      (mkState (<[id := close_chan c]> cs) ss cl dn pu dr (ts1 ++ UReturned :: ts2) (pk || chan_closed c))
| st_close_again cs ss dn pu dr ts1 ts2 pk :
    step (mkState cs ss true dn pu dr (ts1 ++ CStart :: ts2) pk) (mkState cs ss true dn pu dr (ts1 ++ CReturned :: ts2) pk)
| st_close cs ss dn pu dr ts1 ts2 pk :
    step (mkState cs ss false dn pu dr (ts1 ++ CStart :: ts2) pk) (mkState cs ss true dn pu dr (ts1 ++ CSignal :: ts2) pk)
| st_close_done cs ss cl dn pu dr ts1 ts2 pk :
    step (mkState cs ss cl dn pu dr (ts1 ++ CSignal :: ts2) pk) (mkState cs ss cl true pu dr (ts1 ++ CLocking :: ts2) (pk || dn))
| st_close_lock cs ss cl dn pu dr ts1 ts2 pk todo : unlocked (ts1 ++ ts2) → todo ≡ₚ ss →
    step (mkState cs ss cl dn pu dr (ts1 ++ CLocking :: ts2) pk) (mkState cs [] cl dn pu dr (ts1 ++ CClosing todo :: ts2) pk)
| st_close_one cs ss cl dn pu dr ts1 id todo ts2 pk c : cs !! id = Some c →
    step (mkState cs ss cl dn pu dr (ts1 ++ CClosing (id :: todo) :: ts2) pk)
      (mkState (<[id := close_chan c]> cs) ss cl dn pu dr (ts1 ++ CClosing todo :: ts2) (pk || chan_closed c))
| st_close_end cs ss cl dn pu dr ts1 ts2 pk :
    step (mkState cs ss cl dn pu dr (ts1 ++ CClosing [] :: ts2) pk) (mkState cs ss cl dn pu dr (ts1 ++ CReturned :: ts2) pk).

Definition start : state := mkState [] [] false false 0 0 [] false.

(** ** Who closes what *)

Definition pending (x : pc) : list nat := match x with UClosing id => [id] | CClosing todo => todo | _ => [] end.
Definition held (ts : list pc) : list nat := mjoin (pending <$> ts).
Definition signalling (x : pc) : nat := match x with CSignal => 1 | _ => 0 end.
Definition signals (ts : list pc) : nat := sum_list (signalling <$> ts).
Lemma held_app ts1 x ts2 : held (ts1 ++ x :: ts2) = held ts1 ++ pending x ++ held ts2.
Proof using. unfold held. by rewrite fmap_app, join_app. Qed.
Lemma signals_app ts1 x ts2 : signals (ts1 ++ x :: ts2) = signals ts1 + signalling x + signals ts2.
Proof using. unfold signals. induction ts1 as [|y ts1 IH]; cbn in *; lia. Qed.

(** The channels a publisher still has to serve are subscribed. *)
Definition serves (ss : list nat) (x : pc) : Prop := match x with PSending _ _ todo _ => NoDup todo ∧ todo ⊆ ss | _ => True end.
(** Exactly the subscribed channels and those being closed are open, and each of them is there once. *)
Record closing_ok (y : state) : Prop := mkClosing {
  open_once : NoDup (subs y ++ held (calls y));
  owned_open : ∀ i, i ∈ subs y ++ held (calls y) → ∃ c, chans y !! i = Some c ∧ chan_closed c = false;
  open_owned : ∀ i c, chans y !! i = Some c → chan_closed c = false → i ∈ subs y ++ held (calls y);
  all_serve : Forall (serves (subs y)) (calls y);
  signal_once : signals (calls y) + (if done_closed y then 1 else 0) ≤ (if closed y then 1 else 0);
  fine : panicked y = false }.

Lemma unlocked_serves ss ss' ts : unlocked ts → Forall (serves ss) ts → Forall (serves ss') ts.
Proof using. unfold unlocked. intros Hu _. eapply Forall_impl; [exact Hu|]. by intros []. Qed.
Ltac scbn := cbn [chans subs closed done_closed published dropped calls panicked] in *.

(** A call moves on without touching what is open. *)
Lemma closing_move cs ss cl dn pu dr ts1 x x' ts2 pu' dr' : pending x' = pending x → signalling x' = signalling x → (serves ss x → serves ss x') →
  closing_ok (mkState cs ss cl dn pu dr (ts1 ++ x :: ts2) false) → closing_ok (mkState cs ss cl dn pu' dr' (ts1 ++ x' :: ts2) false).
Proof using.
  clear ctx_ends. intros Hp Hs Hv [H1 H2 H3 H4 H5 H6]. scbn. rewrite ?held_app, ?signals_app, ?Forall_app, ?Forall_cons in *.
  split; scbn; rewrite ?held_app, ?signals_app, ?Hp, ?Hs, ?Forall_app, ?Forall_cons; try done. naive_solver.
Qed.
(** A channel changes and stays as open as it was. *)
Lemma closing_chan cs ss cl dn pu dr ts i c c' : cs !! i = Some c → chan_closed c' = chan_closed c →
  closing_ok (mkState cs ss cl dn pu dr ts false) → closing_ok (mkState (<[i := c']> cs) ss cl dn pu dr ts false).
Proof using.
  intros Hi Hc [H1 H2 H3 H4 H5 H6]. scbn. split; scbn; try done.
  - intros j Hj. destruct (H2 j Hj) as (cj & Ej & Hoj). destruct (decide (i = j)) as [<-|].
    + exists c'. simplify_eq. rewrite list_lookup_insert_eq by (by eapply lookup_lt_Some). by rewrite Hc.
    + exists cj. by rewrite list_lookup_insert_ne.
  - intros j cj Ej Hoj. destruct (decide (i = j)) as [<-|].
    + rewrite list_lookup_insert_eq in Ej by (by eapply lookup_lt_Some). simplify_eq. eapply H3; [done|]. by rewrite <- Hc.
    + rewrite list_lookup_insert_ne in Ej by done. by eapply H3.
Qed.
(** A channel that a call was to close is closed. *)
Lemma closing_close cs ss cl dn pu dr ts1 x x' id ts2 c : cs !! id = Some c → pending x = id :: pending x' → signalling x' = signalling x → serves ss x' →
  closing_ok (mkState cs ss cl dn pu dr (ts1 ++ x :: ts2) false) →
  closing_ok (mkState (<[id := close_chan c]> cs) ss cl dn pu dr (ts1 ++ x' :: ts2) (false || chan_closed c)).
Proof using.
  clear ctx_ends. intros Hi Hp Hs Hv [H1 H2 H3 H4 H5 H6]. scbn. rewrite ?held_app, ?signals_app, ?Forall_app, ?Forall_cons, Hp in *.
  assert (ss ++ held ts1 ++ (id :: pending x') ++ held ts2 ≡ₚ id :: (ss ++ held ts1 ++ pending x' ++ held ts2)) as Hperm.
  { rewrite (app_assoc ss), (app_assoc ss (held ts1) (pending x' ++ _)). symmetry. apply Permutation_middle. }
  rewrite Hperm in H1. setoid_rewrite Hperm in H2. setoid_rewrite Hperm in H3. apply NoDup_cons in H1 as [Hid Hnd].
  destruct (H2 id ltac:(left)) as (c0 & E0 & Hopen). simplify_eq. rewrite Hopen.
  split; scbn; rewrite ?held_app, ?signals_app, ?Hs, ?Forall_app, ?Forall_cons; try done; [| |naive_solver].
  - intros j Hj. destruct (decide (id = j)) as [->|]; [done|]. destruct (H2 j ltac:(by right)) as (cj & Ej & Hoj). exists cj. by rewrite list_lookup_insert_ne.
  - intros j cj Ej Hoj. destruct (decide (id = j)) as [<-|].
    + rewrite list_lookup_insert_eq in Ej by (by eapply lookup_lt_Some). by simplify_eq.
    + rewrite list_lookup_insert_ne in Ej by done. specialize (H3 j cj Ej Hoj). by apply elem_of_cons in H3 as [->|].
Qed.
(** Subscriptions leave the map for a call that will close them. *)
Lemma closing_remove cs ss ss' cl dn pu dr ts1 x x' ts2 : unlocked (ts1 ++ ts2) → ss ≡ₚ ss' ++ pending x' → pending x = [] → signalling x' = signalling x → sending x' = false →
  closing_ok (mkState cs ss cl dn pu dr (ts1 ++ x :: ts2) false) → closing_ok (mkState cs ss' cl dn pu dr (ts1 ++ x' :: ts2) false).
Proof using.
  intros Hu Hss Hp Hs Hv [H1 H2 H3 H4 H5 H6]. scbn. rewrite ?held_app, ?signals_app, ?Forall_app, ?Forall_cons, Hp in *.
  assert (ss ++ held ts1 ++ [] ++ held ts2 ≡ₚ ss' ++ held ts1 ++ pending x' ++ held ts2) as Hperm.
  { rewrite Hss. cbn. rewrite <- app_assoc. apply Permutation_app_head. rewrite !app_assoc. apply Permutation_app_tail, Permutation_app_comm. }
  rewrite Hperm in H1. setoid_rewrite Hperm in H2. setoid_rewrite Hperm in H3. unfold unlocked in Hu. rewrite Forall_app in Hu. destruct Hu as [Hu1 Hu2].
  split; scbn; rewrite ?held_app, ?signals_app, ?Hs, ?Forall_app, ?Forall_cons; try done.
  split_and!; [by eapply unlocked_serves; [|apply H4]|by destruct x'|by eapply unlocked_serves; [|apply H4]].
Qed.

Lemma closing_step y y' : closing_ok y → step y y' → closing_ok y'.
Proof using.
  intros Hok Hs. assert (panicked y = false) as Hpk by apply Hok. destruct Hs; cbn [panicked] in Hpk; subst.
  - rename select (_ ∨ _) into Hx. assert (pending x = [] ∧ signalling x = 0 ∧ serves ss x) as (Hp & Hsg & Hsv) by (destruct Hx as [[b ->]|[[id ->]| ->]]; done).
    assert (held (ts ++ [x]) = held ts ∧ signals (ts ++ [x]) = signals ts) as [Eh Es].
    { rewrite held_app, signals_app, Hp, Hsg. unfold held, signals. cbn. rewrite app_nil_r. split; [done|lia]. }
    destruct Hok as [H1 H2 H3 H4 H5 H6]. scbn. split; scbn; rewrite ?Eh, ?Es; try done. apply Forall_app. by repeat constructor.
  - rename select (unlocked _) into Hu. destruct Hok as [H1 H2 H3 H4 H5 H6]. scbn.
    assert ((ss ++ [length cs]) ++ held ts ≡ₚ length cs :: (ss ++ held ts)) as Hperm by (rewrite <- app_assoc; symmetry; apply Permutation_middle).
    split; scbn; try done; try setoid_rewrite Hperm.
    + apply NoDup_cons. split; [|done]. intros Hin. destruct (H2 _ Hin) as (c & Ec & _). apply lookup_lt_Some in Ec. lia.
    + intros i [->|Hi]%elem_of_cons; [exists new_chan; by rewrite lookup_app_r, Nat.sub_diag by lia|].
      destruct (H2 i Hi) as (c & Ec & Hc). exists c. split; [by apply lookup_app_l_Some|done].
    + intros i c Ei Hc. destruct (decide (i = length cs)) as [->|]; [left|]. right. apply (H3 i c); [|done].
      apply lookup_snoc_Some in Ei as [[_ ?]|[-> _]]; [done|lia].
    + by eapply unlocked_serves.
  - by eapply closing_chan; [done| |exact Hok].
  - by eapply closing_move; [| | |exact Hok].
  - eapply closing_move; [| | |exact Hok]; [done|done|]. intros _. destruct Hok as [H1 _ _ _ _ _]. scbn. apply NoDup_app in H1 as [H1 _].
    rename select (_ ≡ₚ _) into Hp. split; [by rewrite Hp|]. intros j Hj. by rewrite <- Hp.
  - eapply closing_chan; [done|done|]. eapply closing_move; [| | |exact Hok]; [done|done|]. intros [Hn Hsub]. apply NoDup_cons in Hn as [_ Hn]. split; [done|].
    intros j Hj. apply Hsub. by right.
  - exfalso. destruct Hok as [_ H2 _ H4 _ _]. scbn. rewrite Forall_app, Forall_cons in H4. destruct H4 as (_ & [_ Hsub] & _).
    destruct (H2 i) as (c' & E' & Ho'); [apply elem_of_app; left; apply Hsub; left|]. congruence.
  - eapply closing_move; [| | |exact Hok]; [done|done|]. intros [Hn Hsub]. apply NoDup_cons in Hn as [_ Hn]. split; [done|]. intros j Hj. apply Hsub. by right.
  - by eapply closing_move; [| | |exact Hok].
  - by eapply closing_move; [| | |exact Hok].
  - by eapply closing_move; [| | |exact Hok].
  - eapply closing_remove; [done| | | | |exact Hok]; try done. cbn. rewrite <- app_assoc. apply Permutation_app_head, Permutation_cons_append.
  - by eapply closing_move; [| | |exact Hok].
  - by eapply closing_close; [done| | | |exact Hok].
  - by eapply closing_move; [| | |exact Hok].
  - destruct Hok as [H1 H2 H3 H4 H5 H6]. scbn. rewrite ?held_app, ?signals_app, ?Forall_app, ?Forall_cons in *.
    split; scbn; rewrite ?held_app, ?signals_app, ?Forall_app, ?Forall_cons; try done. destruct dn; cbn in *; lia.
  - destruct Hok as [H1 H2 H3 H4 H5 H6]. scbn. rewrite ?held_app, ?signals_app, ?Forall_app, ?Forall_cons in *. cbn in H5. destruct dn; [destruct cl; lia|].
    split; scbn; rewrite ?held_app, ?signals_app, ?Forall_app, ?Forall_cons; try done. cbn. destruct cl; lia.
  - by eapply closing_remove; [done| | | | |exact Hok].
  - by eapply closing_close; [done| | | |exact Hok].
  - by eapply closing_move; [| | |exact Hok].
Qed.
Lemma closing_run y : rtc step start y → closing_ok y.
Proof using.
  intros Hr. assert (closing_ok start) as H0.
  { split; cbn; [apply NoDup_nil_2|intros i Hi; by apply elem_of_nil in Hi|done|constructor|lia|done]. }
  revert H0. induction Hr as [|y1 y2 y3 Hs _ IH]; [done|]. intros H0. apply IH. by eapply closing_step.
Qed.

(** C8: no interleaving of publishers, subscribers, [Unsubscribe], [Cancel] and [Close] sends to a closed channel or
    closes one twice; a subscribed channel is open. *)
Theorem fanout_no_panic y : rtc step start y →
  panicked y = false ∧ NoDup (subs y) ∧ ∀ i, i ∈ subs y → ∃ c, chans y !! i = Some c ∧ chan_closed c = false.
Proof using.
  intros Hr. destruct (closing_run y Hr) as [H1 H2 _ _ _ H6]. apply NoDup_app in H1 as [H1 _]. split_and!; [done..|].
  intros i Hi. apply H2. apply elem_of_app. by left.
Qed.
(** What is not subscribed gets closed.  A channel that is not in the map, and that no [Unsubscribe] or [Close] is about
    to close, is closed, so that its subscriber's loop over it ends: when all calls have returned and the map is
    empty, every subscription ever made is closed. *)
Theorem fanout_closes_all y i c : rtc step start y → chans y !! i = Some c → i ∉ subs y → Forall (λ x, pending x = []) (calls y) → chan_closed c = true.
Proof using.
  intros Hr Hc Hi Hp. destruct (closing_run y Hr) as [_ _ H3 _ _ _]. destruct (chan_closed c) eqn:E; [done|]. exfalso.
  apply Hi. specialize (H3 i c Hc E). apply elem_of_app in H3 as [|H3]; [done|]. exfalso. clear -Hp H3.
  unfold held in H3. induction Hp as [|x ts Hx _ IH]; cbn in H3; [by apply elem_of_nil in H3|]. rewrite Hx in H3. auto.
Qed.

(** ** What is delivered *)

Definition got (p : nat) (cs : list chan) : nat := length (filter (λ c, p ∈ sent c) cs).
Definition chan_ok (pu : nat) (c : chan) : Prop :=
  taken c ++ buf c = sent c ∧ length (buf c) ≤ bufferSize ∧ NoDup (sent c) ∧ ∀ p, p ∈ sent c → p < pu.
Definition publication (x : pc) : option nat := match x with PSending p _ _ _ => Some p | PReturned p _ _ => p | _ => None end.
(** A publisher has counted the channels that have its message, and those it still has to serve do not. *)
Definition counts (cs : list chan) (x : pc) : Prop :=
  match x with
  | PSending p _ todo d => d = got p cs ∧ ∀ i c, i ∈ todo → cs !! i = Some c → p ∉ sent c
  | PReturned (Some p) d _ => d = got p cs
  | PReturned None d _ => d = 0
  | _ => True
  end.
Record delivery_ok (y : state) : Prop := mkDelivery {
  chans_ok : Forall (chan_ok (published y)) (chans y);
  publications : NoDup (omap publication (calls y));
  publications_past : Forall (λ p, p < published y) (omap publication (calls y));
  all_count : Forall (counts (chans y)) (calls y) }.

Lemma publications_app ts1 x ts2 : omap publication (ts1 ++ x :: ts2) = omap publication ts1 ++ option_list (publication x) ++ omap publication ts2.
Proof using. rewrite omap_app. cbn. by destruct (publication x). Qed.
Lemma got_insert p i c c' cs : cs !! i = Some c → (p ∈ sent c' ↔ p ∈ sent c) → got p (<[i := c']> cs) = got p cs.
Proof using.
  intros Hi Hp. unfold got. rewrite <- (take_drop_middle cs i c Hi) at 2. rewrite insert_take_drop by (by eapply lookup_lt_Some).
  rewrite !filter_app, !filter_cons, !length_app. repeat case_decide; naive_solver.
Qed.
Lemma got_push p i c cs : cs !! i = Some c → p ∉ sent c → got p (<[i := push p c]> cs) = S (got p cs).
Proof using.
  intros Hi Hp. unfold got. rewrite <- (take_drop_middle cs i c Hi) at 2. rewrite insert_take_drop by (by eapply lookup_lt_Some).
  rewrite !filter_app, !filter_cons, !length_app. rewrite (decide_False _ _ Hp), decide_True by (cbn; apply elem_of_app; right; left). cbn. lia.
Qed.
(** A change of a channel that keeps what was sent of other publications. *)
Lemma counts_insert cs i c c' x : cs !! i = Some c → (∀ p, publication x = Some p → p ∈ sent c' ↔ p ∈ sent c) → counts cs x → counts (<[i := c']> cs) x.
Proof using.
  intros Hi Hp Hx. assert (∀ p, publication x = Some p → got p (<[i := c']> cs) = got p cs) as Hg by (intros p Ep; by eapply got_insert, Hp).
  destruct x as [b|p b todo d|[p|] d ok|id|id| | | | |l|]; cbn in *; try done.
  - destruct Hx as [-> Hx]. rewrite Hg by done. split; [done|]. intros j cj Hj Ej. destruct (decide (i = j)) as [<-|].
    + rewrite list_lookup_insert_eq in Ej by (by eapply lookup_lt_Some). simplify_eq. rewrite Hp by done. by eapply Hx.
    + rewrite list_lookup_insert_ne in Ej by done. by eapply Hx.
  - by rewrite Hg.
Qed.
Lemma chan_ok_mono pu pu' c : pu ≤ pu' → chan_ok pu c → chan_ok pu' c.
Proof using. intros Hle (H1 & H2 & H3 & H4). split_and!; [done..|]. intros p Hp. specialize (H4 p Hp). lia. Qed.

Lemma delivery_move cs ss ss' cl cl' dn dn' pu dr dr' ts1 x x' ts2 pk pk' : publication x' = publication x → (counts cs x → counts cs x') →
  delivery_ok (mkState cs ss cl dn pu dr (ts1 ++ x :: ts2) pk) → delivery_ok (mkState cs ss' cl' dn' pu dr' (ts1 ++ x' :: ts2) pk').
Proof using.
  clear ctx_ends. intros Hp Hc [H1 H2 H3 H4]. scbn. rewrite ?publications_app, ?Forall_app, ?Forall_cons in *.
  split; scbn; rewrite ?publications_app, ?Hp, ?Forall_app, ?Forall_cons; try done. naive_solver.
Qed.
Lemma delivery_chan cs ss cl dn pu dr ts pk pk' i c c' : cs !! i = Some c → sent c' = sent c → chan_ok pu c' →
  delivery_ok (mkState cs ss cl dn pu dr ts pk) → delivery_ok (mkState (<[i := c']> cs) ss cl dn pu dr ts pk').
Proof using.
  intros Hi Hs Hok [H1 H2 H3 H4]. scbn. split; scbn; try done; [by apply Forall_insert|].
  eapply Forall_impl; [exact H4|]. intros x. apply (counts_insert _ _ c); [done|]. intros p _. by rewrite Hs.
Qed.
Lemma delivery_send cs ss cl dn pu dr ts1 p b i todo d ts2 pk c : cs !! i = Some c → length (buf c) < bufferSize → i ∉ todo →
  delivery_ok (mkState cs ss cl dn pu dr (ts1 ++ PSending p b (i :: todo) d :: ts2) pk) →
  delivery_ok (mkState (<[i := push p c]> cs) ss cl dn pu dr (ts1 ++ PSending p b todo (S d) :: ts2) pk).
Proof using.
  clear ctx_ends. intros Hi Hlen Hnot [H1 H2 H3 H4]. scbn. rewrite publications_app in *. cbn [publication option_list] in *. rewrite Forall_app, Forall_cons in H4.
  destruct H4 as (Ha & [-> Hx] & Hb). assert (p ∉ sent c) as Hp by (apply (Hx i); [left|done]).
  assert (p < pu) as Hlt. { rewrite !Forall_app in H3. destruct H3 as (_ & H3 & _). by apply Forall_inv in H3. }
  assert (∀ x, x ∈ ts1 ++ ts2 → publication x ≠ Some p) as Hothers.
  { intros x Hin Ep. apply NoDup_app in H2 as (_ & H21 & H2). apply NoDup_app in H2 as (_ & H22 & _). cbn in *. apply elem_of_app in Hin as [Hin|Hin].
    - apply (H21 p); [apply list_elem_of_omap; eauto|left].
    - apply (H22 p); [left|apply list_elem_of_omap; eauto]. }
  assert (∀ x, x ∈ ts1 ++ ts2 → counts cs x → counts (<[i := push p c]> cs) x) as Hkeep.
  { intros x Hin. apply (counts_insert _ _ c); [done|]. intros q Eq. cbn. rewrite elem_of_app, list_elem_of_singleton. specialize (Hothers x Hin). naive_solver. }
  split; scbn; rewrite ?publications_app; try done.
  - apply Forall_insert; [done|]. rewrite Forall_lookup in H1. destruct (H1 i c Hi) as (E1 & E2 & E3 & E4). split_and!; cbn.
    + by rewrite app_assoc, E1.
    + rewrite length_app. cbn. lia.
    + apply NoDup_app. split_and!; [done| |apply NoDup_singleton]. intros q Hq Hq'. apply list_elem_of_singleton in Hq' as ->. done.
    + intros q [Hq|Hq]%elem_of_app; [auto|]. by apply list_elem_of_singleton in Hq as ->.
  - rewrite Forall_app, Forall_cons. split_and!.
    + rewrite Forall_forall in *. intros x Hin. apply Hkeep; [apply elem_of_app; by left|auto].
    + cbn. rewrite (got_push _ _ c) by done. split; [done|]. intros j cj Hj Ej. destruct (decide (i = j)) as [->|]; [done|].
      rewrite list_lookup_insert_ne in Ej by done. apply (Hx j); [by right|done].
    + rewrite Forall_forall in *. intros x Hin. apply Hkeep; [apply elem_of_app; by right|auto].
Qed.
Lemma counts_snoc cs x : counts cs x → counts (cs ++ [new_chan]) x.
Proof using.
  assert (∀ p, got p (cs ++ [new_chan]) = got p cs) as Hg.
  { intros p. unfold got. rewrite filter_app, length_app, filter_cons, decide_False by apply not_elem_of_nil. cbn. lia. }
  destruct x as [b|p b todo d|[p|] d ok|id|id| | | | |l|]; cbn; rewrite ?Hg; try done. intros [-> Hx]. split; [done|].
  intros i c Hi Ei. apply lookup_snoc_Some in Ei as [[_ Ei]|[_ <-]]; [by eapply Hx|apply not_elem_of_nil].
Qed.
Lemma got_fresh pu cs : Forall (chan_ok pu) cs → got pu cs = 0.
Proof using.
  unfold got. induction 1 as [|c cs (_ & _ & _ & Hc) _ IH]; [done|]. rewrite filter_cons, decide_False; [done|]. intros Hin. specialize (Hc _ Hin). lia.
Qed.

Lemma delivery_step y y' : closing_ok y → delivery_ok y → step y y' → delivery_ok y'.
Proof using.
  intros Hcl Hok Hs. destruct Hs; try (by eapply delivery_move; [| |exact Hok]).
  - rename select (_ ∨ _) into Hx. destruct Hok as [H1 H2 H3 H4]. scbn.
    assert (publication x = None ∧ counts cs x) as [Hp Hc] by (destruct Hx as [[b ->]|[[id ->]| ->]]; done).
    split; scbn; rewrite ?publications_app, ?Hp, ?app_nil_r; cbn; rewrite ?app_nil_r; try done. apply Forall_app. by repeat constructor.
  - destruct Hok as [H1 H2 H3 H4]. scbn. split; scbn; try done.
    + apply Forall_app. split; [done|]. apply Forall_singleton. split_and!; cbn; [done|lia|apply NoDup_nil_2|]. intros p Hp. by apply elem_of_nil in Hp.
    + eapply Forall_impl; [exact H4|]. intros x. apply counts_snoc.
  - assert (chan_ok pu c) as (E1 & E2 & E3 & E4) by (destruct Hok as [H1 _ _ _]; scbn; rewrite Forall_lookup in H1; by eapply H1).
    rename select (buf c = _) into Eb. rewrite Eb in *. eapply delivery_chan; [done| | |exact Hok]; [done|]. split_and!; cbn in *; [|lia|done|done]. by rewrite <- app_assoc.
  - destruct Hok as [H1 H2 H3 H4]. scbn. rewrite ?publications_app, ?Forall_app, ?Forall_cons in *. cbn [publication option_list] in *.
    assert (pu ∉ omap publication ts1 ++ omap publication ts2) as Hfresh.
    { intros Hin. assert (pu < pu) as Hlt; [|lia]. destruct H3 as (Ha & _ & Hb). rewrite Forall_forall in Ha, Hb. apply elem_of_app in Hin as [Hin|Hin]; auto. }
    split; scbn; rewrite ?publications_app, ?Forall_app, ?Forall_cons; cbn [publication option_list].
    + eapply Forall_impl; [exact H1|]. intros c. apply chan_ok_mono. lia.
    + cbn in *. apply NoDup_Permutation_proper with (pu :: omap publication ts1 ++ omap publication ts2); [by symmetry; apply Permutation_middle|]. by apply NoDup_cons.
    + destruct H3 as (Ha & _ & Hb). split_and!; [|repeat constructor|]; eapply Forall_impl; (exact Ha || exact Hb || (cbn; lia)).
    + destruct H4 as (Ha & _ & Hb). split_and!; [done| |done]. split; [symmetry; by apply got_fresh|].
      intros j cj _ Ej Hin. rewrite Forall_lookup in H1. destruct (H1 j cj Ej) as (_ & _ & _ & Hlt). specialize (Hlt _ Hin). lia.
  - apply delivery_send; try done. destruct Hcl as [_ _ _ H4 _ _]. scbn. rewrite Forall_app, Forall_cons in H4. destruct H4 as (_ & [Hn _] & _). by apply NoDup_cons in Hn as [Hn _].
  - eapply delivery_move; [| |exact Hok]; [done|]. intros [-> Hx]. split; [done|]. intros j cj Hj. apply Hx. by right.
  - by eapply delivery_move; [| |exact Hok]; [|intros [-> _]].
  - by eapply delivery_move; [| |exact Hok]; [|intros [-> _]].
  - by eapply delivery_move; [| |exact Hok]; [|intros [-> _]].
  - eapply (delivery_chan cs ss cl dn pu dr _ pk); [done|done| |by eapply delivery_move; [| |exact Hok]].
    destruct Hok as [H1 _ _ _]. scbn. rewrite Forall_lookup in H1. change (chan_ok pu c). by eapply H1.
  - eapply (delivery_chan cs ss cl dn pu dr _ pk); [done|done| |by eapply delivery_move; [| |exact Hok]].
    destruct Hok as [H1 _ _ _]. scbn. rewrite Forall_lookup in H1. change (chan_ok pu c). by eapply H1.
Qed.
Lemma delivery_run y : rtc step start y → delivery_ok y.
Proof using.
  intros Hr. assert (closing_ok start ∧ delivery_ok start) as H0.
  { split; [by apply closing_run|]. split; cbn; constructor. }
  assert (∀ y, closing_ok y ∧ delivery_ok y → ∀ y', step y y' → closing_ok y' ∧ delivery_ok y') as Hstep.
  { intros y1 [Hc Hd] y2 Hs. split; [by eapply closing_step|by eapply delivery_step]. }
  revert H0. induction Hr as [|y1 y2 y3 Hs _ IH]; [naive_solver|]. intros H0. apply IH. by eapply Hstep.
Qed.

(** Delivery.  At every moment of every interleaving, what a subscriber has taken followed by what is buffered
    for it is what was sent to it, in order, each publication at most once, and at most [bufferSize] are buffered; and a
    publisher that has returned reported exactly the number of subscribers its message was sent to. *)
Theorem fanout_delivers y : rtc step start y →
  (∀ i c, chans y !! i = Some c → taken c ++ buf c = sent c ∧ NoDup (sent c) ∧ length (buf c) ≤ bufferSize) ∧
  (∀ p d ok, PReturned (Some p) d ok ∈ calls y → d = got p (chans y)).
Proof using.
  intros Hr. destruct (delivery_run y Hr) as [H1 _ _ H4]. split.
  - intros i c Hi. rewrite Forall_lookup in H1. by destruct (H1 i c Hi) as (? & ? & ? & _).
  - intros p d ok Hin. rewrite Forall_forall in H4. by apply (H4 _ Hin).
Qed.

(** ** [Close] gets the lock *)

(** What the publishers that hold the read lock have left to do. *)
Definition todo_of (x : pc) : nat := match x with PSending _ _ todo _ => S (length todo) | _ => 0 end.
Definition load (ts : list pc) : nat := sum_list (todo_of <$> ts).
Lemma fan_load_app ts1 ts2 : load (ts1 ++ ts2) = load ts1 + load ts2.
Proof using. unfold load. induction ts1 as [|x ts1 IH]; cbn in *; lia. Qed.
Lemma fan_load_cons x ts : load (x :: ts) = todo_of x + load ts.
Proof using. done. Qed.
Lemma load_unlocked ts : load ts = 0 ↔ unlocked ts.
Proof using.
  unfold unlocked. induction ts as [|x ts IH]; [done|]. rewrite fan_load_cons, Forall_cons, <-IH. destruct x; cbn; split; intros; try lia; naive_solver lia.
Qed.

(** A replaced call: the others are where they were. *)
Lemma replaced ts1 (x x' : pc) ts2 k : (ts1 ++ x' :: ts2) !! k ≠ (ts1 ++ x :: ts2) !! k → k = length ts1.
Proof using.
  intros H. destruct (decide (k = length ts1)) as [|Hne]; [done|]. destruct H. destruct (decide (k < length ts1)).
  - by rewrite !lookup_app_l.
  - rewrite !lookup_app_r by lia. destruct (k - length ts1) eqn:E; [lia|done].
Qed.

Definition drains (ts ts' : list pc) : Prop :=
  load ts' ≤ load ts ∧ ∀ k x, ts !! k = Some x → sending x = true → ts' !! k ≠ Some x → load ts' < load ts.
Lemma drains_refl ts : drains ts ts.
Proof using. split; [lia|]. intros k x Hx _ []. done. Qed.
Lemma drains_replace ts1 x x' ts2 : todo_of x' ≤ todo_of x → (sending x = true → todo_of x' < todo_of x) → drains (ts1 ++ x :: ts2) (ts1 ++ x' :: ts2).
Proof using.
  intros Hle Hlt. split; [rewrite !fan_load_app, !fan_load_cons; lia|]. intros k y Hy Hs Hne. rewrite <-Hy in Hne. apply replaced in Hne as ->.
  rewrite lookup_app_r, Nat.sub_diag in Hy by lia. cbn in Hy. simplify_eq. specialize (Hlt Hs). rewrite !fan_load_app, !fan_load_cons. lia.
Qed.

(** A publisher that holds the read lock moves on its own once [done] is closed. *)
Lemma publisher_moves cs ss cl pu dr ts1 p b todo d ts2 pk : closing_ok (mkState cs ss cl true pu dr (ts1 ++ PSending p b todo d :: ts2) pk) →
  ∃ cs' dr' x', step (mkState cs ss cl true pu dr (ts1 ++ PSending p b todo d :: ts2) pk) (mkState cs' ss cl true pu dr' (ts1 ++ x' :: ts2) pk) ∧
    taken <$> cs' = taken <$> cs ∧ todo_of x' < S (length todo).
Proof using.
  intros Hok. destruct todo as [|i todo].
  { exists cs, dr, (PReturned (Some p) d true). split_and!; [apply st_served|done|cbn; lia]. }
  destruct b.
  { exists cs, dr, (PReturned (Some p) d false). split_and!; [apply st_abort|done|cbn; lia]. }
  assert (∃ c, cs !! i = Some c ∧ chan_closed c = false) as (c & Hi & Hc).
  { destruct Hok as [_ H2 _ H4 _ _]. scbn. rewrite Forall_app, Forall_cons in H4. destruct H4 as (_ & [_ Hsub] & _). apply H2, elem_of_app. left. apply Hsub. left. }
  destruct (decide (length (buf c) < bufferSize)) as [Hlt|Hge].
  - exists (<[i := push p c]> cs), dr, (PSending p false todo (S d)). split_and!; [by apply st_send| |cbn; lia].
    rewrite list_fmap_insert. apply list_insert_id. rewrite list_lookup_fmap, Hi. done.
  - exists cs, (S dr), (PSending p false todo d). split_and!; [|done|cbn; lia]. apply (st_drop _ _ _ _ _ _ _ _ _ _ _ _ _ c); [done|done|lia].
Qed.

(** With [closed] up no step gives a publisher more to do. *)
Lemma step_drains y y' : step y y' → closed y = true → drains (calls y) (calls y').
Proof using.
  destruct 1; scbn; intros Hcl; try done; try apply drains_refl; try (apply drains_replace; cbn; intros; lia); try (apply drains_replace; cbn; [lia|done]).
  split.
  - rename select (_ ∨ _) into Hx. rewrite fan_load_app. destruct Hx as [[b ->]|[[id ->]| ->]]; cbn; lia.
  - intros k z Hz _ Hne. destruct Hne. by apply lookup_app_l_Some.
Qed.

(** C31: publishers cannot keep [Close] from the lock.  Once it has closed [done], in every reachable state: each publisher that holds
    the read lock can itself take a step at once, without a subscriber reading and without its context ending, and then has less to do;
    no step of any call gives the publishers more to do, and every step one of them takes leaves them less; and when
    nothing is left to do the read lock is free.  So the publishers take no more than [load] steps before [Close] can lock. *)
Theorem fanout_close_progress y : rtc step start y → done_closed y = true →
  (∀ k x, calls y !! k = Some x → sending x = true → ∃ y' x', step y y' ∧ calls y' = <[k := x']> (calls y) ∧
    taken <$> chans y' = taken <$> chans y ∧ load (calls y') < load (calls y)) ∧
  (∀ y', step y y' → done_closed y' = true ∧ load (calls y') ≤ load (calls y) ∧
    ∀ k x, calls y !! k = Some x → sending x = true → calls y' !! k ≠ Some x → load (calls y') < load (calls y)) ∧
  (load (calls y) = 0 ↔ unlocked (calls y)).
Proof using.
  intros Hr Hd. pose proof (closing_run y Hr) as Hok. split_and!.
  - intros k x Hk Hx. apply list_elem_of_split_length in Hk as (ts1 & ts2 & Ets & ->). destruct y as [cs ss cl dn pu dr ts pk]. scbn. subst ts dn.
    destruct x as [|p b todo d| | | | | | | | |]; try done. destruct (publisher_moves cs ss cl pu dr ts1 p b todo d ts2 pk Hok) as (cs' & dr' & x' & Hs & Ht & Hlt).
    exists (mkState cs' ss cl true pu dr' (ts1 ++ x' :: ts2) pk), x'. split_and!; [done|scbn; by rewrite insert_app_r_alt, Nat.sub_diag by lia|done|].
    scbn. rewrite !fan_load_app, !fan_load_cons. cbn [todo_of]. lia.
  - intros y' Hs. assert (closed y = true) as Hcl by (destruct Hok as [_ _ _ _ H _]; rewrite Hd in H; destruct (closed y); [done|lia]).
    split; [by destruct Hs|]. by apply step_drains.
  - apply load_unlocked.
Qed.
End Fanout.

(** Contexts that never end. *)
Definition no_ctx (p : nat) : Prop := False.

(** One subscriber with room for one message; a blocking publisher waits for it and [Close] for the lock. *)
Definition full_chan : chan := mkChan [0] false [] [0].
Definition demo_waiting : state :=
  mkState [full_chan] [0] true true 2 0 [PReturned (Some 0) 1 true; PSending 1 true [0] 0; CLocking] false.
Lemma demo_waiting_reachable : rtc (step 1 no_ctx) start demo_waiting.
Proof.
  eapply rtc_l; [apply st_subscribe; constructor|].
  eapply rtc_l; [apply (st_call 1 no_ctx _ _ _ _ _ _ _ _ (PStart true)); eauto|].
  eapply rtc_l; [apply (st_publish 1 no_ctx _ _ _ _ _ [] true [] _ [0]); reflexivity|].
  eapply rtc_l; [apply (st_send 1 no_ctx _ _ _ _ _ _ [] 0 true 0 [] 0 [] false new_chan); [done|done|cbn; lia]|].
  eapply rtc_l; [apply (st_served 1 no_ctx _ _ _ _ _ _ [] 0 true 1 [])|].
  eapply rtc_l; [apply (st_call 1 no_ctx _ _ _ _ _ _ _ _ (PStart true)); eauto|].
  eapply rtc_l; [apply (st_publish 1 no_ctx _ _ _ _ _ [_] true [] _ [0]); reflexivity|].
  eapply rtc_l; [apply (st_call 1 no_ctx _ _ _ _ _ _ _ _ CStart); eauto|].
  eapply rtc_l; [apply (st_close 1 no_ctx _ _ _ _ _ [_; _] [])|].
  eapply rtc_l; [apply (st_close_done 1 no_ctx _ _ _ _ _ _ [_; _] [])|]. apply rtc_refl.
Qed.
Definition demo_closed : state :=
  mkState [close_chan full_chan] [] true true 2 0 [PReturned (Some 0) 1 true; PReturned (Some 1) 0 false; CReturned] false.
Lemma fanout_closed_reachable : rtc (step 1 no_ctx) start demo_closed.
Proof.
  etrans; [exact demo_waiting_reachable|].
  eapply rtc_l; [apply (st_abort 1 no_ctx _ _ _ _ _ [_] 1 0 [] 0 [_])|].
  eapply rtc_l; [apply (st_close_lock 1 no_ctx _ _ _ _ _ _ [_; _] [] _ [0]); [by repeat constructor|reflexivity]|].
  eapply rtc_l; [apply (st_close_one 1 no_ctx _ _ _ _ _ _ [_; _] 0 [] [] _ full_chan); done|].
  eapply rtc_l; [apply (st_close_end 1 no_ctx _ _ _ _ _ _ [_; _] [])|]. apply rtc_refl.
Qed.
Example fanout_no_panic_witness : panicked demo_waiting = false ∧ NoDup (subs demo_waiting).
Proof. pose proof (fanout_no_panic 1 no_ctx demo_waiting demo_waiting_reachable) as H. exact (conj (proj1 H) (proj1 (proj2 H))). Defined.
Example fanout_delivers_witness : got 0 (chans demo_waiting) = 1 ∧ 1 = got 0 (chans demo_waiting).
Proof.
  split; [vm_compute; reflexivity|]. refine (proj2 (fanout_delivers 1 no_ctx demo_waiting demo_waiting_reachable) 0 1 true _). left.
Defined.
Example fanout_close_progress_witness : done_closed demo_waiting = true ∧ load (calls demo_waiting) = 2 ∧
  ∃ y' x', step 1 no_ctx demo_waiting y' ∧ calls y' = <[1 := x']> (calls demo_waiting) ∧ taken <$> chans y' = taken <$> chans demo_waiting ∧ load (calls y') < 2.
Proof.
  split; [reflexivity|]. split; [reflexivity|].
  exact (proj1 (fanout_close_progress 1 no_ctx demo_waiting demo_waiting_reachable eq_refl) 1 (PSending 1 true [0] 0) eq_refl eq_refl).
Defined.
Example fanout_closes_all_witness : chan_closed (close_chan full_chan) = true ∧ subs demo_closed = [].
Proof.
  split; [|reflexivity]. refine (fanout_closes_all 1 no_ctx demo_closed 0 (close_chan full_chan) fanout_closed_reachable eq_refl _ _); [apply not_elem_of_nil|by repeat constructor].
Defined.
(** A subscription after [Close] succeeds, its channel is open, and a further [Close] does nothing. *)
Example subscribe_after_close :
  rtc (step 1 no_ctx) start (mkState [close_chan full_chan; new_chan] [1] true true 2 0 (calls demo_closed ++ [CReturned]) false).
Proof.
  etrans; [exact fanout_closed_reachable|]. eapply rtc_l; [apply st_subscribe; by repeat constructor|].
  eapply rtc_l; [apply (st_call 1 no_ctx _ _ _ _ _ _ _ _ CStart); eauto|]. eapply rtc_l; [apply (st_close_again 1 no_ctx _ _ _ _ _ [_; _; _] [])|]. apply rtc_refl.
Qed.
