(* ===== verification/HotKey.v ===== *)
(** * HotKey: heavy hitters in a sliding window ([hotkey/hotkey.go])

    A [Detector] keeps per key a slice of the times of its hits.  Its [trimBefore] is the one of
    freqcap.go, with the same aliasing: it shifts the live suffix down in the shared array, and
    [evictIdleLocked] leaves the old, longer header in the map.  The iteration order of the map is any
    permutation of it, and the sort of [Top] any sort.

    Shown: without caps no hit in the window is ever missed ([hotkey_no_undercount]); the number of keys
    stays at its cap as long as the empty key is not used ([hotkey_cap]); [Top] returns the most frequent keys
    by the counts it has, in order ([hotkey_top]).  [hotkey_overcount]: a hit of another key makes stale hits
    count again; [empty_key_uncapped]: the empty key as victim ends the eviction. *)

From Stdlib Require Import ZArith Lia Sorting.Sorted.
From stdpp Require Import base tactics numbers list gmap strings sorting.
From S2P Require Import Prelude FreqCap.

#[local] Open Scope Z_scope.

Module Hot.
Record HotKey := mkHot { Key : string; Hits : Z }.
Record Detector := mkDetector { window : Z; topK : Z; maxKeys : Z; maxHitsPerKey : Z; keys : gmap string (list Z) }.
Definition set_keys (d : Detector) (m : gmap string (list Z)) : Detector := mkDetector (window d) (topK d) (maxKeys d) (maxHitsPerKey d) m.

(** [None]: the constructor panics.  The options are given by their values. *)
Definition New (window topK : Z) (withMaxKeys : option Z) (withMaxHits : Z) : option Detector :=
  if window <=? 0 then None
  else if topK <=? 0 then None
  else Some (mkDetector window topK (default DefaultMaxKeys withMaxKeys) withMaxHits ∅).

Section Orders.
(** The order in which [range] visits a map. *)
Context (order : gmap string (list Z) → list (string * list Z)) (Horder : ∀ m, order m ≡ₚ map_to_list m).

(** The scan for the key to drop: the victim so far, its count, its last hit. *)
Definition zero_time : Z := - 62135596800 * 10 ^ 9.
Fixpoint scan (cutoff : Z) (l : list (string * list Z)) (victim : string) (minCount victimLast : Z) : string :=
  match l with
  | [] => victim
  | (k, ts) :: l =>
      let trimmed := (trimBefore ts cutoff).1 in
      let c := Z.of_nat (length trimmed) in
      let last_ := default zero_time (last trimmed) in
      if (minCount <? 0) || (c <? minCount) || ((c =? minCount) && (last_ <? victimLast)) then scan cutoff l k c last_
      else scan cutoff l victim minCount victimLast
  end.
(** What the old headers see after a pass that trims every slice. *)
Definition trim_all (cutoff : Z) (m : gmap string (list Z)) : gmap string (list Z) := (λ ts, (trimBefore ts cutoff).2) <$> m.
Definition drop_idle (cutoff : Z) (m : gmap string (list Z)) : gmap string (list Z) :=
  omap (λ ts, let '(trimmed, ts') := trimBefore ts cutoff in if (length trimmed =? 0)%nat then None else Some ts') m.
(** Dropping keys over the cap; [fuel]: each round drops one. *)
Fixpoint drop_over (fuel : nat) (cutoff cap : Z) (m : gmap string (list Z)) : gmap string (list Z) :=
  match fuel with
  | O => m
  | S fuel =>
      if (0 <? cap) && (cap <? Z.of_nat (size m)) then
        let victim := scan cutoff (order m) "" (-1) zero_time in
        let m := trim_all cutoff m in
        if String.eqb victim "" then m else drop_over fuel cutoff cap (delete victim m)
      else m
  end.
Definition evictIdleLocked (d : Detector) (now : Z) : Detector :=
  let cutoff := now - window d in
  let m := drop_idle cutoff (keys d) in
  set_keys d (drop_over (size m) cutoff (maxKeys d) m).

Definition Touch (d : Detector) (key : string) (now : Z) : Detector :=
  let ts := default [] (keys d !! key) in
  let ts := (trimBefore ts (now - window d)).1 ++ [now] in
  let ts := if (0 <? maxHitsPerKey d) && (maxHitsPerKey d <? Z.of_nat (length ts)) then drop (length ts - Z.to_nat (maxHitsPerKey d)) ts else ts in
  evictIdleLocked (set_keys d (<[key := ts]> (keys d))) now.

Definition Count (d : Detector) (key : string) (now : Z) : Z * Detector :=
  match keys d !! key with
  | None => (0, d)
  | Some ts =>
      let trimmed := (trimBefore ts (now - window d)).1 in
      if (length trimmed =? 0)%nat then (0, set_keys d (delete key (keys d)))
      else (Z.of_nat (length trimmed), set_keys d (<[key := trimmed]> (keys d)))
  end.

(** The loop of [Top]: what stays in the map, and the counts in the order of the map. *)
Definition trimmed_keys (cutoff : Z) (m : gmap string (list Z)) : gmap string (list Z) :=
  omap (λ ts, let trimmed := (trimBefore ts cutoff).1 in if (length trimmed =? 0)%nat then None else Some trimmed) m.
Fixpoint collect (cutoff : Z) (l : list (string * list Z)) : list HotKey :=
  match l with
  | [] => []
  | (k, ts) :: l =>
      let trimmed := (trimBefore ts cutoff).1 in
      if (length trimmed =? 0)%nat then collect cutoff l else mkHot k (Z.of_nat (length trimmed)) :: collect cutoff l
  end.
(** [SortFunc]: what [slices.SortFunc] returns. *)
Definition Top (SortFunc : list HotKey → list HotKey) (d : Detector) (now : Z) : list HotKey * Detector :=
  let cutoff := now - window d in
  let results := SortFunc (collect cutoff (order (keys d))) in
  let results := if topK d <? Z.of_nat (length results) then take (Z.to_nat (topK d)) results else results in
  (results, set_keys d (trimmed_keys cutoff (keys d))).

Definition Reset_ (d : Detector) : Detector := set_keys d ∅.
Definition Len (d : Detector) : Z := Z.of_nat (size (keys d)).

(** ** No hit is missed *)

Definition live_in (d : Detector) (k : string) (a : Z) : nat := live (default [] (keys d !! k)) a.
(** The hits of a log at or after [a] are in the map. *)
Definition holds (d : Detector) (log : list (string * Z)) (from : Z) : Prop := ∀ k a, from ≤ a → (since log k a ≤ live_in d k a)%nat.

Inductive op := OTouch (key : string) (now : Z) | OCount (key : string) (now : Z) | OTop (now : Z).
Definition op_time (o : op) : Z := match o with OTouch _ t | OCount _ t | OTop t => t end.
Definition hit (o : op) : list (string * Z) := match o with OTouch k t => [(k, t)] | _ => [] end.
Definition exec (d : Detector) (o : op) : Detector :=
  match o with OTouch k t => Touch d k t | OCount k t => (Count d k t).2 | OTop t => (Top id d t).2 end.
Fixpoint timed (t : Z) (ops : list op) : Prop := match ops with [] => True | o :: ops => t ≤ op_time o ∧ timed (op_time o) ops end.

Lemma drop_idle_live cutoff m k a : cutoff ≤ a → (live (default [] (m !! k)) a ≤ live (default [] (drop_idle cutoff m !! k)) a)%nat.
Proof using.
  intros Ha. unfold drop_idle. rewrite lookup_omap. destruct (m !! k) as [ts|]; [|done]. change (default [] (Some ts)) with ts.
  pose proof (trimBefore_live ts cutoff a Ha) as [H1 H2]. cbn [mbind option_bind]. destruct (trimBefore ts cutoff) as [trimmed ts']. cbn [fst snd] in *.
  destruct trimmed; cbn [length Nat.eqb]; [|exact H2]. rewrite <- H1. unfold live. cbn. lia.
Qed.
Lemma exec_holds d o log from : maxKeys d ≤ 0 → maxHitsPerKey d ≤ 0 → from ≤ op_time o - window d → holds d log from →
  holds (exec d o) (log ++ hit o) (op_time o - window d) ∧ window (exec d o) = window d ∧ maxKeys (exec d o) = maxKeys d ∧ maxHitsPerKey (exec d o) = maxHitsPerKey d.
Proof using.
  intros Hk Hh Hfrom Hd. destruct o as [key now|key now|now]; cbn [exec hit op_time] in *.
  - split; [|done]. intros k a Ha. rewrite since_app, since_one. unfold live_in, Touch, evictIdleLocked. cbn [keys set_keys window maxKeys].
    rewrite (proj2 (Z.ltb_ge 0 (maxHitsPerKey d))) by lia. cbn [andb].
    set (m := <[key := _]> (keys d)). assert (∀ n, drop_over n (now - window d) (maxKeys d) (drop_idle (now - window d) m) = drop_idle (now - window d) m) as ->.
    { intros [|n]; [done|]. cbn [drop_over]. by rewrite (proj2 (Z.ltb_ge 0 (maxKeys d))) by lia. }
    etrans; [|by apply drop_idle_live]. subst m. specialize (Hd k a ltac:(lia)). unfold live_in in Hd. destruct (decide (key = k)) as [->|Hne].
    + rewrite lookup_insert_eq. cbn [default from_option id]. rewrite live_app, (proj1 (trimBefore_live _ _ _ Ha)).
      unfold live at 2. rewrite filter_cons. case_decide; case_decide; cbn; lia || naive_solver.
    + rewrite lookup_insert_ne, decide_False by naive_solver. lia.
  - rewrite app_nil_r. unfold Count. destruct (keys d !! key) as [ts|] eqn:E; [|split; [|done]; intros k a Ha; apply Hd; lia].
    split; [|by case_match]. intros k a Ha. specialize (Hd k a ltac:(lia)). pose proof (trimBefore_live ts (now - window d) a Ha) as [H1 _].
    unfold live_in in *. destruct (decide (key = k)) as [<-|Hne].
    + rewrite E in Hd. change (default [] (Some ts)) with ts in Hd. rewrite <- H1 in Hd.
      destruct (trimBefore ts (now - window d)).1 as [|t0 tr]; cbn [length Nat.eqb snd keys set_keys].
      * by rewrite lookup_delete_eq.
      * by rewrite lookup_insert_eq.
    + case_match; cbn [snd keys set_keys]; [by rewrite lookup_delete_ne|by rewrite lookup_insert_ne].
  - rewrite app_nil_r. split; [|done]. intros k a Ha. specialize (Hd k a ltac:(lia)). unfold live_in, Top, trimmed_keys in *. cbn [snd keys set_keys].
    rewrite lookup_omap. destruct (keys d !! k) as [ts|]; [|done]. pose proof (trimBefore_live ts (now - window d) a Ha) as [H1 _].
    change (default [] (Some ts)) with ts in Hd. rewrite <- H1 in Hd. cbn [mbind option_bind]. by destruct (trimBefore ts (now - window d)).1.
Qed.
Lemma run_holds ops d log from t : maxKeys d ≤ 0 → maxHitsPerKey d ≤ 0 → from ≤ t - window d → timed t ops → holds d log from →
  ∃ t', t ≤ t' ∧ holds (foldl exec d ops) (log ++ mjoin (hit <$> ops)) (t' - window d) ∧ window (foldl exec d ops) = window d ∧ (∀ u, Forall (λ o, op_time o ≤ u) ops → t ≤ u → t' ≤ u).
Proof using.
  revert d log from t. induction ops as [|o ops IH]; intros d log from t Hk Hh Hfrom Ht Hd; cbn [foldl].
  { exists t. split_and!; [lia| |done|done]. cbn. rewrite app_nil_r. intros k a Ha. apply Hd. lia. }
  destruct Ht as [Hto Ht]. destruct (exec_holds d o log from Hk Hh ltac:(lia) Hd) as (Hd' & Hw & Hk' & Hh').
  destruct (IH (exec d o) (log ++ hit o) (op_time o - window d) (op_time o)) as (t' & Hle & Hh2 & Hw2 & Hu); [lia|lia|lia|done|done|].
  exists t'. rewrite Hw in *. split_and!; [lia| |congruence|].
  - cbn. by rewrite app_assoc.
  - intros u Hall _. inversion_clear Hall. apply Hu; [done|lia].
Qed.

(** Without caps no hit is missed.  After any operations in the order of the clock, the count of a key is at least the
    number of its hits in the window. *)
Theorem hotkey_no_undercount w k0 d t ops key now : New w k0 (Some 0) 0 = Some d → timed t ops → Forall (λ o, op_time o ≤ now) ops → t ≤ now →
  Z.of_nat (since (mjoin (hit <$> ops)) key (now - w)) ≤ (Count (foldl exec d ops) key now).1.
Proof using.
  unfold New. intros Hn Ht Hall Hle. destruct (w <=? 0); [done|]. destruct (k0 <=? 0); [done|]. injection Hn as <-.
  set (d := mkDetector w k0 _ 0 ∅). assert (holds d [] (t - w)) as H0 by (intros k a _; unfold since; cbn; lia).
  destruct (run_holds ops d [] (t - w) t) as (t' & _ & Hh & Hw & Hu); [cbn; lia|cbn; lia|cbn; lia|done|done|]. specialize (Hu now Hall Hle).
  specialize (Hh key (now - w) ltac:(cbn; lia)). rewrite app_nil_l in Hh. unfold live_in in Hh. unfold Count. rewrite Hw. change (window d) with w.
  destruct (keys (foldl exec d ops) !! key) as [ts|]; [|cbn in Hh; unfold live in Hh; cbn in *; lia]. change (default [] (Some ts)) with ts in Hh.
  rewrite <- (proj1 (trimBefore_live ts (now - w) (now - w) ltac:(lia))) in Hh. pose proof (live_length (trimBefore ts (now - w)).1 (now - w)) as Hlen.
  destruct (trimBefore ts (now - w)).1; cbn in *; lia.
Qed.

(** ** The cap on keys *)

Lemma scan_found cutoff l v c last_ : scan cutoff l v c last_ = v ∨ scan cutoff l v c last_ ∈ l.*1.
Proof using.
  revert v c last_. induction l as [|[k ts] l IH]; intros v c last_; cbn [scan]; [by left|]. case_match.
  - destruct (IH k (Z.of_nat (length (trimBefore ts cutoff).1)) (default zero_time (last (trimBefore ts cutoff).1))) as [->|Hin]; right; [left|by right].
  - destruct (IH v c last_) as [->|Hin]; [by left|right; by right].
Qed.
Lemma scan_some cutoff l : l ≠ [] → scan cutoff l "" (-1) zero_time ∈ l.*1.
Proof using.
  destruct l as [|[k ts] l]; [done|]. intros _. cbn [scan Z.ltb Z.compare orb]. destruct (scan_found cutoff l k (Z.of_nat (length (trimBefore ts cutoff).1)) (default zero_time (last (trimBefore ts cutoff).1))) as [->|Hin]; [left|by right].
Qed.
Lemma drop_over_size fuel cutoff cap m : 0 < cap → m !! "" = None → Z.of_nat (size m) ≤ Z.of_nat fuel + cap → Z.of_nat (size (drop_over fuel cutoff cap m)) ≤ cap.
Proof using Horder.
  intros Hc. revert m. induction fuel as [|fuel IH]; intros m Hm Hs; cbn [drop_over]; [lia|]. rewrite (proj2 (Z.ltb_lt 0 cap)) by done. cbn [andb].
  destruct (Z.ltb_spec cap (Z.of_nat (size m))); [|done].
  assert (∃ ts, m !! scan cutoff (order m) "" (-1) zero_time = Some ts) as [ts Hts].
  { assert (order m ≠ []) as Hne. { intros E. pose proof (Horder m) as Hp. rewrite E in Hp. apply Permutation_length in Hp. rewrite length_map_to_list in Hp. cbn in Hp. lia. }
    pose proof (scan_some cutoff (order m) Hne) as Hin. apply list_elem_of_fmap in Hin as ([k ts] & -> & Hin). rewrite Horder in Hin. apply elem_of_map_to_list in Hin. eauto. }
  set (v := scan _ _ _ _ _) in *. destruct (String.eqb_spec v "") as [Hv|Hv]; [congruence|]. apply IH.
  - rewrite lookup_delete_ne by done. unfold trim_all. by rewrite lookup_fmap, Hm.
  - assert (size (delete v (trim_all cutoff m)) = (size m - 1)%nat) as ->; [|lia]. unfold trim_all. rewrite map_size_delete_Some, map_size_fmap; [lia|]. rewrite lookup_fmap, Hts. by eexists.
Qed.
(** The number of keys stays at its cap.  A hit of a key other than the empty one, in a detector without it, leaves at
    most [maxKeys] keys, for every order in which the map is visited. *)
Theorem hotkey_cap d key now : 0 < maxKeys d → key ≠ "" → keys d !! "" = None → Len (Touch d key now) ≤ maxKeys d ∧ keys (Touch d key now) !! "" = None.
Proof using Horder.
  intros Hc Hk Hm. unfold Len, Touch, evictIdleLocked. cbn [keys set_keys maxKeys window]. set (m := <[key := _]> (keys d)).
  assert (drop_idle (now - window d) m !! "" = None) as Hm'.
  { unfold drop_idle. rewrite lookup_omap. subst m. by rewrite lookup_insert_ne, Hm. }
  split; [apply drop_over_size; [done|done|lia]|]. generalize (size (drop_idle (now - window d) m)). revert Hm'. generalize (drop_idle (now - window d) m). clear.
  intros m Hm n. revert m Hm. induction n as [|n IH]; intros m Hm; cbn [drop_over]; [done|]. case_match; [|done].
  assert (trim_all (now - window d) m !! "" = None) as Ht by (unfold trim_all; by rewrite lookup_fmap, Hm). destruct (String.eqb_spec (scan (now - window d) (order m) "" (-1) zero_time) ""); [done|].
  apply IH. by rewrite lookup_delete_ne.
Qed.

(** ** The most frequent keys *)

Lemma collect_elem cutoff l h : h ∈ collect cutoff l ↔ ∃ ts, (Key h, ts) ∈ l ∧ Hits h = Z.of_nat (length (trimBefore ts cutoff).1) ∧ (0 < length (trimBefore ts cutoff).1)%nat.
Proof using.
  induction l as [|[k ts] l IH]; cbn [collect]; [split; [intros H; by apply elem_of_nil in H|intros (ts & H & _); by apply elem_of_nil in H]|].
  destruct (length (trimBefore ts cutoff).1) as [|n] eqn:E; cbn [Nat.eqb].
  - rewrite IH. split; [intros (ts' & Hin & H1 & H2); exists ts'; split; [by right|done]|]. intros (ts' & Hin & H1 & H2). apply elem_of_cons in Hin as [[= -> ->]|Hin]; [lia|eauto].
  - rewrite elem_of_cons, IH. split.
    + intros [->|(ts' & Hin & H1 & H2)]; [exists ts; cbn; split_and!; [left|lia|lia]|exists ts'; split; [by right|done]].
    + intros (ts' & Hin & H1 & H2). apply elem_of_cons in Hin as [[= Ek ->]|Hin]; [left|right; eauto]. destruct h as [k' c]. cbn in *. subst. by rewrite E.
Qed.
Definition hotter (a b : HotKey) : Prop := Hits b ≤ Hits a.
Lemma collect_count d now h : h ∈ collect (now - window d) (order (keys d)) ↔ (Count d (Key h) now).1 = Hits h ∧ 0 < Hits h.
Proof using Horder.
  rewrite collect_elem. unfold Count. split.
  - intros (ts & Hin & H1 & H2). rewrite Horder in Hin. apply elem_of_map_to_list in Hin. rewrite Hin. destruct (length (trimBefore ts (now - window d)).1); cbn; lia.
  - intros [H1 H2]. destruct (keys d !! Key h) as [ts|] eqn:E; [|cbn in H1; lia]. exists ts. rewrite Horder, elem_of_map_to_list.
    split; [done|]. destruct (length (trimBefore ts (now - window d)).1) eqn:El; cbn in *; lia.
Qed.
(** [Top] returns the keys with the most hits as [Count] counts them.  For every order of the map and every sort, its
    keys are in descending order and at most [topK]; each comes with its count; and a key that is left out has no hits, or
    the list is full and none of its keys has fewer. *)
Theorem hotkey_top SortFunc d now : (∀ l, SortFunc l ≡ₚ l ∧ StronglySorted hotter (SortFunc l)) → 0 < topK d →
  let '(res, _) := Top SortFunc d now in
  StronglySorted hotter res ∧ Z.of_nat (length res) ≤ topK d ∧
  (∀ h, h ∈ res → (Count d (Key h) now).1 = Hits h ∧ 0 < Hits h) ∧
  (∀ k, 0 < (Count d k now).1 → mkHot k (Count d k now).1 ∈ res ∨ Z.of_nat (length res) = topK d ∧ ∀ h, h ∈ res → (Count d k now).1 ≤ Hits h).
Proof using Horder.
  intros Hsort Hk. unfold Top. set (l := collect (now - window d) (order (keys d))). destruct (Hsort l) as [Hp Hs].
  assert (∀ h, h ∈ SortFunc l ↔ (Count d (Key h) now).1 = Hits h ∧ 0 < Hits h) as Hin by (intros h; rewrite Hp; apply collect_count).
  destruct (Z.ltb_spec (topK d) (Z.of_nat (length (SortFunc l)))).
  - rewrite <- (take_drop (Z.to_nat (topK d)) (SortFunc l)) in Hs. assert (length (take (Z.to_nat (topK d)) (SortFunc l)) = Z.to_nat (topK d)) as Hlen by (rewrite length_take; lia).
    split_and!; [by eapply StronglySorted_app_1_l|lia| |].
    + intros h Hh. apply Hin. rewrite <- (take_drop (Z.to_nat (topK d)) (SortFunc l)). apply elem_of_app. by left.
    + intros k Hc. assert (mkHot k (Count d k now).1 ∈ SortFunc l) as Hh by (by apply Hin). rewrite <- (take_drop (Z.to_nat (topK d)) (SortFunc l)) in Hh.
      apply elem_of_app in Hh as [Hh|Hh]; [by left|]. right. split; [lia|]. intros h' Hh'. exact (StronglySorted_app_1_elem_of _ _ _ _ _ Hs Hh' Hh).
  - split_and!; [done|lia|intros h Hh; by apply Hin|]. intros k Hc. left. by apply Hin.
Qed.
End Orders.

(** ** Concrete detectors *)

Definition by_key : gmap string (list Z) → list (string * list Z) := map_to_list.
Lemma by_key_ok m : by_key m ≡ₚ map_to_list m.
Proof. done. Qed.
Definition demo_detector (cap : Z) : Detector := mkDetector 10 2 cap 0 ∅.
Definition demo_ops : list op := [OTouch "a" 1; OTouch "b" 2; OTouch "a" 5; OCount "b" 6].
Example hotkey_no_undercount_witness : 2 ≤ (Count (foldl (exec by_key) (demo_detector 0) demo_ops) "a" 8).1.
Proof.
  refine (hotkey_no_undercount by_key 10 2 (demo_detector 0) 0 demo_ops "a" 8 eq_refl _ _ _); [cbn; lia| |lia]. repeat constructor; cbn; lia.
Defined.
Example hotkey_cap_witness : Len (Touch by_key (Touch by_key (demo_detector 1) "a" 1) "b" 2) ≤ 1.
Proof. refine (proj1 (hotkey_cap by_key by_key_ok (Touch by_key (demo_detector 1) "a" 1) "b" 2 _ _ _)); [vm_compute; reflexivity|discriminate|vm_compute; reflexivity]. Defined.
#[export] Instance hotter_dec : RelDecision hotter.
Proof. intros a b. unfold hotter. apply _. Defined.
Definition sort_hot (l : list HotKey) : list HotKey := merge_sort hotter l.
Lemma sort_hot_ok l : sort_hot l ≡ₚ l ∧ StronglySorted hotter (sort_hot l).
Proof.
  split; [apply merge_sort_Permutation|]. apply StronglySorted_merge_sort; [intros a b c; unfold hotter; lia|intros a b; unfold hotter; lia].
Qed.
Example hotkey_top_witness :
  (Top by_key sort_hot (foldl (exec by_key) (demo_detector 0) demo_ops) 8).1 = [mkHot "a" 2; mkHot "b" 1] ∧
  StronglySorted hotter (Top by_key sort_hot (foldl (exec by_key) (demo_detector 0) demo_ops) 8).1.
Proof.
  split; [vm_compute; reflexivity|].
  pose proof (hotkey_top by_key by_key_ok sort_hot (foldl (exec by_key) (demo_detector 0) demo_ops) 8 sort_hot_ok ltac:(vm_compute; reflexivity)) as H.
  destruct (Top by_key sort_hot (foldl (exec by_key) (demo_detector 0) demo_ops) 8) as [res d]. exact (proj1 H).
Defined.
(** Hits at 1, 4 and 11 with a window of 10: at 13 two of them are in the window.  A hit of another key at 13 trims
    the slice in place, and the count becomes three. *)
Example hotkey_overcount :
  let d := foldl (exec by_key) (demo_detector 0) [OTouch "a" 1; OTouch "a" 4; OTouch "a" 11] in
  (Count d "a" 13).1 = 2 ∧ (Count (Touch by_key d "b" 13) "a" 13).1 = 3.
Proof. vm_compute. auto. Qed.
(** With a cap of one, the empty key and then others: every hit finds the empty key as victim and drops nothing. *)
Example empty_key_uncapped : Len (foldl (exec by_key) (demo_detector 1) [OTouch "" 1; OTouch "a" 2; OTouch "b" 3; OTouch "c" 4]) = 4.
Proof. vm_compute. reflexivity. Qed.
End Hot.
