(* ===== verification/Retry.v ===== *)
(** * Retry: calls with attempts and backoff ([retry/retry.go])

    [fn], the context and the classifier of errors are arguments: what each attempt returns, what the two
    looks at the context find.  An unlimited number of attempts is fuel; the theorems for a limit need no more
    fuel than the limit.

    Shown: with a positive limit [Do] always returns, after at most that many attempts; success is the value of the
    first attempt that succeeds, and a failure comes with its cause and the number of attempts made
    ([retry_do_exact]); an unlimited [Do] returns as soon as an attempt succeeds ([retry_unlimited]); the exponential
    backoff doubles up to its cap while the product fits ([backoff_exact]).  [negative_attempts_succeed],
    [backoff_wraps] and [backoff_jumps] are what happens outside. *)

From Stdlib Require Import ZArith Lia.
From stdpp Require Import base tactics numbers list.
From S2P Require Import Prelude.

#[local] Open Scope Z_scope.

Definition ConstantBackoff (d attempt : Z) : Z := d.
Definition NoBackoff (attempt : Z) : Z := 0.
(** [None]: a negative shift count panics. *)
Definition ExponentialBackoff (base max attempt : Z) : option Z :=
  if 30 <? attempt then Some max
  else if attempt <? 1 then None
  else let d := i64 (Z.shiftl base (attempt - 1)) in
       Some (if (max <? d) || (d <=? 0) then max else d).

Section Do.
Context {T E : Type} (zero : T).
Record Result := mkResult { Value : T; Err : option E; Tries : Z }.
(** The outcomes of the attempts; the context before an attempt; whether a wait is cut short, with the context's error. *)
Context (fn : Z → T + E) (ctx_before : Z → option E) (cut_short : Z → option E) (MaxAttempts : Z) (Backoff : Z → Z) (IsRetryable : option (E → bool)).

Definition may_go_on (attempt : Z) : bool := (MaxAttempts =? 0) || (attempt <=? MaxAttempts).
(** [None]: still running when the fuel ends. *)
Fixpoint do_loop (fuel : nat) (attempt : Z) (lastErr : option E) : option Result :=
  if may_go_on attempt then
    match fuel with
    | O => None
    | S fuel =>
        match ctx_before attempt with
        | Some e => Some (mkResult zero (Some e) (attempt - 1))
        | None =>
            match fn attempt with
            | inl v => Some (mkResult v None attempt)
            | inr e =>
                if (match IsRetryable with Some f => negb (f e) | None => false end) then Some (mkResult zero (Some e) attempt)
                else if ((MaxAttempts =? 0) || (attempt <? MaxAttempts)) && (0 <? Backoff attempt) then
                  match cut_short attempt with
                  | Some c => Some (mkResult zero (Some c) attempt)
                  | None => do_loop fuel (attempt + 1) (Some e)
                  end
                else do_loop fuel (attempt + 1) (Some e)
            end
        end
    end
  else Some (mkResult zero lastErr MaxAttempts).
Definition Do (fuel : nat) : option Result := do_loop fuel 1 None.

(** What a result says about the attempts from [from] on. *)
Definition failed (i : Z) : Prop := ∃ e, fn i = inr e ∧ (∀ f, IsRetryable = Some f → f e = true).
Definition retry_result (from : Z) (lastErr : option E) (r : Result) : Prop :=
  from - 1 ≤ Tries r ∧ (∀ i, from ≤ i < Tries r → failed i) ∧
  match Err r with
  | None => from ≤ Tries r ∧ fn (Tries r) = inl (Value r)
  | Some e =>
      Value r = zero ∧
      (Tries r = from - 1 ∧ (ctx_before from = Some e ∨ MaxAttempts = from - 1 ∧ lastErr = Some e) ∨
       from ≤ Tries r ∧
         (fn (Tries r) = inr e ∧ (Tries r = MaxAttempts ∨ ∃ f, IsRetryable = Some f ∧ f e = false) ∨
          failed (Tries r) ∧ (cut_short (Tries r) = Some e ∨ ctx_before (Tries r + 1) = Some e)))
  end.
Lemma do_loop_spec fuel attempt lastErr r : (MaxAttempts + 1 = attempt → is_Some lastErr) → (MaxAttempts = 0 ∨ attempt ≤ MaxAttempts + 1) →
  do_loop fuel attempt lastErr = Some r → retry_result attempt lastErr r.
Proof using.
  revert attempt lastErr. induction fuel as [|fuel IH]; intros attempt lastErr Hlast Hle; cbn [do_loop]; unfold may_go_on.
  all: destruct (Z.eqb_spec MaxAttempts 0) as [Hm|Hm]; cbn [orb]; [|destruct (Z.leb_spec attempt MaxAttempts) as [Ha|Ha]]; try done.
  1, 4: intros [= <-]; assert (MaxAttempts = attempt - 1) as -> by lia; destruct (Hlast ltac:(lia)) as [e ->]; unfold retry_result; cbn; split_and!; [lia|lia|done|left; split; [done|right; done]].
  all: destruct (ctx_before attempt) as [e|] eqn:Ec; [intros [= <-]; unfold retry_result; cbn; split_and!; [lia|lia|done|left; split; [done|by left]]|].
  all: destruct (fn attempt) as [v|e] eqn:Ef; [intros [= <-]; unfold retry_result; cbn; split_and!; [lia|lia|lia|done]|].
  all: destruct (match IsRetryable with Some f => negb (f e) | None => false end) eqn:Er;
    [intros [= <-]; unfold retry_result; cbn; split_and!; [lia|lia|done|right; split; [lia|left; split; [done|right]]]; destruct IsRetryable as [f|]; [|done]; exists f; split; [done|by apply negb_true_iff]|].
  all: assert (failed attempt) as Hf by (exists e; split; [done|]; intros f Hf; rewrite Hf in Er; by apply negb_false_iff).
  all: assert (∀ r, retry_result (attempt + 1) (Some e) r → retry_result attempt lastErr r) as Hstep
    by (intros r0 (H1 & H2 & H3); split_and!; [lia|intros i Hi; destruct (decide (i = attempt)) as [->|]; [done|apply H2; lia]|];
        destruct (Err r0) as [e0|]; [|split; [lia|apply H3]]; destruct H3 as [Hz H3]; split; [done|]; right;
        destruct H3 as [[Ht [Hx|[Hx [= ->]]]]|[Ht Hx]];
        [split; [lia|]; right; replace (Tries r0) with attempt by lia; auto|split; [lia|]; left; replace (Tries r0) with attempt by lia; auto with lia|split; [lia|done]]).
  all: match goal with |- context [if ?c then _ else _] => destruct c end.
  all: try (destruct (cut_short attempt) as [c|] eqn:Es; [intros [= <-]; unfold retry_result; cbn; split_and!; [lia|lia|done|right; split; [lia|right; auto]]|]).
  all: intros Hr; apply Hstep; eapply IH; [|lia|exact Hr]; by eexists.
Qed.
Lemma do_loop_returns fuel attempt lastErr : 0 < MaxAttempts → MaxAttempts + 1 - attempt ≤ Z.of_nat fuel → is_Some (do_loop fuel attempt lastErr).
Proof using.
  intros Hm. revert attempt lastErr. induction fuel as [|fuel IH]; intros attempt lastErr Hf; cbn [do_loop]; unfold may_go_on; rewrite (proj2 (Z.eqb_neq MaxAttempts 0)) by lia; cbn [orb].
  - rewrite (proj2 (Z.leb_gt _ _)) by lia. by eexists.
  - repeat case_match; try (by eexists); apply IH; lia.
Qed.
(** With a positive limit [Do] returns, and its result is exact: every attempt before the last failed in a way that is to
    be retried; success is the value of the last attempt; a failure is the last attempt's error at the limit or
    when it is not retryable, or the context's, and [Tries] is the number of attempts made. *)
Theorem retry_do_exact fuel : 0 < MaxAttempts ≤ Z.of_nat fuel → ∃ r, Do fuel = Some r ∧ retry_result 1 None r ∧ 0 ≤ Tries r ≤ MaxAttempts.
Proof using.
  intros Hm. destruct (do_loop_returns fuel 1 None ltac:(lia) ltac:(lia)) as [r Hr]. exists r. split; [done|].
  assert (retry_result 1 None r) as Hres by (eapply do_loop_spec; [lia|lia|done]). split; [done|]. split; [destruct Hres; lia|].
  clear Hres. unfold Do in *. revert Hr. generalize (None (A := E)). assert (1 ≤ MaxAttempts + 1) as Hle by lia. revert Hle. generalize 1. revert fuel Hm.
  intros fuel Hm. assert (0 < MaxAttempts) as Hpos by lia. clear Hm. induction fuel as [|fuel IH]; intros a Ha le; cbn [do_loop]; unfold may_go_on; rewrite (proj2 (Z.eqb_neq MaxAttempts 0)) by lia; cbn [orb].
  - destruct (Z.leb_spec a MaxAttempts); [done|]. intros [= <-]. cbn. lia.
  - destruct (Z.leb_spec a MaxAttempts); [|intros [= <-]; cbn; lia]. repeat case_match; try (intros [= <-]; cbn; lia); apply IH; lia.
Qed.
(** An unlimited [Do] returns with the first success: if the attempts before [n] fail in a way that is to be retried, the
    context lives, and attempt [n] succeeds, it returns that value after [n] attempts. *)
Theorem retry_unlimited n v : MaxAttempts = 0 → 1 ≤ n → (∀ i, 1 ≤ i < n → failed i ∧ cut_short i = None) → (∀ i, 1 ≤ i ≤ n → ctx_before i = None) → fn n = inl v →
  Do (Z.to_nat n) = Some (mkResult v None n).
Proof using.
  intros Hm Hn Hfail Hctx Hv. unfold Do. assert (∀ k a le, 1 ≤ a → Z.of_nat k = n - a → do_loop (S k) a le = Some (mkResult v None n)) as H.
  { intros k. induction k as [|k IH]; intros a le Ha Hk; [|remember (S k) as m eqn:Em]; cbn [do_loop]; unfold may_go_on; rewrite Hm; cbn [Z.eqb orb].
    - replace a with n by lia. by rewrite Hctx, Hv by lia.
    - rewrite Hctx by lia. destruct (Hfail a ltac:(lia)) as [(e & -> & Hr) Hc]. assert ((match IsRetryable with Some f => negb (f e) | None => false end) = false) as ->.
      { destruct IsRetryable as [f|]; [|done]. by rewrite Hr. }
      cbn [andb]. subst m. destruct (0 <? Backoff a); [rewrite Hc|]; apply IH; lia. }
  replace (Z.to_nat n) with (S (Z.to_nat (n - 1))) by lia. apply H; lia.
Qed.
End Do.
Arguments mkResult {T E}. Arguments Value {T E}. Arguments Err {T E}. Arguments Tries {T E}.

(** The exponential backoff is the smaller of the cap and the base doubled once per earlier attempt, for the first
    thirty attempts, as long as that product fits into 64 bits; afterwards it is the cap. *)
Theorem backoff_exact base max attempt : 0 < base → 1 ≤ attempt → base * 2 ^ (attempt - 1) ≤ max_i64 →
  ExponentialBackoff base max attempt = Some (if attempt <=? 30 then Z.min max (base * 2 ^ (attempt - 1)) else max).
Proof.
  intros Hb Ha Hfit. unfold ExponentialBackoff. destruct (Z.leb_spec attempt 30); [|by rewrite (proj2 (Z.ltb_lt _ _)) by lia].
  rewrite (proj2 (Z.ltb_ge 30 attempt)), (proj2 (Z.ltb_ge attempt 1)), Z.shiftl_mul_pow2 by lia.
  assert (0 < 2 ^ (attempt - 1)) by (apply Z.pow_pos_nonneg; lia). rewrite i64_id by (unfold in_i64; unfold_int; nia).
  f_equal. destruct (Z.ltb_spec max (base * 2 ^ (attempt - 1))); cbn [orb]; [lia|]. destruct (Z.leb_spec (base * 2 ^ (attempt - 1)) 0); [nia|lia].
Qed.
Example backoff_exact_witness : ExponentialBackoff 100 10000 5 = Some 1600.
Proof. exact (backoff_exact 100 10000 5 ltac:(lia) ltac:(lia) ltac:(vm_compute; discriminate)). Defined.

(** Two failures, then a success. *)
Definition demo_fn (i : Z) : Z + Z := if i <? 3 then inr i else inl 7.
Definition no_error (i : Z) : option Z := None.
Example retry_do_exact_witness : ∃ r, Do 0 demo_fn no_error no_error 3 NoBackoff None 3 = Some r ∧ retry_result 0 demo_fn no_error no_error 3 None 1 None r ∧ 0 ≤ Tries r ≤ 3.
Proof. exact (retry_do_exact 0 demo_fn no_error no_error 3 NoBackoff None 3 ltac:(lia)). Defined.
Example retry_unlimited_witness : Do 0 demo_fn no_error no_error 0 NoBackoff None 3 = Some (mkResult 7 None 3).
Proof.
  refine (retry_unlimited 0 demo_fn no_error no_error 0 NoBackoff None 3 7 eq_refl _ _ _ eq_refl); [lia| |reflexivity].
  intros i Hi. split; [|reflexivity]. exists i. split; [|discriminate]. unfold demo_fn. rewrite (proj2 (Z.ltb_lt _ _)); [reflexivity|lia].
Defined.
(** A negative limit returns at once with no error and no call. *)
Example negative_attempts_succeed : Do 0 demo_fn no_error no_error (-1) NoBackoff None 5 = Some (mkResult 0 None (-1)).
Proof. vm_compute. reflexivity. Qed.
(** The shift can wrap to a small positive number: a base of 68.7 s gives a quarter of a second at attempt 29. *)
Example backoff_wraps : ExponentialBackoff (2 ^ 36 + 1) (2 ^ 62) 28 = Some (2 ^ 62) ∧ ExponentialBackoff (2 ^ 36 + 1) (2 ^ 62) 29 = Some (2 ^ 28).
Proof. vm_compute. auto. Qed.
(** A small base has not reached the cap after thirty attempts, and jumps to it. *)
Example backoff_jumps : ExponentialBackoff 1 (3600 * 10 ^ 9) 30 = Some (2 ^ 29) ∧ ExponentialBackoff 1 (3600 * 10 ^ 9) 31 = Some (3600 * 10 ^ 9).
Proof. vm_compute. auto. Qed.
