(* ===== verification/Debounce.v ===== *)
(** * Debounce: quiet periods and throttling ([debounce/debounce.go])

    Callers, timers, the goroutines of [fn] and the clock are interleaved.  What [Debounce] does under its
    mutex is one step; the test of [closed] before it, [timer.Stop] after it in [Flush], the two halves of
    [Close] and the test of [closed] inside the wrapped [fn] are steps of their own.  A [Throttle] decides
    under its mutex and is a function of the clock.

    Shown: every timer that was set leads to at most one execution, with [Flush] racing against it
    ([debounce_once]); without [Flush], executions are at least the quiet period apart, and come that long after the
    call that asked for them ([debounce_spacing]); no execution passes its test after [Close]
    ([debounce_closed]); a throttle executes at most once per interval and counts exactly ([throttle_spacing]).
    [pending_after_fire]: [Pending] stays true after the execution; [runs_after_close]: an
    execution that passed its test can still start after [Close] has returned. *)

From Stdlib Require Import ZArith Lia.
From stdpp Require Import base tactics numbers list relations.
From S2P Require Import Prelude.

#[local] Open Scope list_scope.
#[local] Open Scope Z_scope.

(** ** Debounce *)

(** A timer: set and due; stopped; fired by the runtime, with the time; stopped by [Flush], which runs [fn] itself. *)
Inductive timer_state := Armed | TStopped | Fired (at_ : Z) | Flushed.
Record timer := mkTimer { t_set : Z; t_state : timer_state }.
(** An execution of the wrapped [fn]: before its test of [closed], past it, done with or without calling the user's function. *)
Inductive run := RCheck | RPassed | RRan | RSkipped.
(** A call of the interface. *)
Inductive pc := CallStart | CallLock | FlushStart | FlushStop (i : nat) | CancelStart | CloseStart | CloseFlag | Returned (flush : bool).
Record state := mkState { timers : list timer; current : option nat; closed : bool; runs : list run; calls : list pc; now : Z }.
Definition Pending (y : state) : bool := match current y with Some _ => true | None => false end.
(** [timer.Stop] on the timer that is set. *)
Definition stop_timer (t : timer) : timer := match t_state t with Armed => mkTimer (t_set t) TStopped | _ => t end.
Definition stop_current (ts : list timer) (cur : option nat) : list timer := match cur with Some i => match ts !! i with Some x => <[i := stop_timer x]> ts | None => ts end | None => ts end.

Section Debounce.
Context (after : Z).

Inductive step : state → state → Prop :=
| st_time ts cu cl rs cs t t' : t ≤ t' → step (mkState ts cu cl rs cs t) (mkState ts cu cl rs cs t')
| st_begin ts cu cl rs cs t x : x ∈ [CallStart; FlushStart; CancelStart; CloseStart] → step (mkState ts cu cl rs cs t) (mkState ts cu cl rs (cs ++ [x]) t)
| st_call_closed ts cu rs cs1 cs2 t : step (mkState ts cu true rs (cs1 ++ CallStart :: cs2) t) (mkState ts cu true rs (cs1 ++ Returned false :: cs2) t)
| st_call_open ts cu rs cs1 cs2 t : step (mkState ts cu false rs (cs1 ++ CallStart :: cs2) t) (mkState ts cu false rs (cs1 ++ CallLock :: cs2) t)
| st_call ts cu cl rs cs1 cs2 t :
    step (mkState ts cu cl rs (cs1 ++ CallLock :: cs2) t)
      (mkState (stop_current ts cu ++ [mkTimer t Armed]) (Some (length ts)) cl rs (cs1 ++ Returned false :: cs2) t)
| st_fire ts i x cu cl rs cs t : ts !! i = Some x → t_state x = Armed → t_set x + after ≤ t →
    step (mkState ts cu cl rs cs t) (mkState (<[i := mkTimer (t_set x) (Fired t)]> ts) cu cl (rs ++ [RCheck]) cs t)
| st_run_closed ts cu rs1 rs2 cs t : step (mkState ts cu true (rs1 ++ RCheck :: rs2) cs t) (mkState ts cu true (rs1 ++ RSkipped :: rs2) cs t)
| st_run_open ts cu rs1 rs2 cs t : step (mkState ts cu false (rs1 ++ RCheck :: rs2) cs t) (mkState ts cu false (rs1 ++ RPassed :: rs2) cs t)
| st_run ts cu cl rs1 rs2 cs t : step (mkState ts cu cl (rs1 ++ RPassed :: rs2) cs t) (mkState ts cu cl (rs1 ++ RRan :: rs2) cs t)
| st_flush_none ts cl rs cs1 cs2 t : step (mkState ts None cl rs (cs1 ++ FlushStart :: cs2) t) (mkState ts None cl rs (cs1 ++ Returned true :: cs2) t)
| st_flush ts i cl rs cs1 cs2 t : step (mkState ts (Some i) cl rs (cs1 ++ FlushStart :: cs2) t) (mkState ts None cl rs (cs1 ++ FlushStop i :: cs2) t)
| st_flush_stops ts i x cu cl rs cs1 cs2 t : ts !! i = Some x → t_state x = Armed →
    step (mkState ts cu cl rs (cs1 ++ FlushStop i :: cs2) t) (mkState (<[i := mkTimer (t_set x) Flushed]> ts) cu cl (rs ++ [RCheck]) (cs1 ++ Returned true :: cs2) t)
| st_flush_late ts i x cu cl rs cs1 cs2 t : ts !! i = Some x → t_state x ≠ Armed →
    step (mkState ts cu cl rs (cs1 ++ FlushStop i :: cs2) t) (mkState ts cu cl rs (cs1 ++ Returned true :: cs2) t)
| st_cancel ts cu cl rs cs1 cs2 t :
    step (mkState ts cu cl rs (cs1 ++ CancelStart :: cs2) t) (mkState (stop_current ts cu) None cl rs (cs1 ++ Returned false :: cs2) t)
| st_close_cancel ts cu cl rs cs1 cs2 t :
    step (mkState ts cu cl rs (cs1 ++ CloseStart :: cs2) t) (mkState (stop_current ts cu) None cl rs (cs1 ++ CloseFlag :: cs2) t)
| st_close ts cu cl rs cs1 cs2 t : step (mkState ts cu cl rs (cs1 ++ CloseFlag :: cs2) t) (mkState ts cu true rs (cs1 ++ Returned false :: cs2) t).

Definition start (t : Z) : state := mkState [] None false [] [] t.

(** ** One execution per timer *)

Definition executed (t : timer) : bool := match t_state t with Fired _ | Flushed => true | _ => false end.
Definition executions (ts : list timer) : nat := length (filter (λ t, executed t = true) ts).
Lemma executions_insert ts i x x' : ts !! i = Some x → executions (<[i := x']> ts) = (executions ts + (if executed x' then 1 else 0) - (if executed x then 1 else 0))%nat.
Proof using.
  intros Hi. unfold executions. rewrite <- (take_drop_middle ts i x Hi) at 2. rewrite insert_take_drop by (by eapply lookup_lt_Some).
  rewrite !filter_app, !filter_cons, !length_app. destruct (executed x), (executed x'); repeat (case_decide; try done); cbn [length]; lia.
Qed.
Lemma executions_app ts1 ts2 : executions (ts1 ++ ts2) = (executions ts1 + executions ts2)%nat.
Proof using. unfold executions. by rewrite filter_app, length_app. Qed.
Lemma executions_stop ts cu : executions (stop_current ts cu) = executions ts.
Proof using.
  destruct cu as [i|]; [|done]. unfold stop_current. destruct (ts !! i) as [x|] eqn:Hi; [|done].
  rewrite (executions_insert _ _ x) by done. unfold stop_timer, executed. destruct x as [s [| |f|]] eqn:Ex; cbn; try lia.
  all: assert (0 < executions ts)%nat by (unfold executions; rewrite <- (take_drop_middle ts i x ltac:(by rewrite Ex)), filter_app, filter_cons, length_app, Ex; cbn; lia); lia.
Qed.
Lemma executions_step y y' : length (runs y) = executions (timers y) → step y y' → length (runs y') = executions (timers y').
Proof using.
  intros Hy Hs. destruct Hs; cbn [runs timers] in *; rewrite ?length_app in *; cbn [length] in *; rewrite ?executions_stop; try lia.
  - rewrite executions_app, executions_stop. change (executions [mkTimer t Armed]) with 0%nat. lia.
  - rewrite (executions_insert _ _ x) by done. assert (executed x = false) as -> by (unfold executed; by rewrite H0). cbn. lia.
  - rewrite (executions_insert _ _ x) by done. assert (executed x = false) as -> by (unfold executed; by rewrite H0). cbn. lia.
Qed.
Lemma executions_run t y : rtc step (start t) y → length (runs y) = executions (timers y).
Proof using.
  intros Hr. assert (length (runs (start t)) = executions (timers (start t))) as H0 by done. revert H0.
  induction Hr as [|y1 y2 y3 Hs _ IH]; [done|]. intros H0. apply IH. by eapply executions_step.
Qed.
(** A timer leads to one execution at most.  Under every interleaving there are as many executions as timers that fired or
    were flushed: [Flush] racing with the timer, with other calls and with itself never executes twice what was asked for once. *)
Theorem debounce_once t y : rtc step (start t) y → length (runs y) = executions (timers y) ∧ (length (runs y) ≤ length (timers y))%nat.
Proof using. intros Hr. rewrite (executions_run t y Hr). split; [done|]. unfold executions. apply length_filter. Qed.

(** ** Quiet periods *)

Definition no_flush (x : pc) : Prop := match x with FlushStart | FlushStop _ | Returned true => False | _ => True end.
Record quiet (y : state) : Prop := mkQuiet {
  only_current : ∀ i x, timers y !! i = Some x → t_state x = Armed → current y = Some i;
  current_last : ∀ i, current y = Some i → S i = length (timers y);
  waited : ∀ i x f, timers y !! i = Some x → t_state x = Fired f → t_set x + after ≤ f ≤ now y;
  later_set : ∀ i j x x' f, (i < j)%nat → timers y !! i = Some x → timers y !! j = Some x' → t_state x = Fired f → f ≤ t_set x';
  set_past : ∀ i x, timers y !! i = Some x → t_set x ≤ now y }.
Definition quiet_if (y : state) : Prop := Forall no_flush (calls y) → quiet y.

Lemma stop_current_length ts cu : length (stop_current ts cu) = length ts.
Proof using. unfold stop_current. repeat case_match; [apply length_insert|done|done]. Qed.
(** Stopping the current timer changes no other, and no time. *)
Lemma stop_current_lookup ts cu i x : stop_current ts cu !! i = Some x →
  ∃ x0, ts !! i = Some x0 ∧ t_set x = t_set x0 ∧ (∀ f, t_state x = Fired f → t_state x0 = Fired f) ∧ (t_state x = Armed → t_state x0 = Armed ∧ cu ≠ Some i).
Proof using.
  unfold stop_current. destruct cu as [c|]; [|intros H; exists x; naive_solver]. destruct (ts !! c) as [xc|] eqn:Ec.
  - destruct (decide (c = i)) as [<-|Hne].
    + rewrite list_lookup_insert_eq by (by eapply lookup_lt_Some). intros [= <-]. exists xc. unfold stop_timer. destruct xc as [s [| |f|]]; cbn; naive_solver.
    + rewrite list_lookup_insert_ne by done. intros H. exists x. naive_solver.
  - intros H. exists x. split_and!; [done..|]. intros Ha. split; [done|]. intros [= ->]. congruence.
Qed.
Lemma quiet_stop ts cu cl rs cs t cl' rs' cs' : quiet (mkState ts cu cl rs cs t) → quiet (mkState (stop_current ts cu) None cl' rs' cs' t).
Proof using.
  intros [H1 H2 H3 H4 H5]. cbn in *. split; cbn.
  - intros i x Hi Ha. apply stop_current_lookup in Hi as (x0 & E0 & _ & _ & Hx). destruct (Hx Ha) as [Ha0 Hne]. by apply (H1 i x0) in E0.
  - done.
  - intros i x f Hi Hf. apply stop_current_lookup in Hi as (x0 & E0 & -> & Hx & _). eapply H3; [done|]. by apply Hx.
  - intros i j x x' f Hij Hi Hj Hf. apply stop_current_lookup in Hi as (x0 & E0 & _ & Hx & _). apply stop_current_lookup in Hj as (x1 & E1 & -> & _). eapply H4; [done..|]. by apply Hx.
  - intros i x Hi. apply stop_current_lookup in Hi as (x0 & E0 & -> & _). by eapply H5.
Qed.
Lemma quiet_call ts cu cl rs cs t cl' rs' cs' : quiet (mkState ts cu cl rs cs t) → quiet (mkState (stop_current ts cu ++ [mkTimer t Armed]) (Some (length ts)) cl' rs' cs' t).
Proof using.
  intros Hq. pose proof (quiet_stop ts cu cl rs cs t cl rs cs Hq) as [H1 H2 H3 H4 H5]. cbn in *. pose proof (stop_current_length ts cu) as Hl.
  split; cbn [timers current now]; try setoid_rewrite lookup_snoc_Some; rewrite ?length_app, ?Hl; cbn [length t_state t_set].
  - intros i x [[_ Hi]|[-> _]] Ha; [by apply (H1 i x) in Hi|done].
  - intros i [= <-]. lia.
  - intros i x f [[_ Hi]|[-> <-]]; [by eapply H3|done].
  - intros i j x x' f Hij [[_ Hi]|[-> <-]] Hj Hf; [|done]. destruct Hj as [[_ Hj]|[-> <-]]; [exact (H4 i j x x' f Hij Hi Hj Hf)|]. cbn. destruct (H3 i x f Hi Hf). lia.
  - intros i x [[_ Hi]|[_ <-]]; [by eapply H5|done].
Qed.
Lemma quiet_debounce_step y y' : quiet_if y → step y y' → quiet_if y'.
Proof using.
  intros Hq Hs. unfold quiet_if in *. destruct Hs; cbn [calls] in *; rewrite ?Forall_app, ?Forall_cons in *; intros Hn; try (exfalso; cbn in Hn; naive_solver).
  - specialize (Hq Hn). destruct Hq as [Q1 Q2 Q3 Q4 Q5]. cbn in *. split; cbn; try done; [intros i x f Hi Hf; specialize (Q3 i x f Hi Hf); lia|].
    intros i x Hi. specialize (Q5 i x Hi). lia.
  - specialize (Hq (proj1 Hn)). by destruct Hq.
  - specialize (Hq ltac:(naive_solver)). by destruct Hq.
  - specialize (Hq ltac:(naive_solver)). by destruct Hq.
  - specialize (Hq ltac:(naive_solver)). by eapply quiet_call.
  - specialize (Hq Hn). destruct Hq as [Q1 Q2 Q3 Q4 Q5]. cbn in *. rename select (ts !! i = _) into Hi. rename select (t_state x = _) into Ha.
    pose proof (Q1 i x Hi Ha) as Hcu. pose proof (Q2 i Hcu) as Hlast. assert (i < length ts)%nat as Hlt by lia.
    split; cbn; rewrite ?length_insert; try done.
    + intros j x' Hj Ha'. apply list_lookup_insert_Some in Hj as [(<- & <- & _)|[_ Hj]]; [done|by eapply Q1].
    + intros j x' f Hj Hf. apply list_lookup_insert_Some in Hj as [(<- & <- & _)|[_ Hj]]; [cbn in *; simplify_eq; lia|by eapply Q3].
    + intros j k x1 x2 f Hjk Hj Hk Hf. apply list_lookup_insert_Some in Hj as [(<- & <- & _)|[_ Hj]].
      { apply lookup_lt_Some in Hk. rewrite length_insert in Hk. lia. }
      apply list_lookup_insert_Some in Hk as [(<- & <- & _)|[_ Hk]]; [cbn; by eapply (Q4 j i)|by eapply (Q4 j k)].
    + intros j x' Hj. apply list_lookup_insert_Some in Hj as [(<- & <- & _)|[_ Hj]]; [cbn; by eapply Q5|by eapply Q5].
  - specialize (Hq Hn). by destruct Hq.
  - specialize (Hq Hn). by destruct Hq.
  - specialize (Hq Hn). by destruct Hq.
  - specialize (Hq ltac:(naive_solver)). by eapply quiet_stop.
  - specialize (Hq ltac:(naive_solver)). by eapply quiet_stop.
  - specialize (Hq ltac:(naive_solver)). by destruct Hq.
Qed.
(** Without [Flush] there is a quiet period before every execution.  A timer fires at least [after] after the call that set
    it, no call was made in between, and two executions are at least [after] apart. *)
Theorem debounce_spacing t y i j x x' f f' : rtc step (start t) y → Forall no_flush (calls y) → (i < j)%nat →
  timers y !! i = Some x → timers y !! j = Some x' → t_state x = Fired f → t_state x' = Fired f' →
  t_set x + after ≤ f ∧ f ≤ t_set x' ∧ f + after ≤ f'.
Proof using.
  intros Hr Hn Hij Hi Hj Hf Hf'. assert (quiet_if y) as Hq.
  { assert (quiet_if (start t)) as H0 by (intros _; split; cbn; intros; done || by rewrite lookup_nil in *). revert H0. clear -Hr.
    induction Hr as [|y1 y2 y3 Hs _ IH]; [done|]. intros H0. apply IH. by eapply quiet_debounce_step. }
  destruct (Hq Hn) as [_ _ H3 H4 _]. pose proof (H3 i x f Hi Hf). pose proof (H3 j x' f' Hj Hf'). pose proof (H4 i j x x' f Hij Hi Hj Hf). lia.
Qed.

(** ** [Close] *)

Definition passed (r : run) : bool := match r with RPassed | RRan => true | _ => false end.
Definition passes (rs : list run) : nat := length (filter (λ r, passed r = true) rs).
Lemma passes_app rs1 rs2 : passes (rs1 ++ rs2) = (passes rs1 + passes rs2)%nat.
Proof using. unfold passes. by rewrite filter_app, length_app. Qed.
Lemma passes_cons r rs : passes (r :: rs) = ((if passed r then 1 else 0) + passes rs)%nat.
Proof using. unfold passes. rewrite filter_cons. by destruct (passed r). Qed.
(** Once [Close] has set its flag, no execution passes its test any more, whatever was scheduled: the executions of the user's
    function from then on are among those that had already passed. *)
Theorem debounce_closed y y' : closed y = true → rtc step y y' → closed y' = true ∧ passes (runs y') = passes (runs y).
Proof using.
  intros Hc Hr. revert Hc. induction Hr as [y|y1 y2 y3 Hs _ IH]; [done|]. intros Hc.
  assert (closed y2 = true ∧ passes (runs y2) = passes (runs y1)) as [H1 H2]; [|destruct (IH H1) as [? ->]; done].
  destruct Hs; cbn [closed runs] in *; simplify_eq; rewrite ?passes_app, ?passes_cons; cbn; split; try done; lia.
Qed.
End Debounce.

(** ** Throttle *)

(** [last_run]: none for the zero time, from which every duration has passed. *)
Record Throttle := mkThrottle { interval : Z; last_run : option Z; t_closed : bool; callCount : Z }.
Definition NewThrottle (interval : Z) : Throttle := mkThrottle interval None false 0.
Definition due (th : Throttle) (t : Z) : bool := match last_run th with Some l => interval th <=? t - l | None => true end.
(** [Call] and [CallBlocking] decide alike; they differ in who runs [fn]. *)
Definition Call (th : Throttle) (t : Z) : bool * Throttle :=
  if t_closed th then (false, th)
  else if due th t then (true, mkThrottle (interval th) (Some t) (t_closed th) (i64 (callCount th + 1)))
  else (false, th).
Definition CloseThrottle (th : Throttle) : Throttle := mkThrottle (interval th) (last_run th) true (callCount th).

Inductive throttle_op := TCall (t : Z) | TClose.
(** The times at which a run of operations executed [fn]. *)
Fixpoint throttle_run (th : Throttle) (ops : list throttle_op) : list Z * Throttle :=
  match ops with
  | [] => ([], th)
  | TCall t :: ops => let '(ok, th) := Call th t in let '(gs, th) := throttle_run th ops in (if ok then t :: gs else gs, th)
  | TClose :: ops => throttle_run (CloseThrottle th) ops
  end.
Lemma throttle_run_spec ops th : let '(gs, th') := throttle_run th ops in
  interval th' = interval th ∧ callCount th' = Nat.iter (length gs) (λ c, i64 (c + 1)) (callCount th) ∧
  (t_closed th = true → gs = []) ∧
  (∀ l g, last_run th = Some l → head gs = Some g → l + interval th ≤ g) ∧
  (∀ i a b, gs !! i = Some a → gs !! S i = Some b → a + interval th ≤ b).
Proof.
  revert th. induction ops as [|[t|] ops IH]; intros th; cbn [throttle_run]; [split_and!; naive_solver| |].
  - unfold Call. destruct (t_closed th) eqn:Ec; [specialize (IH th); destruct (throttle_run th ops) as [gs th']; naive_solver|].
    destruct (due th t) eqn:Ed.
    + set (th1 := mkThrottle _ _ _ _). specialize (IH th1). destruct (throttle_run th1 ops) as [gs th']. destruct IH as (I1 & I2 & I3 & I4 & I5). cbn in *. split_and!; try done.
      * rewrite I2. symmetry. exact (Nat.iter_succ_r (length gs) (λ c, i64 (c + 1)) (callCount th)).
      * intros l g Hl [= <-]. unfold due in Ed. rewrite Hl in Ed. lia.
      * intros [|i] a b Ha Hb; cbn in *; [|by eapply I5]. simplify_eq. apply (I4 a b eq_refl). destruct gs; done.
    + specialize (IH th). destruct (throttle_run th ops) as [gs th']. naive_solver.
  - specialize (IH (CloseThrottle th)). destruct (throttle_run (CloseThrottle th) ops) as [gs th']. destruct IH as (I1 & I2 & I3 & I4 & I5). split_and!; try done. intros Hc. by apply I3.
Qed.
(** A throttle executes at most once per interval.  For any clock, consecutive executions are at least the interval apart, the
    counter is their number, the first call executes, and after [Close] nothing does. *)
Theorem throttle_spacing iv ops : let '(gs, th) := throttle_run (NewThrottle iv) ops in
  (∀ i a b, gs !! i = Some a → gs !! S i = Some b → a + iv ≤ b) ∧ (Z.of_nat (length gs) ≤ max_i64 → callCount th = Z.of_nat (length gs)) ∧
  (∀ t ops', ops = TCall t :: ops' → head gs = Some t) ∧ (∀ ops', (throttle_run (CloseThrottle th) ops').1 = []).
Proof.
  pose proof (throttle_run_spec ops (NewThrottle iv)) as H. destruct (throttle_run (NewThrottle iv) ops) as [gs th] eqn:E. destruct H as (H1 & H2 & _ & _ & H5).
  split_and!; [done| | |].
  - intros Hle. rewrite H2. clear -Hle. change (callCount (NewThrottle iv)) with 0. induction (length gs) as [|n IH]; [done|].
    change (i64 (Nat.iter n (λ c, i64 (c + 1)) 0 + 1) = Z.of_nat (S n)). rewrite IH by lia. rewrite i64_id; [lia|]. unfold in_i64. unfold_int. lia.
  - intros t ops' ->. cbn in E. destruct (throttle_run _ ops') as [gs' th'']. by simplify_eq.
  - intros ops'. pose proof (throttle_run_spec ops' (CloseThrottle th)) as H. destruct (throttle_run (CloseThrottle th) ops') as [gs' th']. by apply H.
Qed.

(** ** Concrete runs *)

(** Calls at 0 and 3 with a quiet period of 10, the timer of the second fires at 13; a third call at 20 fires at 30. *)
Definition demo_fired : list timer := [mkTimer 0 TStopped; mkTimer 3 (Fired 13); mkTimer 20 (Fired 30)].
Definition demo_quiet : state := mkState demo_fired (Some 2%nat) false [RCheck; RCheck] [Returned false; Returned false; Returned false] 30.
Ltac one_call := eapply rtc_l; [apply (st_begin 10 _ _ _ _ _ _ CallStart); left|].
Lemma demo_quiet_reachable : rtc (step 10) (start 0) demo_quiet.
Proof.
  one_call. eapply rtc_l; [apply (st_call_open 10 _ _ _ [] [])|]. eapply rtc_l; [apply (st_call 10 _ _ _ _ [] [])|].
  eapply rtc_l; [apply (st_time 10 _ _ _ _ _ 0 3); lia|].
  one_call. eapply rtc_l; [apply (st_call_open 10 _ _ _ [_] [])|]. eapply rtc_l; [apply (st_call 10 _ _ _ _ [_] [])|].
  eapply rtc_l; [apply (st_time 10 _ _ _ _ _ 3 13); lia|].
  eapply rtc_l; [apply (st_fire 10 _ 1%nat (mkTimer 3 Armed)); [done|done|cbn; lia]|].
  eapply rtc_l; [apply (st_time 10 _ _ _ _ _ 13 20); lia|].
  one_call. eapply rtc_l; [apply (st_call_open 10 _ _ _ [_; _] [])|]. eapply rtc_l; [apply (st_call 10 _ _ _ _ [_; _] [])|].
  eapply rtc_l; [apply (st_time 10 _ _ _ _ _ 20 30); lia|].
  eapply rtc_l; [apply (st_fire 10 _ 2%nat (mkTimer 20 Armed)); [done|done|cbn; lia]|]. apply rtc_refl.
Qed.
Example debounce_once_witness : length (runs demo_quiet) = 2%nat ∧ (length (runs demo_quiet) ≤ length (timers demo_quiet))%nat.
Proof. split; [reflexivity|]. exact (proj2 (debounce_once 10 0 demo_quiet demo_quiet_reachable)). Defined.
Example debounce_spacing_witness : Forall no_flush (calls demo_quiet) ∧ 13 + 10 ≤ 30.
Proof.
  split; [repeat constructor|].
  refine (proj2 (proj2 (debounce_spacing 10 0 demo_quiet 1 2 (mkTimer 3 (Fired 13)) (mkTimer 20 (Fired 30)) 13 30 demo_quiet_reachable _ _ eq_refl eq_refl eq_refl eq_refl)));
    [repeat constructor|lia].
Defined.
(** Both timers have fired and nothing is scheduled. *)
Example pending_after_fire : rtc (step 10) (start 0) demo_quiet ∧ Pending demo_quiet = true ∧ Forall (λ t, t_state t ≠ Armed) (timers demo_quiet).
Proof. split_and!; [exact demo_quiet_reachable|done|by repeat constructor]. Qed.
(** The second execution passes its test, [Close] returns, and then the user's function starts. *)
Definition demo_shut : state := mkState demo_fired None true [RCheck; RPassed] [Returned false; Returned false; Returned false; Returned false] 30.
Lemma demo_shut_reachable : rtc (step 10) demo_quiet demo_shut.
Proof.
  eapply rtc_l; [apply (st_run_open 10 _ _ [_] [])|]. eapply rtc_l; [apply (st_begin 10 _ _ _ _ _ _ CloseStart); apply list_elem_of_In; cbn; auto|].
  eapply rtc_l; [apply (st_close_cancel 10 _ _ _ _ [_; _; _] [])|]. eapply rtc_l; [apply (st_close 10 _ _ _ _ [_; _; _] [])|]. apply rtc_refl.
Qed.
Lemma demo_shut_runs : rtc (step 10) demo_shut (mkState demo_fired None true [RSkipped; RRan] (calls demo_shut) 30).
Proof. eapply rtc_l; [apply (st_run_closed 10 _ _ [] [_])|]. eapply rtc_l; [apply (st_run 10 _ _ _ [_] [])|]. apply rtc_refl. Qed.
Example debounce_closed_witness : closed demo_shut = true ∧ passes [RSkipped; RRan] = passes (runs demo_shut).
Proof. split; [reflexivity|]. exact (proj2 (debounce_closed 10 demo_shut _ eq_refl demo_shut_runs)). Defined.
Example runs_after_close : closed demo_shut = true ∧ rtc (step 10) (start 0) demo_shut ∧ rtc (step 10) demo_shut (mkState demo_fired None true [RSkipped; RRan] (calls demo_shut) 30).
Proof. split_and!; [done| |exact demo_shut_runs]. etrans; [exact demo_quiet_reachable|exact demo_shut_reachable]. Qed.
