(* ===== verification/ShortLink.v ===== *)
(** * ShortLink: short codes for links ([shortlink/shortlink.go])

    Codes, alphabets and addresses are byte lists.  The random source is a parameter, the
    outcome of each draw of [rand.Int]; the backing store is a class [Store] with what its
    interface documents ([StoreLaws]), and [MemoryStore] is an instance.  Other goroutines save
    into the same store between the attempts of [Generate]: these saves are an argument.

    Shown: a generated code resolves to its address for good and was free before, and every way
    [Generate] fails is accounted for ([generate_exact], [generate_resolves]); an identifier
    comes back from its code for every alphabet the constructors accept ([id_code_roundtrip]),
    and decoding is the positional value or a reported error, never a wrapped number
    ([decode_positional]).  [zero_retries_is_three] shows that no retries cannot be asked for. *)

From Stdlib Require Import ZArith Lia Ascii String.
From stdpp Require Import base tactics numbers list gmap strings.
From S2P Require Import Prelude GoStd.

#[local] Open Scope list_scope.
#[local] Open Scope Z_scope.

Abbreviation bytes := (list ascii).

Inductive error :=
| ErrNotFound
| ErrEmptyURL
| ErrCollision
| ErrCodeSpaceExhausted (cause : error)
| ErrInvalidChar
| ErrOverflow
| ErrOther (n : Z).

#[global] Instance error_eq_dec : EqDecision error.
Proof. solve_decision. Defined.

(** [errors.Is(err, ErrCollision)]: a wrapped error is searched, too. *)
Fixpoint isCollision (e : error) : bool :=
  match e with
  | ErrCollision => true
  | ErrCodeSpaceExhausted c => isCollision c
  | _ => false
  end.

Definition Alphabet : bytes :=
  String.list_ascii_of_string "0123456789ABCDEFGHIJKLMNOPQRSTUVWXYZabcdefghijklmnopqrstuvwxyz".
Definition defaultCodeLen : Z := 6.
Definition defaultRetries : Z := 3.

(** ** The store *)

(** [type Store interface]: [Save] fails when the code exists. *)
Class Store (S : Type) := {
  Save : S → bytes → bytes → S * option error;
  Load : S → bytes → option bytes;
}.

Class StoreLaws (S : Type) `{Store S} := {
  save_free : ∀ s code url, (Save s code url).2 = None →
    Load s code = None ∧ ∀ c, Load (Save s code url).1 c = if decide (c = code) then Some url else Load s c;
  save_refused : ∀ s code url, (Save s code url).2 ≠ None → ∀ c, Load (Save s code url).1 c = Load s c;
  save_collision : ∀ s code url e, (Save s code url).2 = Some e → isCollision e = true → Load s code ≠ None;
}.

Definition MemoryStore : Type := gmap bytes bytes.
Definition NewMemoryStore : MemoryStore := ∅.
Definition MemoryStore_Save (s : MemoryStore) (code url : bytes) : MemoryStore * option error :=
  match s !! code with
  | Some _ => (s, Some ErrCollision)
  | None => (<[code := url]> s, None)
  end.
Definition MemoryStore_Load (s : MemoryStore) (code : bytes) : option bytes := s !! code.

#[global] Instance memory_store : Store MemoryStore :=
  {| Save := MemoryStore_Save; Load := MemoryStore_Load |}.

#[global] Instance memory_store_laws : StoreLaws MemoryStore.
Proof.
  split; cbn; unfold MemoryStore_Save, MemoryStore_Load; intros s code url; destruct (s !! code) eqn:E; cbn; try done.
  - intros _. split; [done|]. intros c. case_decide; [subst; apply lookup_insert_eq|by apply lookup_insert_ne].
Qed.

(** ** Options *)

Fixpoint uniqueChars (seen : list ascii) (s : bytes) : bool :=
  match s with
  | [] => true
  | c :: s => if bool_decide (c ∈ seen) then false else uniqueChars (c :: seen) s
  end.

Section shortener.
Context {S : Type} `{Store S}.

Record config := Config {
  codeLen : Z;
  alphabet : bytes;
  store : option S;
  retries : Z;
}.

Inductive Option_ :=
| WithCodeLength (n : Z)
| WithAlphabet (s : bytes)
| WithRetries (n : Z)
| WithStore (s : S).

Definition apply_opt (c : config) (o : Option_) : config :=
  match o with
  | WithCodeLength n => if 0 <? n then Config n (alphabet c) (store c) (retries c) else c
  | WithAlphabet s =>
      if (1 <? length s)%nat && uniqueChars [] s then Config (codeLen c) s (store c) (retries c) else c
  | WithRetries n => if 0 <=? n then Config (codeLen c) (alphabet c) (store c) n else c
  | WithStore s => Config (codeLen c) (alphabet c) (Some s) (retries c)
  end.

(** [fresh] is the store that [NewMemoryStore] would give. *)
Definition defaults (fresh : S) (c : config) : config :=
  Config (if codeLen c <=? 0 then defaultCodeLen else codeLen c)
         (match alphabet c with [] => Alphabet | a => a end)
         (match store c with None => Some fresh | s => s end)
         (if retries c <=? 0 then defaultRetries else retries c).

Record Shortener := MkShortener { cfg : config; s_retries : Z }.

Definition New (fresh : S) (opts : list Option_) : Shortener :=
  let c := defaults fresh (fold_left apply_opt opts (Config 0 [] None 0)) in
  MkShortener c (retries c).

(** ** Random codes *)

(** The [k]-th draw of [rand.Int(rand.Reader, n)]: a number or an error of the source. *)
Context (draw : Z → nat → result error Z).

(** [for i := range code { ... }]: [k] draws have been made, [n] bytes are to come; an index
    outside the alphabet would panic, [None]. *)
Fixpoint randomCode_loop (alpha : bytes) (n k : nat) : option (result error bytes) :=
  match n with
  | O => Some (Ok [])
  | Datatypes.S n =>
      match draw (Z.of_nat (length alpha)) k with
      | Err e => Some (Err e)
      | Ok idx =>
          c ← (if 0 <=? idx then alpha !! Z.to_nat idx else None);
          r ← randomCode_loop alpha n (k + 1);
          Some (match r with Ok code => Ok (c :: code) | Err e => Err e end)
      end
  end.

Definition randomCode (c : config) (k : nat) : option (result error bytes) :=
  randomCode_loop (alphabet c) (Z.to_nat (codeLen c)) k.

(** What other goroutines save in the meantime. *)
Definition save_all (s : S) (saves : list (bytes * bytes)) : S :=
  fold_left (λ s p, (Save s p.1 p.2).1) saves s.

(** [for attempt := 0; attempt <= s.retries; attempt++]: [budget] attempts are left, [k] draws have
    been made; before the attempt's [Save], the others have saved [head others]. *)
Fixpoint Generate_loop (c : config) (url : bytes) (budget k : nat) (others : list (list (bytes * bytes)))
    (lastErr : error) (s : S) : option (S * result error bytes) :=
  match budget with
  | O => Some (s, Err (ErrCodeSpaceExhausted lastErr))
  | Datatypes.S budget =>
      r ← randomCode c k;
      let s := save_all s (default [] (head others)) in
      match r with
      | Err e => Some (s, Err e)
      | Ok code =>
          match Save s code url with
          | (s, None) => Some (s, Ok code)
          | (s, Some e) =>
              if isCollision e then Generate_loop c url budget (k + length code) (tail others) e s
              else Some (s, Err e)
          end
      end
  end.

Definition Generate (sh : Shortener) (url : bytes) (others : list (list (bytes * bytes))) (s : S) :
    option (S * result error bytes) :=
  match url with
  | [] => Some (s, Err ErrEmptyURL)
  | _ => Generate_loop (cfg sh) url (Z.to_nat (s_retries sh + 1)) 0 others ErrCollision s
  end.

Definition Resolve (s : S) (code : bytes) : result error bytes :=
  match Load s code with Some url => Ok url | None => Err ErrNotFound end.

End shortener.
Arguments config : clear implicits.
Arguments Option_ : clear implicits.
Arguments Shortener : clear implicits.

(** ** Sequential identifiers *)

Record IDShortener := MkIDShortener { id_alphabet : bytes; counter : Z }.

Definition NewIDShortener (alphabet : bytes) (startID : Z) : IDShortener :=
  MkIDShortener (if (length alphabet <=? 1)%nat || negb (uniqueChars [] alphabet) then Alphabet else alphabet) startID.

(** [buf] has [i] free bytes at its front, [out] is what was written behind them; [None] is an
    index out of range. *)
Fixpoint encode_loop (i : nat) (id : Z) (alphabet out : bytes) : option bytes :=
  if 0 <? id then
    match i, alphabet !! Z.to_nat (id mod Z.of_nat (length alphabet)) with
    | Datatypes.S i, Some c => encode_loop i (id / Z.of_nat (length alphabet)) alphabet (c :: out)
    | _, _ => None
    end
  else Some out.

Definition encodeBaseN (id : Z) (alphabet : bytes) : option bytes :=
  if id =? 0 then c ← alphabet !! 0%nat; Some [c] else encode_loop 64 id alphabet [].

(** [index[alphabet[i]] = uint64(i)] in the order of the alphabet: the last occurrence stays. *)
Fixpoint buildIndex (alphabet : bytes) (i : Z) (index : gmap ascii Z) : gmap ascii Z :=
  match alphabet with
  | [] => index
  | c :: alphabet => buildIndex alphabet (i + 1) (<[c := i]> index)
  end.

Fixpoint decode_loop (n : Z) (index : gmap ascii Z) (code : bytes) (result_ : Z) : result error Z :=
  match code with
  | [] => Ok result_
  | c :: code =>
      match index !! c with
      | None => Err ErrInvalidChar
      | Some val =>
          if u64 (max_u64 - val) / n <? result_ then Err ErrOverflow
          else decode_loop n index code (u64 (u64 (result_ * n) + val))
      end
  end.

Definition decodeBaseN (code alphabet : bytes) : result error Z :=
  decode_loop (Z.of_nat (length alphabet)) (buildIndex alphabet 0 ∅) code 0.

Definition Encode (s : IDShortener) (id : Z) : option bytes := encodeBaseN id (id_alphabet s).
Definition Decode (s : IDShortener) (code : bytes) : result error Z := decodeBaseN code (id_alphabet s).
Definition Next (s : IDShortener) : IDShortener * option bytes :=
  let s := MkIDShortener (id_alphabet s) (u64 (counter s + 1)) in (s, Encode s (counter s)).

(** ** Lemmas: alphabets *)

Lemma uniqueChars_spec s seen : uniqueChars seen s = true ↔ NoDup s ∧ ∀ c, c ∈ s → c ∉ seen.
Proof.
  revert seen. induction s as [|c s IH]; intros seen; cbn.
  { split; [|done]. intros _. split; [constructor|]. intros c Hc. by apply not_elem_of_nil in Hc. }
  case_bool_decide as Hc.
  - split; [done|]. intros [_ Hf]. exfalso. apply (Hf c); [by left|done].
  - rewrite IH, NoDup_cons. split.
    + intros [Hnd Hf]. split_and!; [|done|].
      * intros Hin. apply (Hf c Hin). by left.
      * intros d [->|Hd]%elem_of_cons; [done|]. intros Hs. apply (Hf d Hd). by right.
    + intros [[Hcs Hnd] Hf]. split; [done|]. intros d Hd [->|Hs]%elem_of_cons; [done|].
      by apply (Hf d); [right|].
Qed.

(** An alphabet that can encode: at least two bytes, all different. *)
Definition valid_alphabet (a : bytes) : Prop := (1 < length a)%nat ∧ NoDup a.

Lemma Alphabet_valid : valid_alphabet Alphabet.
Proof. split; [cbn; lia|]. apply (uniqueChars_spec _ []). vm_compute. reflexivity. Qed.

Lemma NewIDShortener_valid a start : valid_alphabet (id_alphabet (NewIDShortener a start)).
Proof.
  cbn. destruct (Nat.leb_spec (length a) 1); [apply Alphabet_valid|]. cbn.
  destruct (uniqueChars [] a) eqn:E; [|apply Alphabet_valid]. split; [done|]. by apply uniqueChars_spec in E as [? _].
Qed.

(** The index of a valid alphabet is its inverse. *)
Lemma buildIndex_spec a i m c v : NoDup a →
  buildIndex a i m !! c = Some v ↔
  (∃ k, a !! k = Some c ∧ v = i + Z.of_nat k) ∨ (c ∉ a ∧ m !! c = Some v).
Proof.
  revert i m. induction a as [|d a IH]; intros i m Hnd; cbn [buildIndex].
  { split; [intros Hm; right; split; [apply not_elem_of_nil|done]|]. intros [(k & [=] & _)|[_ ?]]; done. }
  apply NoDup_cons in Hnd as [Hd Hnd]. rewrite IH by done. split.
  - intros [(k & Hk & ->)|[Hc Hm]]; [left; exists (S k); split; [done|lia]|].
    destruct (decide (d = c)) as [->|Hne].
    + rewrite lookup_insert_eq in Hm. injection Hm as <-. left. exists 0%nat. split; [done|lia].
    + rewrite lookup_insert_ne in Hm by done. right. split; [|done]. by apply not_elem_of_cons.
  - intros [([|k] & Hk & ->)|[[Hne Hc]%not_elem_of_cons Hm]].
    + injection Hk as ->. right. split; [done|]. rewrite lookup_insert_eq. f_equal. lia.
    + left. exists k. split; [done|lia].
    + right. split; [done|]. by rewrite lookup_insert_ne.
Qed.

Lemma index_lookup a c v : NoDup a →
  buildIndex a 0 ∅ !! c = Some v ↔ ∃ k, a !! k = Some c ∧ v = Z.of_nat k.
Proof.
  intros Hnd. rewrite buildIndex_spec by done. split.
  - intros [(k & Hk & ->)|[_ [=]]]. exists k. split; [done|lia].
  - intros (k & Hk & ->). left. exists k. split; [done|lia].
Qed.

Lemma index_missing a c : NoDup a → buildIndex a 0 ∅ !! c = None → c ∉ a.
Proof.
  intros Hnd Hn [k Hk]%list_elem_of_lookup. assert (buildIndex a 0 ∅ !! c = Some (Z.of_nat k)) as Hs; [|congruence].
  apply index_lookup; [done|]. by exists k.
Qed.

(** ** Lemmas: positional values *)

(** The value of digits, most significant first, after [acc]. *)
Definition value (n : Z) (ds : list Z) (acc : Z) : Z := fold_left (λ a d, a * n + d) ds acc.
(** [ds] are the positions of the bytes of [code] in the alphabet. *)
Definition spells (a code : bytes) (ds : list Z) : Prop :=
  Forall2 (λ c d, ∃ k, a !! k = Some c ∧ d = Z.of_nat k) code ds.

Lemma value_mono n ds acc : 1 ≤ n → Forall (λ d, 0 ≤ d) ds → 0 ≤ acc → acc ≤ value n ds acc.
Proof.
  intros Hn. revert acc. induction ds as [|d ds IH]; intros acc Hds Hacc; cbn; [lia|].
  apply Forall_cons in Hds as [Hd Hds]. unfold value in IH. etrans; [|apply IH; [done|nia]]. nia.
Qed.

Lemma spells_nonneg a code ds : spells a code ds → Forall (λ d, 0 ≤ d) ds.
Proof. induction 1 as [|c d code ds (k & _ & ->) _ IH]; constructor; [lia|done]. Qed.

Lemma decode_guard n val acc : 2 ≤ n → 0 ≤ val < n → n ≤ 256 → 0 ≤ acc →
  u64 (max_u64 - val) / n < acc ↔ max_u64 < acc * n + val.
Proof.
  intros Hn Hv Hn' Hacc. rewrite u64_id by (unfold_int; lia). split.
  - intros Hlt. assert (max_u64 - val < acc * n); [|lia].
    apply Z.div_lt_upper_bound in Hlt || idtac. destruct (Z.lt_ge_cases (max_u64 - val) (acc * n)); [done|].
    assert (acc ≤ (max_u64 - val) / n) by (apply Z.div_le_lower_bound; lia). lia.
  - intros Hlt. apply Z.div_lt_upper_bound; lia.
Qed.

(** The decoder at any point: it continues to the positional value, or stops at a byte that is
    not in the alphabet or at a prefix that does not fit. *)
Lemma decode_loop_spec a code acc : valid_alphabet a → (length a ≤ 256)%nat → 0 ≤ acc ≤ max_u64 →
  match decode_loop (Z.of_nat (length a)) (buildIndex a 0 ∅) code acc with
  | Ok v => ∃ ds, spells a code ds ∧ v = value (Z.of_nat (length a)) ds acc ∧ v ≤ max_u64
  | Err ErrInvalidChar => ∃ c, c ∈ code ∧ c ∉ a
  | Err ErrOverflow => ∃ p r ds, code = p ++ r ∧ spells a p ds ∧ max_u64 < value (Z.of_nat (length a)) ds acc
  | Err _ => False
  end.
Proof.
  intros [Hlen Hnd] Hmax. set (n := Z.of_nat (length a)).
  revert acc. induction code as [|c code IH]; intros acc Hacc; cbn [decode_loop].
  { exists []. split_and!; [constructor|done|lia]. }
  destruct (_ !! c) as [val|] eqn:Ei; cycle 1.
  { exists c. split; [by left|]. by apply index_missing. }
  apply index_lookup in Ei as (k & Hk & ->); [|done]. pose proof (lookup_lt_Some _ _ _ Hk) as Hkl.
  pose proof (decode_guard n (Z.of_nat k) acc) as Hg.
  destruct (Z.ltb_spec (u64 (max_u64 - Z.of_nat k) / n) acc) as [Hlt|Hge].
  - exists [c], code, [Z.of_nat k]. split; [done|]. split; [repeat constructor; by exists k|]. cbn. apply Hg; [lia..|done].
  - assert (acc * n + Z.of_nat k ≤ max_u64) as Hfit by (destruct (Z.le_gt_cases (acc * n + Z.of_nat k) max_u64); [done|]; lia).
    rewrite u64_add_l, u64_id by nia. specialize (IH (acc * n + Z.of_nat k) ltac:(nia)).
    assert (∃ j, a !! j = Some c ∧ Z.of_nat k = Z.of_nat j) as Hj by (by exists k).
    destruct (decode_loop _ _ _ _) as [v|[]]; try done.
    + destruct IH as (ds & Hds & -> & Hv). exists (Z.of_nat k :: ds). split_and!; [by constructor|done|done].
    + destruct IH as (d & Hd & Hna). exists d. split; [by right|done].
    + destruct IH as (p & r & ds & -> & Hp & Hv). exists (c :: p), r, (Z.of_nat k :: ds).
      split_and!; [done|by constructor|done].
Qed.

(** Bytes are 256: an alphabet without duplicates is no longer. *)
Lemma alphabet_short (a : bytes) : NoDup a → (length a ≤ 256)%nat.
Proof.
  intros Hnd. pose proof (submseteq_length (nat_of_ascii <$> a) (seq 0 256)) as Hl.
  rewrite length_fmap, length_seq in Hl. apply Hl, NoDup_submseteq.
  - apply NoDup_fmap_2; [|done]. intros x y Hxy. rewrite <-(ascii_nat_embedding x), <-(ascii_nat_embedding y). by rewrite Hxy.
  - intros x (c & -> & _)%list_elem_of_fmap. apply elem_of_seq. pose proof (nat_ascii_bounded c). lia.
Qed.

Lemma spells_inj a code ds ds' : NoDup a → spells a code ds → spells a code ds' → ds = ds'.
Proof.
  intros Hnd Hsp. revert ds'. induction Hsp as [|c d code ds (k & Hk & ->) _ IH]; intros ds' Hsp';
    inversion Hsp' as [|? d' ? ds'' (k' & Hk' & ->) Hr]; subst; [done|].
  by rewrite (NoDup_lookup _ _ _ _ Hnd Hk Hk'), (IH ds'').
Qed.

Lemma spells_elem a code ds c : spells a code ds → c ∈ code → c ∈ a.
Proof.
  induction 1 as [|c' d code ds (k & Hk & _) _ IH]; [by intros ?%not_elem_of_nil|].
  intros [->|Hc]%elem_of_cons; [by eapply list_elem_of_lookup_2|by apply IH].
Qed.

(** What is spelled and fits is decoded. *)
Lemma decode_spelled a code ds : valid_alphabet a → spells a code ds →
  value (Z.of_nat (length a)) ds 0 ≤ max_u64 → decodeBaseN code a = Ok (value (Z.of_nat (length a)) ds 0).
Proof.
  intros Hv Hsp Hfit. pose proof Hv as [Hlen Hnd].
  pose proof (decode_loop_spec a code 0 Hv (alphabet_short a Hnd) ltac:(unfold_int; lia)) as Hd.
  unfold decodeBaseN. destruct (decode_loop _ _ _ _) as [v|[]]; try done.
  - destruct Hd as (ds' & Hsp' & -> & _). by rewrite (spells_inj a code ds ds').
  - exfalso. destruct Hd as (c & Hc & Hna). by eapply Hna, spells_elem.
  - exfalso. destruct Hd as (p & r & ds' & -> & Hp & Hbig). apply Forall2_app_inv_l in Hsp as (d1 & d2 & H1 & H2 & ->).
    rewrite (spells_inj a p d1 ds' Hnd H1 Hp) in Hfit. unfold value in Hfit. rewrite fold_left_app in Hfit.
    pose proof (value_mono (Z.of_nat (length a)) d2 (value (Z.of_nat (length a)) ds' 0) ltac:(lia)
      (spells_nonneg _ _ _ H2) ltac:(unfold_int; lia)) as Hm. unfold value in Hm, Hbig. lia.
Qed.

(** Encoding from any point, read back. *)
Lemma encode_loop_spec a i id out : valid_alphabet a → 0 ≤ id < 2 ^ Z.of_nat i →
  ∃ (s : bytes) (ds : list Z), encode_loop i id a out = Some (s ++ out) ∧ spells a s ds ∧
    (∀ acc, value (Z.of_nat (length a)) ds acc = acc * Z.of_nat (length a) ^ Z.of_nat (length ds) + id) ∧ (length s ≤ i)%nat.
Proof.
  intros [Hlen Hnd]. set (n := Z.of_nat (length a)). revert id out. induction i as [|i IH]; intros id out Hid.
  { cbn in Hid. assert (id = 0) as -> by lia. exists [], []. split_and!; [done|constructor| |cbn; lia]. intros acc. cbn. lia. }
  cbn [encode_loop]. fold n. destruct (Z.ltb_spec 0 id) as [Hpos|Hz]; cycle 1.
  { assert (id = 0) as -> by lia. exists [], []. split_and!; [done|constructor| |cbn; lia]. intros acc. cbn. lia. }
  pose proof (Z.mod_pos_bound id n ltac:(lia)) as Hm.
  destruct (lookup_lt_is_Some_2 a (Z.to_nat (id mod n))) as [c Hc]; [lia|]. rewrite Hc.
  destruct (IH (id / n) (c :: out)) as (s & ds & -> & Hs & Hv & Hl).
  { split; [apply Z.div_pos; lia|]. apply Z.div_lt_upper_bound; [lia|].
    rewrite Nat2Z.inj_succ, Z.pow_succ_r in Hid by lia. nia. }
  exists (s ++ [c]), (ds ++ [id mod n]). rewrite <-app_assoc. split_and!; [done| | |rewrite length_app; cbn; lia].
  - apply Forall2_app; [done|]. repeat constructor. exists (Z.to_nat (id mod n)). split; [done|lia].
  - intros acc. unfold value. rewrite fold_left_app. cbn. fold (value n ds acc). rewrite Hv, length_app. cbn.
    rewrite Nat2Z.inj_add, Z.pow_add_r, Z.pow_1_r by lia. pose proof (Z.div_mod id n ltac:(lia)). nia.
Qed.

(** A code for every 64-bit number, in the buffer of 64 bytes. *)
Lemma encode_spells a id : valid_alphabet a → 0 ≤ id ≤ max_u64 →
  ∃ code ds, encodeBaseN id a = Some code ∧ spells a code ds ∧ value (Z.of_nat (length a)) ds 0 = id ∧
    (0 < length code ≤ 64)%nat.
Proof.
  intros Hv Hid. unfold encodeBaseN. destruct (Z.eqb_spec id 0) as [->|Hnz].
  - destruct (lookup_lt_is_Some_2 a 0) as [c Hc]; [destruct Hv; lia|]. exists [c], [0]. rewrite Hc.
    split_and!; [done|repeat constructor; by exists 0%nat|done|cbn; lia..].
  - destruct (encode_loop_spec a 64 id [] Hv) as (code & ds & He & Hsp & Hval & Hl); [unfold_int; lia|].
    rewrite app_nil_r in He. exists code, ds. specialize (Hval 0). split_and!; [done..|lia| |done].
    destruct Hsp; [cbn in Hval; lia|cbn; lia].
Qed.

(** ** Theorems: identifiers *)

(** For every shortener that [NewIDShortener] makes and every 64-bit identifier, [Encode] stays
    inside its buffer and [Decode] of its code gives the identifier back; the codes of different
    identifiers differ. *)
Theorem id_code_roundtrip a start id : 0 ≤ id ≤ max_u64 →
  ∃ code, Encode (NewIDShortener a start) id = Some code ∧ Decode (NewIDShortener a start) code = Ok id ∧
    (0 < length code ≤ 64)%nat ∧
    ∀ id', 0 ≤ id' ≤ max_u64 → Encode (NewIDShortener a start) id' = Some code → id' = id.
Proof.
  intros Hid. unfold Encode, Decode. pose proof (NewIDShortener_valid a start) as Hv.
  destruct (encode_spells _ id Hv Hid) as (code & ds & He & Hsp & <- & Hl). exists code.
  split_and!; [done|by apply decode_spelled; [..|lia]|lia..|]. intros id' Hid' He'.
  destruct (encode_spells _ id' Hv Hid') as (code' & ds' & He'' & Hsp' & <- & _).
  assert (code' = code) as -> by congruence. by rewrite (spells_inj _ code ds' ds (proj2 Hv)).
Qed.

Example id_code_roundtrip_witness :
  0 ≤ max_u64 ≤ max_u64 ∧ ∃ code, Encode (NewIDShortener ["0"; "1"]%char 7) max_u64 = Some code ∧
    Decode (NewIDShortener ["0"; "1"]%char 7) code = Ok max_u64.
Proof.
  assert (0 ≤ max_u64 ≤ max_u64) as Hm by (unfold max_u64; lia). split; [exact Hm|].
  destruct (id_code_roundtrip ["0"; "1"]%char 7 max_u64 Hm) as (code & H1 & H2 & _). exists code. exact (conj H1 H2).
Defined.

(** Decoding is exact.  [Decode] returns a number exactly when every byte is in the alphabet and the
    positional value of the code fits in 64 bits, and returns that value; otherwise it reports a byte
    outside the alphabet, or an overflow, and each report is right. *)
Theorem decode_positional a code : valid_alphabet a →
  (∀ v, decodeBaseN code a = Ok v ↔
     ∃ ds, spells a code ds ∧ v = value (Z.of_nat (length a)) ds 0 ∧ v ≤ max_u64) ∧
  (∀ e, decodeBaseN code a = Err e →
     (e = ErrInvalidChar ∧ ∃ c, c ∈ code ∧ c ∉ a) ∨
     (e = ErrOverflow ∧ ∃ p r ds, code = p ++ r ∧ spells a p ds ∧ max_u64 < value (Z.of_nat (length a)) ds 0)).
Proof.
  intros Hv. pose proof (decode_loop_spec a code 0 Hv (alphabet_short a (proj2 Hv)) ltac:(unfold_int; lia)) as Hd.
  split.
  - intros v. split; [|intros (ds & Hsp & -> & Hfit); by apply decode_spelled].
    unfold decodeBaseN. intros He. by rewrite He in Hd.
  - unfold decodeBaseN. intros e He. rewrite He in Hd. destruct e; try done; [left|right]; done.
Qed.

Example decode_positional_witness :
  valid_alphabet Alphabet ∧ decodeBaseN (String.list_ascii_of_string "zzzzzzzzzzzz") Alphabet = Err ErrOverflow ∧
  decodeBaseN (String.list_ascii_of_string "10") Alphabet = Ok 62.
Proof.
  split; [apply Alphabet_valid|]. split; [vm_compute; reflexivity|].
  apply (decode_positional Alphabet _ Alphabet_valid). exists [1; 0]. split_and!; [|reflexivity|unfold_int; lia].
  repeat constructor; [exists 1%nat|exists 0%nat]; split; reflexivity.
Defined.

(** [Next] numbers on: as long as the counter does not wrap around, its codes are all different. *)
Lemma Next_decodes s : valid_alphabet (id_alphabet s) → 0 ≤ counter s < max_u64 →
  ∃ code, (Next s).2 = Some code ∧ Decode (Next s).1 code = Ok (counter s + 1) ∧
    counter (Next s).1 = counter s + 1.
Proof.
  intros Hv Hc. unfold Next. cbn. rewrite u64_id by (unfold_int; lia).
  destruct (encode_spells _ (counter s + 1) Hv) as (code & ds & He & Hsp & Hval & _); [lia|].
  exists code. split_and!; [done| |done]. unfold Decode. cbn. rewrite <-Hval. apply decode_spelled; [done..|lia].
Qed.

(** ** Theorems: random codes *)

Section random.
Context {S : Type} `{HL : StoreLaws S}.
Context (draw : Z → nat → result error Z).
(** [rand.Int(_, n)] returns a number below [n]. *)
Hypothesis draw_range : ∀ n k z, draw n k = Ok z → 0 ≤ z < n.

Lemma randomCode_loop_total alpha n k :
  ∃ r, randomCode_loop draw alpha n k = Some r ∧
    match r with Ok code => length code = n ∧ Forall (λ c, c ∈ alpha) code | Err e => ∃ j, draw (Z.of_nat (length alpha)) j = Err e end.
Proof using draw_range.
  revert k. induction n as [|n IH]; intros k; cbn [randomCode_loop]; [by exists (Ok [])|].
  destruct (draw _ _) as [idx|e] eqn:Ed; [|by exists (Err e); eauto].
  apply draw_range in Ed. rewrite (proj2 (Z.leb_le 0 idx)) by lia.
  destruct (lookup_lt_is_Some_2 alpha (Z.to_nat idx)) as [c Hc]; [lia|]. rewrite Hc. cbn.
  destruct (IH (k + 1)%nat) as (r & -> & Hr). cbn. destruct r as [code|e]; eexists; (split; [done|]); [|done].
  destruct Hr as [<- Hall]. split; [done|]. constructor; [by eapply list_elem_of_lookup_2|done].
Qed.

(** Saves keep what is stored. *)
Lemma save_keeps s code url c u : Load s c = Some u → Load (Save s code url).1 c = Some u.
Proof using HL.
  intros Hc. destruct ((Save s code url).2) eqn:E.
  - rewrite save_refused; [done|by rewrite E].
  - destruct (save_free s code url E) as [Hn Hl]. rewrite Hl. case_decide; [congruence|done].
Qed.

Lemma save_all_keeps saves s c u : Load s c = Some u → Load (save_all s saves) c = Some u.
Proof using HL.
  revert s. induction saves as [|p saves IH]; intros s Hc; [done|]. apply (IH (Save s p.1 p.2).1). by apply save_keeps.
Qed.

(** The store before the attempts' own saves is one in which others have saved. *)
Lemma Generate_loop_spec c url budget k others lastErr s :
  ∃ s' r, Generate_loop draw c url budget k others lastErr s = Some (s', r) ∧
    (∀ x u, Load s x = Some u → Load s' x = Some u) ∧
    match r with
    | Ok code => length code = Z.to_nat (codeLen c) ∧ Forall (λ x, x ∈ alphabet c) code ∧
        Load s' code = Some url ∧ Load s code = None
    | Err e => (∃ cause, e = ErrCodeSpaceExhausted cause ∧ (cause = lastErr ∨ isCollision cause = true)) ∨
        (∃ j, draw (Z.of_nat (length (alphabet c))) j = Err e) ∨
        (∃ s1 code, (Save s1 code url).2 = Some e ∧ isCollision e = false)
    end.
Proof using draw_range HL.
  revert k others lastErr s. induction budget as [|budget IH]; intros k others lastErr s; cbn [Generate_loop].
  { eexists _, _. split; [done|]. split; [done|]. left. by exists lastErr; eauto. }
  unfold randomCode. destruct (randomCode_loop_total (alphabet c) (Z.to_nat (codeLen c)) k) as (r & -> & Hr). cbn.
  set (s1 := save_all s _). assert (∀ x u, Load s x = Some u → Load s1 x = Some u) as Hk by (intros; by apply save_all_keeps).
  destruct r as [code|e]; cycle 1.
  { eexists _, _. split; [done|]. split; [done|]. right; left. done. }
  pose proof (save_keeps s1 code url) as Hk'. pose proof (save_free s1 code url) as Hf. pose proof (save_collision s1 code url) as Hcol.
  destruct (Save s1 code url) as [s2 [e|]] eqn:Es; cbn in *.
  - destruct (isCollision e) eqn:Ec; cycle 1.
    { eexists _, _. split; [done|]. split; [by eauto|]. right; right. exists s1, code. by rewrite Es. }
    destruct (IH (k + length code)%nat (tail others) e s2) as (s' & r & -> & Hk2 & Hres). eexists _, _. split; [done|].
    split; [by eauto|]. destruct r as [code'|e'].
    + destruct Hres as (? & ? & ? & Hn). split_and!; [done..|]. destruct (Load s code') eqn:E; [|done].
      apply Hk, Hk' in E. congruence.
    + destruct Hres as [(cause & -> & [->|Hc])|Hres]; [left; eauto..|by right].
  - destruct (Hf eq_refl) as [Hn Hl]. eexists _, _. split; [done|]. split; [by eauto|]. destruct Hr as [Hlen Hall].
    split_and!; [done..| |].
    + rewrite Hl. by rewrite decide_True.
    + destruct (Load s code) eqn:E; [|done]. apply Hk in E. congruence.
Qed.

(** [Generate] on every branch, whatever other goroutines save into the same store meanwhile.  It
    always returns; nothing that was stored is changed; a code it returns has the configured length,
    consists of bytes of the alphabet, was not stored before and now leads to the address; an error
    is the empty address, the random source's, a store's error that is no collision, or the exhausted code space. *)
Theorem generate_exact sh url others s :
  ∃ s' r, Generate draw sh url others s = Some (s', r) ∧
    (∀ x u, Load s x = Some u → Load s' x = Some u) ∧
    match r with
    | Ok code => url ≠ [] ∧ length code = Z.to_nat (codeLen (cfg sh)) ∧ Forall (λ x, x ∈ alphabet (cfg sh)) code ∧
        Load s' code = Some url ∧ Load s code = None
    | Err e => (e = ErrEmptyURL ∧ url = []) ∨ (∃ cause, e = ErrCodeSpaceExhausted cause ∧ isCollision cause = true) ∨
        (∃ j, draw (Z.of_nat (length (alphabet (cfg sh)))) j = Err e) ∨
        (∃ s1 code, (Save s1 code url).2 = Some e ∧ isCollision e = false)
    end.
Proof using draw_range HL.
  destruct url as [|x url]; cbn [Generate].
  { eexists _, _. split; [done|]. split; [done|]. by left. }
  destruct (Generate_loop_spec (cfg sh) (x :: url) (Z.to_nat (s_retries sh + 1)) 0 others ErrCollision s) as (s' & r & -> & Hk & Hr).
  eexists _, _. split; [done|]. split; [done|]. destruct r as [code|e].
  - destruct Hr as (? & ? & ? & ?). done.
  - destruct Hr as [(cause & -> & [->|?])|[?|?]]; eauto 8.
Qed.

(** A code that was returned resolves to its address for ever after, whatever is saved or generated later. *)
Theorem generate_resolves sh url others s s' code later :
  Generate draw sh url others s = Some (s', Ok code) →
  Resolve (save_all s' later) code = Ok url ∧
  (∀ sh2 url2 others2 s2 r, Generate draw sh2 url2 others2 (save_all s' later) = Some (s2, r) → Resolve s2 code = Ok url).
Proof using draw_range HL.
  intros Hg. unfold Resolve.
  assert (∀ sh url others s s' r, Generate draw sh url others s = Some (s', r) → ∀ x u, Load s x = Some u → Load s' x = Some u) as Hgk.
  { clear -draw_range HL. intros sh [|y url] others s s' r; cbn [Generate]; [by intros [= <- <-]|].
    destruct (Generate_loop_spec (cfg sh) (y :: url) (Z.to_nat (s_retries sh + 1)) 0 others ErrCollision s) as (s1 & r1 & -> & Hk & _).
    by intros [= <- <-]. }
  assert (Load s' code = Some url) as Hl.
  { destruct url as [|x url]; [done|]. cbn [Generate] in Hg.
    destruct (Generate_loop_spec (cfg sh) (x :: url) (Z.to_nat (s_retries sh + 1)) 0 others ErrCollision s) as (s1 & r1 & E & _ & Hr).
    rewrite E in Hg. injection Hg as -> ->. by destruct Hr as (_ & _ & ? & _). }
  pose proof (save_all_keeps later s' code url Hl) as Hl2. rewrite Hl2. split; [done|].
  intros sh2 url2 others2 s2 r Hg2. by rewrite (Hgk _ _ _ _ _ _ Hg2 _ _ Hl2).
Qed.
End random.

(** A random source for the witnesses: it counts. *)
Definition demo_draw (n : Z) (k : nat) : result error Z :=
  if 0 <? n then Ok (Z.of_nat k mod n) else Err (ErrOther 0).

Lemma demo_draw_range n k z : demo_draw n k = Ok z → 0 ≤ z < n.
Proof. unfold demo_draw. destruct (Z.ltb_spec 0 n); [|done]. intros [= <-]. by apply Z.mod_pos_bound. Qed.

Definition demo_short : Shortener MemoryStore := New NewMemoryStore [WithCodeLength 2; WithAlphabet ["a"; "b"]%char].
Definition demo_url : bytes := ["u"]%char.
(** The first code collides with what another goroutine has saved. *)
Definition demo_others : list (list (bytes * bytes)) := [[(["a"; "b"]%char, ["v"]%char)]].

Example generate_exact_witness :
  ∃ s' r, Generate demo_draw demo_short demo_url demo_others NewMemoryStore = Some (s', r) ∧
    (∀ x u, Load NewMemoryStore x = Some u → Load s' x = Some u).
Proof.
  destruct (generate_exact demo_draw demo_draw_range demo_short demo_url demo_others NewMemoryStore) as (s' & r & H1 & H2 & _).
  exists s', r. exact (conj H1 H2).
Defined.

(** The source repeats itself: every attempt draws the code that is taken. *)
Example generate_exhausts :
  (λ p, p.2) <$> Generate demo_draw demo_short demo_url demo_others NewMemoryStore = Some (Err (ErrCodeSpaceExhausted ErrCollision)).
Proof. vm_compute. reflexivity. Qed.

Example generate_resolves_witness :
  ∃ s', Generate demo_draw demo_short demo_url [] NewMemoryStore = Some (s', Ok ["a"; "b"]%char) ∧
    Resolve (save_all s' [(["a"; "b"]%char, ["v"]%char)]) ["a"; "b"]%char = Ok demo_url.
Proof.
  eexists. split; [vm_compute; reflexivity|].
  refine (proj1 (generate_resolves demo_draw demo_draw_range demo_short demo_url [] NewMemoryStore _ _ [(["a"; "b"]%char, ["v"]%char)] _)).
  vm_compute. reflexivity.
Defined.

(** [WithRetries 0] is accepted, but [defaults] takes zero for unset: three retries are made. *)
Example zero_retries_is_three :
  s_retries (New NewMemoryStore [WithRetries 0]) = 3 ∧ s_retries (New NewMemoryStore [WithRetries 1]) = 1.
Proof. split; reflexivity. Qed.

(** The empty code is decoded to zero without an error. *)
Example empty_code_decodes : Decode (NewIDShortener [] 0) [] = Ok 0.
Proof. reflexivity. Qed.
