(* ===== verification/Sets.v ===== *)
(** * Sets: set, bimap and multimap ([set/set.go], [bimap/bimap.go], [multimap/multimap.go])

    A Go map is a list of its keys or entries in the order in which a [range] visits them, a
    different one at every visit: each operation that ranges over a map takes an [order], which
    may be any rearrangement.  A nil set is [None].  The buckets of a multimap are slices, and
    [Get] hands them out: they are kept as arrays in a heap with lengths and capacities.

    Shown: the set operations are those of finite sets, for every order of iteration
    ([set_refines], [set_algebra]), [Pop] takes one element; the two maps of a bimap are inverse to
    each other after every operation ([bimap_inverse]) and [FromMap] succeeds exactly on injective maps
    ([FromMap_exact]); a multimap refines a map from keys to lists ([multimap_refines]).
    [get_sees_delete]: a slice obtained from [Get] changes under [DeleteValue]. *)

From Stdlib Require Import ZArith Lia.
From stdpp Require Import base tactics numbers list gmap sets.
From S2P Require Import Prelude.

#[local] Open Scope list_scope.

(** A [range] over a map visits every entry once, in any order. *)
Definition range_order {A} (order : list A → list A) : Prop := ∀ l, order l ≡ₚ l.

(** ** Package set *)

Section set.
Context {T : Type} `{Countable T}.

(** [map[T]struct{}]. *)
Abbreviation Set_ := (gset T).

Definition New : Set_ := ∅.
(** The capacity is a hint. *)
Definition WithCapacity (cap : nat) : Set_ := ∅.
Definition Add (s : Set_) (vals : list T) : Set_ := fold_left (λ s v, {[v]} ∪ s) vals s.
Definition Remove (s : Set_) (vals : list T) : Set_ := fold_left (λ s v, s ∖ {[v]}) vals s.
Definition From (vals : list T) : Set_ := Add New vals.
Definition Contains (s : Set_) (v : T) : bool := bool_decide (v ∈ s).
Fixpoint ContainsAll (s : Set_) (vals : list T) : bool :=
  match vals with [] => true | v :: vals => if Contains s v then ContainsAll s vals else false end.
Fixpoint ContainsAny (s : Set_) (vals : list T) : bool :=
  match vals with [] => false | v :: vals => if Contains s v then true else ContainsAny s vals end.
Definition Len (s : Set_) : nat := size s.
Definition IsEmpty (s : Set_) : bool := (size s =? 0)%nat.
Definition Clear (s : Set_) : Set_ := ∅.

(** The order in which the ranges of the operation visit a map. *)
Context (order : list T → list T).
Definition range_of (s : Set_) : list T := order (elements s).

Definition Pop (s : Set_) : Set_ * option T :=
  match range_of s with v :: _ => (s ∖ {[v]}, Some v) | [] => (s, None) end.
(** [Each] with an effect [fn] on a state. *)
Definition Each {St} (fn : St → T → St) (s : Set_) (st : St) : St := fold_left fn (range_of s) st.
Definition Filter (fn : T → bool) (s : Set_) : Set_ :=
  fold_left (λ out v, if fn v then {[v]} ∪ out else out) (range_of s) New.
Definition ToSlice (s : Set_) : list T := fold_left (λ out v, out ++ [v]) (range_of s) [].
Definition Clone (s : Set_) : Set_ := fold_left (λ out v, {[v]} ∪ out) (range_of s) New.

Definition Union (sets : list (option Set_)) : Set_ :=
  fold_left (λ out o, match o with None => out | Some s => fold_left (λ out v, {[v]} ∪ out) (range_of s) out end)
    sets (WithCapacity 0).
Definition Intersect (a b : option Set_) : Set_ :=
  match a, b with
  | Some a, Some b =>
      let '(small, big) := if (Len b <? Len a)%nat then (b, a) else (a, b) in
      fold_left (λ out v, if Contains big v then {[v]} ∪ out else out) (range_of small) (WithCapacity (Len small))
  | _, _ => WithCapacity 0
  end.
Definition Difference (a b : option Set_) : Set_ :=
  match a with
  | None => WithCapacity 0
  | Some a =>
      fold_left (λ out v, match b with
                          | None => {[v]} ∪ out
                          | Some b => if Contains b v then out else {[v]} ∪ out
                          end) (range_of a) (WithCapacity (Len a))
  end.
(** [b == nil || !b.Contains(v)] *)
Definition missing (b : option Set_) (v : T) : bool := match b with None => true | Some b => negb (Contains b v) end.
Definition SymmetricDifference (a b : option Set_) : Set_ :=
  let add_missing x y out :=
    match x with
    | None => out
    | Some x => fold_left (λ out v, if missing y v then {[v]} ∪ out else out) (range_of x) out
    end in
  add_missing b a (add_missing a b (WithCapacity 0)).

Definition AddAll (s : Set_) (other : option Set_) : Set_ :=
  match other with None => s | Some o => fold_left (λ s v, {[v]} ∪ s) (range_of o) s end.
Definition RetainAll (s : Set_) (other : option Set_) : Set_ * nat :=
  fold_left (λ p v, if missing other v then (p.1 ∖ {[v]}, (p.2 + 1)%nat) else p) (range_of s) (s, 0%nat).
Definition RemoveAll (s : Set_) (other : option Set_) : Set_ * nat :=
  match other with
  | None => (s, 0%nat)
  | Some o => fold_left (λ p v, if Contains p.1 v then (p.1 ∖ {[v]}, (p.2 + 1)%nat) else p) (range_of o) (s, 0%nat)
  end.

(** The loop of the predicates: every visited element is in [sup]. *)
Fixpoint all_in (sup : Set_) (l : list T) : bool :=
  match l with [] => true | v :: l => if Contains sup v then all_in sup l else false end.
Definition IsSubset (sub sup : option Set_) : bool :=
  match sub, sup with
  | None, _ => true
  | Some sub, None => IsEmpty sub
  | Some sub, Some sup => all_in sup (range_of sub)
  end.
Definition IsSuperset (sup sub : option Set_) : bool := IsSubset sub sup.
Fixpoint none_in (big : Set_) (l : list T) : bool :=
  match l with [] => true | v :: l => if Contains big v then false else none_in big l end.
Definition IsDisjoint (a b : option Set_) : bool :=
  match a, b with
  | Some a, Some b =>
      let '(small, big) := if (Len b <? Len a)%nat then (b, a) else (a, b) in none_in big (range_of small)
  | _, _ => true
  end.
Definition Equal (a b : option Set_) : bool :=
  match a, b with
  | None, None => true
  | Some a, Some b => if (Len a =? Len b)%nat then all_in b (range_of a) else false
  | _, _ => false
  end.
End set.


(** ** Package bimap *)

Section bimap.
Context {K V : Type} `{Countable K} `{Countable V}.

Record BiMap := MkBiMap { forward : gmap K V; reverse : gmap V K }.
Inductive bimap_error := ErrDuplicateKey | ErrDuplicateValue.

Definition NewBiMap : BiMap := MkBiMap ∅ ∅.
Definition Insert (b : BiMap) (k : K) (v : V) : BiMap * option bimap_error :=
  if bool_decide (is_Some (forward b !! k)) then (b, Some ErrDuplicateKey)
  else if bool_decide (is_Some (reverse b !! v)) then (b, Some ErrDuplicateValue)
  else (MkBiMap (<[k := v]> (forward b)) (<[v := k]> (reverse b)), None).
(** [None]: the panic. *)
Definition MustInsert (b : BiMap) (k : K) (v : V) : option BiMap :=
  match Insert b k v with (b, None) => Some b | _ => None end.

(** [for k, v := range m { if err := bm.Insert(k, v) ... }] *)
Fixpoint insert_loop (b : BiMap) (l : list (K * V)) : result bimap_error BiMap :=
  match l with
  | [] => Ok b
  | (k, v) :: l => match Insert b k v with (b, None) => insert_loop b l | (_, Some e) => Err e end
  end.
Definition FromMap (order : list (K * V) → list (K * V)) (m : gmap K V) : result bimap_error BiMap :=
  insert_loop NewBiMap (order (map_to_list m)).

Definition GetValue (b : BiMap) (k : K) : option V := forward b !! k.
Definition GetKey (b : BiMap) (v : V) : option K := reverse b !! v.
Definition HasKey (b : BiMap) (k : K) : bool := bool_decide (is_Some (forward b !! k)).
Definition HasValue (b : BiMap) (v : V) : bool := bool_decide (is_Some (reverse b !! v)).
Definition DeleteKey (b : BiMap) (k : K) : BiMap * bool :=
  match forward b !! k with
  | None => (b, false)
  | Some v => (MkBiMap (delete k (forward b)) (delete v (reverse b)), true)
  end.
Definition DeleteByValue (b : BiMap) (v : V) : BiMap * bool :=
  match reverse b !! v with
  | None => (b, false)
  | Some k => (MkBiMap (delete k (forward b)) (delete v (reverse b)), true)
  end.
Definition LenBiMap (b : BiMap) : nat := size (forward b).
Definition KeysBiMap (order : list (K * V) → list (K * V)) (b : BiMap) : list K := (order (map_to_list (forward b))).*1.
Definition Values (order : list (V * K) → list (V * K)) (b : BiMap) : list V := (order (map_to_list (reverse b))).*1.
Definition ClearBiMap (b : BiMap) : BiMap := NewBiMap.
End bimap.
Arguments BiMap K V {_ _ _ _}.

(** ** Package multimap *)

Section multimap.
Context {K V : Type} `{Countable K} `{EqDecision V} (zero : V).

(** A slice: its array, its length; the capacity is the array's length.  A nil slice has no array. *)
Record slice := Slice { ptr : nat; len : nat }.

Record MultiMap := MkMultiMap {
  arrays : list (list V);
  mm : gmap K (option slice);
}.

Definition NewMultiMap : MultiMap := MkMultiMap [] ∅.

Definition array (m : MultiMap) (p : nat) : list V := default [] (arrays m !! p).
(** What is seen through a slice. *)
Definition view (m : MultiMap) (s : option slice) : list V :=
  match s with None => [] | Some s => take (len s) (array m (ptr s)) end.

(** The capacity of a new array when [need] elements no longer fit. *)
Context (grow : nat → nat).

(** [append(s, vs...)]: in place while the capacity lasts, else into a new array. *)
Definition append (m : MultiMap) (s : option slice) (vs : list V) : MultiMap * option slice :=
  let n := match s with None => 0 | Some s => len s end in
  let old := match s with None => [] | Some s => array m (ptr s) end in
  let need := n + length vs in
  match s with
  | Some s =>
      if (need <=? length old) then
        (MkMultiMap (<[ptr s := take n old ++ vs ++ drop need old]> (arrays m)) (mm m), Some (Slice (ptr s) need))
      else (MkMultiMap (arrays m ++ [take n old ++ vs ++ replicate (grow need - need) zero]) (mm m), Some (Slice (length (arrays m)) need))
  | None =>
      match vs with
      | [] => (m, None)
      | _ => (MkMultiMap (arrays m ++ [vs ++ replicate (grow need - need) zero]) (mm m), Some (Slice (length (arrays m)) need))
      end
  end.

(** [mm.m[k]]: nil when absent. *)
Definition Get (m : MultiMap) (k : K) : option slice := default None (mm m !! k).
Definition put_bucket (m : MultiMap) (k : K) (s : option slice) : MultiMap := MkMultiMap (arrays m) (<[k := s]> (mm m)).

Definition AddMM (m : MultiMap) (k : K) (v : V) : MultiMap :=
  let '(m, s) := append m (Get m k) [v] in put_bucket m k s.
Definition AddAllMM (m : MultiMap) (k : K) (vs : list V) : MultiMap :=
  let '(m, s) := append m (Get m k) vs in put_bucket m k s.
Definition SetBucket (m : MultiMap) (k : K) (vs : list V) : MultiMap :=
  match vs with
  | [] => MkMultiMap (arrays m) (delete k (mm m))
  | _ => put_bucket (MkMultiMap (arrays m ++ [vs]) (mm m)) k (Some (Slice (length (arrays m)) (length vs)))
  end.
Definition Has (m : MultiMap) (k : K) : bool :=
  match mm m !! k with Some (Some s) => 0 <? len s | _ => false end.
Definition Count (m : MultiMap) (k : K) : nat := match Get m k with Some s => len s | None => 0 end.
Definition DeleteMM (m : MultiMap) (k : K) : MultiMap := MkMultiMap (arrays m) (delete k (mm m)).

(** The index of the first occurrence. *)
Fixpoint find_index (v : V) (l : list V) : option nat :=
  match l with
  | [] => None
  | x :: l => if decide (x = v) then Some 0 else S <$> find_index v l
  end.
(** [append(bucket[:i], bucket[i+1:]...)] moves the rest down in the same array. *)
Definition DeleteValue (m : MultiMap) (k : K) (v : V) : MultiMap * bool :=
  match mm m !! k with
  | None => (m, false)
  | Some bucket =>
      match find_index v (view m bucket), bucket with
      | Some i, Some s =>
          let a := array m (ptr s) in
          let m := MkMultiMap (<[ptr s := take i a ++ drop (i + 1) (take (len s) a) ++ drop (len s - 1) a]> (arrays m)) (mm m) in
          if len s =? 1 then (MkMultiMap (arrays m) (delete k (mm m)), true)
          else (put_bucket m k (Some (Slice (ptr s) (len s - 1))), true)
      | _, _ => (m, false)
      end
  end.
Definition nonempty (p : K * option slice) : bool := match p.2 with Some s => 0 <? len s | None => false end.
Definition KeysMM (order : list (K * option slice) → list (K * option slice)) (m : MultiMap) : list K :=
  (List.filter nonempty (order (map_to_list (mm m)))).*1.
Definition LenMM (m : MultiMap) : nat := length (List.filter nonempty (map_to_list (mm m))).
(** The pairs in the order in which [Each] visits them; it stops after the first that [fn] refuses. *)
Fixpoint each_loop (fn : K → V → bool) (l : list (K * V)) : list (K * V) :=
  match l with [] => [] | (k, v) :: l => if fn k v then (k, v) :: each_loop fn l else [(k, v)] end.
Definition EachMM (order : list (K * option slice) → list (K * option slice)) (fn : K → V → bool) (m : MultiMap) : list (K * V) :=
  each_loop fn (p ← order (map_to_list (mm m)); pair p.1 <$> view m p.2).
Definition ClearMM (m : MultiMap) : MultiMap := MkMultiMap (arrays m) ∅.
End multimap.
Arguments MultiMap K V {_ _}.

(** ** Lemmas and theorems: sets *)

Section set_proofs.
Context {T : Type} `{Countable T} (order : list T → list T) (Hord : range_order order).

Lemma range_of_elem (s : gset T) v : v ∈ range_of order s ↔ v ∈ s.
Proof using Hord. unfold range_of. by rewrite Hord, elem_of_elements. Qed.

Lemma range_of_NoDup (s : gset T) : NoDup (range_of order s).
Proof using Hord. unfold range_of. rewrite Hord. apply NoDup_elements. Qed.

(** A loop that adds the visited elements that pass a test. *)
Lemma fold_add_if (f : T → bool) l (out : gset T) v :
  v ∈ fold_left (λ out v, if f v then {[v]} ∪ out else out) l out ↔ v ∈ out ∨ (v ∈ l ∧ f v = true).
Proof.
  revert out. induction l as [|x l IH]; intros out; cbn; [set_solver|]. rewrite IH.
  rewrite elem_of_cons. destruct (f x) eqn:E; [rewrite elem_of_union, elem_of_singleton|]; naive_solver congruence.
Qed.

Lemma fold_add l (out : gset T) v : v ∈ fold_left (λ out v, {[v]} ∪ out) l out ↔ v ∈ out ∨ v ∈ l.
Proof. revert out. induction l as [|x l IH]; intros out; cbn; [set_solver|]. rewrite IH. set_solver. Qed.

Lemma fold_remove l (out : gset T) v : v ∈ fold_left (λ s v, s ∖ {[v]}) l out ↔ v ∈ out ∧ v ∉ l.
Proof. revert out. induction l as [|x l IH]; intros out; cbn; [set_solver|]. rewrite IH. set_solver. Qed.

(** A loop that removes the visited elements that pass a test, and counts them. *)
Lemma fold_drop_if (f : gset T → T → bool) l (s : gset T) n :
  (∀ s v w, v ≠ w → f (s ∖ {[v]}) w = f s w) → NoDup l →
  ∃ d, fold_left (λ p v, if f p.1 v then (p.1 ∖ {[v]}, (p.2 + 1)%nat) else p) l (s, n) = (s ∖ d, (n + size d)%nat) ∧
    ∀ v, v ∈ d ↔ v ∈ l ∧ f s v = true.
Proof.
  intros Hf. revert s n. induction l as [|x l IH]; intros s n Hnd.
  { exists ∅. cbn. rewrite size_empty, Nat.add_0_r. split; [f_equal; set_solver|set_solver]. }
  apply NoDup_cons in Hnd as [Hx Hnd]. cbn [fold_left fst snd]. destruct (f s x) eqn:E.
  - destruct (IH (s ∖ {[x]}) (n + 1)%nat Hnd) as (d & -> & Hd). exists ({[x]} ∪ d).
    assert (x ∉ d) as Hxd by (rewrite Hd; naive_solver). split.
    + rewrite size_union, size_singleton by set_solver. f_equal; [set_solver|lia].
    + intros v. rewrite elem_of_union, elem_of_singleton, Hd, elem_of_cons. destruct (decide (v = x)) as [->|Hne]; [naive_solver|].
      rewrite Hf by done. naive_solver.
  - destruct (IH s n Hnd) as (d & -> & Hd). exists d. split; [done|]. intros v. rewrite Hd, elem_of_cons. naive_solver congruence.
Qed.

Lemma all_in_spec (s : gset T) l : all_in s l = true ↔ ∀ v, v ∈ l → v ∈ s.
Proof. induction l as [|x l IH]; cbn; [set_solver|]. unfold Contains. case_bool_decide; [rewrite IH|]; set_solver. Qed.

Lemma none_in_spec (s : gset T) l : none_in s l = true ↔ ∀ v, v ∈ l → v ∉ s.
Proof. induction l as [|x l IH]; cbn; [set_solver|]. unfold Contains. case_bool_decide; [|rewrite IH]; set_solver. Qed.

Lemma IsSubset_spec (a b : option (gset T)) : IsSubset order a b = true ↔ default ∅ a ⊆ default ∅ b.
Proof using Hord.
  destruct a as [c|], b as [d|]; cbn; [|unfold IsEmpty; rewrite Nat.eqb_eq, size_empty_iff|set_solver..].
  - rewrite all_in_spec. setoid_rewrite range_of_elem. set_solver.
  - set_solver.
Qed.

(** Every operation of a set is the operation of mathematical sets of the same name, whatever the order
    in which Go ranges over its map: adding, removing, testing, the size, [Pop], which takes one element
    whenever there is one, filtering, copying and listing without repetition. *)
Theorem set_refines (s : gset T) (vals : list T) (fn : T → bool) :
  Add s vals = list_to_set vals ∪ s ∧ Remove s vals = s ∖ list_to_set vals ∧ From vals = list_to_set vals ∧
  (ContainsAll s vals = true ↔ list_to_set vals ⊆ s) ∧ (ContainsAny s vals = true ↔ ∃ v, v ∈ vals ∧ v ∈ s) ∧
  (IsEmpty s = true ↔ s = ∅) ∧
  match Pop order s with
  | (s', Some v) => v ∈ s ∧ s' = s ∖ {[v]}
  | (s', None) => s = ∅ ∧ s' = s
  end ∧
  (∀ v, v ∈ Filter order fn s ↔ v ∈ s ∧ fn v = true) ∧ Clone order s = s ∧
  NoDup (ToSlice order s) ∧ list_to_set (ToSlice order s) = s ∧ length (ToSlice order s) = Len s.
Proof using Hord.
  assert (ToSlice order s = range_of order s) as HT.
  { unfold ToSlice. generalize (range_of order s). intros l.
    assert (∀ out, fold_left (λ out v, out ++ [v]) l out = out ++ l) as Ha; [|by rewrite Ha].
    induction l as [|x l IH]; intros out; cbn; [by rewrite app_nil_r|]. rewrite IH. by rewrite <-app_assoc. }
  rewrite HT. split_and!.
  - apply set_eq. intros v. unfold Add. rewrite fold_add. set_solver.
  - apply set_eq. intros v. unfold Remove. rewrite fold_remove. set_solver.
  - apply set_eq. intros v. unfold From, Add, New. rewrite fold_add. set_solver.
  - induction vals as [|x vals IH]; cbn; [set_solver|]. unfold Contains in *. case_bool_decide; [rewrite IH|]; set_solver.
  - induction vals as [|x vals IH]; cbn; [set_solver|]. unfold Contains in *. case_bool_decide; [|rewrite IH]; set_solver.
  - unfold IsEmpty. rewrite Nat.eqb_eq. rewrite size_empty_iff. unfold_leibniz. done.
  - unfold Pop. destruct (range_of order s) as [|v l] eqn:E.
    + split; [|done]. apply set_eq. intros v. rewrite <-range_of_elem, E. set_solver.
    + split; [|done]. rewrite <-range_of_elem, E. set_solver.
  - intros v. unfold Filter, New. rewrite fold_add_if, range_of_elem. set_solver.
  - apply set_eq. intros v. unfold Clone, New. rewrite fold_add, range_of_elem. set_solver.
  - apply range_of_NoDup.
  - apply set_eq. intros v. by rewrite elem_of_list_to_set, range_of_elem.
  - unfold range_of. rewrite Hord. done.
Qed.

(** A nil set in the algebra is the empty one. *)
Definition val (o : option (gset T)) : gset T := default ∅ o.

(** The set algebra is that of mathematical sets, with a nil operand for the empty set, whatever the order of the
    ranges: union, intersection (by the smaller set), the differences, the operations in place with the exact number
    of removed elements, and the predicates; only [Equal] tells nil from empty. *)
Theorem set_algebra (s : gset T) (a b : option (gset T)) (sets : list (option (gset T))) :
  Union order sets = ⋃ (val <$> sets) ∧ Intersect order a b = val a ∩ val b ∧ Difference order a b = val a ∖ val b ∧
  SymmetricDifference order a b = (val a ∖ val b) ∪ (val b ∖ val a) ∧ AddAll order s b = s ∪ val b ∧
  RetainAll order s b = (s ∩ val b, size (s ∖ val b)) ∧ RemoveAll order s b = (s ∖ val b, size (s ∩ val b)) ∧
  (IsSubset order a b = true ↔ val a ⊆ val b) ∧ (IsSuperset order a b = true ↔ val b ⊆ val a) ∧
  (IsDisjoint order a b = true ↔ val a ## val b) ∧
  (Equal order a b = true ↔ val a = val b ∧ (a = None ↔ b = None)).
Proof using Hord.
  assert (∀ b v, missing b v = true ↔ v ∉ val b) as Hm.
  { intros [c|] v; cbn; unfold Contains; [case_bool_decide|]; set_solver. }
  split_and!.
  - unfold Union. assert (∀ out, fold_left (λ out o, match o with None => out | Some s => fold_left (λ out v, {[v]} ∪ out) (range_of order s) out end)
      sets out = out ∪ ⋃ (val <$> sets)) as Hu.
    { induction sets as [|o sets IH]; intros out; cbn; [set_solver|]. rewrite IH. destruct o as [c|]; cbn; [|set_solver].
      apply set_eq. intros v. rewrite !elem_of_union, fold_add, range_of_elem. naive_solver. }
    rewrite Hu. unfold WithCapacity. set_solver.
  - destruct a as [c|], b as [d|]; unfold Intersect, WithCapacity, val; cbn [default]; try set_solver. apply set_eq. intros v. rewrite elem_of_intersection.
    destruct (Len d <? Len c)%nat; rewrite fold_add_if, range_of_elem; unfold Contains; rewrite bool_decide_eq_true; set_solver.
  - destruct a as [c|]; cbn; unfold WithCapacity; [|set_solver]. destruct b as [d|]; apply set_eq; intros v.
    + rewrite elem_of_difference. cbn.
      assert (∀ l (out : gset T), fold_left (λ out v, if Contains d v then out else {[v]} ∪ out) l out =
        fold_left (λ out v, if negb (Contains d v) then {[v]} ∪ out else out) l out) as Hsw.
      { intros l. induction l as [|x l IH]; intros out; cbn; [done|]. rewrite IH. by destruct (Contains d x). }
      rewrite Hsw, fold_add_if, range_of_elem. unfold Contains. rewrite negb_true_iff, bool_decide_eq_false. set_solver.
    + rewrite fold_add, range_of_elem. cbn. set_solver.
  - unfold SymmetricDifference, WithCapacity. apply set_eq. intros v. rewrite elem_of_union, !elem_of_difference.
    destruct a as [c|], b as [d|]; cbn -[missing]; rewrite ?fold_add_if, ?range_of_elem, ?Hm; set_solver.
  - destruct b as [d|]; cbn; [|set_solver]. apply set_eq. intros v. rewrite fold_add, range_of_elem. set_solver.
  - unfold RetainAll. destruct (fold_drop_if (λ _ v, missing b v) (range_of order s) s 0) as (d & -> & Hd); [done|apply range_of_NoDup|].
    assert (d = s ∖ val b) as -> by (apply set_eq; intros v; rewrite Hd, range_of_elem, Hm; set_solver).
    f_equal. apply set_eq. intros v. destruct (decide (v ∈ val b)); set_solver.
  - destruct b as [c|]; cbn; [|rewrite intersection_empty_r_L, size_empty, difference_empty_L; done].
    destruct (fold_drop_if (λ s v, Contains s v) (range_of order c) s 0) as (d & -> & Hd); [|apply range_of_NoDup|].
    { intros s' v w Hne. unfold Contains. apply bool_decide_ext. set_solver. }
    assert (d = s ∩ c) as ->; [|f_equal; set_solver].
    apply set_eq. intros v. rewrite Hd, range_of_elem. unfold Contains. rewrite bool_decide_eq_true. set_solver.
  - apply IsSubset_spec.
  - apply IsSubset_spec.
  - destruct a as [c|], b as [d|]; unfold IsDisjoint, val; cbn [default]; try set_solver. rewrite elem_of_disjoint.
    destruct (Len d <? Len c)%nat; rewrite none_in_spec; setoid_rewrite range_of_elem; set_solver.
  - destruct a as [c|], b as [d|]; cbn; try naive_solver. destruct (Nat.eqb_spec (Len c) (Len d)) as [Hl|Hl].
    + rewrite all_in_spec. setoid_rewrite range_of_elem. split.
      * intros Hsub. split; [|done]. unfold Len in Hl. apply (set_subseteq_size_eq c d); [set_solver|lia].
      * intros [-> _]. done.
    + split; [done|]. intros [-> _]. done.
Qed.
End set_proofs.

Example set_refines_witness :
  range_order (@rev Z) ∧ Add (T:=Z) {[1%Z]} [2%Z; 2%Z] = list_to_set [2%Z; 2%Z] ∪ {[1%Z]}.
Proof.
  assert (range_order (@rev Z)) as Ho by (intros l; symmetry; apply Permutation_rev). split; [exact Ho|].
  exact (proj1 (set_refines (@rev Z) Ho {[1%Z]} [2%Z; 2%Z] (λ _, true))).
Defined.

Example set_algebra_witness :
  range_order (@rev Z) ∧ Union (T:=Z) (@rev Z) [Some {[1%Z]}; None; Some {[2%Z]}] = ⋃ (val <$> [Some {[1%Z]}; None; Some {[2%Z]}]).
Proof.
  assert (range_order (@rev Z)) as Ho by (intros l; symmetry; apply Permutation_rev). split; [exact Ho|].
  exact (proj1 (set_algebra (@rev Z) Ho ∅ None None [Some {[1%Z]}; None; Some {[2%Z]}])).
Defined.

(** ** Lemmas and theorems: bimaps *)

Section bimap_proofs.
Context {K V : Type} `{Countable K} `{Countable V}.

Definition inverse (b : BiMap K V) : Prop := ∀ k v, forward b !! k = Some v ↔ reverse b !! v = Some k.

Lemma inverse_size b : inverse b → size (reverse b) = size (forward b).
Proof.
  intros Hb. rewrite <-!length_map_to_list, <-(length_fmap (λ p, (p.2, p.1)) (map_to_list (forward b))).
  apply Permutation_length, NoDup_Permutation.
  - apply NoDup_map_to_list.
  - apply NoDup_fmap_2; [|apply NoDup_map_to_list]. intros [x y] [x' y']. cbn. naive_solver.
  - intros [v k]. rewrite elem_of_map_to_list, list_elem_of_fmap, <-(Hb k v). split.
    + intros Hk. exists (k, v). split; [done|]. by apply elem_of_map_to_list.
    + intros ([k' v'] & [= -> ->] & Hk). by apply elem_of_map_to_list in Hk.
Qed.

Lemma Insert_inverse b k v : inverse b → inverse (Insert b k v).1.
Proof.
  intros Hb. unfold Insert. case_bool_decide as Hk; [done|]. case_bool_decide as Hv; [done|]. cbn.
  apply eq_None_not_Some in Hk, Hv. intros k' v'. cbn. rewrite !lookup_insert_Some. specialize (Hb k' v') as Hb'. split.
  - intros [[<- <-]|[Hne Hf]]; [by left|]. right. split; [|by apply Hb']. intros <-. apply Hb in Hf. congruence.
  - intros [[<- <-]|[Hne Hf]]; [by left|]. right. split; [|by apply Hb']. intros <-. apply Hb in Hf. congruence.
Qed.

Lemma remove_inverse b k v : inverse b → forward b !! k = Some v →
  inverse (MkBiMap (delete k (forward b)) (delete v (reverse b))).
Proof.
  intros Hb Hk k' v'. cbn. rewrite !lookup_delete_Some, (Hb k' v'). pose proof (proj1 (Hb _ _) Hk) as Hv.
  split; intros [Hne Hf]; (split; [|done]); intros <-; [congruence|]. apply (proj2 (Hb _ _)) in Hf. congruence.
Qed.

(** The operations that change a bimap. *)
Inductive bimap_op := OInsert (k : K) (v : V) | ODelete (k : K) | ODeleteValue (v : V) | OClear.
Definition bimap_do (b : BiMap K V) (o : bimap_op) : BiMap K V :=
  match o with
  | OInsert k v => (Insert b k v).1
  | ODelete k => (DeleteKey b k).1
  | ODeleteValue v => (DeleteByValue b v).1
  | OClear => ClearBiMap b
  end.

Lemma inverse_empty : inverse (NewBiMap (K:=K) (V:=V)).
Proof. intros k v. cbn. by rewrite !lookup_empty. Qed.

Lemma bimap_do_inverse b o : inverse b → inverse (bimap_do b o).
Proof.
  intros Hb. destruct o as [k v|k|v|]; cbn; [by apply Insert_inverse|..].
  - unfold DeleteKey. destruct (forward b !! k) eqn:E; [|done]. by apply remove_inverse.
  - unfold DeleteByValue. destruct (reverse b !! v) eqn:E; [|done]. apply Hb in E. by apply remove_inverse.
  - apply inverse_empty.
Qed.

(** A bimap is one-to-one.  After any operations on a new bimap the two maps are inverse to each other and of one size;
    [Insert] adds the pair exactly when neither side is taken and says which one is, and both deletions remove exactly
    the pair. *)
Theorem bimap_inverse (ops : list bimap_op) k v : let b := fold_left bimap_do ops NewBiMap in
  inverse b ∧ size (reverse b) = LenBiMap b ∧
  (GetValue b k = None → GetKey b v = None →
     (Insert b k v).2 = None ∧ GetValue (Insert b k v).1 k = Some v ∧ GetKey (Insert b k v).1 v = Some k) ∧
  (is_Some (GetValue b k) → Insert b k v = (b, Some ErrDuplicateKey)) ∧
  (GetValue b k = None → is_Some (GetKey b v) → Insert b k v = (b, Some ErrDuplicateValue)) ∧
  (GetValue b k = Some v → DeleteKey b k = DeleteByValue b v ∧ (DeleteKey b k).2 = true ∧
     GetValue (DeleteKey b k).1 k = None ∧ GetKey (DeleteKey b k).1 v = None).
Proof.
  intros b. assert (inverse b) as Hb.
  { assert (∀ b0, inverse b0 → inverse (fold_left bimap_do ops b0)) as Hall; [|apply Hall, inverse_empty].
    induction ops as [|o ops IH]; intros b0 Hb0; [done|]. apply IH. by apply bimap_do_inverse. }
  clearbody b. unfold GetValue, GetKey, LenBiMap. split_and!; [done|by apply inverse_size|..].
  - intros Hk Hv. unfold Insert. rewrite !bool_decide_eq_false_2 by (by rewrite ?Hk, ?Hv; intros [? [=]]). cbn.
    by rewrite !lookup_insert_eq.
  - intros Hk. unfold Insert. by rewrite bool_decide_eq_true_2.
  - intros Hk Hv. unfold Insert. rewrite bool_decide_eq_false_2 by (rewrite Hk; by intros [? [=]]). by rewrite bool_decide_eq_true_2.
  - intros Hk. pose proof (proj1 (Hb _ _) Hk) as Hv. unfold DeleteKey, DeleteByValue. rewrite Hk, Hv. cbn. by rewrite !lookup_delete_eq.
Qed.

Lemma insert_loop_spec l b : inverse b → NoDup l.*1 → (∀ k v, (k, v) ∈ l → forward b !! k = None) →
  match insert_loop b l with
  | Ok b' => inverse b' ∧ (∀ k v, forward b' !! k = Some v ↔ forward b !! k = Some v ∨ (k, v) ∈ l)
  | Err e => e = ErrDuplicateValue ∧ ∃ k k' v, k ≠ k' ∧ (k, v) ∈ l ∧ ((k', v) ∈ l ∨ forward b !! k' = Some v)
  end.
Proof.
  revert b. induction l as [|[k v] l IH]; intros b Hb Hnd Hfree; cbn [insert_loop].
  { split; [done|]. intros k v. split; [by left|]. by intros [?|?%not_elem_of_nil]. }
  cbn in Hnd. apply NoDup_cons in Hnd as [Hk Hnd]. assert (forward b !! k = None) as Hn by (apply (Hfree k v); by left).
  pose proof (Insert_inverse b k v Hb) as Hi. unfold Insert in *. rewrite bool_decide_eq_false_2 in * by (rewrite Hn; by intros [? [=]]).
  case_bool_decide as Hv.
  - split; [done|]. destruct Hv as [k' Hv]. apply Hb in Hv. exists k, k', v. split_and!; [congruence|by left|by right].
  - cbn [fst] in Hi. specialize (IH _ Hi Hnd).
    assert (∀ k' v', (k', v') ∈ l → <[k := v]> (forward b) !! k' = None) as Hfr.
    { intros k' v' Hin. rewrite lookup_insert_ne; [apply (Hfree k' v'); by right|]. intros <-. apply Hk.
      apply list_elem_of_fmap. by exists (k, v'). }
    specialize (IH Hfr). destruct (insert_loop _ l) as [b'|e].
    + destruct IH as [Hb' Hf]. split; [done|]. intros k' v'. rewrite Hf, elem_of_cons. cbn. rewrite lookup_insert_Some.
      split; [naive_solver|]. intros [Hx|[[= -> ->]|Hin]]; [left; right|left; left|by right].
      * split; [congruence|done].
      * done.
    + destruct IH as [-> (k1 & k2 & v' & Hne & Hin & Ho)]. split; [done|]. cbn in Ho. rewrite lookup_insert_Some in Ho.
      destruct Ho as [Ho|[[<- <-]|[_ Ho]]].
      * exists k1, k2, v'. split_and!; [done|by right|left; by right].
      * exists k1, k, v. split_and!; [done|by right|left; by left].
      * exists k1, k2, v'. split_and!; [done|by right|by right].
Qed.

(** [FromMap] succeeds exactly on one-to-one maps, whatever order Go ranges in, and then its forward map is the given one. *)
Theorem FromMap_exact order (m : gmap K V) : range_order order →
  match FromMap order m with
  | Ok b => forward b = m ∧ inverse b ∧ ∀ k k' v, m !! k = Some v → m !! k' = Some v → k = k'
  | Err e => e = ErrDuplicateValue ∧ ∃ k k' v, k ≠ k' ∧ m !! k = Some v ∧ m !! k' = Some v
  end.
Proof.
  intros Ho. unfold FromMap. pose proof (insert_loop_spec (order (map_to_list m)) NewBiMap inverse_empty) as Hl.
  specialize (Hl ltac:(rewrite Ho; apply NoDup_fst_map_to_list) ltac:(intros; apply lookup_empty)).
  assert (∀ k v, (k, v) ∈ order (map_to_list m) ↔ m !! k = Some v) as Hel by (intros; rewrite Ho; apply elem_of_map_to_list).
  destruct (insert_loop _ _) as [b|e].
  - destruct Hl as [Hb Hf]. setoid_rewrite Hel in Hf. assert (forward b = m) as Hm.
    { apply map_eq. intros k. apply option_eq. intros v. rewrite Hf. cbn. rewrite lookup_empty. naive_solver. }
    split_and!; [done|done|]. rewrite <-Hm. intros k k' v ?%Hb ?%Hb. congruence.
  - destruct Hl as [-> (k & k' & v & Hne & Hk & Hk')]. split; [done|]. exists k, k', v. rewrite !Hel in Hk'. rewrite Hel in Hk.
    split_and!; [done..|]. cbn in Hk'. rewrite lookup_empty in Hk'. naive_solver.
Qed.
End bimap_proofs.

Example bimap_inverse_witness :
  let b := fold_left bimap_do [OInsert 1%Z 10%Z; OInsert 2%Z 10%Z; OInsert 1%Z 20%Z; ODelete 1%Z] NewBiMap in
  inverse b ∧ size (reverse b) = LenBiMap b.
Proof.
  destruct (bimap_inverse [OInsert 1%Z 10%Z; OInsert 2%Z 10%Z; OInsert 1%Z 20%Z; ODelete 1%Z] 1%Z 10%Z) as (H1 & H2 & _).
  exact (conj H1 H2).
Defined.

Example FromMap_exact_witness :
  range_order (@rev (Z * Z)) ∧ is_ok (FromMap (@rev (Z * Z)) {[1%Z := 5%Z; 2%Z := 5%Z]}) = false.
Proof.
  assert (range_order (@rev (Z * Z))) as Ho by (intros l; symmetry; apply Permutation_rev). split; [exact Ho|].
  pose proof (FromMap_exact (@rev (Z * Z)) {[1%Z := 5%Z; 2%Z := 5%Z]} Ho) as Hf.
  destruct (FromMap _ _) as [b|e]; [|reflexivity]. exfalso. destruct Hf as (_ & _ & Hi).
  assert (1%Z = 2%Z) as Hc by (apply (Hi 1%Z 2%Z 5%Z); reflexivity). discriminate Hc.
Defined.

(** ** Lemmas and theorems: multimaps *)

Section multimap_proofs.
Context {K V : Type} `{Countable K} `{EqDecision V} (zero : V) (grow : nat → nat).
(** A new array has room for what it was made for. *)
Hypothesis grow_enough : ∀ n, n ≤ grow n.

(** Slices lie within their arrays, and no two keys share an array. *)
Definition mm_ok (m : MultiMap K V) : Prop :=
  (∀ k s, mm m !! k = Some (Some s) → len s ≤ length (array m (ptr s)) ∧ ptr s < length (arrays m)) ∧
  (∀ k k' s s', mm m !! k = Some (Some s) → mm m !! k' = Some (Some s') → ptr s = ptr s' → k = k').

(** The values of a key. *)
Definition vals (m : MultiMap K V) (k : K) : list V := view m (Get m k).

Lemma array_app_old (m : MultiMap K V) x p : p < length (arrays m) →
  array (MkMultiMap (K:=K) (arrays m ++ [x]) (mm m)) p = array m p.
Proof. intros Hp. unfold array. cbn. by rewrite lookup_app_l. Qed.

Lemma array_app_new (m : MultiMap K V) x mp :
  array (MkMultiMap (K:=K) (arrays m ++ [x]) mp) (length (arrays m)) = x.
Proof. unfold array. cbn. by rewrite lookup_app_r, Nat.sub_diag. Qed.

Lemma array_insert (m : MultiMap K V) x mp p q : q < length (arrays m) →
  array (MkMultiMap (K:=K) (<[q := x]> (arrays m)) mp) p = if decide (p = q) then x else array m p.
Proof.
  intros Hq. unfold array. cbn. case_decide as Hp; [subst; by rewrite list_lookup_insert_eq|by rewrite list_lookup_insert_ne].
Qed.

(** Putting a slice for [k] whose array is new or its own leaves the other keys alone. *)
Lemma put_ok (m m' : MultiMap K V) k s : mm_ok m → mm m' = mm m →
  (len s ≤ length (array m' (ptr s)) ∧ ptr s < length (arrays m')) →
  (length (arrays m) ≤ length (arrays m')) →
  (∀ k' s', k' ≠ k → mm m !! k' = Some (Some s') → ptr s ≠ ptr s' ∧ array m' (ptr s') = array m (ptr s')) →
  mm_ok (put_bucket m' k (Some s)) ∧ vals (put_bucket m' k (Some s)) k = view m' (Some s) ∧
  ∀ k', k' ≠ k → vals (put_bucket m' k (Some s)) k' = vals m k'.
Proof.
  intros [Hr Hd] Hmm Hs Hlen Ho. split_and!.
  - split; cbn; rewrite Hmm.
    + intros k' s'. rewrite lookup_insert_Some. intros [[<- [= <-]]|[Hne Hk]]; [done|].
      destruct (Hr _ _ Hk) as [? ?]. destruct (Ho k' s' ltac:(done) Hk) as [_ Ha]. unfold array in *. cbn. rewrite Ha. lia.
    + intros k1 k2 s1 s2. rewrite !lookup_insert_Some. intros [[<- [= <-]]|[Hne1 H1]] [[<- [= <-]]|[Hne2 H2]] Hp; [done|..|by eapply Hd].
      * destruct (Ho k2 s2 ltac:(done) H2). done.
      * destruct (Ho k1 s1 ltac:(done) H1). congruence.
  - unfold vals, Get. cbn. by rewrite lookup_insert_eq.
  - intros k' Hne. unfold vals, Get. cbn. rewrite Hmm, lookup_insert_ne by done.
    destruct (mm m !! k') as [[s'|]|] eqn:E; cbn; [|done..]. destruct (Ho k' s' Hne E) as [_ Ha]. unfold array in *. cbn. by rewrite Ha.
Qed.

Lemma append_spec (m : MultiMap K V) k vs : mm_ok m →
  mm_ok (AddAllMM zero grow m k vs) ∧ vals (AddAllMM zero grow m k vs) k = vals m k ++ vs ∧
  ∀ k', k' ≠ k → vals (AddAllMM zero grow m k vs) k' = vals m k'.
Proof using grow_enough.
  intros Hok. pose proof Hok as [Hr Hd]. unfold AddAllMM, append. destruct (Get m k) as [s|] eqn:Eg.
  - assert (mm m !! k = Some (Some s)) as Hk by (unfold Get in Eg; destruct (mm m !! k) as [[?|]|]; simplify_eq/=; done).
    destruct (Hr _ _ Hk) as [Hl Hp]. assert (vals m k = take (len s) (array m (ptr s))) as -> by (unfold vals; by rewrite Eg).
    pose proof (grow_enough (len s + length vs)). destruct (Nat.leb_spec (len s + length vs) (length (array m (ptr s)))) as [Hfit|Hbig].
    + set (m' := MkMultiMap _ _). assert (array m' (ptr s) = take (len s) (array m (ptr s)) ++ vs ++ drop (len s + length vs) (array m (ptr s))) as Ha
        by (unfold m'; rewrite array_insert, decide_True by done; done).
      destruct (put_ok m m' k (Slice (ptr s) (len s + length vs)) Hok) as (H1 & H2 & H3); cbn.
      * done.
      * rewrite Ha, !length_app, length_take, length_drop. unfold m'. cbn. rewrite ?length_insert. lia.
      * unfold m'. cbn. by rewrite length_insert.
      * intros k' s' Hne Hk'. assert (ptr s ≠ ptr s') by (intros Hpp; apply Hne; by eapply Hd). split; [done|].
        unfold m'. rewrite array_insert, decide_False by done. done.
      * split_and!; [done| |done]. rewrite H2. cbn. rewrite Ha, app_assoc, take_app_length'; [done|].
        rewrite length_app, length_take. lia.
    + set (m' := MkMultiMap _ _). assert (array m' (length (arrays m)) = take (len s) (array m (ptr s)) ++ vs ++ replicate (grow (len s + length vs) - (len s + length vs)) zero) as Ha
        by (unfold m'; apply array_app_new).
      destruct (put_ok m m' k (Slice (length (arrays m)) (len s + length vs)) Hok) as (H1 & H2 & H3); cbn.
      * done.
      * rewrite Ha, !length_app, length_take. unfold m'. cbn. rewrite ?length_app. cbn. lia.
      * unfold m'. cbn. rewrite ?length_app. cbn. lia.
      * intros k' s' Hne Hk'. destruct (Hr _ _ Hk') as [_ Hp']. split; [lia|]. by apply array_app_old.
      * split_and!; [done| |done]. rewrite H2. cbn. rewrite Ha, app_assoc, take_app_length'; [done|].
        rewrite length_app, length_take. lia.
  - assert (vals m k = []) as -> by (unfold vals; by rewrite Eg). destruct vs as [|v vs].
    + assert (∀ k', vals (put_bucket m k None) k' = vals m k') as Hv.
      { intros k'. unfold vals. destruct (decide (k' = k)) as [->|Hne]; unfold Get in *; cbn; [rewrite lookup_insert_eq, Eg; done|by rewrite lookup_insert_ne]. }
      split_and!; [|rewrite Hv; unfold vals; by rewrite Eg|done]. split; cbn.
      * intros k' s'. rewrite lookup_insert_Some. intros [[_ [=]]|[_ Hk]]. by apply (Hr k').
      * intros k1 k2 s1 s2. rewrite !lookup_insert_Some. intros [[_ [=]]|[_ H1]] [[_ [=]]|[_ H2]]. by eapply Hd.
    + pose proof (grow_enough (0 + length (v :: vs))). set (m' := MkMultiMap _ _).
      assert (array m' (length (arrays m)) = (v :: vs) ++ replicate (grow (0 + length (v :: vs)) - (0 + length (v :: vs))) zero) as Ha by (unfold m'; apply array_app_new).
      destruct (put_ok m m' k (Slice (length (arrays m)) (0 + length (v :: vs))) Hok) as (H1 & H2 & H3).
      * done.
      * cbn [ptr len]. rewrite Ha, length_app. unfold m'. cbn. rewrite ?length_app. cbn. lia.
      * unfold m'. cbn. rewrite ?length_app. cbn. lia.
      * intros k' s' Hne Hk'. destruct (Hr _ _ Hk') as [_ Hp']. cbn. split; [lia|]. by apply array_app_old.
      * split_and!; [done| |done]. rewrite H2. cbn [view ptr len]. rewrite Ha. by rewrite take_app_length'.
Qed.

Lemma forget_ok (m m' : MultiMap K V) k : mm_ok m → mm m' = delete k (mm m) → length (arrays m') = length (arrays m) →
  (∀ k' s', k' ≠ k → mm m !! k' = Some (Some s') → array m' (ptr s') = array m (ptr s')) →
  mm_ok m' ∧ vals m' k = [] ∧ ∀ k', k' ≠ k → vals m' k' = vals m k'.
Proof.
  intros [Hr Hd] Hmm Hl Ha. split_and!.
  - split; rewrite Hmm.
    + intros k' s'. rewrite lookup_delete_Some. intros [Hne Hk]. rewrite Hl, (Ha k' s' ltac:(done) Hk). by apply (Hr k').
    + intros k1 k2 s1 s2. rewrite !lookup_delete_Some. intros [_ H1] [_ H2]. by eapply Hd.
  - unfold vals, Get. by rewrite Hmm, lookup_delete_eq.
  - intros k' Hne. unfold vals, Get. rewrite Hmm, lookup_delete_ne by done.
    destruct (mm m !! k') as [[s'|]|] eqn:E; cbn; [|done..]. by rewrite (Ha k' s' Hne E).
Qed.

Lemma find_index_lt v (l : list V) i : find_index v l = Some i → i < length l.
Proof.
  revert i. induction l as [|x l IH]; intros i; cbn; [done|]. case_decide; [intros [= <-]; lia|].
  destruct (find_index v l) as [j|]; cbn; [|done]. intros [= <-]. specialize (IH j eq_refl). lia.
Qed.

Lemma find_index_None v (l : list V) : find_index v l = None ↔ v ∉ l.
Proof.
  induction l as [|x l IH]; cbn; [by split; [intros _; apply not_elem_of_nil|]|]. rewrite not_elem_of_cons.
  case_decide; [naive_solver|]. destruct (find_index v l); cbn; naive_solver.
Qed.

(** A list without the first occurrence of a value. *)
Definition delete_first (v : V) (l : list V) : list V :=
  match find_index v l with Some i => take i l ++ drop (i + 1) l | None => l end.

Lemma DeleteValue_spec (m : MultiMap K V) k v : mm_ok m →
  mm_ok (DeleteValue m k v).1 ∧ vals (DeleteValue m k v).1 k = delete_first v (vals m k) ∧
  (∀ k', k' ≠ k → vals (DeleteValue m k v).1 k' = vals m k') ∧ (DeleteValue m k v).2 = bool_decide (v ∈ vals m k).
Proof.
  intros Hok. pose proof Hok as [Hr Hd]. unfold DeleteValue, delete_first.
  assert (∀ b, vals m k = view m b → find_index v (view m b) = None → false = bool_decide (v ∈ vals m k)) as Hno.
  { intros b -> ?%find_index_None. symmetry. by apply bool_decide_eq_false_2. }
  destruct (mm m !! k) as [bucket|] eqn:Ek; cycle 1.
  { assert (vals m k = []) as Hv by (unfold vals, Get; by rewrite Ek). rewrite Hv. done. }
  assert (vals m k = view m bucket) as Hv by (unfold vals, Get; by rewrite Ek). rewrite Hv.
  destruct (find_index v (view m bucket)) as [i|] eqn:Ei; [|split_and!; [done..|]; rewrite <-Hv; by eapply Hno].
  destruct bucket as [s|]; [|done]. cbn [view] in *. destruct (Hr _ _ Ek) as [Hl Hp].
  pose proof (find_index_lt _ _ _ Ei) as Hi. rewrite length_take in Hi. set (a := array m (ptr s)) in *.
  assert (true = bool_decide (v ∈ take (len s) a)) as Hin.
  { symmetry. apply bool_decide_eq_true_2. destruct (decide (v ∈ take (len s) a)) as [?|Hn]; [done|]. apply find_index_None in Hn. congruence. }
  assert (take i (take (len s) a) = take i a) as Hti by (rewrite take_take; f_equal; lia). rewrite Hti.
  set (a' := take i a ++ drop (i + 1) (take (len s) a) ++ drop (len s - 1) a).
  assert (∀ k' s' mp, k' ≠ k → mm m !! k' = Some (Some s') →
    ptr s ≠ ptr s' ∧ array (MkMultiMap (K:=K) (<[ptr s := a']> (arrays m)) mp) (ptr s') = array m (ptr s')) as Hoth.
  { intros k' s' mp Hne Hk'. assert (ptr s ≠ ptr s') by (intros Hpp; apply Hne; by eapply Hd). split; [done|].
    rewrite array_insert, decide_False by done. done. }
  destruct (Nat.eqb_spec (len s) 1) as [H1|H1].
  - destruct (forget_ok m (MkMultiMap (<[ptr s := a']> (arrays m)) (delete k (mm m))) k Hok) as (G1 & G2 & G3); cbn; [done|by rewrite length_insert| |].
    { intros k' s' Hne Hk'. by apply (Hoth k'). }
    cbn. split_and!; [done| |done|done]. rewrite G2, H1. assert (i = 0) as -> by lia. cbn. by destruct a as [|? []].
  - destruct (put_ok m (MkMultiMap (<[ptr s := a']> (arrays m)) (mm m)) k (Slice (ptr s) (len s - 1)) Hok) as (G1 & G2 & G3); cbn; [done| | | |].
    + rewrite array_insert, decide_True, length_insert by done. unfold a'. rewrite !length_app, !length_drop, !length_take. lia.
    + by rewrite length_insert.
    + intros k' s' Hne Hk'. by apply (Hoth k').
    + cbn. split_and!; [done| |done|done]. rewrite G2. cbn [view ptr len]. rewrite array_insert, decide_True by done. unfold a'.
      rewrite app_assoc, take_app_length'; [done|]. rewrite length_app, length_drop, !length_take. lia.
Qed.

(** The operations that change a multimap, and what they do to the values of the keys. *)
Inductive mm_op := MAdd (k : K) (v : V) | MAddAll (k : K) (vs : list V) | MSet (k : K) (vs : list V) | MDelete (k : K)
  | MDeleteValue (k : K) (v : V) | MClear.
Definition mm_do (m : MultiMap K V) (o : mm_op) : MultiMap K V :=
  match o with
  | MAdd k v => AddMM zero grow m k v
  | MAddAll k vs => AddAllMM zero grow m k vs
  | MSet k vs => SetBucket m k vs
  | MDelete k => DeleteMM m k
  | MDeleteValue k v => (DeleteValue m k v).1
  | MClear => ClearMM m
  end.
Definition spec_do (f : K → list V) (o : mm_op) : K → list V :=
  let set k l := λ k', if decide (k' = k) then l else f k' in
  match o with
  | MAdd k v => set k (f k ++ [v])
  | MAddAll k vs => set k (f k ++ vs)
  | MSet k vs => set k vs
  | MDelete k => set k []
  | MDeleteValue k v => set k (delete_first v (f k))
  | MClear => λ _, []
  end.

Lemma SetBucket_spec (m : MultiMap K V) k vs : mm_ok m →
  mm_ok (SetBucket m k vs) ∧ vals (SetBucket m k vs) k = vs ∧ ∀ k', k' ≠ k → vals (SetBucket m k vs) k' = vals m k'.
Proof.
  intros Hok. pose proof Hok as [Hr Hd]. destruct vs as [|v vs]; cbn [SetBucket]; [by apply (forget_ok m)|].
  destruct (put_ok m (MkMultiMap (arrays m ++ [v :: vs]) (mm m)) k (Slice (length (arrays m)) (length (v :: vs))) Hok) as (H1 & H2 & H3).
  - done.
  - cbn [ptr len]. rewrite array_app_new. cbn. rewrite length_app. cbn. lia.
  - cbn. rewrite length_app. lia.
  - intros k' s' Hne Hk'. destruct (Hr _ _ Hk') as [_ Hp']. cbn. split; [lia|]. by apply array_app_old.
  - split_and!; [done| |done]. rewrite H2. cbn [view ptr len]. rewrite array_app_new. by rewrite firstn_all.
Qed.

Lemma mm_do_spec m o f : mm_ok m → (∀ k, vals m k = f k) → mm_ok (mm_do m o) ∧ ∀ k, vals (mm_do m o) k = spec_do f o k.
Proof using grow_enough.
  intros Hok Hf.
  assert (∀ m' k l, mm_ok m' ∧ vals m' k = l ∧ (∀ k', k' ≠ k → vals m' k' = vals m k') →
    mm_ok m' ∧ ∀ k', vals m' k' = if decide (k' = k) then l else f k') as Hset.
  { intros m' k l (H1 & H2 & H3). split; [done|]. intros k'. case_decide; [by subst|]. rewrite H3, Hf; done. }
  destruct o as [k v|k vs|k vs|k|k v|]; cbn; try (apply Hset; rewrite <-?Hf).
  - by apply append_spec.
  - by apply append_spec.
  - by apply SetBucket_spec.
  - by apply forget_ok.
  - destruct (DeleteValue_spec m k v Hok) as (? & ? & ? & _). done.
  - split; [by split; cbn; intros ? ?; rewrite lookup_empty|]. intros k. done.
Qed.

Lemma filter_perm (l l' : list (K * option slice)) : l ≡ₚ l' → List.filter nonempty l ≡ₚ List.filter nonempty l'.
Proof.
  induction 1 as [|x l l' _ IH|x y l|l1 l2 l3 _ IH1 _ IH2]; cbn; [done|by destruct (nonempty x); [constructor|]| |by etrans].
  destruct (nonempty x), (nonempty y); try done. constructor.
Qed.

Lemma Keys_perm order (m : MultiMap K V) : range_order order → KeysMM order m ≡ₚ (List.filter nonempty (map_to_list (mm m))).*1.
Proof.
  intros Ho. unfold KeysMM. apply fmap_Permutation, filter_perm, Ho.
Qed.

Lemma filter_keys_NoDup (l : list (K * option slice)) : NoDup l.*1 → NoDup (List.filter nonempty l).*1.
Proof.
  induction l as [|x l IH]; cbn; [done|]. intros [Hx Hnd]%NoDup_cons. destruct (nonempty x); [|by apply IH].
  cbn. apply NoDup_cons. split; [|by apply IH]. intros (y & Hy & Hin)%list_elem_of_fmap. apply Hx.
  rewrite Hy. apply list_elem_of_fmap_2. apply list_elem_of_In in Hin. by apply list_elem_of_In, (filter_In nonempty).
Qed.

(** A multimap is a map from keys to lists of values.  After any operations on a new one, whatever capacities
    [append] chooses and although buckets are changed in place, every key has the values that the operations on lists
    give; [Count] is their number, [Has] tells whether there are any, and [DeleteValue] whether the value was there;
    [Keys] lists each key with a value once, in any order of iteration, and [Len] counts them. *)
Theorem multimap_refines (ops : list mm_op) order (k : K) (v : V) : range_order order →
  let m := fold_left mm_do ops NewMultiMap in
  let f := fold_left spec_do ops (λ _, []) in
  vals m k = f k ∧ Count m k = length (f k) ∧ (Has m k = true ↔ f k ≠ []) ∧
  (DeleteValue m k v).2 = bool_decide (v ∈ f k) ∧
  NoDup (KeysMM order m) ∧ (k ∈ KeysMM order m ↔ f k ≠ []) ∧ LenMM m = length (KeysMM order m).
Proof using grow_enough.
  intros Ho m f. assert (mm_ok m ∧ ∀ k, vals m k = f k) as [Hok Hf].
  { assert (∀ m0 f0, mm_ok m0 → (∀ k, vals m0 k = f0 k) →
      mm_ok (fold_left mm_do ops m0) ∧ ∀ k, vals (fold_left mm_do ops m0) k = fold_left spec_do ops f0 k) as Hall.
    { induction ops as [|o ops IH]; intros m0 f0 H1 H2; [done|]. cbn. destruct (mm_do_spec m0 o f0 H1 H2). by apply IH. }
    apply Hall; [by split; cbn; intros ? ?; rewrite lookup_empty|done]. }
  clearbody m f. pose proof Hok as [Hr Hd].
  assert (∀ k s, mm m !! k = Some (Some s) → length (f k) = len s) as Hlen.
  { intros k' s Hk. destruct (Hr _ _ Hk). rewrite <-Hf. unfold vals, Get. rewrite Hk. cbn. rewrite length_take. lia. }
  assert (∀ k o, mm m !! k = Some o → nonempty (k, o) = true ↔ f k ≠ []) as Hne.
  { intros k' [s|] Hk; unfold nonempty; cbn [snd].
    - specialize (Hlen _ _ Hk). rewrite Nat.ltb_lt. destruct (f k'); cbn in *; split; intros; try done; lia.
    - rewrite <-Hf. unfold vals, Get. rewrite Hk. cbn. naive_solver. }
  split_and!.
  - apply Hf.
  - unfold Count, Get. destruct (mm m !! k) as [[s|]|] eqn:Ek; cbn; [by rewrite (Hlen _ _ Ek)|..]; rewrite <-Hf; unfold vals, Get; by rewrite Ek.
  - unfold Has. destruct (mm m !! k) as [o|] eqn:Ek; [rewrite <-(Hne k o Ek); by destruct o|].
    rewrite <-Hf. unfold vals, Get. rewrite Ek. cbn. naive_solver.
  - rewrite <-Hf. by apply DeleteValue_spec.
  - rewrite Keys_perm by done. apply filter_keys_NoDup, NoDup_fst_map_to_list.
  - rewrite Keys_perm, list_elem_of_fmap by done. split.
    + intros ([k' o] & -> & [Hin Hn]%list_elem_of_In%filter_In). apply list_elem_of_In, elem_of_map_to_list in Hin. by apply (Hne _ o).
    + intros Hk. destruct (mm m !! k) as [o|] eqn:Ek; cycle 1. { rewrite <-Hf in Hk. unfold vals, Get in Hk. by rewrite Ek in Hk. }
      exists (k, o). split; [done|]. apply list_elem_of_In, filter_In. split; [by apply list_elem_of_In, elem_of_map_to_list|by apply (Hne _ o)].
  - unfold LenMM. by rewrite Keys_perm, length_fmap by done.
Qed.
End multimap_proofs.

Definition demo_mm : MultiMap Z Z :=
  fold_left (mm_do 0%Z (λ n, 2 * n)) [MAdd 1%Z 10%Z; MAddAll 1%Z [20%Z; 30%Z]] NewMultiMap.

Example multimap_refines_witness :
  (∀ n, n ≤ 2 * n) ∧ range_order (@rev (Z * option slice)) ∧ vals demo_mm 1%Z = [10%Z; 20%Z; 30%Z].
Proof.
  assert (∀ n, n ≤ 2 * n) as Hg by lia.
  assert (range_order (@rev (Z * option slice))) as Ho by (intros l; symmetry; apply Permutation_rev).
  split; [exact Hg|]. split; [exact Ho|].
  exact (proj1 (multimap_refines 0%Z (λ n, 2 * n) Hg [MAdd 1%Z 10%Z; MAddAll 1%Z [20%Z; 30%Z]] (@rev _) 1%Z 0%Z Ho)).
Defined.

(** A slice handed out by [Get] is not a copy: after [DeleteValue] it shows the shifted array. *)
Example get_sees_delete :
  let s := Get demo_mm 1%Z in
  view demo_mm s = [10%Z; 20%Z; 30%Z] ∧ view (DeleteValue demo_mm 1%Z 10%Z).1 s = [20%Z; 30%Z; 30%Z].
Proof. vm_compute. done. Qed.
