(* ===== verification/SignalBus.v ===== *)
(** * SignalBus: synchronous signals ([signalbus/signalbus.go])

    What runs under the mutex is one step.  A [Send] takes a copy of the handlers and of the hook in
    one step and then calls the handlers one after another; between two calls, and while a handler runs,
    any other step can happen: other goroutines, and the handlers themselves, which may use the bus.
    A handler is a number; whether its call returns or panics, and whether the hook does, is chosen by
    the step.  The slices of the map never leave the bus, so they are lists.

    Shown: every [Send] calls exactly the handlers that were connected when it took its copy, in the
    order of connection, each one once, and panics neither stop it nor escape as long as
    the hook does not panic, and it ends after as many calls as there were handlers ([send_exact], [send_ends]); a
    disconnect function removes its own subscription and nothing else ([disconnect_exact]).
    [hook_panic_escapes]: a panicking hook ends the dispatch. *)

From Stdlib Require Import ZArith Lia Sorted.
From stdpp Require Import base tactics numbers list gmap strings relations.
From S2P Require Import Prelude.

#[local] Open Scope list_scope.

Record entry := Entry { e_id : nat; e_h : nat }.

(** A call of [Send]: what is left of its copy, the copy of the hook (is there one), and for the
    statements the whole copy and the ids already called. *)
Record dispatch := Dispatch {
  d_name : string;
  d_todo : list entry;
  d_hook : bool;
  d_snapshot : list entry;
  d_called : list entry;
  d_escaped : bool;    (* a panic of the hook left [Send] *)
}.

(** The function that [Connect] returns: its [sync.Once] has run or not. *)
Record closure := Closure { c_name : string; c_id : nat; c_used : bool }.

Record Bus := MkBus {
  subs : gmap string (list entry);
  nextID : nat;
  recovered : nat;
  hook : bool;
  closures : list closure;     (* handed out so far *)
  sends : list dispatch;       (* all calls of Send so far *)
  panics : nat;                (* calls of handlers that panicked *)
}.

Definition New : Bus := MkBus ∅ 0 0 false [] [] 0.

Definition handlers (b : Bus) (name : string) : list entry := default [] (subs b !! name).

Definition set_subs (b : Bus) (m : gmap string (list entry)) : Bus :=
  MkBus m (nextID b) (recovered b) (hook b) (closures b) (sends b) (panics b).

(** [None] for a nil handler. *)
Definition Connect (b : Bus) (name : string) (h : option nat) : Bus :=
  match h with
  | None => b
  | Some h =>
      let id := S (nextID b) in
      MkBus (<[name := handlers b name ++ [Entry id h]]> (subs b)) id (recovered b) (hook b)
        (closures b ++ [Closure name id false]) (sends b) (panics b)
  end.

(** The loop of [remove]: the list without the first entry of that id; [None] when there is none. *)
Fixpoint remove_loop (id : nat) (l : list entry) : option (list entry) :=
  match l with
  | [] => None
  | e :: l => if e_id e =? id then Some l else cons e <$> remove_loop id l
  end.

Definition remove (b : Bus) (name : string) (id : nat) : Bus :=
  match remove_loop id (handlers b name) with
  | None => b
  | Some [] => set_subs b (delete name (subs b))
  | Some l => set_subs b (<[name := l]> (subs b))
  end.

(** Calling the function that [Connect] returned: [once.Do]. *)
Definition disconnect (b : Bus) (i : nat) : Bus :=
  match closures b !! i with
  | Some (Closure name id false) =>
      let b := remove b name id in
      MkBus (subs b) (nextID b) (recovered b) (hook b) (<[i := Closure name id true]> (closures b)) (sends b) (panics b)
  | _ => b
  end.

Definition Disconnect (b : Bus) (name : string) : Bus := set_subs b (delete name (subs b)).
Definition Len (b : Bus) (name : string) : nat := length (handlers b name).
Definition SetPanicHook (b : Bus) (h : bool) : Bus :=
  MkBus (subs b) (nextID b) (recovered b) h (closures b) (sends b) (panics b).
Definition Recovered (b : Bus) : nat := recovered b.

(** The part of [Send] under the lock. *)
Definition Send_start (b : Bus) (name : string) : Bus :=
  MkBus (subs b) (nextID b) (recovered b) (hook b) (closures b)
    (sends b ++ [Dispatch name (handlers b name) (hook b) (handlers b name) [] false]) (panics b).

(** How the call of a handler, and of the hook after it, ends. *)
Inductive outcome := Returns | Panics (hook_panics : bool).

(** [invoke] for the next handler of a dispatch. *)
Definition invoke (d : dispatch) (o : outcome) : dispatch :=
  match d_todo d with
  | [] => d
  | e :: todo =>
      let esc := match o with Panics true => d_hook d | _ => false end in
      Dispatch (d_name d) (if esc then [] else todo) (d_hook d) (d_snapshot d) (d_called d ++ [e]) esc
  end.

Definition invoke_step (b : Bus) (j : nat) (o : outcome) : Bus :=
  match sends b !! j with
  | Some d =>
      match d_todo d with
      | [] => b
      | _ =>
          let p := match o with Returns => 0 | Panics _ => 1 end in
          MkBus (subs b) (nextID b) (recovered b + p) (hook b) (closures b) (<[j := invoke d o]> (sends b)) (panics b + p)
      end
  | None => b
  end.

Inductive bus_op :=
| OConnect (name : string) (h : option nat)
| OClosure (i : nat)
| ODisconnect (name : string)
| OHook (h : bool)
| OSend (name : string)
| OInvoke (j : nat) (o : outcome).

Definition step (b : Bus) (o : bus_op) : Bus :=
  match o with
  | OConnect name h => Connect b name h
  | OClosure i => disconnect b i
  | ODisconnect name => Disconnect b name
  | OHook h => SetPanicHook b h
  | OSend name => Send_start b name
  | OInvoke j o => invoke_step b j o
  end.
Definition run (b : Bus) (ops : list bus_op) : Bus := fold_left step ops b.

(** ** Invariant *)

Definition ids (l : list entry) : list nat := e_id <$> l.

Record bus_ok (b : Bus) : Prop := {
  ok_sorted : ∀ name, StronglySorted lt (ids (handlers b name));
  ok_below : ∀ name id, id ∈ ids (handlers b name) → id ≤ nextID b;
  ok_owner : ∀ n1 n2 id, id ∈ ids (handlers b n1) → id ∈ ids (handlers b n2) → n1 = n2;
  ok_nonempty : ∀ name, subs b !! name ≠ Some [];
  ok_closures : ∀ i c, closures b !! i = Some c → c_id c ≤ nextID b ∧
    ∀ name, c_id c ∈ ids (handlers b name) → name = c_name c;
  ok_used : ∀ i c name, closures b !! i = Some c → c_used c = true → c_id c ∉ ids (handlers b name);
  ok_unique : ∀ i i' c c', closures b !! i = Some c → closures b !! i' = Some c' → c_id c = c_id c' → i = i';
  ok_dispatch : ∀ j d, sends b !! j = Some d → StronglySorted lt (ids (d_snapshot d)) ∧
    if d_escaped d then d_todo d = [] ∧ d_hook d = true ∧ ∃ rest, d_snapshot d = d_called d ++ rest
    else d_snapshot d = d_called d ++ d_todo d;
  ok_counted : recovered b = panics b;
}.

Lemma bus_remove_spec id l : StronglySorted lt (ids l) →
  match remove_loop id l with
  | None => id ∉ ids l
  | Some l' => id ∈ ids l ∧ l' = filter (λ e, e_id e ≠ id) l
  end.
Proof.
  unfold ids. induction l as [|e l IH]; [intros _; apply not_elem_of_nil|]. csimpl.
  intros [Hs Hf]%StronglySorted_inv. specialize (IH Hs). cbn [remove_loop].
  destruct (Nat.eqb_spec (e_id e) id) as [He|He].
  - rewrite filter_cons_False by tauto. split; [subst; by left|]. symmetry. apply filter_all.
    intros x Hx Heq. rewrite Forall_forall in Hf. specialize (Hf (e_id x)).
    assert (e_id e < e_id x); [|lia]. apply Hf, list_elem_of_fmap. by exists x.
  - destruct (remove_loop id l) as [l'|]; cbn [fmap option_fmap option_map].
    + destruct IH as [Hin ->]. rewrite filter_cons_True by done. split; [by right|done].
    + intros [->|?]%elem_of_cons; done.
Qed.

Lemma ids_app l l' : ids (l ++ l') = ids l ++ ids l'.
Proof. apply fmap_app. Qed.

Lemma ids_filter id l x : x ∈ ids (filter (λ e, e_id e ≠ id) l) ↔ x ∈ ids l ∧ x ≠ id.
Proof.
  unfold ids. rewrite !list_elem_of_fmap. split.
  - intros (e & -> & [Hn Hin]%list_elem_of_filter). eauto.
  - intros [(e & -> & Hin) Hn]. exists e. split; [done|]. by apply list_elem_of_filter.
Qed.

Lemma sorted_filter id l : StronglySorted lt (ids l) → StronglySorted lt (ids (filter (λ e, e_id e ≠ id) l)).
Proof.
  unfold ids. induction l as [|e l IH]; [done|]. csimpl. intros [Hs Hf]%StronglySorted_inv. rewrite filter_cons.
  case_decide; [|by apply IH]. csimpl. constructor; [by apply IH|]. rewrite Forall_forall in *. intros x Hx.
  apply Hf. by apply (ids_filter id l) in Hx as [? _].
Qed.

Lemma sorted_snoc l x : StronglySorted lt l → (∀ y, y ∈ l → y < x) → StronglySorted lt (l ++ [x]).
Proof.
  induction l as [|y l IH]; cbn; intros Hs Hb; [repeat constructor|]. apply StronglySorted_inv in Hs as [Hs Hf].
  constructor; [apply IH; [done|]; intros z Hz; apply Hb; by right|]. apply Forall_app. split; [done|]. repeat constructor. apply Hb. by left.
Qed.

(** Removing leaves, under every name, the entries with other ids. *)
Lemma remove_handlers b name id : StronglySorted lt (ids (handlers b name)) → ∀ n,
  handlers (remove b name id) n = if decide (n = name) then filter (λ e, e_id e ≠ id) (handlers b name) else handlers b n.
Proof.
  intros Hs n. unfold remove. pose proof (bus_remove_spec id _ Hs) as Hr.
  destruct (remove_loop id (handlers b name)) as [l|].
  - destruct Hr as [_ ->]. unfold handlers at 1. destruct (filter _ _) as [|e l] eqn:El; cbn; case_decide as Hn; subst.
    + by rewrite lookup_delete_eq.
    + by rewrite lookup_delete_ne.
    + by rewrite lookup_insert_eq.
    + by rewrite lookup_insert_ne.
  - case_decide as Hn; [|done]. subst. symmetry. apply filter_all. intros e He Heq. apply Hr. apply list_elem_of_fmap. by exists e.
Qed.

Lemma remove_frame b name id :
  nextID (remove b name id) = nextID b ∧ recovered (remove b name id) = recovered b ∧ hook (remove b name id) = hook b ∧
  closures (remove b name id) = closures b ∧ sends (remove b name id) = sends b ∧ panics (remove b name id) = panics b.
Proof. unfold remove. by destruct (remove_loop _ _) as [[]|]. Qed.

(** A bus whose subscriptions shrink stays well formed. *)
Lemma shrink_ok b m cl : bus_ok b → (∀ n, m !! n ≠ Some []) →
  (∀ n, StronglySorted lt (ids (default [] (m !! n)))) → (∀ n x, x ∈ ids (default [] (m !! n)) → x ∈ ids (handlers b n)) →
  (∀ i c, cl !! i = Some c → ∃ c0, closures b !! i = Some c0 ∧ c_name c = c_name c0 ∧ c_id c = c_id c0 ∧
     (c_used c = true → c_used c0 = true ∨ ∀ n, c_id c ∉ ids (default [] (m !! n)))) →
  bus_ok (MkBus m (nextID b) (recovered b) (hook b) cl (sends b) (panics b)).
Proof.
  intros [H1 H2 H3 H4 H5 H6 H7 H8 H9] Hne Hso Hsub Hcl. split; unfold handlers; cbn; try done.
  - intros name id Hin. by eapply H2, Hsub.
  - intros n1 n2 id G1%Hsub G2%Hsub. by eapply H3.
  - intros i c (c0 & Hc0 & -> & -> & _)%Hcl. destruct (H5 _ _ Hc0) as [Hle Hn]. split; [done|]. intros name Hin%Hsub. by apply Hn.
  - intros i c name (c0 & Hc0 & _ & Hid & Hu)%Hcl Hc. destruct (Hu Hc) as [Hu0|Hu0]; [|done]. rewrite Hid. intros Hin%Hsub.
    by eapply H6.
  - intros i i' c c' (c0 & Hc0 & _ & -> & _)%Hcl (c1 & Hc1 & _ & -> & _)%Hcl. by apply H7.
Qed.

Lemma same_closures b (m : gmap string (list entry)) i c : closures b !! i = Some c → ∃ c0, closures b !! i = Some c0 ∧ c_name c = c_name c0 ∧ c_id c = c_id c0 ∧
     (c_used c = true → c_used c0 = true ∨ ∀ n, c_id c ∉ ids (default [] (m !! n))).
Proof. intros Hc. exists c. split_and!; auto. Qed.

Lemma Connect_ok b name h : bus_ok b → bus_ok (Connect b name h).
Proof.
  intros Hok. pose proof Hok as [H1 H2 H3 H4 H5 H6 H7 H8 H9]. destruct h as [h|]; [|done]. cbn.
  assert (∀ n, default [] (<[name := handlers b name ++ [Entry (S (nextID b)) h]]> (subs b) !! n) =
    handlers b n ++ (if decide (n = name) then [Entry (S (nextID b)) h] else [])) as Hh.
  { intros n. case_decide; [subst; by rewrite lookup_insert_eq|]. by rewrite lookup_insert_ne, app_nil_r. }
  assert (∀ n x, x ∈ ids (handlers b n ++ (if decide (n = name) then [Entry (S (nextID b)) h] else [])) →
    x ∈ ids (handlers b n) ∨ (n = name ∧ x = S (nextID b))) as Hin.
  { intros n x. rewrite ids_app, elem_of_app. case_decide; [|by intros [?|?%not_elem_of_nil]; [left|]]. subst.
    intros [?|?]; [by left|]. right. split; [done|]. by apply list_elem_of_singleton. }
  split; unfold handlers at 1; cbn; try done.
  - intros n. rewrite Hh, ids_app. case_decide; [|by rewrite app_nil_r]. subst. apply sorted_snoc; [done|].
    intros y Hy%H2. cbn. lia.
  - intros n id. rewrite Hh. intros [Hi%H2|[_ ->]]%Hin; lia.
  - intros n1 n2 id. unfold handlers. cbn. rewrite !Hh. intros [G1|[-> ->]]%Hin [G2|[-> ?]]%Hin; [by eapply H3|apply H2 in G1; lia|apply H2 in G2; lia|done].
  - intros n. destruct (decide (n = name)) as [->|Hn]; [rewrite lookup_insert_eq|rewrite lookup_insert_ne by done; apply H4]. intros [= Hnil]. by apply app_eq_nil in Hnil as [_ [=]].
  - intros i c. rewrite lookup_snoc_Some. intros [[_ Hc]|[_ <-]]; cbn.
    + destruct (H5 _ _ Hc) as [Hle Hn]. split; [lia|]. intros n. unfold handlers. cbn. rewrite Hh. intros [Hi|[-> Hid]]%Hin; [by apply Hn|lia].
    + split; [done|]. intros n. unfold handlers. cbn. rewrite Hh. intros [Hi%H2|[-> _]]%Hin; [lia|done].
  - intros i c n. rewrite lookup_snoc_Some. unfold handlers. cbn. rewrite Hh. intros [[_ Hc]|[_ <-]] Hu; [|done].
    intros [Hi|[_ Hid]]%Hin; [by eapply H6|]. destruct (H5 _ _ Hc). lia.
  - intros i i' c c'. rewrite !lookup_snoc_Some. intros [[? Hc]|[-> <-]] [[? Hc']|[-> <-]] Hid; [by eapply H7| | |done].
    + cbn in Hid. destruct (H5 _ _ Hc). lia.
    + cbn in Hid. destruct (H5 _ _ Hc'). lia.
Qed.

Lemma remove_ok b name id cl : bus_ok b →
  (∀ i c, cl !! i = Some c → ∃ c0, closures b !! i = Some c0 ∧ c_name c = c_name c0 ∧ c_id c = c_id c0 ∧
     (c_used c = true → c_used c0 = true ∨ (c_id c = id ∧ c_name c = name))) →
  bus_ok (MkBus (subs (remove b name id)) (nextID b) (recovered b) (hook b) cl (sends b) (panics b)).
Proof.
  intros Hok Hcl. pose proof Hok as [H1 H2 H3 H4 H5 H6 H7 H8 H9]. pose proof (remove_handlers b name id (H1 name)) as Hh.
  unfold handlers in Hh at 1. apply shrink_ok; [done|..].
  - intros n. unfold remove. destruct (remove_loop _ _) as [[|e l]|]; cbn; [|destruct (decide (n = name)) as [->|Hn]|done].
    + destruct (decide (n = name)) as [->|Hn]; [by rewrite lookup_delete_eq|by rewrite lookup_delete_ne].
    + by rewrite lookup_insert_eq.
    + by rewrite lookup_insert_ne.
  - intros n. rewrite Hh. case_decide; [by apply sorted_filter|done].
  - intros n x. rewrite Hh. case_decide; [subst; by intros [? _]%ids_filter|done].
  - intros i c Hc. destruct (Hcl i c Hc) as (c0 & Hc0 & Hn & Hid & Hu). exists c0. split_and!; [done..|]. intros Hcu.
    destruct (Hu Hcu) as [?|[Hi Hna]]; [by left|right]. intros n. rewrite Hh, Hi. case_decide as Hd; [by intros [_ ?]%ids_filter|].
    intros Hin. apply Hd. destruct (H5 _ _ Hc0) as [_ Ho]. rewrite <-Hna, Hn. apply Ho. by rewrite <-Hid, Hi.
Qed.

Lemma bus_step_ok b o : bus_ok b → bus_ok (step b o).
Proof.
  intros Hok. pose proof Hok as [H1 H2 H3 H4 H5 H6 H7 H8 H9]. destruct o as [name h|i|name|h|name|j o]; cbn [step].
  - by apply Connect_ok.
  - unfold disconnect. destruct (closures b !! i) as [[name id []]|] eqn:Ei; [done| |done].
    destruct (remove_frame b name id) as (-> & -> & -> & -> & -> & ->). apply remove_ok; [done|].
    intros i' c Hc. destruct (decide (i' = i)) as [->|Hne].
    + rewrite list_lookup_insert_eq in Hc by (by eapply lookup_lt_Some). injection Hc as <-. eexists. split; [done|]. cbn. auto.
    + rewrite list_lookup_insert_ne in Hc by done. exists c. split_and!; auto.
  - assert (∀ n, default [] (delete name (subs b) !! n) = if decide (n = name) then [] else handlers b n) as Hh.
    { intros n. case_decide; [subst; by rewrite lookup_delete_eq|by rewrite lookup_delete_ne]. }
    apply shrink_ok; [done|..].
    + intros n. destruct (decide (n = name)) as [->|Hn]; [by rewrite lookup_delete_eq|by rewrite lookup_delete_ne].
    + intros n. rewrite Hh. case_decide; [constructor|done].
    + intros n x. rewrite Hh. case_decide; [by intros ?%not_elem_of_nil|done].
    + intros i c Hc. by apply same_closures.
  - by split.
  - split; try done. cbn. intros j d. rewrite lookup_snoc_Some. intros [[_ Hd]|[_ <-]]; [by apply (H8 j)|]. cbn. split; [apply H1|done].
  - unfold invoke_step. destruct (sends b !! j) as [d|] eqn:Ej; [|done]. destruct (d_todo d) as [|e todo] eqn:Et; [done|].
    split; try done; cbn; [|lia]. intros j' d' Hd'. destruct (decide (j' = j)) as [->|Hne].
    + rewrite list_lookup_insert_eq in Hd' by (by eapply lookup_lt_Some). injection Hd' as <-. destruct (H8 _ _ Ej) as [Hs Hd].
      rewrite Et in Hd. unfold invoke. rewrite Et. destruct (d_escaped d); [by destruct Hd|]. cbn. split; [done|].
      rewrite Hd. destruct o as [|[]]; [by rewrite <-app_assoc| |by rewrite <-app_assoc]. destruct (d_hook d); [|by rewrite <-app_assoc].
      split_and!; [done..|]. exists todo. by rewrite <-app_assoc.
    + rewrite list_lookup_insert_ne in Hd' by done. by apply (H8 j').
Qed.

Lemma bus_New_ok : bus_ok New.
Proof.
  split; unfold handlers; cbn; try done; intros *; rewrite ?lookup_empty; cbn; try done; try (by intros ?%not_elem_of_nil). constructor.
Qed.

Lemma bus_run_ok b ops : bus_ok b → bus_ok (run b ops).
Proof. revert b. induction ops as [|o ops IH]; intros b Hb; [done|]. apply IH. by apply bus_step_ok. Qed.

(** ** Theorems *)

(** Every [Send], under any interleaving with other goroutines and with handlers that use the bus themselves, calls the
    handlers that were connected when it took its copy, in the order of connection and each one once: what it has called
    followed by what is left is the copy, whose ids increase.  Panics are counted and stop nothing, unless a hook is
    installed and panics itself. *)
Theorem send_exact ops j d : sends (run New ops) !! j = Some d →
  StronglySorted lt (ids (d_snapshot d)) ∧ Recovered (run New ops) = panics (run New ops) ∧
  if d_escaped d then d_hook d = true ∧ ∃ rest, d_snapshot d = d_called d ++ rest
  else d_snapshot d = d_called d ++ d_todo d.
Proof.
  intros Hd. destruct (bus_run_ok New ops bus_New_ok) as [_ _ _ _ _ _ _ H8 H9]. destruct (H8 _ _ Hd) as [Hs Hc].
  split_and!; [done|done|]. destruct (d_escaped d); [|done]. by destruct Hc as (_ & ? & ?).
Qed.

(** A [Send] that has taken its copy ends: after as many calls as its copy has handlers nothing is left, whatever
    else happens on the bus in between. *)
Theorem send_ends b j d others (outs : list outcome) : sends b !! j = Some d →
  length outs = length (d_todo d) → length others = length outs →
  (∀ ops, ops ∈ others → ∀ o, OInvoke j o ∉ ops) →
  ∃ d', sends (run b (concat (zip_with (λ o ops, OInvoke j o :: ops) outs others))) !! j = Some d' ∧ d_todo d' = [].
Proof.
  revert b d others. induction outs as [|o outs IH]; intros b d others Hd Hl Hlo Hoth.
  { destruct others; [|done]. exists d. split; [done|]. by destruct (d_todo d). }
  destruct others as [|ops others]; [done|]. destruct (d_todo d) as [|e todo] eqn:Et; [done|]. cbn [zip_with concat]. rewrite <-app_comm_cons. cbn [run fold_left].
  unfold run. rewrite fold_left_app. fold (run (step b (OInvoke j o)) ops).
  assert (∀ ops b d, sends b !! j = Some d → (∀ o, OInvoke j o ∉ ops) → sends (run b ops) !! j = Some d) as Hkeep.
  { clear. intros ops. induction ops as [|x ops IH]; intros b d Hd Hno; [done|]. cbn [run fold_left]. apply IH; [|intros o Ho; apply (Hno o); by right].
    assert (∀ o, x ≠ OInvoke j o) as Hx by (intros o ->; apply (Hno o); by left).
    destruct x as [name [h|]|i|name|h|name|j' o]; cbn; try done.
    - unfold disconnect. destruct (closures b !! i) as [[n id []]|]; try done. cbn. by destruct (remove_frame b n id) as (_ & _ & _ & _ & -> & _).
    - rewrite lookup_app_l; [done|]. by eapply lookup_lt_Some.
    - unfold invoke_step. destruct (sends b !! j') as [d'|]; [|done]. destruct (d_todo d'); [done|]. cbn.
      rewrite list_lookup_insert_ne; [done|]. intros ->. by apply (Hx o). }
  set (b1 := step b (OInvoke j o)). assert (sends b1 !! j = Some (invoke d o)) as H1.
  { unfold b1. cbn. unfold invoke_step. rewrite Hd, Et. cbn. apply list_lookup_insert_eq. by eapply lookup_lt_Some. }
  assert (sends (run b1 ops) !! j = Some (invoke d o)) as H2 by (apply Hkeep; [done|]; intros o'; apply (Hoth ops); by left).
  destruct (d_todo (invoke d o)) as [|e' todo'] eqn:Ei.
  - assert (∀ outs others b, sends b !! j = Some (invoke d o) → (∀ ops, ops ∈ others → ∀ o, OInvoke j o ∉ ops) →
      sends (run b (concat (zip_with (λ o ops, OInvoke j o :: ops) outs others))) !! j = Some (invoke d o)) as Hdone.
    { clear -Ei Hkeep. induction outs as [|o' outs IH]; intros [|ops others] b Hb Hoth; try done. cbn [zip_with concat]. rewrite <-app_comm_cons. cbn [run fold_left].
      unfold run. rewrite fold_left_app. apply IH; [|intros ops' Hin; apply Hoth; by right]. apply (Hkeep ops); [|apply Hoth; by left].
      cbn. unfold invoke_step. by rewrite Hb, Ei. }
    exists (invoke d o). split; [|done]. apply Hdone; [done|]. intros ops' Hin. apply Hoth. by right.
  - apply (IH _ (invoke d o)); [done| |cbn in Hlo; lia|intros ops' Hin; apply Hoth; by right].
    unfold invoke in Ei |- *. rewrite Et in *. cbn in *. destruct o as [|[]], (d_hook d); cbn in *; try done; lia.
Qed.

(** The function returned by [Connect] removes exactly its own subscription, at its first call; later calls, and calls after
    [Disconnect], change nothing, also when the same name has been connected again. *)
Theorem disconnect_exact ops i name id : let b := run New ops in
  closures b !! i = Some (Closure name id false) →
  (∀ n, handlers (disconnect b i) n = filter (λ e, e_id e ≠ id) (handlers b n)) ∧
  subs (disconnect (disconnect b i) i) = subs (disconnect b i) ∧
  (∀ n, disconnect (Disconnect (disconnect b i) n) i = Disconnect (disconnect b i) n).
Proof.
  intros b Hc. pose proof (bus_run_ok New ops bus_New_ok) as Hok. fold b in Hok. destruct Hok as [H1 H2 H3 H4 H5 H6 H7 H8 H9].
  assert (closures (disconnect b i) !! i = Some (Closure name id true)) as Hu.
  { unfold disconnect. rewrite Hc. cbn. destruct (remove_frame b name id) as (_ & _ & _ & -> & _ & _). apply list_lookup_insert_eq. by eapply lookup_lt_Some. }
  split_and!.
  - intros n. assert (handlers (disconnect b i) n = handlers (remove b name id) n) as -> by (unfold disconnect; rewrite Hc; done).
    rewrite remove_handlers by done. case_decide as Hn; [by subst|]. symmetry. apply filter_all. intros e He Heq.
    apply Hn. destruct (H5 _ _ Hc) as [_ Ho]. apply Ho. cbn. rewrite <-Heq. apply list_elem_of_fmap. by exists e.
  - unfold disconnect at 1. by rewrite Hu.
  - intros n. unfold disconnect at 1. unfold Disconnect at 1. cbn. by rewrite Hu.
Qed.

Definition demo_ops : list bus_op :=
  [OConnect "bid" (Some 1); OConnect "bid" (Some 2); OHook true; OSend "bid"; OInvoke 0 (Panics false); OClosure 1; OInvoke 0 Returns].

Example send_exact_witness :
  ∃ d, sends (run New demo_ops) !! 0 = Some d ∧ StronglySorted lt (ids (d_snapshot d)) ∧ d_called d = [Entry 1 1; Entry 2 2].
Proof.
  eexists. split; [reflexivity|]. split; [|reflexivity]. refine (proj1 (send_exact demo_ops 0 _ _)). reflexivity.
Defined.

Example send_ends_witness :
  ∃ d', sends (run (run New (take 4 demo_ops)) [OInvoke 0 (Panics false); OClosure 1; OInvoke 0 Returns]) !! 0 = Some d' ∧ d_todo d' = [].
Proof.
  refine (send_ends (run New (take 4 demo_ops)) 0 _ [[OClosure 1]; []] [Panics false; Returns] _ _ _ _).
  - reflexivity.
  - reflexivity.
  - reflexivity.
  - intros ops Hin o Ho. repeat (apply elem_of_cons in Hin as [->|Hin]); try (by apply not_elem_of_nil in Hin);
      repeat (apply elem_of_cons in Ho as [Ho|Ho]); try done; by apply not_elem_of_nil in Ho.
Defined.

Example disconnect_exact_witness :
  let b := run New demo_ops in closures b !! 0 = Some (Closure "bid" 1 false) ∧ handlers (disconnect b 0) "bid" = [].
Proof.
  split; [reflexivity|]. etransitivity; [refine (proj1 (disconnect_exact demo_ops 0 "bid" 1 _) "bid"); reflexivity|reflexivity].
Defined.

(** A hook that panics takes the rest of the dispatch with it. *)
Example hook_panic_escapes :
  let b := run New [OConnect "bid" (Some 1); OConnect "bid" (Some 2); OHook true; OSend "bid"; OInvoke 0 (Panics true)] in
  (λ d, (d_called d, d_todo d, d_escaped d)) <$> sends b !! 0 = Some ([Entry 1 1], [], true).
Proof. reflexivity. Qed.
