(* ===== verification/Stage.v ===== *)
(** * Stage: the concurrent map-and-filter stage of [pipeline/pipeline.go]

    Workers take items from a bounded channel, apply the stage function and put what passes on a
    second bounded channel.  An item is named by its position in the order of acceptance.  Every channel
    operation is a step of its own; what the stage function answers for an item is chosen by the step
    that ends its call.  A step that is not possible changes nothing, so that every list of steps is a
    schedule.

    Shown: items are taken in the order of acceptance, and each one is at any moment in one place: queued,
    with one worker, delivered once, dropped by the stage, counted as a panic, or, after [Close] only,
    given up ([stage_conserves]); after [Close] no worker is ever blocked, the output is closed only when all workers have
    ended, so that nothing is sent on a closed channel, and by then every item accepted before [Close] has been
    processed ([stage_shutdown]).
    [close_gives_up] and [late_send_lost] show two ways in which an item that [Send] accepted does not come out. *)

From Stdlib Require Import ZArith Lia.
From stdpp Require Import base tactics numbers list sets.
From S2P Require Import Prelude.

#[local] Open Scope list_scope.

Record Config := mkConfig { nworkers : nat; inCap : nat; outCap : nat }.

Inductive Option_ := WithInputBuffer (n : Z) | WithOutputBuffer (n : Z).

Definition apply_option (c : Config) (o : Option_) : Config :=
  match o with
  | WithInputBuffer n => if (0 <? n)%Z then mkConfig (nworkers c) (Z.to_nat n) (outCap c) else c
  | WithOutputBuffer n => if (0 <? n)%Z then mkConfig (nworkers c) (inCap c) (Z.to_nat n) else c
  end.

(** [None] is the panic for no workers (a nil stage is not representable). *)
Definition New (workers : Z) (opts : list Option_) : option Config :=
  if (workers <=? 0)%Z then None
  else Some (fold_left apply_option opts (mkConfig (Z.to_nat workers) (Z.to_nat workers) (Z.to_nat workers))).

(** What the stage function does with an item: forwards a value, drops it (also with an error), or panics. *)
Inductive answer (O : Type) := Forward (o : O) | Drop | Panic.
Arguments Forward {O} o.
Arguments Drop {O}.
Arguments Panic {O}.

(** Where a worker is; [drain] is true inside the method [drain]. *)
Inductive wpc (O : Type) :=
| Ready (drain : bool)                          (* at a select on the input *)
| Working (drain : bool) (item : nat)           (* inside the stage function *)
| Blocked (drain : bool) (item : nat) (o : O)   (* at the second select of process *)
| Ended.
Arguments Ready {O} drain.
Arguments Working {O} drain item.
Arguments Blocked {O} drain item o.
Arguments Ended {O}.

Inductive closing := Open | Waiting | Closed.

Section stage.
Context {I O : Type} (cfg : Config).

Record sys := mkSys {
  inq : list nat;                (* positions of the queued items *)
  outq : list (nat * O);
  done_ : bool;
  out_closed : bool;
  workers : list (wpc O);
  phase : closing;               (* the body of [once.Do] in [Close] *)
  accepted : list I;
  taken : nat;                   (* how many items have been received by workers *)
  received : list (nat * O);     (* by the consumer *)
  dropped : list nat;
  panicked : list nat;
  recovered : nat;
  given_up : list nat;           (* by the branch [case <-p.done] of [process] *)
  before : nat;                  (* how many items were accepted when [done] was closed *)
}.

Definition init : sys :=
  mkSys [] [] false false (replicate (nworkers cfg) (Ready false)) Open [] 0 [] [] [] 0 [] 0.

Inductive op :=
| OSend (i : I)               (* [Send]: the branch that sends *)
| OTake (w : nat)             (* receive from the input *)
| ODone (w : nat)             (* [case <-p.done] of [worker] *)
| OAnswer (w : nat) (a : answer O)
| OUnblock (w : nat)          (* the second select: the output has room *)
| OGiveUp (w : nat)           (* the second select: done *)
| OExit (w : nat)             (* the default branch of [drain] *)
| ORecv
| OClose
| OWait.

Definition with_worker (s : sys) (w : nat) (p : wpc O) : sys :=
  mkSys (inq s) (outq s) (done_ s) (out_closed s) (<[w := p]> (workers s)) (phase s) (accepted s) (taken s) (received s)
    (dropped s) (panicked s) (recovered s) (given_up s) (before s).
Definition push_out (s : sys) (x : nat * O) : sys :=
  mkSys (inq s) (outq s ++ [x]) (done_ s) (out_closed s) (workers s) (phase s) (accepted s) (taken s) (received s)
    (dropped s) (panicked s) (recovered s) (given_up s) (before s).

Definition Send (s : sys) (i : I) : sys :=
  if length (inq s) <? inCap cfg then
    mkSys (inq s ++ [length (accepted s)]) (outq s) (done_ s) (out_closed s) (workers s) (phase s) (accepted s ++ [i]) (taken s)
      (received s) (dropped s) (panicked s) (recovered s) (given_up s) (before s)
  else s.

(** A worker's receive, in [worker] and in [drain]. *)
Definition take_item (s : sys) (w : nat) : sys :=
  match workers s !! w, inq s with
  | Some (Ready d), x :: q =>
      let s := with_worker s w (Working d x) in
      mkSys q (outq s) (done_ s) (out_closed s) (workers s) (phase s) (accepted s) (taken s + 1) (received s)
        (dropped s) (panicked s) (recovered s) (given_up s) (before s)
  | _, _ => s
  end.

Definition see_done (s : sys) (w : nat) : sys :=
  match workers s !! w with
  | Some (Ready false) => if done_ s then with_worker s w (Ready true) else s
  | _ => s
  end.

(** [process] from the return of the stage function: the test of the result and the first select. *)
Definition process (s : sys) (w : nat) (a : answer O) : sys :=
  match workers s !! w with
  | Some (Working d x) =>
      match a with
      | Panic =>
          let s := with_worker s w (Ready d) in
          mkSys (inq s) (outq s) (done_ s) (out_closed s) (workers s) (phase s) (accepted s) (taken s) (received s)
            (dropped s) (x :: panicked s) (recovered s + 1) (given_up s) (before s)
      | Drop =>
          let s := with_worker s w (Ready d) in
          mkSys (inq s) (outq s) (done_ s) (out_closed s) (workers s) (phase s) (accepted s) (taken s) (received s)
            (x :: dropped s) (panicked s) (recovered s) (given_up s) (before s)
      | Forward o =>
          if length (outq s) <? outCap cfg then push_out (with_worker s w (Ready d)) (x, o)
          else with_worker s w (Blocked d x o)
      end
  | _ => s
  end.

Definition unblock (s : sys) (w : nat) : sys :=
  match workers s !! w with
  | Some (Blocked d x o) => if length (outq s) <? outCap cfg then push_out (with_worker s w (Ready d)) (x, o) else s
  | _ => s
  end.

Definition bail_out (s : sys) (w : nat) : sys :=
  match workers s !! w with
  | Some (Blocked d x o) =>
      if done_ s then
        let s := with_worker s w (Ready d) in
        mkSys (inq s) (outq s) (done_ s) (out_closed s) (workers s) (phase s) (accepted s) (taken s) (received s)
          (dropped s) (panicked s) (recovered s) (x :: given_up s) (before s)
      else s
  | _ => s
  end.

Definition exit_worker (s : sys) (w : nat) : sys :=
  match workers s !! w, inq s with
  | Some (Ready true), [] => with_worker s w Ended
  | _, _ => s
  end.

Definition recv (s : sys) : sys :=
  match outq s with
  | x :: q =>
      mkSys (inq s) q (done_ s) (out_closed s) (workers s) (phase s) (accepted s) (taken s) (received s ++ [x])
        (dropped s) (panicked s) (recovered s) (given_up s) (before s)
  | [] => s
  end.

Definition is_ended (p : wpc O) : bool := match p with Ended => true | _ => false end.

(** [Close]: [close(p.done)], then [p.wg.Wait()] and [close(p.out)]. *)
Definition Close (s : sys) : sys :=
  match phase s with
  | Open =>
      mkSys (inq s) (outq s) true (out_closed s) (workers s) Waiting (accepted s) (taken s) (received s)
        (dropped s) (panicked s) (recovered s) (given_up s) (length (accepted s))
  | _ => s
  end.
Definition finish_close (s : sys) : sys :=
  match phase s with
  | Waiting =>
      if forallb is_ended (workers s) then
        mkSys (inq s) (outq s) (done_ s) true (workers s) Closed (accepted s) (taken s) (received s)
          (dropped s) (panicked s) (recovered s) (given_up s) (before s)
      else s
  | _ => s
  end.

Definition step (s : sys) (o : op) : sys :=
  match o with
  | OSend i => Send s i
  | OTake w => take_item s w
  | ODone w => see_done s w
  | OAnswer w a => process s w a
  | OUnblock w => unblock s w
  | OGiveUp w => bail_out s w
  | OExit w => exit_worker s w
  | ORecv => recv s
  | OClose => Close s
  | OWait => finish_close s
  end.
Definition run (s : sys) (ops : list op) : sys := fold_left step ops s.

Definition Recovered (s : sys) : nat := recovered s.
Definition Workers : nat := nworkers cfg.

(** ** Invariant *)

(** The item a worker holds. *)
Definition item_of (p : wpc O) : list nat := match p with Working _ x | Blocked _ x _ => [x] | _ => [] end.
Definition in_hand (s : sys) : list nat := workers s ≫= item_of.
Definition delivered (s : sys) : list nat := (received s ++ outq s).*1.
Definition draining (p : wpc O) : bool :=
  match p with Ready d | Working d _ | Blocked d _ _ => d | Ended => true end.

Record stage_inv (s : sys) : Prop := {
  i_fifo : inq s = seq (taken s) (length (accepted s) - taken s);
  i_taken : taken s ≤ length (accepted s);
  i_once : delivered s ++ in_hand s ++ dropped s ++ panicked s ++ given_up s ≡ₚ seq 0 (taken s);
  i_counted : recovered s = length (panicked s);
  i_lossless : done_ s = false → given_up s = [];
  i_in : length (inq s) ≤ inCap cfg;
  i_out : length (outq s) ≤ outCap cfg;
  i_workers : length (workers s) = nworkers cfg;
  i_phase : done_ s = true ↔ phase s ≠ Open;
  i_drain : ∀ p, p ∈ workers s → draining p = true → done_ s = true;
  i_closed : out_closed s = true → Forall (λ p, p = Ended) (workers s);
  i_before : Ended ∈ workers s → before s ≤ taken s;
  i_accepted : before s ≤ length (accepted s);
}.

Lemma hand_insert s w p p' : workers s !! w = Some p →
  item_of p ++ in_hand (with_worker s w p') ≡ₚ item_of p' ++ in_hand s.
Proof using. apply bind_insert_perm. Qed.

Lemma worker_elem (ws : list (wpc O)) w p v : v ∈ <[w := p]> ws → v = p ∨ v ∈ ws.
Proof using.
  intros [k [(-> & -> & _)|[_ Hk]]%list_lookup_insert_Some]%list_elem_of_lookup; [by left|right]. by eapply list_elem_of_lookup_2.
Qed.

(** What a step of one worker has to keep of the channels and counts. *)
Record data_inv (s : sys) : Prop := {
  d_fifo : inq s = seq (taken s) (length (accepted s) - taken s);
  d_taken : taken s ≤ length (accepted s);
  d_once : delivered s ++ in_hand s ++ dropped s ++ panicked s ++ given_up s ≡ₚ seq 0 (taken s);
  d_counted : recovered s = length (panicked s);
  d_lossless : done_ s = false → given_up s = [];
  d_in : length (inq s) ≤ inCap cfg;
  d_out : length (outq s) ≤ outCap cfg;
}.

Lemma worker_inv s s' w p p' : stage_inv s → workers s !! w = Some p → p ≠ Ended →
  workers s' = <[w := p']> (workers s) → done_ s' = done_ s → phase s' = phase s → out_closed s' = out_closed s → before s' = before s → accepted s' = accepted s →
  taken s ≤ taken s' → (draining p' = true → draining p = true ∨ done_ s = true) → (p' = Ended → before s ≤ taken s) →
  data_inv s' → stage_inv s'.
Proof using.
  intros [G1 G2 G3 G4 G5 G6 G7 G8 G9 G10 G11 G12 G13] Hw Hp Hws Hd Hph Hoc Hb Ha Ht Hdr He [].
  assert (Hin : p ∈ workers s) by (by eapply list_elem_of_lookup_2).
  split; try done; rewrite ?Hws, ?Hd, ?Hph, ?Hoc, ?Hb, ?Ha.
  - by rewrite length_insert.
  - done.
  - intros v [->|Hv]%worker_elem Hdv; [|by eapply G10]. destruct (Hdr Hdv); [by eapply G10|done].
  - intros Hc. specialize (G11 Hc). rewrite Forall_forall in G11. by destruct (Hp (G11 _ Hin)).
  - intros [<-|Hv]%worker_elem; [|by specialize (G12 Hv); lia]. specialize (He eq_refl). lia.
  - done.
Qed.

Lemma data_of s : stage_inv s → data_inv s.
Proof using. intros []. by split. Qed.

(** The worker's part of the count when its item goes from [p] to [p'] and the finished items from [f] to [f']. *)
Lemma hand_once s w p p' (f f' : list nat) n : workers s !! w = Some p →
  f ++ in_hand s ≡ₚ seq 0 n → f' ++ item_of p' ≡ₚ f ++ item_of p →
  f' ++ in_hand (with_worker s w p') ≡ₚ seq 0 n.
Proof using.
  intros Hw Hn Hf. pose proof (hand_insert s w p p' Hw) as Hh. rewrite <-Hn.
  apply (Permutation_app_inv_l (item_of p)). rewrite Permutation_app_swap_app, Hh, app_assoc, Hf, <-app_assoc.
  apply Permutation_app_swap_app.
Qed.

(** The finished items of a state, and its count in the form of [hand_once]. *)
Definition finished (s : sys) : list nat := delivered s ++ dropped s ++ panicked s ++ given_up s.

Lemma once_finished s n : delivered s ++ in_hand s ++ dropped s ++ panicked s ++ given_up s ≡ₚ seq 0 n ↔
  finished s ++ in_hand s ≡ₚ seq 0 n.
Proof using.
  unfold finished. assert (delivered s ++ in_hand s ++ dropped s ++ panicked s ++ given_up s ≡ₚ
    (delivered s ++ dropped s ++ panicked s ++ given_up s) ++ in_hand s) as Hp; [|by rewrite Hp].
  rewrite <-app_assoc. apply Permutation_app_head. apply Permutation_app_comm.
Qed.

Lemma delivered_push s x : delivered (push_out s x) = delivered s ++ [x.1].
Proof using. unfold delivered. cbn. by rewrite app_assoc, fmap_app. Qed.

Lemma deliver_inv s w p d x o : stage_inv s → workers s !! w = Some p → p ≠ Ended → item_of p = [x] → draining p = d →
  length (outq s) < outCap cfg → stage_inv (push_out (with_worker s w (Ready d)) (x, o)).
Proof using.
  intros Hi Hw Hp Hx Hd Hroom. eapply (worker_inv s _ w p (Ready d)); try done; [intros Hd'; left; cbn in Hd'; congruence|].
  destruct Hi as [G1 G2 G3 G4 G5 G6 G7 _ _ _ _ _ _]. split; try done.
  - apply once_finished. apply once_finished in G3. refine (hand_once s w p (Ready d) _ _ _ Hw G3 _).
    unfold finished. rewrite delivered_push, Hx. cbn. rewrite app_nil_r, <-!app_assoc. apply Permutation_app_head.
    etrans; [apply Permutation_cons_append|]. by rewrite <-!app_assoc.
  - cbn. rewrite length_app. cbn. lia.
Qed.

Lemma stage_step_inv s o : stage_inv s → stage_inv (step s o).
Proof using.
  intros Hi. pose proof Hi as [G1 G2 G3 G4 G5 G6 G7 G8 G9 G10 G11 G12 G13]. destruct o as [i|w|w|w a|w|w|w| | |]; cbn [step].
  - unfold Send. destruct (Nat.ltb_spec (length (inq s)) (inCap cfg)); [|done]. split; try done; cbn; rewrite ?length_app; cbn; try lia.
    rewrite G1. replace (length (accepted s) + 1 - taken s) with (S (length (accepted s) - taken s)) by lia.
    rewrite seq_S. do 3 f_equal. lia.
  - unfold take_item. destruct (workers s !! w) as [[d|d x|d x o|]|] eqn:Hw; try done. destruct (inq s) as [|x q] eqn:Hq; [done|].
    assert (taken s < length (accepted s)) as Hlt by (destruct (length (accepted s) - taken s) eqn:E; [done|lia]).
    replace (length (accepted s) - taken s) with (S (length (accepted s) - (taken s + 1))) in G1 by lia.
    cbn in G1. injection G1 as -> ->.
    eapply (worker_inv s _ w (Ready d)); try done; [cbn; lia|by left|]. split; try done.
    + cbn. f_equal; lia.
    + cbn. lia.
    + apply once_finished. apply once_finished in G3.
      pose proof (hand_insert s w (Ready d) (Working d (taken s)) Hw) as Hh. cbn [item_of app] in Hh.
      set (s1 := mkSys _ _ _ _ _ _ _ _ _ _ _ _ _ _). change (in_hand s1) with (in_hand (with_worker s w (Working d (taken s)))).
      change (finished s1) with (finished s). change (taken s1) with (taken s + 1). rewrite Hh, <-Permutation_middle, G3, Nat.add_1_r, seq_S.
      apply Permutation_cons_append.
    + cbn in *. lia.
  - unfold see_done. destruct (workers s !! w) as [[[]|d x|d x o|]|] eqn:Hw; try done. destruct (done_ s) eqn:Hd; [|done].
    eapply (worker_inv s _ w (Ready false)); try done; [by right|].
    split; try done; [|cbn; congruence]. apply once_finished. apply once_finished in G3. by refine (hand_once s w _ (Ready true) _ _ _ Hw G3 _).
  - unfold process. destruct (workers s !! w) as [[d|d x|d x o|]|] eqn:Hw; try done. destruct a as [o| |].
    + destruct (Nat.ltb_spec (length (outq s)) (outCap cfg)) as [Hroom|Hfull]; [by eapply deliver_inv|].
      eapply (worker_inv s _ w (Working d x)); try done; [by left|]. split; try done.
      apply once_finished. apply once_finished in G3. by refine (hand_once s w _ (Blocked d x o) _ _ _ Hw G3 _).
    + eapply (worker_inv s _ w (Working d x)); try done; [by left|]. split; try done.
      apply once_finished. apply once_finished in G3. refine (hand_once s w _ (Ready d) _ _ _ Hw G3 _).
      unfold finished, delivered. cbn. rewrite app_nil_r. rewrite <-Permutation_middle. apply Permutation_cons_append.
    + eapply (worker_inv s _ w (Working d x)); try done; [by left|]. split; try done.
      * apply once_finished. apply once_finished in G3. refine (hand_once s w _ (Ready d) _ _ _ Hw G3 _).
        unfold finished, delivered. cbn. rewrite app_nil_r. rewrite !app_assoc, <-Permutation_middle, <-!app_assoc. rewrite Permutation_cons_append. by rewrite <-!app_assoc.
      * cbn. lia.
  - unfold unblock. destruct (workers s !! w) as [[d|d x|d x o|]|] eqn:Hw; try done.
    destruct (Nat.ltb_spec (length (outq s)) (outCap cfg)); [|done]. by eapply deliver_inv.
  - unfold bail_out. destruct (workers s !! w) as [[d|d x|d x o|]|] eqn:Hw; try done. destruct (done_ s) eqn:Hd; [|done].
    eapply (worker_inv s _ w (Blocked d x o)); try done; [by left|]. split; try done; [|cbn; congruence].
    apply once_finished. apply once_finished in G3. refine (hand_once s w _ (Ready d) _ _ _ Hw G3 _).
    unfold finished, delivered. cbn. rewrite app_nil_r. rewrite !app_assoc, <-Permutation_middle, <-!app_assoc. rewrite Permutation_cons_append. by rewrite <-!app_assoc.
  - unfold exit_worker. destruct (workers s !! w) as [[[]|d x|d x o|]|] eqn:Hw; try done. destruct (inq s) as [|y q] eqn:Hq; [|done].
    destruct (decide (before s ≤ taken s)) as [Hb|Hb]; cycle 1.
    { exfalso. apply Hb. assert (taken s = length (accepted s)) as -> by (destruct (length (accepted s) - taken s) eqn:E; [lia|done]). done. }
    eapply (worker_inv s _ w (Ready true)); try done; [by left|]. split; try done; [cbn; by rewrite Hq| |cbn; by rewrite Hq].
    apply once_finished. apply once_finished in G3. by refine (hand_once s w _ Ended _ _ _ Hw G3 _).
  - unfold recv. destruct (outq s) as [|x q] eqn:Hq; [done|]. split; try done; [|cbn in *; lia].
    unfold delivered in *. cbn. rewrite Hq in G3. by rewrite <-app_assoc.
  - unfold Close. destruct (phase s) eqn:Hp; try done. split; try done; cbn.
    intros He. exfalso. assert (done_ s = true) as Hd by (by eapply G10). by apply G9 in Hd.
  - unfold finish_close. destruct (phase s) eqn:Hp; try done. destruct (forallb is_ended (workers s)) eqn:Hf; [|done].
    split; try done; cbn.
    + rewrite G9. done.
    + intros _. apply Forall_forall. intros p Hin. rewrite forallb_forall in Hf. specialize (Hf p). rewrite <-list_elem_of_In in Hf. specialize (Hf Hin). by destruct p.
Qed.

Lemma stage_run_inv ops : stage_inv (run init ops).
Proof using.
  assert (∀ s, stage_inv s → stage_inv (run s ops)) as Hall.
  { induction ops as [|o ops IH]; intros s Hs; [done|]. apply IH. by apply stage_step_inv. }
  apply Hall. assert (Hr : ∀ p, p ∈ replicate (nworkers cfg) (@Ready O false) → p = Ready false).
  { intros p Hin. by apply elem_of_replicate in Hin as [-> _]. }
  split; cbn; try done; try lia.
  - rewrite app_nil_r. assert (Hn : ∀ n, replicate n (@Ready O false) ≫= item_of = []) by (intros n; by induction n). by rewrite Hn.
  - apply length_replicate.
  - by intros p ->%Hr.
Qed.
End stage.

(** ** Theorems *)

(** Whatever the interleaving, items are received in the order in which [Send] accepted them, the queued ones follow, and
    every received item is in exactly one place: delivered to the output once, with one worker, dropped by the stage,
    counted as a panic, or given up; none is given up before [Close]; the channels keep their capacities. *)
Theorem stage_conserves {I O} cfg (ops : list (@op I O)) : let s := run cfg (init cfg) ops in
  inq s = seq (taken s) (length (accepted s) - taken s) ∧ taken s ≤ length (accepted s) ∧
  delivered s ++ in_hand s ++ dropped s ++ panicked s ++ given_up s ≡ₚ seq 0 (taken s) ∧
  Recovered s = length (panicked s) ∧ (done_ s = false → given_up s = []) ∧
  length (inq s) ≤ inCap cfg ∧ length (outq s) ≤ outCap cfg.
Proof. intros s. destruct (stage_run_inv cfg ops). done. Qed.

(** A step of a worker other than the return of the stage function. *)
Definition worker_op {I O} (w : nat) (o : @op I O) : Prop := o ∈ [OTake w; ODone w; OUnblock w; OGiveUp w; OExit w].

(** Shutting down.  Once [Close] has signalled, a worker that is not inside the stage function always has a step that
    changes the state, so that [Close] waits for stage functions only; the output is closed only when all workers have ended,
    so no worker sends on a closed channel; and then every item that was accepted before [Close] has been received and
    is delivered, dropped, counted as a panic or given up. *)
Theorem stage_shutdown {I O} cfg (ops : list (@op I O)) : let s := run cfg (init cfg) ops in done_ s = true →
  (∀ w p, workers s !! w = Some p → p ≠ Ended → (∀ d x, p ≠ Working d x) →
     ∃ o, worker_op w o ∧ workers (step cfg s o) !! w ≠ Some p) ∧
  (out_closed s = true → Forall (λ p, p = Ended) (workers s)) ∧
  (Forall (λ p, p = Ended) (workers s) → 0 < nworkers cfg →
     before s ≤ taken s ∧ delivered s ++ dropped s ++ panicked s ++ given_up s ≡ₚ seq 0 (taken s)).
Proof.
  intros s Hd. destruct (stage_run_inv cfg ops) as [G1 G2 G3 G4 G5 G6 G7 G8 G9 G10 G11 G12 G13]. fold s in G1, G2, G3, G4, G5, G6, G7, G8, G9, G10, G11, G12, G13.
  split_and!; [|done|].
  - intros w p Hw Hne Hnw. pose proof (lookup_lt_Some _ _ _ Hw) as Hl. destruct p as [[]|d x|d x o|]; try done.
    + destruct (inq s) as [|x q] eqn:Hq.
      * exists (OExit w). split; [unfold worker_op; set_solver|]. cbn. unfold exit_worker. rewrite Hw, Hq. cbn. by rewrite list_lookup_insert_eq.
      * exists (OTake w). split; [unfold worker_op; set_solver|]. cbn. unfold take_item. rewrite Hw, Hq. cbn. by rewrite list_lookup_insert_eq.
    + exists (ODone w). split; [unfold worker_op; set_solver|]. cbn. unfold see_done. rewrite Hw, Hd. cbn. by rewrite list_lookup_insert_eq.
    + by destruct (Hnw d x).
    + exists (OGiveUp w). split; [unfold worker_op; set_solver|]. cbn. unfold bail_out. rewrite Hw, Hd. cbn. by rewrite list_lookup_insert_eq.
  - intros Hall Hn. assert (in_hand s = []) as Hh.
    { unfold in_hand. clear -Hall. induction Hall as [|p ws -> _ IH]; [done|]. done. }
    rewrite Hh in G3. split; [|done]. apply G12. destruct (workers s) as [|p ws] eqn:Hws; [cbn in G8; lia|].
    apply Forall_cons in Hall as [-> _]. by left.
Qed.

Definition demo_cfg : Config := mkConfig 1 2 1.

Example stage_shutdown_witness : let s := run demo_cfg (init demo_cfg)
    [OSend 10%Z; OTake 0; OAnswer 0 (Forward 11%Z); OClose; ODone 0; OExit 0; OWait] in
  done_ s = true ∧ out_closed s = true ∧ Forall (λ p, p = Ended) (workers s).
Proof.
  split; [reflexivity|]. split; [reflexivity|].
  refine (proj1 (proj2 (stage_shutdown demo_cfg [OSend 10%Z; OTake 0; OAnswer 0 (Forward 11%Z); OClose; ODone 0; OExit 0; OWait] _)) _); reflexivity.
Defined.

(** With a full output and a consumer that has stopped reading, [Close] gives up an item that passed the stage. *)
Example close_gives_up : let s := run demo_cfg (init demo_cfg)
    [OSend 10%Z; OSend 20%Z; OTake 0; OAnswer 0 (Forward 11%Z); OTake 0; OAnswer 0 (Forward 21%Z); OClose; OGiveUp 0; ODone 0; OExit 0; OWait] in
  phase s = Closed ∧ outq s = [(0, 11%Z)] ∧ given_up s = [1].
Proof. vm_compute. done. Qed.

(** After [Close] has returned, [Send] finds both the channel with room and [done]: it may send, return nil, and the
    item stays in the channel for ever. *)
Example late_send_lost : let s := run demo_cfg (init (O:=Z) demo_cfg) [OClose; ODone 0; OExit 0; OWait; OSend 10%Z] in
  phase s = Closed ∧ accepted s = [10%Z] ∧ inq s = [0] ∧ workers s = [Ended].
Proof. vm_compute. done. Qed.
