(* ===== verification/FeatureFlag.v ===== *)
(** * FeatureFlag: toggles with gradual rollout ([featureflag/featureflag.go])

    A flag is a record; what runs under its lock is one operation.  The clock is an argument of
    [Enabled], the zero time is [None].  The hash is the inlined 32-bit FNV-1a.

    Shown: [Enabled] is the decision table of its comment ([enabled_exact]); a rollout is gradual: raising the percentage, adding
    keys or waiting never turns a flag off for anybody, and a key's answer depends on nothing else
    ([rollout_monotone]); percentages stay in range ([flag_percentage_ok]).
    [start_time_gates_allowlist]: the time gate also holds back keys of the allowlist. *)

From Stdlib Require Import ZArith Lia Ascii String.
From stdpp Require Import base tactics numbers list gmap strings.
From S2P Require Import Prelude GoStd.

#[local] Open Scope Z_scope.

Definition fnv32aOffsetBasis : Z := 2166136261.
Definition fnv32aPrime : Z := 16777619.

Record Flag := MkFlag {
  enabled : bool;
  percentage : Z;
  allowlist : gset string;
  notBefore : option Z;
}.

Inductive Option_ :=
| WithPercentage (p : Z)
| WithAllowlist (keys : list string)
| WithStartTime (t : option Z)
| WithEnabled (on : bool).

Definition clamp (p : Z) : Z := if 100 <? p then 100 else p.

Definition Enable (f : Flag) : Flag := MkFlag true (percentage f) (allowlist f) (notBefore f).
Definition Disable (f : Flag) : Flag := MkFlag false (percentage f) (allowlist f) (notBefore f).
Definition SetPercentage (f : Flag) (p : Z) : Flag := MkFlag (enabled f) (clamp p) (allowlist f) (notBefore f).
Definition Allow (f : Flag) (keys : list string) : Flag :=
  MkFlag (enabled f) (percentage f) (fold_left (λ s k, {[k]} ∪ s) keys (allowlist f)) (notBefore f).
Definition Revoke (f : Flag) (keys : list string) : Flag :=
  MkFlag (enabled f) (percentage f) (fold_left (λ s k, s ∖ {[k]}) keys (allowlist f)) (notBefore f).

Definition apply_option (f : Flag) (o : Option_) : Flag :=
  match o with
  | WithPercentage p => SetPercentage f p
  | WithAllowlist keys => Allow f keys
  | WithStartTime t => MkFlag (enabled f) (percentage f) (allowlist f) t
  | WithEnabled on => MkFlag on (percentage f) (allowlist f) (notBefore f)
  end.

Definition New (opts : list Option_) : Flag := fold_left apply_option opts (MkFlag false 100 ∅ None).

(** [h ^= uint32(key[i]); h *= prime] *)
Fixpoint fnv32a (h : Z) (key : string) : Z :=
  match key with
  | EmptyString => h
  | String c key => fnv32a (u32 (Z.lxor h (byte_of c) * fnv32aPrime)) key
  end.
Definition hashPercent (key : string) : Z := fnv32a fnv32aOffsetBasis key mod 100.

Definition Enabled (f : Flag) (now : Z) (key : string) : bool :=
  if negb (enabled f) then false
  else if (match notBefore f with Some t => now <? t | None => false end) then false
  else
    let allowlisted := bool_decide (key ∈ allowlist f) in
    let percentage := percentage f in
    if allowlisted then true
    else if 100 <=? percentage then true
    else if percentage =? 0 then false
    else hashPercent key <? percentage.

(** ** Theorems *)

Inductive flag_op := FEnable | FDisable | FSetPercentage (p : Z) | FAllow (keys : list string) | FRevoke (keys : list string).
Definition flag_do (f : Flag) (o : flag_op) : Flag :=
  match o with
  | FEnable => Enable f
  | FDisable => Disable f
  | FSetPercentage p => SetPercentage f p
  | FAllow keys => Allow f keys
  | FRevoke keys => Revoke f keys
  end.

(** The percentages given are [uint]s. *)
Definition opt_ok (o : Option_) : Prop := match o with WithPercentage p => 0 ≤ p | _ => True end.
Definition op_ok (o : flag_op) : Prop := match o with FSetPercentage p => 0 ≤ p | _ => True end.

Lemma hashPercent_range key : 0 ≤ hashPercent key < 100.
Proof. apply Z.mod_pos_bound. lia. Qed.

Lemma clamp_range p : 0 ≤ p → 0 ≤ clamp p ≤ 100.
Proof. unfold clamp. destruct (Z.ltb_spec 100 p); lia. Qed.

(** A flag's percentage is between 0 and 100 at all times, whatever the options and later calls. *)
Theorem flag_percentage_ok opts ops : Forall opt_ok opts → Forall op_ok ops →
  0 ≤ percentage (fold_left flag_do ops (New opts)) ≤ 100.
Proof.
  intros Ho Hp. assert (∀ f, 0 ≤ percentage f ≤ 100 → 0 ≤ percentage (fold_left flag_do ops f) ≤ 100) as H1.
  { induction Hp as [|o ops Hok _ IH]; intros f Hf; [done|]. apply IH. destruct o; cbn; try done. by apply clamp_range. }
  apply H1. unfold New. assert (∀ f, 0 ≤ percentage f ≤ 100 → 0 ≤ percentage (fold_left apply_option opts f) ≤ 100) as H2; [|apply H2; cbn; lia].
  clear H1. induction Ho as [|o opts Hok _ IH]; intros f Hf; [done|]. apply IH. destruct o; cbn; try done. by apply clamp_range.
Qed.

(** The decision table.  A flag is on for a key exactly when it is enabled, its start time has come, and the key
    is on the allowlist or its hash is below the percentage. *)
Theorem enabled_exact f now key : 0 ≤ percentage f ≤ 100 →
  Enabled f now key = true ↔
    enabled f = true ∧ (∀ t, notBefore f = Some t → t ≤ now) ∧ (key ∈ allowlist f ∨ hashPercent key < percentage f).
Proof.
  intros Hp. pose proof (hashPercent_range key) as Hh. unfold Enabled. destruct (enabled f); cbn [negb]; [|naive_solver].
  assert ((match notBefore f with Some t => now <? t | None => false end) = false ↔ ∀ t, notBefore f = Some t → t ≤ now) as Ht.
  { destruct (notBefore f) as [t|]; [|naive_solver]. rewrite Z.ltb_ge. naive_solver. }
  destruct (match notBefore f with Some t => now <? t | None => false end); [split; [done|]; by intros (_ & Hx%Ht & _)|].
  pose proof (proj1 Ht eq_refl) as Hx. case_bool_decide as Ha; [by split; auto|].
  destruct (Z.leb_spec 100 (percentage f)); [split; [intros _; split_and!; [done..|right; lia]|done]|].
  destruct (Z.eqb_spec (percentage f) 0); [split; [done|]; intros (_ & _ & [?|?]); [done|lia]|].
  rewrite Z.ltb_lt. split; [auto|]. by intros (_ & _ & [?|?]).
Qed.

(** Rollouts are gradual.  A key for which the flag is on stays on when the percentage is raised, keys are allowed or time
    passes. *)
Theorem rollout_monotone f now now' key p keys : 0 ≤ percentage f ≤ 100 → percentage f ≤ p → now ≤ now' →
  Enabled f now key = true → Enabled (Allow (SetPercentage f p) keys) now' key = true.
Proof.
  intros Hf Hp Hn (He & Ht & Hk)%enabled_exact; [|done]. apply enabled_exact; cbn; [apply clamp_range; lia|]. split_and!; [done|intros t Htt; specialize (Ht t Htt); lia|].
  assert (∀ l (s : gset string), key ∈ s → key ∈ fold_left (λ s k, {[k]} ∪ s) l s) as Hadd.
  { induction l as [|k l IH]; intros s Hs; [done|]. cbn. apply IH. set_solver. }
  destruct Hk as [Hk|Hk]; [left; by apply Hadd|right]. unfold clamp. destruct (Z.ltb_spec 100 p); pose proof (hashPercent_range key); lia.
Qed.

Definition demo_flag : Flag := New [WithEnabled true; WithPercentage 30; WithAllowlist ["alice"]%string; WithStartTime (Some 1000)].

Example flag_percentage_ok_witness :
  Forall opt_ok [WithPercentage 250] ∧ 0 ≤ percentage (fold_left flag_do [FSetPercentage 20] (New [WithPercentage 250])) ≤ 100.
Proof.
  split; [by repeat constructor|]. apply (flag_percentage_ok [WithPercentage 250] [FSetPercentage 20]); repeat constructor; cbn; lia.
Defined.

Example enabled_exact_witness : 0 ≤ percentage demo_flag ≤ 100 ∧ Enabled demo_flag 2000 "alice" = true.
Proof.
  split; [cbn; lia|]. apply (enabled_exact demo_flag 2000 "alice"); [cbn; lia|]. split_and!; [reflexivity|cbn; intros t [= <-]; lia|].
  left. cbn. set_solver.
Defined.

Example rollout_monotone_witness : Enabled demo_flag 2000 "alice" = true ∧ Enabled (Allow (SetPercentage demo_flag 60) []) 3000 "alice" = true.
Proof.
  split; [vm_compute; reflexivity|]. apply (rollout_monotone demo_flag 2000 3000 "alice" 60 []); [cbn; lia..|vm_compute; reflexivity].
Defined.

(** The time gate comes before the allowlist, whose comment says its keys are always enabled. *)
Example start_time_gates_allowlist : Enabled demo_flag 500 "alice" = false.
Proof. vm_compute. reflexivity. Qed.
