(* ===== verification/HotReload.v ===== *)
(** * HotReload: values that are replaced while they are read ([hotreload/hotreload.go])

    Loads are numbered in the order in which they start; the value of a load stands for its number.  A
    caller of [Reload], directly or in a loop that [Start] has spawned, waits for the mutex, is inside
    [Load], and then publishes the value, or does not when [Load] failed or panicked; each of these is a step,
    and [Get] reads the published pointer between any two of them.  A step that is not possible changes
    nothing.

    Shown: at most one [Load] runs at a time, readers see values of completed loads only and never an older one after a
    newer one ([reload_linear]); a failed or panicking load leaves the published value alone; after [stop] has returned its
    loop does nothing any more ([stop_joins]).  [panic_in_reload_unlocks]: a panic in a direct [Reload] releases
    the mutex. *)

From Stdlib Require Import ZArith Lia.
From stdpp Require Import base tactics numbers list.
From S2P Require Import Prelude.

#[local] Open Scope list_scope.

(** How a [Load] ends. *)
Inductive load_result := Loaded | Failed | Panicked.

(** A goroutine: a direct caller of [Reload], or the loop of a [Start]. *)
Inductive pc :=
| Idle                      (* a loop at its select; a caller before its call *)
| Locking                   (* in [b.mu.Lock()] *)
| Loading (n : nat)         (* inside load number [n] *)
| Returned (r : load_result)  (* a direct caller after [Reload] *)
| Exited.                   (* a loop that has ended *)

Record routine := Routine { is_loop : bool; at_ : pc; stopping : bool; joined : bool }.

Record Buffer := MkBuffer {
  value : option nat;       (* the load whose value is published *)
  holder : option nat;      (* the goroutine that holds the mutex *)
  loads : nat;              (* loads started so far *)
  recovered : nat;
  routines : list routine;
  reads : list (option nat); (* what the calls of Get have returned, oldest first *)
}.

(** [New] before its [Reload]; the caller of [New] is goroutine 0. *)
Definition fresh : Buffer := MkBuffer None None 0 0 [Routine false Idle false false] [].

Definition set_routine (b : Buffer) (i : nat) (r : routine) : Buffer :=
  MkBuffer (value b) (holder b) (loads b) (recovered b) (<[i := r]> (routines b)) (reads b).
Definition at_pc (r : routine) (p : pc) : routine := Routine (is_loop r) p (stopping r) (joined r).

Inductive op :=
| OCall (* a new direct caller *)
| OStart (* [Start] *)
| OReload (i : nat)        (* enter [Reload]: a call, or a tick of the loop *)
| OLock (i : nat)
| OLoadEnd (i : nat) (r : load_result)
| OGet
| OStop (i : nat)          (* [stop]: close(stopCh), or the context ends *)
| OExit (i : nat)          (* the loop takes the stop branch *)
| OJoin (i : nat).         (* [wg.Wait()] in [stop] returns *)

Definition spawn (b : Buffer) (loop : bool) : Buffer :=
  MkBuffer (value b) (holder b) (loads b) (recovered b) (routines b ++ [Routine loop Idle false false]) (reads b).

Definition enter (b : Buffer) (i : nat) : Buffer :=
  match routines b !! i with
  | Some r => match at_ r with Idle => set_routine b i (at_pc r Locking) | _ => b end
  | None => b
  end.

Definition lock (b : Buffer) (i : nat) : Buffer :=
  match routines b !! i, holder b with
  | Some r, None =>
      match at_ r with
      | Locking =>
          let b := set_routine b i (at_pc r (Loading (loads b))) in
          MkBuffer (value b) (Some i) (loads b + 1) (recovered b) (routines b) (reads b)
      | _ => b
      end
  | _, _ => b
  end.

(** The end of [Reload], with [safeReload] around it in a loop. *)
Definition load_end (b : Buffer) (i : nat) (res : load_result) : Buffer :=
  match routines b !! i with
  | Some r =>
      match at_ r with
      | Loading n =>
          let b := set_routine b i (at_pc r (if is_loop r then Idle else Returned res)) in
          MkBuffer (match res with Loaded => Some n | _ => value b end) None (loads b)
            (match res with Panicked => if is_loop r then recovered b + 1 else recovered b | _ => recovered b end) (routines b) (reads b)
      | _ => b
      end
  | None => b
  end.

Definition Get (b : Buffer) : Buffer :=
  MkBuffer (value b) (holder b) (loads b) (recovered b) (routines b) (reads b ++ [value b]).

Definition stop (b : Buffer) (i : nat) : Buffer :=
  match routines b !! i with
  | Some r => if is_loop r then set_routine b i (Routine true (at_ r) true (joined r)) else b
  | None => b
  end.

Definition loop_exit (b : Buffer) (i : nat) : Buffer :=
  match routines b !! i with
  | Some (Routine true Idle true j) => set_routine b i (Routine true Exited true j)
  | _ => b
  end.

Definition join (b : Buffer) (i : nat) : Buffer :=
  match routines b !! i with
  | Some (Routine true Exited true _) => set_routine b i (Routine true Exited true true)
  | _ => b
  end.

Definition step (b : Buffer) (o : op) : Buffer :=
  match o with
  | OCall => spawn b false
  | OStart => spawn b true
  | OReload i => enter b i
  | OLock i => lock b i
  | OLoadEnd i r => load_end b i r
  | OGet => Get b
  | OStop i => stop b i
  | OExit i => loop_exit b i
  | OJoin i => join b i
  end.
Definition run (b : Buffer) (ops : list op) : Buffer := fold_left step ops b.

(** ** Invariant *)

Record reload_inv (b : Buffer) : Prop := {
  v_value : ∀ n, value b = Some n → n < loads b;
  v_loading : ∀ i r n, routines b !! i = Some r → at_ r = Loading n →
    holder b = Some i ∧ n + 1 = loads b ∧ ∀ m, value b = Some m → m < n;
  v_reads : ∀ k k' m, k ≤ k' → reads b !! k = Some (Some m) → ∃ m', reads b !! k' = None ∨ (reads b !! k' = Some (Some m') ∧ m ≤ m');
  v_last : ∀ k m, reads b !! k = Some (Some m) → ∃ m', value b = Some m' ∧ m ≤ m';
  v_joined : ∀ i r, routines b !! i = Some r → joined r = true → r = Routine true Exited true true;
}.

Lemma set_routine_lookup b i r k : i < length (routines b) →
  routines (set_routine b i r) !! k = if decide (k = i) then Some r else routines b !! k.
Proof.
  intros Hi. cbn. case_decide; [subst; by apply list_lookup_insert_eq|by apply list_lookup_insert_ne].
Qed.

(** A goroutine moves to a place outside a load. *)
Lemma move_inv b i r r' : reload_inv b → routines b !! i = Some r → (∀ n, at_ r' ≠ Loading n) →
  (joined r' = true → r' = Routine true Exited true true) → reload_inv (set_routine b i r').
Proof.
  intros [V1 V2 V3 V4 V5] Hr Hn Hj. pose proof (lookup_lt_Some _ _ _ Hr) as Hl.
  split; [exact V1| |exact V3|exact V4|]; intros k rk; rewrite set_routine_lookup by done; case_decide; subst.
  - intros n [= <-] Ha. by apply Hn in Ha.
  - by apply V2.
  - by intros [= <-].
  - by apply V5.
Qed.

(** Nobody else is inside a load when the mutex is free or held by [i]. *)
Lemma load_inv b i r res n : reload_inv b → routines b !! i = Some r → at_ r = Loading n →
  reload_inv (load_end b i res).
Proof.
  intros Hi Hr Ha. pose proof Hi as [V1 V2 V3 V4 V5]. pose proof (lookup_lt_Some _ _ _ Hr) as Hl.
  destruct (V2 i r n Hr Ha) as (Hh & Hlo & Hm). unfold load_end. rewrite Hr, Ha. cbn zeta. split; cbn [value holder loads routines reads].
  - intros m. destruct res; cbn; [intros [= <-]; lia|apply V1..].
  - intros k rk m. rewrite set_routine_lookup by done. case_decide as Hk.
    + intros [= <-]. cbn. by destruct (is_loop r).
    + intros Hrk Hak. destruct (V2 k rk m Hrk Hak) as (Hh' & _). congruence.
  - done.
  - intros k m Hk. destruct (V4 k m Hk) as (m' & Hv & Hle). destruct res; [|by eauto..]. exists n. split; [done|]. specialize (Hm m' Hv). lia.
  - intros k rk. rewrite set_routine_lookup by done. case_decide as Hk; [|apply V5]. intros [= <-]. cbn. intros Hj.
    specialize (V5 i r Hr Hj). by subst r.
Qed.

Lemma reload_step_inv b o : reload_inv b → reload_inv (step b o).
Proof.
  intros Hi. pose proof Hi as [V1 V2 V3 V4 V5].
  assert (∀ loop, reload_inv (spawn b loop)) as Hsp.
  { intros loop. split; [exact V1| |exact V3|exact V4|]; cbn; intros k rk.
    - intros n [[_ Hk]|[_ <-]]%lookup_snoc_Some; [by apply V2|done].
    - intros [[_ Hk]|[_ <-]]%lookup_snoc_Some; [by apply (V5 k)|done]. }
  destruct o as [| |i|i|i res| |i|i|i]; cbn [step]; try done.
  - unfold enter. destruct (routines b !! i) as [r|] eqn:Hr; [|done]. destruct (at_ r) eqn:Ha; try done.
    apply (move_inv b i r); try done. cbn. intros Hj. specialize (V5 i r Hr Hj). by subst r.
  - unfold lock. destruct (routines b !! i) as [r|] eqn:Hr; [|done]. destruct (holder b) eqn:Hh; [done|]. destruct (at_ r) eqn:Ha; try done.
    pose proof (lookup_lt_Some _ _ _ Hr) as Hl. split; cbn [value holder loads routines reads]; try done.
    + intros m Hm%V1. cbn. lia.
    + intros k rk m. rewrite set_routine_lookup by done. case_decide as Hk.
      * intros [= <-] [= <-]. subst. split_and!; [done|done|]. cbn. apply V1.
      * intros Hrk Hak. destruct (V2 k rk m Hrk Hak) as (Hh' & _). congruence.
    + intros k rk. rewrite set_routine_lookup by done. case_decide as Hk; [|apply V5]. intros [= <-]. cbn. intros Hj.
      specialize (V5 i r Hr Hj). by subst r.
  - destruct (routines b !! i) as [r|] eqn:Hr; [|unfold load_end; by rewrite Hr].
    destruct (at_ r) eqn:Ha; try (unfold load_end; by rewrite Hr, Ha). by eapply load_inv.
  - split; try done; cbn.
    + intros k k' m Hle. rewrite lookup_snoc_Some. intros [[Hk Hm]|[Hk Hm]].
      * destruct (decide (k' < length (reads b))) as [Hk'|Hk'].
        -- destruct (V3 k k' m Hle Hm) as (m' & [Hn|Hs]); [apply lookup_ge_None in Hn; lia|]. exists m'. right. by rewrite lookup_app_l.
        -- destruct (decide (k' = length (reads b))) as [->|Hne].
           ++ destruct (V4 k m Hm) as (m' & Hv & Hmm). exists m'. right. rewrite lookup_app_r, Nat.sub_diag by lia. cbn. by rewrite Hv.
           ++ exists m. left. apply lookup_ge_None. rewrite length_app. cbn. lia.
      * subst k. destruct (decide (k' = length (reads b))) as [->|Hne].
        -- exists m. right. rewrite lookup_app_r, Nat.sub_diag by lia. cbn. by rewrite Hm.
        -- exists m. left. apply lookup_ge_None. rewrite length_app. cbn. lia.
    + intros k m. rewrite lookup_snoc_Some. intros [[_ Hm]|[_ Hm]]; [by eauto|]. exists m. split; [congruence|lia].
  - unfold stop. destruct (routines b !! i) as [r|] eqn:Hr; [|done]. destruct (is_loop r) eqn:Hl; [|done].
    pose proof (lookup_lt_Some _ _ _ Hr) as Hlt.
    split; [exact V1| |exact V3|exact V4|]; intros k rk; rewrite set_routine_lookup by done; case_decide; subst.
    + intros n [= <-]. cbn. intros Ha. by eapply (V2 i r).
    + by apply V2.
    + intros [= <-]. cbn. intros Hj. specialize (V5 i r Hr Hj). by subst r.
    + by apply V5.
  - unfold loop_exit. destruct (routines b !! i) as [[[] [] [] j]|] eqn:Hr; try done. eapply move_inv; [done..|cbn; by intros ->].
  - unfold join. destruct (routines b !! i) as [[[] [] [] j]|] eqn:Hr; try done. by eapply move_inv.
Qed.

Lemma reload_run_inv ops b : reload_inv b → reload_inv (run b ops).
Proof. revert b. induction ops as [|o ops IH]; intros b Hb; [done|]. apply IH. by apply reload_step_inv. Qed.

Lemma reload_fresh_inv : reload_inv fresh.
Proof. split; cbn; try done. - intros [|i] r n; cbn; [by intros [= <-]|done]. - intros [|i] r; cbn; [by intros [= <-]|done]. Qed.

(** ** Theorems *)

(** Reloading is linear.  Under every interleaving of callers, loops, failing and panicking loads and readers, at most one
    goroutine is inside [Load]; the published value is that of a load that has ended; and once a reader has seen the value of a load,
    no later read returns that of an earlier load, or none. *)
Theorem reload_linear ops : let b := run fresh ops in
  (∀ i j r r' n n', routines b !! i = Some r → routines b !! j = Some r' → at_ r = Loading n → at_ r' = Loading n' → i = j) ∧
  (∀ m, value b = Some m → m < loads b ∧ ∀ i r, routines b !! i = Some r → at_ r ≠ Loading m) ∧
  (∀ k k' m, k ≤ k' < length (reads b) → reads b !! k = Some (Some m) → ∃ m', reads b !! k' = Some (Some m') ∧ m ≤ m').
Proof.
  intros b. pose proof (reload_run_inv ops fresh reload_fresh_inv) as Hi. fold b in Hi. destruct Hi as [V1 V2 V3 V4 V5]. split_and!.
  - intros i j r r' n n' Hi Hj Ha Ha'. destruct (V2 _ _ _ Hi Ha) as [? _], (V2 _ _ _ Hj Ha') as [? _]. congruence.
  - intros m Hm. split; [by apply V1|]. intros i r Hr Ha. destruct (V2 _ _ _ Hr Ha) as (_ & _ & Hlt). specialize (Hlt m Hm). lia.
  - intros k k' m Hk Hm. destruct (V3 k k' m ltac:(lia) Hm) as (m' & [Hn|Hs]); [apply lookup_ge_None in Hn; lia|by exists m'].
Qed.

(** A load that fails or panics publishes nothing, and frees the mutex. *)
Lemma failed_load_keeps b i r n res : routines b !! i = Some r → at_ r = Loading n → res ≠ Loaded →
  value (load_end b i res) = value b ∧ holder (load_end b i res) = None.
Proof. intros Hr Ha Hres. unfold load_end. rewrite Hr, Ha. by destruct res. Qed.

(** When [stop] has returned, its loop has ended and takes no further step, whatever happens. *)
Theorem stop_joins ops more i r : routines (run fresh ops) !! i = Some r → joined r = true →
  at_ r = Exited ∧ routines (run (run fresh ops) more) !! i = Some r.
Proof.
  intros Hr Hj. pose proof (v_joined _ (reload_run_inv ops fresh reload_fresh_inv) _ _ Hr Hj) as ->. split; [done|].
  assert (∀ b, routines b !! i = Some (Routine true Exited true true) → routines (run b more) !! i = Some (Routine true Exited true true)) as Hall; [|by apply Hall].
  clear Hr Hj. induction more as [|o more IH]; intros b Hb; [done|]. apply IH.
  assert (∀ k r', (k = i → r' = Routine true Exited true true) → routines (set_routine b k r') !! i = Some (Routine true Exited true true)) as Hset.
  { intros k r' Hk. pose proof (lookup_lt_Some _ _ _ Hb). destruct (decide (k = i)) as [->|Hne].
    - rewrite set_routine_lookup, decide_True by done. f_equal. by apply Hk.
    - cbn. by rewrite list_lookup_insert_ne. }
  destruct o as [| |k|k|k res| |k|k|k]; cbn [step]; try (by apply lookup_app_l_Some); try done.
  - unfold enter. destruct (routines b !! k) as [rk|] eqn:Ek; [|done]. destruct (at_ rk) eqn:Ea; try done. apply Hset. intros ->. by simplify_eq.
  - unfold lock. destruct (routines b !! k) as [rk|] eqn:Ek; [|done]. destruct (holder b); [done|]. destruct (at_ rk) eqn:Ea; try done.
    apply Hset. intros ->. by simplify_eq.
  - unfold load_end. destruct (routines b !! k) as [rk|] eqn:Ek; [|done]. destruct (at_ rk) eqn:Ea; try done. apply Hset. intros ->. by simplify_eq.
  - unfold stop. destruct (routines b !! k) as [rk|] eqn:Ek; [|done]. destruct (is_loop rk) eqn:El; [|done]. apply Hset. intros ->. by simplify_eq.
  - unfold loop_exit. destruct (routines b !! k) as [[[] [] [] j]|] eqn:Ek; try done. apply Hset. intros ->. by simplify_eq.
  - unfold join. destruct (routines b !! k) as [[[] [] [] j]|] eqn:Ek; try done. by apply Hset.
Qed.

Definition demo_reload : list op :=
  [OReload 0; OLock 0; OLoadEnd 0 Loaded; OGet; OStart; OReload 1; OLock 1; OCall; OReload 2; OLock 2; OLoadEnd 1 Panicked;
   OGet; OLock 2; OLoadEnd 2 Loaded; OGet; OStop 1; OExit 1; OJoin 1].

Example stop_joins_witness :
  ∃ r, routines (run fresh demo_reload) !! 1 = Some r ∧ joined r = true ∧ at_ r = Exited.
Proof.
  eexists. split; [reflexivity|]. split; [reflexivity|]. refine (proj1 (stop_joins demo_reload [] 1 _ _ _)); reflexivity.
Defined.

(** The reads of that schedule: the panicking load left the first value in place, and was counted. *)
Example demo_reads : reads (run fresh demo_reload) = [Some 0; Some 0; Some 2] ∧ recovered (run fresh demo_reload) = 1.
Proof. vm_compute. done. Qed.

(** A panic in a direct [Reload] is not counted, leaves the published value in place and frees the mutex. *)
Example panic_in_reload_unlocks :
  let b := run fresh [OReload 0; OLock 0; OLoadEnd 0 Loaded; OCall; OReload 1; OLock 1; OLoadEnd 1 Panicked] in
  value b = Some 0 ∧ holder b = None ∧ recovered b = 0.
Proof. vm_compute. done. Qed.
