(* ===== verification/Health.v ===== *)
(** * Health: liveness and readiness ([health/health.go])

    A checker is a name; what its [Check] returns is chosen when it is called.  Calls of [IsReady] are interleaved with
    each other, with [AddChecker] and with the clock: reading the cache, taking the list of checkers, each check, and storing the
    report are steps.  A step that is not possible changes nothing.

    Shown: a report is healthy exactly when every check passed, and lists them all in order ([evaluate_exact]); every report that
    [IsReady] returns is one whose checks this call made itself, or one that a call stored less than [cacheTTL] ago
    ([ready_fresh]); the handlers answer 200 exactly for healthy ([handlers_exact]).
    [slow_check_overwrites]: a slow evaluation that started first can replace the report of a later one. *)

From Stdlib Require Import ZArith Lia String.
From stdpp Require Import base tactics numbers list strings.
From S2P Require Import Prelude.

#[local] Open Scope list_scope.
#[local] Open Scope Z_scope.

Inductive Status := StatusHealthy | StatusUnhealthy.

#[global] Instance Status_eq_dec : EqDecision Status.
Proof. solve_decision. Defined.

Record CheckerResult := MkResult { r_name : string; r_status : Status; r_error : string }.
Record Report := MkReport { status : Status; rtime : Z; checks : list CheckerResult }.

(** One round of the loop of [evaluate]; [err] is what [c.Check()] returned. *)
Definition add_check (report : Report) (name : string) (err : option string) : Report :=
  match err with
  | None => MkReport (status report) (rtime report) (checks report ++ [MkResult name StatusHealthy ""])
  | Some e => MkReport StatusUnhealthy (rtime report) (checks report ++ [MkResult name StatusUnhealthy e])
  end.

Definition evaluate (now : Z) (results : list (string * option string)) : Report :=
  fold_left (λ r p, add_check r p.1 p.2) results (MkReport StatusHealthy now []).

(** The response codes of the two handlers. *)
Definition ReadinessHandler (r : Report) : Z := if decide (status r = StatusHealthy) then 200 else 503.
Definition LivenessHandler (live : bool) (now : Z) : Z * Report :=
  if live then (200, MkReport StatusHealthy now []) else (503, MkReport StatusUnhealthy now []).

(** ** Calls of [IsReady] *)

Inductive call :=
| Calling                                       (* before the look at the cache *)
| Evaluating (left_ : list string) (started : Z) (done_ : list (string * option string))
| Storing (r : Report) (started : Z) (done_ : list (string * option string))   (* evaluated, not yet stored *)
| Answered (r : Report) (cached_since : option Z) (when : Z).  (* [None]: by its own checks *)

Record Health := MkHealth {
  live : bool;
  checkers : list string;
  cacheTTL : Z;
  cached : option (Report * Z);   (* with [cachedAt] *)
  clock : Z;
  calls : list call;
}.

Inductive Option_ := WithChecker (c : string) | WithCacheTTL (d : Z).
Definition apply_option (h : Health) (o : Option_) : Health :=
  match o with
  | WithChecker c => MkHealth (live h) (checkers h ++ [c]) (cacheTTL h) (cached h) (clock h) (calls h)
  | WithCacheTTL d => MkHealth (live h) (checkers h) d (cached h) (clock h) (calls h)
  end.
Definition New (now : Z) (opts : list Option_) : Health :=
  fold_left apply_option opts (MkHealth true [] 0 None now []).

Definition set_call (h : Health) (i : nat) (c : call) : Health :=
  MkHealth (live h) (checkers h) (cacheTTL h) (cached h) (clock h) (<[i := c]> (calls h)).

Definition SetAlive (h : Health) (alive : bool) : Health :=
  MkHealth alive (checkers h) (cacheTTL h) (cached h) (clock h) (calls h).
Definition Alive (h : Health) : bool := live h.
Definition AddChecker (h : Health) (c : string) : Health :=
  MkHealth (live h) (checkers h ++ [c]) (cacheTTL h) (cached h) (clock h) (calls h).

(** The first part of [IsReady]: the cached report, or the beginning of [evaluate]. *)
Definition look (h : Health) (i : nat) : Health :=
  match calls h !! i with
  | Some Calling =>
      match cached h with
      | Some (r, at_) =>
          if (0 <? cacheTTL h) && (clock h - at_ <? cacheTTL h) then set_call h i (Answered r (Some at_) (clock h))
          else set_call h i (Evaluating (checkers h) (clock h) [])
      | None => set_call h i (Evaluating (checkers h) (clock h) [])
      end
  | _ => h
  end.

Definition check (h : Health) (i : nat) (err : option string) : Health :=
  match calls h !! i with
  | Some (Evaluating (c :: rest) t done_) => set_call h i (Evaluating rest t (done_ ++ [(c, err)]))
  | Some (Evaluating [] t done_) => set_call h i (Storing (evaluate t done_) t done_)
  | _ => h
  end.

(** The last part of [IsReady]. *)
Definition store (h : Health) (i : nat) : Health :=
  match calls h !! i with
  | Some (Storing r t done_) =>
      let h := set_call h i (Answered r None (clock h)) in
      if 0 <? cacheTTL h then MkHealth (live h) (checkers h) (cacheTTL h) (Some (r, clock h)) (clock h) (calls h) else h
  | _ => h
  end.

Inductive op :=
| OCall | OLook (i : nat) | OCheck (i : nat) (err : option string) | OStore (i : nat) | OAdd (c : string) | OAlive (b : bool)
| OTick (d : Z).

Definition step (h : Health) (o : op) : Health :=
  match o with
  | OCall => MkHealth (live h) (checkers h) (cacheTTL h) (cached h) (clock h) (calls h ++ [Calling])
  | OLook i => look h i
  | OCheck i err => check h i err
  | OStore i => store h i
  | OAdd c => AddChecker h c
  | OAlive b => SetAlive h b
  | OTick d => MkHealth (live h) (checkers h) (cacheTTL h) (cached h) (clock h + Z.max 0 d) (calls h)
  end.

Definition run (h : Health) (ops : list op) : Health := fold_left step ops h.

(** ** Theorems *)

Definition passed (p : string * option string) : bool := match p.2 with None => true | Some _ => false end.

Definition result_of (p : string * option string) : CheckerResult :=
  MkResult p.1 (if passed p then StatusHealthy else StatusUnhealthy) (default EmptyString p.2).

Lemma evaluate_loop results r :
  (status (fold_left (λ r p, add_check r p.1 p.2) results r) = StatusHealthy ↔ status r = StatusHealthy ∧ Forall (λ p, p.2 = None) results) ∧
  checks (fold_left (λ r p, add_check r p.1 p.2) results r) = checks r ++ (result_of <$> results).
Proof.
  revert r. induction results as [|[n e] results IH]; intros r; cbn [fold_left fst snd].
  - split; [|by rewrite app_nil_r]. split; [done|]. by intros [? _].
  - destruct (IH (add_check r n e)) as [IH1 IH2]. split.
    + rewrite IH1, Forall_cons. destruct e; cbn; naive_solver.
    + rewrite IH2. destruct e; cbn; by rewrite <-app_assoc.
Qed.

Lemma evaluate_healthy now results : status (evaluate now results) = StatusHealthy ↔ Forall (λ p, p.2 = None) results.
Proof. unfold evaluate. rewrite (proj1 (evaluate_loop results _)). naive_solver. Qed.

(** A report lists every check in order, each with its own outcome, and is healthy exactly when all of them passed. *)
Theorem evaluate_exact now results :
  (status (evaluate now results) = StatusHealthy ↔ Forall (λ p, p.2 = None) results) ∧
  checks (evaluate now results) = result_of <$> results.
Proof. split; [apply evaluate_healthy|]. unfold evaluate. by rewrite (proj2 (evaluate_loop results _)). Qed.

(** The handlers: a readiness probe gets 200 exactly when the report is healthy, and a liveness probe exactly when the process
    has not been declared dead; otherwise both get 503. *)
Theorem handlers_exact now results live :
  (ReadinessHandler (evaluate now results) = 200 ↔ Forall (λ p, p.2 = None) results) ∧
  (ReadinessHandler (evaluate now results) = 503 ↔ ¬ Forall (λ p, p.2 = None) results) ∧
  ((LivenessHandler live now).1 = 200 ↔ live = true) ∧ ((LivenessHandler live now).1 = 503 ↔ live = false).
Proof.
  pose proof (evaluate_healthy now results) as He. unfold ReadinessHandler. split_and!; [case_decide; naive_solver..|by destruct live|by destruct live].
Qed.

(** A report that an evaluation made: of checks of the list as it was, begun at [t], ended by [e]. *)
Definition made (h : Health) (r : Report) (e : Z) : Prop :=
  ∃ t results, r = evaluate t results ∧ results.*1 `prefix_of` checkers h ∧ t ≤ e.

Record health_inv (h : Health) : Prop := {
  h_cached : ∀ r a, cached h = Some (r, a) → made h r a ∧ a ≤ clock h;
  h_calls : ∀ i c, calls h !! i = Some c →
    match c with
    | Calling => True
    | Evaluating rest t done_ => done_.*1 ++ rest `prefix_of` checkers h ∧ t ≤ clock h
    | Storing r t done_ => made h r (clock h)
    | Answered r None w => made h r w ∧ w ≤ clock h
    | Answered r (Some a) w => made h r a ∧ a ≤ w < a + cacheTTL h ∧ w ≤ clock h
    end;
}.

(** More checkers and later clocks keep what was known. *)
Lemma health_mono h h' : health_inv h → checkers h `prefix_of` checkers h' → cacheTTL h' = cacheTTL h → clock h ≤ clock h' →
  cached h' = cached h → (∀ i c, calls h' !! i = Some c → calls h !! i = Some c ∨ c = Calling) → health_inv h'.
Proof.
  intros [H1 H2] Hp Ht Hc Hca Hcl.
  assert (∀ r e e', e ≤ e' → made h r e → made h' r e') as Hm.
  { intros r e e' He (t & res & -> & Hr & Hte). exists t, res. split_and!; [done|by etrans|lia]. }
  split.
  - rewrite Hca. intros r a Ha. destruct (H1 r a Ha). split; [eapply Hm; [|done]; lia|lia].
  - intros i c Hc0. destruct (Hcl i c Hc0) as [Hi| ->]; [|done]. specialize (H2 i c Hi). rewrite Ht. destruct c as [|rest t d|r t d|r [a|] w]; try done.
    + destruct H2. split; [by etrans|lia].
    + eapply Hm; [|done]. lia.
    + destruct H2 as (? & ? & ?). split_and!; [eapply Hm; [|done]; lia|lia..].
    + destruct H2. split; [eapply Hm; [|done]; lia|lia].
Qed.

(** One call moves on. *)
Lemma health_set h i c c0 : health_inv h → calls h !! i = Some c0 →
  (health_inv h → match c with
    | Calling => True
    | Evaluating rest t done_ => done_.*1 ++ rest `prefix_of` checkers h ∧ t ≤ clock h
    | Storing r t done_ => made h r (clock h)
    | Answered r None w => made h r w ∧ w ≤ clock h
    | Answered r (Some a) w => made h r a ∧ a ≤ w < a + cacheTTL h ∧ w ≤ clock h
    end) → health_inv (set_call h i c).
Proof.
  intros Hi Hc0 Hc. specialize (Hc Hi). destruct Hi as [H1 H2]. split; [done|]. cbn [calls set_call checkers clock cacheTTL].
  intros k ck. destruct (decide (k = i)) as [->|Hk].
  - rewrite list_lookup_insert_eq by (by eapply lookup_lt_Some). intros [= <-]. done.
  - rewrite list_lookup_insert_ne by done. apply H2.
Qed.

Lemma health_step h o : health_inv h → health_inv (step h o).
Proof.
  intros Hi. pose proof Hi as [H1 H2]. destruct o as [|i|i err|i|c|b|d]; cbn [step].
  - apply (health_mono h); try done. cbn. intros i c [[_ Hc]|[_ <-]]%lookup_snoc_Some; auto.
  - unfold look. destruct (calls h !! i) as [[| | |]|] eqn:Ei; try done.
    assert (health_inv (set_call h i (Evaluating (checkers h) (clock h) []))) as He by (apply (health_set h i _ _ Hi Ei); intros _; cbn; split; [done|lia]).
    destruct (cached h) as [[r a]|] eqn:Ec; [|done]. destruct (Z.ltb_spec 0 (cacheTTL h)); [|done]. cbn [andb].
    destruct (Z.ltb_spec (clock h - a) (cacheTTL h)); [|done]. apply (health_set h i _ _ Hi Ei). intros _. destruct (H1 r a eq_refl). split_and!; [done|lia..].
  - unfold check. destruct (calls h !! i) as [[|[|c rest] t d| |]|] eqn:Ei; try done; apply (health_set h i _ _ Hi Ei); intros _;
      specialize (H2 i _ Ei); cbn in H2; destruct H2 as [Hp Ht].
    + exists t, d. rewrite app_nil_r in Hp. split_and!; [done..|lia].
    + rewrite fmap_app, <-app_assoc. split; [done|lia].
  - unfold store. destruct (calls h !! i) as [[| |r t d|]|] eqn:Ei; try done.
    assert (made h r (clock h)) as Hm by (specialize (H2 i _ Ei); done).
    assert (health_inv (set_call h i (Answered r None (clock h)))) as Hs by (apply (health_set h i _ _ Hi Ei); intros _; split; [done|lia]).
    cbn [cacheTTL set_call]. destruct (0 <? cacheTTL h); [|done]. split; [|apply Hs]. cbn. intros r' a [= <- <-]. split; [done|lia].
  - apply (health_mono h); try done; [by apply prefix_app_r|by auto].
  - by apply (health_mono h); auto.
  - apply (health_mono h); try done; [cbn; lia|auto].
Qed.

Lemma health_new_inv now opts : health_inv (New now opts) ∧ calls (New now opts) = [].
Proof.
  unfold New. assert (∀ h, calls h = [] → cached h = None →
    calls (fold_left apply_option opts h) = [] ∧ cached (fold_left apply_option opts h) = None) as Hall.
  { induction opts as [|[c|d] opts IH]; intros h Hc Hca; [done|by apply IH..]. }
  destruct (Hall (MkHealth true [] 0 None now []) eq_refl eq_refl) as [Hc Hca]. split; [|done].
  split; [by rewrite Hca|]. intros i c. by rewrite Hc.
Qed.

(** Every report that [IsReady] returns, under every interleaving of calls, added checkers and the clock, is the evaluation of a
    list of checkers the process had; when it comes from the cache, it was stored less than [cacheTTL] before the answer. *)
Theorem ready_fresh now opts ops i r since w : calls (run (New now opts) ops) !! i = Some (Answered r since w) →
  ∃ t results, r = evaluate t results ∧ results.*1 `prefix_of` checkers (run (New now opts) ops) ∧ t ≤ default w since ∧
    (∀ a, since = Some a → a ≤ w < a + cacheTTL (run (New now opts) ops)).
Proof.
  intros Hc. assert (∀ ops h, health_inv h → health_inv (run h ops)) as Hall.
  { clear. induction ops as [|o ops IH]; intros h Hh; [done|]. apply IH. by apply health_step. }
  destruct (Hall ops _ (proj1 (health_new_inv now opts))) as [_ H2]. specialize (H2 i _ Hc). destruct since as [a|]; cbn in H2.
  - destruct H2 as ((t & res & -> & Hp & Ht) & Hw & _). exists t, res. split_and!; [done..|]. by intros a' [= <-].
  - destruct H2 as ((t & res & -> & Hp & Ht) & _). exists t, res. split_and!; done.
Qed.

Definition demo_health : list op :=
  [OCall; OLook 0; OCheck 0 None; OCheck 0 None; OStore 0; OTick 5; OCall; OLook 1].

Example ready_fresh_witness :
  ∃ r, calls (run (New 100 [WithChecker "db"; WithCacheTTL 10]) demo_health) !! 1%nat = Some (Answered r (Some 100) 105) ∧
    ∃ t results, r = evaluate t results.
Proof.
  eexists. split; [reflexivity|].
  destruct (ready_fresh 100 [WithChecker "db"; WithCacheTTL 10] demo_health 1 (evaluate 100 [("db"%string, None)]) (Some 100) 105) as (t & results & Hr & _); [reflexivity|].
  exists t, results. exact Hr.
Defined.

(** An evaluation that began while the dependency was healthy can end last: it replaces the unhealthy report of a later evaluation, and
    is served for the whole time to live. *)
Example slow_check_overwrites :
  let h := run (New 100 [WithChecker "db"; WithCacheTTL 10])
    [OCall; OLook 0; OCheck 0 None; OTick 7; OCall; OLook 1; OCheck 1 (Some "down"%string); OCheck 1 None; OStore 1;
     OCheck 0 None; OStore 0; OTick 9; OCall; OLook 2] in
  ∃ r, calls h !! 2%nat = Some (Answered r (Some 107) 116) ∧ status r = StatusHealthy ∧ rtime r = 100.
Proof. eexists. vm_compute. done. Qed.
