(* ===== verification/FloatOrder.v ===== *)
(** * FloatOrder: the order of binary64 and faithful rounding

    Facts about the executable binary64 of Float64.v that the packages with floats need.  The value of
    a finite float is an integer, in units of [2^-2200] ([V]): fine enough for every product of two floats.

    Shown: comparison is comparison of values on valid floats ([le_V], [lt_V], [eq_V]), and with the infinities beyond every
    finite value on all floats but NaN ([le_E], [lt_E], [eq_E]); every operation returns a valid float, and rounding does not
    cross a representable value ([add_rounds], [sub_rounds], [mul_rounds], [div_rounds], [of_Z_rounds]), whence the inequalities on sums,
    products and quotients that hold in spite of rounding; integers up to [2^53] are exact ([of_Z_exact]). *)

From Stdlib Require Import ZArith Lia Bool SpecFloat.
From stdpp Require Import base tactics numbers.
From S2P Require Import Prelude Float64.

#[local] Open Scope Z_scope.

Definition Sc : Z := 2200.

Definition valid (x : float64) : Prop := valid_binary 53 1024 x = true.
Definition finite (x : float64) : Prop := match x with S754_finite _ _ _ | S754_zero _ => True | _ => False end.

(** The value of a finite float. *)
Definition V (x : float64) : Z :=
  match x with S754_finite s m e => cond_Zopp s (Z.pos m * 2 ^ (e + Sc)) | _ => 0 end.

(** ** Binary digits *)

Lemma digits2_log2 p : Z.pos (digits2_pos p) = Z.log2 (Z.pos p) + 1.
Proof.
  induction p as [p IH|p IH|]; cbn [digits2_pos]; [..|done]; rewrite Pos2Z.inj_succ, IH.
  - rewrite Pos2Z.inj_xI, Z.log2_succ_double by lia. lia.
  - rewrite Pos2Z.inj_xO, Z.log2_double by lia. lia.
Qed.

Lemma fexp_eq x : fexp 53 1024 x = Z.max (x - 53) (-1074).
Proof. reflexivity. Qed.

Lemma valid_spec s m e : valid (S754_finite s m e) ↔
  -1074 ≤ e ≤ 971 ∧ Z.pos m < 2 ^ 53 ∧ (e = -1074 ∨ 2 ^ 52 ≤ Z.pos m).
Proof.
  unfold valid, valid_binary, bounded, canonical_mantissa. rewrite andb_true_iff, Z.eqb_eq, Z.leb_le, fexp_eq, digits2_log2.
  assert (∀ k, 0 ≤ k → Z.pos m < 2 ^ k ↔ Z.log2 (Z.pos m) < k) as Hlt by (intros k Hk; apply Z.log2_lt_pow2; lia).
  assert (∀ k, 0 ≤ k → 2 ^ k ≤ Z.pos m ↔ k ≤ Z.log2 (Z.pos m)) as Hle by (intros k Hk; apply Z.log2_le_pow2; lia).
  rewrite Hlt, Hle by lia. pose proof (Z.log2_nonneg (Z.pos m)). change (1024 - 53) with 971. lia.
Qed.

(** ** Comparison *)

Lemma pow_pos_lt e : -1074 ≤ e → 0 < 2 ^ (e + Sc).
Proof. intros He. apply Z.pow_pos_nonneg; unfold Sc; lia. Qed.

(** Canonical magnitudes are ordered by exponent first. *)
Lemma mag_lt_exp m1 e1 m2 e2 : 0 < m1 < 2 ^ 53 → -1074 ≤ e1 < e2 → 2 ^ 52 ≤ m2 →
  m1 * 2 ^ (e1 + Sc) < m2 * 2 ^ (e2 + Sc).
Proof.
  intros Hm1 He Hm2. replace (e2 + Sc) with ((e2 - e1 - 1) + (1 + (e1 + Sc))) by lia.
  rewrite (Z.pow_add_r 2 (e2 - e1 - 1)) by (unfold Sc; lia). rewrite (Z.pow_add_r 2 1) by (unfold Sc; lia).
  pose proof (pow_pos_lt e1 ltac:(lia)). assert (1 ≤ 2 ^ (e2 - e1 - 1)) as HQ by (apply (Z.pow_le_mono_r 2 0); lia).
  set (P := 2 ^ (e1 + Sc)) in *. set (Q := 2 ^ (e2 - e1 - 1)) in *. change (2 ^ 1) with 2. change (2 ^ 53) with (2 ^ 52 * 2) in Hm1.
  apply Z.lt_le_trans with (2 ^ 52 * 2 * P); [nia|]. rewrite <-Z.mul_assoc. apply Z.mul_le_mono_nonneg; lia || nia.
Qed.

Lemma pos_compare_lt m1 e1 m2 e2 s : valid (S754_finite s m1 e1) → valid (S754_finite s m2 e2) →
  match e1 ?= e2 with Lt => Lt | Gt => Gt | Eq => Pos.compare_cont Eq m1 m2 end =
    (Z.pos m1 * 2 ^ (e1 + Sc) ?= Z.pos m2 * 2 ^ (e2 + Sc)).
Proof.
  intros (He1 & Hm1 & Hn1)%valid_spec (He2 & Hm2 & Hn2)%valid_spec. symmetry.
  destruct (Z.compare_spec e1 e2) as [->|Hlt|Hlt].
  - change (Pos.compare_cont Eq m1 m2) with (Z.pos m1 ?= Z.pos m2). pose proof (pow_pos_lt e2 ltac:(lia)).
    destruct (Z.compare_spec (Z.pos m1) (Z.pos m2)); [apply Z.compare_eq_iff|apply Z.compare_lt_iff|apply Z.compare_gt_iff]; nia.
  - apply Z.compare_lt_iff. apply mag_lt_exp; lia.
  - apply Z.compare_gt_iff. apply mag_lt_exp; lia.
Qed.

Lemma compare_V x y : valid x → valid y → finite x → finite y → SFcompare x y = Some (V x ?= V y).
Proof.
  intros Hx Hy Fx Fy. destruct x as [sx| | |sx mx ex], y as [sy| | |sy my ey]; try done; cbn [SFcompare V].
  - apply valid_spec in Hy as (He & _). pose proof (pow_pos_lt ey ltac:(lia)). f_equal. symmetry.
    destruct sy; cbn [cond_Zopp]; [apply Z.compare_gt_iff|apply Z.compare_lt_iff]; nia.
  - apply valid_spec in Hx as (He & _). pose proof (pow_pos_lt ex ltac:(lia)). f_equal. symmetry.
    destruct sx; cbn [cond_Zopp]; [apply Z.compare_lt_iff|apply Z.compare_gt_iff]; nia.
  - pose proof (pos_compare_lt mx ex my ey false) as Hc.
    assert (0 < 2 ^ (ex + Sc) ∧ 0 < 2 ^ (ey + Sc)) as [Px Py].
    { apply valid_spec in Hx as (? & _), Hy as (? & _). split; apply pow_pos_lt; lia. }
    destruct sx, sy; f_equal; cbn [cond_Zopp].
    + rewrite <-Zcompare_opp, (Z.compare_antisym (Z.pos mx * _)), <-Hc by done.
      destruct (ex ?= ey); done.
    + symmetry. apply Z.compare_lt_iff. nia.
    + symmetry. apply Z.compare_gt_iff. nia.
    + by apply Hc.
Qed.

Lemma le_V x y : valid x → valid y → finite x → finite y → f64_le x y = true ↔ V x ≤ V y.
Proof.
  intros. unfold f64_le, SFleb. rewrite compare_V by done. destruct (Z.compare_spec (V x) (V y)); split; intros; try done; lia.
Qed.

Lemma lt_V x y : valid x → valid y → finite x → finite y → f64_lt x y = true ↔ V x < V y.
Proof.
  intros. unfold f64_lt, SFltb. rewrite compare_V by done. destruct (Z.compare_spec (V x) (V y)); split; intros; try done; lia.
Qed.

Lemma eq_V x y : valid x → valid y → finite x → finite y → f64_eq x y = true ↔ V x = V y.
Proof.
  intros. unfold f64_eq, SFeqb. rewrite compare_V by done. destruct (Z.compare_spec (V x) (V y)); split; intros; try done; lia.
Qed.

(** ** Shifting right *)

Definition inexact (r s : bool) : bool := r || s.

Lemma shr_1_spec m r s : 0 ≤ m →
  shr_1 (Build_shr_record m r s) = Build_shr_record (m / 2) (Z.odd m) (r || s).
Proof.
  intros Hm. destruct m as [|[p|p|]|]; try done; cbn [shr_1 Z.odd]; f_equal.
  - rewrite Pos2Z.inj_xI. apply (Z.div_unique_pos _ _ _ 1); lia.
  - rewrite Pos2Z.inj_xO. apply (Z.div_unique_pos _ _ _ 0); lia.
Qed.

Lemma iter_pos_nat {A} (f : A → A) p x : SpecFloat.iter_pos f p x = Nat.iter (Pos.to_nat p) f x.
Proof.
  revert x. induction p as [p IH|p IH|]; intros x; cbn [SpecFloat.iter_pos]; [..|done]; rewrite !IH.
  - rewrite <-Nat.iter_add, Nat.iter_swap, Pos2Nat.inj_xI. by replace (2 * Pos.to_nat p)%nat with (Pos.to_nat p + Pos.to_nat p)%nat by lia.
  - rewrite <-Nat.iter_add, Pos2Nat.inj_xO. f_equal. lia.
Qed.

(** After [n] steps: the quotient, and a bit that tells whether anything was shifted out. *)
Lemma shr_iter n m r s : 0 ≤ m → ∃ r' s',
  Nat.iter n shr_1 (Build_shr_record m r s) = Build_shr_record (m / 2 ^ Z.of_nat n) r' s' ∧
  (inexact r' s' = false ↔ m mod 2 ^ Z.of_nat n = 0 ∧ inexact r s = false).
Proof.
  intros Hm. induction n as [|n (r' & s' & IH & Hx)].
  - exists r, s. cbn [Nat.iter]. change (2 ^ Z.of_nat 0) with 1. rewrite Z.div_1_r, Z.mod_1_r. tauto.
  - rewrite Nat.iter_succ, IH, shr_1_spec by (apply Z.div_pos; lia). eexists _, _.
    rewrite Nat2Z.inj_succ, Z.pow_succ_r, (Z.mul_comm 2), <-Z.div_div by lia. split; [done|].
    unfold inexact in *. rewrite !orb_false_iff in *. rewrite Z.rem_mul_r by lia.
    assert (Z.odd (m / 2 ^ Z.of_nat n) = false ↔ (m / 2 ^ Z.of_nat n) mod 2 = 0) as Ho.
    { rewrite Zmod_odd. by destruct (Z.odd _). }
    rewrite Ho. pose proof (Z.mod_pos_bound m (2 ^ Z.of_nat n) ltac:(lia)). pose proof (Z.mod_pos_bound (m / 2 ^ Z.of_nat n) 2 ltac:(lia)).
    assert (m mod 2 ^ Z.of_nat n + 2 ^ Z.of_nat n * ((m / 2 ^ Z.of_nat n) mod 2) = 0 ↔ m mod 2 ^ Z.of_nat n = 0 ∧ (m / 2 ^ Z.of_nat n) mod 2 = 0) as Hs.
    { generalize dependent (m / 2 ^ Z.of_nat n). intros. assert (0 < 2 ^ Z.of_nat n) by lia. nia. }
    tauto.
Qed.

Definition exact_loc (l : location) : bool := match l with loc_Exact => true | _ => false end.

Lemma shr_fexp_spec m e l : 0 ≤ m → e ≤ fexp 53 1024 (Zdigits2 m + e) →
  let E := fexp 53 1024 (Zdigits2 m + e) in
  ∃ r s, shr_fexp 53 1024 m e l = (Build_shr_record (m / 2 ^ (E - e)) r s, E) ∧
    (inexact r s = false ↔ m mod 2 ^ (E - e) = 0 ∧ exact_loc l = true).
Proof.
  intros Hm He E. unfold shr_fexp. fold E. assert (∃ r s, shr_record_of_loc m l = Build_shr_record m r s ∧ (inexact r s = false ↔ exact_loc l = true)) as (r & s & -> & Hl).
  { destruct l as [|[]]; eexists _, _; (split; [done|]); done. }
  destruct (E - e) as [|p|p] eqn:Hp; [|clear He|lia].
  - exists r, s. cbn [shr]. change (2 ^ 0) with 1. rewrite Z.div_1_r, Z.mod_1_r. replace E with e by lia. split; [done|]. naive_solver.
  - cbn [shr]. rewrite iter_pos_nat. destruct (shr_iter (Pos.to_nat p) m r s Hm) as (r' & s' & -> & Hx).
    rewrite positive_nat_Z in Hx |- *. exists r', s'. replace (e + Z.pos p) with E by lia. split; [done|]. rewrite Hx, Hl. done.
Qed.

(** ** Rounding *)

Lemma digits_spec m : 0 < m → Zdigits2 m = Z.log2 m + 1.
Proof. intros Hm. destruct m as [|p|]; try lia. apply digits2_log2. Qed.

(** The significand after the shift to the exponent [E] of the result: below [2^53], and of full length unless
    the result is subnormal. *)
Lemma shifted_bounds m e : 0 ≤ m → e ≤ fexp 53 1024 (Zdigits2 m + e) →
  let E := fexp 53 1024 (Zdigits2 m + e) in
  -1074 ≤ E ∧ 0 ≤ m / 2 ^ (E - e) < 2 ^ 53 ∧ (E = -1074 ∨ 2 ^ 52 ≤ m / 2 ^ (E - e)).
Proof.
  intros Hm He E. assert (-1074 ≤ E) as HE by (unfold E; rewrite fexp_eq; lia). split; [done|].
  assert (0 < 2 ^ (E - e)) as HP by (apply Z.pow_pos_nonneg; lia).
  destruct (Z.eq_dec m 0) as [->|Hnz].
  { rewrite Z.div_0_l by lia. split; [lia|]. left. unfold E in *. rewrite fexp_eq in *. cbn [Zdigits2] in *. lia. }
  unfold E in *. rewrite digits_spec, fexp_eq in * by lia. pose proof (Z.log2_spec m ltac:(lia)) as [Hlo Hhi].
  pose proof (Z.log2_nonneg m). set (L := Z.log2 m) in *. set (E' := Z.max (L + 1 + e - 53) (-1074)) in *. split.
  - split; [apply Z.div_pos; lia|]. apply Z.div_lt_upper_bound; [done|]. rewrite <-Z.pow_add_r by lia.
    eapply Z.lt_le_trans; [exact Hhi|]. apply Z.pow_le_mono_r; lia.
  - destruct (Z.max_spec (L + 1 + e - 53) (-1074)) as [[? HE']|[? HE']]; fold E' in HE'; [by left|]. right.
    apply Z.div_le_lower_bound; [done|]. rewrite <-Z.pow_add_r by lia. etrans; [|exact Hlo]. apply Z.pow_le_mono_r; lia.
Qed.

Lemma round_cases m1 l : round_nearest_even m1 l = m1 ∨ (round_nearest_even m1 l = m1 + 1 ∧ l ≠ loc_Exact).
Proof. destruct l as [|[]]; cbn; [by left|destruct (Z.even m1)|..]; auto. Qed.

(** Storing a significand of at most [2^53] at its exponent. *)
Definition store (sx : bool) (R E : Z) : float64 :=
  let '(mrs, e) := shr_fexp 53 1024 R E loc_Exact in
  match shr_m mrs with
  | Z0 => S754_zero sx
  | Z.pos m => if Z.leb e (1024 - 53) then S754_finite sx m e else S754_infinity sx
  | _ => S754_nan
  end.

Lemma store_spec sx R E : 0 ≤ R ≤ 2 ^ 53 → -1074 ≤ E → (E = -1074 ∨ 2 ^ 52 ≤ R) →
  valid (store sx R E) ∧
  ((finite (store sx R E) ∧ V (store sx R E) = cond_Zopp sx (R * 2 ^ (E + Sc))) ∨
   (store sx R E = S754_infinity sx ∧ 2 ^ (1024 + Sc) ≤ R * 2 ^ (E + Sc))).
Proof.
  intros HR HE Hn. unfold store, shr_fexp. cbn [shr_record_of_loc]. rewrite fexp_eq.
  destruct (Z.eq_dec R 0) as [->|Hnz].
  { cbn [Zdigits2]. assert (∃ k, Z.max (0 + E - 53) (-1074) - E = - Z.of_nat k) as [[|k] Hk].
    { exists (Z.to_nat (E - Z.max (0 + E - 53) (-1074))). lia. }
    - rewrite Hk. cbn. split; [done|]. left. split; [done|]. by destruct sx.
    - rewrite Hk. cbn. split; [done|]. left. split; [done|]. by destruct sx. }
  rewrite digits_spec by lia. pose proof (Z.log2_spec R ltac:(lia)) as [Hlo Hhi]. pose proof (Z.log2_nonneg R) as HL0.
  destruct (Z.eq_dec R (2 ^ 53)) as [->|Hne].
  - change (Z.log2 (2 ^ 53)) with 53. replace (Z.max (53 + 1 + E - 53) (-1074) - E) with 1 by lia.
    cbn [shr SpecFloat.iter_pos]. change (2 ^ 53) with 9007199254740992 at 1 2 3 4. cbn [shr_1 shr_m orb].
    destruct (Z.leb_spec (E + 1) (1024 - 53)).
    + split; [apply valid_spec; change (2 ^ 53) with 9007199254740992; change (2 ^ 52) with 4503599627370496; lia|]. left. split; [done|]. cbn [V]. f_equal.
      replace (E + 1 + Sc) with (1 + (E + Sc)) by lia. rewrite Z.pow_add_r by (unfold Sc; lia). change (2 ^ 1) with 2. change (2 ^ 53) with 9007199254740992. lia.
    + split; [done|]. right. split; [done|]. rewrite <-Z.pow_add_r by (unfold Sc; lia). apply Z.pow_le_mono_r; lia.
  - assert (Z.log2 R < 53) as HL by (apply Z.log2_lt_pow2; lia).
    assert (Z.max (Z.log2 R + 1 + E - 53) (-1074) - E = 0) as ->.
    { destruct Hn as [->|Hn]; [lia|]. assert (52 ≤ Z.log2 R) by (apply Z.log2_le_pow2; lia). lia. }
    cbn [shr shr_m]. destruct R as [|p|p]; [lia| |lia]. destruct (Z.leb_spec E (1024 - 53)).
    + split; [apply valid_spec; lia|]. left. split; [done|]. done.
    + split; [done|]. right. split; [done|]. destruct Hn as [->|Hn]; [lia|].
      transitivity (2 ^ 52 * 2 ^ (E + Sc)); [|apply Z.mul_le_mono_nonneg_r; [apply Z.pow_nonneg; lia|lia]].
      rewrite <-Z.pow_add_r by (unfold Sc; lia). apply Z.pow_le_mono_r; lia.
Qed.

(** The result of rounding: one of the two neighbours at the exponent of the result, the value itself when it is one. *)
Lemma round_aux_spec sx m e l : 0 ≤ m → e ≤ fexp 53 1024 (Zdigits2 m + e) →
  ∃ R E, binary_round_aux 53 1024 sx m e l = store sx R E ∧ e ≤ E ∧ -1074 ≤ E ∧
    m / 2 ^ (E - e) ≤ R ≤ m / 2 ^ (E - e) + 1 ∧ 0 ≤ R ≤ 2 ^ 53 ∧ (E = -1074 ∨ 2 ^ 52 ≤ m / 2 ^ (E - e)) ∧
    (m mod 2 ^ (E - e) = 0 → exact_loc l = true → R = m / 2 ^ (E - e)).
Proof.
  intros Hm He. destruct (shr_fexp_spec m e l Hm He) as (r & s & Hsh & Hx). destruct (shifted_bounds m e Hm He) as (HE & Hb & Hn).
  set (E := fexp 53 1024 (Zdigits2 m + e)) in *. unfold binary_round_aux. rewrite Hsh. cbn [shr_m].
  set (lo := loc_of_shr_record _). exists (round_nearest_even (m / 2 ^ (E - e)) lo), E.
  assert (inexact r s = false → lo = loc_Exact) as Hlo by (unfold lo; by destruct r, s).
  split; [done|]. destruct (round_cases (m / 2 ^ (E - e)) lo) as [->|[-> Hne]]; split_and!; try done; try lia.
  intros H1 H2. destruct Hne. apply Hlo, Hx. done.
Qed.

(** A representable value [k * 2^j]. *)
Definition representable (k j : Z) : Prop := 0 ≤ k < 2 ^ 53 ∧ -1074 ≤ j ≤ 971.

(** Rounding does not cross representable values, from below. *)
Lemma round_ge m e l k j : 0 ≤ m → -2200 ≤ e → e ≤ fexp 53 1024 (Zdigits2 m + e) → representable k j →
  (e ≤ j → k * 2 ^ (j + Sc) ≤ m * 2 ^ (e + Sc)) →
  let x := binary_round_aux 53 1024 false m e l in
  valid x ∧ (x = S754_infinity false ∨ finite x ∧ k * 2 ^ (j + Sc) ≤ V x).
Proof.
  intros Hm He He' [Hk Hj] Hle x. destruct (round_aux_spec false m e l Hm He') as (R & E & Hx & HeE & HE & HR & HR' & Hn & _).
  destruct (store_spec false R E HR' HE) as [Hv Hs]; [destruct Hn; [by left|right; lia]|]. unfold x. rewrite Hx. split; [done|].
  destruct Hs as [[Hf HV]|[-> _]]; [right|by left]. split; [done|]. rewrite HV. cbn [cond_Zopp].
  assert (0 < 2 ^ (E - e)) as HP by (apply Z.pow_pos_nonneg; lia). pose proof (Z.div_mod m (2 ^ (E - e)) ltac:(lia)) as Hdm.
  pose proof (Z.mod_pos_bound m (2 ^ (E - e)) HP) as Hmod. set (q := m / 2 ^ (E - e)) in *.
  assert (0 < 2 ^ (e + Sc)) as HPe by (apply Z.pow_pos_nonneg; unfold Sc; lia).
  assert (2 ^ (E + Sc) = 2 ^ (E - e) * 2 ^ (e + Sc)) as HpE by (rewrite <-Z.pow_add_r by (unfold Sc; lia); f_equal; lia).
  transitivity (q * 2 ^ (E + Sc)); [|apply Z.mul_le_mono_nonneg_r; lia].
  destruct (Z.le_gt_cases E j) as [HEj|HEj].
  - assert (2 ^ (j + Sc) = 2 ^ (j - E) * 2 ^ (E + Sc)) as Hpj by (rewrite <-Z.pow_add_r by (unfold Sc; lia); f_equal; lia).
    rewrite Hpj, Z.mul_assoc. apply Z.mul_le_mono_nonneg_r; [lia|]. specialize (Hle ltac:(lia)). rewrite Hpj, HpE in Hle.
    assert (k * 2 ^ (j - E) * 2 ^ (E - e) ≤ m) as Hkm by (apply (Z.mul_le_mono_pos_r _ _ (2 ^ (e + Sc))); [done|lia]).
    apply Z.div_le_lower_bound; [done|]. lia.
  - destruct Hn as [->|Hn]; [lia|]. apply Z.lt_le_incl.
    destruct (Z.eq_dec k 0) as [->|Hk0]; [pose proof (Z.pow_pos_nonneg 2 (E + Sc) ltac:(lia) ltac:(unfold Sc; lia)); nia|].
    apply mag_lt_exp; lia.
Qed.

(** From above: [m] and, when the value is strictly above [m * 2^e], the next multiple of [2^e]. *)
Lemma round_le m e l k j : 0 ≤ m → -2200 ≤ e → e ≤ fexp 53 1024 (Zdigits2 m + e) → representable k j →
  m * 2 ^ (e + Sc) ≤ k * 2 ^ (j + Sc) → (exact_loc l = false → e ≤ j → (m + 1) * 2 ^ (e + Sc) ≤ k * 2 ^ (j + Sc)) →
  let x := binary_round_aux 53 1024 false m e l in valid x ∧ finite x ∧ V x ≤ k * 2 ^ (j + Sc).
Proof.
  intros Hm He He' [Hk Hj] Hle Hle' x. destruct (round_aux_spec false m e l Hm He') as (R & E & Hx & HeE & HE & HR & HR' & Hn & Hex).
  destruct (store_spec false R E HR' HE) as [Hv Hs]; [destruct Hn; [by left|right; lia]|].
  assert (0 < 2 ^ (E - e)) as HP by (apply Z.pow_pos_nonneg; lia). pose proof (Z.div_mod m (2 ^ (E - e)) ltac:(lia)) as Hdm.
  pose proof (Z.mod_pos_bound m (2 ^ (E - e)) HP) as Hmod. set (q := m / 2 ^ (E - e)) in *.
  assert (0 < 2 ^ (e + Sc)) as HPe by (apply Z.pow_pos_nonneg; unfold Sc; lia).
  assert (2 ^ (E + Sc) = 2 ^ (E - e) * 2 ^ (e + Sc)) as HpE by (rewrite <-Z.pow_add_r by (unfold Sc; lia); f_equal; lia).
  assert (R * 2 ^ (E + Sc) ≤ k * 2 ^ (j + Sc)) as Hmain.
  { destruct (Z.le_gt_cases E j) as [HEj|HEj].
    - assert (2 ^ (j + Sc) = 2 ^ (j - E) * 2 ^ (E + Sc)) as Hpj by (rewrite <-Z.pow_add_r by (unfold Sc; lia); f_equal; lia).
      rewrite Hpj, Z.mul_assoc. apply Z.mul_le_mono_nonneg_r; [lia|]. rewrite Hpj, HpE in Hle, Hle'. set (K := k * 2 ^ (j - E)) in *.
      replace (k * (2 ^ (j - E) * (2 ^ (E - e) * 2 ^ (e + Sc)))) with (K * 2 ^ (E - e) * 2 ^ (e + Sc)) in Hle, Hle' by (unfold K; lia).
      assert (m ≤ K * 2 ^ (E - e)) as H1 by (apply (Z.mul_le_mono_pos_r _ _ (2 ^ (e + Sc))); [done|lia]).
      destruct (Z.eq_dec (m mod 2 ^ (E - e)) 0) as [Hm0|Hm0].
      + destruct (exact_loc l) eqn:Hl; [rewrite (Hex Hm0 eq_refl); nia|]. specialize (Hle' eq_refl ltac:(lia)).
        assert (m + 1 ≤ K * 2 ^ (E - e)) as H2 by (apply (Z.mul_le_mono_pos_r _ _ (2 ^ (e + Sc))); [done|lia]). nia.
      + assert (q < K) by nia. lia.
    - exfalso. destruct Hn as [->|Hn]; [lia|].
      assert (q * 2 ^ (E + Sc) ≤ m * 2 ^ (e + Sc)) as H1 by (rewrite HpE, Z.mul_assoc; apply Z.mul_le_mono_nonneg_r; lia).
      destruct (Z.eq_dec k 0) as [->|Hk0]; [pose proof (Z.pow_pos_nonneg 2 (E + Sc) ltac:(lia) ltac:(unfold Sc; lia)); nia|].
      pose proof (mag_lt_exp k j q E ltac:(lia) ltac:(lia) Hn). lia. }
  unfold x. rewrite Hx. split; [done|]. destruct Hs as [[Hf HV]|[Hinf Hbig]]; [by rewrite HV|].
  exfalso. assert (k * 2 ^ (j + Sc) < 2 ^ (1024 + Sc)); [|lia].
  apply Z.lt_le_trans with (2 ^ 53 * 2 ^ (971 + Sc)); [|rewrite <-Z.pow_add_r by (unfold Sc; lia); apply Z.pow_le_mono_r; unfold Sc; lia].
  assert (2 ^ (j + Sc) ≤ 2 ^ (971 + Sc)) by (apply Z.pow_le_mono_r; lia). assert (0 < 2 ^ (j + Sc)) by (apply Z.pow_pos_nonneg; unfold Sc; lia). nia.
Qed.

(** ** Signs and extended comparison *)

Lemma opp_valid x : valid x → valid (SFopp x).
Proof. by destruct x. Qed.

Lemma opp_V x : V (SFopp x) = - V x.
Proof. destruct x as [| | |[] m e]; cbn; lia. Qed.

Lemma opp_opp x : SFopp (SFopp x) = x.
Proof. destruct x as [[]|[]| |[] m e]; done. Qed.

Lemma opp_le x y : f64_le (SFopp x) (SFopp y) = f64_le y x.
Proof.
  unfold f64_le, SFleb. destruct x as [[]|[]| |[] mx ex], y as [[]|[]| |[] my ey]; try done; cbn [SFopp SFcompare negb].
  all: rewrite (Z.compare_antisym ey ex); destruct (ey ?= ex); cbn [CompOpp]; try done.
  all: change (Pos.compare_cont Eq) with Pos.compare; rewrite (Pos.compare_antisym my mx); by destruct (my ?= mx)%positive.
Qed.

Lemma round_opp m e l : binary_round_aux 53 1024 true m e l = SFopp (binary_round_aux 53 1024 false m e l).
Proof.
  unfold binary_round_aux. destruct (shr_fexp 53 1024 m e l) as [r1 e1]. destruct (shr_fexp 53 1024 _ e1 loc_Exact) as [r2 e2].
  destruct (shr_m r2); try done. by destruct (e2 <=? 1024 - 53).
Qed.

(** The representable form of a finite float that is not negative. *)
Lemma rep_of w : valid w → finite w → 0 ≤ V w → ∃ k j, representable k j ∧ V w = k * 2 ^ (j + Sc).
Proof.
  intros Hv Hf Hw. destruct w as [s| | |s m e]; try done.
  - exists 0, 0. split; [split; lia|]. done.
  - apply valid_spec in Hv as (He & Hm & _). pose proof (pow_pos_lt e ltac:(lia)). destruct s; [cbn in Hw; nia|].
    exists (Z.pos m), e. split; [split; lia|done].
Qed.

Lemma le_inf_r w : valid w → finite w → f64_le w (S754_infinity false) = true.
Proof. intros _ Hw. by destruct w as [| | |[]]. Qed.

Lemma le_V_2 x y : valid x → valid y → finite x → finite y → V x ≤ V y → f64_le x y = true.
Proof. intros. by apply le_V. Qed.

(** Between two finite floats there are only finite ones. *)
Lemma between_finite a x b : finite a → finite b → f64_le a x = true → f64_le x b = true → finite x.
Proof. destruct x as [s|[]| |s m e]; try done; destruct a as [| | |[]], b as [| | |[]]; done. Qed.

(** ** Exact values, rounded *)

(** [x] is the rounding of the exact value [S]: it is on the same side of every representable value. *)
Definition rounds (S : Z) (x : float64) : Prop :=
  valid x ∧ (∀ w, valid w → finite w → V w ≤ S → f64_le w x = true) ∧ (∀ w, valid w → finite w → S ≤ V w → f64_le x w = true).

Lemma rounds_opp S x : rounds S x → rounds (- S) (SFopp x).
Proof.
  intros (Hv & Hge & Hle). split; [by apply opp_valid|]. split; intros w Hw Fw HS.
  - rewrite <-(opp_opp w), opp_le. apply Hle; [by apply opp_valid|by destruct w|]. rewrite opp_V. lia.
  - rewrite <-(opp_opp w), opp_le. apply Hge; [by apply opp_valid|by destruct w|]. rewrite opp_V. lia.
Qed.

Lemma rounds_pos m e : 0 ≤ m → -2200 ≤ e → e ≤ fexp 53 1024 (Zdigits2 m + e) →
  rounds (m * 2 ^ (e + Sc)) (binary_round_aux 53 1024 false m e loc_Exact).
Proof.
  intros Hm He He'. assert (0 < 2 ^ (e + Sc)) as HP by (apply Z.pow_pos_nonneg; unfold Sc; lia).
  destruct (round_ge m e loc_Exact 0 0 Hm He He') as [Hv Hnn]; [split; lia|lia|]. split; [done|]. split; intros w Hw Fw HS.
  - destruct (Z.le_gt_cases 0 (V w)) as [Hw0|Hw0].
    + destruct (rep_of w Hw Fw Hw0) as (k & j & Hr & HVw). rewrite HVw in HS.
      destruct (round_ge m e loc_Exact k j Hm He He' Hr (λ _, HS)) as [_ [->|[Hf HV]]]; [by apply le_inf_r|]. apply le_V_2; try done. lia.
    + destruct Hnn as [->|[Hf HV]]; [by apply le_inf_r|]. apply le_V_2; try done. lia.
  - destruct (rep_of w Hw Fw ltac:(nia)) as (k & j & Hr & HVw). rewrite HVw in HS.
    destruct (round_le m e loc_Exact k j Hm He He' Hr HS) as (_ & Hf & HV); [done|]. apply le_V_2; try done. lia.
Qed.

Lemma zeros_rounds s : rounds 0 (S754_zero s).
Proof. split; [done|]. split; intros w Hw Fw HS; apply le_V_2; done. Qed.

Lemma iter_xO m d : Z.pos (Pos.iter xO m d) = Z.pos m * 2 ^ Z.pos d.
Proof.
  induction d as [|d IH] using Pos.peano_ind; [cbn [Pos.iter]; change (2 ^ 1) with 2; lia|].
  rewrite Pos.iter_succ, Pos2Z.inj_succ, Z.pow_succ_r, Pos2Z.inj_xO, IH by lia. lia.
Qed.

Lemma shl_align_spec m e E : ∃ m' e', shl_align m e E = (m', e') ∧ e' = Z.min e E ∧ Z.pos m' = Z.pos m * 2 ^ (e - e').
Proof.
  unfold shl_align. destruct (E - e) as [|d|d] eqn:Hd.
  - exists m, e. rewrite Z.sub_diag. split_and!; [done|lia|lia].
  - exists m, e. rewrite Z.sub_diag. split_and!; [done|lia|lia].
  - exists (Pos.iter xO m d), E. split_and!; [done|lia|]. rewrite iter_xO. do 2 f_equal. lia.
Qed.

Lemma rounds_normalize m e b : -1074 ≤ e → rounds (m * 2 ^ (e + Sc)) (binary_normalize 53 1024 m e b).
Proof.
  intros He. assert (∀ p, rounds (Z.pos p * 2 ^ (e + Sc)) (binary_round 53 1024 false p e)) as Hpos.
  { intros p. unfold binary_round. set (E := fexp 53 1024 (Z.pos (digits2_pos p) + e)).
    destruct (shl_align_spec p e E) as (m' & e' & -> & -> & Hm'). assert (-1074 ≤ E) by (unfold E; rewrite fexp_eq; lia).
    assert (Zdigits2 (Z.pos m') = Z.pos (digits2_pos p) + (e - Z.min e E)) as Hd.
    { rewrite digits_spec, digits2_log2, Hm', Z.log2_mul_pow2 by lia. lia. }
    replace (Z.pos p * 2 ^ (e + Sc)) with (Z.pos m' * 2 ^ (Z.min e E + Sc)).
    - apply rounds_pos; [lia|lia|]. rewrite Hd. replace (Z.pos (digits2_pos p) + (e - Z.min e E) + Z.min e E) with (Z.pos (digits2_pos p) + e) by lia. fold E. lia.
    - rewrite Hm', <-Z.mul_assoc, <-Z.pow_add_r by (unfold Sc; lia). do 2 f_equal. lia. }
  destruct m as [|p|p]; cbn [binary_normalize]; [apply zeros_rounds|apply Hpos|].
  assert (binary_round 53 1024 true p e = SFopp (binary_round 53 1024 false p e)) as ->.
  { unfold binary_round. destruct (shl_align _ _ _). apply round_opp. }
  rewrite <-Pos2Z.opp_pos, Z.mul_opp_l. by apply rounds_opp.
Qed.

(** ** Operations *)

Lemma self_rounds x : valid x → finite x → rounds (V x) x.
Proof. intros Hv Hf. split; [done|]. split; intros w Hw Fw HS; by apply le_V_2. Qed.

Lemma of_Z_rounds z : rounds (z * 2 ^ Sc) (f64_of_Z z).
Proof. apply (rounds_normalize z 0). lia. Qed.

Lemma scaled_fst m e e' : e' ≤ e → -1074 ≤ e' → Z.pos (shl_align m e e').1 * 2 ^ (e' + Sc) = Z.pos m * 2 ^ (e + Sc).
Proof.
  intros He He'. destruct (shl_align_spec m e e') as (m' & e1 & -> & -> & Hm). cbn [fst]. rewrite Hm, Z.min_r by lia.
  rewrite <-Z.mul_assoc, <-Z.pow_add_r by (unfold Sc; lia). do 2 f_equal. lia.
Qed.

Lemma cond_Zopp_mul b x y : cond_Zopp b x * y = cond_Zopp b (x * y).
Proof. destruct b; cbn; lia. Qed.

Lemma add_rounds x y : valid x → valid y → finite x → finite y → rounds (V x + V y) (f64_add x y).
Proof.
  intros Hx Hy Fx Fy. destruct x as [sx| | |sx mx ex], y as [sy| | |sy my ey]; try done; unfold f64_add; cbn [SFadd].
  - cbn [V]. destruct sx, sy; apply zeros_rounds.
  - rewrite Z.add_0_l. by apply self_rounds.
  - cbn [V]. rewrite Z.add_0_r. by apply (self_rounds (S754_finite sx mx ex)).
  - apply valid_spec in Hx as (Hex & _), Hy as (Hey & _). set (ez := Z.min ex ey).
    replace (V _ + V _) with ((cond_Zopp sx (Z.pos (shl_align mx ex ez).1) + cond_Zopp sy (Z.pos (shl_align my ey ez).1)) * 2 ^ (ez + Sc)).
    + apply rounds_normalize. lia.
    + cbn [V]. rewrite Z.mul_add_distr_r, !cond_Zopp_mul, !scaled_fst by lia. done.
Qed.

Lemma sub_add x y : V x - V y = V x + V (SFopp y).
Proof. rewrite opp_V. lia. Qed.

Lemma sub_rounds x y : valid x → valid y → finite x → finite y → rounds (V x - V y) (f64_sub x y).
Proof.
  intros Hx Hy Fx Fy. destruct x as [sx| | |sx mx ex], y as [sy| | |sy my ey]; try done; unfold f64_sub; cbn [SFsub].
  - cbn [V]. destruct sx, sy; apply zeros_rounds.
  - rewrite sub_add. cbn [V SFopp]. rewrite Z.add_0_l. by apply (self_rounds (S754_finite (negb sy) my ey)).
  - cbn [V]. rewrite Z.sub_0_r. by apply (self_rounds (S754_finite sx mx ex)).
  - apply valid_spec in Hx as (Hex & _), Hy as (Hey & _). set (ez := Z.min ex ey).
    replace (V _ - V _) with ((cond_Zopp sx (Z.pos (shl_align mx ex ez).1) - cond_Zopp sy (Z.pos (shl_align my ey ez).1)) * 2 ^ (ez + Sc)).
    + apply rounds_normalize. lia.
    + cbn [V]. rewrite Z.mul_sub_distr_r, !cond_Zopp_mul, !scaled_fst by lia. done.
Qed.

(** [x] is the rounding of the exact quotient [A / B]. *)
Definition rounds_ratio (A B : Z) (x : float64) : Prop :=
  valid x ∧ (∀ w, valid w → finite w → V w * B ≤ A → f64_le w x = true) ∧ (∀ w, valid w → finite w → A ≤ V w * B → f64_le x w = true).

Lemma ratio_opp A B x : rounds_ratio A B x → rounds_ratio (- A) B (SFopp x).
Proof.
  intros (Hv & Hge & Hle). split; [by apply opp_valid|]. split; intros w Hw Fw HS.
  - rewrite <-(opp_opp w), opp_le. apply Hle; [by apply opp_valid|by destruct w|]. rewrite opp_V. lia.
  - rewrite <-(opp_opp w), opp_le. apply Hge; [by apply opp_valid|by destruct w|]. rewrite opp_V. lia.
Qed.

Lemma ratio_scale S B x : 0 < B → rounds S x → rounds_ratio (S * B) B x.
Proof. intros HB (Hv & Hge & Hle). split; [done|]. split; intros w Hw Fw HS; [apply Hge|apply Hle]; try done; nia. Qed.

Lemma xorb_round sx m e l : binary_round_aux 53 1024 sx m e l = if sx then SFopp (binary_round_aux 53 1024 false m e l) else binary_round_aux 53 1024 false m e l.
Proof. destruct sx; [apply round_opp|done]. Qed.

Lemma mul_rounds x y : valid x → valid y → finite x → finite y → rounds_ratio (V x * V y) (2 ^ Sc) (f64_mul x y).
Proof.
  intros Hx Hy Fx Fy. assert (0 < 2 ^ Sc) as HP by (apply Z.pow_pos_nonneg; unfold Sc; lia).
  assert (∀ s, rounds_ratio 0 (2 ^ Sc) (S754_zero s)) as Hz by (intros s; change 0 with (0 * 2 ^ Sc); apply ratio_scale; [done|apply zeros_rounds]).
  destruct x as [sx| | |sx mx ex], y as [sy| | |sy my ey]; try done; unfold f64_mul; cbn [SFmul].
  - apply Hz.
  - rewrite Z.mul_0_l. apply Hz.
  - cbn [V]. rewrite Z.mul_0_r. apply Hz.
  - apply valid_spec in Hx as (Hex & Hmx & Hnx), Hy as (Hey & Hmy & Hny).
    assert (rounds_ratio (Z.pos (mx * my) * 2 ^ (ex + ey + Sc) * 2 ^ Sc) (2 ^ Sc) (binary_round_aux 53 1024 false (Z.pos (mx * my)) (ex + ey) loc_Exact)) as Hr.
    { apply ratio_scale; [done|]. apply rounds_pos; [lia|lia|]. rewrite digits_spec, fexp_eq by lia.
      pose proof (Z.log2_mul_below (Z.pos mx) (Z.pos my) ltac:(lia) ltac:(lia)) as Hl. rewrite <-Pos2Z.inj_mul in Hl.
      pose proof (Z.log2_nonneg (Z.pos mx)). pose proof (Z.log2_nonneg (Z.pos my)).
      assert (2 ^ 52 ≤ Z.pos mx → 52 ≤ Z.log2 (Z.pos mx)) by (intros; by apply Z.log2_le_pow2).
      assert (2 ^ 52 ≤ Z.pos my → 52 ≤ Z.log2 (Z.pos my)) by (intros; by apply Z.log2_le_pow2). lia. }
    assert (Z.pos (mx * my) * 2 ^ (ex + ey + Sc) * 2 ^ Sc = (Z.pos mx * 2 ^ (ex + Sc)) * (Z.pos my * 2 ^ (ey + Sc))) as Hv.
    { rewrite Pos2Z.inj_mul. replace (2 ^ (ex + ey + Sc) * 2 ^ Sc) with (2 ^ (ex + Sc) * 2 ^ (ey + Sc)) in * |- *.
      - rewrite <-Z.mul_assoc, <-(Z.pow_add_r 2 (ex + ey + Sc)) by (unfold Sc; lia).
        replace (ex + ey + Sc + Sc) with ((ex + Sc) + (ey + Sc)) by lia. rewrite Z.pow_add_r by (unfold Sc; lia). lia.
      - rewrite <-!Z.pow_add_r by (unfold Sc; lia). f_equal. lia. }
    rewrite Hv in Hr. rewrite xorb_round. cbn [V]. destruct sx, sy; cbn [cond_Zopp xorb]; rewrite ?Z.mul_opp_opp, ?Z.mul_opp_l, ?Z.mul_opp_r; try done; by apply ratio_opp.
Qed.

(** The quotient of positive significands, before rounding. *)
Lemma div_core m1 e1 m2 e2 : 0 < m1 → 0 < m2 → let '(q, e, l) := SFdiv_core_binary 53 1024 m1 e1 m2 e2 in
  ∃ s, 0 ≤ s ∧ e = e1 - e2 - s ∧ q = m1 * 2 ^ s / m2 ∧ (exact_loc l = true ↔ (m1 * 2 ^ s) mod m2 = 0) ∧
    e ≤ fexp 53 1024 (Zdigits2 q + e) ∧ (-1074 ≤ e ∨ e = e1 - e2).
Proof.
  intros H1 H2. unfold SFdiv_core_binary. rewrite !digits_spec by done. set (X := Z.log2 m1 + 1 + e1 - (Z.log2 m2 + 1 + e2)).
  set (e := Z.min (fexp 53 1024 X) (e1 - e2)). set (s := e1 - e2 - e). assert (0 ≤ s) as Hs by lia.
  assert (match s with Z0 => m1 | Z.pos _ => Z.shiftl m1 s | Z.neg _ => 0 end = m1 * 2 ^ s) as ->.
  { destruct s as [|p|p] eqn:E; [change (2 ^ 0) with 1; lia| |lia]. apply Z.shiftl_mul_pow2. lia. }
  pose proof (Z.div_eucl_eq (m1 * 2 ^ s) m2 ltac:(lia)) as _.
  assert (Z.div_eucl (m1 * 2 ^ s) m2 = (m1 * 2 ^ s / m2, (m1 * 2 ^ s) mod m2)) as -> by (unfold Z.div, Z.modulo; by destruct (Z.div_eucl _ _)).
  exists s. split_and!; [done|lia|done| | |].
  - unfold new_location, new_location_even, new_location_odd. destruct (Z.even m2), (Z.eqb_spec ((m1 * 2 ^ s) mod m2) 0); done.
  - set (q := m1 * 2 ^ s / m2). assert (0 ≤ q) as Hq by (apply Z.div_pos; [|done]; apply Z.mul_nonneg_nonneg; [lia|apply Z.pow_nonneg; lia]).
    assert (e ≤ fexp 53 1024 X) as HeX by lia. rewrite fexp_eq in *. unfold s in *.
    pose proof (Z.log2_spec m1 H1) as [Hlo1 Hhi1]. pose proof (Z.log2_spec m2 H2) as [Hlo2 Hhi2].
    destruct (Z.eq_dec q 0) as [Hq0|Hq0].
    + rewrite Hq0. cbn [Zdigits2]. destruct (Z.le_gt_cases e (-1074)); [lia|]. exfalso.
      apply Z.div_small_iff in Hq0; [|lia]. destruct Hq0 as [Hq0|Hq0]; [|lia].
      assert (Z.log2 (m1 * 2 ^ (e1 - e2 - e)) ≤ Z.log2 m2) as Hl by (apply Z.log2_le_mono; lia). rewrite Z.log2_mul_pow2 in Hl by lia. lia.
    + rewrite digits_spec by lia. assert (X ≤ Z.log2 q + 1 + e) as HX; [|lia].
      assert (Z.log2 (m1 * 2 ^ (e1 - e2 - e)) ≤ Z.log2 (q * m2 + m2)) as Hl.
      { apply Z.log2_le_mono. pose proof (Z.div_mod (m1 * 2 ^ (e1 - e2 - e)) m2 ltac:(lia)). pose proof (Z.mod_pos_bound (m1 * 2 ^ (e1 - e2 - e)) m2 H2). fold q in H. lia. }
      rewrite Z.log2_mul_pow2 in Hl by lia.
      assert (q * m2 + m2 ≤ 2 ^ (Z.log2 q + 1) * m2) as Hm by (pose proof (Z.log2_spec q ltac:(lia)); nia).
      assert (q * m2 + m2 < 2 ^ (Z.log2 q + 1 + (Z.log2 m2 + 1))) as Hm'.
      { rewrite Z.pow_add_r by (pose proof (Z.log2_nonneg q); pose proof (Z.log2_nonneg m2); lia). eapply Z.le_lt_trans; [exact Hm|].
        apply Z.mul_lt_mono_pos_l; [apply Z.pow_pos_nonneg; [lia|pose proof (Z.log2_nonneg q); lia]|lia]. }
      apply Z.log2_lt_pow2 in Hm'; [|nia]. lia.
  - unfold s, e. rewrite fexp_eq. lia.
Qed.

Lemma div_rounds_pos mx ex my ey : valid (S754_finite false mx ex) → valid (S754_finite false my ey) →
  rounds_ratio (Z.pos mx * 2 ^ (ex + Sc) * 2 ^ Sc) (Z.pos my * 2 ^ (ey + Sc))
    (let '(q, e, l) := SFdiv_core_binary 53 1024 (Z.pos mx) ex (Z.pos my) ey in binary_round_aux 53 1024 false q e l).
Proof.
  intros (Hex & _)%valid_spec (Hey & _)%valid_spec. pose proof (div_core (Z.pos mx) ex (Z.pos my) ey ltac:(lia) ltac:(lia)) as Hc.
  destruct (SFdiv_core_binary 53 1024 (Z.pos mx) ex (Z.pos my) ey) as [[q e] l]. destruct Hc as (s & Hs & He & Hq & Hl & Hfe & Hlow).
  set (a := Z.pos mx * 2 ^ s) in *. set (b := Z.pos my) in *. assert (0 ≤ a) by (apply Z.mul_nonneg_nonneg; [lia|apply Z.pow_nonneg; lia]).
  assert (0 ≤ q) as Hq0 by (subst q; apply Z.div_pos; lia). assert (-2200 ≤ e) as He0 by lia.
  pose proof (Z.div_mod a b ltac:(lia)) as Hdm. pose proof (Z.mod_pos_bound a b ltac:(lia)) as Hmod. rewrite <-Hq in Hdm.
  assert (0 < 2 ^ (e + Sc)) as HPe by (apply Z.pow_pos_nonneg; unfold Sc; lia). assert (0 < 2 ^ (ey + Sc)) as HPy by (apply pow_pos_lt; lia).
  (* the exact quotient is [a / b] in units of [2^e] *)
  assert (Z.pos mx * 2 ^ (ex + Sc) * 2 ^ Sc = a * 2 ^ (e + Sc) * 2 ^ (ey + Sc)) as HA.
  { unfold a. rewrite <-!Z.mul_assoc, <-!Z.pow_add_r by (unfold Sc; lia). do 2 f_equal. lia. }
  rewrite HA. replace (a * 2 ^ (e + Sc) * 2 ^ (ey + Sc)) with ((a * 2 ^ (e + Sc)) * 2 ^ (ey + Sc)) by lia.
  assert (∀ w, V w * (b * 2 ^ (ey + Sc)) ≤ a * 2 ^ (e + Sc) * 2 ^ (ey + Sc) ↔ V w * b ≤ a * 2 ^ (e + Sc)) as Hge by (intros w; nia).
  assert (∀ w, a * 2 ^ (e + Sc) * 2 ^ (ey + Sc) ≤ V w * (b * 2 ^ (ey + Sc)) ↔ a * 2 ^ (e + Sc) ≤ V w * b) as Hle by (intros w; nia).
  destruct (round_ge q e l 0 0 Hq0 He0 Hfe) as [Hv Hnn]; [split; lia|intros; lia|]. split; [done|]. split; intros w Hw Fw HS.
  - apply Hge in HS. destruct (Z.le_gt_cases 0 (V w)) as [Hw0|Hw0].
    + destruct (rep_of w Hw Fw Hw0) as (k & j & Hr & HVw). rewrite HVw in HS.
      destruct (round_ge q e l k j Hq0 He0 Hfe Hr) as [_ [->|[Hf HV]]]; [|by apply le_inf_r|apply le_V_2; try done; lia].
      intros Hej. assert (2 ^ (j + Sc) = 2 ^ (j - e) * 2 ^ (e + Sc)) as Hpj by (rewrite <-Z.pow_add_r by (unfold Sc; lia); f_equal; lia).
      rewrite Hpj, Z.mul_assoc. apply Z.mul_le_mono_nonneg_r; [lia|]. rewrite Hpj in HS.
      assert (k * 2 ^ (j - e) * b ≤ a) by (apply (Z.mul_le_mono_pos_r _ _ (2 ^ (e + Sc))); [done|lia]). subst q. apply Z.div_le_lower_bound; lia.
    + destruct Hnn as [->|[Hf HV]]; [by apply le_inf_r|]. apply le_V_2; try done. lia.
  - apply Hle in HS. destruct (rep_of w Hw Fw ltac:(nia)) as (k & j & Hr & HVw). rewrite HVw in HS.
    assert (q * 2 ^ (e + Sc) * b ≤ k * 2 ^ (j + Sc) * b) as Hqb by nia.
    destruct (round_le q e l k j Hq0 He0 Hfe Hr) as (_ & Hf & HV); [nia| |apply le_V_2; try done; lia].
    intros Hel Hej. assert (a mod b ≠ 0) as Hne by (intros Hz; apply Hl in Hz; congruence).
    assert (2 ^ (j + Sc) = 2 ^ (j - e) * 2 ^ (e + Sc)) as Hpj by (rewrite <-Z.pow_add_r by (unfold Sc; lia); f_equal; lia).
    rewrite Hpj, Z.mul_assoc in HS |- *. apply Z.mul_le_mono_nonneg_r; [lia|].
    assert (a ≤ k * 2 ^ (j - e) * b) as Ha by (apply (Z.mul_le_mono_pos_r _ _ (2 ^ (e + Sc))); [done|lia]). nia.
Qed.

(** Quotients by a positive divisor. *)
Lemma div_rounds x y : valid x → valid y → finite x → finite y → 0 < V y → rounds_ratio (V x * 2 ^ Sc) (V y) (f64_div x y).
Proof.
  intros Hx Hy Fx Fy Hpos. destruct y as [sy| | |sy my ey]; try done.
  assert (sy = false) as -> by (destruct sy; [|done]; cbn in Hpos; apply valid_spec in Hy as (? & _); pose proof (pow_pos_lt ey ltac:(lia)); nia).
  destruct x as [sx| | |sx mx ex]; try done; unfold f64_div; cbn [SFdiv].
  - cbn [V]. rewrite Z.mul_0_l, xorb_false_r. split; [done|]. split; intros w Hw Fw HS; apply le_V_2; try done; cbn [V] in *; nia.
  - pose proof (div_rounds_pos mx ex my ey ltac:(by destruct sx) Hy) as Hr.
    destruct (SFdiv_core_binary 53 1024 (Z.pos mx) ex (Z.pos my) ey) as [[q e] l]. rewrite xorb_round, xorb_false_r. cbn [V].
    destruct sx; cbn [cond_Zopp]; [|done]. rewrite Z.mul_opp_l. by apply ratio_opp.
Qed.

(** ** Integers *)

Definition exact_int (z : Z) : Prop := - 2 ^ 53 ≤ z ≤ 2 ^ 53.

(** A float with the value of a given exact one, when there is such a float. *)
Lemma rounds_exact S x w : rounds S x → valid w → finite w → V w = S → finite x ∧ V x = S.
Proof.
  intros (Hv & Hge & Hle) Hw Fw HV. assert (f64_le w x = true) as H1 by (apply Hge; [done..|lia]).
  assert (f64_le x w = true) as H2 by (apply Hle; [done..|lia]). assert (finite x) as Hf by (by eapply between_finite). split; [done|].
  apply le_V in H1, H2; try done. lia.
Qed.

(** Every integer up to [2^53] is a float. *)
Lemma int_float z : exact_int z → ∃ w, valid w ∧ finite w ∧ V w = z * 2 ^ Sc.
Proof.
  intros Hz. assert (∀ p, Z.pos p ≤ 2 ^ 53 → ∃ w, valid w ∧ finite w ∧ V w = Z.pos p * 2 ^ Sc) as Hpos.
  { intros p Hp. set (E := Z.max (Z.log2 (Z.pos p) - 52) 0). pose proof (Z.log2_spec (Z.pos p) ltac:(lia)) as [Hlo Hhi].
    pose proof (Z.log2_nonneg (Z.pos p)). assert (Z.log2 (Z.pos p) ≤ 53) by (change 53 with (Z.log2 (2 ^ 53)); apply Z.log2_le_mono; lia).
    destruct (Z.eq_dec (Z.pos p) (2 ^ 53)) as [Heq|Hne].
    - exists (S754_finite false (Z.to_pos (2 ^ 52)) 1). split; [apply valid_spec; vm_compute; intuition congruence|]. split; [done|]. cbn [V cond_Zopp].
      rewrite Heq. change (Z.pos (Z.to_pos (2 ^ 52))) with (2 ^ 52). rewrite <-!Z.pow_add_r by (unfold Sc; lia). f_equal.
    - assert (Z.log2 (Z.pos p) < 53) by (apply Z.log2_lt_pow2; lia). set (d := 52 - Z.log2 (Z.pos p)).
      exists (S754_finite false (Z.to_pos (Z.pos p * 2 ^ d)) (- d)). assert (0 < Z.pos p * 2 ^ d) as Hpd by (apply Z.mul_pos_pos; [lia|apply Z.pow_pos_nonneg; lia]).
      split; [|split; [done|]].
      + apply valid_spec. rewrite Z2Pos.id by done. split; [lia|]. split.
        * apply Z.lt_le_trans with (2 ^ Z.succ (Z.log2 (Z.pos p)) * 2 ^ d); [apply Z.mul_lt_mono_pos_r; [apply Z.pow_pos_nonneg; lia|done]|].
          rewrite <-Z.pow_add_r by lia. apply Z.pow_le_mono_r; lia.
        * right. transitivity (2 ^ Z.log2 (Z.pos p) * 2 ^ d); [rewrite <-Z.pow_add_r by lia; apply Z.pow_le_mono_r; lia|].
          apply Z.mul_le_mono_nonneg_r; [apply Z.pow_nonneg; lia|done].
      + cbn [V cond_Zopp]. rewrite Z2Pos.id by done. rewrite <-Z.mul_assoc, <-Z.pow_add_r by (unfold Sc; lia). do 2 f_equal. lia. }
  destruct z as [|p|p].
  - exists (S754_zero false). done.
  - apply Hpos. unfold exact_int in Hz. lia.
  - destruct (Hpos p) as (w & Hv & Hf & HV); [unfold exact_int in Hz; lia|]. exists (SFopp w). split; [by apply opp_valid|]. split; [by destruct w|].
    rewrite opp_V, HV, <-Pos2Z.opp_pos. lia.
Qed.

Lemma of_Z_exact z : exact_int z → valid (f64_of_Z z) ∧ finite (f64_of_Z z) ∧ V (f64_of_Z z) = z * 2 ^ Sc.
Proof.
  intros Hz. destruct (int_float z Hz) as (w & Hv & Hf & HV). pose proof (of_Z_rounds z) as Hr.
  split; [apply Hr|]. by eapply rounds_exact.
Qed.

(** ** Infinities *)

(** A float that is not a NaN, and its value with the infinities beyond every finite one. *)
Definition num (x : float64) : Prop := valid x ∧ f64_is_nan x = false.
Definition Big : Z := 2 ^ (1024 + Sc).
Definition E (x : float64) : Z :=
  match x with S754_infinity s => cond_Zopp s Big | _ => V x end.

#[export] Instance finite_dec x : Decision (finite x).
Proof. destruct x; (left; exact I) || (right; tauto). Defined.

Lemma E_finite x : finite x → E x = V x.
Proof. by destruct x. Qed.

Lemma num_finite x : valid x → finite x → num x.
Proof. intros Hv Hf. split; [done|]. by destruct x. Qed.

Lemma Big_pos : 0 < Big.
Proof. apply Z.pow_pos_nonneg; unfold Sc; lia. Qed.

#[local] Opaque Big.

Lemma V_bound x : valid x → finite x → - Big < V x < Big.
Proof.
  intros Hv Hf. pose proof Big_pos. destruct x as [s| | |s m e]; try done.
  apply valid_spec in Hv as (He & Hm & _). assert (Z.pos m * 2 ^ (e + Sc) < Big) as Hb.
  { apply Z.lt_le_trans with (2 ^ 53 * 2 ^ (e + Sc)); [apply Z.mul_lt_mono_pos_r; [apply pow_pos_lt; lia|done]|].
    rewrite <-Z.pow_add_r by (unfold Sc; lia). with_strategy transparent [Big] unfold Big. apply Z.pow_le_mono_r; lia. }
  pose proof (pow_pos_lt e ltac:(lia)). destruct s; cbn [V cond_Zopp]; nia.
Qed.

Lemma E_bound x : num x → - Big ≤ E x ≤ Big.
Proof.
  intros [Hv Hn]. pose proof Big_pos. destruct x as [s|s| |s m e]; [cbn [E V]; lia|..|].
  - destruct s; cbn [E cond_Zopp]; lia.
  - done.
  - pose proof (V_bound _ Hv I) as Hb. cbn [E]. lia.
Qed.

Lemma finite_E x : num x → - Big < E x < Big → finite x.
Proof. intros [_ Hn]. by destruct x as [|[]| |]; cbn [E cond_Zopp]; try lia. Qed.

Lemma compare_E x y : num x → num y → SFcompare x y = Some (E x ?= E y).
Proof.
  intros [Hx Nx] [Hy Ny]. pose proof Big_pos as HB.
  destruct (decide (finite x)) as [Fx|Fx]; [|destruct (decide (finite y)) as [Fy|Fy]].
  - destruct (decide (finite y)) as [Fy|Fy].
    + rewrite !E_finite by done. by apply compare_V.
    + rewrite (E_finite x) by done. pose proof (V_bound x Hx Fx). destruct y as [|s| |]; try done. destruct x as [|t| |t m e]; try done; cbn [SFcompare];
        f_equal; symmetry; destruct s; cbn [E cond_Zopp]; first [apply Z.compare_lt_iff | apply Z.compare_gt_iff]; lia.
  - rewrite (E_finite y) by done. pose proof (V_bound y Hy Fy). destruct x as [|s| |]; try done. destruct y as [|t| |t m e]; try done; cbn [SFcompare];
      f_equal; symmetry; destruct s; cbn [E cond_Zopp]; first [apply Z.compare_lt_iff | apply Z.compare_gt_iff]; lia.
  - destruct x as [|s| |], y as [|t| |]; try done. cbn [SFcompare]. f_equal. symmetry. destruct s, t; cbn [E cond_Zopp];
      first [apply Z.compare_lt_iff | apply Z.compare_gt_iff | apply Z.compare_eq_iff]; lia.
Qed.

Lemma le_E x y : num x → num y → f64_le x y = true ↔ E x ≤ E y.
Proof. intros. unfold f64_le, SFleb. rewrite compare_E by done. destruct (Z.compare_spec (E x) (E y)); split; intros; try done; lia. Qed.
Lemma lt_E x y : num x → num y → f64_lt x y = true ↔ E x < E y.
Proof. intros. unfold f64_lt, SFltb. rewrite compare_E by done. destruct (Z.compare_spec (E x) (E y)); split; intros; try done; lia. Qed.
Lemma eq_E x y : num x → num y → f64_eq x y = true ↔ E x = E y.
Proof. intros. unfold f64_eq, SFeqb. rewrite compare_E by done. destruct (Z.compare_spec (E x) (E y)); split; intros; try done; lia. Qed.

Lemma le_E_false x y : num x → num y → f64_le x y = false → E y < E x.
Proof. intros Hx Hy Hf. destruct (Z.le_gt_cases (E x) (E y)) as [H|H]; [|done]. apply le_E in H; [congruence|done..]. Qed.
Lemma lt_E_false x y : num x → num y → f64_lt x y = false → E y ≤ E x.
Proof. intros Hx Hy Hf. destruct (Z.lt_ge_cases (E x) (E y)) as [H|H]; [|lia]. apply lt_E in H; [congruence|done..]. Qed.

(** The result of a rounded operation, in terms of [E]. *)
Lemma ratio_E A B x : 0 < B → rounds_ratio A B x → num x ∧
  (∀ w, valid w → finite w → V w * B ≤ A → V w ≤ E x) ∧ (∀ w, valid w → finite w → A ≤ V w * B → E x ≤ V w).
Proof.
  intros HB (Hv & Hge & Hle). assert (num x) as Hn.
  { split; [done|]. destruct (Z.le_ge_cases 0 A) as [HA|HA].
    - assert (f64_le (S754_zero false) x = true) as H by (apply Hge; [done..|cbn; lia]). by destruct x.
    - assert (f64_le x (S754_zero false) = true) as H by (apply Hle; [done..|cbn; lia]). by destruct x. }
  split; [done|]. split; intros w Hw Fw HS; rewrite <-(E_finite w Fw); apply le_E; try done; try (by apply num_finite); [by apply Hge|by apply Hle].
Qed.

Lemma rounds_E S x : rounds S x → num x ∧
  (∀ w, valid w → finite w → V w ≤ S → V w ≤ E x) ∧ (∀ w, valid w → finite w → S ≤ V w → E x ≤ V w).
Proof.
  intros Hr. pose proof (ratio_scale S 1 x Z.lt_0_1 Hr) as Hs. destruct (ratio_E _ _ _ Z.lt_0_1 Hs) as (Hn & H1 & H2).
  split; [done|]. split; intros w Hw Fw HS; [apply (H1 w Hw Fw)|apply (H2 w Hw Fw)]; rewrite !Z.mul_1_r; exact HS.
Qed.

(** ** Floats of a given size *)

Definition f0 : float64 := f64_of_Z 0.
Definition f1 : float64 := f64_of_Z 1.

(** One, in the units of [V]. *)
Definition U : Z := 2 ^ Sc.
Lemma U_pos : 0 < U.
Proof. apply Z.pow_pos_nonneg; unfold Sc; lia. Qed.
Lemma U_eq : 2 ^ Sc = U.
Proof. done. Qed.
Lemma U_Big : 2 ^ 1024 * U = Big.
Proof. with_strategy transparent [Big] unfold U, Big. by rewrite <-Z.pow_add_r by (unfold Sc; lia). Qed.

Lemma f0_V : valid f0 ∧ finite f0 ∧ V f0 = 0.
Proof. done. Qed.
Lemma f1_V : valid f1 ∧ finite f1 ∧ V f1 = U.
Proof. destruct (of_Z_exact 1) as (Hv & Hf & HV); [unfold exact_int; lia|]. rewrite Z.mul_1_l in HV. done. Qed.

#[local] Opaque U f0 f1.

(** A float of the unit interval. *)
Definition unit_float (x : float64) : Prop := valid x ∧ finite x ∧ 0 ≤ V x ≤ U.

Lemma unit_f0 : unit_float f0.
Proof. destruct f0_V as (? & ? & HV). pose proof U_pos. split; [done|]. split; [done|]. rewrite HV. lia. Qed.
Lemma unit_f1 : unit_float f1.
Proof. destruct f1_V as (? & ? & HV). pose proof U_pos. split; [done|]. split; [done|]. rewrite HV. lia. Qed.
Lemma f0_num : num f0.
Proof. apply num_finite; apply f0_V. Qed.
Lemma f1_num : num f1.
Proof. apply num_finite; apply f1_V. Qed.
Lemma f0_E : E f0 = 0.
Proof. rewrite E_finite; apply f0_V. Qed.
Lemma f1_E : E f1 = U.
Proof. rewrite E_finite; apply f1_V. Qed.

(** What a rounded result keeps of the bounds of the exact one. *)
Lemma ratio_nonneg A B x : 0 < B → 0 ≤ A → rounds_ratio A B x → num x ∧ 0 ≤ E x.
Proof.
  intros HB HA Hr. destruct (ratio_E A B x HB Hr) as (Hn & Hge & _). split; [done|].
  destruct f0_V as (? & ? & HV). rewrite <-HV. apply Hge; [done..|]. rewrite HV. lia.
Qed.
Lemma rounds_nonneg S x : 0 ≤ S → rounds S x → num x ∧ 0 ≤ E x.
Proof. intros HS Hr. eapply (ratio_nonneg (S * 1) 1); [lia..|]. by apply ratio_scale. Qed.

(** A non-negative float that is not a NaN, possibly infinite. *)
Definition nonneg (x : float64) : Prop := num x ∧ 0 ≤ E x.

Lemma nonneg_cases x : nonneg x → (valid x ∧ finite x ∧ 0 ≤ V x) ∨ x = S754_infinity false.
Proof.
  intros [[Hv Hn] HE]. pose proof Big_pos. destruct (decide (finite x)) as [Hf|Hf].
  - left. rewrite E_finite in HE by done. done.
  - right. destruct x as [|[]| |]; done.
Qed.
Lemma inf_nonneg : nonneg (S754_infinity false).
Proof. split; [done|]. pose proof Big_pos. cbn [E cond_Zopp]. lia. Qed.

Lemma add_nonneg x y : nonneg x → nonneg y → nonneg (f64_add x y).
Proof.
  intros [(Hx & Fx & Px)| ->]%nonneg_cases [(Hy & Fy & Py)| ->]%nonneg_cases.
  - eapply rounds_nonneg; [|by apply add_rounds]. lia.
  - replace (f64_add x (S754_infinity false)) with (S754_infinity false) by (by destruct x). apply inf_nonneg.
  - replace (f64_add (S754_infinity false) y) with (S754_infinity false) by (by destruct y). apply inf_nonneg.
  - apply inf_nonneg.
Qed.

(** A quotient by a positive number, which may be infinite. *)
Lemma div_nonneg x y : valid x → finite x → 0 ≤ V x → nonneg y → 0 < E y → nonneg (f64_div x y).
Proof.
  intros Hx Fx Px [(Hy & Fy & Py)| ->]%nonneg_cases Hpos.
  - rewrite E_finite in Hpos by done. eapply ratio_nonneg; [exact Hpos| |by apply div_rounds]. pose proof U_pos. rewrite U_eq. nia.
  - assert (∀ s, nonneg (S754_zero s)) by done. destruct x; done.
Qed.

(** Powers of two are floats. *)
Lemma pow2_float k : 0 ≤ k ≤ 1023 → ∃ w, valid w ∧ finite w ∧ V w = 2 ^ k * U.
Proof.
  intros Hk. exists (S754_finite false (Z.to_pos (2 ^ 52)) (k - 52)). change (Z.to_pos (2 ^ 52)) with 4503599627370496%positive.
  split; [apply valid_spec; lia|]. split; [done|]. cbn [V cond_Zopp]. rewrite <-U_eq. change 4503599627370496 with (2 ^ 52).
  rewrite <-!Z.pow_add_r by (unfold Sc; lia). f_equal. lia.
Qed.

(** A finite float between 0 and [2^k]. *)
Definition within (k : Z) (x : float64) : Prop := valid x ∧ finite x ∧ 0 ≤ V x ≤ 2 ^ k * U.

Lemma within_0 x : within 0 x ↔ unit_float x.
Proof. unfold within, unit_float. change (2 ^ 0) with 1. by rewrite Z.mul_1_l. Qed.

Lemma ratio_within A B k x : 0 < B → 0 ≤ k ≤ 1023 → 0 ≤ A ≤ 2 ^ k * U * B → rounds_ratio A B x → within k x.
Proof.
  intros HB Hk HA Hr. destruct (ratio_nonneg A B x HB ltac:(lia) Hr) as [Hn H0]. destruct (pow2_float k Hk) as (w & Hw & Fw & HV).
  destruct (ratio_E A B x HB Hr) as (_ & _ & Hle). specialize (Hle w Hw Fw). rewrite HV in Hle. specialize (Hle ltac:(lia)).
  pose proof (V_bound w Hw Fw) as Hb. assert (finite x) as Hf by (apply finite_E; [done|lia]). rewrite E_finite in * by done.
  split; [apply Hn|]. split; [done|]. lia.
Qed.
Lemma rounds_within S k x : 0 ≤ k ≤ 1023 → 0 ≤ S ≤ 2 ^ k * U → rounds S x → within k x.
Proof. intros Hk HS Hr. eapply (ratio_within (S * 1) 1); [lia..|]. by apply ratio_scale. Qed.

Lemma of_Z_within z k : 0 ≤ k ≤ 1023 → 0 ≤ z ≤ 2 ^ k → within k (f64_of_Z z).
Proof. intros Hk Hz. eapply rounds_within; [done| |apply of_Z_rounds]. rewrite U_eq. pose proof U_pos. nia. Qed.

Lemma mul_within x y j k : 0 ≤ j → 0 ≤ k → j + k ≤ 1023 → within j x → within k y → within (j + k) (f64_mul x y).
Proof.
  intros Hj Hk Hjk (Vx & Fx & Px) (Vy & Fy & Py). pose proof U_pos. eapply ratio_within; [apply (U_pos)|lia| |by apply mul_rounds].
  rewrite Z.pow_add_r by lia. split; [nia|]. transitivity (2 ^ j * U * (2 ^ k * U)); [apply Z.mul_le_mono_nonneg; lia|]. nia.
Qed.

(** A possibly negative integer of the machine, as a float. *)
Lemma of_Z_bounded z k : 0 ≤ k ≤ 1023 → - 2 ^ k ≤ z ≤ 2 ^ k → valid (f64_of_Z z) ∧ finite (f64_of_Z z) ∧ V (f64_of_Z z) ≤ 2 ^ k * U.
Proof.
  intros Hk Hz. destruct (rounds_E _ _ (of_Z_rounds z)) as (Hn & Hge & Hle). destruct (pow2_float k Hk) as (w & Hw & Fw & HV).
  pose proof (V_bound w Hw Fw) as Hb. pose proof U_pos as HU. rewrite HV in Hb.
  assert (E (f64_of_Z z) ≤ 2 ^ k * U) as H1 by (rewrite <-HV; apply Hle; [done..|]; rewrite HV, U_eq; nia).
  assert (- (2 ^ k * U) ≤ E (f64_of_Z z)) as H2.
  { rewrite <-HV, <-opp_V. apply Hge; [by apply opp_valid|by destruct w|]. rewrite opp_V, HV, U_eq. nia. }
  assert (finite (f64_of_Z z)) as Hf by (apply finite_E; [done|lia]). rewrite E_finite in * by done. split; [apply Hn|done].
Qed.

(** Truncation of a non-negative float. *)
Lemma trunc_spec x : valid x → finite x → 0 ≤ V x → ∃ z, f64_round RTrunc x = Some z ∧ 0 ≤ z ∧ z * U ≤ V x < (z + 1) * U.
Proof.
  intros Hv Hf Hp. pose proof U_pos as HU. destruct x as [| | |s m e]; try done; [exists 0; cbn [V f64_round]; split; [done|]; lia|].
  cbn [f64_round]. apply valid_spec in Hv as (He & Hm & _). cbn [V] in *. pose proof (pow_pos_lt e ltac:(lia)) as HP.
  destruct s; cbn [cond_Zopp] in *; [exfalso; nia|]. eexists. split; [done|]. destruct (Z.leb_spec 0 e) as [H0|H0].
  - rewrite Z.pow_add_r, U_eq, Z.mul_assoc by (unfold Sc; lia). assert (0 < 2 ^ e) by lia. nia.
  - cbn [round_mag]. assert (0 < 2 ^ (- e)) as Hd by lia. assert (2 ^ (- e) * 2 ^ (e + Sc) = U) as HUe.
    { rewrite <-U_eq, <-Z.pow_add_r by (unfold Sc; lia). f_equal. lia. }
    pose proof (Z.div_mod (Z.pos m) (2 ^ (- e)) ltac:(lia)) as Hdm. pose proof (Z.mod_pos_bound (Z.pos m) (2 ^ (- e)) Hd).
    pose proof (Z.div_pos (Z.pos m) (2 ^ (- e)) ltac:(lia) Hd) as Hq. set (q := Z.pos m / 2 ^ (- e)) in *. set (P := 2 ^ (e + Sc)) in *.
    set (D := 2 ^ (- e)) in *. set (r := Z.pos m mod D) in *. rewrite <-HUe. split; [done|]. nia.
Qed.

(** The conversion to int64, when the value fits. *)
Lemma to_i64_spec x : valid x → finite x → 0 ≤ V x → V x < (max_i64 + 1) * U →
  0 ≤ f64_to_i64 x ∧ f64_to_i64 x * U ≤ V x < (f64_to_i64 x + 1) * U.
Proof.
  intros Hv Hf Hp Hlt. destruct (trunc_spec x Hv Hf Hp) as (z & Hz & H0 & Hb). unfold f64_to_i64. rewrite Hz. pose proof U_pos.
  assert (in_i64b z = true) as ->; [|done]. apply in_i64b_spec. assert (z ≤ max_i64) by nia. revert H0. mint.
Qed.

(** ** Integers that are floats *)

Definition is_int (z : Z) (x : float64) : Prop := valid x ∧ finite x ∧ V x = z * U.

Lemma of_Z_int z : exact_int z → is_int z (f64_of_Z z).
Proof. intros Hz. destruct (of_Z_exact z Hz) as (Hv & Hf & HV). rewrite U_eq in HV. done. Qed.

Lemma rounds_int z x : exact_int z → rounds (z * U) x → is_int z x.
Proof.
  intros Hz Hr. destruct (int_float z Hz) as (w & Hw & Fw & HV). rewrite U_eq in HV.
  destruct (rounds_exact _ _ w Hr Hw Fw HV) as [Hf HVx]. split; [apply Hr|done].
Qed.

Lemma add_int a b x y : is_int a x → is_int b y → exact_int (a + b) → is_int (a + b) (f64_add x y).
Proof.
  intros (Hx & Fx & Vx) (Hy & Fy & Vy) Hz. apply rounds_int; [done|]. replace ((a + b) * U) with (V x + V y) by lia. by apply add_rounds.
Qed.
Lemma sub_int a b x y : is_int a x → is_int b y → exact_int (a - b) → is_int (a - b) (f64_sub x y).
Proof.
  intros (Hx & Fx & Vx) (Hy & Fy & Vy) Hz. apply rounds_int; [done|]. replace ((a - b) * U) with (V x - V y) by lia. by apply sub_rounds.
Qed.

Lemma mul_int a b x y : is_int a x → is_int b y → exact_int (a * b) → is_int (a * b) (f64_mul x y).
Proof.
  intros (Hx & Fx & Vx) (Hy & Fy & Vy) Hz. destruct (int_float _ Hz) as (w & Hw & Fw & HV). rewrite U_eq in HV. pose proof U_pos as HU.
  destruct (ratio_E _ _ _ HU (mul_rounds x y Hx Hy Fx Fy)) as (Hn & Hge & Hle). specialize (Hge w Hw Fw). specialize (Hle w Hw Fw).
  rewrite HV, Vx, Vy in Hge, Hle. specialize (Hge ltac:(nia)). specialize (Hle ltac:(nia)). pose proof (V_bound w Hw Fw) as Hb. rewrite HV in Hb.
  assert (finite (f64_mul x y)) as Hf by (apply finite_E; [done|lia]). rewrite E_finite in * by done. split; [apply Hn|]. split; [done|]. lia.
Qed.

Lemma int_le a b x y : is_int a x → is_int b y → f64_le x y = (a <=? b).
Proof.
  intros (Hx & Fx & Vx) (Hy & Fy & Vy). pose proof U_pos. apply eq_true_iff_eq. rewrite le_V, Z.leb_le, Vx, Vy by done. nia.
Qed.
Lemma int_lt a b x y : is_int a x → is_int b y → f64_lt x y = (a <? b).
Proof.
  intros (Hx & Fx & Vx) (Hy & Fy & Vy). pose proof U_pos. apply eq_true_iff_eq. rewrite lt_V, Z.ltb_lt, Vx, Vy by done. nia.
Qed.
