(* ===== verification/Budget.v ===== *)
(** * Budget: pacing of campaign spend ([budget/budget.go])

    Amounts, weights and rates are binary64 (Float64.v, FloatOrder.v).  A time is what the code reads of it: the
    nanoseconds since 1970 and, for daily pacing, the nanoseconds since local midnight, which exceed a day when the
    clocks change.  An index out of range would be [None].

    Shown, for every rounding that occurs: the curve that [New] builds from weights that are neither NaN nor positive infinity starts
    at 0, ends at 1, never falls and stays between ([curve_monotone]); no decision method panics or returns a NaN, the plan is never
    negative, the pacing multiplier is between 0 and 1, it is 0 and the throttle on when the spend is not a finite number or the budget
    is used up, and 1 while the throttle is off ([pacing_safe]).
    [nan_weight_fails_open]: one NaN among the weights disables the protection ([number_weight_throttles] is the same with a number);
    [nan_total_accepted], [nan_alpha_poisons] show what other values that are not numbers do.  [Total] and [Period] are the fields.
    Products and sums are rounded separately, as on amd64. [lastTime] is only compared with the zero time and subtracted; [emaRate] is written by one caller, as the code requires. *)

From Stdlib Require Import ZArith Lia Bool SpecFloat.
From stdpp Require Import base tactics numbers list.
From S2P Require Import Prelude Float64 FloatOrder.

#[local] Open Scope Z_scope.

Definition isFinite (x : float64) : bool := negb (f64_is_nan x) && negb (f64_is_inf x).

Record Pacer := MkPacer {
  total : float64;
  period : Z;
  buckets : Z;
  weight : list float64;
  tolerance : float64;
  emaAlpha : float64;
  emaRate : float64;
  lastSpend : float64;
  lastTime : option Z;      (* [None]: the zero time *)
  rawWeights : list float64;
}.

Inductive Option_ :=
| WithBuckets (n : Z)
| WithWeights (w : list float64)
| WithTolerance (f : float64)
| WithSmoothing (alpha : float64).

Definition apply_option (p : Pacer) (o : Option_) : Pacer :=
  match o with
  | WithBuckets n =>
      if 0 <? n then MkPacer (total p) (period p) n (weight p) (tolerance p) (emaAlpha p) (emaRate p) (lastSpend p) (lastTime p) (rawWeights p)
      else p
  | WithWeights w => MkPacer (total p) (period p) (buckets p) (weight p) (tolerance p) (emaAlpha p) (emaRate p) (lastSpend p) (lastTime p) w
  | WithTolerance f =>
      if f64_ge f f0 then MkPacer (total p) (period p) (buckets p) (weight p) f (emaAlpha p) (emaRate p) (lastSpend p) (lastTime p) (rawWeights p)
      else p
  | WithSmoothing a => MkPacer (total p) (period p) (buckets p) (weight p) (tolerance p) a (emaRate p) (lastSpend p) (lastTime p) (rawWeights p)
  end.

(** ** The curve *)

(** The weight of bucket [i]. *)
Definition raw_weight (raw : list float64) (i : nat) : float64 :=
  match raw !! i with
  | Some v => if f64_lt v f0 then f0 else v
  | None => f1
  end.
Definition sum_of (w : list float64) : float64 := fold_left f64_add w f0.

(** [cum += v / sum; if cum > 1 { cum = 1 }; p.weight[i+1] = cum] *)
Fixpoint cumulate (sum cum : float64) (w : list float64) : list float64 :=
  match w with
  | [] => []
  | v :: w =>
      let cum := f64_add cum (f64_div v sum) in
      let cum := if f64_gt cum f1 then f1 else cum in
      cum :: cumulate sum cum w
  end.

Definition curve (buckets : Z) (raw : list float64) : list float64 :=
  let w := raw_weight raw <$> seq 0 (Z.to_nat buckets) in
  let sum := sum_of w in
  let '(w, sum) :=
    if f64_le sum f0 then ((λ _, f1) <$> w, f64_of_Z (Z.of_nat (length w))) else (w, sum) in
  <[Z.to_nat buckets := f1]> (f0 :: cumulate sum f0 w).

Definition buildCurve (p : Pacer) : Pacer :=
  MkPacer (total p) (period p) (buckets p) (curve (buckets p) (rawWeights p)) (tolerance p) (emaAlpha p) (emaRate p) (lastSpend p) (lastTime p) (rawWeights p).

(** [None] is [ErrBudget]. *)
Definition New (total_ : float64) (period_ : Z) (opts : list Option_) : option Pacer :=
  if f64_le total_ f0 || (period_ <=? 0) then None
  else
    let p := fold_left apply_option opts (MkPacer total_ period_ 24 [] (f64_div (f64_of_Z 5) (f64_of_Z 100)) f0 f0 f0 None []) in
    let p := if buckets p <=? 0 then MkPacer (total p) (period p) 24 (weight p) (tolerance p) (emaAlpha p) (emaRate p) (lastSpend p) (lastTime p) (rawWeights p) else p in
    Some (buildCurve p).

(** ** Plan *)

Definition dailyPeriod : Z := 24 * 3600 * 10 ^ 9.

Record time := Time { unixNano : Z; sinceMidnight : Z }.

Definition fractionOfPeriod (p : Pacer) (t : time) : float64 :=
  if period p =? dailyPeriod then
    let f := f64_div (f64_of_Z (sinceMidnight t)) (f64_of_Z dailyPeriod) in
    let f := if f64_lt f f0 then f0 else f in
    if f64_ge f f1 then f64_div (f64_of_Z 999999) (f64_of_Z 1000000) else f
  else
    let f := f64_div (f64_of_Z (Z.rem (unixNano t) (period p))) (f64_of_Z (period p)) in
    if f64_lt f f0 then f0 else f.

(** A slice at an index. *)
Definition at_ (l : list float64) (i : Z) : option float64 := if i <? 0 then None else l !! Z.to_nat i.

Definition targetFraction (p : Pacer) (t : time) : option float64 :=
  let f := fractionOfPeriod p t in
  let idx := f64_mul f (f64_of_Z (buckets p)) in
  let i := f64_to_i64 idx in
  let i := if buckets p <=? i then buckets p - 1 else i in
  lo ← at_ (weight p) i;
  hi ← at_ (weight p) (i + 1);
  let frac := f64_sub idx (f64_of_Z i) in
  let frac := if f64_lt frac f0 then f0 else if f64_gt frac f1 then f1 else frac in
  Some (f64_add lo (f64_mul (f64_sub hi lo) frac)).

Definition TargetSpend (p : Pacer) (t : time) : option float64 :=
  x ← targetFraction p t; Some (f64_mul x (total p)).

Definition sanitizeSpend (actualSpend : float64) : float64 :=
  if negb (isFinite actualSpend) || f64_lt actualSpend f0 then f0 else actualSpend.

Definition deviation (actualSpend planned : float64) : float64 :=
  if f64_le planned f0 then f0 else f64_div (f64_sub (sanitizeSpend actualSpend) planned) planned.
Definition Deviation (p : Pacer) (actualSpend : float64) (t : time) : option float64 :=
  planned ← TargetSpend p t; Some (deviation actualSpend planned).

Definition OnPlan (p : Pacer) (actualSpend : float64) (t : time) : option bool :=
  d ← Deviation p actualSpend t; Some (f64_le (f64_abs d) (tolerance p)).

Definition ShouldThrottle (p : Pacer) (actualSpend : float64) (t : time) : option bool :=
  if negb (isFinite actualSpend) then Some true
  else
    let spend := sanitizeSpend actualSpend in
    if f64_ge spend (total p) then Some true
    else d ← Deviation p spend t; Some (f64_gt d (tolerance p)).

Definition PaceRatio (p : Pacer) (actualSpend : float64) (t : time) : option float64 :=
  if negb (isFinite actualSpend) then Some f0
  else
    let spend := sanitizeSpend actualSpend in
    if f64_ge spend (total p) then Some f0
    else
      dev ← Deviation p spend t;
      if f64_le dev (tolerance p) then Some f1
      else
        let r := f64_sub f1 (f64_sub dev (tolerance p)) in
        Some (if f64_lt r f0 then f0 else r).

(** ** Smoothing *)

(** [Duration.Seconds()]: whole seconds plus the rest. *)
Definition Seconds (d : Z) : float64 :=
  f64_add (f64_of_Z (Z.quot d (10 ^ 9))) (f64_div (f64_of_Z (Z.rem d (10 ^ 9))) (f64_of_Z (10 ^ 9))).

Definition Smooth (p : Pacer) (actualSpend : float64) (t : Z) : Pacer * float64 :=
  match lastTime p with
  | None =>
      (MkPacer (total p) (period p) (buckets p) (weight p) (tolerance p) (emaAlpha p) (emaRate p) actualSpend (Some t) (rawWeights p), f0)
  | Some last =>
      let dt := Seconds (t - last) in
      if f64_le dt f0 then (p, emaRate p)
      else
        let inst := f64_div (f64_sub actualSpend (lastSpend p)) dt in
        let cur := emaRate p in
        let next :=
          if negb (isFinite inst) then cur
          else if f64_le (emaAlpha p) f0 then inst
          else if f64_eq cur f0 then inst
          else f64_add (f64_mul (emaAlpha p) inst) (f64_mul (f64_sub f1 (emaAlpha p)) cur) in
        (MkPacer (total p) (period p) (buckets p) (weight p) (tolerance p) (emaAlpha p) next actualSpend (Some t) (rawWeights p), next)
  end.
Definition SmoothedRate (p : Pacer) : float64 := emaRate p.

(** ** The curve is a plan *)

#[local] Opaque U Big f0 f1.

(** [cum += q; if cum > 1 { cum = 1 }] neither falls nor passes 1. *)
Lemma cum_step a q : unit_float a → nonneg q →
  let c := f64_add a q in let c := if f64_gt c f1 then f1 else c in unit_float c ∧ V a ≤ V c.
Proof.
  intros (Ha & Fa & Pa) Hq. cbn. assert (nonneg (f64_add a q) ∧ V a ≤ E (f64_add a q)) as [Hn Hge].
  { split; [apply add_nonneg; [split; [by apply num_finite|]|done]; rewrite E_finite by done; lia|].
    destruct (nonneg_cases q Hq) as [(Hvq & Fq & Pq)| ->].
    - destruct (rounds_E _ _ (add_rounds a q Ha Hvq Fa Fq)) as (_ & H & _). apply H; [done..|]. lia.
    - pose proof (V_bound a Ha Fa). destruct a; try done; cbn [f64_add SFadd E cond_Zopp]; lia. }
  destruct (f64_gt _ f1) eqn:Hc; [split; [apply unit_f1|]; rewrite (proj2 (proj2 f1_V)); lia|].
  apply lt_E_false in Hc; [|apply f1_num|apply Hn]. rewrite f1_E in Hc. pose proof U_pos. pose proof U_Big. destruct Hn as [Hn Hp].
  assert (finite (f64_add a q)) as Hf by (apply finite_E; [done|]; lia). rewrite E_finite in * by done.
  split; [|done]. split; [apply Hn|]. done.
Qed.

(** A plan: starts in the unit interval and rises within it. *)
Fixpoint rising (a : float64) (l : list float64) : Prop :=
  match l with [] => True | b :: l => unit_float b ∧ V a ≤ V b ∧ rising b l end.

Lemma cumulate_rising sum w : nonneg sum → 0 < E sum → Forall (λ v, valid v ∧ finite v ∧ 0 ≤ V v) w → ∀ a, unit_float a →
  rising a (cumulate sum a w).
Proof.
  intros Hs Hpos Hw. induction Hw as [|v w (Hv & Fv & Pv) _ IH]; intros a Ha; [done|]. cbn [cumulate rising].
  destruct (cum_step a (f64_div v sum) Ha) as [Hc Hle]; [by apply div_nonneg|]. split; [exact Hc|]. split; [exact Hle|]. by apply IH.
Qed.

Lemma cumulate_length sum a w : length (cumulate sum a w) = length w.
Proof. revert a. induction w as [|v w IH]; intros a; [done|]. cbn. by rewrite IH. Qed.

(** Pinning the last point at 1 keeps a plan. *)
Lemma rising_pin l : ∀ a, unit_float a → rising a l → l ≠ [] → rising a (<[pred (length l) := f1]> l).
Proof.
  induction l as [|b l IH]; intros a Ha Hr Hl; [done|]. destruct Hr as (Hb & Hle & Hr). destruct l as [|c l].
  - cbn. split; [apply unit_f1|]. split; [|done]. rewrite (proj2 (proj2 f1_V)). apply Ha.
  - split; [done|]. split; [done|]. by apply (IH b).
Qed.

Lemma rising_lookup l : ∀ a, unit_float a → rising a l → ∀ i x y,
  (a :: l) !! i = Some x → (a :: l) !! S i = Some y → unit_float x ∧ unit_float y ∧ V x ≤ V y.
Proof.
  induction l as [|b l IH]; intros a Ha Hr i x y Hx Hy; [done|]. destruct Hr as (Hb & Hle & Hr). destruct i as [|i].
  - cbn in Hx, Hy. simplify_eq. done.
  - by apply (IH b Hb Hr i).
Qed.

(** The weights that are numbers: neither NaN nor positive infinity. *)
Definition good_weight (v : float64) : Prop := valid v ∧ f64_is_nan v = false ∧ v ≠ S754_infinity false.

Lemma raw_weight_ok raw i : Forall good_weight raw → valid (raw_weight raw i) ∧ finite (raw_weight raw i) ∧ 0 ≤ V (raw_weight raw i).
Proof.
  intros Hg. unfold raw_weight. destruct (raw !! i) as [v|] eqn:Hi.
  - destruct (Forall_lookup_1 _ _ _ _ Hg Hi) as (Hv & Hn & Hinf). destruct (f64_lt v f0) eqn:Hlt; [by destruct f0_V as (? & ? & ->)|].
    apply lt_E_false in Hlt; [|by split|apply f0_num]. rewrite f0_E in Hlt.
    destruct (nonneg_cases v) as [?| ->]; [by split|done..].
  - pose proof unit_f1 as (? & ? & ?). split; [done|]. split; [done|]. lia.
Qed.

Lemma sum_of_nonneg w : Forall (λ v, valid v ∧ finite v ∧ 0 ≤ V v) w → ∀ a, nonneg a → nonneg (fold_left f64_add w a).
Proof.
  induction 1 as [|v w (Hv & Fv & Pv) _ IH]; intros a Ha; [done|]. cbn [fold_left]. apply IH, add_nonneg; [done|].
  split; [by apply num_finite|]. by rewrite E_finite.
Qed.

(** Before the last point is pinned. *)
Lemma curve_points bs raw : 0 < bs → Forall good_weight raw →
  ∃ l, curve bs raw = f0 :: l ∧ length l = Z.to_nat bs ∧ rising f0 l ∧ l !! pred (Z.to_nat bs) = Some f1.
Proof.
  intros Hb Hg. unfold curve. set (w := raw_weight raw <$> seq 0 (Z.to_nat bs)).
  assert (Forall (λ v, valid v ∧ finite v ∧ 0 ≤ V v) w) as Hw by (apply Forall_fmap, Forall_forall; intros i _; by apply raw_weight_ok).
  assert (length w = Z.to_nat bs) as Hlen by (unfold w; by rewrite length_fmap, length_seq).
  assert (nonneg (sum_of w)) as Hsum by (apply sum_of_nonneg; [done|]; split; [apply f0_num|rewrite f0_E; done]).
  assert (∀ sum v, length v = Z.to_nat bs → nonneg sum → 0 < E sum → Forall (λ v, valid v ∧ finite v ∧ 0 ≤ V v) v →
    ∃ l, <[Z.to_nat bs := f1]> (f0 :: cumulate sum f0 v) = f0 :: l ∧ length l = Z.to_nat bs ∧ rising f0 l ∧ l !! pred (Z.to_nat bs) = Some f1) as Hpin.
  { intros sum v Hl Hs Hpos Hv. exists (<[pred (Z.to_nat bs) := f1]> (cumulate sum f0 v)). pose proof (cumulate_length sum f0 v) as Hc. rewrite Hl in Hc.
    split; [destruct (Z.to_nat bs) eqn:Hz; [lia|done]|]. split; [by rewrite length_insert|]. split.
    - rewrite <-Hc. apply rising_pin; [apply unit_f0|apply cumulate_rising; [done..|apply unit_f0]|]. intros Heq. rewrite Heq in Hc. cbn in Hc. lia.
    - apply list_lookup_insert_eq. lia. }
  destruct (f64_le (sum_of w) f0) eqn:Hz.
  - apply Hpin; [by rewrite length_fmap| | |].
    + eapply rounds_nonneg; [|apply of_Z_rounds]. rewrite U_eq. pose proof U_pos. nia.
    + destruct (rounds_E _ _ (of_Z_rounds (Z.of_nat (length w)))) as (_ & H & _). destruct f1_V as (? & ? & HV). pose proof U_pos.
      apply Z.lt_le_trans with (V f1); [lia|]. apply H; [done..|]. rewrite HV, U_eq. nia.
    + apply Forall_fmap, Forall_forall. intros i _. pose proof unit_f1 as (? & ? & ?). cbn. split; [done|]. split; [done|]. lia.
  - apply Hpin; try done. apply le_E_false in Hz; [|apply Hsum|apply f0_num]. by rewrite f0_E in Hz.
Qed.

(** The curve built from weights of which none is a NaN or positive infinity has one point more than buckets, starts at 0, ends at 1, and
    neither falls nor leaves the unit interval, in spite of every rounding and even when the sum of the weights overflows. *)
Theorem curve_monotone bs raw : 0 < bs → Forall good_weight raw →
  length (curve bs raw) = S (Z.to_nat bs) ∧ curve bs raw !! 0%nat = Some f0 ∧ curve bs raw !! Z.to_nat bs = Some f1 ∧
  ∀ i x y, curve bs raw !! i = Some x → curve bs raw !! S i = Some y →
    f64_le f0 x = true ∧ f64_le x y = true ∧ f64_le y f1 = true.
Proof.
  intros Hb Hg. destruct (curve_points bs raw Hb Hg) as (l & -> & Hl & Hr & Hlast). split; [cbn; by rewrite Hl|]. split; [done|].
  split; [destruct (Z.to_nat bs) eqn:Hz; [lia|done]|]. intros i x y Hx Hy.
  destruct (rising_lookup l f0 unit_f0 Hr i x y Hx Hy) as ((Vx & Fx & Px) & (Vy & Fy & Py) & Hle).
  destruct f0_V as (? & ? & HV0), f1_V as (? & ? & HV1). rewrite !le_V by done. lia.
Qed.

(** ** Decisions are safe *)

(** [frac] clamped to the unit interval. *)
Lemma clamp_unit x : num x → unit_float (if f64_lt x f0 then f0 else if f64_gt x f1 then f1 else x).
Proof.
  intros Hn. destruct (f64_lt x f0) eqn:H0; [apply unit_f0|]. destruct (f64_gt x f1) eqn:Hg; [apply unit_f1|].
  apply (lt_E_false x f0 Hn f0_num) in H0. apply (lt_E_false f1 x f1_num Hn) in Hg. rewrite f0_E, f1_E in *. pose proof U_Big. pose proof U_pos.
  assert (finite x) as Hf by (apply finite_E; [done|lia]). rewrite E_finite in * by done. split; [apply Hn|done].
Qed.

(** Truncation of a moderate non-negative float. *)
Lemma trunc_nonneg x : within 54 x → 0 ≤ f64_to_i64 x.
Proof. intros (Hv & Hf & Hp). apply to_i64_spec; [done..|lia|]. pose proof U_pos. unfold max_i64. nia. Qed.

(** A quotient floored at 0 and at most 2. *)
Lemma floor_div x y : valid x → finite x → valid y → finite y → 0 < V y → V x ≤ 2 * V y →
  within 1 (let f := f64_div x y in if f64_lt f f0 then f0 else f).
Proof.
  intros Hx Fx Hy Fy Py Hle. cbn zeta. destruct (ratio_E _ _ _ Py (div_rounds x y Hx Hy Fx Fy Py)) as (Hn & _ & Hup).
  destruct (f64_lt _ f0) eqn:H0; [destruct f0_V as (? & ? & HV); split; [done|]; split; [done|]; rewrite HV; pose proof U_pos; lia|].
  apply (lt_E_false _ f0 Hn f0_num) in H0. rewrite f0_E in H0. destruct (pow2_float 1 ltac:(lia)) as (w & Hw & Fw & HV). pose proof U_pos.
  specialize (Hup w Hw Fw). rewrite HV, U_eq in Hup. specialize (Hup ltac:(change (2 ^ 1) with 2; nia)). pose proof (V_bound w Hw Fw) as Hb.
  rewrite HV in Hb. assert (finite (f64_div x y)) as Hf by (apply finite_E; [done|lia]). rewrite E_finite in * by done.
  split; [apply Hn|]. done.
Qed.

Record pacer_ok (p : Pacer) : Prop := {
  ok_total : valid (total p) ∧ finite (total p) ∧ 0 < V (total p) ≤ 2 ^ 1022 * U;
  ok_period : 0 < period p ≤ max_i64;
  ok_buckets : 0 < buckets p ≤ 2 ^ 53;
  ok_weight : ∃ l, weight p = f0 :: l ∧ length l = Z.to_nat (buckets p) ∧ rising f0 l;
  ok_tolerance : nonneg (tolerance p);
}.

(** A time as the clock gives it. *)
Definition time_ok (t : time) : Prop := in_i64 (unixNano t) ∧ in_i64 (sinceMidnight t).

Lemma daily_end : within 1 (f64_div (f64_of_Z 999999) (f64_of_Z 1000000)).
Proof.
  destruct (of_Z_exact 999999) as (Va & Fa & HVa); [unfold exact_int; lia|]. destruct (of_Z_exact 1000000) as (Vb & Fb & HVb); [unfold exact_int; lia|].
  pose proof U_pos. rewrite U_eq in HVa, HVb. eapply ratio_within; [|lia| |apply (div_rounds _ _ Va Vb Fa Fb)]; rewrite HVb; [lia| |lia]. rewrite HVa, U_eq. nia.
Qed.

(** Time of day over a day, whatever it is, ends within the day. *)
Lemma daily_within x y : valid x → finite x → valid y → finite y → 0 < V y →
  within 1 (let f := f64_div x y in let f := if f64_lt f f0 then f0 else f in
    if f64_ge f f1 then f64_div (f64_of_Z 999999) (f64_of_Z 1000000) else f).
Proof.
  intros Hx Fx Hy Fy Py. destruct (ratio_E _ _ _ Py (div_rounds x y Hx Hy Fx Fy Py)) as (Hn & _ & _). cbn zeta.
  assert (nonneg (if f64_lt (f64_div x y) f0 then f0 else f64_div x y)) as Hg.
  { destruct (f64_lt _ f0) eqn:H0; [split; [apply f0_num|]; rewrite f0_E; lia|]. apply (lt_E_false _ f0 Hn f0_num) in H0. rewrite f0_E in H0. done. }
  generalize dependent (if f64_lt (f64_div x y) f0 then f0 else f64_div x y). intros g [Hg H0]. destruct (f64_ge g f1) eqn:H1; [apply daily_end|].
  apply (le_E_false f1 g f1_num Hg) in H1. rewrite f1_E in H1. pose proof U_pos. pose proof U_Big. assert (finite g) as Hf by (apply finite_E; [done|lia]).
  rewrite E_finite in * by done. split; [apply Hg|]. split; [done|]. lia.
Qed.

Lemma fraction_within p t : pacer_ok p → time_ok t → within 1 (fractionOfPeriod p t).
Proof.
  intros Hok [Hn Hm]. pose proof (ok_period p Hok) as Hp. pose proof U_pos as HU. unfold fractionOfPeriod. destruct (Z.eqb_spec (period p) dailyPeriod) as [He|He].
  - destruct (of_Z_exact dailyPeriod) as (Vd & Fd & HVd); [unfold exact_int, dailyPeriod; lia|]. rewrite U_eq in HVd.
    assert (-2 ^ 63 ≤ sinceMidnight t ≤ 2 ^ 63) as Hr by (revert Hm; mint).
    destruct (of_Z_bounded (sinceMidnight t) 63 ltac:(lia) Hr) as (Vs & Fs & _). apply (daily_within _ _ Vs Fs Vd Fd). rewrite HVd. unfold dailyPeriod. lia.
  - set (r := Z.rem (unixNano t) (period p)). pose proof (Z.rem_bound_abs (unixNano t) (period p) ltac:(lia)) as Hr. fold r in Hr.
    set (k := Z.log2 (period p)). pose proof (Z.log2_spec (period p) ltac:(lia)) as [Hlo Hhi]. fold k in Hlo, Hhi. pose proof (Z.log2_nonneg (period p)) as Hk. fold k in Hk.
    assert (k < 63) as Hk63 by (apply Z.log2_lt_pow2; [lia|]; revert Hp; mint). rewrite Z.pow_succ_r in Hhi by lia.
    destruct (of_Z_bounded r (Z.succ k) ltac:(lia)) as (Vr & Fr & Hrle); [rewrite Z.pow_succ_r by lia; lia|].
    destruct (of_Z_within (period p) (Z.succ k) ltac:(lia)) as (Vp & Fp & _); [rewrite Z.pow_succ_r by lia; lia|].
    assert (2 ^ k * U ≤ V (f64_of_Z (period p))) as Hge.
    { destruct (rounds_E _ _ (of_Z_rounds (period p))) as (_ & Hge & _). destruct (pow2_float k ltac:(lia)) as (w & Hw & Fw & HV).
      rewrite <-(E_finite _ Fp), <-HV. apply Hge; [assumption..|]. rewrite HV, U_eq. nia. }
    rewrite Z.pow_succ_r in Hrle by lia. apply (floor_div _ _ Vr Fr Vp Fp); nia.
Qed.

Lemma at_ok l i : 0 ≤ i < Z.of_nat (length l) → ∃ x, at_ l i = Some x ∧ l !! Z.to_nat i = Some x.
Proof.
  intros Hi. unfold at_. destruct (Z.ltb_spec i 0); [lia|]. destruct (lookup_lt_is_Some_2 l (Z.to_nat i)) as [x Hx]; [lia|]. by exists x.
Qed.

(** The interpolation between two points of the curve. *)
Lemma interpolate_within lo hi frac : unit_float lo → unit_float hi → V lo ≤ V hi → unit_float frac →
  within 1 (f64_add lo (f64_mul (f64_sub hi lo) frac)).
Proof.
  intros (Vl & Fl & Pl) (Vh & Fh & Ph) Hle Hf. assert (within 0 (f64_sub hi lo)) as Hd.
  { eapply rounds_within; [lia| |by apply sub_rounds]. lia. }
  apply within_0 in Hf. destruct (mul_within _ _ 0 0 ltac:(lia) ltac:(lia) ltac:(lia) Hd Hf) as (Vm & Fm & Pm). pose proof U_pos.
  eapply rounds_within; [lia| |by apply add_rounds]. lia.
Qed.

Lemma target_within p t : pacer_ok p → time_ok t → ∃ x, targetFraction p t = Some x ∧ within 1 x.
Proof.
  intros Hok Ht. pose proof (fraction_within p t Hok Ht) as Hf. pose proof (ok_buckets p Hok) as Hb. destruct (ok_weight p Hok) as (l & Hw & Hl & Hr).
  unfold targetFraction. pose proof (of_Z_within (buckets p) 53 ltac:(lia) ltac:(lia)) as Hbf.
  pose proof (mul_within _ _ 1 53 ltac:(lia) ltac:(lia) ltac:(lia) Hf Hbf) as Hidx. change (1 + 53) with 54 in Hidx.
  set (idx := f64_mul _ _) in *. pose proof (trunc_nonneg idx Hidx) as Hi0. cbn zeta.
  set (i := if buckets p <=? f64_to_i64 idx then buckets p - 1 else f64_to_i64 idx). assert (0 ≤ i < buckets p) as Hi.
  { unfold i. destruct (Z.leb_spec (buckets p) (f64_to_i64 idx)); lia. }
  clearbody i. destruct (at_ok (weight p) i) as (lo & Hlo & Llo); [rewrite Hw; cbn [length]; lia|].
  destruct (at_ok (weight p) (i + 1)) as (hi & Hhi & Lhi); [rewrite Hw; cbn [length]; lia|]. rewrite Hlo, Hhi. cbn [mbind option_bind].
  replace (Z.to_nat (i + 1)) with (S (Z.to_nat i)) in Lhi by lia. rewrite Hw in Llo, Lhi.
  destruct (rising_lookup l f0 unit_f0 Hr _ _ _ Llo Lhi) as (Ulo & Uhi & Hle). eexists. split; [reflexivity|].
  apply interpolate_within; [assumption..|]. apply clamp_unit. destruct Hidx as (Vi & Fi & _).
  destruct (of_Z_within i 53 ltac:(lia) ltac:(lia)) as (Vz & Fz & _). by destruct (rounds_E _ _ (sub_rounds _ _ Vi Vz Fi Fz)).
Qed.

Lemma TargetSpend_within p t : pacer_ok p → time_ok t → ∃ x, TargetSpend p t = Some x ∧ within 1023 x.
Proof.
  intros Hok Ht. destruct (target_within p t Hok Ht) as (x & Hx & Wx). unfold TargetSpend. rewrite Hx. cbn [mbind option_bind]. eexists. split; [reflexivity|].
  apply (mul_within x (total p) 1 1022); [lia..|done|]. destruct (ok_total p Hok) as (? & ? & ?). split; [done|]. split; [done|]. lia.
Qed.

(** A finite non-negative spend. *)
Definition spend_ok (s : float64) : Prop := valid s ∧ finite s ∧ 0 ≤ V s.

Lemma isFinite_spec x : isFinite x = true ↔ finite x.
Proof. by destruct x. Qed.

Lemma sanitize_ok a : valid a → spend_ok (sanitizeSpend a).
Proof.
  intros Hv. assert (spend_ok f0) as H0 by (destruct f0_V as (? & ? & HV); split; [done|]; split; [done|]; rewrite HV; done).
  unfold sanitizeSpend. destruct (isFinite a) eqn:Hf; cbn [negb orb]; [|done]. apply isFinite_spec in Hf.
  destruct (f64_lt a f0) eqn:Hlt; [done|]. apply (lt_E_false a f0 (num_finite a Hv Hf) f0_num) in Hlt. rewrite f0_E, E_finite in Hlt by done. done.
Qed.

Lemma sanitize_id s : spend_ok s → sanitizeSpend s = s.
Proof.
  intros (Hv & Hf & Hp). unfold sanitizeSpend. rewrite (proj2 (isFinite_spec s) Hf). cbn [negb orb]. destruct (f64_lt s f0) eqn:Hlt; [|done].
  apply (lt_E s f0 (num_finite s Hv Hf) f0_num) in Hlt. rewrite f0_E, E_finite in Hlt by done. lia.
Qed.

Lemma deviation_num a planned : valid a → within 1023 planned → num (deviation a planned).
Proof.
  intros Ha (Vp & Fp & Pp). unfold deviation. destruct (f64_le planned f0) eqn:Hle; [apply f0_num|].
  apply (le_E_false planned f0 (num_finite _ Vp Fp) f0_num) in Hle. rewrite f0_E, E_finite in Hle by done.
  destruct (sanitize_ok a Ha) as (Vs & Fs & Ps). set (s := sanitizeSpend a) in *.
  destruct (rounds_E _ _ (sub_rounds s planned Vs Vp Fs Fp)) as (Hn & Hge & Hup).
  assert (finite (f64_sub s planned)) as Hf.
  { apply finite_E; [done|]. pose proof (V_bound s Vs Fs). pose proof (V_bound planned Vp Fp).
    specialize (Hup s Vs Fs ltac:(lia)). specialize (Hge (SFopp planned) (opp_valid _ Vp)). rewrite opp_V in Hge.
    specialize (Hge ltac:(by destruct planned) ltac:(lia)). lia. }
  by destruct (ratio_E _ _ _ Hle (div_rounds _ _ (proj1 Hn) Vp Hf Fp Hle)).
Qed.

Lemma Deviation_num p a t : pacer_ok p → time_ok t → valid a → ∃ d, Deviation p a t = Some d ∧ num d.
Proof.
  intros Hok Ht Ha. destruct (TargetSpend_within p t Hok Ht) as (x & Hx & Wx). unfold Deviation. rewrite Hx. cbn [mbind option_bind].
  eexists. split; [reflexivity|]. by apply deviation_num.
Qed.

(** [1 - (dev - tolerance)], floored at 0, when the deviation passes the tolerance. *)
Lemma taper_unit dev tol : num dev → nonneg tol → f64_le dev tol = false →
  let r := f64_sub f1 (f64_sub dev tol) in unit_float (if f64_lt r f0 then f0 else r).
Proof.
  intros Hd [Ht Pt] Hle. cbn zeta. apply (le_E_false dev tol Hd Ht) in Hle. pose proof (E_bound dev Hd) as Hbd.
  assert (finite tol) as Ft by (apply finite_E; [done|lia]). rewrite (E_finite tol Ft) in *.
  assert (nonneg (f64_sub dev tol)) as Hs.
  { destruct (nonneg_cases dev) as [(Vd & Fd & Pd)| ->]; [split; [done|lia]|..].
    - rewrite (E_finite dev Fd) in Hle. eapply rounds_nonneg; [|apply (sub_rounds dev tol Vd (proj1 Ht) Fd Ft)]. lia.
    - replace (f64_sub (S754_infinity false) tol) with (S754_infinity false) by (by destruct tol). apply inf_nonneg. }
  destruct f1_V as (V1 & F1 & HV1). destruct (nonneg_cases _ Hs) as [(Vs & Fs & Ps)|Hinf].
  - destruct (rounds_E _ _ (sub_rounds f1 (f64_sub dev tol) V1 Vs F1 Fs)) as (Hn & _ & Hup). specialize (Hup f1 V1 F1). rewrite HV1 in Hup. specialize (Hup ltac:(lia)).
    destruct (f64_lt _ f0) eqn:Hlt; [apply unit_f0|]. apply (lt_E_false _ f0 Hn f0_num) in Hlt. rewrite f0_E in Hlt. pose proof U_Big. pose proof U_pos.
    assert (finite (f64_sub f1 (f64_sub dev tol))) as Hf by (apply finite_E; [done|lia]). rewrite E_finite in * by done. split; [apply Hn|done].
  - rewrite Hinf. replace (f64_sub f1 (S754_infinity false)) with (S754_infinity true) by (by vm_compute).
    replace (f64_lt (S754_infinity true) f0) with true by (by vm_compute). apply unit_f0.
Qed.

(** What the options are assumed to carry. *)
Definition good_option (o : Option_) : Prop :=
  match o with
  | WithBuckets n => n ≤ 2 ^ 53
  | WithWeights w => Forall good_weight w
  | WithTolerance f => valid f
  | WithSmoothing _ => True
  end.

(** The fields the options may change, before the curve is built. *)
Definition options_ok (t : float64) (d : Z) (p : Pacer) : Prop :=
  total p = t ∧ period p = d ∧ 0 < buckets p ≤ 2 ^ 53 ∧ nonneg (tolerance p) ∧ Forall good_weight (rawWeights p).

Lemma apply_option_ok t d p o : good_option o → options_ok t d p → options_ok t d (apply_option p o).
Proof.
  intros Ho (Ht & Hd & Hb & Htol & Hw). unfold options_ok. destruct o as [n|w|f|al]; cbn [apply_option good_option] in *.
  - destruct (Z.ltb_spec 0 n); cbn; auto with lia.
  - cbn. auto.
  - destruct (f64_ge f f0) eqn:Hf; cbn [total period buckets tolerance rawWeights]; [|auto].
    assert (num f) as Hn by (split; [done|]; by destruct f). apply (le_E f0 f f0_num Hn) in Hf. rewrite f0_E in Hf. repeat (split; [assumption|]). split; [split; assumption|assumption].
  - cbn. auto.
Qed.

Lemma default_tolerance : nonneg (f64_div (f64_of_Z 5) (f64_of_Z 100)).
Proof.
  destruct (of_Z_exact 5) as (Va & Fa & HVa); [unfold exact_int; lia|]. destruct (of_Z_exact 100) as (Vb & Fb & HVb); [unfold exact_int; lia|].
  pose proof U_pos. rewrite U_eq in HVa, HVb. apply div_nonneg; [done..|rewrite HVa; lia|split; [by apply num_finite|]|]; rewrite E_finite by done; lia.
Qed.

(** A budget that is a positive number small enough for its double to be one. *)
Definition good_total (t : float64) : Prop := valid t ∧ f64_is_nan t = false ∧ f64_le t (S754_finite false 4503599627370496 970) = true.

Lemma New_pacer_ok t d opts p : New t d opts = Some p → good_total t → d ≤ max_i64 → Forall good_option opts → pacer_ok p ∧ total p = t.
Proof.
  unfold New. intros HN (Vt & Nt & Lt) Hd Ho. destruct (f64_le t f0 || (d <=? 0)) eqn:Hg; [done|]. apply orb_false_iff in Hg as [Hg1 Hg2%Z.leb_gt].
  set (p0 := MkPacer t d 24 [] _ _ _ _ _ _) in HN. assert (options_ok t d p0) as H0.
  { split; [done|]. split; [done|]. split; [cbn; lia|]. split; [apply default_tolerance|]. apply Forall_nil_2. }
  assert (options_ok t d (fold_left apply_option opts p0)) as H1.
  { clear HN. clearbody p0. induction Ho as [|o opts Ho1 _ IH] in p0, H0 |- *; [done|]. cbn [fold_left]. apply IH. by apply apply_option_ok. }
  set (p1 := fold_left apply_option opts p0) in *. clearbody p1. destruct H1 as (Ht & Hper & Hb & Htol & Hw).
  destruct (Z.leb_spec (buckets p1) 0); [lia|]. simplify_eq. split; [|done]. split; cbn [buildCurve total period buckets weight tolerance].
  - apply (le_E_false _ f0 (conj Vt Nt) f0_num) in Hg1. rewrite f0_E in Hg1. set (w := S754_finite false _ 970) in Lt.
    assert (valid w ∧ finite w) as [Vw Fw] by (split; [apply valid_spec; lia|done]). assert (V w = 2 ^ 1022 * U) as HV.
    { cbn [w V cond_Zopp]. rewrite <-U_eq. change 4503599627370496 with (2 ^ 52). by rewrite <-!Z.pow_add_r by (unfold Sc; lia). }
    apply (le_E _ w (conj Vt Nt) (num_finite w Vw Fw)) in Lt. rewrite (E_finite w Fw), HV in Lt. pose proof (V_bound w Vw Fw) as Hbw. rewrite HV in Hbw.
    assert (finite (total p1)) as Hf by (apply finite_E; [done|lia]). rewrite E_finite in * by done. done.
  - lia.
  - done.
  - destruct (curve_points (buckets p1) (rawWeights p1) ltac:(lia) Hw) as (l & Hc & Hl & Hr & _). by exists l.
  - done.
Qed.

(** Smoothing changes nothing that the decisions read. *)
Lemma Smooth_pacer_ok p a t : pacer_ok p → pacer_ok (Smooth p a t).1 ∧ total (Smooth p a t).1 = total p.
Proof. intros [? ? ? ? ?]. unfold Smooth. destruct (lastTime p); [destruct (f64_le _ f0)|]; (split; [by split|done]). Qed.

Definition smooths (p : Pacer) (calls : list (float64 * Z)) : Pacer := fold_left (λ p c, (Smooth p c.1 c.2).1) calls p.

Lemma smooths_pacer_ok calls : ∀ p, pacer_ok p → pacer_ok (smooths p calls) ∧ total (smooths p calls) = total p.
Proof.
  induction calls as [|c calls IH]; intros p Hok; [done|]. destruct (Smooth_pacer_ok p c.1 c.2 Hok) as [H1 H2].
  destruct (IH _ H1) as [H3 H4]. split; [exact H3|]. by rewrite <-H2.
Qed.

(** A spend at or over the budget is seen as such. *)
Lemma exhausted_seen p a : pacer_ok p → valid a → isFinite a = true → f64_ge a (total p) = true → f64_ge (sanitizeSpend a) (total p) = true.
Proof.
  intros Hok Ha Hf%isFinite_spec Hge. rewrite sanitize_id; [done|]. split; [done|]. split; [done|].
  destruct (ok_total p Hok) as (Vt & Ft & Pt & _). apply le_V in Hge; [lia|done..].
Qed.

Lemma throttle_exact p a t d : isFinite a = true → f64_ge (sanitizeSpend a) (total p) = false → Deviation p (sanitizeSpend a) t = Some d →
  ShouldThrottle p a t = Some (f64_gt d (tolerance p)) ∧
  PaceRatio p a t = Some (if f64_le d (tolerance p) then f1
    else let r := f64_sub f1 (f64_sub d (tolerance p)) in if f64_lt r f0 then f0 else r).
Proof.
  intros Hf Hg Hd. unfold ShouldThrottle, PaceRatio. rewrite Hf, Hg, Hd. cbn [negb mbind option_bind]. split; [done|]. by destruct (f64_le d _).
Qed.

Lemma unit_bounds x : unit_float x → f64_le f0 x = true ∧ f64_le x f1 = true.
Proof. intros (Hv & Hf & Hp). destruct f0_V as (? & ? & HV0), f1_V as (? & ? & HV1). rewrite !le_V by done. lia. Qed.

(** The throttle and the multiplier, together. *)
Lemma pace_decisions p a t : pacer_ok p → time_ok t → valid a → ∃ th r, ShouldThrottle p a t = Some th ∧ PaceRatio p a t = Some r ∧ unit_float r ∧
  (isFinite a = false ∨ f64_ge a (total p) = true → th = true ∧ r = f0) ∧ (th = false → r = f1).
Proof.
  intros Hok Ht Ha. destruct (isFinite a) eqn:Hf.
  2:{ exists true, f0. unfold ShouldThrottle, PaceRatio. rewrite Hf. split; [done|]. split; [done|]. split; [apply unit_f0|done]. }
  destruct (f64_ge (sanitizeSpend a) (total p)) eqn:Hg.
  { exists true, f0. unfold ShouldThrottle, PaceRatio. rewrite Hf, Hg. split; [done|]. split; [done|]. split; [apply unit_f0|done]. }
  destruct (Deviation_num p (sanitizeSpend a) t Hok Ht) as (d & Hd & Nd); [apply (sanitize_ok a Ha)|].
  destruct (throttle_exact p a t d Hf Hg Hd) as [-> ->]. eexists _, _. split; [reflexivity|]. split; [reflexivity|]. pose proof (ok_tolerance p Hok) as Htol. split; [|split].
  - destruct (f64_le d (tolerance p)) eqn:Hle; [apply unit_f1|]. by apply taper_unit.
  - intros [Hc|Hc]; [done|]. rewrite (exhausted_seen p a Hok Ha Hf Hc) in Hg. done.
  - intros Hth. apply (lt_E_false _ d (proj1 Htol) Nd) in Hth. rewrite (proj2 (le_E d _ Nd (proj1 Htol)) Hth). done.
Qed.

(** A pacer made by [New] from a budget that is a positive number and options whose numbers are numbers decides safely after any calls of [Smooth], at
    every time and for every spend that is a float, NaN and infinities included: no method reads the curve out of range, the planned spend is never negative, the
    deviation is never a NaN, and the pacing multiplier lies between 0 and 1; when the spend is not a finite number or has reached the budget the
    throttle is on and the multiplier 0, and as long as the throttle is off the multiplier is 1. *)
Theorem pacing_safe tot per opts p calls a t :
  New tot per opts = Some p → good_total tot → per ≤ max_i64 → Forall good_option opts → valid a → time_ok t →
  ∃ planned d on th r, TargetSpend (smooths p calls) t = Some planned ∧ Deviation (smooths p calls) a t = Some d ∧
    OnPlan (smooths p calls) a t = Some on ∧ ShouldThrottle (smooths p calls) a t = Some th ∧ PaceRatio (smooths p calls) a t = Some r ∧
    f64_le f0 planned = true ∧ f64_is_nan d = false ∧ f64_le f0 r = true ∧ f64_le r f1 = true ∧
    (isFinite a = false ∨ f64_ge a tot = true → th = true ∧ r = f0) ∧ (th = false → r = f1).
Proof.
  intros HN Hg Hper Ho Ha Ht. destruct (New_pacer_ok _ _ _ _ HN Hg Hper Ho) as [Hok Htot]. destruct (smooths_pacer_ok calls p Hok) as [Hok' Htot'].
  rewrite Htot in Htot'. set (q := smooths p calls) in *. destruct (TargetSpend_within q t Hok' Ht) as (planned & Hpl & Vpl & Fpl & Ppl & _).
  destruct (Deviation_num q a t Hok' Ht Ha) as (d & Hd & Nd). destruct (pace_decisions q a t Hok' Ht Ha) as (th & r & Hth & Hr & Ur & Hex & Hfull).
  exists planned, d, (f64_le (f64_abs d) (tolerance q)), th, r. unfold OnPlan. rewrite Hd, <-Htot'. destruct (unit_bounds r Ur). destruct f0_V as (? & ? & HV0).
  do 5 (split; [done|]). split; [apply le_V; [done..|lia]|]. split; [apply Nd|]. done.
Qed.

(** ** Witnesses and limits *)

Definition hour : Z := 3600 * 10 ^ 9.
Definition noon : time := Time (12 * hour) (12 * hour).
Definition f64_nan : float64 := S754_nan.

Lemma curve_monotone_witness : curve 3 [f64_of_Z 2; f64_of_Z (-1)] !! 3%nat = Some f1.
Proof.
  destruct (curve_monotone 3 [f64_of_Z 2; f64_of_Z (-1)]) as (_ & _ & H & _); [lia| |exact H].
  repeat constructor; vm_compute; congruence.
Defined.

Lemma pacing_safe_witness : ∃ p th r, New (f64_of_Z 100) dailyPeriod [WithBuckets 4; WithWeights [f64_of_Z 1; f64_of_Z 3]] = Some p ∧
  ShouldThrottle p f64_nan noon = Some th ∧ PaceRatio p f64_nan noon = Some r ∧ th = true ∧ r = f0.
Proof.
  destruct (New (f64_of_Z 100) dailyPeriod [WithBuckets 4; WithWeights [f64_of_Z 1; f64_of_Z 3]]) as [p|] eqn:HN; [|vm_compute in HN; discriminate HN].
  destruct (pacing_safe (f64_of_Z 100) dailyPeriod [WithBuckets 4; WithWeights [f64_of_Z 1; f64_of_Z 3]] p [] f64_nan noon HN)
    as (pl & d & on & th & r & H1 & H2 & H3 & H4 & H5 & H6 & H7 & H8 & H9 & H10 & _).
  - repeat split; vm_compute; reflexivity.
  - vm_compute. discriminate.
  - repeat constructor; vm_compute; congruence.
  - reflexivity.
  - split; vm_compute; split; congruence.
  - exists p, th, r. destruct (H10 (or_introl eq_refl)) as [-> ->]. split; [reflexivity|]. split; [exact H4|]. split; [exact H5|]. split; reflexivity.
Defined.

(** One weight that is not a number turns the protection off: with 99 of 100 spent a minute after midnight nothing throttles, and the multiplier is a NaN. *)
Definition after_midnight : time := Time (60 * 10 ^ 9) (60 * 10 ^ 9).
Example nan_weight_fails_open : ∃ p, New (f64_of_Z 100) dailyPeriod [WithBuckets 4; WithWeights [f64_nan; f64_of_Z 1]] = Some p ∧
  ShouldThrottle p (f64_of_Z 99) after_midnight = Some false ∧ PaceRatio p (f64_of_Z 99) after_midnight = Some f64_nan.
Proof. eexists. split; [vm_compute; reflexivity|]. split; vm_compute; reflexivity. Qed.

(** The same with the weight 1 there. *)
Example number_weight_throttles : ∃ p, New (f64_of_Z 100) dailyPeriod [WithBuckets 4; WithWeights [f64_of_Z 1; f64_of_Z 1]] = Some p ∧
  ShouldThrottle p (f64_of_Z 99) after_midnight = Some true ∧ PaceRatio p (f64_of_Z 99) after_midnight = Some f0.
Proof. eexists. split; [vm_compute; reflexivity|]. split; vm_compute; reflexivity. Qed.

(** [New] accepts a budget that is not a number, and then nothing ever exhausts it. *)
Example nan_total_accepted : ∃ p, New f64_nan dailyPeriod [] = Some p ∧ ShouldThrottle p (f64_of_Z (10 ^ 18)) noon = Some false.
Proof. eexists. split; [vm_compute; reflexivity|]. vm_compute. reflexivity. Qed.

(** With a smoothing factor that is not a number the rate is a NaN from the third sample on. *)
Example nan_alpha_poisons : ∃ p, New (f64_of_Z 100) dailyPeriod [WithSmoothing f64_nan] = Some p ∧
  SmoothedRate (smooths p [(f64_of_Z 0, 10 ^ 9); (f64_of_Z 1, 2 * 10 ^ 9)]) = f1 ∧
  SmoothedRate (smooths p [(f64_of_Z 0, 10 ^ 9); (f64_of_Z 1, 2 * 10 ^ 9); (f64_of_Z 2, 3 * 10 ^ 9)]) = f64_nan ∧
  SmoothedRate (smooths p [(f64_of_Z 0, 10 ^ 9); (f64_of_Z 1, 2 * 10 ^ 9); (f64_of_Z 2, 3 * 10 ^ 9); (f64_of_Z 3, 4 * 10 ^ 9)]) = f64_nan.
Proof. eexists. split; [vm_compute; reflexivity|]. split; [|split]; vm_compute; reflexivity. Qed.
