(* ===== verification/Backoff.v ===== *)
(** * Backoff: retry delays ([backoff/backoff.go])

    A duration is an int64 of nanoseconds, the growth factor a binary64.  Each call that draws a random number takes the
    generator it will see, a function of which only the documented range is used; [rand.Int64N] panics on a bound that is not
    positive ([None]).  Every call holds the mutex to its end, so that calls from several goroutines are a sequence.

    Shown: whatever the options, as long as the factor is a number (and not infinite over a base of 0), no call panics and every delay lies between 0 and the
    cap, in the band of its jitter ([delays_bounded]); with an integral factor the exponential is exactly
    the base times the power of the factor, up to the cap ([exponential_exact]); the attempt cap is exact and [Reset] starts afresh ([attempts_exact]).
    [nan_factor_negative]: with a factor that is not a number delays are negative; so are they for an infinite factor and a base of 0
    ([infinite_factor_negative]). *)

From Stdlib Require Import ZArith Lia Bool SpecFloat.
From stdpp Require Import base tactics numbers list.
From S2P Require Import Prelude Float64 FloatOrder.

#[local] Open Scope Z_scope.

Inductive Jitter := JitterNone | JitterFull | JitterEqual | JitterDecorrelated.

Record Backoff := MkBackoff {
  base : Z;
  factor : float64;
  max : Z;
  jitter : Jitter;
  maxAttempts : Z;   (* 0 = unlimited *)
  attempt : Z;
  raw : Z;
  last : Z;
}.

Inductive Option_ :=
| WithBase (d : Z)
| WithFactor (f : float64)
| WithMax (d : Z)
| WithJitter (j : Jitter)
| WithMaxAttempts (n : Z).

Definition apply_option (b : Backoff) (o : Option_) : Backoff :=
  match o with
  | WithBase d => MkBackoff d (factor b) (max b) (jitter b) (maxAttempts b) (attempt b) (raw b) (last b)
  | WithFactor f => MkBackoff (base b) f (max b) (jitter b) (maxAttempts b) (attempt b) (raw b) (last b)
  | WithMax d => MkBackoff (base b) (factor b) d (jitter b) (maxAttempts b) (attempt b) (raw b) (last b)
  | WithJitter j => MkBackoff (base b) (factor b) (max b) j (maxAttempts b) (attempt b) (raw b) (last b)
  | WithMaxAttempts n => MkBackoff (base b) (factor b) (max b) (jitter b) n (attempt b) (raw b) (last b)
  end.

Definition New (opts : list Option_) : Backoff :=
  let b := fold_left apply_option opts (MkBackoff (100 * 10 ^ 6) (f64_of_Z 2) (10 * 10 ^ 9) JitterFull 0 0 0 0) in
  let factor := if f64_lt (factor b) f1 then f1 else factor b in
  let base := if base b <? 0 then 0 else base b in
  let max := if max b <? base then base else max b in
  MkBackoff base factor max (jitter b) (maxAttempts b) (attempt b) base base.

Definition with_raw (b : Backoff) (r : Z) : Backoff :=
  MkBackoff (base b) (factor b) (max b) (jitter b) (maxAttempts b) (attempt b) r (last b).

Definition advance (b : Backoff) : Backoff :=
  if max b <=? raw b then with_raw b (max b)
  else
    let nf := f64_mul (f64_of_Z (raw b)) (factor b) in
    if f64_ge nf (f64_of_Z (max b)) || (match nf with S754_infinity false => true | _ => false end) then with_raw b (max b)
    else with_raw b (f64_to_i64 nf).

(** [rand.Int64N]: a number below the bound; it panics unless the bound is positive. *)
Definition Int64N (draw : Z → Z) (n : Z) : option Z := if n <=? 0 then None else Some (draw n).

Definition randRange (draw : Z → Z) (lo hi : Z) : option Z :=
  if hi <=? lo then Some lo
  else
    let span := i64 (hi - lo) in
    let span := if span =? max_i64 then span else i64 (span + 1) in
    r ← Int64N draw span; Some (i64 (lo + r)).

Definition computeLocked (draw : Z → Z) (b : Backoff) : option (Z * Backoff) :=
  match jitter b with
  | JitterDecorrelated =>
      let hi := i64 (last b * 3) in
      let hi := if hi <? base b then base b else hi in
      d ← randRange draw (base b) hi;
      let d := if max b <? d then max b else d in
      Some (d, MkBackoff (base b) (factor b) (max b) (jitter b) (maxAttempts b) (attempt b) (raw b) d)
  | JitterFull =>
      let cur := raw b in
      d ← randRange draw 0 cur; Some (d, advance b)
  | JitterEqual =>
      let cur := raw b in
      d ← randRange draw 0 (Z.quot cur 2); Some (i64 (Z.quot cur 2 + d), advance b)
  | JitterNone => Some (raw b, advance b)
  end.

(** The second component [None]: the attempt cap is reached. *)
Definition Next (draw : Z → Z) (b : Backoff) : option (Backoff * option Z) :=
  if (0 <? maxAttempts b) && (maxAttempts b <=? attempt b) then Some (b, None)
  else
    let b := MkBackoff (base b) (factor b) (max b) (jitter b) (maxAttempts b) (i64 (attempt b + 1)) (raw b) (last b) in
    '(d, b) ← computeLocked draw b; Some (b, Some d).

Definition Attempt (b : Backoff) : Z := attempt b.

Definition Reset (b : Backoff) : Backoff :=
  MkBackoff (base b) (factor b) (max b) (jitter b) (maxAttempts b) 0 (base b) (base b).

Inductive wait_result := WaitOk | ErrMaxAttempts | ErrContext.

(** [fired]: the timer's channel is the one the select takes. *)
Definition Wait (draw : Z → Z) (fired : bool) (b : Backoff) : option (Backoff * wait_result) :=
  '(b, r) ← Next draw b;
  Some (b, match r with None => ErrMaxAttempts | Some _ => if fired then WaitOk else ErrContext end).

(** A sequence of calls, with the delays that were given out. *)
Inductive call := CNext (draw : Z → Z) | CWait (draw : Z → Z) (fired : bool) | CReset.

Definition do_call (b : Backoff) (c : call) : option (Backoff * list (option Z)) :=
  match c with
  | CNext draw => '(b, r) ← Next draw b; Some (b, [r])
  | CWait draw fired => '(b, _) ← Wait draw fired b; Some (b, [])
  | CReset => Some (Reset b, [])
  end.

Fixpoint run (b : Backoff) (cs : list call) : option (Backoff * list (option Z)) :=
  match cs with
  | [] => Some (b, [])
  | c :: cs => '(b, ds) ← do_call b c; '(b, ds') ← run b cs; Some (b, ds ++ ds')
  end.

(** ** The invariant *)

#[local] Opaque U Big f0 f1.

(** A growth factor of at least 1, possibly infinite. *)
Definition growth (f : float64) : Prop := num f ∧ U ≤ E f.

Record backoff_ok (b : Backoff) : Prop := {
  ok_base : 0 ≤ base b ≤ max b;
  ok_max : max b ≤ max_i64;
  ok_factor : growth (factor b);
  ok_product : 0 < base b ∨ finite (factor b);
  ok_raw : 0 ≤ raw b ≤ max b;
  ok_positive : 0 < base b → 0 < raw b;
  ok_last : base b ≤ last b ≤ max b;
}.

Definition good_draw (draw : Z → Z) : Prop := ∀ n, 0 < n → 0 ≤ draw n < n.

Lemma randRange_spec draw lo hi : good_draw draw → 0 ≤ lo → lo ≤ hi ≤ max_i64 → ∃ d, randRange draw lo hi = Some d ∧ lo ≤ d ≤ hi.
Proof.
  intros Hd Hlo Hhi. unfold randRange. destruct (Z.leb_spec hi lo); [exists lo; split; [done|lia]|].
  rewrite (i64_id (hi - lo)) by (revert Hlo Hhi; mint). unfold Int64N. destruct (Z.eqb_spec (hi - lo) max_i64) as [He|He].
  - destruct (Z.leb_spec (hi - lo) 0); [lia|]. cbn [mbind option_bind]. pose proof (Hd (hi - lo) ltac:(lia)).
    eexists. split; [done|]. rewrite i64_id by (revert Hlo Hhi; mint). lia.
  - rewrite (i64_id (hi - lo + 1)) by (revert Hlo Hhi He; mint). destruct (Z.leb_spec (hi - lo + 1) 0); [lia|]. cbn [mbind option_bind].
    pose proof (Hd (hi - lo + 1) ltac:(lia)). eexists. split; [done|]. rewrite i64_id by (revert Hlo Hhi; mint). lia.
Qed.

(** A float below the rounded cap is below the cap. *)
Lemma below_cap x m : valid x → finite x → 0 ≤ m ≤ max_i64 → f64_ge x (f64_of_Z m) = false → V x < m * U.
Proof.
  intros Hv Hf Hm Hlt. destruct (rounds_E _ _ (of_Z_rounds m)) as (Hn & _ & Hup). rewrite U_eq in Hup.
  apply (le_E_false (f64_of_Z m) x Hn (num_finite x Hv Hf)) in Hlt. rewrite (E_finite x Hf) in Hlt.
  destruct (Z.lt_ge_cases (V x) (m * U)) as [H|H]; [done|]. specialize (Hup x Hv Hf H). lia.
Qed.

(** The product of a non-negative integer and a growth factor: not a NaN, and no smaller than the integer's float. *)
Lemma grown r f : 0 ≤ r ≤ max_i64 → growth f → 0 < r ∨ finite f → nonneg (f64_mul (f64_of_Z r) f) ∧ V (f64_of_Z r) ≤ E (f64_mul (f64_of_Z r) f).
Proof.
  intros Hr [Hnf Hf] Hpos. assert (within 63 (f64_of_Z r)) as (Vr & Fr & Pr) by (apply of_Z_within; [lia|]; revert Hr; mint). pose proof U_pos as HU.
  destruct (nonneg_cases f) as [(Vf & Ff & Pf)| ->]; [split; [done|lia]|..].
  - rewrite (E_finite f Ff) in Hf. pose proof (mul_rounds _ f Vr Vf Fr Ff) as Hm. rewrite U_eq in Hm.
    split; [eapply (ratio_nonneg _ U); [done| |done]; nia|]. destruct (ratio_E _ _ _ HU Hm) as (_ & Hge & _). apply Hge; [done..|]. nia.
  - destruct Hpos as [Hpos|Hpos]; [|done]. assert (U ≤ V (f64_of_Z r)) as Hge.
    { destruct (rounds_E _ _ (of_Z_rounds r)) as (_ & Hge & _). destruct f1_V as (V1 & F1 & HV1). rewrite <-(E_finite _ Fr), <-HV1. apply Hge; [done..|]. rewrite HV1, U_eq. nia. }
    assert (f64_mul (f64_of_Z r) (S754_infinity false) = S754_infinity false) as ->.
    { destruct (f64_of_Z r) as [| | |s m e]; [exfalso; cbn [V] in Hge; lia|done|done|]. destruct s; [|done]. cbn [V cond_Zopp] in Hge.
      apply valid_spec in Vr as (He & _). pose proof (pow_pos_lt e ltac:(lia)). nia. }
    split; [apply inf_nonneg|]. pose proof (V_bound _ Vr Fr). cbn [E cond_Zopp]. lia.
Qed.

Lemma advance_spec b : backoff_ok b → ∃ r, advance b = with_raw b r ∧ 0 ≤ r ≤ max b ∧ (0 < base b → 0 < r) ∧ (max b ≤ 2 ^ 53 → raw b ≤ r).
Proof.
  intros [Hb Hm Hf Hp Hr Hpos _]. pose proof U_pos as HU. unfold advance. destruct (Z.leb_spec (max b) (raw b)); [exists (max b); split; [done|]; lia|].
  destruct (grown (raw b) (factor b)) as [Hn Hge]; [lia|done|tauto|]. set (nf := f64_mul _ _) in *.
  destruct (f64_ge nf (f64_of_Z (max b))) eqn:Hc; [exists (max b); cbn [orb]; split; [done|]; lia|]. cbn [orb].
  destruct (nonneg_cases nf Hn) as [(Vn & Fn & Pn)|Hinf]; [|rewrite Hinf; exists (max b); split; [done|]; lia].
  rewrite (E_finite nf Fn) in Hge. exists (f64_to_i64 nf). assert (V nf < max b * U) as Hlt by (apply below_cap; [done..|lia|done]).
  destruct (to_i64_spec nf Vn Fn Pn) as (H0 & Hlo & Hhi); [apply Z.lt_le_trans with (max b * U); [done|]; nia|].
  assert (∀ k, k * U ≤ V nf → k ≤ f64_to_i64 nf) as Hk by (intros k Hk; nia).
  split; [by destruct nf as [|[]| |]|]. split; [split; [done|]; nia|]. split.
  - intros Hb0. specialize (Hpos Hb0). apply Z.lt_le_trans with 1; [lia|]. apply Hk. etransitivity; [|exact Hge].
    destruct (rounds_E _ _ (of_Z_rounds (raw b))) as (_ & Hge1 & _). destruct f1_V as (V1 & F1 & HV1).
    assert (within 63 (f64_of_Z (raw b))) as (_ & Fr & _) by (apply of_Z_within; [lia|]; revert Hr Hm; mint).
    rewrite Z.mul_1_l, <-HV1, <-(E_finite _ Fr). apply Hge1; [done..|]. rewrite HV1, U_eq. nia.
  - intros Hsmall. apply Hk. destruct (of_Z_int (raw b)) as (_ & _ & HV); [unfold exact_int; lia|]. rewrite <-HV. done.
Qed.

Lemma advance_ok b : backoff_ok b → backoff_ok (advance b).
Proof. intros Hok. destruct (advance_spec b Hok) as (r & -> & Hr & Hp & _). destruct Hok. by split. Qed.

(** The band of a delay, by jitter. *)
Definition in_band (b : Backoff) (d : Z) : Prop :=
  match jitter b with
  | JitterNone => d = raw b
  | JitterFull => 0 ≤ d ≤ raw b
  | JitterEqual => raw b / 2 ≤ d ≤ raw b
  | JitterDecorrelated => base b ≤ d ≤ max b
  end.

(** What no call changes. *)
Definition same_config (b b' : Backoff) : Prop :=
  base b' = base b ∧ factor b' = factor b ∧ max b' = max b ∧ jitter b' = jitter b ∧ maxAttempts b' = maxAttempts b.

Lemma advance_config b : same_config b (advance b) ∧ attempt (advance b) = attempt b.
Proof. unfold advance. destruct (max b <=? raw b); [done|]. by destruct (_ || _). Qed.

Lemma computeLocked_spec draw b : good_draw draw → backoff_ok b →
  ∃ d b', computeLocked draw b = Some (d, b') ∧ backoff_ok b' ∧ in_band b d ∧ 0 ≤ d ≤ max b ∧ same_config b b' ∧ attempt b' = attempt b.
Proof.
  intros Hd Hok. pose proof (advance_ok b Hok) as Hadv. pose proof (advance_config b) as [Hcfg Hatt]. pose proof Hok as [Hb Hm Hf Hp Hr Hpos Hl].
  unfold computeLocked, in_band. destruct (jitter b) eqn:Hj.
  - eexists _, _. by split.
  - destruct (randRange_spec draw 0 (raw b)) as (d & -> & Hrange); [done|lia..|]. eexists _, _. split; [done|]. split; [done|]. split; [done|]. split; [lia|]. done.
  - rewrite Z.quot_div_nonneg by lia. assert (0 ≤ raw b / 2 ∧ 2 * (raw b / 2) ≤ raw b) as [H0 H2] by (split; [apply Z.div_pos; lia|apply Z.mul_div_le; lia]).
    destruct (randRange_spec draw 0 (raw b / 2)) as (d & -> & Hrange); [done|lia..|]. cbn [mbind option_bind]. rewrite i64_id by (revert Hm Hr Hrange H0 H2; mint).
    eexists _, _. split; [done|]. split; [done|]. split; [lia|]. split; [lia|]. done.
  - set (hi := if i64 (last b * 3) <? base b then base b else i64 (last b * 3)). assert (base b ≤ hi ≤ max_i64) as Hhi.
    { unfold hi. pose proof (i64_range (last b * 3)) as H3. destruct (Z.ltb_spec (i64 (last b * 3)) (base b)); [lia|]. unfold in_i64 in H3. lia. }
    destruct (randRange_spec draw (base b) hi) as (d & -> & Hrange); [done|lia..|]. cbn [mbind option_bind].
    assert (base b ≤ (if max b <? d then max b else d) ≤ max b) as Hd' by (destruct (Z.ltb_spec (max b) d); lia).
    eexists _, _. split; [done|]. split; [by split|]. split; [done|]. split; [lia|]. done.
Qed.

Lemma Next_spec draw b : good_draw draw → backoff_ok b → ∃ b' r, Next draw b = Some (b', r) ∧ backoff_ok b' ∧ same_config b b' ∧
  match r with
  | None => 0 < maxAttempts b ≤ attempt b ∧ b' = b
  | Some d => in_band b d ∧ 0 ≤ d ≤ max b ∧ (maxAttempts b ≤ 0 ∨ attempt b < maxAttempts b) ∧ attempt b' = i64 (attempt b + 1)
  end.
Proof.
  intros Hd Hok. unfold Next. destruct ((0 <? maxAttempts b) && (maxAttempts b <=? attempt b)) eqn:Hg.
  { exists b, None. split; [done|]. split; [done|]. split; [done|]. split; [lia|done]. }
  set (b1 := MkBackoff _ _ _ _ _ _ _ _). assert (backoff_ok b1) as Hok1 by (destruct Hok; by split).
  destruct (computeLocked_spec draw b1 Hd Hok1) as (d & b' & -> & Hok' & Hband & Hrange & Hcfg & Hatt).
  cbn [mbind option_bind]. exists b', (Some d). split; [done|]. split; [done|]. split; [exact Hcfg|]. split; [exact Hband|]. split; [exact Hrange|].
  split; [lia|exact Hatt].
Qed.

Lemma Reset_ok b : backoff_ok b → backoff_ok (Reset b).
Proof. intros []. split; cbn; try done; lia. Qed.

Definition good_call (c : call) : Prop :=
  match c with CNext draw | CWait draw _ => good_draw draw | CReset => True end.

Definition delay_ok (m : Z) (r : option Z) : Prop := match r with Some d => 0 ≤ d ≤ m | None => True end.

Lemma do_call_spec b c : good_call c → backoff_ok b → ∃ b' ds, do_call b c = Some (b', ds) ∧ backoff_ok b' ∧ same_config b b' ∧ Forall (delay_ok (max b)) ds.
Proof.
  intros Hc Hok. destruct c as [draw|draw fired|]; cbn [do_call good_call] in *.
  - destruct (Next_spec draw b Hc Hok) as (b' & r & -> & Hok' & Hcfg & Hr). cbn. eexists _, _. split; [done|]. split; [done|]. split; [done|].
    apply Forall_singleton. destruct r; cbn; tauto.
  - unfold Wait. destruct (Next_spec draw b Hc Hok) as (b' & r & -> & Hok' & Hcfg & Hr). cbn. eexists _, _. split; [done|]. split; [done|]. split; [done|constructor].
  - eexists _, _. split; [done|]. split; [by apply Reset_ok|]. split; [done|constructor].
Qed.

Lemma calls_spec cs : ∀ b, Forall good_call cs → backoff_ok b → ∃ b' ds, run b cs = Some (b', ds) ∧ backoff_ok b' ∧ same_config b b' ∧ Forall (delay_ok (max b)) ds.
Proof.
  induction cs as [|c cs IH]; intros b Hc Hok; [exists b, []; done|]. apply Forall_cons in Hc as [Hc Hcs]. cbn [run].
  destruct (do_call_spec b c Hc Hok) as (b1 & ds & -> & Hok1 & Hcfg1 & Hds). cbn [mbind option_bind].
  destruct (IH b1 Hcs Hok1) as (b2 & ds2 & -> & Hok2 & Hcfg2 & Hds2). cbn [mbind option_bind]. destruct Hcfg1 as (H1 & H2 & H3 & H4 & H5), Hcfg2 as (G1 & G2 & G3 & G4 & G5).
  eexists _, _. split; [done|]. split; [done|]. split; [unfold same_config; intuition congruence|]. apply Forall_app. rewrite H3 in Hds2. done.
Qed.

(** The factor is a number, and the cap an int64. *)
Definition good_options (opts : list Option_) : Prop :=
  let b := fold_left apply_option opts (MkBackoff (100 * 10 ^ 6) (f64_of_Z 2) (10 * 10 ^ 9) JitterFull 0 0 0 0) in
  num (factor b) ∧ base b ≤ max_i64 ∧ max b ≤ max_i64 ∧ (0 < base b ∨ factor b ≠ S754_infinity false).

Lemma New_backoff_ok opts : good_options opts → backoff_ok (New opts).
Proof.
  unfold good_options, New. set (b := fold_left _ _ _). clearbody b. intros (Hn & Hb & Hm & Hp). pose proof U_pos.
  assert (growth (if f64_lt (factor b) f1 then f1 else factor b)) as Hg.
  { destruct (f64_lt (factor b) f1) eqn:Hlt; [split; [apply f1_num|rewrite f1_E; lia]|].
    apply (lt_E_false _ f1 Hn f1_num) in Hlt. rewrite f1_E in Hlt. done. }
  split; cbn [base factor max jitter maxAttempts attempt raw last]; try done.
  - destruct (Z.ltb_spec (base b) 0), (Z.ltb_spec (max b) 0), (Z.ltb_spec (max b) (base b)); lia.
  - destruct (Z.ltb_spec (base b) 0), (Z.ltb_spec (max b) 0), (Z.ltb_spec (max b) (base b)); lia || (revert Hb; mint).
  - destruct (Z.ltb_spec (base b) 0), Hp as [Hp|Hp]; [lia| |by left|]; right; (destruct (f64_lt (factor b) f1) eqn:Hlt; [apply f1_V|]);
      (destruct (nonneg_cases (factor b)) as [(? & ? & ?)|?]; [|done|done]); apply (lt_E_false _ f1 Hn f1_num) in Hlt; rewrite f1_E in Hlt; (split; [done|lia]).
  - destruct (Z.ltb_spec (base b) 0), (Z.ltb_spec (max b) 0), (Z.ltb_spec (max b) (base b)); lia.
  - destruct (Z.ltb_spec (base b) 0), (Z.ltb_spec (max b) 0), (Z.ltb_spec (max b) (base b)); lia.
Qed.

(** ** Theorems *)

(** If the growth factor is a number (and not infinite over a base of 0), no sequence of calls panics, every delay given out lies between 0 and
    the cap, and the next one will lie in the band of its jitter. *)
Theorem delays_bounded opts cs : good_options opts → Forall good_call cs →
  ∃ b ds, run (New opts) cs = Some (b, ds) ∧ Forall (delay_ok (max (New opts))) ds ∧
    ∀ draw, good_draw draw → ∃ b' r, Next draw b = Some (b', r) ∧ ∀ d, r = Some d → in_band b d ∧ 0 ≤ d ≤ max (New opts).
Proof.
  intros Ho Hc. destruct (calls_spec cs _ Hc (New_backoff_ok opts Ho)) as (b & ds & Hrun & Hok & (_ & _ & Hmax & _) & Hds). exists b, ds.
  split; [done|]. split; [done|]. intros draw Hd. destruct (Next_spec draw b Hd Hok) as (b' & r & Hn & _ & _ & Hr). exists b', r.
  split; [done|]. intros d ->. rewrite <-Hmax. tauto.
Qed.

(** The attempts from a state in which [i] have been counted. *)
Lemma attempts_from n draws : ∀ b, backoff_ok b → Forall good_draw draws → 0 < maxAttempts b ≤ max_i64 → 0 ≤ attempt b ≤ maxAttempts b →
  n = Z.to_nat (maxAttempts b - attempt b) →
  ∃ b' ds, run b (CNext <$> draws) = Some (b', ds) ∧ length ds = length draws ∧ ∀ i r, ds !! i = Some r → is_Some r ↔ (i < n)%nat.
Proof.
  intros b. revert n b. induction draws as [|dr draws IH]; intros n b Hok Hd Hm Ha ->; [exists b, []; by split|].
  apply Forall_cons in Hd as [Hd Hds]. rewrite fmap_cons. cbn [run do_call]. destruct (Next_spec dr b Hd Hok) as (b1 & r & -> & Hok1 & Hcfg & Hr).
  cbn [mbind option_bind]. destruct Hcfg as (_ & _ & _ & _ & Hmax). destruct r as [d|].
  - destruct Hr as (_ & _ & Hlt & Hatt). rewrite i64_id in Hatt by (revert Hm Ha Hlt; mint).
    destruct (IH _ b1 Hok1 Hds ltac:(lia) ltac:(lia) eq_refl) as (b2 & ds & Hrun & Hlen & Hall). rewrite Hrun. cbn [mbind option_bind].
    eexists _, _. split; [done|]. split; [cbn; lia|]. intros [|i] r Hi; cbn in Hi; [simplify_eq; split; [lia|done]|].
    rewrite (Hall i r Hi). lia.
  - destruct Hr as [Hlt ->]. destruct (IH _ b Hok Hds ltac:(lia) ltac:(lia) eq_refl) as (b2 & ds & Hrun & Hlen & Hall). rewrite Hrun. cbn [mbind option_bind].
    eexists _, _. split; [done|]. split; [cbn; lia|]. intros [|i] r Hi; cbn in Hi; [simplify_eq; split; [by intros []|lia]|].
    rewrite (Hall i r Hi). lia.
Qed.

(** With an attempt cap of [n], after any calls that end in a [Reset] exactly the next [n] calls of [Next] give a delay and all later ones none. *)
Theorem attempts_exact opts cs draws b ds :
  good_options opts → Forall good_call cs → run (New opts) (cs ++ [CReset]) = Some (b, ds) → Forall good_draw draws →
  0 < maxAttempts (New opts) ≤ max_i64 →
  ∃ b' rs, run b (CNext <$> draws) = Some (b', rs) ∧ length rs = length draws ∧
    ∀ i r, rs !! i = Some r → is_Some r ↔ (i < Z.to_nat (maxAttempts (New opts)))%nat.
Proof.
  intros Ho Hc Hrun Hd Hm. assert (∃ b0, b = Reset b0) as [b0 Hb].
  { clear -Hrun. revert Hrun. generalize (New opts). induction cs as [|c cs IH] in ds |- *; intros b1 Hrun.
    - cbn in Hrun. simplify_eq. eauto.
    - cbn [run app] in Hrun. destruct (do_call b1 c) as [[b2 ds2]|]; [|done]. cbn [mbind option_bind] in Hrun.
      destruct (run b2 (cs ++ [CReset])) as [[b3 ds3]|] eqn:H2; [|done]. cbn in Hrun. simplify_eq. by eapply IH. }
  destruct (calls_spec (cs ++ [CReset]) (New opts)) as (b' & ds' & Hrun' & Hok & (_ & _ & _ & _ & Hcfg) & _).
  { apply Forall_app. split; [done|]. by apply Forall_singleton. }
  { by apply New_backoff_ok. }
  rewrite Hrun in Hrun'. simplify_eq. apply attempts_from; [done..|rewrite Hcfg; done|cbn [Reset attempt]; rewrite Hcfg; lia|].
  cbn [Reset attempt]. rewrite Hcfg. f_equal. lia.
Qed.

(** One step of an exact exponential. *)
Lemma advance_exact b k : is_int k (factor b) → 1 ≤ k → 0 ≤ raw b ≤ max b → max b ≤ 2 ^ 53 → advance b = with_raw b (Z.min (max b) (raw b * k)).
Proof.
  intros Hf Hk Hr Hm. pose proof U_pos as HU. unfold advance. destruct (Z.leb_spec (max b) (raw b)); [f_equal; nia|].
  assert (is_int (raw b) (f64_of_Z (raw b))) as Hri by (apply of_Z_int; unfold exact_int; lia).
  assert (is_int (max b) (f64_of_Z (max b))) as Hmi by (apply of_Z_int; unfold exact_int; lia). destruct (Z.le_gt_cases (raw b * k) (2 ^ 53)) as [Hle|Hgt].
  - pose proof (mul_int _ _ _ _ Hri Hf ltac:(unfold exact_int; nia)) as Hp. unfold f64_ge. fold (f64_le (f64_of_Z (max b)) (f64_mul (f64_of_Z (raw b)) (factor b))).
    rewrite (int_le _ _ _ _ Hmi Hp). destruct (Z.leb_spec (max b) (raw b * k)); cbn [orb]; [f_equal; lia|].
    destruct Hp as (Vp & Fp & HVp). destruct (to_i64_spec _ Vp Fp) as (_ & Hlo & Hhi); [nia|rewrite HVp; apply Z.mul_lt_mono_pos_r; [done|]; revert Hm; mint|].
    replace (match f64_mul (f64_of_Z (raw b)) (factor b) with S754_infinity false => true | _ => false end) with false by (by destruct (f64_mul _ _) as [|[]| |]).
    f_equal. rewrite HVp in Hlo, Hhi. nia.
  - replace (f64_ge _ (f64_of_Z (max b))) with true; [cbn [orb]; f_equal; lia|]. symmetry. destruct Hri as (Vr & Fr & HVr), Hf as (Vf & Ff & HVf), Hmi as (Vm & Fm & HVm).
    pose proof (mul_rounds _ _ Vr Vf Fr Ff) as (_ & Hge & _). apply Hge; [done..|]. rewrite HVr, HVf, HVm, U_eq. nia.
Qed.

(** Without jitter and with an integral factor [k], the [i]-th delay is exactly the base times [k^i], or the cap when that is less, for caps up to
    [2^53] nanoseconds (104 days). *)
Theorem exponential_exact d k m n draw : 0 ≤ d ≤ m → m ≤ 2 ^ 53 → 1 ≤ k ≤ 2 ^ 53 →
  ∃ b, run (New [WithBase d; WithFactor (f64_of_Z k); WithMax m; WithJitter JitterNone]) (replicate n (CNext draw)) =
    Some (b, (λ i, Some (Z.min m (d * k ^ Z.of_nat i))) <$> seq 0 n).
Proof.
  intros Hd Hm Hk. assert (is_int k (f64_of_Z k)) as Hki by (apply of_Z_int; unfold exact_int; lia).
  assert (is_int 1 f1) as H1i by (destruct f1_V as (? & ? & ?); split; [done|]; split; [done|]; lia).
  assert (New [WithBase d; WithFactor (f64_of_Z k); WithMax m; WithJitter JitterNone] = MkBackoff d (f64_of_Z k) m JitterNone 0 0 d d) as ->.
  { unfold New. cbn [fold_left apply_option base factor max jitter maxAttempts attempt raw last]. rewrite (int_lt _ _ _ _ Hki H1i).
    destruct (Z.ltb_spec k 1), (Z.ltb_spec d 0), (Z.ltb_spec m d); try lia. done. }
  enough (∀ j a r, r = Z.min m (d * k ^ Z.of_nat j) → ∃ b, run (MkBackoff d (f64_of_Z k) m JitterNone 0 a r d) (replicate n (CNext draw)) =
    Some (b, (λ i, Some (Z.min m (d * k ^ Z.of_nat i))) <$> seq j n)) as Hgen by (apply Hgen; rewrite Z.mul_1_r; lia).
  induction n as [|n IH]; intros j a r ->; [by eexists|]. cbn [replicate run do_call Next maxAttempts computeLocked jitter raw Z.ltb Z.compare andb].
  assert (0 ≤ d * k ^ Z.of_nat j) by (apply Z.mul_nonneg_nonneg; [lia|apply Z.pow_nonneg; lia]).
  unfold Next. cbn [maxAttempts computeLocked jitter raw Z.ltb Z.compare andb mbind option_bind].
  rewrite (advance_exact _ k) by (cbn [factor raw max]; try done; lia). cbn [base factor max raw].
  destruct (IH (S j) (i64 (a + 1)) (Z.min m (Z.min m (d * k ^ Z.of_nat j) * k))) as [b Hb].
  - rewrite Nat2Z.inj_succ, Z.pow_succ_r by lia. nia.
  - exists b. unfold with_raw. cbn [base factor max jitter maxAttempts attempt raw last]. rewrite Hb. done.
Qed.

(** ** Witnesses and limits *)

Definition low : Z → Z := λ _, 0.
Definition high : Z → Z := λ n, n - 1.
Lemma low_good : good_draw low.
Proof. intros n Hn. unfold low. lia. Qed.
Lemma high_good : good_draw high.
Proof. intros n Hn. unfold high. lia. Qed.

Lemma delays_bounded_witness : ∃ b ds, run (New [WithJitter JitterDecorrelated; WithFactor (S754_infinity false)]) [CNext high; CReset; CNext low] = Some (b, ds) ∧
  Forall (delay_ok (10 * 10 ^ 9)) ds.
Proof.
  destruct (delays_bounded [WithJitter JitterDecorrelated; WithFactor (S754_infinity false)] [CNext high; CReset; CNext low]) as (b & ds & H1 & H2 & _).
  - unfold good_options. cbn [fold_left apply_option base factor max]. split; [split; reflexivity|]. split; [vm_compute; congruence|]. split; [vm_compute; congruence|]. left. lia.
  - constructor; [apply high_good|]. constructor; [exact I|]. constructor; [apply low_good|]. constructor.
  - exists b, ds. split; [exact H1|exact H2].
Defined.

Lemma attempts_exact_witness : ∃ b' rs, run (Reset (New [WithMaxAttempts 2])) (CNext <$> [high; low; low]) = Some (b', rs) ∧ length rs = 3%nat ∧
  ∀ i r, rs !! i = Some r → is_Some r ↔ (i < 2)%nat.
Proof.
  destruct (attempts_exact [WithMaxAttempts 2] [] [high; low; low] (Reset (New [WithMaxAttempts 2])) []) as (b' & rs & H1 & H2 & H3).
  - unfold good_options. cbn [fold_left apply_option base factor max]. split; [split; reflexivity|]. split; [vm_compute; congruence|]. split; [vm_compute; congruence|]. left. lia.
  - constructor.
  - reflexivity.
  - constructor; [apply high_good|]. constructor; [apply low_good|]. constructor; [apply low_good|]. constructor.
  - vm_compute. split; congruence.
  - exists b', rs. split; [exact H1|]. split; [exact H2|exact H3].
Defined.

Lemma exponential_exact_witness : ∃ b, run (New [WithBase 100; WithFactor (f64_of_Z 3); WithMax 1000; WithJitter JitterNone]) (replicate 4 (CNext low)) =
  Some (b, [Some 100; Some 300; Some 900; Some 1000]).
Proof. destruct (exponential_exact 100 3 1000 4 low) as [b Hb]; [lia..|]. exists b. exact Hb. Defined.

(** [New] promises that no later call emits a negative delay, but a factor that is a NaN passes its clamp. *)
Example nan_factor_negative : ∃ b, run (New [WithFactor S754_nan; WithJitter JitterNone]) [CNext low; CNext low] = Some (b, [Some (100 * 10 ^ 6); Some min_i64]).
Proof. eexists. vm_compute. reflexivity. Qed.

(** So does an infinite one over a base of 0. *)
Example infinite_factor_negative : ∃ b, run (New [WithBase 0; WithFactor (S754_infinity false); WithJitter JitterNone]) [CNext low; CNext low] = Some (b, [Some 0; Some min_i64]).
Proof. eexists. vm_compute. reflexivity. Qed.
