(* ===== verification/SlidingWindow.v ===== *)
(** * SlidingWindow: aggregates over the last values ([slidingwindow/slidingwindow.go])

    Values and sums are binary64 (FloatOrder.v); the circular slices are the [view] of RingBuffers.v.

    Shown: [Window] holds the last [cap] values pushed since the last [Clear], and its cached minimum and maximum are those of these values
    as long as no value is a NaN ([window_refines]); when the values are integers that leave room below [2^53] the running sum, updated by one subtraction
    and one addition per push, is exact and [Avg] is its rounded quotient ([window_sum_exact]); [TimeWindow] fed in time order holds exactly the values
    younger than its time to live, or the last [cap] of them ([time_window_exact]).
    [sum_drifts], [inf_poisons_sum], [nan_min_sticks]: otherwise the running aggregates keep traces of values that have left;
    [capacity_drops], [late_value_lingers] do the same for [TimeWindow]. *)

From Stdlib Require Import ZArith Lia Bool SpecFloat.
From stdpp Require Import base tactics numbers list sets sorting.
From S2P Require Import Prelude Float64 FloatOrder RingBuffers.

#[local] Open Scope Z_scope.

Definition f64_nan : float64 := S754_nan.

(** ** Count-based *)

Module Window.

Record t := mk {
  buf : list float64;
  head : nat;
  size : nat;
  cap : nat;
  sum : float64;
  hasMinMax : bool;
  minVal : float64;
  maxVal : float64;
}.

(** [None]: panic. *)
Definition New (capacity : Z) : option t :=
  if capacity <=? 0 then None
  else Some (mk (replicate (Z.to_nat capacity) f0) 0 0 (Z.to_nat capacity) f0 false f0 f0).

Definition Push (w : t) (v : float64) : t :=
  let w :=
    if (size w <? cap w)%nat then
      let idx := ((head w + size w) mod cap w)%nat in
      mk (<[idx := v]> (buf w)) (head w) (S (size w)) (cap w) (sum w) (hasMinMax w) (minVal w) (maxVal w)
    else
      let old := nth (head w) (buf w) f0 in
      let keep := negb (f64_eq old (minVal w) || f64_eq old (maxVal w)) in
      mk (<[head w := v]> (buf w)) ((head w + 1) mod cap w)%nat (size w) (cap w) (f64_sub (sum w) old) (hasMinMax w && keep) (minVal w) (maxVal w) in
  mk (buf w) (head w) (size w) (cap w) (f64_add (sum w) v) (hasMinMax w)
    (if hasMinMax w && f64_lt v (minVal w) then v else minVal w)
    (if hasMinMax w && f64_gt v (maxVal w) then v else maxVal w).

Definition Sum (w : t) : float64 := sum w.
Definition Count (w : t) : nat := size w.
Definition Avg (w : t) : float64 :=
  if (size w =? 0)%nat then f64_nan else f64_div (sum w) (f64_of_Z (Z.of_nat (size w))).

Definition min_step (m v : float64) : float64 := if f64_lt v m then v else m.
Definition max_step (m v : float64) : float64 := if f64_gt v m then v else m.

Definition ensureMinMax (w : t) : t :=
  if hasMinMax w then w
  else
    let first := nth (head w) (buf w) f0 in
    let rest := (λ i, nth ((head w + i) mod cap w)%nat (buf w) f0) <$> seq 1 (size w - 1) in
    mk (buf w) (head w) (size w) (cap w) (sum w) true (fold_left min_step rest first) (fold_left max_step rest first).

Definition Min (w : t) : t * float64 :=
  if (size w =? 0)%nat then (w, f64_nan) else let w := ensureMinMax w in (w, minVal w).
Definition Max (w : t) : t * float64 :=
  if (size w =? 0)%nat then (w, f64_nan) else let w := ensureMinMax w in (w, maxVal w).

Definition Clear (w : t) : t := mk (buf w) 0 0 (cap w) f0 false (minVal w) (maxVal w).

Inductive op := OPush (v : float64) | OMin | OMax | OClear.
Definition step (w : t) (o : op) : t :=
  match o with OPush v => Push w v | OMin => (Min w).1 | OMax => (Max w).1 | OClear => Clear w end.
Definition run (w : t) (os : list op) : t := fold_left step os w.

(** *** The last values *)

Definition contents (w : t) : list float64 := view f0 (buf w) (head w) (size w).

(** What a window of [n] values is after one more operation. *)
Definition spec_step (n : nat) (l : list float64) (o : op) : list float64 :=
  match o with
  | OPush v => if (length l <? n)%nat then l ++ [v] else tail l ++ [v]
  | OMin | OMax => l
  | OClear => []
  end.

Record wf (w : t) : Prop := {
  wf_len : length (buf w) = cap w;
  wf_pos : (0 < cap w)%nat;
  wf_head : (head w < cap w)%nat;
  wf_size : (size w ≤ cap w)%nat;
}.

(** A least and a greatest element. *)
Definition is_min (l : list float64) (m : float64) : Prop := m ∈ l ∧ ∀ x, x ∈ l → f64_le m x = true.
Definition is_max (l : list float64) (m : float64) : Prop := m ∈ l ∧ ∀ x, x ∈ l → f64_le x m = true.

Definition cache_ok (w : t) : Prop := hasMinMax w = true → (0 < size w)%nat ∧ is_min (contents w) (minVal w) ∧ is_max (contents w) (maxVal w).

Lemma Push_contents w v : wf w → wf (Push w v) ∧ cap (Push w v) = cap w ∧ contents (Push w v) = spec_step (cap w) (contents w) (OPush v).
Proof.
  intros [Hl Hp Hh Hs]. unfold contents, Push. cbn [spec_step]. rewrite length_view. destruct (Nat.ltb_spec (size w) (cap w)) as [Hlt|Hge]; cbn [buf head size cap].
  - split; [split; cbn; rewrite ?length_insert; lia|]. split; [done|]. rewrite <-Hl. apply view_push. lia.
  - split; [split; cbn; rewrite ?length_insert; try lia; apply Nat.mod_upper_bound; lia|]. split; [done|].
    replace (size w) with (length (buf w)) by lia. rewrite <-Hl. apply view_rotate. lia.
Qed.

(** *** Extremes *)

Lemma le_refl x : num x → f64_le x x = true.
Proof. intros Hx. apply le_E; [done..|lia]. Qed.
Lemma le_trans_num x y z : num x → num y → num z → f64_le x y = true → f64_le y z = true → f64_le x z = true.
Proof. intros Hx Hy Hz. rewrite !le_E by done. lia. Qed.
Lemma not_lt_le x y : num x → num y → f64_lt x y = false → f64_le y x = true.
Proof. intros Hx Hy H. apply le_E; [done..|]. by apply lt_E_false. Qed.
Lemma lt_le_num x y : num x → num y → f64_lt x y = true → f64_le x y = true.
Proof. intros Hx Hy. rewrite lt_E, le_E by done. lia. Qed.

Lemma min_snoc l m v : Forall num l → num v → is_min l m → is_min (l ++ [v]) (min_step m v).
Proof.
  intros Hl Hv [Hm Hle]. assert (num m) as Hnm by (by eapply Forall_forall). unfold min_step. destruct (f64_lt v m) eqn:Hc.
  - split; [set_solver|]. intros x [Hx| ->%list_elem_of_singleton]%elem_of_app; [|by apply le_refl]. apply (le_trans_num _ m); [done..|by eapply Forall_forall| |by apply Hle].
    by apply lt_le_num.
  - split; [set_solver|]. intros x [Hx| ->%list_elem_of_singleton]%elem_of_app; [by apply Hle|]. by apply not_lt_le.
Qed.
Lemma max_snoc l m v : Forall num l → num v → is_max l m → is_max (l ++ [v]) (max_step m v).
Proof.
  intros Hl Hv [Hm Hle]. assert (num m) as Hnm by (by eapply Forall_forall). unfold max_step. destruct (f64_gt v m) eqn:Hc.
  - split; [set_solver|]. intros x [Hx| ->%list_elem_of_singleton]%elem_of_app; [|by apply le_refl].
    apply (le_trans_num _ m); [by eapply Forall_forall|done..|by apply Hle|by apply lt_le_num].
  - split; [set_solver|]. intros x [Hx| ->%list_elem_of_singleton]%elem_of_app; [by apply Hle|]. by apply not_lt_le.
Qed.

Lemma fold_extremes r : ∀ l m M, Forall num (l ++ r) → is_min l m → is_max l M →
  is_min (l ++ r) (fold_left min_step r m) ∧ is_max (l ++ r) (fold_left max_step r M).
Proof.
  induction r as [|v r IH]; intros l m M Hn Hmin Hmax; [by rewrite app_nil_r|]. cbn [fold_left].
  replace (l ++ v :: r) with ((l ++ [v]) ++ r) in * by (by rewrite <-app_assoc). pose proof Hn as [[Hl Hv]%Forall_app _]%Forall_app. rewrite Forall_singleton in Hv.
  apply IH; [exact Hn|by apply min_snoc|by apply max_snoc].
Qed.

Lemma is_min_tail o l m : num o → is_min (o :: l) m → f64_eq o m = false → is_min l m.
Proof.
  intros Ho [Hm Hle] Hne. split; [|intros x Hx; apply Hle; set_solver]. apply elem_of_cons in Hm as [->|Hm]; [|done].
  rewrite (proj2 (eq_E o o Ho Ho) eq_refl) in Hne. done.
Qed.
Lemma is_max_tail o l m : num o → is_max (o :: l) m → f64_eq o m = false → is_max l m.
Proof.
  intros Ho [Hm Hle] Hne. split; [|intros x Hx; apply Hle; set_solver]. apply elem_of_cons in Hm as [->|Hm]; [|done].
  rewrite (proj2 (eq_E o o Ho Ho) eq_refl) in Hne. done.
Qed.

Lemma contents_cons w : wf w → (0 < size w)%nat →
  contents w = nth (head w) (buf w) f0 :: ((λ i, nth ((head w + i) mod cap w)%nat (buf w) f0) <$> seq 1 (size w - 1)).
Proof.
  intros [Hl Hp Hh Hs] H0. unfold contents, view. destruct (size w) as [|n] eqn:Hn; [lia|]. cbn [seq]. rewrite fmap_cons, Hl, Nat.add_0_r, Nat.mod_small by lia.
  by rewrite Nat.sub_succ, Nat.sub_0_r.
Qed.

Lemma ensureMinMax_ok w : wf w → Forall num (contents w) → cache_ok w → (0 < size w)%nat →
  wf (ensureMinMax w) ∧ contents (ensureMinMax w) = contents w ∧ cap (ensureMinMax w) = cap w ∧ cache_ok (ensureMinMax w) ∧ hasMinMax (ensureMinMax w) = true.
Proof.
  intros Hwf Hn Hc H0. unfold ensureMinMax. destruct (hasMinMax w) eqn:Hm; [done|]. split; [by destruct Hwf|]. split; [done|]. split; [done|]. split; [|done].
  intros _. split; [done|]. cbn [minVal maxVal]. change (contents (mk _ _ _ _ _ _ _ _)) with (contents w). rewrite (contents_cons w Hwf H0) in *.
  set (x := nth _ _ _) in *. set (r := _ <$> seq 1 _) in *. clearbody x r. apply (fold_extremes r [x]); [done|..]; apply Forall_cons in Hn as [Hx _];
    (split; [set_solver|]); intros y ->%list_elem_of_singleton; by apply le_refl.
Qed.

Lemma Push_cache w v : wf w → Forall num (contents w) → num v → cache_ok w → cache_ok (Push w v).
Proof.
  intros Hwf Hn Hv Hc Hm. destruct (Push_contents w v Hwf) as (Hwf' & Hcap & ->). cbn [spec_step]. assert (length (contents w) = size w) as Hlen by apply length_view. rewrite !Hlen. revert Hm. unfold Push.
  destruct (Nat.ltb_spec (size w) (cap w)) as [Hlt|Hge]; cbn [hasMinMax minVal maxVal size].
  - intros Hm. rewrite !Hm. destruct (Hc Hm) as (H0 & Hmin & Hmax). cbn [andb]. split; [lia|].
    split; [by apply (min_snoc (contents w))|by apply (max_snoc (contents w))].
  - intros [Hm [Hk1 Hk2]%negb_true_iff%orb_false_iff]%andb_true_iff. rewrite Hm, Hk1, Hk2. destruct (Hc Hm) as (H0 & Hmin & Hmax). cbn [andb negb orb]. split; [done|].
    rewrite (contents_cons w Hwf H0) in *. cbn [tail]. apply Forall_cons in Hn as [Ho Hr].
    split; [apply min_snoc; [done..|]; exact (is_min_tail _ _ _ Ho Hmin Hk1)|apply max_snoc; [done..|]; exact (is_max_tail _ _ _ Ho Hmax Hk2)].
Qed.

Definition good_op (o : op) : Prop := match o with OPush v => num v | _ => True end.

Record inv (w : t) : Prop := { inv_wf : wf w; inv_num : Forall num (contents w); inv_cache : cache_ok w }.

Lemma step_inv w o : inv w → good_op o → inv (step w o) ∧ cap (step w o) = cap w ∧ contents (step w o) = spec_step (cap w) (contents w) o.
Proof.
  intros [Hwf Hn Hc] Ho. destruct o as [v| | |]; cbn [step spec_step].
  - destruct (Push_contents w v Hwf) as (Hwf' & Hcap & Hct). split; [split; [done| |by apply Push_cache]|done]. rewrite Hct. cbn [spec_step].
    destruct (_ <? _)%nat; (apply Forall_app; split; [|by apply Forall_singleton]); [done|]. by apply Forall_tail.
  - unfold Min. destruct (Nat.eqb_spec (size w) 0) as [H0|H0]; [by split|]. destruct (ensureMinMax_ok w Hwf Hn Hc ltac:(lia)) as (H1 & H2 & H3 & H4 & _).
    cbn [fst]. split; [|done]. split; [done| |done]. by rewrite H2.
  - unfold Max. destruct (Nat.eqb_spec (size w) 0) as [H0|H0]; [by split|]. destruct (ensureMinMax_ok w Hwf Hn Hc ltac:(lia)) as (H1 & H2 & H3 & H4 & _).
    cbn [fst]. split; [|done]. split; [done| |done]. by rewrite H2.
  - split; [|done]. split; [|constructor|by intros]. destruct Hwf. split; cbn; lia.
Qed.

Lemma run_inv n os : ∀ w l, inv w → Forall good_op os → cap w = n → contents w = l →
  inv (run w os) ∧ cap (run w os) = n ∧ contents (run w os) = fold_left (spec_step n) os l.
Proof.
  induction os as [|o os IH]; intros w l Hi Ho Hcap Hl; [done|]. apply Forall_cons in Ho as [Ho Hos]. destruct (step_inv w o Hi Ho) as (Hi' & Hcap' & Hct).
  apply (IH (step w o)); [done..|congruence|]. rewrite Hct. congruence.
Qed.

Lemma New_ok_window c w : New c = Some w → inv w ∧ cap w = Z.to_nat c ∧ contents w = [].
Proof.
  unfold New. destruct (Z.leb_spec c 0); [done|]. intros [= <-]. split; [|done]. split; [|constructor|done]. split; cbn; rewrite ?length_replicate; lia.
Qed.

Lemma tail_drop {A} k (l : list A) : tail (drop k l) = drop (S k) l.
Proof. revert l. induction k as [|k IH]; intros [|x l]; try done. apply IH. Qed.

(** The last [n] of a sequence of pushes. *)
Lemma spec_pushes n vs : (0 < n)%nat → fold_left (spec_step n) (OPush <$> vs) [] = drop (length vs - n) vs.
Proof.
  intros Hn. induction vs as [|v vs IH] using rev_ind; [done|]. rewrite fmap_app, fold_left_app, IH. cbn [fmap list_fmap fold_left spec_step].
  rewrite length_drop, length_app. cbn [length]. destruct (Nat.ltb_spec (length vs - (length vs - n)) n).
  - replace (length vs - n)%nat with 0%nat by lia. replace (length vs + 1 - n)%nat with 0%nat by lia. done.
  - replace (length vs + 1 - n)%nat with (S (length vs - n)) by lia. rewrite drop_app_le by lia. by rewrite tail_drop.
Qed.

(** After any operations whose values are not NaN the window holds the abstract sequence of last values, its count is theirs, its minimum and
    maximum are a least and a greatest of them (or a NaN when it is empty), and after a [Clear] and any pushes that sequence is the last [capacity] of these. *)
Theorem window_refines capacity w0 os : New capacity = Some w0 → Forall good_op os →
  let n := Z.to_nat capacity in let w := run w0 os in let l := fold_left (spec_step n) os [] in
  contents w = l ∧ Count w = length l ∧
  (if decide (l = []) then (Min w).2 = f64_nan ∧ (Max w).2 = f64_nan else is_min l (Min w).2 ∧ is_max l (Max w).2) ∧
  ∀ vs, Forall num vs → contents (run w (OClear :: (OPush <$> vs))) = drop (length vs - n) vs.
Proof.
  intros HN Ho n w l. destruct (New_ok_window _ _ HN) as (Hi & Hcap & Hct). destruct (run_inv n os w0 [] Hi Ho Hcap Hct) as (Hi' & Hcap' & Hct').
  fold w in Hi', Hcap', Hct'. fold l in Hct'. assert (size w = length l) as Hs by (rewrite <-Hct'; symmetry; apply length_view).
  split; [done|]. split; [done|]. split.
  - unfold Min, Max. rewrite Hs. destruct l as [|x l'] eqn:Hl; [done|]. cbn [length Nat.eqb snd]. rewrite decide_False by done. destruct Hi' as [Hwf Hn Hc].
    destruct (ensureMinMax_ok w Hwf Hn Hc) as (_ & Hsame & _ & Hc' & Hm); [rewrite Hs; cbn; lia|]. destruct (Hc' Hm) as (_ & Hmin & Hmax). rewrite Hsame, Hct' in *. done.
  - intros vs Hvs. destruct (run_inv n (OClear :: (OPush <$> vs)) w l Hi') as (_ & _ & ->); [|done..|].
    + constructor; [done|]. by apply Forall_fmap.
    + cbn [fold_left spec_step]. apply spec_pushes. destruct (inv_wf _ Hi). lia.
Qed.

(** *** Exact sums *)

(** Values that are integers of magnitude at most [m]. *)
Definition int_values (m : Z) (zs : list Z) (l : list float64) : Prop := Forall2 (λ z v, is_int z v ∧ - m ≤ z ≤ m) zs l.

Lemma int_sum_bound m zs l : 0 ≤ m → int_values m zs l → - (Z.of_nat (length l) * m) ≤ zsum zs ≤ Z.of_nat (length l) * m.
Proof. intros Hm. induction 1 as [|z v zs l [_ Hz] _ IH]; [done|]. cbn [zsum length]. nia. Qed.

(** The sum is that of the integers held. *)
Definition sum_inv (m : Z) (w : t) : Prop := ∃ zs, int_values m zs (contents w) ∧ is_int (zsum zs) (sum w).

Definition int_op (m : Z) (o : op) : Prop := match o with OPush v => ∃ z, is_int z v ∧ - m ≤ z ≤ m | _ => True end.

Lemma is_int_num z v : is_int z v → num v.
Proof. intros (Hv & Hf & _). by apply num_finite. Qed.
Lemma int_op_good m o : int_op m o → good_op o.
Proof. destruct o as [v| | |]; try done. intros (z & Hz & _). by eapply is_int_num. Qed.

Lemma Push_sum m w v : wf w → 0 ≤ m → (Z.of_nat (cap w) + 1) * m ≤ 2 ^ 53 → int_op m (OPush v) → sum_inv m w → sum_inv m (Push w v).
Proof.
  intros Hwf Hm Hb (z & Hz & Hzm) (zs & Hzs & Hsum). destruct (Push_contents w v Hwf) as (_ & _ & Hct). assert (length (contents w) = size w) as Hlen by apply length_view.
  pose proof (int_sum_bound m zs _ Hm Hzs) as Hbound. pose proof (wf_size w Hwf) as Hsz. unfold sum_inv. rewrite Hct. cbn [spec_step]. rewrite Hlen in *. unfold Push.
  destruct (Nat.ltb_spec (size w) (cap w)) as [Hlt|Hge]; cbn [sum].
  - exists (zs ++ [z]). split; [apply Forall2_app; [done|constructor; [done|constructor]]|]. rewrite zsum_app. cbn [zsum]. rewrite Z.add_0_r.
    apply add_int; [done..|]. unfold exact_int. nia.
  - rewrite (contents_cons w Hwf) in * by (pose proof (wf_pos w Hwf); lia). destruct zs as [|z0 zs']; [by inversion Hzs|]. apply Forall2_cons_1 in Hzs as [[Ho Hz0] Hzs']. cbn [tail zsum] in *.
    pose proof (int_sum_bound m zs' _ Hm Hzs') as Hb'. rewrite length_fmap, length_seq in Hb'. pose proof (wf_pos w Hwf).
    exists (zs' ++ [z]). split; [apply Forall2_app; [done|constructor; [done|constructor]]|]. rewrite zsum_app. cbn [zsum]. rewrite Z.add_0_r.
    apply add_int; [|done|unfold exact_int; nia]. replace (zsum zs') with (z0 + zsum zs' - z0) by lia. apply sub_int; [done..|]. unfold exact_int. nia.
Qed.

Lemma ensureMinMax_frame w : contents (ensureMinMax w) = contents w ∧ sum (ensureMinMax w) = sum w.
Proof. unfold ensureMinMax. by destruct (hasMinMax w). Qed.

Lemma step_sum m w o : inv w → 0 ≤ m → (Z.of_nat (cap w) + 1) * m ≤ 2 ^ 53 → int_op m o → sum_inv m w → sum_inv m (step w o).
Proof.
  intros Hi Hm Hb Ho Hs. destruct o as [v| | |]; cbn [step].
  - apply Push_sum; [apply Hi|done..].
  - unfold Min, sum_inv. destruct (_ =? _)%nat; [done|]. cbn [fst]. destruct (ensureMinMax_frame w) as [-> ->]. done.
  - unfold Max, sum_inv. destruct (_ =? _)%nat; [done|]. cbn [fst]. destruct (ensureMinMax_frame w) as [-> ->]. done.
  - exists []. split; [constructor|]. cbn. destruct f0_V as (? & ? & HV). by rewrite <-HV.
Qed.

Lemma run_sum m os : ∀ w, inv w → 0 ≤ m → (Z.of_nat (cap w) + 1) * m ≤ 2 ^ 53 → Forall (int_op m) os → sum_inv m w → sum_inv m (run w os).
Proof.
  induction os as [|o os IH]; intros w Hi Hm Hb Ho Hs; [done|]. apply Forall_cons in Ho as [Ho Hos]. destruct (step_inv w o Hi (int_op_good m o Ho)) as (Hi' & Hcap & _).
  apply (IH (step w o)); [done..|by rewrite Hcap|done|]. by apply step_sum.
Qed.

(** If all values pushed are integers of magnitude at most [m], and one more than the capacity times [m] is at most [2^53], then after any operations the
    running sum is exactly the sum of the values in the window, and the average its quotient by their number, rounded once. *)
Theorem window_sum_exact capacity w0 m os : New capacity = Some w0 → 0 < m → (capacity + 1) * m ≤ 2 ^ 53 → Forall (int_op m) os →
  let w := run w0 os in
  ∃ zs, int_values m zs (contents w) ∧ is_int (zsum zs) (Sum w) ∧
    ((0 < Count w)%nat → rounds_ratio (zsum zs * U) (Z.of_nat (Count w)) (Avg w)).
Proof.
  intros HN Hm Hb Ho w. destruct (New_ok_window _ _ HN) as (Hi & Hcap & Hct). assert (0 < capacity) as Hc.
  { unfold New in HN. destruct (Z.leb_spec capacity 0); [done|lia]. }
  assert (sum_inv m w0) as Hs0.
  { exists []. rewrite Hct. split; [constructor|]. unfold New in HN. destruct (capacity <=? 0); [done|]. simplify_eq. exact (conj (proj1 f0_V) (conj I (proj2 (proj2 f0_V)))). }
  destruct (run_sum m os w0 Hi ltac:(lia)) as (zs & Hzs & Hsum); [rewrite Hcap; lia|done..|]. exists zs. split; [done|]. split; [done|]. intros H0.
  assert (Z.of_nat (Count w) ≤ 2 ^ 53) as Hn.
  { assert (Forall good_op os) as Hg by (eapply Forall_impl; [exact Ho|apply int_op_good]). destruct (run_inv _ os w0 [] Hi Hg Hcap Hct) as ([Hwf _ _] & Hcap' & _).
    pose proof (wf_size _ Hwf) as Hsz. rewrite Hcap' in Hsz. unfold Count. fold w in Hsz. nia. }
  unfold Avg. fold (Count w). rewrite (proj2 (Nat.eqb_neq _ _)) by lia. destruct (of_Z_int (Z.of_nat (Count w))) as (Vn & Fn & HVn); [unfold exact_int; lia|].
  destruct Hsum as (Vs & Fs & HVs). pose proof U_pos as HU. pose proof (div_rounds _ _ Vs Vn Fs Fn ltac:(rewrite HVn; nia)) as (Hv & Hge & Hle). rewrite HVs, HVn, U_eq in *.
  split; [done|]. split; intros x Hx Fx Hb'; [apply Hge|apply Hle]; try done; nia.
Qed.
End Window.

(** ** Time-based *)

Module TimeWindow.

Record twEntry := Entry { val : float64; ts : Z }.
Definition zero_entry : twEntry := Entry f0 0.

Record t := mk {
  ttl : Z;
  vals : list twEntry;
  head : nat;
  size : nat;
  cap : nat;
  sum : float64;
}.

(** [None]: panic. *)
Definition NewTimeWindow (ttl : Z) (maxCapacity : Z) : option t :=
  if ttl <=? 0 then None
  else
    let c := Z.to_nat (if maxCapacity <=? 0 then 1024 else maxCapacity) in
    Some (mk ttl (replicate c zero_entry) 0 0 c f0).

(** The loop of [Push]: at most [size] rounds. *)
Fixpoint evict (rounds : nat) (cutoff : Z) (w : t) : t :=
  match rounds with
  | O => w
  | S rounds =>
      if (size w =? 0)%nat then w
      else
        let e := nth (head w) (vals w) zero_entry in
        if cutoff <? ts e then w
        else evict rounds cutoff (mk (ttl w) (vals w) ((head w + 1) mod cap w)%nat (size w - 1) (cap w) (f64_sub (sum w) (val e)))
  end.

Definition Push (w : t) (v : float64) (at_ : Z) : t :=
  let w := evict (size w) (at_ - ttl w) w in
  let w :=
    if (size w <? cap w)%nat then
      mk (ttl w) (<[((head w + size w) mod cap w)%nat := Entry v at_]> (vals w)) (head w) (S (size w)) (cap w) (sum w)
    else
      mk (ttl w) (<[head w := Entry v at_]> (vals w)) ((head w + 1) mod cap w)%nat (size w) (cap w) (f64_sub (sum w) (val (nth (head w) (vals w) zero_entry))) in
  mk (ttl w) (vals w) (head w) (size w) (cap w) (f64_add (sum w) v).

Definition Sum (w : t) : float64 := sum w.
Definition Count (w : t) : nat := size w.
Definition Avg (w : t) : float64 :=
  if (size w =? 0)%nat then f64_nan else f64_div (sum w) (f64_of_Z (Z.of_nat (size w))).

Definition contents (w : t) : list twEntry := view zero_entry (vals w) (head w) (size w).

Record wf (w : t) : Prop := {
  wf_len : length (vals w) = cap w;
  wf_pos : (0 < cap w)%nat;
  wf_head : (head w < cap w)%nat;
  wf_size : (size w ≤ cap w)%nat;
}.

Definition run (w : t) (es : list twEntry) : t := fold_left (λ w e, Push w (val e) (ts e)) es w.

(** *** Contents *)

Fixpoint drop_old (cutoff : Z) (l : list twEntry) : list twEntry :=
  match l with [] => [] | e :: l' => if cutoff <? ts e then l else drop_old cutoff l' end.

Lemma view_shift (buf : list twEntry) h n : (h < length buf)%nat → (S n ≤ length buf)%nat →
  view zero_entry buf h (S n) = nth h buf zero_entry :: view zero_entry buf ((h + 1) mod length buf) n.
Proof.
  intros Hh Hn. pose proof (view_pop zero_entry buf h n (nth h buf zero_entry) Hh Hn) as Hp. rewrite Hp. f_equal. f_equal.
  apply list_insert_id. rewrite nth_lookup. destruct (lookup_lt_is_Some_2 buf h Hh) as [x ->]. done.
Qed.

Lemma tw_evict_spec k cutoff : ∀ w, wf w → (size w ≤ k)%nat →
  wf (evict k cutoff w) ∧ ttl (evict k cutoff w) = ttl w ∧ cap (evict k cutoff w) = cap w ∧ contents (evict k cutoff w) = drop_old cutoff (contents w).
Proof.
  induction k as [|k IH]; intros w Hwf Hk.
  - cbn [evict]. assert (size w = 0%nat) as H0 by lia. unfold contents. by rewrite H0.
  - cbn [evict]. destruct (Nat.eqb_spec (size w) 0) as [H0|H0]; [unfold contents; by rewrite H0|]. pose proof Hwf as [Hl Hp Hh Hs].
    assert (contents w = nth (head w) (vals w) zero_entry :: view zero_entry (vals w) ((head w + 1) mod cap w) (size w - 1)) as Hct.
    { unfold contents. destruct (size w) as [|n]; [done|]. rewrite view_shift, Hl by lia. do 2 f_equal. lia. }
    rewrite Hct. cbn [drop_old]. destruct (Z.ltb_spec cutoff (ts (nth (head w) (vals w) zero_entry))); [by rewrite Hct|].
    destruct (IH (mk (ttl w) (vals w) ((head w + 1) mod cap w)%nat (size w - 1) (cap w) (f64_sub (sum w) (val (nth (head w) (vals w) zero_entry))))) as (H1 & H2 & H3 & H4);
      [split; cbn; try lia; apply Nat.mod_upper_bound; lia|cbn; lia|]. split; [exact H1|]. split; [exact H2|]. split; [exact H3|]. exact H4.
Qed.

Definition spec_push (life : Z) (n : nat) (l : list twEntry) (e : twEntry) : list twEntry :=
  let l := drop_old (ts e - life) l in (if (length l <? n)%nat then l else tail l) ++ [e].

Lemma tw_push_spec w e : wf w → wf (Push w (val e) (ts e)) ∧ ttl (Push w (val e) (ts e)) = ttl w ∧ cap (Push w (val e) (ts e)) = cap w ∧
  contents (Push w (val e) (ts e)) = spec_push (ttl w) (cap w) (contents w) e.
Proof.
  intros Hwf. unfold Push, spec_push. destruct (tw_evict_spec (size w) (ts e - ttl w) w Hwf (le_n _)) as ([Hl Hp Hh Hs] & Ht & Hc & <-). set (w1 := evict _ _ _) in *.
  replace (Entry (val e) (ts e)) with e by (by destruct e). unfold contents at 2 3 4. rewrite length_view, <-Ht, <-Hc.
  destruct (Nat.ltb_spec (size w1) (cap w1)) as [Hlt|Hge]; unfold contents; cbn [vals head size cap ttl].
  - split; [split; cbn; rewrite ?length_insert; lia|]. split; [done|]. split; [done|]. rewrite <-Hl. apply view_push. lia.
  - split; [split; cbn; rewrite ?length_insert; try lia; apply Nat.mod_upper_bound; lia|]. split; [done|]. split; [done|].
    replace (size w1) with (length (vals w1)) by lia. rewrite <-Hl. apply view_rotate. lia.
Qed.

(** The last [n] elements. *)
Definition lastn {A} (n : nat) (l : list A) : list A := drop (length l - n) l.

Definition in_order (es : list twEntry) : Prop := StronglySorted (λ e e', ts e ≤ ts e') es.

Lemma drop_old_spec cutoff l : in_order l →
  ∃ A, l = A ++ drop_old cutoff l ∧ Forall (λ e, ts e ≤ cutoff) A ∧ Forall (λ e, cutoff < ts e) (drop_old cutoff l).
Proof.
  induction 1 as [|e l Hs IH He]; [by exists []|]. cbn [drop_old]. destruct (Z.ltb_spec cutoff (ts e)) as [Hlt|Hge].
  - exists []. split; [done|]. split; [done|]. constructor; [done|]. eapply Forall_impl; [exact He|]. cbn. lia.
  - destruct IH as (A & HA & HA1 & HA2). exists (e :: A). split; [cbn; by rewrite <-HA|]. split; [by constructor|done].
Qed.

Lemma drop_old_young cutoff l : Forall (λ e, cutoff < ts e) l → drop_old cutoff l = l.
Proof. destruct 1 as [|e l He _]; [done|]. cbn. by destruct (Z.ltb_spec cutoff (ts e)); [|lia]. Qed.
Lemma drop_old_app cutoff A B : Forall (λ e, ts e ≤ cutoff) A → drop_old cutoff (A ++ B) = drop_old cutoff B.
Proof. induction 1 as [|e A He _ IH]; [done|]. cbn. by destruct (Z.ltb_spec cutoff (ts e)); [lia|]. Qed.

Lemma drop_old_again c c' l : c ≤ c' → drop_old c' (drop_old c l) = drop_old c' l.
Proof.
  intros Hc. induction l as [|e l IH]; [done|]. cbn [drop_old]. destruct (Z.ltb_spec c (ts e)); [done|]. destruct (Z.ltb_spec c' (ts e)); [lia|]. done.
Qed.

Lemma drop_old_lastn c n l : in_order l → drop_old c (lastn n l) = lastn n (drop_old c l).
Proof.
  intros Hs. destruct (drop_old_spec c l Hs) as (A & HA & HA1 & HB). remember (drop_old c l) as B eqn:HB0. clear HB0 Hs. subst l. unfold lastn. rewrite length_app.
  destruct (Nat.le_gt_cases (length A + length B - n) (length A)) as [Hle|Hgt].
  - rewrite drop_app_le by done. rewrite drop_old_app by (by apply Forall_drop). rewrite drop_old_young by done. by replace (length B - n)%nat with 0%nat by lia.
  - rewrite drop_app_ge by lia. rewrite drop_old_young by (by apply Forall_drop). f_equal. lia.
Qed.

Lemma drop_old_filter c l : in_order l → drop_old c l = filter (λ e, c < ts e) l.
Proof.
  intros Hs. destruct (drop_old_spec c l Hs) as (A & HA & HA1 & HB). rewrite HA at 2. rewrite filter_app. rewrite (filter_all _ (drop_old c l)) by (by apply Forall_forall).
  rewrite filter_none; [done|]. intros e He. pose proof (proj1 (Forall_forall _ _) HA1 e He). cbn in *. lia.
Qed.

Lemma lastn_snoc {A} n (l : list A) x : (0 < n)%nat → (if (length (lastn n l) <? n)%nat then lastn n l else tail (lastn n l)) ++ [x] = lastn n (l ++ [x]).
Proof.
  intros Hn. unfold lastn. rewrite length_drop, length_app. cbn [length]. destruct (Nat.ltb_spec (length l - (length l - n)) n).
  - replace (length l - n)%nat with 0%nat by lia. by replace (length l + 1 - n)%nat with 0%nat by lia.
  - rewrite Window.tail_drop, drop_app_le by lia. do 2 f_equal. lia.
Qed.

Lemma drop_old_order c l : in_order l → in_order (drop_old c l).
Proof. induction 1 as [|e l Hs IH He]; [constructor|]. cbn. destruct (c <? ts e); [by constructor|done]. Qed.

(** Pushes in time order. *)
Lemma tw_run_spec es : ∀ w, wf w → 0 < ttl w → contents w = [] → in_order es → wf (run w es) ∧ ttl (run w es) = ttl w ∧ cap (run w es) = cap w ∧
  ∀ e, last es = Some e → contents (run w es) = lastn (cap w) (drop_old (ts e - ttl w) es).
Proof.
  induction es as [|e es IH] using rev_ind; intros w Hwf Ht Hct Hs; [by split|]. unfold in_order in Hs. apply StronglySorted_app in Hs as (Hle & Hs & _).
  destruct (IH w Hwf Ht Hct Hs) as (Hwf1 & Ht1 & Hc1 & Hlast). unfold run. rewrite fold_left_app. cbn [fold_left]. fold (run w es).
  destruct (tw_push_spec (run w es) e Hwf1) as (Hwf2 & Ht2 & Hc2 & Hct2). rewrite Ht1, Hc1 in *. split; [done|]. split; [done|]. split; [done|].
  intros e' He'. rewrite last_snoc in He'. injection He' as <-. rewrite Hct2. unfold spec_push. pose proof (wf_pos w Hwf) as Hpos.
  assert (drop_old (ts e - ttl w) (contents (run w es)) = lastn (cap w) (drop_old (ts e - ttl w) es)) as ->.
  { destruct (last es) as [e0|] eqn:He0.
    - rewrite (Hlast e0 eq_refl), drop_old_lastn by (by apply drop_old_order). rewrite drop_old_again; [done|].
      apply last_Some in He0 as [es0 ->]. assert (ts e0 ≤ ts e); [|lia]. apply Hle; set_solver.
    - apply last_None in He0 as ->. cbn. by rewrite Hct. }
  rewrite lastn_snoc by done. f_equal. rewrite !drop_old_filter; [|apply StronglySorted_app; split; [done|]; split; [done|by repeat constructor]|done].
  rewrite filter_app. f_equal. symmetry. rewrite filter_all; [done|]. intros x ->%list_elem_of_singleton. lia.
Qed.

(** Fed in time order, the window holds after each push exactly the entries younger than its time to live relative to that push, or the last
    [capacity] of them when there are more. *)
Theorem time_window_exact life c w es e : NewTimeWindow life c = Some w → in_order (es ++ [e]) →
  contents (run w (es ++ [e])) = lastn (cap w) (filter (λ e', ts e - life < ts e') (es ++ [e])) ∧
  Count (run w (es ++ [e])) = Nat.min (cap w) (length (filter (λ e', ts e - life < ts e') (es ++ [e]))).
Proof.
  intros HN Hs. unfold NewTimeWindow in HN. destruct (Z.leb_spec life 0); [done|]. injection HN as <-. set (n := Z.to_nat _). assert (0 < n)%nat as Hn by (unfold n; destruct (Z.leb_spec c 0); lia).
  set (w := mk _ _ _ _ _ _). assert (wf w) as Hwf by (split; cbn; rewrite ?length_replicate; lia).
  destruct (tw_run_spec (es ++ [e]) w Hwf) as (_ & _ & _ & Hct); [cbn; lia|done..|]. specialize (Hct e (last_snoc _ _)). cbn [ttl cap w] in Hct. cbn [cap w].
  rewrite drop_old_filter in Hct by done. split; [done|]. assert (Count (run w (es ++ [e])) = length (contents (run w (es ++ [e])))) as -> by (symmetry; apply length_view).
  rewrite Hct. unfold lastn. rewrite length_drop. lia.
Qed.
End TimeWindow.

(** ** Witnesses and limits *)

Lemma window_refines_witness : ∃ w, Window.New 2 = Some w ∧
  Window.is_min [f0; f1] (Window.Min (Window.run w [Window.OPush f1; Window.OMin; Window.OPush f0; Window.OPush f1])).2.
Proof.
  destruct (Window.New 2) as [w|] eqn:HN; [|vm_compute in HN; discriminate HN]. exists w. split; [reflexivity|].
  destruct (Window.window_refines 2 w [Window.OPush f1; Window.OMin; Window.OPush f0; Window.OPush f1] HN) as (_ & _ & Hm & _).
  - constructor; [apply f1_num|]. constructor; [exact I|]. constructor; [apply f0_num|]. constructor; [apply f1_num|]. constructor.
  - destruct (decide _) as [He|_]; [discriminate He|]. destruct Hm as [Hm _]. exact Hm.
Defined.

Lemma window_sum_exact_witness : ∃ w zs, Window.New 2 = Some w ∧ is_int (zsum zs) (Window.Sum (Window.run w (Window.OPush <$> [f64_of_Z 7; f64_of_Z (-3); f64_of_Z 5]))).
Proof.
  destruct (Window.New 2) as [w|] eqn:HN; [|vm_compute in HN; discriminate HN].
  destruct (Window.window_sum_exact 2 w 10 (Window.OPush <$> [f64_of_Z 7; f64_of_Z (-3); f64_of_Z 5]) HN) as (zs & _ & Hs & _); [lia|lia| |].
  - assert (∀ z, - 10 ≤ z ≤ 10 → Window.int_op 10 (Window.OPush (f64_of_Z z))) as Hi.
    { intros z Hz. exists z. split; [apply of_Z_int; unfold exact_int; lia|lia]. }
    constructor; [apply Hi; lia|]. constructor; [apply Hi; lia|]. constructor; [apply Hi; lia|]. constructor.
  - exists w, zs. split; [reflexivity|exact Hs].
Defined.

Lemma time_window_exact_witness : ∃ w, TimeWindow.NewTimeWindow 10 2 = Some w ∧
  TimeWindow.contents (TimeWindow.run w [TimeWindow.Entry f1 0; TimeWindow.Entry f1 5; TimeWindow.Entry f0 12]) = [TimeWindow.Entry f1 5; TimeWindow.Entry f0 12].
Proof.
  destruct (TimeWindow.NewTimeWindow 10 2) as [w|] eqn:HN; [|vm_compute in HN; discriminate HN]. exists w. split; [reflexivity|].
  destruct (TimeWindow.time_window_exact 10 2 w [TimeWindow.Entry f1 0; TimeWindow.Entry f1 5] (TimeWindow.Entry f0 12) HN) as [Hc _].
  - repeat constructor; cbn; lia.
  - cbn [app] in Hc. rewrite Hc. vm_compute in HN. injection HN as <-. vm_compute. reflexivity.
Defined.

(** A large value that has left the window leaves its rounding error in the sum: the sum of two ones is one. *)
Example sum_drifts : ∃ w, Window.New 2 = Some w ∧
  Window.contents (Window.run w (Window.OPush <$> [f64_of_Z (2 ^ 53); f1; f1])) = [f1; f1] ∧
  Window.Sum (Window.run w (Window.OPush <$> [f64_of_Z (2 ^ 53); f1; f1])) = f1.
Proof. eexists. split; [vm_compute; reflexivity|]. split; vm_compute; reflexivity. Qed.

(** An infinity that has left the window leaves a NaN in the sum, for good. *)
Example inf_poisons_sum : ∃ w, Window.New 1 = Some w ∧
  Window.contents (Window.run w (Window.OPush <$> [S754_infinity false; f1; f1])) = [f1] ∧
  Window.Sum (Window.run w (Window.OPush <$> [S754_infinity false; f1; f1])) = f64_nan.
Proof. eexists. split; [vm_compute; reflexivity|]. split; vm_compute; reflexivity. Qed.

(** A NaN that was the minimum when it was last asked for stays the minimum after it has left. *)
Example nan_min_sticks : ∃ w, Window.New 1 = Some w ∧
  Window.contents (Window.run w [Window.OPush f64_nan; Window.OMin; Window.OPush f1]) = [f1] ∧
  (Window.Min (Window.run w [Window.OPush f64_nan; Window.OMin; Window.OPush f1])).2 = f64_nan.
Proof. eexists. split; [vm_compute; reflexivity|]. split; vm_compute; reflexivity. Qed.

(** The capacity, documented as a pre-allocation hint, drops values within their time to live. *)
Example capacity_drops : ∃ w, TimeWindow.NewTimeWindow 100 1 = Some w ∧
  TimeWindow.Count (TimeWindow.run w [TimeWindow.Entry f1 0; TimeWindow.Entry f1 1]) = 1%nat.
Proof. eexists. split; [vm_compute; reflexivity|]. vm_compute. reflexivity. Qed.

(** A value that comes late lingers behind a younger one. *)
Example late_value_lingers : ∃ w, TimeWindow.NewTimeWindow 10 4 = Some w ∧
  TimeWindow.contents (TimeWindow.run w [TimeWindow.Entry f1 20; TimeWindow.Entry f1 5; TimeWindow.Entry f0 25]) =
    [TimeWindow.Entry f1 20; TimeWindow.Entry f1 5; TimeWindow.Entry f0 25].
Proof. eexists. split; [vm_compute; reflexivity|]. vm_compute. reflexivity. Qed.
