(* ===== verification/GrpcClient.v ===== *)
(** * GrpcClient: the client interceptors ([grpcclient/interceptors.go], [grpcclient.go], [options.go])

    Errors, the breaker interface and the reference retry loop are those of NetRetry.v.  [status.FromError] belongs to gRPC and is a parameter:
    the status code an error carries, if any.  What each call of the invoker returns, whether the context has ended when it returns and whether it ends
    during the wait that follows are given by the attempt's number.

    Shown: the retry loop is the reference loop, so that it makes at most [RetryMax] + 1 calls, repeats only after a retryable status with a live context, and returns the last
    error or the context's ([unary_retries_exact]); every call is counted once, the retries one by one, and the number of calls in flight returns to
    what it was, with and without a breaker, which when it refuses makes no call ([grpc_calls_accounted]); a stream is opened at most once, without
    retries, and its context is released exactly once, when opening fails or at the first error of [RecvMsg] ([stream_cancel_once]); the options
    a client runs with are in range ([grpc_options_in_range]).
    [zero_retries_is_two]: a request for no retries becomes the default. *)

From Stdlib Require Import ZArith Lia Bool String.
From stdpp Require Import base tactics numbers list strings.
From S2P Require Import Prelude Float64 NetRetry.

#[local] Open Scope Z_scope.

(** A code is the number of its gRPC status. *)
Definition code : Type := Z.
Definition Unavailable : code := 14.
Definition UnknownCode : code := 2.

(** ** Options *)

Record ClientOptions := mkOptions {
  Target : string;
  ConnectTimeout : Z;
  RequestTimeout : Z;
  RetryMax : Z;
  RetryCodes : list code;
  RetryWaitMin : Z;
  RetryWaitMax : Z;
}.

Definition defaultClientOptions : ClientOptions :=
  mkOptions EmptyString (5 * Second) (10 * Second) 2 [Unavailable] (100 * Millisecond) (1 * Second).

Definition withDefaults (o : ClientOptions) : ClientOptions :=
  let d := defaultClientOptions in
  mkOptions (Target o) (positive_or (ConnectTimeout o) (ConnectTimeout d)) (positive_or (RequestTimeout o) (RequestTimeout d))
    (positive_or (RetryMax o) (RetryMax d)) (if (length (RetryCodes o) =? 0)%nat then RetryCodes d else RetryCodes o)
    (positive_or (RetryWaitMin o) (RetryWaitMin d)) (positive_or (RetryWaitMax o) (RetryWaitMax d)).

Fixpoint retryable_in (codes : list code) (c : code) : bool :=
  match codes with [] => false | rc :: codes => if rc =? c then true else retryable_in codes c end.
Definition retryable (o : ClientOptions) (c : code) : bool := retryable_in (RetryCodes o) c.

(** [withTimeout]: the deadline of the call, given the caller's; both in time from now. *)
Definition withTimeout (o : ClientOptions) (caller_deadline : option Z) : option Z :=
  match caller_deadline with
  | Some d => Some d
  | None => if 0 <? RequestTimeout o then Some (RequestTimeout o) else None
  end.

(** The delay before a retry is computed by the same code as in the other clients; [random] is what [Float64] returned. *)
Definition grpc_retryDelay (attempt minWait maxWait : Z) (random : float64) : Z := retryDelay attempt minWait maxWait random.

(** ** Calls *)

(** [Code] is [None] for the empty name. *)
Record gevent := mkGEvent { Name : string; Code : option code; Attempt : Z }.

Record metrics := mkMetrics { counts : counters; active : Z }.

Section Interceptors.
Context {B : Type} `{CircuitBreaker B} (FromError : error → option code) (o : ClientOptions).

Definition codeNameOf (err : option error) : option code :=
  match err with None => None | Some e => Some (default UnknownCode (FromError e)) end.

(** [!ok || !retryable] is false. *)
Definition may_retry (e : error) : bool := match FromError e with Some c => retryable o c | None => false end.

Section Unary.
(** What attempt [i] meets: the invoker's error, [callCtx.Err()] after it, the delay that follows and whether the context ends in it; [ctxErr] is its error then. *)
Context (invoker : Z → option error) (ctx_after : Z → bool) (delay : Z → Z) (ends_waiting : Z → bool) (ctxErr : error).

(** [iters]: the iterations left of the loop over [attempt <= RetryMax]. *)
Fixpoint unary_loop (iters : nat) (attempt : Z) (err : option error) : option error * list gevent :=
  match iters with
  | O => (err, [])
  | S iters =>
      let err := invoker attempt in
      let codeName := codeNameOf err in
      let evs := [mkGEvent "request" codeName attempt] in
      match err with
      | None => (None, evs)
      | Some e =>
          if ctx_after attempt then (err, evs)
          else if negb (may_retry e) then (err, evs)
          else if attempt =? RetryMax o then (err, evs)
          else
            let evs := evs ++ [mkGEvent "retry" codeName (attempt + 1)] in
            if (0 <? delay attempt) && ends_waiting attempt then (Some ctxErr, evs)
            else let '(r, more) := unary_loop iters (attempt + 1) err in (r, evs ++ more)
      end
  end.
Definition unary_run : option error * list gevent := unary_loop (Z.to_nat (RetryMax o + 1)) 0 None.

Definition grpc_retries (evs : list gevent) : nat := length (filter (λ e, Name e = "retry"%string) evs).
Definition requests (evs : list gevent) : nat := length (filter (λ e, Name e = "request"%string) evs).

(** The whole interceptor. *)
Definition UnaryClientInterceptor (brk : option B) (m : metrics) : option B * metrics * list gevent * option error :=
  let m := mkMetrics (add_total (counts m)) (i32 (active m + 1)) in
  let run '(c, tr) := let '(err, evs) := unary_run in (add_retried (grpc_retries evs) c, tr ++ evs, err) in
  let '(brk, (c, tr), err) := under brk run (counts m, []) in
  let '(c, tr, err) :=
    match err with
    | Some e => (add_failed c, tr ++ [mkGEvent "failed" (codeNameOf err) 0], Some e)
    | None => (add_success c, tr ++ [mkGEvent "success" None 0], None)
    end in
  (brk, mkMetrics c (i32 (active m - 1)), tr, err).
End Unary.

(** An open stream; [cancels] counts the calls of the context's cancel function. *)
Record cancelOnDoneStream := mkStream { done_ : bool; cancels : nat }.

Definition RecvMsg (s : cancelOnDoneStream) (err : option error) : cancelOnDoneStream * option error :=
  if done_ s then (s, err)
  else match err with Some _ => (mkStream true (S (cancels s)), err) | None => (s, None) end.

(** [streamer]: the error of opening.  Of the result, the stream or the error with the calls of [cancel]; [opens] counts the calls of the streamer. *)
Definition StreamClientInterceptor (streamer : option error) (brk : option B) (m : metrics)
    : option B * metrics * list gevent * nat * (cancelOnDoneStream + error * nat) :=
  let m := mkMetrics (add_total (counts m)) (i32 (active m + 1)) in
  let open (opens : nat) := (S opens, streamer) in
  let '(brk, opens, err) := under brk open 0%nat in
  let '(c, tr, r) :=
    match err with
    | Some e => (add_failed (counts m), [mkGEvent "failed" (codeNameOf err) 0], inr (e, 1%nat))
    | None => (add_success (counts m), [mkGEvent "success" None 0], inl (mkStream false 0))
    end in
  (brk, mkMetrics c (i32 (active m - 1)), tr, opens, r).

(** ** Theorems *)

(** What one attempt is in the reference. *)
Definition grpc_attempt (invoker : Z → option error) (ctx_after : Z → bool) (i : Z) : list gevent * verdict (option error) gevent :=
  let err := invoker i in
  ([mkGEvent "request" (codeNameOf err) i],
   match err with
   | None => Final None
   | Some e => if ctx_after i || negb (may_retry e) then Final err else Retry err [mkGEvent "retry" (codeNameOf err) (i + 1)]
   end).

Lemma unary_loop_ref invoker ctx_after delay ends_waiting ctxErr n : ∀ i err, i + Z.of_nat n = RetryMax o →
  unary_loop invoker ctx_after delay ends_waiting ctxErr (S n) i err =
    retry_ref (grpc_attempt invoker ctx_after) (λ i, (0 <? delay i) && ends_waiting i) (λ _, Some ctxErr) n i.
Proof.
  induction n as [|n IH]; intros i err Hn.
  - cbn. destruct (invoker i) as [e|]; [|done]. destruct (ctx_after i); [done|]. destruct (may_retry e); [|done]. cbn. by rewrite (proj2 (Z.eqb_eq i (RetryMax o))) by lia.
  - remember (S n) as m. cbn [unary_loop]. rewrite Heqm in *. cbn [retry_ref]. unfold grpc_attempt at 1. destruct (invoker i) as [e|]; [|done].
    destruct (ctx_after i); [done|]. destruct (may_retry e); [|done]. cbn [negb orb]. rewrite (proj2 (Z.eqb_neq i (RetryMax o))) by lia.
    destruct ((0 <? delay i) && ends_waiting i); [done|]. rewrite IH by lia. by destruct (retry_ref _ _ _ n (i + 1)).
Qed.

Lemma requests_app e1 e2 : requests (e1 ++ e2) = (requests e1 + requests e2)%nat.
Proof. unfold requests. by rewrite filter_app, length_app. Qed.
Lemma grpc_retries_app e1 e2 : grpc_retries (e1 ++ e2) = (grpc_retries e1 + grpc_retries e2)%nat.
Proof. unfold grpc_retries. by rewrite filter_app, length_app. Qed.

Lemma request_no_retry c i : grpc_retries [mkGEvent "request" c i] = 0%nat.
Proof. done. Qed.
Lemma retry_one c i : grpc_retries [mkGEvent "retry" c i] = 1%nat.
Proof. done. Qed.

Lemma attempt_retried invoker ctx_after i r b : (grpc_attempt invoker ctx_after i).2 = Retry r b →
  ∃ e c, r = Some e ∧ invoker i = Some e ∧ ctx_after i = false ∧ may_retry e = true ∧
    grpc_attempt invoker ctx_after i = ([mkGEvent "request" c i], Retry (Some e) [mkGEvent "retry" c (i + 1)]).
Proof.
  unfold grpc_attempt. cbn [snd]. destruct (invoker i) as [e|]; [|done]. destruct (ctx_after i); [done|]. destruct (may_retry e) eqn:Hm; [|done]. cbn. intros [= <- <-]. by eexists _, _.
Qed.

Lemma retried_requests invoker ctx_after k : ∀ i, (∀ j, (j < k)%nat → ∃ r b, (grpc_attempt invoker ctx_after (i + Z.of_nat j)).2 = Retry r b) →
  requests (retried_acts (grpc_attempt invoker ctx_after) k i) = k ∧ grpc_retries (retried_acts (grpc_attempt invoker ctx_after) k i) = k.
Proof.
  induction k as [|k IH]; intros i Hall; [done|]. cbn [retried_acts]. destruct (Hall 0%nat ltac:(lia)) as (r & b & H0). rewrite Z.add_0_r in H0.
  destruct (IH (i + 1)) as [IH1 IH2]; [intros j Hj; replace (i + 1 + Z.of_nat j) with (i + Z.of_nat (S j)) by lia; apply Hall; lia|].
  destruct (attempt_retried _ _ _ _ _ H0) as (e & c & _ & _ & _ & _ & ->). rewrite !requests_app, !grpc_retries_app, IH1, IH2. done.
Qed.

(** The unary interceptor invokes at least once and at most [RetryMax] + 1 times: after each call but the last the status is retryable and the context alive and no
    wait is cut short, one retry is reported for each, and the call ends with success or an error that is not to be retried, with the last error when the retries are used up, or with the
    context's error when it ends during a wait. *)
Theorem unary_retries_exact invoker ctx_after delay ends_waiting ctxErr : 0 ≤ RetryMax o →
  let '(r, evs) := unary_run invoker ctx_after delay ends_waiting ctxErr in
  ∃ k, (k ≤ Z.to_nat (RetryMax o))%nat ∧ requests evs = S k ∧
    (∀ j, (j < k)%nat → (0 <? delay (Z.of_nat j)) && ends_waiting (Z.of_nat j) = false ∧
      ∃ e, invoker (Z.of_nat j) = Some e ∧ ctx_after (Z.of_nat j) = false ∧ may_retry e = true) ∧
    (grpc_retries evs = k ∧ r = invoker (Z.of_nat k) ∧
        (r = None ∨ k = Z.to_nat (RetryMax o) ∨ ctx_after (Z.of_nat k) = true ∨ ∃ e, r = Some e ∧ may_retry e = false) ∨
     grpc_retries evs = S k ∧ (k < Z.to_nat (RetryMax o))%nat ∧ 0 < delay (Z.of_nat k) ∧ ends_waiting (Z.of_nat k) = true ∧ r = Some ctxErr).
Proof.
  intros Hr. unfold unary_run. replace (Z.to_nat (RetryMax o + 1)) with (S (Z.to_nat (RetryMax o))) by lia. rewrite unary_loop_ref by lia.
  destruct (retry_ref_spec (grpc_attempt invoker ctx_after) (λ i, (0 <? delay i) && ends_waiting i) (λ _, Some ctxErr) (Z.to_nat (RetryMax o)) 0) as (k & Hk & Hj & Hend).
  destruct (retry_ref _ _ _ _ _) as [r evs]. cbn [fst snd] in Hend. exists k. rewrite Z.add_0_l in Hend.
  assert (∀ j, (j < k)%nat → ∃ r b, (grpc_attempt invoker ctx_after (0 + Z.of_nat j)).2 = Retry r b) as Hall by (intros j Hlt; apply (Hj j Hlt)).
  destruct (retried_requests invoker ctx_after k 0 Hall) as [Hreq Hret]. split; [done|]. split; [|split].
  - destruct (grpc_attempt invoker ctx_after (Z.of_nat k)) as [evs' v] eqn:Ea. assert (requests evs' = 1%nat ∧ ∀ r b, v = Retry r b → requests b = 0%nat) as [H1 H2].
    { unfold grpc_attempt in Ea. simplify_eq. split; [done|]. intros r' b. destruct (invoker _); [|done]. destruct (_ || _); [done|]. by intros [= <- <-]. }
    destruct v as [r'|r' b]; [destruct Hend as [-> ->]|destruct Hend as [(-> & -> & ->)|(? & ? & -> & ->)]]; rewrite ?requests_app, Hreq, ?H1, ?(H2 _ _ eq_refl); lia.
  - intros j Hlt. destruct (Hj j Hlt) as [Hc (r' & b & Ha)]. rewrite Z.add_0_l in *. split; [done|]. destruct (attempt_retried _ _ _ _ _ Ha) as (e & c & _ & ? & ? & ? & _). eauto.
  - set (acts := retried_acts _ k 0) in *. clearbody acts. unfold grpc_attempt in Hend. destruct (invoker (Z.of_nat k)) as [e|] eqn:Hi.
    + destruct (ctx_after (Z.of_nat k)) eqn:Hc; [destruct Hend as [-> ->]; left; rewrite grpc_retries_app, Hret, request_no_retry; split; [lia|]; auto|].
      destruct (may_retry e) eqn:Hm; cbn [orb negb] in Hend; [|destruct Hend as [-> ->]; left; rewrite grpc_retries_app, Hret, request_no_retry; split; [lia|]; eauto 10].
      destruct Hend as [(-> & -> & ->)|(Hlt & Hcut & -> & ->)]; [left; rewrite grpc_retries_app, Hret, request_no_retry; split; [lia|]; auto|right].
      rewrite !grpc_retries_app, Hret, request_no_retry, retry_one. apply andb_true_iff in Hcut as [?%Z.ltb_lt ?]. split; [lia|]. auto.
    + destruct Hend as [-> ->]. left. rewrite grpc_retries_app, Hret, request_no_retry. split; [lia|]. auto.
Qed.

(** Every unary call is counted once, as a success or a failure by what the caller gets, with one retry per retry event; the gauge of calls in flight returns to its value; and a call that
    the breaker refuses invokes nothing. *)
Theorem grpc_calls_accounted invoker ctx_after delay ends_waiting ctxErr brk m : - 2 ^ 31 ≤ active m < 2 ^ 31 →
  let '(_, m', tr, err) := UnaryClientInterceptor invoker ctx_after delay ends_waiting ctxErr brk m in
  counted (succeeded err) (grpc_retries tr) (counts m) (counts m') ∧ active m' = active m ∧
  (requests tr = 0%nat ∨ requests tr = requests (unary_run invoker ctx_after delay ends_waiting ctxErr).2).
Proof.
  intros Ha. unfold UnaryClientInterceptor. match goal with |- context [under brk ?f ?s] => destruct (under_once brk f s) as [(brk' & e & ->)|(brk' & ->)] end.
  - cbn. split; [done|]. split; [mint|]. by left.
  - destruct (unary_run _ _ _ _ _) as [err evs]. cbn [fst snd]. destruct err; cbn [counts active]; rewrite app_nil_l, grpc_retries_app, requests_app, !Nat.add_0_r; (split; [done|]; split; [mint|]; by right).
Qed.

Fixpoint recv_all (s : cancelOnDoneStream) (errs : list (option error)) : cancelOnDoneStream * list (option error) :=
  match errs with
  | [] => (s, [])
  | err :: errs => let '(s, r) := RecvMsg s err in let '(s, rs) := recv_all s errs in (s, r :: rs)
  end.

Lemma recv_done s errs : done_ s = true → recv_all s errs = (s, errs).
Proof. intros Hd. induction errs as [|err errs IH]; [done|]. cbn. unfold RecvMsg. rewrite Hd, IH. done. Qed.

(** A stream is opened at most once and counted once.  If it could not be opened its context has been cancelled exactly once; otherwise the caller's receives get what the server sends, and the context
    has been cancelled once if one of them got an error and not yet otherwise. *)
Theorem stream_cancel_once streamer brk m errs : - 2 ^ 31 ≤ active m < 2 ^ 31 →
  let '(_, m', _, opens, r) := StreamClientInterceptor streamer brk m in
  (opens ≤ 1)%nat ∧ active m' = active m ∧ counted (match r with inl _ => true | inr _ => false end) 0 (counts m) (counts m') ∧
  match r with
  | inr (_, n) => n = 1%nat
  | inl s => opens = 1%nat ∧ recv_all s errs = (mkStream (negb (forallb succeeded errs)) (if forallb succeeded errs then 0 else 1), errs)
  end.
Proof.
  intros Ha. unfold StreamClientInterceptor. match goal with |- context [under brk ?f ?s] => destruct (under_once brk f s) as [(brk' & e & ->)|(brk' & ->)] end.
  - cbn. split; [lia|]. split; [mint|]. done.
  - cbn [fst snd]. destruct streamer as [e|]; cbn [counts active]; (split; [lia|]; split; [mint|]; split; [done|]); [done|]. split; [done|].
    induction errs as [|[e|] errs IH]; [done| |].
    + cbn [recv_all RecvMsg done_ forallb succeeded andb negb]. by rewrite recv_done.
    + cbn [recv_all RecvMsg done_ forallb succeeded andb]. by rewrite IH.
Qed.
End Interceptors.

(** The options a client runs with are positive and fixed points of the defaults, and what was set to a positive value is kept. *)
Theorem grpc_options_in_range op : let d := withDefaults op in
  withDefaults d = d ∧ 0 < ConnectTimeout d ∧ 0 < RequestTimeout d ∧ 0 < RetryMax d ∧ RetryCodes d ≠ [] ∧ 0 < RetryWaitMin d ∧ 0 < RetryWaitMax d ∧
  (0 < RetryMax op → RetryMax d = RetryMax op) ∧ (RetryCodes op ≠ [] → RetryCodes d = RetryCodes op) ∧
  ∀ caller, is_Some (withTimeout d caller) ∧ (is_Some caller → withTimeout d caller = caller).
Proof.
  cbv zeta. assert (0 < Second ∧ 0 < Millisecond) as [HS HM] by (unfold Second, Millisecond; lia).
  split_and!; try (apply positive_or_spec; cbn; lia).
  - unfold withDefaults. cbn. rewrite !positive_or_idemp by lia. destruct (RetryCodes op) as [|c cs]; done.
  - cbn. destruct (RetryCodes op); done.
  - cbn. destruct (RetryCodes op); done.
  - intros [d|]; cbn; [eauto|]. assert (0 < positive_or (RequestTimeout op) (10 * Second)) by (apply positive_or_spec; lia).
    rewrite (proj2 (Z.ltb_lt _ _)) by done. split; [eauto|]. by intros [].
Qed.

Definition demo_FromError (e : error) : option code := match e with Wrapped _ _ => Some Unavailable | _ => None end.
Definition demo_error : error := Wrapped "busy" (Sentinel EOF).
Definition demo_invoker (i : Z) : option error := if i <? 2 then Some demo_error else None.

Lemma unary_retries_exact_witness : (unary_run demo_FromError defaultClientOptions demo_invoker (λ _, false) (λ _, 0) (λ _, false) (Sentinel Canceled)).1 = None ∧
  ∃ k, (k ≤ 2)%nat ∧ requests (unary_run demo_FromError defaultClientOptions demo_invoker (λ _, false) (λ _, 0) (λ _, false) (Sentinel Canceled)).2 = S k.
Proof.
  split; [reflexivity|]. pose proof (unary_retries_exact demo_FromError defaultClientOptions demo_invoker (λ _, false) (λ _, 0) (λ _, false) (Sentinel Canceled) ltac:(vm_compute; congruence)) as Ht.
  destruct (unary_run _ _ _ _ _ _ _) as [r evs]. destruct Ht as (k & Hk & Hreq & _). exists k. split; [exact Hk|exact Hreq].
Defined.

Lemma grpc_calls_accounted_witness :
  active (UnaryClientInterceptor (B := breaker_at) demo_FromError defaultClientOptions demo_invoker (λ _, false) (λ _, 0) (λ _, false) (Sentinel Canceled) None (mkMetrics (mkCounters 0 0 0 0) 5)).1.1.2 = 5.
Proof.
  pose proof (grpc_calls_accounted (B := breaker_at) demo_FromError defaultClientOptions demo_invoker (λ _, false) (λ _, 0) (λ _, false) (Sentinel Canceled) None (mkMetrics (mkCounters 0 0 0 0) 5) ltac:(cbn; lia)) as Ht.
  destruct (UnaryClientInterceptor _ _ _ _ _ _ _ _ _) as [[[brk m] tr] err]. destruct Ht as (_ & Ha & _). exact Ha.
Defined.

Lemma stream_cancel_once_witness :
  recv_all (mkStream false 0) [None; Some (Sentinel EOF); Some (Sentinel EOF)] = (mkStream true 1, [None; Some (Sentinel EOF); Some (Sentinel EOF)]).
Proof.
  pose proof (stream_cancel_once (B := breaker_at) demo_FromError None None (mkMetrics (mkCounters 0 0 0 0) 0) [None; Some (Sentinel EOF); Some (Sentinel EOF)] ltac:(cbn; lia)) as (_ & _ & _ & _ & Hr).
  exact Hr.
Defined.

(** A request for no retries becomes the default of two. *)
Example zero_retries_is_two : RetryMax (withDefaults (mkOptions "host" 0 0 0 [] 0 0)) = 2.
Proof. reflexivity. Qed.

(** A caller's deadline is kept even when it is looser than [RequestTimeout]. *)
Example looser_deadline_wins : withTimeout defaultClientOptions (Some (3600 * Second)) = Some (3600 * Second).
Proof. reflexivity. Qed.
