(* ===== verification/Signing.v ===== *)
(** * Signing: HMAC-signed requests ([signing/signing.go])

    Strings are byte strings.  [hmac] (crypto/hmac with SHA-256) is a parameter, any function of key and message; [url.QueryEscape], [hex.EncodeToString],
    [sort.Strings], [strconv] and the arithmetic of package time are modelled.  The keys of a map come in any order.

    Shown: the canonical string does not depend on the order in which the map is iterated ([canonical_deterministic]) and determines the parameters and the time stamp, so that no value can
    pass for another parameter ([canonical_injective]); what [Sign] signs [Verify] accepts while it is fresh ([sign_verify]); and what [Verify] accepts carries a fresh time stamp and the parameters
    that were signed, or exhibits two messages with the same HMAC ([verify_binds]).
    [negative_age_disables], [timestamp_respelled]: a negative age switches the check of freshness off like zero does, and the text of the time stamp is not bound, only its value. *)

From Stdlib Require Import ZArith Lia Bool Ascii String.
From stdpp Require Import base tactics numbers list strings gmap sorting.
From S2P Require Import Prelude GoStd.

#[local] Open Scope Z_scope.

Definition SignatureKey : string := "_sig".
Definition TimestampKey : string := "_ts".
Definition DefaultMaxAge : Z := 5 * 60 * 10 ^ 9.

(** ** The standard library *)

(** Hexadecimal digits. *)
Definition lower_hex (n : Z) : ascii := chr (if n <? 10 then 48 + n else 87 + n).
Definition upper_hex (n : Z) : ascii := chr (if n <? 10 then 48 + n else 55 + n).

Fixpoint EncodeToString (s : string) : string :=
  match s with
  | EmptyString => EmptyString
  | String c s => String (lower_hex (byte_of c / 16)) (String (lower_hex (byte_of c mod 16)) (EncodeToString s))
  end.

(** Letters, digits and [-_.~]. *)
Definition unreserved (z : Z) : bool :=
  ((97 <=? z) && (z <=? 122)) || ((65 <=? z) && (z <=? 90)) || ((48 <=? z) && (z <=? 57)) || (z =? 45) || (z =? 95) || (z =? 46) || (z =? 126).
Definition escape_byte (c : ascii) : string :=
  let z := byte_of c in
  if z =? 32 then String "+" EmptyString
  else if unreserved z then String c EmptyString
  else String "%" (String (upper_hex (z / 16)) (String (upper_hex (z mod 16)) EmptyString)).
Fixpoint QueryEscape (s : string) : string :=
  match s with EmptyString => EmptyString | String c s => escape_byte c +:+ QueryEscape s end.

(** The order of [sort.Strings]. *)
Fixpoint str_leb (a b : string) : bool :=
  match a, b with
  | EmptyString, _ => true
  | _, EmptyString => false
  | String c a, String d b => if byte_of c <? byte_of d then true else if byte_of d <? byte_of c then false else str_leb a b
  end.
Definition str_le (a b : string) : Prop := str_leb a b = true.
#[export] Instance str_le_dec : RelDecision str_le.
Proof. intros a b. unfold str_le. apply _. Defined.
Definition sort_Strings (l : list string) : list string := merge_sort str_le l.

(** A time: seconds since year 1 in 64 bits, and nanoseconds. *)
Record time := Time { sec : Z; nsec : Z }.
Definition unixToInternal : Z := 62135596800.
Definition Unix (s : Z) : time := Time (i64 (s + unixToInternal)) 0.
Definition nanos (t : time) : Z := sec t * 10 ^ 9 + nsec t.
(** [Sub] saturates. *)
Definition Sub (t u : time) : Z := Z.max min_i64 (Z.min max_i64 (nanos t - nanos u)).
Definition After (t u : time) : bool := (sec u <? sec t) || ((sec t =? sec u) && (nsec u <? nsec t)).
(** [t.Unix()]. *)
Definition unix_seconds (t : time) : Z := i64 (sec t - unixToInternal).

Section Signing.
Context (hmac : string → string → string).

(** ** The package *)

Record config := MkConfig { timestamp : time; maxAge : Z; now : time }.
Inductive Option_ := WithTimestamp (t : time) | WithMaxAge (d : Z) | WithNow (t : time).
Definition apply_option (c : config) (o : Option_) : config :=
  match o with
  | WithTimestamp t => MkConfig t (maxAge c) (now c)
  | WithMaxAge d => MkConfig (timestamp c) d (now c)
  | WithNow t => MkConfig (timestamp c) (maxAge c) t
  end.
(** [clock]: what [time.Now] returns during the call. *)
Definition resolve (clock : time) (opts : list Option_) : config := fold_left apply_option opts (MkConfig clock DefaultMaxAge clock).

Definition signed_key (k : string) : bool := negb (String.eqb k SignatureKey || String.eqb k TimestampKey).

(** The loop that writes the parameters; [first] is [i == 0]. *)
Fixpoint write_params (first : bool) (params : gmap string string) (keys : list string) : string :=
  match keys with
  | [] => EmptyString
  | k :: keys =>
      (if first then EmptyString else "&") +:+ (QueryEscape k +:+ ("=" +:+ (QueryEscape (default EmptyString (params !! k)) +:+ write_params false params keys)))
  end.

(** [order]: the keys in the order in which the map is ranged over. *)
Definition canonical (order : list string) (params : gmap string string) (ts : Z) : string :=
  let keys := sort_Strings (List.filter signed_key order) in
  write_params true params keys +:+ ((if (0 <? length keys)%nat then "&" else EmptyString) +:+ (TimestampKey +:+ ("=" +:+ Itoa ts))).

Definition compute (secret msg : string) : string := EncodeToString (hmac secret msg).

Definition Sign (order : list string) (params : gmap string string) (secret : string) (clock : time) (opts : list Option_) : string :=
  let c := resolve clock opts in
  compute secret (canonical order params (unix_seconds (timestamp c))).

Definition Verify (order : list string) (params : gmap string string) (secret signature : string) (clock : time) (opts : list Option_) : bool :=
  let c := resolve clock opts in
  match params !! TimestampKey with
  | None => false
  | Some raw =>
      match ParseInt raw with
      | None => false
      | Some ts =>
          let stale := (0 <? maxAge c) && ((maxAge c <? Sub (now c) (Unix ts)) || After (Unix ts) (now c)) in
          if stale then false else String.eqb (compute secret (canonical order params ts)) signature
      end
  end.
End Signing.

(** ** Escaping *)

(** A reader of escaped strings. *)
Definition hex_val (c : ascii) : Z :=
  let z := byte_of c in if z <=? 57 then z - 48 else if z <=? 70 then z - 55 else z - 87.
Fixpoint QueryUnescape (s : string) : string :=
  match s with
  | EmptyString => EmptyString
  | String "+" s => String " " (QueryUnescape s)
  | String "%" (String a (String b s)) => String (chr (16 * hex_val a + hex_val b)) (QueryUnescape s)
  | String c s => String c (QueryUnescape s)
  end.

Lemma unescape_byte c s : QueryUnescape (escape_byte c +:+ s) = String c (QueryUnescape s).
Proof. destruct c as [[] [] [] [] [] [] [] []]; reflexivity. Qed.

Lemma unescape_escape s : QueryUnescape (QueryEscape s) = s.
Proof. induction s as [|c s IH]; [done|]. cbn [QueryEscape]. by rewrite unescape_byte, IH. Qed.

Lemma QueryEscape_inj s t : QueryEscape s = QueryEscape t → s = t.
Proof. intros H. by rewrite <-(unescape_escape s), H, unescape_escape. Qed.

(** No byte of an escaped string is a separator. *)
Fixpoint no_byte (sep : ascii) (s : string) : bool :=
  match s with EmptyString => true | String c s => negb (Ascii.eqb c sep) && no_byte sep s end.
Lemma SplitN2_skip sep e s : no_byte sep e = true → SplitN2 sep (e +:+ s) = (e +:+ (SplitN2 sep s).1, (SplitN2 sep s).2).
Proof.
  induction e as [|c e IH]; intros Hn; [rewrite !app_nil_l_str; by destruct (SplitN2 sep s)|]. cbn [no_byte] in Hn. apply andb_true_iff in Hn as [Hc%negb_true_iff Hn].
  rewrite app_cons_str. cbn [SplitN2]. rewrite Hc, IH by done. done.
Qed.
Lemma escape_no_sep sep c : (sep = "&"%char ∨ sep = "="%char) → no_byte sep (escape_byte c) = true.
Proof. intros [->| ->]; destruct c as [[] [] [] [] [] [] [] []]; reflexivity. Qed.

Lemma SplitN2_escaped sep s t : (sep = "&"%char ∨ sep = "="%char) → SplitN2 sep (QueryEscape s +:+ String sep t) = (QueryEscape s, Some t).
Proof.
  intros Hsep. induction s as [|c s IH]; [cbn [QueryEscape]; rewrite app_nil_l_str; cbn [SplitN2]; by rewrite Ascii.eqb_refl|]. cbn [QueryEscape]. rewrite <-app_assoc_str, SplitN2_skip, IH by (by apply escape_no_sep). done.
Qed.

Fixpoint DecodeString (s : string) : string :=
  match s with String a (String b s) => String (chr (16 * hex_val a + hex_val b)) (DecodeString s) | _ => EmptyString end.
Lemma decode_encode s : DecodeString (EncodeToString s) = s.
Proof. induction s as [|c s IH]; [done|]. cbn [EncodeToString DecodeString]. rewrite IH. f_equal. destruct c as [[] [] [] [] [] [] [] []]; reflexivity. Qed.
Lemma EncodeToString_inj s t : EncodeToString s = EncodeToString t → s = t.
Proof. intros H. by rewrite <-(decode_encode s), H, decode_encode. Qed.

(** ** Sorting *)

Lemma str_leb_total a b : str_leb a b = true ∨ str_leb b a = true.
Proof.
  revert b. induction a as [|c a IH]; intros [|d b]; [by left..|by right|]. cbn [str_leb].
  destruct (Z.ltb_spec (byte_of c) (byte_of d)), (Z.ltb_spec (byte_of d) (byte_of c)); auto; lia.
Qed.
Lemma str_leb_antisym a b : str_leb a b = true → str_leb b a = true → a = b.
Proof.
  revert b. induction a as [|c a IH]; intros [|d b]; try done. cbn [str_leb].
  destruct (Z.ltb_spec (byte_of c) (byte_of d)), (Z.ltb_spec (byte_of d) (byte_of c)); try done; try lia. intros Ha Hb. f_equal; [|by apply IH].
  rewrite <-(chr_byte_of c), <-(chr_byte_of d). f_equal. lia.
Qed.
Lemma str_leb_trans a b c : str_leb a b = true → str_leb b c = true → str_leb a c = true.
Proof.
  revert b c. induction a as [|x a IH]; intros [|y b] [|z c]; try done. cbn [str_leb].
  destruct (Z.ltb_spec (byte_of x) (byte_of y)), (Z.ltb_spec (byte_of y) (byte_of x)), (Z.ltb_spec (byte_of y) (byte_of z)), (Z.ltb_spec (byte_of z) (byte_of y)),
    (Z.ltb_spec (byte_of x) (byte_of z)), (Z.ltb_spec (byte_of z) (byte_of x)); try done; try lia; apply IH.
Qed.
#[export] Instance str_le_total : Total str_le.
Proof. intros a b. apply str_leb_total. Qed.
#[export] Instance str_le_trans : Transitive str_le.
Proof. intros a b c. apply str_leb_trans. Qed.
#[export] Instance str_le_antisym : AntiSymm (=) str_le.
Proof. intros a b. apply str_leb_antisym. Qed.

Lemma sort_Strings_perm l : sort_Strings l ≡ₚ l.
Proof. apply merge_sort_Permutation. Qed.
Lemma sort_Strings_sorted l : StronglySorted str_le (sort_Strings l).
Proof. unfold sort_Strings. apply StronglySorted_merge_sort; apply _. Qed.
Lemma sort_Strings_unique l l' : l ≡ₚ l' → sort_Strings l = sort_Strings l'.
Proof.
  intros Hp. apply (StronglySorted_unique str_le).
  - apply sort_Strings_sorted.
  - apply sort_Strings_sorted.
  - by rewrite !sort_Strings_perm.
Qed.

(** ** The canonical string *)

(** The keys of a map in some order. *)
Definition keys_of (params : gmap string string) (order : list string) : Prop := order ≡ₚ (map_to_list params).*1.

Lemma keys_of_refl params : keys_of params (map_to_list params).*1.
Proof. unfold keys_of. done. Qed.

Definition signed_keys (order : list string) : list string := sort_Strings (List.filter signed_key order).

Lemma filter_perm_keys order order' : order ≡ₚ order' → List.filter signed_key order ≡ₚ List.filter signed_key order'.
Proof. induction 1 as [|x l l' _ IH|x y l|l l' l'' _ IH1 _ IH2]; [done| | |by etransitivity]; cbn; repeat case_match; by try constructor. Qed.

(** Pairs and the time stamp, each part followed by its separator. *)
Fixpoint chain (params : gmap string string) (keys : list string) (ts : Z) : string :=
  match keys with
  | [] => TimestampKey +:+ ("=" +:+ Itoa ts)
  | k :: keys => QueryEscape k +:+ ("=" +:+ (QueryEscape (default EmptyString (params !! k)) +:+ ("&" +:+ chain params keys ts)))
  end.

Lemma write_chain params keys ts rest : rest = TimestampKey +:+ ("=" +:+ Itoa ts) →
  write_params false params keys +:+ ("&" +:+ rest) = "&" +:+ chain params keys ts.
Proof.
  intros ->. induction keys as [|k keys IH]; [done|]. cbn [write_params chain]. rewrite <-!app_assoc_str, IH. done.
Qed.

Lemma canonical_chain order params ts : canonical order params ts = chain params (signed_keys order) ts.
Proof.
  unfold canonical, signed_keys. destruct (sort_Strings _) as [|k keys]; [done|]. cbn [length Nat.ltb Nat.leb write_params chain].
  rewrite <-!app_assoc_str. rewrite (write_chain params keys ts _ eq_refl). done.
Qed.

Lemma Itoa_inj a b : Itoa a = Itoa b → a = b.
Proof.
  unfold Itoa. intros H. assert (∀ x y, 0 < x → 0 ≤ y → String "-" (utoa x) ≠ utoa y) as Hne.
  { intros x y _ Hy Heq. pose proof (utoa_digits y Hy) as Hd. rewrite <-Heq in Hd. by apply all_digits_head in Hd. }
  assert (∀ x y, 0 ≤ x → 0 ≤ y → utoa x = utoa y → x = y) as Hinj.
  { intros x y Hx Hy Heq. pose proof (parse_utoa x Hx) as Px. rewrite Heq, parse_utoa in Px by done. congruence. }
  destruct (Z.ltb_spec a 0), (Z.ltb_spec b 0).
  - injection H as H. apply Hinj in H; lia.
  - by apply Hne in H; [|lia..].
  - symmetry in H. by apply Hne in H; [|lia..].
  - by apply Hinj.
Qed.

Lemma cut_eq sep s t s' t' : (sep = "&"%char ∨ sep = "="%char) → QueryEscape s +:+ (String sep EmptyString +:+ t) = QueryEscape s' +:+ (String sep EmptyString +:+ t') → s = s' ∧ t = t'.
Proof.
  intros Hsep Heq. pose proof (SplitN2_escaped sep s t Hsep) as H1. pose proof (SplitN2_escaped sep s' t' Hsep) as H2. rewrite !app_cons_str, !app_nil_l_str in Heq. rewrite Heq, H2 in H1.
  injection H1 as Hs Ht. split; [symmetry; by apply QueryEscape_inj|done].
Qed.

Lemma chain_inj params params' keys : ∀ keys' ts ts', Forall (λ k, signed_key k = true) keys → Forall (λ k, signed_key k = true) keys' →
  chain params keys ts = chain params' keys' ts' → keys = keys' ∧ ts = ts' ∧ Forall (λ k, default EmptyString (params !! k) = default EmptyString (params' !! k)) keys.
Proof.
  assert (∀ k ts rest, signed_key k = true → TimestampKey +:+ ("=" +:+ Itoa ts) ≠ QueryEscape k +:+ ("=" +:+ rest)) as Hts.
  { intros k ts rest Hk Heq. change TimestampKey with (QueryEscape TimestampKey) in Heq. apply cut_eq in Heq as [<- _]; [done|by right]. }
  induction keys as [|k keys IH]; intros [|k' keys'] ts ts' Hk Hk' Heq; cbn [chain] in Heq.
  - split; [done|]. split; [|done]. cbn in Heq. injection Heq as Heq. by apply Itoa_inj.
  - apply Forall_cons in Hk' as [Hk' _]. by apply Hts in Heq.
  - apply Forall_cons in Hk as [Hk _]. symmetry in Heq. by apply Hts in Heq.
  - apply Forall_cons in Hk as [Hk1 Hk2], Hk' as [Hk1' Hk2']. apply cut_eq in Heq as [-> Heq]; [|by right]. apply cut_eq in Heq as [Hv Heq]; [|by left].
    destruct (IH keys' ts ts' Hk2 Hk2' Heq) as (-> & -> & Hall). split; [done|]. split; [done|]. by constructor.
Qed.

(** The parameters that are signed. *)
Definition signed_part (params : gmap string string) : gmap string string := filter (λ kv, signed_key kv.1 = true) params.

Lemma signed_keys_elem params order k : keys_of params order → k ∈ signed_keys order ↔ is_Some (signed_part params !! k).
Proof.
  intros Ho. unfold signed_keys. rewrite sort_Strings_perm. assert (k ∈ List.filter signed_key order ↔ k ∈ order ∧ signed_key k = true) as ->.
  { rewrite !list_elem_of_In. apply filter_In. }
  unfold keys_of in Ho. rewrite Ho. unfold signed_part. rewrite list_elem_of_fmap. split.
  - intros [([k' v] & -> & Hkv%elem_of_map_to_list) Hs]. exists v. by apply map_lookup_filter_Some.
  - intros [v [Hv Hs]%map_lookup_filter_Some]. split; [|done]. exists (k, v). split; [done|]. by apply elem_of_map_to_list.
Qed.

Lemma signed_keys_signed order : Forall (λ k, signed_key k = true) (signed_keys order).
Proof.
  unfold signed_keys. rewrite sort_Strings_perm. apply Forall_forall. intros k Hk. rewrite list_elem_of_In in Hk. apply filter_In in Hk. apply Hk.
Qed.

Lemma signed_keys_NoDup params order : keys_of params order → NoDup (signed_keys order).
Proof.
  intros Ho. unfold signed_keys. rewrite sort_Strings_perm. apply NoDup_ListNoDup, List.NoDup_filter, NoDup_ListNoDup. unfold keys_of in Ho. rewrite Ho. apply NoDup_fst_map_to_list.
Qed.

Lemma chain_ext params params' keys ts : Forall (λ k, params !! k = params' !! k) keys → chain params keys ts = chain params' keys ts.
Proof. induction 1 as [|k keys Hk _ IH]; [done|]. cbn [chain]. by rewrite IH, Hk. Qed.

Lemma signed_lookup (params : gmap string string) k : signed_key k = true → signed_part params !! k = params !! k.
Proof.
  intros Hk. unfold signed_part. destruct (params !! k) as [v|] eqn:Hv; [by apply map_lookup_filter_Some|]. apply map_lookup_filter_None. by left.
Qed.

Lemma signed_part_insert (params : gmap string string) k v : signed_key k = false → signed_part (<[k := v]> params) = signed_part params.
Proof.
  intros Hk. apply map_eq. intros j. destruct (signed_key j) eqn:Hj.
  - rewrite !signed_lookup by done. apply lookup_insert_ne. congruence.
  - assert (∀ p : gmap string string, signed_part p !! j = None) as Hn by (intros p; apply map_lookup_filter_None; right; cbn; congruence). by rewrite !Hn.
Qed.

(** The canonical string does not depend on the order in which the map is iterated, nor on the parameters that are not signed. *)
Theorem canonical_deterministic params params' order order' ts : keys_of params order → keys_of params' order' → signed_part params = signed_part params' →
  canonical order params ts = canonical order' params' ts.
Proof.
  intros Ho Ho' Hs. rewrite !canonical_chain. assert (signed_keys order = signed_keys order') as Hk.
  { apply (StronglySorted_unique str_le); [apply sort_Strings_sorted..|]. apply NoDup_Permutation; [by eapply signed_keys_NoDup..|].
    intros k. rewrite (signed_keys_elem params), (signed_keys_elem params') by done. by rewrite Hs. }
  rewrite Hk. apply chain_ext. eapply Forall_impl; [apply signed_keys_signed|]. intros k Hk1. by rewrite <-(signed_lookup params), <-(signed_lookup params'), Hs by done.
Qed.

(** Two requests with the same canonical string have the same signed parameters and the same time stamp: no value can pass for another parameter. *)
Theorem canonical_injective params params' order order' ts ts' : keys_of params order → keys_of params' order' →
  canonical order params ts = canonical order' params' ts' → signed_part params = signed_part params' ∧ ts = ts'.
Proof.
  intros Ho Ho' Heq. rewrite !canonical_chain in Heq. apply chain_inj in Heq as (Hk & -> & Hall); [|apply signed_keys_signed..]. split; [|done].
  apply map_eq. intros k. destruct (decide (k ∈ signed_keys order)) as [Hin|Hout].
  - pose proof (proj1 (Forall_forall _ _) Hall k Hin) as Hv. apply (signed_keys_elem params) in Hin as Hp; [|done]. rewrite Hk in Hin. apply (signed_keys_elem params') in Hin as Hp'; [|done].
    destruct Hp as [v Hp], Hp' as [v' Hp']. rewrite Hp, Hp'. apply map_lookup_filter_Some in Hp as [Hp _], Hp' as [Hp' _]. cbn beta in Hv. rewrite Hp, Hp' in Hv. cbn in Hv. by rewrite Hv.
  - assert (signed_part params !! k = None) as ->.
    { apply eq_None_not_Some. by rewrite <-(signed_keys_elem params order). }
    symmetry. apply eq_None_not_Some. rewrite <-(signed_keys_elem params' order') by done. by rewrite <-Hk.
Qed.

(** ** Signatures *)

Lemma ParseInt_Itoa z : in_i64 z → ParseInt (Itoa z) = Some z.
Proof.
  intros Hz. unfold Itoa. destruct (Z.ltb_spec z 0) as [Hneg|Hpos].
  - unfold ParseInt. pose proof (utoa_nonempty (- z)) as Hne. destruct (utoa (- z)) as [|c s] eqn:Hu; [done|]. rewrite <-Hu, parse_utoa by lia.
    rewrite Z.opp_involutive. by rewrite (proj2 (in_i64b_spec z) Hz).
  - rewrite (ParseInt_digits _ z) by (apply utoa_nonempty || by apply parse_utoa). by rewrite (proj2 (in_i64b_spec z) Hz).
Qed.

Definition time_ok (t : time) : Prop := in_i64 (sec t) ∧ 0 ≤ nsec t < 10 ^ 9.

Lemma After_spec t u : time_ok t → time_ok u → After t u = true ↔ nanos u < nanos t.
Proof. intros [_ Ht] [_ Hu]. unfold After, nanos. rewrite orb_true_iff, andb_true_iff, !Z.ltb_lt, Z.eqb_eq. nia. Qed.

Lemma Unix_ok s : time_ok (Unix s).
Proof. split; [apply i64_range|done]. Qed.

Lemma Unix_seconds t : time_ok t → Unix (unix_seconds t) = Time (sec t) 0.
Proof.
  intros [Ht _]. unfold Unix, unix_seconds. f_equal. rewrite i64_add_l. replace (sec t - unixToInternal + unixToInternal) with (sec t) by lia. by apply i64_id.
Qed.

Section Proofs.
Context (hmac : string → string → string).

(** What was signed verifies when the time stamp travels with the parameters and is fresh: not later than the verifier's clock and no older than its maximal age, or whatever it is when
    that age is not positive. *)
Theorem sign_verify order params secret clock t order' clock' n d :
  keys_of params order → keys_of (<[TimestampKey := Itoa (unix_seconds t)]> params) order' → time_ok t → time_ok n →
  d ≤ 0 ∨ 0 ≤ nanos n - sec t * 10 ^ 9 ≤ d →
  Verify hmac order' (<[TimestampKey := Itoa (unix_seconds t)]> params) secret (Sign hmac order params secret clock [WithTimestamp t]) clock' [WithMaxAge d; WithNow n] = true.
Proof.
  intros Ho Ho' Ht Hn Hfresh. unfold Verify, Sign. cbn [resolve fold_left apply_option timestamp maxAge now]. rewrite lookup_insert_eq, ParseInt_Itoa by apply i64_range.
  rewrite Unix_seconds by done. assert (((0 <? d) && ((d <? Sub n (Time (sec t) 0)) || After (Time (sec t) 0) n)) = false) as ->.
  { destruct (Z.ltb_spec 0 d); [|done]. destruct Hfresh as [|Hfresh]; [lia|]. cbn [andb]. apply orb_false_iff. split.
    - apply Z.ltb_ge. unfold Sub. change (nanos (Time (sec t) 0)) with (sec t * 10 ^ 9 + 0). unfold_int. lia.
    - apply not_true_iff_false. rewrite After_spec; [|by destruct Ht|done]. change (nanos (Time (sec t) 0)) with (sec t * 10 ^ 9 + 0). lia. }
  apply String.eqb_eq. unfold compute. do 2 f_equal. apply canonical_deterministic; [done..|].
  by rewrite signed_part_insert.
Qed.

(** A request that verifies with a signature made by [Sign] has a readable time stamp within the maximal age of the verifier's clock, and either it carries exactly the signed parameters and the
    time of signing, or the two canonical strings are different messages with the same HMAC. *)
Theorem verify_binds order params secret clock sopts order' params' clock' opts :
  keys_of params order → keys_of params' order' →
  Verify hmac order' params' secret (Sign hmac order params secret clock sopts) clock' opts = true →
  ∃ raw ts, params' !! TimestampKey = Some raw ∧ ParseInt raw = Some ts ∧
    (0 < maxAge (resolve clock' opts) < max_i64 → time_ok (now (resolve clock' opts)) →
      0 ≤ nanos (now (resolve clock' opts)) - nanos (Unix ts) ≤ maxAge (resolve clock' opts)) ∧
    (signed_part params' = signed_part params ∧ ts = unix_seconds (timestamp (resolve clock sopts)) ∨
     ∃ m m', m ≠ m' ∧ hmac secret m = hmac secret m').
Proof.
  intros Ho Ho' Hv. unfold Verify in Hv. destruct (params' !! TimestampKey) as [raw|]; [|done]. destruct (ParseInt raw) as [ts|] eqn:Hp; [|done]. exists raw, ts.
  split; [done|]. split; [done|]. destruct ((0 <? maxAge (resolve clock' opts)) && _) eqn:Hstale; [done|]. split.
  - intros [H0 Hmax] Hok. rewrite (proj2 (Z.ltb_lt _ _) H0) in Hstale. cbn [andb] in Hstale. apply orb_false_iff in Hstale as [Hage%Z.ltb_ge Hafter]. split.
    + apply not_true_iff_false in Hafter. rewrite After_spec in Hafter; [lia|apply Unix_ok|done].
    + unfold Sub in Hage. revert Hage Hmax. unfold_int. lia.
  - apply String.eqb_eq in Hv. unfold Sign, compute in Hv. apply EncodeToString_inj in Hv.
    destruct (decide (canonical order' params' ts = canonical order params (unix_seconds (timestamp (resolve clock sopts))))) as [Heq|Hne]; [left|right; eauto].
    by apply canonical_injective in Heq.
Qed.
End Proofs.

(** ** Witnesses and limits *)

(** A stand-in that keeps the message. *)
Definition demo_hmac (key msg : string) : string := key +:+ msg.
Definition demo_time (s : Z) : time := Time (s + unixToInternal) 0.
Definition demo_params : gmap string string := {["a" := "1&b=2"; "c" := "x y"]}.

Example demo_canonical : canonical ["c"; "_sig"; "a"]%string demo_params 1700000000 = "a=1%26b%3D2&c=x+y&_ts=1700000000"%string.
Proof. vm_compute. reflexivity. Qed.

Lemma canonical_deterministic_witness : canonical ["c"; "a"]%string demo_params 5 = canonical ["a"; "c"]%string demo_params 5.
Proof.
  apply (canonical_deterministic demo_params demo_params); [| |reflexivity].
  - unfold keys_of. vm_compute. (apply perm_swap || reflexivity).
  - unfold keys_of. vm_compute. (reflexivity || apply perm_swap).
Defined.

Lemma canonical_injective_witness : signed_part demo_params = signed_part (<["_sig"%string := "f"%string]> demo_params).
Proof.
  apply (canonical_injective demo_params (<["_sig"%string := "f"%string]> demo_params) (map_to_list demo_params).*1 (map_to_list (<["_sig"%string := "f"%string]> demo_params)).*1 5 5);
    [apply keys_of_refl..|vm_compute; reflexivity].
Defined.

Lemma sign_verify_witness :
  Verify demo_hmac (map_to_list (<[TimestampKey := Itoa 1000]> demo_params)).*1 (<[TimestampKey := Itoa 1000]> demo_params) "key"
    (Sign demo_hmac (map_to_list demo_params).*1 demo_params "key" (demo_time 0) [WithTimestamp (demo_time 1000)]) (demo_time 0) [WithMaxAge (10 * 10 ^ 9); WithNow (demo_time 1005)] = true.
Proof.
  apply (sign_verify demo_hmac (map_to_list demo_params).*1 demo_params "key" (demo_time 0) (demo_time 1000));
    [apply keys_of_refl|apply keys_of_refl|vm_compute; repeat split; congruence|vm_compute; repeat split; congruence|right; vm_compute; split; congruence].
Defined.

Lemma verify_binds_witness : ∃ raw ts, (<[TimestampKey := Itoa 1000]> demo_params) !! TimestampKey = Some raw ∧ ParseInt raw = Some ts.
Proof.
  destruct (verify_binds demo_hmac (map_to_list demo_params).*1 demo_params "key" (demo_time 1000) [] (map_to_list (<[TimestampKey := Itoa 1000]> demo_params)).*1
    (<[TimestampKey := Itoa 1000]> demo_params) (demo_time 1000) []) as (raw & ts & H1 & H2 & _); [apply keys_of_refl|apply keys_of_refl|vm_compute; reflexivity|].
  exists raw, ts. split; [exact H1|exact H2].
Defined.

(** A negative age, like 0, accepts a signature of any age. *)
Example negative_age_disables :
  Verify demo_hmac ["_ts"]%string {[TimestampKey := "1"%string]} "key" (Sign demo_hmac [] ∅ "key" (demo_time 1) []) (demo_time (10 ^ 9)) [WithMaxAge (-1)] = true.
Proof. vm_compute. reflexivity. Qed.

(** Another spelling of the same time stamp verifies. *)
Example timestamp_respelled :
  Verify demo_hmac ["_ts"]%string {[TimestampKey := "+0001"%string]} "key" (Sign demo_hmac [] ∅ "key" (demo_time 1) []) (demo_time 2) [] = true.
Proof. vm_compute. reflexivity. Qed.
