(* ===== verification/Bits.v ===== *)
(** * Bits: bit operations ([bit/bit.go])

    A value of an integer type is a [Z] in the range of the type; [ty] is the type's width and signedness, and every operation that can leave the range wraps.
    The loops carry the width of the type (plus one) as fuel.

    Shown: [CountOneBit] counts the one bits of the value's pattern ([count_exact]); [IsPowerOfTwo] is exact ([power_of_two_exact]); the smearing loops give the highest power of two at most, and the least power of two at least, the
    number wherever the next power of two is in range ([left_one_exact], [next_power_exact]); [Sum] terminates with the wrapped sum
    ([sum_exact]); [Min], [Max] and [Abs] are right wherever their difference or negation is in range ([min_max_abs_exact]); the single-bit operations change exactly one bit
    of the pattern ([bit_ops_exact]); [Swap] swaps, also equal and extreme values ([swap_exact]).
    [left_one_overflows]: with its top bits set a number has the leftmost one 0, or a negative one; [min_overflows] is documented. *)

From Stdlib Require Import ZArith Lia Bool.
From stdpp Require Import base tactics numbers list.
From S2P Require Import Prelude.

#[local] Open Scope Z_scope.

Record ty := Ty { signed : bool; width : Z }.
Definition int64 : ty := Ty true 64.
Definition uint64 : ty := Ty false 64.
Definition int8 : ty := Ty true 8.
Definition uint8 : ty := Ty false 8.

Definition ty_ok (t : ty) : Prop := 2 ≤ width t ≤ 64.

(** The bit pattern, and the value with a pattern. *)
Definition uns (t : ty) (z : Z) : Z := z mod 2 ^ width t.
Definition wrap (t : ty) (z : Z) : Z :=
  if signed t && (2 ^ (width t - 1) <=? uns t z) then uns t z - 2 ^ width t else uns t z.
Definition in_type (t : ty) (z : Z) : Prop := wrap t z = z.

Definition add (t : ty) (x y : Z) : Z := wrap t (x + y).
Definition sub (t : ty) (x y : Z) : Z := wrap t (x - y).
Definition shl (t : ty) (x n : Z) : Z := wrap t (Z.shiftl x n).
(** [^x] *)
Definition not_ (t : ty) (x : Z) : Z := wrap t (Z.lnot x).

(** ** The package *)

Definition HasOppositeSigns (x y : Z) : bool := Z.lxor x y <? 0.

(** Only for int; [intSize] is 64. *)
Definition Min (x y : Z) : Z :=
  let x := sub int64 x y in
  add int64 y (Z.land x (Z.shiftr x 63)).
Definition Max (x y : Z) : Z :=
  let y := sub int64 x y in
  sub int64 x (Z.land y (Z.shiftr y 63)).
Definition Abs (n : Z) : Z := sub int64 (Z.lxor n (Z.shiftr n 63)) (Z.shiftr n 63).

Fixpoint count_loop (fuel : nat) (t : ty) (num : Z) : Z :=
  match fuel with
  | O => 0
  | S fuel => if num =? 0 then 0 else 1 + count_loop fuel t (Z.land num (sub t num 1))
  end.
Definition CountOneBit (t : ty) (num : Z) : Z := count_loop (S (Z.to_nat (width t))) t num.

Definition IsPowerOfTwo (t : ty) (num : Z) : bool := (0 <? num) && (Z.land num (sub t num 1) =? 0).

Definition RightOneBitNum (t : ty) (num : Z) : Z := Z.land num (add t (not_ t num) 1).

(** [for i := range 6 { num |= num >> (1 << i) }] *)
Definition smear (num : Z) : Z := fold_left (λ num i, Z.lor num (Z.shiftr num (2 ^ i))) [0; 1; 2; 3; 4; 5] num.

Definition LeftOneBitNum (t : ty) (num : Z) : Z :=
  if Z.land num (sub t num 1) =? 0 then num
  else Z.shiftr (add t (smear num) 1) 1.

Definition NextHighestPowerOfTwo (t : ty) (num : Z) : Z :=
  if Z.land num (sub t num 1) =? 0 then num
  else add t (smear (sub t num 1)) 1.

Definition PreHighestPowerOfTwo (t : ty) (num : Z) : Z := LeftOneBitNum t num.

Definition Swap (nums : list Z) : list Z :=
  match nums with
  | a :: b :: rest =>
      let a := Z.lxor a b in
      let b := Z.lxor b a in
      let a := Z.lxor a b in
      a :: b :: rest
  | _ => nums
  end.

Fixpoint sum_loop (fuel : nat) (t : ty) (x y : Z) : option Z :=
  match fuel with
  | O => None
  | S fuel =>
      if y =? 0 then Some x
      else let carry := shl t (Z.land x y) 1 in sum_loop fuel t (Z.lxor x y) carry
  end.
(** [None]: the loop has not ended. *)
Definition Sum (t : ty) (x y : Z) : option Z := sum_loop (S (S (Z.to_nat (width t)))) t x y.

Fixpoint bits_loop (fuel : nat) (num : Z) : Z :=
  match fuel with
  | O => 0
  | S fuel => if 1 <=? num then 1 + bits_loop fuel (Z.shiftr num 1) else 0
  end.
Definition MaxBits (t : ty) (num : Z) : Z := bits_loop (S (Z.to_nat (width t))) num.

(** [None]: [ErrNegativeBit]. *)
Definition Bit (x y : Z) : option Z := if y <? 0 then None else Some (Z.land (Z.shiftr x y) 1).
Definition ReverseBit (t : ty) (x y : Z) : option Z := if y <? 0 then None else Some (Z.lxor x (shl t 1 y)).
Definition SetBit (t : ty) (x y : Z) : option Z := if y <? 0 then None else Some (Z.lor x (shl t 1 y)).
Definition UnsetBit (t : ty) (x y : Z) : option Z := if y <? 0 then None else Some (Z.land x (not_ t (shl t 1 y))).

(** ** Patterns *)

Lemma uns_range t z : ty_ok t → 0 ≤ uns t z < 2 ^ width t.
Proof. intros Ht. apply Z.mod_pos_bound. unfold ty_ok in Ht. lia. Qed.

Lemma uns_bits t z i : ty_ok t → Z.testbit (uns t z) i = bool_decide (0 ≤ i < width t) && Z.testbit z i.
Proof.
  intros Ht. unfold ty_ok in Ht. unfold uns. destruct (decide (i < 0)); [rewrite !Z.testbit_neg_r by lia; by rewrite andb_false_r|].
  destruct (decide (i < width t)).
  - rewrite Z.mod_pow2_bits_low by lia. by rewrite bool_decide_true by lia.
  - rewrite Z.mod_pow2_bits_high by lia. by rewrite bool_decide_false by lia.
Qed.

Lemma wrap_spec t z : ty_ok t → ∃ k, wrap t z = z + k * 2 ^ width t.
Proof.
  intros Ht. unfold wrap, uns. unfold ty_ok in Ht. pose proof (Z.div_mod z (2 ^ width t) ltac:(lia)). destruct (_ && _); [exists (- (z / 2 ^ width t) - 1)|exists (- (z / 2 ^ width t))]; lia.
Qed.

Lemma uns_congr t x k : ty_ok t → uns t (x + k * 2 ^ width t) = uns t x.
Proof. intros Ht. unfold uns. apply Z.mod_add. unfold ty_ok in Ht. lia. Qed.
Lemma uns_wrap t z : ty_ok t → uns t (wrap t z) = uns t z.
Proof. intros Ht. destruct (wrap_spec t z Ht) as [k ->]. by apply uns_congr. Qed.
Lemma wrap_uns t x y : uns t x = uns t y → wrap t x = wrap t y.
Proof. unfold wrap. by intros ->. Qed.
Lemma wrap_in t z : ty_ok t → in_type t (wrap t z).
Proof. intros Ht. unfold in_type. apply wrap_uns. by apply uns_wrap. Qed.
Lemma in_type_eq t x y : in_type t x → in_type t y → uns t x = uns t y → x = y.
Proof. unfold in_type. intros Hx Hy Hu. rewrite <-Hx, <-Hy. by apply wrap_uns. Qed.

(** The range of a type. *)
Definition lo (t : ty) : Z := if signed t then - 2 ^ (width t - 1) else 0.
Definition hi (t : ty) : Z := if signed t then 2 ^ (width t - 1) else 2 ^ width t.

Lemma in_type_range t z : ty_ok t → in_type t z ↔ lo t ≤ z < hi t.
Proof.
  intros Ht. pose proof (uns_range t z Ht) as Hu. unfold ty_ok in Ht. assert (2 ^ width t = 2 * 2 ^ (width t - 1)) as Hw by (rewrite <-Z.pow_succ_r by lia; f_equal; lia).
  assert (0 < 2 ^ (width t - 1)) by lia. unfold in_type, wrap, lo, hi. split.
  - destruct (signed t); cbn [andb]; [destruct (Z.leb_spec (2 ^ (width t - 1)) (uns t z))|]; lia.
  - intros Hz. unfold uns. destruct (signed t); cbn [andb].
    + destruct (Z.le_gt_cases 0 z).
      * rewrite Z.mod_small by lia. destruct (Z.leb_spec (2 ^ (width t - 1)) z); lia.
      * replace (z mod 2 ^ width t) with (z + 2 ^ width t) by (apply (Z.mod_unique_pos _ _ (-1)); lia). destruct (Z.leb_spec (2 ^ (width t - 1)) (z + 2 ^ width t)); lia.
    + apply Z.mod_small. lia.
Qed.
Lemma uns_nonneg t z : 0 ≤ z < 2 ^ width t → uns t z = z.
Proof. apply Z.mod_small. Qed.
Lemma uns_zero t z : ty_ok t → in_type t z → uns t z = 0 ↔ z = 0.
Proof.
  intros Ht Hz. split; [|intros ->; unfold uns; apply Z.mod_0_l; unfold ty_ok in Ht; lia]. intros H0. apply (in_type_eq t); [done| |].
  - apply in_type_range; [done|]. unfold lo, hi, ty_ok in *. destruct (signed t); lia.
  - rewrite H0. symmetry. unfold uns. apply Z.mod_0_l. unfold ty_ok in Ht. lia.
Qed.

Lemma uns_land t x y : ty_ok t → uns t (Z.land x y) = Z.land (uns t x) (uns t y).
Proof. intros Ht. apply Z.bits_inj'. intros i Hi. rewrite Z.land_spec, !uns_bits, Z.land_spec by done. by destruct (bool_decide _), (Z.testbit x i), (Z.testbit y i). Qed.
Lemma uns_lor t x y : ty_ok t → uns t (Z.lor x y) = Z.lor (uns t x) (uns t y).
Proof. intros Ht. apply Z.bits_inj'. intros i Hi. rewrite Z.lor_spec, !uns_bits, Z.lor_spec by done. by destruct (bool_decide _). Qed.
Lemma uns_lxor t x y : ty_ok t → uns t (Z.lxor x y) = Z.lxor (uns t x) (uns t y).
Proof. intros Ht. apply Z.bits_inj'. intros i Hi. rewrite Z.lxor_spec, !uns_bits, Z.lxor_spec by done. by destruct (bool_decide _). Qed.

(** Values of a type are those whose high bits are all the sign. *)
Lemma in_type_shiftr t z : ty_ok t → in_type t z ↔
  Z.shiftr z (if signed t then width t - 1 else width t) = 0 ∨ signed t = true ∧ Z.shiftr z (if signed t then width t - 1 else width t) = -1.
Proof.
  intros Ht. rewrite in_type_range by done. unfold lo, hi, ty_ok in *. destruct (signed t); rewrite Z.shiftr_div_pow2 by lia.
  - set (P := 2 ^ (width t - 1)). assert (0 < P) by (unfold P; lia). pose proof (Z.div_mod z P ltac:(lia)) as Hd. pose proof (Z.mod_pos_bound z P ltac:(lia)). split.
    + intros Hz. assert (z / P = 0 ∨ z / P = -1); [|tauto]. assert (-1 ≤ z / P ≤ 0); [|lia]. nia.
    + intros [Hq|[_ Hq]]; rewrite Hq in Hd; lia.
  - set (P := 2 ^ width t). assert (0 < P) by (unfold P; lia). pose proof (Z.div_mod z P ltac:(lia)) as Hd. pose proof (Z.mod_pos_bound z P ltac:(lia)). split.
    + intros Hz. left. by apply Z.div_small.
    + intros [Hq|[? _]]; [|done]. rewrite Hq in Hd. lia.
Qed.

Lemma land_in t x y : ty_ok t → in_type t x → in_type t y → in_type t (Z.land x y).
Proof.
  intros Ht. rewrite !in_type_shiftr, Z.shiftr_land by done. intros [->|[? ->]] [->|[? ->]]; rewrite ?Z.land_0_l, ?Z.land_0_r; auto.
Qed.
Lemma lor_in t x y : ty_ok t → in_type t x → in_type t y → in_type t (Z.lor x y).
Proof.
  intros Ht. rewrite !in_type_shiftr, Z.shiftr_lor by done. intros [->|[? ->]] [->|[? ->]]; rewrite ?Z.lor_0_l, ?Z.lor_0_r; auto.
Qed.
Lemma lxor_in t x y : ty_ok t → in_type t x → in_type t y → in_type t (Z.lxor x y).
Proof.
  intros Ht. rewrite !in_type_shiftr, Z.shiftr_lxor by done. intros [->|[? ->]] [->|[? ->]]; rewrite ?Z.lxor_0_l, ?Z.lxor_0_r; auto.
Qed.

(** ** Counting *)

Fixpoint pop_pos (p : positive) : Z := match p with xH => 1 | xO p => pop_pos p | xI p => 1 + pop_pos p end.
(** The number of one bits. *)
Definition popcount (u : Z) : Z := match u with Zpos p => pop_pos p | _ => 0 end.

Lemma pop_pos_pos p : 1 ≤ pop_pos p.
Proof. induction p; cbn; lia. Qed.

Lemma popcount_double u : 0 ≤ u → popcount (2 * u) = popcount u ∧ popcount (2 * u + 1) = 1 + popcount u.
Proof. intros Hu. destruct u as [|p|p]; [done|done|lia]. Qed.

Lemma land_double x y : Z.land (2 * x) (2 * y + 1) = 2 * Z.land x y ∧ Z.land (2 * x + 1) (2 * y) = 2 * Z.land x y.
Proof.
  split; apply Z.bits_inj'; intros i Hi; (destruct (Z.eq_dec i 0) as [->|Hne]; [rewrite ?Z.land_spec, ?Z.testbit_even_0, ?Z.testbit_odd_0; done|]);
    replace i with (Z.succ (i - 1)) by lia; rewrite Z.land_spec, ?Z.testbit_even_succ, ?Z.testbit_odd_succ, Z.land_spec by lia; done.
Qed.

(** Clearing the lowest one. *)
Lemma land_pred_pop u : 0 < u → 0 ≤ Z.land u (u - 1) < u ∧ popcount (Z.land u (u - 1)) = popcount u - 1.
Proof.
  intros Hu. destruct u as [|p|]; [lia| |lia]. clear Hu. induction p as [p [IH1 IH2]|p [IH1 IH2]|]; [| |done].
  - replace (Z.pos p~1 - 1) with (2 * Z.pos p) by lia. replace (Z.pos p~1) with (2 * Z.pos p + 1) by lia. destruct (land_double (Z.pos p) (Z.pos p)) as [_ ->]. rewrite Z.land_diag.
    destruct (popcount_double (Z.pos p)) as [-> ->]; lia.
  - replace (Z.pos p~0 - 1) with (2 * (Z.pos p - 1) + 1) by lia. replace (Z.pos p~0) with (2 * Z.pos p) by lia. destruct (land_double (Z.pos p) (Z.pos p - 1)) as [-> _].
    destruct (popcount_double (Z.land (Z.pos p) (Z.pos p - 1))) as [-> _]; [lia|]. destruct (popcount_double (Z.pos p)) as [-> _]; lia.
Qed.

Lemma popcount_zero u : 0 ≤ u → popcount u = 0 ↔ u = 0.
Proof. intros Hu. split; [|by intros ->]. destruct u as [|p|p]; [done| |lia]. cbn. pose proof (pop_pos_pos p). lia. Qed.
Lemma popcount_nonneg u : 0 ≤ popcount u.
Proof. destruct u; cbn; [lia| |lia]. pose proof (pop_pos_pos p). lia. Qed.

(** [num & (num - 1)], as a pattern. *)
Lemma land_pred_uns t num : ty_ok t → in_type t num → num ≠ 0 → uns t (Z.land num (sub t num 1)) = Z.land (uns t num) (uns t num - 1) ∧ 0 < uns t num.
Proof.
  intros Ht Hn H0. pose proof (uns_range t num Ht) as Hu. assert (uns t num ≠ 0) as Hne by (by rewrite uns_zero). split; [|lia].
  rewrite uns_land by done. f_equal. unfold sub. rewrite uns_wrap by done. rewrite <-(uns_nonneg t (uns t num - 1)) by lia.
  unfold uns. by rewrite Zminus_mod_idemp_l.
Qed.

Lemma count_loop_spec t fuel : ∀ num, ty_ok t → in_type t num → popcount (uns t num) < Z.of_nat fuel → count_loop fuel t num = popcount (uns t num).
Proof.
  induction fuel as [|fuel IH]; intros num Ht Hn Hf; [pose proof (popcount_nonneg (uns t num)); lia|]. cbn [count_loop]. destruct (Z.eqb_spec num 0) as [H0|H0].
  - symmetry. apply popcount_zero; [by apply uns_range|]. by apply uns_zero.
  - destruct (land_pred_uns t num Ht Hn H0) as [Hl Hpos]. destruct (land_pred_pop (uns t num) Hpos) as [_ Hp].
    rewrite IH; [rewrite Hl; lia|done|apply land_in; [done..|by apply wrap_in]|]. rewrite Hl. lia.
Qed.

Lemma popcount_bound n u : 0 ≤ u < 2 ^ Z.of_nat n → popcount u ≤ Z.of_nat n.
Proof.
  revert u. induction n as [|n IH]; intros u Hu; [assert (u = 0) as -> by (cbn in Hu; lia); done|]. rewrite Nat2Z.inj_succ, Z.pow_succ_r in Hu by lia.
  pose proof (Z.div_mod u 2 ltac:(lia)) as Hd. pose proof (Z.mod_pos_bound u 2 ltac:(lia)). assert (0 ≤ u / 2 < 2 ^ Z.of_nat n) as Hq by lia. specialize (IH _ Hq).
  destruct (popcount_double (u / 2)) as [H0 H1]; [lia|]. assert (u mod 2 = 0 ∨ u mod 2 = 1) as [Hm|Hm] by lia; rewrite Hm in Hd; rewrite Hd, ?Z.add_0_r, ?H0, ?H1; lia.
Qed.

(** [CountOneBit] returns the number of ones in the bit pattern of its argument, for every type and also for negative numbers. *)
Theorem count_exact t num : ty_ok t → in_type t num → CountOneBit t num = popcount (uns t num).
Proof.
  intros Ht Hn. apply count_loop_spec; [done..|]. pose proof (uns_range t num Ht). unfold ty_ok in Ht.
  pose proof (popcount_bound (Z.to_nat (width t)) (uns t num)) as Hb. rewrite Z2Nat.id in Hb by lia. lia.
Qed.

Lemma popcount_one u : 0 ≤ u → popcount u = 1 ↔ ∃ k, 0 ≤ k ∧ u = 2 ^ k.
Proof.
  intros Hu. split.
  - intros H1. destruct u as [|p|p]; [done| |lia]. cbn in H1. induction p as [p IH|p IH|]; cbn in H1.
    + pose proof (pop_pos_pos p). lia.
    + destruct (IH ltac:(lia) H1) as (k & Hk & Hp). exists (Z.succ k). split; [lia|]. rewrite Z.pow_succ_r by lia. lia.
    + by exists 0.
  - intros (k & Hk & ->). pattern k. apply natlike_ind; [done| |done]. intros x Hx IH. rewrite Z.pow_succ_r by done.
    destruct (popcount_double (2 ^ x)) as [-> _]; [lia|done].
Qed.

Lemma land_pred_zero t num : ty_ok t → in_type t num → (Z.land num (sub t num 1) =? 0) = true ↔ popcount (uns t num) ≤ 1.
Proof.
  intros Ht Hn. rewrite Z.eqb_eq. pose proof (uns_range t num Ht) as Hu. destruct (Z.eq_dec num 0) as [->|H0].
  - rewrite Z.land_0_l. rewrite (proj2 (uns_zero t 0 Ht Hn) eq_refl). cbn. split; [lia|done].
  - destruct (land_pred_uns t num Ht Hn H0) as [Hl Hpos]. destruct (land_pred_pop _ Hpos) as [Hb Hp].
    rewrite <-(uns_zero t) by (done || (apply land_in; [done..|by apply wrap_in])). rewrite Hl, <-popcount_zero by lia. pose proof (popcount_nonneg (Z.land (uns t num) (uns t num - 1))). lia.
Qed.

(** [IsPowerOfTwo] holds of exactly the positive powers of two. *)
Theorem power_of_two_exact t num : ty_ok t → in_type t num → IsPowerOfTwo t num = true ↔ ∃ k, 0 ≤ k ∧ num = 2 ^ k.
Proof.
  intros Ht Hn. unfold IsPowerOfTwo. rewrite andb_true_iff, Z.ltb_lt, land_pred_zero by done. pose proof (proj1 (in_type_range t num Ht) Hn) as Hr.
  assert (0 < num → uns t num = num) as Hu.
  { intros Hp. apply uns_nonneg. unfold hi, ty_ok in *. destruct (signed t); [|lia]. assert (2 ^ (width t - 1) ≤ 2 ^ width t) by (apply Z.pow_le_mono_r; lia). lia. }
  split.
  - intros [Hp H1]. rewrite Hu in H1 by done. apply popcount_one; [lia|]. pose proof (popcount_nonneg num). pose proof (popcount_zero num ltac:(lia)). lia.
  - intros (k & Hk & ->). assert (0 < 2 ^ k) as Hp by lia. split; [done|]. rewrite Hu by done. assert (popcount (2 ^ k) = 1); [|lia]. apply popcount_one; [lia|]. by exists k.
Qed.

(** ** Smearing *)

(** The bits from [L] down over a distance [d] are ones, and none is above. *)
Definition smeared (L d n : Z) : Prop := (∀ i, Z.testbit n i = true → i ≤ L) ∧ (∀ i, 0 ≤ i → L - d < i ≤ L → Z.testbit n i = true).

Lemma smear_step L d n : 0 < d → smeared L d n → smeared L (2 * d) (Z.lor n (Z.shiftr n d)).
Proof.
  intros Hd [Hhi Hlo]. split; intros i.
  - rewrite Z.lor_spec, orb_true_iff. intros [H|H]; [by apply Hhi|]. destruct (Z.lt_ge_cases i 0); [rewrite Z.testbit_neg_r in H by lia; done|].
    rewrite Z.shiftr_spec in H by done. apply Hhi in H. lia.
  - intros Hi Hr. rewrite Z.lor_spec, orb_true_iff, Z.shiftr_spec by done. destruct (Z.lt_ge_cases (L - d) i); [left; apply Hlo; lia|right; apply Hlo; lia].
Qed.

Lemma smear_fold L m : ∀ k n, 0 ≤ k → smeared L (2 ^ k) n →
  smeared L (2 ^ (k + Z.of_nat m)) (fold_left (λ num i, Z.lor num (Z.shiftr num (2 ^ i))) ((λ j, k + Z.of_nat j) <$> seq 0 m) n).
Proof.
  induction m as [|m IH]; intros k n Hk Hs; [by rewrite Z.add_0_r|]. cbn [seq]. rewrite fmap_cons. cbn [fold_left]. rewrite Z.add_0_r, <-fmap_S_seq, <-list_fmap_compose.
  replace (k + Z.of_nat (S m)) with (Z.succ k + Z.of_nat m) by lia.
  rewrite (list_fmap_ext _ (λ j, Z.succ k + Z.of_nat j)) by (intros j x _; cbn; lia). apply IH; [lia|]. rewrite Z.pow_succ_r by done. apply smear_step; [lia|done].
Qed.

Lemma smear_spec n : 0 < n < 2 ^ 64 → smear n = 2 ^ (Z.log2 n + 1) - 1.
Proof.
  intros Hn. assert (Z.log2 n < 64) as HL by (apply Z.log2_lt_pow2; lia). pose proof (Z.log2_nonneg n) as HL0. set (L := Z.log2 n) in *.
  destruct (smear_fold L 6 0 n ltac:(lia)) as [Hhi Hlo].
  { split; intros i.
    - intros H. destruct (Z.le_gt_cases i L); [done|]. rewrite Z.bits_above_log2 in H by (unfold L in *; lia). done.
    - intros _ Hr. replace i with L by lia. apply Z.bit_log2. lia. }
  cbn [seq fmap list_fmap Z.of_nat Z.add Pos.of_succ_nat Pos.succ Pos.add] in Hhi, Hlo. fold (smear n) in Hhi, Hlo. replace (2 ^ (L + 1) - 1) with (Z.ones (L + 1)) by (rewrite Z.ones_equiv; lia).
  apply Z.bits_inj'. intros i Hi. destruct (Z.le_gt_cases i L).
  - rewrite Z.ones_spec_low by lia. apply Hlo; [done|]. lia.
  - rewrite Z.ones_spec_high by lia. apply not_true_iff_false. intros Ht. apply Hhi in Ht. lia.
Qed.

Lemma hi_pow t : ty_ok t → hi t ≤ 2 ^ width t ∧ 2 ^ width t ≤ 2 ^ 64 ∧ 2 ≤ hi t ∧ lo t ≤ 0.
Proof.
  intros Ht. unfold hi, lo, ty_ok in *. assert (2 ^ (width t - 1) ≤ 2 ^ width t ∧ 2 ^ width t ≤ 2 ^ 64 ∧ 2 ^ 1 ≤ 2 ^ (width t - 1) ∧ 2 ^ 1 ≤ 2 ^ width t) as (H1 & H2 & H3 & H4) by (split_and!; apply Z.pow_le_mono_r; lia).
  destruct (signed t); lia.
Qed.

Lemma pop_le_one_pow t num : ty_ok t → in_type t num → 0 < num → (Z.land num (sub t num 1) =? 0) = true ↔ num = 2 ^ Z.log2 num.
Proof.
  intros Ht Hn Hp. rewrite land_pred_zero by done. pose proof (proj1 (in_type_range t num Ht) Hn) as Hr. destruct (hi_pow t Ht) as (Hh & _). rewrite uns_nonneg by lia.
  pose proof (popcount_zero num ltac:(lia)) as H0. pose proof (popcount_nonneg num). assert (popcount num ≤ 1 ↔ popcount num = 1) as -> by lia. rewrite popcount_one by lia. split.
  - intros (k & Hk & ->). by rewrite Z.log2_pow2.
  - intros Heq. exists (Z.log2 num). split; [apply Z.log2_nonneg|done].
Qed.

(** For a positive number of which the next power of two is in the range of its type (or which is itself a power of two), [LeftOneBitNum] and [PreHighestPowerOfTwo] return the highest power of two at most the number. *)
Theorem left_one_exact t num : ty_ok t → in_type t num → 0 < num → num = 2 ^ Z.log2 num ∨ 2 ^ (Z.log2 num + 1) < hi t →
  LeftOneBitNum t num = 2 ^ Z.log2 num ∧ PreHighestPowerOfTwo t num = 2 ^ Z.log2 num ∧ 2 ^ Z.log2 num ≤ num < 2 * 2 ^ Z.log2 num.
Proof.
  intros Ht Hn Hp Hb. assert (LeftOneBitNum t num = 2 ^ Z.log2 num) as Heq.
  { unfold LeftOneBitNum. destruct (Z.land num (sub t num 1) =? 0) eqn:Hl; [by apply pop_le_one_pow in Hl|].
    destruct Hb as [Hb|Hb]; [apply (pop_le_one_pow t) in Hb; [congruence|done..]|]. pose proof (proj1 (in_type_range t num Ht) Hn) as Hr. destruct (hi_pow t Ht) as (Hh & Hh64 & _ & Hlo).
    rewrite smear_spec by lia. unfold add. replace (2 ^ (Z.log2 num + 1) - 1 + 1) with (2 ^ (Z.log2 num + 1)) by lia. pose proof (Z.log2_nonneg num).
    assert (in_type t (2 ^ (Z.log2 num + 1))) as -> by (apply in_type_range; [done|]; lia). rewrite Z.shiftr_div_pow2, Z.add_1_r, Z.pow_succ_r, Z.mul_comm by lia. by apply Z.div_mul. }
  split; [done|]. split; [done|]. pose proof (Z.log2_spec num Hp) as Hs. rewrite Z.pow_succ_r in Hs by apply Z.log2_nonneg. lia.
Qed.

(** For a positive number whose least power of two at least as large is in the range of its type, [NextHighestPowerOfTwo] returns that power. *)
Theorem next_power_exact t num : ty_ok t → in_type t num → 0 < num → 2 ^ Z.log2_up num < hi t →
  NextHighestPowerOfTwo t num = 2 ^ Z.log2_up num ∧ num ≤ 2 ^ Z.log2_up num ∧ ∀ k, num ≤ 2 ^ k → 2 ^ Z.log2_up num ≤ 2 ^ k.
Proof.
  intros Ht Hn Hp Hb. split; [|split].
  - unfold NextHighestPowerOfTwo. pose proof (proj1 (in_type_range t num Ht) Hn) as Hr. destruct (hi_pow t Ht) as (Hh & Hh64 & _ & Hlo). destruct (Z.land num (sub t num 1) =? 0) eqn:Hl.
    + apply pop_le_one_pow in Hl; [|done..]. rewrite Hl at 1 2. rewrite Z.log2_up_pow2 by apply Z.log2_nonneg. done.
    + assert (1 < num) as H1. { destruct (Z.eq_dec num 1) as [->|]; [|lia]. rewrite (proj2 (pop_le_one_pow t 1 Ht Hn Hp)) in Hl; done. }
      unfold sub. assert (in_type t (num - 1)) as -> by (apply in_type_range; [done|]; lia). rewrite smear_spec by lia. unfold add.
      assert (2 ^ (Z.log2 (num - 1) + 1) = 2 ^ Z.log2_up num) as ->. { by rewrite Z.log2_up_eqn. }
      replace (2 ^ Z.log2_up num - 1 + 1) with (2 ^ Z.log2_up num) by lia. apply in_type_range; [done|]. lia.
  - destruct (Z.eq_dec num 1) as [->|]; [done|]. apply Z.log2_up_spec. lia.
  - intros k Hk. destruct (Z.lt_ge_cases k 0); [rewrite Z.pow_neg_r in Hk by done; lia|]. apply Z.pow_le_mono_r; [lia|]. by apply Z.log2_up_le_pow2.
Qed.

(** ** The lowest one *)

Fixpoint low_pos (p : positive) : Z := match p with xO p => 2 * low_pos p | _ => 1 end.
(** The value of the lowest one bit. *)
Definition lowest_one (u : Z) : Z := match u with Zpos p => low_pos p | _ => 0 end.

Lemma low_pos_range p : 0 < low_pos p ≤ Z.pos p.
Proof. induction p; cbn [low_pos]; lia. Qed.

Lemma land_neg_low u : 0 ≤ u → Z.land u (- u) = lowest_one u.
Proof.
  intros Hu. destruct u as [|p|]; [done| |lia]. clear Hu. cbn [lowest_one]. induction p as [p IH|p IH|]; [| |done].
  - cbn [low_pos]. replace (- Z.pos p~1) with (2 * Z.lnot (Z.pos p) + 1) by (unfold Z.lnot; lia). replace (Z.pos p~1) with (2 * Z.pos p + 1) by lia.
    apply Z.bits_inj'. intros i Hi. destruct (Z.eq_dec i 0) as [->|Hne]; [rewrite Z.land_spec, !Z.testbit_odd_0; done|].
    replace i with (Z.succ (i - 1)) by lia. rewrite Z.land_spec, !Z.testbit_odd_succ, Z.lnot_spec by lia. rewrite andb_negb_r. symmetry. apply (Z.bits_above_log2 1); cbn; lia.
  - cbn [low_pos]. rewrite <-IH. replace (- Z.pos p~0) with (2 * - Z.pos p) by lia. replace (Z.pos p~0) with (2 * Z.pos p) by lia.
    apply Z.bits_inj'. intros i Hi. destruct (Z.eq_dec i 0) as [->|Hne]; [rewrite Z.land_spec, !Z.testbit_even_0; done|].
    replace i with (Z.succ (i - 1)) by lia. by rewrite Z.land_spec, !Z.testbit_even_succ, Z.land_spec by lia.
Qed.

(** [RightOneBitNum] keeps exactly the lowest one of the bit pattern. *)
Theorem right_one_exact t num : ty_ok t → in_type t num → uns t (RightOneBitNum t num) = lowest_one (uns t num).
Proof.
  intros Ht Hn. unfold RightOneBitNum, add, not_. rewrite uns_land, uns_wrap by done. pose proof (uns_range t num Ht) as Hu.
  assert (uns t (wrap t (Z.lnot num) + 1) = uns t (- uns t num)) as ->.
  { destruct (wrap_spec t (Z.lnot num) Ht) as [k ->]. unfold Z.lnot. replace (Z.pred (- num) + k * 2 ^ width t + 1) with (- num + k * 2 ^ width t) by lia. rewrite uns_congr by done.
    unfold uns. rewrite <-(Z.sub_0_l num), <-(Z.sub_0_l (num mod _)). by rewrite Zminus_mod_idemp_r. }
  rewrite <-(uns_nonneg t (uns t num)) at 1 by done. rewrite <-uns_land, land_neg_low by (done || lia). apply uns_nonneg.
  destruct (uns t num) as [|p|]; cbn [lowest_one]; [lia| |lia]. pose proof (low_pos_range p). lia.
Qed.

(** ** Addition by carries *)

Lemma sum_loop_spec t : ty_ok t → ∀ fuel i x y, in_type t x → in_type t y → 0 ≤ i ≤ width t → width t - i < Z.of_nat fuel →
  (∀ j, 0 ≤ j < i → Z.testbit y j = false) → sum_loop fuel t x y = Some (wrap t (x + y)).
Proof.
  intros Ht. induction fuel as [|fuel IH]; intros i x y Hx Hy Hi Hf Hz; [lia|]. cbn [sum_loop].
  destruct (Z.eqb_spec y 0) as [->|Hne]; [rewrite Z.add_0_r; by rewrite Hx|]. assert (i ≠ width t) as Hiw.
  { intros ->. apply Hne, (uns_zero t y Ht Hy). apply Z.bits_inj'. intros j Hj. rewrite uns_bits, Z.bits_0 by done. case_bool_decide; [|done]. by rewrite Hz. }
  unfold shl. rewrite Z.shiftl_mul_pow2, Z.pow_1_r by lia. rewrite (IH (i + 1)); [|by apply lxor_in|by apply wrap_in|lia|lia|].
  - f_equal. destruct (wrap_spec t (Z.land x y * 2) Ht) as [k ->]. apply wrap_uns. rewrite Z.add_assoc, uns_congr by done. f_equal. pose proof (Z.add_lxor_2land x y). lia.
  - intros j Hj. destruct (Z.eq_dec j 0) as [->|].
    + pose proof (f_equal (λ z, Z.testbit z 0) (uns_wrap t (Z.land x y * 2) Ht)) as Hb. cbn beta in Hb. rewrite !uns_bits, bool_decide_true in Hb by (done || unfold ty_ok in Ht; lia). cbn [andb] in Hb.
      rewrite Hb, Z.mul_comm. apply Z.testbit_even_0.
    + pose proof (f_equal (λ z, Z.testbit z j) (uns_wrap t (Z.land x y * 2) Ht)) as Hb. cbn beta in Hb. rewrite !uns_bits, bool_decide_true in Hb by (done || lia). cbn [andb] in Hb.
      rewrite Hb, Z.mul_comm. replace j with (Z.succ (j - 1)) by lia. rewrite Z.testbit_even_succ, Z.land_spec, Hz by lia. apply andb_false_r.
Qed.

(** [Sum] terminates, within one round per bit of the type, with the sum wrapped around as addition does. *)
Theorem sum_exact t x y : ty_ok t → in_type t x → in_type t y → Sum t x y = Some (wrap t (x + y)).
Proof. intros Ht Hx Hy. apply (sum_loop_spec t Ht _ 0); [done..|unfold ty_ok in Ht; lia|unfold ty_ok in Ht; lia|lia]. Qed.

(** ** Signs *)

Lemma sign_mask x : in_type int64 x → Z.shiftr x 63 = if x <? 0 then -1 else 0.
Proof.
  intros Hx. pose proof (proj1 (in_type_range int64 x ltac:(unfold ty_ok; cbn; lia)) Hx) as Hr. cbn in Hr. rewrite Z.shiftr_div_pow2 by lia.
  destruct (Z.ltb_spec x 0); [symmetry; apply (Z.div_unique_pos _ _ _ (x + 2 ^ 63)); lia|apply Z.div_small; lia].
Qed.

(** [Min] and [Max] are right for ints whose difference is an int, and [Abs] for every int but the least one. *)
Theorem min_max_abs_exact x y : in_type int64 x → in_type int64 y → in_type int64 (x - y) →
  Min x y = Z.min x y ∧ Max x y = Z.max x y ∧ (x ≠ lo int64 → Abs x = Z.abs x).
Proof.
  intros Hx Hy Hd. unfold Min, Max, Abs, sub, add. rewrite !Hd, !sign_mask by done. pose proof (proj1 (in_type_range int64 x ltac:(unfold ty_ok; cbn; lia)) Hx) as Hr. split_and!.
  - destruct (Z.ltb_spec (x - y) 0); rewrite ?Z.land_m1_r, ?Z.land_0_r, ?Z.add_0_r.
    + replace (y + (x - y)) with x by lia. rewrite Hx. lia.
    + rewrite Hy. lia.
  - destruct (Z.ltb_spec (x - y) 0); rewrite ?Z.land_m1_r, ?Z.land_0_r, ?Z.sub_0_r.
    + replace (x - (x - y)) with y by lia. rewrite Hy. lia.
    + rewrite Hx. lia.
  - intros Hlo. destruct (Z.ltb_spec x 0); rewrite ?Z.lxor_m1_r, ?Z.lxor_0_r, ?Z.sub_0_r.
    + unfold Z.lnot. replace (Z.pred (- x) - -1) with (- x) by lia. rewrite (proj2 (in_type_range int64 (- x) ltac:(unfold ty_ok; cbn; lia))); [lia|]. cbn in *. lia.
    + rewrite Hx. lia.
Qed.

(** [HasOppositeSigns] compares the signs, of zero as of the positive numbers. *)
Theorem opposite_exact x y : HasOppositeSigns x y = xorb (x <? 0) (y <? 0).
Proof.
  unfold HasOppositeSigns. pose proof (Z.lxor_nonneg x y) as H. destruct (Z.ltb_spec (Z.lxor x y) 0), (Z.ltb_spec x 0), (Z.ltb_spec y 0); cbn; try done; exfalso; lia.
Qed.

(** ** Single bits *)

Lemma uns_pow_bits t y i : ty_ok t → 0 ≤ y → Z.testbit (uns t (shl t 1 y)) i = bool_decide (0 ≤ i < width t) && (i =? y).
Proof.
  intros Ht Hy. unfold shl. rewrite uns_wrap, uns_bits, Z.shiftl_1_l by done. destruct (Z.lt_ge_cases i 0); [rewrite bool_decide_false by lia; done|].
  f_equal. rewrite Z.pow2_bits_eqb by done. apply Z.eqb_sym.
Qed.

(** The operations on single bits refuse negative positions; otherwise [Bit] returns the bit, and the others set, clear or flip exactly that bit of the pattern, none when the position is beyond the type. *)
Theorem bit_ops_exact t x y : ty_ok t → in_type t x →
  if y <? 0 then Bit x y = None ∧ SetBit t x y = None ∧ UnsetBit t x y = None ∧ ReverseBit t x y = None
  else Bit x y = Some (Z.b2z (Z.testbit x y)) ∧
    ∃ s u r, SetBit t x y = Some s ∧ UnsetBit t x y = Some u ∧ ReverseBit t x y = Some r ∧
      ∀ i, 0 ≤ i < width t →
        Z.testbit (uns t s) i = (i =? y) || Z.testbit (uns t x) i ∧
        Z.testbit (uns t u) i = negb (i =? y) && Z.testbit (uns t x) i ∧
        Z.testbit (uns t r) i = xorb (i =? y) (Z.testbit (uns t x) i).
Proof.
  intros Ht Hx. unfold Bit, SetBit, UnsetBit, ReverseBit. destruct (Z.ltb_spec y 0) as [Hy|Hy]; [done|]. split.
  - f_equal. apply Z.bits_inj'. intros i Hi. rewrite Z.land_spec, Z.shiftr_spec by done. destruct (Z.eq_dec i 0) as [->|].
    + rewrite Z.add_0_l. destruct (Z.testbit x y); done.
    + rewrite (Z.bits_above_log2 1), andb_false_r by (cbn; lia). symmetry. destruct (Z.testbit x y); [apply (Z.bits_above_log2 1); cbn; lia|apply Z.bits_0].
  - eexists _, _, _. split; [done|]. split; [done|]. split; [done|]. intros i Hi. rewrite uns_lor, uns_land, uns_lxor, Z.lor_spec, Z.land_spec, Z.lxor_spec by done.
    assert (Z.testbit (uns t (not_ t (shl t 1 y))) i = negb (i =? y)) as ->.
    { unfold not_. rewrite uns_wrap, uns_bits, bool_decide_true, Z.lnot_spec by (done || lia). cbn [andb]. f_equal. pose proof (uns_pow_bits t y i Ht Hy) as Hb.
      rewrite uns_bits, bool_decide_true in Hb by (done || lia). done. }
    rewrite uns_pow_bits, bool_decide_true by (done || lia). cbn [andb]. destruct (i =? y), (Z.testbit (uns t x) i); done.
Qed.

(** [Swap] exchanges the first two elements, of any values, and leaves shorter slices alone. *)
Theorem swap_exact nums : Swap nums = match nums with a :: b :: rest => b :: a :: rest | _ => nums end.
Proof.
  destruct nums as [|a [|b rest]]; try done. unfold Swap. assert (Z.lxor b (Z.lxor a b) = a) as -> by (by rewrite (Z.lxor_comm a b), <-Z.lxor_assoc, Z.lxor_nilpotent, Z.lxor_0_l).
  assert (Z.lxor (Z.lxor a b) a = b) as -> by (by rewrite Z.lxor_comm, <-Z.lxor_assoc, Z.lxor_nilpotent, Z.lxor_0_l). done.
Qed.

Lemma bits_loop_spec fuel : ∀ num, num < 2 ^ Z.of_nat fuel → bits_loop fuel num = if 0 <? num then Z.log2 num + 1 else 0.
Proof.
  induction fuel as [|fuel IH]; intros num Hn; cbn [bits_loop].
  - destruct (Z.ltb_spec 0 num); [cbn in Hn; lia|done].
  - destruct (Z.leb_spec 1 num), (Z.ltb_spec 0 num); try lia. rewrite Nat2Z.inj_succ, Z.pow_succ_r in Hn by lia. rewrite Z.shiftr_div_pow2, Z.pow_1_r by lia. rewrite IH by (apply Z.div_lt_upper_bound; lia).
    destruct (Z.ltb_spec 0 (num / 2)).
    + assert (Z.log2 (num / 2) = Z.log2 num - 1) as ->; [|lia]. replace (num / 2) with (Z.shiftr num 1) by (by rewrite Z.shiftr_div_pow2, Z.pow_1_r by lia). rewrite Z.log2_shiftr by lia. assert (1 ≤ Z.log2 num); [|lia].
      apply Z.log2_le_pow2; Z.div_mod_to_equations; lia.
    + assert (num = 1) as -> by (Z.div_mod_to_equations; lia). done.
Qed.

(** [MaxBits] is the length of a positive number in binary, and 0 for the others. *)
Theorem max_bits_exact t num : ty_ok t → in_type t num → MaxBits t num = if 0 <? num then Z.log2 num + 1 else 0.
Proof.
  intros Ht Hn. apply bits_loop_spec. pose proof (proj1 (in_type_range t num Ht) Hn). destruct (hi_pow t Ht) as (Hh & _). unfold ty_ok in Ht. rewrite Nat2Z.inj_succ, Z.pow_succ_r, Z2Nat.id by lia. lia.
Qed.

(** ** Witnesses and limits *)

Lemma type_ok_8 : ty_ok int8 ∧ ty_ok uint8.
Proof. split; unfold ty_ok; cbn; lia. Qed.

Lemma count_exact_witness : CountOneBit int8 (-128) = 1.
Proof. rewrite count_exact; [reflexivity|apply type_ok_8|reflexivity]. Defined.
Lemma power_of_two_exact_witness : IsPowerOfTwo uint8 128 = true.
Proof. apply power_of_two_exact; [apply type_ok_8|reflexivity|]. exists 7. split; [lia|reflexivity]. Defined.
Lemma left_one_exact_witness : LeftOneBitNum uint8 100 = 64.
Proof. apply left_one_exact; [apply type_ok_8|reflexivity|lia|right; reflexivity]. Defined.
Lemma next_power_exact_witness : NextHighestPowerOfTwo uint8 100 = 128.
Proof. apply next_power_exact; [apply type_ok_8|reflexivity|lia|reflexivity]. Defined.
Lemma right_one_exact_witness : uns int8 (RightOneBitNum int8 (-4)) = 4.
Proof. rewrite right_one_exact; [reflexivity|apply type_ok_8|reflexivity]. Defined.
Lemma sum_exact_witness : Sum int8 127 1 = Some (-128).
Proof. rewrite sum_exact; [reflexivity|apply type_ok_8|reflexivity|reflexivity]. Defined.
Lemma min_max_abs_exact_witness : Min (-5) 3 = -5 ∧ Max (-5) 3 = 3 ∧ Abs (-5) = 5.
Proof.
  destruct (min_max_abs_exact (-5) 3 ltac:(reflexivity) ltac:(reflexivity) ltac:(reflexivity)) as (H1 & H2 & H3).
  split; [exact H1|]. split; [exact H2|]. apply H3. discriminate.
Defined.
Lemma bit_ops_exact_witness : Bit 5 2 = Some 1.
Proof. apply (bit_ops_exact uint8 5 2); [apply type_ok_8|reflexivity]. Defined.
Lemma max_bits_exact_witness : MaxBits uint8 8 = 4.
Proof. rewrite max_bits_exact; [reflexivity|apply type_ok_8|reflexivity]. Defined.

(** The number of the leftmost one of a number with its top bits set is 0, and of a large signed number negative. *)
Example left_one_overflows : LeftOneBitNum uint8 192 = 0 ∧ LeftOneBitNum uint64 (3 * 2 ^ 62) = 0 ∧ LeftOneBitNum int64 (2 ^ 63 - 1) = - 2 ^ 62.
Proof. vm_compute. auto. Qed.

(** The next power of two of a number beyond the last one is 0, or negative; that of 0 is 0. *)
Example next_power_overflows : NextHighestPowerOfTwo uint8 129 = 0 ∧ NextHighestPowerOfTwo int64 (2 ^ 62 + 1) = - 2 ^ 63 ∧ NextHighestPowerOfTwo uint8 0 = 0.
Proof. vm_compute. auto. Qed.

Example min_overflows : Min (- 2 ^ 63) 1 = 1 ∧ Abs (- 2 ^ 63) = - 2 ^ 63.
Proof. vm_compute. auto. Qed.
