(* ===== verification/Reservoir.v ===== *)
(** * Reservoir: uniform samples of a stream ([reservoir/reservoir.go])

    Every method holds the mutex, so that calls from several goroutines are a sequence.  A call of [Offer] that draws takes the number that [IntN] returns,
    which is any number below its bound.

    Shown: a sample has at most [k] elements, all of them offered since the last [Reset], and all of those while there are at most [k] ([sample_bounded]); of
    the equally likely sequences of draws for [n] offers exactly the fraction [k / n] keeps a given one, for each of the [n] ([sample_uniform]). *)

From Stdlib Require Import ZArith Lia.
From stdpp Require Import base tactics numbers list sets.
From S2P Require Import Prelude.

Section Reservoir.
Context {T : Type}.

Record Sample := MkSample { items : list T; k : nat; count : nat }.

(** [None]: panic. *)
Definition New (k : Z) : option Sample := if (k <=? 0)%Z then None else Some (MkSample [] (Z.to_nat k) 0).

(** [draw]: what [IntN(s.count)] returns, read only when the sample is full. *)
Definition Offer (draw : nat) (item : T) (s : Sample) : Sample :=
  let s := MkSample (items s) (k s) (S (count s)) in
  if length (items s) <? k s then MkSample (items s ++ [item]) (k s) (count s)
  else if draw <? k s then MkSample (<[draw := item]> (items s)) (k s) (count s)
  else s.

Definition Sample_ (s : Sample) : list T := items s.
Definition Count (s : Sample) : nat := count s.
Definition Cap (s : Sample) : nat := k s.
Definition Reset (s : Sample) : Sample := MkSample [] (k s) 0.

Inductive op := OOffer (draw : nat) (item : T) | OReset.
Definition step (s : Sample) (o : op) : Sample := match o with OOffer d x => Offer d x s | OReset => Reset s end.
Definition run (s : Sample) (os : list op) : Sample := fold_left step os s.

(** What has been offered since the last [Reset]. *)
Definition offered_step (l : list T) (o : op) : list T := match o with OOffer _ x => l ++ [x] | OReset => [] end.
Definition offered (os : list op) : list T := fold_left offered_step os [].

Record sample_inv (s : Sample) (l : list T) : Prop := {
  si_pos : 0 < k s;
  si_len : length (items s) = Nat.min (k s) (length l);
  si_sub : ∀ x, x ∈ items s → x ∈ l;
  si_all : length l ≤ k s → items s = l;
  si_count : count s = length l;
}.

Lemma step_sample_inv s l o : sample_inv s l → sample_inv (step s o) (offered_step l o) ∧ k (step s o) = k s.
Proof.
  intros [Hk Hl Hs Ha Hc]. destruct o as [d x|]; cbn [step offered_step]; [|split; [split; cbn; [done|lia|set_solver|done|done]|done]].
  unfold Offer. cbn [items k count]. destruct (Nat.ltb_spec (length (items s)) (k s)) as [Hlt|Hge]; [|destruct (Nat.ltb_spec d (k s)) as [Hd|Hd]]; (split; [|done]); split; cbn [items k count]; try done.
  all: rewrite ?length_app, ?length_insert; cbn [length]; try lia.
  - intros y [Hy| ->%list_elem_of_singleton]%elem_of_app; apply elem_of_app; [left; auto|right; by apply list_elem_of_singleton].
  - intros Hle. rewrite Ha by lia. done.
  - intros y (i & Hi)%list_elem_of_lookup. apply elem_of_app. destruct (decide (i = d)) as [->|Hne].
    + rewrite list_lookup_insert_eq in Hi by lia. simplify_eq. right. by apply list_elem_of_singleton.
    + rewrite list_lookup_insert_ne in Hi by done. left. apply Hs. by eapply list_elem_of_lookup_2.
  - intros y Hy. apply elem_of_app. left. auto.
Qed.

Lemma run_sample_inv os : ∀ s l, sample_inv s l → sample_inv (run s os) (fold_left offered_step os l) ∧ k (run s os) = k s.
Proof.
  induction os as [|o os IH]; intros s l Hi; [done|]. destruct (step_sample_inv s l o Hi) as [Hi' Hk]. cbn [run fold_left]. destruct (IH _ _ Hi') as [H1 H2]. split; [done|]. unfold run in H2. congruence.
Qed.

(** After any calls the sample holds [k] of the elements offered since the last [Reset], or all of them in order while there are no more than [k], and [Count] is their number. *)
Theorem sample_bounded n s os : New n = Some s →
  length (Sample_ (run s os)) = Nat.min (Z.to_nat n) (length (offered os)) ∧ (∀ x, x ∈ Sample_ (run s os) → x ∈ offered os) ∧
  (length (offered os) ≤ Z.to_nat n → Sample_ (run s os) = offered os) ∧ Count (run s os) = length (offered os) ∧ Cap (run s os) = Z.to_nat n.
Proof.
  unfold New. destruct (Z.leb_spec n 0); [done|]. intros [= <-]. destruct (run_sample_inv os (MkSample [] (Z.to_nat n) 0) []) as [[Hp Hl Hs Ha Hc] Hk].
  { split; cbn; [lia|lia|done|done|done]. }
  cbn [k] in Hk. unfold Sample_, Count, Cap. rewrite Hk in *. done.
Qed.
End Reservoir.
Arguments Sample : clear implicits.

(** ** Uniformity *)

(** The offers are numbered, and a draw for offer [n] (when the sample is full) is one of the [n + 1] numbers up to [n].  All outcomes of all draws, one entry for each sequence of draws. *)
Definition outcomes_step (os : list (Sample nat)) (n : nat) : list (Sample nat) :=
  s ← os; if length (items s) <? k s then [Offer 0 n s] else (λ j, Offer j n s) <$> seq 0 (S (count s)).
Fixpoint outcomes (kk n : nat) : list (Sample nat) :=
  match n with O => [MkSample [] kk 0] | S n => outcomes_step (outcomes kk n) n end.

(** How many outcomes hold offer [m]. *)
Definition holding (m : nat) (os : list (Sample nat)) : nat := length (List.filter (λ s, bool_decide (m ∈ items s)) os).

Lemma holding_app m l1 l2 : holding m (l1 ++ l2) = holding m l1 + holding m l2.
Proof. unfold holding. by rewrite List.filter_app, length_app. Qed.
Lemma holding_cons m s os : holding m (s :: os) = (if bool_decide (m ∈ items s) then 1 else 0) + holding m os.
Proof. unfold holding. cbn [List.filter]. destruct (bool_decide (m ∈ items s)); done. Qed.

(** An outcome after [n] offers. *)
Record outcome_ok (kk n : nat) (s : Sample nat) : Prop := {
  oo_k : k s = kk;
  oo_count : count s = n;
  oo_len : length (items s) = Nat.min kk n;
  oo_old : ∀ x, x ∈ items s → x < n;
  oo_nodup : NoDup (items s);
  oo_all : n ≤ kk → items s = seq 0 n;
}.

Lemma insert_NoDup (l : list nat) i x : NoDup l → x ∉ l → NoDup (<[i := x]> l).
Proof.
  intros Hn Hx. apply NoDup_alt. intros a b y Ha Hb. destruct (decide (i < length l)) as [Hi|Hi]; [|rewrite list_insert_ge in Ha, Hb by lia; by eapply NoDup_lookup].
  assert (∀ c, c ≠ i → <[i := x]> l !! c = Some y → l !! c = Some y) as Hother by (intros c Hc Hl; by rewrite list_lookup_insert_ne in Hl by congruence).
  assert (<[i := x]> l !! i = Some y → y = x) as Hsame by (rewrite list_lookup_insert_eq by done; congruence).
  destruct (decide (a = i)) as [->|Hai], (decide (b = i)) as [->|Hbi]; [done|..].
  - apply Hsame in Ha as ->. apply Hother in Hb; [|done]. exfalso. apply Hx. by eapply list_elem_of_lookup_2.
  - apply Hsame in Hb as ->. apply Hother in Ha; [|done]. exfalso. apply Hx. by eapply list_elem_of_lookup_2.
  - apply Hother in Ha, Hb; [|done..]. by eapply NoDup_lookup.
Qed.

Lemma Offer_outcome kk n j s : 0 < kk → outcome_ok kk n s → j < kk ∨ kk ≤ j ∨ n < kk → outcome_ok kk (S n) (Offer j n s).
Proof.
  intros Hkk [Hk Hc Hl Ho Hn Ha] _. unfold Offer. cbn [items k count]. rewrite Hk. assert (n ∉ items s) as Hnew by (intros Hin%Ho; lia).
  destruct (Nat.ltb_spec (length (items s)) kk) as [Hlt|Hge]; [|destruct (Nat.ltb_spec j kk) as [Hj|Hj]]; split; cbn [items k count]; try done; try lia.
  - rewrite length_app. cbn. lia.
  - intros x [Hx%Ho| ->%list_elem_of_singleton]%elem_of_app; lia.
  - apply NoDup_app. split; [done|]. split; [intros x Hx ->%list_elem_of_singleton; done|]. apply NoDup_singleton.
  - intros _. rewrite Ha by lia. by rewrite seq_S.
  - rewrite length_insert. lia.
  - intros x (i & Hi)%list_elem_of_lookup. destruct (decide (i = j)) as [->|Hne].
    + rewrite list_lookup_insert_eq in Hi by lia. simplify_eq. lia.
    + rewrite list_lookup_insert_ne in Hi by done. apply list_elem_of_lookup_2, Ho in Hi. lia.
  - by apply insert_NoDup.
  - intros x Hx%Ho. lia.
Qed.

Lemma outcomes_ok kk n : 0 < kk → Forall (outcome_ok kk n) (outcomes kk n).
Proof.
  intros Hkk. induction n as [|n IH]; [apply Forall_singleton; split; cbn; try done; [lia|set_solver|constructor]|]. cbn [outcomes]. unfold outcomes_step. apply Forall_forall. intros s'.
  rewrite list_elem_of_bind. intros (s & Hin & Hs). pose proof (proj1 (Forall_forall _ _) IH s Hs) as Hok.
  destruct (length (items s) <? k s).
  - apply list_elem_of_singleton in Hin as ->. apply Offer_outcome; [done..|lia].
  - apply list_elem_of_fmap in Hin as (j & -> & _). apply Offer_outcome; [done..|lia].
Qed.

(** Counting draws. *)
Lemma count_lt a N : length (List.filter (λ j, j <? a) (seq 0 N)) = Nat.min a N.
Proof.
  induction N as [|N IH]; [cbn; lia|]. rewrite seq_S, List.filter_app, length_app, IH. cbn [List.filter length Nat.add]. destruct (Nat.ltb_spec N a); cbn; lia.
Qed.
Lemma count_ne p N : length (List.filter (λ j, negb (j =? p)) (seq 0 N)) = if p <? N then N - 1 else N.
Proof.
  induction N as [|N IH]; [done|]. rewrite seq_S, List.filter_app, length_app, IH. cbn [List.filter length Nat.add]. destruct (Nat.eqb_spec N p), (Nat.ltb_spec p N), (Nat.ltb_spec p (S N)); cbn; lia.
Qed.

Lemma holding_map m (f : nat → Sample nat) (P : nat → bool) l : (∀ j, j ∈ l → bool_decide (m ∈ items (f j)) = P j) → holding m (f <$> l) = length (List.filter P l).
Proof.
  induction l as [|j l IH]; intros Hp; [done|]. rewrite fmap_cons, holding_cons, Hp by set_solver. cbn [List.filter]. rewrite IH by set_solver. by destruct (P j).
Qed.

Lemma full_holding kk n s m : 0 < kk ≤ n → outcome_ok kk n s → m ≤ n →
  holding m ((λ j, Offer j n s) <$> seq 0 (S n)) = if decide (m = n) then kk else if decide (m ∈ items s) then n else 0.
Proof.
  intros Hkk [Hk Hc Hl Ho Hn _] Hm. assert (∀ j, items (Offer j n s) = if j <? kk then <[j := n]> (items s) else items s) as Hoff.
  { intros j. unfold Offer. cbn [items k count]. rewrite Hk. destruct (Nat.ltb_spec (length (items s)) kk); [lia|]. by destruct (j <? kk). }
  case_decide as Hmn; [subst m|case_decide as Hin].
  - rewrite (holding_map _ _ (λ j, j <? kk)), count_lt; [lia|]. intros j _. rewrite Hoff. destruct (Nat.ltb_spec j kk).
    + apply bool_decide_true. apply list_elem_of_lookup. exists j. apply list_lookup_insert_eq. lia.
    + apply bool_decide_false. intros Hx%Ho. lia.
  - apply list_elem_of_lookup in Hin as [p Hp]. pose proof (lookup_lt_Some _ _ _ Hp) as Hlt. rewrite (holding_map _ _ (λ j, negb (j =? p))), count_ne.
    { destruct (Nat.ltb_spec p (S n)); lia. }
    intros j _. rewrite Hoff. destruct (Nat.eqb_spec j p) as [->|Hne]; cbn [negb].
    + destruct (Nat.ltb_spec p kk); [|lia]. apply bool_decide_false. intros (i & Hi)%list_elem_of_lookup. destruct (decide (i = p)) as [->|Hip].
      * rewrite list_lookup_insert_eq in Hi by done. congruence.
      * rewrite list_lookup_insert_ne in Hi by done. apply Hip. by eapply NoDup_lookup.
    + apply bool_decide_true. apply list_elem_of_lookup. exists p. destruct (j <? kk); [|done]. by rewrite list_lookup_insert_ne.
  - rewrite (holding_map _ _ (λ _, false)); [by induction (seq 0 (S n))|]. intros j _. apply bool_decide_false. rewrite Hoff. destruct (j <? kk); [|done].
    intros (i & Hi)%list_elem_of_lookup. destruct (decide (i = j ∧ j < length (items s))) as [[-> Hj]|Hne].
    + rewrite list_lookup_insert_eq in Hi by done. congruence.
    + destruct (decide (i = j)) as [->|]; [rewrite list_insert_ge in Hi by lia|rewrite list_lookup_insert_ne in Hi by done]; apply Hin; by eapply list_elem_of_lookup_2.
Qed.

(** One more offer to full samples. *)
Lemma step_holding kk n m os : 0 < kk ≤ n → Forall (outcome_ok kk n) os → m ≤ n →
  holding m (outcomes_step os n) = (if decide (m = n) then kk * length os else n * holding m os) ∧ length (outcomes_step os n) = S n * length os.
Proof.
  intros Hkk Hos Hm. induction Hos as [|s os Hs Hos [IH1 IH2]]; [cbn; case_decide; unfold holding; cbn; lia|]. unfold outcomes_step in *. rewrite bind_cons, holding_app, length_app, IH1, IH2.
  pose proof Hs as [Hk Hc Hl _ _ _]. destruct (Nat.ltb_spec (length (items s)) (k s)); [lia|]. rewrite Hc, (full_holding kk n s m Hkk Hs Hm), length_fmap, length_seq, holding_cons. cbn [length].
  split; [|lia]. case_decide; [lia|]. case_decide; [rewrite bool_decide_true by done|rewrite bool_decide_false by done]; lia.
Qed.

(** Before the sample is full there is one outcome. *)
Lemma outcomes_small kk n : n ≤ kk → length (outcomes kk n) = 1.
Proof.
  intros Hn. induction n as [|n IH]; [done|]. specialize (IH ltac:(lia)). destruct (decide (kk = 0)) as [->|Hk]; [lia|]. pose proof (outcomes_ok kk n ltac:(lia)) as Hok. cbn [outcomes].
  destruct (outcomes kk n) as [|s [|]]; try done. apply Forall_singleton in Hok as [Hk' Hc Hl _ _ _]. unfold outcomes_step. cbn [mbind list_bind]. rewrite app_nil_r.
  destruct (Nat.ltb_spec (length (items s)) (k s)); [done|lia].
Qed.

(** C38: Algorithm R is uniform.  Of all sequences of draws for [n] offers to a sample of [k], of which there is one for each choice of a number up to [i] at every offer [i] beyond the first [k],
    exactly the fraction [k / n] keeps offer [m], for each [m]. *)
Theorem sample_uniform kk n m : 0 < kk ≤ n → m < n → holding m (outcomes kk n) * n = kk * length (outcomes kk n) ∧ 0 < length (outcomes kk n).
Proof.
  intros Hkk. revert m. induction n as [|n IH]; intros m Hm; [lia|]. destruct (decide (n < kk)) as [Hlt|Hge].
  - assert (kk = S n) as -> by lia. pose proof (outcomes_small (S n) (S n) ltac:(lia)) as H1. pose proof (outcomes_ok (S n) (S n) ltac:(lia)) as Hok.
    destruct (outcomes (S n) (S n)) as [|s [|]]; try done. apply Forall_singleton in Hok as [_ _ _ _ _ Ha]. unfold holding. cbn [List.filter]. rewrite Ha, bool_decide_true by (done || apply elem_of_seq; lia). cbn. lia.
  - cbn [outcomes]. destruct (step_holding kk n m (outcomes kk n) ltac:(lia) (outcomes_ok kk n ltac:(lia)) ltac:(lia)) as [-> ->]. destruct (IH ltac:(lia) 0 ltac:(lia)) as [_ Hpos].
    case_decide as Hmn; [split; lia|]. destruct (IH ltac:(lia) m ltac:(lia)) as [IHm _]. split; [|lia]. rewrite <-Nat.mul_assoc, (Nat.mul_comm (holding m _)), Nat.mul_assoc, (Nat.mul_comm n). nia.
Qed.

(** ** Witnesses *)

Lemma sample_bounded_witness : ∃ s, @New nat 2 = Some s ∧ Count (run s [OOffer 0 7; OReset; OOffer 0 1; OOffer 0 2; OOffer 1 3]) = 3.
Proof.
  destruct (@New nat 2) as [s|] eqn:HN; [|discriminate HN]. exists s. split; [reflexivity|].
  destruct (sample_bounded 2 s [OOffer 0 7; OReset; OOffer 0 1; OOffer 0 2; OOffer 1 3] HN) as (_ & _ & _ & Hc & _). exact Hc.
Defined.

Lemma sample_uniform_witness : holding 1 (outcomes 2 4) * 4 = 2 * length (outcomes 2 4) ∧ length (outcomes 2 4) = 12.
Proof. split; [apply (sample_uniform 2 4 1); lia|reflexivity]. Defined.
