(* ===== verification/HyperLogLog.v ===== *)
(** * HyperLogLog: distinct counts ([hyperloglog/hyperloglog.go])

    Registers are a list, hashes 64-bit patterns, the estimate binary64.  [math.Log] is a parameter; the powers of two it adds up are exact.

    Shown: register [j] is the greatest rank of the hashes with index [j], so that a sketch depends only on the set of elements, neither on their order nor on duplicates
    ([registers_exact], [sketch_of_set]), no index is out of range and no rank beyond its byte; [Merge] of two sketches is the sketch of all elements of both, and refuses another
    precision without a change ([merge_exact]); the finalizer of the hash is injective, so that it adds no collisions ([splitmix64_injective]).
    [saturated_estimate]: the correction for large counts takes the logarithm of a negative number when the registers are full. *)

From Stdlib Require Import ZArith Lia Bool SpecFloat.
From stdpp Require Import base tactics numbers list sets.
From S2P Require Import Prelude GoStd Float64 FloatOrder.

#[local] Open Scope Z_scope.

Definition MinPrecision : Z := 4.
Definition MaxPrecision : Z := 16.

Record HyperLogLog := MkHLL { p : Z; m : Z; reg : list Z }.

(** ** Hashing *)

Definition splitmix64 (x : Z) : Z :=
  let x := u64 (x + 11400714819323198485) in
  let x := u64 (Z.lxor x (Z.shiftr x 30) * 13787848793156543929) in
  let x := u64 (Z.lxor x (Z.shiftr x 27) * 10723151780598845931) in
  Z.lxor x (Z.shiftr x 31).

Definition DefaultHash (data : list Z) : Z := splitmix64 (fnv64a data).

(** ** The sketch *)

(** [None]: [ErrPrecision]. *)
Definition New (precision : Z) : option HyperLogLog :=
  if (precision <? MinPrecision) || (MaxPrecision <? precision) then None
  else Some (MkHLL precision (Z.shiftl 1 precision) (replicate (Z.to_nat (Z.shiftl 1 precision)) 0)).

Definition LeadingZeros64 (x : Z) : Z := if x =? 0 then 64 else 63 - Z.log2 x.

Definition index (p x : Z) : Z := Z.shiftr x (64 - p).
Definition rank (p x : Z) : Z :=
  let rho := u8 (LeadingZeros64 (u64 (Z.shiftl x p)) + 1) in
  let max := u8 (64 - p + 1) in
  if max <? rho then max else rho.

(** [None]: an index out of range. *)
Definition AddHashed (h : HyperLogLog) (x : Z) : option HyperLogLog :=
  let j := Z.to_nat (index (p h) x) in
  r ← reg h !! j;
  Some (if r <? rank (p h) x then MkHLL (p h) (m h) (<[j := rank (p h) x]> (reg h)) else h).
Definition Add (h : HyperLogLog) (data : list Z) : option HyperLogLog := AddHashed h (DefaultHash data).
Definition AddString (h : HyperLogLog) (s : list Z) : option HyperLogLog := Add h s.

Definition Precision (h : HyperLogLog) : Z := p h.
Definition Reset (h : HyperLogLog) : HyperLogLog := MkHLL (p h) (m h) ((λ _, 0) <$> reg h).

(** The loop of [Merge] over the other's registers; [None]: an index out of range. *)
Fixpoint merge_loop (i : nat) (other mine : list Z) : option (list Z) :=
  match other with
  | [] => Some mine
  | r :: other => r' ← mine !! i; merge_loop (S i) other (if r' <? r then <[i := r]> mine else mine)
  end.
Inductive merge_result := Merged (h : HyperLogLog) | ErrIncompatible.
Definition Merge (h other : HyperLogLog) : option merge_result :=
  if negb (p h =? p other) then Some ErrIncompatible
  else reg' ← merge_loop 0 (reg other) (reg h); Some (Merged (MkHLL (p h) (m h) reg')).

(** ** The estimate *)

Definition dec (num den : Z) : float64 := f64_div (f64_of_Z num) (f64_of_Z den).
Definition alpha (m : float64) : float64 :=
  if f64_eq m (f64_of_Z 16) then dec 673 1000
  else if f64_eq m (f64_of_Z 32) then dec 697 1000
  else if f64_eq m (f64_of_Z 64) then dec 709 1000
  else f64_div (dec 7213 10000) (f64_add f1 (f64_div (dec 1079 1000) m)).

(** [math.Pow(2, -r)] for a register. *)
Definition pow2_neg (r : Z) : float64 := S754_finite false 4503599627370496 (- 52 - r).

Section Estimate.
Context (Log : float64 → float64).

Definition raw_estimate (h : HyperLogLog) : float64 :=
  let mf := f64_of_Z (m h) in
  let sum := fold_left (λ s r, f64_add s (pow2_neg r)) (reg h) f0 in
  f64_div (f64_mul (f64_mul (alpha mf) mf) mf) sum.
Definition zeros (h : HyperLogLog) : Z := Z.of_nat (length (List.filter (Z.eqb 0) (reg h))).

Definition Estimate (h : HyperLogLog) : float64 :=
  let mf := f64_of_Z (m h) in
  let est := raw_estimate h in
  if f64_le est (f64_mul (dec 5 2) mf) && (0 <? zeros h) then f64_mul mf (Log (f64_div mf (f64_of_Z (zeros h))))
  else if f64_gt est (dec (2 ^ 32) 30) then
    let two64 := f64_of_Z (2 ^ 64) in
    f64_mul (SFopp two64) (Log (f64_sub f1 (f64_div est two64)))
  else est.
End Estimate.

(** ** Registers *)

Definition hash_ok (x : Z) : Prop := 0 ≤ x < 2 ^ 64.
Definition precision_ok (p : Z) : Prop := MinPrecision ≤ p ≤ MaxPrecision.

Fixpoint add_all (h : HyperLogLog) (xs : list Z) : option HyperLogLog :=
  match xs with [] => Some h | x :: xs => h ← AddHashed h x; add_all h xs end.

Definition maximum (l : list Z) : Z := foldr Z.max 0 l.
(** The greatest rank of the hashes with index [j]; 0 when there is none. *)
Definition register (pr : Z) (xs : list Z) (j : Z) : Z := maximum (rank pr <$> filter (λ x, index pr x = j) xs).

Lemma maximum_nonneg l : 0 ≤ maximum l.
Proof. unfold maximum. induction l; cbn; lia. Qed.
Lemma maximum_le l b : maximum l ≤ b ↔ 0 ≤ b ∧ ∀ x, x ∈ l → x ≤ b.
Proof.
  induction l as [|y l IH]; cbn [maximum foldr]; [split; [intros; split; [done|set_solver]|by intros []]|]. fold (maximum l). rewrite Z.max_lub_iff, IH. split.
  - intros (Hy & H0 & Hl). split; [done|]. intros x [->|Hx]%elem_of_cons; auto.
  - intros [H0 Hl]. split; [apply Hl; set_solver|]. split; [done|]. intros x Hx. apply Hl. set_solver.
Qed.
Lemma maximum_app l1 l2 : maximum (l1 ++ l2) = Z.max (maximum l1) (maximum l2).
Proof. induction l1 as [|x l1 IH]; cbn [maximum foldr app]; [fold (maximum l2); pose proof (maximum_nonneg l2); lia|]. fold (maximum (l1 ++ l2)) (maximum l1). rewrite IH. lia. Qed.

Lemma index_range pr x : precision_ok pr → hash_ok x → 0 ≤ index pr x < 2 ^ pr.
Proof.
  intros Hp Hx. unfold precision_ok, MinPrecision, MaxPrecision in Hp. unfold index. rewrite Z.shiftr_div_pow2 by lia. unfold hash_ok in Hx. split; [apply Z.div_pos; lia|].
  apply Z.div_lt_upper_bound; [lia|]. rewrite <-Z.pow_add_r by lia. replace (64 - pr + pr) with 64 by lia. lia.
Qed.

(** A rank fits the remaining bits, and its byte. *)
Lemma rank_range pr x : precision_ok pr → 1 ≤ rank pr x ≤ 65 - pr.
Proof.
  intros Hp. unfold precision_ok, MinPrecision, MaxPrecision in Hp. unfold rank, LeadingZeros64. set (y := u64 _). assert (0 ≤ y < 2 ^ 64) as Hy by (unfold y, u64; apply Z.mod_pos_bound; lia).
  assert (∀ z, 0 ≤ z < 256 → u8 z = z) as Hu8 by (intros z Hz; unfold u8; apply Z.mod_small; lia). rewrite (Hu8 (64 - pr + 1)) by lia.
  assert (0 ≤ (if y =? 0 then 64 else 63 - Z.log2 y) ≤ 64) as Hlz.
  { destruct (Z.eqb_spec y 0); [lia|]. pose proof (Z.log2_nonneg y). assert (Z.log2 y < 64) by (apply Z.log2_lt_pow2; lia). lia. }
  rewrite Hu8 by lia. destruct (Z.ltb_spec (64 - pr + 1) ((if y =? 0 then 64 else 63 - Z.log2 y) + 1)); lia.
Qed.

Record sketch (pr : Z) (xs : list Z) (h : HyperLogLog) : Prop := {
  sk_p : p h = pr;
  sk_m : m h = 2 ^ pr;
  sk_len : length (reg h) = Z.to_nat (2 ^ pr);
  sk_reg : ∀ j, 0 ≤ j < 2 ^ pr → reg h !! Z.to_nat j = Some (register pr xs j);
}.

Lemma register_snoc pr xs x j : register pr (xs ++ [x]) j = if decide (index pr x = j) then Z.max (register pr xs j) (rank pr x) else register pr xs j.
Proof.
  unfold register. rewrite filter_app, fmap_app, maximum_app, filter_cons, filter_nil. case_decide as Hj; cbn [fmap list_fmap maximum foldr].
  - pose proof (maximum_nonneg (rank pr <$> filter (λ x, index pr x = j) xs)). lia.
  - pose proof (maximum_nonneg (rank pr <$> filter (λ x, index pr x = j) xs)). lia.
Qed.

Lemma AddHashed_sketch pr xs h x : precision_ok pr → hash_ok x → sketch pr xs h → ∃ h', AddHashed h x = Some h' ∧ sketch pr (xs ++ [x]) h'.
Proof.
  intros Hp Hx [Hpr Hm Hl Hr]. pose proof (index_range pr x Hp Hx) as Hi. unfold AddHashed. rewrite Hpr, (Hr _ Hi). cbn [mbind option_bind]. eexists. split; [done|].
  assert (∀ j, 0 ≤ j → Z.to_nat j = Z.to_nat (index pr x) → j = index pr x) as Hinj by (intros j Hj Heq; lia).
  destruct (Z.ltb_spec (register pr xs (index pr x)) (rank pr x)); split; cbn [p m reg]; try done.
  - by rewrite length_insert.
  - intros j Hj. rewrite register_snoc. case_decide as Hd; [subst j; rewrite list_lookup_insert_eq by lia; f_equal; lia|].
    rewrite list_lookup_insert_ne by (intros Heq; apply Hd; symmetry; apply Hinj; [lia|done]). by apply Hr.
  - intros j Hj. rewrite register_snoc, (Hr _ Hj). case_decide as Hd; [subst j; f_equal; lia|done].
Qed.

Lemma add_all_sketch pr ys : ∀ xs h, precision_ok pr → Forall hash_ok ys → sketch pr xs h → ∃ h', add_all h ys = Some h' ∧ sketch pr (xs ++ ys) h'.
Proof.
  induction ys as [|y ys IH]; intros xs h Hp Hys Hs; [exists h; by rewrite app_nil_r|]. apply Forall_cons in Hys as [Hy Hys]. cbn [add_all].
  destruct (AddHashed_sketch pr xs h y Hp Hy Hs) as (h1 & -> & Hs1). cbn [mbind option_bind]. destruct (IH (xs ++ [y]) h1 Hp Hys Hs1) as (h2 & H2 & Hs2). exists h2. rewrite <-app_assoc in Hs2. done.
Qed.

Lemma New_sketch pr h : New pr = Some h → precision_ok pr ∧ sketch pr [] h.
Proof.
  unfold New. destruct (Z.ltb_spec pr MinPrecision), (Z.ltb_spec MaxPrecision pr); cbn [orb]; try done. intros [= <-]. split; [unfold precision_ok; lia|]. rewrite Z.shiftl_1_l.
  split; cbn [p m reg]; [done|done|by rewrite length_replicate|]. intros j Hj. rewrite lookup_replicate_2 by lia. done.
Qed.

Lemma sketch_unique pr xs ys h h' : sketch pr xs h → sketch pr ys h' → (∀ j, 0 ≤ j < 2 ^ pr → register pr xs j = register pr ys j) → h = h'.
Proof.
  intros [Hp Hm Hl Hr] [Hp' Hm' Hl' Hr'] Heq. destruct h as [p1 m1 r1], h' as [p2 m2 r2]. cbn [p m reg] in *. subst. f_equal. apply list_eq. intros i.
  destruct (decide (i < Z.to_nat (2 ^ pr))%nat) as [Hi|Hi]; [|rewrite !lookup_ge_None_2 by lia; done].
  rewrite <-(Nat2Z.id i), Hr, Hr', Heq by lia. done.
Qed.

(** Adding hashes never indexes out of range, and afterwards register [j] holds the greatest rank of the hashes with index [j], which is between 1 and 65 less the precision, or 0 when there is none. *)
Theorem registers_exact pr h xs : New pr = Some h → Forall hash_ok xs →
  ∃ h', add_all h xs = Some h' ∧ Precision h' = pr ∧ length (reg h') = Z.to_nat (2 ^ pr) ∧
    (∀ j, 0 ≤ j < 2 ^ pr → reg h' !! Z.to_nat j = Some (register pr xs j)) ∧ Forall (λ r, 0 ≤ r ≤ 65 - pr) (reg h').
Proof.
  intros HN Hxs. destruct (New_sketch pr h HN) as [Hp Hs]. destruct (add_all_sketch pr xs [] h Hp Hxs Hs) as (h' & Ha & [Hpr Hm Hl Hr]). exists h'. cbn [app] in *.
  split; [done|]. split; [done|]. split; [done|]. split; [done|]. apply Forall_lookup. intros i r Hi. pose proof (lookup_lt_Some _ _ _ Hi) as Hlt. specialize (Hr (Z.of_nat i) ltac:(lia)). rewrite Nat2Z.id, Hi in Hr. simplify_eq.
  split; [apply maximum_nonneg|]. apply maximum_le. unfold precision_ok, MinPrecision, MaxPrecision in Hp. split; [lia|]. intros x (y & -> & _)%list_elem_of_fmap. apply rank_range. done.
Qed.

Lemma register_same_set pr xs ys j : (∀ x, x ∈ xs ↔ x ∈ ys) → register pr xs j = register pr ys j.
Proof.
  intros Hset. apply Z.le_antisymm; apply maximum_le; (split; [apply maximum_nonneg|]); intros x (y & -> & [Hy Hin]%list_elem_of_filter)%list_elem_of_fmap.
  - apply (maximum_le (rank pr <$> filter (λ x, index pr x = j) ys)); [done|]. apply list_elem_of_fmap. exists y. split; [done|]. apply list_elem_of_filter. by rewrite <-Hset.
  - apply (maximum_le (rank pr <$> filter (λ x, index pr x = j) xs)); [done|]. apply list_elem_of_fmap. exists y. split; [done|]. apply list_elem_of_filter. by rewrite Hset.
Qed.

(** Two streams with the same elements give the same sketch, whatever the order and the number of times each occurs; so every estimate is the same. *)
Theorem sketch_of_set pr h xs ys : New pr = Some h → Forall hash_ok xs → (∀ x, x ∈ xs ↔ x ∈ ys) → add_all h xs = add_all h ys ∧ is_Some (add_all h xs).
Proof.
  intros HN Hxs Hset. destruct (New_sketch pr h HN) as [Hp Hs]. assert (Forall hash_ok ys) as Hys by (apply Forall_forall; intros x Hx%Hset; by eapply Forall_forall in Hxs).
  destruct (add_all_sketch pr xs [] h Hp Hxs Hs) as (h1 & -> & Hs1), (add_all_sketch pr ys [] h Hp Hys Hs) as (h2 & -> & Hs2). split; [|done]. f_equal. eapply sketch_unique; [done..|].
  intros j _. by apply register_same_set.
Qed.

(** ** Merging *)

Lemma registers_merge_loop_spec other : ∀ pre mine, length mine = length other →
  merge_loop (length pre) other (pre ++ mine) = Some (pre ++ zip_with Z.max mine other).
Proof.
  induction other as [|r other IH]; intros pre [|r' mine] Hl; try done. cbn [merge_loop]. rewrite lookup_app_r, Nat.sub_diag by lia. cbn [lookup list_lookup mbind option_bind].
  assert ((if r' <? r then <[length pre := r]> (pre ++ r' :: mine) else pre ++ r' :: mine) = (pre ++ [Z.max r' r]) ++ mine) as ->.
  { rewrite <-app_assoc. destruct (Z.ltb_spec r' r).
    - rewrite insert_app_r_alt, Nat.sub_diag by lia. cbn. do 2 f_equal. lia.
    - cbn. do 2 f_equal. lia. }
  replace (S (length pre)) with (length (pre ++ [Z.max r' r])) by (rewrite length_app; cbn; lia). rewrite IH by (cbn in Hl; lia). by rewrite <-app_assoc.
Qed.

(** Merging the sketches of two streams gives the sketch of both together, and sketches of different precision are refused. *)
Theorem merge_exact pr pr' h h' xs ys hx hy : New pr = Some h → New pr' = Some h' → Forall hash_ok xs → Forall hash_ok ys →
  add_all h xs = Some hx → add_all h' ys = Some hy →
  if decide (pr = pr') then ∃ hm, Merge hx hy = Some (Merged hm) ∧ add_all h (xs ++ ys) = Some hm else Merge hx hy = Some ErrIncompatible.
Proof.
  intros HN HN' Hxs Hys Hx Hy. destruct (New_sketch _ _ HN) as [Hp Hs], (New_sketch _ _ HN') as [Hp' Hs'].
  destruct (add_all_sketch pr xs [] h Hp Hxs Hs) as (hx' & Hx' & Sx), (add_all_sketch pr' ys [] h' Hp' Hys Hs') as (hy' & Hy' & Sy). simplify_eq. cbn [app] in *.
  unfold Merge. rewrite (sk_p _ _ _ Sx), (sk_p _ _ _ Sy). case_decide as Heq.
  - subst pr'. rewrite Z.eqb_refl. cbn [negb]. pose proof (registers_merge_loop_spec (reg hy) [] (reg hx)) as Hm. cbn [app length] in Hm. rewrite Hm by (by rewrite (sk_len _ _ _ Sx), (sk_len _ _ _ Sy)). cbn [mbind option_bind].
    destruct (add_all_sketch pr (xs ++ ys) [] h Hp) as (hm & Ha & Sm); [by apply Forall_app|done|]. eexists. split; [done|]. rewrite Ha. f_equal. symmetry. eapply (sketch_unique pr (xs ++ ys) (xs ++ ys)); [|done|done].
    split; cbn [p m reg]; [done|apply Sx|rewrite length_zip_with, (sk_len _ _ _ Sx), (sk_len _ _ _ Sy); lia|]. intros j Hj. rewrite lookup_zip_with, (sk_reg _ _ _ Sx), (sk_reg _ _ _ Sy) by done. cbn [mbind option_bind fmap option_fmap option_map].
    f_equal. unfold register. by rewrite filter_app, fmap_app, maximum_app.
  - by rewrite (proj2 (Z.eqb_neq _ _)).
Qed.

(** ** The finalizer *)

Lemma xorshift_inj k x y : 0 < k → 0 ≤ x → 0 ≤ y → Z.lxor x (Z.shiftr x k) = Z.lxor y (Z.shiftr y k) → x = y.
Proof.
  intros Hk Hx Hy Heq. set (d := Z.lxor x y). assert (Z.shiftr d k = d) as Hd.
  { apply Z.bits_inj'. intros i Hi. pose proof (f_equal (λ z, Z.testbit z i) Heq) as Hb. cbn beta in Hb. unfold d. rewrite Z.shiftr_spec, !Z.lxor_spec by done. rewrite !Z.lxor_spec, !Z.shiftr_spec in Hb by done.
    by destruct (Z.testbit x i), (Z.testbit y i), (Z.testbit x (i + k)), (Z.testbit y (i + k)). }
  assert (0 ≤ d) as Hd0 by (unfold d; by apply Z.lxor_nonneg). rewrite Z.shiftr_div_pow2 in Hd by lia. assert (2 ≤ 2 ^ k) as Hp by (apply (Z.pow_le_mono_r 2 1); lia).
  assert (d = 0) as H0. { destruct (Z.eq_dec d 0); [done|]. assert (d / 2 ^ k < d) by (apply Z.div_lt; lia). lia. }
  by apply Z.lxor_eq.
Qed.

Lemma mul_odd_inj c inv x y : u64 (c * inv) = 1 → hash_ok x → hash_ok y → u64 (x * c) = u64 (y * c) → x = y.
Proof.
  intros Hinv Hx Hy Heq. assert (∀ z, hash_ok z → u64 (u64 (z * c) * inv) = z) as Hback.
  { intros z Hz. unfold u64 in *. rewrite Zmult_mod_idemp_l, <-Z.mul_assoc, <-Zmult_mod_idemp_r, Hinv, Z.mul_1_r. by apply Z.mod_small. }
  rewrite <-(Hback x Hx), <-(Hback y Hy), Heq. done.
Qed.

Lemma u64_hash z : hash_ok (u64 z).
Proof. unfold hash_ok, u64. apply Z.mod_pos_bound. lia. Qed.

Lemma xorshift_range x k : 0 ≤ k → hash_ok x → hash_ok (Z.lxor x (Z.shiftr x k)).
Proof.
  intros Hk [H0 Hx]. assert (0 ≤ Z.shiftr x k) as Hs by (by apply Z.shiftr_nonneg). split; [by apply Z.lxor_nonneg|].
  destruct (Z.eq_dec (Z.lxor x (Z.shiftr x k)) 0) as [->|Hne]; [lia|]. assert (0 ≤ Z.lxor x (Z.shiftr x k)) by (by apply Z.lxor_nonneg). apply Z.log2_lt_pow2; [lia|].
  pose proof (Z.log2_lxor x (Z.shiftr x k) H0 Hs) as Hl. assert (Z.log2 x < 64). { destruct (Z.eq_dec x 0) as [->|]; [cbn; lia|]. apply Z.log2_lt_pow2; lia. }
  assert (Z.log2 (Z.shiftr x k) ≤ Z.log2 x). { apply Z.log2_le_mono. rewrite Z.shiftr_div_pow2 by done. apply Z.div_le_upper_bound; [lia|]. assert (1 ≤ 2 ^ k) by lia. nia. }
  lia.
Qed.

(** The finalizer of the default hash maps different 64-bit values to different ones. *)
Theorem splitmix64_injective x y : hash_ok x → hash_ok y → splitmix64 x = splitmix64 y → x = y.
Proof.
  intros Hx Hy. unfold splitmix64. intros Heq. apply xorshift_inj in Heq; [|lia|apply u64_hash..].
  apply (mul_odd_inj _ 3573116690164977347) in Heq; [|reflexivity|apply xorshift_range; [lia|apply u64_hash]..]. apply xorshift_inj in Heq; [|lia|apply u64_hash..].
  apply (mul_odd_inj _ 10871156337175269513) in Heq; [|reflexivity|apply xorshift_range; [lia|apply u64_hash]..]. apply xorshift_inj in Heq; [|lia|apply u64_hash..].
  unfold u64, hash_ok in *. Z.div_mod_to_equations. lia.
Qed.

(** ** Witnesses and limits *)

Lemma registers_exact_witness : ∃ h h', New 4 = Some h ∧ add_all h [2 ^ 60; 2 ^ 60 + 2 ^ 59; 5] = Some h' ∧ Precision h' = 4.
Proof.
  destruct (New 4) as [h|] eqn:HN; [|discriminate HN]. destruct (registers_exact 4 h [2 ^ 60; 2 ^ 60 + 2 ^ 59; 5] HN) as (h' & H1 & H2 & _).
  - repeat constructor; unfold hash_ok; lia.
  - exists h, h'. split; [reflexivity|]. split; [exact H1|exact H2].
Defined.

Lemma sketch_of_set_witness : ∃ h, New 4 = Some h ∧ add_all h [1; 2; 1] = add_all h [2; 1].
Proof.
  destruct (New 4) as [h|] eqn:HN; [|discriminate HN]. exists h. split; [reflexivity|]. apply (sketch_of_set 4 h [1; 2; 1] [2; 1] HN).
  - repeat constructor; unfold hash_ok; lia.
  - set_solver.
Defined.

Lemma merge_exact_witness : ∃ h hx hy hm, New 4 = Some h ∧ add_all h [1] = Some hx ∧ add_all h [2 ^ 63] = Some hy ∧ Merge hx hy = Some (Merged hm) ∧ add_all h [1; 2 ^ 63] = Some hm.
Proof.
  destruct (New 4) as [h|] eqn:HN; [|discriminate HN]. destruct (add_all h [1]) as [hx|] eqn:Hx; [|injection HN as <-; vm_compute in Hx; discriminate Hx].
  destruct (add_all h [2 ^ 63]) as [hy|] eqn:Hy; [|injection HN as <-; vm_compute in Hy; discriminate Hy].
  destruct (merge_exact 4 4 h h [1] [2 ^ 63] hx hy HN HN) as (hm & H1 & H2); [repeat constructor; unfold hash_ok; lia|repeat constructor; unfold hash_ok; lia|exact Hx|exact Hy|].
  exists h, hx, hy, hm. repeat (split; [first [reflexivity|exact Hx|exact Hy|exact H1]|]). exact H2.
Defined.

Lemma splitmix64_injective_witness : splitmix64 1 ≠ splitmix64 2.
Proof. intros H. apply splitmix64_injective in H; [discriminate H|unfold hash_ok; lia|unfold hash_ok; lia]. Defined.

(** Sixteen hashes fill the registers of the smallest sketch, and the correction then asks for the logarithm of a negative number, which is NaN. *)
Example saturated_estimate : ∃ h h', New 4 = Some h ∧ add_all h ((λ j, j * 2 ^ 60) <$> [0; 1; 2; 3; 4; 5; 6; 7; 8; 9; 10; 11; 12; 13; 14; 15]) = Some h' ∧ zeros h' = 0 ∧
  f64_gt (raw_estimate h') (dec (2 ^ 32) 30) = true ∧ f64_lt (f64_sub f1 (f64_div (raw_estimate h') (f64_of_Z (2 ^ 64)))) f0 = true.
Proof. eexists _, _. split; [vm_compute; reflexivity|]. split; [vm_compute; reflexivity|]. split; [reflexivity|]. split; vm_compute; reflexivity. Qed.

(** An empty sketch estimates 0 when the logarithm of 1 is 0. *)
Example empty_estimate : ∃ h, New 4 = Some h ∧ Estimate (λ x, if f64_eq x f1 then f0 else S754_nan) h = f0.
Proof. eexists. split; [vm_compute; reflexivity|]. vm_compute. reflexivity. Qed.
