(* ===== verification/Stats.v ===== *)
(** * Stats: descriptive statistics ([stats/stats.go])

    On binary64 (FloatOrder.v).  [slices.Sort] is any sorted permutation, a range over a map any order of its entries; a map keyed by floats compares keys with [==], so that every NaN is a key of its own.

    Shown, for values that are not NaN: [Min] and [Max] are a least and a greatest value and [Percentile] never indexes out of range, is one of the values at the ends and nowhere less than the value below it
    ([extremes_exact], [percentile_safe]); [Median] lies between the two middle values ([median_between]); [Mode] is a most frequent value and the smallest of those, in whatever order
    the map is iterated ([mode_exact]).  For all values [Variance] is never negative, so that [StdDev] never takes the root of a negative number ([variance_not_negative]).
    [percentile_nan_panics], [mode_nan_order], [median_overflows] show what NaN and large values do. *)

From Stdlib Require Import ZArith Lia Bool SpecFloat.
From stdpp Require Import base tactics numbers list sets sorting.
From S2P Require Import Prelude Float64 FloatOrder RingBuffers SlidingWindow.

#[local] Open Scope Z_scope.

Definition f2 : float64 := f64_of_Z 2.
Definition f100 : float64 := f64_of_Z 100.
Definition f64_len {A} (s : list A) : float64 := f64_of_Z (Z.of_nat (length s)).
Definition f64_sqrt (x : float64) : float64 := SFsqrt 53 1024 x.
(** [int(math.Floor(x))] and [int(math.Ceil(x))], for the non-negative numbers they are given. *)
Definition floor_int (x : float64) : Z := match f64_round RTrunc x with Some z => if in_i64b z then z else min_i64 | None => min_i64 end.
Definition ceil_int (x : float64) : Z := match f64_round RAway x with Some z => if in_i64b z then z else min_i64 | None => min_i64 end.

Definition Sum (s : list float64) : float64 := fold_left f64_add s f0.

Definition Mean (s : list float64) : float64 := match s with [] => f64_nan | _ => f64_div (Sum s) (f64_len s) end.

(** A sorted copy: NaN first, then by [<=]. *)
Definition cmp_le (x y : float64) : Prop := f64_is_nan x = true ∨ f64_le x y = true.
Definition sorted_copy (s sorted : list float64) : Prop := sorted ≡ₚ s ∧ StronglySorted cmp_le sorted.

(** [sorted[i]]; [None]: out of range. *)
Definition at_ (l : list float64) (i : Z) : option float64 := if i <? 0 then None else l !! Z.to_nat i.

(** The methods that sort take the sorted copy. *)
Definition Median (sorted : list float64) : option float64 :=
  let n := Z.of_nat (length sorted) in
  if n =? 0 then Some f64_nan
  else
    let mid := n / 2 in
    if n mod 2 =? 0 then a ← at_ sorted (mid - 1); b ← at_ sorted mid; Some (f64_div (f64_add a b) f2)
    else at_ sorted mid.

(** The map of [Mode], as the list of its entries. *)
Fixpoint freq_add (v : float64) (l : list (float64 * Z)) : list (float64 * Z) :=
  match l with
  | [] => [(v, 1)]
  | (u, c) :: l => if f64_eq u v then (u, c + 1) :: l else (u, c) :: freq_add v l
  end.
Definition freq (s : list float64) : list (float64 * Z) := fold_left (λ l v, freq_add v l) s [].

Definition mode_step (best : float64 * Z) (e : float64 * Z) : float64 * Z :=
  let '(v, c) := e in
  if (best.2 <? c) || ((c =? best.2) && f64_lt v best.1) then (v, c) else best.
(** [order]: the entries of the map in the order of the range. *)
Definition Mode (s : list float64) (order : list (float64 * Z)) : float64 :=
  match s with [] => f64_nan | v :: _ => (fold_left mode_step order (v, 0)).1 end.

Definition Variance (s : list float64) : float64 :=
  match s with
  | [] => f64_nan
  | _ =>
      let m := Mean s in
      let sumSq := fold_left (λ acc v, let d := f64_sub v m in f64_add acc (f64_mul d d)) s f0 in
      f64_div sumSq (f64_len s)
  end.

Definition StdDev (s : list float64) : float64 := let v := Variance s in if f64_is_nan v then v else f64_sqrt v.

(** The rank of the percentile [p] among [n + 1] values. *)
Definition rank_of (p : float64) (n : Z) : float64 := f64_mul (f64_div p f100) (f64_of_Z n).
Definition Percentile (sorted : list float64) (p : float64) : option float64 :=
  if (length sorted =? 0)%nat || f64_lt p f0 || f64_gt p f100 then Some f64_nan
  else if (length sorted =? 1)%nat then sorted !! 0%nat
  else
    let rank := rank_of p (Z.of_nat (length sorted) - 1) in
    let lo := floor_int rank in
    let hi := ceil_int rank in
    if lo =? hi then at_ sorted lo
    else
      let frac := f64_sub rank (f64_of_Z lo) in
      a ← at_ sorted lo; b ← at_ sorted hi; Some (f64_add a (f64_mul frac (f64_sub b a))).

Definition Min (s : list float64) : float64 := match s with [] => f64_nan | m :: s => fold_left (λ m v, if f64_lt v m then v else m) s m end.
Definition Max (s : list float64) : float64 := match s with [] => f64_nan | m :: s => fold_left (λ m v, if f64_gt v m then v else m) s m end.
Definition Range (s : list float64) : float64 := match s with [] => f64_nan | _ => f64_sub (Max s) (Min s) end.

(** ** Extremes *)

#[local] Opaque U Big f0 f1.

(** Of values that are not NaN, [Min] is one and at most every other, and [Max] is one and at least every other; of none they are NaN. *)
Theorem extremes_exact s : Forall num s → if decide (s = []) then Min s = f64_nan ∧ Max s = f64_nan ∧ Range s = f64_nan
  else Window.is_min s (Min s) ∧ Window.is_max s (Max s).
Proof.
  intros Hs. destruct s as [|x s]; [done|]. rewrite decide_False by done. apply Forall_cons in Hs as Hs'. destruct Hs' as [Hx _].
  apply (Window.fold_extremes s [x] x x); [done|..]; (split; [set_solver|]); intros y ->%list_elem_of_singleton; by apply Window.le_refl.
Qed.

(** ** Variance *)

(** NaN, or a non-negative number. *)
Definition nan_or_nonneg (x : float64) : Prop := x = S754_nan ∨ nonneg x.

Lemma nan_or_inf_cases x : nan_or_nonneg x → x = S754_nan ∨ x = S754_infinity false ∨ valid x ∧ finite x ∧ 0 ≤ V x.
Proof. intros [->|Hx]; [by left|]. destruct (nonneg_cases x Hx) as [?| ->]; auto. Qed.

Lemma add_nn x y : nan_or_nonneg x → nan_or_nonneg y → nan_or_nonneg (f64_add x y).
Proof. intros [->|Hx] [->|Hy]; [by left|left; by destruct y|left; by destruct x|]. right. by apply add_nonneg. Qed.

Lemma square_nn d : valid d → nan_or_nonneg (f64_mul d d).
Proof.
  intros Hd. destruct (decide (finite d)) as [Hf|Hf].
  - right. eapply ratio_nonneg; [apply U_pos| |by apply mul_rounds]. nia.
  - destruct d as [|s| |]; try done; [right|by left]. destruct s; apply inf_nonneg.
Qed.

Lemma div_nn x n : nan_or_nonneg x → 0 < n ≤ 2 ^ 53 → nan_or_nonneg (f64_div x (f64_of_Z n)).
Proof.
  intros Hx Hn. destruct (of_Z_int n) as (Vn & Fn & HVn); [unfold exact_int; lia|]. pose proof U_pos. destruct (nan_or_inf_cases x Hx) as [->|[->|(Vx & Fx & Px)]].
  - left. by destruct (f64_of_Z n).
  - right. assert (0 < V (f64_of_Z n)) as Hpos by (rewrite HVn; nia). destruct (f64_of_Z n) as [s|s| |s mm e]; [exfalso; cbn [V] in Hpos; lia|done|done|].
    destruct s; [|apply inf_nonneg]. exfalso. apply valid_spec in Vn as (He & _). pose proof (pow_pos_lt e ltac:(lia)). cbn [V cond_Zopp] in Hpos. nia.
  - right. apply div_nonneg; [done..| |]; [split; [by apply num_finite|]|]; rewrite E_finite, HVn by done; nia.
Qed.

Lemma sub_valid x y : valid x → valid y → valid (f64_sub x y).
Proof.
  intros Hx Hy. destruct (decide (finite x)) as [Fx|Fx], (decide (finite y)) as [Fy|Fy]; [by apply sub_rounds|..];
    destruct x as [|[]| |], y as [|[]| |]; done.
Qed.

Lemma add_valid x y : valid x → valid y → valid (f64_add x y).
Proof.
  intros Hx Hy. destruct (decide (finite x)) as [Fx|Fx], (decide (finite y)) as [Fy|Fy]; [by apply add_rounds|..];
    destruct x as [|[]| |], y as [|[]| |]; done.
Qed.
Lemma Sum_valid s : Forall valid s → ∀ a, valid a → valid (fold_left f64_add s a).
Proof. induction 1 as [|v s Hv _ IH]; intros a Ha; [done|]. cbn [fold_left]. apply IH. by apply add_valid. Qed.
Lemma Mean_valid s : Forall valid s → Z.of_nat (length s) ≤ 2 ^ 53 → valid (Mean s).
Proof.
  intros Hs Hlen. unfold Mean. destruct s as [|x s]; [done|]. assert (valid (Sum (x :: s))) as Hv by (apply Sum_valid; [done|apply f0_V]).
  unfold f64_len. destruct (of_Z_int (Z.of_nat (length (x :: s)))) as (Vn & Fn & HVn); [unfold exact_int; cbn [length] in *; lia|]. pose proof U_pos.
  set (n := f64_of_Z _) in *. clearbody n. destruct (decide (finite (Sum (x :: s)))) as [Hf|Hf].
  - apply div_rounds; [done..|]. rewrite HVn. cbn [length]. nia.
  - destruct (Sum (x :: s)) as [|sg| |]; [done| |by destruct n|done]. destruct n; done.
Qed.

(** For values of any kind, NaN and infinities included, the variance is NaN or not negative, and then so is its root: [StdDev] is NaN only when [Variance] is. *)
Theorem variance_not_negative s : Forall valid s → Z.of_nat (length s) ≤ 2 ^ 53 → nan_or_nonneg (Variance s) ∧ f64_lt (Variance s) f0 = false.
Proof.
  intros Hs Hlen. pose proof (Mean_valid s Hs Hlen) as Hm. assert (nan_or_nonneg (Variance s)) as Hv.
  { unfold Variance. destruct s as [|x s'] eqn:Heq; [by left|]. apply div_nn; [|cbn [length] in *; lia]. rewrite <-Heq in *. set (m := Mean s) in *. clearbody m. clear Heq Hlen x s'. rename s into l, Hs into Hl.
    assert (nan_or_nonneg f0) as H0 by (right; split; [apply f0_num|rewrite f0_E; lia]). revert H0. generalize f0. induction Hl as [|v l Hv _ IH]; intros acc Hacc; [done|]. cbn [fold_left].
    apply IH, add_nn; [done|]. apply square_nn. by apply sub_valid. }
  split; [done|]. destruct Hv as [->|[Hn H0]]; [done|]. apply not_true_iff_false. rewrite lt_E by (done || apply f0_num). rewrite f0_E. lia.
Qed.

Lemma variance_not_negative_witness : nan_or_nonneg (Variance [f1; f0; f1]) ∧ f64_lt (Variance [f1; f0; f1]) f0 = false.
Proof. apply (variance_not_negative [f1; f0; f1]); [|vm_compute; done]. repeat constructor; apply f1_V || apply f0_V. Defined.

Lemma extremes_exact_witness : if decide ([f1; f0] = []) then Min [f1; f0] = f64_nan ∧ Max [f1; f0] = f64_nan ∧ Range [f1; f0] = f64_nan
  else Window.is_min [f1; f0] (Min [f1; f0]) ∧ Window.is_max [f1; f0] (Max [f1; f0]).
Proof. apply (extremes_exact [f1; f0]). repeat constructor; apply f1_num || apply f0_num. Defined.

(** ** Median *)

(** Twice a float is a float, unless it is too large. *)
Lemma double_float w : valid w → finite w → - (2 ^ 1022 * U) ≤ V w ≤ 2 ^ 1022 * U → ∃ w', valid w' ∧ finite w' ∧ V w' = 2 * V w.
Proof.
  intros Hv Hf Hb. destruct w as [s| | |s m e]; try done; [exists (S754_zero s); done|].
  apply valid_spec in Hv as (He & Hm & Hn). cbn [V] in *. destruct (decide (2 ^ 52 ≤ Z.pos m)) as [Hfull|Hsub].
  - assert (e ≤ 970) as He'.
    { destruct (decide (e ≤ 970)) as [|Hgt]; [done|exfalso]. assert (2 ^ 1023 * U ≤ Z.pos m * 2 ^ (e + Sc)) as Hbig.
      { transitivity (2 ^ 52 * 2 ^ (e + Sc)); [|apply Z.mul_le_mono_nonneg_r; [apply Z.pow_nonneg; lia|lia]].
        rewrite <-U_eq, <-!Z.pow_add_r by (unfold Sc; lia). apply Z.pow_le_mono_r; lia. }
      pose proof U_pos. change (2 ^ 1023) with (2 * 2 ^ 1022) in Hbig. assert (0 < 2 ^ 1022) by lia. destruct s; cbn [cond_Zopp] in Hb; nia. }
    exists (S754_finite s m (e + 1)). split; [apply valid_spec; lia|]. split; [done|]. cbn [V]. replace (e + 1 + Sc) with (Z.succ (e + Sc)) by lia.
    rewrite Z.pow_succ_r by (unfold Sc; lia). destruct s; cbn [cond_Zopp]; lia.
  - destruct Hn as [->|]; [|lia]. exists (S754_finite s (m~0) (-1074)). split; [apply valid_spec; change (2 ^ 53) with (2 * 2 ^ 52); lia|].
    split; [done|]. cbn [V]. rewrite Pos2Z.inj_xO. destruct s; cbn [cond_Zopp]; lia.
Qed.

Definition moderate (x : float64) : Prop := valid x ∧ finite x ∧ - (2 ^ 1022 * U) ≤ V x ≤ 2 ^ 1022 * U.

Lemma f2_V : valid f2 ∧ finite f2 ∧ V f2 = 2 * U.
Proof. apply (of_Z_int 2). unfold exact_int. lia. Qed.

Lemma half_between a b : moderate a → moderate b → V a ≤ V b →
  let m := f64_div (f64_add a b) f2 in num m ∧ V a ≤ E m ≤ V b.
Proof.
  intros (Va & Fa & Ba) (Vb & Fb & Bb) Hab m. pose proof U_pos. destruct f2_V as (V2 & F2 & E2).
  destruct (double_float a Va Fa Ba) as (a' & Va' & Fa' & Ea'), (double_float b Vb Fb Bb) as (b' & Vb' & Fb' & Eb').
  destruct (rounds_E _ _ (add_rounds a b Va Vb Fa Fb)) as (Hs & Hge & Hle). specialize (Hge a' Va' Fa' ltac:(lia)). specialize (Hle b' Vb' Fb' ltac:(lia)).
  assert (finite (f64_add a b)) as Hf. { apply finite_E; [done|]. pose proof (V_bound a' Va' Fa'). pose proof (V_bound b' Vb' Fb'). lia. }
  rewrite E_finite in Hge, Hle by done. assert (0 < V f2) as Hpos by lia. destruct Hs as [Hsv _].
  destruct (ratio_E _ _ _ Hpos (div_rounds _ _ Hsv V2 Hf F2 Hpos)) as (Hm & Hge' & Hle'). fold m in Hm, Hge', Hle'. split; [done|]. rewrite U_eq, E2 in Hge', Hle'.
  split; [apply Hge'|apply Hle']; try done; nia.
Qed.

Lemma moderate_num x : moderate x → num x.
Proof. intros (? & ? & _). by apply num_finite. Qed.

Lemma sorted_lookup s sorted i j a b : sorted_copy s sorted → Forall num s → (i ≤ j)%nat → sorted !! i = Some a → sorted !! j = Some b → f64_le a b = true.
Proof.
  intros [Hp Hsort] Hs Hij Ha Hb. rewrite <-Hp in Hs. clear Hp. revert i j Hij Ha Hb. induction Hsort as [|x l Hsort IH Hx]; intros i j Hij Ha Hb; [done|].
  apply Forall_cons in Hs as [Hnx Hs]. destruct i as [|i]; cbn in Ha.
  - injection Ha as ->. destruct j as [|j]; cbn in Hb; [injection Hb as ->; by apply Window.le_refl|].
    rewrite Forall_forall in Hx. destruct (Hx b ltac:(by eapply list_elem_of_lookup_2)) as [Hnan|]; [|done]. destruct Hnx as [_ Hnx]. congruence.
  - destruct j as [|j]; [lia|]. apply (IH Hs i j); [lia|done..].
Qed.

Lemma at_nat l (i : nat) : at_ l (Z.of_nat i) = l !! i.
Proof. unfold at_. destruct (Z.ltb_spec (Z.of_nat i) 0); [lia|]. by rewrite Nat2Z.id. Qed.

(** Of finite values of magnitude at most [2^1022] the median is between the two middle values of the sorted copy (which are the same one when their number is odd), in spite of rounding. *)
Theorem median_between s sorted : sorted_copy s sorted → Forall moderate s → s ≠ [] →
  ∃ a b m, sorted !! ((length s - 1) / 2)%nat = Some a ∧ sorted !! (length s / 2)%nat = Some b ∧ Median sorted = Some m ∧
    f64_le a m = true ∧ f64_le m b = true.
Proof.
  intros Hc Hs Hne. assert (length sorted = length s) as Hlen by (by apply Permutation_length, Hc). assert (Forall moderate sorted) as Hs' by (by rewrite (proj1 Hc)).
  assert (Forall num s) as Hnum by (eapply Forall_impl; [exact Hs|]; apply moderate_num).
  assert (0 < length s)%nat as H0 by (destruct s; [done|cbn; lia]). unfold Median. rewrite Hlen. rewrite (proj2 (Z.eqb_neq _ _)) by lia.
  pose proof (Nat.div_mod (length s) 2 ltac:(lia)) as Hdm. pose proof (Nat.mod_upper_bound (length s) 2 ltac:(lia)).
  destruct (lookup_lt_is_Some_2 sorted (length s / 2)) as [b Hb]; [lia|].
  replace (Z.of_nat (length s) / 2) with (Z.of_nat (length s / 2)) by (rewrite Nat2Z.inj_div; done).
  replace (Z.of_nat (length s) mod 2) with (Z.of_nat (length s mod 2)) by (rewrite Nat2Z.inj_mod; done).
  destruct (Z.eqb_spec (Z.of_nat (length s mod 2)) 0) as [Hev|Hodd].
  - destruct (lookup_lt_is_Some_2 sorted (length s / 2 - 1)) as [a Ha]; [lia|]. replace ((length s - 1) / 2)%nat with (length s / 2 - 1)%nat by (apply (Nat.div_unique _ _ _ 1); lia).
    replace (Z.of_nat (length s / 2) - 1) with (Z.of_nat (length s / 2 - 1)) by lia. rewrite !at_nat, Ha, Hb. cbn [mbind option_bind].
    pose proof (Forall_lookup_1 _ _ _ _ Hs' Ha) as Ma. pose proof (Forall_lookup_1 _ _ _ _ Hs' Hb) as Mb.
    assert (f64_le a b = true) as Hab by (eapply (sorted_lookup s sorted (length s / 2 - 1) (length s / 2)); [done..|lia|done|done]).
    destruct Ma as (Va & Fa & Ba), Mb as (Vb & Fb & Bb). apply le_V in Hab; [|done..]. destruct (half_between a b) as [Hm Hbt]; [done..|].
    eexists _, _, _. do 3 (split; [done|]). rewrite !le_E by (done || by apply num_finite). rewrite !(E_finite a), !(E_finite b) by done. done.
  - replace ((length s - 1) / 2)%nat with (length s / 2)%nat by (apply (Nat.div_unique _ _ _ 0); lia). rewrite at_nat.
    exists b, b, b. pose proof (Window.le_refl b (moderate_num b (Forall_lookup_1 _ _ _ _ Hs' Hb))). done.
Qed.

Lemma moderate_int z : exact_int z → moderate (f64_of_Z z).
Proof.
  intros Hz. destruct (of_Z_int z Hz) as (Hv & Hf & HV). split; [done|]. split; [done|]. rewrite HV. unfold exact_int in Hz. pose proof U_pos.
  assert (2 ^ 53 ≤ 2 ^ 1022) by (apply Z.pow_le_mono_r; lia). nia.
Qed.

Lemma median_between_witness : ∃ a b m, [f64_of_Z 1; f64_of_Z 4] !! 0%nat = Some a ∧ [f64_of_Z 1; f64_of_Z 4] !! 1%nat = Some b ∧ Median [f64_of_Z 1; f64_of_Z 4] = Some m ∧
  f64_le a m = true ∧ f64_le m b = true.
Proof.
  apply (median_between [f64_of_Z 4; f64_of_Z 1] [f64_of_Z 1; f64_of_Z 4]); [|repeat constructor; apply moderate_int; unfold exact_int; lia|done].
  split; [constructor|]. constructor; [repeat constructor|]. constructor; [right; vm_compute; done|constructor].
Defined.

(** The sum of two large middle values is infinite. *)
Example median_overflows : ∃ x, valid x ∧ finite x ∧ Median [x; x] = Some (S754_infinity false).
Proof. exists (S754_finite false (Z.to_pos (2 ^ 52)) 971). split; [done|]. split; [done|]. vm_compute. done. Qed.

(** ** Percentile *)

(** Rounding up a non-negative float. *)
Lemma away_spec x : valid x → finite x → 0 ≤ V x → ∃ z, f64_round RAway x = Some z ∧ 0 ≤ z ∧ (z - 1) * U < V x ≤ z * U.
Proof.
  intros Hv Hf Hp. pose proof U_pos as HU. destruct x as [| | |s m e]; try done; [exists 0; cbn [V f64_round]; split; [done|]; lia|].
  cbn [f64_round]. apply valid_spec in Hv as (He & Hm & _). cbn [V] in *. pose proof (pow_pos_lt e ltac:(lia)) as HP.
  destruct s; cbn [cond_Zopp] in *; [exfalso; nia|]. eexists. split; [done|]. destruct (Z.leb_spec 0 e) as [H0|H0].
  - rewrite Z.pow_add_r, U_eq, Z.mul_assoc by (unfold Sc; lia). assert (0 < 2 ^ e) by lia. nia.
  - cbn [round_mag]. assert (0 < 2 ^ (- e)) as Hd by lia. assert (2 ^ (- e) * 2 ^ (e + Sc) = U) as HUe.
    { rewrite <-U_eq, <-Z.pow_add_r by (unfold Sc; lia). f_equal. lia. }
    pose proof (Z.div_mod (Z.pos m) (2 ^ (- e)) ltac:(lia)) as Hdm. pose proof (Z.mod_pos_bound (Z.pos m) (2 ^ (- e)) Hd).
    pose proof (Z.div_pos (Z.pos m) (2 ^ (- e)) ltac:(lia) Hd) as Hq. set (q := Z.pos m / 2 ^ (- e)) in *. set (P := 2 ^ (e + Sc)) in *.
    set (D := 2 ^ (- e)) in *. set (r := Z.pos m mod D) in *. rewrite <-HUe. destruct (Z.eqb_spec r 0); split; nia.
Qed.

Lemma floor_ceil x n : valid x → finite x → 0 ≤ V x ≤ n * U → n ≤ 2 ^ 53 →
  0 ≤ floor_int x ∧ floor_int x * U ≤ V x < (floor_int x + 1) * U ∧ ceil_int x ≤ n ∧ floor_int x ≤ ceil_int x ≤ floor_int x + 1 ∧ (V x = floor_int x * U → ceil_int x = floor_int x).
Proof.
  intros Hv Hf [Hp Hle] Hn. pose proof U_pos as HU. destruct (trunc_spec x Hv Hf Hp) as (lo & Hlo & Hlo0 & Hlob). destruct (away_spec x Hv Hf Hp) as (hi & Hhi & Hhi0 & Hhib).
  unfold floor_int, ceil_int. rewrite Hlo, Hhi. assert (lo ≤ n ∧ hi ≤ n ∧ lo ≤ hi ≤ lo + 1) as (Hlon & Hhin & Hlh) by nia.
  assert (in_i64b lo = true ∧ in_i64b hi = true) as [-> ->] by (rewrite !in_i64b_spec; revert Hlo0 Hhi0 Hlon Hhin Hn; mint). do 4 (split; [lia|]). nia.
Qed.

Lemma f100_V : valid f100 ∧ finite f100 ∧ V f100 = 100 * U.
Proof. apply (of_Z_int 100). unfold exact_int. lia. Qed.

(** The rank is between the first and the last index; it is those at the ends. *)
Lemma rank_bounds p n : valid p → finite p → 0 ≤ V p ≤ 100 * U → 0 ≤ n ≤ 2 ^ 53 →
  let r := rank_of p n in valid r ∧ finite r ∧ 0 ≤ V r ≤ n * U ∧ (V p = 0 → V r = 0) ∧ (V p = 100 * U → V r = n * U).
Proof.
  intros Vp Fp Hp Hn r. unfold rank_of in r. pose proof U_pos as HU. destruct f100_V as (V1 & F1 & E1). destruct (of_Z_int n) as (Vn & Fn & En); [unfold exact_int; lia|].
  assert (0 < V f100) as Hpos by lia. pose proof (div_rounds p f100 Vp V1 Fp F1 Hpos) as Hd. rewrite U_eq in Hd.
  assert (0 ≤ V p * U ≤ 2 ^ 0 * U * V f100) as HA by (rewrite E1; change (2 ^ 0) with 1; clear - HU Hp; nia).
  destruct (ratio_within _ _ 0 _ Hpos ltac:(lia) HA Hd) as (Vq & Fq & Hq).
  destruct (ratio_E _ _ _ Hpos Hd) as (_ & Hdge & Hdle). set (q := f64_div p f100) in *. clearbody q. rewrite (E_finite q Fq) in Hdge, Hdle.
  change (2 ^ 0 * U) with (1 * U) in Hq. rewrite Z.mul_1_l in Hq.
  pose proof (mul_rounds q (f64_of_Z n) Vq Vn Fq Fn) as Hm. rewrite U_eq, En in Hm. assert (0 ≤ V q * (n * U) ≤ n * U * U) as HB by (clear - HU Hq Hn; nia).
  destruct (ratio_nonneg _ _ _ HU (proj1 HB) Hm) as [Hr H0]. destruct (ratio_E _ _ _ HU Hm) as (_ & Hge & Hle). fold r in Hr, H0, Hge, Hle.
  assert (E r ≤ n * U) as Hub by (rewrite <-En; apply Hle; [done..|]; rewrite En; apply HB).
  assert (finite r) as Fr by (apply finite_E; [done|]; pose proof (V_bound _ Vn Fn); pose proof Big_pos; lia).
  rewrite (E_finite r Fr) in *. split; [by destruct Hr|]. split; [done|]. split; [split; [exact H0|exact Hub]|]. split.
  - intros HV0. destruct f0_V as (V0 & F0 & E0). assert (V q ≤ V f0) as Hq0 by (apply Hdle; [done..|]; rewrite E0, E1, HV0; lia).
    assert (V r ≤ V f0) as Hr0; [|lia]. apply Hle; [done..|]. rewrite E0 in *. clear - HU Hn Hq Hq0. nia.
  - intros HV1. destruct f1_V as (Vf1 & Ff1 & Ef1). assert (V f1 ≤ V q) as Hq1 by (apply Hdge; [done..|]; rewrite Ef1, E1, HV1; lia).
    assert (V (f64_of_Z n) ≤ V r) as Hr1; [|lia]. apply Hge; [done..|]. rewrite En, Ef1 in *. clear - HU Hn Hq Hq1. nia.
Qed.

(** Interpolation does not go below the lower value. *)
Lemma interpolate_ge a b frac : moderate a → moderate b → V a ≤ V b → unit_float frac →
  f64_le a (f64_add a (f64_mul frac (f64_sub b a))) = true.
Proof.
  intros (Va & Fa & Ba) (Vb & Fb & Bb) Hab (Vf & Ff & Hf). pose proof U_pos as HU.
  assert (within 1023 (f64_sub b a)) as (Vd & Fd & Hd).
  { eapply rounds_within; [lia| |by apply sub_rounds]. change (2 ^ 1023) with (2 * 2 ^ 1022). split; [lia|]. rewrite <-Z.mul_assoc. lia. }
  assert (within 1023 (f64_mul frac (f64_sub b a))) as (Vm & Fm & Hm).
  { eapply ratio_within; [exact HU|lia| |by apply mul_rounds]. set (X := V (f64_sub b a)) in *. set (K := 2 ^ 1023) in *. set (F := V frac) in *. clearbody X K F. clear - HU Hf Hd.
    split; [nia|]. rewrite (Z.mul_comm F). apply Z.mul_le_mono_nonneg; lia. }
  destruct (rounds_E _ _ (add_rounds a _ Va Vm Fa Fm)) as (Hn & Hge & _). apply le_E; [by apply num_finite|done|]. rewrite E_finite by done. apply Hge; [done..|]. lia.
Qed.

(** For [p] in [0, 100] and finite values of magnitude at most [2^1022], no index is out of range; the percentile is at least the value at the index below its rank, it is the least value for 0 and the greatest for 100. *)
Theorem percentile_safe s sorted p : sorted_copy s sorted → Forall moderate s → s ≠ [] → Z.of_nat (length s) ≤ 2 ^ 53 →
  valid p → f64_le f0 p = true → f64_le p f100 = true →
  let lo := floor_int (rank_of p (Z.of_nat (length s) - 1)) in
  ∃ a r, at_ sorted lo = Some a ∧ Percentile sorted p = Some r ∧ f64_le a r = true ∧
    (f64_eq p f0 = true → Some r = sorted !! 0%nat) ∧ (f64_eq p f100 = true → Some r = sorted !! (length s - 1)%nat).
Proof.
  intros Hc Hs Hne Hlen Hp Hp0 Hp1 lo. assert (length sorted = length s) as Hl by (by apply Permutation_length, Hc). assert (Forall moderate sorted) as Hs' by (by rewrite (proj1 Hc)).
  assert (Forall num s) as Hnum by (eapply Forall_impl; [exact Hs|]; apply moderate_num). pose proof U_pos as HU.
  destruct f0_V as (V0 & F0 & E0), f100_V as (V1 & F1 & E1). assert (finite p) as Fp by exact (between_finite _ _ _ F0 F1 Hp0 Hp1).
  apply le_V in Hp0, Hp1; try done. rewrite E0 in Hp0. rewrite E1 in Hp1. assert (0 < length s)%nat as Hpos by (destruct s; [done|cbn; lia]).
  set (n := Z.of_nat (length s) - 1) in *. destruct (rank_bounds p n Hp Fp) as (Vr & Fr & Hr & Hr0 & Hr1); [lia|lia|]. fold (rank_of p n) in *.
  destruct (floor_ceil (rank_of p n) n Vr Fr Hr ltac:(lia)) as (Hlo0 & Hlo & Hhi & Hlh & Hint). fold lo in Hlo0, Hlo, Hlh, Hint. set (hi := ceil_int (rank_of p n)) in *.
  assert (f64_lt p f0 = false ∧ f64_gt p f100 = false) as [Hc1 Hc2].
  { split; apply not_true_iff_false; unfold f64_gt; rewrite lt_V by done; lia. }
  destruct (lookup_lt_is_Some_2 sorted (Z.to_nat lo)) as [a Ha]; [lia|]. destruct (lookup_lt_is_Some_2 sorted (Z.to_nat hi)) as [b Hb]; [lia|].
  pose proof (Forall_lookup_1 _ _ _ _ Hs' Ha) as Ma. pose proof (Forall_lookup_1 _ _ _ _ Hs' Hb) as Mb.
  assert (at_ sorted lo = Some a ∧ at_ sorted hi = Some b) as [Hata Hatb] by (unfold at_; destruct (Z.ltb_spec lo 0), (Z.ltb_spec hi 0); split; (done || lia)).
  assert ((V p = 0 → lo = 0 ∧ hi = 0) ∧ (V p = 100 * U → lo = n ∧ hi = n)) as [Hend0 Hend1].
  { clear - Hr0 Hr1 Hlo Hint HU. split; intros HV; [specialize (Hr0 HV); assert (lo = 0) as Hz by nia|specialize (Hr1 HV); assert (lo = n) as Hz by nia].
    all: (split; [exact Hz|]); rewrite Hint by (rewrite Hz; lia); exact Hz. }
  exists a. unfold Percentile. rewrite Hl, Hc1, Hc2, (proj2 (Nat.eqb_neq (length s) 0)) by lia. fold n. cbn [orb].
  pose proof (Window.le_refl a (moderate_num a Ma)) as Haa. assert (f64_eq p f0 = true → V p = 0) as Hq0 by (intros HV%eq_V; [lia|done..]).
  assert (f64_eq p f100 = true → V p = 100 * U) as Hq1 by (intros HV%eq_V; [lia|done..]).
  destruct (Nat.eqb_spec (length s) 1) as [Hone|Hmany].
  { exists a. assert (lo = 0) as Hz by lia. rewrite Hz in Ha. rewrite Hone. done. }
  fold lo hi. destruct (Z.eqb_spec lo hi) as [Heq|Hdiff].
  { exists a. split; [done|]. split; [done|]. split; [done|]. rewrite <-Ha. split; intros HV; [destruct (Hend0 (Hq0 HV)) as [-> _]|destruct (Hend1 (Hq1 HV)) as [-> _]]; f_equal; lia. }
  rewrite Hata, Hatb. cbn [mbind option_bind]. eexists. split; [done|]. split; [done|]. split.
  - assert (f64_le a b = true) as Hab by (apply (sorted_lookup s sorted (Z.to_nat lo) (Z.to_nat hi)); [done..|lia|done|done]).
    apply le_V in Hab; [|apply Ma || apply Mb..]. apply interpolate_ge; [done..|]. destruct (of_Z_int lo) as (Vl & Fl & El); [unfold exact_int; lia|].
    apply within_0. eapply (rounds_within _ 0); [lia| |by apply sub_rounds]. rewrite El. change (2 ^ 0) with 1. lia.
  - split; intros HV; exfalso; [destruct (Hend0 (Hq0 HV))|destruct (Hend1 (Hq1 HV))]; lia.
Qed.

Lemma percentile_safe_witness : let s := [f64_of_Z 4; f64_of_Z 1] in let sorted := [f64_of_Z 1; f64_of_Z 4] in
  ∃ a r, at_ sorted (floor_int (rank_of (f64_of_Z 50) (Z.of_nat (length s) - 1))) = Some a ∧ Percentile sorted (f64_of_Z 50) = Some r ∧ f64_le a r = true ∧
    (f64_eq (f64_of_Z 50) f0 = true → Some r = sorted !! 0%nat) ∧ (f64_eq (f64_of_Z 50) f100 = true → Some r = sorted !! (length s - 1)%nat).
Proof.
  intros s sorted. apply (percentile_safe s sorted (f64_of_Z 50)); subst s sorted; [|repeat constructor; apply moderate_int; unfold exact_int; lia|done|vm_compute; done..].
  split; [constructor|]. constructor; [repeat constructor|]. constructor; [right; vm_compute; done|constructor].
Defined.

(** NaN is neither below 0 nor above 100: its conversion to an index is out of range. *)
Example percentile_nan_panics : Percentile [f64_of_Z 1; f64_of_Z 4] f64_nan = None.
Proof. vm_compute. done. Qed.

(** ** Mode *)

(** How often a value occurs. *)
Definition count (u : float64) (s : list float64) : Z := Z.of_nat (length (List.filter (f64_eq u) s)).

Definition keys (l : list (float64 * Z)) : list Z := (λ e, E e.1) <$> l.

Lemma count_snoc u s v : count u (s ++ [v]) = count u s + if f64_eq u v then 1 else 0.
Proof. unfold count. rewrite List.filter_app, length_app. cbn [List.filter]. destruct (f64_eq u v); cbn [length]; lia. Qed.

Lemma count_zero u s : (∀ w, w ∈ s → f64_eq u w = false) → count u s = 0.
Proof.
  intros H. unfold count. induction s as [|w s IH]; [done|]. cbn [List.filter]. rewrite (H w) by constructor. apply IH. intros w' Hw'. apply H. by right.
Qed.

Lemma freq_add_keys v l : num v → Forall (λ e, num e.1) l → keys (freq_add v l) = if decide (E v ∈ keys l) then keys l else keys l ++ [E v].
Proof.
  intros Hv. induction 1 as [|[u c] l Hu _ IH]; [done|]. cbn [freq_add]. cbn [fst] in Hu. unfold keys in *. cbn [fmap list_fmap fst].
  destruct (f64_eq u v) eqn:He; [apply eq_E in He; [|done..]; rewrite decide_True by (rewrite He; constructor); cbn [fst]; done|].
  cbn [fst fmap list_fmap]. rewrite IH. assert (E u ≠ E v) as Hne by (intros Heq; apply (eq_E u v Hu Hv) in Heq; congruence).
  destruct (decide (E v ∈ _)) as [Hin|Hin]; [rewrite decide_True by (by right); done|]. rewrite decide_False; [done|].
  intros [?|?]%elem_of_cons; congruence.
Qed.

(** Every entry of the map after [freq[v]++]. *)
Lemma freq_add_elem v l u c : num v → Forall (λ e, num e.1) l → NoDup (keys l) → (u, c) ∈ freq_add v l →
  ((u, c) ∈ l ∧ E u ≠ E v) ∨ ((u, c - 1) ∈ l ∧ E u = E v) ∨ (u = v ∧ c = 1 ∧ E v ∉ keys l).
Proof.
  intros Hv. induction 1 as [|[u' c'] l Hu _ IH]; intros Hnd Hin.
  - cbn in Hin. apply list_elem_of_singleton in Hin as [= -> ->]. right; right. split; [done|]. split; [done|]. apply not_elem_of_nil.
  - cbn [freq_add] in Hin. cbn [fst] in Hu. apply NoDup_cons in Hnd as [Hni Hnd]. cbn [fst] in Hni. fold (keys l) in Hnd, Hni. destruct (f64_eq u' v) eqn:He.
    + apply eq_E in He; [|done..]. apply elem_of_cons in Hin as [[= -> ->]|Hin]; [right; left; split; [|done]; replace (c' + 1 - 1) with c' by lia; constructor|].
      left. split; [by right|]. intros Heq. destruct Hni. rewrite He, <-Heq. apply (list_elem_of_fmap_2 (λ e, E e.1) l (u, c) Hin).
    + assert (E u' ≠ E v) as Hne by (intros Heq; apply (eq_E u' v Hu Hv) in Heq; congruence). apply elem_of_cons in Hin as [[= -> ->]|Hin]; [left; split; [constructor|done]|].
      destruct (IH Hnd Hin) as [[? ?]|[[? ?]|(? & ? & Hk)]]; [left; split; [by right|done]|right; left; split; [by right|done]|right; right]. split; [done|]. split; [done|].
      unfold keys. cbn [fmap list_fmap fst]. intros [?|?]%elem_of_cons; [congruence|by apply Hk].
Qed.

Lemma freq_spec s : Forall num s → Forall (λ e, num e.1) (freq s) ∧ NoDup (keys (freq s)) ∧
  (∀ u c, (u, c) ∈ freq s → u ∈ s ∧ c = count u s) ∧ (∀ v, v ∈ s → E v ∈ keys (freq s)).
Proof.
  induction s as [|v s IH] using rev_ind; intros Hs; [split_and!; [constructor|constructor|intros u c Hin; by apply elem_of_nil in Hin|intros v Hin; by apply elem_of_nil in Hin]|].
  apply Forall_app in Hs as [Hs Hv']. assert (num v) as Hv by (by inversion Hv'). destruct (IH Hs) as (Hn & Hnd & Hc & Hk). clear IH.
  assert (freq (s ++ [v]) = freq_add v (freq s)) as -> by (unfold freq; by rewrite fold_left_app). pose proof (freq_add_keys v (freq s) Hv Hn) as Hkeys.
  assert (∀ u c, (u, c) ∈ freq_add v (freq s) → u ∈ s ++ [v] ∧ c = count u (s ++ [v])) as Hc'.
  { intros u c Hin. rewrite elem_of_app, list_elem_of_singleton, count_snoc. destruct (freq_add_elem v (freq s) u c Hv Hn Hnd Hin) as [[Hu Hne]|[[Hu Heq]|(-> & -> & Hni)]].
    - destruct (Hc u c Hu) as [Hus ->]. split; [by left|]. assert (num u) as Hnu by (by eapply Forall_forall in Hs). destruct (f64_eq u v) eqn:He; [|lia]. by apply eq_E in He.
    - destruct (Hc u _ Hu) as [Hus ?]. split; [by left|]. assert (num u) as Hnu by (by eapply Forall_forall in Hs). rewrite (proj2 (eq_E u v Hnu Hv)) by done. lia.
    - split; [by right|]. rewrite (proj2 (eq_E v v Hv Hv)) by done. enough (count v s = 0) by lia. apply count_zero.
      intros w Hw. apply not_true_iff_false. intros He. assert (num w) as Hnw by (by eapply Forall_forall in Hs). apply eq_E in He; [|done..]. destruct Hni. rewrite He. by apply Hk. }
  split_and!; [|rewrite Hkeys; destruct (decide _) as [|Hni]; [done|]; apply NoDup_app; split_and!; [done| |apply NoDup_singleton]|done|].
  - apply Forall_forall. intros [u c] Hin. destruct (Hc' u c Hin) as [[Hu| ->%list_elem_of_singleton]%elem_of_app _]; [by eapply Forall_forall in Hs|done].
  - intros z Hz ->%list_elem_of_singleton. done.
  - intros w Hw. rewrite Hkeys. apply elem_of_app in Hw as [Hw| ->%list_elem_of_singleton]; (destruct (decide _) as [Hin|Hni]; [|rewrite elem_of_app]); [by apply Hk|left; by apply Hk|done|right; by apply list_elem_of_singleton].
Qed.

(** [r] occurs more often than [e], or as often and is not larger. *)
Definition beats (r e : float64 * Z) : Prop := e.2 < r.2 ∨ e.2 = r.2 ∧ f64_le r.1 e.1 = true.

Lemma mode_fold order : ∀ best, num best.1 → Forall (λ e, num e.1) order → let r := fold_left mode_step order best in
  (r = best ∨ r ∈ order) ∧ beats r best ∧ ∀ e, e ∈ order → beats r e.
Proof.
  induction order as [|e order IH]; intros best Hb Ho r; [split; [by left|]; split; [right; split; [done|by apply Window.le_refl]|intros e He; by apply elem_of_nil in He]|].
  apply Forall_cons in Ho as [He Ho]. assert (∃ b', mode_step best e = b' ∧ (b' = best ∨ b' = e) ∧ beats b' best ∧ beats b' e) as (b' & Hstep & Hcase & Hb1 & Hb2).
  { eexists. split; [done|]. destruct e as [v c], best as [bv bc]. unfold mode_step, beats. cbn [fst snd] in *. destruct ((bc <? c) || ((c =? bc) && f64_lt v bv)) eqn:Hcond.
    - split; [by right|]. cbn [fst snd]. apply orb_true_iff in Hcond as [Hlt%Z.ltb_lt|[Heq%Z.eqb_eq Hlt]%andb_true_iff]; (split; [|right; split; [done|by apply Window.le_refl]]).
      + by left.
      + right. split; [done|]. apply le_E; [done..|]. apply lt_E in Hlt; [lia|done..].
    - split; [by left|]. cbn [fst snd]. apply orb_false_iff in Hcond as [Hge%Z.ltb_ge Hcond]. split; [right; split; [done|by apply Window.le_refl]|].
      destruct (decide (c = bc)) as [->|]; [right|left; lia]. split; [done|]. rewrite Z.eqb_refl in Hcond. apply le_E; [done..|]. by apply lt_E_false. }
  assert (num b'.1) as Hb' by (destruct Hcase as [->| ->]; done). destruct (IH b' Hb' Ho) as (Hr & Hrb & Hall). unfold r. cbn [fold_left]. rewrite Hstep. set (r' := fold_left mode_step order b') in *.
  assert (num r'.1) as Hr' by (destruct Hr as [->|Hin]; [done|by eapply Forall_forall in Ho]).
  assert (∀ x, num x.1 → beats b' x → beats r' x) as Htrans.
  { intros x Hx [H1|[H1 H1']]; destruct Hrb as [H2|[H2 H2']]; unfold beats; [left; lia|left; lia|left; lia|right]. split; [lia|]. by apply (Window.le_trans_num _ b'.1). }
  split; [destruct Hr as [->|Hin]; [destruct Hcase as [->| ->]; [by left|right; constructor]|right; by right]|]. split; [by apply Htrans|].
  intros x [->|Hx]%elem_of_cons; [by apply Htrans|by apply Hall].
Qed.

(** Of values that are not NaN, in whatever order the map is iterated, the mode is one of them, none occurs more often, and it is the smallest of those that occur as often. *)
Theorem mode_exact s order : Forall num s → s ≠ [] → order ≡ₚ freq s →
  let m := Mode s order in m ∈ s ∧ ∀ v, v ∈ s → count v s < count m s ∨ count v s = count m s ∧ f64_le m v = true.
Proof.
  intros Hs Hne Hp m. destruct (freq_spec s Hs) as (Hn & _ & Hc & Hk). destruct s as [|x s]; [done|]. unfold m, Mode. remember (x :: s) as l eqn:Hl.
  assert (Forall (λ e, num e.1) order) as Hno by (by rewrite Hp). assert (x ∈ l) as Hx by (subst l; constructor). assert (num x) as Hnx by (by eapply Forall_forall in Hs).
  destruct (mode_fold order (x, 0) Hnx Hno) as (Hr & _ & Hall). set (r := fold_left mode_step order (x, 0)) in *. clearbody r.
  assert (∀ v, v ∈ l → ∃ u, (u, count u l) ∈ order ∧ E u = E v ∧ num u ∧ num v ∧ count u l = count v l) as Hentry.
  { intros v Hv. pose proof (Hk v Hv) as Hin. unfold keys in Hin. apply list_elem_of_fmap in Hin as ([u c] & He & Hin). cbn [fst] in He. destruct (Hc u c Hin) as [Hu ->].
    assert (num u ∧ num v) as [Hnu Hnv] by (split; [by eapply (Forall_forall num l) in Hu|by eapply (Forall_forall num l) in Hv]). exists u. split; [by rewrite Hp|]. do 3 (split; [done|]).
    unfold count. do 2 f_equal. apply List.filter_ext_in. intros w Hw%list_elem_of_In. assert (num w) as Hnw by (by eapply Forall_forall in Hs).
    apply eq_true_iff_eq. rewrite !eq_E by done. by rewrite He. }
  assert (r ∈ order) as Hin.
  { destruct Hr as [->|]; [exfalso|done]. destruct (Hentry x Hx) as (u & Hin & _ & _ & _ & Hcu). rewrite Hcu in Hin. destruct (Hall _ Hin) as [Hlt|[Heq _]]; cbn [snd] in *.
    - unfold count in Hlt. lia.
    - unfold count in Heq. rewrite Hl in Heq at 1. cbn [List.filter] in Heq. rewrite (proj2 (eq_E x x Hnx Hnx)) in Heq by done. cbn [length] in Heq. lia. }
  rewrite Hp in Hin. destruct r as [mv mc]. destruct (Hc mv mc Hin) as [Hmv ->]. cbn [fst]. split; [done|]. intros v Hv.
  destruct (Hentry v Hv) as (u & Hu & Heq & Hnu & Hnv & <-). destruct (Hall _ Hu) as [Hlt|[Hc' Hle]]; [by left|right]. cbn [fst snd] in *. split; [done|].
  assert (num mv) as Hnm by (by eapply (Forall_forall num l) in Hmv). apply le_E; [done..|]. rewrite <-Heq. by apply le_E.
Qed.

Lemma mode_exact_witness : let s := [f64_of_Z 3; f64_of_Z 2; f64_of_Z 3; f64_of_Z 2] in let m := Mode s (reverse (freq s)) in
  m ∈ s ∧ ∀ v, v ∈ s → count v s < count m s ∨ count v s = count m s ∧ f64_le m v = true.
Proof.
  intros s. apply (mode_exact s (reverse (freq s))); [|done|apply reverse_Permutation]. repeat constructor; apply moderate_num, moderate_int; unfold exact_int; lia.
Defined.

(** With NaN first the answer depends on the order of the map: NaN keeps its place against every equal count. *)
Example mode_nan_order : let s := [f64_nan; f1] in Mode s (freq s) ≠ Mode s (reverse (freq s)).
Proof. vm_compute. done. Qed.
