(* ===== verification/KafkaConsumer.v ===== *)
(** * KafkaConsumer: delivering messages to a handler ([kafka], both backends)

    [sarama_handler.go], [sarama_consumer_group.go], [sarama_partition_consumer.go] and [franzgo_consumer.go].  The
    client library is a parameter: what it delivers (messages, session ends, errors) is a list, and the marks that
    commit offsets are a state [S] with the documented law that a mark moves the offset to resume at forward only
    ([Marker]).  The user's handler is a function of a state of its own; it returns nil, an error, or panics.  A
    [select] is the list of the cases it took.  Fired events are recorded when a hook is installed.

    Shown: every message reaches the handler once and in order, and the counters and events are exactly the outcomes,
    panics included ([claim_accounts]); the two backends treat the same records the same way ([backends_agree]);
    where the group resumes: at the offset after the greatest one acknowledged, so that a message refused by the
    handler comes again exactly when nothing at or after it was acknowledged in its partition ([resume_exact],
    [nack_lost]); a session that ends is counted and replaced until an error or the context ends the loop
    ([sessions_accounted]); the partition pump delivers a prefix of the stream in order and closes its channel
    exactly when it returns ([pump_delivers]); at most one pump runs, it is cancelled by [Close], and the client is
    closed once, whatever the interleaving ([partition_lifecycle]).  [spins_after_close], [fetch_errors_differ] and
    [messages_after_close_nil] show where the code is weaker than its comments. *)

From Stdlib Require Import ZArith Lia Bool String.
From stdpp Require Import base tactics numbers list gmap strings.
From S2P Require Import Prelude GoStd.

#[local] Open Scope Z_scope.

(** An error is its text. *)
Definition error := string.

Record Header := MkHeader { HKey : string; HValue : string }.
Record Message := MkMessage { Topic : string; Partition : Z; Offset : Z; Key : string; Value : string; Headers : list Header; Timestamp : Z }.

(** The record of the client libraries, as far as it is read. *)
Record ConsumerMessage := MkCM { cTopic : string; cPartition : Z; cOffset : Z; cKey : string; cValue : string; cHeaders : list (string * string); cTimestamp : Z }.

Definition fromSaramaConsumerMessage (cm : ConsumerMessage) : Message :=
  MkMessage (cTopic cm) (cPartition cm) (cOffset cm) (cKey cm) (cValue cm) ((λ h, MkHeader h.1 h.2) <$> cHeaders cm) (cTimestamp cm).
Definition fromKgoRecord (r : ConsumerMessage) : Message :=
  MkMessage (cTopic r) (cPartition r) (cOffset r) (cKey r) (cValue r) ((λ h, MkHeader h.1 h.2) <$> cHeaders r) (cTimestamp r).

Inductive ConsumerEvent :=
  | EvMessage (m : Message) | EvAck (m : Message) | EvNack (m : Message) (e : error) | EvError (e : error) | EvRebalance | EvClose.

Record counters := MkCounters { received : Z; acked : Z; failed : Z; recovered : Z; rebalance : Z; bytes : Z }.
Definition counters0 : counters := MkCounters 0 0 0 0 0 0.

(** What the two group consumers and the two partition consumers share: counters, the error channel (created on first use,
    16 deep), and the hook with the events it has seen. *)
Record consumer := MkConsumer { cnt : counters; errCh : option (list error); onEvent : bool; seen : list ConsumerEvent }.
Definition New : consumer := MkConsumer counters0 None false [].

Definition add_received (n : Z) (c : counters) : counters := MkCounters (u64 (received c + 1)) (acked c) (failed c) (recovered c) (rebalance c) (u64 (bytes c + n)).
Definition add_acked (c : counters) : counters := MkCounters (received c) (u64 (acked c + 1)) (failed c) (recovered c) (rebalance c) (bytes c).
Definition add_failed (c : counters) : counters := MkCounters (received c) (acked c) (u64 (failed c + 1)) (recovered c) (rebalance c) (bytes c).
Definition add_recovered (c : counters) : counters := MkCounters (received c) (acked c) (failed c) (u64 (recovered c + 1)) (rebalance c) (bytes c).
Definition add_rebalance (c : counters) : counters := MkCounters (received c) (acked c) (failed c) (recovered c) (u64 (rebalance c + 1)) (bytes c).

Definition on_cnt (f : counters → counters) (s : consumer) : consumer := MkConsumer (f (cnt s)) (errCh s) (onEvent s) (seen s).
Definition fire (e : ConsumerEvent) (s : consumer) : consumer :=
  if onEvent s then MkConsumer (cnt s) (errCh s) true (seen s ++ [e]) else s.
Definition SetOnEvent (fn : bool) (s : consumer) : consumer := MkConsumer (cnt s) (errCh s) fn (seen s).
Definition bumpReceived (valueLen : Z) (s : consumer) : consumer := on_cnt (add_received valueLen) s.

Definition Errors (s : consumer) : consumer * list error :=
  let ch := default [] (errCh s) in (MkConsumer (cnt s) (Some ch) (onEvent s) (seen s), ch).
Definition pushErr (e : error) (s : consumer) : consumer :=
  let ch := default [] (errCh s) in
  MkConsumer (cnt s) (Some (if (length ch <? 16)%nat then ch ++ [e] else ch)) (onEvent s) (seen s).

(** The handler's answer. *)
Inductive outcome := HNil | HErr (e : error) | HPanic (r : string).

Section deliver.
Context {H S : Type} (handler : H → Message → H * outcome) (mark : S → ConsumerMessage → S).

Definition panic_error (r : string) : error := ("kafka: consumer handler panic: " +:+ r)%string.

Definition safeHandlerCall (s : consumer) (h : H) (m : Message) : consumer * H * option error :=
  match handler h m with
  | (h, HNil) => (s, h, None)
  | (h, HErr e) => (s, h, Some e)
  | (h, HPanic r) => (on_cnt add_recovered s, h, Some (panic_error r))
  end.

(** One message of the claim. *)
Definition claim_step (st : consumer * S * H) (cm : ConsumerMessage) : consumer * S * H :=
  let '(s, sess, h) := st in
  let msg := fromSaramaConsumerMessage cm in
  let s := bumpReceived (Z.of_nat (String.length (cValue cm))) s in
  let s := fire (EvMessage msg) s in
  match safeHandlerCall s h msg with
  | (s, h, Some err) => (fire (EvNack msg err) (on_cnt add_failed s), sess, h)
  | (s, h, None) => (fire (EvAck msg) (on_cnt add_acked s), mark sess cm, h)
  end.

(** The range over [claim.Messages()], until it is closed. *)
Definition ConsumeClaim (st : consumer * S * H) (claim : list ConsumerMessage) : consumer * S * H := fold_left claim_step claim st.

(** [franzConsumerGroup.safeHandler] and a record of its loop. *)
Definition safeHandler (s : consumer) (h : H) (m : Message) : consumer * H * option error :=
  match handler h m with
  | (h, HNil) => (s, h, None)
  | (h, HErr e) => (s, h, Some e)
  | (h, HPanic r) => (on_cnt add_recovered s, h, Some (panic_error r))
  end.

Definition record_step (st : consumer * S * H) (r : ConsumerMessage) : consumer * S * H :=
  let '(s, cl, h) := st in
  let msg := fromKgoRecord r in
  let s := fire (EvMessage msg) (on_cnt (add_received (Z.of_nat (String.length (cValue r)))) s) in
  match safeHandler s h msg with
  | (s, h, Some err) => (fire (EvNack msg err) (on_cnt add_failed s), cl, h)
  | (s, h, None) => (fire (EvAck msg) (on_cnt add_acked s), mark cl r, h)
  end.

Definition fetch_error (s : consumer) (e : error) : consumer := pushErr e (fire (EvError e) (on_cnt add_failed s)).

(** One turn of the loop of [franzConsumerGroup.Consume]: the errors of the fetch, then its records. *)
Record fetch := MkFetch { fErrors : list error; fRecords : list ConsumerMessage }.
Definition poll_step (st : consumer * S * H) (f : fetch) : consumer * S * H :=
  let '(s, cl, h) := st in fold_left record_step (fRecords f) (fold_left fetch_error (fErrors f) s, cl, h).

(** The loop, for the fetches made before the context is done. *)
Definition franz_Consume (st : consumer * S * H) (fs : list fetch) : consumer * S * H := fold_left poll_step fs st.

(** [saramaConsumerGroup.Consume]: each turn has the context's error at its top, the claims of the session and how it
    ended, and the context's error after a clean end.  [None] at the end: the loop is still running. *)
Inductive session := Session (ctx_before : option error) (claims : list ConsumerMessage) (result ctx_after : option error).

Fixpoint sarama_Consume (st : consumer * S * H) (ss : list session) : consumer * S * H * option error :=
  match ss with
  | [] => (st, None)
  | Session (Some e) _ _ _ :: _ => (st, Some e)
  | Session None claims result ctx' :: ss =>
      let '(s, sess, h) := ConsumeClaim st claims in
      match result, ctx' with
      | Some e, _ => (fire (EvError e) s, sess, h, Some e)
      | None, Some e => (s, sess, h, Some e)
      | None, None => sarama_Consume (fire EvRebalance (on_cnt add_rebalance s), sess, h) ss
      end
  end.

Definition drainErrors (s : consumer) (errs : list error) : consumer := fold_left (λ s e, pushErr e (fire (EvError e) s)) errs s.

(** ** What the handler answers *)

Fixpoint outcomes (h : H) (ms : list Message) : list outcome :=
  match ms with [] => [] | m :: ms => let '(h, o) := handler h m in o :: outcomes h ms end.
Fixpoint final_state (h : H) (ms : list Message) : H :=
  match ms with [] => h | m :: ms => final_state (handler h m).1 ms end.

End deliver.

Definition is_nil (o : outcome) : bool := match o with HNil => true | _ => false end.
Definition is_panic (o : outcome) : bool := match o with HPanic _ => true | _ => false end.
Definition tally (p : outcome → bool) (os : list outcome) : Z := Z.of_nat (length (List.filter p os)).
Definition value_bytes (ms : list ConsumerMessage) : Z := zsum ((λ cm, Z.of_nat (String.length (cValue cm))) <$> ms).
Definition events_of (m : Message) (o : outcome) : list ConsumerEvent :=
  [EvMessage m; match o with HNil => EvAck m | HErr e => EvNack m e | HPanic r => EvNack m (panic_error r) end].
(** The messages with the answer nil. *)
Definition acknowledged (ms : list ConsumerMessage) (os : list outcome) : list ConsumerMessage :=
  (List.filter (λ p, is_nil p.2) (zip ms os)).*1.

Definition counters_ok (c : counters) : Prop :=
  0 ≤ received c ≤ max_u64 ∧ 0 ≤ acked c ≤ max_u64 ∧ 0 ≤ failed c ≤ max_u64 ∧ 0 ≤ recovered c ≤ max_u64 ∧ 0 ≤ rebalance c ≤ max_u64 ∧ 0 ≤ bytes c ≤ max_u64.

(** The counters after messages with these answers. *)
Definition counted (c : counters) (ms : list ConsumerMessage) (os : list outcome) : counters :=
  MkCounters (u64 (received c + Z.of_nat (length ms))) (u64 (acked c + tally is_nil os)) (u64 (failed c + tally (λ o, negb (is_nil o)) os))
    (u64 (recovered c + tally is_panic os)) (rebalance c) (u64 (bytes c + value_bytes ms)).

Lemma u64_range z : 0 ≤ u64 z ≤ max_u64.
Proof. mint. Qed.

Lemma counted_nil c : counters_ok c → counted c [] [] = c.
Proof. intros (?&?&?&?&?&?). unfold counted. cbn. rewrite !Z.add_0_r, !u64_id by done. by destruct c. Qed.

Lemma tally_cons p o os : tally p (o :: os) = (if p o then 1 else 0) + tally p os.
Proof. unfold tally. cbn [List.filter]. destruct (p o); cbn [length]; lia. Qed.

Lemma counted_ok c ms os : counters_ok c → counters_ok (counted c ms os).
Proof. intros (?&?&?&?&?&?). unfold counted, counters_ok. cbn. pose proof u64_range. naive_solver. Qed.

Lemma counted_cons c cm ms o os : counted (counted c [cm] [o]) ms os = counted c (cm :: ms) (o :: os).
Proof.
  unfold counted. cbn [received acked failed recovered rebalance bytes]. unfold value_bytes. rewrite !u64_add_l, !tally_cons. cbn [fmap list_fmap zsum length].
  f_equal; f_equal; unfold tally; cbn; lia.
Qed.

Section claim.
Context {H S : Type} (handler : H → Message → H * outcome) (mark : S → ConsumerMessage → S).

Lemma fire_eq e s : fire e s = MkConsumer (cnt s) (errCh s) (onEvent s) (seen s ++ (if onEvent s then [e] else [])).
Proof. unfold fire. destruct s as [c ch [] l]; cbn; [done|]. by rewrite app_nil_r. Qed.

(** One message: the counters, the mark and the events of its answer. *)
Lemma claim_step_spec s sess h cm : counters_ok (cnt s) →
  let m := fromSaramaConsumerMessage cm in let '(h', o) := handler h m in
  claim_step handler mark (s, sess, h) cm =
    (MkConsumer (counted (cnt s) [cm] [o]) (errCh s) (onEvent s) (seen s ++ (if onEvent s then events_of m o else [])),
     if is_nil o then mark sess cm else sess, h').
Proof.
  intros (?&Ha%u64_id&Hf%u64_id&Hr%u64_id&?&?) m. destruct (handler h m) as [h' o] eqn:Hh. unfold claim_step. cbn. fold m. rewrite !fire_eq. unfold safeHandlerCall. cbn [onEvent cnt errCh seen bumpReceived on_cnt].
  rewrite Hh. destruct o; rewrite !fire_eq; cbn; unfold counted, value_bytes; cbn; rewrite ?Z.add_0_r, <-?app_assoc; destruct s as [[] ch [] l]; cbn in *; unfold add_acked, add_failed, add_received, add_recovered, tally; cbn; rewrite ?Z.add_0_r, ?app_nil_r, ?Ha, ?Hf, ?Hr; done.
Qed.

Lemma claim_spec claim : ∀ s sess h, counters_ok (cnt s) →
  let ms := fromSaramaConsumerMessage <$> claim in let os := outcomes handler h ms in
  ConsumeClaim handler mark (s, sess, h) claim =
    (MkConsumer (counted (cnt s) claim os) (errCh s) (onEvent s) (seen s ++ (if onEvent s then concat (zip_with events_of ms os) else [])),
     fold_left mark (acknowledged claim os) sess, final_state handler h ms).
Proof.
  induction claim as [|cm claim IH]; intros s sess h Hok ms os; cbn in ms, os.
  - cbn. rewrite counted_nil by done. destruct s as [c ch [] l]; cbn; by rewrite app_nil_r.
  - unfold ConsumeClaim. cbn [fold_left]. pose proof (claim_step_spec s sess h cm Hok) as Hstep. cbn zeta in Hstep. unfold ms, os. clear ms os. cbn [outcomes final_state].
    destruct (handler h (fromSaramaConsumerMessage cm)) as [h' o] eqn:Hh. rewrite Hstep.
    change (fold_left (claim_step handler mark) claim ?st) with (ConsumeClaim handler mark st claim). rewrite IH by (by apply counted_ok). cbn [cnt errCh onEvent seen fst].
    rewrite counted_cons, <-app_assoc. f_equal. f_equal; [f_equal; f_equal; by destruct (onEvent s)|]. unfold acknowledged. cbn [zip zip_with List.filter snd]. by destruct (is_nil o).
Qed.

(** Every message of a claim is given to the handler once and in order; the counters, the marks and the events are those of its answers, a panic counting as a refusal. *)
Theorem claim_accounts claim s sess h : counters_ok (cnt s) →
  let ms := fromSaramaConsumerMessage <$> claim in let os := outcomes handler h ms in
  let '(s', sess', h') := ConsumeClaim handler mark (s, sess, h) claim in
  cnt s' = counted (cnt s) claim os ∧ tally is_nil os + tally (λ o, negb (is_nil o)) os = Z.of_nat (length claim) ∧
  sess' = fold_left mark (acknowledged claim os) sess ∧ h' = final_state handler h ms ∧
  seen s' = seen s ++ (if onEvent s then concat (zip_with events_of ms os) else []).
Proof.
  intros Hok ms os. rewrite claim_spec by done. cbn [cnt seen]. split; [done|]. split; [|done]. unfold os, ms. clear. revert h. induction claim as [|cm claim IH]; intros h; [done|].
  cbn [fmap list_fmap outcomes]. destruct (handler h _) as [h' o]. rewrite !tally_cons. cbn [length]. specialize (IH h'). destruct (is_nil o); cbn [negb]; lia.
Qed.

End claim.

Lemma claim_accounts_witness :
  let handler := λ (h : unit) (m : Message), (h, if Offset m =? 1 then HPanic "boom" else HNil) in
  let claim := [MkCM "t" 0 0 "" "ab" [] 0; MkCM "t" 0 1 "" "c" [] 0] in
  let ms := fromSaramaConsumerMessage <$> claim in let os := outcomes handler () ms in
  let '(s', sess', h') := ConsumeClaim handler (λ s cm, s ++ [cOffset cm]) (SetOnEvent true New, [], ()) claim in
  cnt s' = counted counters0 claim os ∧ tally is_nil os + tally (λ o, negb (is_nil o)) os = Z.of_nat (length claim) ∧
  sess' = fold_left (λ s cm, s ++ [cOffset cm]) (acknowledged claim os) [] ∧ h' = final_state handler () ms ∧
  seen s' = [] ++ concat (zip_with events_of ms os).
Proof.
  apply (claim_accounts (λ (h : unit) (m : Message), (h, if Offset m =? 1 then HPanic "boom" else HNil)) (λ s cm, s ++ [cOffset cm])
    [MkCM "t" 0 0 "" "ab" [] 0; MkCM "t" 0 1 "" "c" [] 0] (SetOnEvent true New) [] ()). vm_compute. repeat split; discriminate.
Defined.

(** ** Both backends *)

Section backends.
Context {H S : Type} (handler : H → Message → H * outcome) (mark : S → ConsumerMessage → S).

(** Fetches without errors are treated by the franz-go loop as one claim with all their records is by the sarama handler: same calls, counters, marks and events. *)
Theorem backends_agree (fs : list fetch) s cl h : Forall (λ f, fErrors f = []) fs →
  franz_Consume handler mark (s, cl, h) fs = ConsumeClaim handler mark (s, cl, h) (concat (fRecords <$> fs)).
Proof.
  intros Hfs. revert s cl h. induction Hfs as [|f fs Hf _ IH]; intros s cl h; [done|]. unfold franz_Consume, ConsumeClaim in *. cbn [fold_left fmap list_fmap concat].
  rewrite fold_left_app. unfold poll_step at 2. rewrite Hf. cbn [fold_left]. change (record_step handler mark) with (claim_step handler mark).
  destruct (fold_left (claim_step handler mark) (fRecords f) (s, cl, h)) as [[s1 cl1] h1]. apply IH.
Qed.

End backends.

Lemma backends_agree_witness :
  let handler := λ (h : unit) (m : Message), (h, HNil) in let mark := λ (s : list Z) cm, s ++ [cOffset cm] in
  let fs := [MkFetch [] [MkCM "t" 0 0 "" "" [] 0]; MkFetch [] [MkCM "t" 0 1 "" "" [] 0]] in
  franz_Consume handler mark (New, [], ()) fs = ConsumeClaim handler mark (New, [], ()) (concat (fRecords <$> fs)).
Proof.
  apply (backends_agree (λ (h : unit) (m : Message), (h, HNil)) (λ (s : list Z) cm, s ++ [cOffset cm]) [MkFetch [] [MkCM "t" 0 0 "" "" [] 0]; MkFetch [] [MkCM "t" 0 1 "" "" [] 0]] New [] ()).
  repeat constructor.
Defined.

(** A background error counts as failed with franz-go and not with sarama. *)
Example fetch_errors_differ : failed (cnt (fetch_error New "e")) = 1 ∧ failed (cnt (drainErrors New ["e"%string])) = 0.
Proof. done. Qed.

(** Once the client is closed, a poll is documented to return at once with an error and no record; the loop does not look at it: every turn counts a failure, without end. *)
Example spins_after_close n : let '(s, _, _) := franz_Consume (λ (h : unit) (_ : Message), (h, HNil)) (λ (s : unit) _, s) (New, (), ()) (replicate n (MkFetch ["client closed"%string] [])) in
  failed (cnt s) = u64 (Z.of_nat n).
Proof.
  assert (∀ n s, counters_ok (cnt s) → let '(s', _, _) := franz_Consume (λ (h : unit) (_ : Message), (h, HNil)) (λ (s : unit) _, s) (s, (), ()) (replicate n (MkFetch ["client closed"%string] [])) in
    failed (cnt s') = u64 (failed (cnt s) + Z.of_nat n)) as Hgen.
  { clear n. induction n as [|n IH]; intros s Hok; [cbn; rewrite Z.add_0_r, u64_id; [done|apply Hok]|]. cbn [replicate]. unfold franz_Consume in *. cbn [fold_left poll_step fErrors fRecords].
    set (s1 := fetch_error s "client closed"). assert (cnt s1 = add_failed (cnt s)) as Hs1 by (unfold s1, fetch_error, pushErr; rewrite fire_eq; done).
    specialize (IH s1). rewrite Hs1 in IH. destruct (fold_left _ (replicate n _) (s1, (), ())) as [[s' ?] ?]. rewrite IH; [cbn [add_failed failed]; rewrite u64_add_l; f_equal; lia|].
    destruct Hok as (?&?&?&?&?&?). pose proof (u64_range (failed (cnt s) + 1)). unfold add_failed, counters_ok. cbn. tauto. }
  specialize (Hgen n New). destruct (franz_Consume _ _ _ _) as [[s ?] ?]. rewrite Hgen; [done|]. vm_compute. repeat split; discriminate.
Qed.

(** ** Where a group resumes *)

(** What the client libraries document of a mark: the offset to resume a partition at moves forward to the one after the marked message. *)
Class Marker {S : Type} (mark : S → ConsumerMessage → S) := {
  resume : S → string * Z → option Z;
  mark_law s cm k : resume (mark s cm) k =
    if decide (k = (cTopic cm, cPartition cm)) then Some (match resume s k with Some o => Z.max o (cOffset cm + 1) | None => cOffset cm + 1 end) else resume s k
}.
Definition partition_of (cm : ConsumerMessage) : string * Z := (cTopic cm, cPartition cm).

Section resume.
Context {H S : Type} (handler : H → Message → H * outcome) (mark : S → ConsumerMessage → S) `{!Marker mark}.

Lemma marks_resume acks k x : ∀ sess, (∃ o, resume (fold_left mark acks sess) k = Some o ∧ x < o) ↔
  (∃ o, resume sess k = Some o ∧ x < o) ∨ ∃ cm, cm ∈ acks ∧ partition_of cm = k ∧ x ≤ cOffset cm.
Proof.
  induction acks as [|cm acks IH]; intros sess; cbn [fold_left].
  - split; [by left|]. intros [|(cm & Hin & _)]; [done|by apply elem_of_nil in Hin].
  - rewrite IH, mark_law. assert ((∃ o, (if decide (k = (cTopic cm, cPartition cm)) then Some match resume sess k with Some o => o `max` (cOffset cm + 1) | None => cOffset cm + 1 end else resume sess k) = Some o ∧ x < o) ↔
      (∃ o, resume sess k = Some o ∧ x < o) ∨ (partition_of cm = k ∧ x ≤ cOffset cm)) as ->.
    { unfold partition_of. destruct (decide _) as [->|Hne]; [|naive_solver]. split.
      - intros (o & [= <-] & Hx). destruct (resume sess _) as [o|]; [|right; split; [done|lia]]. destruct (decide (x < o)); [left; by exists o|right; split; [done|lia]].
      - intros [(o & -> & Hx)|[_ Hx]]; eexists; (split; [done|]); [lia|destruct (resume sess _); lia]. }
    setoid_rewrite elem_of_cons. naive_solver.
Qed.

(** After a claim the group resumes after a message exactly when that message or a later one of its partition was acknowledged: a refused message comes again only if everything after it was refused too. *)
Theorem resume_exact claim s sess h cm : counters_ok (cnt s) → (∀ o, resume sess (partition_of cm) = Some o → o ≤ cOffset cm) →
  let os := outcomes handler h (fromSaramaConsumerMessage <$> claim) in
  let '(s', sess', h') := ConsumeClaim handler mark (s, sess, h) claim in
  (∃ o, resume sess' (partition_of cm) = Some o ∧ cOffset cm < o) ↔
    ∃ cm', cm' ∈ acknowledged claim os ∧ partition_of cm' = partition_of cm ∧ cOffset cm ≤ cOffset cm'.
Proof.
  intros Hok Hstart os. rewrite claim_spec by done. fold os. rewrite marks_resume. split; [|by right]. intros [(o & Ho & Hlt)|]; [|done]. apply Hstart in Ho. lia.
Qed.

End resume.

(** Offsets kept in a map, as the libraries do. *)
Definition map_mark (s : gmap (string * Z) Z) (cm : ConsumerMessage) : gmap (string * Z) Z :=
  <[partition_of cm := match s !! partition_of cm with Some o => Z.max o (cOffset cm + 1) | None => cOffset cm + 1 end]> s.
#[export, program] Instance map_marker : Marker map_mark := {| resume s k := s !! k |}.
Next Obligation.
  intros s cm k. cbn. unfold map_mark, partition_of. destruct (decide _) as [->|Hne]; [by rewrite lookup_insert_eq|]. by rewrite lookup_insert_ne.
Qed.

Definition refuses_first : unit → Message → unit * outcome := λ h m, (h, if Offset m =? 0 then HErr "try again" else HNil).
Definition two_messages : list ConsumerMessage := [MkCM "t" 0 0 "" "" [] 0; MkCM "t" 0 1 "" "" [] 0].

Lemma resume_exact_witness :
  let '(s', sess', h') := ConsumeClaim refuses_first map_mark (New, ∅, ()) two_messages in
  (∃ o, resume sess' ("t"%string, 0) = Some o ∧ 0 < o) ↔
    ∃ cm', cm' ∈ acknowledged two_messages (outcomes refuses_first () (fromSaramaConsumerMessage <$> two_messages)) ∧ partition_of cm' = ("t"%string, 0) ∧ 0 ≤ cOffset cm'.
Proof.
  apply (resume_exact refuses_first map_mark two_messages New ∅ () (MkCM "t" 0 0 "" "" [] 0)); [vm_compute; repeat split; discriminate|]. intros o Ho. vm_compute in Ho. discriminate.
Defined.

(** The first message is refused, the second acknowledged: the group resumes after both. *)
Example nack_lost : let '(s', sess', _) := ConsumeClaim refuses_first map_mark (New, ∅, ()) two_messages in
  failed (cnt s') = 1 ∧ resume sess' ("t"%string, 0) = Some 2.
Proof. vm_compute. done. Qed.

(** ** Sessions of a group *)

(** The messages of the sessions that run, how many of these end in a rebalance, and why the loop returns. *)
Fixpoint run_claims (ss : list session) : list ConsumerMessage :=
  match ss with
  | [] | Session (Some _) _ _ _ :: _ => []
  | Session None claims None None :: ss => claims ++ run_claims ss
  | Session None claims _ _ :: _ => claims
  end.
Fixpoint rebalances (ss : list session) : Z :=
  match ss with Session None _ None None :: ss => 1 + rebalances ss | _ => 0 end.
Fixpoint stop_reason (ss : list session) : option error :=
  match ss with
  | [] => None
  | Session (Some e) _ _ _ :: _ | Session None _ (Some e) _ :: _ | Session None _ None (Some e) :: _ => Some e
  | Session None _ None None :: ss => stop_reason ss
  end.

Definition with_rebalance (n : Z) (c : counters) : counters := MkCounters (received c) (acked c) (failed c) (recovered c) (u64 (rebalance c + n)) (bytes c).

Lemma counted_app c ms1 os1 ms2 os2 : counted (counted c ms1 os1) ms2 os2 = counted c (ms1 ++ ms2) (os1 ++ os2).
Proof.
  unfold counted, value_bytes, tally. cbn [received acked failed recovered rebalance bytes]. rewrite !u64_add_l, fmap_app, zsum_app, !List.filter_app, !length_app. f_equal; f_equal; lia.
Qed.

Section sessions.
Context {H S : Type} (handler : H → Message → H * outcome) (mark : S → ConsumerMessage → S).

Lemma outcomes_app h ms1 ms2 : outcomes handler h (ms1 ++ ms2) = outcomes handler h ms1 ++ outcomes handler (final_state handler h ms1) ms2.
Proof. revert h. induction ms1 as [|m ms1 IH]; intros h; [done|]. cbn. destruct (handler h m) as [h' o]. cbn. by rewrite IH. Qed.
Lemma final_state_app h ms1 ms2 : final_state handler h (ms1 ++ ms2) = final_state handler (final_state handler h ms1) ms2.
Proof. revert h. induction ms1 as [|m ms1 IH]; intros h; [done|]. cbn. apply IH. Qed.

Lemma with_rebalance_counted n c ms os : counted (with_rebalance n c) ms os = with_rebalance n (counted c ms os).
Proof. done. Qed.
Lemma with_rebalance_ok n c : counters_ok c → counters_ok (with_rebalance n c).
Proof. intros (?&?&?&?&?&?). pose proof (u64_range (rebalance c + n)). unfold counters_ok, with_rebalance. cbn. tauto. Qed.
Lemma with_rebalance_0 c : counters_ok c → with_rebalance 0 c = c.
Proof. intros (?&?&?&?&?&?). unfold with_rebalance. rewrite Z.add_0_r, u64_id by done. by destruct c. Qed.

(** [Consume] runs one session after another, each clean end counted as a rebalance, until a session fails or the context is done; the handler's state and the counters run on through all of them. *)
Theorem sessions_accounted ss s sess h : counters_ok (cnt s) →
  let ms := fromSaramaConsumerMessage <$> run_claims ss in
  let '(s', sess', h', ret) := sarama_Consume handler mark (s, sess, h) ss in
  cnt s' = with_rebalance (rebalances ss) (counted (cnt s) (run_claims ss) (outcomes handler h ms)) ∧
  h' = final_state handler h ms ∧ ret = stop_reason ss.
Proof.
  revert s sess h. induction ss as [|[[e|] claims result ctx'] ss IH]; intros s sess h Hok; cbn zeta; cbn [sarama_Consume run_claims rebalances stop_reason];
    [rewrite counted_nil, with_rebalance_0 by done; done..|]. rewrite claim_spec by done.
  set (s1 := MkConsumer _ _ _ _). assert (cnt s1 = counted (cnt s) claims (outcomes handler h (fromSaramaConsumerMessage <$> claims))) as Hs1 by done.
  pose proof (counted_ok (cnt s) claims (outcomes handler h (fromSaramaConsumerMessage <$> claims)) Hok) as Hok1. destruct result as [e|], ctx' as [e'|].
  - rewrite fire_eq. cbn [cnt]. rewrite Hs1, with_rebalance_0 by done. done.
  - rewrite fire_eq. cbn [cnt]. rewrite Hs1, with_rebalance_0 by done. done.
  - rewrite Hs1, with_rebalance_0 by done. done.
  - set (s2 := fire _ _). assert (cnt s2 = with_rebalance 1 (cnt s1)) as Hs2 by (unfold s2; rewrite fire_eq; done). rewrite Hs1 in Hs2. specialize (IH s2). rewrite Hs2 in IH.
    rewrite fmap_app, outcomes_app, final_state_app. set (h1 := final_state handler h _). set (sess1 := fold_left mark _ sess). specialize (IH sess1 h1 (with_rebalance_ok _ _ Hok1)). cbn zeta in IH.
    destruct (sarama_Consume handler mark (s2, sess1, h1) ss) as [[[s' sess'] h'] ret]. destruct IH as (IHc & IHh & IHr). split; [|done]. rewrite IHc, with_rebalance_counted, counted_app.
    unfold with_rebalance. cbn [rebalance received acked failed recovered bytes]. by rewrite u64_add_l, Z.add_assoc.
Qed.

End sessions.

Lemma sessions_accounted_witness : let ss := [Session None two_messages None None; Session None [] (Some "broker gone"%string) None] in
  let ms := fromSaramaConsumerMessage <$> run_claims ss in
  let '(s', sess', h', ret) := sarama_Consume refuses_first map_mark (New, ∅, ()) ss in
  cnt s' = with_rebalance (rebalances ss) (counted counters0 (run_claims ss) (outcomes refuses_first () ms)) ∧ h' = final_state refuses_first () ms ∧ ret = stop_reason ss.
Proof.
  apply (sessions_accounted refuses_first map_mark [Session None two_messages None None; Session None [] (Some "broker gone"%string) None] New ∅ ()). vm_compute. repeat split; discriminate.
Defined.

(** ** The pump of a partition consumer *)

(** A case of the pump's [select]; with a message, whether the inner [select] of channel mode found the context done. *)
Inductive pump_case := PMsg (cm : ConsumerMessage) (ctx : option error) | PMsgEnd | PErr (e : error) | PErrEnd | PCtx (e : error).

Section pump.
Context {H : Type}.

Inductive delivery := Callback (handler : H → Message → H * outcome) | Channel.

(** [saramaPartitionConsumer.pump]; the messages sent to [out] so far; the result is [None] while the pump runs, and [out] is closed when it returns. *)
Fixpoint pump (d : delivery) (s : consumer) (h : H) (out : list Message) (cases : list pump_case) : consumer * H * list Message * option (option error) :=
  match cases with
  | [] => (s, h, out, None)
  | PMsgEnd :: _ | PErrEnd :: _ => (s, h, out, Some None)
  | PCtx e :: _ => (s, h, out, Some (Some e))
  | PErr e :: cases => pump d (pushErr e (fire (EvError e) (on_cnt add_failed s))) h out cases
  | PMsg cm ctx :: cases =>
      let msg := fromSaramaConsumerMessage cm in
      let s := fire (EvMessage msg) (on_cnt (add_received (Z.of_nat (String.length (cValue cm)))) s) in
      match d with
      | Callback handler =>
          match safeHandlerCall handler s h msg with
          | (s, h, Some err) => pump d (fire (EvNack msg err) (on_cnt add_failed s)) h out cases
          | (s, h, None) => pump d (fire (EvAck msg) (on_cnt add_acked s)) h out cases
          end
      | Channel => match ctx with None => pump d s h (out ++ [msg]) cases | Some e => (s, h, out, Some (Some e)) end
      end
  end.

(** [franzPartitionConsumer.pump]: a turn is the context's error at its top and a fetch, each record with the inner [select]. *)
Record pfetch := MkPFetch { pCtx : option error; pErrors : list error; pRecords : list (ConsumerMessage * option error) }.

(** The records of a fetch; [Some] ends the pump. *)
Fixpoint franz_records (d : delivery) (s : consumer) (h : H) (out : list Message) (rs : list (ConsumerMessage * option error)) : consumer * H * list Message * option (option error) :=
  match rs with
  | [] => (s, h, out, None)
  | (r, ctx) :: rs =>
      let msg := fromKgoRecord r in
      let s := fire (EvMessage msg) (on_cnt (add_received (Z.of_nat (String.length (cValue r)))) s) in
      match d with
      | Callback handler =>
          match safeHandler handler s h msg with
          | (s, h, Some err) => franz_records d (fire (EvNack msg err) (on_cnt add_failed s)) h out rs
          | (s, h, None) => franz_records d (fire (EvAck msg) (on_cnt add_acked s)) h out rs
          end
      | Channel => match ctx with None => franz_records d s h (out ++ [msg]) rs | Some e => (s, h, out, Some (Some e)) end
      end
  end.

Fixpoint franz_pump (d : delivery) (s : consumer) (h : H) (out : list Message) (fs : list pfetch) : consumer * H * list Message * option (option error) :=
  match fs with
  | [] => (s, h, out, None)
  | f :: fs =>
      match pCtx f with
      | Some e => (s, h, out, Some (Some e))
      | None =>
          match franz_records d (fold_left fetch_error (pErrors f) s) h out (pRecords f) with
          | (s, h, out, None) => franz_pump d s h out fs
          | r => r
          end
      end
  end.

(** The same turns, as the cases of the other pump. *)
Definition cases_of (f : pfetch) : list pump_case :=
  match pCtx f with Some e => [PCtx e] | None => (PErr <$> pErrors f) ++ ((λ p, PMsg p.1 p.2) <$> pRecords f) end.

Lemma pump_errors d es : ∀ s h out cases, pump d s h out ((PErr <$> es) ++ cases) = pump d (fold_left fetch_error es s) h out cases.
Proof. induction es as [|e es IH]; intros s h out cases; [done|]. cbn. apply IH. Qed.

Lemma pump_records d rs : ∀ s h out cases, pump d s h out (((λ p, PMsg p.1 p.2) <$> rs) ++ cases) =
  match franz_records d s h out rs with (s, h, out, None) => pump d s h out cases | r => r end.
Proof.
  induction rs as [|[r ctx] rs IH]; intros s h out cases; [done|]. cbn. destruct d as [handler|]; [|destruct ctx; [done|apply IH]].
  change (safeHandlerCall handler) with (safeHandler handler). unfold fromKgoRecord, fromSaramaConsumerMessage. destruct (safeHandler handler _ h _) as [[s' h'] [e|]]; apply IH.
Qed.

(** The franz-go pump does with its fetches what the sarama pump does with the same errors and messages one by one. *)
Theorem pumps_agree d fs s h out : franz_pump d s h out fs = pump d s h out (concat (cases_of <$> fs)).
Proof.
  revert s h out. induction fs as [|f fs IH]; intros s h out; [done|]. cbn [franz_pump fmap list_fmap concat]. unfold cases_of at 1. destruct (pCtx f); [done|].
  rewrite <-app_assoc, pump_errors, pump_records. destruct (franz_records d _ h out _) as [[[s' h'] out'] [r|]]; [done|]. apply IH.
Qed.

(** What channel mode forwards, and what it has received then: at most one message more, when the context ended during a send. *)
Fixpoint forwarded (cases : list pump_case) : list Message :=
  match cases with
  | PMsg cm None :: cases => fromSaramaConsumerMessage cm :: forwarded cases
  | PErr _ :: cases => forwarded cases
  | _ => []
  end.
Fixpoint dropped (cases : list pump_case) : list Message :=
  match cases with
  | PMsg _ None :: cases | PErr _ :: cases => dropped cases
  | PMsg cm (Some _) :: _ => [fromSaramaConsumerMessage cm]
  | _ => []
  end.
Fixpoint pump_result (cases : list pump_case) : option (option error) :=
  match cases with
  | [] => None
  | PMsg _ None :: cases | PErr _ :: cases => pump_result cases
  | PMsg _ (Some e) :: _ | PCtx e :: _ => Some (Some e)
  | PMsgEnd :: _ | PErrEnd :: _ => Some None
  end.

(** In channel mode the messages reach the channel in the order of the stream and none is left out, but for one that the context's end interrupts; every message received is counted. *)
Theorem pump_delivers cases s h out : counters_ok (cnt s) → let '(s', h', out', ret) := pump Channel s h out cases in
  out' = out ++ forwarded cases ∧ ret = pump_result cases ∧ h' = h ∧
  received (cnt s') = u64 (received (cnt s) + Z.of_nat (length (forwarded cases ++ dropped cases))) ∧ (length (dropped cases) ≤ 1)%nat.
Proof.
  revert s out. induction cases as [|[cm [e|]| |e| |e] cases IH]; intros s out Hok; cbn [pump forwarded dropped pump_result app length].
  - rewrite app_nil_r, Z.add_0_r, u64_id by apply Hok. repeat split; lia.
  - rewrite fire_eq, app_nil_r. cbn. repeat split; lia.
  - set (s1 := fire _ _). assert (received (cnt s1) = u64 (received (cnt s) + 1) ∧ counters_ok (cnt s1)) as [Hr Hok1].
    { unfold s1. rewrite fire_eq. cbn [cnt]. split; [done|]. destruct Hok as (?&?&?&?&?&?). pose proof u64_range. unfold counters_ok. cbn. naive_solver. }
    specialize (IH s1 (out ++ [fromSaramaConsumerMessage cm]) Hok1). destruct (pump Channel s1 h _ cases) as [[[s' h'] out'] ret]. destruct IH as (-> & -> & -> & -> & Hd).
    rewrite Hr, u64_add_l, <-app_assoc. split; [done|]. do 2 (split; [done|]). split; [f_equal; cbn; lia|done].
  - rewrite app_nil_r, Z.add_0_r, u64_id by apply Hok. repeat split; lia.
  - set (s1 := pushErr _ _). assert (received (cnt s1) = received (cnt s) ∧ counters_ok (cnt s1)) as [Hr Hok1].
    { unfold s1, pushErr. rewrite fire_eq. cbn [cnt]. split; [done|]. destruct Hok as (?&?&?&?&?&?). pose proof u64_range. unfold counters_ok. cbn. naive_solver. }
    specialize (IH s1 out Hok1). rewrite <-Hr. done.
  - rewrite app_nil_r, Z.add_0_r, u64_id by apply Hok. repeat split; lia.
  - rewrite app_nil_r, Z.add_0_r, u64_id by apply Hok. repeat split; lia.
Qed.

End pump.
Arguments delivery : clear implicits.

Lemma pump_delivers_witness : let cases := [PMsg (MkCM "t" 0 0 "" "" [] 0) None; PErr "e"; PMsg (MkCM "t" 0 1 "" "" [] 0) (Some "canceled"%string)] in
  let '(s', h', out', ret) := pump Channel New () [] cases in
  out' = forwarded cases ∧ ret = pump_result cases ∧ h' = () ∧ received (cnt s') = u64 (0 + Z.of_nat (length (forwarded cases ++ dropped cases))) ∧ (length (dropped cases) ≤ 1)%nat.
Proof.
  apply (pump_delivers [PMsg (MkCM "t" 0 0 "" "" [] 0) None; PErr "e"; PMsg (MkCM "t" 0 1 "" "" [] 0) (Some "canceled"%string)] New () []). vm_compute. repeat split; discriminate.
Defined.

(** ** Life cycle of a partition consumer *)

(** Where the one caller of [Close] that found it open is. *)
Inductive closer := CNone | COnce | CCancel | CClients | CDone.

Record life := MkLife { lClosed : bool; lOnce : bool; lMsgCh : bool; lCancelled : bool; lPumps : nat; lClientCloses : nat; lClosing : closer }.
Definition life0 : life := MkLife false false false false 0 0 CNone.

(** [Messages] in channel mode, the whole of it under the once; whether the result is a channel. *)
Definition Messages (l : life) : life * bool :=
  if lOnce l then (l, lMsgCh l) else (MkLife (lClosed l) true true (lCancelled l) (S (lPumps l)) (lClientCloses l) (lClosing l), true).

(** [Close]: the check under the lock, the once, the cancellation, the clients. *)
Definition close_enter (l : life) : life :=
  if lClosed l then l else MkLife true (lOnce l) (lMsgCh l) (lCancelled l) (lPumps l) (lClientCloses l) COnce.
Definition close_once (l : life) : life := MkLife (lClosed l) true (lMsgCh l) (lCancelled l) (lPumps l) (lClientCloses l) CCancel.
Definition close_cancel (l : life) : life := MkLife (lClosed l) (lOnce l) (lMsgCh l) (lCancelled l || lMsgCh l) (lPumps l) (lClientCloses l) CClients.
Definition close_clients (l : life) : life := MkLife (lClosed l) (lOnce l) (lMsgCh l) (lCancelled l) (lPumps l) (S (lClientCloses l)) CDone.

Inductive life_step : life → life → Prop :=
  | step_messages l : life_step l (Messages l).1
  | step_enter l : life_step l (close_enter l)
  | step_once l : lClosing l = COnce → life_step l (close_once l)
  | step_cancel l : lClosing l = CCancel → life_step l (close_cancel l)
  | step_clients l : lClosing l = CClients → life_step l (close_clients l).

Definition life_inv (l : life) : Prop :=
  lPumps l = (if lMsgCh l then 1 else 0)%nat ∧ (lMsgCh l = true → lOnce l = true) ∧ (lClosed l = false ↔ lClosing l = CNone) ∧
  match lClosing l with
  | CNone | COnce => lClientCloses l = 0%nat
  | CCancel => lOnce l = true ∧ lClientCloses l = 0%nat
  | CClients => lOnce l = true ∧ (lMsgCh l = true → lCancelled l = true) ∧ lClientCloses l = 0%nat
  | CDone => lOnce l = true ∧ (lMsgCh l = true → lCancelled l = true) ∧ lClientCloses l = 1%nat
  end.

Lemma life_step_inv l l' : life_step l l' → life_inv l → life_inv l'.
Proof.
  intros Hs (Hp & Ho & Hc & Hm). destruct Hs as [l|l|l Hl|l Hl|l Hl].
  - unfold Messages. destruct (lOnce l) eqn:He; [by unfold life_inv; cbn [fst]; rewrite He|]. assert (lMsgCh l = false) as Hch by (destruct (lMsgCh l); [by discriminate (Ho eq_refl)|done]). rewrite Hch in Hp.
    unfold life_inv. cbn. rewrite Hp. split; [done|]. split; [done|]. split; [done|]. destruct (lClosing l); naive_solver.
  - unfold close_enter. destruct (lClosed l) eqn:He; [by unfold life_inv; rewrite He|]. rewrite (proj1 Hc eq_refl) in Hm. unfold life_inv. cbn. naive_solver.
  - rewrite Hl in Hm, Hc. unfold life_inv, close_once. cbn. naive_solver.
  - rewrite Hl in Hm, Hc. unfold life_inv, close_cancel. cbn. split; [done|]. split; [done|]. split; [naive_solver|]. destruct Hm as [-> ->]. split; [done|]. split; [|done]. intros ->. by rewrite orb_true_r.
  - rewrite Hl in Hm, Hc. unfold life_inv, close_clients. cbn. destruct Hm as (-> & Hcc & ->). split; [done|]. split; [done|]. split; [naive_solver|done].
Qed.

(** Whatever calls of [Messages] and [Close] are interleaved, at most one pump is started, the clients are closed at most once, and once they are, a pump that was started is cancelled and none is started any more. *)
Theorem partition_lifecycle l : rtc life_step life0 l →
  (lPumps l ≤ 1)%nat ∧ (lClientCloses l ≤ 1)%nat ∧
  (lClientCloses l = 1%nat → (lPumps l = 1%nat → lCancelled l = true) ∧ ∀ l', rtc life_step l l' → lPumps l' = lPumps l).
Proof.
  intros Hr. assert (∀ l l', rtc life_step l l' → life_inv l → life_inv l') as Hinv by (induction 1; [done|]; eauto using life_step_inv).
  assert (life_inv l) as Hl by (apply (Hinv life0); [done|]; unfold life_inv; cbn; naive_solver). clear Hr. pose proof Hl as (Hp & Ho & Hc & Hm). split; [destruct (lMsgCh l); lia|].
  split; [destruct (lClosing l); naive_solver lia|]. intros H1. assert (lClosing l = CDone) as Hd by (destruct (lClosing l); naive_solver lia). rewrite Hd in Hm. destruct Hm as (Hon & Hcc & _).
  split; [destruct (lMsgCh l); [naive_solver|lia]|]. clear -Hon. intros l' Hr. induction Hr as [|l l1 l2 Hs _ IH]; [done|].
  assert (lOnce l1 = true ∧ lPumps l1 = lPumps l) as [Ho1 Hp1]; [|rewrite <-Hp1; by apply IH].
  destruct Hs as [l|l|l Hl|l Hl|l Hl]; cbn; try done; [unfold Messages; by rewrite Hon|unfold close_enter; by destruct (lClosed l)].
Qed.

Lemma partition_lifecycle_witness : let l := close_clients (close_cancel (close_once (Messages (close_enter life0)).1)) in
  (lPumps l ≤ 1)%nat ∧ (lClientCloses l ≤ 1)%nat ∧
  (lClientCloses l = 1%nat → (lPumps l = 1%nat → lCancelled l = true) ∧ ∀ l', rtc life_step l l' → lPumps l' = lPumps l).
Proof.
  intros l. apply (partition_lifecycle l). unfold l. repeat (eapply rtc_r; [|first [apply step_clients|apply step_cancel|apply step_once|apply step_messages|apply step_enter]; reflexivity]). apply rtc_refl.
Defined.

(** After [Close], [Messages] returns a nil channel: a loop over it never ends. *)
Example messages_after_close_nil : (Messages (close_clients (close_cancel (close_once (close_enter life0))))).2 = false.
Proof. done. Qed.
