(* ===== verification/KafkaProducer.v ===== *)
(** * KafkaProducer: options, producers and their metrics ([kafka], both backends)

    [options.go], [sarama_config.go], [kafka.go], [snapshot.go], [sarama_producer.go], [sarama_sync_producer.go] and the acks of
    [franzgo.go].  The client library takes messages and answers each with success or failure, in any order; senders, answers and
    [Close] are interleaved step by step, a sender being at one point of its loop.

    Shown: defaults leave no option unset and are idempotent ([defaults_complete]); in every interleaving nothing is pushed to a client
    that is closed, and what was handed over is exactly what was answered or is in flight, so that [InFlight] is at most the messages in
    flight and exact when no sender is between a push and its count ([producer_accounts]); a synchronous producer leaves nothing in
    flight ([sync_balanced]); the history holds the last samples, oldest first ([history_exact]).
    [batch_max_regresses], [linger_off_frequency_zero], [zero_linger_is_ten], [successes_always_on], [retries_cannot_be_off] and
    [negative_buffer_passes] show where the code differs from its comments. *)

From Stdlib Require Import ZArith Lia Bool String.
From stdpp Require Import base tactics numbers list strings relations.
From S2P Require Import Prelude RingBuffers KafkaConsumer.

#[local] Open Scope Z_scope.

(** ** Options *)

Record Options := MkOptions {
  Brokers : list string; oName : string; Version : string; oTopic : string; GroupID : string; oPartition : Z; oOffset : Z;
  ReturnSuccesses : bool; ReturnErrors : bool; ProducerTimeout : Z; RetryMax : Z; ChannelBufferSize : Z; ProducerLinger : Z; CloseFlushTimeout : Z;
  Acks : string; MaxBufferedRecords : Z; BatchMaxBytes : Z; SnapshotHistory : Z; ConsumerOffsetInitial : Z; FetchMin : Z; DeliveryMode : string }.

Definition zero_options : Options := MkOptions [] "" "" "" "" 0 0 false false 0 0 0 0 0 "" 0 0 0 0 0 "".
Definition applyOptions (opts : list (Options → Options)) : Options := fold_left (λ o f, f o) opts zero_options.

Definition second : Z := 10 ^ 9.
Definition OffsetNewest : Z := -1.
Definition OffsetOldest : Z := -2.
Definition DefaultProducerLinger : Z := 10 * 10 ^ 6.
Definition DefaultMaxBufferedRecords : Z := 1000.
Definition LingerOff : Z := -1.
Definition nameOr (name fallback : string) : string := if decide (name = EmptyString) then fallback else name.
Definition effectiveLinger (d : Z) : Z := if d =? LingerOff then 0 else d.

Definition defaultOptions : Options := MkOptions [] "" "" "" "" 0 0 true true (10 * second) 3 0 0 0 "" 0 0 0 OffsetNewest 1 "callback".
Definition consumerNeedsSuccesses (o : Options) : bool := true.

Definition withDefaults (o : Options) : Options :=
  let d := defaultOptions in
  let MaxBuffered := if MaxBufferedRecords o =? 0 then DefaultMaxBufferedRecords else MaxBufferedRecords o in
  MkOptions (Brokers o) (oName o) (Version o) (oTopic o) (GroupID o) (oPartition o) (oOffset o)
    (if negb (ReturnSuccesses o) && consumerNeedsSuccesses o then ReturnSuccesses d else ReturnSuccesses o)
    (if negb (ReturnErrors o) then ReturnErrors d else ReturnErrors o)
    (if ProducerTimeout o <=? 0 then ProducerTimeout d else ProducerTimeout o)
    (if RetryMax o <=? 0 then RetryMax d else RetryMax o)
    (if ChannelBufferSize o <=? 0 then MaxBuffered else ChannelBufferSize o)
    (if ProducerLinger o =? 0 then DefaultProducerLinger else ProducerLinger o)
    (CloseFlushTimeout o) (Acks o) MaxBuffered (BatchMaxBytes o) (SnapshotHistory o)
    (if ConsumerOffsetInitial o =? 0 then ConsumerOffsetInitial d else ConsumerOffsetInitial o)
    (if FetchMin o <=? 0 then FetchMin d else FetchMin o)
    (if decide (DeliveryMode o = EmptyString) then DeliveryMode d else DeliveryMode o).

Inductive role := RProducer | RConsumerGroup | RPartitionConsumer.
Definition validate (o : Options) (r : role) : option error :=
  match Brokers o with
  | [] => Some "kafka: brokers required"%string
  | _ =>
      match r with
      | RProducer => None
      | RConsumerGroup => if decide (GroupID o = EmptyString) then Some "kafka: group_id required for consumer group"%string else None
      | RPartitionConsumer => if decide (oTopic o = EmptyString) then Some "kafka: topic required for partition consumer"%string else None
      end
  end.

Inductive required := WaitForLocal | WaitForAll | NoResponse.
Definition saramaAcks (a : string) : required :=
  if decide (a = "all"%string) then WaitForAll else if decide (a = "none"%string) then NoResponse else WaitForLocal.
Definition kgoAcks (a : string) : required :=
  if decide (a = "all"%string) then WaitForAll else if decide (a = "none"%string) then NoResponse else WaitForLocal.
Definition kgoNeedsIdempotencyDisabled (a : string) : bool := bool_decide (a ≠ "all"%string).
Definition mapOffsetInitial (o : Z) : Z := if o =? OffsetNewest then -1 else if o =? OffsetOldest then -2 else o.

(** The configuration handed to sarama; [parse] is its version parser, [base] the configuration it starts from. *)
Record Config := MkConfig {
  cVersion : string; cReturnSuccesses : bool; cReturnErrors : bool; cAcks : required; cTimeout : Z; cRetryMax : Z; cChannelBufferSize : Z;
  cFlushFrequency : Z; cFlushMessages : Z; cFlushBytes : Z; cConsumerReturnErrors : bool; cFetchMin : Z; cOffsetsInitial : Z }.
Definition buildSaramaConfig (parse : string → error + string) (defaultVersion : string) (base_flush_bytes : Z) (o : Options) (sync : bool) : error + Config :=
  match (if decide (Version o = EmptyString) then inr defaultVersion else parse (Version o)) with
  | inl e => inl e
  | inr ver => inr (MkConfig ver (ReturnSuccesses o) (ReturnErrors o) (saramaAcks (Acks o)) (ProducerTimeout o)
      (if RetryMax o <? 0 then 0 else RetryMax o) (ChannelBufferSize o)
      (if sync then 0 else effectiveLinger (ProducerLinger o)) (if sync then 0 else MaxBufferedRecords o)
      (if sync then 0 else if 0 <? BatchMaxBytes o then BatchMaxBytes o else base_flush_bytes)
      (ReturnErrors o) (FetchMin o) (mapOffsetInitial (ConsumerOffsetInitial o)))
  end.

Lemma pos_default a d : 0 < d → let x := if a <=? 0 then d else a in 0 < x ∧ (if x <=? 0 then d else x) = x.
Proof. intros Hd x. unfold x. destruct (Z.leb_spec a 0); (split; [lia|]); by rewrite (proj2 (Z.leb_gt _ _)) by lia. Qed.
Lemma nz_default a d : d ≠ 0 → let x := if a =? 0 then d else a in x ≠ 0 ∧ (if x =? 0 then d else x) = x.
Proof. intros Hd x. unfold x. destruct (Z.eqb_spec a 0); (split; [lia|]); by rewrite (proj2 (Z.eqb_neq _ _)) by lia. Qed.
Lemma buffer_default a m : let x := if a <=? 0 then m else a in (0 < m → 0 < x) ∧ (if x <=? 0 then m else x) = x.
Proof. intros x. unfold x. destruct (Z.leb_spec a 0); (split; [lia|]); [by destruct (m <=? 0)|]; by rewrite (proj2 (Z.leb_gt _ _)) by lia. Qed.
Lemma string_default (a d : string) : d ≠ EmptyString → let x := if decide (a = EmptyString) then d else a in x ≠ EmptyString ∧ (if decide (x = EmptyString) then d else x) = x.
Proof. intros Hd x. unfold x. destruct (decide (a = EmptyString)); (split; [done|]); by rewrite decide_False. Qed.

(** After the defaults no option that has one is left unset, errors and successes are on, and applying them again changes nothing. *)
Theorem defaults_complete o : let d := withDefaults o in
  withDefaults d = d ∧ 0 < ProducerTimeout d ∧ 0 < RetryMax d ∧ ProducerLinger d ≠ 0 ∧ MaxBufferedRecords d ≠ 0 ∧ 0 < FetchMin d ∧
  ConsumerOffsetInitial d ≠ 0 ∧ DeliveryMode d ≠ EmptyString ∧ ReturnErrors d = true ∧ ReturnSuccesses d = true ∧
  (0 < MaxBufferedRecords d → 0 < ChannelBufferSize d) ∧ ∀ r, validate d r = validate o r.
Proof.
  pose proof (pos_default (ProducerTimeout o) (10 * second) ltac:(done)) as [Ht Ht']. pose proof (pos_default (RetryMax o) 3 ltac:(done)) as [Hr Hr']. pose proof (pos_default (FetchMin o) 1 ltac:(done)) as [Hf Hf'].
  pose proof (nz_default (ProducerLinger o) DefaultProducerLinger ltac:(done)) as [Hl Hl']. pose proof (nz_default (MaxBufferedRecords o) DefaultMaxBufferedRecords ltac:(done)) as [Hm Hm'].
  pose proof (nz_default (ConsumerOffsetInitial o) OffsetNewest ltac:(done)) as [Hc Hc']. pose proof (string_default (DeliveryMode o) "callback" ltac:(done)) as [Hd Hd'].
  set (mb := if MaxBufferedRecords o =? 0 then _ else _) in *. pose proof (buffer_default (ChannelBufferSize o) mb) as [Hb Hb'].
  assert (∀ b : bool, (if negb b && true then true else b) = true ∧ (if negb b then true else b) = true) as Hbool by (by intros []).
  intros d. split.
  { unfold d, withDefaults, consumerNeedsSuccesses. cbn [Brokers oName Version oTopic GroupID oPartition oOffset ReturnSuccesses ReturnErrors ProducerTimeout RetryMax ChannelBufferSize ProducerLinger CloseFlushTimeout Acks
      MaxBufferedRecords BatchMaxBytes SnapshotHistory ConsumerOffsetInitial FetchMin DeliveryMode defaultOptions]. fold mb. cbv zeta in *. rewrite Hm', Ht', Hr', Hf', Hl', Hc', Hd', Hb'. f_equal; [by destruct (ReturnSuccesses o)|by destruct (ReturnErrors o)]. }
  unfold d, withDefaults, consumerNeedsSuccesses. cbn. fold mb. split_and!; try done; apply Hbool.
Qed.

(** Both backends ask the broker for the same acknowledgements, and franz-go keeps its idempotent producer only where it may. *)
Theorem acks_agree a : saramaAcks a = kgoAcks a ∧ (kgoNeedsIdempotencyDisabled a = false ↔ kgoAcks a = WaitForAll).
Proof.
  split; [done|]. unfold kgoNeedsIdempotencyDisabled, kgoAcks. destruct (decide (a = "all"%string)) as [->|Ha]; [done|]. rewrite bool_decide_eq_false. split; [tauto|]. by destruct (decide _).
Qed.

Definition opts (f : Options → Options) : Options := withDefaults (applyOptions [f]).
Definition set_linger (d : Z) (o : Options) : Options :=
  MkOptions (Brokers o) (oName o) (Version o) (oTopic o) (GroupID o) (oPartition o) (oOffset o) (ReturnSuccesses o) (ReturnErrors o) (ProducerTimeout o) (RetryMax o) (ChannelBufferSize o) d
    (CloseFlushTimeout o) (Acks o) (MaxBufferedRecords o) (BatchMaxBytes o) (SnapshotHistory o) (ConsumerOffsetInitial o) (FetchMin o) (DeliveryMode o).
Definition set_max_buffered (n : Z) (o : Options) : Options :=
  MkOptions (Brokers o) (oName o) (Version o) (oTopic o) (GroupID o) (oPartition o) (oOffset o) (ReturnSuccesses o) (ReturnErrors o) (ProducerTimeout o) (RetryMax o) (ChannelBufferSize o) (ProducerLinger o)
    (CloseFlushTimeout o) (Acks o) n (BatchMaxBytes o) (SnapshotHistory o) (ConsumerOffsetInitial o) (FetchMin o) (DeliveryMode o).

(** A linger of 0, documented as off where it is set, is 10ms; [LingerOff] sets a frequency of 0 together with a message count. *)
Example zero_linger_is_ten : effectiveLinger (ProducerLinger (opts (set_linger 0))) = 10 * 10 ^ 6.
Proof. done. Qed.
Example linger_off_frequency_zero parse v b : ∃ c, buildSaramaConfig parse v b (opts (set_linger LingerOff)) false = inr c ∧ cFlushFrequency c = 0 ∧ cFlushMessages c = 1000.
Proof. eexists. split; [done|]. done. Qed.
(** Neither the successes nor the retries can be turned off. *)
Example successes_always_on o : ReturnSuccesses (withDefaults o) = true.
Proof. unfold withDefaults. cbn. by destruct (ReturnSuccesses o). Qed.
Example retries_cannot_be_off o : RetryMax (withDefaults o) ≠ 0.
Proof. unfold withDefaults. cbn. destruct (Z.leb_spec (RetryMax o) 0); lia. Qed.
(** A negative cap becomes a negative channel size. *)
Example negative_buffer_passes : ChannelBufferSize (opts (set_max_buffered (-5))) = -5.
Proof. done. Qed.

(** ** The asynchronous producer *)

Record ProducerMessage := MkPM { pTopic : string; pKey : option string; pValue : option string; pHeaders : list (string * string) }.
Definition nonempty (s : string) : option string := if decide (s = EmptyString) then None else Some s.
Definition toSaramaProducerMessage (msg : Message) (defTopic : string) : ProducerMessage :=
  MkPM (if decide (Topic msg = EmptyString) then defTopic else Topic msg) (nonempty (Key msg)) (nonempty (Value msg)) ((λ h, (HKey h, HValue h)) <$> Headers msg).
Definition encLen (v : option string) : Z := match v with None => 0 | Some s => Z.of_nat (String.length s) end.
Definition msg_len (m : Message) : Z := Z.of_nat (String.length (Value m)).

Lemma encLen_value m t : encLen (pValue (toSaramaProducerMessage m t)) = msg_len m.
Proof. cbn. unfold nonempty, msg_len. by destruct (decide (Value m = EmptyString)) as [->|]. Qed.

Definition ComputeInFlight (enqueued success failed : Z) : Z :=
  if enqueued <? u64 (success + failed) then 0 else u64 (enqueued - success - failed).
Definition ComputeBufferedBytes (bytesEnqueued bytesAcked bytesFailed : Z) : Z :=
  let resolved := u64 (bytesAcked + bytesFailed) in if bytesEnqueued <? resolved then 0 else u64 (bytesEnqueued - resolved).

(** A sender, under the read lock: at the test or the store of the loop that raises [batchMax], at the push of the next message, or between a push and its count. *)
Inductive sender := SLoad (n : Z) (ms : list Message) | SStore (n : Z) (ms : list Message) | SPush (ms : list Message) | SCount (m : Message) (ms : list Message).

Record producer := MkProducer {
  enqueued : Z; success : Z; pfailed : Z; pbytes : Z; batchCount : Z; batchMax : Z; bytesEnqueued : Z; bytesFailed : Z;
  closed : bool; clientClosed : bool; panicked : bool; senders : list sender; inflight : list ProducerMessage }.
Definition producer0 : producer := MkProducer 0 0 0 0 0 0 0 0 false false false [] [].

Definition with_senders (ss : list sender) (p : producer) : producer :=
  MkProducer (enqueued p) (success p) (pfailed p) (pbytes p) (batchCount p) (batchMax p) (bytesEnqueued p) (bytesFailed p) (closed p) (clientClosed p) (panicked p) ss (inflight p).

(** [Send] and [SendBatch] up to their loops. *)
Definition Send (m : Message) (p : producer) : producer := if closed p then p else with_senders (senders p ++ [SPush [m]]) p.
Definition SendBatch (ms : list Message) (p : producer) : producer :=
  if closed p then p else
    MkProducer (enqueued p) (success p) (pfailed p) (pbytes p) (u64 (batchCount p + 1)) (batchMax p) (bytesEnqueued p) (bytesFailed p) (closed p) (clientClosed p) (panicked p)
      (senders p ++ [SLoad (Z.of_nat (length ms)) ms]) (inflight p).

(** A push on [Input()]: a panic when the client has been closed. *)
Definition push (topic : string) (m : Message) (p : producer) : producer :=
  MkProducer (enqueued p) (success p) (pfailed p) (pbytes p) (batchCount p) (batchMax p) (bytesEnqueued p) (bytesFailed p) (closed p) (clientClosed p) (panicked p || clientClosed p)
    (senders p) (inflight p ++ [toSaramaProducerMessage m topic]).
Definition count_push (m : Message) (p : producer) : producer :=
  MkProducer (u64 (enqueued p + 1)) (success p) (pfailed p) (pbytes p) (batchCount p) (batchMax p) (u64 (bytesEnqueued p + msg_len m)) (bytesFailed p) (closed p) (clientClosed p) (panicked p) (senders p) (inflight p).
Definition store_max (n : Z) (p : producer) : producer :=
  MkProducer (enqueued p) (success p) (pfailed p) (pbytes p) (batchCount p) n (bytesEnqueued p) (bytesFailed p) (closed p) (clientClosed p) (panicked p) (senders p) (inflight p).

(** The next step of sender [i]. *)
Definition sender_step (topic : string) (i : nat) (p : producer) : producer :=
  match senders p !! i with
  | None => p
  | Some (SLoad n ms) => with_senders (<[i := if batchMax p <? n then SStore n ms else SPush ms]> (senders p)) p
  | Some (SStore n ms) => store_max n (with_senders (<[i := SLoad n ms]> (senders p)) p)
  | Some (SPush []) => with_senders (delete i (senders p)) p
  | Some (SPush (m :: ms)) => push topic m (with_senders (<[i := SCount m ms]> (senders p)) p)
  | Some (SCount m ms) => count_push m (with_senders (<[i := SPush ms]> (senders p)) p)
  end.
(** The context is done at a push. *)
Definition sender_cancel (i : nat) (p : producer) : producer :=
  match senders p !! i with Some (SPush (_ :: _)) => with_senders (delete i (senders p)) p | _ => p end.

(** The drains of [Successes()] and [Errors()]: the client answers a message in flight. *)
Definition on_success (k : nat) (p : producer) : producer :=
  match inflight p !! k with
  | None => p
  | Some pm => MkProducer (enqueued p) (u64 (success p + 1)) (pfailed p) (u64 (pbytes p + encLen (pValue pm))) (batchCount p) (batchMax p) (bytesEnqueued p) (bytesFailed p)
      (closed p) (clientClosed p) (panicked p) (senders p) (delete k (inflight p))
  end.
Definition on_error (k : nat) (p : producer) : producer :=
  match inflight p !! k with
  | None => p
  | Some pm => MkProducer (enqueued p) (success p) (u64 (pfailed p + 1)) (pbytes p) (batchCount p) (batchMax p) (bytesEnqueued p) (u64 (bytesFailed p + encLen (pValue pm)))
      (closed p) (clientClosed p) (panicked p) (senders p) (delete k (inflight p))
  end.

(** [Close]: the write lock, granted when no sender holds the read lock; then, outside it, the client. *)
Definition close_lock (p : producer) : producer :=
  match senders p with
  | [] => MkProducer (enqueued p) (success p) (pfailed p) (pbytes p) (batchCount p) (batchMax p) (bytesEnqueued p) (bytesFailed p) true (clientClosed p) (panicked p) [] (inflight p)
  | _ => p
  end.
Definition close_client (p : producer) : producer :=
  if closed p then MkProducer (enqueued p) (success p) (pfailed p) (pbytes p) (batchCount p) (batchMax p) (bytesEnqueued p) (bytesFailed p) true true (panicked p) (senders p) (inflight p) else p.

Inductive action := ASend (m : Message) | ABatch (ms : list Message) | AStep (i : nat) | ACancel (i : nat) | ASuccess (k : nat) | AError (k : nat) | ACloseLock | ACloseClient.
Definition act (topic : string) (p : producer) (a : action) : producer :=
  match a with
  | ASend m => Send m p | ABatch ms => SendBatch ms p | AStep i => sender_step topic i p | ACancel i => sender_cancel i p
  | ASuccess k => on_success k p | AError k => on_error k p | ACloseLock => close_lock p | ACloseClient => close_client p
  end.
Definition run (topic : string) (acts : list action) : producer := fold_left (act topic) acts producer0.

Record ProducerMetrics := MkMetrics { Enqueued : Z; Success : Z; Failed : Z; Bytes : Z; BytesFailed : Z; BytesEnqueued : Z; BatchCount : Z; BatchMax : Z; InFlight : Z; BufferedBytes : Z }.
Definition Metrics (p : producer) : ProducerMetrics :=
  MkMetrics (enqueued p) (success p) (pfailed p) (pbytes p) (bytesFailed p) (bytesEnqueued p) (batchCount p) (batchMax p)
    (ComputeInFlight (enqueued p) (success p) (pfailed p)) (ComputeBufferedBytes (bytesEnqueued p) (pbytes p) (bytesFailed p)).

(** Pushed and not yet counted. *)
Definition uncounted (s : sender) : Z := match s with SCount _ _ => 1 | _ => 0 end.
Definition uncounted_bytes (s : sender) : Z := match s with SCount m _ => msg_len m | _ => 0 end.
Definition pending (p : producer) : Z := zsum (uncounted <$> senders p).
Definition pending_bytes (p : producer) : Z := zsum (uncounted_bytes <$> senders p).
Definition inflight_bytes (p : producer) : Z := zsum ((encLen ∘ pValue) <$> inflight p).

Lemma zsum_delete_at {A} (f : A → Z) (l : list A) i x : l !! i = Some x → zsum (f <$> delete i l) = zsum (f <$> l) - f x.
Proof. revert i. induction l as [|y l IH]; intros [|i] Hi; cbn in Hi; [done|done|injection Hi as ->; change (delete 0%nat (x :: l)) with l; rewrite fmap_cons; cbn [zsum]; lia|]. change (delete (S i) (y :: l)) with (y :: delete i l). rewrite !fmap_cons. cbn [zsum]. rewrite (IH i Hi). lia. Qed.
Lemma zsum_insert_at {A} (f : A → Z) (l : list A) i x y : l !! i = Some x → zsum (f <$> <[i := y]> l) = zsum (f <$> l) - f x + f y.
Proof. revert i. induction l as [|z l IH]; intros [|i] Hi; cbn in Hi; [done|done|injection Hi as ->; cbn; lia|]. change (<[S i := y]> (z :: l)) with (z :: <[i := y]> l). rewrite !fmap_cons. cbn [zsum]. rewrite (IH i Hi). lia. Qed.

(** After [n] actions. *)
Definition producer_inv (n : Z) (p : producer) : Prop :=
  0 ≤ enqueued p ≤ n ∧ 0 ≤ success p ∧ 0 ≤ pfailed p ∧ success p + pfailed p ≤ n ∧
  enqueued p + pending p = success p + pfailed p + Z.of_nat (length (inflight p)) ∧
  u64 (bytesEnqueued p + pending_bytes p) = u64 (pbytes p + bytesFailed p + inflight_bytes p) ∧
  (closed p = true → senders p = []) ∧ (clientClosed p = true → closed p = true) ∧ panicked p = false.

Lemma u64_shift a b c a' b' : u64 a = u64 b → a' = a + c → b' = b + c → u64 a' = u64 b'.
Proof. intros Heq -> ->. rewrite <-(u64_add_l a), <-(u64_add_l b). by rewrite Heq. Qed.

Lemma uncounted_nonneg p : 0 ≤ pending p.
Proof. apply zsum_Forall_nonneg. apply Forall_fmap, Forall_forall. intros [] _; cbn; lia. Qed.

(** A change of one sender that neither pushes nor counts. *)
Lemma senders_inv n p ss : producer_inv n p → zsum (uncounted <$> ss) = pending p → zsum (uncounted_bytes <$> ss) = pending_bytes p → (closed p = true → ss = []) →
  producer_inv (n + 1) (with_senders ss p).
Proof.
  intros (?&?&?&?&Hb&Hbb&?&?&?) Hp Hpb Hc. unfold producer_inv, with_senders, pending, pending_bytes, inflight_bytes. cbn. rewrite Hp, Hpb. split_and!; try done; lia.
Qed.

Lemma producer_inv_mono n p : producer_inv n p → producer_inv (n + 1) p.
Proof. intros (?&?&?&?&?&?&?&?&?). unfold producer_inv. split_and!; try done; lia. Qed.

Lemma answered_lookup p k pm : inflight p !! k = Some pm → Z.of_nat (length (delete k (inflight p))) = Z.of_nat (length (inflight p)) - 1 ∧
  zsum ((encLen ∘ pValue) <$> delete k (inflight p)) = inflight_bytes p - encLen (pValue pm).
Proof. intros Hk. rewrite (zsum_delete_at _ _ _ _ Hk). split; [|done]. rewrite length_delete by eauto. pose proof (lookup_lt_Some _ _ _ Hk). lia. Qed.

Lemma sender_step_inv topic n p i : n + 1 ≤ max_u64 → producer_inv n p → producer_inv (n + 1) (sender_step topic i p).
Proof.
  intros Hn Hinv. unfold sender_step. destruct (senders p !! i) as [s|] eqn:Hs; [|by apply producer_inv_mono]. pose proof Hinv as (Hen & Hsu & Hfa & Hsf & Hbal & Hbb & Hcl & Hcc & Hpa).
  assert (closed p = false) as Hopen by (destruct (closed p); [rewrite Hcl in Hs by done; done|done]).
  pose proof (λ y, zsum_insert_at uncounted (senders p) i s y Hs) as Hu. pose proof (λ y, zsum_insert_at uncounted_bytes (senders p) i s y Hs) as Hub. fold (pending p) in Hu. fold (pending_bytes p) in Hub.
  destruct s as [k ms|k ms|[|m ms]|m ms].
  - apply senders_inv; [done|rewrite Hu|rewrite Hub|by rewrite Hopen]; destruct (batchMax p <? k); cbn; lia.
  - assert (producer_inv (n + 1) (with_senders (<[i := SLoad k ms]> (senders p)) p)) as Hi by (apply senders_inv; [done|rewrite Hu|rewrite Hub|by rewrite Hopen]; cbn; lia). exact Hi.
  - apply senders_inv; [done|rewrite (zsum_delete_at _ _ _ _ Hs)|rewrite (zsum_delete_at _ _ _ _ Hs)|by rewrite Hopen]; cbn; unfold pending, pending_bytes; lia.
  - assert (clientClosed p = false) as Hcc' by (destruct (clientClosed p); [rewrite Hcc in Hopen by done; done|done]). unfold producer_inv, push, pending, pending_bytes, inflight_bytes. cbn [with_senders enqueued success pfailed inflight senders bytesEnqueued pbytes bytesFailed closed clientClosed panicked].
    rewrite Hu, Hub, Hopen, Hcc', Hpa, fmap_app, zsum_app, length_app. cbn [uncounted uncounted_bytes length fmap list_fmap zsum]. split_and!; try done; try lia.
    eapply (u64_shift _ _ (msg_len m)); [exact Hbb|lia|]. unfold compose. rewrite encLen_value. unfold inflight_bytes, compose. lia.
  - unfold producer_inv, count_push, pending, pending_bytes, inflight_bytes. cbn [with_senders enqueued success pfailed inflight senders bytesEnqueued pbytes bytesFailed closed clientClosed panicked].
    rewrite Hu, Hub, u64_add_l, u64_id by lia. cbn [uncounted uncounted_bytes]. split_and!; try done; try lia; [|by rewrite Hopen].
    replace (bytesEnqueued p + msg_len m + _) with (bytesEnqueued p + pending_bytes p) by lia. exact Hbb.
Qed.

Lemma act_inv topic n p a : n + 1 ≤ max_u64 → producer_inv n p → producer_inv (n + 1) (act topic p a).
Proof.
  intros Hn Hinv. pose proof Hinv as (Hen & Hsu & Hfa & Hsf & Hbal & Hbb & Hcl & Hcc & Hpa). destruct a as [m|ms|i|i|k|k| |]; cbn [act].
  - unfold Send. destruct (closed p) eqn:Hopen; [by apply producer_inv_mono|]. apply senders_inv; [done|..|by rewrite Hopen]; rewrite fmap_app, zsum_app; cbn; unfold pending, pending_bytes; lia.
  - unfold SendBatch. destruct (closed p) eqn:Hopen; [by apply producer_inv_mono|].
    assert (producer_inv (n + 1) (with_senders (senders p ++ [SLoad (Z.of_nat (length ms)) ms]) p)) as Hi; [apply senders_inv; [done|..|by rewrite Hopen]; rewrite fmap_app, zsum_app; cbn; unfold pending, pending_bytes; lia|].
    rewrite <-Hopen. exact Hi.
  - by apply sender_step_inv.
  - unfold sender_cancel. destruct (senders p !! i) as [[| |[|m ms]|]|] eqn:Hs; try by apply producer_inv_mono.
    assert (closed p = false) as Hopen by (destruct (closed p); [rewrite Hcl in Hs by done; done|done]).
    apply senders_inv; [done|rewrite (zsum_delete_at _ _ _ _ Hs)|rewrite (zsum_delete_at _ _ _ _ Hs)|by rewrite Hopen]; cbn; unfold pending, pending_bytes; lia.
  - unfold on_success. destruct (inflight p !! k) as [pm|] eqn:Hk; [|by apply producer_inv_mono]. destruct (answered_lookup p k pm Hk) as [Hl Hb].
    unfold producer_inv, pending, pending_bytes, inflight_bytes. cbn. rewrite Hb, Hl, u64_id by lia. split_and!; try done; try (unfold pending in *; lia).
    rewrite <-(Z.add_assoc (u64 (pbytes p + encLen (pValue pm)))), u64_add_l. unfold pending_bytes in Hbb. rewrite Hbb. f_equal. lia.
  - unfold on_error. destruct (inflight p !! k) as [pm|] eqn:Hk; [|by apply producer_inv_mono]. destruct (answered_lookup p k pm Hk) as [Hl Hb].
    unfold producer_inv, pending, pending_bytes, inflight_bytes. cbn. rewrite Hb, Hl, u64_id by lia. split_and!; try done; try (unfold pending in *; lia).
    rewrite (Z.add_comm (pbytes p) (u64 _)), <-(Z.add_assoc (u64 _)), u64_add_l. unfold pending_bytes in Hbb. rewrite Hbb. f_equal. lia.
  - unfold close_lock. destruct (senders p) eqn:Hs; [|by apply producer_inv_mono]. unfold producer_inv, pending, pending_bytes, inflight_bytes in *. rewrite Hs in *. cbn in *. split_and!; try done; lia.
  - unfold close_client. destruct (closed p) eqn:Hopen; [|by apply producer_inv_mono]. unfold producer_inv, pending, pending_bytes, inflight_bytes in *. cbn. split_and!; try done; lia.
Qed.

Lemma producer_run_inv topic acts : Z.of_nat (length acts) ≤ max_u64 → producer_inv (Z.of_nat (length acts)) (run topic acts).
Proof.
  induction acts as [|a acts IH] using rev_ind; intros Hlen; [split_and!; done|]. rewrite length_app in *. cbn [length] in *. unfold run. rewrite fold_left_app. cbn [fold_left].
  replace (Z.of_nat (length acts + 1)) with (Z.of_nat (length acts) + 1) by lia. apply act_inv; [lia|]. apply IH. lia.
Qed.

(** C28: Whatever sends, batches, cancellations, answers and closes are interleaved, nothing is pushed to a closed client, the messages counted or about to be are those answered or in flight, byte for byte, and [InFlight] is the number in flight less those not yet counted, or 0. *)
Theorem producer_accounts topic acts : Z.of_nat (length acts) ≤ max_u64 → let p := run topic acts in
  panicked p = false ∧ enqueued p + pending p = success p + pfailed p + Z.of_nat (length (inflight p)) ∧
  u64 (bytesEnqueued p + pending_bytes p) = u64 (pbytes p + bytesFailed p + inflight_bytes p) ∧
  InFlight (Metrics p) = Z.max 0 (Z.of_nat (length (inflight p)) - pending p) ∧
  (senders p = [] → inflight p = [] → InFlight (Metrics p) = 0).
Proof.
  intros Hlen p. destruct (producer_run_inv topic acts Hlen) as (Hen & Hsu & Hfa & Hsf & Hbal & Hbb & _ & _ & Hpa). fold p in Hen, Hsu, Hfa, Hsf, Hbal, Hbb, Hpa. split; [done|]. split; [done|]. split; [done|].
  assert (InFlight (Metrics p) = Z.max 0 (Z.of_nat (length (inflight p)) - pending p)) as Hif.
  { cbn. unfold ComputeInFlight. rewrite (u64_id (success p + pfailed p)) by lia. destruct (Z.ltb_spec (enqueued p) (success p + pfailed p)); [lia|]. rewrite u64_id by lia. lia. }
  split; [done|]. intros Hs Hi. rewrite Hif, Hi. cbn. pose proof (uncounted_nonneg p). lia.
Qed.

Definition hello : Message := MkMessage "" 0 0 "" "hello" [] 0.
Lemma producer_accounts_witness : let p := run "t" [ABatch [hello; hello]; AStep 0; AStep 0; AStep 0; AStep 0; ASuccess 0] in
  panicked p = false ∧ enqueued p + pending p = success p + pfailed p + Z.of_nat (length (inflight p)) ∧
  u64 (bytesEnqueued p + pending_bytes p) = u64 (pbytes p + bytesFailed p + inflight_bytes p) ∧
  InFlight (Metrics p) = Z.max 0 (Z.of_nat (length (inflight p)) - pending p) ∧ (senders p = [] → inflight p = [] → InFlight (Metrics p) = 0).
Proof. apply (producer_accounts "t" [ABatch [hello; hello]; AStep 0; AStep 0; AStep 0; AStep 0; ASuccess 0]). vm_compute. discriminate. Defined.

(** Two batches at once: the larger is stored first and then overwritten, [batchMax] ends as the smaller. *)
Example batch_max_regresses : batchMax (run "t" [ABatch [hello]; ABatch [hello; hello]; AStep 0; AStep 1; AStep 1; AStep 1; AStep 0]) = 1.
Proof. done. Qed.

(** ** Synchronous producers *)

Record sync_producer := MkSync { sEnqueued : Z; sSuccess : Z; sFailed : Z; sBytes : Z; sBytesFailed : Z; sClosed : bool }.
Definition sync0 : sync_producer := MkSync 0 0 0 0 0 false.
Definition ErrProducerClosed : error := "kafka: client closed".

(** [saramaSyncProducer.Send]: the client's answer is a partition and an offset, or an error. *)
Definition sync_Send (answer : (Z * Z) + error) (m : Message) (p : sync_producer) : sync_producer * ((Z * Z) + error) :=
  if sClosed p then (p, inr ErrProducerClosed)
  else
    let p := MkSync (u64 (sEnqueued p + 1)) (sSuccess p) (sFailed p) (sBytes p) (sBytesFailed p) (sClosed p) in
    match answer with
    | inr e => (MkSync (sEnqueued p) (sSuccess p) (u64 (sFailed p + 1)) (sBytes p) (sBytesFailed p) (sClosed p), inr e)
    | inl at_ => (MkSync (sEnqueued p) (u64 (sSuccess p + 1)) (sFailed p) (u64 (sBytes p + msg_len m)) (sBytesFailed p) (sClosed p), inl at_)
    end.

(** [saramaSyncProducer.SendBatch]: one answer for the batch; an error counts every message as failed. *)
Definition sync_SendBatch (answer : option error) (ms : list Message) (p : sync_producer) : sync_producer * option error :=
  if sClosed p then (p, Some ErrProducerClosed)
  else
    let n := Z.of_nat (length ms) in
    let p := MkSync (u64 (sEnqueued p + n)) (sSuccess p) (sFailed p) (sBytes p) (sBytesFailed p) (sClosed p) in
    match answer with
    | Some e => (MkSync (sEnqueued p) (sSuccess p) (u64 (sFailed p + n)) (sBytes p) (sBytesFailed p) (sClosed p), Some e)
    | None => (MkSync (sEnqueued p) (u64 (sSuccess p + n)) (sFailed p) (u64 (sBytes p + u64 (zsum (msg_len <$> ms)))) (sBytesFailed p) (sClosed p), None)
    end.

(** The result loop of [franzSyncProducer.SendBatch]: an answer per message, the first error is returned. *)
Definition result_step (st : sync_producer * option error) (r : option error * Message) : sync_producer * option error :=
  let '(p, firstErr) := st in
  match r.1 with
  | Some e => (MkSync (sEnqueued p) (sSuccess p) (u64 (sFailed p + 1)) (sBytes p) (u64 (sBytesFailed p + msg_len r.2)) (sClosed p), match firstErr with None => Some e | _ => firstErr end)
  | None => (MkSync (sEnqueued p) (u64 (sSuccess p + 1)) (sFailed p) (u64 (sBytes p + msg_len r.2)) (sBytesFailed p) (sClosed p), firstErr)
  end.
Definition franz_sync_SendBatch (answers : list (option error)) (ms : list Message) (p : sync_producer) : sync_producer * option error :=
  if sClosed p then (p, Some ErrProducerClosed)
  else
    let p := MkSync (u64 (sEnqueued p + Z.of_nat (length ms))) (sSuccess p) (sFailed p) (sBytes p) (sBytesFailed p) (sClosed p) in
    fold_left result_step (zip answers ms) (p, None).
Definition sync_Close (p : sync_producer) : sync_producer := MkSync (sEnqueued p) (sSuccess p) (sFailed p) (sBytes p) (sBytesFailed p) true.

Inductive sync_call := CSend (answer : (Z * Z) + error) (m : Message) | CBatch (answer : option error) (ms : list Message) | CFranzBatch (answers : list (option error)) (ms : list Message) | CClose.
Definition sync_act (p : sync_producer) (c : sync_call) : sync_producer :=
  match c with
  | CSend a m => (sync_Send a m p).1 | CBatch a ms => (sync_SendBatch a ms p).1
  | CFranzBatch a ms => if (length a =? length ms)%nat then (franz_sync_SendBatch a ms p).1 else p
  | CClose => sync_Close p
  end.
Definition sync_run (cs : list sync_call) : sync_producer := fold_left sync_act cs sync0.
Definition sync_InFlight (p : sync_producer) : Z := ComputeInFlight (sEnqueued p) (sSuccess p) (sFailed p).

Definition sync_inv (p : sync_producer) : Prop := u64 (sEnqueued p) = u64 (sSuccess p + sFailed p) ∧ 0 ≤ sEnqueued p ≤ max_u64.

Lemma sync_enqueue n e s f : u64 e = u64 (s + f) → u64 (u64 (e + n)) = u64 (u64 (s + n) + f) ∧ u64 (u64 (e + n)) = u64 (s + u64 (f + n)).
Proof.
  intros He. assert (u64 (u64 (e + n)) = u64 (e + n)) as -> by apply Zmod_mod. rewrite u64_add_l, u64_add_r.
  split; (eapply (u64_shift _ _ n); [exact He|done|lia]).
Qed.

Lemma results_spec rs : ∀ p err, let p' := (fold_left result_step rs (p, err)).1 in
  sEnqueued p' = sEnqueued p ∧ u64 (sSuccess p' + sFailed p') = u64 (sSuccess p + sFailed p + Z.of_nat (length rs)) ∧ sClosed p' = sClosed p.
Proof.
  induction rs as [|[[e|] m] rs IH]; intros p err; cbn [fold_left length]; [cbn; rewrite Z.add_0_r; done|..].
  all: cbn [result_step fst snd]; edestruct IH as (-> & -> & ->); cbn; (split; [done|]); (split; [|done]).
  - rewrite (Z.add_comm (sSuccess p) (u64 _)), <-(Z.add_assoc (u64 _)), u64_add_l. f_equal. lia.
  - rewrite <-(Z.add_assoc (u64 _)), u64_add_l. f_equal. lia.
Qed.

Lemma sync_act_inv p c : sync_inv p → sync_inv (sync_act p c).
Proof.
  intros [Hb Hr]. pose proof u64_range. destruct c as [[at_|e] m|[e|] ms|answers ms|]; cbn [sync_act]; try done.
  - unfold sync_Send. destruct (sClosed p); [done|]. destruct (sync_enqueue 1 _ _ _ Hb). unfold sync_inv. cbn. auto.
  - unfold sync_Send. destruct (sClosed p); [done|]. destruct (sync_enqueue 1 _ _ _ Hb). unfold sync_inv. cbn. auto.
  - unfold sync_SendBatch. destruct (sClosed p); [done|]. destruct (sync_enqueue (Z.of_nat (length ms)) _ _ _ Hb). unfold sync_inv. cbn. auto.
  - unfold sync_SendBatch. destruct (sClosed p); [done|]. destruct (sync_enqueue (Z.of_nat (length ms)) _ _ _ Hb). unfold sync_inv. cbn. auto.
  - destruct (Nat.eqb_spec (length answers) (length ms)) as [Hlen|]; [|done]. unfold franz_sync_SendBatch. destruct (sClosed p); [done|].
    destruct (results_spec (zip answers ms) (MkSync (u64 (sEnqueued p + Z.of_nat (length ms))) (sSuccess p) (sFailed p) (sBytes p) (sBytesFailed p) false) None) as (He & Hs & _).
    unfold sync_inv. rewrite He, Hs, length_zip_with, Hlen, Nat.min_id. cbn. split; [|done]. destruct (sync_enqueue (Z.of_nat (length ms)) _ _ _ Hb) as [H1 _]. rewrite H1, <-Z.add_assoc.
    rewrite u64_add_l. f_equal. lia.
Qed.

(** After every call of a synchronous producer, of either backend and whatever the answers, every message handed over is counted as a success or a failure; none is in flight. *)
Theorem sync_balanced cs : sync_InFlight (sync_run cs) = 0.
Proof.
  assert (sync_inv (sync_run cs)) as [Hb Hr].
  { induction cs as [|c cs IH] using rev_ind; [done|]. unfold sync_run. rewrite fold_left_app. by apply sync_act_inv. }
  unfold sync_InFlight, ComputeInFlight. rewrite <-Hb, u64_id by done. destruct (Z.ltb_spec (sEnqueued (sync_run cs)) (sEnqueued (sync_run cs))); [done|].
  rewrite <-Z.sub_add_distr. unfold u64 in *. rewrite Zminus_mod, <-Hb, <-Zminus_mod, Z.sub_diag. done.
Qed.

(** ** History of samples *)

Section history.
Context {A : Type}.

Record snapshotHistory := MkHistory { buf : list A; head : nat; size : nat; capv : nat }.

(** [None]: no history. *)
Definition newSnapshotHistory (zero : A) (capacity : Z) : option snapshotHistory :=
  if capacity <=? 0 then None else Some (MkHistory (replicate (Z.to_nat capacity) zero) 0 0 (Z.to_nat capacity)).
Definition record (snap : A) (h : option snapshotHistory) : option snapshotHistory :=
  match h with
  | None => None
  | Some h => Some (MkHistory (<[head h := snap]> (buf h)) ((head h + 1) mod capv h) (if (size h <? capv h)%nat then S (size h) else size h) (capv h))
  end.
Definition snapshot (h : option snapshotHistory) : list A :=
  match h with
  | None => []
  | Some h => if (size h =? 0)%nat then [] else
      let start := ((head h + capv h - size h) mod capv h)%nat in omap (λ i, buf h !! ((start + i) mod capv h)%nat) (seq 0 (size h))
  end.

Lemma omap_seq_ext (f g : nat → option A) n : (∀ i, (i < n)%nat → f i = g i) → omap f (seq 0 n) = omap g (seq 0 n).
Proof.
  induction n as [|n IH]; intros Hfg; [done|]. rewrite seq_S, !omap_app, IH by (intros i Hi; apply Hfg; lia). f_equal. cbn. by rewrite Hfg by lia.
Qed.
Lemma omap_lookup_seq (l : list A) : omap (λ i, l !! i) (seq 0 (length l)) = l.
Proof.
  induction l as [|x l IH] using rev_ind; [done|]. rewrite length_app, Nat.add_1_r, seq_S, omap_app. f_equal.
  - rewrite <-IH at 2. apply omap_seq_ext. intros i Hi. by rewrite lookup_app_l.
  - cbn. by rewrite lookup_app_r, Nat.sub_diag by lia.
Qed.

Definition history_ok (c : nat) (xs : list A) (h : snapshotHistory) : Prop :=
  capv h = c ∧ length (buf h) = c ∧ head h = (length xs mod c)%nat ∧ size h = Nat.min (length xs) c ∧
  ∀ i, (length xs - c ≤ i < length xs)%nat → buf h !! (i mod c)%nat = xs !! i.

Lemma record_ok c xs x h : (0 < c)%nat → history_ok c xs h → ∃ h', record x (Some h) = Some h' ∧ history_ok c (xs ++ [x]) h'.
Proof.
  intros Hc (Hcap & Hlen & Hhead & Hsize & Hbuf). eexists. split; [done|]. unfold history_ok. cbn [capv buf head size]. rewrite Hcap, Hhead, length_app, length_insert. cbn [length].
  split; [done|]. split; [done|]. split; [by rewrite Nat.Div0.add_mod_idemp_l|]. split; [destruct (Nat.ltb_spec (size h) c); lia|].
  intros i Hi. destruct (decide (i = length xs)) as [->|Hne].
  - rewrite list_lookup_insert_eq by (rewrite Hlen; apply Nat.mod_upper_bound; lia). by rewrite lookup_app_r, Nat.sub_diag by lia.
  - rewrite list_lookup_insert_ne; [rewrite lookup_app_l by lia; apply Hbuf; lia|]. intros Heq. assert (length xs - i = 0)%nat; [|lia].
    apply (mod_inj c i); [lia|lia|]. rewrite Nat.add_0_r. by replace (i + (length xs - i))%nat with (length xs) by lia.
Qed.

Lemma snapshot_ok c xs h : (0 < c)%nat → history_ok c xs h → snapshot (Some h) = drop (length xs - c) xs.
Proof.
  intros Hc (Hcap & Hlen & Hhead & Hsize & Hbuf). unfold snapshot. destruct (Nat.eqb_spec (size h) 0) as [Hz|Hz].
  - symmetry. apply drop_ge. lia.
  - rewrite <-(omap_lookup_seq (drop _ xs)), length_drop, Hsize. replace (Nat.min (length xs) c) with (length xs - (length xs - c))%nat by lia. apply omap_seq_ext. intros i Hi.
    rewrite lookup_drop, <-Hbuf by lia. f_equal. rewrite Hcap, Hhead, Nat.Div0.add_mod_idemp_l. destruct (decide (length xs < c)%nat).
    + rewrite (Nat.mod_small (length xs) c) by lia. replace (length xs + c - (length xs - (length xs - c)) + i)%nat with (i + 1 * c)%nat by lia. rewrite Nat.Div0.mod_add. f_equal. lia.
    + replace (length xs - (length xs - c))%nat with c by lia. rewrite Nat.add_sub, Nat.Div0.add_mod_idemp_l.
      replace (length xs + i)%nat with (length xs - c + i + 1 * c)%nat by lia. by rewrite Nat.Div0.mod_add.
Qed.

(** The history holds the last [capacity] samples recorded, oldest first; with a capacity of 0 or less, none. *)
Theorem history_exact (zero : A) capacity xs :
  snapshot (fold_left (λ h x, record x h) xs (newSnapshotHistory zero capacity)) = drop (length xs - Z.to_nat capacity) (if capacity <=? 0 then [] else xs).
Proof.
  unfold newSnapshotHistory. destruct (Z.leb_spec capacity 0) as [Hle|Hgt].
  - rewrite drop_nil. by induction xs.
  - set (c := Z.to_nat capacity). assert (0 < c)%nat as Hc by lia.
    assert (∃ h, fold_left (λ h x, record x h) xs (Some (MkHistory (replicate c zero) 0 0 c)) = Some h ∧ history_ok c xs h) as (h & -> & Hok); [|by apply snapshot_ok].
    induction xs as [|x xs (h & Hh & Hok)] using rev_ind.
    + eexists. split; [done|]. split; [done|]. split; [apply length_replicate|]. split; [symmetry; apply Nat.Div0.mod_0_l|]. split; [done|]. cbn. lia.
    + rewrite fold_left_app, Hh. cbn [fold_left]. by apply record_ok.
Qed.

End history.
