(* ===== verification/Rate.v ===== *)
(** * Rate: the Redis-backed limiter ([rate/rate.go])

    The script of [AllowN] on binary64, Lua's numbers.  Redis is a parameter: the key holds a value with an expiry on its clock, in
    milliseconds; a number that is stored and read again goes through [fmt] (Lua's [tostring] and [tonumber]), which is within [δ] of
    the number.  Lua documents 14 significant digits, that is 50 microseconds either way for today's times in microseconds.

    Shown, for whole numbers of microseconds per token: the tokens granted in any span of time are at most what the rate gives for it
    plus the burst, plus at each grant what [fmt] loses and what a key that expires too early forgets ([gcra_bound]); a request that is
    refused and could ever be granted is granted after exactly the wait that is reported ([retry_exact]).  [ttl_cut_exceeds] shows a key
    that expires too early, its life being cut to whole milliseconds.  [rounding_lifts_limit] shows a limit that does not hold with 14 digits,
    [oversized_retry] a wait reported for a request that is never granted, [ttl_overflow_forgets] a life that overflows. *)

From Stdlib Require Import ZArith Lia Bool SpecFloat.
From stdpp Require Import base tactics numbers list.
From S2P Require Import Prelude Float64 FloatOrder.

#[local] Open Scope Z_scope.

(** [Period] in nanoseconds. *)
Record Limit := MkLimit { Rate : Z; Period : Z; Burst : Z }.
Definition PerSecond (rate burst : Z) : Limit := MkLimit rate (10 ^ 9) burst.
Definition PerMinute (rate burst : Z) : Limit := MkLimit rate (60 * 10 ^ 9) burst.
Record Result := MkResult { Allowed : bool; Remaining : Z; RetryAfter : Z }.

Definition validate (limit : Limit) (n : Z) : bool :=
  negb ((Rate limit <=? 0) || (Period limit <=? 0) || (Burst limit <=? 0) || (n <=? 0)).
Definition microseconds (d : Z) : Z := Z.quot d 1000.

(** [math.ceil]. *)
Definition ceil (x : float64) : float64 :=
  match f64_round (if f64_lt x f0 then RTrunc else RAway) x with Some z => f64_of_Z z | None => x end.
(** A Lua number in a reply: truncated to an integer. *)
Definition reply (x : float64) : Z := f64_to_i64 x.

Record gcra_reply := MkReply { rAllowed : bool; rNewTat : float64; rRemaining : float64; rRetry : float64 }.

Definition gcraScript (raw : option float64) (now emiss burst cost : float64) : gcra_reply :=
  let tat := match raw with None => now | Some t => t end in
  let tat := if f64_lt tat now then now else tat in
  let allowed := f64_le cost burst && f64_le (f64_sub tat now) (f64_mul emiss (f64_sub burst cost)) in
  let new_tat := if allowed then f64_add tat (f64_mul emiss cost) else tat in
  let remaining := f64_sub burst (ceil (f64_div (f64_sub new_tat now) emiss)) in
  let remaining := if f64_lt remaining f0 then f0 else remaining in
  let remaining := if f64_gt remaining burst then burst else remaining in
  let retry := if allowed then f0 else
    let r := ceil (f64_sub (f64_sub new_tat now) (f64_mul emiss (f64_sub burst cost))) in if f64_lt r f0 then f0 else r in
  MkReply allowed new_tat remaining retry.

(** The key: its value and when it expires. *)
Definition key := option (float64 * Z).
Definition get (k : key) (rnow : Z) : option float64 := match k with Some (v, exp) => if rnow <? exp then Some v else None | None => None end.

Definition emission (limit : Limit) : float64 := f64_div (f64_of_Z (microseconds (Period limit))) (f64_of_Z (Rate limit)).
(** The life of the key, in microseconds. *)
Definition ttl (limit : Limit) : Z :=
  let t := Z.quot (i64 (microseconds (Period limit) * i64 (Burst limit + 1))) (Rate limit) in if t <? 10 ^ 6 then 10 ^ 6 else t.

(** [AllowN] at [now] microseconds, the server's clock at [rnow] milliseconds; [None]: the limit is invalid. *)
Definition AllowN (fmt : float64 → float64) (limit : Limit) (n : Z) (now rnow : Z) (k : key) : option (Result * key) :=
  if validate limit n then
    let r := gcraScript (get k rnow) (f64_of_Z now) (emission limit) (f64_of_Z (Burst limit)) (f64_of_Z n) in
    Some (MkResult (rAllowed r) (reply (rRemaining r)) (i64 (reply (rRetry r) * 1000)),
          if rAllowed r then Some (fmt (rNewTat r), rnow + Z.quot (ttl limit) 1000) else match get k rnow with None => None | Some _ => k end)
  else None.
Definition Allow (fmt : float64 → float64) (limit : Limit) := AllowN fmt limit 1.

(** Requests one after another: the number of tokens, the caller's clock in microseconds and the server's in milliseconds. *)
Record request := MkRequest { tokens : Z; at_us : Z; server_ms : Z }.
Fixpoint serve (fmt : float64 → float64) (limit : Limit) (k : key) (reqs : list request) : list Result :=
  match reqs with
  | [] => []
  | q :: reqs => match AllowN fmt limit (tokens q) (at_us q) (server_ms q) k with Some (r, k) => r :: serve fmt limit k reqs | None => [] end
  end.

(** ** Whole numbers *)

#[local] Opaque U Big f0 f1.

Lemma round_int rule z x : is_int z x → f64_round rule x = Some z.
Proof.
  intros (Hv & Hf & HV). pose proof U_pos as HU. destruct x as [s| | |s m e]; try done; [cbn [V] in HV; cbn; f_equal; nia|].
  apply valid_spec in Hv as (He & _ & _). cbn [V] in HV. cbn [f64_round]. f_equal. pose proof (pow_pos_lt e ltac:(lia)) as HP. destruct (Z.leb_spec 0 e) as [H0|H0].
  - rewrite Z.pow_add_r, U_eq, Z.mul_assoc in HV by (unfold Sc; lia). destruct s; cbn [cond_Zopp] in HV; nia.
  - assert (0 < 2 ^ (- e)) as Hd by lia. assert (2 ^ (- e) * 2 ^ (e + Sc) = U) as HUe by (rewrite <-U_eq, <-Z.pow_add_r by (unfold Sc; lia); f_equal; lia).
    rewrite <-HUe in HV. set (P := 2 ^ (e + Sc)) in *. set (D := 2 ^ (- e)) in *. clearbody P D.
    assert (∃ q, 0 ≤ q ∧ Z.pos m = q * D ∧ z = if s then - q else q) as (q & Hq & Hm & ->).
    { exists (if s then - z else z). assert (Z.pos m = (if s then - z else z) * D) as Hm by (apply (Z.mul_reg_r _ _ P); [lia|]; destruct s; cbn [cond_Zopp] in HV; lia).
      split; [clear - Hm Hd; destruct s; nia|]. split; [exact Hm|]. destruct s; lia. }
    rewrite Hm, Z.div_mul, Z.mod_mul by (clear - Hd; lia). assert (round_mag rule q 0 D = q) as ->; [|done].
    destruct rule; cbn [round_mag]; [done..| |]; rewrite Z.mul_0_r; [by rewrite (proj2 (Z.leb_gt D 0)) by lia|]. by rewrite (proj2 (Z.eqb_neq 0 D)), (proj2 (Z.ltb_ge D 0)) by lia.
Qed.

Lemma ceil_int z x : exact_int z → is_int z x → is_int z (ceil x).
Proof. intros Hz Hx. unfold ceil. rewrite (round_int _ z x Hx). by apply of_Z_int. Qed.

Lemma div_int a b x y : is_int (a * b) x → is_int b y → 0 < b → exact_int a → is_int a (f64_div x y).
Proof.
  intros (Hx & Fx & Vx) (Hy & Fy & Vy) Hb Ha. pose proof U_pos as HU. assert (0 < V y) as Hpos by nia. destruct (int_float _ Ha) as (w & Hw & Fw & HV). rewrite U_eq in HV.
  destruct (ratio_E _ _ _ Hpos (div_rounds x y Hx Hy Fx Fy Hpos)) as (Hn & Hge & Hle). specialize (Hge w Hw Fw). specialize (Hle w Hw Fw).
  rewrite HV, Vx, Vy, U_eq in Hge, Hle. specialize (Hge ltac:(nia)). specialize (Hle ltac:(nia)). pose proof (V_bound w Hw Fw) as Hbd. rewrite HV in Hbd.
  assert (finite (f64_div x y)) as Hf by (apply finite_E; [done|lia]). rewrite E_finite in * by done. split; [apply Hn|]. split; [done|]. lia.
Qed.

(** ** The script on whole numbers *)

Section script.
Context (e b c now : Z) (raw : option Z).
Definition tat_of : Z := match raw with None => now | Some t => Z.max t now end.
Definition grants : bool := (c <=? b) && (tat_of - now <=? e * (b - c)).

Context (emiss burst cost nowf : float64) (rawf : option float64).
Context (He : is_int e emiss) (Hb : is_int b burst) (Hc : is_int c cost) (Hn : is_int now nowf) (Hr : match raw, rawf with None, None => True | Some t, Some x => is_int t x | _, _ => False end).
Context (He0 : 0 < e) (Hb0 : 0 < b) (Hc0 : 0 < c) (Hnow : 0 ≤ now ≤ 2 ^ 51) (Hraw : match raw with Some t => 0 ≤ t ≤ 2 ^ 52 | None => True end) (Heb : e * b ≤ 2 ^ 50) (Hec : e * c ≤ 2 ^ 50).

Lemma tat_float : is_int tat_of (let tat := match rawf with None => nowf | Some t => t end in if f64_lt tat nowf then nowf else tat) ∧ now ≤ tat_of ≤ 2 ^ 52.
Proof.
  unfold tat_of. destruct raw as [t|], rawf as [x|]; try done; cbn zeta.
  - rewrite (int_lt t now x nowf Hr Hn). destruct (Z.ltb_spec t now); (split; [|lia]); [by rewrite Z.max_r by lia|by rewrite Z.max_l by lia].
  - rewrite (int_lt now now nowf nowf Hn Hn), Z.ltb_irrefl. split; [done|lia].
Qed.

Lemma b_le : b ≤ 2 ^ 50 ∧ c ≤ 2 ^ 50 ∧ - 2 ^ 50 ≤ e * (b - c) ≤ 2 ^ 50.
Proof. nia. Qed.

(** What the script decides, stores and reports. *)
Lemma script_int : let r := gcraScript rawf nowf emiss burst cost in
  rAllowed r = grants ∧ is_int (if grants then tat_of + e * c else tat_of) (rNewTat r) ∧
  (grants = false → is_int (Z.max 0 (tat_of - now - e * (b - c))) (rRetry r)).
Proof.
  pose proof b_le as (Hbl & Hcl & Hebc). destruct tat_float as [Ht Htb]. unfold gcraScript. set (tat := if f64_lt _ nowf then _ else _) in *. cbn zeta in Ht.
  assert (is_int (tat_of - now) (f64_sub tat nowf)) as Hd by (apply sub_int; [done..|unfold exact_int; lia]).
  assert (is_int (b - c) (f64_sub burst cost)) as Hbc by (apply sub_int; [done..|unfold exact_int; lia]).
  assert (is_int (e * (b - c)) (f64_mul emiss (f64_sub burst cost))) as Hm by (apply mul_int; [done..|unfold exact_int; lia]).
  assert (is_int (e * c) (f64_mul emiss cost)) as Hmc by (apply mul_int; [done..|unfold exact_int; nia]).
  rewrite (int_le c b cost burst Hc Hb), (int_le _ _ _ _ Hd Hm). fold grants. cbn [rAllowed rNewTat rRetry]. split; [done|]. split.
  - destruct grants; [|exact Ht]. apply add_int; [done..|]. unfold exact_int. nia.
  - intros ->. assert (is_int (tat_of - now - e * (b - c)) (ceil (f64_sub (f64_sub tat nowf) (f64_mul emiss (f64_sub burst cost))))) as Hceil.
    { assert (exact_int (tat_of - now - e * (b - c))) by (unfold exact_int; lia). apply ceil_int; [done|]. by apply sub_int. }
    assert (is_int 0 f0) as H0 by (apply (of_Z_int 0); unfold exact_int; lia). rewrite (int_lt _ 0 _ f0 Hceil H0).
    destruct (Z.ltb_spec (tat_of - now - e * (b - c)) 0); [by rewrite Z.max_l by lia|by rewrite Z.max_r by lia].
Qed.

End script.

(** ** The limit *)

Section limit.
Context (fmt : float64 → float64) (δ e : Z) (limit : Limit).
Context (Hfmt : ∀ z x, is_int z x → 0 ≤ z ≤ 2 ^ 52 → ∃ z', is_int z' (fmt x) ∧ 0 ≤ z' ∧ Z.abs (z' - z) ≤ δ).
(** [e] microseconds per token. *)
Context (He : 0 < e) (Hper : microseconds (Period limit) = e * Rate limit) (Hrate : 0 < Rate limit ≤ 2 ^ 53) (Hperiod : 0 < Period limit) (Hus : microseconds (Period limit) ≤ 2 ^ 53).
Context (Hburst : 0 < Burst limit) (Heb : e * Burst limit ≤ 2 ^ 50) (Hδ : 0 ≤ δ ≤ 2 ^ 50).
(** The caller's clock is ahead of the server's by [lo] to [hi] microseconds. *)
Context (lo hi : Z).

(** How much too early a key can expire: its life is cut to whole milliseconds, and the clocks drift. *)
Definition early : Z := Z.max 0 (e * Burst limit + δ + (hi - lo) + 999 - ttl limit).

Lemma emission_int : is_int e (emission limit).
Proof.
  unfold emission. rewrite Hper. apply (div_int e (Rate limit)); [apply of_Z_int; unfold exact_int; lia|apply of_Z_int; unfold exact_int; lia|lia|unfold exact_int; nia].
Qed.

(** The key's time is [t], and the key lives until [L] before it; at [last] the time less [L], or [last] if that is later, is at least [s]. *)
Definition level (L last : Z) (k : key) (s : Z) : Prop :=
  match k with None => s ≤ last | Some (v, exp) => ∃ t, is_int t v ∧ 0 ≤ t ≤ 2 ^ 52 ∧ t - L ≤ exp * 1000 + lo ∧ s ≤ Z.max (t - L) last end.

(** What the script reads, and the arrival time it starts from. *)
Lemma get_level L last k s now rnow : 0 ≤ L → level L last k s → last ≤ now → rnow * 1000 + lo ≤ now → ∃ raw,
  match raw, get k rnow with None, None => True | Some t, Some x => is_int t x | _, _ => False end ∧
  match raw with Some t => 0 ≤ t ≤ 2 ^ 52 | None => True end ∧ s ≤ tat_of now raw ∧
  ∀ k', k' = match get k rnow with None => None | Some _ => k end → level L now k' s.
Proof using.
  intros HL Hl Hn Hlo. unfold get. destruct k as [[v exp]|]; [|exists None; repeat split; cbn in *; [lia|intros k' ->; cbn; lia]].
  destruct Hl as (t & Ht & Htb & Hte & Hs). destruct (Z.ltb_spec rnow exp).
  - exists (Some t). split; [done|]. split; [done|]. split; [cbn; lia|]. intros k' ->. exists t. split_and!; try done; lia.
  - exists None. split; [done|]. split; [done|]. split; [cbn; lia|]. intros k' ->. cbn. lia.
Qed.

Lemma validate_ok n : 0 < n → validate limit n = true.
Proof. intros Hn. unfold validate. rewrite !(proj2 (Z.leb_gt _ _)) by lia. done. Qed.

(** One request. *)
Lemma AllowN_step last k s n now rnow : level early last k s → 0 ≤ last ≤ now → now ≤ 2 ^ 51 → lo ≤ now - rnow * 1000 ≤ hi → 0 < n → e * n ≤ 2 ^ 50 →
  ∃ r k', AllowN fmt limit n now rnow k = Some (r, k') ∧
    if Allowed r then s + e * n ≤ now + e * Burst limit ∧ level early now k' (s + e * n - δ - early) else level early now k' s.
Proof.
  assert (0 ≤ early) as HL by (unfold early; lia).
  intros Hl Hlast Hnow Hck Hn Hen. destruct (get_level early last k s now rnow HL Hl ltac:(lia) ltac:(lia)) as (raw & Hr & Hrb & Hs & Hk). unfold AllowN. rewrite validate_ok by done.
  assert (n ≤ 2 ^ 50 ∧ Burst limit ≤ 2 ^ 50) as [Hnb Hbb] by nia.
  destruct (script_int e (Burst limit) n now raw (emission limit) (f64_of_Z (Burst limit)) (f64_of_Z n) (f64_of_Z now) (get k rnow)) as (Ha & Ht & _);
    [apply emission_int|apply of_Z_int; unfold exact_int; lia|apply of_Z_int; unfold exact_int; lia|apply of_Z_int; unfold exact_int; lia|done|done|done|done|lia|done|done|done|].
  set (r := gcraScript _ _ _ _ _) in *. clearbody r. eexists _, _. split; [done|]. cbn [Allowed]. rewrite Ha in *. destruct (grants e (Burst limit) n now raw) eqn:Hg; [|by apply Hk].
  unfold grants in Hg. apply andb_true_iff in Hg as [Hnb'%Z.leb_le Hg%Z.leb_le]. set (tat := tat_of now raw) in *. assert (now ≤ tat) as Htn by (unfold tat, tat_of; destruct raw; lia).
  assert (e * (Burst limit - n) = e * Burst limit - e * n) as Hmul by lia. rewrite Hmul in Hg. split; [lia|].
  destruct (Hfmt _ _ Ht ltac:(nia)) as (z & Hz & Hz0 & Hzd). exists z. split; [done|]. split; [lia|].
  assert (0 ≤ ttl limit) by (unfold ttl; destruct (Z.ltb_spec (Z.quot (i64 (microseconds (Period limit) * i64 (Burst limit + 1))) (Rate limit)) (10 ^ 6)); lia).
  rewrite Z.quot_div_nonneg by lia. pose proof (Z.mod_pos_bound (ttl limit) 1000 ltac:(lia)). pose proof (Z.div_mod (ttl limit) 1000 ltac:(lia)).
  unfold early in *. split; lia.
Qed.

(** Tokens granted and how many times. *)
Fixpoint granted (reqs : list request) (rs : list Result) : Z :=
  match reqs, rs with q :: reqs, r :: rs => (if Allowed r then tokens q else 0) + granted reqs rs | _, _ => 0 end.
Definition grants_of (rs : list Result) : Z := Z.of_nat (length (List.filter Allowed rs)).

(** Requests whose times on the caller's clock do not go back, from [last] to [t1], with the server's clock within its drift. *)
Fixpoint in_order (last t1 : Z) (reqs : list request) : Prop :=
  match reqs with
  | [] => last ≤ t1
  | q :: reqs => last ≤ at_us q ≤ t1 ∧ lo ≤ at_us q - server_ms q * 1000 ≤ hi ∧ 0 < tokens q ∧ e * tokens q ≤ 2 ^ 50 ∧ in_order (at_us q) t1 reqs
  end.

Lemma serve_bound reqs : ∀ last t1 k s, level early last k s → 0 ≤ last → t1 ≤ 2 ^ 51 → in_order last t1 reqs →
  let rs := serve fmt limit k reqs in length rs = length reqs ∧
  (grants_of rs = 0 ∧ granted reqs rs = 0 ∨ s + e * granted reqs rs - (δ + early) * (grants_of rs - 1) ≤ t1 + e * Burst limit).
Proof.
  assert (0 ≤ early) as HL by (unfold early; lia).
  induction reqs as [|[n now rnow] reqs IH]; intros last t1 k s Hl H0 Ht1 Ho rs; [cbn; split; [done|by left]|]. destruct Ho as (Hn & Hck & Hn0 & Hen & Ho). unfold rs. clear rs. cbn [serve tokens at_us server_ms] in *.
  destruct (AllowN_step last k s n now rnow Hl ltac:(lia) ltac:(lia) Hck Hn0 Hen) as (r & k' & -> & Hstep). cbn [granted length tokens]. unfold grants_of in *. cbn [List.filter].
  destruct (Allowed r); [destruct Hstep as [Hgr Hl']|]; cbn [length].
  - destruct (IH now t1 k' (s + e * n - δ - early) Hl' ltac:(lia) Ht1 Ho) as [-> [[Hg0 Hgr0]|Hb]]; (split; [done|]); right; [rewrite Hgr0; nia|]. set (G := granted _ _) in *. set (K := Z.of_nat _) in Hb. nia.
  - destruct (IH now t1 k' s Hstep ltac:(lia) Ht1 Ho) as [-> Hb]. split; [done|]. by rewrite Z.add_0_l.
Qed.

(** C26: for a rate that is a whole number [e] of microseconds per token (and numbers that binary64 holds exactly), requests whose times do
    not go back and a server clock that keeps its distance to the caller's within [lo] and [hi]: whatever the key holds at first, the
    tokens granted between [t0] and [t1] cost at most that time and the burst, plus, at each grant but the last, what is lost when the
    key is written ([δ]) and what is forgotten when it expires too early ([early], zero when the life of the key outlasts the burst). *)
Theorem gcra_bound t0 t1 reqs k : level early t0 k t0 → 0 ≤ t0 → t1 ≤ 2 ^ 51 → in_order t0 t1 reqs →
  let rs := serve fmt limit k reqs in length rs = length reqs ∧
  e * granted reqs rs ≤ t1 - t0 + e * Burst limit + (δ + early) * Z.max 0 (grants_of rs - 1).
Proof.
  assert (0 ≤ early) as HL by (unfold early; lia).
  intros Hl H0 Ht1 Ho rs. destruct (serve_bound reqs t0 t1 k t0 Hl H0 Ht1 Ho) as [Hlen Hb]. fold rs in Hlen, Hb. split; [done|].
  assert (t0 ≤ t1) as Ht by (clear - Ho; revert t0 Ho; induction reqs as [|q reqs IH]; intros t0 Ho; [done|]; destruct Ho as (? & _ & _ & _ & Ho); specialize (IH _ Ho); lia).
  assert (0 ≤ grants_of rs) as Hg by (unfold grants_of; lia). destruct Hb as [[-> ->]|Hb]; nia.
Qed.

Lemma tat_level last k s now now2 : lo = 0 → level 0 last k s → last ≤ now → ∃ raw raw2,
  match raw, get k (now / 1000) with None, None => True | Some t, Some x => is_int t x | _, _ => False end ∧ match raw with Some t => 0 ≤ t ≤ 2 ^ 52 | None => True end ∧
  (now ≤ now2 → match raw2, get (match get k (now / 1000) with None => None | Some _ => k end) (now2 / 1000) with None, None => True | Some t, Some x => is_int t x | _, _ => False end ∧
    match raw2 with Some t => 0 ≤ t ≤ 2 ^ 52 | None => True end ∧ tat_of now2 raw2 = Z.max (tat_of now raw) now2).
Proof.
  intros Hlo Hl Hn. unfold get. destruct k as [[v exp]|]; [|exists None, None; cbn; repeat split; lia]. destruct Hl as (t & Ht & Htb & Hte & _). pose proof (Z.mul_div_le now2 1000 ltac:(lia)).
  destruct (Z.ltb_spec (now / 1000) exp); [|exists None, None; cbn; repeat split; lia]. exists (Some t). cbn. destruct (Z.ltb_spec (now2 / 1000) exp); [exists (Some t)|exists None]; cbn; (split; [exact Ht|]); (split; [exact Htb|]); intros; (split; [done|]); (split; [done|]); lia.
Qed.

(** When a request that is not larger than the burst is refused, the same request is granted after the wait that is reported, and at no time before, unless another one comes between. *)
Theorem retry_exact last k s n now now2 r k' : lo = 0 → level 0 last k s → 0 ≤ last ≤ now → now ≤ now2 ≤ 2 ^ 51 → 0 < n ≤ Burst limit →
  AllowN fmt limit n now (now / 1000) k = Some (r, k') → Allowed r = false →
  ∃ r2 k2, AllowN fmt limit n now2 (now2 / 1000) k' = Some (r2, k2) ∧ Allowed r2 = (now + RetryAfter r / 1000 <=? now2) ∧ 0 < RetryAfter r.
Proof.
  intros Hlo Hl Hlast Hnow Hn Hr Hrej. assert (e * n ≤ 2 ^ 50) as Hen by nia. assert (n ≤ 2 ^ 50 ∧ Burst limit ≤ 2 ^ 50) as [Hnb Hbb] by nia.
  destruct (tat_level last k s now now2 Hlo Hl ltac:(lia)) as (raw & raw2 & Hraw & Hrb & H2). destruct (H2 ltac:(lia)) as (Hraw2 & Hrb2 & Htat). clear H2.
  unfold AllowN in Hr |- *. rewrite validate_ok in Hr |- * by lia.
  destruct (script_int e (Burst limit) n now raw (emission limit) (f64_of_Z (Burst limit)) (f64_of_Z n) (f64_of_Z now) (get k (now / 1000))) as (Ha & _ & Hretry);
    [apply emission_int|apply of_Z_int; unfold exact_int; lia|apply of_Z_int; unfold exact_int; lia|apply of_Z_int; unfold exact_int; lia|done|done|done|lia|lia|done|done|done|].
  set (g := gcraScript _ _ _ _ _) in Hr, Ha, Hretry. clearbody g. injection Hr as <- <-. cbn [Allowed RetryAfter] in *. rewrite Hrej.
  rewrite Ha in Hrej. specialize (Hretry Hrej).
  destruct (script_int e (Burst limit) n now2 raw2 (emission limit) (f64_of_Z (Burst limit)) (f64_of_Z n) (f64_of_Z now2) (get match get k (now / 1000) with None => None | Some _ => k end (now2 / 1000))) as (Ha2 & _ & _);
    [apply emission_int|apply of_Z_int; unfold exact_int; lia|apply of_Z_int; unfold exact_int; lia|apply of_Z_int; unfold exact_int; lia|done|done|done|lia|lia|done|done|done|].
  set (g2 := gcraScript _ _ _ _ _) in Ha2 |- *. clearbody g2. eexists _, _. split; [done|]. cbn [Allowed].
  rewrite Ha2. unfold grants in Hrej |- *. rewrite (proj2 (Z.leb_le n _)) in Hrej |- * by lia. cbn [andb] in *. apply Z.leb_gt in Hrej. rewrite Htat.
  assert (now ≤ tat_of now raw ≤ 2 ^ 52) as Htb by (unfold tat_of; destruct raw; lia). set (tat := tat_of now raw) in *. assert (e * (Burst limit - n) = e * Burst limit - e * n) as Hmul by lia. rewrite Hmul in *.
  assert (0 ≤ e * Burst limit - e * n) as Hnn by nia. set (X := e * Burst limit - e * n) in *. unfold reply, f64_to_i64. rewrite (round_int RTrunc _ _ Hretry), (Z.max_r 0) by lia.
  assert (in_i64b (tat - now - X) = true) as -> by (apply in_i64b_spec; unfold_int; lia). rewrite i64_id by (unfold_int; lia). rewrite Z.div_mul by lia. split; [|lia].
  apply eq_true_iff_eq. rewrite !Z.leb_le. lia.
Qed.

End limit.

Definition ten : Limit := PerSecond 10 5.

Lemma gcra_bound_witness :
  let reqs := [MkRequest 2 1000 1; MkRequest 3 1500 1; MkRequest 1 2000 2; MkRequest 1 150000 150] in
  let rs := serve id ten None reqs in
  length rs = length reqs ∧ early 0 100000 ten 0 999 = 0 ∧
  100000 * granted reqs rs ≤ 200000 - 1000 + 100000 * 5 + (0 + early 0 100000 ten 0 999) * Z.max 0 (grants_of rs - 1).
Proof.
  intros reqs rs.
  destruct (gcra_bound id 0 100000 ten) with (lo := 0) (hi := 999) (t0 := 1000) (t1 := 200000) (reqs := reqs) (k := @None (float64 * Z)) as [H1 H2];
    [|done|done|done|done|done|done|done|done|cbn; lia|done|done|cbn; lia|split; [exact H1|split; [vm_compute; reflexivity|exact H2]]].
  intros z x Hx Hz. exists z. split; [done|]. lia.
Defined.

(** The life of the key is cut to whole milliseconds.  With 10000 per second and a burst of 20000 a key of 2000.1 ms is kept for 2000: a
    second burst passes 1999.001 ms after the first, and 40000 tokens are granted where the rate and the burst give 39990. *)
Example ttl_cut_exceeds :
  let reqs := [MkRequest 20000 999 0; MkRequest 20000 2000000 2000] in
  let rs := serve id (PerSecond 10000 20000) None reqs in
  granted reqs rs = 40000 ∧ 100 * granted reqs rs > (2000000 - 999) + 100 * 20000.
Proof. vm_compute. split; reflexivity. Qed.

Lemma retry_exact_witness : ∃ r k' r2 k2, AllowN id ten 4 2000 2 (Some (f64_of_Z 402000, 1000)) = Some (r, k') ∧
  AllowN id ten 4 302000 302 k' = Some (r2, k2) ∧ Allowed r2 = (2000 + RetryAfter r / 1000 <=? 302000) ∧ 0 < RetryAfter r.
Proof.
  assert (∃ r k', AllowN id ten 4 2000 (2000 / 1000) (Some (f64_of_Z 402000, 1000)) = Some (r, k') ∧ Allowed r = false) as (r & k' & Hr & Hf) by (eexists _, _; split; [vm_compute; reflexivity|reflexivity]).
  exists r, k'. assert (∃ r2 k2, AllowN id ten 4 302000 (302000 / 1000) k' = Some (r2, k2) ∧ Allowed r2 = (2000 + RetryAfter r / 1000 <=? 302000) ∧ 0 < RetryAfter r) as (r2 & k2 & H2); [|exists r2, k2; split; [exact Hr|exact H2]].
  apply (retry_exact id 100000 ten) with (lo := 0) (last := 0) (k := Some (f64_of_Z 402000, 1000)) (s := 0); try (exact Hr || exact Hf || lia || reflexivity || (cbn; lia)).
  - vm_compute. discriminate.
  - exists 402000. split; [apply of_Z_int; unfold exact_int; lia|]. lia.
Defined.

(** 14 significant digits of a time of sixteen. *)
Definition fourteen (x : float64) : float64 := f64_of_Z ((f64_to_i64 x + 50) / 100 * 100).

(** A limit of 100000 per second with a burst of 1: fifty requests in the same microsecond are all granted, since what they add to the key is rounded away. *)
Example rounding_lifts_limit : Forall (λ r, Allowed r = true) (serve fourteen (PerSecond 100000 1) None (replicate 50 (MkRequest 1 1700000000000000 1700000000000))).
Proof. vm_compute. repeat constructor. Qed.

(** More tokens than the burst are never granted, and a wait is reported all the same. *)
Example oversized_retry : ∃ r, AllowN id ten 7 1000 1 None = Some (r, None) ∧ Allowed r = false ∧ RetryAfter r = 200000000.
Proof. eexists. split; [vm_compute; reflexivity|]. done. Qed.

(** Two hundred million a day: the life of the key overflows and becomes one second, where a day is needed. *)
Example ttl_overflow_forgets : ttl (MkLimit 200000000 (86400 * 10 ^ 9) 200000000) = 10 ^ 6.
Proof. vm_compute. reflexivity. Qed.
