(* ===== verification/DateTime.v ===== *)
(** * DateTime: days, weeks, months and ranges ([datetime/datetime.go])

    On the calendar of Calendar.v, in zones of a fixed offset.  [time.Date] normalizes months, days and clock fields, [Time.Sub]
    saturates at the ends of int64, [Hours] and its like are float64.  [Time.Format] and
    [time.ParseInLocation] are parameters.

    Shown: the day, week and month functions give the first and last nanosecond of the day, week or month that holds the instant, and
    exactly the instants between them lie in it ([day_bounds], [week_bounds], [month_bounds]); the count of days between two dates
    is exact and antisymmetric ([delta_days_exact], for dates less than 106751 days apart); [RangeTime] gives every step up to the
    end ([range_time_exact]); [RangeDateStr] gives every date of a span of less than 170 days ([range_dates_exact]) and one too many for
    longer ones ([range_dates_extra]); of several layouts the first that parses decides ([parse_first]).  [delta_saturates] shows what dates further apart do. *)

From Stdlib Require Import ZArith Lia Bool SpecFloat String.
From stdpp Require Import base tactics numbers list sets.
From S2P Require Import Prelude Float64 Calendar.

#[local] Open Scope Z_scope.

(** ** Package time *)

Definition second : Z := 10 ^ 9.
Definition minute : Z := 60 * second.
Definition hour : Z := 60 * minute.
Definition day : Z := 24 * hour.

(** [time.Date]: months outside the year are carried, then days, then the clock. *)
Definition time_Date (y m d h mi s ns loc : Z) : Time :=
  let y := y + (m - 1) / 12 in
  let m := (m - 1) mod 12 + 1 in
  mkTime ((days_from_civil (mkCivil y m 1) + d - 1) * day + h * hour + mi * minute + s * second + ns - loc * second) loc.

Definition AddDate (years months days : Z) (t : Time) : Time :=
  let c := Date t in time_Date (Year c + years) (Month c + months) (Day c + days) (Hour t) (Minute t) (Second t) (Nanosecond t) (zone t).

(** Sunday is 0. *)
Definition Weekday (t : Time) : Z := (local_seconds t / 86400 + 4) mod 7.

(** [Time.Sub]: the nearest int64. *)
Definition TSub (t u : Time) : Z := Z.max min_i64 (Z.min max_i64 (nanos t - nanos u)).

Definition Hours (d : Z) : float64 := f64_add (f64_of_Z (Z.quot d hour)) (f64_div (f64_of_Z (Z.rem d hour)) (f64_of_Z (60 * 60 * 10 ^ 9))).
Definition Minutes (d : Z) : float64 := f64_add (f64_of_Z (Z.quot d minute)) (f64_div (f64_of_Z (Z.rem d minute)) (f64_of_Z (60 * 10 ^ 9))).
Definition Seconds (d : Z) : float64 := f64_add (f64_of_Z (Z.quot d second)) (f64_div (f64_of_Z (Z.rem d second)) (f64_of_Z (10 ^ 9))).

(** ** The package *)

Definition StartTime (t : Time) : Time := let c := Date t in time_Date (Year c) (Month c) (Day c) 0 0 0 0 (zone t).
Definition EndTime (t : Time) : Time := let c := Date t in time_Date (Year c) (Month c) (Day c) 23 59 59 (10 ^ 9 - 1) (zone t).

Definition FirstDateTimeOfMonth (t : Time) : Time := let t := AddDate 0 0 (- Day (Date t) + 1) t in StartTime t.
Definition LastDateTimeOfMonth (t : Time) : Time := let t := AddDate 0 0 (- Day (Date t) + 1) t in AddDate 0 1 (-1) (EndTime t).

Definition FirstDateTimeOfWeek (t : Time) (firstDay : Z) : Time :=
  let offset := - Z.rem (Weekday t - firstDay + 7) 7 in StartTime (AddDate 0 0 offset t).
Definition LastDateTimeOfWeek (t : Time) (firstDay : Z) : Time := EndTime (AddDate 0 0 6 (FirstDateTimeOfWeek t firstDay)).
Definition FirstDateTimeOfISOWeek (t : Time) : Time := FirstDateTimeOfWeek t 1.
Definition LastDateTimeOfISOWeek (t : Time) : Time := LastDateTimeOfWeek t 1.

Definition DeltaDateDays (start end_ : Time) : Z :=
  let s := Date (StartTime start) in let e := Date (StartTime end_) in
  let sUTC := time_Date (Year s) (Month s) (Day s) 0 0 0 0 0 in
  let eUTC := time_Date (Year e) (Month e) (Day e) 0 0 0 0 0 in
  Z.quot (TSub eUTC sUTC) (24 * hour).

Definition DeltaDays (start end_ : Time) : float64 := f64_div (Hours (TSub end_ start)) (f64_of_Z 24).
Definition DeltaHours (start end_ : Time) : float64 := Hours (TSub end_ start).
Definition DeltaMinutes (start end_ : Time) : float64 := Minutes (TSub end_ start).
Definition DeltaSeconds (start end_ : Time) : float64 := Seconds (TSub end_ start).

Definition AddDays (days : Z) (t : Time) : Time := AddDate 0 0 days t.

Definition maxRangeEntries : Z := 10000.

Definition RangeTime (start end_ : Time) (interval : Z) : list Time :=
  if interval <=? 0 then []
  else
    let '(start, end_) := if nanos end_ <? nanos start then (end_, start) else (start, end_) in
    let delta := i64 (Z.quot (TSub end_ start) interval + 1) in
    if (delta <=? 0) || (maxRangeEntries <? delta) then []
    else if delta =? 1 then [start]
    else (λ i, Add start (i64 (interval * Z.of_nat i))) <$> seq 0 (Z.to_nat delta).

(** ** Text *)

Definition LayoutDateISO8601 : string := "2006-01-02".
Definition LayoutDateTime : string := "2006-01-02 15:04:05".
Definition DefaultLayoutDate : string := LayoutDateISO8601.
Definition DefaultLayoutDateTime : string := LayoutDateTime.
Definition or_default (layout default : string) : string := if (String.length layout =? 0)%nat then default else layout.

Section text.
(** [Time.Format], [time.ParseInLocation] and the locations of package time. *)
Context {Location : Type} (Local : Location) (format : string → Time → string) (parse : string → string → Location → option Time).

(** The number of dates [RangeDateStr] makes. *)
Definition range_count (start end_ : Time) : Z :=
  i64 (f64_to_i64 (f64_div (Hours (TSub (EndTime end_) (StartTime start))) (f64_of_Z 24)) + 1).
Definition RangeDateStr (start end_ : Time) (layout : string) : list string :=
  let '(start, end_) := if nanos end_ <? nanos start then (end_, start) else (start, end_) in
  let layout := or_default layout LayoutDateISO8601 in
  let delta := range_count start end_ in
  if (delta <=? 0) || (maxRangeEntries <? delta) then []
  else if delta =? 1 then [format layout start]
  else (λ i, format layout (AddDate 0 0 (Z.of_nat i) start)) <$> seq 0 (Z.to_nat delta).

Definition StartTimeStr (layout : string) (t : Time) : string := format (or_default layout LayoutDateTime) (StartTime t).
Definition EndTimeStr (layout : string) (t : Time) : string := format (or_default layout LayoutDateTime) (EndTime t).
Definition StartEndTimeStr (layout : string) (t : Time) : string * string :=
  let layout := or_default layout LayoutDateTime in (format layout (StartTime t), format layout (EndTime t)).
Definition FirstDateTimeStrOfMonth (layout : string) (t : Time) : string := format (or_default layout DefaultLayoutDate) (FirstDateTimeOfMonth t).
Definition LastDateTimeStrOfMonth (layout : string) (t : Time) : string := format (or_default layout DefaultLayoutDate) (LastDateTimeOfMonth t).
Definition FirstDateTimeStrOfWeek (layout : string) (t : Time) (firstDay : Z) : string := format (or_default layout DefaultLayoutDate) (FirstDateTimeOfWeek t firstDay).
Definition LastDateTimeStrOfWeek (layout : string) (t : Time) (firstDay : Z) : string := format (or_default layout DefaultLayoutDate) (LastDateTimeOfWeek t firstDay).
Definition Format (layout : string) (t : Time) : string := format (or_default layout DefaultLayoutDateTime) t.

(** *** Parsing: [None] is an error *)

Definition ParseInLocation (layout value : string) (loc : option Location) : option Time :=
  let loc := match loc with Some l => l | None => Local end in parse layout value loc.
Definition Parse (layout value : string) : option Time := ParseInLocation layout value (Some Local).
Fixpoint ParseMostOneInLocation (layouts : list string) (value : string) (loc : option Location) : option Time :=
  match layouts with
  | [] => None
  | layout :: rest => match ParseInLocation layout value loc with Some t => Some t | None => ParseMostOneInLocation rest value loc end
  end.
Fixpoint ParseMostOne (layouts : list string) (value : string) : option Time :=
  match layouts with
  | [] => None
  | layout :: rest => match ParseInLocation layout value (Some Local) with Some t => Some t | None => ParseMostOne rest value end
  end.
Definition TimeStr2Unix (layout value : string) (loc : option Location) : option Z :=
  match ParseInLocation layout value loc with None => None | Some t => Some (nanos t / second) end.
Definition TimeStr2UnixMilli (layout value : string) (loc : option Location) : option Z :=
  match ParseInLocation layout value loc with None => None | Some t => Some (nanos t / 10 ^ 6) end.

End text.

(** ** Dates and days *)

Definition civil_valid (c : civil) : Prop := 1 ≤ Month c ≤ 12 ∧ 1 ≤ Day c ≤ month_length (Year c) (Month c).

(** The days of an era before the year [y] of it, from March to March. *)
Definition before (y : Z) : Z := 365 * y + y / 4 - y / 100.
Definition long_year (y : Z) : Prop := (y + 1) mod 4 = 0 ∧ ((y + 1) mod 100 ≠ 0 ∨ (y + 1) mod 400 = 0).

Lemma before_lt y y' doy : 0 ≤ y < y' → y' < 400 → doy ≤ 365 → (doy = 365 → long_year y) → before y + doy < before y'.
Proof. intros Hy Hy' Hd Hl. unfold before, long_year in *. destruct (Z.eq_dec doy 365) as [->|]; [destruct (Hl eq_refl) as [? [?|?]]|]; clear Hl; Z.div_mod_to_equations; lia. Qed.

Lemma year_of_era_unique doe y doy : 0 ≤ y < 400 → 0 ≤ doy ≤ 365 → (doy = 365 → long_year y) → doe = before y + doy → 0 ≤ doe < 146097 → year_of_era doe = y.
Proof.
  intros Hy Hd Hl -> Hr. set (doe := before y + doy) in *. pose proof (year_of_era_range doe Hr) as Hy'. pose proof (day_of_year_range doe Hr) as Hd'. pose proof (leap_day doe Hr) as Hl'.
  unfold day_of_year in Hd', Hl'. set (y' := year_of_era doe) in *. change (365 * y' + y' / 4 - y' / 100) with (before y') in Hd', Hl'. clearbody y'.
  destruct (Z.lt_trichotomy y y') as [Hlt|[->|Hgt]]; [exfalso|done|exfalso].
  - pose proof (before_lt y y' doy ltac:(lia) ltac:(lia) ltac:(lia) Hl). lia.
  - pose proof (before_lt y' y (doe - before y') ltac:(lia) ltac:(lia) ltac:(lia) Hl'). lia.
Qed.

Lemma era_days y doy : 0 ≤ y < 400 → 0 ≤ doy ≤ 365 → (doy = 365 → long_year y) → 0 ≤ before y + doy < 146097.
Proof.
  intros Hy Hd Hl. unfold before. destruct (Z.eq_dec y 399) as [->|]; [change (399 / 4) with 99; change (399 / 100) with 3; lia|].
  pose proof (before_lt y 399 doy ltac:(lia) ltac:(lia) ltac:(lia) Hl) as Hb. unfold before in *. change (399 / 4) with 99 in Hb. change (399 / 100) with 3 in Hb. split; [|lia]. Z.div_mod_to_equations. lia.
Qed.

(** The month from the day of the year, from March on. *)
Lemma month_of_day mp d doy : 0 ≤ mp ≤ 11 → 1 ≤ d ≤ (if mp =? 11 then 29 else if (mp =? 1) || (mp =? 3) || (mp =? 6) || (mp =? 8) then 30 else 31) →
  doy = (153 * mp + 2) / 5 + d - 1 → (5 * doy + 2) / 153 = mp ∧ doy - (153 * mp + 2) / 5 + 1 = d ∧ 0 ≤ doy ≤ 365 ∧ (doy = 365 → mp = 11 ∧ d = 29).
Proof.
  intros Hmp Hd ->. assert (mp = 0 ∨ mp = 1 ∨ mp = 2 ∨ mp = 3 ∨ mp = 4 ∨ mp = 5 ∨ mp = 6 ∨ mp = 7 ∨ mp = 8 ∨ mp = 9 ∨ mp = 10 ∨ mp = 11) as Hc by lia.
  destruct Hc as [->|[->|[->|[->|[->|[->|[->|[->|[->|[->|[->| ->]]]]]]]]]]]; cbn in Hd.
  all: match goal with |- context [(153 * ?k + 2) / 5] => let v := eval vm_compute in ((153 * k + 2) / 5) in change ((153 * k + 2) / 5) with v end.
  all: split; [Z.div_mod_to_equations; lia|lia].
Qed.

Lemma long_year_leap y : is_leap y = true → long_year ((y - 1) mod 400).
Proof. unfold is_leap, long_year. rewrite andb_true_iff, orb_true_iff, negb_true_iff, !Z.eqb_eq, Z.eqb_neq. intros. Z.div_mod_to_equations. lia. Qed.

(** The two conversions are inverse on the dates of the calendar. *)
Lemma civil_roundtrip c : civil_valid c → civil_from_days (days_from_civil c) = c.
Proof.
  intros [Hm Hd]. destruct c as [y m d]. unfold days_from_civil. cbn [Year Month Day] in *. set (y' := if m <=? 2 then y - 1 else y). set (mp := if 2 <? m then m - 3 else m + 9).
  assert ((m ≤ 2 ∧ y' = y - 1 ∧ mp = m + 9) ∨ (2 < m ∧ y' = y ∧ mp = m - 3)) as Hc by (unfold y', mp; destruct (Z.leb_spec m 2), (Z.ltb_spec 2 m); lia). clearbody y' mp.
  set (doy := (153 * mp + 2) / 5 + d - 1). pose proof (Z.mod_pos_bound y' 400 ltac:(lia)) as Hy. set (yoe := y' mod 400) in *.
  destruct (month_of_day mp d doy) as (Hmp & Hday & Hdoy & Hlong); [lia| |done|].
  { unfold month_length in Hd. split; [lia|]. destruct (Z.eqb_spec m 2), (is_leap y), (Z.eqb_spec mp 11), (Z.eqb_spec m 4), (Z.eqb_spec m 6), (Z.eqb_spec m 9), (Z.eqb_spec m 11), (Z.eqb_spec mp 1), (Z.eqb_spec mp 3), (Z.eqb_spec mp 6), (Z.eqb_spec mp 8); cbn in *; lia. }
  assert (doy = 365 → long_year yoe) as Hl.
  { intros [-> ->]%Hlong. assert (m = 2 ∧ y' = y - 1) as [-> ->] by lia. apply long_year_leap. unfold month_length in Hd. cbn in Hd. destruct (is_leap y); [done|lia]. }
  pose proof (era_days yoe doy Hy Hdoy Hl) as Hr. unfold civil_from_days.
  replace (y' / 400 * 146097 + (yoe * 365 + yoe / 4 - yoe / 100 + doy) - 719468 + 719468) with (before yoe + doy + y' / 400 * 146097) by (unfold before; lia).
  rewrite Z.div_add, Z.mod_add, Z.div_small, Z.mod_small, Z.add_0_l by lia. unfold day_of_year. rewrite (year_of_era_unique _ yoe doy) by done.
  replace (before yoe + doy - (365 * yoe + yoe / 4 - yoe / 100)) with doy by (unfold before; lia). rewrite Hmp, Hday. pose proof (Z.div_mod y' 400 ltac:(lia)) as Hdm. fold yoe in Hdm.
  f_equal; [|destruct (Z.ltb_spec mp 10); lia]. destruct (Z.ltb_spec mp 10); [destruct (Z.leb_spec (mp + 3) 2)|destruct (Z.leb_spec (mp - 9) 2)]; lia.
Qed.

Lemma date_valid t : civil_valid (Date t).
Proof. destruct (civil_from_days_ok (local_seconds t / 86400)) as (? & ? & _). done. Qed.

(** The day of an instant, since the epoch. *)
Definition local_day (t : Time) : Z := local_seconds t / 86400.

Lemma date_day t : days_from_civil (Date t) = local_day t.
Proof. apply days_from_civil_from_days. Qed.

Lemma days_linear y m d : days_from_civil (mkCivil y m 1) + d - 1 = days_from_civil (mkCivil y m d).
Proof. unfold days_from_civil. cbn [Year Month Day]. lia. Qed.

(** [time.Date] with a month in its year. *)
Lemma time_Date_nanos y m d h mi s ns loc : 1 ≤ m ≤ 12 →
  nanos (time_Date y m d h mi s ns loc) = days_from_civil (mkCivil y m d) * day + h * hour + mi * minute + s * second + ns - loc * second.
Proof.
  intros Hm. unfold time_Date. cbn [nanos]. rewrite Z.div_small, Z.mod_small by lia. rewrite Z.add_0_r, Z.sub_add, days_linear. done.
Qed.

Lemma days_plus c k : days_from_civil (mkCivil (Year c) (Month c) (Day c + k)) = days_from_civil c + k.
Proof. destruct c as [y m d]. unfold days_from_civil. cbn [Year Month Day]. lia. Qed.

Lemma nanos_fields t : nanos t = local_day t * day + Hour t * hour + Minute t * minute + Second t * second + Nanosecond t - zone t * second.
Proof.
  pose proof (local_seconds_fields t) as Hf. rewrite date_day in Hf. unfold local_seconds in Hf. unfold Nanosecond, day, hour, minute, second. pose proof (Z.div_mod (nanos t) (10 ^ 9) ltac:(lia)). lia.
Qed.

(** The day of an instant, from its nanoseconds. *)
Lemma local_day_spec t n : local_day t = n ↔ n * day ≤ nanos t + zone t * second < (n + 1) * day.
Proof.
  unfold local_day, local_seconds, day, hour, minute, second. pose proof (Z.div_mod (nanos t) (10 ^ 9) ltac:(lia)) as H1. pose proof (Z.mod_pos_bound (nanos t) (10 ^ 9) ltac:(lia)) as H2.
  set (q := nanos t / 10 ^ 9) in *. pose proof (Z.div_mod (q + zone t) 86400 ltac:(lia)). pose proof (Z.mod_pos_bound (q + zone t) 86400 ltac:(lia)). lia.
Qed.

Lemma time_eq t u : nanos t = nanos u → zone t = zone u → t = u.
Proof. destruct t, u. cbn. by intros -> ->. Qed.

Lemma day_units : day = 24 * hour ∧ hour = 60 * minute ∧ minute = 60 * second ∧ second = 1000000000.
Proof. done. Qed.
#[local] Opaque day hour minute second.

Lemma AddDate_days k t : AddDate 0 0 k t = mkTime (nanos t + k * day) (zone t).
Proof.
  destruct (date_valid t) as [Hm _]. apply time_eq; [|done]. unfold AddDate. rewrite time_Date_nanos by lia. rewrite !Z.add_0_r, days_plus, date_day. cbn [nanos]. rewrite (nanos_fields t). lia.
Qed.
Lemma time_of_date c h mi s ns loc : civil_valid c → nanos (time_Date (Year c) (Month c) (Day c) h mi s ns loc) = days_from_civil c * day + h * hour + mi * minute + s * second + ns - loc * second.
Proof. intros [Hm _]. rewrite time_Date_nanos by done. by destruct c. Qed.
Lemma StartTime_spec t : StartTime t = mkTime (local_day t * day - zone t * second) (zone t).
Proof. apply time_eq; [|done]. unfold StartTime. rewrite time_of_date, date_day by apply date_valid. cbn [nanos]. lia. Qed.
Lemma EndTime_spec t : EndTime t = mkTime ((local_day t + 1) * day - 1 - zone t * second) (zone t).
Proof. apply time_eq; [|done]. unfold EndTime. rewrite time_of_date, date_day by apply date_valid. cbn [nanos]. destruct day_units as (-> & -> & -> & ->). lia. Qed.

Definition between (a t b : Time) : Prop := nanos a ≤ nanos t ≤ nanos b.

(** The start and the end of a day are its first and last nanosecond: of the instants of the zone exactly those between them have the same date. *)
Theorem day_bounds t u : zone u = zone t → between (StartTime t) u (EndTime t) ↔ Date u = Date t.
Proof.
  intros Hz. rewrite StartTime_spec, EndTime_spec. unfold between. cbn [nanos]. assert (Date u = Date t ↔ local_day u = local_day t) as ->.
  { split; [|unfold Date, local_day; by intros ->]. intros Hd. by rewrite <-!date_day, Hd. }
  rewrite (local_day_spec u), Hz. lia.
Qed.

(** ** Weeks *)

Lemma local_day_shift t k : local_day (mkTime (nanos t + k * day) (zone t)) = local_day t + k.
Proof. apply local_day_spec. cbn [nanos zone]. pose proof (proj1 (local_day_spec t (local_day t)) eq_refl). lia. Qed.
Lemma local_day_start n z : local_day (mkTime (n * day - z * second) z) = n.
Proof. apply local_day_spec. cbn [nanos zone]. destruct day_units as (-> & -> & -> & ->). lia. Qed.

(** The first day of the week that holds [t]. *)
Definition week_day (t : Time) (firstDay : Z) : Z := local_day t - (Weekday t - firstDay + 7) mod 7.

Lemma first_of_week t f : 0 ≤ f ≤ 6 → FirstDateTimeOfWeek t f = mkTime (week_day t f * day - zone t * second) (zone t).
Proof.
  intros Hf. unfold FirstDateTimeOfWeek, week_day. assert (0 ≤ Weekday t < 7) by (apply Z.mod_pos_bound; lia). rewrite Z.rem_mod_nonneg by lia.
  rewrite AddDate_days, StartTime_spec, local_day_shift. cbn [zone]. by rewrite Z.add_opp_r.
Qed.

Lemma last_of_week t f : 0 ≤ f ≤ 6 → LastDateTimeOfWeek t f = mkTime ((week_day t f + 7) * day - 1 - zone t * second) (zone t).
Proof.
  intros Hf. unfold LastDateTimeOfWeek. rewrite first_of_week, AddDate_days, EndTime_spec, local_day_shift, local_day_start by done. cbn [zone]. do 3 f_equal. lia.
Qed.

(** The first instant of a week is midnight of the chosen weekday and the last one nanosecond before the next such midnight; [t] is between them. *)
Theorem week_bounds t f : 0 ≤ f ≤ 6 → let first := FirstDateTimeOfWeek t f in let last := LastDateTimeOfWeek t f in
  Weekday first = f ∧ StartTime first = first ∧ between first t last ∧ nanos last - nanos first = 7 * day - 1.
Proof.
  intros Hf first last. unfold first, last. rewrite first_of_week, last_of_week by done. assert (0 ≤ Weekday t < 7) as Hw by (apply Z.mod_pos_bound; lia).
  unfold Weekday in *. change (local_seconds ?x / 86400) with (local_day x) in *. rewrite StartTime_spec, local_day_start. cbn [zone nanos]. unfold week_day, Weekday, between. change (local_seconds ?x / 86400) with (local_day x). cbn [nanos].
  pose proof (proj1 (local_day_spec t (local_day t)) eq_refl) as Ht. set (n := local_day t) in *. set (r := ((n + 4) mod 7 - f + 7) mod 7).
  assert (0 ≤ r < 7 ∧ (n - r + 4) mod 7 = f) as [Hr Hrf] by (unfold r; Z.div_mod_to_equations; lia). clearbody r. assert (0 < day) by (destruct day_units as (-> & -> & -> & ->); lia). split; [done|]. split; [done|]. split; [nia|lia].
Qed.

(** ** Months *)

Lemma first_of_month t : FirstDateTimeOfMonth t = mkTime ((local_day t - Day (Date t) + 1) * day - zone t * second) (zone t).
Proof. unfold FirstDateTimeOfMonth. rewrite AddDate_days, StartTime_spec, local_day_shift. cbn [zone]. do 3 f_equal. lia. Qed.

Lemma month_start t : local_day t - Day (Date t) + 1 = days_from_civil (mkCivil (Year (Date t)) (Month (Date t)) 1).
Proof. rewrite <-date_day. destruct (Date t) as [y m d]. unfold days_from_civil. cbn. lia. Qed.

Lemma first_valid y m : 1 ≤ m ≤ 12 → civil_valid (mkCivil y m 1).
Proof. intros Hm. split; [done|]. cbn. unfold month_length. destruct (m =? 2); [destruct (is_leap y); lia|]. destruct (_ || _); lia. Qed.

Lemma before_global y k : y / 400 * 146097 + (y mod 400 * 365 + y mod 400 / 4 - y mod 400 / 100 + k) = 365 * y + y / 4 - y / 100 + y / 400 + k.
Proof. Z.div_mod_to_equations. lia. Qed.
Lemma div_pred y k : 0 < k → y / k = (y - 1) / k + if y mod k =? 0 then 1 else 0.
Proof. intros Hk. destruct (Z.eqb_spec (y mod k) 0); Z.div_mod_to_equations; nia. Qed.

(** The first of the next month is as many days on as the month has. *)
Lemma next_month y m : 1 ≤ m ≤ 12 → days_from_civil (mkCivil (y + m / 12) (m mod 12 + 1) 1) = days_from_civil (mkCivil y m (month_length y m + 1)).
Proof.
  intros Hm. assert (m = 1 ∨ m = 2 ∨ m = 3 ∨ m = 4 ∨ m = 5 ∨ m = 6 ∨ m = 7 ∨ m = 8 ∨ m = 9 ∨ m = 10 ∨ m = 11 ∨ m = 12) as Hc by lia.
  destruct Hc as [->|[->|[->|[->|[->|[->|[->|[->|[->|[->|[->| ->]]]]]]]]]]].
  all: match goal with |- context [?k mod 12] => let v := eval vm_compute in (k mod 12) in let w := eval vm_compute in (k / 12) in change (k mod 12) with v; change (k / 12) with w end.
  2: { change (2 + 1) with 3. unfold days_from_civil, month_length, is_leap. cbn. rewrite !Z.add_0_r. pose proof (before_global y 0) as G1. pose proof (before_global (y - 1) 0) as G2.
    pose proof (div_pred y 4 ltac:(lia)) as D4. pose proof (div_pred y 100 ltac:(lia)) as D100. pose proof (div_pred y 400 ltac:(lia)) as D400. change ((153 * (2 + 9) + 2) / 5) with 337.
    set (a := y / 400) in *. set (b := y mod 400 / 4) in *. set (c := y mod 400 / 100) in *. set (a' := (y - 1) / 400) in *. set (b' := (y - 1) mod 400 / 4) in *. set (c' := (y - 1) mod 400 / 100) in *.
    assert (y mod 400 = 0 → y mod 100 = 0) by (intros; Z.div_mod_to_equations; lia). assert (y mod 100 = 0 → y mod 4 = 0) by (intros; Z.div_mod_to_equations; lia).
    clearbody a b c a' b' c'. destruct (Z.eqb_spec (y mod 4) 0), (Z.eqb_spec (y mod 100) 0), (Z.eqb_spec (y mod 400) 0); cbn [andb orb negb] in *; try lia. }
  all: match goal with |- context [mkCivil (_ + _) (?k + 1) 1] => let v := eval vm_compute in (k + 1) in change (k + 1) with v end; unfold days_from_civil; cbn; rewrite ?Z.add_0_r, ?Z.add_simpl_r; repeat match goal with |- context [(153 * ?k + 2) / 5] => let v := eval vm_compute in ((153 * k + 2) / 5) in change ((153 * k + 2) / 5) with v end; lia.
Qed.

Lemma last_of_month t : LastDateTimeOfMonth t = mkTime ((local_day t - Day (Date t) + 1 + month_length (Year (Date t)) (Month (Date t))) * day - 1 - zone t * second) (zone t).
Proof.
  unfold LastDateTimeOfMonth. rewrite AddDate_days, EndTime_spec, local_day_shift. cbn [zone]. destruct (date_valid t) as [Hm Hd]. set (c := Date t) in *.
  set (e := mkTime _ (zone t)). assert (local_day e = days_from_civil (mkCivil (Year c) (Month c) 1)) as He.
  { pose proof (month_start t) as Hms. fold c in Hms. rewrite <-Hms. apply local_day_spec. unfold e. cbn [nanos zone]. destruct day_units as (-> & -> & -> & ->). lia. }
  assert (Date e = mkCivil (Year c) (Month c) 1) as HD by (change (Date e) with (civil_from_days (local_day e)); rewrite He; by apply civil_roundtrip, first_valid).
  apply time_eq; [|done]. unfold AddDate. rewrite HD. cbn [Year Month Day]. unfold time_Date. cbn [nanos]. rewrite !Z.add_0_r, Z.add_simpl_r, next_month by done.
  pose proof (clock_ranges e) as Hclock. pose proof (nanos_fields e) as Hf. rewrite He in Hf. pose proof (month_start t) as Hms. fold c in Hms.
  assert (days_from_civil (mkCivil (Year c) (Month c) (month_length (Year c) (Month c) + 1)) = days_from_civil (mkCivil (Year c) (Month c) 1) + month_length (Year c) (Month c)) as -> by (unfold days_from_civil; cbn; lia).
  rewrite <-Hms in Hf |- *. assert (nanos e = (local_day t - Day c + 1 + 1) * day - 1 - zone t * second) as Hn by (unfold e; cbn [nanos]; do 3 f_equal; lia). change (zone e) with (zone t) in *. rewrite Hn in Hf. lia.
Qed.

(** The bounds of a month are its first and last nanosecond: of the instants of the zone exactly those between them are in the same month of the same year. *)
Theorem month_bounds t u : zone u = zone t → between (FirstDateTimeOfMonth t) u (LastDateTimeOfMonth t) ↔ Year (Date u) = Year (Date t) ∧ Month (Date u) = Month (Date t).
Proof.
  intros Hz. rewrite first_of_month, last_of_month. unfold between. cbn [nanos]. set (a := local_day t - Day (Date t) + 1). set (n := month_length (Year (Date t)) (Month (Date t))).
  assert (a * day - zone t * second ≤ nanos u ≤ (a + n) * day - 1 - zone t * second ↔ a ≤ local_day u < a + n) as ->.
  { pose proof (proj1 (local_day_spec u (local_day u)) eq_refl) as Hu. rewrite Hz in Hu. assert (0 < day) by (destruct day_units as (-> & -> & -> & ->); lia). nia. }
  destruct (date_valid t) as [Htm Htd]. destruct (date_valid u) as [Hum Hud]. unfold a. rewrite month_start. split.
  - intros Hr. set (k := local_day u - days_from_civil (mkCivil (Year (Date t)) (Month (Date t)) 1)).
    assert (Date u = mkCivil (Year (Date t)) (Month (Date t)) (1 + k)) as ->; [|done]. change (Date u) with (civil_from_days (local_day u)).
    replace (local_day u) with (days_from_civil (mkCivil (Year (Date t)) (Month (Date t)) (1 + k))) by (rewrite <-days_linear; unfold k; lia).
    apply civil_roundtrip. split; [done|]. cbn [Year Month Day]. fold n. unfold k. lia.
  - intros [Hy Hmo]. pose proof (date_day u) as Hu. destruct (Date u) as [y m d]. cbn [Year Month Day] in *. subst y m. rewrite <-Hu, <-(days_linear _ _ d). fold n in Hud. lia.
Qed.

(** ** Differences and ranges *)

(** The count of days between two dates less than 106751 days apart is the number of midnights between them, whatever the zones, and changes only its sign when they are exchanged. *)
Theorem delta_days_exact s e : Z.abs (local_day e - local_day s) < 106751 → DeltaDateDays s e = local_day e - local_day s ∧ DeltaDateDays e s = - DeltaDateDays s e.
Proof.
  intros Hd. assert (∀ a b, Z.abs (local_day b - local_day a) < 106751 → DeltaDateDays a b = local_day b - local_day a) as Hgen; [|rewrite !Hgen by lia; lia].
  clear s e Hd. intros s e Hd. unfold DeltaDateDays. assert (∀ t, nanos (time_Date (Year (Date (StartTime t))) (Month (Date (StartTime t))) (Day (Date (StartTime t))) 0 0 0 0 0) = local_day t * day) as Hn.
  { intros t. rewrite time_of_date, date_day, StartTime_spec, local_day_start by apply date_valid. lia. }
  unfold TSub. rewrite !Hn. change (24 * hour) with day. rewrite Z.min_r, Z.max_r by (destruct day_units as (-> & -> & -> & ->); unfold_int; lia).
  rewrite <-Z.mul_sub_distr_r. apply Z.quot_mul. destruct day_units as (-> & -> & -> & ->). lia.
Qed.

Lemma delta_days_exact_witness : let s := mkTime 0 3600 in let e := mkTime (3 * 86400 * 10 ^ 9) 0 in DeltaDateDays s e = local_day e - local_day s ∧ DeltaDateDays e s = - DeltaDateDays s e.
Proof. apply (delta_days_exact (mkTime 0 3600) (mkTime (3 * 86400 * 10 ^ 9) 0)). vm_compute. reflexivity. Defined.

(** Three hundred years are counted as 106751 days. *)
Example delta_saturates : DeltaDateDays (time_Date 1900 1 1 0 0 0 0 0) (time_Date 2200 1 1 0 0 0 0 0) = 106751.
Proof. vm_compute. reflexivity. Qed.

(** For a positive interval and at most 10000 entries the range is every step from the earlier instant up to the later, both included where they are steps; otherwise it is empty. *)
Theorem range_time_exact a b interval : 0 < interval → let lo := Z.min (nanos a) (nanos b) in let hi := Z.max (nanos a) (nanos b) in hi - lo ≤ max_i64 →
  let n := (hi - lo) / interval + 1 in
  if n <=? maxRangeEntries then length (RangeTime a b interval) = Z.to_nat n ∧ ∀ i, 0 ≤ i → nanos <$> RangeTime a b interval !! Z.to_nat i = if lo + i * interval <=? hi then Some (lo + i * interval) else None
  else RangeTime a b interval = [].
Proof.
  intros Hi lo hi Hspan n. unfold RangeTime. rewrite (proj2 (Z.leb_gt interval 0)) by done. set (p := if nanos b <? nanos a then (b, a) else (a, b)).
  assert (nanos p.1 = lo ∧ nanos p.2 = hi) as [Hlo Hhi] by (unfold p, lo, hi; destruct (Z.ltb_spec (nanos b) (nanos a)); cbn; lia). destruct p as [s e]. cbn [fst snd] in *.
  assert (0 ≤ hi - lo) as Hnn by (unfold lo, hi; lia). clearbody lo hi. unfold TSub. rewrite Hlo, Hhi, Z.min_r, Z.max_r by (unfold_int; lia). rewrite Z.quot_div_nonneg by lia. fold n.
  pose proof (Z.mul_div_le (hi - lo) interval Hi) as Hq. pose proof (Z.mul_succ_div_gt (hi - lo) interval Hi) as Hq'. assert (0 ≤ (hi - lo) / interval) as Hq0 by (apply Z.div_pos; lia).
  destruct (Z.leb_spec n maxRangeEntries) as [Hle|Hgt].
  - assert (i64 n = n) as -> by (apply i64_id; unfold maxRangeEntries in Hle; unfold n in *; unfold_int; lia). rewrite (proj2 (Z.leb_gt n 0)), (proj2 (Z.ltb_ge _ n)) by (unfold n; lia). cbn [orb].
    assert (∀ i, 0 ≤ i → (lo + i * interval <=? hi) = (i <? n)) as Hcmp. { intros i Hi0. apply eq_true_iff_eq. rewrite Z.leb_le, Z.ltb_lt. unfold n. split; intros; nia. }
    destruct (Z.eqb_spec n 1) as [Hone|Hmany].
    + split; [by rewrite Hone|]. intros i Hi0. rewrite Hcmp, Hone by done. destruct (Z.ltb_spec i 1).
      * assert (i = 0) as -> by lia. change (Z.to_nat 0) with 0%nat. cbn [lookup list_lookup fmap option_fmap option_map]. f_equal. lia.
      * destruct (Z.to_nat i) eqn:Hz; [lia|done].
    + split; [by rewrite length_fmap, length_seq|]. intros i Hi0. rewrite Hcmp, list_lookup_fmap by done. destruct (Z.ltb_spec i n) as [Hlt|Hge].
      * rewrite lookup_seq_lt by lia. cbn. rewrite Z2Nat.id by lia. f_equal. assert (0 ≤ interval * i ≤ hi - lo) as Hstep by (clear - Hlt Hq Hq0 Hi Hi0; unfold n in Hlt; nia). rewrite Hlo, i64_id; [lia|]. clear - Hstep Hspan. unfold_int. lia.
      * by rewrite lookup_seq_ge by lia.
  - destruct (decide (n ≤ max_i64)) as [Hfit|Hbig].
    + rewrite i64_id by (unfold_int; lia). rewrite (proj2 (Z.ltb_lt _ n)) by done. by rewrite orb_true_r.
    + assert ((hi - lo) / interval ≤ hi - lo) by (apply Z.div_le_upper_bound; [done|]; clear - Hnn Hi; nia). assert (n = max_i64 + 1) as -> by (clear - Hbig H Hspan; unfold n in *; lia). done.
Qed.

(** ** Dates as text *)

Definition day_span (d : Z) : Z := i64 (f64_to_i64 (f64_div (Hours ((d + 1) * day - 1)) (f64_of_Z 24)) + 1).

Lemma range_count_span s e : zone e = zone s → 0 ≤ local_day e - local_day s < 10 ^ 5 → range_count s e = day_span (local_day e - local_day s).
Proof.
  intros Hz Hd. unfold range_count, day_span. do 5 f_equal. rewrite StartTime_spec, EndTime_spec, Hz. unfold TSub. cbn [nanos].
  assert ((local_day e + 1) * day - 1 - zone s * second - (local_day s * day - zone s * second) = (local_day e - local_day s + 1) * day - 1) as -> by lia.
  destruct day_units as (-> & -> & -> & ->). rewrite Z.min_r, Z.max_r by (unfold_int; lia). done.
Qed.

Lemma short_spans : forallb (λ d, day_span (Z.of_nat d) =? Z.of_nat d + 1) (seq 0 170) = true.
Proof. vm_compute. reflexivity. Qed.
Lemma short_span d : 0 ≤ d < 170 → day_span d = d + 1.
Proof. intros Hd. pose proof (proj1 (forallb_forall _ _) short_spans (Z.to_nat d) ltac:(apply in_seq; lia)) as Hs. cbn beta in Hs. rewrite Z2Nat.id in Hs by lia. by apply Z.eqb_eq. Qed.

Section text_proofs.
Context {Location : Type} (Local : Location) (format : string → Time → string) (parse : string → string → Location → option Time).

(** For two instants of one zone less than 170 days apart the result is one text per date, from the earlier date to the later, in order and without a gap. *)
Theorem range_dates_exact a b layout : zone a = zone b → let first := Z.min (local_day a) (local_day b) in let last := Z.max (local_day a) (local_day b) in last - first < 170 →
  ∃ ts, RangeDateStr format a b layout = format (or_default layout LayoutDateISO8601) <$> ts ∧ local_day <$> ts = (λ i, first + Z.of_nat i) <$> seq 0 (Z.to_nat (last - first + 1)).
Proof.
  intros Hz first last Hd. unfold RangeDateStr. set (p := if nanos b <? nanos a then (b, a) else (a, b)).
  assert (local_day p.1 = first ∧ local_day p.2 = last ∧ zone p.2 = zone p.1) as (Hs & He & Hze).
  { pose proof (proj1 (local_day_spec a _) eq_refl) as Ha. pose proof (proj1 (local_day_spec b _) eq_refl) as Hb. rewrite <-Hz in Hb. assert (0 < day) by (destruct day_units as (-> & -> & -> & ->); lia).
    unfold p, first, last. destruct (Z.ltb_spec (nanos b) (nanos a)); cbn [fst snd]; repeat split; try done; nia. }
  destruct p as [s e]. cbn [fst snd] in *. assert (0 ≤ last - first) as Hnn by (unfold first, last; lia). clearbody first last.
  rewrite range_count_span, Hs, He, short_span by (rewrite ?Hs, ?He; done || lia). rewrite (proj2 (Z.leb_gt _ 0)), (proj2 (Z.ltb_ge maxRangeEntries _)) by (unfold maxRangeEntries; lia). cbn [orb].
  destruct (Z.eqb_spec (last - first + 1) 1) as [Hone|_].
  - exists [s]. split; [done|]. rewrite Hone. cbn [fmap list_fmap]. rewrite Hs. change (Z.to_nat 1) with 1%nat. cbn. by rewrite Z.add_0_r.
  - exists ((λ i, AddDate 0 0 (Z.of_nat i) s) <$> seq 0 (Z.to_nat (last - first + 1))). rewrite <-!list_fmap_compose. split; [done|]. apply list_fmap_ext. intros i k _. unfold compose. by rewrite AddDate_days, local_day_shift, Hs.
Qed.

(** A year gives a date too many: 1 January 2023 to 1 January 2024 are 366 dates, and the result ends with 2 January 2024. *)
Example range_dates_extra : length (RangeDateStr format (time_Date 2023 1 1 0 0 0 0 0) (time_Date 2024 1 1 0 0 0 0 0) "") = 367%nat
  ∧ last (RangeDateStr format (time_Date 2023 1 1 0 0 0 0 0) (time_Date 2024 1 1 0 0 0 0 0) "") = Some (format LayoutDateISO8601 (time_Date 2024 1 2 0 0 0 0 0)).
Proof. vm_compute. done. Qed.

(** Of several layouts the first that parses the value decides; there is an error exactly when none does, and [ParseMostOne] is the same in the local zone. *)
Theorem parse_first layouts value loc : ParseMostOneInLocation Local parse layouts value loc = head (omap (λ l, ParseInLocation Local parse l value loc) layouts)
  ∧ (ParseMostOneInLocation Local parse layouts value loc = None ↔ ∀ l, l ∈ layouts → ParseInLocation Local parse l value loc = None)
  ∧ ParseMostOne Local parse layouts value = ParseMostOneInLocation Local parse layouts value (Some Local).
Proof.
  split; [|split].
  - induction layouts as [|l rest IH]; [done|]. cbn. by destruct (ParseInLocation _ _ l value loc).
  - induction layouts as [|l rest IH]; cbn; [set_solver|]. destruct (ParseInLocation _ _ l value loc) eqn:Hl; set_solver.
  - induction layouts as [|l rest IH]; [done|]. cbn. by rewrite IH.
Qed.
End text_proofs.
